(* ===== verification/_CoqProject ===== *)
-Q . S2P
Prelude.v
Types.v
Errors.v
Encoding.v
Msgpack.v
Sqlite.v
Kv.v
Counters.v
Edges.v
Keys.v
Nodes.v
Graph.v
EdgeSpec.v
NodeSpec.v
Schema.v
Storage.v
Traverse.v
Paths.v
Index.v
IndexSpec.v
IndexMaint.v
IndexCreate.v
Indexes.v
Fts.v
FtsSpec.v
FtsDdl.v
Tx.v
TxSpec.v
Transactions.v
Ast.v
Params.v
Caches.v
Ir.v
Engine.v
Database.v
DatabaseSpec.v
Handles.v
Ints.v
Chrono.v
Temporal.v
TemporalSerde.v
TemporalSpec.v
Floats.v
Durations.v
DurationTextSpec.v
DurationSpec.v
Temporals.v
Text.v
Compare.v
Records.v
ValueText.v
Functions.v
Eval.v
Aggregates.v
ReadOps.v
Writes.v
Executor.v
Iterators.v
Simulate.v
SlotSpec.v
PlanSim.v
IterSpec.v
ExprSpec.v
Expressions.v
Plans.v
SlotPlans.v
PlanHelpers.v
Validation.v
PlanPattern.v
Planner.v
PlanClauses.v
PlanSpec.v
Trails.v
Planning.v
MatchSpec.v
Pest.v
Parser.v
ParseStatement.v
ParseSpec.v
Parsing.v
