(* ===== verification/Prelude.v ===== *)
(** * graphdblite: a verification library for an embedded graph database

    graphdblite is an embedded property-graph database: a Cypher front end
    (parser, planner, executor) over a storage engine that keeps nodes, edges,
    indexes and counters in SQLite tables.  This library models the storage
    engine, its transactions, the database handle, the pipeline of a query with its
    checks and caches, the parser, the planner, the evaluation of expressions, the
    interpreters of plans with every operator that reads or writes, and the temporal
    values of the language; it proves them correct against an abstract property graph,
    the grammar of the language, a calendar, reference definitions and a model of the
    transactions of SQLite.

    ** How the program is put together

    - src/src/storage/kv.rs reads, writes and scans a table of byte keys;
    - src/src/storage/encoding.rs packs adjacency lists of node ids;
    - src/src/id.rs and src/src/stats.rs keep id generators and planner counters in
      the metadata table;
    - src/src/storage/node.rs and src/src/storage/edge.rs store nodes, adjacency
      lists, edge properties, and search the graph;
    - src/src/storage/index.rs keeps one table per secondary index,
      src/src/storage/fts.rs one FTS5 table per full-text index;
    - src/src/schema.rs creates the tables and migrates old layouts;
    - src/src/types.rs has the values and errors all of them share;
    - src/src/transaction.rs combines them: each write also maintains the indexes
      and reports whether the set of indexes changed;
    - src/src/db.rs owns the connection: it opens the file, begins and ends
      transactions, runs queries (src/src/cypher/mod.rs) and keeps two caches,
      src/src/cypher/parse_cache.rs and src/src/cypher/plan_cache.rs, the latter
      keyed by an epoch that index changes advance;
    - src/src/cypher/parser/ walks the parse tree that pest makes with
      src/src/cypher/grammar.pest and returns the syntax of src/src/cypher/ast.rs;
      src/src/cypher/planner/ (with cost.rs) checks it and turns it into the
      operators of src/src/cypher/ir.rs;
    - src/src/cypher/parser/resolve.rs checks parameters,
      src/src/cypher/executor/mod.rs checks plans and hands them to the
      interpreters of plans; src/src/cypher/eval/regex_cache.rs caches patterns;
    - src/src/cypher/eval/ evaluates expressions over a row
      (src/src/cypher/record.rs by names, src/src/cypher/record_v2.rs by slots),
      src/src/cypher/executor/ runs the operators of a plan: read.rs, path.rs,
      aggregate.rs and correlated.rs those that read, write.rs and merge.rs those
      that write, call.rs procedures (procedure.rs, builtin_procedures.rs);
      iter.rs pulls rows by name through a plan, iter_slot.rs rows by slots, with the
      schema that schema_infer.rs infers;
    - src/src/temporal.rs and src/src/cypher/eval/temporal_ops.rs implement the
      temporal types over the chrono library.

    ** Files

    - Prelude: bytes and their order, 64-bit words, results, the state-and-error
      monad [M], strings; the tactic [by_decide] and the rewriting lemmas on runs.
    - Types, Errors: src/src/types.rs.  [Value.value] with the source's equality,
      nodes, edges, paths; the error types, their constructors and rendering,
      name and size checks.
    - Encoding: src/src/storage/encoding.rs at 64-bit width.
    - Msgpack: the class of the serializer the source depends on (rmp_serde), its
      laws, and a reference instance [Reference] that satisfies them.
    - Sqlite: the class [SqlOps] of the statements the source issues, their laws
      [SqlLaws] through a view of a connection as tables, the in-memory instance
      [MemDb], and [refines], the simulation that carries a result about [MemDb]
      to every lawful connection.
    - Kv, Counters, Edges, Nodes, Schema, Index: the operations of kv.rs, of id.rs
      and stats.rs, edge.rs, node.rs, schema.rs and index.rs, one definition per
      function, with their simulations.
    - Keys: the byte layouts are unambiguous; adjacency lists as finite sets.
    - Graph: the abstract graph and [repr g d], the tables of [d] represent [g].
    - EdgeSpec, NodeSpec, Schema (its second part): each operation refines its effect
      on the abstract graph, and the queries of edge.rs answer from it.
    - Traverse, Paths, Trails: the searches of edge.rs and their correctness.
    - Index, IndexSpec, IndexMaint, IndexCreate: operations, names and
      contents of index tables, the invariant [indexed], maintenance loops, what a
      label scan selects, creation and removal, and that graph operations leave
      index tables alone.
    - Fts: the texts and the operations of fts.rs; FtsSpec, FtsDdl: contents and
      maintenance of the full-text tables, their separation from the others, what is
      read back from their names and CREATE statements, creation and removal.
    - Tx: the write operations of transaction.rs; TxSpec: their effect
      on the graph and all tables together.
    - Ast, Ir: the syntax (cypher/ast.rs) and the plans (cypher/ir.rs).
    - Pest: the rules of grammar.pest as data, the texts and trees they derive
      ([derives]), the class of the generated parser with its law, and a reference
      engine that satisfies it; Parser: the checks on a text, literals, and the walk
      over expressions, patterns and clauses; ParseStatement: statements and [parse];
      ParseSpec: which pairs a rule has inside, and that every function answers on the
      trees of its rule.
    - Params: the parameter check of parser/resolve.rs, and what occurs
      in a statement, independently of the check.
    - PlanHelpers, Validation, PlanPattern, Planner, PlanClauses: helpers.rs,
      validation.rs, pattern.rs with cost.rs, statement.rs and multi.rs, mod.rs of
      the planner, with the rewrites of plans; PlanSpec: what their plans have in
      common.
    - Caches: which plans may be cached; parse_cache.rs, regex_cache.rs and
      plan_cache.rs, with capacity, order of use and contents.
    - Engine: execute_cypher of cypher/mod.rs, the checks and the dispatch of
      executor/mod.rs, and that the checks are exact.
    - Database: db.rs and the transaction guards over the record [FrontEnd]
      (parser, planner, interpreters of plans) and the class [Faults] (which statement of a
      transaction fails, and how); DatabaseSpec: the state of a handle.
    - Ints, Floats: machine integers of 32 and 64 bits with their casts and their
      decimal texts; doubles, their casts to integers, their decimal texts and how
      they are printed.
    - Chrono: leap years, lengths of months, day numbers and their inverse,
      the class of the operations of chrono the source uses, its laws, and
      the reference instance [Gregorian] that satisfies them.
    - Temporal, Durations: temporal.rs, from its parsers and printers to differences
      and truncation; TemporalSerde: what the six types write to and read from a
      serializer; TemporalSpec, DurationSpec, DurationTextSpec: their properties.
    - Text: characters of UTF-8, case, trimming.
    - Records: rows by names and by slots, the view of a row ([RecordView])
      that expressions read, and the fields of a row that make up a node or
      relationship (executor/read.rs).
    - Compare: equality and order of values (eval/comparison.rs, executor/util.rs);
      ValueText: names of columns, and values as text (types.rs).
    - Functions, Eval: operators (with those of temporal_ops.rs), functions and
      expressions (eval/mod.rs, functions.rs, comprehension.rs, subquery.rs) in the
      monad [M], whose state is what the effects of an evaluation ([Effects]) need.
    - Aggregates: grouping, aggregation, sorting, DISTINCT (aggregate.rs).
    - ReadOps: the operators of read.rs and path.rs; Writes: those of write.rs and
      merge.rs; Executor: rows under an outer row (correlated.rs), procedures
      (call.rs), [exec] and [exec_correlated] over all operators, and the subqueries
      of util.rs.
    - Iterators: schema_infer.rs, iter_slot.rs and iter.rs.
    - Simulate: [msim], two computations in step: an expression evaluates alike
      with and without the regex cache; SlotSpec: and over both kinds of rows, with
      the orders of values and what sorting does; PlanSim, IterSpec: the same for
      plans and for iterators.  ExprSpec: lemmas on expressions.
    - Storage, Paths, Trails, Indexes, Transactions, Handles, Temporals, Expressions,
      Plans, SlotPlans, Planning, MatchSpec, Parsing, and the end of Engine: the main
      theorems, over any lawful connection, serializer, calendar and generated
      parser, with concrete databases, values and texts for their witnesses.

    ** Correspondence of state

    A connection is an arbitrary type with a view to tables ([db], a finite map
    from lower-case names to [tbl]).  A Rust function that takes [&Connection] is
    either a function of the connection (it only reads) or a computation in [M].
    As in the code, what was written before an error stays written: the enclosing
    database transaction undoes it.  [&str] and [String] are byte strings where
    they are taken apart and [string] elsewhere, [u64] is [N] below 2^64 and
    [i64], [i32], [u32] are [Z] in their range, with each wrap-around written out
    as in a release build; a panic is [Panic].  [f64] is [spec_float] at 53 bits,
    with one NaN.

    A [Database] handle is a record of the connection, the state of its
    transaction, the epoch and the caches.  SQLite keeps the durable contents and
    the contents inside the open transaction; [Faults] decides at each BEGIN,
    COMMIT and ROLLBACK whether it fails and whether a failing COMMIT rolled back.
    A guard of a transaction is its list of operations and the way it ends
    (committed, rolled back or dropped).

    ** What is proved

    - Refinement: creating, updating and deleting nodes and edges have exactly
      their effect on the abstract graph, with adjacency lists in both directions,
      property rows, label lists and all counters in agreement ([repr] is the
      invariant; every operation preserves it).
    - Reads: neighbours, parallel edges, records, label scans, prefix scans.
    - Searches: breadth-first search terminates and returns distances and minimal
      paths.
    - Indexes, full-text indexes: contents agree with the nodes after creation,
      maintenance and removal; lookups are exact; names are unambiguous.
    - Opening: fresh databases, reopening, version mismatch, the v2 to v3
      migration.
    - Transactions: every write operation keeps the graph, the indexes and the
      full-text tables in agreement, by induction over any sequence of them.
    - Handles: the durable contents change by reported commits only; an automatic
      transaction commits exactly on success; handle and caches stay well-formed;
      what a failing COMMIT leaves behind.
    - Parsing: [parse] ends, never panics, restores its depth counter and refuses
      only for the reasons listed; the checks on the text are exact; integer literals
      are their values or errors; quoted strings are read back.
    - Planning: a plan writes exactly when its statement does; the passes over plans
      settle; MATCH of a chain of nodes and relationships returns exactly the matches
      in the graph.
    - Queries: the parameter check, the checks on plans, what may be cached, the
      regex cache; iterators over slots answer like the operators on named rows;
      queries in read transactions leave the database alone.
    - Expressions: the same result over rows by names and by slots and with the
      regex cache as without it; the orders of values; sorting, grouping,
      aggregation, slices, ranges and quantifiers against reference definitions.
    - Temporal values: texts and serialized forms are read back; differences move
      one value to the other and count whole months; durations built from maps are
      exact within stated bounds; truncation finds the first day of a unit.
    - Divergences: theorems that exhibit where the code does not do what it means
      to (label scans by LIKE, case folding of table names, the unreachable v1
      migration, the hop range of [traverse], shadow tables of full-text indexes,
      plans that survive a rollback, leap seconds, 64-bit nanoseconds).

    ** Bounds and fuel

    Loops over lists are structural.  The searches take fuel, one unit per dequeued
    node: a node is enqueued at most once, so 2 |E| + 2 is enough for the
    breadth-first searches and the theorems prove that the result is produced.
    [like] takes the length of pattern and text, each step of the matcher consumes
    one of them; decimal texts take one unit per digit.  The two functions of the parser that call
    each other for expressions may do so [calls_for p] times, one more than twice the
    height of the tree; [parse_answers] proves that this is enough for every tree the
    grammar derives.  Subqueries inside plans are run to a depth that is an argument.
    Id and sequence allocation
    carry the hypothesis that the 64-bit space is not exhausted; exhaustion is an
    error in the model as in the code.

    ** Assumptions

    [SqlLaws] and [MsgpackLaws] state documented behaviour of SQLite and rmp_serde:
    tables are maps, scans of a table are in key order, the catalogue is listed in
    no fixed order, LIKE ignores ASCII case; frames are self-delimiting and decode
    to what was encoded within the recursion limit ([storable]).  A map is encoded
    in some fixed order of its keys.  Disk faults are outside [SqlLaws]; [Faults]
    covers those of transactions.  The database file is used by one connection.
    [ChronoLaws] states that chrono implements the proleptic Gregorian calendar in
    its range; the time zone database is a parameter without laws.  [SerdeLaws]
    states that an integer or string is read back from what was written for it.
    Each class has an instance in this library that satisfies its laws.
    [Libm], [Unicode] and [DebugText] are the elementary functions of f64, case
    mapping beyond ASCII and the text of a value under [{:?}]; [ChronoOrder] is the
    order of the types of chrono; [FtsSearch] is the ranked search of fts5;
    [Subqueries] is what the planner and a nested run answer for a pattern inside
    an expression, [Traversals] the searches of edge.rs with fuel, and [Pest] the
    parser generated from the grammar: [PestLaws] states that the trees it returns are
    derived from the text, [UnicodeLaws] that ASCII texts have ASCII lower case.  The others
    carry no laws unless a theorem names one.  The order in which a hash map is iterated
    is the order of [map_to_list].  SlotSpec uses functional extensionality.

    ** Not modelled

    The code pest generates from the grammar, and the text of its errors, are an
    argument; the reference engine of Pest is an executable stand-in with a depth of
    4096 calls.  [format_explain] (cost.rs) prints a plan.  [snapshot_to] and the
    creation of files are calls to the file system.  Tokenizing and ranking of
    full-text search belong to SQLite.  The bindings, the command-line shell, the
    conformance test support, the benches and the fuzz targets are glue. *)
From Stdlib Require Export Strings.Byte.
From stdpp Require Export gmap strings sorting numbers list.

(** ** Bytes *)

(** A Rust [u8] is Rocq's [byte]; a Rust [Vec<u8>] or [&[u8]] is a list. *)
Abbreviation bytes := (list byte).

Definition b2n (b : byte) : N := Byte.to_N b.

(** [n as u8]: truncation to the low eight bits. *)
Definition n2b (n : N) : byte :=
  match Byte.of_N (n mod 256) with Some b => b | None => x00 end.

Lemma b2n_lt b : (b2n b < 256)%N.
Proof. unfold b2n. pose proof (Byte.to_N_bounded b). lia. Qed.

Lemma n2b_b2n b : n2b (b2n b) = b.
Proof.
  unfold n2b. rewrite N.mod_small by apply b2n_lt.
  unfold b2n. by rewrite Byte.of_to_N.
Qed.

Lemma b2n_n2b n : b2n (n2b n) = (n mod 256)%N.
Proof.
  unfold n2b. destruct (Byte.of_N (n mod 256)) as [b|] eqn:E.
  - unfold b2n. by apply Byte.to_of_N in E.
  - apply Byte.of_N_None_iff in E.
    pose proof (N.mod_lt n 256). lia.
Qed.

#[global] Instance b2n_inj : Inj (=) (=) b2n.
Proof. intros a b E. by rewrite <- (n2b_b2n a), E, n2b_b2n. Qed.

#[global] Instance byte_eq_dec : EqDecision byte.
Proof.
  refine (λ a b, cast_if (decide (b2n a = b2n b))); [by apply (inj b2n)|congruence].
Defined.

#[global] Program Instance byte_countable : Countable byte :=
  {| encode b := encode (b2n b); decode p := n2b <$> decode p |}.
Next Obligation. intros b. simpl. rewrite decode_encode. simpl. by rewrite n2b_b2n. Qed.

(** ** The lexicographic order on byte strings

    SQLite's BINARY collation and Rust's [Ord] on [Vec<u8>] and [String]. *)
Fixpoint bytes_cmp (a b : bytes) : comparison :=
  match a, b with
  | [], [] => Eq
  | [], _ :: _ => Lt
  | _ :: _, [] => Gt
  | x :: a', y :: b' =>
      match (b2n x ?= b2n y)%N with Eq => bytes_cmp a' b' | c => c end
  end.

Definition bytes_lt (a b : bytes) : Prop := bytes_cmp a b = Lt.
Definition bytes_le (a b : bytes) : Prop := bytes_cmp a b ≠ Gt.

#[global] Instance bytes_lt_dec a b : Decision (bytes_lt a b).
Proof. unfold bytes_lt. apply _. Defined.
#[global] Instance bytes_le_dec a b : Decision (bytes_le a b).
Proof. unfold bytes_le. apply _. Defined.

Lemma bytes_cmp_eq a b : bytes_cmp a b = Eq ↔ a = b.
Proof.
  revert b. induction a as [|x a IH]; intros [|y b]; simpl; try done.
  destruct (N.compare_spec (b2n x) (b2n y)) as [E|E|E]; try done.
  - apply (inj b2n) in E as ->. rewrite IH. naive_solver.
  - split; [done|]. intros [= -> ->]. lia.
  - split; [done|]. intros [= -> ->]. lia.
Qed.

Lemma bytes_cmp_refl a : bytes_cmp a a = Eq.
Proof. by apply bytes_cmp_eq. Qed.

Lemma bytes_cmp_antisym a b : bytes_cmp b a = CompOpp (bytes_cmp a b).
Proof.
  revert b. induction a as [|x a IH]; intros [|y b]; simpl; try done.
  rewrite N.compare_antisym.
  destruct (N.compare (b2n x) (b2n y)); simpl; [apply IH|done..].
Qed.

#[global] Instance bytes_lt_trans : Transitive bytes_lt.
Proof.
  unfold bytes_lt. intros a b c. revert b c.
  induction a as [|x a IH]; intros [|y b] [|z c]; simpl; try done.
  destruct (N.compare_spec (b2n x) (b2n y)) as [E|E|E]; try done;
    destruct (N.compare_spec (b2n y) (b2n z)) as [F|F|F]; try done; intros H1 H2.
  - rewrite E, F, N.compare_refl. eauto.
  - rewrite E. by apply N.compare_lt_iff in F as ->.
  - rewrite <- F. by apply N.compare_lt_iff in E as ->.
  - assert ((b2n x < b2n z)%N) as G by lia. by apply N.compare_lt_iff in G as ->.
Qed.

#[global] Instance bytes_lt_irrefl : Irreflexive bytes_lt.
Proof. intros a H. unfold bytes_lt in H. by rewrite bytes_cmp_refl in H. Qed.

Lemma bytes_le_lt a b : bytes_le a b ↔ bytes_lt a b ∨ a = b.
Proof.
  unfold bytes_le, bytes_lt. rewrite <- bytes_cmp_eq.
  destruct (bytes_cmp a b); naive_solver.
Qed.

Lemma bytes_lt_le_cases a b : bytes_lt a b ∨ bytes_le b a.
Proof.
  unfold bytes_le, bytes_lt. rewrite (bytes_cmp_antisym a b).
  destruct (bytes_cmp a b); naive_solver.
Qed.

Lemma bytes_le_not_lt a b : bytes_le a b ↔ ¬ bytes_lt b a.
Proof.
  unfold bytes_le, bytes_lt. rewrite (bytes_cmp_antisym a b).
  destruct (bytes_cmp a b); naive_solver.
Qed.

#[global] Instance bytes_le_total : Total bytes_le.
Proof.
  intros a b. destruct (bytes_lt_le_cases a b) as [H|H]; [left|by right].
  apply bytes_le_lt. by left.
Qed.

#[global] Instance bytes_le_trans : Transitive bytes_le.
Proof.
  intros a b c. rewrite !bytes_le_lt. intros [H| ->] [G| ->]; auto.
  left. by trans b.
Qed.

(** ** Machine integers

    A [u64] is an [N]; every operation whose result may leave the range is
    written with its wrap-around or its check. *)
Definition u64_mod : N := 18446744073709551616.
Definition in_u64 (n : N) : Prop := (n < u64_mod)%N.
Definition u64_wrap (n : N) : N := (n mod u64_mod)%N.

#[global] Instance in_u64_dec n : Decision (in_u64 n).
Proof. unfold in_u64. apply _. Defined.

(** [u64::checked_add]. *)
Definition u64_checked_add (a b : N) : option N :=
  if decide (a + b < u64_mod)%N then Some (a + b)%N else None.

(** [u64::saturating_sub] ([N.sub] truncates at zero). *)
Definition u64_saturating_sub (a b : N) : N := (a - b)%N.

(** [a + b] and [a - b] in a release build: two's complement wrap-around. *)
Definition u64_add (a b : N) : N := u64_wrap (a + b).
Definition u64_sub (a b : N) : N := u64_wrap (a + u64_mod - b).

Lemma u64_wrap_small n : in_u64 n → u64_wrap n = n.
Proof. intros. by apply N.mod_small. Qed.
Lemma u64_wrap_in n : in_u64 (u64_wrap n).
Proof. by apply N.mod_lt. Qed.

Lemma u64_checked_add_spec a b :
  u64_checked_add a b = if decide (in_u64 (a + b)) then Some (a + b)%N else None.
Proof. unfold u64_checked_add, in_u64. by repeat case_decide. Qed.
Lemma u64_add_small a b : in_u64 (a + b) → u64_add a b = (a + b)%N.
Proof. apply u64_wrap_small. Qed.

(** *** Big-endian words: [to_be_bytes] and [from_be_bytes] *)
Fixpoint be_split (k : nat) (n : N) : bytes :=
  match k with
  | O => []
  | S k' => be_split k' (n / 256) ++ [n2b n]
  end.

Definition be_combine (l : bytes) : N := foldl (λ acc b, (acc * 256 + b2n b)%N) 0%N l.

Definition u64_to_be (n : N) : bytes := be_split 8 n.

(** [u64::from_be_bytes(raw.get(..8)...)]: the first eight bytes, when there
    are that many. *)
Definition u64_from_be_prefix (l : bytes) : option N :=
  if decide (8 ≤ length l) then Some (be_combine (take 8 l)) else None.

Arguments u64_to_be : simpl never.
Arguments u64_from_be_prefix : simpl never.

Lemma length_be_split k n : length (be_split k n) = k.
Proof.
  revert n. induction k as [|k IH]; intros n; simpl; [done|].
  rewrite length_app, IH. simpl. lia.
Qed.

Lemma be_combine_split k n : be_combine (be_split k n) = (n mod 256 ^ N.of_nat k)%N.
Proof.
  revert n. induction k as [|k IH]; intros n; simpl.
  { by rewrite N.mod_1_r. }
  unfold be_combine. rewrite foldl_app. simpl. fold (be_combine (be_split k (n / 256))).
  rewrite IH, b2n_n2b, Nat2N.inj_succ, N.pow_succ_r'.
  rewrite N.Div0.mod_mul_r. lia.
Qed.

Lemma length_u64_to_be n : length (u64_to_be n) = 8.
Proof. apply length_be_split. Qed.

Lemma u64_from_to_be n rest :
  in_u64 n → u64_from_be_prefix (u64_to_be n ++ rest) = Some n.
Proof.
  intros H. unfold u64_from_be_prefix.
  rewrite length_app, length_u64_to_be. rewrite decide_True by lia.
  rewrite take_app_length' by (by rewrite length_u64_to_be).
  unfold u64_to_be. rewrite be_combine_split. f_equal. by apply N.mod_small.
Qed.

Lemma u64_from_to_be_nil n : in_u64 n → u64_from_be_prefix (u64_to_be n) = Some n.
Proof. intros. rewrite <- (app_nil_r (u64_to_be n)). by apply u64_from_to_be. Qed.

Lemma u64_to_be_inj m n : in_u64 m → in_u64 n → u64_to_be m = u64_to_be n → m = n.
Proof.
  intros Hm Hn E. apply u64_from_to_be_nil in Hm, Hn. rewrite E in Hm. congruence.
Qed.

Lemma be_split_lt k m n :
  (m < n)%N → (n < 256 ^ N.of_nat k)%N → bytes_lt (be_split k m) (be_split k n).
Proof.
  revert m n. induction k as [|k IH]; intros m n Hmn Hn; simpl.
  { simpl in Hn. lia. }
  rewrite Nat2N.inj_succ, N.pow_succ_r' in Hn.
  pose proof (N.div_mod m 256 ltac:(lia)). pose proof (N.div_mod n 256 ltac:(lia)).
  pose proof (N.mod_lt m 256 ltac:(lia)). pose proof (N.mod_lt n 256 ltac:(lia)).
  assert (∀ a b x y, length a = length b →
    bytes_cmp (a ++ x) (b ++ y) =
    match bytes_cmp a b with Eq => bytes_cmp x y | c => c end) as Happ.
  { clear. induction a as [|u a IHa]; intros [|v b] x y; simpl; try done.
    intros [= ?]. destruct (b2n u ?= b2n v)%N; auto. }
  unfold bytes_lt in *. rewrite Happ by by rewrite !length_be_split.
  destruct (decide (m / 256 = n / 256)%N) as [E|E].
  - rewrite E, bytes_cmp_refl. simpl. rewrite !b2n_n2b.
    assert (m mod 256 < n mod 256)%N as L by lia. by apply N.compare_lt_iff in L as ->.
  - pose proof (N.Div0.div_le_mono m n 256 ltac:(lia)).
    rewrite IH; [done|lia|]. by apply N.Div0.div_lt_upper_bound.
Qed.

(** ** Results and stateful computations

    [result E A] is what running a Rust function of type [Result<A, E>] gives:
    a value, an error, or a panic.  [M S E A] is a function that runs against a
    mutable store of type [S].  As in the code, the changes made before an
    error stay in the store: it is the enclosing database transaction that
    undoes them. *)
Inductive result (E A : Type) : Type :=
  | Ok (a : A)
  | Err (e : E)
  | Panic.
Arguments Ok {E A} a.
Arguments Err {E A} e.
Arguments Panic {E A}.

Definition M (S E A : Type) : Type := S → S * result E A.

#[global] Instance result_ret E : MRet (result E) := λ A a, Ok a.
#[global] Instance result_bind E : MBind (result E) := λ A B f r,
  match r with Ok a => f a | Err e => Err e | Panic => Panic end.
#[global] Instance result_fmap E : FMap (result E) := λ A B f r,
  match r with Ok a => Ok (f a) | Err e => Err e | Panic => Panic end.

#[global] Instance M_ret S E : MRet (M S E) := λ A a s, (s, Ok a).
#[global] Instance M_bind S E : MBind (M S E) := λ A B f m s,
  match m s with
  | (s', Ok a) => f a s'
  | (s', Err e) => (s', Err e)
  | (s', Panic) => (s', Panic)
  end.

(** A computation that only reads the store. *)
Definition reads {S E A} (f : S → result E A) : M S E A := λ s, (s, f s).
(** [return Err(e)] and the [?] on a pure result. *)
Definition throw {S E A} (e : E) : M S E A := λ s, (s, Err e).
Definition lift {S E A} (r : result E A) : M S E A := λ s, (s, r).

(** [opt.ok_or(e)]. *)
Definition ok_or {E A} (o : option A) (e : E) : result E A :=
  match o with Some a => Ok a | None => Err e end.

(** [for x in l { f(x)?; }]: stops at the first error. *)
Fixpoint for_each {S E A} (f : A → M S E unit) (l : list A) : M S E unit :=
  match l with
  | [] => mret ()
  | x :: l' => f x ;; for_each f l'
  end.

(** The same loop over a function that does not touch the store. *)
Fixpoint for_each_r {E A} (f : A → result E unit) (l : list A) : result E unit :=
  match l with
  | [] => Ok ()
  | x :: l' => f x ≫= λ _, for_each_r f l'
  end.

(** [l.map(f).collect::<Result<Vec<_>, _>>()]. *)
Fixpoint collect {E A B} (f : A → result E B) (l : list A) : result E (list B) :=
  match l with
  | [] => Ok []
  | x :: l' => y ← f x; ys ← collect f l'; Ok (y :: ys)
  end.

(** Proves a decidable closed statement by evaluating its decision procedure:
    finite maps are compared by their contents. *)
Ltac by_decide :=
  match goal with |- ?P => refine (@bool_decide_unpack P _ _); vm_compute; exact I end.

(** Every statement of the development runs such computations, so these are
    its rewriting rules. *)
Create HintDb run discriminated.

Lemma run_ret {S E A} (a : A) (s : S) : (mret a : M S E A) s = (s, Ok a).
Proof. done. Qed.
Lemma run_reads {S E A B} (f : S → result E A) (k : A → M S E B) s a :
  f s = Ok a → (reads f ≫= k) s = k a s.
Proof. intros H. unfold mbind, M_bind, reads. by rewrite H. Qed.
Lemma run_reads_err {S E A B} (f : S → result E A) (k : A → M S E B) s e :
  f s = Err e → (reads f ≫= k) s = (s, Err e).
Proof. intros H. unfold mbind, M_bind, reads. by rewrite H. Qed.
Lemma run_bind {S E A B} (m : M S E A) (k : A → M S E B) s s' a :
  m s = (s', Ok a) → (m ≫= k) s = k a s'.
Proof. intros H. unfold mbind, M_bind. by rewrite H. Qed.
Lemma run_bind_err {S E A B} (m : M S E A) (k : A → M S E B) s s' e :
  m s = (s', Err e) → (m ≫= k) s = (s', Err e).
Proof. intros H. unfold mbind, M_bind. by rewrite H. Qed.
Lemma run_bind_assoc {S E A B C} (m : M S E A) (f : A → M S E B) (k : B → M S E C) s :
  ((m ≫= f) ≫= k) s = (m ≫= (λ x, f x ≫= k)) s.
Proof. unfold mbind, M_bind. by destruct (m s) as [s' [a|e|]]. Qed.

(** ** Results

    [P] holds of what a computation returns, whenever it returns. *)
Definition yields {S E A} (m : M S E A) (P : A → Prop) : Prop :=
  ∀ s s' a, m s = (s', Ok a) → P a.
Definition gives {E A} (r : result E A) (P : A → Prop) : Prop := ∀ a, r = Ok a → P a.

Lemma yields_any {S E A} (m : M S E A) : yields m (λ _, True).
Proof. by intros ???. Qed.
Lemma gives_any {E A} (r : result E A) : gives r (λ _, True).
Proof. by intros ?. Qed.

Section yields.
Context {S E A B : Type}.
Implicit Types (P : A → Prop) (Q : B → Prop).

Lemma yields_ret P a : P a → yields (mret a : M S E A) P.
Proof. by intros ? ??? [= _ <-]. Qed.
Lemma yields_throw P e : yields (throw e : M S E A) P.
Proof. by intros ???. Qed.
Lemma yields_lift P r : gives r P → yields (lift r : M S E A) P.
Proof. intros H s s' a [= _ Hr]. by apply H. Qed.
Lemma yields_bind P Q (m : M S E B) (k : B → M S E A) :
  yields m Q → (∀ b, Q b → yields (k b) P) → yields (m ≫= k) P.
Proof.
  intros Hm Hk s s' a. unfold mbind, M_bind. destruct (m s) as [s1 [b|e|]] eqn:Hs; [|done|done].
  intros Ha. by eapply Hk; [eapply Hm|].
Qed.
Lemma yields_bind_any P (m : M S E B) (k : B → M S E A) :
  (∀ b, yields (k b) P) → yields (m ≫= k) P.
Proof. intros Hk. apply (yields_bind _ (λ _, True)); [apply yields_any|auto]. Qed.

Lemma gives_ok P a : P a → gives (Ok a : result E A) P.
Proof. by intros ?? [= <-]. Qed.
Lemma gives_err P e : gives (Err e : result E A) P.
Proof. by intros ?. Qed.
Lemma gives_panic P : gives (Panic : result E A) P.
Proof. by intros ?. Qed.
Lemma gives_then P Q (r : result E B) (k : B → result E A) :
  gives r Q → (∀ b, Q b → gives (k b) P) → gives (r ≫= k) P.
Proof. intros Hr Hk. destruct r as [b|e|]; intros a Ha; [|done|done]. by eapply Hk; [apply Hr|]. Qed.
Lemma gives_bind_any P (r : result E B) (k : B → result E A) :
  (∀ b, gives (k b) P) → gives (r ≫= k) P.
Proof. intros Hk. apply (gives_then _ (λ _, True)); [apply gives_any|auto]. Qed.
End yields.

Lemma list_filter_all {A} (P : A → Prop) `{!∀ x, Decision (P x)} (l : list A) :
  (∀ x, x ∈ l → P x) → filter P l = l.
Proof.
  induction l as [|x l IH]; intros Hl; [done|]. rewrite filter_cons_True by (apply Hl; left).
  f_equal. apply IH. intros y Hy. apply Hl. by right.
Qed.

Lemma collect_ok {E A B} (f : A → result E B) (g : A → B) l :
  (∀ x, x ∈ l → f x = Ok (g x)) → collect f l = Ok (g <$> l).
Proof.
  induction l as [|x l IH]; intros H; simpl; [done|].
  rewrite H by set_solver. rewrite IH by set_solver. done.
Qed.

Lemma for_each_r_ok {E A} (f : A → result E unit) l :
  for_each_r f l = Ok () ↔ ∀ x, x ∈ l → f x = Ok ().
Proof.
  induction l as [|x l IH]; simpl; [set_solver|].
  destruct (f x) as [[]|e|] eqn:E1; simpl.
  - rewrite IH. split; [intros H y [->|]%elem_of_cons; auto|].
    intros H y Hy. apply H. by right.
  - split; [done|]. intros H. rewrite H in E1 by left. done.
  - split; [done|]. intros H. rewrite H in E1 by left. done.
Qed.

(** ** Strings

    A Rust [String] is its sequence of bytes; Rocq's [string] is one. *)
Definition str_bytes (s : string) : bytes := String.list_byte_of_string s.
Definition bytes_str (l : bytes) : string := String.string_of_list_byte l.
(** [str::len]: the number of bytes. *)
Definition str_len (s : string) : nat := length (str_bytes s).

#[global] Instance str_bytes_inj : Inj (=) (=) str_bytes.
Proof.
  intros s t E. unfold str_bytes in E.
  by rewrite <- (String.string_of_list_byte_of_string s), E,
    String.string_of_list_byte_of_string.
Qed.
Lemma bytes_str_bytes s : bytes_str (str_bytes s) = s.
Proof. apply String.string_of_list_byte_of_string. Qed.
Lemma str_bytes_str l : str_bytes (bytes_str l) = l.
Proof. apply String.list_byte_of_string_of_list_byte. Qed.
Lemma str_bytes_app s t : str_bytes (s +:+ t) = str_bytes s ++ str_bytes t.
Proof.
  unfold str_bytes. induction s as [|c s IH]; [done|].
  change (Ascii.byte_of_ascii c :: String.list_byte_of_string (s +:+ t)
    = Ascii.byte_of_ascii c :: (String.list_byte_of_string s ++ String.list_byte_of_string t)).
  by rewrite IH.
Qed.
Lemma str_bytes_nil s : str_bytes s = [] → s = "".
Proof. by destruct s. Qed.

(** [slice.join(sep)]. *)
Fixpoint join (sep : string) (l : list string) : string :=
  match l with
  | [] => ""
  | [s] => s
  | s :: l' => s +:+ sep +:+ join sep l'
  end.

(** [l.strip_prefix(p)] on byte strings. *)
Fixpoint bytes_strip_prefix (p l : bytes) : option bytes :=
  match p, l with
  | [], _ => Some l
  | x :: p', y :: l' => if decide (x = y) then bytes_strip_prefix p' l' else None
  | _ :: _, [] => None
  end.
Definition strip_prefix (p s : string) : option string :=
  bytes_str <$> bytes_strip_prefix (str_bytes p) (str_bytes s).

Lemma bytes_strip_prefix_spec p l r : bytes_strip_prefix p l = Some r ↔ l = p ++ r.
Proof.
  revert l. induction p as [|x p IH]; intros l; simpl; [naive_solver|].
  destruct l as [|y l]; [naive_solver|]. case_decide as E.
  - rewrite IH. naive_solver.
  - naive_solver.
Qed.

(** [str::split(c)] for an ASCII separator: always at least one piece. *)
Fixpoint bytes_split (c : byte) (l : bytes) : list bytes :=
  match l with
  | [] => [[]]
  | x :: l' =>
      if decide (x = c) then [] :: bytes_split c l'
      else match bytes_split c l' with
           | [] => [[x]]
           | p :: ps => (x :: p) :: ps
           end
  end.

Lemma bytes_split_app c p l :
  c ∉ p → bytes_split c (p ++ c :: l) = p :: bytes_split c l.
Proof.
  induction p as [|x p IH]; intros Hc; simpl.
  - by rewrite decide_True.
  - rewrite decide_False by set_solver. by rewrite IH by set_solver.
Qed.
Lemma bytes_split_one c p : c ∉ p → bytes_split c p = [p].
Proof.
  induction p as [|x p IH]; intros Hc; simpl; [done|].
  rewrite decide_False by set_solver. by rewrite IH by set_solver.
Qed.

(** [str::split(c)] as strings. *)
Definition str_split (c : byte) (s : string) : list string :=
  bytes_str <$> bytes_split c (str_bytes s).

(** The text before and after the first occurrence of [c]: [str::find] with
    [split_at] and the separator dropped. *)
Fixpoint bytes_split_once (c : byte) (l : bytes) : option (bytes * bytes) :=
  match l with
  | [] => None
  | x :: l' =>
      if decide (x = c) then Some ([], l')
      else (λ p : bytes * bytes, (x :: p.1, p.2)) <$> bytes_split_once c l'
  end.
Definition split_once (c : byte) (s : string) : option (string * string) :=
  (λ p : bytes * bytes, (bytes_str p.1, bytes_str p.2)) <$> bytes_split_once c (str_bytes s).

(** [str::contains]. *)
Fixpoint bytes_contains (p l : bytes) : bool :=
  bool_decide (p `prefix_of` l)
  || match l with [] => false | _ :: l' => bytes_contains p l' end.
Definition str_contains (s sub : string) : bool := bytes_contains (str_bytes sub) (str_bytes s).

Lemma bytes_contains_prefix p l : p `prefix_of` l → bytes_contains p l = true.
Proof. intros H. destruct l; simpl; by rewrite bool_decide_eq_true_2. Qed.

(** ** Character classes and UTF-8 *)
(** [u8::is_ascii_alphanumeric]. *)
Definition is_ascii_alphanumeric (b : byte) : bool :=
  let n := b2n b in
  ((48 <=? n) && (n <=? 57) || (65 <=? n) && (n <=? 90) || (97 <=? n) && (n <=? 122))%N.

(** [str::from_utf8]: the well-formed sequences of the Unicode standard. *)
Definition utf8_cont (b : byte) : bool := let n := b2n b in ((128 <=? n) && (n <=? 191))%N.
Definition byte_in (lo hi : N) (b : byte) : bool :=
  let n := b2n b in ((lo <=? n) && (n <=? hi))%N.

Fixpoint utf8_valid (l : bytes) : bool :=
  match l with
  | [] => true
  | a :: l1 =>
      if byte_in 0 127 a then utf8_valid l1 else
      match l1 with
      | [] => false
      | b :: l2 =>
          if byte_in 194 223 a then utf8_cont b && utf8_valid l2 else
          match l2 with
          | [] => false
          | c :: l3 =>
              if byte_in 224 239 a then
                (if byte_in 224 224 a then byte_in 160 191 b
                 else if byte_in 237 237 a then byte_in 128 159 b
                 else utf8_cont b) && utf8_cont c && utf8_valid l3
              else
              match l3 with
              | [] => false
              | d :: l4 =>
                  byte_in 240 244 a
                  && (if byte_in 240 240 a then byte_in 144 191 b
                      else if byte_in 244 244 a then byte_in 128 143 b
                      else utf8_cont b)
                  && utf8_cont c && utf8_cont d && utf8_valid l4
              end
          end
      end
  end.

Definition from_utf8 (l : bytes) : option string :=
  if utf8_valid l then Some (bytes_str l) else None.

Lemma utf8_valid_ascii l : Forall (λ b, byte_in 0 127 b = true) l → utf8_valid l = true.
Proof. induction 1 as [|b l Hb _ IH]; simpl; [done|]. by rewrite Hb. Qed.

(** [str::is_char_boundary] at [n], for [n <= len]. *)
Definition is_char_boundary (s : string) (n : nat) : bool :=
  match str_bytes s !! n with
  | Some b => negb (utf8_cont b)
  | None => bool_decide (n = str_len s)
  end.

(** [&s[..n]]: panics out of range or inside a character. *)
Definition str_slice_to {E} (s : string) (n : nat) : result E string :=
  if is_char_boundary s n then Ok (bytes_str (take n (str_bytes s))) else Panic.
