(* ===== verification/Types.v ===== *)
(** * Values, identifiers, names and errors: src/src/types.rs

    The dynamic [Value] with the temporal payloads of src/src/temporal.rs, the
    node, edge and path records, the error taxonomy with its constructors and
    setters, and the name and size checks every write goes through. *)
From stdpp Require Import pretty.
From S2P Require Export Prelude.

(** ** Temporal payloads

    The calendar types are chrono's; a value is determined by the fields the
    code reads off it: year, month and day of a date; seconds from midnight
    and nanosecond of a time; seconds east of UTC of an offset. *)
Record NaiveDate := mkDate { year : Z; month : Z; day : Z }.
Record NaiveTime := mkTime { num_seconds_from_midnight : Z; nanosecond : Z }.
Record NaiveDateTime := mkDateTime { dt_date : NaiveDate; dt_time : NaiveTime }.
Record FixedOffset := mkOffset { local_minus_utc : Z }.

Record CypherDuration := mkDuration {
  months : Z; days : Z; seconds : Z; nanos : Z }.

#[global] Instance NaiveDate_eq_dec : EqDecision NaiveDate.
Proof. solve_decision. Defined.
#[global] Instance NaiveTime_eq_dec : EqDecision NaiveTime.
Proof. solve_decision. Defined.
#[global] Instance NaiveDateTime_eq_dec : EqDecision NaiveDateTime.
Proof. solve_decision. Defined.
#[global] Instance FixedOffset_eq_dec : EqDecision FixedOffset.
Proof. solve_decision. Defined.
#[global] Instance CypherDuration_eq_dec : EqDecision CypherDuration.
Proof. solve_decision. Defined.

(** ** Nodes, edges, paths, values *)

(** [NodeId(pub u64)]. *)
Abbreviation NodeId := N (only parsing).

Record node_of (V : Type) := mkNode {
  node_id : NodeId;
  node_labels : list string;
  node_properties : gmap string V }.
Arguments mkNode {V} _ _ _.
Arguments node_id {V} _.
Arguments node_labels {V} _.
Arguments node_properties {V} _.

Record edge_of (V : Type) := mkEdge {
  edge_src : NodeId;
  edge_dst : NodeId;
  edge_label : string;
  edge_properties : gmap string V }.
Arguments mkEdge {V} _ _ _ _.
Arguments edge_src {V} _.
Arguments edge_dst {V} _.
Arguments edge_label {V} _.
Arguments edge_properties {V} _.

Record path_of (V : Type) := mkPath {
  path_nodes : list (node_of V);
  path_edges : list (edge_of V) }.
Arguments mkPath {V} _ _.
Arguments path_nodes {V} _.
Arguments path_edges {V} _.

Module Value.
#[warnings="-register-all"]
Inductive value : Type :=
  | Null
  | Bool (b : bool)
  | I64 (n : Z)
  | F64 (bits : N) (** the IEEE-754 bit pattern *)
  | String (s : string)
  | List (items : list value)
  | Node (n : node_of value)
  | Edge (e : edge_of value)
  | Path (p : path_of value)
  | Map (m : gmap string value)
  | Date (d : NaiveDate)
  | LocalTime (t : NaiveTime)
  | Time (t : NaiveTime) (off : FixedOffset)
  | LocalDateTime (dt : NaiveDateTime)
  | DateTime (dt : NaiveDateTime) (off : FixedOffset) (tz : option string)
  | Duration (d : CypherDuration).
End Value.
Abbreviation value := Value.value.

Abbreviation Properties := (gmap string value).
Abbreviation Node := (node_of value).
Abbreviation Edge := (edge_of value).
Abbreviation PathValue := (path_of value).

#[global] Instance node_of_eq_dec V `{EqDecision V} : EqDecision (node_of V).
Proof.
  refine (λ x y, cast_if_and3 (decide (node_id x = node_id y))
    (decide (node_labels x = node_labels y))
    (decide (node_properties x = node_properties y)));
    destruct x, y; simpl in *; congruence.
Defined.
#[global] Instance edge_of_eq_dec V `{EqDecision V} : EqDecision (edge_of V).
Proof.
  refine (λ x y, cast_if_and4 (decide (edge_src x = edge_src y))
    (decide (edge_dst x = edge_dst y)) (decide (edge_label x = edge_label y))
    (decide (edge_properties x = edge_properties y)));
    destruct x, y; simpl in *; congruence.
Defined.
#[global] Instance path_of_eq_dec V `{EqDecision V} : EqDecision (path_of V).
Proof.
  refine (λ x y, cast_if_and (decide (path_nodes x = path_nodes y))
    (decide (path_edges x = path_edges y)));
    destruct x, y; simpl in *; congruence.
Defined.

#[global] Instance value_eq_dec : EqDecision value.
Proof.
  refine (fix go (x y : value) {struct x} : Decision (x = y) :=
    let _ : EqDecision value := go in
    match x, y with
    | Value.Null, Value.Null => left eq_refl
    | Value.Bool a, Value.Bool b => cast_if (decide (a = b))
    | Value.I64 a, Value.I64 b => cast_if (decide (a = b))
    | Value.F64 a, Value.F64 b => cast_if (decide (a = b))
    | Value.String a, Value.String b => cast_if (decide (a = b))
    | Value.List a, Value.List b => cast_if (decide (a = b))
    | Value.Node a, Value.Node b => cast_if (decide (a = b))
    | Value.Edge a, Value.Edge b => cast_if (decide (a = b))
    | Value.Path a, Value.Path b => cast_if (decide (a = b))
    | Value.Map a, Value.Map b => cast_if (decide (a = b))
    | Value.Date a, Value.Date b => cast_if (decide (a = b))
    | Value.LocalTime a, Value.LocalTime b => cast_if (decide (a = b))
    | Value.Time a c, Value.Time b d => cast_if_and (decide (a = b)) (decide (c = d))
    | Value.LocalDateTime a, Value.LocalDateTime b => cast_if (decide (a = b))
    | Value.DateTime a c e, Value.DateTime b d f =>
        cast_if_and3 (decide (a = b)) (decide (c = d)) (decide (e = f))
    | Value.Duration a, Value.Duration b => cast_if (decide (a = b))
    | _, _ => right _
    end); congruence.
Defined.

(** ** [impl PartialEq for Value]

    The hand-written equality, arm by arm.  A [HashMap] compares equal when
    the sizes agree and every entry of the left one is in the right one. *)
Fixpoint forallb2 {A B} (f : A → B → bool) (l : list A) (k : list B) : bool :=
  match l, k with
  | [], [] => true
  | x :: l', y :: k' => f x y && forallb2 f l' k'
  | _, _ => false
  end.

Definition map_eqb {V} (f : V → V → bool) (m1 m2 : gmap string V) : bool :=
  bool_decide (size m1 = size m2)
  && map_fold (λ k v acc, match m2 !! k with Some w => f v w | None => false end && acc)
       true m1.

Definition node_eqb {V} (f : V → V → bool) (a b : node_of V) : bool :=
  N.eqb (node_id a) (node_id b)
  && bool_decide (node_labels a = node_labels b)
  && map_eqb f (node_properties a) (node_properties b).

Definition edge_eqb {V} (f : V → V → bool) (a b : edge_of V) : bool :=
  N.eqb (edge_src a) (edge_src b) && N.eqb (edge_dst a) (edge_dst b)
  && String.eqb (edge_label a) (edge_label b)
  && map_eqb f (edge_properties a) (edge_properties b).

Definition duration_eqb (a b : CypherDuration) : bool :=
  Z.eqb (months a) (months b) && Z.eqb (days a) (days b)
  && Z.eqb (seconds a) (seconds b) && Z.eqb (nanos a) (nanos b).

Fixpoint value_eqb (a b : value) {struct a} : bool :=
  match a, b with
  | Value.Null, Value.Null => true
  | Value.Bool a, Value.Bool b => Bool.eqb a b
  | Value.I64 a, Value.I64 b => Z.eqb a b
  | Value.F64 a, Value.F64 b => N.eqb a b
  | Value.String a, Value.String b => String.eqb a b
  | Value.List a, Value.List b => forallb2 value_eqb a b
  | Value.Node a, Value.Node b => node_eqb value_eqb a b
  | Value.Edge a, Value.Edge b => edge_eqb value_eqb a b
  | Value.Path a, Value.Path b =>
      forallb2 (node_eqb value_eqb) (path_nodes a) (path_nodes b)
      && forallb2 (edge_eqb value_eqb) (path_edges a) (path_edges b)
  | Value.Map a, Value.Map b => map_eqb value_eqb a b
  | Value.Date a, Value.Date b => bool_decide (a = b)
  | Value.LocalTime a, Value.LocalTime b => bool_decide (a = b)
  | Value.Time a c, Value.Time b d => bool_decide (a = b) && bool_decide (c = d)
  | Value.LocalDateTime a, Value.LocalDateTime b => bool_decide (a = b)
  | Value.DateTime a c e, Value.DateTime b d f =>
      bool_decide (a = b) && bool_decide (c = d) && bool_decide (e = f)
  | Value.Duration a, Value.Duration b => duration_eqb a b
  | _, _ => false
  end.

(** ** Sizes

    [value_byte_size] and its two companions; a [usize] is an [N]. *)
Definition usize_len (s : string) : N := N.of_nat (str_len s).
Definition sum_map {A} (f : A → N) (l : list A) : N :=
  foldr (λ x acc, (f x + acc)%N) 0%N l.
Definition props_byte_size {V} (f : V → N) (m : gmap string V) : N :=
  map_fold (λ k v acc, (usize_len k + f v + acc)%N) 0%N m.

Definition node_byte_size_with {V} (f : V → N) (n : node_of V) : N :=
  (8 + sum_map usize_len (node_labels n) + props_byte_size f (node_properties n))%N.
Definition edge_byte_size_with {V} (f : V → N) (e : edge_of V) : N :=
  (16 + usize_len (edge_label e) + props_byte_size f (edge_properties e))%N.

Fixpoint value_byte_size (v : value) : N :=
  match v with
  | Value.Null | Value.Bool _ | Value.I64 _ | Value.F64 _ => 8
  | Value.String s => usize_len s
  | Value.List items => sum_map value_byte_size items
  | Value.Node n => node_byte_size_with value_byte_size n
  | Value.Edge e => edge_byte_size_with value_byte_size e
  | Value.Path p =>
      sum_map (node_byte_size_with value_byte_size) (path_nodes p)
      + sum_map (edge_byte_size_with value_byte_size) (path_edges p)
  | Value.Map m => props_byte_size value_byte_size m
  | Value.Date _ => 12
  | Value.LocalTime _ => 16
  | Value.Time _ _ => 20
  | Value.LocalDateTime _ => 20
  | Value.DateTime _ _ _ => 28
  | Value.Duration _ => 32
  end%N.

Definition node_byte_size : Node → N := node_byte_size_with value_byte_size.
Definition edge_byte_size : Edge → N := edge_byte_size_with value_byte_size.

(** [PathValue::single], [len], [is_empty]. *)
Definition path_single (n : Node) : PathValue := mkPath [n] [].
Definition path_len (p : PathValue) : nat := length (path_edges p).
Definition path_is_empty (p : PathValue) : bool := bool_decide (path_edges p = []).

(** [Direction]. *)
Inductive Direction := Outgoing | Incoming | Both.
#[global] Instance Direction_eq_dec : EqDecision Direction.
Proof. solve_decision. Defined.

(** [NodeRecord]: what the [nodes] table stores. *)
Record NodeRecord := mkNodeRecord {
  rec_labels : list string;
  rec_properties : Properties }.

(** ** Value equality is Leibniz equality *)
Lemma map_fold_and {V} (P : string → V → bool) (m : gmap string V) :
  map_fold (λ k v acc, P k v && acc) true m = true ↔ map_Forall (λ k v, P k v = true) m.
Proof.
  induction m as [|k v m Hk IH] using map_ind.
  { rewrite map_fold_empty. split; [intros _; apply map_Forall_empty|done]. }
  rewrite map_fold_insert_L; [|intros; by rewrite !andb_assoc, (andb_comm (P _ _))|done].
  rewrite andb_true_iff, IH, map_Forall_insert by done. done.
Qed.

Lemma map_fold_sum_lookup {V} (f : V → nat) (m : gmap string V) k v :
  m !! k = Some v → f v ≤ map_fold (λ _ v acc, f v + acc) 0 m.
Proof.
  intros Hk. rewrite (map_fold_delete_L _ _ k v); [lia|intros; lia|done].
Qed.
Lemma foldr_sum_elem {A} (f : A → nat) (l : list A) x :
  x ∈ l → f x ≤ foldr (λ x acc, f x + acc) 0 l.
Proof. induction 1; simpl; lia. Qed.

(** A size for inductions that descend into nested lists and maps. *)
Definition props_vsize {V} (f : V → nat) (m : gmap string V) : nat :=
  map_fold (λ _ v acc, f v + acc) 0 m.
Definition list_vsize {A} (f : A → nat) (l : list A) : nat :=
  foldr (λ x acc, f x + acc) 0 l.
Fixpoint vsize (v : value) : nat :=
  match v with
  | Value.List l => S (list_vsize vsize l)
  | Value.Node n => S (props_vsize vsize (node_properties n))
  | Value.Edge e => S (props_vsize vsize (edge_properties e))
  | Value.Path p =>
      S (list_vsize (λ n, props_vsize vsize (node_properties n)) (path_nodes p)
         + list_vsize (λ e, props_vsize vsize (edge_properties e)) (path_edges p))
  | Value.Map m => S (props_vsize vsize m)
  | _ => 0
  end.

Lemma props_vsize_lookup {V} (f : V → nat) (m : gmap string V) k v :
  m !! k = Some v → f v ≤ props_vsize f m.
Proof. apply map_fold_sum_lookup. Qed.

Lemma forallb2_spec {A} (f : A → A → bool) (l k : list A) :
  (∀ x, x ∈ l → ∀ y, f x y = true ↔ x = y) → forallb2 f l k = true ↔ l = k.
Proof.
  revert k. induction l as [|x l IH]; intros [|y k] H; simpl; try done.
  rewrite andb_true_iff, H, IH by set_solver. naive_solver.
Qed.

Lemma map_eqb_spec {V} (f : V → V → bool) (m1 m2 : gmap string V) :
  (∀ k v, m1 !! k = Some v → ∀ w, f v w = true ↔ v = w) →
  map_eqb f m1 m2 = true ↔ m1 = m2.
Proof.
  intros H. unfold map_eqb.
  rewrite andb_true_iff, bool_decide_eq_true,
    (map_fold_and (λ k v, match m2 !! k with Some w => f v w | None => false end)).
  split.
  - intros [Hs Hall]. apply map_subseteq_size_eq; [|lia].
    apply map_subseteq_spec. intros k v Hk. specialize (Hall k v Hk). simpl in Hall.
    destruct (m2 !! k) as [w|]; [|done]. by apply (H k v Hk) in Hall as ->.
  - intros <-. split; [done|]. intros k v Hk. rewrite Hk. by apply (H k v Hk).
Qed.

Lemma node_eqb_spec {V} (f : V → V → bool) (a b : node_of V) :
  (∀ k v, node_properties a !! k = Some v → ∀ w, f v w = true ↔ v = w) →
  node_eqb f a b = true ↔ a = b.
Proof.
  intros H. unfold node_eqb.
  rewrite !andb_true_iff, N.eqb_eq, bool_decide_eq_true, map_eqb_spec by done.
  destruct a, b; naive_solver.
Qed.

Lemma edge_eqb_spec {V} (f : V → V → bool) (a b : edge_of V) :
  (∀ k v, edge_properties a !! k = Some v → ∀ w, f v w = true ↔ v = w) →
  edge_eqb f a b = true ↔ a = b.
Proof.
  intros H. unfold edge_eqb.
  rewrite !andb_true_iff, !N.eqb_eq, String.eqb_eq, map_eqb_spec by done.
  destruct a, b; naive_solver.
Qed.

Lemma duration_eqb_spec a b : duration_eqb a b = true ↔ a = b.
Proof.
  unfold duration_eqb. rewrite !andb_true_iff, !Z.eqb_eq.
  destruct a, b; naive_solver.
Qed.

(** An arm whose components are already equations. *)
Ltac solve_arm :=
  split; [intros; destruct_and?; by subst | intros [=]; subst; by split_and?].

Lemma value_eqb_iff (a b : value) : value_eqb a b = true ↔ a = b.
Proof.
  revert b. induction a as [a IH] using (Wf_nat.induction_ltof1 _ vsize).
  unfold Wf_nat.ltof in IH.
  assert (∀ l, list_vsize vsize l < vsize a →
    ∀ x, x ∈ l → ∀ y, value_eqb x y = true ↔ x = y) as IHl.
  { intros l Hl x Hx. apply IH. pose proof (foldr_sum_elem vsize l x Hx).
    unfold list_vsize in Hl. lia. }
  assert (∀ m, props_vsize vsize m < vsize a →
    ∀ k v, m !! k = Some v → ∀ w, value_eqb v w = true ↔ v = w) as IHm.
  { intros m Hm k v Hk. apply IH. pose proof (props_vsize_lookup vsize m k v Hk). lia. }
  intros b; destruct a; destruct b; simpl in *; try done;
    rewrite ?andb_true_iff, ?bool_decide_eq_true, ?Bool.eqb_true_iff, ?Z.eqb_eq,
      ?N.eqb_eq, ?String.eqb_eq, ?duration_eqb_spec; try solve_arm.
  - rewrite forallb2_spec; [solve_arm|]. apply IHl. lia.
  - rewrite node_eqb_spec; [solve_arm|]. apply IHm. lia.
  - rewrite edge_eqb_spec; [solve_arm|]. apply IHm. lia.
  - destruct p as [ns es], p0 as [ns' es']; simpl in *.
    rewrite !forallb2_spec; [solve_arm|..].
    + intros e He e'. apply edge_eqb_spec. apply IHm.
      pose proof (foldr_sum_elem (λ e, props_vsize vsize (edge_properties e)) es e He).
      unfold list_vsize. lia.
    + intros n Hn n'. apply node_eqb_spec. apply IHm.
      pose proof (foldr_sum_elem (λ n, props_vsize vsize (node_properties n)) ns n Hn).
      unfold list_vsize. lia.
  - rewrite map_eqb_spec; [solve_arm|]. apply IHm. lia.
Qed.

(** The hand-written [PartialEq] of [Value] decides identity of values, on
    nested lists, maps, nodes, edges and paths too: it is reflexive even on
    NaN, symmetric and transitive, as the [Eq] contract that [HashMap] keys and
    DISTINCT rely on requires. *)
Theorem value_eqb_spec (a b : value) : value_eqb a b = true ↔ a = b.
Proof. apply value_eqb_iff. Qed.
