(* ===== verification/Errors.v ===== *)
(** * The error taxonomy: src/src/types.rs

    [QueryPhase], [Span], [ErrorCode], [QueryError] and [GraphError] with the
    constructors that classify an error, the accessors and the setters, the
    name and size checks that raise them, and the properties of both. *)
From stdpp Require Import pretty.
From S2P Require Export Types.

(** ** Phases and spans *)
Inductive QueryPhase := Parse | SemanticAnalysis | Runtime.
#[global] Instance QueryPhase_eq_dec : EqDecision QueryPhase.
Proof. solve_decision. Defined.

Definition phase_display (p : QueryPhase) : string :=
  match p with
  | Parse => "parse"
  | SemanticAnalysis => "semantic analysis"
  | Runtime => "runtime"
  end.

Record Span := mkSpan { span_start : N; span_end : N; line : N; col : N }.
Definition span_synthetic : Span := mkSpan 0 0 0 0.
Definition is_synthetic (s : Span) : bool :=
  N.eqb (line s) 0 && N.eqb (col s) 0 && N.eqb (span_start s) 0 && N.eqb (span_end s) 0.
Definition span_display (s : Span) : string :=
  "line " +:+ pretty (line s) +:+ ":" +:+ pretty (col s).

(** The text ["\n  hint: "]. *)
Definition nl_hint : string := bytes_str [x0a] +:+ "  hint: ".

(** ** Error codes *)
Module ErrorCode.
Inductive code : Type :=
  | Other
  | AmbiguousAggregationExpression
  | CreatingVarLength
  | DeleteConnectedNode
  | DeletedEntityAccess
  | DifferentColumnsInUnion
  | InvalidAggregation
  | InvalidArgumentPassingMode
  | InvalidArgumentType
  | InvalidArgumentValue
  | InvalidClauseComposition
  | InvalidDelete
  | InvalidNumberOfArguments
  | InvalidPropertyType
  | InvalidUnicodeLiteral
  | MapElementAccessByNonString
  | MergeReadOwnWrites
  | MissingParameter
  | NegativeIntegerArgument
  | NoExpressionAlias
  | NoSingleRelationshipType
  | NonConstantExpression
  | NumberOutOfRange
  | ProcedureNotFound
  | RequiresDirectedRelationship
  | UndefinedVariable
  | UnknownFunction
  | UnexpectedSyntax
  | VariableAlreadyBound
  | VariableTypeConflict.

#[global] Instance code_eq_dec : EqDecision code.
Proof. solve_decision. Defined.

Definition as_str (c : code) : string :=
  match c with
  | Other => "Other"
  | AmbiguousAggregationExpression => "AmbiguousAggregationExpression"
  | CreatingVarLength => "CreatingVarLength"
  | DeleteConnectedNode => "DeleteConnectedNode"
  | DeletedEntityAccess => "DeletedEntityAccess"
  | DifferentColumnsInUnion => "DifferentColumnsInUnion"
  | InvalidAggregation => "InvalidAggregation"
  | InvalidArgumentPassingMode => "InvalidArgumentPassingMode"
  | InvalidArgumentType => "InvalidArgumentType"
  | InvalidArgumentValue => "InvalidArgumentValue"
  | InvalidClauseComposition => "InvalidClauseComposition"
  | InvalidDelete => "InvalidDelete"
  | InvalidNumberOfArguments => "InvalidNumberOfArguments"
  | InvalidPropertyType => "InvalidPropertyType"
  | InvalidUnicodeLiteral => "InvalidUnicodeLiteral"
  | MapElementAccessByNonString => "MapElementAccessByNonString"
  | MergeReadOwnWrites => "MergeReadOwnWrites"
  | MissingParameter => "MissingParameter"
  | NegativeIntegerArgument => "NegativeIntegerArgument"
  | NoExpressionAlias => "NoExpressionAlias"
  | NoSingleRelationshipType => "NoSingleRelationshipType"
  | NonConstantExpression => "NonConstantExpression"
  | NumberOutOfRange => "NumberOutOfRange"
  | ProcedureNotFound => "ProcedureNotFound"
  | RequiresDirectedRelationship => "RequiresDirectedRelationship"
  | UndefinedVariable => "UndefinedVariable"
  | UnknownFunction => "UnknownFunction"
  | UnexpectedSyntax => "UnexpectedSyntax"
  | VariableAlreadyBound => "VariableAlreadyBound"
  | VariableTypeConflict => "VariableTypeConflict"
  end.
End ErrorCode.
Abbreviation ErrorCode := ErrorCode.code.

(** ** [QueryError]

    The variant is the openCypher kind; every variant carries the same five
    fields, which [query_error_fields!] projects out. *)
Module QueryError.
Inductive query_error : Type :=
  | SyntaxError (phase : QueryPhase) (code : ErrorCode) (message : string)
      (hint : option string) (span : option Span)
  | TypeError (phase : QueryPhase) (code : ErrorCode) (message : string)
      (hint : option string) (span : option Span)
  | SemanticError (phase : QueryPhase) (code : ErrorCode) (message : string)
      (hint : option string) (span : option Span)
  | EntityNotFound (phase : QueryPhase) (code : ErrorCode) (message : string)
      (hint : option string) (span : option Span)
  | ArgumentError (phase : QueryPhase) (code : ErrorCode) (message : string)
      (hint : option string) (span : option Span)
  | ArithmeticError (phase : QueryPhase) (code : ErrorCode) (message : string)
      (hint : option string) (span : option Span)
  | ConstraintViolation (phase : QueryPhase) (code : ErrorCode) (message : string)
      (hint : option string) (span : option Span)
  | ProcedureError (phase : QueryPhase) (code : ErrorCode) (message : string)
      (hint : option string) (span : option Span).

Definition query_error_fields (e : query_error)
    : QueryPhase * ErrorCode * string * option string * option Span :=
  match e with
  | SyntaxError p c m h s
  | TypeError p c m h s
  | SemanticError p c m h s
  | EntityNotFound p c m h s
  | ArgumentError p c m h s
  | ArithmeticError p c m h s
  | ConstraintViolation p c m h s
  | ProcedureError p c m h s => (p, c, m, h, s)
  end.

Definition phase (e : query_error) : QueryPhase := (query_error_fields e).1.1.1.1.
Definition code (e : query_error) : ErrorCode := (query_error_fields e).1.1.1.2.
Definition message (e : query_error) : string := (query_error_fields e).1.1.2.
Definition hint (e : query_error) : option string := (query_error_fields e).1.2.
Definition span (e : query_error) : option Span := (query_error_fields e).2.

Definition kind (e : query_error) : string :=
  match e with
  | SyntaxError _ _ _ _ _ => "SyntaxError"
  | TypeError _ _ _ _ _ => "TypeError"
  | SemanticError _ _ _ _ _ => "SemanticError"
  | EntityNotFound _ _ _ _ _ => "EntityNotFound"
  | ArgumentError _ _ _ _ _ => "ArgumentError"
  | ArithmeticError _ _ _ _ _ => "ArithmeticError"
  | ConstraintViolation _ _ _ _ _ => "ConstraintViolation"
  | ProcedureError _ _ _ _ _ => "ProcedureError"
  end.

Definition with_hint (e : query_error) (new_hint : string) : query_error :=
  match e with
  | SyntaxError p c m _ s => SyntaxError p c m (Some new_hint) s
  | TypeError p c m _ s => TypeError p c m (Some new_hint) s
  | SemanticError p c m _ s => SemanticError p c m (Some new_hint) s
  | EntityNotFound p c m _ s => EntityNotFound p c m (Some new_hint) s
  | ArgumentError p c m _ s => ArgumentError p c m (Some new_hint) s
  | ArithmeticError p c m _ s => ArithmeticError p c m (Some new_hint) s
  | ConstraintViolation p c m _ s => ConstraintViolation p c m (Some new_hint) s
  | ProcedureError p c m _ s => ProcedureError p c m (Some new_hint) s
  end.

(** The assignment at the end of [with_span]. *)
Definition set_span (e : query_error) (new_span : Span) : query_error :=
  match e with
  | SyntaxError p c m h _ => SyntaxError p c m h (Some new_span)
  | TypeError p c m h _ => TypeError p c m h (Some new_span)
  | SemanticError p c m h _ => SemanticError p c m h (Some new_span)
  | EntityNotFound p c m h _ => EntityNotFound p c m h (Some new_span)
  | ArgumentError p c m h _ => ArgumentError p c m h (Some new_span)
  | ArithmeticError p c m h _ => ArithmeticError p c m h (Some new_span)
  | ConstraintViolation p c m h _ => ConstraintViolation p c m h (Some new_span)
  | ProcedureError p c m h _ => ProcedureError p c m h (Some new_span)
  end.

Definition with_span (e : query_error) (new_span : Span) : query_error :=
  if is_synthetic new_span then e else set_span e new_span.

Definition with_code (e : query_error) (new_code : ErrorCode) : query_error :=
  match e with
  | SyntaxError p _ m h s => SyntaxError p new_code m h s
  | TypeError p _ m h s => TypeError p new_code m h s
  | SemanticError p _ m h s => SemanticError p new_code m h s
  | EntityNotFound p _ m h s => EntityNotFound p new_code m h s
  | ArgumentError p _ m h s => ArgumentError p new_code m h s
  | ArithmeticError p _ m h s => ArithmeticError p new_code m h s
  | ConstraintViolation p _ m h s => ConstraintViolation p new_code m h s
  | ProcedureError p _ m h s => ProcedureError p new_code m h s
  end.

(** The internal constructors used by the dispatch table. *)
Definition syntax_with (p : QueryPhase) (c : ErrorCode) (m : string) := SyntaxError p c m None None.
Definition type_with (p : QueryPhase) (c : ErrorCode) (m : string) := TypeError p c m None None.
Definition semantic_with (p : QueryPhase) (c : ErrorCode) (m : string) := SemanticError p c m None None.
Definition argument_with (p : QueryPhase) (c : ErrorCode) (m : string) := ArgumentError p c m None None.
Definition arithmetic_with (p : QueryPhase) (c : ErrorCode) (m : string) := ArithmeticError p c m None None.
Definition constraint_with (p : QueryPhase) (c : ErrorCode) (m : string) := ConstraintViolation p c m None None.
Definition procedure_with (p : QueryPhase) (c : ErrorCode) (m : string) := ProcedureError p c m None None.

Definition display (e : query_error) : string :=
  let '(ph, c, m, h, s) := query_error_fields e in
  let head :=
    match s with
    | Some s => kind e +:+ "(" +:+ ErrorCode.as_str c +:+ ") at " +:+ span_display s +:+ ": " +:+ m
    | None => kind e +:+ "(" +:+ ErrorCode.as_str c +:+ ") at " +:+ phase_display ph +:+ ": " +:+ m
    end in
  match h with
  | Some h => head +:+ nl_hint +:+ h
  | None => head
  end.
End QueryError.
Abbreviation QueryError := QueryError.query_error.

(** ** [GraphError]

    The [source] of a storage error is SQLite's message. *)
Module GraphError.
Inductive graph_error : Type :=
  | Storage (source : string) (hint : option string)
  | Serialization (context source : string) (hint : option string)
  | Query (q : QueryError)
  | NodeNotFound (id : N) (hint : option string)
  | EdgeNotFound (src : N) (label : string) (dst : N) (hint : option string)
  | HasEdges (id : N) (hint : option string)
  | Transaction (message : string) (hint : option string)
  | IndexAlreadyExists (label : string) (properties : list string) (hint : option string)
  | IndexNotFound (label : string) (properties : list string) (hint : option string)
  | InvalidIndexDefinition (reason : string) (hint : option string)
  | InvalidName (name : string) (hint : option string)
  | SizeLimit (what : string) (limit actual : N) (hint : option string)
  | SchemaMismatch (found supported : N) (hint : option string).

Definition syntax (m : string) : graph_error :=
  Query (QueryError.SyntaxError Parse ErrorCode.Other m None None).
Definition semantic (m : string) : graph_error :=
  Query (QueryError.SemanticError SemanticAnalysis ErrorCode.Other m None None).
Definition constraint (m : string) : graph_error :=
  Query (QueryError.ConstraintViolation Runtime ErrorCode.Other m None None).
Definition type_error (p : QueryPhase) (m : string) : graph_error :=
  Query (QueryError.TypeError p ErrorCode.Other m None None).
Definition argument (p : QueryPhase) (m : string) : graph_error :=
  Query (QueryError.ArgumentError p ErrorCode.Other m None None).

Definition undefined_variable (name : string) : graph_error :=
  Query (QueryError.SemanticError SemanticAnalysis ErrorCode.UndefinedVariable
    ("variable `" +:+ name +:+ "` is not defined") None None).
Definition procedure_not_found (name : string) : graph_error :=
  Query (QueryError.ProcedureError SemanticAnalysis ErrorCode.ProcedureNotFound
    ("unknown procedure `" +:+ name +:+ "`") None None).
Definition invalid_argument_type (p : QueryPhase) (function got : string) : graph_error :=
  Query (QueryError.TypeError p ErrorCode.InvalidArgumentType
    (got +:+ " is not a valid argument type for " +:+ function) None None).
Definition invalid_argument_value (p : QueryPhase) (function m : string) : graph_error :=
  Query (QueryError.ArgumentError p ErrorCode.InvalidArgumentValue
    (function +:+ ": " +:+ m) None None).
Definition number_out_of_range (p : QueryPhase) (m : string) : graph_error :=
  Query (QueryError.ArithmeticError p ErrorCode.NumberOutOfRange m None None).

(** [GraphError::query]: the variant is chosen from the code. *)
Definition query (p : QueryPhase) (c : ErrorCode) (m : string) : graph_error :=
  let mk (k : QueryPhase → ErrorCode → string → QueryError) := Query (k p c m) in
  match c with
  | ErrorCode.InvalidUnicodeLiteral
  | ErrorCode.InvalidClauseComposition
  | ErrorCode.UnexpectedSyntax => mk QueryError.syntax_with
  | ErrorCode.InvalidArgumentType
  | ErrorCode.InvalidPropertyType
  | ErrorCode.MapElementAccessByNonString
  | ErrorCode.DeletedEntityAccess => mk QueryError.type_with
  | ErrorCode.UndefinedVariable
  | ErrorCode.VariableAlreadyBound
  | ErrorCode.VariableTypeConflict
  | ErrorCode.AmbiguousAggregationExpression
  | ErrorCode.CreatingVarLength
  | ErrorCode.DifferentColumnsInUnion
  | ErrorCode.InvalidAggregation
  | ErrorCode.InvalidArgumentPassingMode
  | ErrorCode.InvalidArgumentValue
  | ErrorCode.InvalidDelete
  | ErrorCode.InvalidNumberOfArguments
  | ErrorCode.NegativeIntegerArgument
  | ErrorCode.NoExpressionAlias
  | ErrorCode.NoSingleRelationshipType
  | ErrorCode.NonConstantExpression
  | ErrorCode.RequiresDirectedRelationship => mk QueryError.semantic_with
  | ErrorCode.MissingParameter => mk QueryError.argument_with
  | ErrorCode.NumberOutOfRange => mk QueryError.arithmetic_with
  | ErrorCode.DeleteConnectedNode
  | ErrorCode.MergeReadOwnWrites => mk QueryError.constraint_with
  | ErrorCode.ProcedureNotFound => mk QueryError.procedure_with
  | ErrorCode.UnknownFunction => mk QueryError.syntax_with
  | ErrorCode.Other => mk QueryError.semantic_with
  end.

Definition with_hint (e : graph_error) (h : string) : graph_error :=
  match e with
  | Query q => Query (QueryError.with_hint q h)
  | Storage s _ => Storage s (Some h)
  | Serialization c s _ => Serialization c s (Some h)
  | NodeNotFound i _ => NodeNotFound i (Some h)
  | EdgeNotFound s l d _ => EdgeNotFound s l d (Some h)
  | HasEdges i _ => HasEdges i (Some h)
  | Transaction m _ => Transaction m (Some h)
  | IndexAlreadyExists l p _ => IndexAlreadyExists l p (Some h)
  | IndexNotFound l p _ => IndexNotFound l p (Some h)
  | InvalidIndexDefinition r _ => InvalidIndexDefinition r (Some h)
  | InvalidName n _ => InvalidName n (Some h)
  | SizeLimit w l a _ => SizeLimit w l a (Some h)
  | SchemaMismatch f s _ => SchemaMismatch f s (Some h)
  end.

Definition with_code (e : graph_error) (c : ErrorCode) : graph_error :=
  match e with
  | Query q => Query (QueryError.with_code q c)
  | _ => e
  end.

Definition with_span (e : graph_error) (s : Span) : graph_error :=
  if is_synthetic s then e
  else match e with
       | Query q => Query (QueryError.with_span q s)
       | other => other
       end.

Definition serialization (context source : string) : graph_error :=
  Serialization context source None.
Definition transaction (m : string) : graph_error := Transaction m None.
Definition from_rusqlite (source : string) : graph_error := Storage source None.
Definition from_query_error (q : QueryError) : graph_error := Query q.

Definition fmt_hint (h : option string) : string :=
  match h with Some h => nl_hint +:+ h | None => "" end.

Definition node_id_display (id : N) : string := "NodeId(" +:+ pretty id +:+ ")".

(** [impl Display for GraphError]. *)
Definition display (e : graph_error) : string :=
  match e with
  | Storage s h => "storage error: " +:+ s +:+ fmt_hint h
  | Serialization c s h =>
      "serialization error (" +:+ c +:+ "): " +:+ s +:+ fmt_hint h
  | Query q => QueryError.display q
  | NodeNotFound id h => "node not found: " +:+ node_id_display id +:+ fmt_hint h
  | EdgeNotFound s l d h =>
      "edge not found: " +:+ node_id_display s +:+ " -[:" +:+ l +:+ "]-> "
      +:+ node_id_display d +:+ fmt_hint h
  | HasEdges id h =>
      "cannot delete node " +:+ node_id_display id
      +:+ " because it still has edges; use DETACH DELETE to remove edges too"
      +:+ fmt_hint h
  | Transaction m h => "transaction error: " +:+ m +:+ fmt_hint h
  | IndexAlreadyExists l p h =>
      "index already exists: :" +:+ l +:+ "(" +:+ join ", " p +:+ ")" +:+ fmt_hint h
  | IndexNotFound l p h =>
      "index not found: :" +:+ l +:+ "(" +:+ join ", " p +:+ ")" +:+ fmt_hint h
  | InvalidIndexDefinition r h => "invalid index definition: " +:+ r +:+ fmt_hint h
  | InvalidName n h =>
      "invalid name '" +:+ n
      +:+ "': must contain only ASCII letters, digits, or underscores" +:+ fmt_hint h
  | SizeLimit w l a h =>
      w +:+ " (" +:+ pretty a +:+ " bytes) exceeds maximum of " +:+ pretty l
      +:+ " bytes" +:+ fmt_hint h
  | SchemaMismatch f s h =>
      "schema version mismatch: database is v" +:+ pretty f
      +:+ ", this library supports up to v" +:+ pretty s +:+ fmt_hint h
  end.
End GraphError.
Abbreviation GraphError := GraphError.graph_error.

(** The [Result] of the crate. *)
Abbreviation Res := (result GraphError).

(** ** Name and size checks *)
Definition name_byte_ok (b : byte) : bool :=
  is_ascii_alphanumeric b || bool_decide (b = "_"%byte).

Definition validate_name (name : string) : Res unit :=
  if bool_decide (name = "") || negb (forallb name_byte_ok (str_bytes name))
  then Err (GraphError.InvalidName name None)
  else Ok ().

(** [&name[..max_bytes.min(32)]] is evaluated before the error is built: it
    panics when that index falls inside a character. *)
Definition validate_name_length (name : string) (max_bytes : nat) : Res unit :=
  if decide (max_bytes < str_len name) then
    head ← str_slice_to name (max_bytes `min` 32);
    Err (GraphError.SizeLimit ("name '" +:+ head +:+ "...'")
      (N.of_nat max_bytes) (usize_len name) None)
  else Ok ().

(** A [HashMap] is iterated in an unspecified order; [map_to_list] is one. *)
Definition validate_properties (label : string) (properties : Properties)
    (max_name_bytes : nat) (max_value_bytes : N) : Res unit :=
  validate_name_length label max_name_bytes ≫= λ _,
  for_each_r (λ '(key, v),
    validate_name_length key max_name_bytes ≫= λ _,
    let size := value_byte_size v in
    if decide (max_value_bytes < size)%N
    then Err (GraphError.SizeLimit ("property '" +:+ key +:+ "' value")
           max_value_bytes size None)
    else Ok ()) (map_to_list properties).
