(* ===== verification/Encoding.v ===== *)
(** * Delta-varint encoding of sorted id lists: src/src/storage/encoding.rs

    Adjacency lists are stored as the LEB128 varints of the differences of a
    sorted list of node ids.  The file models the encoder, the decoder and the
    sorted-list updates, and shows that a well-formed list survives the round
    trip and that the updates keep lists well formed. *)
From S2P Require Export Prelude.

(** ** Varints *)

(** One iteration pushes the low seven bits, with the continuation bit unless
    the rest is zero.  The fuel of [encode_varint] is the bit length plus one,
    which always suffices: each step drops seven bits. *)
Fixpoint encode_varint_loop (fuel : nat) (value : N) (buf : bytes) : bytes :=
  match fuel with
  | O => buf
  | S fuel' =>
      let byte := N.land value 127 in
      let value' := N.shiftr value 7 in
      let byte := if decide (value' ≠ 0%N) then N.lor byte 128 else byte in
      let buf := buf ++ [n2b byte] in
      if decide (value' = 0%N) then buf else encode_varint_loop fuel' value' buf
  end.

Definition encode_varint (value : N) (buf : bytes) : bytes :=
  encode_varint_loop (S (N.to_nat (N.log2 value))) value buf.

(** The shift is masked to six bits and the result to 64, as a release build
    does; [count] is the index [i] of the byte. *)
Fixpoint decode_varint_loop (data : bytes) (value : N) (shift : N) (count : nat)
    : option (N * nat) :=
  match data with
  | [] => None
  | byte :: data' =>
      let value := N.lor value (u64_wrap (N.shiftl (N.land (b2n byte) 127) (shift mod 64))) in
      if decide (N.land (b2n byte) 128 = 0%N) then Some (value, count + 1)
      else decode_varint_loop data' value (shift + 7)%N (count + 1)
  end.

Definition decode_varint (data : bytes) : option (N * nat) :=
  decode_varint_loop data 0 0 0.

(** ** Id lists *)
Fixpoint encode_id_list_loop (ids : list N) (prev : N) (buf : bytes) : bytes :=
  match ids with
  | [] => buf
  | id :: ids' =>
      let delta := u64_sub id prev in
      encode_id_list_loop ids' id (encode_varint delta buf)
  end.
Definition encode_id_list (ids : list N) : bytes := encode_id_list_loop ids 0 [].

(** Each step consumes at least one byte, so the length of the data is enough
    fuel. *)
Fixpoint decode_id_list_loop (fuel : nat) (data : bytes) (prev : N) : list N :=
  match fuel with
  | O => []
  | S fuel' =>
      match data with
      | [] => []
      | _ :: _ =>
          match decode_varint data with
          | Some (delta, bytes_read) =>
              let prev := u64_add prev delta in
              prev :: decode_id_list_loop fuel' (drop bytes_read data) prev
          | None => []
          end
      end
  end.
Definition decode_id_list (data : bytes) : list N :=
  decode_id_list_loop (length data) data 0.

(** ** Sorted updates *)

(** [slice::binary_search] on a sorted slice without duplicates: [inl pos] for
    [Ok(pos)] when found, [inr pos] for [Err(pos)] otherwise. *)
Fixpoint partition_point (ids : list N) (id : N) : nat :=
  match ids with
  | [] => 0
  | x :: ids' => if decide (x < id)%N then S (partition_point ids' id) else 0
  end.
Definition binary_search (ids : list N) (id : N) : nat + nat :=
  let pos := partition_point ids id in
  if decide (ids !! pos = Some id) then inl pos else inr pos.

(** [Vec::insert] and [Vec::remove]. *)
Definition vec_insert {A} (l : list A) (pos : nat) (x : A) : list A :=
  take pos l ++ x :: drop pos l.
Definition vec_remove {A} (l : list A) (pos : nat) : list A :=
  take pos l ++ drop (S pos) l.

Definition insert_into_sorted (ids : list N) (id : N) : list N :=
  match binary_search ids id with
  | inl _ => ids
  | inr pos => vec_insert ids pos id
  end.

Definition remove_from_sorted (ids : list N) (id : N) : list N * bool :=
  match binary_search ids id with
  | inl pos => (vec_remove ids pos, true)
  | inr _ => (ids, false)
  end.

(** [ids.binary_search(&id).is_ok()]. *)
Definition found (ids : list N) (id : N) : bool :=
  match binary_search ids id with inl _ => true | inr _ => false end.

(** ** The invariant of a stored list *)
Definition ids_ok (ids : list N) : Prop :=
  StronglySorted N.lt ids ∧ Forall in_u64 ids.

Example encode_300 : encode_varint 300 [] = [xac; x02].
Proof. reflexivity. Qed.
Example encode_ids_example :
  decode_id_list (encode_id_list [100; 10000; 1000000; 9223372036854775807]%N)
  = [100; 10000; 1000000; 9223372036854775807]%N.
Proof. vm_compute. reflexivity. Qed.

(** ** Lemmas: the varint round trip *)
Lemma land_127 n : N.land n 127 = (n mod 128)%N.
Proof. change 127%N with (N.ones 7). apply N.land_ones. Qed.
Lemma shiftr_7 n : N.shiftr n 7 = (n / 128)%N.
Proof. apply N.shiftr_div_pow2. Qed.

Lemma testbit_small n k i : (n < 2 ^ k)%N → (k ≤ i)%N → N.testbit n i = false.
Proof.
  intros Hn Hi. destruct (decide (n = 0%N)) as [->|Hz]; [apply N.bits_0|].
  apply N.bits_above_log2. apply N.log2_lt_pow2 in Hn; lia.
Qed.

(** Disjoint bit ranges: [lor] is addition. *)
Lemma lor_shiftl_disjoint a b k :
  (a < 2 ^ k)%N → N.lor a (N.shiftl b k) = (a + b * 2 ^ k)%N.
Proof.
  intros Ha. assert (N.land a (N.shiftl b k) = 0%N) as E.
  { apply N.bits_inj_0. intros i. rewrite N.land_spec.
    destruct (decide (i < k)%N) as [Hi|Hi].
    - rewrite N.shiftl_spec_low by done. apply andb_false_r.
    - rewrite (testbit_small a k i) by (done || lia). done. }
  rewrite <- N.lxor_lor by done. rewrite <- N.add_nocarry_lxor by done.
  by rewrite N.shiftl_mul_pow2.
Qed.

Lemma lor_128 n : (n < 128)%N → N.lor n 128 = (n + 128)%N.
Proof. intros H. by apply (lor_shiftl_disjoint n 1 7). Qed.

Lemma encode_varint_loop_app fuel value buf :
  encode_varint_loop fuel value buf = buf ++ encode_varint_loop fuel value [].
Proof.
  revert value buf. induction fuel as [|fuel IH]; intros value buf; simpl.
  { by rewrite app_nil_r. }
  case_decide; [done|]. rewrite IH. rewrite (IH _ [_]). by rewrite <- app_assoc.
Qed.

Lemma b2n_last_byte n : (n < 128)%N → b2n (n2b (n mod 128)) = n.
Proof. intros. rewrite b2n_n2b, (N.mod_small n 128), N.mod_small by lia. done. Qed.
Lemma b2n_cont_byte n : b2n (n2b (n mod 128 + 128)) = (n mod 128 + 128)%N.
Proof. pose proof (N.mod_lt n 128). rewrite b2n_n2b, N.mod_small by lia. done. Qed.

Lemma land_127_cont n : N.land (n mod 128 + 128) 127 = (n mod 128)%N.
Proof.
  rewrite land_127. replace (n mod 128 + 128)%N with (n mod 128 + 1 * 128)%N by lia.
  rewrite N.Div0.mod_add. apply N.Div0.mod_mod.
Qed.
Lemma land_128_cont n : N.land (n mod 128 + 128) 128 ≠ 0%N.
Proof.
  intros E. assert (N.testbit (N.land (n mod 128 + 128) 128) 7 = false) as F
    by by rewrite E.
  rewrite N.land_spec in F. change (N.testbit 128 7) with true in F.
  rewrite andb_true_r in F. apply N.testbit_false in F.
  change (2 ^ 7)%N with 128%N in F. pose proof (N.mod_lt n 128).
  replace (n mod 128 + 128)%N with (n mod 128 + 1 * 128)%N in F by lia.
  rewrite N.div_add, N.div_small in F by lia. done.
Qed.
Lemma land_128_last n : (n < 128)%N → N.land n 128 = 0%N.
Proof.
  intros Hn. apply N.bits_inj_0. intros i. rewrite N.land_spec.
  change 128%N with (2 ^ 7)%N. rewrite N.pow2_bits_eqb.
  destruct (N.eqb_spec 7 i) as [<-|]; [|apply andb_false_r].
  by rewrite (testbit_small n 7 7).
Qed.

(** One iteration of the encoder. *)
Lemma encode_loop_last fuel v :
  (v < 128)%N → encode_varint_loop (S fuel) v [] = [n2b v].
Proof.
  intros Hv. simpl. rewrite shiftr_7, land_127, N.div_small, N.mod_small by done.
  by repeat case_decide.
Qed.
Lemma encode_loop_cont fuel v :
  (128 ≤ v)%N →
  encode_varint_loop (S fuel) v [] =
    n2b (v mod 128 + 128) :: encode_varint_loop fuel (v / 128) [].
Proof.
  intros Hv. simpl. rewrite shiftr_7, land_127.
  assert (v / 128 ≠ 0)%N as Hq by (intros E; apply N.div_small_iff in E; lia).
  repeat case_decide; try done.
  rewrite lor_128 by (apply N.mod_lt; lia). by rewrite encode_varint_loop_app.
Qed.

(** One iteration of the decoder, before the shift reaches 64. *)
Lemma decode_loop_step (b : byte) data acc count :
  let sh := (7 * N.of_nat count)%N in
  let v := N.land (b2n b) 127 in
  (sh < 64)%N → (acc < 2 ^ sh)%N → (v * 2 ^ sh < u64_mod)%N →
  decode_varint_loop (b :: data) acc sh count =
    if decide (N.land (b2n b) 128 = 0%N) then Some ((acc + v * 2 ^ sh)%N, count + 1)
    else decode_varint_loop data (acc + v * 2 ^ sh)%N (7 * N.of_nat (count + 1)) (count + 1).
Proof.
  intros sh v Hsh Ha Hv. cbn [decode_varint_loop].
  fold v. rewrite (N.mod_small sh) by done.
  rewrite u64_wrap_small by (unfold in_u64; by rewrite N.shiftl_mul_pow2).
  rewrite lor_shiftl_disjoint by done.
  by replace (sh + 7)%N with (7 * N.of_nat (count + 1))%N by lia.
Qed.

(** The accumulated value has its bits below [7 * count]; the next seven land
    above them. *)
Lemma decode_encode_loop fuel value rest acc count :
  (value < 2 ^ (7 * N.of_nat (S fuel)))%N →
  (acc < 2 ^ (7 * N.of_nat count))%N →
  in_u64 (acc + value * 2 ^ (7 * N.of_nat count)) →
  (value = 0%N → count = 0) →
  decode_varint_loop (encode_varint_loop (S fuel) value [] ++ rest) acc
    (7 * N.of_nat count) count
  = Some ((acc + value * 2 ^ (7 * N.of_nat count))%N,
      count + length (encode_varint_loop (S fuel) value [])).
Proof.
  revert value acc count. induction fuel as [|fuel IH]; intros value acc count Hf Ha Hu Hz;
    unfold in_u64 in Hu.
  all: assert (7 * N.of_nat count < 64)%N as Hsh by
    (destruct (decide (value = 0%N)) as [E|E]; [rewrite (Hz E); lia|];
     apply (N.pow_lt_mono_r_iff 2); [lia|]; unfold u64_mod in Hu; nia).
  all: destruct (decide (value < 128)%N) as [Hl|Hl].
  1,3: rewrite encode_loop_last by done; cbn [app]; rewrite decode_loop_step;
    rewrite ?b2n_n2b, ?land_127, ?(N.mod_small value 256), ?(N.mod_small value 128) by lia;
    [rewrite land_128_last by done; by rewrite decide_True|done|done|lia].
  { exfalso. simpl in Hf. lia. }
  rewrite encode_loop_cont by lia. cbn [app].
  pose proof (N.div_mod value 128 ltac:(lia)) as Hdm.
  pose proof (N.mod_lt value 128 ltac:(lia)) as Hml.
  assert (value / 128 ≠ 0)%N as Hq by (intros E; apply N.div_small_iff in E; lia).
  assert (2 ^ (7 * N.of_nat (count + 1)) = 128 * 2 ^ (7 * N.of_nat count))%N as Hpow.
  { replace (7 * N.of_nat (count + 1))%N with (7 + 7 * N.of_nat count)%N by lia.
    by rewrite N.pow_add_r. }
  rewrite decode_loop_step; rewrite ?b2n_cont_byte, ?land_127_cont; try done; [|nia].
  rewrite decide_False by apply land_128_cont.
  rewrite IH; [|..].
  - rewrite Hpow. cbn [length]. f_equal. f_equal; [nia|lia].
  - apply N.Div0.div_lt_upper_bound.
    replace (7 * N.of_nat (S (S fuel)))%N with (7 + 7 * N.of_nat (S fuel))%N in Hf by lia.
    by rewrite N.pow_add_r in Hf.
  - rewrite Hpow. nia.
  - rewrite Hpow. unfold in_u64. nia.
  - done.
Qed.

Lemma encode_varint_app v buf : encode_varint v buf = buf ++ encode_varint v [].
Proof. apply encode_varint_loop_app. Qed.

Lemma decode_encode_varint v rest :
  in_u64 v →
  decode_varint (encode_varint v [] ++ rest) = Some (v, length (encode_varint v [])).
Proof.
  intros Hv. unfold decode_varint, encode_varint.
  pose proof (decode_encode_loop (N.to_nat (N.log2 v)) v rest 0 0) as H.
  rewrite N.mul_0_r, N.pow_0_r, N.mul_1_r, N.add_0_l in H.
  apply H; try done; try lia.
  destruct (decide (v = 0%N)) as [->|Hz]; [done|].
  apply (N.lt_le_trans _ (2 ^ N.succ (N.log2 v))).
  { apply N.log2_spec. lia. }
  apply N.pow_le_mono_r; lia.
Qed.

Lemma length_encode_varint_pos v : 1 ≤ length (encode_varint v []).
Proof.
  unfold encode_varint. destruct (decide (v < 128)%N).
  - by rewrite encode_loop_last.
  - rewrite encode_loop_cont by lia. simpl. lia.
Qed.

Lemma length_encode_loop fuel v k :
  (v < 2 ^ (7 * N.of_nat k))%N → 0 < k → length (encode_varint_loop fuel v []) ≤ k.
Proof.
  revert v k. induction fuel as [|fuel IH]; intros v k Hv Hk; [simpl; lia|].
  destruct (decide (v < 128)%N); [by rewrite encode_loop_last|].
  rewrite encode_loop_cont by lia. cbn [length].
  destruct k as [|[|k]]; [lia|simpl in Hv; lia|].
  apply le_n_S, IH; [|lia]. apply N.Div0.div_lt_upper_bound.
  replace (7 * N.of_nat (S (S k)))%N with (7 + 7 * N.of_nat (S k))%N in Hv by lia.
  by rewrite N.pow_add_r in Hv.
Qed.

(** ** Lemmas: id lists *)
Lemma encode_id_list_loop_app ids prev buf :
  encode_id_list_loop ids prev buf = buf ++ encode_id_list_loop ids prev [].
Proof.
  revert prev buf. induction ids as [|id ids IH]; intros prev buf; simpl.
  { by rewrite app_nil_r. }
  rewrite IH, (IH _ (encode_varint _ _)), (encode_varint_app _ buf).
  by rewrite <- app_assoc.
Qed.

Lemma u64_sub_small a b : in_u64 a → (b ≤ a)%N → u64_sub a b = (a - b)%N.
Proof.
  unfold u64_sub, u64_wrap, in_u64, u64_mod in *. intros Ha Hb.
  replace (a + 18446744073709551616 - b)%N with (a - b + 1 * 18446744073709551616)%N by lia.
  rewrite N.Div0.mod_add. apply N.mod_small. lia.
Qed.

Lemma decode_encode_ids fuel ids prev :
  length (encode_id_list_loop ids prev []) ≤ fuel →
  StronglySorted N.le (prev :: ids) → Forall in_u64 ids →
  decode_id_list_loop fuel (encode_id_list_loop ids prev []) prev = ids.
Proof.
  revert fuel prev. induction ids as [|id ids IH]; intros fuel prev Hf Hs Hu.
  { by destruct fuel. }
  simpl in Hf |- *. rewrite encode_id_list_loop_app in Hf |- *.
  rewrite length_app in Hf. inversion Hu as [|? ? Hid Hids]; subst.
  apply StronglySorted_inv in Hs as [Hs Hle]. inversion Hle; subst.
  pose proof (length_encode_varint_pos (u64_sub id prev)) as Hpos.
  destruct fuel as [|fuel]; [lia|]. cbn [decode_id_list_loop].
  destruct (encode_varint (u64_sub id prev) [] ++ _) as [|b l] eqn:E.
  { apply app_eq_nil in E as [E _]. rewrite E in Hpos. simpl in Hpos. lia. }
  rewrite <- E. rewrite decode_encode_varint by apply u64_wrap_in.
  rewrite drop_app_length'  by done.
  unfold u64_add. rewrite u64_sub_small by done.
  replace (prev + (id - prev))%N with id by lia. rewrite u64_wrap_small by done.
  f_equal. apply IH; [lia|done..].
Qed.

(** More fuel does not change what is decoded. *)
Lemma decode_varint_loop_count data acc sh count v n :
  decode_varint_loop data acc sh count = Some (v, n) → count < n.
Proof.
  revert acc sh count. induction data as [|b data IH]; intros acc sh count; simpl; [done|].
  case_decide; [intros [= <- <-]; lia|]. intros E. apply IH in E. lia.
Qed.

Lemma decode_id_list_fuel f1 f2 data prev :
  length data ≤ f1 → length data ≤ f2 →
  decode_id_list_loop f1 data prev = decode_id_list_loop f2 data prev.
Proof.
  revert f2 data prev. induction f1 as [|f1 IH]; intros f2 data prev H1 H2.
  { destruct data; [|simpl in H1; lia]. by destruct f2. }
  destruct data as [|b data]; [by destruct f2|].
  destruct f2 as [|f2]; [simpl in H2; lia|]. cbn [decode_id_list_loop].
  destruct (decode_varint (b :: data)) as [[v n]|] eqn:E; [|done].
  apply decode_varint_loop_count in E. f_equal. cbn [length] in H1, H2.
  apply IH; rewrite length_drop; cbn [length]; lia.
Qed.

(** ** Lemmas: sorted updates *)
Lemma partition_point_split ids id :
  StronglySorted N.lt ids →
  Forall (λ x, x < id)%N (take (partition_point ids id) ids)
  ∧ Forall (λ x, id ≤ x)%N (drop (partition_point ids id) ids).
Proof.
  induction 1 as [|x ids Hs IH Hx]; simpl; [done|]. case_decide as E; simpl.
  - destruct IH. split; [by constructor|done].
  - split; [done|]. constructor; [lia|].
    rewrite Forall_forall in Hx |- *. intros y Hy. specialize (Hx y Hy). simpl. lia.
Qed.

Lemma binary_search_inl ids id pos :
  binary_search ids id = inl pos → ids !! pos = Some id ∧ pos = partition_point ids id.
Proof. unfold binary_search. case_decide; naive_solver. Qed.

Lemma binary_search_found ids id :
  StronglySorted N.lt ids →
  (∃ pos, binary_search ids id = inl pos) ↔ id ∈ ids.
Proof.
  intros Hs. split.
  - intros [pos Hp]. apply binary_search_inl in Hp. apply list_elem_of_lookup. naive_solver.
  - intros Hin. exists (partition_point ids id). unfold binary_search.
    rewrite decide_True; [done|].
    destruct (partition_point_split ids id Hs) as [Hlt Hge].
    rewrite <- (take_drop (partition_point ids id) ids), elem_of_app in Hin.
    destruct Hin as [Hin|Hin].
    { rewrite Forall_forall in Hlt. specialize (Hlt _ Hin). simpl in Hlt. lia. }
    rewrite <- (Nat.add_0_r (partition_point ids id)), <- lookup_drop.
    assert (StronglySorted N.lt (drop (partition_point ids id) ids)) as Hs'.
    { rewrite <- (take_drop (partition_point ids id) ids) in Hs.
      by apply StronglySorted_app_1_r in Hs. }
    destruct (drop (partition_point ids id) ids) as [|y l]; [set_solver|]. simpl. f_equal.
    apply StronglySorted_inv in Hs' as [_ Hy]. apply elem_of_cons in Hin as [->|Hin]; [done|].
    rewrite Forall_forall in Hy. specialize (Hy _ Hin).
    inversion Hge; subst. lia.
Qed.

Lemma found_spec ids id : StronglySorted N.lt ids → found ids id = true ↔ id ∈ ids.
Proof.
  intros Hs. rewrite <- binary_search_found by done. unfold found.
  destruct (binary_search ids id); naive_solver.
Qed.

Lemma insert_into_sorted_elem ids id x :
  StronglySorted N.lt ids → x ∈ insert_into_sorted ids id ↔ x = id ∨ x ∈ ids.
Proof.
  intros Hs. unfold insert_into_sorted.
  destruct (binary_search ids id) as [pos|pos] eqn:E.
  - apply binary_search_inl in E as [E _]. apply list_elem_of_lookup_2 in E. naive_solver.
  - unfold vec_insert. rewrite <- (take_drop pos ids) at 3.
    rewrite !elem_of_app, elem_of_cons. naive_solver.
Qed.

Lemma not_found_partition ids id pos :
  StronglySorted N.lt ids → binary_search ids id = inr pos →
  pos = partition_point ids id ∧ id ∉ ids.
Proof.
  intros Hs E. split; [unfold binary_search in E; by case_decide; simplify_eq|].
  intros Hin. apply binary_search_found in Hin as [p Hp]; [|done]. congruence.
Qed.

Lemma insert_into_sorted_sorted ids id :
  StronglySorted N.lt ids → StronglySorted N.lt (insert_into_sorted ids id).
Proof.
  intros Hs. unfold insert_into_sorted.
  destruct (binary_search ids id) as [pos|pos] eqn:E; [done|].
  apply not_found_partition in E as [-> Hn]; [|done].
  destruct (partition_point_split ids id Hs) as [Hlt Hge]. unfold vec_insert.
  set (p := partition_point ids id) in *.
  rewrite <- (take_drop p ids) in Hs, Hn. apply StronglySorted_app in Hs as (Hx & H1 & H2).
  rewrite Forall_forall in Hlt, Hge.
  apply StronglySorted_app_2; [|done|].
  - intros x1 x2 H1' [->|H2']%elem_of_cons; [by apply Hlt|by apply Hx].
  - constructor; [done|]. apply Forall_forall. intros x Hin.
    specialize (Hge x Hin). simpl in Hge. assert (x ≠ id) by set_solver. lia.
Qed.

Lemma insert_into_sorted_ok ids id :
  ids_ok ids → in_u64 id → ids_ok (insert_into_sorted ids id).
Proof.
  intros [Hs Hu] Hid. split; [by apply insert_into_sorted_sorted|].
  rewrite Forall_forall in Hu |- *. intros x Hx.
  apply insert_into_sorted_elem in Hx as [->|Hx]; auto.
Qed.

Lemma sorted_nodup ids : StronglySorted N.lt ids → NoDup ids.
Proof.
  induction 1 as [|x ids Hs IH Hx]; constructor; [|done].
  intros Hin. rewrite Forall_forall in Hx. specialize (Hx _ Hin). lia.
Qed.

Lemma remove_from_sorted_spec ids id ids' b :
  StronglySorted N.lt ids → remove_from_sorted ids id = (ids', b) →
  (b = true ↔ id ∈ ids) ∧ StronglySorted N.lt ids' ∧
  (∀ x, x ∈ ids' ↔ x ∈ ids ∧ x ≠ id).
Proof.
  intros Hs. unfold remove_from_sorted.
  destruct (binary_search ids id) as [pos|pos] eqn:E; intros [= <- <-].
  - apply binary_search_inl in E as [E _]. pose proof E as Hin.
    apply list_elem_of_lookup_2 in Hin. unfold vec_remove.
    apply take_drop_middle in E. pose proof (sorted_nodup _ Hs) as Hnd.
    rewrite <- E in Hs, Hnd. apply StronglySorted_app in Hs as (Hx & H1 & H2).
    apply StronglySorted_inv in H2 as [H2 _].
    apply NoDup_app in Hnd as (_ & Hd & Hnd). apply NoDup_cons in Hnd as [Hnd _].
    split_and!; [done|..].
    + apply StronglySorted_app_2; [|done..]. intros x1 x2 ? ?. apply Hx; set_solver.
    + intros x. rewrite <- E at 3. set_solver.
  - apply not_found_partition in E as [_ Hn]; [|done]. set_solver.
Qed.

Lemma remove_from_sorted_ok ids id :
  ids_ok ids → ids_ok (remove_from_sorted ids id).1.
Proof.
  intros [Hs Hu]. destruct (remove_from_sorted ids id) as [ids' b] eqn:E.
  destruct (remove_from_sorted_spec ids id ids' b Hs E) as (_ & Hs' & Hx).
  split; [done|]. rewrite Forall_forall in Hu |- *. intros x [Hin _]%Hx. auto.
Qed.

Lemma StronglySorted_lt_le ids : StronglySorted N.lt ids → StronglySorted N.le (0%N :: ids).
Proof.
  intros H. constructor; [|apply Forall_forall; intros; lia].
  induction H as [|x ids Hs IH Hx]; constructor; [done|].
  rewrite Forall_forall in Hx |- *. intros y Hy. specialize (Hx y Hy). lia.
Qed.

(** What the storage layer uses of the encoding. *)
Lemma decode_encode_id_list ids : ids_ok ids → decode_id_list (encode_id_list ids) = ids.
Proof.
  intros [Hs Hu]. unfold decode_id_list, encode_id_list.
  apply decode_encode_ids; [done|by apply StronglySorted_lt_le|done].
Qed.

Lemma encode_id_list_nil ids : encode_id_list ids = [] ↔ ids = [].
Proof.
  split; [|by intros ->]. destruct ids as [|id ids]; [done|].
  unfold encode_id_list. simpl. rewrite encode_id_list_loop_app.
  pose proof (length_encode_varint_pos (u64_sub id 0)) as H.
  intros [E _]%app_eq_nil. rewrite E in H. simpl in H. lia.
Qed.

#[export] Hint Resolve insert_into_sorted_ok remove_from_sorted_ok : run.
