(* ===== verification/Msgpack.v ===== *)
(** * The interface to rmp_serde, with a reference implementation

    Property maps, node records and indexed values are stored as MessagePack.
    The serializer is a dependency: [Msgpack] lists the entry points the source
    calls and [MsgpackLaws] what it relies on: a stored value decodes to what
    was encoded, and encodings are self-delimiting.  The decoder has a
    recursion limit; [storable] is the set of values within it.

    [Reference] is a concrete self-delimiting serializer satisfying the laws;
    the witnesses evaluate the storage code with it. *)
From S2P Require Export Types.

Class Msgpack := {
  storable : value → Prop;
  to_vec_props : Properties → result string bytes;
  from_slice_props : bytes → result string Properties;
  to_vec_record : NodeRecord → result string bytes;
  from_slice_record : bytes → result string NodeRecord;
  to_vec_value : value → result string bytes;
}.

Definition props_storable `{Msgpack} (p : Properties) : Prop := map_Forall (λ _, storable) p.

(** The bytes, when encoding succeeds. *)
Definition enc_props `{Msgpack} (p : Properties) : bytes :=
  match to_vec_props p with Ok b => b | _ => [] end.
Definition enc_record `{Msgpack} (r : NodeRecord) : bytes :=
  match to_vec_record r with Ok b => b | _ => [] end.
Definition enc_value `{Msgpack} (v : value) : bytes :=
  match to_vec_value v with Ok b => b | _ => [] end.

Class MsgpackLaws `{Mp : Msgpack} : Prop := {
  (** Writing to a growable buffer does not fail. *)
  law_to_vec_props p : to_vec_props p = Ok (enc_props p);
  law_to_vec_record r : to_vec_record r = Ok (enc_record r);
  law_to_vec_value v : to_vec_value v = Ok (enc_value v);
  (** Round trips within the recursion limit. *)
  law_from_slice_props p : props_storable p → from_slice_props (enc_props p) = Ok p;
  law_from_slice_record r :
    props_storable (rec_properties r) → from_slice_record (enc_record r) = Ok r;
  (** A frame determines its value whatever follows it. *)
  law_value_frame v w r1 r2 :
    enc_value v ++ r1 = enc_value w ++ r2 → v = w;
  law_storable_null : storable Value.Null;
}.

(** ** A reference serializer *)
Module Reference.

(** Values as trees of strings and integers. *)
Definition leaf : Type := string + Z.
Abbreviation tree := (gen_tree leaf).
Definition S_ (s : string) : tree := GenLeaf (inl s).
Definition Z_ (z : Z) : tree := GenLeaf (inr z).

Definition props_tree {V} (f : V → tree) (m : gmap string V) : tree :=
  GenNode 0 (map_fold (λ k v acc, S_ k :: f v :: acc) [] m).
Definition labels_tree (l : list string) : tree := GenNode 0 (S_ <$> l).
Definition node_tree {V} (f : V → tree) (n : node_of V) : tree :=
  GenNode 0 [Z_ (Z.of_N (node_id n)); labels_tree (node_labels n);
             props_tree f (node_properties n)].
Definition edge_tree {V} (f : V → tree) (e : edge_of V) : tree :=
  GenNode 0 [Z_ (Z.of_N (edge_src e)); Z_ (Z.of_N (edge_dst e)); S_ (edge_label e);
             props_tree f (edge_properties e)].
Definition time_trees (t : NaiveTime) : list tree :=
  [Z_ (num_seconds_from_midnight t); Z_ (nanosecond t)].
Definition date_trees (d : NaiveDate) : list tree := [Z_ (year d); Z_ (month d); Z_ (day d)].

Fixpoint to_tree (v : value) : tree :=
  match v with
  | Value.Null => GenNode 0 []
  | Value.Bool b => GenNode 1 [Z_ (Z.b2z b)]
  | Value.I64 n => GenNode 2 [Z_ n]
  | Value.F64 n => GenNode 3 [Z_ (Z.of_N n)]
  | Value.String s => GenNode 4 [S_ s]
  | Value.List l => GenNode 5 (to_tree <$> l)
  | Value.Node n => GenNode 6 [node_tree to_tree n]
  | Value.Edge e => GenNode 7 [edge_tree to_tree e]
  | Value.Path p =>
      GenNode 8 [GenNode 0 (node_tree to_tree <$> path_nodes p);
                 GenNode 0 (edge_tree to_tree <$> path_edges p)]
  | Value.Map m => GenNode 9 [props_tree to_tree m]
  | Value.Date d => GenNode 10 (date_trees d)
  | Value.LocalTime t => GenNode 11 (time_trees t)
  | Value.Time t o => GenNode 12 (Z_ (local_minus_utc o) :: time_trees t)
  | Value.LocalDateTime dt => GenNode 13 (date_trees (dt_date dt) ++ time_trees (dt_time dt))
  | Value.DateTime dt o None =>
      GenNode 14 (Z_ (local_minus_utc o) :: date_trees (dt_date dt) ++ time_trees (dt_time dt))
  | Value.DateTime dt o (Some tz) =>
      GenNode 15 (S_ tz :: Z_ (local_minus_utc o)
                  :: date_trees (dt_date dt) ++ time_trees (dt_time dt))
  | Value.Duration d =>
      GenNode 16 [Z_ (months d); Z_ (days d); Z_ (seconds d); Z_ (nanos d)]
  end.

Fixpoint of_props {V} (f : tree → option V) (l : list tree) : option (gmap string V) :=
  match l with
  | [] => Some ∅
  | GenLeaf (inl k) :: t :: l' => v ← f t; m ← of_props f l'; Some (<[k := v]> m)
  | _ => None
  end.
Definition of_props_tree {V} (f : tree → option V) (t : tree) : option (gmap string V) :=
  match t with GenNode _ l => of_props f l | _ => None end.
Definition of_string (t : tree) : option string :=
  match t with GenLeaf (inl s) => Some s | _ => None end.
Definition of_labels (t : tree) : option (list string) :=
  match t with GenNode _ l => mapM of_string l | _ => None end.
Definition of_node {V} (f : tree → option V) (t : tree) : option (node_of V) :=
  match t with
  | GenNode _ [GenLeaf (inr i); l; p] =>
      l ← of_labels l; p ← of_props_tree f p; Some (mkNode (Z.to_N i) l p)
  | _ => None
  end.
Definition of_edge {V} (f : tree → option V) (t : tree) : option (edge_of V) :=
  match t with
  | GenNode _ [GenLeaf (inr s); GenLeaf (inr d); GenLeaf (inl l); p] =>
      p ← of_props_tree f p; Some (mkEdge (Z.to_N s) (Z.to_N d) l p)
  | _ => None
  end.

Definition of_flat (c : nat) (l : list tree) : option value :=
  match c, l with
  | 0, _ => Some Value.Null
  | 1, [GenLeaf (inr b)] => Some (Value.Bool (Z.eqb b 1))
  | 2, [GenLeaf (inr n)] => Some (Value.I64 n)
  | 3, [GenLeaf (inr n)] => Some (Value.F64 (Z.to_N n))
  | 4, [GenLeaf (inl s)] => Some (Value.String s)
  | 10, [GenLeaf (inr y); GenLeaf (inr m); GenLeaf (inr d)] => Some (Value.Date (mkDate y m d))
  | 11, [GenLeaf (inr s); GenLeaf (inr n)] => Some (Value.LocalTime (mkTime s n))
  | 12, [GenLeaf (inr o); GenLeaf (inr s); GenLeaf (inr n)] =>
      Some (Value.Time (mkTime s n) (mkOffset o))
  | 13, [GenLeaf (inr y); GenLeaf (inr m); GenLeaf (inr d); GenLeaf (inr s); GenLeaf (inr n)] =>
      Some (Value.LocalDateTime (mkDateTime (mkDate y m d) (mkTime s n)))
  | 14, [GenLeaf (inr o); GenLeaf (inr y); GenLeaf (inr m); GenLeaf (inr d);
         GenLeaf (inr s); GenLeaf (inr n)] =>
      Some (Value.DateTime (mkDateTime (mkDate y m d) (mkTime s n)) (mkOffset o) None)
  | 15, [GenLeaf (inl tz); GenLeaf (inr o); GenLeaf (inr y); GenLeaf (inr m); GenLeaf (inr d);
         GenLeaf (inr s); GenLeaf (inr n)] =>
      Some (Value.DateTime (mkDateTime (mkDate y m d) (mkTime s n)) (mkOffset o) (Some tz))
  | 16, [GenLeaf (inr m); GenLeaf (inr d); GenLeaf (inr s); GenLeaf (inr n)] =>
      Some (Value.Duration (mkDuration m d s n))
  | _, _ => None
  end.

(** Decoding needs as much fuel as the tree is deep. *)
Fixpoint tree_depth (t : tree) : nat :=
  match t with
  | GenLeaf _ => 0
  | GenNode _ l => S (foldr (λ t acc, tree_depth t `max` acc) 0 l)
  end.
Fixpoint of_tree_fuel (fuel : nat) (t : tree) : option value :=
  match fuel with
  | O => None
  | S fuel' =>
      let go := of_tree_fuel fuel' in
      match t with
      | GenLeaf _ => None
      | GenNode 5 l => Value.List <$> mapM go l
      | GenNode 6 [t] => Value.Node <$> of_node go t
      | GenNode 7 [t] => Value.Edge <$> of_edge go t
      | GenNode 8 [GenNode _ ns; GenNode _ es] =>
          ns ← mapM (of_node go) ns; es ← mapM (of_edge go) es; Some (Value.Path (mkPath ns es))
      | GenNode 9 [t] => Value.Map <$> of_props_tree go t
      | GenNode c l => of_flat c l
      end
  end.
Definition of_tree (t : tree) : option value := of_tree_fuel (S (tree_depth t)) t.

(** A positive as self-delimiting bytes: one byte per binary digit. *)
Fixpoint pos_bytes (p : positive) : bytes :=
  match p with
  | xH => [x00]
  | xO p => x01 :: pos_bytes p
  | xI p => x02 :: pos_bytes p
  end.
Fixpoint bytes_pos (l : bytes) : option positive :=
  match l with
  | x00 :: _ => Some xH
  | x01 :: l => xO <$> bytes_pos l
  | x02 :: l => xI <$> bytes_pos l
  | _ => None
  end.

Definition enc (v : value) : bytes := pos_bytes (encode (to_tree v)).
Definition dec (l : bytes) : option value := p ← bytes_pos l; t ← decode p; of_tree t.
Arguments enc : simpl never.
Arguments dec : simpl never.

Definition msgpack : Msgpack := {|
  storable _ := True;
  to_vec_props p := Ok (enc (Value.Map p));
  from_slice_props l :=
    match dec l with Some (Value.Map p) => Ok p | _ => Err "invalid type" end;
  to_vec_record r := Ok (enc (Value.Node (mkNode 0 (rec_labels r) (rec_properties r))));
  from_slice_record l :=
    match dec l with
    | Some (Value.Node n) => Ok (mkNodeRecord (node_labels n) (node_properties n))
    | _ => Err "invalid type"
    end;
  to_vec_value v := Ok (enc v);
|}.

(** *** The laws *)
Lemma pos_bytes_prefix p q r1 r2 : pos_bytes p ++ r1 = pos_bytes q ++ r2 → p = q.
Proof.
  revert q. induction p as [p IH|p IH|]; intros [q|q|]; simpl; try done;
    intros [= H]; f_equal; eauto.
Qed.
Lemma bytes_pos_bytes p : bytes_pos (pos_bytes p) = Some p.
Proof. induction p as [p IH|p IH|]; simpl; by rewrite ?IH. Qed.

Lemma props_list_elem {V} (f : V → tree) (m : gmap string V) k v :
  m !! k = Some v → f v ∈ map_fold (λ k v acc, S_ k :: f v :: acc) [] m.
Proof.
  revert k v. apply (map_fold_weak_ind (λ l m, ∀ k v, m !! k = Some v → f v ∈ l)).
  - intros k v. by rewrite lookup_empty.
  - intros i x m' r Hi IH k v. destruct (decide (i = k)) as [->|Hne].
    + rewrite lookup_insert_eq. intros [= ->]. set_solver.
    + rewrite lookup_insert_ne by done. intros Hk. do 2 right. eauto.
Qed.

Lemma of_props_list {V} (g : tree → option V) (f : V → tree) (m : gmap string V) :
  (∀ k v, m !! k = Some v → g (f v) = Some v) →
  of_props g (map_fold (λ k v acc, S_ k :: f v :: acc) [] m) = Some m.
Proof.
  apply (map_fold_weak_ind
    (λ l m, (∀ k v, m !! k = Some v → g (f v) = Some v) → of_props g l = Some m)).
  - done.
  - intros i x m' r Hi IH H. cbn.
    rewrite (H i x) by apply lookup_insert_eq. cbn. rewrite IH; [done|].
    intros k v Hk. apply (H k). rewrite lookup_insert_ne; [done|congruence].
Qed.

Lemma mapM_of_string l : mapM of_string (S_ <$> l) = Some l.
Proof. apply mapM_fmap_Some. done. Qed.

Lemma of_node_tree {V} (g : tree → option V) (f : V → tree) (n : node_of V) :
  (∀ k v, node_properties n !! k = Some v → g (f v) = Some v) →
  of_node g (node_tree f n) = Some n.
Proof.
  intros H. unfold node_tree, of_node, of_labels, labels_tree, of_props_tree, props_tree, Z_.
  rewrite mapM_of_string. cbn. rewrite of_props_list by done. cbn.
  rewrite N2Z.id. by destruct n.
Qed.
Lemma of_edge_tree {V} (g : tree → option V) (f : V → tree) (e : edge_of V) :
  (∀ k v, edge_properties e !! k = Some v → g (f v) = Some v) →
  of_edge g (edge_tree f e) = Some e.
Proof.
  intros H. unfold edge_tree, of_edge, of_props_tree, props_tree, Z_, S_.
  rewrite of_props_list by done. cbn. rewrite !N2Z.id. by destruct e.
Qed.

Lemma tree_depth_elem n (l : list tree) t : t ∈ l → tree_depth t < tree_depth (GenNode n l).
Proof. simpl. induction 1 as [|t u l Ht IH]; simpl in *; lia. Qed.
Lemma node_tree_depth {V} (f : V → tree) (n : node_of V) k v :
  node_properties n !! k = Some v → tree_depth (f v) < tree_depth (node_tree f n).
Proof.
  intros Hk. trans (tree_depth (props_tree f (node_properties n))).
  - by eapply tree_depth_elem, props_list_elem.
  - apply tree_depth_elem. set_solver.
Qed.
Lemma edge_tree_depth {V} (f : V → tree) (e : edge_of V) k v :
  edge_properties e !! k = Some v → tree_depth (f v) < tree_depth (edge_tree f e).
Proof.
  intros Hk. trans (tree_depth (props_tree f (edge_properties e))).
  - by eapply tree_depth_elem, props_list_elem.
  - apply tree_depth_elem. set_solver.
Qed.

(** Any value inside a node of depth [d] is shallower than [d]. *)
Lemma of_to_tree_fuel fuel v :
  tree_depth (to_tree v) < fuel → of_tree_fuel fuel (to_tree v) = Some v.
Proof.
  revert v. induction fuel as [|fuel IH]; intros v Hv; [lia|].
  assert (∀ t n l, t ∈ l → tree_depth (GenNode n l) < S fuel → tree_depth t < fuel) as Hsub.
  { intros t n l Ht Hl. pose proof (tree_depth_elem n l t Ht). lia. }
  assert (∀ n m, tree_depth (GenNode n [props_tree to_tree m]) < S fuel →
    ∀ k v, m !! k = Some v → of_tree_fuel fuel (to_tree v) = Some v) as Hprops.
  { intros n m Hm k w Hk. apply IH. eapply Nat.lt_trans; [|eapply Hsub; [|exact Hm]; by left].
    by eapply tree_depth_elem, props_list_elem. }
  destruct v; try done.
  - by destruct b.
  - simpl. by rewrite N2Z.id.
  - cbn [to_tree of_tree_fuel]. rewrite mapM_fmap_Forall_Some; [done|].
    apply Forall_forall. intros w Hw. apply IH. eapply Hsub; [|exact Hv].
    by apply list_elem_of_fmap_2.
  - cbn [to_tree of_tree_fuel]. rewrite of_node_tree; [done|]. intros k w Hk. apply IH.
    eapply Nat.lt_trans; [by eapply node_tree_depth|]. eapply Hsub; [|exact Hv]. by left.
  - cbn [to_tree of_tree_fuel]. rewrite of_edge_tree; [done|]. intros k w Hk. apply IH.
    eapply Nat.lt_trans; [by eapply edge_tree_depth|]. eapply Hsub; [|exact Hv]. by left.
  - destruct p as [ns es]. cbn [to_tree of_tree_fuel path_nodes path_edges].
    rewrite !mapM_fmap_Forall_Some; [done|..]; apply Forall_forall; intros w Hw.
    + apply of_node_tree. intros k u Hk. apply IH.
      eapply Nat.lt_trans; [by eapply node_tree_depth|].
      eapply Nat.lt_trans; [|eapply Hsub; [|exact Hv]; by left].
      apply tree_depth_elem. by apply list_elem_of_fmap_2.
    + apply of_edge_tree. intros k u Hk. apply IH.
      eapply Nat.lt_trans; [by eapply edge_tree_depth|].
      eapply Nat.lt_trans; [|eapply Hsub; [|exact Hv]; right; by left].
      apply tree_depth_elem. by apply list_elem_of_fmap_2.
  - cbn [to_tree of_tree_fuel]. unfold of_props_tree, props_tree.
    rewrite of_props_list; [done|]. eapply Hprops. exact Hv.
  - by destruct d.
  - by destruct t.
  - by destruct t, off.
  - by destruct dt as [[] []].
  - by destruct dt as [[] []], off, tz.
  - by destruct d.
Qed.

Lemma of_to_tree v : of_tree (to_tree v) = Some v.
Proof. apply of_to_tree_fuel. lia. Qed.

Lemma dec_enc v : dec (enc v) = Some v.
Proof.
  unfold dec, enc. rewrite bytes_pos_bytes. cbn. rewrite decode_encode.
  exact (of_to_tree v).
Qed.

#[global] Instance msgpack_laws : @MsgpackLaws msgpack.
Proof.
  split; try done.
  - intros p _. unfold enc_props. cbn. by rewrite dec_enc.
  - intros [l p] _. unfold enc_record. cbn. by rewrite dec_enc.
  - intros v w r1 r2 H. unfold enc_value in H. cbn in H. apply pos_bytes_prefix in H.
    apply (inj encode) in H. assert (of_tree (to_tree v) = of_tree (to_tree w)) as E by by rewrite H.
    rewrite !of_to_tree in E. congruence.
Qed.
End Reference.
