(* ===== verification/Sqlite.v ===== *)
(** * The interface to SQLite, and simulation between connections

    rusqlite and SQLite are not part of the repository.  The storage code is
    therefore written against [SqlOps], a class with one operation per SQL
    statement the source issues, for an arbitrary type of connections.
    [SqlLaws] states the documented behaviour of those statements through a
    [view] of the connection as a set of tables: a table is a map from keys to
    rows, scans of a table return rows in key order, the catalogue of tables is
    read in an arbitrary order, identifiers are case-insensitive, LIKE ignores
    ASCII case.  Disk faults are outside the laws.

    [MemDb] is the connection whose state is the view itself; it satisfies the
    laws.  [refines] relates a computation on any lawful connection to the same
    computation on [MemDb], and is closed under the monad: every storage
    operation is proved correct once, on maps, and transported. *)
From S2P Require Export Prelude.

(** ** Tables *)

(** Every table is keyed by [key]; [tbl_cols] are its other columns.  A row
    has a [label] only in a table with that column. *)
Record row := mkRow { row_label : string; row_value : bytes }.
#[global] Instance row_eq_dec : EqDecision row.
Proof. solve_decision. Defined.
(** A full-text table: the text of the statement that created it, its columns,
    and for each rowid the columns that are not null. *)
Record fts := mkFts {
  fts_sql : string;
  fts_cols : list string;
  fts_rows : gmap Z (gmap string string);
}.
#[global] Instance fts_eq_dec : EqDecision fts.
Proof. solve_decision. Defined.
(** A table of keys, or with [tbl_fts] a full-text table.  The statements on keys
    are issued on the former, the full-text ones on the latter. *)
Record tbl := mkTbl {
  tbl_name : string;
  tbl_cols : list string;
  tbl_rows : gmap bytes row;
  tbl_fts : option fts;
}.
Definition plain (name : string) (cols : list string) (rows : gmap bytes row) : tbl :=
  mkTbl name cols rows None.
#[global] Instance tbl_eq_dec : EqDecision tbl.
Proof. solve_decision. Defined.
Abbreviation db := (gmap string tbl).

Definition to_ascii_lowercase (b : byte) : byte :=
  if byte_in 65 90 b then n2b (b2n b + 32) else b.
Definition str_lower (s : string) : string := bytes_str (to_ascii_lowercase <$> str_bytes s).

Definition find_tbl (d : db) (t : string) : option tbl := d !! str_lower t.
Definition set_rows (d : db) (t : string) (T : tbl) (m : gmap bytes row) : db :=
  <[str_lower t := mkTbl (tbl_name T) (tbl_cols T) m (tbl_fts T)]> d.

Arguments find_tbl : simpl never.
Arguments set_rows : simpl never.

Definition no_such_table (t : string) : string := "no such table: " +:+ t.

(** ** The LIKE operator: [%] any text, [_] one character, ASCII case folded.
    [esc] is the ESCAPE character. *)
Fixpoint skip_cont (s : bytes) : bytes :=
  match s with
  | b :: s' => if utf8_cont b then skip_cont s' else s
  | [] => []
  end.

Fixpoint like_fuel (fuel : nat) (esc : option byte) (p s : bytes) : bool :=
  match fuel with
  | O => false
  | S fuel' =>
      match p with
      | [] => bool_decide (s = [])
      | c :: p' =>
          if bool_decide (esc = Some c) then
            match p', s with
            | e :: p'', b :: s' =>
                bool_decide (to_ascii_lowercase e = to_ascii_lowercase b)
                && like_fuel fuel' esc p'' s'
            | _, _ => false
            end
          else if bool_decide (c = "%"%byte) then
            like_fuel fuel' esc p' s
            || match s with [] => false | _ :: s' => like_fuel fuel' esc p s' end
          else if bool_decide (c = "_"%byte) then
            match s with [] => false | _ :: s' => like_fuel fuel' esc p' (skip_cont s') end
          else
            match s with
            | [] => false
            | b :: s' =>
                bool_decide (to_ascii_lowercase c = to_ascii_lowercase b)
                && like_fuel fuel' esc p' s'
            end
      end
  end.
(** Every step shortens the pattern or the text. *)
Definition like (esc : option byte) (p s : string) : bool :=
  like_fuel (S (str_len p + str_len s)) esc (str_bytes p) (str_bytes s).

(** ** Statements on a set of tables *)

(** Rows in key order. *)
Definition row_key_le (a b : bytes * row) : Prop := bytes_le a.1 b.1.
#[global] Instance row_key_le_dec a b : Decision (row_key_le a b).
Proof. unfold row_key_le. apply _. Defined.
Definition ordered (m : gmap bytes row) : list (bytes * row) :=
  merge_sort row_key_le (map_to_list m).

Definition key_value (r : bytes * row) : bytes * bytes := (r.1, row_value r.2).

Definition below (hi : option bytes) (k : bytes) : Prop :=
  match hi with Some ub => bytes_lt k ub | None => True end.
#[global] Instance below_dec hi k : Decision (below hi k).
Proof. unfold below. destruct hi; apply _. Defined.

(** The tables FTS5 keeps its index in, which the catalogue lists too. *)
Definition shadow_tables (t : string) : list string :=
  (λ suffix, t +:+ suffix) <$> ["_data"; "_idx"; "_content"; "_docsize"; "_config"].

(** FTS5 adds columns named after the table and [rank] to the declared ones, and
    reserves [rowid]; column names differ in more than case. *)
Definition fts_columns_ok (t : string) (cols : list string) : bool :=
  bool_decide (NoDup (str_lower <$> cols ++ [t; "rank"; "rowid"])).

Section Statements.
Context (d : db).

Definition on_tbl {A} (t : string) (f : tbl → A) : result string A :=
  match find_tbl d t with Some T => Ok (f T) | None => Err (no_such_table t) end.

(** [conn.prepare_cached("... t ...")]: the table must exist. *)
Definition db_prepare (t : string) : result string unit := on_tbl t (λ _, ()).

(** [SELECT value FROM "t" WHERE key = ?1] *)
Definition db_query_value (t : string) (k : bytes) : result string (option bytes) :=
  on_tbl t (λ T, row_value <$> tbl_rows T !! k).

(** [SELECT 1 FROM t WHERE key = ?1 LIMIT 1] *)
Definition db_query_one (t : string) (k : bytes) : result string (option unit) :=
  on_tbl t (λ T, (λ _, ()) <$> tbl_rows T !! k).

(** [SELECT key, value FROM "t" WHERE key >= ?1 [AND key < ?2] ORDER BY key] *)
Definition db_query_range (t : string) (lo : bytes) (hi : option bytes)
    : result string (list (bytes * bytes)) :=
  on_tbl t (λ T,
    key_value <$> filter (λ r, bytes_le lo r.1 ∧ below hi r.1) (ordered (tbl_rows T))).

(** [SELECT key, value FROM t WHERE key LIKE ?1 ORDER BY key] *)
Definition db_query_like (t : string) (pattern : string)
    : result string (list (bytes * bytes)) :=
  on_tbl t (λ T,
    key_value <$> filter (λ r, like None pattern (bytes_str r.1) = true)
      (ordered (tbl_rows T))).

(** [SELECT key, value FROM t [WHERE label = ?1 OR ':' || label || ':' LIKE
    '%:' || ?1 || ':%'] ORDER BY key]; [None] for the query without WHERE. *)
Definition label_selected (label col : string) : bool :=
  bool_decide (col = label)
  || like None ("%:" +:+ label +:+ ":%") (":" +:+ col +:+ ":").
Definition db_query_labelled (t : string) (label : option string)
    : result string (list (bytes * bytes)) :=
  on_tbl t (λ T,
    key_value <$> filter (λ r,
        match label with Some l => label_selected l (row_label r.2) | None => true end = true)
      (ordered (tbl_rows T))).

(** [INSERT OR REPLACE INTO t (key, [label,] value) VALUES ...] *)
Definition db_upsert (t : string) (k : bytes) (r : row) : db * result string unit :=
  match find_tbl d t with
  | Some T => (set_rows d t T (<[k := r]> (tbl_rows T)), Ok ())
  | None => (d, Err (no_such_table t))
  end.

(** [INSERT OR IGNORE INTO t (key, value) VALUES ...] *)
Definition db_insert_or_ignore (t : string) (k v : bytes) : db * result string unit :=
  match find_tbl d t with
  | Some T =>
      match tbl_rows T !! k with
      | Some _ => (d, Ok ())
      | None => (set_rows d t T (<[k := mkRow "" v]> (tbl_rows T)), Ok ())
      end
  | None => (d, Err (no_such_table t))
  end.

(** [INSERT INTO t (key, [label,] value) VALUES ...] *)
Definition db_insert (t : string) (k : bytes) (r : row) : db * result string unit :=
  match find_tbl d t with
  | Some T =>
      match tbl_rows T !! k with
      | Some _ => (d, Err ("UNIQUE constraint failed: " +:+ t +:+ ".key"))
      | None => (set_rows d t T (<[k := r]> (tbl_rows T)), Ok ())
      end
  | None => (d, Err (no_such_table t))
  end.

(** [UPDATE t SET value = ?1 WHERE key = k AND value = ?2]: the number of rows. *)
Definition db_update_if (t : string) (k new old : bytes) : db * result string nat :=
  match find_tbl d t with
  | Some T =>
      match tbl_rows T !! k with
      | Some r =>
          if decide (row_value r = old)
          then (set_rows d t T (<[k := mkRow (row_label r) new]> (tbl_rows T)), Ok 1)
          else (d, Ok 0)
      | None => (d, Ok 0)
      end
  | None => (d, Err (no_such_table t))
  end.

(** [DELETE FROM "t" WHERE key = ?1]: the number of rows. *)
Definition db_delete (t : string) (k : bytes) : db * result string nat :=
  match find_tbl d t with
  | Some T =>
      match tbl_rows T !! k with
      | Some _ => (set_rows d t T (base.delete k (tbl_rows T)), Ok 1)
      | None => (d, Ok 0)
      end
  | None => (d, Err (no_such_table t))
  end.

(** [SELECT COUNT( * ) > 0 FROM sqlite_master WHERE type='table' AND name=?1]:
    names are compared exactly there. *)
Definition db_table_exists (t : string) : result string bool :=
  Ok (bool_decide (tbl_name <$> find_tbl d t = Some t)).

(** [SELECT name FROM sqlite_master WHERE type='table' AND (name LIKE ?1 [ESCAPE
    e] OR name LIKE ?2)] *)
Definition table_names (p1 : string) (esc : option byte) (p2 : string) : list string :=
  filter (λ n, like esc p1 n || like None p2 n = true) (tbl_name <$> (map_to_list d).*2).
Definition db_table_names (p1 : string) (esc : option byte) (p2 : string)
    : result string (list string) := Ok (table_names p1 esc p2).

(** [CREATE TABLE "t" (...) WITHOUT ROWID] *)
Definition db_create_table (t : string) (cols : list string) : db * result string unit :=
  match find_tbl d t with
  | Some _ => (d, Err ("table " +:+ t +:+ " already exists"))
  | None => (<[str_lower t := plain t cols ∅]> d, Ok ())
  end.

(** [CREATE TABLE IF NOT EXISTS t (...) WITHOUT ROWID] *)
Definition db_create_table_if_not_exists (t : string) (cols : list string) : db * result string unit :=
  match find_tbl d t with
  | Some _ => (d, Ok ())
  | None => (<[str_lower t := plain t cols ∅]> d, Ok ())
  end.

(** [CREATE VIRTUAL TABLE "t" USING fts5(cols, tokenize='...')], where [sql] is
    the whole text. *)
Definition db_create_fts (t : string) (cols : list string) (sql : string)
    : db * result string unit :=
  match find_tbl d t with
  | Some _ => (d, Err ("table " +:+ t +:+ " already exists"))
  | None =>
      if existsb (λ u, bool_decide (is_Some (find_tbl d u))) (shadow_tables t)
         || negb (fts_columns_ok t cols)
      then (d, Err ("vtable constructor failed: " +:+ t))
      else
        (<[str_lower t := mkTbl t [] ∅ (Some (mkFts sql cols ∅))]>
           (foldr (λ u, <[str_lower u := plain u [] ∅]>) d (shadow_tables t)), Ok ())
  end.

(** [SELECT name, sql FROM sqlite_master WHERE type='table' AND name LIKE ?1 AND
    sql LIKE 'CREATE VIRTUAL TABLE%'] *)
Definition fts_tables (p : string) : list (string * string) :=
  filter (λ x, like None p x.1 = true)
    (omap (λ T, (λ f, (tbl_name T, fts_sql f)) <$> tbl_fts T) (map_to_list d).*2).
(** [SELECT name FROM sqlite_master WHERE type='table' AND name LIKE ?1] *)
Definition names_like (p : string) : list string :=
  filter (λ n, like None p n = true) (tbl_name <$> (map_to_list d).*2).

Definition set_fts (t : string) (T : tbl) (f : fts) (m : gmap Z (gmap string string)) : db :=
  <[str_lower t := mkTbl (tbl_name T) (tbl_cols T) (tbl_rows T)
                     (Some (mkFts (fts_sql f) (fts_cols f) m))]> d.
Definition on_fts (t : string) (k : tbl → fts → db * result string unit)
    : db * result string unit :=
  match find_tbl d t with
  | Some T =>
      match tbl_fts T with
      | Some f => k T f
      | None => (d, Err ("no such column: rowid in " +:+ t))
      end
  | None => (d, Err (no_such_table t))
  end.

(** [INSERT INTO "t" (rowid, c1, ..., cn) VALUES (?1, ...)]; a null is [None]. *)
Definition db_fts_insert (t : string) (rowid : Z) (vals : list (string * option string))
    : db * result string unit :=
  on_fts t (λ T f,
    if decide (Forall (λ cv, cv.1 ∈ fts_cols f) vals) then
      match fts_rows f !! rowid with
      | Some _ => (d, Err "constraint failed")
      | None =>
          (set_fts t T f (<[rowid := list_to_map (omap (λ cv : string * option string,
                             (λ v, (cv.1, v)) <$> cv.2) vals)]> (fts_rows f)), Ok ())
      end
    else (d, Err ("table " +:+ t +:+ " has no such column"))).
(** [DELETE FROM "t" WHERE rowid=?1] *)
Definition db_fts_delete (t : string) (rowid : Z) : db * result string unit :=
  on_fts t (λ T f, (set_fts t T f (base.delete rowid (fts_rows f)), Ok ())).

(** [CREATE INDEX [IF NOT EXISTS] i ON t(col)], where [t] has no index [i] yet
    unless the statement allows it.  An index changes no query's result. *)
Definition db_create_index (t col : string) : db * result string unit :=
  match find_tbl d t with
  | Some T =>
      if decide (col ∈ tbl_cols T) then (d, Ok ()) else (d, Err ("no such column: " +:+ col))
  | None => (d, Err (no_such_table t))
  end.

(** [SELECT key FROM t] *)
Definition db_query_keys (t : string) : result string (list bytes) :=
  on_tbl t (λ T, (ordered (tbl_rows T)).*1).

(** [SELECT key FROM "t" WHERE key >= ?1 [AND key < ?2]] *)
Definition db_query_key_range (t : string) (lo : bytes) (hi : option bytes)
    : result string (list bytes) :=
  on_tbl t (λ T, (filter (λ r, bytes_le lo r.1 ∧ below hi r.1) (ordered (tbl_rows T))).*1).

(** [DROP TABLE "t"] *)
Definition db_drop_table (t : string) : db * result string unit :=
  match find_tbl d t with
  | Some T =>
      let d' := base.delete (str_lower t) d in
      (match tbl_fts T with
       | Some _ => foldr (λ u, base.delete (str_lower u)) d' (shadow_tables (tbl_name T))
       | None => d'
       end, Ok ())
  | None => (d, Err (no_such_table t))
  end.

(** [ALTER TABLE t RENAME TO u] *)
Definition db_rename_table (t u : string) : db * result string unit :=
  match find_tbl d t with
  | None => (d, Err (no_such_table t))
  | Some T =>
      match find_tbl d u with
      | Some _ => (d, Err ("there is already another table or index with this name: " +:+ u))
      | None => (<[str_lower u := mkTbl u (tbl_cols T) (tbl_rows T) (tbl_fts T)]>
                    (base.delete (str_lower t) d), Ok ())
      end
  end.
End Statements.

(** ** Connections *)
Class SqlOps (conn : Type) := {
  sql_prepare : conn → string → result string unit;
  sql_query_value : conn → string → bytes → result string (option bytes);
  sql_query_one : conn → string → bytes → result string (option unit);
  sql_query_range : conn → string → bytes → option bytes
    → result string (list (bytes * bytes));
  sql_query_like : conn → string → string → result string (list (bytes * bytes));
  sql_query_labelled : conn → string → option string
    → result string (list (bytes * bytes));
  sql_table_exists : conn → string → result string bool;
  sql_table_names : conn → string → option byte → string → result string (list string);
  sql_upsert : conn → string → bytes → row → conn * result string unit;
  sql_insert_or_ignore : conn → string → bytes → bytes → conn * result string unit;
  sql_insert : conn → string → bytes → row → conn * result string unit;
  sql_update_if : conn → string → bytes → bytes → bytes → conn * result string nat;
  sql_delete : conn → string → bytes → conn * result string nat;
  sql_create_table : conn → string → list string → conn * result string unit;
  sql_create_table_if_not_exists : conn → string → list string
    → conn * result string unit;
  sql_create_index : conn → string → string → conn * result string unit;
  sql_query_keys : conn → string → result string (list bytes);
  sql_query_key_range : conn → string → bytes → option bytes → result string (list bytes);
  sql_create_fts : conn → string → list string → string → conn * result string unit;
  sql_fts_tables : conn → string → result string (list (string * string));
  sql_names_like : conn → string → result string (list string);
  sql_fts_insert : conn → string → Z → list (string * option string)
    → conn * result string unit;
  sql_fts_delete : conn → string → Z → conn * result string unit;
  sql_drop_table : conn → string → conn * result string unit;
  sql_rename_table : conn → string → string → conn * result string unit;
}.

(** Apply a function to the connection of a pair. *)
Definition on_fst {A B C} (f : A → B) (p : A * C) : B * C := (f p.1, p.2).

Class SqlLaws (conn : Type) {O : SqlOps conn} (view : conn → db) : Prop := {
  law_prepare c t : sql_prepare c t = db_prepare (view c) t;
  law_query_value c t k : sql_query_value c t k = db_query_value (view c) t k;
  law_query_one c t k : sql_query_one c t k = db_query_one (view c) t k;
  law_query_range c t lo hi : sql_query_range c t lo hi = db_query_range (view c) t lo hi;
  law_query_like c t p : sql_query_like c t p = db_query_like (view c) t p;
  law_query_labelled c t l : sql_query_labelled c t l = db_query_labelled (view c) t l;
  law_table_exists c t : sql_table_exists c t = db_table_exists (view c) t;
  (** The catalogue is read in no particular order. *)
  law_table_names c p e q :
    ∃ names, sql_table_names c p e q = Ok names ∧ names ≡ₚ table_names (view c) p e q;
  law_upsert c t k r : on_fst view (sql_upsert c t k r) = db_upsert (view c) t k r;
  law_insert_or_ignore c t k v :
    on_fst view (sql_insert_or_ignore c t k v) = db_insert_or_ignore (view c) t k v;
  law_insert c t k r : on_fst view (sql_insert c t k r) = db_insert (view c) t k r;
  law_update_if c t k n o :
    on_fst view (sql_update_if c t k n o) = db_update_if (view c) t k n o;
  law_delete c t k : on_fst view (sql_delete c t k) = db_delete (view c) t k;
  law_create_table c t cs :
    on_fst view (sql_create_table c t cs) = db_create_table (view c) t cs;
  law_create_table_if_not_exists c t cs :
    on_fst view (sql_create_table_if_not_exists c t cs)
    = db_create_table_if_not_exists (view c) t cs;
  law_create_index c t col :
    on_fst view (sql_create_index c t col) = db_create_index (view c) t col;
  law_create_fts c t cs s :
    on_fst view (sql_create_fts c t cs s) = db_create_fts (view c) t cs s;
  law_fts_tables c p :
    ∃ l, sql_fts_tables c p = Ok l ∧ l ≡ₚ fts_tables (view c) p;
  law_names_like c p :
    ∃ l, sql_names_like c p = Ok l ∧ l ≡ₚ names_like (view c) p;
  law_fts_insert c t i vs :
    on_fst view (sql_fts_insert c t i vs) = db_fts_insert (view c) t i vs;
  law_fts_delete c t i : on_fst view (sql_fts_delete c t i) = db_fts_delete (view c) t i;
  law_query_keys c t : sql_query_keys c t = db_query_keys (view c) t;
  law_query_key_range c t lo hi :
    sql_query_key_range c t lo hi = db_query_key_range (view c) t lo hi;
  law_drop_table c t : on_fst view (sql_drop_table c t) = db_drop_table (view c) t;
  law_rename_table c t u : on_fst view (sql_rename_table c t u) = db_rename_table (view c) t u;
}.

(** The in-memory connection. *)
#[global] Instance MemDb : SqlOps db := {|
  sql_prepare := db_prepare;
  sql_query_value := db_query_value;
  sql_query_one := db_query_one;
  sql_query_range := db_query_range;
  sql_query_like := db_query_like;
  sql_query_labelled := db_query_labelled;
  sql_table_exists := db_table_exists;
  sql_table_names := db_table_names;
  sql_upsert := db_upsert;
  sql_insert_or_ignore := db_insert_or_ignore;
  sql_insert := db_insert;
  sql_update_if := db_update_if;
  sql_delete := db_delete;
  sql_create_table := db_create_table;
  sql_create_table_if_not_exists := db_create_table_if_not_exists;
  sql_create_index := db_create_index;
  sql_query_keys := db_query_keys;
  sql_query_key_range := db_query_key_range;
  sql_create_fts := db_create_fts;
  sql_fts_tables d p := Ok (fts_tables d p);
  sql_names_like d p := Ok (names_like d p);
  sql_fts_insert := db_fts_insert;
  sql_fts_delete := db_fts_delete;
  sql_drop_table := db_drop_table;
  sql_rename_table := db_rename_table;
|}.

#[global] Instance MemDb_laws : SqlLaws db id.
Proof.
  split; try done; intros; cbn; unfold on_fst, id.
  all: first [by rewrite <- surjective_pairing|eauto].
Qed.

(** ** Simulation

    [refines view m f]: running [m] on a connection and looking at the result
    is running [f] on what one sees. *)
Definition refines {conn E A} (view : conn → db) (m : M conn E A) (f : M db E A) : Prop :=
  ∀ c, on_fst view (m c) = f (view c).

Section Refines.
Context {conn : Type} {view : conn → db} {E : Type}.
Implicit Types A B : Type.

Lemma refines_ret {A} (a : A) : refines view (mret a : M conn E A) (mret a).
Proof. done. Qed.
Lemma refines_throw {A} (e : E) : refines view (throw e : M conn E A) (throw e).
Proof. done. Qed.
Lemma refines_lift {A} (r : result E A) : refines view (lift r : M conn E A) (lift r).
Proof. done. Qed.
Lemma refines_reads {A} (g : conn → result E A) (h : db → result E A) :
  (∀ c, g c = h (view c)) → refines view (reads g) (reads h).
Proof. intros H c. unfold reads, on_fst. simpl. by rewrite H. Qed.
Lemma refines_bind {A B} (m : M conn E A) f (k : A → M conn E B) h :
  refines view m f → (∀ a, refines view (k a) (h a)) →
  refines view (m ≫= k) (f ≫= h).
Proof.
  intros Hm Hk c. unfold mbind, M_bind. specialize (Hm c).
  destruct (m c) as [c' [a|e|]], (f (view c)) as [d [b|e'|]]; unfold on_fst in *;
    simpl in *; simplify_eq; try done. apply Hk.
Qed.
Lemma refines_for_each {A} (f : A → M conn E unit) h (l : list A) :
  (∀ x, refines view (f x) (h x)) → refines view (for_each f l) (for_each h l).
Proof.
  intros H. induction l as [|x l IH]; simpl; [apply refines_ret|].
  by apply refines_bind.
Qed.
Lemma refines_if {A} (P : Prop) `{Decision P} (m1 m2 : M conn E A) f1 f2 :
  refines view m1 f1 → refines view m2 f2 →
  refines view (if decide P then m1 else m2) (if decide P then f1 else f2).
Proof. intros. by destruct (decide P). Qed.

(** Reading off a run. *)
Lemma refines_run {A} (m : M conn E A) f c c' r :
  refines view m f → m c = (c', r) → f (view c) = (view c', r).
Proof. intros H Hm. specialize (H c). by rewrite Hm in H. Qed.

(** A specification proved on [MemDb] holds of the connection. *)
Lemma lift_spec {A} (m : M conn E A) (f : M db E A) c a (P : db → Prop) :
  refines view m f → (∃ d', f (view c) = (d', Ok a) ∧ P d') →
  ∃ c', m c = (c', Ok a) ∧ P (view c').
Proof.
  intros Hm (d' & E1 & HP). specialize (Hm c). rewrite E1 in Hm. destruct (m c) as [c' r].
  unfold on_fst in Hm. simpl in Hm. simplify_eq. eauto.
Qed.
End Refines.

Create HintDb refine discriminated.
#[export] Hint Constants Opaque : refine.
#[export] Hint Resolve refines_ret refines_throw refines_lift : refine.

(** Walks a computation: binds, tests, matches on read values. *)
Ltac refine_step :=
  match goal with
  | |- refines _ (for_each _ _) _ => apply refines_for_each; intros ?
  | |- refines _ (if ?b then _ else _) _ => destruct b
  | |- refines _ (match ?x with _ => _ end) _ => destruct x
  | |- refines _ (let '_ := ?x in _) _ => destruct x
  | |- refines _ _ _ => solve [eauto 3 with refine]
  | |- refines _ (mbind _ _) _ => apply refines_bind; [|intros ?]
  | |- refines _ (reads _) _ => apply refines_reads; intros ?
  | |- _ = _ => solve [eauto 3 with refine]
  end.
Ltac solve_refines := repeat refine_step.
