(* ===== verification/Kv.v ===== *)
(** * The key-value layer: src/src/storage/kv.rs

    Point reads, writes, deletes and prefix scans on a table, with the guard on
    table names.  The main result is that a prefix scan returns exactly the
    rows whose key starts with the prefix, in key order. *)
From S2P Require Export Errors Sqlite.

Definition TABLE_NODES : string := "nodes".
Definition TABLE_ADJ_OUT : string := "adj_out".
Definition TABLE_ADJ_IN : string := "adj_in".
Definition TABLE_EDGE_PROPS : string := "edge_props".

(** [e.into()] for a rusqlite error. *)
Definition storage {A} (r : result string A) : Res A :=
  match r with
  | Ok a => Ok a
  | Err e => Err (GraphError.from_rusqlite e)
  | Panic => Panic
  end.

Definition check_table (table : string) : Res unit :=
  if bool_decide (table = "")
     || negb (forallb (λ b, is_ascii_alphanumeric b || bool_decide (b = "_"%byte)
                            || bool_decide (b = "$"%byte)) (str_bytes table))
  then Err (GraphError.InvalidName table None)
  else Ok ().

(** The [while let Some(last) = upper.last_mut()] loop, on the reversed
    buffer: its last byte comes first. *)
Fixpoint prefix_upper_bound_loop (rev_upper : bytes) : option bytes :=
  match rev_upper with
  | [] => None
  | last :: rest =>
      if decide (b2n last < 255)%N then Some (reverse (n2b (b2n last + 1) :: rest))
      else prefix_upper_bound_loop rest
  end.
Definition prefix_upper_bound (prefix : bytes) : option bytes :=
  prefix_upper_bound_loop (reverse prefix).

Section Kv.
Context {conn : Type} {O : SqlOps conn}.

(** A statement that changes the connection. *)
Definition exec {A} (f : conn → conn * result string A) : M conn GraphError A :=
  λ c, let '(c', r) := f c in (c', storage r).

Definition kv_get (table : string) (key : bytes) (c : conn) : Res (option bytes) :=
  check_table table ≫= λ _, storage (sql_query_value c table key).

Definition kv_put (table : string) (key value : bytes) : M conn GraphError unit :=
  lift (check_table table) ≫= λ _, exec (λ c, sql_upsert c table key (mkRow "" value)).

Definition kv_delete (table : string) (key : bytes) : M conn GraphError bool :=
  lift (check_table table) ≫= λ _,
  exec (λ c, sql_delete c table key) ≫= λ count, mret (bool_decide (0 < count)).

Definition kv_scan_prefix (table : string) (prefix : bytes) (c : conn)
    : Res (list (bytes * bytes)) :=
  check_table table ≫= λ _,
  storage (sql_query_range c table prefix (prefix_upper_bound prefix)).
End Kv.

Example prefix_upper_bound_examples :
  prefix_upper_bound [x00; x01] = Some [x00; x02] ∧
  prefix_upper_bound [xff] = None ∧
  prefix_upper_bound [x01; xff] = Some [x02] ∧
  prefix_upper_bound [] = None.
Proof. vm_compute. done. Qed.

(** ** Simulation of the operations *)
Section Simulation.
Context {conn : Type} {O : SqlOps conn} {view : conn → db} {L : SqlLaws conn view}.

Lemma exec_refines {A} (f : conn → conn * result string A) (g : db → db * result string A) :
  (∀ c, on_fst view (f c) = g (view c)) → refines view (exec f) (exec g).
Proof.
  intros H c. unfold exec. specialize (H c). unfold on_fst in *.
  destruct (f c) as [c' r]. simpl in *. rewrite <- H. done.
Qed.

Lemma kv_get_view t k c : kv_get t k c = kv_get t k (view c).
Proof. unfold kv_get. by rewrite law_query_value. Qed.
Lemma kv_scan_prefix_view t p c : kv_scan_prefix t p c = kv_scan_prefix t p (view c).
Proof. unfold kv_scan_prefix. by rewrite law_query_range. Qed.
Lemma kv_put_refines t k v : refines view (kv_put t k v) (kv_put t k v).
Proof.
  unfold kv_put. apply refines_bind; [apply refines_lift|intros _].
  apply exec_refines. intros c. apply law_upsert.
Qed.
Lemma kv_delete_refines t k : refines view (kv_delete t k) (kv_delete t k).
Proof.
  unfold kv_delete. apply refines_bind; [apply refines_lift|intros _].
  apply refines_bind; [|intros; apply refines_ret].
  apply exec_refines. intros c. apply law_delete.
Qed.
End Simulation.
#[export] Hint Resolve kv_put_refines kv_delete_refines : refine.
#[export] Hint Resolve kv_get_view kv_scan_prefix_view : refine.

(** ** Prefix scans *)
Lemma bytes_cmp_app_same p a b : bytes_cmp (p ++ a) (p ++ b) = bytes_cmp a b.
Proof. induction p as [|x p IH]; simpl; [done|]. by rewrite N.compare_refl. Qed.

Lemma bytes_le_prefix p k : p `prefix_of` k → bytes_le p k.
Proof.
  intros [s ->]. rewrite <- (app_nil_r p) at 1. unfold bytes_le.
  rewrite bytes_cmp_app_same. by destruct s.
Qed.

Lemma b2n_succ b : (b2n b < 255)%N → b2n (n2b (b2n b + 1)) = (b2n b + 1)%N.
Proof. intros. rewrite b2n_n2b. apply N.mod_small. lia. Qed.

(** The shape of the bound: the trailing [0xff]s are dropped and the byte
    before them incremented. *)
Lemma prefix_upper_bound_shape p :
  (prefix_upper_bound p = None ∧ Forall (λ b, b2n b = 255%N) p)
  ∨ ∃ q x r, p = q ++ x :: r ∧ (b2n x < 255)%N ∧ Forall (λ b, b2n b = 255%N) r
      ∧ prefix_upper_bound p = Some (q ++ [n2b (b2n x + 1)]).
Proof.
  unfold prefix_upper_bound. induction p as [|y p IH] using rev_ind; [left; done|].
  rewrite reverse_snoc. simpl. case_decide as Hy.
  - right. exists p, y, []. rewrite reverse_cons, reverse_involutive. done.
  - assert (b2n y = 255%N) as Ey by (pose proof (b2n_lt y); lia).
    destruct IH as [[-> Hall]|(q & x & r & -> & Hx & Hr & ->)].
    + left. split; [done|]. apply Forall_app. by repeat constructor.
    + right. exists q, x, (r ++ [y]). split_and!; [by rewrite <- app_assoc|done| |done].
      apply Forall_app. by repeat constructor.
Qed.

(** Past the run of [0xff]s there is nothing larger to exclude. *)
Lemma bytes_le_ff p k :
  Forall (λ b, b2n b = 255%N) p → bytes_le p k → p `prefix_of` k.
Proof.
  intros Hp. revert k. induction Hp as [|x p Hx Hp IH]; intros k Hk; [apply prefix_nil|].
  destruct k as [|y k]; [done|]. unfold bytes_le in Hk. simpl in Hk.
  destruct (N.compare_spec (b2n x) (b2n y)) as [E|E|E]; [|pose proof (b2n_lt y); lia|done].
  apply (inj b2n) in E as ->. by apply prefix_cons, IH.
Qed.

Lemma in_prefix_range p k :
  bytes_le p k ∧ below (prefix_upper_bound p) k ↔ p `prefix_of` k.
Proof.
  destruct (prefix_upper_bound_shape p) as [[-> Hall]|(q & x & r & -> & Hx & Hr & ->)];
    simpl.
  { split; [intros [H _]; by apply bytes_le_ff|]. intros H. split; [by apply bytes_le_prefix|done]. }
  split.
  - intros [Hle Hlt]. revert k Hle Hlt. induction q as [|z q IH]; intros [|y k]; try done.
    + unfold bytes_le, bytes_lt. simpl. rewrite b2n_succ by done.
      destruct (N.compare_spec (b2n x) (b2n y)) as [E|E|E]; [|intros _|done].
      * intros Hle _. apply (inj b2n) in E as ->. apply prefix_cons. by apply bytes_le_ff.
      * destruct (N.compare_spec (b2n y) (b2n x + 1)) as [F|F|F]; [|lia|done].
        by destruct k.
    + unfold bytes_le, bytes_lt. simpl. rewrite (N.compare_antisym (b2n z)).
      destruct (N.compare_spec (b2n z) (b2n y)) as [E|E|E]; simpl; try done.
      apply (inj b2n) in E as ->. intros. by apply prefix_cons, IH.
  - intros Hp. split; [by apply bytes_le_prefix|]. destruct Hp as [s ->].
    rewrite <- app_assoc. unfold bytes_lt. rewrite bytes_cmp_app_same. simpl.
    rewrite b2n_succ by done.
    assert (b2n x < b2n x + 1)%N as Hl by lia. by apply N.compare_lt_iff in Hl as ->.
Qed.

(** ** Rows in key order *)
#[global] Instance row_key_le_total : Total row_key_le.
Proof. intros a b. apply (total bytes_le a.1 b.1). Qed.
#[global] Instance row_key_le_trans : Transitive row_key_le.
Proof. intros a b c. apply (transitivity (R := bytes_le)). Qed.

Lemma elem_of_ordered m k r : (k, r) ∈ ordered m ↔ m !! k = Some r.
Proof. unfold ordered. by rewrite merge_sort_Permutation, elem_of_map_to_list. Qed.

Lemma NoDup_ordered_keys m : NoDup (ordered m).*1.
Proof. unfold ordered. rewrite merge_sort_Permutation. apply NoDup_fst_map_to_list. Qed.

Lemma ordered_sorted m : StronglySorted row_key_le (ordered m).
Proof. apply (StronglySorted_merge_sort row_key_le). Qed.

(** The rows whose key starts with [p], in order: what a scan must return. *)
Definition scan (m : gmap bytes row) (p : bytes) : list (bytes * bytes) :=
  key_value <$> filter (λ r, p `prefix_of` r.1) (ordered m).

Lemma elem_of_scan m p k v :
  (k, v) ∈ scan m p ↔ p `prefix_of` k ∧ row_value <$> m !! k = Some v.
Proof.
  unfold scan. rewrite list_elem_of_fmap. split.
  - intros ([k' r] & [= -> ->] & [Hp Hin]%list_elem_of_filter).
    apply elem_of_ordered in Hin. by rewrite Hin.
  - intros [Hp Hk]. apply fmap_Some in Hk as (r & Hk & ->).
    exists (k, r). split; [done|]. apply list_elem_of_filter. split; [done|].
    by apply elem_of_ordered.
Qed.

Lemma scan_keys m p : (scan m p).*1 = (filter (λ r, p `prefix_of` r.1) (ordered m)).*1.
Proof. unfold scan. rewrite <- list_fmap_compose. by apply list_fmap_ext. Qed.

Lemma NoDup_scan_keys m p : NoDup (scan m p).*1.
Proof.
  rewrite scan_keys. eapply sublist_NoDup; [apply NoDup_ordered_keys|].
  apply fmap_sublist, sublist_filter.
Qed.

Lemma scan_sorted m p : StronglySorted (λ a b, bytes_lt a.1 b.1) (scan m p).
Proof.
  assert (StronglySorted bytes_lt (scan m p).*1) as H.
  { pose proof (NoDup_scan_keys m p) as Hnd. rewrite scan_keys in Hnd |- *.
    assert (StronglySorted row_key_le (filter (λ r, p `prefix_of` r.1) (ordered m))) as Hs.
    { generalize (ordered_sorted m). generalize (ordered m). clear. intros l.
      induction 1 as [|x l Hs IH Hx]; [constructor|]. rewrite filter_cons.
      case_decide as Hd; [|done]. constructor; [done|].
      apply Forall_forall. intros y [_ Hy]%list_elem_of_filter.
      by apply (proj1 (Forall_forall _ _) Hx). }
    revert Hnd. induction Hs as [|x l Hs IH Hx]; simpl; [constructor|].
    intros [Hn Hnd]%NoDup_cons. constructor; [auto|].
    apply Forall_forall. intros k ([k' r] & -> & Hin)%list_elem_of_fmap.
    pose proof (proj1 (Forall_forall _ _) Hx _ Hin) as Hle.
    unfold row_key_le in Hle. apply bytes_le_lt in Hle as [?|E]; [done|].
    simpl in E. destruct Hn. rewrite E. apply list_elem_of_fmap. by exists (k', r). }
  clear -H. induction (scan m p) as [|x l IH]; [constructor|].
  apply StronglySorted_inv in H as [H Hx]. constructor; [auto|].
  apply Forall_forall. intros y Hy. apply (proj1 (Forall_forall _ _) Hx).
  apply list_elem_of_fmap. eauto.
Qed.

Lemma scan_nil m p : scan m p = [] ↔ ∀ k, p `prefix_of` k → m !! k = None.
Proof.
  split.
  - intros E k Hp. destruct (m !! k) as [r|] eqn:Hk; [|done].
    assert ((k, row_value r) ∈ scan m p) as Hin by (apply elem_of_scan; by rewrite Hk).
    rewrite E in Hin. by apply not_elem_of_nil in Hin.
  - intros H. destruct (scan m p) as [|[k v] l] eqn:E; [done|].
    assert ((k, v) ∈ scan m p) as Hin by (rewrite E; set_solver).
    apply elem_of_scan in Hin as [Hp Hk]. by rewrite H in Hk.
Qed.

(** ** The operations on maps *)
Lemma kv_get_run (d : db) t T k :
  check_table t = Ok () → find_tbl d t = Some T →
  kv_get t k d = Ok (row_value <$> tbl_rows T !! k).
Proof.
  intros Ht HT. unfold kv_get. rewrite Ht. cbn. unfold db_query_value, on_tbl.
  by rewrite HT.
Qed.

Lemma kv_put_run (d : db) t T k v :
  check_table t = Ok () → find_tbl d t = Some T →
  kv_put t k v d = (set_rows d t T (<[k := mkRow "" v]> (tbl_rows T)), Ok ()).
Proof.
  intros Ht HT. unfold kv_put. rewrite Ht.
  unfold mbind, M_bind, lift, exec. cbn. unfold db_upsert. by rewrite HT.
Qed.

Lemma kv_delete_run (d : db) t T k :
  check_table t = Ok () → find_tbl d t = Some T →
  kv_delete t k d =
    match tbl_rows T !! k with
    | Some _ => (set_rows d t T (base.delete k (tbl_rows T)), Ok true)
    | None => (d, Ok false)
    end.
Proof.
  intros Ht HT. unfold kv_delete. rewrite Ht.
  unfold mbind, M_bind, lift, exec. cbn. unfold db_delete. rewrite HT.
  by destruct (tbl_rows T !! k).
Qed.

Lemma kv_scan_prefix_run (d : db) t T p :
  check_table t = Ok () → find_tbl d t = Some T →
  kv_scan_prefix t p d = Ok (scan (tbl_rows T) p).
Proof.
  intros Ht HT. unfold kv_scan_prefix. rewrite Ht. cbn. unfold db_query_range, on_tbl.
  rewrite HT. simpl. unfold scan. do 2 f_equal.
  apply list_filter_iff. intros [k r]. apply in_prefix_range.
Qed.

(** ** Reading and updating one table of a database *)
Definition has_tbl (d : db) (t : string) : Prop := is_Some (find_tbl d t).
Definition trows (d : db) (t : string) : gmap bytes row :=
  match find_tbl d t with Some T => tbl_rows T | None => ∅ end.
Definition upd (d : db) (t : string) (m : gmap bytes row) : db :=
  match find_tbl d t with Some T => set_rows d t T m | None => d end.

#[global] Instance has_tbl_dec d t : Decision (has_tbl d t).
Proof. unfold has_tbl. apply _. Defined.

Lemma find_set_rows d t T m t' :
  find_tbl (set_rows d t T m) t' =
    if decide (str_lower t = str_lower t') then Some (mkTbl (tbl_name T) (tbl_cols T) m (tbl_fts T)) else find_tbl d t'.
Proof. unfold find_tbl, set_rows. apply lookup_insert. Qed.

Lemma trows_upd_eq d t m : has_tbl d t → trows (upd d t m) t = m.
Proof.
  intros [T HT]. unfold trows, upd. rewrite HT, find_set_rows. by rewrite decide_True.
Qed.
Lemma trows_upd_ne d t t' m :
  str_lower t ≠ str_lower t' → trows (upd d t m) t' = trows d t'.
Proof.
  intros Hne. unfold trows, upd. destruct (find_tbl d t) as [T|]; [|done].
  rewrite find_set_rows. by rewrite decide_False.
Qed.
Lemma has_tbl_upd d t t' m : has_tbl (upd d t m) t' ↔ has_tbl d t'.
Proof.
  unfold has_tbl, upd. destruct (find_tbl d t) as [T|] eqn:HT; [|done].
  rewrite find_set_rows. case_decide as E; [|done].
  unfold find_tbl in *. rewrite <- E, HT. split; eauto.
Qed.
Lemma upd_trows d t : upd d t (trows d t) = d.
Proof.
  unfold upd, trows. destruct (find_tbl d t) as [[n cs m]|] eqn:HT; [|done].
  unfold set_rows. simpl. by apply insert_id.
Qed.
Lemma upd_upd d t m m' : upd (upd d t m) t m' = upd d t m'.
Proof.
  unfold upd at 1 3. destruct (find_tbl d t) as [T|] eqn:HT.
  - unfold upd. rewrite HT, find_set_rows, decide_True by done.
    unfold set_rows. simpl. by rewrite insert_insert_eq.
  - unfold upd. by rewrite HT, HT.
Qed.
Lemma upd_comm d t t' m m' :
  str_lower t ≠ str_lower t' → upd (upd d t m) t' m' = upd (upd d t' m') t m.
Proof.
  intros Hne. unfold upd at 1 3.
  assert (∀ u u' n, str_lower u ≠ str_lower u' → find_tbl (upd d u n) u' = find_tbl d u') as Hf.
  { intros u u' n Hu. unfold upd. destruct (find_tbl d u); [|done].
    rewrite find_set_rows. by rewrite decide_False. }
  rewrite !Hf by done. unfold upd.
  destruct (find_tbl d t) as [T|], (find_tbl d t') as [T'|]; try done.
  unfold set_rows. by rewrite insert_insert_ne.
Qed.

Section Runs.
Context (d : db) (t : string) (Hc : check_table t = Ok ()) (Ht : has_tbl d t).

Lemma kv_get_trows k : kv_get t k d = Ok (row_value <$> trows d t !! k).
Proof. destruct Ht as [T HT]. unfold trows. rewrite HT. by apply kv_get_run. Qed.
Lemma kv_put_trows k v :
  kv_put t k v d = (upd d t (<[k := mkRow "" v]> (trows d t)), Ok ()).
Proof. destruct Ht as [T HT]. unfold trows, upd. rewrite HT. by apply kv_put_run. Qed.
Lemma kv_delete_trows k :
  kv_delete t k d =
    (upd d t (base.delete k (trows d t)), Ok (bool_decide (is_Some (trows d t !! k)))).
Proof.
  destruct Ht as [T HT].
  assert (trows d t = tbl_rows T) as Er by (unfold trows; by rewrite HT).
  rewrite (kv_delete_run d t T) by done. rewrite Er.
  destruct (tbl_rows T !! k) eqn:Ek.
  - rewrite bool_decide_eq_true_2 by eauto. unfold upd. by rewrite HT.
  - rewrite bool_decide_eq_false_2 by (intros [? ?]; congruence).
    rewrite delete_id by done. by rewrite <- Er, upd_trows.
Qed.
Lemma kv_scan_trows p : kv_scan_prefix t p d = Ok (scan (trows d t) p).
Proof. destruct Ht as [T HT]. unfold trows. rewrite HT. by apply kv_scan_prefix_run. Qed.
End Runs.

Create Rewrite HintDb trows.
#[export] Hint Rewrite @trows_upd_ne @trows_upd_eq using (done || discriminate) : trows.
