(* ===== verification/Counters.v ===== *)
(** * Counters in the metadata table: src/src/id.rs and src/src/stats.rs

    Node-id and edge-sequence allocation, and the per-label and per-type counts
    the planner reads.  Every counter is an eight-byte big-endian value under a
    text key of [metadata]. *)
From S2P Require Export Kv.

Definition METADATA : string := "metadata".
Definition NEXT_NODE_ID : string := "next_node_id".
Definition NEXT_EDGE_SEQ : string := "next_edge_seq".
Definition LABEL_COUNT_PREFIX : string := "stats:label_count:".
Definition EDGE_TYPE_COUNT_PREFIX : string := "stats:edge_type_count:".

Section Counters.
Context {conn : Type} {O : SqlOps conn}.

(** [stmt.query_row(..)]: no row is an error. *)
Definition query_row (table : string) (key : bytes) (c : conn) : result string bytes :=
  match sql_query_value c table key with
  | Ok (Some v) => Ok v
  | Ok None => Err "Query returned no rows"
  | Err e => Err e
  | Panic => Panic
  end.

Definition corrupt (source : string) : GraphError := GraphError.Serialization "" source None.

(** ** src/src/id.rs *)
Definition next_node_id : M conn GraphError N :=
  reads (λ c, storage (query_row METADATA (str_bytes NEXT_NODE_ID) c)) ≫= λ raw,
  lift (ok_or (u64_from_be_prefix raw) (corrupt "corrupt node ID bytes")) ≫= λ current,
  lift (ok_or (u64_checked_add current 1)
    (GraphError.Transaction "node ID space exhausted" None)) ≫= λ next,
  exec (λ c, sql_update_if c METADATA (str_bytes NEXT_NODE_ID) (u64_to_be next) raw)
    ≫= λ rows,
  if decide (rows = 0)
  then throw (GraphError.Transaction "node ID conflict — concurrent writer" None)
  else mret current.

Definition next_edge_seq : M conn GraphError N :=
  reads (λ c, storage (sql_prepare c METADATA)) ≫= λ _,
  (λ c, match query_row METADATA (str_bytes NEXT_EDGE_SEQ) c with
        | Ok v => (c, Ok v)
        | Err _ =>
            (exec (λ c, sql_insert c METADATA (str_bytes NEXT_EDGE_SEQ)
                          (mkRow "" (u64_to_be 0)))
             ≫= λ _, mret (u64_to_be 0)) c
        | Panic => (c, Panic)
        end) ≫= λ raw,
  lift (ok_or (u64_from_be_prefix raw) (corrupt "corrupt edge seq bytes")) ≫= λ current,
  lift (ok_or (u64_checked_add current 1)
    (GraphError.Transaction "edge sequence space exhausted" None)) ≫= λ next,
  exec (λ c, sql_update_if c METADATA (str_bytes NEXT_EDGE_SEQ) (u64_to_be next) raw)
    ≫= λ _,
  mret current.

(** ** src/src/stats.rs *)

(** The shared body of [get_label_count] and [get_edge_type_count]: the statement
    must prepare; a row that is missing, unreadable or not eight bytes counts as zero. *)
Definition get_count (prefix name corrupt_source : string) (c : conn) : Res N :=
  storage (sql_prepare c METADATA) ≫= λ _ : unit,
  match query_row METADATA (str_bytes (prefix +:+ name)) c with
  | Ok data =>
      if decide (length data = 8) then
        ok_or (u64_from_be_prefix data) (corrupt corrupt_source)
      else Ok 0%N
  | Err _ => Ok 0%N
  | Panic => Panic
  end.

Definition set_count (prefix name : string) (count : N) : M conn GraphError unit :=
  exec (λ c, sql_upsert c METADATA (str_bytes (prefix +:+ name)) (mkRow "" (u64_to_be count))).

Definition delete_count (prefix name : string) : M conn GraphError unit :=
  exec (λ c, sql_delete c METADATA (str_bytes (prefix +:+ name))) ≫= λ _, mret ().

Definition get_label_count (label : string) : conn → Res N :=
  get_count LABEL_COUNT_PREFIX label "corrupt label count bytes".
Definition set_label_count : string → N → M conn GraphError unit := set_count LABEL_COUNT_PREFIX.

Definition increment_label_count (label : string) : M conn GraphError unit :=
  reads (get_label_count label) ≫= λ count, set_label_count label (u64_add count 1).

Definition decrement_label_count (label : string) : M conn GraphError unit :=
  reads (get_label_count label) ≫= λ count,
  let new_count := u64_saturating_sub count 1 in
  if decide (new_count = 0%N) then delete_count LABEL_COUNT_PREFIX label
  else set_label_count label new_count.

Definition get_edge_type_count (type_name : string) : conn → Res N :=
  get_count EDGE_TYPE_COUNT_PREFIX type_name "corrupt edge-type count bytes".
Definition set_edge_type_count : string → N → M conn GraphError unit :=
  set_count EDGE_TYPE_COUNT_PREFIX.

Definition increment_edge_type_count (type_name : string) : M conn GraphError unit :=
  reads (get_edge_type_count type_name) ≫= λ count,
  set_edge_type_count type_name (u64_add count 1).

Definition decrement_edge_type_count_by (type_name : string) (n : N) : M conn GraphError unit :=
  reads (get_edge_type_count type_name) ≫= λ count,
  let new_count := u64_saturating_sub count n in
  if decide (new_count = 0%N) then delete_count EDGE_TYPE_COUNT_PREFIX type_name
  else set_edge_type_count type_name new_count.

(** [collect_counts]: rows whose value is not eight bytes are skipped; a key
    that does not literally start with the prefix keeps its whole text. *)
Definition count_row (prefix : string) (r : bytes * bytes) : option (string * N) :=
  let key := bytes_str r.1 in
  if decide (length r.2 = 8)
  then (λ n : N, (default key (strip_prefix prefix key), n)) <$> u64_from_be_prefix r.2
  else None.
Definition collect_counts (prefix : string) (c : conn) : Res (list (string * N)) :=
  storage (sql_query_like c METADATA (prefix +:+ "%"))
    ≫= λ rows : list (bytes * bytes), Ok (omap (count_row prefix) rows).
Definition get_all_label_counts : conn → Res (list (string * N)) :=
  collect_counts LABEL_COUNT_PREFIX.
Definition get_all_edge_type_counts : conn → Res (list (string * N)) :=
  collect_counts EDGE_TYPE_COUNT_PREFIX.
End Counters.

(** ** Simulation *)
Section Simulation.
Context {conn : Type} {O : SqlOps conn} {view : conn → db} {L : SqlLaws conn view}.

Lemma query_row_view t k c : query_row t k c = query_row t k (view c).
Proof. unfold query_row. by rewrite law_query_value. Qed.
Lemma get_count_view p n s c : get_count p n s c = get_count p n s (view c).
Proof. unfold get_count. by rewrite query_row_view, law_prepare. Qed.
Lemma get_label_count_view l c : get_label_count l c = get_label_count l (view c).
Proof. apply get_count_view. Qed.
Lemma get_edge_type_count_view l c : get_edge_type_count l c = get_edge_type_count l (view c).
Proof. apply get_count_view. Qed.
Lemma collect_counts_view p c : collect_counts p c = collect_counts p (view c).
Proof. unfold collect_counts. by rewrite law_query_like. Qed.

Lemma set_count_refines p n k : refines view (set_count p n k) (set_count p n k).
Proof. apply exec_refines. intros c. apply law_upsert. Qed.
Lemma delete_count_refines p n : refines view (delete_count p n) (delete_count p n).
Proof.
  apply refines_bind; [|intros; apply refines_ret].
  apply exec_refines. intros c. apply law_delete.
Qed.
Hint Resolve set_count_refines delete_count_refines : refine.
Hint Resolve get_label_count_view get_edge_type_count_view : refine.

Lemma next_node_id_refines : refines view next_node_id next_node_id.
Proof.
  unfold next_node_id. apply refines_bind; [|intros raw].
  { apply refines_reads. intros c. by rewrite query_row_view. }
  do 2 (apply refines_bind; [apply refines_lift|intros ?]).
  apply refines_bind; [apply exec_refines; intros c; apply law_update_if|].
  intros rows. solve_refines.
Qed.

Lemma next_edge_seq_refines : refines view next_edge_seq next_edge_seq.
Proof.
  unfold next_edge_seq. apply refines_bind; [|intros _].
  { apply refines_reads. intros c. by rewrite law_prepare. }
  apply refines_bind; [|intros raw].
  { intros c. rewrite query_row_view.
    destruct (query_row METADATA _ (view c)); try done.
    apply refines_bind; [|intros; apply refines_ret].
    apply exec_refines. intros. apply law_insert. }
  do 2 (apply refines_bind; [apply refines_lift|intros ?]).
  apply refines_bind; [apply exec_refines; intros c; apply law_update_if|].
  intros rows. solve_refines.
Qed.

Lemma increment_label_count_refines l :
  refines view (increment_label_count l) (increment_label_count l).
Proof. unfold increment_label_count, set_label_count. solve_refines. Qed.
Lemma decrement_label_count_refines l :
  refines view (decrement_label_count l) (decrement_label_count l).
Proof. unfold decrement_label_count, set_label_count. solve_refines. Qed.
Lemma increment_edge_type_count_refines l :
  refines view (increment_edge_type_count l) (increment_edge_type_count l).
Proof. unfold increment_edge_type_count, set_edge_type_count. solve_refines. Qed.
Lemma decrement_edge_type_count_by_refines l n :
  refines view (decrement_edge_type_count_by l n) (decrement_edge_type_count_by l n).
Proof. unfold decrement_edge_type_count_by, set_edge_type_count. solve_refines. Qed.
End Simulation.
#[export] Hint Resolve get_label_count_view get_edge_type_count_view : refine.
#[export] Hint Resolve next_node_id_refines next_edge_seq_refines
  increment_label_count_refines decrement_label_count_refines
  increment_edge_type_count_refines decrement_edge_type_count_by_refines : refine.

(** ** Counters as numbers *)
Definition stored (d : db) (key : string) : N :=
  match trows d METADATA !! str_bytes key with
  | Some r =>
      if decide (length (row_value r) = 8) then default 0%N (u64_from_be_prefix (row_value r))
      else 0%N
  | None => 0%N
  end.
Definition set_stored (d : db) (key : string) (n : N) : db :=
  upd d METADATA (<[str_bytes key := mkRow "" (u64_to_be n)]> (trows d METADATA)).
Definition clear_stored (d : db) (key : string) : db :=
  upd d METADATA (base.delete (str_bytes key) (trows d METADATA)).

Lemma stored_set d key n key' :
  has_tbl d METADATA → in_u64 n →
  stored (set_stored d key n) key' = if decide (key = key') then n else stored d key'.
Proof.
  intros Hm Hn. unfold stored, set_stored. rewrite trows_upd_eq by done.
  case_decide as E.
  - subst. rewrite lookup_insert_eq. cbn. rewrite length_u64_to_be.
    rewrite u64_from_to_be_nil by done. done.
  - rewrite lookup_insert_ne; [done|]. by intros H%(inj str_bytes).
Qed.
Lemma stored_clear d key key' :
  has_tbl d METADATA →
  stored (clear_stored d key) key' = if decide (key = key') then 0%N else stored d key'.
Proof.
  intros Hm. unfold stored, clear_stored. rewrite trows_upd_eq by done.
  case_decide as E.
  - subst. by rewrite lookup_delete_eq.
  - rewrite lookup_delete_ne; [done|]. by intros H%(inj str_bytes).
Qed.

Lemma stored_in_u64 d key : in_u64 (stored d key).
Proof.
  unfold stored. destruct (trows d METADATA !! str_bytes key) as [r|]; [|done].
  case_decide as E; [|done]. unfold u64_from_be_prefix. rewrite decide_True by lia.
  simpl. rewrite firstn_all2 by lia. revert E. generalize (row_value r). intros l E.
  unfold be_combine. do 9 (destruct l as [|? l]; try discriminate). clear E. simpl.
  repeat match goal with |- context [b2n ?b] =>
    let x := fresh in set (x := b2n b); assert (x < 256)%N by apply b2n_lt; clearbody x end.
  unfold in_u64, u64_mod. lia.
Qed.

Section Runs.
Context (d : db) (Hm : has_tbl d METADATA).

Lemma query_row_run key :
  query_row METADATA (str_bytes key) d =
    match trows d METADATA !! str_bytes key with
    | Some r => Ok (row_value r)
    | None => Err "Query returned no rows"
    end.
Proof.
  destruct Hm as [T HT]. unfold query_row, trows. cbn. unfold db_query_value, on_tbl.
  rewrite HT. by destruct (tbl_rows T !! _).
Qed.

Lemma prepare_run : db_prepare d METADATA = Ok ().
Proof. destruct Hm as [T HT]. unfold db_prepare, on_tbl. by rewrite HT. Qed.

Lemma get_count_run p n s : get_count p n s d = Ok (stored d (p +:+ n)).
Proof.
  unfold get_count. cbn [sql_prepare MemDb]. rewrite prepare_run.
  change (storage (Ok ())) with (@Ok GraphError unit ()).
  cbn [mbind result_bind]. rewrite query_row_run. unfold stored.
  destruct (trows d METADATA !! _) as [r|]; [|done].
  case_decide as E; [|done]. unfold u64_from_be_prefix. rewrite decide_True by lia. done.
Qed.

Lemma set_count_run p n k : set_count p n k d = (set_stored d (p +:+ n) k, Ok ()).
Proof.
  destruct Hm as [T HT]. unfold set_count, exec, set_stored, upd, trows. cbn.
  unfold db_upsert. by rewrite HT.
Qed.

Lemma delete_count_run p n : delete_count p n d = (clear_stored d (p +:+ n), Ok ()).
Proof.
  unfold clear_stored. destruct Hm as [T HT]. unfold delete_count, mbind, M_bind, exec. cbn.
  unfold db_delete. rewrite HT.
  assert (trows d METADATA = tbl_rows T) as Er by (unfold trows; by rewrite HT).
  rewrite Er. destruct (tbl_rows T !! _) eqn:Ek; cbn.
  - unfold upd. by rewrite HT.
  - rewrite delete_id by done. by rewrite <- Er, upd_trows.
Qed.

Lemma increment_label_count_run l :
  increment_label_count l d =
    (set_stored d (LABEL_COUNT_PREFIX +:+ l)
       (u64_add (stored d (LABEL_COUNT_PREFIX +:+ l)) 1), Ok ()).
Proof.
  unfold increment_label_count. erewrite run_reads by apply get_count_run.
  apply set_count_run.
Qed.

Lemma increment_edge_type_count_run l :
  increment_edge_type_count l d =
    (set_stored d (EDGE_TYPE_COUNT_PREFIX +:+ l)
       (u64_add (stored d (EDGE_TYPE_COUNT_PREFIX +:+ l)) 1), Ok ()).
Proof.
  unfold increment_edge_type_count. erewrite run_reads by apply get_count_run.
  apply set_count_run.
Qed.

(** Zero is stored as no row. *)
Definition put_stored (d : db) (key : string) (n : N) : db :=
  if decide (n = 0%N) then clear_stored d key else set_stored d key n.

Lemma decrement_edge_type_count_by_run l n :
  decrement_edge_type_count_by l n d =
    (put_stored d (EDGE_TYPE_COUNT_PREFIX +:+ l)
       (stored d (EDGE_TYPE_COUNT_PREFIX +:+ l) - n), Ok ()).
Proof.
  unfold decrement_edge_type_count_by. erewrite run_reads by apply get_count_run.
  unfold u64_saturating_sub, put_stored. case_decide.
  - apply delete_count_run.
  - apply set_count_run.
Qed.
Lemma decrement_label_count_run l :
  decrement_label_count l d =
    (put_stored d (LABEL_COUNT_PREFIX +:+ l)
       (stored d (LABEL_COUNT_PREFIX +:+ l) - 1), Ok ()).
Proof.
  unfold decrement_label_count. erewrite run_reads by apply get_count_run.
  unfold u64_saturating_sub, put_stored. case_decide.
  - apply delete_count_run.
  - apply set_count_run.
Qed.
End Runs.

Lemma stored_put d key n key' :
  has_tbl d METADATA → in_u64 n →
  stored (put_stored d key n) key' = if decide (key = key') then n else stored d key'.
Proof.
  intros Hm Hn. unfold put_stored. case_decide as E.
  - rewrite stored_clear by done. by case_decide; subst.
  - by apply stored_set.
Qed.

(** ** The id allocators *)
Definition meta (d : db) (key : string) : option bytes :=
  row_value <$> trows d METADATA !! str_bytes key.
Definition set_meta (d : db) (key : string) (n : N) : db :=
  upd d METADATA (alter (λ r, mkRow (row_label r) (u64_to_be n)) (str_bytes key)
                    (trows d METADATA)).

Lemma stored_meta d key :
  stored d key =
    match meta d key with
    | Some v => if decide (length v = 8) then default 0%N (u64_from_be_prefix v) else 0%N
    | None => 0%N
    end.
Proof. unfold stored, meta. by destruct (trows d METADATA !! _). Qed.

Lemma meta_set_meta d key n key' :
  has_tbl d METADATA →
  meta (set_meta d key n) key' =
    if decide (key = key') then (λ _, u64_to_be n) <$> meta d key' else meta d key'.
Proof.
  intros Hm. unfold meta, set_meta. rewrite trows_upd_eq by done. case_decide as E.
  - subst. rewrite lookup_alter_eq. by destruct (trows d METADATA !! _).
  - rewrite lookup_alter_ne; [done|]. by intros H%(inj str_bytes).
Qed.
Lemma meta_set_stored d key n key' :
  has_tbl d METADATA → key ≠ key' → meta (set_stored d key n) key' = meta d key'.
Proof.
  intros Hm E. unfold meta, set_stored. rewrite trows_upd_eq by done.
  rewrite lookup_insert_ne; [done|]. by intros H%(inj str_bytes).
Qed.
Lemma meta_put_stored d key n key' :
  has_tbl d METADATA → key ≠ key' → meta (put_stored d key n) key' = meta d key'.
Proof.
  intros Hm E. unfold put_stored. case_decide; [|by apply meta_set_stored].
  unfold meta, clear_stored. rewrite trows_upd_eq by done.
  rewrite lookup_delete_ne; [done|]. by intros E2%(inj str_bytes).
Qed.
Lemma stored_set_meta d key n key' :
  has_tbl d METADATA → key ≠ key' → stored (set_meta d key n) key' = stored d key'.
Proof. intros. by rewrite !stored_meta, meta_set_meta, decide_False. Qed.

Section Allocators.
Context (d : db) (Hm : has_tbl d METADATA).

Lemma query_row_meta key v :
  meta d key = Some v → query_row METADATA (str_bytes key) d = Ok v.
Proof.
  unfold meta. intros Hv. rewrite query_row_run by done.
  destruct (trows d METADATA !! _); simpl in *; congruence.
Qed.

Lemma update_if_meta key n v :
  meta d key = Some v →
  exec (λ c, sql_update_if c METADATA (str_bytes key) (u64_to_be n) v) d =
    (set_meta d key n, Ok 1).
Proof.
  destruct Hm as [T HT]. unfold meta, exec, set_meta, upd, trows. cbn. rewrite HT.
  unfold db_update_if. rewrite HT. destruct (tbl_rows T !! _) as [r|] eqn:Er; [|done].
  intros [= <-]. rewrite decide_True by done. cbn. do 2 f_equal.
  apply map_eq. intros k. destruct (decide (k = str_bytes key)) as [->|].
  - by rewrite lookup_insert_eq, lookup_alter_eq, Er.
  - by rewrite lookup_insert_ne, lookup_alter_ne by done.
Qed.

Lemma next_node_id_run n :
  meta d NEXT_NODE_ID = Some (u64_to_be n) → in_u64 n →
  next_node_id d =
    if decide (in_u64 (n + 1)) then (set_meta d NEXT_NODE_ID (n + 1), Ok n)
    else (d, Err (GraphError.Transaction "node ID space exhausted" None)).
Proof.
  intros Hn Hb. unfold next_node_id.
  erewrite run_reads by (by erewrite query_row_meta).
  rewrite u64_from_to_be_nil by done. cbn [ok_or].
  unfold mbind, M_bind, lift. cbn [ok_or]. rewrite u64_checked_add_spec.
  case_decide; [|done]. cbn [ok_or]. by rewrite (update_if_meta _ _ _ Hn).
Qed.

Lemma next_edge_seq_run n :
  meta d NEXT_EDGE_SEQ = Some (u64_to_be n) → in_u64 n →
  next_edge_seq d =
    if decide (in_u64 (n + 1)) then (set_meta d NEXT_EDGE_SEQ (n + 1), Ok n)
    else (d, Err (GraphError.Transaction "edge sequence space exhausted" None)).
Proof.
  intros Hn Hb. unfold next_edge_seq. rewrite (run_reads _ _ _ ()) by
    (cbn [sql_prepare MemDb]; by rewrite prepare_run).
  unfold mbind, M_bind, lift.
  rewrite (query_row_meta _ _ Hn). rewrite u64_from_to_be_nil by done. cbn [ok_or].
  rewrite u64_checked_add_spec.
  case_decide; [|done]. cbn [ok_or]. by rewrite (update_if_meta _ _ _ Hn).
Qed.
End Allocators.

Lemma has_tbl_set_meta d key n t : has_tbl (set_meta d key n) t ↔ has_tbl d t.
Proof. apply has_tbl_upd. Qed.
Lemma has_tbl_set_stored d key n t : has_tbl (set_stored d key n) t ↔ has_tbl d t.
Proof. apply has_tbl_upd. Qed.
Lemma has_tbl_put_stored d key n t : has_tbl (put_stored d key n) t ↔ has_tbl d t.
Proof. unfold put_stored. case_decide; apply has_tbl_upd. Qed.

(** Other tables do not change. *)
Lemma trows_set_meta d key n t :
  str_lower METADATA ≠ str_lower t → trows (set_meta d key n) t = trows d t.
Proof. apply trows_upd_ne. Qed.
Lemma trows_set_stored d key n t :
  str_lower METADATA ≠ str_lower t → trows (set_stored d key n) t = trows d t.
Proof. apply trows_upd_ne. Qed.
Lemma trows_put_stored d key n t :
  str_lower METADATA ≠ str_lower t → trows (put_stored d key n) t = trows d t.
Proof. intros. unfold put_stored. case_decide; by apply trows_upd_ne. Qed.
Lemma meta_upd d t m key :
  str_lower t ≠ str_lower METADATA → meta (upd d t m) key = meta d key.
Proof. intros. unfold meta. by rewrite trows_upd_ne. Qed.
Lemma stored_upd d t m key :
  str_lower t ≠ str_lower METADATA → stored (upd d t m) key = stored d key.
Proof. intros. by rewrite !stored_meta, meta_upd. Qed.
