(* ===== verification/Edges.v ===== *)
(** * Edge storage: src/src/storage/edge.rs

    Adjacency lists in [adj_out] and [adj_in], one [edge_props] row per parallel
    edge, and the per-type counter.  This file has the keys and the operations;
    [Graph] states what they keep true. *)
From S2P Require Export Counters Encoding Msgpack.

(** ** Keys *)
(** [node_id: 8 bytes BE][label: UTF-8]. *)
Definition adj_key (id : N) (label : string) : bytes := u64_to_be id ++ str_bytes label.

(** [src: 8 BE][dst: 8 BE][label: UTF-8][0x00]. *)
Definition edge_props_prefix (src dst : N) (label : string) : bytes :=
  u64_to_be src ++ u64_to_be dst ++ str_bytes label ++ [x00].

(** [src: 8 BE][dst: 8 BE][label: UTF-8][0x00][seq: 8 BE]. *)
Definition edge_props_key (src dst : N) (label : string) (seq : N) : bytes :=
  u64_to_be src ++ u64_to_be dst ++ str_bytes label ++ [x00] ++ u64_to_be seq.

Definition edge_seq_from_key (key : bytes) (prefix_len : nat) : N :=
  if decide (prefix_len + 8 ≤ length key)
  then be_combine (take 8 (drop prefix_len key)) else 0%N.

(** The bytes before the first NUL, if there is one. *)
Fixpoint before_nul (l : bytes) : option bytes :=
  match l with
  | [] => None
  | b :: l' => if decide (b = x00) then Some [] else (b ::.) <$> before_nul l'
  end.

Definition label_from_edge_props_key (key : bytes) : option string :=
  if decide (length key < 16) then None
  else before_nul (drop 16 key) ≫= from_utf8.

Section Edges.
Context {conn : Type} {O : SqlOps conn} {Mp : Msgpack}.
Abbreviation M' := (M conn GraphError).

Definition ser {A} (r : result string A) : Res A :=
  match r with
  | Ok a => Ok a
  | Err e => Err (GraphError.Serialization "" e None)
  | Panic => Panic
  end.

Definition ids_of (data : option bytes) : list N :=
  match data with Some data => decode_id_list data | None => [] end.

(** ** Creation and deletion *)

(** Read an adjacency list, insert, write back: done for [adj_out] and for
    [adj_in]. *)
Definition adj_insert (table : string) (key : bytes) (id : N) : M' unit :=
  reads (kv_get table key) ≫= λ data,
  kv_put table key (encode_id_list (insert_into_sorted (ids_of data) id)).

(** Read an adjacency list, remove, write back or delete when empty. *)
Definition adj_remove (table : string) (key : bytes) (id : N) : M' unit :=
  reads (kv_get table key) ≫= λ data,
  match data with
  | None => mret ()
  | Some data =>
      let '(ids, removed) := remove_from_sorted (decode_id_list data) id in
      if removed : bool then
        if bool_decide (ids = []) then kv_delete table key ≫= λ _, mret ()
        else kv_put table key (encode_id_list ids)
      else mret ()
  end.

Definition create_edge (src dst : N) (label : string) (properties : Properties) : M' unit :=
  lift (validate_name label) ≫= λ _,
  lift (for_each_r validate_name (map_to_list properties).*1) ≫= λ _,
  adj_insert TABLE_ADJ_OUT (adj_key src label) dst ≫= λ _,
  adj_insert TABLE_ADJ_IN (adj_key dst label) src ≫= λ _,
  next_edge_seq ≫= λ next_seq,
  lift (ser (to_vec_props properties)) ≫= λ data,
  kv_put TABLE_EDGE_PROPS (edge_props_key src dst label next_seq) data ≫= λ _,
  increment_edge_type_count label.

Definition delete_edge (src dst : N) (label : string) : M' unit :=
  adj_remove TABLE_ADJ_OUT (adj_key src label) dst ≫= λ _,
  adj_remove TABLE_ADJ_IN (adj_key dst label) src ≫= λ _,
  reads (kv_scan_prefix TABLE_EDGE_PROPS (edge_props_prefix src dst label)) ≫= λ entries,
  for_each (λ e : bytes * bytes, kv_delete TABLE_EDGE_PROPS e.1 ≫= λ _, mret ()) entries
    ≫= λ _,
  let removed := N.of_nat (length entries) in
  if decide (0 < removed)%N then decrement_edge_type_count_by label removed else mret ().

Definition delete_single_edge (src dst : N) (label : string) (seq : N) : M' unit :=
  kv_delete TABLE_EDGE_PROPS (edge_props_key src dst label seq) ≫= λ removed,
  (if removed : bool then decrement_edge_type_count_by label 1 else mret ()) ≫= λ _,
  reads (kv_scan_prefix TABLE_EDGE_PROPS (edge_props_prefix src dst label)) ≫= λ remaining,
  if bool_decide (remaining = []) then
    adj_remove TABLE_ADJ_OUT (adj_key src label) dst ≫= λ _,
    adj_remove TABLE_ADJ_IN (adj_key dst label) src
  else mret ().

(** ** Queries *)

(** The loop that appends incoming neighbours, skipping those already there
    when the direction is [Both]. *)
Definition push_incoming (direction : Direction) (result : list N) (ids : list N) : list N :=
  foldl (λ result nid,
    if decide (direction = Both ∧ nid ∈ result) then result else result ++ [nid])
    result ids.

Definition get_neighbors (id : N) (label : string) (direction : Direction) (c : conn)
    : Res (list N) :=
  (if decide (direction ≠ Incoming) then
     kv_get TABLE_ADJ_OUT (adj_key id label) c ≫= λ data, Ok (ids_of data)
   else Ok []) ≫= λ result : list N,
  if decide (direction ≠ Outgoing) then
    kv_get TABLE_ADJ_IN (adj_key id label) c ≫= λ data,
    match data with
    | Some data => Ok (push_incoming direction result (decode_id_list data))
    | None => Ok result
    end
  else Ok result.

Definition get_edge_properties (src dst : N) (label : string) (c : conn) : Res Properties :=
  kv_scan_prefix TABLE_EDGE_PROPS (edge_props_prefix src dst label) c
    ≫= λ entries : list (bytes * bytes),
  match entries with
  | (_, data) :: _ => ser (from_slice_props data)
  | [] => Ok ∅
  end.

Definition get_edge_properties_at (src dst : N) (label : string) (seq : N) (c : conn)
    : Res Properties :=
  kv_get TABLE_EDGE_PROPS (edge_props_key src dst label seq) c ≫= λ data,
  match data with
  | Some data => ser (from_slice_props data)
  | None => Ok ∅
  end.

Definition get_all_edge_props (src dst : N) (label : string) (c : conn)
    : Res (list (N * Properties)) :=
  let prefix := edge_props_prefix src dst label in
  kv_scan_prefix TABLE_EDGE_PROPS prefix c ≫= λ entries : list (bytes * bytes),
  collect (λ e : bytes * bytes,
    ser (from_slice_props e.2) ≫= λ props,
    Ok (edge_seq_from_key e.1 (length prefix), props)) entries.

Definition edge_exists (src dst : N) (label : string) (c : conn) : Res bool :=
  kv_get TABLE_ADJ_OUT (adj_key src label) c ≫= λ data,
  match data with
  | Some data => Ok (found (decode_id_list data) dst)
  | None => Ok false
  end.

(** ** Property updates *)
Definition set_edge_property_at (src dst : N) (label : string) (seq : N)
    (key : string) (v : value) : M' unit :=
  reads (get_edge_properties_at src dst label seq) ≫= λ props : Properties,
  let props := if value_eqb v Value.Null then base.delete key props else <[key := v]> props in
  lift (ser (to_vec_props props)) ≫= λ data,
  kv_put TABLE_EDGE_PROPS (edge_props_key src dst label seq) data.

Definition set_edge_property (src dst : N) (label : string) (key : string) (v : value)
    : M' unit :=
  let prefix := edge_props_prefix src dst label in
  reads (kv_scan_prefix TABLE_EDGE_PROPS prefix) ≫= λ entries : list (bytes * bytes),
  let seq := match entries with
             | (k, _) :: _ => edge_seq_from_key k (length prefix)
             | [] => 0%N
             end in
  set_edge_property_at src dst label seq key v.

Definition set_all_edge_properties_at (src dst : N) (label : string) (seq : N)
    (properties : Properties) : M' unit :=
  lift (ser (to_vec_props properties)) ≫= λ data,
  kv_put TABLE_EDGE_PROPS (edge_props_key src dst label seq) data.

(** ** All labels of a node *)
Definition edge_labels_in (table : string) (id : N) (c : conn)
    : Res (list (string * list N)) :=
  kv_scan_prefix table (u64_to_be id) c ≫= λ entries : list (bytes * bytes),
  collect (λ e : bytes * bytes,
    match from_utf8 (drop 8 e.1) with
    | Some label => Ok (label, decode_id_list e.2)
    | None => Err (GraphError.Serialization "" "invalid UTF-8 in edge label" None)
    end) (filter (λ e : bytes * bytes, 8 < length e.1) entries).

Definition get_all_edge_labels (id : N) (direction : Direction) (c : conn)
    : Res (list (string * list N)) :=
  match direction with
  | Outgoing => edge_labels_in TABLE_ADJ_OUT id c
  | Incoming => edge_labels_in TABLE_ADJ_IN id c
  | Both =>
      edge_labels_in TABLE_ADJ_OUT id c ≫= λ result : list (string * list N),
      edge_labels_in TABLE_ADJ_IN id c ≫= λ incoming : list (string * list N),
      Ok (result ++ filter (λ e : string * list N, e.1 ∉ result.*1) incoming)
  end.
End Edges.

(** ** Simulation *)
Section Simulation.
Context {conn : Type} {O : SqlOps conn} {view : conn → db} {L : SqlLaws conn view}
  {Mp : Msgpack}.

Lemma adj_insert_refines t k i : refines view (adj_insert t k i) (adj_insert t k i).
Proof. unfold adj_insert. solve_refines. Qed.
Lemma adj_remove_refines t k i : refines view (adj_remove t k i) (adj_remove t k i).
Proof. unfold adj_remove. solve_refines. Qed.
Hint Resolve adj_insert_refines adj_remove_refines : refine.

Lemma create_edge_refines s d l p : refines view (create_edge s d l p) (create_edge s d l p).
Proof. unfold create_edge. solve_refines. Qed.
Lemma delete_edge_refines s d l : refines view (delete_edge s d l) (delete_edge s d l).
Proof. unfold delete_edge. solve_refines. Qed.
Lemma delete_single_edge_refines s d l q :
  refines view (delete_single_edge s d l q) (delete_single_edge s d l q).
Proof. unfold delete_single_edge. solve_refines. Qed.

Lemma get_neighbors_view i l r c : get_neighbors i l r c = get_neighbors i l r (view c).
Proof. unfold get_neighbors. by rewrite !(kv_get_view (conn:=conn)). Qed.
Lemma get_edge_properties_view s d l c :
  get_edge_properties s d l c = get_edge_properties s d l (view c).
Proof. unfold get_edge_properties. by rewrite !(kv_scan_prefix_view (conn:=conn)). Qed.
Lemma get_edge_properties_at_view s d l q c :
  get_edge_properties_at s d l q c = get_edge_properties_at s d l q (view c).
Proof. unfold get_edge_properties_at. by rewrite !(kv_get_view (conn:=conn)). Qed.
Lemma get_all_edge_props_view s d l c :
  get_all_edge_props s d l c = get_all_edge_props s d l (view c).
Proof. unfold get_all_edge_props. by rewrite !(kv_scan_prefix_view (conn:=conn)). Qed.
Lemma edge_exists_view s d l c : edge_exists s d l c = edge_exists s d l (view c).
Proof. unfold edge_exists. by rewrite !(kv_get_view (conn:=conn)). Qed.
Lemma get_all_edge_labels_view i r c :
  get_all_edge_labels i r c = get_all_edge_labels i r (view c).
Proof.
  unfold get_all_edge_labels, edge_labels_in. by rewrite !(kv_scan_prefix_view (conn:=conn)).
Qed.
Hint Resolve get_edge_properties_at_view : refine.

Lemma set_edge_property_at_refines s d l q k v :
  refines view (set_edge_property_at s d l q k v) (set_edge_property_at s d l q k v).
Proof. unfold set_edge_property_at. solve_refines. Qed.
Hint Resolve set_edge_property_at_refines : refine.
Lemma set_edge_property_refines s d l k v :
  refines view (set_edge_property s d l k v) (set_edge_property s d l k v).
Proof. unfold set_edge_property. solve_refines. Qed.
Lemma set_all_edge_properties_at_refines s d l q p :
  refines view (set_all_edge_properties_at s d l q p) (set_all_edge_properties_at s d l q p).
Proof. unfold set_all_edge_properties_at. solve_refines. Qed.
End Simulation.
#[export] Hint Resolve create_edge_refines delete_edge_refines delete_single_edge_refines
  set_edge_property_at_refines set_edge_property_refines
  set_all_edge_properties_at_refines adj_insert_refines adj_remove_refines : refine.
#[export] Hint Resolve get_neighbors_view get_edge_properties_view
  get_edge_properties_at_view get_all_edge_props_view edge_exists_view
  get_all_edge_labels_view : refine.
