(* ===== verification/Keys.v ===== *)
(** * Storage keys are unambiguous

    Facts about the byte layouts of [Edges]: keys determine their components,
    the prefix of a scan is a prefix of exactly the keys it is meant for, and
    the readers of a key recover what the writer put in. *)
From S2P Require Export Edges.

Definition valid_name (s : string) : Prop := validate_name s = Ok ().

#[global] Instance valid_name_dec s : Decision (valid_name s).
Proof.
  refine (match validate_name s as r return validate_name s = r → Decision (valid_name s) with
          | Ok tt => λ E, left E
          | _ => λ E, right _
          end eq_refl); unfold valid_name; congruence.
Defined.

Lemma validate_name_cases s :
  validate_name s = Ok () ∨ validate_name s = Err (GraphError.InvalidName s None).
Proof. unfold validate_name. destruct (_ || _); auto. Qed.

Lemma valid_name_iff s :
  valid_name s ↔ s ≠ "" ∧ Forall (λ b, name_byte_ok b = true) (str_bytes s).
Proof.
  unfold valid_name, validate_name. case_bool_decide as E; simpl; [naive_solver|].
  destruct (forallb name_byte_ok (str_bytes s)) eqn:F; simpl.
  - split; [intros _|done]. split; [done|]. apply Forall_forall.
    intros b Hb. apply list_elem_of_In in Hb. by eapply forallb_forall in F.
  - split; [done|]. intros [_ H]. exfalso.
    assert (forallb name_byte_ok (str_bytes s) = true); [|congruence].
    apply forallb_forall. intros b Hb. apply list_elem_of_In in Hb.
    by apply (proj1 (Forall_forall _ _) H).
Qed.

(** Name bytes are ASCII, and neither NUL nor a separator. *)
Lemma name_byte_range b :
  name_byte_ok b = true → (48 <= b2n b)%N ∧ (b2n b <= 122)%N ∧ (b2n b <> 58)%N.
Proof.
  unfold name_byte_ok, is_ascii_alphanumeric. rewrite orb_true_iff, bool_decide_eq_true.
  intros [H| ->]; [|by vm_compute].
  rewrite !orb_true_iff, !andb_true_iff, !N.leb_le in H. lia.
Qed.

Lemma valid_name_no_byte s b :
  valid_name s → name_byte_ok b = false → b ∉ str_bytes s.
Proof.
  rewrite valid_name_iff. intros [_ H] Hb Hin.
  rewrite Forall_forall in H. specialize (H b Hin). simpl in H. congruence.
Qed.
Lemma valid_name_no_nul s : valid_name s → x00 ∉ str_bytes s.
Proof. intros H. by apply (valid_name_no_byte s). Qed.

Lemma valid_name_utf8 s : valid_name s → from_utf8 (str_bytes s) = Some s.
Proof.
  rewrite valid_name_iff. intros [_ H]. unfold from_utf8. rewrite utf8_valid_ascii.
  { by rewrite bytes_str_bytes. }
  eapply Forall_impl; [exact H|]. intros b Hb%name_byte_range. unfold byte_in.
  apply andb_true_iff. rewrite !N.leb_le. lia.
Qed.

(** ** Concatenations with fixed-width or delimited parts *)
Lemma u64_app_inj m n l k :
  in_u64 m → in_u64 n → u64_to_be m ++ l = u64_to_be n ++ k → m = n ∧ l = k.
Proof.
  intros Hm Hn H. apply app_inj_1 in H as [H ->]; [|by rewrite !length_u64_to_be].
  split; [by apply u64_to_be_inj|done].
Qed.

Lemma u64_prefix_app m n l k :
  in_u64 m → in_u64 n →
  (u64_to_be m ++ l) `prefix_of` (u64_to_be n ++ k) ↔ m = n ∧ l `prefix_of` k.
Proof.
  intros Hm Hn. split.
  - intros [r E]. rewrite <- app_assoc in E. apply u64_app_inj in E as [-> ->]; [|done..].
    split; [done|by exists r].
  - intros [-> H]. by apply prefix_app.
Qed.

Lemma nul_delim_prefix a b k :
  x00 ∉ a → x00 ∉ b → (a ++ [x00]) `prefix_of` (b ++ [x00] ++ k) ↔ a = b.
Proof.
  intros Ha Hb. split; [|intros ->; rewrite app_assoc; by apply prefix_app_r].
  revert b Hb. induction a as [|x a IH]; intros [|y b] Hb; simpl; intros Hp.
  - done.
  - apply prefix_cons_inv_1 in Hp. set_solver.
  - apply prefix_cons_inv_1 in Hp. set_solver.
  - f_equal; [by apply prefix_cons_inv_1 in Hp|].
    apply IH; [set_solver..|]. by apply prefix_cons_inv_2 in Hp.
Qed.

(** ** Adjacency keys *)
Lemma adj_key_inj i j l k :
  in_u64 i → in_u64 j → adj_key i l = adj_key j k → i = j ∧ l = k.
Proof.
  intros Hi Hj H. apply u64_app_inj in H as [-> H]; [|done..].
  split; [done|]. by apply (inj str_bytes).
Qed.

Lemma adj_key_prefix i j l :
  in_u64 i → in_u64 j → u64_to_be i `prefix_of` adj_key j l ↔ i = j.
Proof.
  intros Hi Hj. rewrite <- (app_nil_r (u64_to_be i)). unfold adj_key.
  rewrite u64_prefix_app by done. split; [naive_solver|].
  intros ->. split; [done|apply prefix_nil].
Qed.

Lemma adj_key_label i l : valid_name l → from_utf8 (drop 8 (adj_key i l)) = Some l.
Proof.
  intros Hl. unfold adj_key. rewrite drop_app_length' by (by rewrite length_u64_to_be).
  by apply valid_name_utf8.
Qed.
Lemma length_adj_key i l : length (adj_key i l) = 8 + str_len l.
Proof. unfold adj_key. by rewrite length_app, length_u64_to_be. Qed.
Lemma valid_name_len l : valid_name l → 0 < str_len l.
Proof.
  rewrite valid_name_iff. intros [Hne _]. unfold str_len.
  destruct (str_bytes l) eqn:E; [|simpl; lia]. by apply str_bytes_nil in E.
Qed.

(** ** Edge keys *)
Definition eid : Type := N * N * string * N.
Definition eid_key (e : eid) : bytes :=
  let '(s, d, l, q) := e in edge_props_key s d l q.
Definition valid_eid (e : eid) : Prop :=
  let '(s, d, l, q) := e in in_u64 s ∧ in_u64 d ∧ valid_name l ∧ in_u64 q.

Lemma edge_props_key_prefix s d l s' d' l' q :
  in_u64 s → in_u64 d → valid_name l → in_u64 s' → in_u64 d' → valid_name l' →
  edge_props_prefix s d l `prefix_of` edge_props_key s' d' l' q ↔ s = s' ∧ d = d' ∧ l = l'.
Proof.
  intros. unfold edge_props_prefix, edge_props_key.
  rewrite !u64_prefix_app, nul_delim_prefix by eauto using valid_name_no_nul.
  split; [|naive_solver]. intros (-> & -> & E). by apply (inj str_bytes) in E.
Qed.

Lemma edge_props_key_app s d l q :
  edge_props_key s d l q = edge_props_prefix s d l ++ u64_to_be q.
Proof. unfold edge_props_key, edge_props_prefix. by rewrite <- !app_assoc. Qed.

Lemma eid_key_inj e e' : valid_eid e → valid_eid e' → eid_key e = eid_key e' → e = e'.
Proof.
  destruct e as [[[s d] l] q], e' as [[[s' d'] l'] q'].
  intros (? & ? & ? & ?) (? & ? & ? & ?) E. simpl in E.
  assert (s = s' ∧ d = d' ∧ l = l') as (-> & -> & ->).
  { apply (edge_props_key_prefix s d l s' d' l' q'); [done..|]. rewrite <- E.
    rewrite edge_props_key_app. by apply prefix_app_r. }
  rewrite !edge_props_key_app in E. apply (inj (app _)) in E.
  apply u64_to_be_inj in E as ->; done.
Qed.

Lemma edge_seq_from_eid_key s d l q :
  in_u64 q →
  edge_seq_from_key (edge_props_key s d l q) (length (edge_props_prefix s d l)) = q.
Proof.
  intros Hq. unfold edge_seq_from_key. rewrite edge_props_key_app, length_app, length_u64_to_be.
  rewrite decide_True by lia. rewrite drop_app_length, firstn_all2 by (rewrite length_u64_to_be; lia).
  apply u64_from_to_be_nil in Hq. unfold u64_from_be_prefix in Hq.
  rewrite length_u64_to_be in Hq. rewrite decide_True in Hq by lia.
  rewrite firstn_all2 in Hq by (rewrite length_u64_to_be; lia). congruence.
Qed.

Lemma before_nul_app a l : x00 ∉ a → before_nul (a ++ x00 :: l) = Some a.
Proof.
  induction a as [|x a IH]; intros Ha; simpl; [done|].
  rewrite decide_False by set_solver. by rewrite IH by set_solver.
Qed.

Lemma label_from_eid_key s d l q :
  valid_name l → label_from_edge_props_key (edge_props_key s d l q) = Some l.
Proof.
  intros Hl. unfold label_from_edge_props_key, edge_props_key.
  rewrite decide_False by (rewrite !length_app, !length_u64_to_be; lia).
  rewrite (app_assoc (u64_to_be s)).
  rewrite drop_app_length' by (by rewrite length_app, !length_u64_to_be).
  change ([x00] ++ u64_to_be q) with (x00 :: u64_to_be q).
  rewrite before_nul_app by (by apply valid_name_no_nul).
  by apply valid_name_utf8.
Qed.

(** * Adjacency tables

    [adj_out] and [adj_in] map a node and an edge type to a delta-encoded list
    of neighbours.  [adj_ok] says that a table's rows are exactly those of a
    relation: every row is canonical (sorted, without repetition, not empty)
    and lists the neighbours the relation gives.  [adj_insert] and [adj_remove]
    of [Edges] add and remove one pair. *)

Definition adj_ids (m : gmap bytes row) (i : N) (l : string) : list N :=
  ids_of (row_value <$> m !! adj_key i l).

Record adj_ok (m : gmap bytes row) (R : N → string → N → Prop) : Prop := {
  adj_rows k r :
    m !! k = Some r →
    ∃ i l ids, in_u64 i ∧ valid_name l ∧ k = adj_key i l ∧ ids ≠ [] ∧ ids_ok ids
      ∧ row_value r = encode_id_list ids;
  adj_rel i l x : in_u64 i → valid_name l → x ∈ adj_ids m i l ↔ R i l x;
}.

Lemma adj_ok_iff m R R' :
  adj_ok m R → (∀ i l x, in_u64 i → valid_name l → R i l x ↔ R' i l x) → adj_ok m R'.
Proof. intros [H1 H2] HR. split; [done|]. intros. by rewrite H2, HR. Qed.

Lemma adj_lookup m R i l r :
  adj_ok m R → in_u64 i → valid_name l → m !! adj_key i l = Some r →
  ∃ ids, ids ≠ [] ∧ ids_ok ids ∧ row_value r = encode_id_list ids ∧ adj_ids m i l = ids.
Proof.
  intros H Hi Hl E. destruct (adj_rows _ _ H _ _ E) as (i' & l' & ids & Hi' & Hl' & Ek & Hne & Hok & Er).
  exists ids. split_and!; [done..|]. unfold adj_ids. rewrite E. simpl. rewrite Er.
  by apply decode_encode_id_list.
Qed.

Lemma adj_ids_ok m R i l :
  adj_ok m R → in_u64 i → valid_name l → ids_ok (adj_ids m i l).
Proof.
  intros H Hi Hl. destruct (m !! adj_key i l) as [r|] eqn:E.
  - edestruct adj_lookup as (ids & ? & ? & ? & ->); eauto.
  - unfold adj_ids. rewrite E. split; constructor.
Qed.

Lemma adj_ids_nil m R i l :
  adj_ok m R → in_u64 i → valid_name l → adj_ids m i l = [] ↔ m !! adj_key i l = None.
Proof.
  intros H Hi Hl. destruct (m !! adj_key i l) as [r|] eqn:E.
  - edestruct adj_lookup as (ids & ? & ? & ? & ->); eauto. naive_solver.
  - split; [done|]. intros _. unfold adj_ids. by rewrite E.
Qed.

(** One row changes. *)
Lemma adj_ids_put m i l r i' l' :
  in_u64 i → in_u64 i' →
  adj_ids (<[adj_key i l := r]> m) i' l' =
    if decide (i = i' ∧ l = l') then decode_id_list (row_value r) else adj_ids m i' l'.
Proof.
  intros Hi Hi'. unfold adj_ids. case_decide as E.
  - destruct E as [-> ->]. by rewrite lookup_insert_eq.
  - rewrite lookup_insert_ne; [done|]. intros [-> ->]%adj_key_inj; auto.
Qed.

Lemma adj_ok_put m R i l ids :
  adj_ok m R → in_u64 i → valid_name l → ids ≠ [] → ids_ok ids →
  adj_ok (<[adj_key i l := mkRow "" (encode_id_list ids)]> m)
    (λ i' l' x, if decide (i = i' ∧ l = l') then x ∈ ids else R i' l' x).
Proof.
  intros H Hi Hl Hne Hok. split.
  - intros k r. destruct (decide (k = adj_key i l)) as [->|Hk].
    + rewrite lookup_insert_eq. intros [= <-]. eauto 10.
    + rewrite lookup_insert_ne by done. apply (adj_rows _ _ H).
  - intros i' l' x Hi' Hl'. rewrite adj_ids_put by done. case_decide.
    + simpl. by rewrite decode_encode_id_list.
    + by apply H.
Qed.

Lemma adj_ok_del m R i l :
  adj_ok m R → in_u64 i → valid_name l →
  adj_ok (base.delete (adj_key i l) m) (λ i' l' x, ¬ (i = i' ∧ l = l') ∧ R i' l' x).
Proof.
  intros H Hi Hl. split.
  - intros k r [_ Hk]%lookup_delete_Some. by apply (adj_rows _ _ H).
  - intros i' l' x Hi' Hl'. unfold adj_ids. rewrite lookup_delete. case_decide as E.
    + apply adj_key_inj in E as [-> ->]; [|done..]. simpl. set_solver.
    + fold (adj_ids m i' l'). rewrite (adj_rel _ _ H) by done.
      split; [|tauto]. intros HR. split; [|done]. intros [-> ->]. done.
Qed.

(** ** The two operations *)
Section Operations.
Context (d : db) (t : string) (Hc : check_table t = Ok ()) (Ht : has_tbl d t).
Context (R : N → string → N → Prop) (HR : adj_ok (trows d t) R).
Context (i : N) (l : string) (x : N) (Hi : in_u64 i) (Hl : valid_name l) (Hx : in_u64 x).

Lemma adj_insert_ok :
  ∃ m', adj_insert t (adj_key i l) x d = (upd d t m', Ok ())
    ∧ adj_ok m' (λ i' l' x', (i' = i ∧ l' = l ∧ x' = x) ∨ R i' l' x').
Proof.
  pose proof (adj_ids_ok _ _ _ _ HR Hi Hl) as Hids.
  eexists. unfold adj_insert. erewrite run_reads by by apply kv_get_trows.
  rewrite kv_put_trows by done. split; [done|].
  fold (adj_ids (trows d t) i l).
  assert (∀ y, y ∈ insert_into_sorted (adj_ids (trows d t) i l) x
               ↔ y = x ∨ y ∈ adj_ids (trows d t) i l) as Hin.
  { intros y. apply insert_into_sorted_elem. apply Hids. }
  eapply adj_ok_iff.
  - apply (adj_ok_put _ R); [done..| |by apply insert_into_sorted_ok].
    intros E. assert (x ∈ ([] : list N)) as ?%not_elem_of_nil; [|done].
    rewrite <- E. apply Hin. by left.
  - intros i' l' y Hi' Hl'. simpl. case_decide as E.
    + destruct E as [<- <-]. rewrite Hin, (adj_rel _ _ HR) by done. tauto.
    + split; [by right|]. intros [(-> & -> & _)|?]; [|done]. by destruct E.
Qed.

Lemma adj_remove_ok :
  ∃ m', adj_remove t (adj_key i l) x d = (upd d t m', Ok ())
    ∧ adj_ok m' (λ i' l' x', ¬ (i' = i ∧ l' = l ∧ x' = x) ∧ R i' l' x').
Proof.
  unfold adj_remove. erewrite run_reads by by apply kv_get_trows.
  destruct (trows d t !! adj_key i l) as [r|] eqn:Er; simpl.
  2:{ exists (trows d t). rewrite upd_trows. split; [done|].
      eapply adj_ok_iff; [exact HR|]. intros i' l' y Hi' Hl'. simpl.
      split; [|tauto]. intros Hy. split; [|done]. intros (-> & -> & ->).
      apply (adj_rel _ _ HR) in Hy; [|done..].
      apply (adj_ids_nil _ _ _ _ HR Hi Hl) in Er. rewrite Er in Hy.
      by apply not_elem_of_nil in Hy. }
  destruct (adj_lookup _ _ _ _ _ HR Hi Hl Er) as (ids & Hne & Hok & Ev & Eids).
  rewrite Ev, decode_encode_id_list by done.
  destruct (remove_from_sorted ids x) as [ids' b] eqn:E.
  destruct (remove_from_sorted_spec _ _ _ _ (proj1 Hok) E) as (Hb & Hs' & Hin).
  assert (∀ y, y ∈ ids ↔ R i l y) as Hrel.
  { intros y. rewrite <- Eids. by apply HR. }
  destruct b.
  - pose proof (remove_from_sorted_ok ids x Hok) as Hok'. rewrite E in Hok'. simpl in Hok'.
    case_bool_decide as En.
    + eexists. erewrite run_bind by by apply kv_delete_trows. split; [done|].
      eapply adj_ok_iff; [by apply (adj_ok_del _ _ i l HR)|].
      intros i' l' y Hi' Hl'. simpl. split.
      * intros [H1 H2]. split; [|done]. intros (-> & -> & _). by apply H1.
      * intros [H1 H2]. split; [|done]. intros [<- <-].
        assert (y ∈ ids') as Hy.
        { apply Hin. split; [by apply Hrel|]. intros ->. by apply H1. }
        rewrite En in Hy. by apply not_elem_of_nil in Hy.
    + eexists. rewrite kv_put_trows by done. split; [done|].
      eapply adj_ok_iff; [by apply (adj_ok_put _ _ i l ids' HR)|].
      intros i' l' y Hi' Hl'. simpl. case_decide as Ed.
      * destruct Ed as [<- <-]. rewrite Hin, Hrel. naive_solver.
      * split; [|tauto]. intros ?. split; [|done]. intros (-> & -> & _). by destruct Ed.
  - exists (trows d t). rewrite upd_trows. split; [done|].
    eapply adj_ok_iff; [exact HR|]. intros i' l' y Hi' Hl'. simpl.
    split; [|tauto]. intros Hy. split; [|done]. intros (-> & -> & ->).
    apply Hrel in Hy. assert (false = true) by by apply Hb. done.
Qed.
End Operations.
