(* ===== verification/Nodes.v ===== *)
(** * Node storage: src/src/storage/node.rs

    Node records in the [nodes] table with a derived [label] column, the
    per-label counter, and the cascading delete. *)
From S2P Require Export Edges.

(** [String]'s [Ord] and [Vec::sort]. *)
Definition str_le (a b : string) : Prop := bytes_le (str_bytes a) (str_bytes b).
#[global] Instance str_le_dec a b : Decision (str_le a b).
Proof. unfold str_le. apply _. Defined.
Definition sort_labels (l : list string) : list string := merge_sort str_le l.

Section Nodes.
Context {conn : Type} {O : SqlOps conn} {Mp : Msgpack}.
Abbreviation M' := (M conn GraphError).

(** Insert or replace a row of [nodes]. *)
Definition put_node (key : bytes) (label : string) (v : bytes) : M' unit :=
  exec (λ c, sql_upsert c TABLE_NODES key (mkRow label v)).

Definition create_node (labels : list string) (properties : Properties) : M' N :=
  lift (for_each_r validate_name labels) ≫= λ _,
  lift (for_each_r validate_name (map_to_list properties).*1) ≫= λ _,
  next_node_id ≫= λ id,
  let sorted_labels := sort_labels labels in
  lift (ser (to_vec_record (mkNodeRecord sorted_labels properties))) ≫= λ data,
  let label_col := join ":" sorted_labels in
  put_node (u64_to_be id) label_col data ≫= λ _,
  for_each increment_label_count sorted_labels ≫= λ _,
  mret id.

(** The head of every operation on an existing node: read the row and decode
    it. *)
Definition read_record (id : N) (c : conn) : Res NodeRecord :=
  kv_get TABLE_NODES (u64_to_be id) c ≫= λ data : option bytes,
  ok_or data (GraphError.NodeNotFound id None) ≫= λ data : bytes,
  ser (from_slice_record data).

(** Their tail: encode the record and write it with its label column. *)
Definition write_record (id : N) (record : NodeRecord) : M' unit :=
  lift (ser (to_vec_record record)) ≫= λ new_data,
  put_node (u64_to_be id) (join ":" (rec_labels record)) new_data.

Definition get_node (id : N) (c : conn) : Res Node :=
  read_record id c ≫= λ record : NodeRecord,
  Ok (mkNode id (rec_labels record) (rec_properties record)).

(** A row that cannot be read counts as no row. *)
Definition node_exists (id : N) (c : conn) : Res bool :=
  storage (sql_prepare c TABLE_NODES) ≫= λ _ : unit,
  Ok (match sql_query_one c TABLE_NODES (u64_to_be id) with
      | Ok (Some _) => true
      | _ => false
      end).

Definition node_has_edges (id : N) (c : conn) : Res bool :=
  get_all_edge_labels id Outgoing c ≫= λ out : list (string * list N),
  if bool_decide (out ≠ []) then Ok true else
  get_all_edge_labels id Incoming c ≫= λ inc : list (string * list N),
  Ok (bool_decide (inc ≠ [])).

Definition delete_node (id : N) : M' unit :=
  reads (get_node id) ≫= λ node : Node,
  reads (get_all_edge_labels id Outgoing) ≫= λ out_edges : list (string * list N),
  for_each (λ e : string * list N,
    for_each (λ dst, delete_edge id dst e.1) e.2) out_edges ≫= λ _,
  reads (get_all_edge_labels id Incoming) ≫= λ in_edges : list (string * list N),
  for_each (λ e : string * list N,
    for_each (λ src, delete_edge src id e.1) e.2) in_edges ≫= λ _,
  kv_delete TABLE_NODES (u64_to_be id) ≫= λ _,
  for_each decrement_label_count (node_labels node).

Definition set_node_property (id : N) (key : string) (v : value) : M' unit :=
  lift (validate_name key) ≫= λ _,
  reads (read_record id) ≫= λ record : NodeRecord,
  write_record id (mkNodeRecord (rec_labels record)
    (if value_eqb v Value.Null then base.delete key (rec_properties record)
     else <[key := v]> (rec_properties record))).

Definition remove_node_property (id : N) (key : string) : M' unit :=
  reads (read_record id) ≫= λ record : NodeRecord,
  write_record id (mkNodeRecord (rec_labels record)
    (base.delete key (rec_properties record))).

Definition remove_node_label (id : N) (label : string) : M' unit :=
  reads (read_record id) ≫= λ record : NodeRecord,
  if decide (label ∉ rec_labels record) then mret () else
  write_record id (mkNodeRecord (filter (λ l, l ≠ label) (rec_labels record))
    (rec_properties record)) ≫= λ _,
  decrement_label_count label.

Definition add_node_label (id : N) (label : string) : M' unit :=
  reads (read_record id) ≫= λ record : NodeRecord,
  if decide (label ∈ rec_labels record) then mret () else
  write_record id (mkNodeRecord (sort_labels (rec_labels record ++ [label]))
    (rec_properties record)) ≫= λ _,
  increment_label_count label.

Definition set_all_node_properties (id : N) (properties : Properties) : M' unit :=
  reads (read_record id) ≫= λ record : NodeRecord,
  write_record id (mkNodeRecord (rec_labels record) properties).

(** One row of a label scan. *)
Definition node_of_row (r : bytes * bytes) : Res Node :=
  ser (from_slice_record r.2) ≫= λ record : NodeRecord,
  ok_or (u64_from_be_prefix r.1) (corrupt "corrupt node key bytes") ≫= λ id,
  Ok (mkNode id (rec_labels record) (rec_properties record)).

Definition find_nodes_by_label (label : string) (c : conn) : Res (list Node) :=
  storage (sql_query_labelled c TABLE_NODES
             (if decide (label = "") then None else Some label))
    ≫= λ rows : list (bytes * bytes), collect node_of_row rows.
End Nodes.

(** ** Simulation *)
Section Simulation.
Context {conn : Type} {O : SqlOps conn} {view : conn → db} {L : SqlLaws conn view}
  {Mp : Msgpack}.

Lemma put_node_refines k l v : refines view (put_node k l v) (put_node k l v).
Proof. apply exec_refines. intros c. apply law_upsert. Qed.
Lemma read_record_view id c : read_record id c = read_record id (view c).
Proof. unfold read_record. by rewrite (kv_get_view (conn:=conn)). Qed.
Lemma get_node_view id c : get_node id c = get_node id (view c).
Proof. unfold get_node. by rewrite (read_record_view id c). Qed.
Lemma node_exists_view id c : node_exists id c = node_exists id (view c).
Proof. unfold node_exists. by rewrite law_prepare, law_query_one. Qed.
Lemma node_has_edges_view id c : node_has_edges id c = node_has_edges id (view c).
Proof. unfold node_has_edges. by rewrite !(get_all_edge_labels_view (conn:=conn)). Qed.
Lemma find_nodes_by_label_view l c : find_nodes_by_label l c = find_nodes_by_label l (view c).
Proof. unfold find_nodes_by_label. by rewrite law_query_labelled. Qed.
Hint Resolve put_node_refines read_record_view get_node_view : refine.

Lemma write_record_refines id r : refines view (write_record id r) (write_record id r).
Proof. unfold write_record. solve_refines. Qed.
Hint Resolve write_record_refines : refine.

Lemma create_node_refines l p : refines view (create_node l p) (create_node l p).
Proof. unfold create_node. solve_refines. Qed.
Lemma delete_node_refines id : refines view (delete_node id) (delete_node id).
Proof. unfold delete_node. solve_refines. Qed.
Lemma set_node_property_refines id k v :
  refines view (set_node_property id k v) (set_node_property id k v).
Proof. unfold set_node_property. solve_refines. Qed.
Lemma remove_node_property_refines id k :
  refines view (remove_node_property id k) (remove_node_property id k).
Proof. unfold remove_node_property. solve_refines. Qed.
Lemma remove_node_label_refines id l :
  refines view (remove_node_label id l) (remove_node_label id l).
Proof. unfold remove_node_label. solve_refines. Qed.
Lemma add_node_label_refines id l :
  refines view (add_node_label id l) (add_node_label id l).
Proof. unfold add_node_label. solve_refines. Qed.
Lemma set_all_node_properties_refines id p :
  refines view (set_all_node_properties id p) (set_all_node_properties id p).
Proof. unfold set_all_node_properties. solve_refines. Qed.
End Simulation.
#[export] Hint Resolve create_node_refines delete_node_refines set_node_property_refines
  remove_node_property_refines remove_node_label_refines add_node_label_refines
  set_all_node_properties_refines : refine.
#[export] Hint Resolve get_node_view node_exists_view node_has_edges_view
  find_nodes_by_label_view : refine.
