(* ===== verification/Graph.v ===== *)
(** * The abstract graph and what the tables mean

    [graph] is the property graph a client of the storage layer thinks of;
    [repr g d] says that the tables of [d] represent it.  The operations of
    [Edges] and [Nodes] are proved against it in [EdgeSpec] and [NodeSpec]. *)
From S2P Require Export Keys Nodes.

Record graph := mkGraph {
  g_nodes : gmap N NodeRecord;
  g_edges : gmap eid Properties;
  g_next_id : N;
  g_next_seq : N;
}.

Definition eid_src (e : eid) : N := e.1.1.1.
Definition eid_dst (e : eid) : N := e.1.1.2.
Definition eid_label (e : eid) : string := e.1.2.
Definition eid_seq (e : eid) : N := e.2.
(** Parallel edges share these. *)
Definition eid_ends (e : eid) : N * N * string := e.1.

Abbreviation edges := (gmap eid Properties).

(** The neighbour relations. *)
Definition out_rel (E : edges) (i : N) (l : string) (x : N) : Prop :=
  ∃ q, is_Some (E !! ((i, x, l, q) : eid)).
Definition in_rel (E : edges) (i : N) (l : string) (x : N) : Prop :=
  ∃ q, is_Some (E !! ((x, i, l, q) : eid)).

Definition edges_between (E : edges) (s t : N) (l : string) : edges :=
  filter (λ e, eid_ends e.1 = (s, t, l)) E.
Definition edges_typed (E : edges) (l : string) : edges := filter (λ e, eid_label e.1 = l) E.
Definition nodes_labelled (ns : gmap N NodeRecord) (l : string) : gmap N NodeRecord :=
  filter (λ n, l ∈ rec_labels n.2) ns.

Definition valid_id (i : N) : Prop := in_u64 i.

Section Repr.
Context {Mp : Msgpack}.

Definition valid_record (r : NodeRecord) : Prop :=
  StronglySorted str_le (rec_labels r) ∧ NoDup (rec_labels r)
  ∧ Forall valid_name (rec_labels r) ∧ props_storable (rec_properties r).

Definition nodes_ok (m : gmap bytes row) (ns : gmap N NodeRecord) : Prop :=
  (∀ k r, m !! k = Some r → ∃ i, in_u64 i ∧ k = u64_to_be i ∧ is_Some (ns !! i))
  ∧ (∀ i rec, ns !! i = Some rec →
       in_u64 i ∧ valid_record rec
       ∧ m !! u64_to_be i = Some (mkRow (join ":" (rec_labels rec)) (enc_record rec))).

Definition edges_ok (m : gmap bytes row) (E : edges) : Prop :=
  (∀ k r, m !! k = Some r → ∃ e, valid_eid e ∧ k = eid_key e ∧ is_Some (E !! e))
  ∧ (∀ e p, E !! e = Some p →
       valid_eid e ∧ props_storable p ∧ m !! eid_key e = Some (mkRow "" (enc_props p))).

Record repr (g : graph) (d : db) : Prop := {
  r_nodes_tbl : has_tbl d TABLE_NODES;
  r_out_tbl : has_tbl d TABLE_ADJ_OUT;
  r_in_tbl : has_tbl d TABLE_ADJ_IN;
  r_props_tbl : has_tbl d TABLE_EDGE_PROPS;
  r_meta_tbl : has_tbl d METADATA;
  r_nodes : nodes_ok (trows d TABLE_NODES) (g_nodes g);
  r_edges : edges_ok (trows d TABLE_EDGE_PROPS) (g_edges g);
  r_out : adj_ok (trows d TABLE_ADJ_OUT) (out_rel (g_edges g));
  r_in : adj_ok (trows d TABLE_ADJ_IN) (in_rel (g_edges g));
  r_label_count l : stored d (LABEL_COUNT_PREFIX +:+ l)
                    = N.of_nat (size (nodes_labelled (g_nodes g) l));
  r_type_count l : stored d (EDGE_TYPE_COUNT_PREFIX +:+ l)
                   = N.of_nat (size (edges_typed (g_edges g) l));
  r_next_id : meta d NEXT_NODE_ID = Some (u64_to_be (g_next_id g));
  r_next_seq : meta d NEXT_EDGE_SEQ = Some (u64_to_be (g_next_seq g));
  r_id_bound : in_u64 (g_next_id g);
  r_seq_bound : in_u64 (g_next_seq g);
  r_id_fresh i : is_Some (g_nodes g !! i) → (i < g_next_id g)%N;
  r_seq_fresh e : is_Some (g_edges g !! e) → (eid_seq e < g_next_seq g)%N;
  r_seq_inj e e' : is_Some (g_edges g !! e) → is_Some (g_edges g !! e') →
                   eid_seq e = eid_seq e' → e = e';
}.
End Repr.

(** ** Counting *)
Lemma NoDup_bound (l : list N) (b : N) :
  NoDup l → (∀ x, x ∈ l → (x < b)%N) → (N.of_nat (length l) <= b)%N.
Proof.
  intros Hnd Hb. assert (length (N.to_nat <$> l) ≤ length (seq 0 (N.to_nat b))) as Hl.
  { apply submseteq_length, NoDup_submseteq.
    - apply NoDup_fmap_2; [|done]. intros x y E. lia.
    - intros n (x & -> & Hx)%list_elem_of_fmap. apply elem_of_seq. specialize (Hb x Hx). lia. }
  rewrite length_fmap, length_seq in Hl. lia.
Qed.

Lemma size_keys {K A} `{Countable K} (m : gmap K A) :
  size m = length (map_to_list m).*1.
Proof. by rewrite length_fmap, length_map_to_list. Qed.

Lemma elem_of_keys {K A} `{Countable K} (m : gmap K A) k :
  k ∈ (map_to_list m).*1 ↔ is_Some (m !! k).
Proof.
  rewrite list_elem_of_fmap. split.
  - intros ([k' v] & -> & Hin). apply elem_of_map_to_list in Hin. by eexists.
  - intros [v Hv]. exists (k, v). split; [done|]. by apply elem_of_map_to_list.
Qed.

Section Counting.
Context {Mp : Msgpack} {g : graph} {d : db} (Hr : repr g d).

Lemma nodes_bound : (N.of_nat (size (g_nodes g)) <= g_next_id g)%N.
Proof.
  rewrite size_keys. apply NoDup_bound; [apply NoDup_fst_map_to_list|].
  intros i Hi%elem_of_keys. by apply (r_id_fresh _ _ Hr).
Qed.
Lemma edges_bound : (N.of_nat (size (g_edges g)) <= g_next_seq g)%N.
Proof.
  rewrite size_keys, <- (length_fmap eid_seq). apply NoDup_bound.
  - apply NoDup_fmap_2_strong; [|apply NoDup_fst_map_to_list].
    intros e e' He%elem_of_keys He'%elem_of_keys. by apply (r_seq_inj _ _ Hr).
  - intros q (e & -> & He%elem_of_keys)%list_elem_of_fmap. by apply (r_seq_fresh _ _ Hr).
Qed.
End Counting.

Lemma size_filter_le {K A} `{Countable K} (P : K * A → Prop) `{!∀ x, Decision (P x)}
    (m : gmap K A) : size (filter P m) ≤ size m.
Proof. apply map_subseteq_size, map_filter_subseteq. Qed.

(** A filtered map when one key changes. *)
Lemma size_filter_insert_fresh {K A} `{Countable K} (P : K * A → Prop)
    `{!∀ x, Decision (P x)} (m : gmap K A) k v :
  m !! k = None →
  size (filter P (<[k := v]> m)) = (if decide (P (k, v)) then 1 else 0) + size (filter P m).
Proof.
  intros Hk. rewrite map_filter_insert. case_decide.
  - rewrite map_size_insert_None; [done|]. apply map_lookup_filter_None. by left.
  - by rewrite delete_id.
Qed.
Lemma size_filter_delete {K A} `{Countable K} (P : K * A → Prop)
    `{!∀ x, Decision (P x)} (m : gmap K A) k v :
  m !! k = Some v →
  size (filter P m) = (if decide (P (k, v)) then 1 else 0) + size (filter P (base.delete k m)).
Proof.
  intros Hk. rewrite <- (insert_delete_id m k v Hk) at 1.
  by rewrite size_filter_insert_fresh by apply lookup_delete_eq.
Qed.

Lemma eid_parts e : e = (eid_src e, eid_dst e, eid_label e, eid_seq e).
Proof. by destruct e as [[[? ?] ?] ?]. Qed.

Lemma edge_key_between e s t l :
  valid_eid e → in_u64 s → in_u64 t → valid_name l →
  edge_props_prefix s t l `prefix_of` eid_key e ↔ eid_ends e = (s, t, l).
Proof.
  destruct e as [[[s' t'] l'] q]. intros (? & ? & ? & ?) ???. unfold eid_ends.
  cbn [eid_key fst]. rewrite edge_props_key_prefix by done. naive_solver.
Qed.

(** ** The table of edges *)
Section EdgeTable.
Context {Mp : Msgpack}.

Lemma edges_ok_lookup m E e :
  edges_ok m E → valid_eid e → row_value <$> m !! eid_key e = enc_props <$> E !! e.
Proof.
  intros [H1 H2] He. destruct (E !! e) as [p|] eqn:Ep.
  - by destruct (H2 _ _ Ep) as (_ & _ & ->).
  - destruct (m !! eid_key e) as [r|] eqn:Er; [|done].
    destruct (H1 _ _ Er) as (e' & He' & Ek & Hs). apply eid_key_inj in Ek as <-; [|done..].
    rewrite Ep in Hs. by destruct Hs.
Qed.

Lemma edges_ok_insert m E e p :
  edges_ok m E → valid_eid e → props_storable p →
  edges_ok (<[eid_key e := mkRow "" (enc_props p)]> m) (<[e := p]> E).
Proof.
  intros [H1 H2] He Hp. split.
  - intros k r [[<- <-]|[Hk Hr]]%lookup_insert_Some.
    + exists e. by rewrite lookup_insert_eq.
    + destruct (H1 _ _ Hr) as (e' & ? & -> & ?). exists e'.
      rewrite lookup_insert_ne; [done|]. by intros ->.
  - intros e' p' [[<- <-]|[Hk Hr]]%lookup_insert_Some.
    + by rewrite lookup_insert_eq.
    + destruct (H2 _ _ Hr) as (? & ? & ?). split_and!; [done..|].
      rewrite lookup_insert_ne; [done|]. by intros ?%eid_key_inj.
Qed.

(** Removing the rows of a set of edges. *)
Lemma edges_ok_filter m E m' E' (P : eid → Prop) `{!∀ e, Decision (P e)} :
  edges_ok m E →
  (∀ e p, E' !! e = Some p ↔ E !! e = Some p ∧ P e) →
  (∀ e, valid_eid e → m' !! eid_key e = if decide (P e) then m !! eid_key e else None) →
  (∀ k, m !! k = None → m' !! k = None) →
  edges_ok m' E'.
Proof.
  intros [H1 H2] HE Hm' Hn. split.
  - intros k r Hk. destruct (m !! k) as [r0|] eqn:Ek; [|by rewrite Hn in Hk].
    destruct (H1 _ _ Ek) as (e & He & -> & Hs). rewrite Hm' in Hk by done.
    case_decide; [|done]. exists e. split_and!; [done..|]. destruct Hs as [p Hp].
    exists p. by apply HE.
  - intros e p [Hp HP]%HE. destruct (H2 _ _ Hp) as (He & ? & ?).
    split_and!; [done..|]. rewrite Hm' by done. by rewrite decide_True.
Qed.

(** What a scan of the parallel edges of one pair sees. *)
Lemma elem_of_scan_edges m E s t l k v :
  edges_ok m E → in_u64 s → in_u64 t → valid_name l →
  (k, v) ∈ scan m (edge_props_prefix s t l) ↔
    ∃ q p, k = edge_props_key s t l q ∧ v = enc_props p ∧ E !! ((s, t, l, q) : eid) = Some p.
Proof.
  intros HE Hs Ht Hl. rewrite elem_of_scan. split.
  - intros [Hp Hv]. destruct (m !! k) as [r|] eqn:Er; [|done]. simpl in Hv.
    destruct (proj1 HE _ _ Er) as ([[[s' t'] l'] q] & He & -> & [p Hs']).
    pose proof He as (? & ? & ? & ?).
    apply edge_props_key_prefix in Hp as (<- & <- & <-); [|done..].
    exists q, p. split_and!; [done| |done].
    destruct (proj2 HE _ _ Hs') as (_ & _ & E2). rewrite E2 in Er. naive_solver.
  - intros (q & p & -> & -> & Hp). destruct (proj2 HE _ _ Hp) as (He & _ & E2).
    pose proof He as (? & ? & ? & ?). split.
    + by apply edge_props_key_prefix.
    + change (edge_props_key s t l q) with (eid_key (s, t, l, q)). by rewrite E2.
Qed.

Lemma edges_between_lookup E s t l (e : eid) p :
  edges_between E s t l !! e = Some p ↔ E !! e = Some p ∧ eid_ends e = (s, t, l).
Proof. unfold edges_between. by rewrite map_lookup_filter_Some. Qed.

Lemma length_scan_edges m E s t l :
  edges_ok m E → in_u64 s → in_u64 t → valid_name l →
  length (scan m (edge_props_prefix s t l)) = size (edges_between E s t l).
Proof.
  intros HE Hs Ht Hl.
  rewrite size_keys, <- (length_fmap fst (scan _ _)), <- (length_fmap eid_key).
  apply Permutation_length, NoDup_Permutation.
  - apply NoDup_scan_keys.
  - apply NoDup_fmap_2_strong; [|apply NoDup_fst_map_to_list].
    intros e e' [p He]%elem_of_keys [p' He']%elem_of_keys.
    apply edges_between_lookup in He as [He _], He' as [He' _].
    apply eid_key_inj; by eapply HE.
  - intros k. rewrite !list_elem_of_fmap. split.
    + intros ([k' v] & -> & Hin). apply (elem_of_scan_edges _ E) in Hin; [|done..].
      destruct Hin as (q & p & -> & -> & Hp). exists (s, t, l, q). split; [done|].
      apply elem_of_keys. exists p. by apply edges_between_lookup.
    + intros ([[[s' t'] l'] q] & -> & [p He]%elem_of_keys).
      apply edges_between_lookup in He as [He [= -> -> ->]].
      exists (eid_key (s, t, l, q), enc_props p). split; [done|].
      apply (elem_of_scan_edges _ E); [done..|]. eauto.
Qed.
End EdgeTable.
