(* ===== verification/EdgeSpec.v ===== *)
(** * Edges: their operations and queries against the graph *)
From S2P Require Export Graph.

(** * Edge operations implement the graph operations

    Each operation of [Edges], run on tables that represent a graph, returns
    what the graph operation of the same name returns and leaves tables that
    represent its result. *)

Definition with_edges (g : graph) (E : edges) (q : N) : graph :=
  mkGraph (g_nodes g) E (g_next_id g) q.

(** ** The graph operations *)
Definition add_edge (g : graph) (s t : N) (l : string) (p : Properties) : graph :=
  with_edges g (<[(s, t, l, g_next_seq g) : eid := p]> (g_edges g)) (g_next_seq g + 1).
Definition remove_edges (g : graph) (s t : N) (l : string) : graph :=
  with_edges g (filter (λ e, eid_ends e.1 ≠ (s, t, l)) (g_edges g)) (g_next_seq g).
Definition remove_edge (g : graph) (e : eid) : graph :=
  with_edges g (base.delete e (g_edges g)) (g_next_seq g).
Definition update_edge (g : graph) (e : eid) (p : Properties) : graph :=
  with_edges g (<[e := p]> (g_edges g)) (g_next_seq g).

(** ** Frames *)

(** The tables exist, and the part of them that describes nodes is the same. *)
Record same_nodes (d d' : db) : Prop := {
  sn_nodes_tbl : has_tbl d TABLE_NODES → has_tbl d' TABLE_NODES;
  sn_out_tbl : has_tbl d TABLE_ADJ_OUT → has_tbl d' TABLE_ADJ_OUT;
  sn_in_tbl : has_tbl d TABLE_ADJ_IN → has_tbl d' TABLE_ADJ_IN;
  sn_props_tbl : has_tbl d TABLE_EDGE_PROPS → has_tbl d' TABLE_EDGE_PROPS;
  sn_meta_tbl : has_tbl d METADATA → has_tbl d' METADATA;
  sn_nodes : trows d' TABLE_NODES = trows d TABLE_NODES;
  sn_labels l : has_tbl d METADATA →
    stored d' (LABEL_COUNT_PREFIX +:+ l) = stored d (LABEL_COUNT_PREFIX +:+ l);
  sn_next : has_tbl d METADATA → meta d' NEXT_NODE_ID = meta d NEXT_NODE_ID;
}.

#[global] Instance same_nodes_trans : Transitive same_nodes.
Proof.
  intros d1 d2 d3 H1 H2. destruct H1, H2. split; auto; [congruence|..].
  - intros l Hm. rewrite sn_labels1 by auto. auto.
  - intros Hm. rewrite sn_next1 by auto. auto.
Qed.
#[global] Instance same_nodes_refl : Reflexive same_nodes.
Proof. intros d. by split. Qed.

Lemma prefix_ne l l' : EDGE_TYPE_COUNT_PREFIX +:+ l ≠ LABEL_COUNT_PREFIX +:+ l'.
Proof. discriminate. Qed.

Lemma same_nodes_upd d t m :
  str_lower t ≠ str_lower TABLE_NODES → str_lower t ≠ str_lower METADATA →
  same_nodes d (upd d t m).
Proof.
  intros H1 H2. split; intros; rewrite ?has_tbl_upd; auto.
  - by apply trows_upd_ne.
  - by apply stored_upd.
  - by apply meta_upd.
Qed.
Lemma same_nodes_set_seq d n : same_nodes d (set_meta d NEXT_EDGE_SEQ n).
Proof.
  split; intros; rewrite ?has_tbl_set_meta; auto.
  - by apply trows_set_meta.
  - by apply stored_set_meta.
  - by rewrite meta_set_meta, decide_False.
Qed.
Lemma same_nodes_put_type d l n :
  in_u64 n → same_nodes d (put_stored d (EDGE_TYPE_COUNT_PREFIX +:+ l) n).
Proof.
  intros Hn. split; intros; rewrite ?has_tbl_put_stored; auto.
  - by apply trows_put_stored.
  - rewrite stored_put, decide_False; auto using prefix_ne.
  - by apply meta_put_stored.
Qed.
Lemma same_nodes_set_type d l n :
  in_u64 n → same_nodes d (set_stored d (EDGE_TYPE_COUNT_PREFIX +:+ l) n).
Proof.
  intros Hn. split; intros; rewrite ?has_tbl_set_stored; auto.
  - by apply trows_set_stored.
  - rewrite stored_set, decide_False; auto using prefix_ne.
  - by apply meta_set_stored.
Qed.
#[export] Hint Resolve same_nodes_set_seq : run.

Lemma kv_deletes_run d t (l : list (bytes * bytes)) :
  check_table t = Ok () → has_tbl d t →
  ∃ m', for_each (λ e : bytes * bytes, kv_delete t e.1 ≫= λ _, mret ()) l d = (upd d t m', Ok ())
    ∧ ∀ k, m' !! k = if decide (k ∈ l.*1) then None else trows d t !! k.
Proof.
  intros Hc. revert d. induction l as [|[k0 v0] l IH]; intros d Ht.
  { exists (trows d t). by rewrite upd_trows. }
  destruct (IH (upd d t (base.delete k0 (trows d t)))) as (m' & E & Hm').
  { by apply has_tbl_upd. }
  exists m'. split.
  - cbn [for_each]. rewrite (run_bind _ _ d (upd d t (base.delete k0 (trows d t))) ()).
    + rewrite E. by rewrite upd_upd.
    + by rewrite (run_bind _ _ _ _ _ (kv_delete_trows d t Hc Ht _)).
  - intros k. rewrite Hm', trows_upd_eq by done. cbn [fmap list_fmap fst].
    rewrite lookup_delete. repeat case_decide; set_solver.
Qed.

(** The edge part of the tables of [d], next to the node part of [d0]: while an
    operation runs, its tables need not represent a graph. *)
Record etabs (d0 d : db) (mo mi mp : gmap bytes row) (cnt : string → N) (q : N) : Prop := {
  et_same : same_nodes d0 d;
  et_out_tbl : has_tbl d TABLE_ADJ_OUT;
  et_in_tbl : has_tbl d TABLE_ADJ_IN;
  et_props_tbl : has_tbl d TABLE_EDGE_PROPS;
  et_meta_tbl : has_tbl d METADATA;
  et_out : trows d TABLE_ADJ_OUT = mo;
  et_in : trows d TABLE_ADJ_IN = mi;
  et_props : trows d TABLE_EDGE_PROPS = mp;
  et_count l : stored d (EDGE_TYPE_COUNT_PREFIX +:+ l) = cnt l;
  et_seq : meta d NEXT_EDGE_SEQ = Some (u64_to_be q);
}.

Section Etabs.
Context {d0 d : db} {mo mi mp : gmap bytes row} {cnt : string → N} {q : N}.
Context (Hd : etabs d0 d mo mi mp cnt q).

Lemma etabs_upd_out m : etabs d0 (upd d TABLE_ADJ_OUT m) m mi mp cnt q.
Proof.
  destruct Hd. split; intros; rewrite ?has_tbl_upd, ?trows_upd_ne, ?stored_upd, ?meta_upd by done;
    auto using trows_upd_eq. etrans; [done|by apply same_nodes_upd].
Qed.
Lemma etabs_upd_in m : etabs d0 (upd d TABLE_ADJ_IN m) mo m mp cnt q.
Proof.
  destruct Hd. split; intros; rewrite ?has_tbl_upd, ?trows_upd_ne, ?stored_upd, ?meta_upd by done;
    auto using trows_upd_eq. etrans; [done|by apply same_nodes_upd].
Qed.
Lemma etabs_upd_props m : etabs d0 (upd d TABLE_EDGE_PROPS m) mo mi m cnt q.
Proof.
  destruct Hd. split; intros; rewrite ?has_tbl_upd, ?trows_upd_ne, ?stored_upd, ?meta_upd by done;
    auto using trows_upd_eq. etrans; [done|by apply same_nodes_upd].
Qed.
Lemma etabs_set_seq n : etabs d0 (set_meta d NEXT_EDGE_SEQ n) mo mi mp cnt n.
Proof.
  destruct Hd. split; intros; rewrite ?has_tbl_set_meta, ?trows_set_meta, ?stored_set_meta by done;
    auto. { etrans; [done|by apply same_nodes_set_seq]. }
  by rewrite meta_set_meta, decide_True, et_seq0.
Qed.
Lemma etabs_put_count l n :
  in_u64 n →
  etabs d0 (put_stored d (EDGE_TYPE_COUNT_PREFIX +:+ l) n) mo mi mp
    (λ l', if decide (l = l') then n else cnt l') q.
Proof.
  intros Hn. destruct Hd. split; intros;
    rewrite ?has_tbl_put_stored, ?trows_put_stored, ?meta_put_stored by done; auto.
  { etrans; [done|by apply same_nodes_put_type]. }
  rewrite stored_put by done. destruct (decide (l = l0)) as [->|Hne].
  - by rewrite decide_True.
  - rewrite decide_False; [done|]. by intros ?%(inj (String.append _)).
Qed.
Lemma etabs_set_count l n :
  in_u64 n →
  etabs d0 (set_stored d (EDGE_TYPE_COUNT_PREFIX +:+ l) n) mo mi mp
    (λ l', if decide (l = l') then n else cnt l') q.
Proof.
  intros Hn. destruct Hd. split; intros;
    rewrite ?has_tbl_set_stored, ?trows_set_stored, ?meta_set_stored by done; auto.
  { etrans; [done|by apply same_nodes_set_type]. }
  rewrite stored_set by done. destruct (decide (l = l0)) as [->|Hne].
  - by rewrite decide_True.
  - rewrite decide_False; [done|]. by intros ?%(inj (String.append _)).
Qed.

(** The steps of the edge operations. *)
Context {Mp : Msgpack}.
Context (Ro Ri : N → string → N → Prop) (Ho : adj_ok mo Ro) (Hi : adj_ok mi Ri).
Context (i : N) (l : string) (x : N) (Hi64 : in_u64 i) (Hl : valid_name l) (Hx : in_u64 x).

Lemma insert_out_step :
  ∃ d' m', adj_insert TABLE_ADJ_OUT (adj_key i l) x d = (d', Ok ())
    ∧ etabs d0 d' m' mi mp cnt q
    ∧ adj_ok m' (λ i' l' x', (i' = i ∧ l' = l ∧ x' = x) ∨ Ro i' l' x').
Proof.
  rewrite <- (et_out _ _ _ _ _ _ _ Hd) in Ho.
  destruct (adj_insert_ok d TABLE_ADJ_OUT eq_refl (et_out_tbl _ _ _ _ _ _ _ Hd) Ro Ho i l x)
    as (m' & E & H); [done..|]. eauto using etabs_upd_out.
Qed.
Lemma insert_in_step :
  ∃ d' m', adj_insert TABLE_ADJ_IN (adj_key i l) x d = (d', Ok ())
    ∧ etabs d0 d' mo m' mp cnt q
    ∧ adj_ok m' (λ i' l' x', (i' = i ∧ l' = l ∧ x' = x) ∨ Ri i' l' x').
Proof.
  rewrite <- (et_in _ _ _ _ _ _ _ Hd) in Hi.
  destruct (adj_insert_ok d TABLE_ADJ_IN eq_refl (et_in_tbl _ _ _ _ _ _ _ Hd) Ri Hi i l x)
    as (m' & E & H); [done..|]. eauto using etabs_upd_in.
Qed.
Lemma remove_out_step :
  ∃ d' m', adj_remove TABLE_ADJ_OUT (adj_key i l) x d = (d', Ok ())
    ∧ etabs d0 d' m' mi mp cnt q
    ∧ adj_ok m' (λ i' l' x', ¬ (i' = i ∧ l' = l ∧ x' = x) ∧ Ro i' l' x').
Proof.
  rewrite <- (et_out _ _ _ _ _ _ _ Hd) in Ho.
  destruct (adj_remove_ok d TABLE_ADJ_OUT eq_refl (et_out_tbl _ _ _ _ _ _ _ Hd) Ro Ho i l x)
    as (m' & E & H); [done..|]. eauto using etabs_upd_out.
Qed.
Lemma remove_in_step :
  ∃ d' m', adj_remove TABLE_ADJ_IN (adj_key i l) x d = (d', Ok ())
    ∧ etabs d0 d' mo m' mp cnt q
    ∧ adj_ok m' (λ i' l' x', ¬ (i' = i ∧ l' = l ∧ x' = x) ∧ Ri i' l' x').
Proof.
  rewrite <- (et_in _ _ _ _ _ _ _ Hd) in Hi.
  destruct (adj_remove_ok d TABLE_ADJ_IN eq_refl (et_in_tbl _ _ _ _ _ _ _ Hd) Ri Hi i l x)
    as (m' & E & H); [done..|]. eauto using etabs_upd_in.
Qed.
End Etabs.

Section EtabsOps.
Context {d0 d : db} {mo mi mp : gmap bytes row} {cnt : string → N} {q : N}.
Context (Hd : etabs d0 d mo mi mp cnt q).

Lemma seq_step :
  in_u64 q → in_u64 (q + 1) →
  ∃ d', next_edge_seq d = (d', Ok q) ∧ etabs d0 d' mo mi mp cnt (q + 1).
Proof.
  intros Hq Hq'. eexists. rewrite (next_edge_seq_run d (et_meta_tbl _ _ _ _ _ _ _ Hd) q);
    [|apply Hd|done]. rewrite decide_True by done. split; [done|]. by eapply etabs_set_seq.
Qed.
Lemma put_step k v :
  ∃ d', kv_put TABLE_EDGE_PROPS k v d = (d', Ok ())
    ∧ etabs d0 d' mo mi (<[k := mkRow "" v]> mp) cnt q.
Proof.
  eexists. rewrite (kv_put_trows d TABLE_EDGE_PROPS eq_refl (et_props_tbl _ _ _ _ _ _ _ Hd)).
  split; [done|]. rewrite (et_props _ _ _ _ _ _ _ Hd). by eapply etabs_upd_props.
Qed.
Lemma delete_step k :
  ∃ d', kv_delete TABLE_EDGE_PROPS k d = (d', Ok (bool_decide (is_Some (mp !! k))))
    ∧ etabs d0 d' mo mi (base.delete k mp) cnt q.
Proof.
  eexists. rewrite (kv_delete_trows d TABLE_EDGE_PROPS eq_refl (et_props_tbl _ _ _ _ _ _ _ Hd)).
  rewrite (et_props _ _ _ _ _ _ _ Hd). split; [done|]. by eapply etabs_upd_props.
Qed.
Lemma scan_step p : kv_scan_prefix TABLE_EDGE_PROPS p d = Ok (scan mp p).
Proof.
  rewrite <- (et_props _ _ _ _ _ _ _ Hd).
  apply kv_scan_trows; [done|]. by eapply et_props_tbl.
Qed.
Lemma increment_step l :
  in_u64 (cnt l + 1) →
  ∃ d', increment_edge_type_count l d = (d', Ok ())
    ∧ etabs d0 d' mo mi mp (λ l', if decide (l = l') then (cnt l + 1)%N else cnt l') q.
Proof.
  intros Hn. eexists. rewrite (increment_edge_type_count_run d (et_meta_tbl _ _ _ _ _ _ _ Hd)).
  split; [done|]. rewrite (et_count _ _ _ _ _ _ _ Hd), u64_add_small by done.
  by apply etabs_set_count.
Qed.
Lemma decrement_step l n :
  ∃ d', decrement_edge_type_count_by l n d = (d', Ok ())
    ∧ etabs d0 d' mo mi mp (λ l', if decide (l = l') then (cnt l - n)%N else cnt l') q.
Proof.
  eexists. rewrite (decrement_edge_type_count_by_run d (et_meta_tbl _ _ _ _ _ _ _ Hd)).
  split; [done|]. rewrite (et_count _ _ _ _ _ _ _ Hd). apply etabs_put_count; [done|].
  rewrite <- (et_count _ _ _ _ _ _ _ Hd). unfold in_u64.
  pose proof (stored_in_u64 d (EDGE_TYPE_COUNT_PREFIX +:+ l)) as H. unfold in_u64 in H. lia.
Qed.

(** Deleting every entry of a scan deletes the rows under its prefix. *)
Lemma deletes_step p :
  ∃ d' m', for_each (λ e : bytes * bytes, kv_delete TABLE_EDGE_PROPS e.1 ≫= λ _, mret ())
             (scan mp p) d = (d', Ok ())
    ∧ etabs d0 d' mo mi m' cnt q
    ∧ ∀ k, m' !! k = if decide (p `prefix_of` k) then None else mp !! k.
Proof.
  destruct (kv_deletes_run d TABLE_EDGE_PROPS (scan mp p) eq_refl (et_props_tbl _ _ _ _ _ _ _ Hd))
    as (m' & E & Hm'). exists (upd d TABLE_EDGE_PROPS m'), m'.
  split_and!; [done|by eapply etabs_upd_props|]. intros k. rewrite Hm'.
  rewrite (et_props _ _ _ _ _ _ _ Hd). destruct (decide (k ∈ (scan mp p).*1)) as [Hin|Hin].
  - apply list_elem_of_fmap in Hin as ([k' v] & -> & [Hp _]%elem_of_scan). by rewrite decide_True.
  - case_decide as Hp; [|done]. destruct (mp !! k) as [r|] eqn:Er; [|done].
    destruct Hin. apply list_elem_of_fmap. exists (k, row_value r). split; [done|].
    apply elem_of_scan. by rewrite Er.
Qed.
End EtabsOps.

Section Frame.
Context {Mp : Msgpack}.

Lemma etabs_start g d :
  repr g d →
  etabs d d (trows d TABLE_ADJ_OUT) (trows d TABLE_ADJ_IN) (trows d TABLE_EDGE_PROPS)
    (λ l, N.of_nat (size (edges_typed (g_edges g) l))) (g_next_seq g).
Proof. intros []. by split. Qed.

Lemma repr_with_edges g d0 d mo mi mp cnt E q :
  repr g d0 → etabs d0 d mo mi mp cnt q →
  edges_ok mp E → adj_ok mo (out_rel E) → adj_ok mi (in_rel E) →
  (∀ l, cnt l = N.of_nat (size (edges_typed E l))) → in_u64 q →
  (∀ e, is_Some (E !! e) → (eid_seq e < q)%N) →
  (∀ e e', is_Some (E !! e) → is_Some (E !! e') → eid_seq e = eid_seq e' → e = e') →
  repr (with_edges g E q) d.
Proof.
  intros [] [[]] ??? Hc ? Hf Hj. subst. split; simpl; auto.
  - by rewrite sn_nodes0.
  - intros l. by rewrite sn_labels0.
  - intros l. by rewrite et_count0.
  - by rewrite sn_next0.
Qed.
End Frame.

(** Relations of changed edge sets. *)
Lemma out_rel_insert E s t l q p i l' x :
  out_rel (<[(s, t, l, q) : eid := p]> E) i l' x ↔ (i = s ∧ l' = l ∧ x = t) ∨ out_rel E i l' x.
Proof.
  unfold out_rel. setoid_rewrite lookup_insert_is_Some. split.
  - intros (q' & [[= -> -> -> ->]|[_ H]]); eauto.
  - intros [(-> & -> & ->)|(q' & H)]; [by exists q; left|].
    exists q'. destruct (decide ((s, t, l, q) = ((i, x, l', q') : eid))); eauto.
Qed.
Lemma in_rel_insert E s t l q p i l' x :
  in_rel (<[(s, t, l, q) : eid := p]> E) i l' x ↔ (i = t ∧ l' = l ∧ x = s) ∨ in_rel E i l' x.
Proof.
  unfold in_rel. setoid_rewrite lookup_insert_is_Some. split.
  - intros (q' & [[= -> -> -> ->]|[_ H]]); eauto.
  - intros [(-> & -> & ->)|(q' & H)]; [by exists q; left|].
    exists q'. destruct (decide ((s, t, l, q) = ((x, i, l', q') : eid))); eauto.
Qed.
Lemma removed_is_Some (E : edges) s t l (e : eid) :
  is_Some (filter (λ e : eid * Properties, eid_ends e.1 ≠ (s, t, l)) E !! e) ↔
    is_Some (E !! e) ∧ eid_ends e ≠ (s, t, l).
Proof. unfold is_Some. setoid_rewrite map_lookup_filter_Some. naive_solver. Qed.

Lemma out_rel_remove E s t l i l' x :
  out_rel (filter (λ e, eid_ends e.1 ≠ (s, t, l)) E) i l' x ↔
    ¬ (i = s ∧ l' = l ∧ x = t) ∧ out_rel E i l' x.
Proof.
  unfold out_rel. setoid_rewrite removed_is_Some.
  unfold eid_ends. simpl. split.
  - intros (q & H & Hne). split; [|eauto]. intros (-> & -> & ->). done.
  - intros (Hne & q & H). exists q. split; [done|]. intros [= -> -> ->]. naive_solver.
Qed.
Lemma in_rel_remove E s t l i l' x :
  in_rel (filter (λ e, eid_ends e.1 ≠ (s, t, l)) E) i l' x ↔
    ¬ (i = t ∧ l' = l ∧ x = s) ∧ in_rel E i l' x.
Proof.
  unfold in_rel. setoid_rewrite removed_is_Some.
  unfold eid_ends. simpl. split.
  - intros (q & H & Hne). split; [|eauto]. intros (-> & -> & ->). done.
  - intros (Hne & q & H). exists q. split; [done|]. intros [= -> -> ->]. naive_solver.
Qed.

(** ** Creation *)
Section Spec.
Context {Mp : Msgpack} {ML : MsgpackLaws}.

Definition valid_keys (p : Properties) : Prop := ∀ k, is_Some (p !! k) → valid_name k.

Lemma valid_keys_run p :
  valid_keys p → for_each_r validate_name (map_to_list p).*1 = Ok ().
Proof. intros Hp. apply for_each_r_ok. intros k Hk%elem_of_keys. by apply Hp. Qed.

Lemma ser_props p : ser (to_vec_props p) = Ok (enc_props p).
Proof. by rewrite law_to_vec_props. Qed.

Lemma fresh_edge g d s t l :
  repr g d → g_edges g !! ((s, t, l, g_next_seq g) : eid) = None.
Proof.
  intros Hr. apply eq_None_not_Some. intros Hx%(r_seq_fresh _ _ Hr).
  unfold eid_seq in Hx. cbn [snd] in Hx. lia.
Qed.

Lemma typed_bound g d l :
  repr g d → (N.of_nat (size (edges_typed (g_edges g) l)) <= g_next_seq g)%N.
Proof.
  intros Hr. pose proof (edges_bound Hr). unfold edges_typed.
  pose proof (size_filter_le (λ e : eid * Properties, eid_label e.1 = l) (g_edges g)). lia.
Qed.

(** The graph after the last write of [create_edge]. *)
Lemma repr_add_edge g d d' mo mi s t l p :
  repr g d → valid_eid (s, t, l, g_next_seq g) → props_storable p → in_u64 (g_next_seq g + 1) →
  adj_ok mo (λ i l' x, (i = s ∧ l' = l ∧ x = t) ∨ out_rel (g_edges g) i l' x) →
  adj_ok mi (λ i l' x, (i = t ∧ l' = l ∧ x = s) ∨ in_rel (g_edges g) i l' x) →
  etabs d d' mo mi
    (<[edge_props_key s t l (g_next_seq g) := mkRow "" (enc_props p)]> (trows d TABLE_EDGE_PROPS))
    (λ l', if decide (l = l') then (N.of_nat (size (edges_typed (g_edges g) l)) + 1)%N
           else N.of_nat (size (edges_typed (g_edges g) l'))) (g_next_seq g + 1) →
  repr (add_edge g s t l p) d'.
Proof.
  intros Hr He Hp Hq H1 H2 Hd. pose proof (fresh_edge g d s t l Hr) as Hfresh.
  eapply repr_with_edges; [exact Hr|exact Hd|..].
  - apply (edges_ok_insert _ _ (s, t, l, g_next_seq g)); [apply Hr|done..].
  - eapply adj_ok_iff; [exact H1|]. intros. by rewrite out_rel_insert.
  - eapply adj_ok_iff; [exact H2|]. intros. by rewrite in_rel_insert.
  - intros l'. unfold edges_typed at 3. rewrite (size_filter_insert_fresh _ _ _ _ Hfresh).
    fold (edges_typed (g_edges g) l'). unfold eid_label. cbn [fst snd].
    destruct (decide (l = l')) as [->|]; lia.
  - done.
  - intros e [<-|[_ He']]%lookup_insert_is_Some; [unfold eid_seq; cbn [snd]; lia|].
    apply (r_seq_fresh _ _ Hr) in He'. lia.
  - intros e e' [<-|[_ He1]]%lookup_insert_is_Some [<-|[_ He2]]%lookup_insert_is_Some Eq;
      [done|..|by apply (r_seq_inj _ _ Hr)].
    + apply (r_seq_fresh _ _ Hr) in He2. unfold eid_seq in *. cbn [snd] in *. lia.
    + apply (r_seq_fresh _ _ Hr) in He1. unfold eid_seq in *. cbn [snd] in *. lia.
Qed.

Lemma create_edge_spec g d s t l p :
  repr g d → in_u64 s → in_u64 t → valid_name l → valid_keys p → props_storable p →
  in_u64 (g_next_seq g + 1) →
  ∃ d', create_edge s t l p d = (d', Ok ()) ∧ repr (add_edge g s t l p) d'.
Proof.
  intros Hr Hs Ht Hl Hk Hp Hq. unfold create_edge.
  rewrite (run_bind _ _ d d ()) by by unfold lift; rewrite Hl.
  rewrite (run_bind _ _ d d ()) by by unfold lift; rewrite valid_keys_run.
  destruct (insert_out_step (etabs_start g d Hr) _ (r_out _ _ Hr) s l t)
    as (d1 & m1 & E1 & H1 & A1); [done..|]. rewrite (run_bind _ _ _ _ _ E1).
  destruct (insert_in_step H1 _ (r_in _ _ Hr) t l s)
    as (d2 & m2 & E2 & H2 & A2); [done..|]. rewrite (run_bind _ _ _ _ _ E2).
  destruct (seq_step H2) as (d3 & E3 & H3); [apply Hr|done|].
  rewrite (run_bind _ _ _ _ _ E3).
  rewrite (run_bind _ _ d3 d3 (enc_props p)) by by unfold lift; rewrite ser_props.
  destruct (put_step H3 (edge_props_key s t l (g_next_seq g)) (enc_props p)) as (d4 & E4 & H4).
  rewrite (run_bind _ _ _ _ _ E4).
  destruct (increment_step H4 l) as (d5 & -> & H5).
  { pose proof (typed_bound g d l Hr). unfold in_u64 in *. lia. }
  exists d5. split; [done|]. eapply repr_add_edge; eauto. repeat split; try done. apply Hr.
Qed.

(** ** Deletion *)
Lemma size_edges_typed_remove E s t l l' :
  size (edges_typed (filter (λ e : eid * Properties, eid_ends e.1 ≠ (s, t, l)) E) l') =
    size (edges_typed E l') - (if decide (l = l') then size (edges_between E s t l) else 0).
Proof.
  set (P := λ e : eid * Properties, eid_ends e.1 = (s, t, l)).
  assert (size (edges_typed E l') =
    size (filter P (edges_typed E l')) + size (filter (λ e, ¬ P e) (edges_typed E l'))) as ->.
  { rewrite <- (map_filter_union_complement P (edges_typed E l')) at 1.
    apply map_size_disj_union, map_disjoint_filter_complement. }
  assert (filter (λ e, ¬ P e) (edges_typed E l') =
    edges_typed (filter (λ e : eid * Properties, eid_ends e.1 ≠ (s, t, l)) E) l') as ->
    by apply map_filter_comm.
  assert (size (filter P (edges_typed E l')) =
    if decide (l = l') then size (edges_between E s t l) else 0) as ->; [|lia].
  case_decide as Hl.
  - f_equal. unfold edges_typed. apply map_filter_filter_l.
    intros [[[s' t'] l''] q] p _. unfold P, eid_ends, eid_label. cbn [fst snd]. naive_solver.
  - apply map_size_empty_iff, map_empty. intros e. apply map_lookup_filter_None. right.
    intros p [_ He]%map_lookup_filter_Some. destruct e as [[[s' t'] l''] q].
    revert He. unfold P, eid_ends, eid_label. cbn [fst snd]. naive_solver.
Qed.

Lemma repr_remove_edges g d d' mo mi mp cnt s t l :
  repr g d → in_u64 s → in_u64 t → valid_name l →
  adj_ok mo (λ i l' x, ¬ (i = s ∧ l' = l ∧ x = t) ∧ out_rel (g_edges g) i l' x) →
  adj_ok mi (λ i l' x, ¬ (i = t ∧ l' = l ∧ x = s) ∧ in_rel (g_edges g) i l' x) →
  (∀ k, mp !! k = if decide (edge_props_prefix s t l `prefix_of` k) then None
                  else trows d TABLE_EDGE_PROPS !! k) →
  (∀ l', cnt l' = N.of_nat (size (edges_typed (g_edges g) l') -
     (if decide (l = l') then size (edges_between (g_edges g) s t l) else 0))) →
  etabs d d' mo mi mp cnt (g_next_seq g) →
  repr (remove_edges g s t l) d'.
Proof.
  intros Hr Hs Ht Hl H1 H2 H3 Hc Hd. eapply repr_with_edges; [exact Hr|exact Hd|..].
  - apply (edges_ok_filter (trows d TABLE_EDGE_PROPS) (g_edges g) _ _
      (λ e, eid_ends e ≠ (s, t, l))).
    + apply Hr.
    + intros e p. apply map_lookup_filter_Some.
    + intros e He. rewrite H3. pose proof (edge_key_between e s t l He Hs Ht Hl) as Hiff.
      destruct (decide (eid_ends e ≠ (s, t, l))) as [Hne|Hne].
      * rewrite decide_False; [done|]. by rewrite Hiff.
      * rewrite decide_True; [done|]. apply Hiff. by apply dec_stable in Hne.
    + intros k Hk. rewrite H3. by case_decide.
  - eapply adj_ok_iff; [exact H1|]. intros. by rewrite out_rel_remove.
  - eapply adj_ok_iff; [exact H2|]. intros. by rewrite in_rel_remove.
  - intros l'. by rewrite size_edges_typed_remove, Hc.
  - apply Hr.
  - intros e [He _]%removed_is_Some. by apply (r_seq_fresh _ _ Hr).
  - intros e e' [He _]%removed_is_Some [He' _]%removed_is_Some. by apply (r_seq_inj _ _ Hr).
Qed.

Lemma delete_edge_spec g d s t l :
  repr g d → in_u64 s → in_u64 t → valid_name l →
  ∃ d', delete_edge s t l d = (d', Ok ()) ∧ repr (remove_edges g s t l) d'.
Proof.
  intros Hr Hs Ht Hl. unfold delete_edge.
  destruct (remove_out_step (etabs_start g d Hr) _ (r_out _ _ Hr) s l t)
    as (d1 & m1 & E1 & H1 & A1); [done..|]. rewrite (run_bind _ _ _ _ _ E1).
  destruct (remove_in_step H1 _ (r_in _ _ Hr) t l s)
    as (d2 & m2 & E2 & H2 & A2); [done..|]. rewrite (run_bind _ _ _ _ _ E2).
  rewrite (run_reads _ _ _ _ (scan_step H2 _)).
  destruct (deletes_step H2 (edge_props_prefix s t l)) as (d3 & m3 & E3 & H3 & A3).
  rewrite (run_bind _ _ _ _ _ E3). cbv zeta.
  rewrite (length_scan_edges _ _ _ _ _ (r_edges _ _ Hr) Hs Ht Hl).
  case_decide as Hn.
  - destruct (decrement_step H3 l (N.of_nat (size (edges_between (g_edges g) s t l))))
      as (d4 & -> & H4). exists d4. split; [done|].
    eapply (repr_remove_edges _ _ _ _ _ _ _ _ _ _ Hr Hs Ht Hl A1 A2 A3); [|exact H4].
    intros l'. cbn beta. destruct (decide (l = l')) as [->|]; lia.
  - exists d3. split; [done|].
    eapply (repr_remove_edges _ _ _ _ _ _ _ _ _ _ Hr Hs Ht Hl A1 A2 A3); [|exact H3].
    intros l'. cbn beta. destruct (decide (l = l')) as [->|]; lia.
Qed.

(** Removing one of several parallel edges leaves the relations alone; removing
    the last one removes the pair. *)
Lemma delete_is_Some (E : edges) e e' : is_Some (base.delete e E !! e') ↔ e ≠ e' ∧ is_Some (E !! e').
Proof. apply lookup_delete_is_Some. Qed.

Lemma rel_delete_last E s t l q :
  (∀ q', ¬ is_Some (base.delete ((s, t, l, q) : eid) E !! ((s, t, l, q') : eid))) →
  (∀ i l' x, out_rel (base.delete ((s, t, l, q) : eid) E) i l' x ↔
     ¬ (i = s ∧ l' = l ∧ x = t) ∧ out_rel E i l' x) ∧
  (∀ i l' x, in_rel (base.delete ((s, t, l, q) : eid) E) i l' x ↔
     ¬ (i = t ∧ l' = l ∧ x = s) ∧ in_rel E i l' x).
Proof.
  intros H. unfold out_rel, in_rel. split; intros i l' x; split.
  - intros (q' & Hq). split; [intros (-> & -> & ->); by eapply H|].
    apply delete_is_Some in Hq as [_ ?]. eauto.
  - intros (Hne & q' & Hq). exists q'. apply delete_is_Some. split; [|done].
    intros [= -> -> -> ->]. naive_solver.
  - intros (q' & Hq). split; [intros (-> & -> & ->); by eapply H|].
    apply delete_is_Some in Hq as [_ ?]. eauto.
  - intros (Hne & q' & Hq). exists q'. apply delete_is_Some. split; [|done].
    intros [= -> -> -> ->]. naive_solver.
Qed.

Lemma rel_delete_more E s t l q q0 :
  is_Some (base.delete ((s, t, l, q) : eid) E !! ((s, t, l, q0) : eid)) →
  (∀ i l' x, out_rel E i l' x ↔ out_rel (base.delete ((s, t, l, q) : eid) E) i l' x) ∧
  (∀ i l' x, in_rel E i l' x ↔ in_rel (base.delete ((s, t, l, q) : eid) E) i l' x).
Proof.
  intros H. unfold out_rel, in_rel. split; intros i l' x; split.
  - intros (q' & Hq). destruct (decide ((s, t, l, q) = ((i, x, l', q') : eid))) as [[= -> -> -> ->]|].
    + eauto.
    + exists q'. by apply delete_is_Some.
  - intros (q' & [_ Hq]%delete_is_Some). eauto.
  - intros (q' & Hq). destruct (decide ((s, t, l, q) = ((x, i, l', q') : eid))) as [[= -> -> -> ->]|].
    + eauto.
    + exists q'. by apply delete_is_Some.
  - intros (q' & [_ Hq]%delete_is_Some). eauto.
Qed.

Lemma size_edges_typed_delete (E : edges) e l' :
  size (edges_typed (base.delete e E) l') =
    size (edges_typed E l')
    - (if decide (eid_label e = l') then if decide (is_Some (E !! e)) then 1 else 0 else 0).
Proof.
  unfold edges_typed. destruct (E !! e) as [p|] eqn:Ep.
  - rewrite (decide_True (P := is_Some (Some p))) by eauto.
    rewrite (size_filter_delete _ E e p Ep). cbn [fst]. case_decide; lia.
  - rewrite delete_id by done. rewrite (decide_False (P := is_Some None)) by (by intros []).
    case_decide; lia.
Qed.

Lemma edges_ok_delete m E e :
  edges_ok m E → valid_eid e → edges_ok (base.delete (eid_key e) m) (base.delete e E).
Proof.
  intros HE He. apply (edges_ok_filter m E _ _ (λ e', e' ≠ e) HE).
  - intros e' p. rewrite lookup_delete_Some. naive_solver.
  - intros e' He'. destruct (decide (e' = e)) as [->|Hne].
    + rewrite decide_False by auto. apply lookup_delete_eq.
    + rewrite decide_True by auto. apply lookup_delete_ne. by intros ?%eid_key_inj.
  - intros k Hk. apply lookup_delete_None. by right.
Qed.

Lemma repr_remove_edge g d d' mo mi cnt e :
  repr g d → valid_eid e →
  adj_ok mo (out_rel (base.delete e (g_edges g))) →
  adj_ok mi (in_rel (base.delete e (g_edges g))) →
  (∀ l', cnt l' = N.of_nat (size (edges_typed (base.delete e (g_edges g)) l'))) →
  etabs d d' mo mi (base.delete (eid_key e) (trows d TABLE_EDGE_PROPS)) cnt (g_next_seq g) →
  repr (remove_edge g e) d'.
Proof.
  intros Hr He H1 H2 Hc Hd. eapply repr_with_edges; [exact Hr|exact Hd|..]; auto.
  - apply edges_ok_delete; [apply Hr|done].
  - apply Hr.
  - intros e' [_ He']%delete_is_Some. by apply (r_seq_fresh _ _ Hr).
  - intros e1 e2 [_ He1]%delete_is_Some [_ He2]%delete_is_Some. by apply (r_seq_inj _ _ Hr).
Qed.

(** The first two statements of [delete_single_edge]. *)
Lemma delete_row_step g d e :
  repr g d → valid_eid e →
  ∃ d', (kv_delete TABLE_EDGE_PROPS (eid_key e) ≫= λ removed : bool,
         if removed then decrement_edge_type_count_by (eid_label e) 1 else mret ()) d = (d', Ok ())
    ∧ etabs d d' (trows d TABLE_ADJ_OUT) (trows d TABLE_ADJ_IN)
        (base.delete (eid_key e) (trows d TABLE_EDGE_PROPS))
        (λ l', N.of_nat (size (edges_typed (base.delete e (g_edges g)) l'))) (g_next_seq g).
Proof.
  intros Hr He. destruct (delete_step (etabs_start g d Hr) (eid_key e)) as (d1 & E1 & H1).
  rewrite (run_bind _ _ _ _ _ E1).
  assert (is_Some (trows d TABLE_EDGE_PROPS !! eid_key e) ↔ is_Some (g_edges g !! e)) as Hiff.
  { rewrite <- (fmap_is_Some row_value), (edges_ok_lookup _ _ _ (r_edges _ _ Hr) He).
    apply fmap_is_Some. }
  case_bool_decide as Hs; rewrite Hiff in Hs.
  - destruct (decrement_step H1 (eid_label e) 1) as (d2 & -> & H2). exists d2. split; [done|].
    destruct H2. split; auto. intros l'. rewrite et_count0, size_edges_typed_delete.
    rewrite (decide_True (P := is_Some _)) by done.
    destruct (decide (eid_label e = l')) as [->|]; lia.
  - exists d1. split; [done|]. destruct H1. split; auto. intros l'.
    rewrite et_count0, size_edges_typed_delete. rewrite (decide_False (P := is_Some _)) by done.
    case_decide; f_equal; lia.
Qed.

Lemma delete_single_edge_spec g d s t l q :
  repr g d → valid_eid (s, t, l, q) →
  ∃ d', delete_single_edge s t l q d = (d', Ok ()) ∧ repr (remove_edge g (s, t, l, q)) d'.
Proof.
  intros Hr He. pose proof He as (Hs & Ht & Hl & Hq). unfold delete_single_edge.
  destruct (delete_row_step g d _ Hr He) as (d1 & E1 & H1).
  unfold eid_label in E1. cbn [eid_key fst snd] in E1.
  rewrite <- run_bind_assoc, (run_bind _ _ _ _ _ E1).
  rewrite (run_reads _ _ _ _ (scan_step H1 _)).
  pose proof (edges_ok_delete _ _ _ (r_edges _ _ Hr) He) as HE'.
  case_bool_decide as Hn.
  - destruct (rel_delete_last (g_edges g) s t l q) as [Ro Ri].
    { intros q' [p Hp]. assert ((edge_props_key s t l q', enc_props p) ∈ ([] : list (bytes * bytes)))
        as ?%not_elem_of_nil; [|done].
      rewrite <- Hn. apply (elem_of_scan_edges _ _ _ _ _ _ _ HE'); eauto. }
    destruct (remove_out_step H1 _ (r_out _ _ Hr) s l t)
      as (d2 & m2 & E2 & H2 & A2); [done..|]. rewrite (run_bind _ _ _ _ _ E2).
    destruct (remove_in_step H2 _ (r_in _ _ Hr) t l s)
      as (d3 & m3 & -> & H3 & A3); [done..|]. exists d3. split; [done|].
    eapply (repr_remove_edge _ _ _ _ _ _ _ Hr He); [..|exact H3]; [| |done].
    + eapply adj_ok_iff; [exact A2|]. intros. by rewrite Ro.
    + eapply adj_ok_iff; [exact A3|]. intros. by rewrite Ri.
  - destruct (scan _ _) as [|[k v] rest] eqn:Es; [done|].
    assert ((k, v) ∈ scan (base.delete (eid_key (s, t, l, q)) (trows d TABLE_EDGE_PROPS))
              (edge_props_prefix s t l)) as Hin by (rewrite Es; left).
    apply (elem_of_scan_edges _ _ _ _ _ _ _ HE') in Hin as (q0 & p & _ & _ & Hp); [|done..].
    destruct (rel_delete_more (g_edges g) s t l q q0) as [Ro Ri]; [by eauto|].
    exists d1. split; [done|].
    eapply (repr_remove_edge _ _ _ _ _ _ _ Hr He); [..|exact H1]; [| |done].
    + eapply adj_ok_iff; [apply Hr|]. intros. apply Ro.
    + eapply adj_ok_iff; [apply Hr|]. intros. apply Ri.
Qed.
End Spec.

(** * Edge queries and property updates against the graph *)

(** The neighbours of a node in a direction. *)
Definition nbr (E : edges) (dir : Direction) (i : N) (l : string) (x : N) : Prop :=
  match dir with
  | Outgoing => out_rel E i l x
  | Incoming => in_rel E i l x
  | Both => out_rel E i l x ∨ in_rel E i l x
  end.

Definition set_prop (p : Properties) (k : string) (v : value) : Properties :=
  if value_eqb v Value.Null then base.delete k p else <[k := v]> p.

Lemma elem_of_push_incoming dir res ids x :
  x ∈ push_incoming dir res ids ↔ x ∈ res ∨ x ∈ ids.
Proof.
  unfold push_incoming. revert res. induction ids as [|y ids IH]; intros res; cbn [foldl]; [set_solver|].
  rewrite IH. destruct (decide (dir = Both ∧ y ∈ res)) as [Hd|Hd].
  - destruct Hd as [_ Hy]. rewrite elem_of_cons. naive_solver.
  - rewrite elem_of_app, !elem_of_cons. set_solver +.
Qed.
Lemma NoDup_push_incoming res ids : NoDup res → NoDup (push_incoming Both res ids).
Proof.
  unfold push_incoming. revert res. induction ids as [|y ids IH]; intros res Hn; cbn [foldl]; [done|].
  apply IH. destruct (decide (Both = Both ∧ y ∈ res)) as [Hd|Hd]; [done|]. apply NoDup_app. split_and!; [done| |apply NoDup_singleton].
  intros z Hz ->%list_elem_of_singleton. by destruct Hd.
Qed.
Lemma push_incoming_app res ids : push_incoming Incoming res ids = res ++ ids.
Proof.
  unfold push_incoming. revert res.
  induction ids as [|y ids IH]; intros res; cbn [foldl]; [by rewrite app_nil_r|].
  rewrite decide_False by (by intros []). rewrite IH. by rewrite <- app_assoc.
Qed.

Section Reads.
Context {Mp : Msgpack} {ML : MsgpackLaws} {g : graph} {d : db} (Hr : repr g d).

Lemma edge_valid e p : g_edges g !! e = Some p → valid_eid e ∧ props_storable p.
Proof. intros He. destruct (r_edges _ _ Hr) as [_ H]. by destruct (H _ _ He) as (? & ? & _). Qed.

(** The relations hold of valid names only, so a lookup under any name is
    right. *)
Lemma adj_ids_rel m R i l x :
  adj_ok m R → (∀ i l x, R i l x → valid_name l) → in_u64 i → x ∈ adj_ids m i l ↔ R i l x.
Proof.
  intros H HR Hi. destruct (validate_name_cases l) as [Hl|Hl].
  { by apply H. }
  split; [|by intros Hx; apply H; eauto].
  unfold adj_ids. destruct (m !! adj_key i l) as [r|] eqn:Er.
  - destruct (adj_rows _ _ H _ _ Er) as (i' & l' & ids & Hi' & Hl' & Ek & _).
    apply adj_key_inj in Ek as [-> ->]; [|done..]. unfold valid_name in Hl'. congruence.
  - simpl. set_solver.
Qed.
Lemma out_rel_valid i l x : out_rel (g_edges g) i l x → valid_name l ∧ in_u64 i ∧ in_u64 x.
Proof. intros (q & p & Hp). by apply edge_valid in Hp as [(? & ? & ? & ?) _]. Qed.
Lemma in_rel_valid i l x : in_rel (g_edges g) i l x → valid_name l ∧ in_u64 i ∧ in_u64 x.
Proof. intros (q & p & Hp). by apply edge_valid in Hp as [(? & ? & ? & ?) _]. Qed.

Lemma elem_of_out i l x :
  in_u64 i → x ∈ adj_ids (trows d TABLE_ADJ_OUT) i l ↔ out_rel (g_edges g) i l x.
Proof.
  intros Hi. apply adj_ids_rel; [apply Hr| |done]. intros ??? H. by apply out_rel_valid in H as [? _].
Qed.
Lemma elem_of_in i l x :
  in_u64 i → x ∈ adj_ids (trows d TABLE_ADJ_IN) i l ↔ in_rel (g_edges g) i l x.
Proof.
  intros Hi. apply adj_ids_rel; [apply Hr| |done]. intros ??? H. by apply in_rel_valid in H as [? _].
Qed.
Lemma adj_ids_sorted m R i l :
  adj_ok m R → in_u64 i → StronglySorted N.lt (adj_ids m i l).
Proof.
  intros H Hi. unfold adj_ids. destruct (m !! adj_key i l) as [r|] eqn:Er; [|constructor].
  destruct (adj_rows _ _ H _ _ Er) as (i' & l' & ids & Hi' & Hl' & Ek & _ & Hok & Ev).
  simpl. rewrite Ev, decode_encode_id_list by done. apply Hok.
Qed.

Lemma get_out i l :
  kv_get TABLE_ADJ_OUT (adj_key i l) d = Ok (row_value <$> trows d TABLE_ADJ_OUT !! adj_key i l).
Proof. apply kv_get_trows; [done|apply Hr]. Qed.
Lemma get_in i l :
  kv_get TABLE_ADJ_IN (adj_key i l) d = Ok (row_value <$> trows d TABLE_ADJ_IN !! adj_key i l).
Proof. apply kv_get_trows; [done|apply Hr]. Qed.

Lemma get_neighbors_eq i l dir :
  get_neighbors i l dir d =
    Ok (match dir with
        | Outgoing => adj_ids (trows d TABLE_ADJ_OUT) i l
        | Incoming => adj_ids (trows d TABLE_ADJ_IN) i l
        | Both => push_incoming Both (adj_ids (trows d TABLE_ADJ_OUT) i l)
                    (adj_ids (trows d TABLE_ADJ_IN) i l)
        end).
Proof.
  unfold get_neighbors, adj_ids. rewrite get_out, get_in.
  destruct dir.
  - rewrite (decide_True (P := Outgoing ≠ Incoming)) by done. cbn [mbind result_bind].
    rewrite (decide_False (P := Outgoing ≠ Outgoing)) by auto. done.
  - rewrite (decide_False (P := Incoming ≠ Incoming)) by auto. cbn [mbind result_bind].
    rewrite (decide_True (P := Incoming ≠ Outgoing)) by done.
    destruct (trows d TABLE_ADJ_IN !! _); [|done]. f_equal. apply (push_incoming_app []).
  - rewrite (decide_True (P := Both ≠ Incoming)) by done. cbn [mbind result_bind].
    rewrite (decide_True (P := Both ≠ Outgoing)) by done.
    by destruct (trows d TABLE_ADJ_IN !! _).
Qed.

Lemma get_neighbors_spec i l dir :
  in_u64 i →
  ∃ ids, get_neighbors i l dir d = Ok ids ∧ NoDup ids
    ∧ ∀ x, x ∈ ids ↔ nbr (g_edges g) dir i l x.
Proof.
  intros Hi. rewrite get_neighbors_eq. eexists. split; [done|].
  pose proof (adj_ids_sorted _ _ i l (r_out _ _ Hr) Hi) as Ho%sorted_nodup.
  pose proof (adj_ids_sorted _ _ i l (r_in _ _ Hr) Hi) as Hin%sorted_nodup.
  destruct dir; simpl; split; auto using NoDup_push_incoming.
  - intros x. by apply elem_of_out.
  - intros x. by apply elem_of_in.
  - intros x. by rewrite elem_of_push_incoming, elem_of_out, elem_of_in.
Qed.

Lemma edge_exists_spec s t l :
  in_u64 s → ∃ b, edge_exists s t l d = Ok b ∧ (b = true ↔ out_rel (g_edges g) s l t).
Proof.
  intros Hs. unfold edge_exists. rewrite get_out. cbn [mbind result_bind].
  pose proof (adj_ids_sorted _ _ s l (r_out _ _ Hr) Hs) as Hso.
  pose proof (elem_of_out s l t Hs) as Hin. unfold adj_ids in *.
  destruct (trows d TABLE_ADJ_OUT !! _) as [r|]; cbn [fmap option_fmap option_map] in *.
  - eexists. split; [done|]. rewrite <- Hin. by apply found_spec.
  - exists false. split; [done|]. rewrite <- Hin. simpl. set_solver.
Qed.

(** ** Parallel edges, in order of creation *)
Lemma u64_bytes_lt m n : in_u64 m → in_u64 n → bytes_lt (u64_to_be m) (u64_to_be n) → (m < n)%N.
Proof.
  intros Hm Hn Hlt. destruct (N.lt_trichotomy m n) as [?|[->|Hgt]]; [done|..].
  - by apply irreflexivity in Hlt; [|apply _].
  - exfalso. apply (irreflexivity bytes_lt (u64_to_be m)). trans (u64_to_be n); [done|].
    apply be_split_lt; [done|]. exact Hm.
Qed.

Lemma edge_key_lt s t l q q' :
  in_u64 q → in_u64 q' → bytes_lt (edge_props_key s t l q) (edge_props_key s t l q') → (q < q')%N.
Proof.
  intros Hq Hq'. rewrite !edge_props_key_app. unfold bytes_lt. rewrite bytes_cmp_app_same.
  by apply u64_bytes_lt.
Qed.

Definition parallel (s t : N) (l : string) (L : list (N * Properties)) : Prop :=
  StronglySorted (λ a b, a.1 < b.1)%N L
  ∧ ∀ q p, (q, p) ∈ L ↔ g_edges g !! ((s, t, l, q) : eid) = Some p.

(** The scan lists them. *)
Lemma scan_parallel s t l :
  in_u64 s → in_u64 t → valid_name l →
  ∃ L, parallel s t l L
    ∧ scan (trows d TABLE_EDGE_PROPS) (edge_props_prefix s t l)
      = (λ e, (edge_props_key s t l e.1, enc_props e.2)) <$> L.
Proof.
  intros Hs Ht Hl. set (entries := scan _ _).
  assert (∀ k v, (k, v) ∈ entries ↔ ∃ q p, k = edge_props_key s t l q ∧ v = enc_props p
    ∧ g_edges g !! ((s, t, l, q) : eid) = Some p) as Hin.
  { intros k v. apply elem_of_scan_edges; [apply Hr|done..]. }
  assert (∃ L, entries = (λ e, (edge_props_key s t l e.1, enc_props e.2)) <$> L
    ∧ ∀ q p, (q, p) ∈ L → g_edges g !! ((s, t, l, q) : eid) = Some p) as (L & EL & HL).
  { clear -Hin. assert (∀ k v, (k, v) ∈ entries → ∃ q p, k = edge_props_key s t l q
      ∧ v = enc_props p ∧ g_edges g !! ((s, t, l, q) : eid) = Some p) as H by naive_solver.
    clear Hin. clearbody entries. induction entries as [|[k v] es IH].
    - exists []. split; [done|]. set_solver.
    - destruct IH as (L & -> & HL). { intros. apply H. by right. }
      destruct (H k v) as (q & p & -> & -> & Hp); [by left|]. exists ((q, p) :: L).
      split; [done|]. intros q' p' [[= -> ->]|?]%elem_of_cons; auto. }
  exists L. split; [|done]. split.
  - pose proof (scan_sorted (trows d TABLE_EDGE_PROPS) (edge_props_prefix s t l)) as Hso.
    fold entries in Hso. rewrite EL in Hso. clear -Hso HL Hr.
    induction L as [|[q p] L IH]; [constructor|]. cbn in Hso.
    apply StronglySorted_inv in Hso as [Hso Hx]. constructor.
    + apply IH; [|done]. intros. apply HL. by right.
    + apply Forall_forall. intros [q' p'] Hq'. cbn.
      pose proof (proj1 (Forall_forall _ _) Hx (edge_props_key s t l q', enc_props p')) as Hlt.
      cbn in Hlt. eapply edge_key_lt; [..|apply Hlt; apply list_elem_of_fmap; by exists (q', p')].
      * by eapply (edge_valid (s, t, l, q)), HL; left.
      * by eapply (edge_valid (s, t, l, q')), HL; right.
  - intros q p. split; [apply HL|]. intros Hp.
    assert ((edge_props_key s t l q, enc_props p) ∈ entries) as He by (apply Hin; eauto).
    rewrite EL in He. apply list_elem_of_fmap in He as ([q' p'] & Epair & He).
    apply (f_equal fst) in Epair as Ek. pose proof (HL _ _ He) as Hp'.
    destruct (edge_valid _ _ Hp) as [Hv _], (edge_valid _ _ Hp') as [Hv' _].
    assert ((s, t, l, q) = ((s, t, l, q') : eid)) as [= ->]
      by exact (eid_key_inj _ _ Hv Hv' Ek).
    rewrite Hp in Hp'. by injection Hp' as ->.
Qed.

Lemma ser_from p : props_storable p → ser (from_slice_props (enc_props p)) = Ok p.
Proof. intros Hp. by rewrite law_from_slice_props. Qed.

Lemma get_all_edge_props_spec s t l :
  in_u64 s → in_u64 t → valid_name l →
  ∃ L, get_all_edge_props s t l d = Ok L ∧ parallel s t l L.
Proof.
  intros Hs Ht Hl. destruct (scan_parallel s t l) as (L & HL & EL); [done..|].
  exists L. split; [|done]. unfold get_all_edge_props.
  rewrite (scan_step (etabs_start g d Hr)), EL. cbn [mbind result_bind].
  assert (∀ a b, (a, b) ∈ L → in_u64 a ∧ props_storable b) as Hv.
  { intros q p Hp%HL. by apply edge_valid in Hp as [(? & ? & ? & ?) ?]. }
  clear -Hv ML. induction L as [|[q p] L IH]; [done|]. cbn.
  destruct (Hv q p) as [Hq Hp]; [by left|]. rewrite ser_from by done. cbn.
  rewrite IH by (intros; apply Hv; by right). cbn. by rewrite edge_seq_from_eid_key.
Qed.

Lemma get_edge_properties_at_spec s t l q :
  valid_eid (s, t, l, q) →
  get_edge_properties_at s t l q d = Ok (default ∅ (g_edges g !! ((s, t, l, q) : eid))).
Proof.
  intros He. unfold get_edge_properties_at. rewrite kv_get_trows by (done || apply Hr).
  cbn [mbind result_bind]. change (edge_props_key s t l q) with (eid_key (s, t, l, q)).
  rewrite (edges_ok_lookup _ _ _ (r_edges _ _ Hr) He).
  destruct (g_edges g !! _) as [p|] eqn:Ep; [|done]. cbn. apply ser_from. by eapply edge_valid.
Qed.

(** The oldest edge's properties, or none. *)
Lemma get_edge_properties_spec s t l :
  in_u64 s → in_u64 t → valid_name l →
  ∃ L, parallel s t l L ∧
    get_edge_properties s t l d = Ok (match L with (_, p) :: _ => p | [] => ∅ end).
Proof.
  intros Hs Ht Hl. destruct (scan_parallel s t l) as (L & HL & EL); [done..|].
  exists L. split; [done|]. unfold get_edge_properties.
  rewrite (scan_step (etabs_start g d Hr)), EL. cbn [mbind result_bind].
  destruct L as [|[q p] L]; [done|]. cbn. apply ser_from.
  eapply edge_valid, HL. by left.
Qed.

(** ** Property updates *)
Lemma repr_update_edge d' e p :
  is_Some (g_edges g !! e) → props_storable p →
  etabs d d' (trows d TABLE_ADJ_OUT) (trows d TABLE_ADJ_IN)
    (<[eid_key e := mkRow "" (enc_props p)]> (trows d TABLE_EDGE_PROPS))
    (λ l, N.of_nat (size (edges_typed (g_edges g) l))) (g_next_seq g) →
  repr (update_edge g e p) d'.
Proof.
  intros [p0 Hp0] Hp Hd. destruct (edge_valid _ _ Hp0) as [He _].
  assert (∀ e', is_Some (<[e := p]> (g_edges g) !! e') ↔ is_Some (g_edges g !! e')) as Hdom.
  { intros e'. rewrite lookup_insert_is_Some. destruct (decide (e = e')) as [->|]; naive_solver. }
  eapply repr_with_edges; [exact Hr|exact Hd|..].
  - apply edges_ok_insert; [apply Hr|done..].
  - eapply adj_ok_iff; [apply Hr|]. intros. unfold out_rel. by setoid_rewrite Hdom.
  - eapply adj_ok_iff; [apply Hr|]. intros. unfold in_rel. by setoid_rewrite Hdom.
  - intros l. rewrite <- !size_dom.
    assert (dom (edges_typed (<[e := p]> (g_edges g)) l) =@{gset eid}
            dom (edges_typed (g_edges g) l)) as ->; [|done].
    apply set_eq. intros e'. unfold edges_typed. rewrite !elem_of_dom. unfold is_Some.
    setoid_rewrite map_lookup_filter_Some. specialize (Hdom e'). unfold is_Some in Hdom.
    naive_solver.
  - apply Hr.
  - intros e' He'%Hdom. by apply (r_seq_fresh _ _ Hr).
  - intros e1 e2 H1%Hdom H2%Hdom. by apply (r_seq_inj _ _ Hr).
Qed.

Lemma set_all_edge_properties_at_spec s t l q p :
  is_Some (g_edges g !! ((s, t, l, q) : eid)) → props_storable p →
  ∃ d', set_all_edge_properties_at s t l q p d = (d', Ok ())
    ∧ repr (update_edge g (s, t, l, q) p) d'.
Proof.
  intros Hs Hp. unfold set_all_edge_properties_at.
  rewrite (run_bind _ _ d d (enc_props p)) by by unfold lift; rewrite ser_props.
  destruct (put_step (etabs_start g d Hr) (edge_props_key s t l q) (enc_props p))
    as (d1 & -> & H1). exists d1. split; [done|]. by apply repr_update_edge.
Qed.

Lemma set_prop_storable p k v : props_storable p → storable v → props_storable (set_prop p k v).
Proof.
  intros Hp Hv. unfold set_prop, props_storable. destruct (value_eqb _ _).
  - by apply map_Forall_delete.
  - by apply map_Forall_insert_2.
Qed.

Lemma set_edge_property_at_spec s t l q k v p :
  g_edges g !! ((s, t, l, q) : eid) = Some p → storable v →
  ∃ d', set_edge_property_at s t l q k v d = (d', Ok ())
    ∧ repr (update_edge g (s, t, l, q) (set_prop p k v)) d'.
Proof.
  intros Hp Hv. destruct (edge_valid _ _ Hp) as [He Hst]. unfold set_edge_property_at.
  rewrite (run_reads _ _ _ p) by (rewrite get_edge_properties_at_spec by done; by rewrite Hp).
  cbv zeta. apply set_all_edge_properties_at_spec; [by eauto|]. by apply set_prop_storable.
Qed.
End Reads.
