(* ===== verification/NodeSpec.v ===== *)
(** * Node operations implement the graph operations *)
From S2P Require Export EdgeSpec.

(** ** The labels of a node's edges *)
Section Labels.
Context (d : db) (t : string) (Hc : check_table t = Ok ()) (Ht : has_tbl d t).
Context (R : N → string → N → Prop) (HR : adj_ok (trows d t) R) (i : N) (Hi : in_u64 i).

Definition label_row (e : bytes * bytes) : string * list N :=
  (default "" (from_utf8 (drop 8 e.1)), decode_id_list e.2).

Lemma scan_adj k v :
  (k, v) ∈ scan (trows d t) (u64_to_be i) ↔
    ∃ l ids, valid_name l ∧ ids ≠ [] ∧ adj_ids (trows d t) i l = ids ∧ k = adj_key i l
      ∧ v = encode_id_list ids ∧ ids_ok ids.
Proof.
  rewrite elem_of_scan. split.
  - intros [Hp Hv]. destruct (trows d t !! k) as [r|] eqn:Er; [|done]. injection Hv as <-.
    destruct (adj_rows _ _ HR _ _ Er) as (i' & l & ids & Hi' & Hl & -> & Hne & Hok & Ev).
    apply adj_key_prefix in Hp as <-; [|done..].
    destruct (adj_lookup _ _ _ _ _ HR Hi Hl Er) as (ids' & _ & _ & Ev' & Eids).
    exists l, ids'. rewrite Ev' in Ev. apply (f_equal decode_id_list) in Ev.
    edestruct adj_lookup as (ids2 & ? & ? & ? & E2); [exact HR|exact Hi|exact Hl|exact Er|].
    rewrite Eids in E2. subst ids2. done.
  - intros (l & ids & Hl & Hne & Eids & -> & -> & Hok). split; [by apply adj_key_prefix|].
    destruct (trows d t !! adj_key i l) as [r|] eqn:Er.
    + destruct (adj_lookup _ _ _ _ _ HR Hi Hl Er) as (ids' & _ & _ & Ev & E'). simpl. congruence.
    + apply (adj_ids_nil _ _ _ _ HR Hi Hl) in Er. congruence.
Qed.

Lemma edge_labels_in_spec :
  ∃ L, edge_labels_in t i d = Ok L ∧ NoDup L.*1
    ∧ ∀ l ids, (l, ids) ∈ L ↔ valid_name l ∧ ids ≠ [] ∧ adj_ids (trows d t) i l = ids.
Proof.
  unfold edge_labels_in. rewrite kv_scan_trows by done. cbn [mbind result_bind].
  set (es := scan _ _).
  assert (∀ e, e ∈ es → ∃ l ids, valid_name l ∧ ids_ok ids
    ∧ e = (adj_key i l, encode_id_list ids)) as Hes.
  { intros [k v] (l & ids & ? & ? & ? & -> & -> & ?)%scan_adj. eauto. }
  assert (filter (λ e : bytes * bytes, 8 < length e.1) es = es) as ->.
  { apply list_filter_all. intros e (l & ids & Hl & _ & ->)%Hes. cbn [fst].
    rewrite length_adj_key. pose proof (valid_name_len l Hl). lia. }
  exists (label_row <$> es). split_and!.
  - apply collect_ok. intros e (l & ids & Hl & _ & ->)%Hes. unfold label_row. cbn [fst snd].
    by rewrite adj_key_label.
  - rewrite <- list_fmap_compose. apply NoDup_fmap_2_strong; [|by eapply NoDup_fmap_1, NoDup_scan_keys].
    intros e e' He He' E. pose proof He as (l & ids & Hl & Hok & ->)%Hes.
    pose proof He' as (l' & ids' & Hl' & Hok' & ->)%Hes. unfold label_row in E. cbn [fst snd compose] in E.
    rewrite !adj_key_label in E by done. simpl in E. subst l'.
    apply scan_adj in He as (l1 & i1 & _ & _ & E1 & K1 & -> & _).
    apply scan_adj in He' as (l2 & i2 & _ & _ & E2 & K2 & -> & _).
    apply adj_key_inj in K1 as [_ ->], K2 as [_ ->]; [|done..]. congruence.
  - intros l ids. rewrite list_elem_of_fmap. split.
    + intros ([k v] & E & (l1 & i1 & Hl & Hne & E1 & -> & -> & Hok)%scan_adj).
      unfold label_row in E. cbn [fst snd] in E. rewrite adj_key_label in E by done.
      rewrite decode_encode_id_list in E by done. simpl in E. by simplify_eq.
    + intros (Hl & Hne & Eids). exists (adj_key i l, encode_id_list ids).
      assert (ids_ok ids) as Hok by (rewrite <- Eids; by eapply adj_ids_ok).
      split; [|apply scan_adj; eauto 10]. unfold label_row. cbn [fst snd].
      by rewrite adj_key_label, decode_encode_id_list.
Qed.
End Labels.

(** ** The graph operations *)
Definition with_nodes (g : graph) (ns : gmap N NodeRecord) (id : N) : graph :=
  mkGraph ns (g_edges g) id (g_next_seq g).
Definition add_node (g : graph) (ls : list string) (p : Properties) : graph :=
  with_nodes g (<[g_next_id g := mkNodeRecord (sort_labels ls) p]> (g_nodes g)) (g_next_id g + 1).
Definition update_node (g : graph) (i : N) (rec : NodeRecord) : graph :=
  with_nodes g (<[i := rec]> (g_nodes g)) (g_next_id g).
Definition remove_node (g : graph) (i : N) : graph :=
  mkGraph (base.delete i (g_nodes g))
    (filter (λ e, eid_src e.1 ≠ i ∧ eid_dst e.1 ≠ i) (g_edges g))
    (g_next_id g) (g_next_seq g).

(** ** Frames *)
Record same_edges (d d' : db) : Prop := {
  se_out_tbl : has_tbl d TABLE_ADJ_OUT → has_tbl d' TABLE_ADJ_OUT;
  se_in_tbl : has_tbl d TABLE_ADJ_IN → has_tbl d' TABLE_ADJ_IN;
  se_props_tbl : has_tbl d TABLE_EDGE_PROPS → has_tbl d' TABLE_EDGE_PROPS;
  se_out : trows d' TABLE_ADJ_OUT = trows d TABLE_ADJ_OUT;
  se_in : trows d' TABLE_ADJ_IN = trows d TABLE_ADJ_IN;
  se_props : trows d' TABLE_EDGE_PROPS = trows d TABLE_EDGE_PROPS;
  se_types l : stored d' (EDGE_TYPE_COUNT_PREFIX +:+ l) = stored d (EDGE_TYPE_COUNT_PREFIX +:+ l);
  se_next : meta d' NEXT_EDGE_SEQ = meta d NEXT_EDGE_SEQ;
}.

(** The node part of the tables of [d], next to the edge part of [d0]. *)
Record ntabs (d0 d : db) (mn : gmap bytes row) (cnt : string → N) (id : N) : Prop := {
  nt_same : same_edges d0 d;
  nt_nodes_tbl : has_tbl d TABLE_NODES;
  nt_meta_tbl : has_tbl d METADATA;
  nt_nodes : trows d TABLE_NODES = mn;
  nt_count l : stored d (LABEL_COUNT_PREFIX +:+ l) = cnt l;
  nt_next : meta d NEXT_NODE_ID = Some (u64_to_be id);
}.

Lemma ntabs_ext d0 d mn cnt cnt' id :
  ntabs d0 d mn cnt id → (∀ l, cnt l = cnt' l) → ntabs d0 d mn cnt' id.
Proof. intros [] H. split; auto. intros l. by rewrite nt_count0, H. Qed.

Section Ntabs.
Context {d0 d : db} {mn : gmap bytes row} {cnt : string → N} {id : N}.
Context (Hd : ntabs d0 d mn cnt id).

Lemma ntabs_upd m : ntabs d0 (upd d TABLE_NODES m) m cnt id.
Proof.
  destruct Hd as [[]]. split; [split|..]; intros;
    rewrite ?has_tbl_upd, ?trows_upd_ne, ?stored_upd, ?meta_upd by done;
    auto using trows_upd_eq.
Qed.
Lemma ntabs_set_next n : ntabs d0 (set_meta d NEXT_NODE_ID n) mn cnt n.
Proof.
  destruct Hd as [[]]. split; [split|..]; intros;
    rewrite ?has_tbl_set_meta, ?trows_set_meta, ?stored_set_meta by done; auto.
  - by rewrite meta_set_meta, decide_False.
  - by rewrite meta_set_meta, decide_True, nt_next0.
Qed.
Lemma ntabs_put_count l n :
  in_u64 n →
  ntabs d0 (put_stored d (LABEL_COUNT_PREFIX +:+ l) n) mn
    (λ l', if decide (l = l') then n else cnt l') id.
Proof.
  intros Hn. destruct Hd as [[]]. split; [split|..]; intros;
    rewrite ?has_tbl_put_stored, ?trows_put_stored, ?meta_put_stored by done; auto.
  - by rewrite stored_put, decide_False.
  - rewrite stored_put by done. destruct (decide (l = l0)) as [->|Hne].
    + by rewrite decide_True.
    + rewrite decide_False; [done|]. by intros ?%(inj (String.append _)).
Qed.
Lemma ntabs_set_count l n :
  in_u64 n →
  ntabs d0 (set_stored d (LABEL_COUNT_PREFIX +:+ l) n) mn
    (λ l', if decide (l = l') then n else cnt l') id.
Proof.
  intros Hn. destruct Hd as [[]]. split; [split|..]; intros;
    rewrite ?has_tbl_set_stored, ?trows_set_stored, ?meta_set_stored by done; auto.
  - by rewrite stored_set, decide_False.
  - rewrite stored_set by done. destruct (decide (l = l0)) as [->|Hne].
    + by rewrite decide_True.
    + rewrite decide_False; [done|]. by intros ?%(inj (String.append _)).
Qed.

Lemma put_node_step k l v :
  ∃ d', put_node k l v d = (d', Ok ()) ∧ ntabs d0 d' (<[k := mkRow l v]> mn) cnt id.
Proof.
  destruct Hd as [? [T HT] ? En ? ?]. pose proof (ntabs_upd (<[k := mkRow l v]> mn)) as Hu.
  eexists. split; [|exact Hu]. unfold put_node, exec. cbn [sql_upsert MemDb].
  unfold db_upsert, upd. rewrite HT. unfold trows in En. rewrite HT in En. by subst.
Qed.
Lemma delete_node_step k :
  ∃ d', (∃ b, kv_delete TABLE_NODES k d = (d', Ok b)) ∧ ntabs d0 d' (base.delete k mn) cnt id.
Proof.
  destruct Hd as [? Ht ? En ? ?]. eexists. split.
  - eexists. by rewrite (kv_delete_trows d TABLE_NODES eq_refl Ht).
  - rewrite En. apply ntabs_upd.
Qed.
Lemma next_id_step :
  in_u64 id → in_u64 (id + 1) →
  ∃ d', next_node_id d = (d', Ok id) ∧ ntabs d0 d' mn cnt (id + 1).
Proof.
  intros H1 H2. eexists. rewrite (next_node_id_run d (nt_meta_tbl _ _ _ _ _ Hd) id);
    [|apply Hd|done]. rewrite decide_True by done. split; [done|]. by apply ntabs_set_next.
Qed.
Lemma increment_label_step l :
  in_u64 (cnt l + 1) →
  ∃ d', increment_label_count l d = (d', Ok ())
    ∧ ntabs d0 d' mn (λ l', if decide (l = l') then (cnt l + 1)%N else cnt l') id.
Proof.
  intros Hn. eexists. rewrite (increment_label_count_run d (nt_meta_tbl _ _ _ _ _ Hd)).
  split; [done|]. rewrite (nt_count _ _ _ _ _ Hd), u64_add_small by done.
  by apply ntabs_set_count.
Qed.
Lemma decrement_label_step l :
  ∃ d', decrement_label_count l d = (d', Ok ())
    ∧ ntabs d0 d' mn (λ l', if decide (l = l') then (cnt l - 1)%N else cnt l') id.
Proof.
  eexists. rewrite (decrement_label_count_run d (nt_meta_tbl _ _ _ _ _ Hd)).
  split; [done|]. rewrite (nt_count _ _ _ _ _ Hd). apply ntabs_put_count.
  rewrite <- (nt_count _ _ _ _ _ Hd). unfold in_u64.
  pose proof (stored_in_u64 d (LABEL_COUNT_PREFIX +:+ l)) as H. unfold in_u64 in H. lia.
Qed.
End Ntabs.

(** The counter loops. *)
Definition bump (ls : list string) (l : string) : N := if decide (l ∈ ls) then 1%N else 0%N.

Lemma bump_cons x ls l : bump (x :: ls) l = if decide (x = l) then 1%N else bump ls l.
Proof.
  unfold bump. destruct (decide (x = l)) as [->|Hne].
  - by rewrite decide_True by left.
  - destruct (decide (l ∈ ls)).
    + by rewrite decide_True by (by right).
    + by rewrite decide_False by (by intros [->|?]%elem_of_cons).
Qed.
Lemma bump_notin ls l : l ∉ ls → bump ls l = 0%N.
Proof. intros. unfold bump. by rewrite decide_False. Qed.

Lemma increments_step ls d0 d mn cnt id :
  NoDup ls → ntabs d0 d mn cnt id → (∀ l, l ∈ ls → in_u64 (cnt l + 1)) →
  ∃ d', for_each increment_label_count ls d = (d', Ok ())
    ∧ ntabs d0 d' mn (λ l, (cnt l + bump ls l)%N) id.
Proof.
  revert d cnt. induction ls as [|x ls IH]; intros d cnt Hnd Hd Hb.
  { exists d. split; [done|]. eapply ntabs_ext; [done|]. intros l. unfold bump. simpl. lia. }
  apply NoDup_cons in Hnd as [Hx Hnd].
  destruct (increment_label_step Hd x) as (d1 & E1 & H1); [apply Hb; left|].
  destruct (IH d1 _ Hnd H1) as (d2 & E2 & H2).
  { intros l Hl. rewrite decide_False by (intros ->; done). apply Hb. by right. }
  exists d2. split.
  - cbn [for_each]. by rewrite (run_bind _ _ _ _ _ E1).
  - eapply ntabs_ext; [done|]. intros l. cbn beta. rewrite bump_cons.
    destruct (decide (x = l)) as [->|]; [rewrite bump_notin by done; lia|done].
Qed.

Lemma decrements_step ls d0 d mn cnt id :
  NoDup ls → ntabs d0 d mn cnt id →
  ∃ d', for_each decrement_label_count ls d = (d', Ok ())
    ∧ ntabs d0 d' mn (λ l, (cnt l - bump ls l)%N) id.
Proof.
  revert d cnt. induction ls as [|x ls IH]; intros d cnt Hnd Hd.
  { exists d. split; [done|]. eapply ntabs_ext; [done|]. intros l. unfold bump. simpl. lia. }
  apply NoDup_cons in Hnd as [Hx Hnd].
  destruct (decrement_label_step Hd x) as (d1 & E1 & H1).
  destruct (IH d1 _ Hnd H1) as (d2 & E2 & H2).
  exists d2. split.
  - cbn [for_each]. by rewrite (run_bind _ _ _ _ _ E1).
  - eapply ntabs_ext; [done|]. intros l. cbn beta. rewrite bump_cons.
    destruct (decide (x = l)) as [->|]; [rewrite bump_notin by done; lia|done].
Qed.

(** ** Counting labelled nodes *)
Lemma size_labelled_insert ns i rec l :
  ns !! i = None →
  N.of_nat (size (nodes_labelled (<[i := rec]> ns) l)) =
    (N.of_nat (size (nodes_labelled ns l)) + bump (rec_labels rec) l)%N.
Proof.
  intros Hi. unfold nodes_labelled. rewrite size_filter_insert_fresh by done.
  cbn [fst snd]. unfold bump. case_decide; lia.
Qed.
Lemma size_labelled_delete ns i rec l :
  ns !! i = Some rec →
  N.of_nat (size (nodes_labelled (base.delete i ns) l)) =
    (N.of_nat (size (nodes_labelled ns l)) - bump (rec_labels rec) l)%N.
Proof.
  intros Hi. unfold nodes_labelled. rewrite (size_filter_delete _ ns i rec Hi).
  cbn [fst snd]. unfold bump. case_decide; lia.
Qed.
Lemma size_labelled_update ns i rec rec' l :
  ns !! i = Some rec →
  N.of_nat (size (nodes_labelled (<[i := rec']> ns) l)) =
    (N.of_nat (size (nodes_labelled ns l)) - bump (rec_labels rec) l + bump (rec_labels rec') l)%N.
Proof.
  intros Hi. rewrite <- insert_delete_eq, size_labelled_insert by apply lookup_delete_eq.
  by rewrite (size_labelled_delete _ _ _ _ Hi).
Qed.
Lemma size_labelled_bump ns i rec l :
  ns !! i = Some rec → (bump (rec_labels rec) l <= N.of_nat (size (nodes_labelled ns l)))%N.
Proof.
  intros Hi. unfold nodes_labelled. rewrite (size_filter_delete _ ns i rec Hi).
  cbn [fst snd]. unfold bump. case_decide; lia.
Qed.

(** ** The [nodes] table *)
Lemma str_le_total : Total str_le.
Proof. intros a b. apply (total bytes_le). Qed.
Lemma str_le_trans : Transitive str_le.
Proof. intros a b c. apply (transitivity (R := bytes_le)). Qed.

Lemma sort_labels_perm ls : sort_labels ls ≡ₚ ls.
Proof. apply merge_sort_Permutation. Qed.
Lemma sort_labels_sorted ls : StronglySorted str_le (sort_labels ls).
Proof.
  pose proof str_le_total. pose proof str_le_trans. apply (StronglySorted_merge_sort str_le).
Qed.

Section NodeTable.
Context {Mp : Msgpack}.

Lemma valid_record_sorted ls p :
  NoDup ls → Forall valid_name ls → props_storable p →
  valid_record (mkNodeRecord (sort_labels ls) p).
Proof.
  intros Hn Hv Hp. split_and!; cbn [rec_labels rec_properties]; [apply sort_labels_sorted|..|done].
  - by rewrite sort_labels_perm.
  - by rewrite sort_labels_perm.
Qed.

Lemma nodes_ok_insert m ns i rec :
  nodes_ok m ns → in_u64 i → valid_record rec →
  nodes_ok (<[u64_to_be i := mkRow (join ":" (rec_labels rec)) (enc_record rec)]> m)
    (<[i := rec]> ns).
Proof.
  intros [H1 H2] Hi Hv. split.
  - intros k r [[<- <-]|[Hk Hr]]%lookup_insert_Some.
    + exists i. by rewrite lookup_insert_eq.
    + destruct (H1 _ _ Hr) as (i' & ? & -> & ?). exists i'.
      rewrite lookup_insert_ne; [done|]. by intros ->.
  - intros i' rec' [[<- <-]|[Hk Hr]]%lookup_insert_Some.
    + by rewrite lookup_insert_eq.
    + destruct (H2 _ _ Hr) as (? & ? & ?). split_and!; [done..|].
      rewrite lookup_insert_ne; [done|]. by intros ?%u64_to_be_inj.
Qed.
Lemma nodes_ok_delete m ns i :
  nodes_ok m ns → in_u64 i → nodes_ok (base.delete (u64_to_be i) m) (base.delete i ns).
Proof.
  intros [H1 H2] Hi. split.
  - intros k r [Hk Hr]%lookup_delete_Some. destruct (H1 _ _ Hr) as (i' & ? & -> & ?).
    exists i'. rewrite lookup_delete_ne; [done|]. by intros ->.
  - intros i' rec' [Hk Hr]%lookup_delete_Some. destruct (H2 _ _ Hr) as (? & ? & ?).
    split_and!; [done..|]. rewrite lookup_delete_ne; [done|]. by intros ?%u64_to_be_inj.
Qed.
Lemma nodes_ok_lookup m ns i :
  nodes_ok m ns → in_u64 i →
  m !! u64_to_be i = (λ rec, mkRow (join ":" (rec_labels rec)) (enc_record rec)) <$> ns !! i.
Proof.
  intros [H1 H2] Hi. destruct (ns !! i) as [rec|] eqn:E.
  - by destruct (H2 _ _ E) as (_ & _ & ->).
  - destruct (m !! u64_to_be i) as [r|] eqn:Er; [|done].
    destruct (H1 _ _ Er) as (i' & Hi' & Ek & Hs). apply u64_to_be_inj in Ek as <-; [|done..].
    rewrite E in Hs. by destruct Hs.
Qed.

Lemma ntabs_start g d :
  repr g d →
  ntabs d d (trows d TABLE_NODES) (λ l, N.of_nat (size (nodes_labelled (g_nodes g) l))) (g_next_id g).
Proof. intros []. by split. Qed.

Lemma repr_with_nodes g d0 d mn cnt ns id :
  repr g d0 → ntabs d0 d mn cnt id → nodes_ok mn ns →
  (∀ l, cnt l = N.of_nat (size (nodes_labelled ns l))) → in_u64 id →
  (∀ i, is_Some (ns !! i) → (i < id)%N) →
  repr (with_nodes g ns id) d.
Proof.
  intros [] [[]] ? Hc ? Hf. subst. split; simpl; auto.
  - by rewrite se_props0.
  - by rewrite se_out0.
  - by rewrite se_in0.
  - intros l. by rewrite nt_count0.
  - intros l. by rewrite se_types0.
  - by rewrite se_next0.
Qed.
End NodeTable.

(** ** The operations *)
Section Operations.
Context {Mp : Msgpack} {ML : MsgpackLaws}.

Lemma ser_record r : ser (to_vec_record r) = Ok (enc_record r).
Proof. by rewrite law_to_vec_record. Qed.

Lemma labelled_bound g d l :
  repr g d → (N.of_nat (size (nodes_labelled (g_nodes g) l)) <= g_next_id g)%N.
Proof.
  intros Hr. pose proof (nodes_bound Hr). unfold nodes_labelled.
  pose proof (size_filter_le (λ n : N * NodeRecord, l ∈ rec_labels n.2) (g_nodes g)). lia.
Qed.

Lemma fresh_node g d : repr g d → g_nodes g !! g_next_id g = None.
Proof. intros Hr. apply eq_None_not_Some. intros Hx%(r_id_fresh _ _ Hr). lia. Qed.

Lemma create_node_spec g d ls p :
  repr g d → NoDup ls → Forall valid_name ls → valid_keys p → props_storable p →
  in_u64 (g_next_id g + 1) →
  ∃ d', create_node ls p d = (d', Ok (g_next_id g)) ∧ repr (add_node g ls p) d'.
Proof.
  intros Hr Hnd Hls Hk Hp Hid. pose proof (fresh_node g d Hr) as Hfresh. unfold create_node.
  rewrite (run_bind _ _ d d ()).
  2:{ unfold lift. by rewrite (proj2 (for_each_r_ok validate_name ls)); [|apply Forall_forall]. }
  rewrite (run_bind _ _ d d ()) by by unfold lift; rewrite valid_keys_run.
  destruct (next_id_step (ntabs_start g d Hr)) as (d1 & E1 & H1); [apply Hr|done|].
  rewrite (run_bind _ _ _ _ _ E1). cbv zeta.
  set (rec := mkNodeRecord (sort_labels ls) p).
  rewrite (run_bind _ _ d1 d1 (enc_record rec)) by by unfold lift; rewrite ser_record.
  destruct (put_node_step H1 (u64_to_be (g_next_id g)) (join ":" (sort_labels ls)) (enc_record rec))
    as (d2 & E2 & H2). rewrite (run_bind _ _ _ _ _ E2).
  destruct (increments_step (sort_labels ls) _ _ _ _ _ (proj2 (NoDup_Permutation_proper _ _ (sort_labels_perm ls)) Hnd) H2)
    as (d3 & E3 & H3).
  { intros l _. pose proof (labelled_bound g d l Hr). unfold in_u64 in *. lia. }
  rewrite (run_bind _ _ _ _ _ E3). exists d3. split; [done|].
  eapply repr_with_nodes; [exact Hr|exact H3|..].
  - apply (nodes_ok_insert _ _ _ rec); [apply Hr|apply Hr|by apply valid_record_sorted].
  - intros l. cbn beta. by rewrite (size_labelled_insert _ _ _ _ Hfresh).
  - done.
  - intros i [<-|[_ Hi]]%lookup_insert_is_Some; [lia|]. apply (r_id_fresh _ _ Hr) in Hi. lia.
Qed.

Section Reads.
Context {g : graph} {d : db} (Hr : repr g d).

Lemma node_valid i rec : g_nodes g !! i = Some rec → in_u64 i ∧ valid_record rec.
Proof. intros H. destruct (r_nodes _ _ Hr) as [_ Hn]. by destruct (Hn _ _ H) as (? & ? & _). Qed.

Lemma get_node_row i :
  in_u64 i →
  kv_get TABLE_NODES (u64_to_be i) d = Ok (enc_record <$> g_nodes g !! i).
Proof.
  intros Hi. rewrite kv_get_trows by (done || apply Hr).
  rewrite (nodes_ok_lookup _ _ _ (r_nodes _ _ Hr) Hi). by destruct (g_nodes g !! i).
Qed.

Lemma read_record_run i :
  in_u64 i →
  read_record i d = ok_or (g_nodes g !! i) (GraphError.NodeNotFound i None).
Proof.
  intros Hi. unfold read_record. rewrite get_node_row by done. cbn [mbind result_bind].
  destruct (g_nodes g !! i) as [rec|] eqn:E; [|done].
  cbn [fmap option_fmap option_map ok_or mbind result_bind].
  apply node_valid in E as (_ & _ & _ & _ & Hst). by rewrite law_from_slice_record.
Qed.

Lemma get_node_run i :
  in_u64 i →
  get_node i d =
    match g_nodes g !! i with
    | Some rec => Ok (mkNode i (rec_labels rec) (rec_properties rec))
    | None => Err (GraphError.NodeNotFound i None)
    end.
Proof. intros Hi. unfold get_node. rewrite read_record_run by done. by destruct (g_nodes g !! i). Qed.

Lemma node_exists_run i : in_u64 i → node_exists i d = Ok (bool_decide (is_Some (g_nodes g !! i))).
Proof.
  intros Hi. unfold node_exists. cbn [sql_prepare sql_query_one MemDb].
  destruct (r_nodes_tbl _ _ Hr) as [T HT]. unfold db_prepare, db_query_one, on_tbl. rewrite HT.
  assert (tbl_rows T = trows d TABLE_NODES) as -> by (unfold trows; by rewrite HT).
  rewrite (nodes_ok_lookup _ _ _ (r_nodes _ _ Hr) Hi). by destruct (g_nodes g !! i).
Qed.

Lemma write_record_step d0 d1 mn cnt id i rec :
  ntabs d0 d1 mn cnt id →
  ∃ d', write_record i rec d1 = (d', Ok ())
    ∧ ntabs d0 d' (<[u64_to_be i := mkRow (join ":" (rec_labels rec)) (enc_record rec)]> mn) cnt id.
Proof.
  intros Hd. unfold write_record.
  rewrite (run_bind _ _ d1 d1 (enc_record rec)) by by unfold lift; rewrite ser_record.
  by apply put_node_step.
Qed.

(** The tables after an update, whatever the counters became. *)
Lemma repr_update_node d' cnt i rec rec' :
  g_nodes g !! i = Some rec → valid_record rec' →
  (∀ l, cnt l = (N.of_nat (size (nodes_labelled (g_nodes g) l)) - bump (rec_labels rec) l
                 + bump (rec_labels rec') l)%N) →
  ntabs d d' (<[u64_to_be i := mkRow (join ":" (rec_labels rec')) (enc_record rec')]>
                (trows d TABLE_NODES)) cnt (g_next_id g) →
  repr (update_node g i rec') d'.
Proof.
  intros Hi Hv Hc Hd. eapply repr_with_nodes; [exact Hr|exact Hd|..].
  - apply nodes_ok_insert; [apply Hr|by eapply node_valid|done].
  - intros l. by rewrite (size_labelled_update _ _ _ _ _ Hi), Hc.
  - apply Hr.
  - intros j [<-|[_ Hj]]%lookup_insert_is_Some; apply (r_id_fresh _ _ Hr); eauto.
Qed.

(** An update that keeps the labels. *)
Lemma write_props_spec i rec p :
  g_nodes g !! i = Some rec → props_storable p →
  ∃ d', write_record i (mkNodeRecord (rec_labels rec) p) d = (d', Ok ())
    ∧ repr (update_node g i (mkNodeRecord (rec_labels rec) p)) d'.
Proof.
  intros Hi Hp. destruct (write_record_step _ _ _ _ _ i (mkNodeRecord (rec_labels rec) p)
    (ntabs_start g d Hr)) as (d1 & -> & H1). exists d1. split; [done|].
  pose proof (node_valid i rec Hi) as (_ & ? & ? & ? & ?).
  eapply repr_update_node; [exact Hi|by split_and!| |exact H1].
  intros l. cbn [rec_labels]. pose proof (size_labelled_bump _ _ _ l Hi). lia.
Qed.

Lemma read_run {A} (k : NodeRecord → M db GraphError A) i :
  in_u64 i →
  (reads (read_record i) ≫= k) d =
    match g_nodes g !! i with
    | Some rec => k rec d
    | None => (d, Err (GraphError.NodeNotFound i None))
    end.
Proof.
  intros Hi. pose proof (read_record_run i Hi) as E. destruct (g_nodes g !! i).
  - by apply run_reads.
  - by apply run_reads_err.
Qed.

Lemma set_node_property_spec i rec k v :
  g_nodes g !! i = Some rec → valid_name k → storable v →
  ∃ d', set_node_property i k v d = (d', Ok ())
    ∧ repr (update_node g i (mkNodeRecord (rec_labels rec) (set_prop (rec_properties rec) k v))) d'.
Proof.
  intros Hi Hk Hv. destruct (node_valid _ _ Hi) as (Hu & _ & _ & _ & Hst). unfold set_node_property.
  rewrite (run_bind _ _ d d ()) by by unfold lift; rewrite Hk.
  rewrite read_run, Hi by done. apply write_props_spec; [done|]. by apply set_prop_storable.
Qed.
Lemma remove_node_property_spec i rec k :
  g_nodes g !! i = Some rec →
  ∃ d', remove_node_property i k d = (d', Ok ())
    ∧ repr (update_node g i (mkNodeRecord (rec_labels rec) (base.delete k (rec_properties rec)))) d'.
Proof.
  intros Hi. destruct (node_valid _ _ Hi) as (Hu & _ & _ & _ & Hst). unfold remove_node_property.
  rewrite read_run, Hi by done. apply write_props_spec; [done|]. by apply map_Forall_delete.
Qed.
Lemma set_all_node_properties_spec i rec p :
  g_nodes g !! i = Some rec → props_storable p →
  ∃ d', set_all_node_properties i p d = (d', Ok ())
    ∧ repr (update_node g i (mkNodeRecord (rec_labels rec) p)) d'.
Proof.
  intros Hi Hp. destruct (node_valid _ _ Hi) as (Hu & _). unfold set_all_node_properties.
  rewrite read_run, Hi by done. by apply write_props_spec.
Qed.

(** ** Labels *)
Lemma bump_filter_ne ls x l :
  bump (filter (λ l, l ≠ x) ls) l = if decide (x = l) then 0%N else bump ls l.
Proof.
  unfold bump. destruct (decide (x = l)) as [->|Hne].
  - rewrite decide_False; [done|]. by intros [? _]%list_elem_of_filter.
  - destruct (decide (l ∈ ls)).
    + rewrite decide_True; [done|]. apply list_elem_of_filter. auto.
    + rewrite decide_False; [done|]. by intros [_ ?]%list_elem_of_filter.
Qed.
Lemma bump_perm ls ls' l : ls ≡ₚ ls' → bump ls l = bump ls' l.
Proof. intros H. unfold bump. by repeat case_decide; rewrite H in *. Qed.

Lemma StronglySorted_filter {A} (R : A → A → Prop) (P : A → Prop) `{!∀ x, Decision (P x)} (l : list A) :
  StronglySorted R l → StronglySorted R (filter P l).
Proof.
  induction 1 as [|x l Hs IH Hx]; [constructor|]. rewrite filter_cons.
  case_decide; [|done]. constructor; [done|]. apply Forall_forall.
  intros y [_ Hy]%list_elem_of_filter. by apply (proj1 (Forall_forall _ _) Hx).
Qed.

Lemma remove_node_label_spec i rec l :
  g_nodes g !! i = Some rec →
  ∃ d', remove_node_label i l d = (d', Ok ())
    ∧ repr (update_node g i (mkNodeRecord (filter (λ l', l' ≠ l) (rec_labels rec))
              (rec_properties rec))) d'.
Proof.
  intros Hi. destruct (node_valid _ _ Hi) as (Hu & Hv). pose proof Hv as (Hso & Hnd & Hvn & Hst).
  unfold remove_node_label. rewrite read_run, Hi by done.
  assert (valid_record (mkNodeRecord (filter (λ l', l' ≠ l) (rec_labels rec))
            (rec_properties rec))) as Hv'.
  { split_and!; cbn [rec_labels rec_properties]; [by apply StronglySorted_filter|..|done].
    - by apply NoDup_filter.
    - apply Forall_forall. intros x [_ Hx]%list_elem_of_filter.
      by apply (proj1 (Forall_forall _ _) Hvn). }
  destruct (decide (l ∉ rec_labels rec)) as [Hl|Hl].
  - exists d. split; [done|]. rewrite list_filter_all by (intros x Hx ->; done).
    assert (update_node g i (mkNodeRecord (rec_labels rec) (rec_properties rec)) = g) as ->; [|done].
    unfold update_node, with_nodes. destruct rec, g. simpl in *. by rewrite insert_id.
  - apply dec_stable in Hl. destruct (write_record_step _ _ _ _ _ i
      (mkNodeRecord (filter (λ l', l' ≠ l) (rec_labels rec)) (rec_properties rec))
      (ntabs_start g d Hr)) as (d1 & E1 & H1). rewrite (run_bind _ _ _ _ _ E1).
    destruct (decrement_label_step H1 l) as (d2 & -> & H2). exists d2. split; [done|].
    eapply repr_update_node; [exact Hi|done| |exact H2].
    intros l'. cbn beta. cbn [rec_labels]. rewrite bump_filter_ne.
    pose proof (size_labelled_bump _ _ _ l' Hi) as Hb.
    destruct (decide (l = l')) as [<-|]; [|lia]. unfold bump in *. rewrite decide_True by done. lia.
Qed.

Lemma add_node_label_spec i rec l :
  g_nodes g !! i = Some rec → valid_name l →
  ∃ d', add_node_label i l d = (d', Ok ())
    ∧ repr (update_node g i (if decide (l ∈ rec_labels rec) then rec else
              mkNodeRecord (sort_labels (rec_labels rec ++ [l])) (rec_properties rec))) d'.
Proof.
  intros Hi Hl. destruct (node_valid _ _ Hi) as (Hu & Hv). pose proof Hv as (Hso & Hnd & Hvn & Hst).
  unfold add_node_label. rewrite read_run, Hi by done. case_decide as Hin.
  - exists d. split; [done|]. assert (update_node g i rec = g) as ->; [|done].
    unfold update_node, with_nodes. destruct g. simpl in *. by rewrite insert_id.
  - set (rec' := mkNodeRecord (sort_labels (rec_labels rec ++ [l])) (rec_properties rec)).
    destruct (write_record_step _ _ _ _ _ i rec' (ntabs_start g d Hr)) as (d1 & E1 & H1).
    rewrite (run_bind _ _ _ _ _ E1).
    destruct (increment_label_step H1 l) as (d2 & -> & H2).
    { pose proof (nodes_bound Hr). pose proof (r_id_bound _ _ Hr) as Hb.
      assert (size (nodes_labelled (g_nodes g) l) < size (g_nodes g)); [|unfold in_u64 in *; lia].
      unfold nodes_labelled. rewrite <- (insert_delete_id (g_nodes g) i rec Hi).
      rewrite size_filter_insert_fresh, map_size_insert_None by apply lookup_delete_eq.
      rewrite decide_False by done.
      pose proof (size_filter_le (λ n : N * NodeRecord, l ∈ rec_labels n.2) (base.delete i (g_nodes g))).
      lia. }
    exists d2. split; [done|]. eapply repr_update_node; [exact Hi| | |exact H2].
    + apply valid_record_sorted; [| |done].
      * apply NoDup_app. split_and!; [done|set_solver|apply NoDup_singleton].
      * apply Forall_app. by repeat constructor.
    + intros l'. cbn beta.
      assert (bump (rec_labels rec') l' = bump ([l] ++ rec_labels rec) l') as ->.
      { apply bump_perm. unfold rec'. cbn [rec_labels]. rewrite sort_labels_perm.
        apply Permutation_app_comm. }
      change ([l] ++ rec_labels rec) with (l :: rec_labels rec). rewrite bump_cons. pose proof (size_labelled_bump _ _ _ l' Hi) as Hb.
      destruct (decide (l = l')) as [<-|]; [|lia]. rewrite (bump_notin (rec_labels rec)) by done. lia.
Qed.
End Reads.
End Operations.

(** * Cascading deletion

    [delete_node] removes a node together with every edge that touches it: no
    edge is left dangling and all counters agree with what is left. *)

Definition without (g : graph) (E : edges) : graph := with_edges g E (g_next_seq g).

(** Removing several pairs, one after the other. *)
Definition remove_pairs (g : graph) (ts : list (N * N * string)) : graph :=
  foldl (λ g t, remove_edges g t.1.1 t.1.2 t.2) g ts.

Lemma remove_pairs_eq g ts :
  remove_pairs g ts = without g (filter (λ e, eid_ends e.1 ∉ ts) (g_edges g)).
Proof.
  revert g. induction ts as [|[[s t] l] ts IH]; intros g.
  - unfold without, with_edges. destruct g. cbn. f_equal. symmetry. apply map_filter_id. set_solver.
  - cbn [remove_pairs foldl]. fold (remove_pairs (remove_edges g s t l) ts). rewrite IH.
    unfold without, remove_edges, with_edges. cbn [g_edges g_nodes g_next_id g_next_seq]. f_equal.
    rewrite map_filter_filter. apply map_filter_ext. intros e p _. cbn [fst snd].
    rewrite not_elem_of_cons. tauto.
Qed.

Section Delete.
Context {Mp : Msgpack} {ML : MsgpackLaws}.

Lemma delete_loop {A} (f : A → N * N * string) (xs : list A) g d :
  repr g d → (∀ x, x ∈ xs → in_u64 (f x).1.1 ∧ in_u64 (f x).1.2 ∧ valid_name (f x).2) →
  ∃ d', for_each (λ x, delete_edge (f x).1.1 (f x).1.2 (f x).2) xs d = (d', Ok ())
    ∧ repr (remove_pairs g (f <$> xs)) d'.
Proof.
  revert g d. induction xs as [|x xs IH]; intros g d Hr Hx; [by exists d|].
  destruct (Hx x) as (Ha & Hb & Hc); [by left|].
  destruct (delete_edge_spec g d (f x).1.1 (f x).1.2 (f x).2) as (d1 & E1 & H1); [done..|].
  destruct (IH _ _ H1) as (d2 & E2 & H2). { intros y Hy. apply Hx. by right. }
  exists d2. split; [|done]. cbn [for_each]. by rewrite (run_bind _ _ _ _ _ E1).
Qed.

Definition pairs (f : string → N → N * N * string) (L : list (string * list N))
    : list (N * N * string) := L ≫= λ e, f e.1 <$> e.2.

Lemma delete_loops (f : string → N → N * N * string) L g d :
  repr g d →
  (∀ l ids x, (l, ids) ∈ L → x ∈ ids →
     in_u64 (f l x).1.1 ∧ in_u64 (f l x).1.2 ∧ valid_name (f l x).2) →
  ∃ d', for_each (λ e : string * list N,
          for_each (λ x, delete_edge (f e.1 x).1.1 (f e.1 x).1.2 (f e.1 x).2) e.2) L d = (d', Ok ())
    ∧ repr (remove_pairs g (pairs f L)) d'.
Proof.
  revert g d. induction L as [|[l ids] L IH]; intros g d Hr Hx; [by exists d|].
  destruct (delete_loop (f l) ids g d Hr) as (d1 & E1 & H1).
  { intros x Hin. eapply Hx; [by left|done]. }
  destruct (IH _ _ H1) as (d2 & E2 & H2). { intros l' ids' x Hl'. apply Hx. by right. }
  exists d2. split.
  - cbn [for_each]. by rewrite (run_bind _ _ _ _ _ E1).
  - unfold pairs. cbn [mbind list_bind fst snd]. unfold remove_pairs. by rewrite foldl_app.
Qed.

Lemma elem_of_pairs f L x :
  x ∈ pairs f L ↔ ∃ l ids y, (l, ids) ∈ L ∧ y ∈ ids ∧ x = f l y.
Proof.
  unfold pairs. rewrite list_elem_of_bind. split.
  - intros ([l ids] & (y & -> & Hy)%list_elem_of_fmap & HL). eauto 10.
  - intros (l & ids & y & HL & Hy & ->). exists (l, ids). split; [|done].
    apply list_elem_of_fmap. eauto.
Qed.

(** One of the two passes: the listed labels cover every edge at [i]. *)
Lemma pass_edges (E : edges) (i : N) (f : string → N → N * N * string)
    (R : edges → N → string → N → Prop) (ids_of_label : string → list N)
    (L : list (string * list N)) :
  (∀ l ids, (l, ids) ∈ L ↔ valid_name l ∧ ids ≠ [] ∧ ids_of_label l = ids) →
  (∀ l x, x ∈ ids_of_label l ↔ R E i l x) →
  (∀ l x, R E i l x → valid_name l) →
  ∀ t, t ∈ pairs f L ↔ ∃ l x, R E i l x ∧ t = f l x.
Proof.
  intros HL Hrel Hval t. rewrite elem_of_pairs. split.
  - intros (l & ids & y & (Hl & _ & <-)%HL & Hy & ->). exists l, y. by rewrite <- Hrel.
  - intros (l & x & HR & ->). exists l, (ids_of_label l), x.
    pose proof (proj2 (Hrel l x) HR) as Hx. split_and!; [|done..].
    apply HL. split_and!; eauto. intros E0. rewrite E0 in Hx. by apply not_elem_of_nil in Hx.
Qed.

Lemma out_pass g d i L :
  repr g d → in_u64 i →
  (∀ l ids, (l, ids) ∈ L ↔ valid_name l ∧ ids ≠ [] ∧ adj_ids (trows d TABLE_ADJ_OUT) i l = ids) →
  remove_pairs g (pairs (λ l x, (i, x, l)) L) = without g (filter (λ e, eid_src e.1 ≠ i) (g_edges g)).
Proof.
  intros Hr Hi HL. rewrite remove_pairs_eq. f_equal. apply map_filter_ext.
  intros [[[s t] l] q] p Hp. unfold eid_ends, eid_src. cbn [fst snd].
  rewrite (pass_edges (g_edges g) i _ out_rel _ L HL).
  - unfold out_rel. split.
    + intros Hn ->. apply Hn. eauto 10.
    + intros Hn (l' & x & _ & [= -> -> ->]). done.
  - intros l' x. by apply (elem_of_out Hr).
  - intros l' x Hx. by apply (out_rel_valid Hr) in Hx as [? _].
Qed.
Lemma in_pass g d i L :
  repr g d → in_u64 i →
  (∀ l ids, (l, ids) ∈ L ↔ valid_name l ∧ ids ≠ [] ∧ adj_ids (trows d TABLE_ADJ_IN) i l = ids) →
  remove_pairs g (pairs (λ l x, (x, i, l)) L) = without g (filter (λ e, eid_dst e.1 ≠ i) (g_edges g)).
Proof.
  intros Hr Hi HL. rewrite remove_pairs_eq. f_equal. apply map_filter_ext.
  intros [[[s t] l] q] p Hp. unfold eid_ends, eid_dst. cbn [fst snd].
  rewrite (pass_edges (g_edges g) i _ in_rel _ L HL).
  - unfold in_rel. split.
    + intros Hn ->. apply Hn. eauto 10.
    + intros Hn (l' & x & _ & [= -> -> ->]). done.
  - intros l' x. by apply (elem_of_in Hr).
  - intros l' x Hx. by apply (in_rel_valid Hr) in Hx as [? _].
Qed.

Lemma delete_edges_out g d i :
  repr g d → in_u64 i →
  ∃ d', (reads (get_all_edge_labels i Outgoing) ≫= λ out_edges : list (string * list N),
         for_each (λ e : string * list N, for_each (λ dst, delete_edge i dst e.1) e.2) out_edges) d
        = (d', Ok ())
    ∧ repr (without g (filter (λ e, eid_src e.1 ≠ i) (g_edges g))) d'.
Proof.
  intros Hr Hi.
  destruct (edge_labels_in_spec d TABLE_ADJ_OUT eq_refl (r_out_tbl _ _ Hr) _ (r_out _ _ Hr) i Hi)
    as (L & EL & _ & HL). rewrite (run_reads _ _ _ L EL).
  destruct (delete_loops (λ l x, (i, x, l)) L g d Hr) as (d' & E' & H').
  { intros l ids x (Hl & _ & <-)%HL Hx. apply (elem_of_out Hr) in Hx; [|done].
    by apply (out_rel_valid Hr) in Hx as (? & ? & ?). }
  exists d'. split; [done|]. by rewrite <- (out_pass _ _ _ _ Hr Hi HL).
Qed.
Lemma delete_edges_in g d i :
  repr g d → in_u64 i →
  ∃ d', (reads (get_all_edge_labels i Incoming) ≫= λ in_edges : list (string * list N),
         for_each (λ e : string * list N, for_each (λ src, delete_edge src i e.1) e.2) in_edges) d
        = (d', Ok ())
    ∧ repr (without g (filter (λ e, eid_dst e.1 ≠ i) (g_edges g))) d'.
Proof.
  intros Hr Hi.
  destruct (edge_labels_in_spec d TABLE_ADJ_IN eq_refl (r_in_tbl _ _ Hr) _ (r_in _ _ Hr) i Hi)
    as (L & EL & _ & HL). rewrite (run_reads _ _ _ L EL).
  destruct (delete_loops (λ l x, (x, i, l)) L g d Hr) as (d' & E' & H').
  { intros l ids x (Hl & _ & <-)%HL Hx. apply (elem_of_in Hr) in Hx; [|done].
    by apply (in_rel_valid Hr) in Hx as (? & ? & ?). }
  exists d'. split; [done|]. by rewrite <- (in_pass _ _ _ _ Hr Hi HL).
Qed.

Lemma delete_node_spec g d i rec :
  repr g d → g_nodes g !! i = Some rec →
  ∃ d', delete_node i d = (d', Ok ()) ∧ repr (remove_node g i) d'.
Proof.
  intros Hr Hn. destruct (node_valid Hr i rec Hn) as [Hi Hv]. unfold delete_node.
  rewrite (run_reads _ _ _ (mkNode i (rec_labels rec) (rec_properties rec)))
    by (rewrite (get_node_run Hr) by done; by rewrite Hn).
  destruct (delete_edges_out g d i Hr Hi) as (d1 & E1 & H1).
  rewrite <- run_bind_assoc, (run_bind _ _ _ _ _ E1).
  destruct (delete_edges_in _ d1 i H1 Hi) as (d2 & E2 & H2).
  rewrite <- run_bind_assoc, (run_bind _ _ _ _ _ E2).
  destruct (delete_node_step (ntabs_start _ d2 H2) (u64_to_be i)) as (d3 & (b & E3) & H3).
  rewrite (run_bind _ _ _ _ _ E3).
  destruct (decrements_step (rec_labels rec) _ _ _ _ _ (proj1 (proj2 Hv)) H3) as (d4 & E4 & H4).
  exists d4. split; [exact E4|].
  assert (remove_node g i = with_nodes (without (without g (filter (λ e, eid_src e.1 ≠ i) (g_edges g)))
    (filter (λ e, eid_dst e.1 ≠ i) (filter (λ e, eid_src e.1 ≠ i) (g_edges g))))
    (base.delete i (g_nodes g)) (g_next_id g)) as ->.
  { unfold remove_node, with_nodes, without, with_edges.
    cbn [g_edges g_nodes g_next_id g_next_seq]. f_equal. rewrite map_filter_filter.
    apply map_filter_ext. intros e p _. cbn [fst snd]. tauto. }
  eapply repr_with_nodes; [exact H2|exact H4|..].
  - apply nodes_ok_delete; [apply H2|done].
  - intros l. cbn beta. by rewrite (size_labelled_delete _ _ _ _ Hn).
  - apply Hr.
  - intros j [_ Hj]%lookup_delete_is_Some. by apply (r_id_fresh _ _ Hr).
Qed.
End Delete.
