(* ===== verification/Schema.v ===== *)
(** * Opening a database: src/src/schema.rs

    Creation of the tables, the version stamp, and the migrations from older
    layouts. *)
From stdpp Require Import pretty.
From S2P Require Export Nodes Keys Graph NodeSpec.

Definition SCHEMA_VERSION : N := 3.
Definition SCHEMA_VERSION_KEY : string := "schema_version".
Definition NODES_V2 : string := "nodes_v2".

Section Schema.
Context {conn : Type} {O : SqlOps conn} {Mp : Msgpack}.
Abbreviation M' := (M conn GraphError).

(** The batch that creates the tables; it stops at the first error. *)
Definition create_tables : M' unit :=
  exec (λ c, sql_create_table_if_not_exists c TABLE_NODES ["label"; "value"]) ≫= λ _,
  exec (λ c, sql_create_index c TABLE_NODES "label") ≫= λ _,
  exec (λ c, sql_create_table_if_not_exists c TABLE_ADJ_OUT ["value"]) ≫= λ _,
  exec (λ c, sql_create_table_if_not_exists c TABLE_ADJ_IN ["value"]) ≫= λ _,
  exec (λ c, sql_create_table_if_not_exists c TABLE_EDGE_PROPS ["value"]) ≫= λ _,
  exec (λ c, sql_create_table_if_not_exists c METADATA ["value"]).

Definition insert_default (key : string) (n : N) : M' unit :=
  exec (λ c, sql_insert_or_ignore c METADATA (str_bytes key) (u64_to_be n)).

(** A version that is missing or not eight bytes reads as zero. *)
Definition read_version (c : conn) : Res N :=
  storage (sql_prepare c METADATA) ≫= λ _ : unit,
  Ok (match query_row METADATA (str_bytes SCHEMA_VERSION_KEY) c with
      | Ok raw => if decide (length raw = 8) then default 0%N (u64_from_be_prefix raw) else 0%N
      | _ => 0%N
      end).

Definition stamp_version (n : N) : M' unit :=
  exec (λ c, sql_upsert c METADATA (str_bytes SCHEMA_VERSION_KEY) (mkRow "" (u64_to_be n))).

Definition migrate_label (data : bytes) : string :=
  match from_slice_record data with
  | Ok record => join ":" (rec_labels record)
  | _ => ""
  end.

Definition migrate_v1_to_v2 : M' unit :=
  exec (λ c, sql_create_table_if_not_exists c NODES_V2 ["label"; "value"]) ≫= λ _,
  reads (λ c, storage (sql_query_labelled c TABLE_NODES None))
    ≫= λ rows : list (bytes * bytes),
  for_each (λ r : bytes * bytes,
    exec (λ c, sql_insert c NODES_V2 r.1 (mkRow (migrate_label r.2) r.2))) rows ≫= λ _,
  exec (λ c, sql_drop_table c TABLE_NODES) ≫= λ _,
  exec (λ c, sql_rename_table c NODES_V2 TABLE_NODES) ≫= λ _,
  exec (λ c, sql_create_index c TABLE_NODES "label") ≫= λ _,
  stamp_version 2.

(** The [HashMap] of counts built from the keys of [edge_props]. *)
Fixpoint count_labels (keys : list bytes) (counts : gmap string N) : Res (gmap string N) :=
  match keys with
  | [] => Ok counts
  | key :: keys' =>
      ok_or (label_from_edge_props_key key)
        (GraphError.Serialization "migrate_v2_to_v3"
           ("malformed edge_props key (len=" +:+ pretty (length key) +:+ ")") None)
        ≫= λ label : string,
      count_labels keys' (<[label := u64_add (default 0%N (counts !! label)) 1]> counts)
  end.

Definition migrate_v2_to_v3 : M' unit :=
  reads (λ c, storage (sql_query_keys c TABLE_EDGE_PROPS)) ≫= λ keys : list bytes,
  lift (count_labels keys ∅) ≫= λ counts : gmap string N,
  for_each (λ e : string * N,
    exec (λ c, sql_upsert c METADATA (str_bytes (EDGE_TYPE_COUNT_PREFIX +:+ e.1))
                 (mkRow "" (u64_to_be e.2)))) (map_to_list counts) ≫= λ _,
  stamp_version 3.

Definition init_schema : M' unit :=
  create_tables ≫= λ _,
  insert_default SCHEMA_VERSION_KEY SCHEMA_VERSION ≫= λ _,
  insert_default NEXT_NODE_ID 1 ≫= λ _,
  insert_default NEXT_EDGE_SEQ 0 ≫= λ _,
  reads read_version ≫= λ db_version : N,
  if decide (SCHEMA_VERSION < db_version)%N
  then throw (GraphError.SchemaMismatch db_version SCHEMA_VERSION None) else
  (if decide (db_version = 1%N) then migrate_v1_to_v2 else mret ()) ≫= λ _,
  (if decide (db_version <= 2)%N then migrate_v2_to_v3 else mret ()).
End Schema.

(** * What opening a database establishes *)

Definition empty_graph : graph := mkGraph ∅ ∅ 1 0.

Section Simulation.
Context {conn : Type} {O : SqlOps conn} {view : conn → db} {L : SqlLaws conn view}
  {Mp : Msgpack}.

Lemma create_if_refines t cs :
  refines view (exec (λ c, sql_create_table_if_not_exists c t cs))
    (exec (λ c, sql_create_table_if_not_exists c t cs)).
Proof. apply exec_refines. intros. apply law_create_table_if_not_exists. Qed.
Lemma create_index_refines t col :
  refines view (exec (λ c, sql_create_index c t col)) (exec (λ c, sql_create_index c t col)).
Proof. apply exec_refines. intros. apply law_create_index. Qed.
Lemma insert_default_refines k n : refines view (insert_default k n) (insert_default k n).
Proof. apply exec_refines. intros. apply law_insert_or_ignore. Qed.
Lemma upsert_refines t k r :
  refines view (exec (λ c, sql_upsert c t k r)) (exec (λ c, sql_upsert c t k r)).
Proof. apply exec_refines. intros. apply law_upsert. Qed.
Lemma insert_refines t k r :
  refines view (exec (λ c, sql_insert c t k r)) (exec (λ c, sql_insert c t k r)).
Proof. apply exec_refines. intros. apply law_insert. Qed.
Lemma drop_refines t :
  refines view (exec (λ c, sql_drop_table c t)) (exec (λ c, sql_drop_table c t)).
Proof. apply exec_refines. intros. apply law_drop_table. Qed.
Lemma rename_refines t u :
  refines view (exec (λ c, sql_rename_table c t u)) (exec (λ c, sql_rename_table c t u)).
Proof. apply exec_refines. intros. apply law_rename_table. Qed.
Lemma query_labelled_view t l c :
  storage (sql_query_labelled c t l) = storage (sql_query_labelled (view c) t l).
Proof. by rewrite law_query_labelled. Qed.
Lemma query_keys_view t c : storage (sql_query_keys c t) = storage (sql_query_keys (view c) t).
Proof. by rewrite law_query_keys. Qed.
Lemma read_version_view c : read_version c = read_version (view c).
Proof. unfold read_version. by rewrite law_prepare, query_row_view. Qed.
Hint Resolve create_if_refines create_index_refines insert_default_refines upsert_refines
  insert_refines drop_refines rename_refines query_labelled_view query_keys_view
  read_version_view : refine.

Lemma migrate_v1_to_v2_refines : refines view migrate_v1_to_v2 migrate_v1_to_v2.
Proof. unfold migrate_v1_to_v2, stamp_version. solve_refines. Qed.
Lemma migrate_v2_to_v3_refines : refines view migrate_v2_to_v3 migrate_v2_to_v3.
Proof. unfold migrate_v2_to_v3, stamp_version. solve_refines. Qed.
Hint Resolve migrate_v1_to_v2_refines migrate_v2_to_v3_refines : refine.
Lemma init_schema_refines : refines view init_schema init_schema.
Proof. unfold init_schema, create_tables. solve_refines. Qed.
End Simulation.

(** ** A fresh database *)
Section Fresh.
Context {Mp : Msgpack}.

Definition fresh_db : db := (init_schema (∅ : db)).1.

Lemma fresh_run : init_schema (∅ : db) = (fresh_db, Ok ()).
Proof.
  rewrite (surjective_pairing (init_schema (∅ : db))). apply (f_equal (pair fresh_db)).
  vm_compute. reflexivity.
Qed.

Lemma fresh_meta :
  trows fresh_db METADATA =
    {[ str_bytes SCHEMA_VERSION_KEY := mkRow "" (u64_to_be 3);
       str_bytes NEXT_NODE_ID := mkRow "" (u64_to_be 1);
       str_bytes NEXT_EDGE_SEQ := mkRow "" (u64_to_be 0) ]}.
Proof. by_decide. Qed.

Lemma fresh_stats p l :
  p ∈ [LABEL_COUNT_PREFIX; EDGE_TYPE_COUNT_PREFIX] → stored fresh_db (p +:+ l) = 0%N.
Proof.
  intros Hp. unfold stored. rewrite fresh_meta.
  rewrite !lookup_insert_ne, lookup_singleton_ne; [done|..];
    intros E%(inj str_bytes); repeat (apply elem_of_cons in Hp as [->|Hp]; [discriminate|]);
    by apply not_elem_of_nil in Hp.
Qed.

Lemma adj_ok_empty : adj_ok ∅ (out_rel ∅) ∧ adj_ok ∅ (in_rel ∅).
Proof.
  split; split; intros; try (rewrite lookup_empty in *; done);
    unfold adj_ids; rewrite lookup_empty; simpl; split; try set_solver;
    intros (q & Hq); rewrite lookup_empty in Hq; by destruct Hq.
Qed.

Lemma fresh_repr : repr empty_graph fresh_db.
Proof.
  split.
  1-5: by_decide.
  - replace (trows fresh_db TABLE_NODES) with (∅ : gmap bytes row) by by_decide. done.
  - replace (trows fresh_db TABLE_EDGE_PROPS) with (∅ : gmap bytes row) by by_decide. done.
  - replace (trows fresh_db TABLE_ADJ_OUT) with (∅ : gmap bytes row) by by_decide.
    apply adj_ok_empty.
  - replace (trows fresh_db TABLE_ADJ_IN) with (∅ : gmap bytes row) by by_decide.
    apply adj_ok_empty.
  - intros l. rewrite fresh_stats by set_solver. done.
  - intros l. rewrite fresh_stats by set_solver. done.
  - unfold meta. by rewrite fresh_meta.
  - unfold meta. by rewrite fresh_meta.
  - done.
  - done.
  - intros i [? ?]; done.
  - intros e [? ?]; done.
  - intros e e' [? ?]; done.
Qed.
End Fresh.

(** ** The v2 to v3 migration *)
Section Backfill.
Context {Mp : Msgpack}.

(** The layout before the per-type counters existed: everything but them. *)
Definition repr_v2 (g : graph) (d : db) : Prop :=
  ∃ d0, repr g d0 ∧
    etabs d0 d (trows d0 TABLE_ADJ_OUT) (trows d0 TABLE_ADJ_IN) (trows d0 TABLE_EDGE_PROPS)
      (λ _, 0%N) (g_next_seq g).

(** How often a label occurs. *)
Fixpoint occurs (l : string) (ls : list string) : N :=
  match ls with
  | [] => 0
  | x :: ls' => (if decide (x = l) then 1 else 0) + occurs l ls'
  end.

Lemma occurs_length l ls : occurs l ls = N.of_nat (length (filter (λ x, x = l) ls)).
Proof.
  induction ls as [|x ls IH]; [done|]. cbn [occurs]. rewrite filter_cons, IH.
  case_decide; cbn [length]; lia.
Qed.

Lemma count_labels_ok keys ls counts :
  Forall2 (λ k l, label_from_edge_props_key k = Some l) keys ls →
  (∀ l, in_u64 (default 0%N (counts !! l) + occurs l ls)) →
  (∀ l n, counts !! l = Some n → n ≠ 0%N) →
  ∃ counts', count_labels keys counts = Ok counts'
    ∧ (∀ l, default 0%N (counts' !! l) = (default 0%N (counts !! l) + occurs l ls)%N)
    ∧ (∀ l n, counts' !! l = Some n → n ≠ 0%N).
Proof.
  intros H. revert counts. induction H as [|k l keys ls Hk _ IH]; intros counts Hb Hnz.
  { exists counts. split_and!; [done| |done]. intros l. simpl. lia. }
  cbn [count_labels]. rewrite Hk. cbn [ok_or mbind result_bind].
  pose proof (Hb l) as Hl. cbn [occurs] in Hl. rewrite decide_True in Hl by done.
  rewrite u64_add_small by (unfold in_u64 in *; lia).
  destruct (IH (<[l := (default 0%N (counts !! l) + 1)%N]> counts)) as (c' & -> & H1 & H2).
  - intros l'. specialize (Hb l'). revert Hb. cbn [occurs]. rewrite lookup_insert.
    destruct (decide (l = l')) as [<-|]; cbn [from_option id]; unfold in_u64; lia.
  - intros l' n [[<- <-]|[_ ?]]%lookup_insert_Some; [lia|eauto].
  - exists c'. split_and!; [done| |done]. intros l'. rewrite H1, lookup_insert.
    cbn [occurs]. destruct (decide (l = l')) as [<-|]; cbn [from_option id]; lia.
Qed.

(** Writing one counter per entry. *)
Lemma put_counts_step (es : list (string * N)) d0 d mo mi mp cnt q :
  NoDup es.*1 → etabs d0 d mo mi mp cnt q → Forall (λ e, in_u64 e.2) es →
  ∃ d', for_each (λ e : string * N,
          exec (λ c, sql_upsert c METADATA (str_bytes (EDGE_TYPE_COUNT_PREFIX +:+ e.1))
                       (mkRow "" (u64_to_be e.2)))) es d = (d', Ok ())
    ∧ ∃ cnt', etabs d0 d' mo mi mp cnt' q
    ∧ (∀ l n, (l, n) ∈ es → cnt' l = n) ∧ (∀ l, l ∉ es.*1 → cnt' l = cnt l).
Proof.
  revert d cnt. induction es as [|[l n] es IH]; intros d cnt Hnd Hd Hall.
  { exists d. split; [done|]. exists cnt. split_and!; [done|set_solver|done]. }
  apply NoDup_cons in Hnd as [Hl Hnd]. apply Forall_cons in Hall as [Hn Hall].
  pose proof (set_count_run d (et_meta_tbl _ _ _ _ _ _ _ Hd) EDGE_TYPE_COUNT_PREFIX l n) as E1.
  pose proof (etabs_set_count Hd l n Hn) as H1.
  destruct (IH _ _ Hnd H1 Hall) as (d' & E' & cnt' & Hd' & Hin & Hout).
  exists d'. split; [cbn [for_each]; by rewrite (run_bind _ _ _ _ _ E1)|].
  exists cnt'. split_and!; [done|..].
  - intros l' n' [[= -> ->]|Hx]%elem_of_cons; [|by apply Hin].
    rewrite Hout by done. by rewrite decide_True.
  - intros l' Hl'. rewrite fmap_cons, not_elem_of_cons in Hl'. rewrite Hout by naive_solver.
    rewrite decide_False; [done|]. cbn [fst] in Hl'. naive_solver.
Qed.

Lemma edge_labels_keys m E :
  edges_ok m E →
  ∃ ls, Forall2 (λ k l, label_from_edge_props_key k = Some l) (ordered m).*1 ls
    ∧ ∀ l, occurs l ls = N.of_nat (size (edges_typed E l)).
Proof.
  intros HE. assert (∀ k, k ∈ (ordered m).*1 ↔ ∃ e, valid_eid e ∧ k = eid_key e ∧ is_Some (E !! e)) as Hk.
  { intros k. rewrite list_elem_of_fmap. split.
    - intros ([k' r] & -> & Hr%elem_of_ordered). by apply HE in Hr.
    - intros (e & He & -> & [p Hp]). destruct (proj2 HE _ _ Hp) as (_ & _ & Er).
      exists (eid_key e, mkRow "" (enc_props p)). split; [done|]. by apply elem_of_ordered. }
  assert (∃ es, (ordered m).*1 = eid_key <$> es ∧ Forall valid_eid es) as (es & Ees & Hes).
  { assert (∀ k, k ∈ (ordered m).*1 → ∃ e, valid_eid e ∧ k = eid_key e) as H by naive_solver.
    clear Hk. induction (ordered m).*1 as [|k ks IH]; [by exists []|].
    destruct IH as (es & -> & Hes). { intros. apply H. by right. }
    destruct (H k) as (e & He & ->); [by left|]. exists (e :: es). split; [done|by constructor]. }
  exists (eid_label <$> es). split.
  - rewrite Ees. clear Ees. induction Hes as [|[[[s t] l] q] es (? & ? & ? & ?) _ IH]; [constructor|].
    constructor; [|done]. by apply label_from_eid_key.
  - intros l. rewrite occurs_length. unfold edges_typed. rewrite size_keys. f_equal.
    assert (filter (λ x, x = l) (eid_label <$> es) = eid_label <$> filter (λ e, eid_label e = l) es) as ->.
    { clear. induction es as [|e es IH]; [done|]. rewrite fmap_cons, !filter_cons, IH. by case_decide. }
    rewrite length_fmap. apply Permutation_length, NoDup_Permutation.
    + apply NoDup_filter. eapply NoDup_fmap_1. rewrite <- Ees. apply NoDup_ordered_keys.
    + apply NoDup_fst_map_to_list.
    + intros e. rewrite list_elem_of_filter, elem_of_keys. unfold is_Some.
      setoid_rewrite map_lookup_filter_Some. split.
      * intros [Hl He]. assert (eid_key e ∈ (ordered m).*1) as (e' & He' & Ek & p & Hp)%Hk.
        { rewrite Ees. by apply list_elem_of_fmap; exists e. }
        apply eid_key_inj in Ek as <-; [eauto| |done].
        by apply (proj1 (Forall_forall _ _) Hes).
      * intros (p & Hp & Hl). split; [done|]. pose proof (proj1 (proj2 HE _ _ Hp)) as He.
        assert (eid_key e ∈ eid_key <$> es) as (e' & Ek & He')%list_elem_of_fmap.
        { rewrite <- Ees. apply Hk. eauto. }
        apply eid_key_inj in Ek as <-; [done..|]. by apply (proj1 (Forall_forall _ _) Hes).
Qed.

Lemma stamp_step d0 d mo mi mp cnt q n :
  etabs d0 d mo mi mp cnt q →
  ∃ d', stamp_version n d = (d', Ok ()) ∧ etabs d0 d' mo mi mp cnt q
    ∧ meta d' SCHEMA_VERSION_KEY = Some (u64_to_be n).
Proof.
  intros Hd. pose proof (set_count_run d (et_meta_tbl _ _ _ _ _ _ _ Hd) "" SCHEMA_VERSION_KEY n) as E.
  exists (set_stored d SCHEMA_VERSION_KEY n). split; [exact E|]. split.
  - destruct Hd as [[]]. split; [split|..]; intros;
      rewrite ?has_tbl_set_stored, ?trows_set_stored, ?meta_set_stored by done; auto.
    + rewrite stored_meta, meta_set_stored by done. by rewrite <- stored_meta, sn_labels.
    + rewrite stored_meta, meta_set_stored by done. by rewrite <- stored_meta, et_count.
  - unfold meta, set_stored. rewrite trows_upd_eq by (by eapply et_meta_tbl). by rewrite lookup_insert_eq.
Qed.

Lemma migrate_v2_to_v3_spec g d :
  repr_v2 g d →
  ∃ d', migrate_v2_to_v3 d = (d', Ok ()) ∧ repr g d'
    ∧ meta d' SCHEMA_VERSION_KEY = Some (u64_to_be 3).
Proof.
  intros (d0 & Hr & Hd). unfold migrate_v2_to_v3.
  rewrite (run_reads _ _ _ (ordered (trows d0 TABLE_EDGE_PROPS)).*1).
  2:{ cbn [sql_query_keys MemDb]. unfold db_query_keys, on_tbl.
      destruct (et_props_tbl _ _ _ _ _ _ _ Hd) as [T HT]. rewrite HT.
      pose proof (et_props _ _ _ _ _ _ _ Hd) as Ep. unfold trows in Ep at 1. rewrite HT in Ep.
      by rewrite Ep. }
  destruct (edge_labels_keys _ _ (r_edges _ _ Hr)) as (ls & Hls & Hocc).
  assert (∀ l, in_u64 (occurs l ls)) as Hbound.
  { intros l. rewrite Hocc. pose proof (typed_bound g d0 l Hr).
    pose proof (r_seq_bound _ _ Hr). unfold in_u64 in *. lia. }
  destruct (count_labels_ok _ _ ∅ Hls) as (counts & Ec & Hc & Hnz);
    [intros l; rewrite lookup_empty; apply Hbound|intros l n; by rewrite lookup_empty|].
  rewrite (run_bind _ _ d d counts) by by unfold lift; rewrite Ec.
  assert (∀ l, default 0%N (counts !! l) = N.of_nat (size (edges_typed (g_edges g) l))) as Hc'.
  { intros l. by rewrite Hc, lookup_empty, <- Hocc. }
  destruct (put_counts_step (map_to_list counts) _ _ _ _ _ _ _ (NoDup_fst_map_to_list counts) Hd)
    as (d1 & E1 & cnt' & H1 & Hin & Hout).
  { apply Forall_forall. intros [l n] Hn%elem_of_map_to_list. cbn [snd].
    specialize (Hc' l). rewrite Hn in Hc'. cbn in Hc'. rewrite Hc', <- Hocc. apply Hbound. }
  rewrite (run_bind _ _ _ _ _ E1).
  destruct (stamp_step _ _ _ _ _ _ _ 3 H1) as (d2 & -> & H2 & Hv). exists d2. split_and!; [done| |done].
  assert (repr (with_edges g (g_edges g) (g_next_seq g)) d2) as H; [|by destruct g].
  eapply repr_with_edges; [exact Hr|exact H2|apply Hr|apply Hr|apply Hr| |apply Hr..].
  intros l. rewrite <- Hc'. destruct (counts !! l) as [n|] eqn:El.
  - rewrite (Hin l n); [done|]. by apply elem_of_map_to_list.
  - rewrite Hout; [done|]. rewrite elem_of_keys, El. by intros [].
Qed.
End Backfill.

(** ** Opening an existing database *)
Definition has_label_column (d : db) : Prop :=
  ∃ T, find_tbl d TABLE_NODES = Some T ∧ "label" ∈ tbl_cols T.

Section Reopen.
Context {Mp : Msgpack}.

Lemma create_if_exists (d : db) t cs :
  has_tbl d t → exec (λ c, sql_create_table_if_not_exists c t cs) d = (d, Ok ()).
Proof.
  intros [T HT]. unfold exec. cbn [sql_create_table_if_not_exists MemDb].
  unfold db_create_table_if_not_exists. by rewrite HT.
Qed.
Lemma insert_default_exists (d : db) key n :
  has_tbl d METADATA → is_Some (meta d key) → insert_default key n d = (d, Ok ()).
Proof.
  intros [T HT] [v Hv]. unfold insert_default, exec. cbn [sql_insert_or_ignore MemDb].
  unfold db_insert_or_ignore. rewrite HT. unfold meta, trows in Hv. rewrite HT in Hv.
  by destruct (tbl_rows T !! _).
Qed.
Lemma read_version_run (d : db) n :
  has_tbl d METADATA → in_u64 n → meta d SCHEMA_VERSION_KEY = Some (u64_to_be n) →
  read_version d = Ok n.
Proof.
  intros Hm Hn Hv. unfold read_version. cbn [sql_prepare MemDb]. rewrite prepare_run by done.
  rewrite (query_row_meta d Hm _ _ Hv). cbn. rewrite length_u64_to_be, decide_True by done.
  by rewrite u64_from_to_be_nil.
Qed.

(** The head of [init_schema] changes nothing in a database that has the
    tables. *)
Lemma init_schema_existing g d n :
  repr g d → has_label_column d → in_u64 n → meta d SCHEMA_VERSION_KEY = Some (u64_to_be n) →
  init_schema d =
    if decide (SCHEMA_VERSION < n)%N
    then (d, Err (GraphError.SchemaMismatch n SCHEMA_VERSION None)) else
    ((if decide (n = 1%N) then migrate_v1_to_v2 else mret ()) ≫= λ _,
     if decide (n <= 2)%N then migrate_v2_to_v3 else mret ()) d.
Proof.
  intros Hr (T & HT & Hcol) Hn Hv. unfold init_schema, create_tables.
  assert (∀ k : unit → M db GraphError unit,
    (exec (λ c, sql_create_index c TABLE_NODES "label") ≫= k) d = k () d) as Hidx.
  { intros k. apply run_bind. unfold exec. cbn [sql_create_index MemDb].
    unfold db_create_index. rewrite HT. by rewrite decide_True. }
  rewrite !run_bind_assoc.
  rewrite (run_bind _ _ _ _ _ (create_if_exists d _ _ (r_nodes_tbl _ _ Hr))).
  rewrite !run_bind_assoc, Hidx. rewrite !run_bind_assoc.
  rewrite (run_bind _ _ _ _ _ (create_if_exists d _ _ (r_out_tbl _ _ Hr))), !run_bind_assoc.
  rewrite (run_bind _ _ _ _ _ (create_if_exists d _ _ (r_in_tbl _ _ Hr))), !run_bind_assoc.
  rewrite (run_bind _ _ _ _ _ (create_if_exists d _ _ (r_props_tbl _ _ Hr))).
  rewrite (run_bind _ _ _ _ _ (create_if_exists d _ _ (r_meta_tbl _ _ Hr))).
  do 3 (rewrite (run_bind _ _ d d ())
    by (apply insert_default_exists; [apply Hr|];
        first [by rewrite Hv|by rewrite (r_next_id _ _ Hr)|by rewrite (r_next_seq _ _ Hr)])).
  rewrite (run_reads _ _ _ n) by (by apply read_version_run; [apply Hr|..]).
  by case_decide.
Qed.

(** Opening a v1 database, whose [nodes] table has no [label] column, stops at
    the index on that column: the migration is never reached. *)
Lemma init_schema_v1 (d : db) T :
  find_tbl d TABLE_NODES = Some T → "label" ∉ tbl_cols T →
  init_schema d = (d, Err (GraphError.from_rusqlite "no such column: label")).
Proof.
  intros HT Hcol. unfold init_schema, create_tables. rewrite run_bind_assoc.
  rewrite (run_bind _ _ _ _ _ (create_if_exists d _ _ (mk_is_Some _ _ HT))).
  assert (exec (λ c, sql_create_index c TABLE_NODES "label") d
    = (d, Err (GraphError.from_rusqlite "no such column: label"))) as E.
  { unfold exec. cbn [sql_create_index MemDb]. unfold db_create_index. rewrite HT.
    by rewrite decide_False. }
  by rewrite run_bind_assoc, (run_bind_err _ _ _ _ _ E).
Qed.
End Reopen.
