(* ===== verification/Storage.v ===== *)
(** * The storage layer: main theorems

    The results of the component files, for any connection that obeys [SqlLaws]
    and any serializer that obeys [MsgpackLaws], with the abstract graph as the
    specification.  [Demo] is a concrete database on which the theorems are
    exercised. *)
From S2P Require Export NodeSpec Schema.

(** ** A concrete database *)
Module Demo.
#[local] Existing Instance Reference.msgpack.

Definition props : Properties := {[ "name" := Value.String "Ada" ]}.
Definition setup : M db GraphError unit :=
  init_schema ≫= λ _,
  create_node ["Person"; "Admin"] props ≫= λ _,
  create_node ["Person"] ∅ ≫= λ _,
  create_edge 1 2 "KNOWS" ∅ ≫= λ _,
  create_edge 1 2 "KNOWS" props.
Definition d : db := (setup ∅).1.
Definition g : graph :=
  add_edge (add_edge (add_node (add_node empty_graph ["Person"; "Admin"] props) ["Person"] ∅)
    1 2 "KNOWS" ∅) 1 2 "KNOWS" props.

Lemma storable_all p : props_storable p.
Proof. by intros k v _. Qed.

Lemma props_keys : valid_keys props.
Proof.
  intros k [v Hv]. unfold props in Hv. apply lookup_singleton_Some in Hv as [<- _]. by_decide.
Qed.
Lemma no_keys : valid_keys ∅.
Proof. intros k [v Hv]. by rewrite lookup_empty in Hv. Qed.

Lemma setup_run : ∃ d', setup ∅ = (d', Ok ()) ∧ repr g d'.
Proof.
  unfold setup. rewrite (run_bind _ _ _ _ _ fresh_run).
  destruct (create_node_spec empty_graph fresh_db ["Person"; "Admin"] props) as (d1 & E1 & H1);
    [apply fresh_repr|by_decide|by_decide|apply props_keys|apply storable_all|by_decide|].
  rewrite (run_bind _ _ _ _ _ E1).
  destruct (create_node_spec _ d1 ["Person"] ∅ H1) as (d2 & E2 & H2);
    [by_decide|by_decide|apply no_keys|apply storable_all|by_decide|].
  rewrite (run_bind _ _ _ _ _ E2).
  destruct (create_edge_spec _ d2 1 2 "KNOWS" ∅ H2) as (d3 & E3 & H3);
    [by_decide|by_decide|by_decide|apply no_keys|apply storable_all|by_decide|].
  rewrite (run_bind _ _ _ _ _ E3).
  destruct (create_edge_spec _ d3 1 2 "KNOWS" props H3) as (d4 & E4 & H4);
    [by_decide|by_decide|by_decide|apply props_keys|apply storable_all|by_decide|].
  exists d4. split; [exact E4|exact H4].
Qed.
Lemma d_repr : repr g d.
Proof. destruct setup_run as (d' & E & H). unfold d. rewrite E. exact H. Qed.
End Demo.

(** ** The theorems *)
Section Theorems.
Context {conn : Type} {O : SqlOps conn} {view : conn → db} {L : SqlLaws conn view}.
Context {Mp : Msgpack} {ML : MsgpackLaws}.
Implicit Types (g : graph) (c : conn).

(** A prefix scan returns exactly the rows whose key starts with the
    prefix, each once and in increasing key order: the upper bound computed
    from the prefix neither cuts a row off nor lets one in, also when the
    prefix ends in 0xff bytes or is made of them. *)
Theorem kv_scan_prefix_exact c t prefix :
  check_table t = Ok () → has_tbl (view c) t →
  ∃ rows, kv_scan_prefix t prefix c = Ok rows
    ∧ StronglySorted (λ a b, bytes_lt a.1 b.1) rows
    ∧ ∀ k v, (k, v) ∈ rows ↔
        prefix `prefix_of` k ∧ row_value <$> trows (view c) t !! k = Some v.
Proof.
  intros Hc Ht. rewrite kv_scan_prefix_view, kv_scan_trows by done. eexists. split; [done|].
  split; [apply scan_sorted|]. intros k v. apply elem_of_scan.
Qed.

(** C10: creating an edge adds exactly one edge, under a sequence number never
    used before, next to any parallel edges there are, and leaves both
    adjacency tables, the property rows and the per-type counter in agreement
    with the new graph. *)
Theorem create_edge_adds g c s t l p :
  repr g (view c) → in_u64 s → in_u64 t → valid_name l → valid_keys p → props_storable p →
  in_u64 (g_next_seq g + 1) →
  g_edges g !! ((s, t, l, g_next_seq g) : eid) = None ∧
  ∃ c', create_edge s t l p c = (c', Ok ()) ∧ repr (add_edge g s t l p) (view c').
Proof.
  intros Hr **. split; [by eapply fresh_edge|].
  eapply lift_spec; [apply create_edge_refines|]. by apply create_edge_spec.
Qed.

(** C12: deleting an edge by its end points and type removes all its parallel
    copies and nothing else: neighbours, property rows and the counter are
    those of the graph without them. *)
Theorem delete_edge_removes g c s t l :
  repr g (view c) → in_u64 s → in_u64 t → valid_name l →
  ∃ c', delete_edge s t l c = (c', Ok ()) ∧ repr (remove_edges g s t l) (view c').
Proof.
  intros. eapply lift_spec; [apply delete_edge_refines|]. by apply delete_edge_spec.
Qed.

(** C13: deleting one of several parallel edges keeps the others and the
    adjacency entry; deleting the last one drops the entry.  Deleting an edge
    that is already gone changes nothing, so the counter does not drift. *)
Theorem delete_single_edge_removes g c s t l q :
  repr g (view c) → valid_eid (s, t, l, q) →
  ∃ c', delete_single_edge s t l q c = (c', Ok ())
    ∧ repr (remove_edge g (s, t, l, q)) (view c').
Proof.
  intros. eapply lift_spec; [apply delete_single_edge_refines|]. by apply delete_single_edge_spec.
Qed.

(** C15: the neighbours of a node are the nodes at the other end of its edges
    of that type in that direction, each once, also when both directions lead
    to the same node. *)
Theorem get_neighbors_exact g c i l dir :
  repr g (view c) → in_u64 i →
  ∃ ids, get_neighbors i l dir c = Ok ids ∧ NoDup ids
    ∧ ∀ x, x ∈ ids ↔ nbr (g_edges g) dir i l x.
Proof. intros Hr Hi. rewrite get_neighbors_view. by apply (get_neighbors_spec Hr). Qed.

(** the parallel edges between two nodes are listed once each with their
    own properties, in the order they were created. *)
Theorem get_all_edge_props_exact g c s t l :
  repr g (view c) → in_u64 s → in_u64 t → valid_name l →
  ∃ es, get_all_edge_props s t l c = Ok es
    ∧ StronglySorted (λ a b, a.1 < b.1)%N es
    ∧ ∀ q p, (q, p) ∈ es ↔ g_edges g !! ((s, t, l, q) : eid) = Some p.
Proof.
  intros Hr **. rewrite get_all_edge_props_view.
  destruct (get_all_edge_props_spec Hr s t l) as (es & -> & Hs1 & Hs2); eauto.
Qed.

(** setting a property of an edge changes that property of that edge only;
    setting it to null removes it. *)
Theorem set_edge_property_at_updates g c s t l q k v p :
  repr g (view c) → g_edges g !! ((s, t, l, q) : eid) = Some p → storable v →
  ∃ c', set_edge_property_at s t l q k v c = (c', Ok ())
    ∧ repr (update_edge g (s, t, l, q) (set_prop p k v)) (view c').
Proof.
  intros Hr **. eapply lift_spec; [apply set_edge_property_at_refines|].
  by apply (set_edge_property_at_spec Hr).
Qed.

(** C14: creating a node allocates an id never used before and stores the
    labels in sorted order with the properties; the count of each of its
    labels goes up by one. *)
Theorem create_node_adds g c ls p :
  repr g (view c) → NoDup ls → Forall valid_name ls → valid_keys p → props_storable p →
  in_u64 (g_next_id g + 1) →
  g_nodes g !! g_next_id g = None ∧
  ∃ c', create_node ls p c = (c', Ok (g_next_id g)) ∧ repr (add_node g ls p) (view c').
Proof.
  intros Hr **. split; [by eapply fresh_node|].
  eapply lift_spec; [apply create_node_refines|]. by apply create_node_spec.
Qed.

(** Reading a node returns what was stored, and a missing node is reported
    as not found, never as an empty one; the existence test agrees. *)
Theorem get_node_exact g c i :
  repr g (view c) → in_u64 i →
  get_node i c =
    match g_nodes g !! i with
    | Some rec => Ok (mkNode i (rec_labels rec) (rec_properties rec))
    | None => Err (GraphError.NodeNotFound i None)
    end
  ∧ node_exists i c = Ok (bool_decide (is_Some (g_nodes g !! i))).
Proof.
  intros Hr Hi. rewrite get_node_view, node_exists_view.
  split; [by apply (get_node_run Hr)|by apply (node_exists_run Hr)].
Qed.

(** C11: deleting a node removes it and every edge that starts or ends at it,
    whatever their types and however many are parallel or loops; no other node
    or edge changes and all counters agree with what is left. *)
Theorem delete_node_cascades g c i rec :
  repr g (view c) → g_nodes g !! i = Some rec →
  ∃ c', delete_node i c = (c', Ok ()) ∧ repr (remove_node g i) (view c').
Proof.
  intros. eapply lift_spec; [apply delete_node_refines|]. by eapply delete_node_spec.
Qed.

(** Setting a property of a node changes that property of that node only,
    null removing it, and keeps its labels. *)
Theorem set_node_property_updates g c i rec k v :
  repr g (view c) → g_nodes g !! i = Some rec → valid_name k → storable v →
  ∃ c', set_node_property i k v c = (c', Ok ())
    ∧ repr (update_node g i (mkNodeRecord (rec_labels rec) (set_prop (rec_properties rec) k v)))
        (view c').
Proof.
  intros Hr **. eapply lift_spec; [apply set_node_property_refines|].
  by apply (set_node_property_spec Hr).
Qed.

(** Adding a label that the node has changes nothing, and adding a new one
    keeps the labels sorted and raises that label's count; removing a label
    undoes it. *)
Theorem node_labels_update g c i rec l :
  repr g (view c) → g_nodes g !! i = Some rec → valid_name l →
  (∃ c', add_node_label i l c = (c', Ok ())
    ∧ repr (update_node g i (if decide (l ∈ rec_labels rec) then rec else
              mkNodeRecord (sort_labels (rec_labels rec ++ [l])) (rec_properties rec))) (view c'))
  ∧ (∃ c', remove_node_label i l c = (c', Ok ())
    ∧ repr (update_node g i (mkNodeRecord (filter (λ l', l' ≠ l) (rec_labels rec))
              (rec_properties rec))) (view c')).
Proof.
  intros Hr Hi Hl. split.
  - eapply lift_spec; [apply add_node_label_refines|]. by apply (add_node_label_spec Hr).
  - eapply lift_spec; [apply remove_node_label_refines|]. by apply (remove_node_label_spec Hr).
Qed.

(** Initialising an empty database succeeds and gives the empty graph, with
    node ids starting at 1 and edge sequence numbers at 0. *)
Theorem init_schema_fresh c :
  view c = ∅ → ∃ c', init_schema c = (c', Ok ()) ∧ repr empty_graph (view c').
Proof.
  intros E. eapply lift_spec; [apply init_schema_refines|].
  exists fresh_db. rewrite E. split; [apply fresh_run|apply fresh_repr].
Qed.

(** Reopening a current database changes nothing, and a database written
    by a newer version of the library is refused with the two versions, before
    anything is written. *)
Theorem init_schema_reopen g c n :
  repr g (view c) → has_label_column (view c) → in_u64 n → (SCHEMA_VERSION <= n)%N →
  meta (view c) SCHEMA_VERSION_KEY = Some (u64_to_be n) →
  ∃ c', init_schema c =
    (c', if decide (n = SCHEMA_VERSION) then Ok ()
         else Err (GraphError.SchemaMismatch n SCHEMA_VERSION None))
    ∧ view c' = view c.
Proof.
  intros Hr Hc Hn Hle Hv. pose proof (init_schema_refines (view := view) c) as E.
  rewrite (init_schema_existing g _ n Hr Hc Hn Hv) in E. destruct (init_schema c) as [c' r].
  exists c'. unfold on_fst in E. cbn [fst snd] in E. unfold SCHEMA_VERSION in *.
  destruct (decide (n = 3%N)) as [->|Hne].
  - change ((view c', r) = (view c, @Ok GraphError unit ())) in E. by simplify_eq.
  - rewrite decide_True in E by lia. by simplify_eq.
Qed.

(** the v2 to v3 migration rebuilds the per-type edge counters from the
    stored edges: afterwards the tables represent the same graph with exact
    counts, and the version is stamped. *)
Theorem migrate_v2_to_v3_backfills g c :
  repr_v2 g (view c) →
  ∃ c', migrate_v2_to_v3 c = (c', Ok ())
    ∧ repr g (view c') ∧ meta (view c') SCHEMA_VERSION_KEY = Some (u64_to_be 3).
Proof.
  intros Hr. apply (lift_spec _ _ _ _
    (λ d, repr g d ∧ meta d SCHEMA_VERSION_KEY = Some (u64_to_be 3)) migrate_v2_to_v3_refines).
  by apply migrate_v2_to_v3_spec.
Qed.

(** a v1 database, whose [nodes] table has no [label] column, cannot be
    opened: creating the index on that column fails before the version is read,
    so the v1 to v2 migration is never run. *)
Theorem init_schema_v1_fails c T :
  find_tbl (view c) TABLE_NODES = Some T → "label" ∉ tbl_cols T →
  ∃ c', init_schema c = (c', Err (GraphError.from_rusqlite "no such column: label"))
    ∧ view c' = view c.
Proof.
  intros HT Hc. pose proof (init_schema_refines (view := view) c) as E.
  rewrite (init_schema_v1 _ _ HT Hc) in E. destruct (init_schema c) as [c' r].
  exists c'. unfold on_fst in E. cbn [fst snd] in E. by simplify_eq.
Qed.
End Theorems.

(** ** Witnesses *)
Section Witnesses.
#[local] Existing Instance Reference.msgpack.
#[local] Existing Instance Reference.msgpack_laws.
Import Demo.

Lemma kv_scan_prefix_exact_witness :
  ∃ rows, kv_scan_prefix TABLE_EDGE_PROPS [xff] d = Ok rows
    ∧ StronglySorted (λ a b, bytes_lt a.1 b.1) rows
    ∧ ∀ k v, (k, v) ∈ rows ↔
        [xff] `prefix_of` k ∧ row_value <$> trows d TABLE_EDGE_PROPS !! k = Some v.
Proof. apply (kv_scan_prefix_exact (view := id) d); by_decide. Defined.

Lemma create_edge_adds_witness :
  g_edges g !! ((2, 1, "KNOWS", 2)%N : eid) = None ∧
  ∃ c', create_edge 2 1 "KNOWS" props d = (c', Ok ()) ∧ repr (add_edge g 2 1 "KNOWS" props) c'.
Proof.
  apply (create_edge_adds (view := id) g d 2 1 "KNOWS" props);
    [exact d_repr|by_decide|by_decide|by_decide|exact props_keys|apply storable_all|by_decide].
Defined.

Lemma delete_edge_removes_witness :
  ∃ c', delete_edge 1 2 "KNOWS" d = (c', Ok ()) ∧ repr (remove_edges g 1 2 "KNOWS") c'.
Proof.
  apply (delete_edge_removes (view := id) g d 1 2 "KNOWS"); [exact d_repr|by_decide..].
Defined.

Lemma delete_single_edge_removes_witness :
  ∃ c', delete_single_edge 1 2 "KNOWS" 0 d = (c', Ok ())
    ∧ repr (remove_edge g (1, 2, "KNOWS", 0)%N) c'.
Proof.
  apply (delete_single_edge_removes (view := id) g d 1 2 "KNOWS" 0);
    [exact d_repr|split_and!; by_decide].
Defined.

Lemma get_neighbors_exact_witness :
  ∃ ids, get_neighbors 1 "KNOWS" Both d = Ok ids ∧ NoDup ids
    ∧ ∀ x, x ∈ ids ↔ nbr (g_edges g) Both 1 "KNOWS" x.
Proof. apply (get_neighbors_exact (view := id) g d); [exact d_repr|by_decide]. Defined.

Lemma get_all_edge_props_exact_witness :
  ∃ es, get_all_edge_props 1 2 "KNOWS" d = Ok es
    ∧ StronglySorted (λ a b, a.1 < b.1)%N es
    ∧ ∀ q p, (q, p) ∈ es ↔ g_edges g !! ((1, 2, "KNOWS", q)%N : eid) = Some p.
Proof. apply (get_all_edge_props_exact (view := id) g d); [exact d_repr|by_decide..]. Defined.

Lemma set_edge_property_at_updates_witness :
  ∃ c', set_edge_property_at 1 2 "KNOWS" 1 "name" Value.Null d = (c', Ok ())
    ∧ repr (update_edge g (1, 2, "KNOWS", 1)%N (set_prop props "name" Value.Null)) c'.
Proof.
  apply (set_edge_property_at_updates (view := id) g d); [exact d_repr|reflexivity|exact I].
Defined.

Lemma create_node_adds_witness :
  g_nodes g !! 3%N = None ∧
  ∃ c', create_node ["B"; "A"] props d = (c', Ok 3%N) ∧ repr (add_node g ["B"; "A"] props) c'.
Proof.
  apply (create_node_adds (view := id) g d ["B"; "A"] props);
    [exact d_repr|by_decide|by_decide|exact props_keys|apply storable_all|by_decide].
Defined.

Lemma get_node_exact_witness :
  get_node 2 d = Ok (mkNode 2 ["Person"] ∅) ∧ node_exists 2 d = Ok true.
Proof. apply (get_node_exact (view := id) g d 2); [exact d_repr|by_decide]. Defined.

Lemma delete_node_cascades_witness :
  ∃ c', delete_node 1 d = (c', Ok ()) ∧ repr (remove_node g 1) c'.
Proof.
  apply (delete_node_cascades (view := id) g d 1 (mkNodeRecord ["Admin"; "Person"] props));
    [exact d_repr|reflexivity].
Defined.

Lemma set_node_property_updates_witness :
  ∃ c', set_node_property 1 "age" (Value.I64 36) d = (c', Ok ())
    ∧ repr (update_node g 1 (mkNodeRecord ["Admin"; "Person"]
              (set_prop props "age" (Value.I64 36)))) c'.
Proof.
  apply (set_node_property_updates (view := id) g d 1 (mkNodeRecord ["Admin"; "Person"] props));
    [exact d_repr|reflexivity|by_decide|exact I].
Defined.

Lemma node_labels_update_witness :
  (∃ c', add_node_label 2 "Admin" d = (c', Ok ())
    ∧ repr (update_node g 2 (mkNodeRecord (sort_labels ["Person"; "Admin"]) ∅)) c')
  ∧ (∃ c', remove_node_label 2 "Admin" d = (c', Ok ())
    ∧ repr (update_node g 2 (mkNodeRecord (filter (λ l', l' ≠ "Admin") ["Person"]) ∅)) c').
Proof.
  apply (node_labels_update (view := id) g d 2 (mkNodeRecord ["Person"] ∅) "Admin");
    [exact d_repr|reflexivity|by_decide].
Defined.

Lemma init_schema_fresh_witness :
  ∃ c', init_schema (∅ : db) = (c', Ok ()) ∧ repr empty_graph c'.
Proof. apply (init_schema_fresh (view := id) (∅ : db)). reflexivity. Defined.

Lemma init_schema_reopen_witness : ∃ c', init_schema d = (c', Ok ()) ∧ c' = d.
Proof.
  apply (init_schema_reopen (view := id) g d 3);
    [exact d_repr| |by_decide|by_decide|by_decide].
  exists (default (plain "" [] ∅) (find_tbl d TABLE_NODES)). split; by_decide.
Defined.

Lemma demo_v2 : repr_v2 g (clear_stored d "stats:edge_type_count:KNOWS").
Proof.
  exists d. split; [exact d_repr|].
  pose proof (etabs_put_count (etabs_start g d d_repr) "KNOWS" 0 ltac:(by_decide)) as H.
  destruct H. split; auto. intros l. rewrite et_count. destruct (decide ("KNOWS" = l)); [done|].
  apply (f_equal N.of_nat (y := 0)), map_size_empty_iff, map_empty. intros e.
  apply map_lookup_filter_None. right. intros p Hp Hl.
  assert (map_Forall (λ (e : eid) (_ : Properties), eid_label e = "KNOWS") (g_edges g)) as Hk
    by by_decide.
  specialize (Hk _ _ Hp). cbn beta in Hk, Hl. cbn [fst] in Hl. congruence.
Qed.

Lemma migrate_v2_to_v3_backfills_witness :
  ∃ c', migrate_v2_to_v3 (clear_stored d "stats:edge_type_count:KNOWS") = (c', Ok ())
    ∧ repr g c' ∧ meta c' SCHEMA_VERSION_KEY = Some (u64_to_be 3).
Proof.
  apply (migrate_v2_to_v3_backfills (view := id) g (clear_stored d "stats:edge_type_count:KNOWS")).
  exact demo_v2.
Defined.

Lemma init_schema_v1_fails_witness :
  ∃ c', init_schema ({[ "nodes" := plain "nodes" ["value"] ∅ ]} : db)
      = (c', Err (GraphError.from_rusqlite "no such column: label"))
    ∧ c' = {[ "nodes" := plain "nodes" ["value"] ∅ ]}.
Proof.
  apply (init_schema_v1_fails (view := id) _ (plain "nodes" ["value"] ∅)); by_decide.
Defined.
End Witnesses.
