(* ===== verification/Traverse.v ===== *)
(** * Traversals: src/src/storage/edge.rs, lines 386 to 905

    The breadth-first searches and the depth-first path enumeration, over the
    neighbour queries of [Edges].  Each [while let Some(..) = queue.pop_..]
    loop is a [Fixpoint] on fuel; [None] means that the fuel ran out.  The
    theorems of [Paths] give a fuel that is enough. *)
From S2P Require Export Edges.

(** ** [traverse] and [traverse_with_depth]

    The two functions differ only in what they push on [result]: the node, or
    the node with its depth.  That is the parameter [item]. *)
Record bfs (A : Type) := mkBfs {
  b_visited : gset N;
  b_queue : list (N * N);
  b_result : list A;
  b_in_result : gset N;
}.
Arguments mkBfs {A}.
Arguments b_visited {A}.
Arguments b_queue {A}.
Arguments b_result {A}.
Arguments b_in_result {A}.

Section Traverse.
Context {conn : Type} {O : SqlOps conn} {Mp : Msgpack}.
Context {A : Type} (item : N → N → A).
Context (start : N) (label : string) (direction : Direction) (min_hops max_hops : N)
  (max_results : option nat) (c : conn).

(** [if next_depth >= min_hops && neighbor != start && in_result.insert(neighbor)]
    and its body: the state, and whether the result was extended. *)
Definition offer (next_depth neighbor : N) (st : bfs A) : bfs A * bool :=
  if bool_decide (min_hops <= next_depth)%N && bool_decide (neighbor ≠ start)
     && bool_decide (neighbor ∉ b_in_result st)
  then (mkBfs (b_visited st) (b_queue st) (b_result st ++ [item neighbor next_depth])
          ({[neighbor]} ∪ b_in_result st), true)
  else (st, false).

Definition cap_reached (st : bfs A) : bool :=
  match max_results with
  | Some cap => bool_decide (cap ≤ length (b_result st))
  | None => false
  end.

(** [if visited.insert(neighbor) { queue.push_back(..) }]. *)
Definition enqueue (next_depth neighbor : N) (st : bfs A) : bfs A :=
  if decide (neighbor ∈ b_visited st) then st
  else mkBfs ({[neighbor]} ∪ b_visited st) (b_queue st ++ [(neighbor, next_depth)])
         (b_result st) (b_in_result st).

(** [for neighbor in neighbors]; the left side is the early return. *)
Fixpoint visit_neighbors (next_depth : N) (neighbors : list N) (st : bfs A) : list A + bfs A :=
  match neighbors with
  | [] => inr st
  | neighbor :: neighbors' =>
      let '(st1, pushed) := offer next_depth neighbor st in
      if pushed && cap_reached st1 then inl (b_result st1)
      else visit_neighbors next_depth neighbors' (enqueue next_depth neighbor st1)
  end.

(** A depth below [max_hops] can be incremented within a [u32]. *)
Fixpoint traverse_loop (fuel : nat) (st : bfs A) : option (Res (list A)) :=
  match fuel with
  | 0 => None
  | S fuel' =>
      match b_queue st with
      | [] => Some (Ok (b_result st))
      | (current, depth) :: queue =>
          let st := mkBfs (b_visited st) queue (b_result st) (b_in_result st) in
          if decide (max_hops <= depth)%N then traverse_loop fuel' st else
          match get_neighbors current label direction c with
          | Ok neighbors =>
              match visit_neighbors (depth + 1) neighbors st with
              | inl result => Some (Ok result)
              | inr st => traverse_loop fuel' st
              end
          | Err e => Some (Err e)
          | Panic => Some Panic
          end
      end
  end.

Definition traverse_gen (fuel : nat) : option (Res (list A)) :=
  traverse_loop fuel (mkBfs {[start]} [(start, 0%N)] [] ∅).
End Traverse.

Definition traverse `{SqlOps conn} : N → string → Direction → N → N → option nat → conn →
    nat → option (Res (list N)) :=
  traverse_gen (λ n _, n).
Definition traverse_with_depth `{SqlOps conn} : N → string → Direction → N → N → option nat →
    conn → nat → option (Res (list (N * N))) :=
  traverse_gen (λ n d, (n, d)).

(** ** [shortest_path] *)
Section Shortest.
Context {conn : Type} {O : SqlOps conn}.
Context (start end_ : N) (label : string) (direction : Direction) (max_hops : N) (c : conn).

(** [while cur != start { cur = parent[&cur]; path.push(cur) }] and the reverse;
    indexing a missing key panics. *)
Fixpoint reconstruct (fuel : nat) (parent : gmap N N) (cur : N) (path : list N)
    : option (Res (list N)) :=
  match fuel with
  | 0 => None
  | S fuel' =>
      if decide (cur = start) then Some (Ok (reverse path)) else
      match parent !! cur with
      | Some p => reconstruct fuel' parent p (path ++ [p])
      | None => Some Panic
      end
  end.

(** The loop over neighbours; the left side is [neighbor == end]. *)
Fixpoint sp_neighbors (current depth : N) (neighbors : list N) (parent : gmap N N)
    (queue : list (N * N)) : gmap N N + (gmap N N * list (N * N)) :=
  match neighbors with
  | [] => inr (parent, queue)
  | neighbor :: neighbors' =>
      match parent !! neighbor with
      | Some _ => sp_neighbors current depth neighbors' parent queue
      | None =>
          let parent := <[neighbor := current]> parent in
          if decide (neighbor = end_) then inl parent
          else sp_neighbors current depth neighbors' parent (queue ++ [(neighbor, (depth + 1)%N)])
      end
  end.

(** A path visits each node of [parent] at most once. *)
Fixpoint sp_loop (fuel : nat) (parent : gmap N N) (queue : list (N * N))
    : option (Res (option (list N))) :=
  match fuel with
  | 0 => None
  | S fuel' =>
      match queue with
      | [] => Some (Ok None)
      | (current, depth) :: queue =>
          if decide (max_hops <= depth)%N then sp_loop fuel' parent queue else
          match get_neighbors current label direction c with
          | Ok neighbors =>
              match sp_neighbors current depth neighbors parent queue with
              | inl parent =>
                  match reconstruct (S (size parent)) parent end_ [end_] with
                  | Some (Ok path) => Some (Ok (Some path))
                  | Some (Err e) => Some (Err e)
                  | Some Panic => Some Panic
                  | None => None
                  end
              | inr (parent, queue) => sp_loop fuel' parent queue
              end
          | Err e => Some (Err e)
          | Panic => Some Panic
          end
      end
  end.

Definition shortest_path (fuel : nat) : option (Res (option (list N))) :=
  if decide (start = end_) then Some (Ok (Some [start])) else
  sp_loop fuel {[start := start]} [(start, 0%N)].

(** ** [all_shortest_paths] *)
Record asp := mkAsp {
  a_parents : gmap N (list N);
  a_depth_of : gmap N N;
  a_queue : list (N * N);
  a_found : option N;
}.

Definition asp_neighbor (current next_depth neighbor : N) (st : asp) : asp :=
  match a_depth_of st !! neighbor with
  | Some existing_depth =>
      if decide (existing_depth = next_depth)
      then mkAsp (<[neighbor := default [] (a_parents st !! neighbor) ++ [current]]> (a_parents st))
             (a_depth_of st) (a_queue st) (a_found st)
      else st
  | None =>
      let parents := <[neighbor := [current]]> (a_parents st) in
      let depth_of := <[neighbor := next_depth]> (a_depth_of st) in
      if decide (neighbor = end_) then mkAsp parents depth_of (a_queue st) (Some next_depth)
      else match a_found st with
           | None => mkAsp parents depth_of (a_queue st ++ [(neighbor, next_depth)]) None
           | Some fd => mkAsp parents depth_of (a_queue st) (Some fd)
           end
  end.

Fixpoint asp_loop (fuel : nat) (st : asp) : option (Res asp) :=
  match fuel with
  | 0 => None
  | S fuel' =>
      match a_queue st with
      | [] => Some (Ok st)
      | (current, depth) :: queue =>
          let st := mkAsp (a_parents st) (a_depth_of st) queue (a_found st) in
          if match a_found st with Some fd => bool_decide (fd <= depth)%N | None => false end
          then asp_loop fuel' st else
          if decide (max_hops <= depth)%N then asp_loop fuel' st else
          match get_neighbors current label direction c with
          | Ok neighbors =>
              asp_loop fuel' (foldl (λ st n, asp_neighbor current (depth + 1) n st) st neighbors)
          | Err e => Some (Err e)
          | Panic => Some Panic
          end
      end
  end.

(** The stack is a list with its top first: pushing the parents in order leaves
    the last one on top. *)
Fixpoint asp_paths (fuel : nat) (parents : gmap N (list N)) (stack : list (N * list N))
    (all_paths : list (list N)) : option (list (list N)) :=
  match fuel with
  | 0 => None
  | S fuel' =>
      match stack with
      | [] => Some all_paths
      | (node, path) :: stack =>
          if decide (node = start) then asp_paths fuel' parents stack (all_paths ++ [reverse path])
          else
            let pars := default [] (parents !! node) in
            asp_paths fuel' parents (reverse ((λ p, (p, path ++ [p])) <$> pars) ++ stack) all_paths
      end
  end.

Definition all_shortest_paths (fuel : nat) : option (Res (list (list N))) :=
  if decide (start = end_) then Some (Ok [[start]]) else
  match asp_loop fuel (mkAsp {[start := []]} {[start := 0%N]} [(start, 0%N)] None) with
  | Some (Ok st) =>
      match a_depth_of st !! end_ with
      | None => Some (Ok [])
      | Some _ =>
          match asp_paths fuel (a_parents st) [(end_, [end_])] [] with
          | Some paths => Some (Ok paths)
          | None => None
          end
      end
  | Some (Err e) => Some (Err e)
  | Some Panic => Some Panic
  | None => None
  end.
End Shortest.

(** ** [traverse_paths] *)
Record PathStep := mkStep {
  step_src : N; step_dst : N; step_label : string; step_seq : N; step_to : N }.
Abbreviation EdgeKey := (N * N * string * N)%type.
Record frame := mkFrame { f_node : N; f_path : list PathStep; f_visited : gset EdgeKey }.
Record dfs := mkDfs {
  d_stack : list frame;  (** the top first *)
  d_results : list (N * list PathStep);
  d_fuel : N;  (** the work that is left *)
}.

Section Paths.
Context {conn : Type} {O : SqlOps conn} {Mp : Msgpack}.
Context (labels : list string) (direction : Direction) (min_hops max_hops : N)
  (prop_filters : gmap string value) (max_results : option nat) (max_work : N) (c : conn).

Definition work_exceeded : GraphError :=
  GraphError.SizeLimit "variable-length traversal work" max_work max_work
    (Some "narrow the hop range, add property predicates, LIMIT the result, or raise Config::max_traversal_work").

Definition results_full (st : dfs) : bool :=
  match max_results with
  | Some cap => bool_decide (cap ≤ length (d_results st))
  | None => false
  end.

(** The stored edges between [current] and [neighbor] that the direction
    allows, with the fallback for an adjacency entry without a row. *)
Definition directed_edges (current neighbor : N) (label : string)
    : Res (list (N * N * N * Properties)) :=
  let from s d := λ e : N * Properties, (s, d, e.1, e.2) in
  (match direction with
   | Outgoing =>
       get_all_edge_props current neighbor label c ≫= λ all : list (N * Properties),
       Ok (from current neighbor <$> all)
   | Incoming =>
       get_all_edge_props neighbor current label c ≫= λ all : list (N * Properties),
       Ok (from neighbor current <$> all)
   | Both =>
       get_all_edge_props current neighbor label c ≫= λ fwd : list (N * Properties),
       if decide (current ≠ neighbor) then
         get_all_edge_props neighbor current label c ≫= λ rev : list (N * Properties),
         Ok ((from current neighbor <$> fwd) ++ (from neighbor current <$> rev))
       else Ok (from current neighbor <$> fwd)
   end) ≫= λ edges : list (N * N * N * Properties),
  if decide (edges ≠ []) then Ok edges else
  (match direction with
   | Incoming => Ok (neighbor, current)
   | Outgoing => Ok (current, neighbor)
   | Both =>
       edge_exists current neighbor label c ≫= λ e : bool,
       Ok (if e then (current, neighbor) else (neighbor, current))
   end) ≫= λ ends : N * N,
  Ok [(ends.1, ends.2, 0%N, ∅)].

Definition filters_match (props : Properties) : bool :=
  forallb (λ f : string * value,
    match props !! f.1 with Some v => value_eqb v f.2 | None => false end)
    (map_to_list prop_filters).

(** One iteration of the edge loop: a new state, or an early return. *)
Definition visit_edge (fr : frame) (label : string) (neighbor : N)
    (e : N * N * N * Properties) (st : dfs) : Res (list (N * list PathStep) + dfs) :=
  let '(edge_src, edge_dst, seq, props) := e in
  if bool_decide (max_work ≠ 0%N) && bool_decide (d_fuel st = 0%N) then Err work_exceeded else
  let st := mkDfs (d_stack st) (d_results st)
              (if decide (max_work ≠ 0%N) then d_fuel st - 1 else d_fuel st)%N in
  let edge_key : EdgeKey := (edge_src, edge_dst, label, seq) in
  if decide (edge_key ∈ f_visited fr) then Ok (inr st) else
  if negb (filters_match props) then Ok (inr st) else
  let new_path := f_path fr ++ [mkStep edge_src edge_dst label seq neighbor] in
  let new_depth := (N.of_nat (length (f_path fr)) + 1)%N in
  let want_result := bool_decide (min_hops <= new_depth)%N in
  let want_continue := bool_decide (new_depth < max_hops)%N in
  let st1 := if want_result then mkDfs (d_stack st) (d_results st ++ [(neighbor, new_path)]) (d_fuel st)
             else st in
  if want_result && results_full st1 then Ok (inl (d_results st1)) else
  Ok (inr (if want_continue
           then mkDfs (mkFrame neighbor new_path ({[edge_key]} ∪ f_visited fr) :: d_stack st1)
                  (d_results st1) (d_fuel st1)
           else st1)).

(** [for x in l] where an iteration can return early. *)
Fixpoint iter_until {A R} (f : A → dfs → Res (R + dfs)) (l : list A) (st : dfs) : Res (R + dfs) :=
  match l with
  | [] => Ok (inr st)
  | x :: l' =>
      f x st ≫= λ r : R + dfs,
      match r with
      | inl r => Ok (inl r)
      | inr st => iter_until f l' st
      end
  end.

Definition expand (fr : frame) (st : dfs) : Res (list (N * list PathStep) + dfs) :=
  let current := f_node fr in
  (if decide (labels = []) then
     get_all_edge_labels current direction c ≫= λ all : list (string * list N), Ok all.*1
   else Ok labels) ≫= λ effective_labels : list string,
  iter_until (λ label st,
    get_neighbors current label direction c ≫= λ neighbors : list N,
    iter_until (λ neighbor st,
      directed_edges current neighbor label ≫= λ es : list (N * N * N * Properties),
      iter_until (visit_edge fr label neighbor) es st) neighbors st) effective_labels st.

Fixpoint paths_loop (fuel : nat) (st : dfs) : option (Res (list (N * list PathStep))) :=
  match fuel with
  | 0 => None
  | S fuel' =>
      match d_stack st with
      | [] => Some (Ok (d_results st))
      | fr :: stack =>
          let st := mkDfs stack (d_results st) (d_fuel st) in
          if decide (max_hops <= N.of_nat (length (f_path fr)))%N then paths_loop fuel' st else
          match expand fr st with
          | Ok (inl results) => Some (Ok results)
          | Ok (inr st) => paths_loop fuel' st
          | Err e => Some (Err e)
          | Panic => Some Panic
          end
      end
  end.

Definition traverse_paths (start : N) (fuel : nat) : option (Res (list (N * list PathStep))) :=
  let results := if decide (min_hops = 0%N) then [(start, [])] else [] in
  let st := mkDfs [mkFrame start [] ∅] results max_work in
  if bool_decide (min_hops = 0%N) && results_full st then Some (Ok results) else
  if decide (max_hops = 0%N) then Some (Ok results) else
  paths_loop fuel st.
End Paths.
