(* ===== verification/Paths.v ===== *)
(** * Breadth-first search

    Distances, the invariant of a breadth-first queue, and the correctness of
    [traverse], [traverse_with_depth] and [shortest_path] for an arbitrary
    neighbour function.  [Paths] instantiates it with the stored graph. *)
From S2P Require Export Traverse Storage.

Section Distance.
Context (nb : N → list N) (start : N).

Inductive walk : N → N → Prop :=
  | walk_start : walk 0 start
  | walk_step k x y : walk k x → y ∈ nb x → walk (k + 1) y.

Definition dist (k x : N) : Prop := walk k x ∧ ∀ m, walk m x → (k <= m)%N.

Lemma dist_start : dist 0 start.
Proof. split; [constructor|]. intros. lia. Qed.
Lemma dist_unique k m x : dist k x → dist m x → k = m.
Proof.
  intros [H1 H2] [H3 H4]. apply N.le_antisymm; auto.
Qed.
Lemma walk_zero x : walk 0 x → x = start.
Proof. inversion 1; [done|]. lia. Qed.
Lemma dist_zero x : dist 0 x → x = start.
Proof. intros [H _]. by apply walk_zero. Qed.

(** The ends of the walks of a length, by expansion. *)
Fixpoint level (n : nat) : list N :=
  match n with
  | O => [start]
  | S n' => level n' ≫= nb
  end.
Lemma walk_level n x : walk (N.of_nat n) x ↔ x ∈ level n.
Proof.
  revert x. induction n as [|n IH]; intros x; cbn [level].
  - rewrite list_elem_of_singleton. split; [apply walk_zero|]. intros ->. constructor.
  - rewrite list_elem_of_bind. split.
    + intros H. remember (N.of_nat (S n)) as k' eqn:Ek.
      destruct H as [|k c y Hw Hy]; [lia|]. exists c. split; [done|]. apply IH.
      by replace (N.of_nat n) with k by lia.
    + intros (c & Hx & Hc%IH). replace (N.of_nat (S n)) with (N.of_nat n + 1)%N by lia.
      by econstructor.
Qed.

(** A node that can be reached has a distance. *)
Lemma walk_dist k x : walk k x → ∃ j, (j <= k)%N ∧ dist j x.
Proof.
  rewrite <- (N2Nat.id k). generalize (N.to_nat k) as n. intros n.
  induction n as [n IH] using lt_wf_ind. intros Hw.
  destruct (decide (Exists (λ m, x ∈ level m) (seq 0 n))) as [H|H].
  - apply Exists_exists in H as (m & Hm%elem_of_seq & Hx).
    destruct (IH m) as (j & Hj & Hd); [lia|by apply walk_level|]. exists j. split; [lia|done].
  - exists (N.of_nat n). split; [lia|]. split; [done|]. intros m Hm.
    destruct (decide (N.of_nat n <= m)%N) as [|Hlt]; [done|]. destruct H. apply Exists_exists.
    exists (N.to_nat m). rewrite elem_of_seq. split; [lia|]. apply walk_level.
    by rewrite N2Nat.id.
Qed.

(** ** The invariant of the queue *)
Context (max : N).

Record binv (visited : gset N) (queue : list (N * N)) : Prop := {
  i_start : start ∈ visited;
  i_nodup : NoDup queue.*1;
  i_sorted : StronglySorted (λ a b, a.2 <= b.2)%N queue;
  i_window a b : a ∈ queue → b ∈ queue → (b.2 <= a.2 + 1)%N;
  i_queue x k : (x, k) ∈ queue → x ∈ visited ∧ dist k x ∧ (k <= max)%N;
  i_visited x : x ∈ visited →
    ∃ k, dist k x ∧ (k <= max)%N
      ∧ (x ∈ queue.*1 ∨ ((k < max)%N → ∀ y, y ∈ nb x → y ∈ visited));
}.

Lemma binv_init : binv {[start]} [(start, 0%N)].
Proof.
  split.
  - set_solver.
  - apply NoDup_singleton.
  - repeat constructor.
  - intros a b ->%list_elem_of_singleton ->%list_elem_of_singleton. simpl. lia.
  - intros x k [= -> ->]%list_elem_of_singleton. split_and!; [set_solver|apply dist_start|lia].
  - intros x ->%elem_of_singleton. exists 0%N. split_and!; [apply dist_start|lia|].
    left. simpl. set_solver.
Qed.

(** Everything not further than the queue has been seen. *)
Lemma binv_level visited queue m y :
  binv visited queue → (∀ a, a ∈ queue → (m <= a.2)%N) → (m <= max)%N → walk m y →
  y ∈ visited.
Proof.
  intros H Hq Hm Hw. revert Hq Hm. induction Hw as [|k x y Hw IH Hy]; intros Hq Hm.
  { apply H. }
  assert (x ∈ visited) as Hx by (apply IH; [intros a Ha; specialize (Hq a Ha)|]; lia).
  destruct (i_visited _ _ H x Hx) as (j & [Hj Hmin] & Hjm & [Hin|Hnb]).
  - apply list_elem_of_fmap in Hin as ([x' j'] & -> & Hin).
    destruct (i_queue _ _ H _ _ Hin) as (_ & [_ Hmin'] & _).
    specialize (Hq _ Hin). specialize (Hmin' k Hw). simpl in *. lia.
  - apply Hnb; [|done]. specialize (Hmin k Hw). lia.
Qed.

Lemma binv_head_le visited c k queue a :
  binv visited ((c, k) :: queue) → a ∈ (c, k) :: queue → (k <= a.2)%N.
Proof.
  intros H [->|Ha]%elem_of_cons; [simpl; lia|].
  pose proof (i_sorted _ _ H) as Hs. apply StronglySorted_inv in Hs as [_ Hs].
  by apply (proj1 (Forall_forall _ _) Hs) in Ha.
Qed.

Lemma binv_skip visited c k queue :
  binv visited ((c, k) :: queue) → (max <= k)%N → binv visited queue.
Proof.
  intros H Hk. pose proof H as [H1 H2 H3 H4 H5 H6]. split.
  - done.
  - by apply NoDup_cons in H2 as [_ ?].
  - by apply StronglySorted_inv in H3 as [? _].
  - intros a b Ha Hb. apply H4; by right.
  - intros x j Hx. apply H5. by right.
  - intros x Hx. destruct (H6 x Hx) as (j & Hj & Hjm & [Hin|Hnb]); [|by eauto].
    exists j. split_and!; [done..|]. rewrite fmap_cons in Hin. apply elem_of_cons in Hin as [->|Hin]; [|by left].
    right. destruct (H5 c k) as (_ & Hd & _); [by left|]. rewrite (dist_unique _ _ _ Hj Hd). lia.
Qed.

(** An unseen neighbour of the head is one step further. *)
Lemma binv_new_dist visited c k queue x :
  binv visited ((c, k) :: queue) → (k < max)%N → x ∈ nb c → x ∉ visited → dist (k + 1) x.
Proof.
  intros H Hk Hx Hv. destruct (i_queue _ _ H c k) as (_ & Hd & _); [by left|].
  split; [econstructor; [apply Hd|done]|]. intros m Hm.
  destruct (decide (k + 1 <= m)%N) as [|Hlt]; [done|]. destruct Hv.
  apply (binv_level _ _ m _ H); [|lia|exact Hm]. intros a Ha.
  pose proof (binv_head_le _ _ _ _ _ H Ha). lia.
Qed.

(** Expanding the head: its unseen neighbours go to the back. *)
Lemma binv_expand visited c k queue new :
  binv visited ((c, k) :: queue) → (k < max)%N → NoDup new →
  (∀ x, x ∈ new ↔ x ∈ nb c ∧ x ∉ visited) →
  binv (visited ∪ list_to_set (nb c)) (queue ++ ((λ x, (x, (k + 1)%N)) <$> new)).
Proof.
  intros H Hk Hnd Hnew. pose proof H as [H1 H2 H3 H4 H5 H6].
  destruct (H5 c k) as (Hc & Hd & _); [by left|].
  assert (∀ x j, (x, j) ∈ ((λ x, (x, (k + 1)%N)) <$> new) ↔ x ∈ new ∧ j = (k + 1)%N) as Hmem.
  { intros x j. rewrite list_elem_of_fmap. naive_solver. }
  assert (∀ x, x ∈ new → dist (k + 1) x) as Hdist.
  { intros x [Hx Hv]%Hnew. by eapply binv_new_dist. }
  assert (∀ a, a ∈ queue → (k <= a.2 <= k + 1)%N) as Hw.
  { intros a Ha. split; [by eapply binv_head_le; [exact H|right]|].
    apply (H4 (c, k) a); [by left|by right]. }
  split.
  - set_solver.
  - rewrite fmap_app, <- list_fmap_compose, list_fmap_id. apply NoDup_cons in H2 as [_ H2].
    apply NoDup_app. split_and!; [done| |done]. intros x Hx [_ Hv]%Hnew.
    apply Hv. apply list_elem_of_fmap in Hx as ([x' j] & -> & Hx). eapply H5. by right.
  - apply StronglySorted_app_2; [|by apply StronglySorted_inv in H3 as [? _]|].
    + intros a [x j] Ha [_ ->]%Hmem. specialize (Hw a Ha). simpl. lia.
    + clear. induction new; cbn; constructor; [done|]. apply Forall_forall.
      intros b (x & -> & _)%list_elem_of_fmap. simpl. lia.
  - intros a b Ha Hb. apply elem_of_app in Ha as [Ha|Ha], Hb as [Hb|Hb].
    + apply H4; by right.
    + destruct b as [x j]. apply Hmem in Hb as [_ ->]. specialize (Hw a Ha). simpl. lia.
    + destruct a as [x j]. apply Hmem in Ha as [_ ->]. specialize (Hw b Hb). simpl. lia.
    + destruct a, b. apply Hmem in Ha as [_ ->], Hb as [_ ->]. simpl. lia.
  - intros x j [Hx|[Hx ->]%Hmem]%elem_of_app.
    + destruct (H5 x j) as (? & ? & ?); [by right|]. set_solver.
    + apply Hnew in Hx as Hx'. split_and!; [set_solver|by apply Hdist|lia].
  - intros x Hx. destruct (decide (x ∈ visited)) as [Hv|Hv].
    + destruct (H6 x Hv) as (j & Hj & Hjm & [Hin|Hnb]).
      * exists j. split_and!; [done..|]. rewrite fmap_cons in Hin. apply elem_of_cons in Hin as [->|Hin].
        -- right. set_solver.
        -- left. rewrite fmap_app. apply elem_of_app. by left.
      * exists j. split_and!; [done..|]. right. set_solver.
    + assert (x ∈ new) as Hn by (apply Hnew; set_solver).
      exists (k + 1)%N. split_and!; [by apply Hdist|lia|]. left. rewrite fmap_app.
      apply elem_of_app. right. rewrite <- list_fmap_compose, list_fmap_id. done.
Qed.

Lemma binv_done visited x :
  binv visited [] → x ∈ visited ↔ ∃ k, dist k x ∧ (k <= max)%N.
Proof.
  intros H. split.
  - intros Hx. destruct (i_visited _ _ H x Hx) as (k & ? & ? & _). eauto.
  - intros (k & [Hw _] & Hk). apply (binv_level _ _ k _ H); [|done..].
    by intros a ?%not_elem_of_nil.
Qed.
End Distance.

(** ** The loop over neighbours *)
Section Visit.
Context {A : Type} (item : N → N → A) (start min_hops : N).

(** Without a limit the loop runs to its end and adds: to [visited], all the
    neighbours; to the queue, the unseen ones; to the result, those not
    listed yet. *)
Lemma visit_neighbors_none nd ns st :
  ∃ new newr,
    visit_neighbors item start min_hops None nd ns st
    = inr (mkBfs (b_visited st ∪ list_to_set ns)
             (b_queue st ++ ((λ x, (x, nd)) <$> new))
             (b_result st ++ ((λ x, item x nd) <$> newr))
             (b_in_result st ∪ list_to_set newr))
    ∧ NoDup new ∧ (∀ x, x ∈ new ↔ x ∈ ns ∧ x ∉ b_visited st)
    ∧ NoDup newr
    ∧ (∀ x, x ∈ newr ↔ x ∈ ns ∧ x ≠ start ∧ (x ∉ b_in_result st) ∧ (min_hops <= nd)%N).
Proof.
  revert st. induction ns as [|n ns IH]; intros st.
  { exists [], []. destruct st. cbn. rewrite !app_nil_r, !union_empty_r_L.
    split_and!; [done|constructor|set_solver|constructor|set_solver]. }
  cbn [visit_neighbors]. destruct (offer item start min_hops nd n st) as [st1 pushed] eqn:Eo.
  unfold cap_reached. rewrite andb_false_r.
  assert (∃ r1, b_visited st1 = b_visited st ∧ b_queue st1 = b_queue st
    ∧ b_result st1 = b_result st ++ ((λ x, item x nd) <$> r1)
    ∧ b_in_result st1 = b_in_result st ∪ list_to_set r1 ∧ NoDup r1
    ∧ ∀ x, x ∈ r1 ↔ x = n ∧ x ≠ start ∧ (x ∉ b_in_result st) ∧ (min_hops <= nd)%N)
    as (r1 & Ev1 & Eq1 & Er1 & Ei1 & Hnd1 & Hr1).
  { unfold offer in Eo. destruct (_ && _) eqn:Eb; simplify_eq.
    - exists [n]. rewrite !andb_true_iff, !bool_decide_eq_true in Eb. destruct Eb as [[? ?] ?].
      cbn. split_and!; try done; [set_solver|apply NoDup_singleton|set_solver].
    - exists []. rewrite !andb_false_iff, !bool_decide_eq_false in Eb. cbn.
      rewrite app_nil_r, union_empty_r_L. split_and!; try done; [constructor|]. set_solver. }
  assert (∃ q1, b_visited (enqueue nd n st1) = b_visited st ∪ {[n]}
    ∧ b_queue (enqueue nd n st1) = b_queue st ++ ((λ x, (x, nd)) <$> q1)
    ∧ b_result (enqueue nd n st1) = b_result st1
    ∧ b_in_result (enqueue nd n st1) = b_in_result st1
    ∧ NoDup q1 ∧ ∀ x, x ∈ q1 ↔ x = n ∧ x ∉ b_visited st)
    as (q1 & Ev2 & Eq2 & Er2 & Ei2 & Hnd2 & Hq1).
  { unfold enqueue. rewrite Ev1. case_decide as Hv.
    - exists []. rewrite app_nil_r. split_and!; [set_solver|done..|constructor|set_solver].
    - exists [n]. cbn [b_visited b_queue b_result b_in_result]. rewrite Eq1.
      split_and!; try done; [set_solver|apply NoDup_singleton|set_solver]. }
  destruct (IH (enqueue nd n st1)) as (new & newr & -> & Hn1 & Hn2 & Hn3 & Hn4).
  exists (q1 ++ new), (r1 ++ newr).
  rewrite Ev2, Eq2, Er2, Er1, Ei2, Ei1, !fmap_app, !app_assoc in *. split_and!.
  - do 2 f_equal; [|by rewrite list_to_set_app_L, union_assoc_L].
    by rewrite list_to_set_cons, union_assoc_L.
  - apply NoDup_app. split_and!; [done| |done].
    intros x [-> _]%Hq1 [_ Hx]%Hn2. clear -Hx. set_solver.
  - intros x. rewrite elem_of_app, Hq1, Hn2, elem_of_cons, not_elem_of_union, elem_of_singleton.
    destruct (decide (x = n)); tauto.
  - apply NoDup_app. split_and!; [done| |done].
    intros x Hx (_ & _ & Hx' & _)%Hn4. apply not_elem_of_union in Hx' as [_ Hx'].
    apply Hx'. by apply elem_of_list_to_set.
  - intros x. rewrite elem_of_app, Hn4, elem_of_cons, not_elem_of_union, elem_of_list_to_set, Hr1.
    destruct (decide (x = n)); tauto.
Qed.
End Visit.

(** ** The results *)
Section Results.
Context (nb : N → list N) (start min_hops max : N).
Abbreviation dist := (dist nb start).

(** [x] is one edge away from a node at distance [k - 1], and [k] is in range. *)
Definition hop (k x : N) : Prop :=
  ∃ c j, dist j c ∧ k = (j + 1)%N ∧ (j < max)%N ∧ x ∈ nb c ∧ (min_hops <= k)%N.
Definition first_hop (k x : N) : Prop :=
  x ≠ start ∧ hop k x ∧ ∀ k', hop k' x → (k <= k')%N.

Record rinv (visited : gset N) (queue : list (N * N)) (result : list (N * N))
    (in_result : gset N) : Prop := {
  ri_set x : x ∈ in_result ↔ x ∈ result.*1;
  ri_nodup : NoDup result.*1;
  ri_sorted : StronglySorted (λ a b, a.2 <= b.2)%N result;
  ri_bound a b : a ∈ result → b ∈ queue → (a.2 <= b.2 + 1)%N;
  ri_sound x k : (x, k) ∈ result → first_hop k x;
  ri_complete c j x :
    c ∈ visited → c ∉ queue.*1 → dist j c → (j < max)%N → x ∈ nb c →
    (min_hops <= j + 1)%N → x ≠ start → x ∈ result.*1;
}.

Lemma rinv_init : rinv {[start]} [(start, 0%N)] [] ∅.
Proof.
  split; [set_solver|constructor|constructor|set_solver|set_solver|].
  intros c j x ->%elem_of_singleton Hq. destruct Hq. simpl. set_solver.
Qed.

Lemma rinv_skip visited c k queue result inres :
  binv nb start max visited ((c, k) :: queue) → (max <= k)%N →
  rinv visited ((c, k) :: queue) result inres → rinv visited queue result inres.
Proof.
  intros Hb Hk [H1 H2 H3 H4 H5 H6]. split; auto.
  - intros a b Ha Hb'. apply H4; [done|by right].
  - intros c' j x Hv Hq Hd Hj. destruct (decide (c' = c)) as [->|Hne].
    + destruct (i_queue _ _ _ _ _ Hb c k) as (_ & Hd' & _); [by left|].
      rewrite (dist_unique _ _ _ _ _ Hd Hd') in Hj. lia.
    + apply H6; [done| |done..]. rewrite fmap_cons, not_elem_of_cons. done.
Qed.

Lemma rinv_expand visited c k queue result inres new newr :
  binv nb start max visited ((c, k) :: queue) → (k < max)%N →
  rinv visited ((c, k) :: queue) result inres →
  (∀ x, x ∈ new ↔ x ∈ nb c ∧ x ∉ visited) →
  NoDup newr →
  (∀ x, x ∈ newr ↔ x ∈ nb c ∧ x ≠ start ∧ (x ∉ inres) ∧ (min_hops <= k + 1)%N) →
  rinv (visited ∪ list_to_set (nb c)) (queue ++ ((λ x, (x, (k + 1)%N)) <$> new))
    (result ++ ((λ x, (x, (k + 1)%N)) <$> newr)) (inres ∪ list_to_set newr).
Proof.
  intros Hb Hk [H1 H2 H3 H4 H5 H6] Hnew Hnd Hnewr.
  destruct (i_queue _ _ _ _ _ Hb c k) as (Hcv & Hdc & _); [by left|].
  assert (∀ a, a ∈ queue → (k <= a.2)%N) as Hge.
  { intros a Ha. eapply binv_head_le; [exact Hb|]. by right. }
  assert (∀ (l : list N) (x j : N), (x, j) ∈ ((λ x, (x, (k + 1)%N)) <$> l) ↔ x ∈ l ∧ j = (k + 1)%N) as Hmem.
  { intros l x j. rewrite list_elem_of_fmap. naive_solver. }
  assert (((λ x, (x, (k + 1)%N)) <$> newr).*1 = newr) as Efst
    by by rewrite <- list_fmap_compose, list_fmap_id.
  split.
  - intros x. rewrite fmap_app, elem_of_app, Efst, elem_of_union, elem_of_list_to_set, H1. done.
  - rewrite fmap_app, Efst. apply NoDup_app. split_and!; [done| |done].
    intros x Hx (_ & _ & Hx' & _)%Hnewr. by apply Hx', H1.
  - apply StronglySorted_app_2; [|done|].
    + intros a [x j] Ha [_ ->]%Hmem. specialize (H4 a (c, k) Ha (list_elem_of_here _ _)).
      simpl in *. lia.
    + clear. induction newr; cbn; constructor; [done|]. apply Forall_forall.
      intros b (x & -> & _)%list_elem_of_fmap. simpl. lia.
  - intros a b Ha Hb'.
    assert (a.2 <= k + 1)%N as Hak.
    { apply elem_of_app in Ha as [Ha|Ha].
      - apply (H4 a (c, k) Ha (list_elem_of_here _ _)).
      - destruct a as [x j]. apply Hmem in Ha as [_ ->]. simpl. lia. }
    assert (k <= b.2)%N; [|lia]. apply elem_of_app in Hb' as [Hb'|Hb']; [by apply Hge|].
    destruct b as [x j]. apply Hmem in Hb' as [_ ->]. simpl. lia.
  - intros x j [Hx|[Hx ->]%Hmem]%elem_of_app; [by apply H5|].
    apply Hnewr in Hx as (Hx & Hs & Hi & Hmin). split_and!; [done|by exists c, k|].
    intros k' (c' & j' & Hd' & -> & Hj' & Hx' & Hmin').
    destruct (decide (k <= j')%N); [lia|]. destruct Hi. apply H1.
    apply (H6 c' j'); [|..|done|done|done|done]; [| |done].
    + apply (binv_level nb start max _ _ j' _ Hb); [|lia|apply Hd'].
      intros a Ha. pose proof (binv_head_le nb start max _ _ _ _ _ Hb Ha). lia.
    + intros Hq. apply list_elem_of_fmap in Hq as ([y l] & -> & Hq).
      destruct (i_queue _ _ _ _ _ Hb y l Hq) as (_ & Hd2 & _).
      pose proof (binv_head_le nb start max _ _ _ _ _ Hb Hq) as Hle. simpl in *.
      rewrite (dist_unique _ _ _ _ _ Hd2 Hd') in Hle. lia.
  - intros c' j x Hv Hq Hd Hj Hx Hmin Hs. rewrite fmap_app, elem_of_app, Efst.
    destruct (decide (x ∈ inres)) as [Hi|Hi]; [left; by apply H1|].
    assert (c' ∈ visited) as Hv'.
    { destruct (decide (c' ∈ visited)) as [|Hn]; [done|]. destruct Hq. rewrite fmap_app, elem_of_app.
      right. rewrite <- list_fmap_compose, list_fmap_id. apply Hnew. split; [|done].
      apply elem_of_union in Hv as [?|Hv]; [done|]. by apply elem_of_list_to_set in Hv. }
    destruct (decide (c' = c)) as [->|Hne].
    + right. apply Hnewr. rewrite (dist_unique _ _ _ _ _ Hd Hdc) in Hmin. done.
    + left. apply (H6 c' j); try done. rewrite fmap_cons, not_elem_of_cons. split; [done|].
      intros Hq'. apply Hq. rewrite fmap_app, elem_of_app. by left.
Qed.

Lemma rinv_done visited result inres :
  binv nb start max visited [] → rinv visited [] result inres →
  ∀ x k, (x, k) ∈ result ↔ first_hop k x.
Proof.
  intros Hb [H1 H2 H3 H4 H5 H6] x k. split; [apply H5|].
  intros (Hs & Hop & Hmin). pose proof Hop as (c & j & Hd & -> & Hj & Hx & Hm).
  assert (x ∈ result.*1) as ([x' k'] & -> & Hin)%list_elem_of_fmap.
  { apply (H6 c j); try done; [|simpl; set_solver].
    apply (binv_done nb start max); [done|]. exists j. split; [done|lia]. }
  pose proof (H5 _ _ Hin) as (_ & Hop' & Hmin'). simpl in *.
  assert (k' = (j + 1)%N) as <-; [|done]. apply N.le_antisymm; auto.
Qed.

(** With [min_hops <= 1] these are the nodes at a distance in range. *)
Lemma first_hop_dist k x :
  (min_hops <= 1)%N → first_hop k x ↔ dist k x ∧ (1 <= k <= max)%N.
Proof.
  intros Hm. split.
  - intros (Hs & (c & j & Hd & -> & Hj & Hx & _) & Hmin). split; [|lia]. split.
    + econstructor; [apply Hd|done].
    + intros m Hw. destruct (decide (j + 1 <= m)%N) as [|Hlt]; [done|].
      inversion Hw as [|m' y z Hw' Hy]; subst; [done|].
      assert (∃ i c', dist i c' ∧ (i <= m')%N ∧ x ∈ nb c') as (i & c' & Hd' & Hi & Hx').
      { destruct (walk_dist nb start _ _ Hw') as (i & Hi & Hd'). eauto. }
      assert (j + 1 <= i + 1)%N; [|lia]. apply Hmin. exists c', i. split_and!; [done..|lia|done|lia].
  - intros [[Hw Hmin] [Hk1 Hk2]]. inversion Hw as [|j c y Hw' Hx]; subst; [lia|].
    assert (dist j c) as Hd.
    { split; [done|]. intros m Hm'. assert (j + 1 <= m + 1)%N; [|lia].
      apply Hmin. by econstructor. }
    split_and!.
    + intros ->. assert (j + 1 <= 0)%N; [|lia]. apply Hmin. constructor.
    + exists c, j. split_and!; [done..|lia|done|lia].
    + intros k' (c' & j' & Hd' & -> & _ & Hx' & _). apply Hmin. econstructor; [apply Hd'|done].
Qed.
End Results.

(** ** The searches *)

(** Mapping the pushed items commutes with the search. *)
Section Map.
Context {conn : Type} {O : SqlOps conn} {A B : Type} (item : N → N → A) (f : A → B).
Context (start : N) (label : string) (direction : Direction) (min_hops max_hops : N)
  (cap : option nat) (c : conn).

Definition map_bfs (st : bfs A) : bfs B :=
  mkBfs (b_visited st) (b_queue st) (f <$> b_result st) (b_in_result st).
Definition item' (n d : N) : B := f (item n d).

Lemma visit_neighbors_map nd ns st :
  visit_neighbors item' start min_hops cap nd ns (map_bfs st) =
    match visit_neighbors item start min_hops cap nd ns st with
    | inl r => inl (f <$> r)
    | inr st => inr (map_bfs st)
    end.
Proof.
  revert st. induction ns as [|n ns IH]; intros st; [done|]. cbn [visit_neighbors].
  assert (offer item' start min_hops nd n (map_bfs st) =
    (map_bfs (offer item start min_hops nd n st).1, (offer item start min_hops nd n st).2)) as ->.
  { unfold offer, map_bfs. cbn [b_in_result b_visited b_queue b_result].
    destruct (_ && _); [|done]. cbn. by rewrite fmap_app. }
  destruct (offer item start min_hops nd n st) as [st1 pushed]. cbn [fst snd].
  assert (cap_reached cap (map_bfs st1) = cap_reached cap st1) as ->.
  { unfold cap_reached, map_bfs. cbn [b_result]. by rewrite length_fmap. }
  destruct (_ && _); [done|]. rewrite <- IH. f_equal. unfold enqueue, map_bfs. cbn [b_visited].
  by case_decide.
Qed.

Lemma traverse_loop_map fuel st :
  traverse_loop item' start label direction min_hops max_hops cap c fuel (map_bfs st) =
    fmap (M := option) (fmap (M := result GraphError) (fmap (M := list) f))
      (traverse_loop item start label direction min_hops max_hops cap c fuel st).
Proof.
  revert st. induction fuel as [|fuel IH]; intros st; [done|]. cbn [traverse_loop].
  unfold map_bfs at 1. cbn [b_queue].
  destruct (b_queue st) as [|[current depth] queue]; [done|].
  change (mkBfs (b_visited (map_bfs st)) queue (b_result (map_bfs st)) (b_in_result (map_bfs st)))
    with (map_bfs (mkBfs (b_visited st) queue (b_result st) (b_in_result st))).
  case_decide; [apply IH|]. destruct (get_neighbors current label direction c) as [ns|e|]; [|done..].
  rewrite visit_neighbors_map. destruct (visit_neighbors _ _ _ _ _ _ _); [done|apply IH].
Qed.
End Map.

Lemma traverse_fst {conn} `{SqlOps conn} start label direction lo hi cap (c : conn) fuel :
  traverse start label direction lo hi cap c fuel =
    fmap (M := option) (fmap (M := result GraphError) (fmap (M := list) fst))
      (traverse_with_depth start label direction lo hi cap c fuel).
Proof.
  unfold traverse, traverse_with_depth, traverse_gen.
  rewrite <- (traverse_loop_map (λ n d : N, (n, d)) (@fst N N) start label direction lo hi cap c
    fuel (mkBfs {[start]} [(start, 0%N)] [] ∅)). reflexivity.
Qed.

Section Search.
Context {conn : Type} {O : SqlOps conn} (label : string) (direction : Direction) (c : conn).
Context (nb : N → list N) (start : N) (V : gset N).
Hypothesis Hnb : ∀ x, get_neighbors x label direction c = Ok (nb x).
Hypothesis Hstart : start ∈ V.
Hypothesis Hclosed : ∀ x y, x ∈ V → y ∈ nb x → y ∈ V.

Lemma walk_in k x : walk nb start k x → x ∈ V.
Proof. induction 1; eauto. Qed.

(** Each step takes one entry off the queue, and each entry added is a node
    that was not seen. *)
Definition measure (visited : gset N) (queue : list (N * N)) : nat :=
  size (V ∖ visited) + length queue.

Lemma measure_expand visited (queue : list (N * N)) x new d :
  x ∈ V → NoDup new → (∀ y, y ∈ new ↔ y ∈ nb x ∧ y ∉ visited) →
  measure (visited ∪ list_to_set (nb x)) (queue ++ ((λ y, (y, d)) <$> new)) = measure visited queue.
Proof.
  intros Hx Hnd Hnew. unfold measure. rewrite length_app, length_fmap.
  assert (size (V ∖ visited) = size (V ∖ (visited ∪ list_to_set (nb x))) + length new); [|lia].
  rewrite <- (size_list_to_set (C := gset N) new) by done.
  rewrite <- size_union by (intros y; rewrite elem_of_list_to_set, Hnew; set_solver).
  f_equal. apply set_eq. intros y.
  rewrite elem_of_union, !elem_of_difference, not_elem_of_union, !elem_of_list_to_set, Hnew.
  destruct (decide (y ∈ nb x)); naive_solver.
Qed.

Lemma traverse_loop_spec min_hops max_hops fuel st :
  binv nb start max_hops (b_visited st) (b_queue st) →
  rinv nb start min_hops max_hops (b_visited st) (b_queue st) (b_result st) (b_in_result st) →
  measure (b_visited st) (b_queue st) < fuel →
  ∃ L, traverse_loop (λ n d, (n, d)) start label direction min_hops max_hops None c fuel st
       = Some (Ok L)
    ∧ NoDup L.*1 ∧ StronglySorted (λ a b, a.2 <= b.2)%N L
    ∧ ∀ x k, (x, k) ∈ L ↔ first_hop nb start min_hops max_hops k x.
Proof.
  revert st. induction fuel as [|fuel IH]; intros [visited queue result inres]; cbn [b_visited b_queue b_result b_in_result];
    intros Hb Hr Hm; [lia|]. cbn [traverse_loop b_queue].
  destruct queue as [|[cur d] queue].
  { exists result. split_and!; [done|apply Hr|apply Hr|]. by eapply rinv_done. }
  cbn [b_visited b_result b_in_result]. case_decide as Hd.
  - apply IH; cbn [b_visited b_queue b_result b_in_result].
    + by eapply binv_skip.
    + by eapply rinv_skip.
    + unfold measure in *. simpl in Hm. lia.
  - rewrite Hnb.
    destruct (visit_neighbors_none (λ n d, (n, d)) start min_hops (d + 1) (nb cur)
      (mkBfs visited queue result inres)) as (new & newr & -> & Hn1 & Hn2 & Hn3 & Hn4).
    cbn [b_visited b_queue b_result b_in_result] in *.
    assert (cur ∈ V) as Hcur.
    { destruct (i_queue _ _ _ _ _ Hb cur d) as (_ & [Hw _] & _); [by left|]. by eapply walk_in. }
    apply IH; cbn [b_visited b_queue b_result b_in_result].
    + apply (binv_expand nb start max_hops _ cur d); [done|lia|done|done].
    + apply (rinv_expand nb start min_hops max_hops _ cur d); [done|lia|done|done|done|done].
    + rewrite measure_expand by done. unfold measure in *. simpl in Hm. lia.
Qed.

Lemma traverse_with_depth_spec min_hops max_hops fuel :
  size V < fuel →
  ∃ L, traverse_with_depth start label direction min_hops max_hops None c fuel = Some (Ok L)
    ∧ NoDup L.*1 ∧ StronglySorted (λ a b, a.2 <= b.2)%N L
    ∧ ∀ x k, (x, k) ∈ L ↔ first_hop nb start min_hops max_hops k x.
Proof.
  intros Hf. apply traverse_loop_spec; cbn [b_visited b_queue b_result b_in_result].
  - apply binv_init.
  - apply rinv_init.
  - unfold measure. cbn [length]. rewrite size_difference by set_solver.
    rewrite size_singleton. assert (size V ≠ 0); [|lia].
    intros E%size_empty_inv. set_solver.
Qed.

(** ** [shortest_path] *)
Section Shortest.
Context (end_ max_hops : N).

(** Consecutive nodes are neighbours. *)
Inductive chain : list N → Prop :=
  | chain_one x : chain [x]
  | chain_snoc l x y : chain (l ++ [x]) → y ∈ nb x → chain (l ++ [x; y]).

(** A path from [start] to [end_] of the least possible length. *)
Definition shortest (path : list N) : Prop :=
  head path = Some start ∧ last path = Some end_ ∧ chain path
  ∧ dist nb start (N.of_nat (length path) - 1) end_.

(** Every entry of [parent] but the first is one step closer to [start]. *)
Record pinv (parent : gmap N N) : Prop := {
  pi_start : is_Some (parent !! start);
  pi_step x p : parent !! x = Some p → x ≠ start →
    x ∈ nb p ∧ is_Some (parent !! p) ∧ ∃ k, dist nb start k p ∧ dist nb start (k + 1) x;
}.

Lemma pinv_nodes parent k x :
  pinv parent → is_Some (parent !! x) → dist nb start k x →
  ∃ l, chain l ∧ head l = Some start ∧ last l = Some x ∧ N.of_nat (length l) = (k + 1)%N
    ∧ NoDup l ∧ (∀ y, y ∈ l → is_Some (parent !! y) ∧ ∃ j, dist nb start j y ∧ (j <= k)%N).
Proof.
  intros Hp. revert x. induction k as [|k IH] using N.peano_ind; intros x Hx Hd.
  - apply dist_zero in Hd as ->. exists [start]. split_and!; try done; [constructor|apply NoDup_singleton|].
    intros y ->%list_elem_of_singleton. split; [done|]. exists 0%N. split; [apply dist_start|lia].
  - destruct Hx as [p Hxp]. destruct (decide (x = start)) as [->|Hne].
    { pose proof (dist_unique _ _ _ _ _ Hd (dist_start nb start)). lia. }
    destruct (pi_step _ Hp x p Hxp Hne) as (Hnbp & Hsp & k' & Hdp & Hdx).
    assert (k' = k) as -> by (pose proof (dist_unique _ _ _ _ _ Hd Hdx); lia).
    destruct (IH p Hsp Hdp) as (l & Hc & Hh & Hl & Hlen & Hnd & Hin).
    exists (l ++ [x]). split_and!.
    + apply last_Some in Hl as [l' ->]. rewrite <- app_assoc. simpl. by constructor.
    + destruct l; [done|]. done.
    + by rewrite last_snoc.
    + rewrite length_app. simpl. lia.
    + apply NoDup_app. split_and!; [done| |apply NoDup_singleton].
      intros y Hy ->%list_elem_of_singleton. destruct (Hin x Hy) as (_ & j & Hj & Hle).
      pose proof (dist_unique _ _ _ _ _ Hd Hj). lia.
    + intros y [Hy|Hy]%elem_of_app; [|apply list_elem_of_singleton in Hy as ->].
      * destruct (Hin y Hy) as (? & j & ? & ?). split; [done|]. exists j. split; [done|lia].
      * split; [by eexists|]. exists (N.succ k). split; [done|lia].
Qed.

Lemma pinv_size parent k x :
  pinv parent → is_Some (parent !! x) → dist nb start k x → (k < N.of_nat (size parent))%N.
Proof.
  intros Hp Hx Hd. destruct (pinv_nodes _ _ _ Hp Hx Hd) as (l & _ & _ & _ & Hlen & Hnd & Hin).
  assert (length l ≤ size parent); [|lia]. rewrite <- size_dom.
  rewrite <- (size_list_to_set (C := gset N) l) by done. apply subseteq_size.
  intros y Hy%elem_of_list_to_set. apply elem_of_dom. by apply Hin.
Qed.

(** Following the parents gives the chain, reversed. *)
Lemma reconstruct_spec parent fuel k cur path :
  pinv parent → is_Some (parent !! cur) → dist nb start k cur → N.to_nat k < fuel →
  ∃ l, reconstruct start fuel parent cur path = Some (Ok (l ++ reverse path))
    ∧ (l = [] ∧ k = 0%N ∨ head l = Some start) ∧ chain (l ++ [cur])
    ∧ N.of_nat (length l) = k.
Proof.
  intros Hp. revert k cur path. induction fuel as [|fuel IH]; intros k cur path Hs Hd Hf; [lia|].
  cbn [reconstruct]. case_decide as Hc.
  - subst cur. rewrite (dist_unique _ _ _ _ _ Hd (dist_start nb start)).
    exists []. split_and!; [done|by left|constructor|done].
  - destruct Hs as [p Ep]. rewrite Ep.
    destruct (pi_step _ Hp cur p Ep Hc) as (Hnbp & Hsp & k' & Hdp & Hdx).
    assert (k = (k' + 1)%N) as -> by by eapply dist_unique.
    destruct (IH k' p (path ++ [p]) Hsp Hdp) as (l & -> & Hh & Hch & Hlen); [lia|].
    exists (l ++ [p]). split_and!.
    + by rewrite reverse_snoc, <- app_assoc.
    + right. destruct Hh as [[-> ->]|Hh]; [|by destruct l].
      simpl. by rewrite (dist_zero _ _ _ Hdp).
    + rewrite <- app_assoc. simpl. by constructor.
    + rewrite length_app. simpl. lia.
Qed.

(** The loop over neighbours: the new entries, up to [end_] when it is met. *)
Lemma sp_neighbors_spec cur d ns parent queue :
  match sp_neighbors end_ cur d ns parent queue with
  | inl parent' =>
      ∃ new : list N, end_ ∈ new ∧ (∀ x, x ∈ new → x ∈ ns ∧ parent !! x = None)
        ∧ ∀ x, parent' !! x = if decide (x ∈ new) then Some cur else parent !! x
  | inr (parent', queue') =>
      ∃ new : list N, NoDup new ∧ (∀ x, x ∈ new ↔ x ∈ ns ∧ parent !! x = None)
        ∧ (end_ ∉ new)
        ∧ (∀ x, parent' !! x = if decide (x ∈ new) then Some cur else parent !! x)
        ∧ queue' = queue ++ ((λ x, (x, (d + 1)%N)) <$> new)
  end.
Proof.
  revert parent queue. induction ns as [|n ns IH]; intros parent queue; cbn [sp_neighbors].
  { exists []. split_and!; [constructor|set_solver|set_solver|done|by rewrite app_nil_r]. }
  destruct (parent !! n) as [p|] eqn:En.
  - specialize (IH parent queue). destruct (sp_neighbors _ _ _ _ _ _) as [parent'|[parent' queue']].
    + destruct IH as (new & H1 & H2 & H3). exists new. split_and!; [done| |done].
      intros x Hx. destruct (H2 x Hx). split; [by right|done].
    + destruct IH as (new & H1 & H2 & H3 & H4 & H5). exists new. split_and!; try done.
      intros x. rewrite H2, elem_of_cons. naive_solver.
  - destruct (decide (n = end_)) as [->|Hne].
    + exists [end_]. split_and!; [by left| |].
      * intros x ->%list_elem_of_singleton. split; [by left|done].
      * intros x. rewrite lookup_insert. destruct (decide (end_ = x)) as [->|].
        -- by rewrite decide_True by left.
        -- by rewrite decide_False by (intros ?%list_elem_of_singleton; congruence).
    + specialize (IH (<[n := cur]> parent) (queue ++ [(n, (d + 1)%N)])).
      assert (∀ (new : list N) x, (if decide (x ∈ new) then Some cur else <[n := cur]> parent !! x) =
        if decide (x ∈ n :: new) then Some cur else parent !! x) as Hlk.
      { intros new x. rewrite lookup_insert. destruct (decide (x ∈ new)) as [Hx|Hx].
        - by rewrite decide_True by (by right).
        - destruct (decide (n = x)) as [->|].
          + by rewrite decide_True by left.
          + by rewrite decide_False by (by intros [->|?]%elem_of_cons). }
      destruct (sp_neighbors _ _ _ _ _ _) as [parent'|[parent' queue']].
      * destruct IH as (new & H1 & H2 & H3). exists (n :: new). split_and!; [by right| |].
        -- intros x [->|Hx]%elem_of_cons; [split; [by left|done]|].
           destruct (H2 x Hx) as [? [??]%lookup_insert_None]. split; [by right|done].
        -- intros x. by rewrite H3.
      * destruct IH as (new & H1 & H2 & H3 & H4 & ->). exists (n :: new). split_and!.
        -- constructor; [|done]. intros [_ Hn]%H2. by rewrite lookup_insert_eq in Hn.
        -- intros x. rewrite !elem_of_cons, H2, lookup_insert_None.
           destruct (decide (x = n)) as [->|]; naive_solver.
        -- intros [->|?]%elem_of_cons; done.
        -- intros x. by rewrite H4.
        -- by rewrite <- app_assoc.
Qed.

(** Adding the discovered nodes under their parent keeps the chain property. *)
Lemma pinv_extend parent parent' queue cur d (new : list N) :
  pinv parent → binv nb start max_hops (dom parent) ((cur, d) :: queue) → (d < max_hops)%N →
  (∀ x, x ∈ new → x ∈ nb cur ∧ parent !! x = None) →
  (∀ x, parent' !! x = if decide (x ∈ new) then Some cur else parent !! x) →
  pinv parent'.
Proof.
  intros Hp Hb Hd Hnew Hlk. destruct (i_queue _ _ _ _ _ Hb cur d) as (Hcur & Hdc & _); [by left|].
  assert (∀ y, is_Some (parent !! y) → is_Some (parent' !! y)) as Hmono.
  { intros y Hy. rewrite Hlk. by case_decide. }
  split.
  - apply Hmono, Hp.
  - intros x p Hx Hs. rewrite Hlk in Hx. case_decide as Hn.
    + injection Hx as <-. destruct (Hnew x Hn) as [Hxn Hnone]. split_and!; [done| |].
      * apply Hmono. by apply elem_of_dom in Hcur.
      * exists d. split; [done|]. eapply binv_new_dist; [exact Hb|done..|].
        by apply not_elem_of_dom.
    + destruct (pi_step _ Hp x p Hx Hs) as (? & ? & ?). auto.
Qed.

Lemma sp_found parent' d :
  pinv parent' → is_Some (parent' !! end_) → start ≠ end_ → dist nb start (d + 1) end_ →
  ∃ path, reconstruct start (S (size parent')) parent' end_ [end_] = Some (Ok path) ∧ shortest path.
Proof.
  intros Hp Hs Hne Hd. pose proof (pinv_size _ _ _ Hp Hs Hd) as Hsz.
  destruct (reconstruct_spec parent' (S (size parent')) (d + 1) end_ [end_] Hp Hs Hd)
    as (l & -> & Hh & Hch & Hlen); [lia|].
  exists (l ++ [end_]). split; [done|]. split_and!.
  - destruct Hh as [[-> ?]|Hh]; [lia|by destruct l].
  - apply last_snoc.
  - done.
  - rewrite length_app. cbn [length]. by replace (N.of_nat (length l + 1) - 1)%N with (d + 1)%N by lia.
Qed.

Lemma sp_loop_spec fuel parent queue :
  start ≠ end_ → pinv parent → binv nb start max_hops (dom parent) queue →
  parent !! end_ = None → measure (dom parent) queue < fuel →
  (∃ path, sp_loop start end_ label direction max_hops c fuel parent queue = Some (Ok (Some path))
     ∧ shortest path ∧ (N.of_nat (length path) <= max_hops + 1)%N)
  ∨ (sp_loop start end_ label direction max_hops c fuel parent queue = Some (Ok None)
     ∧ ∀ k, walk nb start k end_ → (max_hops < k)%N).
Proof.
  intros Hse. revert parent queue. induction fuel as [|fuel IH]; intros parent queue Hp Hb He Hm; [lia|].
  cbn [sp_loop]. destruct queue as [|[cur d] queue].
  { right. split; [done|]. intros k Hw. destruct (decide (max_hops < k)%N) as [|Hk]; [done|].
    exfalso. apply not_elem_of_dom in He. apply He. apply (binv_done nb start max_hops); [done|].
    destruct (walk_dist _ _ _ _ Hw) as (j & Hj & Hd). exists j. split; [done|lia]. }
  case_decide as Hd.
  { apply IH; [done|by eapply binv_skip|done|]. unfold measure in *. simpl in Hm. lia. }
  rewrite Hnb. pose proof (sp_neighbors_spec cur d (nb cur) parent queue) as Hspec.
  destruct (sp_neighbors _ _ _ _ _ _) as [parent'|[parent' queue']].
  - left. destruct Hspec as (new & Hend & Hnew & Hlk).
    assert (dist nb start (d + 1) end_) as Hde.
    { destruct (Hnew _ Hend). eapply binv_new_dist; [exact Hb|lia|done|by apply not_elem_of_dom]. }
    destruct (sp_found parent' d) as (path & -> & Hpath); [|by rewrite Hlk, decide_True|done..|].
    { eapply pinv_extend; [exact Hp|exact Hb|lia|exact Hnew|exact Hlk]. }
    exists path. split_and!; [done..|]. destruct Hpath as (_ & _ & _ & Hdp).
    pose proof (dist_unique _ _ _ _ _ Hdp Hde). lia.
  - destruct Hspec as (new & Hnd & Hnew & Hend & Hlk & ->).
    assert (∀ x, x ∈ new ↔ x ∈ nb cur ∧ x ∉ dom parent) as Hnew'.
    { intros x. by rewrite Hnew, not_elem_of_dom. }
    assert (cur ∈ V) as Hcur.
    { destruct (i_queue _ _ _ _ _ Hb cur d) as (_ & [Hw _] & _); [by left|]. by eapply walk_in. }
    assert (dom parent' = dom parent ∪ list_to_set (nb cur)) as Hdom.
    { apply set_eq. intros x. rewrite elem_of_union, elem_of_list_to_set, !elem_of_dom, Hlk.
      destruct (decide (x ∈ new)) as [Hx|Hx].
      - apply Hnew in Hx as [? _]. naive_solver.
      - split; [by left|]. intros [?|Hx']; [done|]. destruct (parent !! x) eqn:Ex; [done|].
        destruct Hx. by apply Hnew. }
    apply IH.
    + eapply pinv_extend; [exact Hp|exact Hb|lia| |exact Hlk]. intros x Hx. by apply Hnew.
    + rewrite Hdom. apply (binv_expand nb start max_hops _ cur d); [done|lia|done|done].
    + rewrite Hlk. by rewrite decide_False.
    + rewrite Hdom, measure_expand by done. unfold measure in *. simpl in Hm. lia.
Qed.

Lemma shortest_path_spec fuel :
  size V < fuel →
  (∃ path, shortest_path start end_ label direction max_hops c fuel = Some (Ok (Some path))
     ∧ shortest path ∧ (N.of_nat (length path) <= max_hops + 1)%N)
  ∨ (shortest_path start end_ label direction max_hops c fuel = Some (Ok None)
     ∧ ∀ k, walk nb start k end_ → (max_hops < k)%N).
Proof.
  intros Hf. unfold shortest_path. case_decide as Hse.
  - left. exists [start]. split; [done|]. split; [|simpl; lia]. unfold shortest.
    rewrite <- Hse. split_and!; [done|done|constructor|apply dist_start].
  - assert (dom ({[start := start]} : gmap N N) = {[start]}) as Hdom by apply dom_singleton_L.
    apply sp_loop_spec.
    + done.
    + split; [by rewrite lookup_singleton_eq|]. intros x p [<- _]%lookup_singleton_Some. done.
    + rewrite Hdom. apply binv_init.
    + by apply lookup_singleton_ne.
    + rewrite Hdom. unfold measure. cbn [length]. rewrite size_difference by set_solver.
      rewrite size_singleton. assert (size V ≠ 0); [|lia]. intros E%size_empty_inv. set_solver.
Qed.
End Shortest.
End Search.

(** * Searches on the stored graph

    The searches applied to the graph that the tables represent. *)

Lemma traverse_loop_view {conn} {O : SqlOps conn} {view : conn → db} {L : SqlLaws conn view}
    {A} (item : N → N → A) start l dir lo hi cap (c : conn) fuel st :
  traverse_loop item start l dir lo hi cap c fuel st
  = traverse_loop item start l dir lo hi cap (view c) fuel st.
Proof.
  revert st. induction fuel as [|fuel IH]; intros st; [done|]. cbn [traverse_loop].
  destruct (b_queue st) as [|[x k] q]; [done|]. case_decide; [apply IH|].
  rewrite (get_neighbors_view (conn := conn) x).
  destruct (get_neighbors x l dir (view c)); [|done..].
  destruct (visit_neighbors _ _ _ _ _ _ _); [done|apply IH].
Qed.

Section Graph.
Context (E : edges) (dir : Direction) (l : string).

(** A route: consecutive nodes are joined by an edge. *)
Inductive route (s : N) : list N → N → Prop :=
  | route_here : route s [s] s
  | route_edge path x y : route s path x → nbr E dir x l y → route s (path ++ [y]) y.

Lemma route_head s path t : route s path t → head path = Some s.
Proof. induction 1 as [|path x y _ IH _]; [done|]. by destruct path. Qed.
Lemma route_last s path t : route s path t → last path = Some t.
Proof. destruct 1; [done|apply last_snoc]. Qed.
Lemma route_length s path t : route s path t → 1 ≤ length path.
Proof. destruct 1; [done|]. rewrite length_app. simpl. lia. Qed.
End Graph.

(** The least number of edges from [s] to [t]. *)
Definition distance (E : edges) (dir : Direction) (l : string) (s t k : N) : Prop :=
  (∃ path, route E dir l s path t ∧ N.of_nat (length path) = (k + 1)%N)
  ∧ ∀ path, route E dir l s path t → (k + 1 <= N.of_nat (length path))%N.

Section Search.
Context {Mp : Msgpack} {ML : MsgpackLaws} {g : graph} {d : db} (Hr : repr g d).
Context (dir : Direction) (l : string) (start : N) (Hs : in_u64 start).
Abbreviation E := (g_edges g).

Definition nbs (x : N) : list N :=
  match get_neighbors x l dir d with Ok ids => ids | _ => [] end.
(** Every node an edge touches, and the start. *)
Definition span : gset N :=
  list_to_set (start :: (eid_src <$> (map_to_list E).*1) ++ (eid_dst <$> (map_to_list E).*1)).

Lemma elem_of_span x :
  x ∈ span ↔ x = start ∨ ∃ e, is_Some (E !! e) ∧ (x = eid_src e ∨ x = eid_dst e).
Proof.
  unfold span. rewrite elem_of_list_to_set, elem_of_cons, elem_of_app, !list_elem_of_fmap.
  setoid_rewrite elem_of_keys. naive_solver.
Qed.

Lemma nbs_ok x : get_neighbors x l dir d = Ok (nbs x).
Proof. unfold nbs. by rewrite (get_neighbors_eq Hr). Qed.
Lemma elem_of_nbs x y : in_u64 x → y ∈ nbs x ↔ nbr E dir x l y.
Proof.
  intros Hx. unfold nbs. by destruct (get_neighbors_spec Hr x l dir Hx) as (ids & -> & _ & H).
Qed.

Lemma nbr_span x y : nbr E dir x l y → y ∈ span ∧ x ∈ span.
Proof.
  assert (∀ e, is_Some (E !! e) → eid_src e ∈ span ∧ eid_dst e ∈ span) as H.
  { intros e He. rewrite !elem_of_span. split; right; eauto. }
  assert (out_rel E x l y → y ∈ span ∧ x ∈ span) as Ho by (intros (q & [? ?]%H); done).
  assert (in_rel E x l y → y ∈ span ∧ x ∈ span) as Hi by (intros (q & [? ?]%H); done).
  destruct dir; simpl; tauto.
Qed.
Lemma span_u64 x : x ∈ span → in_u64 x.
Proof.
  rewrite elem_of_span. intros [->|(e & [p He] & Hx)]; [done|].
  apply (edge_valid Hr) in He as [He _]. destruct e as [[[? ?] ?] ?].
  destruct He as (? & ? & _). by destruct Hx as [->| ->].
Qed.
Lemma span_start : start ∈ span.
Proof. apply elem_of_span. by left. Qed.
Lemma span_closed x y : x ∈ span → y ∈ nbs x → y ∈ span.
Proof. intros Hx Hy. apply elem_of_nbs in Hy; [|by apply span_u64]. by apply nbr_span in Hy as [? _]. Qed.

Lemma size_list_to_set_le (ls : list N) : size (list_to_set ls : gset N) ≤ length ls.
Proof.
  induction ls as [|x ls IH]; [done|]. rewrite list_to_set_cons, size_union_alt, size_singleton.
  etrans; [apply Nat.add_le_mono_l, subseteq_size, subseteq_difference_l; reflexivity|].
  simpl. lia.
Qed.
Lemma span_size : size span ≤ 2 * size E + 1.
Proof.
  unfold span. etrans; [apply size_list_to_set_le|].
  cbn [length]. rewrite length_app, !length_fmap, length_map_to_list. lia.
Qed.

(** Walks of the search are routes of the graph. *)
Lemma walk_route k t :
  walk nbs start k t ↔ ∃ path, route E dir l start path t ∧ N.of_nat (length path) = (k + 1)%N.
Proof.
  split.
  - induction 1 as [|k x y Hw (path & Hp & Hlen) Hy].
    + exists [start]. split; [constructor|done].
    + assert (x ∈ span) as Hx by (eapply walk_in; eauto using span_start, span_closed).
      apply elem_of_nbs in Hy; [|by apply span_u64]. exists (path ++ [y]).
      split; [by econstructor|]. rewrite length_app. simpl. lia.
  - intros (path & Hp & Hlen). revert k Hlen. induction Hp as [|path x y Hp IH Hy]; intros k Hlen.
    + replace k with 0%N by (simpl in Hlen; lia). constructor.
    + rewrite length_app in Hlen. simpl in Hlen. pose proof (route_length _ _ _ _ _ _ Hp).
      replace k with ((k - 1) + 1)%N by lia. apply (walk_step _ _ _ x); [apply IH; lia|].
      apply elem_of_nbs; [|done]. apply span_u64. by apply nbr_span in Hy as [_ ?].
Qed.

Lemma dist_distance k t : dist nbs start k t ↔ distance E dir l start t k.
Proof.
  unfold dist, distance. rewrite walk_route. split; intros [H1 H2]; split; try done.
  - intros path Hp. pose proof (route_length _ _ _ _ _ _ Hp).
    assert (k <= N.of_nat (length path) - 1)%N; [|lia]. apply H2, walk_route. exists path.
    split; [done|lia].
  - intros m (path & Hp & Hlen)%walk_route. specialize (H2 path Hp). lia.
Qed.

Lemma chain_route path t :
  chain nbs path → head path = Some start → last path = Some t → route E dir l start path t.
Proof.
  intros Hc. revert t. induction Hc as [x|p x y Hc IH Hy]; intros t Hh Hl.
  - simpl in *. simplify_eq. constructor.
  - assert (p ++ [x; y] = (p ++ [x]) ++ [y]) as E2 by by rewrite <- app_assoc.
    rewrite E2 in *. rewrite last_snoc in Hl. injection Hl as ->.
    assert (route E dir l start (p ++ [x]) x) as Hp.
    { apply IH; [|apply last_snoc]. by destruct p. }
    econstructor; [exact Hp|]. apply elem_of_nbs; [|done]. apply span_u64.
    eapply (walk_in nbs start); [apply span_start|apply span_closed|].
    apply (walk_route (N.of_nat (length (p ++ [x])) - 1)). exists (p ++ [x]). split; [done|].
    pose proof (route_length _ _ _ _ _ _ Hp). lia.
Qed.
End Search.

(** ** The theorems *)
Lemma sp_loop_view {conn} {O : SqlOps conn} {view : conn → db} {L : SqlLaws conn view}
    start end_ l dir hi (c : conn) fuel parent queue :
  sp_loop start end_ l dir hi c fuel parent queue
  = sp_loop start end_ l dir hi (view c) fuel parent queue.
Proof.
  revert parent queue. induction fuel as [|fuel IH]; intros parent queue; [done|]. cbn [sp_loop].
  destruct queue as [|[x k] q]; [done|]. case_decide; [apply IH|].
  rewrite (get_neighbors_view (conn := conn) x).
  destruct (get_neighbors x l dir (view c)); [|done..].
  destruct (sp_neighbors _ _ _ _ _ _) as [|[??]]; [done|apply IH].
Qed.

Section Theorems.
Context {conn : Type} {O : SqlOps conn} {view : conn → db} {L : SqlLaws conn view}.
Context {Mp : Msgpack} {ML : MsgpackLaws}.
Implicit Types (g : graph) (c : conn).

(** C18: [shortest_path] terminates and returns a route with the least number of
    edges of all routes between the two nodes, when one has at most [max_hops]
    edges, and [None] exactly when none has.  Twice the number of edges plus
    two is enough fuel. *)
Theorem shortest_path_minimal g c start end_ l dir max_hops fuel :
  repr g (view c) → in_u64 start → 2 * size (g_edges g) + 1 < fuel →
  (∃ path k, shortest_path start end_ l dir max_hops c fuel = Some (Ok (Some path))
     ∧ route (g_edges g) dir l start path end_ ∧ N.of_nat (length path) = (k + 1)%N
     ∧ distance (g_edges g) dir l start end_ k ∧ (k <= max_hops)%N)
  ∨ (shortest_path start end_ l dir max_hops c fuel = Some (Ok None)
     ∧ ∀ k, distance (g_edges g) dir l start end_ k → (max_hops < k)%N).
Proof.
  intros Hr Hs Hf. pose proof (span_size (g := g) start).
  assert (shortest_path start end_ l dir max_hops c fuel
          = shortest_path start end_ l dir max_hops (view c) fuel) as ->.
  { unfold shortest_path. case_decide; [done|apply sp_loop_view]. }
  destruct (shortest_path_spec l dir (view c) (nbs (d := view c) dir l) start (span (g := g) start)
    (nbs_ok Hr dir l) (span_start start) (span_closed Hr dir l start Hs) end_ max_hops fuel)
    as [(path & E & (Hh & Hl & Hc & Hd) & Hlen)|(E & Hno)]; [lia|left|right].
  - pose proof (chain_route Hr dir l start Hs path end_ Hc Hh Hl) as Hp.
    pose proof (route_length _ _ _ _ _ _ Hp).
    exists path, (N.of_nat (length path) - 1)%N. split_and!; [done..|lia| |lia].
    by apply (dist_distance Hr dir l start Hs).
  - split; [done|]. intros k Hk. apply Hno. by apply (dist_distance Hr dir l start Hs) in Hk as [? _].
Qed.

End Theorems.

Section Witnesses.
#[local] Existing Instance Reference.msgpack.
#[local] Existing Instance Reference.msgpack_laws.
Import Demo.

Lemma shortest_path_minimal_witness :
  (∃ path k, shortest_path 1 2 "KNOWS" Outgoing 3 d 10 = Some (Ok (Some path))
     ∧ route (g_edges g) Outgoing "KNOWS" 1 path 2 ∧ N.of_nat (length path) = (k + 1)%N
     ∧ distance (g_edges g) Outgoing "KNOWS" 1 2 k ∧ (k <= 3)%N)
  ∨ (shortest_path 1 2 "KNOWS" Outgoing 3 d 10 = Some (Ok None)
     ∧ ∀ k, distance (g_edges g) Outgoing "KNOWS" 1 2 k → (3 < k)%N).
Proof.
  apply (shortest_path_minimal (view := id) g d); [exact d_repr|by_decide|by_decide].
Defined.


(** the doc comment of [traverse] promises every node reachable in between
    [min_hops] and [max_hops] hops.  Each node is expanded only at its first
    depth, so a node that is reached again later is missed: here node 2 is
    three hops from node 1 (over 1, 2, 1, 2) but the search for three hops finds
    nothing. *)
Theorem traverse_misses_revisited :
  route (g_edges g) Both "KNOWS" 1 [1; 2; 1; 2]%N 2
  ∧ traverse 1 "KNOWS" Both 3 3 None d 10 = Some (Ok []).
Proof.
  assert (nbr (g_edges g) Both 1 "KNOWS" 2) as H12 by (left; exists 0%N; by_decide).
  assert (nbr (g_edges g) Both 2 "KNOWS" 1) as H21 by (right; exists 0%N; by_decide).
  split; [|vm_compute; reflexivity].
  apply (route_edge _ _ _ _ [1; 2; 1]%N 1%N); [|done].
  apply (route_edge _ _ _ _ [1; 2]%N 2%N); [|done].
  apply (route_edge _ _ _ _ [1]%N 1%N); [constructor|done].
Qed.
End Witnesses.
