(* ===== verification/Index.v ===== *)
(** * Secondary indexes: src/src/storage/index.rs

    An index on a label and a list of properties is a table whose name spells
    them out and whose keys are the encoded property values followed by the node
    id.  This file has the operations and the facts on names,
    [IndexSpec] about the contents. *)
From S2P Require Export Nodes Keys.

Record IndexInfo := mkIndexInfo {
  info_label : string;
  info_properties : list string;
  info_kind : string;
}.
#[global] Instance IndexInfo_eq_dec : EqDecision IndexInfo.
Proof. solve_decision. Defined.

(** ** Names *)

(** The loop over the properties: each a valid name, none seen before. *)
Fixpoint check_properties (seen : gset string) (properties : list string) : Res unit :=
  match properties with
  | [] => Ok ()
  | p :: rest =>
      validate_name p ≫= λ _,
      if decide (p ∈ seen)
      then Err (GraphError.InvalidIndexDefinition
                  ("duplicate property in composite index: " +:+ p) None)
      else check_properties ({[ p ]} ∪ seen) rest
  end.

Definition composite_index_table_name (label : string) (properties : list string) : Res string :=
  if decide (properties = [])
  then Err (GraphError.InvalidIndexDefinition "property list cannot be empty" None)
  else
    validate_name label ≫= λ _,
    check_properties ∅ properties ≫= λ _,
    let joined := join "$" properties in
    Ok ("node_idx$" +:+ label +:+ "$" +:+ joined).

Definition legacy_single_index_table_name (label property : string) : Res string :=
  validate_name label ≫= λ _,
  validate_name property ≫= λ _,
  Ok ("node_idx_" +:+ label +:+ "_" +:+ property).

Definition parse_composite_table_name (name expected_label : string) : option (list string) :=
  rest ← strip_prefix "node_idx$" name;
  after_label ← strip_prefix (expected_label +:+ "$") rest;
  let props := str_split "$" after_label in
  if decide (props = []) then None else Some props.

(** ** Ranges *)

(** The loop over [(0..out.len()).rev()]: [i] bytes are left to look at. *)
Fixpoint next_prefix_loop (i : nat) (out : bytes) : option bytes :=
  match i with
  | 0 => None
  | S i' =>
      match out !! i' with
      | Some b =>
          if decide (b2n b < 255)%N then Some (take i' out ++ [n2b (b2n b + 1)])
          else next_prefix_loop i' out
      | None => None
      end
  end.
Definition next_prefix (prefix : bytes) : option bytes := next_prefix_loop (length prefix) prefix.

Example next_prefix_examples :
  next_prefix [x01] = Some [x02] ∧ next_prefix [x01; xff; xff] = Some [x02]
  ∧ next_prefix [xff; xff] = None ∧ next_prefix [] = None.
Proof. vm_compute. done. Qed.

(** ** Values *)
Fixpoint collect_values (props : Properties) (properties : list string) : option (list value) :=
  match properties with
  | [] => Some []
  | p :: rest => v ← props !! p; vs ← collect_values props rest; Some (v :: vs)
  end.

(** The node id at the end of an index key, when the key is long enough. *)
Definition key_node_id (key : bytes) : option N :=
  if decide (8 ≤ length key) then Some (be_combine (drop (length key - 8) key)) else None.

Section Index.
Context {conn : Type} {O : SqlOps conn} {Mp : Msgpack}.
Abbreviation M' := (M conn GraphError).

(** [msgpack(v1)...msgpack(vN)]. *)
Fixpoint value_frames (values : list value) : Res bytes :=
  match values with
  | [] => Ok []
  | v :: rest =>
      ser (to_vec_value v) ≫= λ frame, value_frames rest ≫= λ tail, Ok (frame ++ tail)
  end.
Definition composite_index_key (values : list value) (node_id : N) : Res bytes :=
  value_frames values ≫= λ key, Ok (key ++ u64_to_be node_id).

Definition table_exists (table : string) (c : conn) : Res bool :=
  storage (sql_table_exists c table).

Definition resolve_index_table (label : string) (properties : list string) (c : conn)
    : Res string :=
  composite_index_table_name label properties ≫= λ canonical : string,
  table_exists canonical c ≫= λ e : bool,
  if e then Ok canonical else
  match properties with
  | [p] =>
      legacy_single_index_table_name label p ≫= λ legacy : string,
      table_exists legacy c ≫= λ e : bool,
      if e then Ok legacy else Ok canonical
  | _ => Ok canonical
  end.

(** ** Entries *)

(** Delete or insert the entry of a node, when it has all the properties. *)
Definition drop_entry (table : string) (properties : list string) (id : N) (props : Properties)
    : M' unit :=
  match collect_values props properties with
  | Some values =>
      lift (composite_index_key values id) ≫= λ key, kv_delete table key ≫= λ _, mret ()
  | None => mret ()
  end.
Definition add_entry (table : string) (properties : list string) (id : N) (props : Properties)
    : M' unit :=
  match collect_values props properties with
  | Some values => lift (composite_index_key values id) ≫= λ key, kv_put table key []
  | None => mret ()
  end.

(** ** Creation and removal *)

(** One node of the backfill: skipped unless it has every property. *)
Definition index_node (table : string) (properties : list string) (n : Node) : M' unit :=
  add_entry table properties (node_id n) (node_properties n).

(** Whether the index exists, under either name. *)
Definition index_present (table label : string) (properties : list string) (c : conn)
    : Res bool :=
  table_exists table c ≫= λ already : bool,
  if already then Ok true else
  match properties with
  | [p] =>
      legacy_single_index_table_name label p ≫= λ legacy : string, table_exists legacy c
  | _ => Ok false
  end.

Definition create_composite_index (label : string) (properties : list string) : M' unit :=
  lift (composite_index_table_name label properties) ≫= λ table : string,
  reads (index_present table label properties) ≫= λ already : bool,
  if already then throw (GraphError.IndexAlreadyExists label properties None) else
  exec (λ c, sql_create_table c table ["value"]) ≫= λ _,
  reads (find_nodes_by_label label) ≫= λ nodes : list Node,
  for_each (index_node table properties) nodes.

Definition drop_composite_index (label : string) (properties : list string) : M' unit :=
  reads (resolve_index_table label properties) ≫= λ table : string,
  reads (table_exists table) ≫= λ e : bool,
  if e then exec (λ c, sql_drop_table c table)
  else throw (GraphError.IndexNotFound label properties None).

Definition create_index (label property : string) : M' unit :=
  create_composite_index label [property].
Definition drop_index (label property : string) : M' unit :=
  drop_composite_index label [property].

(** ** Lookups *)
Definition index_lookup (label property : string) (v : value) (c : conn) : Res (list N) :=
  resolve_index_table label [property] c ≫= λ table : string,
  ser (to_vec_value v) ≫= λ prefix : bytes,
  match kv_scan_prefix table prefix c with
  | Ok entries => Ok (omap key_node_id entries.*1)
  | Err (GraphError.Storage e h) =>
      if str_contains e "no such table"
      then Err (GraphError.IndexNotFound label [property] None)
      else Err (GraphError.Storage e h)
  | Err e => Err e
  | Panic => Panic
  end.

Definition composite_index_prefix_lookup (label : string) (properties : list string)
    (prefix_values : list value) (c : conn) : Res (list N) :=
  if decide (length properties < length prefix_values) then Panic else
  resolve_index_table label properties c ≫= λ table : string,
  value_frames prefix_values ≫= λ prefix_bytes : bytes,
  storage (sql_query_key_range c table prefix_bytes (next_prefix prefix_bytes))
    ≫= λ rows : list bytes, Ok (omap key_node_id rows).

(** ** Listing *)
Definition info_of_name (label name : string) : option IndexInfo :=
  match parse_composite_table_name name label with
  | Some props => Some (mkIndexInfo label props "btree")
  | None =>
      (λ property, mkIndexInfo label [property] "btree")
        <$> strip_prefix ("node_idx_" +:+ label +:+ "_") name
  end.

Definition list_indexes_for_label (label : string) (c : conn) : Res (list IndexInfo) :=
  match validate_name label with
  | Ok _ =>
      storage (sql_table_names c ("node_idx_" +:+ label +:+ "_%") None
                 ("node_idx$" +:+ label +:+ "$%"))
        ≫= λ names : list string, Ok (omap (info_of_name label) names)
  | _ => Ok []
  end.

Definition any_info_of_name (name : string) : option IndexInfo :=
  match strip_prefix "node_idx$" name with
  | Some rest =>
      match str_split "$" rest with
      | label :: p :: ps => Some (mkIndexInfo label (p :: ps) "btree")
      | _ => None
      end
  | None =>
      rest ← strip_prefix "node_idx_" name;
      '(label, property) ← split_once "_" rest;
      Some (mkIndexInfo label [property] "btree")
  end.

Definition list_all_indexes (c : conn) : Res (list IndexInfo) :=
  storage (sql_table_names c "node_idx\_%" (Some "\"%byte) "node_idx$%")
    ≫= λ names : list string, Ok (omap any_info_of_name names).

(** ** Maintenance *)

Definition update_index (id : N) (label : string) (old_properties : option Properties)
    (new_properties : Properties) (info : IndexInfo) : M' unit :=
  reads (resolve_index_table label (info_properties info)) ≫= λ table : string,
  match old_properties with
  | Some old => drop_entry table (info_properties info) id old
  | None => mret ()
  end ≫= λ _,
  add_entry table (info_properties info) id new_properties.

Definition update_indexes_for_label (id : N) (label : string)
    (old_properties : option Properties) (new_properties : Properties) : M' unit :=
  reads (list_indexes_for_label label) ≫= λ infos : list IndexInfo,
  for_each (update_index id label old_properties new_properties) infos.

Definition update_indexes_for_node (id : N) (labels : list string)
    (old_properties : option Properties) (new_properties : Properties) : M' unit :=
  for_each (λ label, update_indexes_for_label id label old_properties new_properties) labels.

Definition remove_index (id : N) (label : string) (properties : Properties) (info : IndexInfo)
    : M' unit :=
  reads (resolve_index_table label (info_properties info)) ≫= λ table : string,
  drop_entry table (info_properties info) id properties.

Definition remove_indexes_for_label (id : N) (label : string) (properties : Properties)
    : M' unit :=
  reads (list_indexes_for_label label) ≫= λ infos : list IndexInfo,
  for_each (remove_index id label properties) infos.

Definition remove_indexes_for_node (id : N) (labels : list string) (properties : Properties)
    : M' unit :=
  for_each (λ label, remove_indexes_for_label id label properties) labels.
End Index.

(** ** Simulation

    The listing of the catalogue has no fixed order, so the maintenance loops
    are not simulated as a whole; their steps are. *)
Section Simulation.
Context {conn : Type} {O : SqlOps conn} {view : conn → db} {L : SqlLaws conn view}
  {Mp : Msgpack}.

Lemma table_exists_view t c : table_exists t c = table_exists t (view c).
Proof. unfold table_exists. by rewrite law_table_exists. Qed.
Lemma resolve_index_table_view l ps c :
  resolve_index_table l ps c = resolve_index_table l ps (view c).
Proof.
  unfold resolve_index_table. destruct (composite_index_table_name l ps); [|done..].
  cbn [mbind result_bind]. rewrite table_exists_view.
  destruct (table_exists _ (view c)) as [[]| |]; [done| |done..]. cbn [mbind result_bind].
  destruct ps as [|p [|]]; [done| |done]. destruct (legacy_single_index_table_name l p); [|done..].
  cbn [mbind result_bind]. by rewrite table_exists_view.
Qed.
Lemma index_present_view t l ps c : index_present t l ps c = index_present t l ps (view c).
Proof.
  unfold index_present. rewrite table_exists_view.
  destruct (table_exists _ (view c)) as [[]| |]; [done| |done..]. cbn [mbind result_bind].
  destruct ps as [|p [|]]; [done| |done]. destruct (legacy_single_index_table_name l p); [|done..].
  cbn [mbind result_bind]. by rewrite table_exists_view.
Qed.
Lemma index_lookup_view l p v c : index_lookup l p v c = index_lookup l p v (view c).
Proof.
  unfold index_lookup. rewrite resolve_index_table_view.
  destruct (resolve_index_table l [p] (view c)); [|done..]. cbn [mbind result_bind].
  destruct (ser (to_vec_value v)); [|done..]. cbn [mbind result_bind].
  by rewrite kv_scan_prefix_view.
Qed.
Lemma composite_index_prefix_lookup_view l ps vs c :
  composite_index_prefix_lookup l ps vs c = composite_index_prefix_lookup l ps vs (view c).
Proof.
  unfold composite_index_prefix_lookup. rewrite resolve_index_table_view.
  destruct (decide _); [done|]. destruct (resolve_index_table l ps (view c)); [|done..].
  cbn [mbind result_bind]. destruct (value_frames vs); [|done..].
  cbn [mbind result_bind]. by rewrite law_query_key_range.
Qed.
Hint Resolve resolve_index_table_view index_present_view table_exists_view : refine.

Lemma add_entry_refines t ps i p : refines view (add_entry t ps i p) (add_entry t ps i p).
Proof. unfold add_entry. solve_refines. Qed.
Lemma drop_entry_refines t ps i p : refines view (drop_entry t ps i p) (drop_entry t ps i p).
Proof. unfold drop_entry. solve_refines. Qed.
Hint Resolve add_entry_refines drop_entry_refines : refine.

Lemma update_index_refines i l o n info :
  refines view (update_index i l o n info) (update_index i l o n info).
Proof. unfold update_index. solve_refines. Qed.
Lemma remove_index_refines i l p info :
  refines view (remove_index i l p info) (remove_index i l p info).
Proof. unfold remove_index. solve_refines. Qed.

Lemma create_composite_index_refines l ps :
  refines view (create_composite_index l ps) (create_composite_index l ps).
Proof.
  unfold create_composite_index, index_node. solve_refines.
  apply exec_refines. intros c. apply law_create_table.
Qed.
Lemma drop_composite_index_refines l ps :
  refines view (drop_composite_index l ps) (drop_composite_index l ps).
Proof.
  unfold drop_composite_index. solve_refines. apply exec_refines. intros c. apply law_drop_table.
Qed.
End Simulation.

(** * Index names and index key ranges

    The name of an index table spells the label and the properties; it can be
    read back, so two indexes never share a table.  The two ways of computing the
    end of a key range agree. *)

Definition index_name (label : string) (properties : list string) : string :=
  "node_idx$" +:+ label +:+ "$" +:+ join "$" properties.
Definition valid_index (label : string) (properties : list string) : Prop :=
  valid_name label ∧ properties ≠ [] ∧ Forall valid_name properties ∧ NoDup properties.
#[global] Instance valid_index_dec l ps : Decision (valid_index l ps).
Proof. unfold valid_index. apply _. Defined.

(** ** Splitting *)
Lemma valid_name_no_dollar s : valid_name s → "$"%byte ∉ str_bytes s.
Proof. intros H. by apply (valid_name_no_byte s). Qed.

Lemma bytes_split_join ps :
  ps ≠ [] → Forall (λ s, "$"%byte ∉ str_bytes s) ps →
  bytes_split "$" (str_bytes (join "$" ps)) = str_bytes <$> ps.
Proof.
  induction ps as [|p [|q ps] IH]; intros Hne Hps; [done| |].
  - apply bytes_split_one. by apply Forall_cons in Hps as [? _].
  - apply Forall_cons in Hps as [Hp Hps].
    change (join "$" (p :: q :: ps)) with (p +:+ "$" +:+ join "$" (q :: ps)).
    rewrite !str_bytes_app. change (str_bytes "$") with ["$"%byte]. cbn [app].
    rewrite bytes_split_app by done. by rewrite IH.
Qed.

Lemma str_split_join ps :
  ps ≠ [] → Forall valid_name ps → str_split "$" (join "$" ps) = ps.
Proof.
  intros Hne Hps. unfold str_split. rewrite bytes_split_join; [|done|].
  - rewrite <- list_fmap_compose. rewrite <- (list_fmap_id ps) at 2.
    apply list_fmap_ext. intros i s _. apply bytes_str_bytes.
  - eapply Forall_impl; [done|]. apply valid_name_no_dollar.
Qed.

Lemma str_app_assoc a b c : (a +:+ b) +:+ c = a +:+ (b +:+ c).
Proof. apply (inj str_bytes). by rewrite !str_bytes_app, app_assoc. Qed.

Lemma strip_prefix_app p s : strip_prefix p (p +:+ s) = Some s.
Proof.
  unfold strip_prefix. rewrite str_bytes_app.
  rewrite (proj2 (bytes_strip_prefix_spec _ _ (str_bytes s))) by done.
  cbn. by rewrite bytes_str_bytes.
Qed.
Lemma strip_prefix_spec p s r : strip_prefix p s = Some r ↔ s = p +:+ r.
Proof.
  split; [|intros ->; apply strip_prefix_app].
  unfold strip_prefix. intros (l & H & ->)%fmap_Some. apply bytes_strip_prefix_spec in H.
  apply (inj str_bytes). by rewrite str_bytes_app, str_bytes_str.
Qed.

(** Two texts that end at their first separator agree when they start alike. *)
Lemma delim_prefix (c : byte) (a b k : bytes) :
  c ∉ a → c ∉ b → (a ++ [c]) `prefix_of` (b ++ c :: k) → a = b.
Proof.
  revert b. induction a as [|x a IH]; intros [|y b] Ha Hb [r Hr]; cbn in Hr;
    rewrite ?not_elem_of_cons in Ha; rewrite ?not_elem_of_cons in Hb.
  - done.
  - injection Hr as <- _. naive_solver.
  - injection Hr as <- _. naive_solver.
  - injection Hr as <- Hr. f_equal. apply IH; [naive_solver..|]. by exists r.
Qed.

(** ** Names *)
Lemma check_properties_ok seen ps :
  check_properties seen ps = Ok () ↔
  Forall valid_name ps ∧ NoDup ps ∧ Forall (λ p, p ∉ seen) ps.
Proof.
  revert seen. induction ps as [|p ps IH]; intros seen; cbn [check_properties].
  { split; [|done]. intros _. by repeat constructor. }
  destruct (validate_name_cases p) as [E|E]; rewrite E; cbn [mbind result_bind].
  - rewrite !Forall_cons, NoDup_cons. destruct (decide (p ∈ seen)) as [Hp|Hp]; [naive_solver|].
    rewrite IH. rewrite !Forall_forall. unfold valid_name at 3. split; [set_solver|].
    intros ((_ & H1) & (H2 & H3) & (_ & H4)). split_and!; [done|done|].
    intros q Hq. rewrite elem_of_union, elem_of_singleton. intros [->|H]; [done|].
    by apply (H4 q).
  - split; [done|]. rewrite Forall_cons. unfold valid_name. rewrite E. naive_solver.
Qed.

Lemma index_table_name_ok l ps n :
  composite_index_table_name l ps = Ok n ↔ valid_index l ps ∧ n = index_name l ps.
Proof.
  unfold composite_index_table_name, valid_index.
  destruct (decide (ps = [])) as [->|Hne]; [naive_solver|].
  destruct (validate_name_cases l) as [E|E]; unfold valid_name at 1; rewrite E;
    cbn [mbind result_bind]; [|naive_solver].
  pose proof (check_properties_ok ∅ ps) as Hc.
  assert (Forall (λ p, p ∉ (∅ : gset string)) ps) as He by (apply Forall_forall; set_solver).
  destruct (check_properties ∅ ps) as [[]|e|]; cbn [mbind result_bind]; unfold index_name;
    split; try naive_solver.
Qed.

Lemma index_name_valid l ps :
  valid_index l ps → composite_index_table_name l ps = Ok (index_name l ps).
Proof. intros H. by apply index_table_name_ok. Qed.

Lemma parse_index_name l ps l' :
  valid_index l ps → valid_name l' →
  parse_composite_table_name (index_name l ps) l' = if decide (l = l') then Some ps else None.
Proof.
  intros (Hl & Hne & Hps & _) Hl'. unfold parse_composite_table_name, index_name.
  rewrite strip_prefix_app. cbn [mbind option_bind].
  destruct (decide (l = l')) as [<-|Hd].
  - rewrite <- str_app_assoc, strip_prefix_app. cbn [mbind option_bind].
    rewrite str_split_join by done. by rewrite decide_False.
  - destruct (strip_prefix (l' +:+ "$") _) as [r|] eqn:E; [|done]. exfalso. apply Hd. symmetry.
    apply strip_prefix_spec in E. apply (inj str_bytes).
    apply (delim_prefix "$"%byte _ _ (str_bytes (join "$" ps))); [by apply valid_name_no_dollar..|].
    exists (str_bytes r). apply (f_equal str_bytes) in E. by rewrite !str_bytes_app in E.
Qed.

Lemma index_name_inj l ps l' ps' :
  valid_index l ps → valid_index l' ps' → index_name l ps = index_name l' ps' →
  l = l' ∧ ps = ps'.
Proof.
  intros H H' E. pose proof (parse_index_name _ _ l' H (proj1 H')) as P1.
  rewrite E, (parse_index_name _ _ l' H' (proj1 H')), decide_True in P1 by done.
  destruct (decide (l = l')); naive_solver.
Qed.

Lemma any_info_index_name l ps :
  valid_index l ps → any_info_of_name (index_name l ps) = Some (mkIndexInfo l ps "btree").
Proof.
  intros (Hl & Hne & Hps & _). unfold any_info_of_name, index_name. rewrite strip_prefix_app.
  assert (str_split "$" (l +:+ "$" +:+ join "$" ps) = l :: ps) as ->.
  { destruct ps as [|p ps]; [done|].
    by rewrite <- (str_split_join (l :: p :: ps)) by (done || by constructor). }
  by destruct ps.
Qed.

Lemma index_name_not_legacy l ps r : index_name l ps ≠ "node_idx_" +:+ r.
Proof. intros E. apply (f_equal str_bytes) in E. unfold index_name in E.
  rewrite !str_bytes_app in E. discriminate.
Qed.

Lemma info_of_index_name l ps l' :
  valid_index l ps → valid_name l' →
  info_of_name l' (index_name l ps) =
    if decide (l = l') then Some (mkIndexInfo l ps "btree") else None.
Proof.
  intros H Hl'. unfold info_of_name. rewrite parse_index_name by done.
  destruct (decide (l = l')) as [->|]; [done|].
  destruct (strip_prefix _ _) as [r|] eqn:E; [|done]. exfalso.
  apply strip_prefix_spec in E. rewrite str_app_assoc in E. by apply index_name_not_legacy in E.
Qed.

(** ** The end of a range *)
Lemma next_prefix_loop_upper_bound i p :
  i ≤ length p → next_prefix_loop i p = prefix_upper_bound (take i p).
Proof.
  unfold prefix_upper_bound. induction i as [|i IH]; intros Hi; [done|].
  destruct (lookup_lt_is_Some_2 p i Hi) as [b Hb]. cbn [next_prefix_loop]. rewrite Hb.
  rewrite (take_S_r _ _ _ Hb), reverse_snoc. cbn [prefix_upper_bound_loop].
  destruct (decide (b2n b < 255)%N); [|apply IH; lia].
  by rewrite reverse_cons, reverse_involutive.
Qed.
Lemma next_prefix_upper_bound p : next_prefix p = prefix_upper_bound p.
Proof.
  unfold next_prefix. rewrite next_prefix_loop_upper_bound by done. by rewrite firstn_all.
Qed.
