(* ===== verification/IndexSpec.v ===== *)
(** * What the index tables hold

    [indexed ns d]: every index table of [d] has exactly the entries of the nodes
    in [ns] that carry its label and all its properties.  Lookups return exactly
    the matching nodes; creation, maintenance and removal keep the tables so. *)
From S2P Require Export Graph Index.

(** ** LIKE with a literal prefix *)
Lemma like_any fuel s : S (length s) < fuel → like_fuel fuel None ["%"%byte] s = true.
Proof.
  revert fuel. induction s as [|b s IH]; intros [|fuel] Hf; cbn [length] in Hf; try lia.
  - destruct fuel; [lia|]. done.
  - cbn [like_fuel]. rewrite bool_decide_eq_false_2 by done. cbn. rewrite IH by lia.
    apply orb_true_r.
Qed.

Lemma skip_cont_id l : Forall (λ b, utf8_cont b = false) l → skip_cont l = l.
Proof. intros [|b l' Hb _]; [done|]. cbn. by rewrite Hb. Qed.

Lemma like_prefix_fuel fuel p s :
  Forall (λ b, b ≠ "%"%byte) p → Forall (λ b, utf8_cont b = false) (p ++ s) →
  S (length p + length s) < fuel → like_fuel fuel None (p ++ ["%"%byte]) (p ++ s) = true.
Proof.
  intros Hp. revert fuel. induction Hp as [|b p Hb Hp IH]; intros [|fuel] Ha Hf;
    cbn [length app] in *; try lia; [by apply like_any|].
  cbn [like_fuel]. rewrite bool_decide_eq_false_2 by done.
  rewrite bool_decide_eq_false_2 by done. apply Forall_cons in Ha as [_ Ha].
  destruct (bool_decide (b = "_"%byte)).
  - rewrite skip_cont_id by done. apply IH; [done|lia].
  - rewrite bool_decide_eq_true_2 by done. apply IH; [done|lia].
Qed.

Definition ascii_name (s : string) : Prop :=
  Forall (λ b, b ≠ "%"%byte ∧ utf8_cont b = false) (str_bytes s).

Lemma ascii_name_app s t : ascii_name s → ascii_name t → ascii_name (s +:+ t).
Proof. intros. unfold ascii_name. rewrite str_bytes_app. by apply Forall_app. Qed.
Lemma valid_name_ascii s : valid_name s → ascii_name s.
Proof.
  intros [_ H]%valid_name_iff. eapply Forall_impl; [exact H|].
  intros b Hb%name_byte_range. split; [intros ->; by destruct Hb|].
  unfold utf8_cont. apply andb_false_iff. rewrite !N.leb_gt. lia.
Qed.
Lemma join_ascii ps : Forall valid_name ps → ascii_name (join "$" ps).
Proof.
  induction 1 as [|p ps Hp Hps IH]; [constructor|].
  destruct ps as [|q ps]; [by apply valid_name_ascii|].
  change (join "$" (p :: q :: ps)) with (p +:+ "$" +:+ join "$" (q :: ps)).
  repeat apply ascii_name_app; [by apply valid_name_ascii| |done].
  repeat constructor; done.
Qed.

Lemma like_prefix p s : ascii_name p → ascii_name s → like None (p +:+ "%") (p +:+ s) = true.
Proof.
  unfold ascii_name, like, str_len. rewrite !str_bytes_app, !length_app.
  change (str_bytes "%") with ["%"%byte]. intros Hp Hs. apply like_prefix_fuel.
  - eapply Forall_impl; [exact Hp|]. by intros b [].
  - apply Forall_app. split; (eapply Forall_impl; [eassumption|]); by intros b [].
  - cbn. lia.
Qed.

(** ** Keys *)
Section Keys.
Context {Mp : Msgpack}.

Definition frames (vs : list value) : bytes := concat (enc_value <$> vs).
Definition index_key (vs : list value) (i : N) : bytes := frames vs ++ u64_to_be i.

Lemma key_node_id_app l i : in_u64 i → key_node_id (l ++ u64_to_be i) = Some i.
Proof.
  intros Hi. unfold key_node_id. rewrite length_app, length_u64_to_be.
  rewrite decide_True by lia. f_equal. replace (length l + 8 - 8) with (length l) by lia.
  rewrite drop_app_length. unfold u64_to_be. rewrite be_combine_split. by apply N.mod_small.
Qed.

Lemma index_key_id vs ws i j :
  in_u64 i → in_u64 j → index_key vs i = index_key ws j → i = j.
Proof.
  intros Hi Hj E. apply (f_equal key_node_id) in E. unfold index_key in E.
  rewrite !key_node_id_app in E by done. by simplify_eq.
Qed.

Context {ML : MsgpackLaws}.

Lemma value_frames_run vs : value_frames vs = Ok (frames vs).
Proof.
  induction vs as [|v vs IH]; [done|]. cbn. rewrite law_to_vec_value. cbn. by rewrite IH.
Qed.
Lemma composite_index_key_run vs i : composite_index_key vs i = Ok (index_key vs i).
Proof. unfold composite_index_key. by rewrite value_frames_run. Qed.

Lemma frames_prefix vs ws r :
  length vs ≤ length ws → frames vs `prefix_of` frames ws ++ r ↔ vs `prefix_of` ws.
Proof.
  revert ws. induction vs as [|v vs IH]; intros [|w ws] Hl; cbn [length] in Hl; try lia.
  - split; intros _; apply prefix_nil.
  - split; intros _; apply prefix_nil.
  - unfold frames. cbn. rewrite <- app_assoc. split.
    + intros [x Hx]. rewrite <- app_assoc in Hx.
      pose proof (law_value_frame _ _ _ _ Hx) as ->. apply app_inv_head in Hx.
      apply prefix_cons, IH; [lia|]. unfold frames. by exists x.
    + intros Hp. pose proof (prefix_cons_inv_1 _ _ _ _ Hp) as ->.
      apply prefix_app, IH; [lia|]. by apply prefix_cons_inv_2 in Hp.
Qed.

Lemma index_key_prefix vs ws i :
  length vs ≤ length ws → frames vs `prefix_of` index_key ws i ↔ vs `prefix_of` ws.
Proof. apply frames_prefix. Qed.
End Keys.

Lemma collect_values_length p ps vs : collect_values p ps = Some vs → length vs = length ps.
Proof.
  revert vs. induction ps as [|q ps IH]; intros vs H; cbn in H; [by simplify_eq|].
  destruct (p !! q) as [v|]; [|done]. destruct (collect_values p ps) as [ws|]; [|done].
  cbn in H. simplify_eq. cbn. f_equal. by apply IH.
Qed.
Lemma collect_values_spec p ps vs :
  collect_values p ps = Some vs ↔ Forall2 (λ q v, p !! q = Some v) ps vs.
Proof.
  revert vs. induction ps as [|q ps IH]; intros vs; cbn.
  - split; [intros [= <-]; constructor|]. by inversion 1.
  - split.
    + destruct (p !! q) as [v|] eqn:Eq; [|done].
      destruct (collect_values p ps) as [ws|] eqn:Ew; [|done].
      cbn. intros [= <-]. constructor; [done|]. by apply IH.
    + inversion 1 as [|? v ? ws Hv Hws]; subst. apply IH in Hws. by rewrite Hv, Hws.
Qed.

(** ** The invariant *)
(** What a change of rows leaves alone. *)
Definition tbl_head (T : tbl) : string * list string * option (string * list string) :=
  (tbl_name T, tbl_cols T, (λ f, (fts_sql f, fts_cols f)) <$> tbl_fts T).

(** The table of an index, under its exact name. *)
Definition index_tbl (d : db) (l : string) (ps : list string) (T : tbl) : Prop :=
  find_tbl d (index_name l ps) = Some T ∧ tbl_name T = index_name l ps.
Definition has_index (d : db) (l : string) (ps : list string) : Prop := ∃ T, index_tbl d l ps T.
#[global] Instance has_index_dec d l ps : Decision (has_index d l ps).
Proof.
  refine (match find_tbl d (index_name l ps) as o
            return find_tbl d (index_name l ps) = o → Decision (has_index d l ps) with
          | Some T => λ E, cast_if (decide (tbl_name T = index_name l ps))
          | None => λ E, right _
          end eq_refl).
  - by exists T.
  - intros (T' & H1 & H2). rewrite E in H1. by simplify_eq.
  - intros (T' & H1 & H2). congruence.
Defined.

(** The tables are filed under their names, and the index tables have the
    canonical names. *)
Record catalogue (d : db) : Prop := {
  ct_keys k T : d !! k = Some T → k = str_lower (tbl_name T);
  ct_legacy k T r : d !! k = Some T → tbl_name T ≠ "node_idx_" +:+ r;
  ct_names k T r : d !! k = Some T → tbl_name T = "node_idx$" +:+ r →
                   ∃ l ps, valid_index l ps ∧ tbl_name T = index_name l ps;
  ct_plain k T r : d !! k = Some T → tbl_name T = "node_idx$" +:+ r → tbl_fts T = None;
}.

Section Invariant.
Context {Mp : Msgpack}.

(** The key of node [i] with properties [p] in an index on [ps]. *)
Definition holds (ps : list string) (i : N) (p : option Properties) (k : bytes) : Prop :=
  ∃ q vs, p = Some q ∧ collect_values q ps = Some vs ∧ k = index_key vs i.

Definition entry (ns : gmap N NodeRecord) (l : string) (ps : list string) (k : bytes) : Prop :=
  ∃ i rec, ns !! i = Some rec ∧ l ∈ rec_labels rec
    ∧ holds ps i (Some (rec_properties rec)) k.

Record indexed (ns : gmap N NodeRecord) (d : db) : Prop := {
  ix_catalogue : catalogue d;
  ix_rows l ps T : valid_index l ps → index_tbl d l ps T →
                   ∀ k, is_Some (tbl_rows T !! k) ↔ entry ns l ps k;
}.
End Invariant.

(** ** Finding the tables *)
Lemma check_table_index_name l ps : valid_index l ps → check_table (index_name l ps) = Ok ().
Proof.
  intros (Hl & _ & Hps & _). unfold check_table. rewrite bool_decide_eq_false_2.
  2:{ intros E. apply (f_equal str_bytes) in E. unfold index_name in E.
      by rewrite str_bytes_app in E. }
  cbn [orb]. set (ok := λ b, _).
  assert (∀ s, valid_name s → forallb ok (str_bytes s) = true) as Hv.
  { intros s [_ H]%valid_name_iff. apply forallb_forall. intros b Hb%list_elem_of_In.
    rewrite Forall_forall in H. specialize (H b Hb). unfold ok. unfold name_byte_ok in H.
    by rewrite H. }
  assert (forallb ok (str_bytes (join "$" ps)) = true) as Hj.
  { induction Hps as [|p [|q ps] Hp Hps IH]; [done|by apply Hv|].
    change (join "$" (p :: q :: ps)) with (p +:+ "$" +:+ join "$" (q :: ps)).
    rewrite !str_bytes_app, !forallb_app, IH, (Hv p Hp). done. }
  unfold index_name. by rewrite !str_bytes_app, !forallb_app, (Hv l Hl), Hj.
Qed.

Section Finding.
Context {d : db} (Hc : catalogue d).

Lemma table_exists_index l ps :
  table_exists (index_name l ps) d = Ok (bool_decide (has_index d l ps)).
Proof.
  unfold table_exists. cbn. f_equal. apply bool_decide_ext. unfold has_index, index_tbl.
  split.
  - intros (T & HT & E)%fmap_Some. eauto.
  - intros (T & HT & E). rewrite HT. cbn. by rewrite E.
Qed.

Lemma table_exists_legacy l p :
  valid_name l → valid_name p →
  ∃ t, legacy_single_index_table_name l p = Ok t ∧ table_exists t d = Ok false.
Proof.
  intros Hl Hp. unfold legacy_single_index_table_name. rewrite Hl, Hp. cbn [mbind result_bind].
  eexists. split; [done|]. unfold table_exists. cbn. f_equal. apply bool_decide_eq_false_2.
  intros (T & HT & E)%fmap_Some. symmetry in E. by eapply (ct_legacy _ Hc) in E.
Qed.

Lemma resolve_index_table_run l ps :
  valid_index l ps → resolve_index_table l ps d = Ok (index_name l ps).
Proof.
  intros Hi. unfold resolve_index_table. rewrite index_name_valid by done.
  cbn [mbind result_bind]. rewrite table_exists_index. cbn [mbind result_bind].
  destruct (bool_decide _); [done|]. destruct ps as [|p [|]]; [done| |done].
  destruct Hi as (Hl & _ & Hp & _). apply Forall_cons in Hp as [Hp _].
  destruct (table_exists_legacy l p Hl Hp) as (t & -> & E).
  cbn [mbind result_bind]. by rewrite E.
Qed.

Lemma has_index_iff l ps :
  has_index d l ps ↔ ∃ k T, d !! k = Some T ∧ tbl_name T = index_name l ps.
Proof.
  split; [intros (T & HT & E); by exists (str_lower (index_name l ps)), T|].
  intros (k & T & Hk & E). exists T. split; [|done]. unfold find_tbl. rewrite <- E.
  by rewrite <- (ct_keys _ Hc k T Hk).
Qed.
End Finding.

Lemma list_indexes_run {conn} {O : SqlOps conn} {view : conn → db} {L : SqlLaws conn view} c l :
  catalogue (view c) →
  ∃ infos, list_indexes_for_label l c = Ok infos ∧
    ∀ info, info ∈ infos ↔
      ∃ ps, info = mkIndexInfo l ps "btree" ∧ valid_index l ps ∧ has_index (view c) l ps.
Proof.
  intros Hc. unfold list_indexes_for_label. destruct (validate_name_cases l) as [Hl|Hl]; rewrite Hl.
  2:{ exists []. split; [done|]. intros info. split; [set_solver|]. intros (ps & _ & [Hv _] & _).
      unfold valid_name in Hv. congruence. }
  edestruct (law_table_names c) as (names & -> & Hn). eexists. split; [done|].
  intros info. rewrite list_elem_of_omap. setoid_rewrite Hn. clear names Hn.
  setoid_rewrite list_elem_of_filter. setoid_rewrite list_elem_of_fmap.
  setoid_rewrite list_elem_of_fmap. split.
  - intros (n & (_ & T & -> & (kT & -> & Hk)) & E). destruct kT as [k T]. cbn [snd] in E.
    apply elem_of_map_to_list in Hk. unfold info_of_name in E.
    assert (∃ r, tbl_name T = "node_idx$" +:+ r) as [r Hr].
    { unfold parse_composite_table_name in E.
      destruct (strip_prefix "node_idx$" (tbl_name T)) as [r|] eqn:Er.
      { exists r. by apply strip_prefix_spec. }
      cbn [mbind option_bind] in E. apply fmap_Some in E as (p & E & _).
      apply strip_prefix_spec in E. rewrite str_app_assoc in E.
      by eapply (ct_legacy _ Hc) in E. }
    destruct (ct_names _ Hc k T r Hk Hr) as (l' & ps & Hv & En).
    fold (info_of_name l (tbl_name T)) in E. rewrite En, info_of_index_name in E by done.
    destruct (decide (l' = l)) as [->|]; [|done]. simplify_eq. exists ps. split_and!; [done..|].
    apply has_index_iff; eauto.
  - intros (ps & -> & Hv & Hi). apply has_index_iff in Hi as (k & T & Hk & En); [|done].
    exists (tbl_name T). split.
    + split.
      * rewrite En. apply orb_true_iff. right. unfold index_name.
        assert (ascii_name ("node_idx$" +:+ l +:+ "$")) as Ha.
        { repeat apply ascii_name_app; [|by apply valid_name_ascii|]; repeat constructor; done. }
        pose proof (like_prefix _ (join "$" ps) Ha) as Hlike.
        rewrite !str_app_assoc in Hlike. apply Hlike, join_ascii. apply Hv.
      * exists T. split; [done|]. exists (k, T). split; [done|]. by apply elem_of_map_to_list.
    + rewrite En, info_of_index_name by done. by rewrite decide_True.
Qed.

(** ** Lookups *)
Lemma NoDup_omap_inj {A B} (f : A → option B) l :
  NoDup l → (∀ x y b, x ∈ l → y ∈ l → f x = Some b → f y = Some b → x = y) → NoDup (omap f l).
Proof.
  induction 1 as [|x l Hx Hnd IH]; intros Hf; [constructor|]. cbn.
  assert (NoDup (omap f l)) as Hl by (apply IH; intros; eapply Hf; eauto; by right).
  destruct (f x) as [b|] eqn:Eb; [|done]. constructor; [|done].
  rewrite list_elem_of_omap. intros (y & Hy & Ey). destruct Hx.
  rewrite (Hf x y b); [done|left|by right|done..].
Qed.

Section Lookup.
Context {Mp : Msgpack} {ML : MsgpackLaws}.
Context {ns : gmap N NodeRecord} {d : db} (Hix : indexed ns d).
Context (Hids : ∀ i, is_Some (ns !! i) → in_u64 i).

(** The node ids of the entries that start with [vs]. *)
Lemma ids_of_keys l ps vs (keys : list bytes) :
  length vs ≤ length ps → NoDup keys →
  (∀ k, k ∈ keys ↔ frames vs `prefix_of` k ∧ entry ns l ps k) →
  NoDup (omap key_node_id keys)
  ∧ ∀ i, i ∈ omap key_node_id keys ↔
      ∃ rec ws, ns !! i = Some rec ∧ l ∈ rec_labels rec
        ∧ collect_values (rec_properties rec) ps = Some ws ∧ vs `prefix_of` ws.
Proof.
  intros Hlen Hnd Hk.
  assert (∀ k i, k ∈ keys → key_node_id k = Some i → ∃ rec ws, ns !! i = Some rec
    ∧ l ∈ rec_labels rec ∧ collect_values (rec_properties rec) ps = Some ws
    ∧ vs `prefix_of` ws ∧ k = index_key ws i) as Hinv.
  { intros k i Hin Ei. apply Hk in Hin as [Hp (j & rec & Hj & Hl & q & ws & [= <-] & Hc & ->)].
    unfold index_key in Ei. rewrite key_node_id_app in Ei by (apply Hids; eauto). simplify_eq.
    exists rec, ws. split_and!; [done..| |done]. apply (index_key_prefix vs ws i); [|done].
    by rewrite (collect_values_length _ _ _ Hc). }
  split.
  - apply NoDup_omap_inj; [done|]. intros k k' i Hin Hin' E E'.
    destruct (Hinv _ _ Hin E) as (r & ws & Hr & _ & Hc & _ & ->).
    destruct (Hinv _ _ Hin' E') as (r' & ws' & Hr' & _ & Hc' & _ & ->). by simplify_eq.
  - intros i. rewrite list_elem_of_omap. split.
    + intros (k & Hin & E). destruct (Hinv _ _ Hin E) as (r & ws & ? & ? & ? & ? & _). eauto 7.
    + intros (rec & ws & Hi & Hl & Hc & Hp). exists (index_key ws i). split.
      * apply Hk. split; [|by exists i, rec; split_and!; [..|exists (rec_properties rec), ws]].
        apply index_key_prefix; [|done]. by rewrite (collect_values_length _ _ _ Hc).
      * unfold index_key. apply key_node_id_app, Hids. eauto.
Qed.

Context (l : string).

Lemma index_lookup_spec p v :
  valid_index l [p] → has_index d l [p] →
  ∃ ids, index_lookup l p v d = Ok ids ∧ NoDup ids
    ∧ ∀ i, i ∈ ids ↔ ∃ rec, ns !! i = Some rec ∧ l ∈ rec_labels rec
                        ∧ rec_properties rec !! p = Some v.
Proof.
  intros Hv (T & HT). unfold index_lookup.
  rewrite resolve_index_table_run by (done || apply Hix). cbn [mbind result_bind].
  rewrite law_to_vec_value. cbn [ser mbind result_bind].
  rewrite (kv_scan_prefix_run d _ T) by (by apply check_table_index_name || apply HT).
  eexists. split; [done|].
  destruct (ids_of_keys l [p] [v] (scan (tbl_rows T) (enc_value v)).*1) as [H1 H2];
    [done|apply NoDup_scan_keys| |].
  { intros k. rewrite list_elem_of_fmap. rewrite <- (ix_rows _ _ Hix l [p] T Hv HT k).
    unfold frames. cbn. rewrite app_nil_r. split.
    - intros ([k' b] & -> & Hin). apply elem_of_scan in Hin as [Hp Hb].
      split; [done|]. apply fmap_Some in Hb as (r & Hr & _). eauto.
    - intros [Hp [r Hr]]. exists (k, row_value r). split; [done|]. apply elem_of_scan.
      by rewrite Hr. }
  split; [done|]. intros i. rewrite H2. split.
  - intros (rec & ws & Hi & Hl & Hc & Hp). exists rec. split_and!; [done..|].
    apply collect_values_spec in Hc. inversion Hc as [|? w ? ? Hw Hn]; subst.
    inversion Hn; subst. by apply prefix_cons_inv_1 in Hp as ->.
  - intros (rec & Hi & Hl & Hw). exists rec, [v]. split_and!; [done..| |done].
    apply collect_values_spec. by repeat constructor.
Qed.

Lemma index_lookup_missing p v :
  valid_index l [p] → ¬ has_tbl d (index_name l [p]) →
  index_lookup l p v d = Err (GraphError.IndexNotFound l [p] None).
Proof.
  intros Hv Ht. unfold index_lookup.
  rewrite resolve_index_table_run by (done || apply Hix). cbn [mbind result_bind].
  rewrite law_to_vec_value. cbn [ser mbind result_bind].
  assert (find_tbl d (index_name l [p]) = None) as E by (by apply eq_None_not_Some).
  unfold kv_scan_prefix. rewrite check_table_index_name by done. cbn. unfold db_query_range, on_tbl.
  rewrite E. cbn [storage]. unfold GraphError.from_rusqlite.
  assert (str_contains (no_such_table (index_name l [p])) "no such table" = true) as ->; [|done].
  unfold str_contains, no_such_table. apply bytes_contains_prefix. rewrite str_bytes_app.
  by eexists.
Qed.

Lemma prefix_lookup_spec ps vs :
  valid_index l ps → has_index d l ps → length vs ≤ length ps →
  ∃ ids, composite_index_prefix_lookup l ps vs d = Ok ids ∧ NoDup ids
    ∧ ∀ i, i ∈ ids ↔
        ∃ rec ws, ns !! i = Some rec ∧ l ∈ rec_labels rec
          ∧ collect_values (rec_properties rec) ps = Some ws ∧ vs `prefix_of` ws.
Proof.
  intros Hv (T & HT) Hlen. unfold composite_index_prefix_lookup.
  rewrite decide_False by lia. rewrite resolve_index_table_run by (done || apply Hix).
  cbn [mbind result_bind]. rewrite value_frames_run. cbn [mbind result_bind sql_query_key_range MemDb].
  unfold db_query_key_range, on_tbl. rewrite (proj1 HT). cbn [storage mbind result_bind].
  rewrite next_prefix_upper_bound. eexists. split; [done|]. apply ids_of_keys; [done| |].
  - eapply sublist_NoDup; [apply NoDup_ordered_keys|]. apply fmap_sublist, sublist_filter.
  - intros k. rewrite <- (ix_rows _ _ Hix l ps T Hv HT k), list_elem_of_fmap. split.
    + intros ([k' r] & -> & [Hp%in_prefix_range Hin]%list_elem_of_filter).
      apply elem_of_ordered in Hin. eauto.
    + intros [Hp [r Hr]]. exists (k, r). split; [done|]. apply list_elem_of_filter.
      split; [by apply in_prefix_range|]. by apply elem_of_ordered.
Qed.
End Lookup.
