(* ===== verification/IndexMaint.v ===== *)
(** * Index maintenance

    The loops over the indexes of a node's labels, in whatever order the
    catalogue lists them, turn tables that index one set of nodes into tables
    that index the next one. *)
From S2P Require Export IndexSpec NodeSpec.

Abbreviation index_id := (string * list string)%type.

Section Touch.
Context {Mp : Msgpack}.

(** The entries after the one of [old] is dropped and the one of [new] added. *)
Definition touch (ps : list string) (i : N) (old new : option Properties)
    (R : bytes → Prop) (k : bytes) : Prop :=
  holds ps i new k ∨ (R k ∧ ¬ holds ps i old k).

Definition in_rows (T : tbl) (k : bytes) : Prop := is_Some (tbl_rows T !! k).

(** [d'] is [d] with the entries of node [i] changed in the indexes [S]. *)
Record touched (S : list index_id) (i : N) (old new : option Properties) (d d' : db) : Prop := {
  to_heads k : tbl_head <$> d' !! k = tbl_head <$> d !! k;
  to_frame k T : d !! k = Some T → (∀ l ps, (l, ps) ∈ S → tbl_name T ≠ index_name l ps) →
                 d' !! k = Some T;
  to_rows l ps T T' : (l, ps) ∈ S → index_tbl d l ps T → index_tbl d' l ps T' →
                      ∀ k, in_rows T' k ↔ touch ps i old new (in_rows T) k;
}.

Lemma touch_twice ps i old new R k :
  touch ps i old new (touch ps i old new R) k ↔ touch ps i old new R k.
Proof. unfold touch. tauto. Qed.
Lemma touch_ext ps i old new R R' k :
  (R k ↔ R' k) → touch ps i old new R k ↔ touch ps i old new R' k.
Proof. unfold touch. tauto. Qed.

Lemma same_heads_catalogue d d' :
  (∀ k, tbl_head <$> d' !! k = tbl_head <$> d !! k) → catalogue d → catalogue d'.
Proof.
  intros Hh Hc.
  assert (∀ k T', d' !! k = Some T' → ∃ T, d !! k = Some T ∧ tbl_name T = tbl_name T'
    ∧ (tbl_fts T = None → tbl_fts T' = None)) as H.
  { intros k T' HT'. specialize (Hh k). rewrite HT' in Hh. symmetry in Hh.
    apply fmap_Some in Hh as (T & HT & E). exists T. split; [done|].
    unfold tbl_head in E. injection E as E1 E2 E3. split; [done|]. intros E4.
    rewrite E4 in E3. by apply fmap_None in E3. }
  split.
  - intros k T' HT'. destruct (H _ _ HT') as (T & HT & <- & _). by apply (ct_keys _ Hc).
  - intros k T' r HT'. destruct (H _ _ HT') as (T & HT & <- & _). by apply (ct_legacy _ Hc k).
  - intros k T' r HT'. destruct (H _ _ HT') as (T & HT & <- & _). by apply (ct_names _ Hc k).
  - intros k T' r HT'. destruct (H _ _ HT') as (T & HT & <- & Hf). intros E.
    by eapply Hf, (ct_plain _ Hc k).
Qed.

Lemma same_heads_index d d' l ps :
  (∀ k, tbl_head <$> d' !! k = tbl_head <$> d !! k) → has_index d' l ps ↔ has_index d l ps.
Proof.
  intros Hh. unfold has_index, index_tbl, find_tbl.
  specialize (Hh (str_lower (index_name l ps))). split; intros (T & HT & E); rewrite HT in Hh.
  - symmetry in Hh. apply fmap_Some in Hh as (T' & HT' & E'). exists T'.
    split; [done|]. unfold tbl_head in E'. simplify_eq. congruence.
  - apply fmap_Some in Hh as (T' & HT' & E'). exists T'.
    split; [done|]. unfold tbl_head in E'. simplify_eq. congruence.
Qed.

Lemma touched_nil i old new d : touched [] i old new d d.
Proof. split; [done|done|]. by intros l ps T T' ?%not_elem_of_nil. Qed.

(** An index outside [S] keeps its table. *)
Lemma touched_other S i old new d d' l ps T T' :
  Forall (λ x : index_id, valid_index x.1 x.2) S → valid_index l ps → (l, ps) ∉ S →
  touched S i old new d d' → index_tbl d l ps T → index_tbl d' l ps T' → T' = T.
Proof.
  intros HS Hv Hni Ht [HT E] [HT' _]. unfold find_tbl in *.
  rewrite (to_frame _ _ _ _ _ _ Ht _ _ HT) in HT'; [by simplify_eq|].
  intros l' ps' Hin E'. rewrite E in E'. rewrite Forall_forall in HS.
  pose proof (HS _ Hin) as Hv'. by apply index_name_inj in E' as [-> ->].
Qed.

Lemma touched_app S1 S2 i old new d1 d2 d3 :
  Forall (λ x : index_id, valid_index x.1 x.2) (S1 ++ S2) →
  touched S1 i old new d1 d2 → touched S2 i old new d2 d3 → touched (S1 ++ S2) i old new d1 d3.
Proof.
  intros HS H12 H23. pose proof HS as [HS1 HS2]%Forall_app. split.
  - intros k. by rewrite (to_heads _ _ _ _ _ _ H23), (to_heads _ _ _ _ _ _ H12).
  - intros k T HT Hn. apply (to_frame _ _ _ _ _ _ H23).
    + apply (to_frame _ _ _ _ _ _ H12); [done|]. intros l ps Hin. apply Hn. set_solver.
    + intros l ps Hin. apply Hn. set_solver.
  - intros l ps T T3 Hin HT HT3 k.
    assert (valid_index l ps) as Hv by (rewrite Forall_forall in HS; apply (HS _ Hin)).
    assert (has_index d2 l ps) as [T2 HT2].
    { apply (same_heads_index _ _ l ps (to_heads _ _ _ _ _ _ H12)). by exists T. }
    destruct (decide ((l, ps) ∈ S1)) as [H1|H1], (decide ((l, ps) ∈ S2)) as [H2|H2].
    + rewrite (to_rows _ _ _ _ _ _ H23 _ _ _ _ H2 HT2 HT3 k).
      rewrite (touch_ext _ _ _ _ _ _ _ (to_rows _ _ _ _ _ _ H12 _ _ _ _ H1 HT HT2 k)).
      apply touch_twice.
    + rewrite (touched_other _ _ _ _ _ _ _ _ _ _ HS2 Hv H2 H23 HT2 HT3).
      apply (to_rows _ _ _ _ _ _ H12 _ _ _ _ H1 HT HT2 k).
    + rewrite (touched_other _ _ _ _ _ _ _ _ _ _ HS1 Hv H1 H12 HT HT2) in HT2.
      apply (to_rows _ _ _ _ _ _ H23 _ _ _ _ H2 HT2 HT3 k).
    + set_solver.
Qed.
End Touch.

(** ** One index *)
Section Step.
Context {Mp : Msgpack} {ML : MsgpackLaws}.

(** The rows of a table after the entry of a node is changed. *)
Definition touch_rows (ps : list string) (i : N) (old new : option Properties)
    (m : gmap bytes row) : gmap bytes row :=
  let m' := match old ≫= λ p, collect_values p ps with
            | Some vs => base.delete (index_key vs i) m | None => m end in
  match new ≫= λ p, collect_values p ps with
  | Some vs => <[index_key vs i := mkRow "" []]> m' | None => m' end.

Lemma holds_iff ps i o k :
  holds ps i o k ↔ (λ vs, index_key vs i) <$> (o ≫= λ p, collect_values p ps) = Some k.
Proof.
  unfold holds. destruct o as [p|]; cbn [mbind option_bind].
  - rewrite fmap_Some. split; [intros (q & vs & [= <-] & H & ->)|intros (vs & H & ->)]; eauto.
  - split; [by intros (? & ? & ? & _)|done].
Qed.

Lemma touch_rows_spec ps i old new m k :
  is_Some (touch_rows ps i old new m !! k) ↔
  touch ps i old new (λ k, is_Some (m !! k)) k.
Proof.
  unfold touch, touch_rows. rewrite !holds_iff.
  destruct (new ≫= _) as [vs|]; destruct (old ≫= _) as [ws|]; cbn;
    rewrite ?lookup_insert_is_Some', ?lookup_delete_is_Some; naive_solver.
Qed.

Context {d : db} {l : string} {ps : list string} (Hv : valid_index l ps).
Abbreviation t := (index_name l ps).

Lemma drop_entry_run i p (Ht : has_tbl d t) :
  drop_entry t ps i p d = (upd d t (touch_rows ps i (Some p) None (trows d t)), Ok ()).
Proof.
  unfold drop_entry, touch_rows. cbn. destruct (collect_values p ps) as [vs|].
  - rewrite composite_index_key_run. unfold mbind at 1, M_bind at 1, lift. 
    erewrite run_bind by (apply kv_delete_trows; [by apply check_table_index_name|done]). done.
  - by rewrite upd_trows.
Qed.
Lemma add_entry_run i p (Ht : has_tbl d t) :
  add_entry t ps i p d = (upd d t (touch_rows ps i None (Some p) (trows d t)), Ok ()).
Proof.
  unfold add_entry, touch_rows. cbn. destruct (collect_values p ps) as [vs|].
  - rewrite composite_index_key_run. unfold mbind at 1, M_bind at 1, lift.
    apply kv_put_trows; [by apply check_table_index_name|done].
  - by rewrite upd_trows.
Qed.

Lemma touched_step i old new T :
  index_tbl d l ps T →
  touched [(l, ps)] i old new d (upd d t (touch_rows ps i old new (trows d t))).
Proof.
  intros [HT E]. unfold trows, upd. rewrite HT. split.
  - intros k. unfold set_rows. destruct (decide (k = str_lower t)) as [->|].
    + rewrite lookup_insert_eq. unfold find_tbl in HT. by rewrite HT.
    + by rewrite lookup_insert_ne by done.
  - intros k T' HT' Hn. unfold set_rows. rewrite lookup_insert_ne; [done|]. intros <-.
    unfold find_tbl in HT. simplify_eq. apply (Hn l ps); [set_solver|done].
  - intros l' ps' T1 T2 [= -> ->]%list_elem_of_singleton [HT1 _] [HT2 _] k.
    rewrite find_set_rows, decide_True in HT2 by done. simplify_eq. apply touch_rows_spec.
Qed.
End Step.

(** ** The loops *)
Section Loops.
Context {Mp : Msgpack} {ML : MsgpackLaws}.
Context {conn : Type} {O : SqlOps conn} {view : conn → db} {L : SqlLaws conn view}.
Implicit Types c : conn.

Lemma update_index_spec c l ps i old new :
  catalogue (view c) → valid_index l ps → has_index (view c) l ps →
  ∃ c', update_index i l old new (mkIndexInfo l ps "btree") c = (c', Ok ())
    ∧ touched [(l, ps)] i old (Some new) (view c) (view c').
Proof.
  intros Hc Hv [T HT]. eapply lift_spec; [apply update_index_refines|].
  assert (has_tbl (view c) (index_name l ps)) as Ht by (exists T; apply HT).
  eexists. split; [|by eapply touched_step].
  unfold update_index. cbn [info_properties].
  rewrite (run_reads _ _ _ _ (resolve_index_table_run Hc l ps Hv)).
  destruct old as [o|].
  - rewrite (run_bind _ _ _ _ _ (drop_entry_run Hv i o Ht)).
    rewrite add_entry_run; [|done|by apply has_tbl_upd].
    by rewrite trows_upd_eq, upd_upd by done.
  - rewrite (run_bind _ _ _ _ _ (run_ret _ _)). by apply add_entry_run.
Qed.

Lemma remove_index_spec c l ps i p :
  catalogue (view c) → valid_index l ps → has_index (view c) l ps →
  ∃ c', remove_index i l p (mkIndexInfo l ps "btree") c = (c', Ok ())
    ∧ touched [(l, ps)] i (Some p) None (view c) (view c').
Proof.
  intros Hc Hv [T HT]. eapply lift_spec; [apply remove_index_refines|].
  assert (has_tbl (view c) (index_name l ps)) as Ht by (exists T; apply HT).
  eexists. split; [|by eapply touched_step].
  unfold remove_index. cbn [info_properties].
  rewrite (run_reads _ _ _ _ (resolve_index_table_run Hc l ps Hv)). by apply drop_entry_run.
Qed.

(** The indexes of [d] on one of [labels]. *)
Definition indexes_of (d : db) (labels : list string) (x : index_id) : Prop :=
  x.1 ∈ labels ∧ valid_index x.1 x.2 ∧ has_index d x.1 x.2.

Section Loop.
Context (i : N) (old new : option Properties) (f : string → IndexInfo → M conn GraphError unit).
Context (Hf : ∀ c l ps, catalogue (view c) → valid_index l ps → has_index (view c) l ps →
  ∃ c', f l (mkIndexInfo l ps "btree") c = (c', Ok ())
    ∧ touched [(l, ps)] i old new (view c) (view c')).

Lemma infos_loop l infos c :
  catalogue (view c) →
  (∀ info, info ∈ infos → ∃ ps, info = mkIndexInfo l ps "btree" ∧ valid_index l ps
                                ∧ has_index (view c) l ps) →
  ∃ c', for_each (f l) infos c = (c', Ok ())
    ∧ touched ((λ info, (l, info_properties info)) <$> infos) i old new (view c) (view c').
Proof.
  revert c. induction infos as [|info infos IH]; intros c Hc Hin.
  { exists c. split; [done|]. apply touched_nil. }
  destruct (Hin info) as (ps & -> & Hv & Hi); [left|].
  destruct (Hf c l ps Hc Hv Hi) as (c1 & E1 & H1).
  pose proof (to_heads _ _ _ _ _ _ H1) as Hh.
  destruct (IH c1) as (c2 & E2 & H2).
  { by eapply same_heads_catalogue. }
  { intros info Hin'. destruct (Hin info) as (qs & -> & Hv' & Hi'); [by right|].
    exists qs. split_and!; [done..|]. by apply (same_heads_index _ _ _ _ Hh). }
  exists c2. split; [cbn [for_each]; by rewrite (run_bind _ _ _ _ _ E1)|].
  apply (touched_app [(l, ps)] _ _ _ _ _ (view c1)); [|done..].
  constructor; [done|]. apply Forall_fmap, Forall_forall. intros info Hin'.
  destruct (Hin info) as (qs & -> & ? & _); [by right|done].
Qed.

(** The loop over the indexes of one label, then over the labels. *)
Definition for_label (l : string) : M conn GraphError unit :=
  reads (list_indexes_for_label l) ≫= λ infos, for_each (f l) infos.

Lemma label_loop l c :
  catalogue (view c) →
  ∃ c' S, for_label l c = (c', Ok ()) ∧ touched S i old new (view c) (view c')
    ∧ ∀ x, x ∈ S ↔ indexes_of (view c) [l] x.
Proof.
  intros Hc. destruct (list_indexes_run c l Hc) as (infos & E & Hin).
  destruct (infos_loop l infos c Hc) as (c' & E' & Ht); [intros info; apply Hin|].
  eexists c', _. split_and!; [|exact Ht|].
  - unfold for_label. by rewrite (run_reads _ _ _ _ E).
  - intros [l' ps]. rewrite list_elem_of_fmap. unfold indexes_of. cbn [fst snd].
    rewrite list_elem_of_singleton. setoid_rewrite Hin. split.
    + intros (info & [= -> ->] & qs & -> & ? & ?). done.
    + intros (-> & ? & ?). exists (mkIndexInfo l ps "btree"). eauto.
Qed.

Lemma labels_loop labels c :
  catalogue (view c) →
  ∃ c' S, for_each for_label labels c = (c', Ok ()) ∧ touched S i old new (view c) (view c')
    ∧ ∀ x, x ∈ S ↔ indexes_of (view c) labels x.
Proof.
  revert c. induction labels as [|l labels IH]; intros c Hc.
  { exists c, []. split_and!; [done|apply touched_nil|]. intros x. unfold indexes_of. set_solver. }
  destruct (label_loop l c Hc) as (c1 & S1 & E1 & H1 & HS1).
  pose proof (to_heads _ _ _ _ _ _ H1) as Hh.
  destruct (IH c1) as (c2 & S2 & E2 & H2 & HS2); [by eapply same_heads_catalogue|].
  assert (∀ x, x ∈ S1 ++ S2 ↔ indexes_of (view c) (l :: labels) x) as HS.
  { intros x. rewrite elem_of_app, HS1, HS2. unfold indexes_of.
    rewrite (same_heads_index _ _ _ _ Hh), list_elem_of_singleton, elem_of_cons. tauto. }
  exists c2, (S1 ++ S2). split_and!; [cbn [for_each]; by rewrite (run_bind _ _ _ _ _ E1)| |done].
  eapply touched_app; [|done..]. apply Forall_forall. intros x Hx. by apply HS.
Qed.
End Loop.

Lemma update_indexes_for_node_spec i labels old new c :
  catalogue (view c) →
  ∃ c' S, update_indexes_for_node i labels old new c = (c', Ok ())
    ∧ touched S i old (Some new) (view c) (view c')
    ∧ ∀ x, x ∈ S ↔ indexes_of (view c) labels x.
Proof.
  apply (labels_loop i old (Some new) (λ l, update_index i l old new)).
  intros. by apply update_index_spec.
Qed.
Lemma remove_indexes_for_node_spec i labels p c :
  catalogue (view c) →
  ∃ c' S, remove_indexes_for_node i labels p c = (c', Ok ())
    ∧ touched S i (Some p) None (view c) (view c')
    ∧ ∀ x, x ∈ S ↔ indexes_of (view c) labels x.
Proof.
  apply (labels_loop i (Some p) None (λ l, remove_index i l p)).
  intros. by apply remove_index_spec.
Qed.
End Loops.

(** ** From one set of nodes to the next *)
Section Transfer.
Context {Mp : Msgpack}.

(** [ns'] is [ns] with node [i], whose labels are [labels], changed from [old]
    to [new]; [None] stands for no node. *)
Definition node_change (ns ns' : gmap N NodeRecord) (i : N) (labels : list string)
    (old new : option Properties) : Prop :=
  (∀ j, j ≠ i → ns' !! j = ns !! j)
  ∧ (∀ r, ns !! i = Some r → old = Some (rec_properties r) ∧ ∀ l, l ∈ rec_labels r ↔ l ∈ labels)
  ∧ (∀ r, ns' !! i = Some r → new = Some (rec_properties r) ∧ ∀ l, l ∈ rec_labels r ↔ l ∈ labels)
  ∧ (is_Some (ns !! i) ↔ is_Some old) ∧ (is_Some (ns' !! i) ↔ is_Some new).

Context {ns ns' : gmap N NodeRecord} {i : N} {labels : list string} {old new : option Properties}.
Context (Hch : node_change ns ns' i labels old new) (Hi : in_u64 i).
Context (Hids : ∀ j, is_Some (ns !! j) → in_u64 j).

Lemma entry_same l ps k : l ∉ labels → entry ns' l ps k ↔ entry ns l ps k.
Proof.
  destruct Hch as (Hne & Ho & Hn & _). intros Hl. unfold entry.
  split; intros (j & r & Hj & Hlr & Hk); exists j, r; (split_and!; [|done..]).
  - rewrite <- Hne; [done|]. intros ->. apply Hn in Hj as [_ Hj]. by apply Hl, Hj.
  - rewrite Hne; [done|]. intros ->. apply Ho in Hj as [_ Hj]. by apply Hl, Hj.
Qed.

Lemma entry_change l ps k :
  l ∈ labels → entry ns' l ps k ↔ touch ps i old new (entry ns l ps) k.
Proof.
  destruct Hch as (Hne & Ho & Hn & Hos & Hns). intros Hl. unfold touch. split.
  - intros (j & r & Hj & Hlr & Hk). destruct (decide (j = i)) as [->|Hd].
    + left. apply Hn in Hj as [-> _]. done.
    + right. rewrite Hne in Hj by done. split; [by exists j, r|].
      destruct Hk as (q & vs & [= <-] & _ & ->). intros (q & ws & _ & _ & E).
      apply Hd. apply (index_key_id vs ws); eauto.
  - intros [Hk|[(j & r & Hj & Hlr & Hk) Hno]].
    + destruct Hk as (q & vs & E & Hc & ->). destruct (proj2 Hns) as [r Hr]; [eauto|].
      destruct (Hn r Hr) as [E' Hlr]. rewrite E in E'. simplify_eq.
      exists i, r. split_and!; [done|by apply Hlr|]. by exists (rec_properties r), vs.
    + exists j, r. split_and!; [|done..]. rewrite Hne; [done|]. intros ->.
      apply Ho in Hj as [-> _]. done.
Qed.

Lemma indexed_touched d d' S :
  indexed ns d → touched S i old new d d' → (∀ x, x ∈ S ↔ indexes_of d labels x) →
  indexed ns' d'.
Proof.
  intros Hix Ht HS. pose proof (to_heads _ _ _ _ _ _ Ht) as Hh. split.
  { eapply same_heads_catalogue; [done|apply Hix]. }
  intros l ps T' Hv HT' k.
  assert (has_index d l ps) as [T HT] by (apply (same_heads_index _ _ _ _ Hh); by exists T').
  destruct (decide (l ∈ labels)) as [Hl|Hl].
  - assert ((l, ps) ∈ S) as HinS by (apply HS; split_and!; [done..|by exists T]).
    fold (in_rows T' k). rewrite (to_rows _ _ _ _ _ _ Ht _ _ _ _ HinS HT HT' k).
    rewrite (touch_ext _ _ _ _ _ _ _ (ix_rows _ _ Hix l ps T Hv HT k)).
    symmetry. by apply entry_change.
  - assert (T' = T) as ->.
    { eapply touched_other; [|exact Hv| |exact Ht|done..].
      - apply Forall_forall. intros x Hx. by apply HS.
      - by intros [Hx _]%HS. }
    rewrite entry_same by done. by apply (ix_rows _ _ Hix).
Qed.
End Transfer.

(** * Scanning nodes by label

    [find_nodes_by_label] selects rows by a LIKE pattern on the colon-separated
    label column.  No node with the label is missed; what else is selected is
    what the pattern matches. *)

(** ** LIKE with a pattern around a literal *)
Lemma like_skip fuel q a s :
  like_fuel fuel None q s = true →
  like_fuel (S (length a + fuel)) None ("%"%byte :: q) (a ++ s) = true.
Proof.
  intros H. induction a as [|b a IH].
  - cbn [length Nat.add app]. change (0 + fuel) with fuel. cbn [like_fuel].
    rewrite bool_decide_eq_false_2 by done. cbn. by rewrite H.
  - cbn [length Nat.add app]. remember (S (length a + fuel)) as f. cbn [like_fuel].
    rewrite bool_decide_eq_false_2 by done. cbn. rewrite IH. apply orb_true_r.
Qed.

Lemma like_infix a p b :
  ascii_name p → ascii_name b → like None ("%" +:+ p +:+ "%") (a +:+ p +:+ b) = true.
Proof.
  intros Hp Hb. unfold like, str_len. rewrite !str_bytes_app.
  change (str_bytes "%") with ["%"%byte]. set (A := str_bytes a). set (P := str_bytes p) in *.
  set (B := str_bytes b) in *. cbn [app].
  replace (S (length ("%"%byte :: P ++ ["%"%byte]) + length (A ++ P ++ B)))
    with (S (length A + S (S (length P + length P + length B))))
    by (cbn [length]; rewrite !length_app; cbn [length]; lia).
  apply like_skip, like_prefix_fuel; [| |lia].
  - eapply Forall_impl; [exact Hp|]. by intros x [].
  - apply Forall_app. split; (eapply Forall_impl; [eassumption|]); by intros x [].
Qed.

Lemma join_colon_infix l ls :
  l ∈ ls → Forall ascii_name ls →
  ∃ a b, ":" +:+ join ":" ls +:+ ":" = a +:+ (":" +:+ l +:+ ":") +:+ b ∧ ascii_name b.
Proof.
  intros Hl Hls. induction Hls as [|x ls Hx Hls IH]; [by apply not_elem_of_nil in Hl|].
  assert (∃ b, ":" +:+ join ":" (x :: ls) +:+ ":" = ":" +:+ x +:+ ":" +:+ b ∧ ascii_name b
    ∧ (ls ≠ [] → ":" +:+ b = ":" +:+ join ":" ls +:+ ":")) as (b & E & Hb & Hn).
  { destruct ls as [|y ls]; [exists ""; split_and!; [done|constructor|done]|].
    exists (join ":" (y :: ls) +:+ ":"). split_and!; [|clear IH Hl|done].
    - change (join ":" (x :: y :: ls)) with (x +:+ ":" +:+ join ":" (y :: ls)).
      apply (inj str_bytes). rewrite !str_bytes_app, <- !app_assoc. done.
    - apply ascii_name_app; [|repeat constructor; done].
      revert y Hls. induction ls as [|z ls IHls]; intros y Hls; [by apply Forall_cons in Hls as [? _]|].
      apply Forall_cons in Hls as [Hy Hls].
      change (join ":" (y :: z :: ls)) with (y +:+ ":" +:+ join ":" (z :: ls)).
      repeat apply ascii_name_app; [done|repeat constructor; done|by apply IHls]. }
  apply elem_of_cons in Hl as [->|Hl].
  - exists "", b. split; [|done]. rewrite E. apply (inj str_bytes).
    rewrite !str_bytes_app, <- !app_assoc. done.
  - destruct (IH Hl) as (a' & b' & E' & Hb').
    exists (":" +:+ x +:+ a'), b'. split; [|done]. rewrite E.
    rewrite <- Hn in E' by (intros ->; by apply not_elem_of_nil in Hl).
    apply (f_equal str_bytes) in E'. apply (inj str_bytes).
    rewrite !str_bytes_app in *. rewrite <- !app_assoc in *. by rewrite E'.
Qed.

(** A node that has the label is selected. *)
Lemma label_selected_complete l ls :
  l ∈ ls → Forall valid_name ls → label_selected l (join ":" ls) = true.
Proof.
  intros Hl Hls. unfold label_selected. apply orb_true_iff. right.
  destruct (join_colon_infix l ls Hl) as (a & b & -> & Hb).
  { eapply Forall_impl; [exact Hls|]. apply valid_name_ascii. }
  assert ("%:" +:+ l +:+ ":%" = "%" +:+ (":" +:+ l +:+ ":") +:+ "%") as ->.
  { apply (inj str_bytes). rewrite !str_bytes_app, <- !app_assoc. done. }
  apply like_infix; [|done].
  rewrite Forall_forall in Hls. repeat apply ascii_name_app; [|by apply valid_name_ascii, Hls|];
    repeat constructor; done.
Qed.

(** ** What else is selected *)
Abbreviation lower := (fmap (M := list) to_ascii_lowercase).

Lemma like_prefix_sound fuel p s :
  Forall (λ b, b ≠ "%"%byte ∧ b ≠ "_"%byte) p →
  like_fuel fuel None (p ++ ["%"%byte]) s = true → ∃ b c, s = b ++ c ∧ lower b = lower p.
Proof.
  intros Hp. revert fuel s. induction Hp as [|x p [Hx1 Hx2] Hp IH]; intros fuel s H.
  { by exists [], s. }
  destruct fuel as [|fuel]; [done|]. cbn [like_fuel app] in H.
  rewrite bool_decide_eq_false_2 in H by done. rewrite bool_decide_eq_false_2 in H by done.
  rewrite bool_decide_eq_false_2 in H by done. destruct s as [|y s]; [done|].
  apply andb_true_iff in H as [E%bool_decide_eq_true H].
  destruct (IH _ _ H) as (b & c & -> & Eb). exists (y :: b), c. split; [done|].
  cbn. by rewrite E, Eb.
Qed.

Lemma like_skip_sound fuel q s :
  like_fuel fuel None ("%"%byte :: q) s = true →
  ∃ a s' f, s = a ++ s' ∧ like_fuel f None q s' = true.
Proof.
  revert s. induction fuel as [|fuel IH]; intros s H; [done|]. cbn [like_fuel] in H.
  rewrite bool_decide_eq_false_2 in H by done. cbn in H.
  apply orb_true_iff in H as [H|H]; [by exists [], s, fuel|].
  destruct s as [|b s]; [done|]. destruct (IH s H) as (a & s' & f & -> & Hf).
  by exists (b :: a), s', f.
Qed.

Lemma bytes_split_app_any c a r :
  bytes_split c (a ++ c :: r) = bytes_split c a ++ bytes_split c r.
Proof.
  induction a as [|x a IH]; cbn [bytes_split app]; [by rewrite decide_True|].
  destruct (decide (x = c)); [by rewrite IH|]. rewrite IH.
  destruct (bytes_split c a) as [|y ys] eqn:E; [|done].
  destruct a; cbn in E; [done|]. destruct (decide _); [done|]. by destruct (bytes_split c a).
Qed.

Lemma split_join_colon ls :
  Forall (λ s, ":"%byte ∉ str_bytes s) ls → ls ≠ [] →
  bytes_split ":" (str_bytes (join ":" ls)) = str_bytes <$> ls.
Proof.
  induction 1 as [|p [|q ls] Hp Hls IH]; intros Hne; [done|by apply bytes_split_one|].
  change (join ":" (p :: q :: ls)) with (p +:+ ":" +:+ join ":" (q :: ls)).
  rewrite !str_bytes_app. change (str_bytes ":") with [":"%byte]. cbn [app].
  rewrite bytes_split_app by done. by rewrite IH.
Qed.

Lemma lower_colon b : to_ascii_lowercase b = ":"%byte → b = ":"%byte.
Proof.
  unfold to_ascii_lowercase, byte_in. destruct (_ && _) eqn:E; [|done]. intros H.
  apply (f_equal b2n) in H. rewrite b2n_n2b in H.
  apply andb_true_iff in E as [E1%N.leb_le E2%N.leb_le].
  rewrite N.mod_small in H by lia. change (b2n ":") with 58%N in H. lia.
Qed.

(** A piece between two separators is one of the joined names. *)
Lemma colon_segment ls m a r :
  Forall (λ s, ":"%byte ∉ str_bytes s) ls → ":"%byte ∉ m → m ≠ [] →
  ":"%byte :: str_bytes (join ":" ls) ++ [":"%byte] = a ++ ":"%byte :: m ++ ":"%byte :: r →
  m ∈ str_bytes <$> ls.
Proof.
  intros Hls Hm Hne E. apply (f_equal (bytes_split ":")) in E.
  rewrite bytes_split_app_any, bytes_split_app in E by done. cbn [bytes_split] in E.
  rewrite decide_True, bytes_split_app_any in E by done. cbn [bytes_split] in E.
  destruct (decide (ls = [])) as [->|Hlsne].
  - assert (m ∈ bytes_split ":" a ++ m :: bytes_split ":" r) as Hin by set_solver.
    rewrite <- E in Hin. cbn in Hin. set_solver.
  - rewrite split_join_colon in E by done.
    assert (m ∈ bytes_split ":" a ++ m :: bytes_split ":" r) as Hin by set_solver.
    rewrite <- E in Hin. set_solver.
Qed.

Lemma like_label_sound l t :
  valid_name l → "_"%byte ∉ str_bytes l → like None ("%:" +:+ l +:+ ":%") t = true →
  ∃ a m r, str_bytes t = a ++ ":"%byte :: m ++ ":"%byte :: r ∧ lower m = lower (str_bytes l).
Proof.
  intros Hl Hu H. unfold like in H. rewrite !str_bytes_app in H.
  change (str_bytes "%:") with ["%"%byte; ":"%byte] in H.
  change (str_bytes ":%") with [":"%byte; "%"%byte] in H. cbn [app] in H.
  apply like_skip_sound in H as (a & s & f & Es & H).
  change (":"%byte :: str_bytes l ++ [":"%byte; "%"%byte])
    with ((":"%byte :: str_bytes l) ++ [":"%byte] ++ ["%"%byte]) in H.
  rewrite app_assoc in H. apply like_prefix_sound in H as (b & r & -> & Eb).
  2:{ apply Forall_app; split; [|repeat constructor; done]. constructor; [done|].
      apply Forall_forall. intros x Hx. split; intros ->; [|done].
      by apply (valid_name_no_byte l "%") in Hl. }
  rewrite fmap_app in Eb. destruct b as [|b0 b]; [done|]. cbn in Eb. injection Eb as Eb0 Eb.
  apply lower_colon in Eb0 as ->. apply fmap_app_inv in Eb as (m & b1 & Em & Eb1 & ->).
  destruct b1 as [|b1 [|]]; [done| |done]. cbn in Eb1. injection Eb1 as Eb1.
  symmetry in Eb1. apply lower_colon in Eb1 as ->.
  exists a, m, r. rewrite Es. cbn. by rewrite <- app_assoc.
Qed.

(** For a label without an underscore, LIKE selects no more than the labels equal
    to it up to ASCII case. *)
Lemma label_selected_sound l ls :
  valid_name l → "_"%byte ∉ str_bytes l → Forall valid_name ls →
  label_selected l (join ":" ls) = true → ∃ l', l' ∈ ls ∧ str_lower l' = str_lower l.
Proof.
  intros Hl Hu Hls H.
  assert (∃ a m r, str_bytes (":" +:+ join ":" ls +:+ ":") = a ++ ":"%byte :: m ++ ":"%byte :: r
    ∧ lower m = lower (str_bytes l)) as (a & m & r & E & Em).
  { apply orb_true_iff in H as [->%bool_decide_eq_true|H]; [|by apply like_label_sound].
    exists [], (str_bytes l), []. by rewrite !str_bytes_app. }
  assert (m ∈ str_bytes <$> ls) as (l' & -> & Hl')%list_elem_of_fmap.
  { eapply (colon_segment ls m a r).
    - eapply Forall_impl; [exact Hls|]. intros s Hs. by apply (valid_name_no_byte s).
    - intros Hin. assert (":"%byte ∈ lower (str_bytes l)) as (x & Hx & Hin2)%list_elem_of_fmap.
      { rewrite <- Em. apply list_elem_of_fmap. by exists ":"%byte. }
      symmetry in Hx. apply lower_colon in Hx as ->. by apply (valid_name_no_byte l ":") in Hin2.
    - intros ->. symmetry in Em. apply fmap_nil_inv, str_bytes_nil in Em as ->.
      by apply valid_name_iff in Hl as [? _].
    - by rewrite !str_bytes_app in E. }
  exists l'. split; [done|]. unfold str_lower. by rewrite Em.
Qed.

(** ** The scan *)
Section Scan.
Context {Mp : Msgpack} {ML : MsgpackLaws} {g : graph} {d : db} (Hr : repr g d).

Definition node_at (i : N) (rec : NodeRecord) : Node :=
  mkNode i (rec_labels rec) (rec_properties rec).

Lemma node_row_run k r :
  trows d TABLE_NODES !! k = Some r →
  ∃ i rec, g_nodes g !! i = Some rec ∧ k = u64_to_be i ∧ row_label r = join ":" (rec_labels rec)
    ∧ node_of_row (key_value (k, r)) = Ok (node_at i rec).
Proof.
  intros Hk. destruct (r_nodes _ _ Hr) as [H1 H2].
  destruct (H1 _ _ Hk) as (i & Hi & -> & [rec Hrec]). exists i, rec.
  destruct (H2 _ _ Hrec) as (_ & Hv & Erow). rewrite Hk in Erow. simplify_eq.
  split_and!; [done..|]. unfold node_of_row, key_value. cbn [fst snd row_value].
  rewrite law_from_slice_record by apply Hv. cbn [ser mbind result_bind].
  by rewrite u64_from_to_be_nil.
Qed.

(** The nodes whose label column is selected, or all nodes, in id order. *)
Lemma labelled_nodes_run (o : option string) :
  ∃ nodes, (storage (sql_query_labelled d TABLE_NODES o)
            ≫= λ rows : list (bytes * bytes), collect node_of_row rows) = Ok nodes
    ∧ NoDup (node_id <$> nodes)
    ∧ ∀ n, n ∈ nodes ↔ ∃ i rec, n = node_at i rec ∧ g_nodes g !! i = Some rec
        ∧ match o with Some l => label_selected l (join ":" (rec_labels rec)) | None => true end = true.
Proof.
  cbn.
  destruct (r_nodes_tbl _ _ Hr) as [T HT].
  assert (trows d TABLE_NODES = tbl_rows T) as Er by (unfold trows; by rewrite HT).
  unfold db_query_labelled, on_tbl. rewrite HT. cbn [storage mbind result_bind].
  set (rows := filter _ (ordered (tbl_rows T))).
  set (f := λ kv : bytes * bytes, match node_of_row kv with Ok n => n | _ => mkNode 0 [] ∅ end).
  assert (∀ kr, kr ∈ rows → ∃ i rec, g_nodes g !! i = Some rec ∧ kr.1 = u64_to_be i
    ∧ row_label kr.2 = join ":" (rec_labels rec)
    ∧ node_of_row (key_value kr) = Ok (node_at i rec)) as Hrow.
  { intros [k r] [_ Hk]%list_elem_of_filter. apply node_row_run. rewrite Er.
    by apply elem_of_ordered. }
  rewrite (collect_ok _ f).
  2:{ intros kv (kr & -> & Hin)%list_elem_of_fmap. destruct (Hrow _ Hin) as (i & rec & _ & _ & _ & E).
      unfold f. by rewrite E. }
  eexists. split; [done|]. split.
  - rewrite <- !list_fmap_compose. apply NoDup_fmap_2_strong.
    + intros kr kr' Hin Hin'. destruct (Hrow _ Hin) as (i & rec & Hi & Ek & _ & E).
      destruct (Hrow _ Hin') as (j & rec' & Hj & Ek' & _ & E'). unfold f. cbn. rewrite E, E'. cbn.
      intros <-. rewrite <- Ek' in Ek. destruct kr as [k r], kr' as [k' r']. cbn in Ek. subst k'.
      apply list_elem_of_filter in Hin as [_ Hin], Hin' as [_ Hin'].
      apply elem_of_ordered in Hin, Hin'. congruence.
    + apply NoDup_filter. eapply NoDup_fmap_1, NoDup_ordered_keys.
  - intros n. rewrite list_elem_of_fmap. setoid_rewrite list_elem_of_fmap. split.
    + intros (kv & -> & kr & -> & Hin). destruct (Hrow _ Hin) as (i & rec & Hi & _ & Elab & E).
      exists i, rec. split_and!; [unfold f; by rewrite E|done|]. rewrite <- Elab.
      by apply list_elem_of_filter in Hin as [? _].
    + intros (i & rec & -> & Hi & Hsel). destruct (r_nodes _ _ Hr) as [_ H2].
      destruct (H2 _ _ Hi) as (Hi64 & Hv & Erow). rewrite Er in Erow.
      assert ((u64_to_be i, mkRow (join ":" (rec_labels rec)) (enc_record rec)) ∈ rows) as Hin.
      { apply list_elem_of_filter. split; [done|]. by apply elem_of_ordered. }
      eexists. split; [|eexists; split; [reflexivity|exact Hin]].
      destruct (Hrow _ Hin) as (j & rec' & Hj & Ek & _ & E). unfold f. rewrite E.
      cbn [fst] in Ek. apply u64_to_be_inj in Ek as <-; [by simplify_eq|done|].
      by apply (H2 _ _ Hj).
Qed.
Lemma find_nodes_run l :
  l ≠ "" →
  ∃ nodes, find_nodes_by_label l d = Ok nodes ∧ NoDup (node_id <$> nodes)
    ∧ ∀ n, n ∈ nodes ↔ ∃ i rec, n = node_at i rec ∧ g_nodes g !! i = Some rec
                           ∧ label_selected l (join ":" (rec_labels rec)) = true.
Proof.
  intros Hl. unfold find_nodes_by_label. rewrite decide_False by done. exact (labelled_nodes_run (Some l)).
Qed.
Lemma find_all_nodes_run :
  ∃ nodes, find_nodes_by_label "" d = Ok nodes ∧ NoDup (node_id <$> nodes)
    ∧ ∀ n, n ∈ nodes ↔ ∃ i rec, n = node_at i rec ∧ g_nodes g !! i = Some rec.
Proof.
  destruct (labelled_nodes_run None) as (nodes & E & Hd & Hn). exists nodes. split_and!; [exact E|done|].
  intros n. rewrite Hn. naive_solver.
Qed.
End Scan.
