(* ===== verification/IndexCreate.v ===== *)
(** * Creating and dropping indexes

    Index tables live beside the tables of the graph.  Creation fills a new table
    from the nodes there are; dropping removes it. *)
From S2P Require Export IndexMaint.

(** ** The tables of the graph are not index tables *)
Definition core_tables : list string :=
  [TABLE_NODES; TABLE_ADJ_OUT; TABLE_ADJ_IN; TABLE_EDGE_PROPS; METADATA].

Lemma str_lower_app s t : str_lower (s +:+ t) = str_lower s +:+ str_lower t.
Proof.
  apply (inj str_bytes). unfold str_lower.
  by rewrite !str_bytes_app, !str_bytes_str, fmap_app.
Qed.

Lemma index_name_not_core l ps t :
  t ∈ core_tables → str_lower (index_name l ps) ≠ str_lower t.
Proof.
  intros Ht E. unfold index_name in E. rewrite str_lower_app in E.
  apply (f_equal str_bytes) in E. rewrite str_bytes_app in E.
  change (str_bytes (str_lower "node_idx$")) with (str_bytes "node_idx$") in E.
  unfold core_tables in Ht. repeat (apply elem_of_cons in Ht as [->|Ht]; [discriminate|]).
  by apply not_elem_of_nil in Ht.
Qed.

Definition core_same (d d' : db) : Prop :=
  ∀ t, t ∈ core_tables → find_tbl d' t = find_tbl d t.

Lemma repr_core_same {Mp : Msgpack} g d d' : core_same d d' → repr g d → repr g d'.
Proof.
  intros Hc Hr. unfold core_same, core_tables in Hc.
  assert (∀ t, t ∈ core_tables → trows d' t = trows d t ∧ (has_tbl d t → has_tbl d' t)) as Ht.
  { intros t Ht. unfold trows, has_tbl. by rewrite Hc. }
  assert (trows d' METADATA = trows d METADATA) as Hm by (apply Ht; set_solver).
  destruct Hr. split; rewrite ?(proj1 (Ht TABLE_NODES ltac:(set_solver))),
    ?(proj1 (Ht TABLE_ADJ_OUT ltac:(set_solver))), ?(proj1 (Ht TABLE_ADJ_IN ltac:(set_solver))),
    ?(proj1 (Ht TABLE_EDGE_PROPS ltac:(set_solver))); try done;
    try (apply Ht; [set_solver|done]).
  - intros l. rewrite <- r_label_count. unfold stored. by rewrite Hm.
  - intros l. rewrite <- r_type_count. unfold stored. by rewrite Hm.
  - rewrite <- r_next_id. unfold meta. by rewrite Hm.
  - rewrite <- r_next_seq. unfold meta. by rewrite Hm.
Qed.

Lemma touched_core {Mp : Msgpack} S i old new d d' :
  catalogue d → touched S i old new d d' → core_same d d'.
Proof.
  intros Hc Ht t Hin. unfold find_tbl. destruct (d !! str_lower t) as [T|] eqn:E.
  - apply (to_frame _ _ _ _ _ _ Ht); [done|]. intros l ps _ En.
    apply (index_name_not_core l ps t Hin). rewrite <- En. symmetry. by apply (ct_keys _ Hc).
  - pose proof (to_heads _ _ _ _ _ _ Ht (str_lower t)) as Hh. rewrite E in Hh.
    by apply fmap_None in Hh.
Qed.

(** ** Filling a table *)
Section Fill.
Context {Mp : Msgpack} {ML : MsgpackLaws} (l : string) (ps : list string).
Context (Hv : valid_index l ps).
Abbreviation t := (index_name l ps).

Lemma fill_run nodes d :
  has_tbl d t →
  ∃ m, for_each (index_node t ps) nodes d = (upd d t m, Ok ())
    ∧ ∀ k, is_Some (m !! k) ↔ is_Some (trows d t !! k)
        ∨ ∃ n, n ∈ nodes ∧ holds ps (node_id n) (Some (node_properties n)) k.
Proof.
  revert d. induction nodes as [|n nodes IH]; intros d Ht.
  { exists (trows d t). split; [by rewrite upd_trows|]. set_solver. }
  pose proof (add_entry_run Hv (node_id n) (node_properties n) Ht) as En.
  cbn [for_each]. rewrite (run_bind (index_node t ps n) _ _ _ _ En).
  set (m1 := touch_rows _ _ _ _ _) in *.
  destruct (IH (upd d t m1)) as (m & E & Hm); [by apply has_tbl_upd|].
  exists m. rewrite E, upd_upd. split; [done|]. intros k.
  rewrite Hm, trows_upd_eq by done. unfold m1. rewrite touch_rows_spec. unfold touch.
  setoid_rewrite elem_of_cons. split.
  - intros [[H|[H _]]|(n' & Hn' & H)]; eauto 7.
  - intros [H|(n' & [->|Hn'] & H)]; [|eauto|eauto].
    left. right. split; [done|]. by intros (? & ? & ? & _).
Qed.
End Fill.

(** ** Creation *)
Section Create.
Context {Mp : Msgpack} {ML : MsgpackLaws} {g : graph} {d : db}.
Context (Hr : repr g d) (Hix : indexed (g_nodes g) d) (l : string) (ps : list string).
Context (Hv : valid_index l ps).
Abbreviation t := (index_name l ps).

(** The label scan selects no node without the label. *)
Definition scan_exact (ns : gmap N NodeRecord) (l : string) : Prop :=
  ∀ i rec, ns !! i = Some rec → label_selected l (join ":" (rec_labels rec)) = true →
           l ∈ rec_labels rec.

Lemma index_present_run :
  index_present t l ps d = Ok (bool_decide (has_index d l ps)).
Proof.
  unfold index_present. rewrite table_exists_index. cbn [mbind result_bind].
  destruct (bool_decide _); [done|]. destruct ps as [|p [|]]; [done| |done].
  destruct Hv as (Hl & _ & Hp & _). apply Forall_cons in Hp as [Hp _].
  by destruct (table_exists_legacy (ix_catalogue _ _ Hix) l p Hl Hp) as (t' & -> & E).
Qed.

Lemma create_index_exists :
  has_index d l ps →
  create_composite_index l ps d = (d, Err (GraphError.IndexAlreadyExists l ps None)).
Proof.
  intros Hi. unfold create_composite_index. rewrite index_name_valid by done.
  rewrite (run_bind _ _ d d t) by done. rewrite (run_reads _ _ _ _ index_present_run).
  by rewrite bool_decide_eq_true_2.
Qed.

Context (Hno : ¬ has_tbl d t).
Definition created : db := <[str_lower t := plain t ["value"] ∅]> d.

Lemma created_core : core_same d created.
Proof.
  intros u Hu. unfold find_tbl, created. rewrite lookup_insert_ne; [done|].
  by apply index_name_not_core.
Qed.
Lemma created_run : exec (λ c : db, sql_create_table c t ["value"]) d = (created, Ok ()).
Proof.
  unfold exec. cbn. unfold db_create_table, created. apply eq_None_not_Some in Hno. by rewrite Hno.
Qed.

Lemma created_tbl : find_tbl created t = Some (plain t ["value"] ∅).
Proof. apply lookup_insert_eq. Qed.

Lemma created_catalogue d' m : d' = upd created t m → catalogue d'.
Proof.
  intros ->. apply (same_heads_catalogue created).
  { intros k. unfold upd. rewrite created_tbl. unfold set_rows.
    destruct (decide (k = str_lower t)) as [->|]; [|by rewrite lookup_insert_ne].
    rewrite lookup_insert_eq. pose proof created_tbl as HT. unfold find_tbl in HT. by rewrite HT. }
  pose proof (ix_catalogue _ _ Hix) as Hc. unfold created. split.
  - intros k T. rewrite lookup_insert_Some. intros [[<- <-]|[_ HT]]; [done|by apply (ct_keys _ Hc)].
  - intros k T r. rewrite lookup_insert_Some. intros [[<- <-]|[_ HT]];
      [apply index_name_not_legacy|by apply (ct_legacy _ Hc k)].
  - intros k T r. rewrite lookup_insert_Some. intros [[<- <-]|[_ HT]] E;
      [by exists l, ps|by apply (ct_names _ Hc k T r)].
  - intros k T r. rewrite lookup_insert_Some. intros [[<- <-]|[_ HT]] E;
      [done|by apply (ct_plain _ Hc k T r)].
Qed.

Lemma created_other m l' ps' T :
  valid_index l' ps' → (l', ps') ≠ (l, ps) → index_tbl (upd created t m) l' ps' T →
  index_tbl d l' ps' T.
Proof.
  intros Hv' Hne [HT E]. split; [|done]. unfold upd in HT. rewrite created_tbl in HT.
  rewrite find_set_rows in HT. case_decide as Hk; simplify_eq.
  - cbn in E. apply index_name_inj in E as [-> ->]; done.
  - unfold find_tbl, created in *. by rewrite lookup_insert_ne in HT.
Qed.

Lemma create_index_spec :
  scan_exact (g_nodes g) l →
  ∃ d', create_composite_index l ps d = (d', Ok ())
    ∧ repr g d' ∧ indexed (g_nodes g) d' ∧ has_index d' l ps
    ∧ ∀ k, k ≠ str_lower t → d' !! k = d !! k.
Proof.
  intros Hscan. pose proof (repr_core_same _ _ _ created_core Hr) as Hr'.
  assert (l ≠ "") as Hl by (by apply (proj1 (valid_name_iff l)), Hv).
  destruct (find_nodes_run Hr' l Hl) as (nodes & En & _ & Hn).
  pose proof created_tbl as HT.
  destruct (fill_run l ps Hv nodes created) as (m & Em & Hm); [by eexists|].
  exists (upd created t m). split.
  { unfold create_composite_index. rewrite index_name_valid by done.
    rewrite (run_bind _ _ d d t) by done. rewrite (run_reads _ _ _ _ index_present_run).
    rewrite bool_decide_eq_false_2 by (intros (T & HT' & _); apply Hno; by exists T).
    rewrite (run_bind _ _ _ _ _ created_run), (run_reads _ _ _ _ En). exact Em. }
  assert (find_tbl (upd created t m) t = Some (plain t ["value"] m)) as HT'.
  { unfold upd. rewrite HT, find_set_rows. by rewrite decide_True. }
  split_and!; [|split|by exists (plain t ["value"] m)|].
  - eapply repr_core_same; [|exact Hr']. intros u Hu. unfold upd. rewrite HT, find_set_rows.
    rewrite decide_False; [done|]. by apply index_name_not_core.
  - by eapply created_catalogue.
  - intros l' ps' T Hv' HT2 k. destruct (decide ((l', ps') = (l, ps))) as [[= -> ->]|Hne].
    + destruct HT2 as [HT2 _]. rewrite HT' in HT2. simplify_eq. cbn [tbl_rows].
      rewrite Hm. unfold trows. rewrite HT. cbn [plain tbl_rows]. split.
      * intros [[? H]|(n & Hin & Hk)]; [by apply lookup_empty_Some in H|].
        apply Hn in Hin as (i & rec & -> & Hi & Hsel). exists i, rec. eauto.
      * intros (i & rec & Hi & Hlr & Hk). right. exists (node_at i rec). split; [|done].
        apply Hn. exists i, rec. split_and!; [done..|]. apply label_selected_complete; [done|].
        destruct (r_nodes _ _ Hr) as [_ H2]. destruct (H2 _ _ Hi) as (_ & Hrec & _). apply Hrec.
    + apply (ix_rows _ _ Hix); [done|]. by eapply created_other.
  - intros k Hk. unfold upd. rewrite HT. unfold set_rows, created. by rewrite !lookup_insert_ne.
Qed.
End Create.

(** ** Removal *)
Section Drop.
Context {Mp : Msgpack} {ML : MsgpackLaws} {g : graph} {d : db}.
Context (Hr : repr g d) (Hix : indexed (g_nodes g) d) (l : string) (ps : list string).
Context (Hv : valid_index l ps).
Abbreviation t := (index_name l ps).

Lemma drop_index_missing :
  ¬ has_index d l ps →
  drop_composite_index l ps d = (d, Err (GraphError.IndexNotFound l ps None)).
Proof.
  intros Hi. unfold drop_composite_index.
  rewrite (run_reads _ _ _ _ (resolve_index_table_run (ix_catalogue _ _ Hix) l ps Hv)).
  rewrite (run_reads _ _ _ _ (table_exists_index l ps)). by rewrite bool_decide_eq_false_2.
Qed.

Lemma drop_index_spec :
  has_index d l ps →
  ∃ d', drop_composite_index l ps d = (d', Ok ())
    ∧ repr g d' ∧ indexed (g_nodes g) d' ∧ ¬ has_tbl d' t
    ∧ ∀ k, k ≠ str_lower t → d' !! k = d !! k.
Proof.
  intros Hi. exists (base.delete (str_lower t) d). split.
  { unfold drop_composite_index.
    rewrite (run_reads _ _ _ _ (resolve_index_table_run (ix_catalogue _ _ Hix) l ps Hv)).
    rewrite (run_reads _ _ _ _ (table_exists_index l ps)), bool_decide_eq_true_2 by done.
    destruct Hi as (T & HT & En). unfold exec. cbn. unfold db_drop_table. rewrite HT.
    by rewrite (ct_plain _ (ix_catalogue _ _ Hix) _ _ _ HT En). }
  split_and!; [|split| |].
  - eapply repr_core_same; [|exact Hr]. intros u Hu. unfold find_tbl.
    rewrite lookup_delete_ne; [done|]. by apply index_name_not_core.
  - pose proof (ix_catalogue _ _ Hix) as Hc.
    split; intros k T; [|intros r..]; intros [_ HT]%lookup_delete_Some;
      [by apply (ct_keys _ Hc)|by apply (ct_legacy _ Hc k)|by apply (ct_names _ Hc k)
      |by apply (ct_plain _ Hc k)].
  - intros l' ps' T Hv' [HT E]. apply (ix_rows _ _ Hix); [done|]. split; [|done].
    unfold find_tbl in *. by apply lookup_delete_Some in HT as [_ ?].
  - intros [T HT]. unfold find_tbl in HT. by rewrite lookup_delete_eq in HT.
  - intros k Hk. by apply lookup_delete_ne.
Qed.
End Drop.

(** A database without index tables is indexed. *)
Lemma indexed_none {Mp : Msgpack} ns (d : db) :
  map_Forall (λ k T, k = str_lower (tbl_name T) ∧ strip_prefix "node_idx$" (tbl_name T) = None
                     ∧ strip_prefix "node_idx_" (tbl_name T) = None) d →
  indexed ns d.
Proof.
  intros H. split.
  - split; intros k T; [|intros r..]; intros HT; destruct (H _ _ HT) as (H1 & H2 & H3); [done|..].
    + intros E. by rewrite E, strip_prefix_app in H3.
    + intros E. by rewrite E, strip_prefix_app in H2.
    + intros E. by rewrite E, strip_prefix_app in H2.
  - intros l ps T _ [HT E]. exfalso. destruct (H _ _ HT) as (_ & H2 & _).
    unfold index_name in E. by rewrite E, strip_prefix_app in H2.
Qed.

(** * Graph operations leave the index tables alone

    [keeps m]: running [m] changes rows of the graph's own tables only.  It is
    closed under the monad, so it holds of every storage operation. *)

Definition core_key (k : string) : Prop := k ∈ str_lower <$> core_tables.

(** [d'] has the tables of [d]; outside the graph's tables with the same rows. *)
Definition core_only (d d' : db) : Prop :=
  ∀ k, tbl_head <$> d' !! k = tbl_head <$> d !! k ∧ (¬ core_key k → d' !! k = d !! k).

#[global] Instance core_only_preorder : PreOrder core_only.
Proof.
  split; [done|]. intros d1 d2 d3 H12 H23 k. destruct (H12 k) as [A1 A2], (H23 k) as [B1 B2].
  split; [by rewrite B1|]. intros Hk. by rewrite B2, A2.
Qed.

Lemma core_only_indexed {Mp : Msgpack} ns d d' : core_only d d' → indexed ns d → indexed ns d'.
Proof.
  intros Hc Hix. split.
  - eapply same_heads_catalogue; [|apply Hix]. intros k. apply Hc.
  - intros l ps T Hv [HT E]. apply (ix_rows _ _ Hix); [done|]. split; [|done].
    unfold find_tbl in *. rewrite (proj2 (Hc _)) in HT; [done|].
    unfold core_key. rewrite list_elem_of_fmap. intros (t & Ht & Hin).
    by apply (index_name_not_core l ps t Hin).
Qed.

Definition keeps {E A} (m : M db E A) : Prop := ∀ d, core_only d (m d).1.

Section Keeps.
Context {E : Type}.

Lemma keeps_ret {A} (a : A) : keeps (mret a : M db E A).
Proof. by intros d. Qed.
Lemma keeps_throw {A} (e : E) : keeps (throw e : M db E A).
Proof. by intros d. Qed.
Lemma keeps_lift {A} (r : result E A) : keeps (lift r).
Proof. by intros d. Qed.
Lemma keeps_reads {A} (f : db → result E A) : keeps (reads f).
Proof. by intros d. Qed.
Lemma keeps_bind {A B} (m : M db E A) (k : A → M db E B) :
  keeps m → (∀ a, keeps (k a)) → keeps (m ≫= k).
Proof.
  intros Hm Hk d. unfold mbind, M_bind. specialize (Hm d).
  destruct (m d) as [d' [a|e|]]; cbn in *; [|done..]. trans d'; [done|apply Hk].
Qed.
Lemma keeps_for_each {A} (f : A → M db E unit) (l : list A) :
  (∀ x, keeps (f x)) → keeps (for_each f l).
Proof.
  intros H. induction l as [|x l IH]; [apply keeps_ret|]. apply keeps_bind; [apply H|done].
Qed.
End Keeps.

(** Statements on one table. *)
Lemma set_rows_core d t T m :
  find_tbl d t = Some T → t ∈ core_tables → core_only d (set_rows d t T m).
Proof.
  intros HT Ht k. unfold find_tbl, set_rows in *. destruct (decide (k = str_lower t)) as [->|Hk].
  - rewrite lookup_insert_eq, HT. split; [done|]. intros []. apply list_elem_of_fmap. eauto.
  - by rewrite lookup_insert_ne by done.
Qed.

Section Statements.
Context (t : string) (Ht : t ∈ core_tables).

Local Ltac on_table :=
  intros d; unfold exec; cbn; unfold db_upsert, db_insert, db_insert_or_ignore, db_update_if,
    db_delete; destruct (find_tbl d t) as [T|] eqn:HT; cbn; [|done];
  repeat match goal with
    | |- context [match tbl_rows T !! ?k with _ => _ end] => destruct (tbl_rows T !! k)
    | |- context [decide ?P] => destruct (decide P) end;
  cbn; first [done|by apply set_rows_core].

Lemma keeps_upsert k r : keeps (exec (λ c : db, sql_upsert c t k r)).
Proof. on_table. Qed.
Lemma keeps_insert k r : keeps (exec (λ c : db, sql_insert c t k r)).
Proof. on_table. Qed.
Lemma keeps_update_if k n o : keeps (exec (λ c : db, sql_update_if c t k n o)).
Proof. on_table. Qed.
Lemma keeps_delete k : keeps (exec (λ c : db, sql_delete c t k)).
Proof. on_table. Qed.
Lemma keeps_kv_put k v : keeps (kv_put t k v : M db GraphError unit).
Proof. apply keeps_bind; [apply keeps_lift|intros _; apply keeps_upsert]. Qed.
Lemma keeps_kv_delete k : keeps (kv_delete t k : M db GraphError bool).
Proof.
  apply keeps_bind; [apply keeps_lift|intros _].
  apply keeps_bind; [apply keeps_delete|intros; apply keeps_ret].
Qed.
End Statements.

Create HintDb keeps discriminated.
#[export] Hint Constants Opaque : keeps.
#[export] Hint Resolve keeps_ret keeps_throw keeps_lift keeps_reads keeps_upsert keeps_insert
  keeps_update_if keeps_delete keeps_kv_put keeps_kv_delete : keeps.

(** Walks a computation, like [solve_refines]. *)
Ltac keeps_step :=
  match goal with
  | |- keeps (for_each _ _) => apply keeps_for_each; intros ?
  | |- keeps (if ?b then _ else _) => destruct b
  | |- keeps (match ?x with _ => _ end) => destruct x
  | |- keeps _ => solve [eauto 2 with keeps]
  | |- keeps (mbind _ _) => apply keeps_bind; [|intros ?]
  | |- _ ∈ core_tables => unfold core_tables; set_solver
  end.
Ltac solve_keeps := repeat keeps_step.

Lemma core_nodes : TABLE_NODES ∈ core_tables. Proof. by_decide. Qed.
Lemma core_out : TABLE_ADJ_OUT ∈ core_tables. Proof. by_decide. Qed.
Lemma core_in : TABLE_ADJ_IN ∈ core_tables. Proof. by_decide. Qed.
Lemma core_props : TABLE_EDGE_PROPS ∈ core_tables. Proof. by_decide. Qed.
Lemma core_meta : METADATA ∈ core_tables. Proof. by_decide. Qed.
#[export] Hint Resolve core_nodes core_out core_in core_props core_meta : keeps.

(** ** The operations *)
Section Operations.
Context {Mp : Msgpack}.

Lemma keeps_set_count p n k : keeps (set_count p n k : M db GraphError unit).
Proof. apply keeps_upsert, core_meta. Qed.
Lemma keeps_delete_count p n : keeps (delete_count p n : M db GraphError unit).
Proof. unfold delete_count. solve_keeps. Qed.
Hint Resolve keeps_set_count keeps_delete_count : keeps.

Lemma keeps_increment_label_count l : keeps (increment_label_count l : M db _ _).
Proof. unfold increment_label_count, set_label_count. solve_keeps. Qed.
Lemma keeps_decrement_label_count l : keeps (decrement_label_count l : M db _ _).
Proof. unfold decrement_label_count, set_label_count. solve_keeps. Qed.
Lemma keeps_increment_edge_type_count l : keeps (increment_edge_type_count l : M db _ _).
Proof. unfold increment_edge_type_count, set_edge_type_count. solve_keeps. Qed.
Lemma keeps_decrement_edge_type_count_by l n :
  keeps (decrement_edge_type_count_by l n : M db _ _).
Proof. unfold decrement_edge_type_count_by, set_edge_type_count. solve_keeps. Qed.
Lemma keeps_next_node_id : keeps (next_node_id : M db _ _).
Proof. unfold next_node_id. solve_keeps. Qed.
Lemma keeps_next_edge_seq : keeps (next_edge_seq : M db _ _).
Proof.
  unfold next_edge_seq. apply keeps_bind; [apply keeps_reads|intros _].
  apply keeps_bind; [|intros; solve_keeps]. intros d. destruct (query_row _ _ d); [done| |done].
  pose proof (keeps_insert METADATA core_meta (str_bytes NEXT_EDGE_SEQ)
    (mkRow "" (u64_to_be 0))) as H.
  apply (keeps_bind _ _ H). intros _. apply keeps_ret.
Qed.
Lemma keeps_adj_insert t k i : t ∈ core_tables → keeps (adj_insert t k i : M db _ _).
Proof. intros. unfold adj_insert. solve_keeps. Qed.
Lemma keeps_adj_remove t k i : t ∈ core_tables → keeps (adj_remove t k i : M db _ _).
Proof. intros. unfold adj_remove. solve_keeps. Qed.
Lemma keeps_put_node k l v : keeps (put_node k l v : M db _ _).
Proof. apply keeps_upsert, core_nodes. Qed.
Hint Resolve keeps_increment_label_count keeps_decrement_label_count
  keeps_increment_edge_type_count keeps_decrement_edge_type_count_by keeps_next_node_id
  keeps_next_edge_seq keeps_adj_insert keeps_adj_remove keeps_put_node : keeps.

Lemma keeps_create_edge s t l p : keeps (create_edge s t l p : M db _ _).
Proof. unfold create_edge. solve_keeps. Qed.
Lemma keeps_delete_edge s t l : keeps (delete_edge s t l : M db _ _).
Proof. unfold delete_edge. solve_keeps. Qed.
Lemma keeps_delete_single_edge s t l q : keeps (delete_single_edge s t l q : M db _ _).
Proof. unfold delete_single_edge. solve_keeps. Qed.
Lemma keeps_write_record i r : keeps (write_record i r : M db _ _).
Proof. unfold write_record. solve_keeps. Qed.
Hint Resolve keeps_delete_edge keeps_write_record : keeps.
Lemma keeps_create_node l p : keeps (create_node l p : M db _ _).
Proof. unfold create_node. solve_keeps. Qed.
Lemma keeps_delete_node i : keeps (delete_node i : M db _ _).
Proof. unfold delete_node. solve_keeps. Qed.
Lemma keeps_set_node_property i k v : keeps (set_node_property i k v : M db _ _).
Proof. unfold set_node_property. solve_keeps. Qed.
Lemma keeps_remove_node_property i k : keeps (remove_node_property i k : M db _ _).
Proof. unfold remove_node_property. solve_keeps. Qed.
Lemma keeps_add_node_label i l : keeps (add_node_label i l : M db _ _).
Proof. unfold add_node_label. solve_keeps. Qed.
Lemma keeps_remove_node_label i l : keeps (remove_node_label i l : M db _ _).
Proof. unfold remove_node_label. solve_keeps. Qed.
End Operations.
#[export] Hint Resolve keeps_create_edge keeps_delete_edge keeps_delete_single_edge
  keeps_create_node keeps_delete_node keeps_set_node_property keeps_remove_node_property
  keeps_add_node_label keeps_remove_node_label : keeps.

(** On any connection: what a run leaves of the index tables. *)
Lemma keeps_indexed {conn} {view : conn → db} {Mp : Msgpack} {E A} (m : M conn E A)
    (f : M db E A) ns c c' r :
  refines view m f → keeps f → m c = (c', r) → indexed ns (view c) → indexed ns (view c').
Proof.
  intros Hm Hk E0. apply core_only_indexed. specialize (Hm c). specialize (Hk (view c)).
  rewrite <- Hm, E0 in Hk. exact Hk.
Qed.
