(* ===== verification/Indexes.v ===== *)
(** * Secondary indexes and label scans: main theorems

    For any lawful connection: index names, lookups, creation, removal and
    maintenance, and what a label scan returns. *)
From S2P Require Export Storage IndexCreate.

Section Theorems.
Context {conn : Type} {O : SqlOps conn} {view : conn → db} {L : SqlLaws conn view}.
Context {Mp : Msgpack} {ML : MsgpackLaws}.
Implicit Types (g : graph) (c : conn).

Lemma repr_ids g d : repr g d → ∀ i, is_Some (g_nodes g !! i) → in_u64 i.
Proof. intros Hr i [r Hi]. destruct (r_nodes _ _ Hr) as [_ H2]. by apply (H2 _ _ Hi). Qed.

(** the name of an index table determines the label and the properties: it
    is read back by the label-scoped listing exactly for its own label and by
    the listing of all indexes, and no two indexes share a table. *)
Theorem index_names_unique l ps :
  valid_index l ps →
  composite_index_table_name l ps = Ok (index_name l ps)
  ∧ any_info_of_name (index_name l ps) = Some (mkIndexInfo l ps "btree")
  ∧ ∀ l' ps', valid_index l' ps' →
      parse_composite_table_name (index_name l ps) l' = (if decide (l = l') then Some ps else None)
      ∧ (composite_index_table_name l' ps' = Ok (index_name l ps) → l' = l ∧ ps' = ps).
Proof.
  intros H. split_and!; [by apply index_name_valid|by apply any_info_index_name|].
  intros l' ps' H'. split; [apply parse_index_name; [done|apply H']|].
  rewrite index_name_valid by done. intros E.
  apply index_name_inj; [done..|]. by apply (f_equal (λ r, match r with Ok s => s | _ => "" end)) in E.
Qed.

(** C16: an index lookup returns exactly the nodes that have the label and whose
    property has the value, each once: keys of longer or shorter values never
    slip in.  Without a table for the index the answer is that there is none,
    not an empty list. *)
Theorem index_lookup_exact g c l p v :
  repr g (view c) → indexed (g_nodes g) (view c) → valid_index l [p] →
  (has_index (view c) l [p] →
   ∃ ids, index_lookup l p v c = Ok ids ∧ NoDup ids
     ∧ ∀ i, i ∈ ids ↔ ∃ rec, g_nodes g !! i = Some rec ∧ l ∈ rec_labels rec
                         ∧ rec_properties rec !! p = Some v)
  ∧ (¬ has_tbl (view c) (index_name l [p]) →
     index_lookup l p v c = Err (GraphError.IndexNotFound l [p] None)).
Proof.
  intros Hr Hix Hv. rewrite index_lookup_view. split; intros H.
  - by apply (index_lookup_spec Hix (repr_ids _ _ Hr)).
  - by apply (index_lookup_missing Hix).
Qed.

(** a lookup by a prefix of the indexed properties returns exactly the nodes
    with the label whose indexed values start with the given ones, whatever their
    encodings end in; a prefix longer than the index is a panic. *)
Theorem prefix_lookup_exact g c l ps vs :
  repr g (view c) → indexed (g_nodes g) (view c) → valid_index l ps → has_index (view c) l ps →
  if decide (length ps < length vs) then composite_index_prefix_lookup l ps vs c = Panic else
  ∃ ids, composite_index_prefix_lookup l ps vs c = Ok ids ∧ NoDup ids
    ∧ ∀ i, i ∈ ids ↔ ∃ rec ws, g_nodes g !! i = Some rec ∧ l ∈ rec_labels rec
        ∧ collect_values (rec_properties rec) ps = Some ws ∧ vs `prefix_of` ws.
Proof.
  intros Hr Hix Hv Hi. rewrite composite_index_prefix_lookup_view. case_decide as Hl.
  - unfold composite_index_prefix_lookup. by rewrite decide_True.
  - apply (prefix_lookup_spec Hix (repr_ids _ _ Hr)); [done..|lia].
Qed.

(** C17: creating an index on existing data fills it with exactly the nodes that
    have the label and all the properties and leaves graph and other indexes
    alone; an index that exists already is an error and nothing changes.  The
    label scan it is filled from must not select nodes with other labels. *)
Theorem create_index_backfills g c l ps :
  repr g (view c) → indexed (g_nodes g) (view c) → valid_index l ps →
  scan_exact (g_nodes g) l →
  (has_index (view c) l ps →
   ∃ c', create_composite_index l ps c = (c', Err (GraphError.IndexAlreadyExists l ps None))
     ∧ view c' = view c)
  ∧ (¬ has_tbl (view c) (index_name l ps) →
     ∃ c', create_composite_index l ps c = (c', Ok ())
       ∧ repr g (view c') ∧ indexed (g_nodes g) (view c') ∧ has_index (view c') l ps
       ∧ ∀ k, k ≠ str_lower (index_name l ps) → view c' !! k = view c !! k).
Proof.
  intros Hr Hix Hv Hs. split.
  - intros Hi. pose proof (create_composite_index_refines (view := view) l ps c) as E.
    rewrite (create_index_exists Hix l ps Hv Hi) in E.
    destruct (create_composite_index l ps c) as [c' r]. unfold on_fst in E. cbn [fst snd] in E.
    simplify_eq. eauto.
  - intros Hno.
    apply (lift_spec _ _ _ _ (λ d, repr g d ∧ indexed (g_nodes g) d ∧ has_index d l ps
             ∧ ∀ k, k ≠ str_lower (index_name l ps) → d !! k = view c !! k)
             (create_composite_index_refines l ps)).
    by apply create_index_spec.
Qed.

(** Dropping an index removes its table and nothing else; dropping one that
    does not exist is an error. *)
Theorem drop_index_removes g c l ps :
  repr g (view c) → indexed (g_nodes g) (view c) → valid_index l ps →
  if decide (has_index (view c) l ps) then
    ∃ c', drop_composite_index l ps c = (c', Ok ())
      ∧ repr g (view c') ∧ indexed (g_nodes g) (view c') ∧ ¬ has_tbl (view c') (index_name l ps)
      ∧ ∀ k, k ≠ str_lower (index_name l ps) → view c' !! k = view c !! k
  else ∃ c', drop_composite_index l ps c = (c', Err (GraphError.IndexNotFound l ps None))
      ∧ view c' = view c.
Proof.
  intros Hr Hix Hv. case_decide as Hi.
  - apply (lift_spec _ _ _ _
      (λ d, repr g d ∧ indexed (g_nodes g) d ∧ ¬ has_tbl d (index_name l ps)
        ∧ ∀ k, k ≠ str_lower (index_name l ps) → d !! k = view c !! k)
      (drop_composite_index_refines l ps)).
    by apply drop_index_spec.
  - pose proof (drop_composite_index_refines (view := view) l ps c) as E.
    rewrite (drop_index_missing Hix l ps Hv Hi) in E.
    destruct (drop_composite_index l ps c) as [c' r]. unfold on_fst in E. cbn [fst snd] in E.
    simplify_eq. eauto.
Qed.

(** C9: after a node was created or its properties were replaced, updating the
    indexes of all its labels makes every index agree with the new nodes, in
    whatever order the catalogue lists the indexes; the graph is untouched. *)
Theorem update_indexes_follow g ns c i labels old new :
  repr g (view c) → indexed ns (view c) → in_u64 i → (∀ j, is_Some (ns !! j) → in_u64 j) →
  node_change ns (g_nodes g) i labels old (Some new) →
  ∃ c', update_indexes_for_node i labels old new c = (c', Ok ())
    ∧ repr g (view c') ∧ indexed (g_nodes g) (view c').
Proof.
  intros Hr Hix Hi Hids Hch. pose proof (ix_catalogue _ _ Hix) as Hc.
  destruct (update_indexes_for_node_spec i labels old new c Hc) as (c' & S & E & Ht & HS).
  exists c'. split_and!; [done| |].
  - eapply repr_core_same; [|exact Hr]. by eapply touched_core.
  - by eapply indexed_touched.
Qed.

(** Removing the index entries of a node leaves every index as if the node
    were gone, so that deleting the node afterwards keeps the indexes exact. *)
Theorem remove_indexes_forget g c i rec :
  repr g (view c) → indexed (g_nodes g) (view c) → g_nodes g !! i = Some rec →
  ∃ c', remove_indexes_for_node i (rec_labels rec) (rec_properties rec) c = (c', Ok ())
    ∧ repr g (view c') ∧ indexed (base.delete i (g_nodes g)) (view c').
Proof.
  intros Hr Hix Hi. pose proof (ix_catalogue _ _ Hix) as Hc.
  destruct (remove_indexes_for_node_spec i (rec_labels rec) (rec_properties rec) c Hc)
    as (c' & S & E & Ht & HS).
  exists c'. split_and!; [done| |].
  - eapply repr_core_same; [|exact Hr]. by eapply touched_core.
  - assert (in_u64 i) as Hi64 by (eapply repr_ids; eauto).
    eapply indexed_touched; [|done|by eapply repr_ids|done..].
    split_and!.
    + intros j Hj. by apply lookup_delete_ne.
    + intros r Hr'. by simplify_eq.
    + intros r Hr'. by rewrite lookup_delete_eq in Hr'.
    + rewrite Hi. split; eauto.
    + rewrite lookup_delete_eq. split; by intros [? ?].
Qed.

(** a scan for a label without an underscore, none of whose case variants is
    in use, returns exactly the nodes that have the label, each once, however
    many other labels they have. *)
Theorem label_scan_exact g c l :
  repr g (view c) → valid_name l → "_"%byte ∉ str_bytes l →
  (∀ i rec l', g_nodes g !! i = Some rec → l' ∈ rec_labels rec → str_lower l' = str_lower l →
               l' = l) →
  ∃ nodes, find_nodes_by_label l c = Ok nodes ∧ NoDup (node_id <$> nodes)
    ∧ ∀ n, n ∈ nodes ↔ ∃ i rec, n = node_at i rec ∧ g_nodes g !! i = Some rec
                           ∧ l ∈ rec_labels rec.
Proof.
  intros Hr Hl Hu Hcase. rewrite find_nodes_by_label_view.
  assert (l ≠ "") as Hne by (by apply (proj1 (valid_name_iff l))).
  destruct (find_nodes_run Hr l Hne) as (nodes & E & Hnd & Hn). exists nodes.
  split_and!; [done..|]. intros n. rewrite Hn. destruct (r_nodes _ _ Hr) as [_ H2].
  split; intros (i & rec & -> & Hi & H); exists i, rec; (split_and!; [done..|]);
    destruct (H2 _ _ Hi) as (_ & Hrec & _).
  - destruct (label_selected_sound l (rec_labels rec)) as (l' & Hl' & El); [done|done|apply Hrec|done|].
    by rewrite <- (Hcase i rec l' Hi Hl' El).
  - apply label_selected_complete; [done|apply Hrec].
Qed.
End Theorems.

(** The end of a range computed for composite lookups is the one the
    key-value layer computes, so both scans select the keys with the prefix. *)
Theorem next_prefix_agrees p :
  next_prefix p = prefix_upper_bound p
  ∧ ∀ k, p `prefix_of` k ↔
      bytes_le p k ∧ match next_prefix p with Some ub => bytes_lt k ub | None => True end.
Proof.
  split; [apply next_prefix_upper_bound|]. intros k. rewrite next_prefix_upper_bound.
  symmetry. apply in_prefix_range.
Qed.

(** ** A concrete database with an index *)
Module IndexDemo.
#[local] Existing Instance Reference.msgpack.
#[local] Existing Instance Reference.msgpack_laws.
Import Demo.

Definition di : db := (create_composite_index "Person" ["name"] d).1.

Lemma d_indexed : indexed (g_nodes g) d.
Proof. apply indexed_none. by_decide. Qed.
Lemma d_exact : scan_exact (g_nodes g) "Person".
Proof.
  assert (map_Forall (λ (_ : N) rec, label_selected "Person" (join ":" (rec_labels rec)) = true →
    "Person" ∈ rec_labels rec) (g_nodes g)) as H by by_decide.
  exact H.
Qed.
Lemma di_spec : repr g di ∧ indexed (g_nodes g) di ∧ has_index di "Person" ["name"].
Proof.
  destruct (create_index_spec d_repr d_indexed "Person" ["name"] ltac:(by_decide) ltac:(by_decide)
    d_exact) as (d' & E & H1 & H2 & H3 & _). unfold di. rewrite E.
  exact (conj H1 (conj H2 H3)).
Qed.

(** A database whose labels are easily confused. *)
Definition confusing : db :=
  ((init_schema ≫= λ _, create_node ["person"] props ≫= λ _, create_node ["A"; "B"] ∅) ∅).1.
Definition ids_of_scan (l : string) (c : db) : Res (list N) :=
  (λ nodes : list Node, node_id <$> nodes) <$> find_nodes_by_label l c.

(** The indexed database after a property was changed in the node table. *)
Definition bob : Properties := {[ "name" := Value.String "Bob" ]}.
Definition dn : db := (set_node_property 1 "name" (Value.String "Bob") di).1.
Definition gn : graph := update_node g 1 (mkNodeRecord ["Admin"; "Person"] bob).
Lemma dn_spec : repr gn dn ∧ indexed (g_nodes g) dn.
Proof.
  destruct (set_node_property_spec (proj1 di_spec) 1 (mkNodeRecord ["Admin"; "Person"] props)
    "name" (Value.String "Bob")) as (d' & E & H); [reflexivity|by_decide|exact I|].
  unfold dn. rewrite E. split.
  - assert (set_prop props "name" (Value.String "Bob") = bob) as Ep by by_decide.
    unfold gn. rewrite <- Ep. exact H.
  - eapply (keeps_indexed (view := id)); [apply set_node_property_refines|
      apply keeps_set_node_property|exact E|apply di_spec].
Qed.
End IndexDemo.

Section Witnesses.
#[local] Existing Instance Reference.msgpack.
#[local] Existing Instance Reference.msgpack_laws.
Import Demo IndexDemo.

Lemma index_names_unique_witness :
  composite_index_table_name "Person" ["name"; "age"] = Ok "node_idx$Person$name$age"
  ∧ any_info_of_name "node_idx$Person$name$age" = Some (mkIndexInfo "Person" ["name"; "age"] "btree")
  ∧ ∀ l' ps', valid_index l' ps' →
      parse_composite_table_name "node_idx$Person$name$age" l'
        = (if decide ("Person" = l') then Some ["name"; "age"] else None)
      ∧ (composite_index_table_name l' ps' = Ok "node_idx$Person$name$age" →
         l' = "Person" ∧ ps' = ["name"; "age"]).
Proof. apply (index_names_unique "Person" ["name"; "age"]). by_decide. Defined.

Lemma index_lookup_exact_witness :
  (has_index di "Person" ["name"] →
   ∃ ids, index_lookup "Person" "name" (Value.String "Ada") di = Ok ids ∧ NoDup ids
     ∧ ∀ i, i ∈ ids ↔ ∃ rec, g_nodes g !! i = Some rec ∧ "Person" ∈ rec_labels rec
                         ∧ rec_properties rec !! "name" = Some (Value.String "Ada"))
  ∧ (¬ has_tbl di "node_idx$Person$name" →
     index_lookup "Person" "name" (Value.String "Ada") di
     = Err (GraphError.IndexNotFound "Person" ["name"] None)).
Proof.
  apply (index_lookup_exact (view := id) g di); [apply di_spec|apply di_spec|by_decide].
Defined.

Lemma prefix_lookup_exact_witness :
  ∃ ids, composite_index_prefix_lookup "Person" ["name"] [Value.String "Ada"] di = Ok ids
    ∧ NoDup ids
    ∧ ∀ i, i ∈ ids ↔ ∃ rec ws, g_nodes g !! i = Some rec ∧ "Person" ∈ rec_labels rec
        ∧ collect_values (rec_properties rec) ["name"] = Some ws
        ∧ [Value.String "Ada"] `prefix_of` ws.
Proof.
  apply (prefix_lookup_exact (view := id) g di "Person" ["name"] [Value.String "Ada"]);
    [apply di_spec|apply di_spec|by_decide|apply di_spec].
Defined.

Lemma create_index_backfills_witness :
  (has_index d "Person" ["name"] →
   ∃ c', create_composite_index "Person" ["name"] d
         = (c', Err (GraphError.IndexAlreadyExists "Person" ["name"] None)) ∧ c' = d)
  ∧ (¬ has_tbl d "node_idx$Person$name" →
     ∃ c', create_composite_index "Person" ["name"] d = (c', Ok ())
       ∧ repr g c' ∧ indexed (g_nodes g) c' ∧ has_index c' "Person" ["name"]
       ∧ ∀ k, k ≠ str_lower "node_idx$Person$name" → c' !! k = d !! k).
Proof.
  apply (create_index_backfills (view := id) g d "Person" ["name"]);
    [exact d_repr|exact d_indexed|by_decide|exact d_exact].
Defined.

Lemma drop_index_removes_witness :
  ∃ c', drop_composite_index "Person" ["name"] di = (c', Ok ())
    ∧ repr g c' ∧ indexed (g_nodes g) c' ∧ ¬ has_tbl c' "node_idx$Person$name"
    ∧ ∀ k, k ≠ str_lower "node_idx$Person$name" → c' !! k = di !! k.
Proof.
  pose proof (drop_index_removes (view := id) g di "Person" ["name"] (proj1 di_spec)
    (proj1 (proj2 di_spec)) ltac:(by_decide)) as H.
  rewrite decide_True in H by apply di_spec. exact H.
Defined.

Lemma update_indexes_follow_witness :
  ∃ c', update_indexes_for_node 1 ["Admin"; "Person"] (Some props) bob dn = (c', Ok ())
    ∧ repr gn c' ∧ indexed (g_nodes gn) c'.
Proof.
  apply (update_indexes_follow (view := id) gn (g_nodes g) dn);
    [apply dn_spec|apply dn_spec|by_decide|exact (repr_ids _ _ d_repr)|].
  split_and!.
  - intros j Hj. by apply lookup_insert_ne.
  - intros r [= <-]. done.
  - intros r Hr. unfold gn, update_node in Hr. cbn in Hr. rewrite lookup_insert_eq in Hr.
    injection Hr as <-. done.
  - split; eauto.
  - unfold gn, update_node. cbn. rewrite lookup_insert_eq. split; eauto.
Defined.

Lemma remove_indexes_forget_witness :
  ∃ c', remove_indexes_for_node 1 ["Admin"; "Person"] props di = (c', Ok ())
    ∧ repr g c' ∧ indexed (base.delete 1%N (g_nodes g)) c'.
Proof.
  apply (remove_indexes_forget (view := id) g di 1 (mkNodeRecord ["Admin"; "Person"] props));
    [apply di_spec|apply di_spec|reflexivity].
Defined.

Lemma label_scan_exact_witness :
  ∃ nodes, find_nodes_by_label "Person" d = Ok nodes ∧ NoDup (node_id <$> nodes)
    ∧ ∀ n, n ∈ nodes ↔ ∃ i rec, n = node_at i rec ∧ g_nodes g !! i = Some rec
                           ∧ "Person" ∈ rec_labels rec.
Proof.
  apply (label_scan_exact (view := id) g d); [exact d_repr|by_decide|by_decide|].
  assert (map_Forall (λ (_ : N) rec, Forall (λ l', str_lower l' = str_lower "Person" → l' = "Person")
    (rec_labels rec)) (g_nodes g)) as H by by_decide.
  intros i rec l' Hi. specialize (H i rec Hi). rewrite Forall_forall in H. apply H.
Defined.

(** The label scan compares with LIKE, which ignores ASCII case and reads an
    underscore as any character.  A scan for Person returns a node labelled only
    person, a scan for A_B returns a node with the labels A and B, and an index
    created on Person then lists the person node. *)
Theorem label_scan_overmatches :
  ids_of_scan "Person" confusing = Ok [1%N]
  ∧ ids_of_scan "A_B" confusing = Ok [2%N]
  ∧ node_labels <$> get_node 1 confusing = Ok ["person"]
  ∧ node_labels <$> get_node 2 confusing = Ok ["A"; "B"]
  ∧ index_lookup "Person" "name" (Value.String "Ada")
      (create_composite_index "Person" ["name"] confusing).1 = Ok [1%N].
Proof. split_and!; vm_compute; reflexivity. Qed.

(** Table names are compared exactly in the catalogue but without case
    everywhere else, so with an index on Person only, a lookup in an index on
    person, which does not exist, answers with the nodes labelled Person, and
    creating that index fails with a storage error. *)
Theorem index_lookup_folds_case :
  list_indexes_for_label "person" di = Ok []
  ∧ index_lookup "person" "name" (Value.String "Ada") di = Ok [1%N]
  ∧ (create_composite_index "person" ["name"] di).2
    = Err (GraphError.from_rusqlite "table node_idx$person$name already exists").
Proof. split_and!; vm_compute; reflexivity. Qed.
End Witnesses.
