(* ===== verification/Fts.v ===== *)
(** * Full-text indexes: src/src/storage/fts.rs

    One FTS5 virtual table per index, keyed by node id, with the string properties
    of the nodes that carry the label.  This file has the operations; [FtsSpec]
    proves that maintenance keeps the tables in agreement with the nodes. *)
From stdpp Require Import pretty.
From S2P Require Export Nodes Keys Index.

(** * Texts of full-text DDL

    The code recovers tokenizer and columns of a full-text index from the text of
    the statement that created it: the string functions it uses and the two parsers. *)

(** ** Searching and trimming *)

(** [str::find] of a substring, as a byte offset. *)
Fixpoint bytes_find (p l : bytes) : option nat :=
  if decide (p `prefix_of` l) then Some 0 else
  match l with
  | [] => None
  | _ :: l' => S <$> bytes_find p l'
  end.

(** The last occurrence of a byte: the text before and after it. *)
Definition bytes_rsplit_once (c : byte) (l : bytes) : option (bytes * bytes) :=
  (λ p : bytes * bytes, (reverse p.2, reverse p.1)) <$> bytes_split_once c (reverse l).

(** Drop the longest run of pieces of [ws] at the front. *)
Fixpoint trim_front (fuel : nat) (ws : list bytes) (l : bytes) : bytes :=
  match fuel with
  | 0 => l
  | S fuel' =>
      match omap (λ w, bytes_strip_prefix w l) ws with
      | l' :: _ => trim_front fuel' ws l'
      | [] => l
      end
  end.
(** Every piece that is dropped is at least one byte long. *)
Definition trim_start_of (ws : list bytes) (l : bytes) : bytes := trim_front (length l) ws l.
Definition trim_end_of (ws : list bytes) (l : bytes) : bytes :=
  reverse (trim_start_of (reverse <$> ws) (reverse l)).
Definition trim_of (ws : list bytes) (l : bytes) : bytes := trim_end_of ws (trim_start_of ws l).

(** The characters with the White_Space property, in UTF-8. *)
Definition white_space : list bytes :=
  [[x09]; [x0a]; [x0b]; [x0c]; [x0d]; [x20]; [xc2; x85]; [xc2; xa0]; [xe1; x9a; x80];
   [xe2; x80; x80]; [xe2; x80; x81]; [xe2; x80; x82]; [xe2; x80; x83]; [xe2; x80; x84];
   [xe2; x80; x85]; [xe2; x80; x86]; [xe2; x80; x87]; [xe2; x80; x88]; [xe2; x80; x89];
   [xe2; x80; x8a]; [xe2; x80; xa8]; [xe2; x80; xa9]; [xe2; x80; xaf]; [xe2; x81; x9f];
   [xe3; x80; x80]].
(** [str::trim]. *)
Definition trim (l : bytes) : bytes := trim_of white_space l.

(** [str::parse::<u64>]: an optional plus sign, then decimal digits, in range. *)
Definition parse_u64 (l : bytes) : option N :=
  let digits := match l with b :: l' => if decide (b = "+"%byte) then l' else l | [] => l end in
  if bool_decide (digits ≠ [])
     && forallb (λ b, byte_in 48 57 b) digits then
    let n := foldl (λ acc b, (acc * 10 + (b2n b - 48))%N) 0%N digits in
    if decide (in_u64 n) then Some n else None
  else None.

Definition dq : string := bytes_str [x22].
Definition quoted (s : string) : string := dq +:+ s +:+ dq.

(** ** Tokenizers *)
Inductive FtsTokenizerKind := TrigramCaseSensitive | TrigramCaseInsensitive | Word.
#[global] Instance FtsTokenizerKind_eq_dec : EqDecision FtsTokenizerKind.
Proof. solve_decision. Defined.

Definition parse_tokenizer_kind (sql : string) : FtsTokenizerKind :=
  if str_contains sql "unicode61" then Word
  else if str_contains sql "case_sensitive 0" then TrigramCaseInsensitive
  else TrigramCaseSensitive.

Module Spec.
Inductive FtsTokenizerSpec := TrigramCaseSensitive | TrigramCaseInsensitive | Word.
Definition tokenize_clause (spec : FtsTokenizerSpec) : string :=
  match spec with
  | TrigramCaseSensitive => "trigram case_sensitive 1"
  | TrigramCaseInsensitive => "trigram case_sensitive 0"
  | Word => "unicode61"
  end.
End Spec.
Abbreviation FtsTokenizerSpec := Spec.FtsTokenizerSpec.

(** ** Columns *)
Definition parse_column_list (sql : string) : list string :=
  match bytes_split_once "(" (str_bytes sql) with
  | None => []
  | Some (_, rest) =>
      let stop := match bytes_find (str_bytes "tokenize=") rest with
                  | Some n => n
                  | None => match bytes_rsplit_once ")" rest with
                            | Some (before, _) => length before
                            | None => length rest
                            end
                  end in
      let columns_str := trim (trim_end_of [[","%byte]] (trim (take stop rest))) in
      bytes_str <$> filter (λ c, c ≠ [])
        ((λ c, trim_of [["'"%byte]] (trim_of [[x22]] (trim c)))
           <$> bytes_split "," columns_str)
  end.

(** The statements the creators issue. *)
Definition create_fts_sql (table cols tokenize : string) : string :=
  "CREATE VIRTUAL TABLE " +:+ quoted table +:+ " USING fts5(" +:+ cols +:+ ", tokenize='"
  +:+ tokenize +:+ "')".

Example parse_column_list_examples :
  parse_column_list (create_fts_sql "t" (quoted "title" +:+ ", " +:+ quoted "body") "unicode61")
    = ["title"; "body"]
  ∧ parse_column_list (create_fts_sql "t" "content" "trigram case_sensitive 1") = ["content"]
  ∧ parse_column_list "CREATE VIRTUAL TABLE t USING fts5(content)" = ["content"].
Proof. vm_compute. done. Qed.

(** ** What splitting gives *)
Lemma bytes_split_once_app c a r :
  c ∉ a → bytes_split_once c (a ++ c :: r) = Some (a, r).
Proof.
  induction a as [|x a IH]; intros Ha; cbn [app bytes_split_once]; [by rewrite decide_True|].
  apply not_elem_of_cons in Ha as [Hne Ha]. rewrite decide_False by done. by rewrite IH.
Qed.
Lemma bytes_split_once_none c a : c ∉ a → bytes_split_once c a = None.
Proof.
  induction a as [|x a IH]; intros Ha; simpl; [done|].
  rewrite decide_False by set_solver. by rewrite IH by set_solver.
Qed.
Lemma bytes_rsplit_once_app c a r :
  c ∉ r → bytes_rsplit_once c (a ++ c :: r) = Some (a, r).
Proof.
  intros Hr. unfold bytes_rsplit_once.
  rewrite reverse_app, reverse_cons, <- app_assoc. cbn [app].
  rewrite bytes_split_once_app by (by rewrite elem_of_reverse). cbn [fmap option_fmap option_map fst snd].
  by rewrite !reverse_involutive.
Qed.
Lemma bytes_rsplit_once_none c a : c ∉ a → bytes_rsplit_once c a = None.
Proof.
  intros Ha. unfold bytes_rsplit_once.
  by rewrite bytes_split_once_none by by rewrite elem_of_reverse.
Qed.

(** * Full-text indexes *)

Record FtsIndexInfo := mkFtsInfo {
  fi_label : string;
  fi_properties : list string;
  fi_kind : FtsTokenizerKind;
  fi_table_name : string;
}.
#[global] Instance FtsIndexInfo_eq_dec : EqDecision FtsIndexInfo.
Proof. solve_decision. Defined.

(** [n as i64] and back. *)
Definition i64_of_u64 (n : N) : Z :=
  if decide (n < 2 ^ 63)%N then Z.of_N n else (Z.of_N n - Z.of_N u64_mod)%Z.
Definition u64_of_i64 (z : Z) : N := Z.to_N (z mod Z.of_N u64_mod)%Z.

(** ** Names *)
Definition fts_table_name (label property : string) : Res string :=
  validate_name label ≫= λ _,
  validate_name property ≫= λ _,
  Ok ("node_fts$" +:+ label +:+ "$" +:+ property).

Definition legacy_fts_table_name (label property : string) : Res string :=
  validate_name label ≫= λ _,
  validate_name property ≫= λ _,
  Ok ("node_fts_" +:+ label +:+ "_" +:+ property).

(** One row of the catalogue. *)
Definition fts_info_of (x : string * string) : option FtsIndexInfo :=
  let '(name, sql) := x in
  let kind := parse_tokenizer_kind sql in
  let properties := parse_column_list sql in
  match strip_prefix "node_fts$" name with
  | Some rest =>
      (λ lp : string * string, mkFtsInfo lp.1 [lp.2] kind name) <$> split_once "$" rest
  | None =>
      match strip_prefix "node_fts_multi_" name with
      | Some rest =>
          (λ p : bytes * bytes, mkFtsInfo (bytes_str p.1) properties kind name)
            <$> bytes_rsplit_once "_" (str_bytes rest)
      | None =>
          rest ← strip_prefix "node_fts_" name;
          (λ lp : string * string, mkFtsInfo lp.1 [lp.2] kind name) <$> split_once "_" rest
      end
  end.

(** The smallest positive number not in the sorted list. *)
Fixpoint smallest_unused (used : list N) (n : N) : N :=
  match used with
  | [] => n
  | u :: used' =>
      if decide (u = n) then smallest_unused used' (u64_add n 1)
      else if decide (n < u)%N then n
      else smallest_unused used' n
  end.

(** ** Values *)

(** The string value of a property. *)
Definition string_value (props : Properties) (p : string) : option string :=
  match props !! p with Some (Value.String s) => Some s | _ => None end.
Definition string_values (props : option Properties) (ps : list string) : list (option string) :=
  (λ p, props ≫= λ m, string_value m p) <$> ps.
Definition any_string (props : Properties) (ps : list string) : bool :=
  existsb (λ p, bool_decide (is_Some (string_value props p))) ps.

Section Fts.
Context {conn : Type} {O : SqlOps conn} {Mp : Msgpack}.
Abbreviation M' := (M conn GraphError).

Definition fts_table_exists (table : string) (c : conn) : Res bool :=
  storage (sql_table_exists c table).

Definition resolve_fts_table (label property : string) (c : conn) : Res string :=
  fts_table_name label property ≫= λ canonical : string,
  fts_table_exists canonical c ≫= λ e : bool,
  if e then Ok canonical else
  legacy_fts_table_name label property ≫= λ legacy : string,
  fts_table_exists legacy c ≫= λ e : bool,
  if e then Ok legacy else Ok canonical.

(** ** Listing *)
Definition list_all_fulltext_indexes (c : conn) : Res (list FtsIndexInfo) :=
  storage (sql_fts_tables c "node_fts_%") ≫= λ rows : list (string * string),
  Ok (omap fts_info_of rows).

Definition list_fulltext_indexes_for_label (label : string) (c : conn)
    : Res (list FtsIndexInfo) :=
  list_all_fulltext_indexes c ≫= λ all : list FtsIndexInfo,
  Ok (filter (λ info, fi_label info = label) all).

Definition covers (label property : string) (info : FtsIndexInfo) : Prop :=
  fi_label info = label ∧ property ∈ fi_properties info.
#[global] Instance covers_dec l p info : Decision (covers l p info).
Proof. unfold covers. apply _. Defined.

Definition fts_tokenizer_kind (label property : string) (c : conn) : Res FtsTokenizerKind :=
  list_all_fulltext_indexes c ≫= λ infos : list FtsIndexInfo,
  match filter (covers label property) infos with
  | info :: _ => Ok (fi_kind info)
  | [] => Err (GraphError.IndexNotFound label [property]
                 (Some "no fulltext index covers this (label, property)"))
  end.

(** [fts_tokenizer_kind(..).is_ok()]. *)
Definition is_covered (label property : string) (c : conn) : Res bool :=
  match fts_tokenizer_kind label property c with
  | Ok _ => Ok true | Err _ => Ok false | Panic => Panic
  end.

(** ** Creation *)
Definition fts_insert (table : string) (id : N) (vals : list (string * option string)) : M' unit :=
  exec (λ c, sql_fts_insert c table (i64_of_u64 id) vals).
Definition fts_delete (table : string) (id : N) : M' unit :=
  exec (λ c, sql_fts_delete c table (i64_of_u64 id)).

Definition create_fulltext_index_impl (label property : string) (spec : FtsTokenizerSpec)
    : M' unit :=
  let exists_err h := GraphError.IndexAlreadyExists label [property] (Some h) in
  lift (fts_table_name label property) ≫= λ table : string,
  reads (λ c, fts_table_exists table c ≫= λ e : bool,
              if e then Ok true else
              legacy_fts_table_name label property ≫= λ legacy : string,
              fts_table_exists legacy c) ≫= λ already : bool,
  if already then throw (exists_err "a fulltext index on this (label, property) already exists")
  else
  reads (is_covered label property) ≫= λ covered : bool,
  if covered then
    throw (exists_err "a multi-property fulltext index already covers this (label, property)")
  else
  exec (λ c, sql_create_fts c table ["content"]
               (create_fts_sql table "content" (Spec.tokenize_clause spec))) ≫= λ _,
  reads (find_nodes_by_label label) ≫= λ nodes : list Node,
  for_each (λ n : Node,
    match string_value (node_properties n) property with
    | Some s => fts_insert table (node_id n) [("content", Some s)]
    | None => mret ()
    end) nodes.

Definition create_fulltext_index (label property : string) : M' unit :=
  create_fulltext_index_impl label property Spec.TrigramCaseSensitive.
Definition create_fulltext_index_ci (label property : string) : M' unit :=
  create_fulltext_index_impl label property Spec.TrigramCaseInsensitive.
Definition create_fulltext_index_word (label property : string) : M' unit :=
  create_fulltext_index_impl label property Spec.Word.

(** The numbers in use after the prefix, in order. *)
Definition used_numbers (prefix : string) (names : list string) : list N :=
  merge_sort N.le (omap (λ name, rest ← strip_prefix prefix name; parse_u64 (str_bytes rest)) names).

Definition fts_multi_table_name (label : string) (c : conn) : Res string :=
  validate_name label ≫= λ _,
  let prefix := "node_fts_multi_" +:+ label +:+ "_" in
  storage (sql_names_like c (prefix +:+ "%")) ≫= λ names : list string,
  Ok (prefix +:+ pretty (smallest_unused (used_numbers prefix names) 1)).

Definition multi_columns (properties : list string) : string := join ", " (quoted <$> properties).

Definition create_fulltext_index_multi_impl (label : string) (properties : list string)
    (spec : FtsTokenizerSpec) : M' unit :=
  reads (fts_multi_table_name label) ≫= λ table : string,
  exec (λ c, sql_create_fts c table properties
               (create_fts_sql table (multi_columns properties) (Spec.tokenize_clause spec)))
    ≫= λ _,
  reads (find_nodes_by_label label) ≫= λ nodes : list Node,
  for_each (λ n : Node,
    if any_string (node_properties n) properties
    then fts_insert table (node_id n)
           (zip properties (string_values (Some (node_properties n)) properties))
    else mret ()) nodes.

(** The three loops over the requested properties. *)
Fixpoint reject_duplicates (label : string) (seen : gset string) (ps : list string) : Res unit :=
  match ps with
  | [] => Ok ()
  | p :: ps' =>
      if decide (p ∈ seen)
      then Err (GraphError.IndexAlreadyExists label [p]
                  (Some "duplicate property in multi-prop index list"))
      else reject_duplicates label ({[ p ]} ∪ seen) ps'
  end.
Definition reject_covered (label : string) (ps : list string) (c : conn) : Res unit :=
  for_each_r (λ p,
    is_covered label p c ≫= λ covered : bool,
    if covered then Err (GraphError.IndexAlreadyExists label [p]
                      (Some "another fulltext index already covers (label, property)"))
    else Ok ()) ps.

Definition create_fulltext_index_word_multi (label : string) (properties : list string)
    : M' unit :=
  if decide (properties = []) then
    throw (GraphError.IndexAlreadyExists label []
      (Some "create_fulltext_index_word_multi requires at least one property"))
  else
  lift (reject_duplicates label ∅ properties) ≫= λ _,
  reads (reject_covered label properties) ≫= λ _,
  lift (for_each_r validate_name properties) ≫= λ _,
  create_fulltext_index_multi_impl label properties Spec.Word.

Definition drop_fulltext_index (label property : string) : M' unit :=
  reads (resolve_fts_table label property) ≫= λ table : string,
  reads (fts_table_exists table) ≫= λ e : bool,
  if e then exec (λ c, sql_drop_table c table)
  else throw (GraphError.IndexNotFound label [property]
                (Some "no fulltext index on this (label, property)")).

(** ** Maintenance *)
Definition update_fts_for_node_one_index (id : N) (info : FtsIndexInfo)
    (old_properties : option Properties) (new_properties : Properties) : M' unit :=
  let ps := fi_properties info in
  let old_vals := string_values old_properties ps in
  let new_vals := string_values (Some new_properties) ps in
  if decide (old_vals = new_vals) then mret () else
  let table := fi_table_name info in
  let had_any_old := existsb (λ v, bool_decide (is_Some v)) old_vals in
  let has_any_new := existsb (λ v, bool_decide (is_Some v)) new_vals in
  (if had_any_old then fts_delete table id else mret ()) ≫= λ _,
  if has_any_new then
    if bool_decide (is_Some (strip_prefix "node_fts_multi_" table))
    then fts_insert table id (zip ps new_vals)
    else match new_vals with
         | Some s :: _ => fts_insert table id [("content", Some s)]
         | _ => lift Panic
         end
  else mret ().

Definition update_fts_for_label (id : N) (label : string) (old_properties : option Properties)
    (new_properties : Properties) : M' unit :=
  reads (list_fulltext_indexes_for_label label) ≫= λ infos : list FtsIndexInfo,
  for_each (λ info, update_fts_for_node_one_index id info old_properties new_properties) infos.

Definition update_fts_for_node (id : N) (labels : list string)
    (old_properties : option Properties) (new_properties : Properties) : M' unit :=
  for_each (λ label, update_fts_for_label id label old_properties new_properties) labels.

Definition remove_fts_for_label (id : N) (label : string) (properties : Properties) : M' unit :=
  reads (list_fulltext_indexes_for_label label) ≫= λ infos : list FtsIndexInfo,
  for_each (λ info, if any_string properties (fi_properties info)
                    then fts_delete (fi_table_name info) id else mret ()) infos.

Definition remove_fts_for_node (id : N) (labels : list string) (properties : Properties)
    : M' unit :=
  for_each (λ label, remove_fts_for_label id label properties) labels.
End Fts.

(** ** Lookup

    [SELECT rowid, bm25("t") FROM "t" WHERE content MATCH ?1]: tokenizer and
    ranking belong to SQLite; a rank is a 64-bit float by its bits. *)
Class FtsMatch (conn : Type) := {
  sql_fts_match : conn → string → string → result string (list (Z * N));
}.

(** [term.chars().count()]: one for each byte that starts a character. *)
Definition char_count (s : string) : nat :=
  length (filter (λ b, utf8_cont b = false) (str_bytes s)).
(** [term.replace] of a double quote by two. *)
Definition double_quotes (s : string) : string :=
  bytes_str (str_bytes s ≫= λ b, if decide (b = x22) then [x22; x22] else [b]).

Definition fulltext_lookup {conn} `{SqlOps conn, FtsMatch conn} (label property term : string)
    (c : conn) : Res (option (list (N * N))) :=
  if decide (char_count term < 3) then Ok None else
  resolve_fts_table label property c ≫= λ table : string,
  fts_table_exists table c ≫= λ e : bool,
  if e then
    let phrase := quoted (double_quotes term) in
    storage (sql_fts_match c table phrase) ≫= λ rows : list (Z * N),
    Ok (Some ((λ r : Z * N, (u64_of_i64 r.1, r.2)) <$> rows))
  else Err (GraphError.IndexNotFound label [property]
              (Some "no fulltext index on this (label, property)")).
