(* ===== verification/FtsSpec.v ===== *)
(** * Full-text tables: what they hold, beside the other tables *)
From S2P Require Export Fts IndexMaint IndexCreate.

(** * What the full-text tables hold

    [fts_ok ns d]: every full-text table of [d] has one row for each node of [ns]
    with the label and a string in an indexed property, and no others.  The
    maintenance loops keep it so. *)

(** ** Row ids *)
Lemma i64_of_u64_inj m n : in_u64 m → in_u64 n → i64_of_u64 m = i64_of_u64 n → m = n.
Proof.
  unfold in_u64, i64_of_u64, u64_mod. intros Hm Hn. repeat case_decide; lia.
Qed.
Lemma u64_of_i64_of_u64 n : in_u64 n → u64_of_i64 (i64_of_u64 n) = n.
Proof.
  unfold in_u64, i64_of_u64, u64_of_i64, u64_mod. intros Hn. case_decide.
  - rewrite Z.mod_small by lia. lia.
  - rewrite <- (Z_mod_plus_full _ 1), Z.mod_small by lia. lia.
Qed.

(** ** The row of a node *)
Definition is_multi (info : FtsIndexInfo) : bool :=
  bool_decide (is_Some (strip_prefix "node_fts_multi_" (fi_table_name info))).
Definition info_columns (info : FtsIndexInfo) : list string :=
  if is_multi info then fi_properties info else ["content"].

(** The non-null columns of the values. *)
Definition columns_map (vals : list (string * option string)) : gmap string string :=
  list_to_map (omap (λ cv : string * option string, (λ v, (cv.1, v)) <$> cv.2) vals).

Definition row_of (info : FtsIndexInfo) (o : option Properties) : option (gmap string string) :=
  let vals := string_values o (fi_properties info) in
  if existsb (λ v, bool_decide (is_Some v)) vals
  then Some (columns_map (zip (info_columns info) vals)) else None.

Lemma any_string_values p ps :
  any_string p ps = existsb (λ v, bool_decide (is_Some v)) (string_values (Some p) ps).
Proof. unfold any_string, string_values. induction ps as [|q ps IH]; [done|]. cbn. by rewrite IH. Qed.

Lemma row_of_none info : row_of info None = None.
Proof.
  unfold row_of, string_values.
  assert (existsb (λ v : option string, bool_decide (is_Some v))
    ((λ p, None ≫= (λ m : Properties, string_value m p)) <$> fi_properties info) = false) as ->;
    [|done]. by induction (fi_properties info).
Qed.

(** Name and columns of a table fit what the catalogue says of it. *)
Definition columns_ok (info : FtsIndexInfo) (f : fts) : Prop :=
  fts_cols f = info_columns info ∧ (is_multi info = false → ∃ p, fi_properties info = [p]).

Definition node_row (ns : gmap N NodeRecord) (info : FtsIndexInfo) (i : N)
    : option (gmap string string) :=
  rec ← ns !! i;
  if decide (fi_label info ∈ rec_labels rec) then row_of info (Some (rec_properties rec)) else None.

(** The tables the catalogue query finds, with what is read off their names. *)
Definition fts_tbl (d : db) (T : tbl) (f : fts) (info : FtsIndexInfo) : Prop :=
  d !! str_lower (tbl_name T) = Some T ∧ tbl_fts T = Some f
  ∧ like None "node_fts_%" (tbl_name T) = true
  ∧ fts_info_of (tbl_name T, fts_sql f) = Some info.

Record fts_ok (ns : gmap N NodeRecord) (d : db) : Prop := {
  fo_keys k T : d !! k = Some T → k = str_lower (tbl_name T);
  fo_columns T f info : fts_tbl d T f info → columns_ok info f;
  fo_rows T f info : fts_tbl d T f info →
    ∀ i, in_u64 i → fts_rows f !! i64_of_u64 i = node_row ns info i;
  fo_ids T f info : fts_tbl d T f info →
    ∀ z, is_Some (fts_rows f !! z) → ∃ i, in_u64 i ∧ z = i64_of_u64 i;
}.

Lemma fts_info_table x info : fts_info_of x = Some info → fi_table_name info = x.1.
Proof.
  destruct x as [name sql]. unfold fts_info_of. cbn [fst].
  destruct (strip_prefix "node_fts$" name); [by intros ((? & ?) & _ & ->)%fmap_Some|].
  destruct (strip_prefix "node_fts_multi_" name); [by intros ((? & ?) & _ & ->)%fmap_Some|].
  destruct (strip_prefix "node_fts_" name); [|done]. cbn [mbind option_bind].
  by intros ((? & ?) & _ & ->)%fmap_Some.
Qed.

(** ** One table *)
Section Step.
Context {Mp : Msgpack}.
Context {d : db} {T : tbl} {f : fts} {info : FtsIndexInfo} (Ht : fts_tbl d T f info).

Lemma fts_find : find_tbl d (fi_table_name info) = Some T.
Proof. destruct Ht as (HT & _ & _ & Hi). by rewrite (fts_info_table _ _ Hi). Qed.
Lemma fts_table_name_eq : fi_table_name info = tbl_name T.
Proof. destruct Ht as (_ & _ & _ & Hi). apply (fts_info_table _ _ Hi). Qed.

(** [d] with other rows in this table. *)
Definition with_rows (m : gmap Z (gmap string string)) : db := set_fts d (tbl_name T) T f m.
Definition with_rows_tbl (m : gmap Z (gmap string string)) : tbl :=
  mkTbl (tbl_name T) (tbl_cols T) (tbl_rows T) (Some (mkFts (fts_sql f) (fts_cols f) m)).

Lemma with_rows_self : with_rows (fts_rows f) = d.
Proof.
  destruct Ht as (HT & Hf & _). unfold with_rows, set_fts. apply insert_id. rewrite HT.
  destruct T as [n cs rs o]. cbn in *. rewrite Hf. by destruct f.
Qed.
Lemma with_rows_tbl_ok m :
  fts_tbl (with_rows m) (with_rows_tbl m) (mkFts (fts_sql f) (fts_cols f) m) info.
Proof.
  destruct Ht as (HT & Hf & Hl & Hi). split_and!; [|done..].
  unfold with_rows, set_fts. cbn. apply lookup_insert_eq.
Qed.

Lemma fts_delete_run i :
  fts_delete (fi_table_name info) i d = (with_rows (base.delete (i64_of_u64 i) (fts_rows f)), Ok ()).
Proof.
  unfold fts_delete, exec. cbn. unfold db_fts_delete, on_fts. rewrite fts_find.
  destruct Ht as (_ & -> & _). cbn. by rewrite fts_table_name_eq.
Qed.

Lemma fts_insert_run i vals :
  fts_rows f !! i64_of_u64 i = None → vals.*1 ⊆ fts_cols f →
  fts_insert (fi_table_name info) i vals d
  = (with_rows (<[i64_of_u64 i := columns_map vals]> (fts_rows f)), Ok ()).
Proof.
  intros Hno Hsub. unfold fts_insert, exec. cbn. unfold db_fts_insert, on_fts.
  rewrite fts_find. destruct Ht as (_ & -> & _). cbn.
  rewrite decide_True, Hno; [by rewrite fts_table_name_eq|].
  apply Forall_forall. intros cv Hcv. apply Hsub, list_elem_of_fmap. eauto.
Qed.
End Step.

Section Update.
Context {Mp : Msgpack}.

Lemma zip_fst_sub {A B} (l : list A) (k : list B) : (zip l k).*1 ⊆ l.
Proof.
  revert k. induction l as [|x l IH]; intros [|y k]; cbn; [set_solver..|].
  intros z. rewrite !elem_of_cons. specialize (IH k z). tauto.
Qed.

Lemma not_some_none {A} : ¬ is_Some (@None A).
Proof. by intros [? ?]. Qed.

(** Set or clear the row of a node. *)
Definition put_row (i : N) (o : option (gmap string string)) (m : gmap Z (gmap string string))
    : gmap Z (gmap string string) := partial_alter (λ _, o) (i64_of_u64 i) m.

Lemma put_row_self i o m : m !! i64_of_u64 i = o → put_row i o m = m.
Proof. intros <-. apply partial_alter_self. Qed.
Lemma put_row_eq i o m : put_row i o m !! i64_of_u64 i = o.
Proof. apply lookup_partial_alter_eq. Qed.
Lemma put_row_ne i o m z : z ≠ i64_of_u64 i → put_row i o m !! z = m !! z.
Proof. intros. by apply lookup_partial_alter_ne. Qed.
Lemma put_row_delete i o m : put_row i o (base.delete (i64_of_u64 i) m) = put_row i o m.
Proof.
  apply map_eq. intros z. destruct (decide (z = i64_of_u64 i)) as [->|Hz].
  - by rewrite !put_row_eq.
  - by rewrite !put_row_ne, lookup_delete_ne by done.
Qed.

(** The statement that inserts the new row, whichever shape the table has. *)
Lemma insert_new_run d T f info i new :
  fts_tbl d T f info → columns_ok info f → fts_rows f !! i64_of_u64 i = None →
  (if existsb (λ v, bool_decide (is_Some v)) (string_values (Some new) (fi_properties info))
   then if is_multi info
        then fts_insert (fi_table_name info) i
               (zip (fi_properties info) (string_values (Some new) (fi_properties info)))
        else match string_values (Some new) (fi_properties info) with
             | Some s :: _ => fts_insert (fi_table_name info) i [("content", Some s)]
             | _ => lift Panic
             end
   else mret ()) d
  = (with_rows (d := d) (T := T) (f := f) (put_row i (row_of info (Some new)) (fts_rows f)), Ok ()).
Proof.
  intros Ht [Hc Hs] Hno. unfold row_of.
  destruct (existsb _ _) eqn:Ee.
  - unfold info_columns in *. destruct (is_multi info).
    + rewrite (fts_insert_run Ht) by (rewrite ?Hc; done || apply zip_fst_sub). done.
    + destruct (Hs eq_refl) as [p Ep]. rewrite Ep in *. unfold string_values in *. cbn in Ee |- *.
      destruct (string_value new p) as [s|].
      * rewrite (fts_insert_run Ht) by (rewrite ?Hc; done). done.
      * by rewrite bool_decide_eq_false_2 in Ee by apply not_some_none.
  - rewrite run_ret, put_row_self by done. by rewrite (with_rows_self Ht).
Qed.

Lemma update_one_run d T f info i old new :
  fts_tbl d T f info → columns_ok info f → fts_rows f !! i64_of_u64 i = row_of info old →
  update_fts_for_node_one_index i info old new d
  = (with_rows (d := d) (T := T) (f := f) (put_row i (row_of info (Some new)) (fts_rows f)), Ok ()).
Proof.
  intros Ht Hc Hrow. unfold update_fts_for_node_one_index.
  destruct (decide _) as [E|Hne].
  - rewrite run_ret, put_row_self; [by rewrite (with_rows_self Ht)|].
    rewrite Hrow. unfold row_of. by rewrite E.
  - destruct (existsb _ (string_values old _)) eqn:Eold.
    + rewrite (run_bind _ _ _ _ _ (fts_delete_run Ht i)).
      pose proof (with_rows_tbl_ok Ht (base.delete (i64_of_u64 i) (fts_rows f))) as Ht'.
      etrans; [apply (insert_new_run _ _ _ info i new Ht');
        [by split; apply Hc|cbn; apply lookup_delete_eq]|].
      cbn [fts_rows]. rewrite put_row_delete. f_equal. unfold with_rows, set_fts, with_rows_tbl.
      cbn. by rewrite insert_insert_eq.
    + rewrite (run_bind _ _ _ _ _ (run_ret _ _)).
      apply (insert_new_run _ _ _ info i new Ht Hc). rewrite Hrow. unfold row_of. by rewrite Eold.
Qed.

Lemma remove_one_run d T f info i p :
  fts_tbl d T f info → fts_rows f !! i64_of_u64 i = row_of info (Some p) →
  (if any_string p (fi_properties info) then fts_delete (fi_table_name info) i else mret ()) d
  = (with_rows (d := d) (T := T) (f := f) (put_row i None (fts_rows f)), Ok ()).
Proof.
  intros Ht Hrow. rewrite any_string_values. unfold row_of in Hrow.
  destruct (existsb _ _) eqn:Ee; rewrite ?Ee in Hrow.
  - by rewrite (fts_delete_run Ht).
  - rewrite run_ret, put_row_self by done. by rewrite (with_rows_self Ht).
Qed.
End Update.

(** ** The loops *)
Record fts_touched (D : list string) (i : N) (new : option Properties) (d d' : db) : Prop := {
  ft_heads k : tbl_head <$> d' !! k = tbl_head <$> d !! k;
  ft_frame k T : d !! k = Some T → tbl_name T ∉ D → d' !! k = Some T;
  ft_rows T f info : fts_tbl d T f info → tbl_name T ∈ D →
    d' !! str_lower (tbl_name T)
    = Some (with_rows_tbl (T := T) (f := f) (put_row i (row_of info new) (fts_rows f)));
}.

(** A table with the same heading means the same index. *)
Lemma fts_tbl_back d d' T' f' info :
  (∀ k, tbl_head <$> d' !! k = tbl_head <$> d !! k) → fts_tbl d' T' f' info →
  ∃ T f, fts_tbl d T f info ∧ tbl_name T = tbl_name T' ∧ fts_cols f = fts_cols f'.
Proof.
  intros Hh (HT & Hf & Hl & Hi). specialize (Hh (str_lower (tbl_name T'))). rewrite HT in Hh.
  symmetry in Hh. apply fmap_Some in Hh as (T & HT0 & E). unfold tbl_head in E. rewrite Hf in E.
  injection E as E1 E2 E3. symmetry in E3. apply fmap_Some in E3 as (f & Hf0 & [= E4 E5]).
  exists T, f. split_and!; [|done|done]. unfold fts_tbl. rewrite <- E1, <- E4. done.
Qed.

Lemma fts_tbl_fun d T f info T' f' info' :
  fts_tbl d T f info → fts_tbl d T' f' info' → tbl_name T = tbl_name T' →
  T = T' ∧ f = f' ∧ info = info'.
Proof.
  intros (H1 & H2 & _ & H3) (H1' & H2' & _ & H3') E. rewrite E in H1. simplify_eq.
  done.
Qed.

Lemma fts_touched_nil i new d : fts_touched [] i new d d.
Proof. split; [done|done|]. by intros T f info _ ?%not_elem_of_nil. Qed.

Lemma fts_touched_app D1 D2 i new d1 d2 d3 :
  (∀ n, n ∈ D1 → n ∉ D2) → (∀ k T, d1 !! k = Some T → k = str_lower (tbl_name T)) →
  fts_touched D1 i new d1 d2 → fts_touched D2 i new d2 d3 → fts_touched (D1 ++ D2) i new d1 d3.
Proof.
  intros Hd Hk H12 H23. split.
  - intros k. by rewrite (ft_heads _ _ _ _ _ H23), (ft_heads _ _ _ _ _ H12).
  - intros k T HT Hn. apply (ft_frame _ _ _ _ _ H23); [|set_solver].
    apply (ft_frame _ _ _ _ _ H12); [done|set_solver].
  - intros T f info Ht [H1|H2]%elem_of_app.
    + apply (ft_frame _ _ _ _ _ H23); [by apply (ft_rows _ _ _ _ _ H12)|by apply Hd].
    + apply (ft_rows _ _ _ _ _ H23); [|done]. destruct Ht as (HT & Ht). split; [|done].
      apply (ft_frame _ _ _ _ _ H12); [done|]. intros H1. by apply (Hd _ H1).
Qed.

Lemma fts_touched_one d T f info i new :
  fts_tbl d T f info →
  fts_touched [fi_table_name info] i new d
    (with_rows (d := d) (T := T) (f := f) (put_row i (row_of info new) (fts_rows f))).
Proof.
  intros Ht. pose proof Ht as (HT & Hf & _ & _). rewrite (fts_table_name_eq Ht).
  unfold with_rows, set_fts. split.
  - intros k. destruct (decide (k = str_lower (tbl_name T))) as [->|Hk];
      [|by rewrite lookup_insert_ne].
    rewrite lookup_insert_eq, HT. unfold tbl_head. cbn. by rewrite Hf.
  - intros k T' HT' Hn. rewrite lookup_insert_ne; [done|]. intros <-. rewrite HT in HT'.
    simplify_eq. set_solver.
  - intros T' f' info' Ht' Hin%list_elem_of_singleton.
    destruct (fts_tbl_fun _ _ _ _ _ _ _ Ht' Ht Hin) as (-> & -> & ->).
    apply lookup_insert_eq.
Qed.

(** The list of indexes the code works through. *)
Section Listing.
Context {d : db} (Hk : ∀ k T, d !! k = Some T → k = str_lower (tbl_name T)) (p : string).

Lemma elem_of_fts_tables x :
  x ∈ fts_tables d p ↔ like None p x.1 = true
    ∧ ∃ T f, d !! str_lower (tbl_name T) = Some T ∧ tbl_fts T = Some f
             ∧ x = (tbl_name T, fts_sql f).
Proof.
  unfold fts_tables. rewrite list_elem_of_filter, list_elem_of_omap.
  apply and_iff_compat_l. split.
  - intros (T & ([k T'] & -> & HT)%list_elem_of_fmap & E). cbn [snd] in *.
    apply elem_of_map_to_list in HT. pose proof (Hk _ _ HT) as ->.
    apply fmap_Some in E as (f & Hf & ->). eauto.
  - intros (T & f & HT & Hf & ->). exists T. split; [|by rewrite Hf].
    apply list_elem_of_fmap. exists (str_lower (tbl_name T), T). split; [done|].
    by apply elem_of_map_to_list.
Qed.

Lemma NoDup_fts_tables : NoDup (fts_tables d p).*1.
Proof.
  unfold fts_tables. eapply sublist_NoDup; [|apply fmap_sublist, sublist_filter].
  assert (NoDup (map_to_list d).*1) as Hm by apply NoDup_fst_map_to_list.
  assert (∀ kT, kT ∈ map_to_list d → kT.1 = str_lower (tbl_name kT.2)) as Hkt.
  { intros [k T] HT%elem_of_map_to_list. by apply Hk. }
  revert Hm Hkt. induction (map_to_list d) as [|[k T] l IH]; intros Hm Hkt; [constructor|].
  apply NoDup_cons in Hm as [Hn Hm].
  specialize (IH Hm ltac:(intros; apply Hkt; by right)). cbn.
  destruct (tbl_fts T) as [f|] eqn:Ef; [|by cbn]. cbn. constructor; [|done].
  intros (y & E & Hy)%list_elem_of_fmap. apply list_elem_of_omap in Hy as (T' & HT' & Hy).
  apply list_elem_of_fmap in HT' as ([k' T''] & -> & HT'). cbn [snd] in Hy.
  apply fmap_Some in Hy as (f' & _ & ->). cbn [fst] in E. apply Hn, list_elem_of_fmap.
  exists (k', T''). split; [|done]. pose proof (Hkt (k, T) ltac:(by left)) as E1.
  pose proof (Hkt (k', T'') ltac:(by right)) as E2. cbn in E1, E2 |- *. congruence.
Qed.
End Listing.

Lemma NoDup_infos l (rows : list (string * string)) :
  NoDup rows.*1 →
  NoDup (fi_table_name <$> filter (λ info, fi_label info = l) (omap fts_info_of rows)).
Proof.
  intros Hnd. induction rows as [|x rows IH]; [constructor|].
  apply NoDup_cons in Hnd as [Hn Hnd]. specialize (IH Hnd). cbn.
  destruct (fts_info_of x) as [info|] eqn:Ei; [|done].
  rewrite filter_cons. destruct (decide _); [|done]. cbn. constructor; [|done].
  intros (info' & E & [_ Hi']%list_elem_of_filter)%list_elem_of_fmap.
  apply list_elem_of_omap in Hi' as (y & Hy & Ey). apply Hn, list_elem_of_fmap. exists y.
  split; [|done]. by rewrite <- (fts_info_table _ _ Ei), <- (fts_info_table _ _ Ey).
Qed.

Lemma list_fulltext_run {conn} {O : SqlOps conn} {view : conn → db} {L : SqlLaws conn view} c l :
  (∀ k T, view c !! k = Some T → k = str_lower (tbl_name T)) →
  ∃ infos, list_fulltext_indexes_for_label l c = Ok infos
    ∧ NoDup (fi_table_name <$> infos)
    ∧ ∀ info, info ∈ infos ↔ fi_label info = l ∧ ∃ T f, fts_tbl (view c) T f info.
Proof.
  intros Hk. unfold list_fulltext_indexes_for_label, list_all_fulltext_indexes.
  destruct (law_fts_tables c "node_fts_%") as (rows & -> & Hrows). cbn [storage mbind result_bind].
  eexists. split_and!; [done| |].
  - apply NoDup_infos. rewrite Hrows. by apply NoDup_fts_tables.
  - intros info. rewrite list_elem_of_filter, list_elem_of_omap. apply and_iff_compat_l.
    setoid_rewrite Hrows. setoid_rewrite (elem_of_fts_tables Hk). split.
    + intros (x & (Hl & T & f & HT & Hf & ->) & E). by exists T, f.
    + intros (T & f & HT & Hf & Hl & E). exists (tbl_name T, fts_sql f). split; [|done].
      split; [done|]. by exists T, f.
Qed.

Section Loops.
Context {Mp : Msgpack}.
Context {conn : Type} {O : SqlOps conn} {view : conn → db} {L : SqlLaws conn view}.
Implicit Types c : conn.

Lemma fts_insert_refines t i vs : refines view (fts_insert t i vs) (fts_insert t i vs).
Proof. apply exec_refines. intros c. apply law_fts_insert. Qed.
Lemma fts_delete_refines t i : refines view (fts_delete t i) (fts_delete t i).
Proof. apply exec_refines. intros c. apply law_fts_delete. Qed.
Hint Resolve fts_insert_refines fts_delete_refines : refine.
Lemma update_one_refines i info o n :
  refines view (update_fts_for_node_one_index i info o n)
    (update_fts_for_node_one_index i info o n).
Proof. unfold update_fts_for_node_one_index. solve_refines. Qed.

(** A table that is still to be processed. *)
Definition pending (i : N) (old : option Properties) (d : db) (info : FtsIndexInfo) : Prop :=
  ∃ T f, fts_tbl d T f info ∧ columns_ok info f ∧ fts_rows f !! i64_of_u64 i = row_of info old.

Lemma pending_frame D i old new d d' info :
  fts_touched D i new d d' → fi_table_name info ∉ D → pending i old d info → pending i old d' info.
Proof.
  intros Ht Hn (T & f & Hf & Hc & Hr). exists T, f. split_and!; [|done..].
  rewrite (fts_table_name_eq Hf) in Hn. destruct Hf as (HT & Hf). split; [|done].
  by apply (ft_frame _ _ _ _ _ Ht).
Qed.

Lemma heads_keys (d d' : db) :
  (∀ k, tbl_head <$> d' !! k = tbl_head <$> d !! k) →
  (∀ k T, d !! k = Some T → k = str_lower (tbl_name T)) →
  ∀ k T, d' !! k = Some T → k = str_lower (tbl_name T).
Proof.
  intros Hh Hk k T' HT'. specialize (Hh k). rewrite HT' in Hh. symmetry in Hh.
  apply fmap_Some in Hh as (T & HT & E). unfold tbl_head in E. injection E as E _ _.
  rewrite E. by apply Hk.
Qed.

Section Loop.
Context (i : N) (old new : option Properties) (F : FtsIndexInfo → M conn GraphError unit).
Context (HF : ∀ c info, pending i old (view c) info →
  ∃ c', F info c = (c', Ok ()) ∧ fts_touched [fi_table_name info] i new (view c) (view c')).

Lemma fts_infos_loop infos c :
  (∀ k T, view c !! k = Some T → k = str_lower (tbl_name T)) →
  NoDup (fi_table_name <$> infos) → (∀ info, info ∈ infos → pending i old (view c) info) →
  ∃ c', for_each F infos c = (c', Ok ())
    ∧ fts_touched (fi_table_name <$> infos) i new (view c) (view c').
Proof.
  revert c. induction infos as [|info infos IH]; intros c Hk Hnd Hp.
  { exists c. split; [done|]. apply fts_touched_nil. }
  apply NoDup_cons in Hnd as [Hn Hnd].
  destruct (HF c info) as (c1 & E1 & H1); [apply Hp; left|].
  destruct (IH c1) as (c2 & E2 & H2); [|done| |].
  { eapply heads_keys; [apply (ft_heads _ _ _ _ _ H1)|done]. }
  { intros info' Hin. eapply pending_frame; [exact H1| |apply Hp; by right].
    intros E%list_elem_of_singleton. apply Hn. rewrite <- E. by apply list_elem_of_fmap_2. }
  exists c2. split; [cbn [for_each]; by rewrite (run_bind _ _ _ _ _ E1)|].
  apply (fts_touched_app [fi_table_name info] _ _ _ _ (view c1)); [|done..].
  by intros n ->%list_elem_of_singleton.
Qed.

Definition fts_for_label (l : string) : M conn GraphError unit :=
  reads (list_fulltext_indexes_for_label l) ≫= λ infos, for_each F infos.

(** The tables of the indexes on [labels]. *)
Definition fts_names_of (d : db) (labels : list string) (D : list string) : Prop :=
  ∀ n, n ∈ D ↔ ∃ T f info, fts_tbl d T f info ∧ fi_label info ∈ labels ∧ n = tbl_name T.

Lemma fts_labels_loop labels c :
  (∀ k T, view c !! k = Some T → k = str_lower (tbl_name T)) → NoDup labels →
  (∀ T f info, fts_tbl (view c) T f info → fi_label info ∈ labels → pending i old (view c) info) →
  ∃ c' D, for_each fts_for_label labels c = (c', Ok ())
    ∧ fts_touched D i new (view c) (view c') ∧ fts_names_of (view c) labels D.
Proof.
  revert c. induction labels as [|l labels IH]; intros c Hk Hnd Hp.
  { exists c, []. split_and!; [done|apply fts_touched_nil|].
    intros n. split; [set_solver|]. intros (? & ? & ? & _ & ? & _). set_solver. }
  apply NoDup_cons in Hnd as [Hn Hnd].
  destruct (list_fulltext_run c l Hk) as (infos & E & Hnd1 & Hin).
  destruct (fts_infos_loop infos c Hk Hnd1) as (c1 & E1 & H1).
  { intros info (Hl & T & f & Ht)%Hin. eapply Hp; [done|]. set_solver. }
  assert (∀ T f info, fts_tbl (view c) T f info →
    (tbl_name T ∈ fi_table_name <$> infos ↔ fi_label info = l)) as HD.
  { intros T f info Ht. rewrite list_elem_of_fmap. split.
    - intros (info' & En & (Hl & T' & f' & Ht')%Hin). rewrite (fts_table_name_eq Ht') in En.
      by destruct (fts_tbl_fun _ _ _ _ _ _ _ Ht Ht' En) as (_ & _ & ->).
    - intros Hl. exists info. split; [by rewrite (fts_table_name_eq Ht)|]. apply Hin. eauto. }
  pose proof (ft_heads _ _ _ _ _ H1) as Hh.
  destruct (IH c1) as (c2 & D2 & E2 & H2 & HD2); [by eapply heads_keys|done| |].
  { intros T1 f1 info Ht1 Hl. destruct (fts_tbl_back _ _ _ _ _ Hh Ht1) as (T & f & Ht & _ & _).
    eapply pending_frame; [exact H1| |eapply Hp; [exact Ht|by right]].
    rewrite (fts_table_name_eq Ht), (HD _ _ _ Ht). intros <-. done. }
  assert (∀ n, n ∈ D2 ↔ ∃ T f info, fts_tbl (view c) T f info ∧ fi_label info ∈ labels
    ∧ n = tbl_name T) as HD2'.
  { intros n. rewrite (HD2 n). split; intros (T & f & info & Ht & Hl & ->).
    - destruct (fts_tbl_back _ _ _ _ _ Hh Ht) as (T0 & f0 & Ht0 & En & _).
      exists T0, f0, info. by rewrite En.
    - exists T, f, info. split_and!; [|done..]. destruct Ht as (HT & Ht). split; [|done].
      apply (ft_frame _ _ _ _ _ H1); [done|].
      rewrite (HD T f info) by (by split). by intros <-. }
  exists c2, ((fi_table_name <$> infos) ++ D2). split_and!.
  - cbn [for_each]. erewrite run_bind; [exact E2|]. unfold fts_for_label.
    by rewrite (run_reads _ _ _ _ E).
  - eapply fts_touched_app; [|done|exact H1|exact H2].
    intros n Hn1 (T & f & info & Ht & Hl & ->)%HD2'. apply (HD _ _ _ Ht) in Hn1. by subst.
  - intros n. rewrite elem_of_app, (HD2' n). split.
    + intros [Hn1|(T & f & info & Ht & Hl & ->)].
      * pose proof Hn1 as (info & -> & (Hl & T & f & Ht)%Hin)%list_elem_of_fmap.
        exists T, f, info. rewrite (fts_table_name_eq Ht), Hl. split_and!; [done|left|done].
      * exists T, f, info. split_and!; [done|by right|done].
    + intros (T & f & info & Ht & [Hl|Hl]%elem_of_cons & ->); [left|right].
      * by apply (HD _ _ _ Ht).
      * by exists T, f, info.
Qed.
End Loop.
End Loops.

(** ** From one set of nodes to the next *)
Section Transfer.
Context {Mp : Msgpack}.
Context {ns ns' : gmap N NodeRecord} {i : N} {labels : list string} {old new : option Properties}.
Context (Hch : node_change ns ns' i labels old new) (Hi : in_u64 i).

Lemma node_row_change info :
  node_row ns info i = (if decide (fi_label info ∈ labels) then row_of info old else None)
  ∧ node_row ns' info i = (if decide (fi_label info ∈ labels) then row_of info new else None)
  ∧ ∀ j, j ≠ i → node_row ns' info j = node_row ns info j.
Proof.
  destruct Hch as (Hne & Ho & Hn & Hos & Hns). unfold node_row. split_and!.
  - destruct (ns !! i) as [r|] eqn:Er; cbn [mbind option_bind].
    + destruct (Ho r eq_refl) as [-> Hl]. specialize (Hl (fi_label info)).
      repeat case_decide; tauto.
    + destruct old; [|rewrite row_of_none; by destruct (decide _)].
      exfalso. by destruct (proj2 Hos ltac:(eauto)).
  - destruct (ns' !! i) as [r|] eqn:Er; cbn [mbind option_bind].
    + destruct (Hn r eq_refl) as [-> Hl]. specialize (Hl (fi_label info)).
      repeat case_decide; tauto.
    + destruct new; [|rewrite row_of_none; by destruct (decide _)].
      exfalso. by destruct (proj2 Hns ltac:(eauto)).
  - intros j Hj. by rewrite Hne.
Qed.

Lemma fts_pending d T f info :
  fts_ok ns d → fts_tbl d T f info → fi_label info ∈ labels → pending i old d info.
Proof.
  intros Hok Ht Hl. exists T, f. split_and!; [done|by eapply fo_columns|].
  rewrite (fo_rows _ _ Hok T f info Ht i Hi), (proj1 (node_row_change info)).
  by rewrite decide_True.
Qed.

Lemma fts_ok_touched d d' D :
  fts_ok ns d → fts_touched D i new d d' → fts_names_of d labels D → fts_ok ns' d'.
Proof.
  intros Hok Ht HD. pose proof (ft_heads _ _ _ _ _ Ht) as Hh.
  assert (∀ T' f' info, fts_tbl d' T' f' info → ∃ T f, fts_tbl d T f info
    ∧ fts_cols f' = fts_cols f
    ∧ fts_rows f' = if decide (fi_label info ∈ labels)
                    then put_row i (row_of info new) (fts_rows f) else fts_rows f) as Hback.
  { intros T' f' info Ht'. destruct (fts_tbl_back _ _ _ _ _ Hh Ht') as (T & f & Ht0 & En & Ec).
    exists T, f. destruct Ht' as (HT' & Hf' & _). rewrite <- En in HT'.
    assert (tbl_name T ∈ D ↔ fi_label info ∈ labels) as HDT.
    { rewrite (HD (tbl_name T)). split; [|by exists T, f, info].
      intros (T1 & f1 & info1 & Ht1 & Hl & E).
      by destruct (fts_tbl_fun _ _ _ _ _ _ _ Ht0 Ht1 E) as (_ & _ & ->). }
    split_and!; [done|done|]. case_decide as Hl.
    - rewrite (ft_rows _ _ _ _ _ Ht T f info Ht0) in HT' by (by apply HDT).
      injection HT' as <-. cbn in Hf'. by injection Hf' as <-.
    - destruct Ht0 as (HT & Hf & _). rewrite (ft_frame _ _ _ _ _ Ht _ _ HT) in HT'; [|tauto].
      simplify_eq. done. }
  split.
  - eapply heads_keys; [exact Hh|apply Hok].
  - intros T' f' info Ht'. destruct (Hback _ _ _ Ht') as (T & f & Ht0 & Ec & _).
    destruct (fo_columns _ _ Hok _ _ _ Ht0) as [H1 H2]. split; [by rewrite Ec|done].
  - intros T' f' info Ht' j Hj. destruct (Hback _ _ _ Ht') as (T & f & Ht0 & _ & ->).
    destruct (node_row_change info) as (E1 & E2 & E3).
    pose proof (fo_rows _ _ Hok _ _ _ Ht0 j Hj) as Er.
    destruct (decide (j = i)) as [->|Hne].
    + rewrite E2. rewrite E1 in Er. destruct (decide (fi_label info ∈ labels));
        [apply put_row_eq|done].
    + rewrite E3, <- Er by done. destruct (decide (fi_label info ∈ labels)); [|done]. apply put_row_ne. intros E. by apply i64_of_u64_inj in E.
  - intros T' f' info Ht' z Hz. destruct (Hback _ _ _ Ht') as (T & f & Ht0 & _ & Er).
    rewrite Er in Hz. case_decide; [|by eapply fo_ids].
    destruct (decide (z = i64_of_u64 i)) as [->|Hne]; [by exists i|].
    rewrite put_row_ne in Hz by done. by eapply fo_ids.
Qed.
End Transfer.

(** * Three kinds of tables side by side

    The tables of the graph, the index tables and the full-text tables have
    different names, so what maintains one kind leaves the others alone. *)

(** ** Names *)
Lemma fts_info_name n sql info : fts_info_of (n, sql) = Some info → ∃ r, n = "node_fts" +:+ r.
Proof.
  unfold fts_info_of. destruct (strip_prefix "node_fts$" n) as [r|] eqn:E1.
  { intros _. apply strip_prefix_spec in E1 as ->. by exists ("$" +:+ r). }
  destruct (strip_prefix "node_fts_multi_" n) as [r|] eqn:E2.
  { intros _. apply strip_prefix_spec in E2 as ->. by exists ("_multi_" +:+ r). }
  destruct (strip_prefix "node_fts_" n) as [r|] eqn:E3; [|done].
  intros _. apply strip_prefix_spec in E3 as ->. by exists ("_" +:+ r).
Qed.

Lemma fts_name_not_core r t : t ∈ core_tables → str_lower ("node_fts" +:+ r) ≠ str_lower t.
Proof.
  intros Ht E. rewrite str_lower_app in E. apply (f_equal str_bytes) in E.
  rewrite str_bytes_app in E.
  change (str_bytes (str_lower "node_fts")) with (str_bytes "node_fts") in E.
  unfold core_tables in Ht. repeat (apply elem_of_cons in Ht as [->|Ht]; [discriminate|]).
  by apply not_elem_of_nil in Ht.
Qed.
Lemma fts_name_not_index r l ps : str_lower ("node_fts" +:+ r) ≠ str_lower (index_name l ps).
Proof.
  intros E. unfold index_name in E. rewrite !str_lower_app in E.
  apply (f_equal str_bytes) in E. rewrite !str_bytes_app in E.
  change (str_bytes (str_lower "node_fts")) with (str_bytes "node_fts") in E. discriminate.
Qed.

Section Frames.
Context {Mp : Msgpack}.
Implicit Types d : db.

Lemma fts_tbl_name d T f info : fts_tbl d T f info → ∃ r, tbl_name T = "node_fts" +:+ r.
Proof. intros (_ & _ & _ & Hi). by eapply fts_info_name. Qed.

(** If a database changes only outside full-text tables, these stay right. *)
Lemma fts_ok_frame ns d d' :
  fts_ok ns d → (∀ k T, d' !! k = Some T → k = str_lower (tbl_name T)) →
  (∀ T f info, fts_tbl d' T f info → fts_tbl d T f info) → fts_ok ns d'.
Proof.
  intros Hok Hk Hsame. split; [done|..]; intros T f info Ht%Hsame;
    [by eapply fo_columns|by eapply fo_rows|by eapply fo_ids].
Qed.

Lemma core_only_fts ns d d' : core_only d d' → fts_ok ns d → fts_ok ns d'.
Proof.
  intros Hc Hok. assert (∀ k, tbl_head <$> d' !! k = tbl_head <$> d !! k) as Hh by apply Hc.
  eapply fts_ok_frame; [done|by eapply heads_keys, fo_keys|].
  intros T f info Ht. destruct (fts_tbl_name _ _ _ _ Ht) as [r Er].
  destruct Ht as (HT & Ht). split; [|done]. rewrite <- HT. symmetry. apply Hc.
  rewrite Er. unfold core_key. intros (t & E & Ht')%list_elem_of_fmap.
  by apply fts_name_not_core in E.
Qed.

Lemma touched_fts ns S i old new d d' :
  Forall (λ x : index_id, valid_index x.1 x.2) S →
  touched S i old new d d' → fts_ok ns d → fts_ok ns d'.
Proof.
  intros HS Ht Hok. pose proof (to_heads _ _ _ _ _ _ Ht) as Hh.
  eapply fts_ok_frame; [done|by eapply heads_keys, fo_keys|].
  intros T f info Ht'. destruct (fts_tbl_name _ _ _ _ Ht') as [r Er].
  destruct (fts_tbl_back _ _ _ _ _ Hh Ht') as (T0 & f0 & Ht0 & En & _).
  destruct Ht' as (HT & Ht'). split; [|done]. pose proof Ht0 as (HT0 & _). rewrite En in HT0.
  rewrite (to_frame _ _ _ _ _ _ Ht _ _ HT0) in HT; [by simplify_eq|].
  intros l ps _ E. rewrite En, Er in E. apply (f_equal str_lower) in E.
  by apply fts_name_not_index in E.
Qed.

(** A database without full-text tables. *)
Lemma fts_ok_none ns d :
  map_Forall (λ k T, k = str_lower (tbl_name T) ∧ tbl_fts T = None) d → fts_ok ns d.
Proof.
  intros H. split.
  - intros k T HT. by apply (H k T).
  - intros T f info (HT & Hf & _). destruct (H _ _ HT). congruence.
  - intros T f info (HT & Hf & _). destruct (H _ _ HT). congruence.
  - intros T f info (HT & Hf & _). destruct (H _ _ HT). congruence.
Qed.

(** Full-text maintenance leaves the graph and the indexes alone. *)
Definition fts_names (D : list string) : Prop := ∀ n, n ∈ D → ∃ r, n = "node_fts" +:+ r.

Lemma fts_names_of_names d labels D : fts_names_of d labels D → fts_names D.
Proof. intros HD n (T & f & info & Ht & _ & ->)%HD. by eapply fts_tbl_name. Qed.

Lemma fts_touched_core ns D i new d d' :
  fts_names D → fts_ok ns d → fts_touched D i new d d' → core_same d d'.
Proof.
  intros HD Hok Ht t Hin. unfold find_tbl. destruct (d !! str_lower t) as [T|] eqn:E.
  - apply (ft_frame _ _ _ _ _ Ht); [done|]. intros [r Er]%HD.
    apply (fts_name_not_core r t Hin). rewrite <- Er. symmetry. by apply (fo_keys _ _ Hok).
  - pose proof (ft_heads _ _ _ _ _ Ht (str_lower t)) as Hh. rewrite E in Hh.
    by apply fmap_None in Hh.
Qed.

Lemma fts_touched_indexed ns D i new d d' :
  fts_names D → fts_touched D i new d d' → indexed ns d → indexed ns d'.
Proof.
  intros HD Ht Hix. pose proof (ft_heads _ _ _ _ _ Ht) as Hh. split.
  - eapply same_heads_catalogue; [done|apply Hix].
  - intros l ps T Hv HT. assert (has_index d l ps) as [T0 HT0]
      by (apply (same_heads_index _ _ _ _ Hh); by exists T).
    apply (ix_rows _ _ Hix); [done|]. destruct HT as [HT E]. split; [|done].
    unfold find_tbl in *. destruct HT0 as [HT0 E0]. unfold find_tbl in HT0.
    rewrite (ft_frame _ _ _ _ _ Ht _ _ HT0) in HT; [by simplify_eq|].
    intros [r Er]%HD. rewrite E0 in Er. symmetry in Er. apply (f_equal str_lower) in Er.
    by apply fts_name_not_index in Er.
Qed.
End Frames.

(** ** Maintenance of a whole node *)
Section Maintenance.
Context {Mp : Msgpack} {ML : MsgpackLaws}.
Context {conn : Type} {O : SqlOps conn} {view : conn → db} {L : SqlLaws conn view}.
Context {ns ns' : gmap N NodeRecord} {i : N} {labels : list string}.
Implicit Types c : conn.

Lemma update_fts_for_node_spec old new c :
  fts_ok ns (view c) → in_u64 i → NoDup labels → node_change ns ns' i labels old (Some new) →
  ∃ c' D, update_fts_for_node i labels old new c = (c', Ok ()) ∧ fts_names D
    ∧ fts_touched D i (Some new) (view c) (view c') ∧ fts_ok ns' (view c').
Proof.
  intros Hok Hi Hnd Hch.
  destruct (fts_labels_loop i old (Some new)
    (λ info, update_fts_for_node_one_index i info old new)) with (labels := labels) (c := c)
    as (c' & D & E & Ht & HD); [|by eapply fo_keys|done|by intros; eapply fts_pending|].
  - intros c1 info (T & f & Hf & Hc & Hr). eapply lift_spec; [apply update_one_refines|].
    rewrite (update_one_run _ _ _ _ i old new Hf Hc Hr). eexists. split; [done|].
    by apply fts_touched_one.
  - exists c', D. split_and!; [exact E|by eapply fts_names_of_names|done|].
    by eapply fts_ok_touched.
Qed.

Lemma remove_fts_for_node_spec p c :
  fts_ok ns (view c) → in_u64 i → NoDup labels → node_change ns ns' i labels (Some p) None →
  ∃ c' D, remove_fts_for_node i labels p c = (c', Ok ()) ∧ fts_names D
    ∧ fts_touched D i None (view c) (view c') ∧ fts_ok ns' (view c').
Proof.
  intros Hok Hi Hnd Hch.
  destruct (fts_labels_loop i (Some p) None
    (λ info, if any_string p (fi_properties info) then fts_delete (fi_table_name info) i
             else mret ())) with (labels := labels) (c := c)
    as (c' & D & E & Ht & HD); [|by eapply fo_keys|done|by intros; eapply fts_pending|].
  - intros c1 info (T & f & Hf & Hc & Hr).
    eapply (lift_spec _ (if any_string p (fi_properties info)
      then fts_delete (fi_table_name info) i else mret ())).
    { destruct (any_string _ _); [apply fts_delete_refines|apply refines_ret]. }
    rewrite (remove_one_run _ _ _ _ i p Hf Hr). eexists. split; [done|].
    pose proof (fts_touched_one _ _ _ _ i None Hf) as H. by rewrite row_of_none in H.
  - exists c', D. split_and!; [exact E|by eapply fts_names_of_names|done|].
    by eapply fts_ok_touched.
Qed.
End Maintenance.

(** * Reading full-text indexes back from the catalogue

    The label is recovered from the table's name and the columns from the text of
    the statement that created it. *)

(** ** Searching *)
Lemma bytes_find_delim (pre : bytes) (c : byte) (a r : bytes) :
  c ∉ pre → c ∉ a →
  bytes_find (pre ++ [c]) (a ++ (pre ++ [c]) ++ r) = Some (length a).
Proof.
  intros Hpre. induction a as [|x a IH]; intros Ha.
  - cbn [app]. remember ((pre ++ [c]) ++ r) as l. destruct l; cbn [bytes_find].
    + destruct pre; discriminate.
    + rewrite decide_True; [done|]. rewrite Heql. by apply prefix_app_r.
  - cbn [app bytes_find]. rewrite decide_False.
    + apply not_elem_of_cons in Ha as [_ Ha]. by rewrite IH.
    + intros Hp. assert (pre = (x :: a) ++ pre) as E.
      { apply (delim_prefix c _ _ r); [done| |].
        - rewrite not_elem_of_app. done.
        - etrans; [exact Hp|]. by rewrite <- !app_assoc. }
      apply (f_equal length) in E. rewrite length_app in E. cbn in E. lia.
Qed.

Lemma split_once_app (c : byte) a r :
  c ∉ str_bytes a → split_once c (a +:+ bytes_str [c] +:+ r) = Some (a, r).
Proof.
  intros Ha. unfold split_once. rewrite !str_bytes_app, str_bytes_str. cbn [app].
  rewrite bytes_split_once_app by done. cbn [fmap option_fmap option_map fst snd].
  by rewrite !bytes_str_bytes.
Qed.

(** ** Trimming *)

(** No piece starts with the byte. *)
Definition none_starts (ws : list bytes) (b : byte) : bool :=
  forallb (λ w, match w with x :: _ => bool_decide (x ≠ b) | [] => false end) ws.
(** The text starts and ends with bytes no piece starts and ends with. *)
Definition solid (ws : list bytes) (l : bytes) : Prop :=
  ∃ b l' e l'', l = b :: l' ∧ l = l'' ++ [e]
    ∧ none_starts ws b = true ∧ none_starts (reverse <$> ws) e = true.

Lemma trim_front_stop ws fuel b l : none_starts ws b = true → trim_front fuel ws (b :: l) = b :: l.
Proof.
  intros H. destruct fuel as [|fuel]; [done|]. cbn [trim_front].
  assert (omap (λ w, bytes_strip_prefix w (b :: l)) ws = []) as ->; [|done].
  induction ws as [|w ws IH]; [done|]. cbn in H |- *. apply andb_true_iff in H as [Hw H].
  destruct w as [|x w]; [done|]. apply bool_decide_eq_true in Hw.
  cbn [bytes_strip_prefix]. rewrite decide_False by done. by apply IH.
Qed.
Lemma trim_start_stop ws b l : none_starts ws b = true → trim_start_of ws (b :: l) = b :: l.
Proof. apply trim_front_stop. Qed.
Lemma trim_end_stop ws l e :
  none_starts (reverse <$> ws) e = true → trim_end_of ws (l ++ [e]) = l ++ [e].
Proof.
  intros H. unfold trim_end_of. rewrite reverse_app, reverse_singleton. cbn [app]. rewrite trim_start_stop by done.
  by rewrite reverse_cons, reverse_involutive.
Qed.
Lemma trim_solid ws l : solid ws l → trim_of ws l = l.
Proof.
  intros (b & l' & e & l'' & E1 & E2 & Hb & He). unfold trim_of.
  rewrite E1, trim_start_stop by done. rewrite <- E1, E2. by apply trim_end_stop.
Qed.
Lemma trim_start_one ws b l : omap (λ w, bytes_strip_prefix w (b :: l)) ws = [l] →
  none_starts ws (default b (head l)) = true → trim_start_of ws (b :: l) = l.
Proof.
  intros E H. unfold trim_start_of. cbn [length trim_front]. rewrite E.
  destruct l as [|c l]; [done|]. by apply trim_front_stop.
Qed.
Lemma trim_end_one ws l e x : omap (λ w, bytes_strip_prefix w (e :: x :: reverse l)) (reverse <$> ws)
    = [x :: reverse l] →
  none_starts (reverse <$> ws) x = true → trim_end_of ws (l ++ [x; e]) = l ++ [x].
Proof.
  intros E H. unfold trim_end_of. rewrite reverse_app. change (reverse [x; e]) with [e; x].
  cbn [app]. rewrite trim_start_one; [by rewrite reverse_cons, reverse_involutive|done|done].
Qed.

(** ** The column list *)

Definition not_blank (b : byte) : Prop :=
  none_starts white_space b = true ∧ none_starts (reverse <$> white_space) b = true
  ∧ b ≠ ","%byte.
#[global] Instance not_blank_dec b : Decision (not_blank b).
Proof. unfold not_blank. apply _. Defined.

(** The part of the statement between the parentheses, up to the tokenizer. *)
Lemma parse_columns_text (a cols tok : bytes) b l e l' :
  "("%byte ∉ a → "="%byte ∉ cols → cols = b :: l → cols = l' ++ [e] →
  not_blank b → not_blank e →
  parse_column_list (bytes_str (a ++ "("%byte :: cols ++ str_bytes ", tokenize='" ++ tok))
  = bytes_str <$> filter (λ c, c ≠ [])
      ((λ c, trim_of [["'"%byte]] (trim_of [[x22]] (trim c))) <$> bytes_split "," cols).
Proof.
  intros Ha Hc Eb Ee (Hb & _ & _) (He1 & He2 & He3). unfold parse_column_list.
  rewrite str_bytes_str, bytes_split_once_app by done.
  assert (cols ++ str_bytes ", tokenize='" ++ tok
    = (cols ++ str_bytes ", ") ++ (str_bytes "tokenize" ++ ["="%byte]) ++ "'"%byte :: tok) as ->.
  { rewrite <- app_assoc. f_equal. }
  change (str_bytes "tokenize=") with (str_bytes "tokenize" ++ ["="%byte]).
  rewrite bytes_find_delim; [|by_decide|].
  2:{ rewrite not_elem_of_app. split; [done|by_decide]. }
  rewrite take_app_length.
  assert (trim (cols ++ str_bytes ", ") = cols ++ [","%byte]) as ->.
  { unfold trim, trim_of. rewrite Eb. change ((b :: l) ++ str_bytes ", ") with (b :: l ++ str_bytes ", ").
    rewrite trim_start_stop by done. change (b :: l ++ str_bytes ", ") with ((b :: l) ++ [","; " "]%byte).
    rewrite trim_end_one; [done|vm_compute; reflexivity|done]. }
  assert (trim_end_of [[","%byte]] (cols ++ [","%byte]) = cols) as ->.
  { rewrite Ee, <- app_assoc. cbn [app]. apply trim_end_one.
    - cbn. by rewrite !decide_True.
    - cbn. rewrite bool_decide_eq_true_2 by congruence. done. }
  assert (trim cols = cols) as ->; [|done]. apply trim_solid. by exists b, l, e, l'.
Qed.

Lemma name_bytes_solid s :
  valid_name s → solid [[x22]] (str_bytes s) ∧ solid [["'"%byte]] (str_bytes s).
Proof.
  intros Hs. pose proof Hs as [Hne _]%valid_name_iff.
  assert (x22 ∉ str_bytes s) as H1 by (by apply (valid_name_no_byte s)).
  assert ("'"%byte ∉ str_bytes s) as H2 by (by apply (valid_name_no_byte s)).
  destruct (str_bytes s) as [|b l] eqn:E.
  { destruct Hne. apply (inj str_bytes). by rewrite E. }
  destruct (exists_last (l := b :: l)) as (l' & e & El); [done|].
  assert (b ∈ b :: l) as Hb by left. assert (e ∈ b :: l) as He by (rewrite El; set_solver).
  split; (exists b, l, e, l'); (split_and!; [done|done| |]); cbn;
    (rewrite bool_decide_eq_true_2; [done|congruence]).
Qed.

Lemma trim_quotes s :
  valid_name s → trim_of [["'"%byte]] (trim_of [[x22]] (trim (str_bytes (quoted s)))) = str_bytes s.
Proof.
  intros Hs. pose proof (name_bytes_solid s Hs) as [H1 H2].
  unfold quoted. rewrite !str_bytes_app. change (str_bytes dq) with [x22]. cbn [app].
  assert (trim (x22 :: str_bytes s ++ [x22]) = x22 :: str_bytes s ++ [x22]) as ->.
  { apply trim_solid. exists x22, (str_bytes s ++ [x22]), x22, (x22 :: str_bytes s). done. }
  destruct H1 as (b & l' & e & l'' & E1 & E2 & Hb & He).
  assert (trim_of [[x22]] (x22 :: str_bytes s ++ [x22]) = str_bytes s) as ->.
  { unfold trim_of. rewrite trim_start_one.
    - rewrite E2 at 1. rewrite <- app_assoc. cbn [app]. rewrite trim_end_one; [done| |done].
      cbn. by rewrite !decide_True.
    - cbn. by rewrite !decide_True.
    - by rewrite E1. }
  by apply trim_solid.
Qed.

Lemma split_columns p ps :
  Forall valid_name (p :: ps) →
  bytes_split "," (str_bytes (multi_columns (p :: ps)))
  = str_bytes (quoted p) :: ((λ q, " "%byte :: str_bytes (quoted q)) <$> ps).
Proof.
  assert (∀ p, valid_name p → ","%byte ∉ str_bytes (quoted p)) as Hq.
  { intros q Hp. unfold quoted. rewrite !str_bytes_app, !not_elem_of_app.
    split_and!; [by_decide| |by_decide]. by apply (valid_name_no_byte q). }
  revert p. induction ps as [|q ps IH]; intros p [Hp Hps]%Forall_cons.
  - change (multi_columns [p]) with (quoted p). by rewrite bytes_split_one by (by apply Hq).
  - change (multi_columns (p :: q :: ps)) with (quoted p +:+ ", " +:+ multi_columns (q :: ps)).
    rewrite !str_bytes_app. change (str_bytes ", ") with [","%byte; " "%byte]. cbn [app].
    rewrite bytes_split_app by (by apply Hq). f_equal. cbn [bytes_split].
    rewrite decide_False by done. by rewrite (IH q Hps).
Qed.

Lemma trim_space l : trim (" "%byte :: x22 :: l) = trim (x22 :: l).
Proof.
  unfold trim, trim_of. rewrite trim_start_one; [|by vm_compute|done].
  by rewrite trim_start_stop.
Qed.

(** The statement of a creator, split at the parenthesis. *)
Lemma create_fts_sql_bytes t cols tok :
  create_fts_sql t cols tok
  = bytes_str (str_bytes ("CREATE VIRTUAL TABLE " +:+ quoted t +:+ " USING fts5")
      ++ "("%byte :: str_bytes cols ++ str_bytes ", tokenize='" ++ str_bytes (tok +:+ "')")).
Proof.
  apply (inj str_bytes). unfold create_fts_sql. rewrite str_bytes_str, !str_bytes_app.
  rewrite <- !app_assoc. done.
Qed.
Lemma create_fts_sql_paren t :
  "("%byte ∉ str_bytes t →
  "("%byte ∉ str_bytes ("CREATE VIRTUAL TABLE " +:+ quoted t +:+ " USING fts5").
Proof.
  intros Ht. unfold quoted. rewrite !str_bytes_app, !not_elem_of_app.
  split_and!; [by_decide|by_decide|done|by_decide|by_decide].
Qed.

Lemma multi_columns_ends p ps :
  ∃ l l', str_bytes (multi_columns (p :: ps)) = x22 :: l
    ∧ str_bytes (multi_columns (p :: ps)) = l' ++ [x22].
Proof.
  assert (∃ l', str_bytes (multi_columns (p :: ps)) = l' ++ [x22]) as [l' E].
  { revert p. induction ps as [|q ps IH]; intros p.
    - exists (x22 :: str_bytes p). change (multi_columns [p]) with (quoted p). unfold quoted.
      by rewrite !str_bytes_app.
    - destruct (IH q) as [l' E]. exists (str_bytes (quoted p) ++ str_bytes ", " ++ l').
      change (multi_columns (p :: q :: ps)) with (quoted p +:+ ", " +:+ multi_columns (q :: ps)).
      by rewrite !str_bytes_app, E, !app_assoc. }
  assert (∃ l, str_bytes (multi_columns (p :: ps)) = x22 :: l) as [l E'].
  { unfold multi_columns. destruct ps as [|q ps].
    - change (join ", " (quoted <$> [p])) with (quoted p). unfold quoted. rewrite str_bytes_app.
      by eexists.
    - change (join ", " (quoted <$> p :: q :: ps))
        with (quoted p +:+ ", " +:+ join ", " (quoted <$> q :: ps)).
      unfold quoted at 1. rewrite !str_bytes_app. by eexists. }
  eauto.
Qed.

Lemma multi_columns_no_eq p ps :
  Forall valid_name (p :: ps) → "="%byte ∉ str_bytes (multi_columns (p :: ps)).
Proof.
  assert (∀ p, valid_name p → "="%byte ∉ str_bytes (quoted p)) as Hq.
  { intros q Hp. unfold quoted. rewrite !str_bytes_app, !not_elem_of_app.
    split_and!; [by_decide| |by_decide]. by apply (valid_name_no_byte q). }
  revert p. induction ps as [|q ps IH]; intros p [Hp Hps]%Forall_cons; [by apply Hq|].
  change (multi_columns (p :: q :: ps)) with (quoted p +:+ ", " +:+ multi_columns (q :: ps)).
  rewrite !str_bytes_app, !not_elem_of_app. split_and!; [by apply Hq|by_decide|by apply IH].
Qed.

(** The columns of a table of several properties are read back. *)
Lemma parse_multi_columns t ps tok :
  ps ≠ [] → Forall valid_name ps → "("%byte ∉ str_bytes t →
  parse_column_list (create_fts_sql t (multi_columns ps) tok) = ps.
Proof.
  intros Hne Hps Ht. destruct ps as [|p ps]; [done|].
  destruct (multi_columns_ends p ps) as (l & l' & E1 & E2).
  rewrite create_fts_sql_bytes, (parse_columns_text _ _ _ x22 l x22 l');
    [|by apply create_fts_sql_paren|by apply multi_columns_no_eq|done|done|by_decide|by_decide].
  pose proof Hps as [Hp _]%Forall_cons.
  rewrite split_columns, fmap_cons, trim_quotes by done.
  rewrite <- list_fmap_compose.
  assert (((λ c, trim_of [["'"%byte]] (trim_of [[x22]] (trim c)))
      ∘ (λ q, " "%byte :: str_bytes (quoted q))) <$> ps = str_bytes <$> ps) as ->.
  { apply list_fmap_ext. intros i q Hq. cbn [compose]. unfold compose.
    unfold quoted at 1. rewrite str_bytes_app. change (str_bytes dq) with [x22]. cbn [app].
    rewrite trim_space. etrans; [|apply trim_quotes].
    { unfold quoted. by rewrite !str_bytes_app. }
    rewrite Forall_forall in Hps. apply Hps. right. by apply list_elem_of_lookup_2 in Hq. }
  change (str_bytes p :: (str_bytes <$> ps)) with (str_bytes <$> p :: ps).
  clear -Hps. induction Hps as [|q qs Hq Hqs IH]; [done|].
  rewrite fmap_cons, filter_cons, decide_True, fmap_cons, bytes_str_bytes, IH; [done|].
  apply valid_name_iff in Hq as [Hq _]. intros E. apply Hq. apply (inj str_bytes). by rewrite E.
Qed.
Lemma parse_content_column t tok :
  "("%byte ∉ str_bytes t → parse_column_list (create_fts_sql t "content" tok) = ["content"].
Proof.
  intros Ht. rewrite create_fts_sql_bytes.
  rewrite (parse_columns_text _ _ _ "c" (str_bytes "ontent") "t" (str_bytes "conten"));
    [|by apply create_fts_sql_paren|by_decide|done|done|by_decide|by_decide].
  by vm_compute.
Qed.
