(* ===== verification/FtsDdl.v ===== *)
(** * Creating and dropping full-text indexes

    A full-text table and the shadow tables that come with it have names of their
    own, so graph and secondary indexes are untouched; creation fills the table
    from the nodes there are, and dropping removes it. *)
From stdpp Require Import pretty.
From S2P Require Export FtsSpec.

(** ** Changes confined to full-text names *)
Definition fts_key (k : string) : Prop := ∃ r, k = str_lower ("node_fts" +:+ r).

(** Outside full-text names [d'] is [d]; tables are under their names. *)
Record fts_only (d d' : db) : Prop := {
  fy_keys k T : d' !! k = Some T → k = str_lower (tbl_name T);
  fy_frame k : ¬ fts_key k → d' !! k = d !! k;
}.

Section Only.
Context {Mp : Msgpack} {d d' : db} (Ho : fts_only d d').

Lemma fts_only_repr g : repr g d → repr g d'.
Proof.
  apply repr_core_same. intros t Ht. unfold find_tbl. apply (fy_frame _ _ Ho). intros [r E].
  symmetry in E. by apply fts_name_not_core in E.
Qed.

Lemma fts_only_back k T r :
  d' !! k = Some T → tbl_name T = "node_idx" +:+ r → d !! k = Some T.
Proof.
  intros HT E. rewrite <- (fy_frame _ _ Ho); [done|]. intros [q Ek].
  rewrite (fy_keys _ _ Ho _ _ HT), E, !str_lower_app in Ek. apply (f_equal str_bytes) in Ek.
  rewrite !str_bytes_app in Ek.
  change (str_bytes (str_lower "node_fts")) with (str_bytes "node_fts") in Ek.
  change (str_bytes (str_lower "node_idx")) with (str_bytes "node_idx") in Ek. discriminate.
Qed.

Lemma fts_only_indexed ns : indexed ns d → indexed ns d'.
Proof.
  intros Hix. pose proof (ix_catalogue _ _ Hix) as Hc. split; [split|].
  - apply (fy_keys _ _ Ho).
  - intros k T r HT E. eapply (ct_legacy _ Hc k T r); [|done].
    by apply (fts_only_back k T ("_" +:+ r)).
  - intros k T r HT E. apply (ct_names _ Hc k T r); [|done].
    by apply (fts_only_back k T ("$" +:+ r)).
  - intros k T r HT E. apply (ct_plain _ Hc k T r); [|done].
    by apply (fts_only_back k T ("$" +:+ r)).
  - intros l ps T Hv [HT E]. apply (ix_rows _ _ Hix); [done|]. split; [|done].
    by apply (fts_only_back _ T ("$" +:+ l +:+ "$" +:+ join "$" ps)).
Qed.
End Only.

(** ** A new table *)

(** The table is made, with its shadow tables. *)
Definition with_shadows (d : db) (us : list string) : db :=
  foldr (λ u, <[str_lower u := plain u [] ∅]>) d us.
Definition with_fts (d : db) (t : string) (f : fts) : db :=
  <[str_lower t := mkTbl t [] ∅ (Some f)]> (with_shadows d (shadow_tables t)).
(** None of the names is in use. *)
Definition fts_free (d : db) (t : string) : Prop :=
  Forall (λ u, ¬ has_tbl d u) (t :: shadow_tables t).

Lemma shadow_lookup d us k T :
  with_shadows d us !! k = Some T →
  (∃ u, u ∈ us ∧ k = str_lower u ∧ T = plain u [] ∅) ∨ (k ∉ str_lower <$> us) ∧ d !! k = Some T.
Proof.
  induction us as [|u us IH]; unfold with_shadows; cbn [foldr]; [|fold (with_shadows d us)].
  { intros H. right. split; [|done]. apply not_elem_of_nil. }
  rewrite lookup_insert_Some. intros [[<- <-]|[Hne [(v & Hv & -> & ->)|[Hn HT]]%IH]].
  - left. exists u. split_and!; [left|done..].
  - left. exists v. split_and!; [by right|done..].
  - right. split; [|done]. rewrite fmap_cons. apply not_elem_of_cons. done.
Qed.
Lemma shadow_frame d us k :
  k ∉ str_lower <$> us → with_shadows d us !! k = d !! k.
Proof.
  induction us as [|u us IH]; [done|]. rewrite fmap_cons, not_elem_of_cons.
  unfold with_shadows. cbn [foldr]. fold (with_shadows d us).
  intros [Hne Hk]. rewrite lookup_insert_ne by done. by apply IH.
Qed.

Lemma create_fts_run d t cols sql :
  fts_free d t → fts_columns_ok t cols = true →
  exec (λ c : db, sql_create_fts c t cols sql) d
  = (with_fts d t (mkFts sql cols ∅), Ok () : Res unit).
Proof.
  intros Hf Hc. apply Forall_cons in Hf as [Ht Hs].
  unfold exec, sql_create_fts, MemDb, db_create_fts. apply eq_None_not_Some in Ht. rewrite Ht.
  rewrite Hc. destruct (existsb _ _) eqn:E; [exfalso|done].
  apply existsb_exists in E as (u & Hu & E%bool_decide_eq_true).
  rewrite Forall_forall in Hs. by apply (Hs u); [apply list_elem_of_In|].
Qed.

Section New.
Context {Mp : Msgpack} {d : db} {t : string} {f : fts}.
Context (Hn : ∃ r, t = "node_fts" +:+ r).

Lemma shadow_name u : u ∈ shadow_tables t → ∃ r, u = "node_fts" +:+ r.
Proof.
  destruct Hn as [r ->]. intros (s & -> & _)%list_elem_of_fmap. exists (r +:+ s).
  by rewrite str_app_assoc.
Qed.

Lemma with_fts_frame k :
  k ∉ str_lower <$> (t :: shadow_tables t) → with_fts d t f !! k = d !! k.
Proof.
  rewrite fmap_cons, not_elem_of_cons. intros [Hk Hs]. unfold with_fts.
  rewrite lookup_insert_ne by done. by apply shadow_frame.
Qed.

Lemma with_fts_only :
  (∀ k T, d !! k = Some T → k = str_lower (tbl_name T)) → fts_only d (with_fts d t f).
Proof.
  intros Hk. split.
  - intros k T. unfold with_fts. rewrite lookup_insert_Some.
    intros [[<- <-]|[_ [(u & _ & -> & ->)|[_ HT]]%shadow_lookup]]; [done|done|by apply Hk].
  - intros k Hf. apply with_fts_frame. intros (u & -> & Hu)%list_elem_of_fmap. apply Hf.
    apply elem_of_cons in Hu as [->|Hu].
    + destruct Hn as [r ->]. by exists r.
    + apply shadow_name in Hu as [r ->]. by exists r.
Qed.

(** Of the full-text tables only the new one was not there before. *)
Lemma with_fts_tbl T' f' info :
  fts_tbl (with_fts d t f) T' f' info →
  T' = mkTbl t [] ∅ (Some f) ∧ f' = f ∨ fts_tbl d T' f' info.
Proof.
  intros (HT & Hf & Hl & Hi). unfold with_fts in HT. apply lookup_insert_Some in HT as
    [[_ <-]|[_ [(u & _ & _ & ->)|[_ HT]]%shadow_lookup]].
  - left. cbn in Hf. by injection Hf.
  - done.
  - by right.
Qed.
End New.

(** ** Filling it *)
Section Fill.
Context {Mp : Msgpack} {ML : MsgpackLaws} (info : FtsIndexInfo) (body : Node → M db GraphError unit).
(** What the loop does to a node without a row. *)
Context (Hbody : ∀ d T f n, fts_tbl d T f info → columns_ok info f →
  fts_rows f !! i64_of_u64 (node_id n) = None →
  body n d = (with_rows (d := d) (T := T) (f := f)
    (put_row (node_id n) (row_of info (Some (node_properties n))) (fts_rows f)), Ok ())).

Definition row_from (nodes : list Node) (z : Z) (r : gmap string string) : Prop :=
  ∃ n, n ∈ nodes ∧ z = i64_of_u64 (node_id n) ∧ row_of info (Some (node_properties n)) = Some r.

Lemma fts_fill nodes d T f :
  fts_tbl d T f info → columns_ok info f → NoDup (node_id <$> nodes) →
  Forall (λ n, in_u64 (node_id n)) nodes →
  (∀ n, n ∈ nodes → fts_rows f !! i64_of_u64 (node_id n) = None) →
  ∃ m, for_each body nodes d = (with_rows (d := d) (T := T) (f := f) m, Ok ())
    ∧ ∀ z r, m !! z = Some r ↔ fts_rows f !! z = Some r ∨ row_from nodes z r.
Proof.
  revert d T f. induction nodes as [|n nodes IH]; intros d T f Ht Hc Hnd Hids Hno.
  { exists (fts_rows f). rewrite (with_rows_self Ht). split; [done|]. intros z r.
    split; [eauto|]. intros [H|(n & Hn & _)]; [done|by apply not_elem_of_nil in Hn]. }
  rewrite fmap_cons in Hnd. apply NoDup_cons in Hnd as [Hn Hnd].
  apply Forall_cons in Hids as [Hid Hids].
  pose proof (Hbody d T f n Ht Hc (Hno n ltac:(left))) as E.
  set (o := row_of info (Some (node_properties n))) in *.
  set (m1 := put_row (node_id n) o (fts_rows f)) in *.
  destruct (IH _ _ _ (with_rows_tbl_ok Ht m1) Hc Hnd Hids) as (m & Em & Hm).
  { cbn [fts_rows]. intros n' Hn'. unfold m1. rewrite put_row_ne; [apply Hno; by right|].
    intros E'. apply i64_of_u64_inj in E'; [|by rewrite Forall_forall in Hids; apply Hids|done].
    apply Hn. rewrite <- E'. by apply list_elem_of_fmap_2. }
  exists m. split.
  { cbn [for_each]. rewrite (run_bind _ _ _ _ _ E), Em. f_equal.
    unfold with_rows, set_fts. cbn. by rewrite insert_insert_eq. }
  intros z r. rewrite Hm. cbn [fts_rows]. unfold m1. split.
  - destruct (decide (z = i64_of_u64 (node_id n))) as [->|Hz].
    + rewrite put_row_eq. intros [Ho|(n' & Hn' & H)].
      * right. exists n. split_and!; [left|done..].
      * right. exists n'. split; [by right|done].
    + rewrite put_row_ne by done. intros [H|(n' & Hn' & H)]; [by left|].
      right. exists n'. split; [by right|done].
  - intros [H|(n' & [->|Hn']%elem_of_cons & -> & H)].
    + left. rewrite put_row_ne; [done|]. intros ->. by rewrite Hno in H by left.
    + left. by rewrite put_row_eq.
    + right. by exists n'.
Qed.
End Fill.

(** ** Both creators: make the table, scan the label, fill *)
Section Create.
Context {Mp : Msgpack} {ML : MsgpackLaws} {g : graph} {d : db}.
Context (Hr : repr g d) (Hix : indexed (g_nodes g) d) (Hfts : fts_ok (g_nodes g) d).
Context (t sql : string) (cols : list string) (info : FtsIndexInfo).
Context (Hn : ∃ r, t = "node_fts" +:+ r) (Hlike : like None "node_fts_%" t = true).
Context (Hinfo : fts_info_of (t, sql) = Some info) (Hlab : valid_name (fi_label info)).
Context (Hcols : columns_ok info (mkFts sql cols ∅)) (Hfree : fts_free d t).
Context (Hcs : fts_columns_ok t cols = true).
Context (Hscan : scan_exact (g_nodes g) (fi_label info)).
Context (body : Node → M db GraphError unit).
Context (Hbody : ∀ d T f n, fts_tbl d T f info → columns_ok info f →
  fts_rows f !! i64_of_u64 (node_id n) = None →
  body n d = (with_rows (d := d) (T := T) (f := f)
    (put_row (node_id n) (row_of info (Some (node_properties n))) (fts_rows f)), Ok ())).

Lemma scanned_rows nodes z r :
  (∀ n, n ∈ nodes ↔ ∃ i rec, n = node_at i rec ∧ g_nodes g !! i = Some rec
                      ∧ label_selected (fi_label info) (join ":" (rec_labels rec)) = true) →
  row_from info nodes z r ↔
  ∃ i, in_u64 i ∧ z = i64_of_u64 i ∧ node_row (g_nodes g) info i = Some r.
Proof.
  intros Hnodes. unfold row_from, node_row. split.
  - intros (n & (i & rec & -> & Hi & Hsel)%Hnodes & -> & Hrow). exists i.
    destruct (node_valid Hr _ _ Hi) as [Hu _]. split_and!; [done|done|]. rewrite Hi. cbn.
    rewrite decide_True by (by eapply Hscan). done.
  - intros (i & Hu & -> & Hrow). destruct (g_nodes g !! i) as [rec|] eqn:Hi; [|done].
    cbn in Hrow. case_decide as Hl; [|done]. exists (node_at i rec). split_and!; [|done|done].
    apply Hnodes. exists i, rec. split_and!; [done..|]. apply label_selected_complete; [done|].
    by apply (node_valid Hr _ _ Hi).
Qed.

Lemma create_fts_spec :
  ∃ d', (exec (λ c : db, sql_create_fts c t cols sql) ≫= λ _,
         reads (find_nodes_by_label (fi_label info)) ≫= λ nodes, for_each body nodes) d
        = (d', Ok ())
    ∧ repr g d' ∧ indexed (g_nodes g) d' ∧ fts_ok (g_nodes g) d'
    ∧ (∃ T f, fts_tbl d' T f info)
    ∧ ∀ k, k ∉ str_lower <$> (t :: shadow_tables t) → d' !! k = d !! k.
Proof.
  set (f0 := mkFts sql cols ∅) in *. set (d0 := with_fts d t f0).
  pose proof (with_fts_only (f := f0) Hn (fo_keys _ _ Hfts)) as Honly.
  pose proof (fts_only_repr Honly _ Hr) as Hr0.
  assert (fi_label info ≠ "") as Hne by (by apply (proj1 (valid_name_iff _))).
  destruct (find_nodes_run Hr0 _ Hne) as (nodes & En & Hnd & Hnodes).
  assert (fts_tbl d0 (mkTbl t [] ∅ (Some f0)) f0 info) as Ht0.
  { split_and!; [apply lookup_insert_eq|done..]. }
  destruct (fts_fill info body Hbody nodes _ _ _ Ht0 Hcols Hnd) as (m & Em & Hm).
  { apply Forall_forall. intros n (i & rec & -> & Hi & _)%Hnodes. cbn.
    by destruct (node_valid Hr _ _ Hi). }
  { intros n _. apply lookup_empty. }
  set (d1 := with_rows (d := d0) (T := mkTbl t [] ∅ (Some f0)) (f := f0) m) in *.
  assert (∀ k, k ≠ str_lower t → d1 !! k = d0 !! k) as Hd1.
  { intros k Hk. unfold d1, with_rows, set_fts. cbn. by rewrite lookup_insert_ne. }
  assert (fts_only d d1) as Honly1.
  { split.
    - intros k T. unfold d1, with_rows, set_fts. rewrite lookup_insert_Some.
      intros [[<- <-]|[_ HT]]; [done|]. by apply (fy_keys _ _ Honly).
    - intros k Hk. rewrite Hd1; [by apply (fy_frame _ _ Honly)|]. intros ->. apply Hk.
      destruct Hn as [r ->]. by exists r. }
  exists d1. split_and!.
  - rewrite (run_bind _ _ _ _ _ (create_fts_run _ _ _ _ Hfree Hcs)). by rewrite (run_reads _ _ _ _ En).
  - by apply (fts_only_repr Honly1).
  - by apply (fts_only_indexed Honly1).
  - pose proof (with_rows_tbl_ok Ht0 m) as Ht1. fold d1 in Ht1.
    assert (∀ T' f' info', fts_tbl d1 T' f' info' →
      (info' = info ∧ f' = mkFts sql cols m) ∨ fts_tbl d T' f' info') as Hback.
    { intros T' f' info' Ht'. destruct (decide (str_lower (tbl_name T') = str_lower t)) as [E|E].
      - left. destruct Ht1 as (HT1 & Hf1 & _ & Hi1), Ht' as (HT' & Hf' & _ & Hi').
        rewrite E in HT'. pose proof (eq_trans (eq_sym HT1) HT') as E2. injection E2 as <-. simplify_eq. done.
      - right. destruct Ht' as (HT' & Ht'). rewrite (Hd1 _ E) in HT'.
        destruct (with_fts_tbl (d := d) (t := t) (f := f0) T' f' info') as [[-> _]|H]; [|done|done].
        by split. }
    assert (∀ z r, m !! z = Some r ↔
      ∃ i, in_u64 i ∧ z = i64_of_u64 i ∧ node_row (g_nodes g) info i = Some r) as Hm'.
    { intros z r. rewrite Hm. cbn [f0 fts_rows]. rewrite lookup_empty, <- (scanned_rows nodes) by done.
      split; [by intros [?|?]|by right]. }
    split.
    + apply (fy_keys _ _ Honly1).
    + intros T' f' info' [[-> ->]|Ht']%Hback; [done|by eapply fo_columns].
    + intros T' f' info' [[-> ->]|Ht']%Hback i Hi; [|by eapply fo_rows]. cbn [fts_rows].
      apply option_eq. intros r. rewrite Hm'. split; [|by eauto].
      intros (j & Hj & E & Hrow). apply i64_of_u64_inj in E; [by subst|done..].
    + intros T' f' info' [[-> ->]|Ht']%Hback z Hz; [|by eapply fo_ids]. cbn [fts_rows] in Hz.
      destruct Hz as [r (i & Hi & -> & _)%Hm']. eauto.
  - eexists _, _. exact (with_rows_tbl_ok Ht0 m).
  - intros k Hk. rewrite Hd1; [by apply with_fts_frame|]. intros ->. apply Hk. left.
Qed.
End Create.

(** * The statements that create and drop full-text indexes

    What the creators and [drop_fulltext_index] do to a database that agrees with
    its nodes, and that they do the same over any lawful connection. *)

Definition fts_name (l p : string) : string := "node_fts$" +:+ l +:+ "$" +:+ p.
Definition legacy_fts_name (l p : string) : string := "node_fts_" +:+ l +:+ "_" +:+ p.
Definition multi_prefix (l : string) : string := "node_fts_multi_" +:+ l +:+ "_".
Definition multi_name (l : string) (n : N) : string := multi_prefix l +:+ pretty n.

(** ** Names *)
Lemma fts_table_name_valid l p :
  valid_name l → valid_name p → fts_table_name l p = Ok (fts_name l p).
Proof. unfold fts_table_name. by intros -> ->. Qed.
Lemma legacy_fts_table_name_valid l p :
  valid_name l → valid_name p → legacy_fts_table_name l p = Ok (legacy_fts_name l p).
Proof. unfold legacy_fts_table_name. by intros -> ->. Qed.

Lemma like_literal fuel p q s :
  Forall (λ b, b ≠ "%"%byte) p → Forall (λ b, utf8_cont b = false) (p ++ s) →
  like_fuel fuel None q s = true → like_fuel (length p + fuel) None (p ++ q) (p ++ s) = true.
Proof.
  intros Hp Ha H. induction Hp as [|b p Hb Hp IH]; [done|].
  cbn [length app Nat.add like_fuel] in *. apply Forall_cons in Ha as [_ Ha].
  rewrite bool_decide_eq_false_2 by done. rewrite bool_decide_eq_false_2 by done.
  destruct (bool_decide (b = "_"%byte)).
  - rewrite skip_cont_id by done. by apply IH.
  - rewrite bool_decide_eq_true_2 by done. by apply IH.
Qed.

Lemma fts_like_single s : ascii_name s → like None "node_fts_%" ("node_fts$" +:+ s) = true.
Proof.
  intros Hs. unfold like, str_len. rewrite !str_bytes_app.
  assert (Forall (λ b, utf8_cont b = false) (str_bytes s)) as Ha
    by (eapply Forall_impl; [exact Hs|by intros ? []]).
  change (str_bytes "node_fts_%") with (str_bytes "node_fts" ++ ["_"; "%"]%byte).
  change (str_bytes "node_fts$" ++ str_bytes s) with (str_bytes "node_fts" ++ "$"%byte :: str_bytes s).
  rewrite !length_app. cbn [length].
  replace (S _) with (length (str_bytes "node_fts") + S (S (10 + length (str_bytes s))))
    by (cbn; lia).
  apply like_literal; [by_decide| |].
  - apply Forall_app. split; [by_decide|]. by constructor.
  - assert (∀ f, S (length (str_bytes s)) < f →
      like_fuel (S f) None ["_"; "%"]%byte ("$"%byte :: str_bytes s) = true) as H; [|apply H; lia].
    intros f Hf. change (like_fuel f None ["%"%byte] (skip_cont (str_bytes s)) = true).
    rewrite skip_cont_id by done. by apply like_any.
Qed.

Lemma fts_single_info l p sql :
  valid_name l →
  fts_info_of (fts_name l p, sql)
  = Some (mkFtsInfo l [p] (parse_tokenizer_kind sql) (fts_name l p)).
Proof.
  intros Hl. unfold fts_info_of, fts_name. rewrite strip_prefix_app.
  change "$" with (bytes_str ["$"%byte]) at 1. by rewrite split_once_app by (by apply valid_name_no_dollar).
Qed.
Lemma fts_single_not_multi l p k : is_multi (mkFtsInfo l [p] k (fts_name l p)) = false.
Proof.
  unfold is_multi, fts_name. cbn [fi_table_name]. apply bool_decide_eq_false_2.
  intros [r E%strip_prefix_spec]. apply (f_equal str_bytes) in E. rewrite !str_bytes_app in E.
  discriminate.
Qed.

(** A number is written in decimal digits. *)
Definition digit (b : byte) : bool := byte_in 48 57 b.
Lemma pretty_digits (n : N) : Forall (λ b, digit b = true) (str_bytes (pretty n)).
Proof.
  assert (∀ x, Forall (λ b, digit b = true) (str_bytes (String.String (pretty_N_char x) ""))) as Hd.
  { intros x. unfold pretty_N_char. repeat case_match; by_decide. }
  assert (∀ s, Forall (λ b, digit b = true) (str_bytes s) →
    Forall (λ b, digit b = true) (str_bytes (pretty_N_go n s))) as Hgo.
  { induction (N.lt_wf_0 n) as [n _ IH]. intros s Hs.
    destruct (decide (0 < n)%N) as [Hn|Hn].
    - rewrite pretty_N_go_step by done. apply IH; [by apply N.div_lt|].
      change (String.String (pretty_N_char (n `mod` 10)) s)
        with (String.String (pretty_N_char (n `mod` 10)) "" +:+ s).
      rewrite str_bytes_app. by apply Forall_app.
    - assert (n = 0%N) as -> by lia. by rewrite pretty_N_go_0. }
  unfold pretty, pretty_N. case_decide; [by_decide|]. apply Hgo. by_decide.
Qed.
Lemma pretty_no_byte (n : N) b : digit b = false → b ∉ str_bytes (pretty n).
Proof.
  intros Hb Hin. pose proof (pretty_digits n) as H. rewrite Forall_forall in H.
  specialize (H b Hin). cbn in H. congruence.
Qed.
Lemma pretty_ascii (n : N) : ascii_name (pretty n).
Proof.
  eapply Forall_impl; [apply pretty_digits|]. unfold digit, byte_in, utf8_cont.
  intros b [H1 H2]%andb_true_iff. apply N.leb_le in H1, H2. split; [intros ->; by destruct H1|].
  apply andb_false_iff. rewrite !N.leb_gt. lia.
Qed.

Lemma fts_multi_info l n sql :
  fts_info_of (multi_name l n, sql)
  = Some (mkFtsInfo l (parse_column_list sql) (parse_tokenizer_kind sql) (multi_name l n)).
Proof.
  unfold fts_info_of. assert (strip_prefix "node_fts$" (multi_name l n) = None) as ->.
  { destruct (strip_prefix _ _) as [r|] eqn:E; [exfalso|done]. apply strip_prefix_spec in E.
    apply (f_equal str_bytes) in E. unfold multi_name, multi_prefix in E.
    rewrite !str_bytes_app in E. discriminate. }
  unfold multi_name at 1, multi_prefix at 1. rewrite !str_app_assoc, strip_prefix_app.
  rewrite !str_bytes_app. change (str_bytes "_") with ["_"%byte]. cbn [app].
  rewrite bytes_rsplit_once_app by (apply pretty_no_byte; done).
  cbn [fmap option_fmap option_map fst]. by rewrite bytes_str_bytes.
Qed.
Lemma fts_multi_is_multi l ps k n : is_multi (mkFtsInfo l ps k (multi_name l n)) = true.
Proof.
  unfold is_multi, multi_name, multi_prefix. cbn [fi_table_name]. apply bool_decide_eq_true_2.
  rewrite !str_app_assoc, strip_prefix_app. eauto.
Qed.

(** ** Over any connection *)
Section Views.
Context {conn : Type} {O : SqlOps conn} {view : conn → db} {L : SqlLaws conn view}.
Context {Mp : Msgpack}.
Implicit Types c : conn.

(** Whether an index covers a property does not depend on the catalogue's order. *)
Lemma is_covered_perm l p (rows rows' : list (string * string)) :
  rows ≡ₚ rows' →
  filter (covers l p) (omap fts_info_of rows) = []
  ↔ filter (covers l p) (omap fts_info_of rows') = [].
Proof.
  intros Hp. assert (filter (covers l p) (omap fts_info_of rows)
    ≡ₚ filter (covers l p) (omap fts_info_of rows')) as H by (by rewrite Hp).
  split; intros E; rewrite E in H; [by apply Permutation_nil_l in H|by apply Permutation_nil_r in H].
Qed.

Lemma is_covered_rows l p c rows :
  sql_fts_tables c "node_fts_%" = Ok rows →
  is_covered l p c = Ok (bool_decide (filter (covers l p) (omap fts_info_of rows) ≠ [])).
Proof.
  intros E. unfold is_covered, fts_tokenizer_kind, list_all_fulltext_indexes. rewrite E.
  cbn [storage mbind result_bind].
  destruct (filter _ _) as [|info infos]; [by rewrite bool_decide_eq_false_2 by tauto|].
  by rewrite bool_decide_eq_true_2.
Qed.
Lemma is_covered_view l p c : is_covered l p c = is_covered l p (view c).
Proof.
  destruct (law_fts_tables c "node_fts_%") as (rows & E & Hp).
  rewrite (is_covered_rows _ _ _ _ E).
  assert (is_covered l p (view c) = Ok (bool_decide
    (filter (covers l p) (omap fts_info_of (fts_tables (view c) "node_fts_%")) ≠ []))) as ->
    by (unfold is_covered, fts_tokenizer_kind, list_all_fulltext_indexes; cbn;
        destruct (filter _ _); [by rewrite bool_decide_eq_false_2 by tauto|
          by rewrite bool_decide_eq_true_2]).
  f_equal. apply bool_decide_ext. by rewrite is_covered_perm.
Qed.

Lemma used_numbers_perm prefix ns ns' : ns ≡ₚ ns' → used_numbers prefix ns = used_numbers prefix ns'.
Proof.
  intros Hp. unfold used_numbers. apply (Sorted_unique N.le).
  - apply (Sorted_merge_sort _).
  - apply (Sorted_merge_sort _).
  - rewrite !merge_sort_Permutation. by rewrite Hp.
Qed.
Lemma fts_multi_table_name_view l c : fts_multi_table_name l c = fts_multi_table_name l (view c).
Proof.
  unfold fts_multi_table_name. destruct (validate_name l) as [[]|e|]; [|done..].
  cbn [mbind result_bind].
  destruct (law_names_like c (("node_fts_multi_" +:+ l +:+ "_") +:+ "%")) as (ns & -> & Hp).
  cbn [storage mbind result_bind sql_names_like MemDb]. by rewrite (used_numbers_perm _ _ _ Hp).
Qed.
End Views.

(** ** The refinements *)
Section Refinements.
Context {conn : Type} {O : SqlOps conn} {view : conn → db} {L : SqlLaws conn view}.
Context {Mp : Msgpack}.

Lemma create_fts_refines t cols sql :
  refines view (exec (λ c, sql_create_fts c t cols sql) : M conn GraphError unit)
    (exec (λ c, sql_create_fts c t cols sql)).
Proof. apply exec_refines. intros c. apply law_create_fts. Qed.
Lemma fts_table_exists_view t c : fts_table_exists t c = fts_table_exists t (view c).
Proof. unfold fts_table_exists. by rewrite law_table_exists. Qed.
Lemma resolve_fts_table_view l p c : resolve_fts_table l p c = resolve_fts_table l p (view c).
Proof.
  unfold resolve_fts_table. destruct (fts_table_name l p); [|done..]. cbn [mbind result_bind].
  rewrite fts_table_exists_view. destruct (fts_table_exists _ _) as [[]|e|]; [done| |done..].
  cbn [mbind result_bind]. destruct (legacy_fts_table_name l p); [|done..].
  cbn [mbind result_bind]. by rewrite fts_table_exists_view.
Qed.
Lemma reject_covered_view l ps c : reject_covered l ps c = reject_covered l ps (view c).
Proof.
  unfold reject_covered. induction ps as [|p ps IH]; [done|]. cbn [for_each_r].
  rewrite is_covered_view. destruct (is_covered l p (view c)) as [[]|e|]; [done| |done..].
  cbn [mbind result_bind]. by rewrite IH.
Qed.
#[local] Hint Resolve create_fts_refines fts_table_exists_view resolve_fts_table_view
  reject_covered_view is_covered_view fts_multi_table_name_view find_nodes_by_label_view
  fts_insert_refines : refine.

Lemma create_fulltext_index_impl_refines l p spec :
  refines view (create_fulltext_index_impl l p spec) (create_fulltext_index_impl l p spec).
Proof.
  unfold create_fulltext_index_impl. solve_refines.
  rewrite fts_table_exists_view. destruct (fts_table_exists _ _) as [[]|e|]; [done| |done..].
  cbn [mbind result_bind]. destruct (legacy_fts_table_name l p); [|done..].
  cbn [mbind result_bind]. by rewrite fts_table_exists_view.
Qed.
Lemma create_fulltext_index_word_multi_refines l ps :
  refines view (create_fulltext_index_word_multi l ps) (create_fulltext_index_word_multi l ps).
Proof. unfold create_fulltext_index_word_multi, create_fulltext_index_multi_impl. solve_refines. Qed.
Lemma drop_fulltext_index_refines l p :
  refines view (drop_fulltext_index l p) (drop_fulltext_index l p).
Proof.
  unfold drop_fulltext_index. solve_refines. apply exec_refines. intros c. apply law_drop_table.
Qed.
End Refinements.

(** ** What they do *)
Section Specs.
Context {Mp : Msgpack} {ML : MsgpackLaws} {g : graph} {d : db}.
Context (Hr : repr g d) (Hix : indexed (g_nodes g) d) (Hfts : fts_ok (g_nodes g) d).

(** Some index covers the property. *)
Definition covered (d : db) (l p : string) : Prop := ∃ T f info, fts_tbl d T f info ∧ covers l p info.

Lemma is_covered_run l p : ∃ b, is_covered l p d = Ok b ∧ (b = true ↔ covered d l p).
Proof.
  eexists. split; [by apply is_covered_rows|]. rewrite bool_decide_eq_true.
  pose proof (fo_keys _ _ Hfts) as Hk. unfold covered. split.
  - destruct (filter _ _) as [|info infos] eqn:E; [done|]. intros _.
    assert (info ∈ filter (covers l p) (omap fts_info_of (fts_tables d "node_fts_%"))) as Hin
      by (rewrite E; left).
    apply list_elem_of_filter in Hin as [Hc Hin].
    apply list_elem_of_omap in Hin as (x & (Hl & T & f & HT & Hf & ->)%(elem_of_fts_tables Hk) & Ei).
    by exists T, f, info.
  - intros (T & f & info & (HT & Hf & Hl & Ei) & Hc) E.
    assert (info ∈ filter (covers l p) (omap fts_info_of (fts_tables d "node_fts_%"))) as Hin.
    { apply list_elem_of_filter. split; [done|]. apply list_elem_of_omap.
      exists (tbl_name T, fts_sql f). split; [|done]. apply (elem_of_fts_tables Hk).
      split; [done|]. by exists T, f. }
    rewrite E in Hin. by apply not_elem_of_nil in Hin.
Qed.
Lemma not_covered_run l p : ¬ covered d l p → is_covered l p d = Ok false.
Proof.
  intros Hn. destruct (is_covered_run l p) as ([] & E & Hb); [|done]. by destruct Hn; apply Hb.
Qed.

Lemma fts_table_exists_run t : ¬ has_tbl d t → fts_table_exists t d = Ok false.
Proof.
  intros Hn. unfold fts_table_exists. cbn. unfold db_table_exists.
  apply eq_None_not_Some in Hn. rewrite Hn. done.
Qed.

(** What remains of the database. *)
Definition fts_elsewhere (t : string) (d d' : db) : Prop :=
  ∀ k, k ∉ str_lower <$> (t :: shadow_tables t) → d' !! k = d !! k.

Lemma create_single_spec l p spec :
  valid_name l → valid_name p → fts_free d (fts_name l p) → ¬ has_tbl d (legacy_fts_name l p) →
  ¬ covered d l p → scan_exact (g_nodes g) l →
  ∃ d', create_fulltext_index_impl l p spec d = (d', Ok ())
    ∧ repr g d' ∧ indexed (g_nodes g) d' ∧ fts_ok (g_nodes g) d'
    ∧ covered d' l p ∧ fts_elsewhere (fts_name l p) d d'.
Proof.
  intros Hl Hp Hfree Hleg Hcov Hscan.
  set (t := fts_name l p) in *. set (sql := create_fts_sql t "content" (Spec.tokenize_clause spec)).
  set (info := mkFtsInfo l [p] (parse_tokenizer_kind sql) t).
  destruct (create_fts_spec Hr Hix Hfts t sql ["content"] info) with
    (body := λ n : Node, match string_value (node_properties n) p with
       | Some s => fts_insert (conn := db) t (node_id n) [("content", Some s)] | None => mret () end)
    as (d' & E & H1 & H2 & H3 & (T & f & Ht) & H4); try done.
  - by eexists.
  - apply fts_like_single. repeat apply ascii_name_app; [by apply valid_name_ascii|by_decide|
      by apply valid_name_ascii].
  - by apply fts_single_info.
  - split; [|by exists p]. unfold info_columns.
    assert (is_multi info = false) as -> by apply fts_single_not_multi. done.
  - intros d1 T1 f1 n Ht1 Hc1 Hno1. rewrite <- (insert_new_run _ _ _ _ _ (node_properties n) Ht1 Hc1 Hno1).
    assert (is_multi info = false) as -> by apply fts_single_not_multi.
    cbn [info fi_properties string_values fmap list_fmap mbind option_bind existsb].
    destruct (string_value (node_properties n) p) as [s|]; cbn [orb].
    + rewrite bool_decide_eq_true_2 by eauto. done.
    + by rewrite bool_decide_eq_false_2 by apply not_some_none.
  - exists d'. split_and!; [|done..| |done].
    + rewrite <- E. unfold create_fulltext_index_impl.
      rewrite fts_table_name_valid by done. fold t.
      rewrite (run_bind _ _ d d t) by done.
      erewrite run_reads; [|rewrite fts_table_exists_run by (by apply Forall_cons in Hfree as [? _]);
        cbn [mbind result_bind]; rewrite legacy_fts_table_name_valid by done;
        cbn [mbind result_bind]; by apply fts_table_exists_run].
      cbv beta iota. by rewrite (run_reads _ _ _ _ (not_covered_run _ _ Hcov)).
    + exists T, f, info. split; [done|]. split; [done|]. left.
Qed.

(** *** Several properties *)
Lemma fts_multi_table_name_run l :
  valid_name l → ∃ n, fts_multi_table_name l d = Ok (multi_name l n)
    ∧ n = smallest_unused (used_numbers (multi_prefix l) (names_like d (multi_prefix l +:+ "%"))) 1.
Proof. intros Hl. unfold fts_multi_table_name. rewrite Hl. eexists. split; [done|reflexivity]. Qed.

Lemma reject_duplicates_ok l seen ps :
  NoDup ps → Forall (λ p, p ∉ seen) ps → reject_duplicates l seen ps = Ok ().
Proof.
  revert seen. induction ps as [|p ps IH]; intros seen Hnd Hs; [done|].
  apply NoDup_cons in Hnd as [Hp Hnd]. apply Forall_cons in Hs as [Hps Hs].
  cbn [reject_duplicates]. rewrite decide_False by done. apply IH; [done|].
  rewrite Forall_forall in *. intros q Hq. specialize (Hs q Hq). set_solver.
Qed.
Lemma reject_covered_ok l ps :
  Forall (λ p, ¬ covered d l p) ps → reject_covered l ps d = Ok ().
Proof.
  unfold reject_covered. induction 1 as [|p ps Hp Hps IH]; [done|]. cbn [for_each_r].
  by rewrite (not_covered_run _ _ Hp).
Qed.
Lemma validate_all_ok ps : Forall valid_name ps → for_each_r validate_name ps = Ok ().
Proof. induction 1 as [|p ps Hp Hps IH]; [done|]. cbn [for_each_r]. by rewrite Hp. Qed.

Lemma create_multi_spec l ps t :
  valid_name l → ps ≠ [] → NoDup ps → Forall valid_name ps →
  fts_multi_table_name l d = Ok t → fts_free d t → fts_columns_ok t ps = true →
  Forall (λ p, ¬ covered d l p) ps → scan_exact (g_nodes g) l →
  ∃ d', create_fulltext_index_word_multi l ps d = (d', Ok ())
    ∧ repr g d' ∧ indexed (g_nodes g) d' ∧ fts_ok (g_nodes g) d'
    ∧ Forall (covered d' l) ps ∧ fts_elsewhere t d d'.
Proof.
  intros Hl Hne Hnd Hps Ht Hfree Hcols Hcov Hscan.
  destruct (fts_multi_table_name_run l Hl) as (n & En & _).
  assert (t = multi_name l n) as Et by congruence.
  set (sql := create_fts_sql t (multi_columns ps) (Spec.tokenize_clause Spec.Word)).
  set (info := mkFtsInfo l ps (parse_tokenizer_kind sql) t).
  assert (is_multi info = true) as Hm by (unfold info; rewrite Et; apply fts_multi_is_multi).
  assert ("("%byte ∉ str_bytes t) as Hparen.
  { rewrite Et. unfold multi_name, multi_prefix. rewrite !str_bytes_app, !not_elem_of_app.
    split_and!; [by_decide|by apply (valid_name_no_byte l)|by_decide|apply pretty_no_byte; by_decide]. }
  destruct (create_fts_spec Hr Hix Hfts t sql ps info) with
    (body := λ n : Node, if any_string (node_properties n) ps
       then fts_insert (conn := db) t (node_id n)
              (zip ps (string_values (Some (node_properties n)) ps)) else mret ())
    as (d' & E & H1 & H2 & H3 & (T & f & HT) & H4); try done.
  - rewrite Et. unfold multi_name, multi_prefix. rewrite !str_app_assoc. by eexists.
  - rewrite Et. unfold multi_name, multi_prefix. rewrite !str_app_assoc.
    change "node_fts_%" with ("node_fts_" +:+ "%").
    change ("node_fts_multi_" +:+ l +:+ "_" +:+ pretty n)
      with ("node_fts_" +:+ ("multi_" +:+ l +:+ "_" +:+ pretty n)).
    apply like_prefix; [unfold ascii_name; by_decide|].
    apply ascii_name_app; [unfold ascii_name; by_decide|].
    apply ascii_name_app; [by apply valid_name_ascii|].
    apply ascii_name_app; [unfold ascii_name; by_decide|apply pretty_ascii].
  - rewrite Et, fts_multi_info, <- Et. unfold info. f_equal. f_equal. by apply parse_multi_columns.
  - split; [|by rewrite Hm]. unfold info_columns. by rewrite Hm.
  - intros d1 T1 f1 m Ht1 Hc1 Hno1. rewrite <- (insert_new_run _ _ _ _ _ (node_properties m) Ht1 Hc1 Hno1).
    by rewrite Hm, any_string_values.
  - exists d'. split_and!; [|done..| |done].
    + rewrite <- E. unfold create_fulltext_index_word_multi. rewrite decide_False by done.
      rewrite (run_bind _ _ d d ()).
      2:{ unfold lift. rewrite reject_duplicates_ok; [done|done|]. apply Forall_forall. set_solver. }
      rewrite (run_reads _ _ _ _ (reject_covered_ok _ _ Hcov)).
      rewrite (run_bind _ _ d d ()) by (unfold lift; by rewrite validate_all_ok).
      unfold create_fulltext_index_multi_impl. by rewrite (run_reads _ _ _ _ Ht).
    + apply Forall_forall. intros p Hp. by exists T, f, info.
Qed.

(** *** Removal *)
Definition without (us : list string) (d : db) : db := foldr (λ u, base.delete (str_lower u)) d us.

Lemma without_lookup us d0 k T : without us d0 !! k = Some T → d0 !! k = Some T.
Proof.
  induction us as [|u us IH]; [done|]. unfold without. cbn [foldr]. fold (without us d0).
  intros [_ H]%lookup_delete_Some. by apply IH.
Qed.
Lemma without_frame us d0 k : k ∉ str_lower <$> us → without us d0 !! k = d0 !! k.
Proof.
  induction us as [|u us IH]; [done|]. rewrite fmap_cons, not_elem_of_cons. unfold without.
  cbn [foldr]. fold (without us d0). intros [Hne Hk]. rewrite lookup_delete_ne by done. by apply IH.
Qed.

Lemma drop_fts_spec l p T :
  valid_name l → valid_name p → find_tbl d (fts_name l p) = Some T →
  tbl_name T = fts_name l p → is_Some (tbl_fts T) →
  ∃ d', drop_fulltext_index l p d = (d', Ok ())
    ∧ repr g d' ∧ indexed (g_nodes g) d' ∧ fts_ok (g_nodes g) d'
    ∧ ¬ has_tbl d' (fts_name l p) ∧ fts_elsewhere (fts_name l p) d d'.
Proof.
  intros Hl Hp HT En [f Hf]. set (t := fts_name l p) in *.
  assert (∃ r, t = "node_fts" +:+ r) as Hn by (by eexists).
  set (d' := without (shadow_tables t) (base.delete (str_lower t) d)).
  assert (fts_elsewhere t d d') as Helse.
  { intros k. rewrite fmap_cons, not_elem_of_cons. intros [Hk Hs]. unfold d'.
    rewrite without_frame by done. by apply lookup_delete_ne. }
  assert (∀ k U, d' !! k = Some U → k ≠ str_lower t ∧ d !! k = Some U) as Hback.
  { intros k U HU. apply without_lookup, lookup_delete_Some in HU. naive_solver. }
  assert (fts_only d d') as Ho.
  { split.
    - intros k U [_ HU]%Hback. by apply (fo_keys _ _ Hfts).
    - intros k Hk. apply Helse. intros (u & -> & Hu)%list_elem_of_fmap. apply Hk.
      apply elem_of_cons in Hu as [->|Hu]; [destruct Hn as [r ->]; by exists r|].
      apply (shadow_name Hn) in Hu as [r ->]. by exists r. }
  assert (fts_table_exists t d = Ok true) as Et.
  { unfold fts_table_exists. cbn. unfold db_table_exists. rewrite HT. cbn [fmap option_fmap option_map].
    rewrite En. by rewrite bool_decide_eq_true_2. }
  exists d'. split_and!; [|by apply (fts_only_repr Ho)|by apply (fts_only_indexed Ho)| | |done].
  - unfold drop_fulltext_index.
    erewrite run_reads; [|unfold resolve_fts_table; rewrite fts_table_name_valid by done;
      cbn [mbind result_bind]; fold t; rewrite Et; reflexivity].
    rewrite (run_reads _ _ _ _ Et). unfold exec, sql_drop_table, MemDb, db_drop_table.
    by rewrite HT, Hf, En.
  - eapply fts_ok_frame; [exact Hfts|apply (fy_keys _ _ Ho)|].
    intros U f' info (HU & H). split; [by apply Hback|done].
  - intros [U HU]. by apply Hback in HU as [? _].
Qed.
End Specs.
