(* ===== verification/Tx.v ===== *)
(** * Transactions: src/src/transaction.rs

    The operations of [WriteTransaction]: the size checks, the storage call, and the
    maintenance of secondary and full-text indexes, in the order of the code.
    Operations on indexes also advance the schema epoch that invalidates cached
    plans.  The read operations forward to the storage layer unchanged. *)
From S2P Require Export Fts.

Module Tx.

(** The limits a transaction carries. *)
Record limits := mkLimits {
  max_property_value_bytes : N;
  max_name_bytes : nat;
}.

Section Operations.
Context {conn : Type} {O : SqlOps conn} {Mp : Msgpack} (lim : limits).
Abbreviation M' := (M conn GraphError).

Definition validate (label : string) (properties : Properties) : Res unit :=
  validate_properties label properties (max_name_bytes lim) (max_property_value_bytes lim).

(** The two calls that follow every change of a node's properties. *)
Definition update_all_indexes (id : N) (labels : list string) (old : option Properties)
    (new : Properties) : M' unit :=
  update_indexes_for_node id labels old new ≫= λ _,
  update_fts_for_node id labels old new.

Definition create_node_with_labels (labels : list string) (properties : Properties) : M' N :=
  let primary_label := default "" (head labels) in
  lift (validate primary_label properties) ≫= λ _,
  create_node labels properties ≫= λ id,
  update_all_indexes id labels None properties ≫= λ _,
  mret id.

Definition create_node_1 (label : string) (properties : Properties) : M' N :=
  let labels := if decide (label = "") then [] else [label] in
  create_node_with_labels labels properties.

Definition delete_node (id : N) : M' unit :=
  reads (get_node id) ≫= λ n : Node,
  remove_indexes_for_node id (node_labels n) (node_properties n) ≫= λ _,
  remove_fts_for_node id (node_labels n) (node_properties n) ≫= λ _,
  Nodes.delete_node id.

(** The new properties are computed with a plain insert, also for null. *)
Definition set_node_property (id : N) (key : string) (v : value) : M' unit :=
  lift (validate "_" {[ key := v ]}) ≫= λ _,
  reads (get_node id) ≫= λ old : Node,
  Nodes.set_node_property id key v ≫= λ _,
  let new_props := <[key := v]> (node_properties old) in
  update_all_indexes id (node_labels old) (Some (node_properties old)) new_props.

Definition remove_node_property (id : N) (key : string) : M' unit :=
  reads (get_node id) ≫= λ old : Node,
  Nodes.remove_node_property id key ≫= λ _,
  let new_props := base.delete key (node_properties old) in
  update_all_indexes id (node_labels old) (Some (node_properties old)) new_props.

Definition create_edge (src dst : N) (label : string) (properties : Properties) : M' unit :=
  lift (validate label properties) ≫= λ _,
  reads (node_exists src) ≫= λ e : bool,
  if negb e then throw (GraphError.NodeNotFound src None) else
  reads (node_exists dst) ≫= λ e : bool,
  if negb e then throw (GraphError.NodeNotFound dst None) else
  Edges.create_edge src dst label properties.

Definition delete_edge (src dst : N) (label : string) : M' unit := Edges.delete_edge src dst label.

(** ** Operations on indexes *)

(** Run [m], and advance the epoch when it succeeds; [fetch_add] wraps. *)
Definition with_epoch (m : M' unit) : M (conn * N) GraphError unit := λ s,
  match m s.1 with
  | (c, Ok _) => ((c, u64_add s.2 1), Ok ())
  | (c, Err e) => ((c, s.2), Err e)
  | (c, Panic) => ((c, s.2), Panic)
  end.

Definition create_index (label property : string) :=
  with_epoch (Index.create_index label property).
Definition drop_index (label property : string) := with_epoch (Index.drop_index label property).
Definition create_composite_index (label : string) (properties : list string) :=
  with_epoch (Index.create_composite_index label properties).
Definition drop_composite_index (label : string) (properties : list string) :=
  with_epoch (Index.drop_composite_index label properties).
Definition create_fulltext_index (label property : string) :=
  with_epoch (Fts.create_fulltext_index label property).
Definition create_fulltext_index_ci (label property : string) :=
  with_epoch (Fts.create_fulltext_index_ci label property).
Definition create_fulltext_index_word (label property : string) :=
  with_epoch (Fts.create_fulltext_index_word label property).
Definition create_fulltext_index_word_multi (label : string) (properties : list string) :=
  with_epoch (Fts.create_fulltext_index_word_multi label properties).
Definition drop_fulltext_index (label property : string) :=
  with_epoch (Fts.drop_fulltext_index label property).
End Operations.
End Tx.
