(* ===== verification/TxSpec.v ===== *)
(** * Transactions keep graph, indexes and full-text tables consistent

    [consistent g d] collects the invariants: the tables represent [g], every index
    and full-text table agrees with its nodes, and every edge ends at nodes that
    exist. *)
From S2P Require Export Schema NodeSpec FtsDdl Tx.

(** Every edge starts and ends at a node. *)
Definition linked (g : graph) : Prop :=
  ∀ e, is_Some (g_edges g !! e) →
    is_Some (g_nodes g !! eid_src e) ∧ is_Some (g_nodes g !! eid_dst e).

Record consistent {Mp : Msgpack} (g : graph) (d : db) : Prop := {
  cs_repr : repr g d;
  cs_indexed : indexed (g_nodes g) d;
  cs_fts : fts_ok (g_nodes g) d;
  cs_linked : linked g;
}.

(** ** Graph operations keep edges linked *)
Lemma linked_add_node g ls p : linked g → linked (add_node g ls p).
Proof.
  intros H e He. destruct (H e He) as [[? ?] [? ?]]. cbn.
  split; apply lookup_insert_is_Some'; right; eauto.
Qed.
Lemma linked_update_node g i rec : linked g → linked (update_node g i rec).
Proof.
  intros H e He. destruct (H e He) as [? ?]. cbn.
  split; apply lookup_insert_is_Some'; right; eauto.
Qed.
Lemma linked_remove_node g i : linked g → linked (remove_node g i).
Proof.
  intros H e [p He]. cbn in He. apply map_lookup_filter_Some in He as [He [Hs Ht]].
  cbn in Hs, Ht. destruct (H e ltac:(eauto)) as [? ?]. cbn.
  split; by apply lookup_delete_is_Some.
Qed.
Lemma linked_add_edge g s t l p :
  is_Some (g_nodes g !! s) → is_Some (g_nodes g !! t) → linked g → linked (add_edge g s t l p).
Proof. intros Hs Ht H e. cbn. intros [<-|He]%lookup_insert_is_Some'; [done|by apply H]. Qed.
Lemma linked_remove_edges g s t l : linked g → linked (remove_edges g s t l).
Proof. intros H e [p [He _]%map_lookup_filter_Some]. apply H. eauto. Qed.

Section Spec.
Context {conn : Type} {O : SqlOps conn} {view : conn → db} {L : SqlLaws conn view}.
Context {Mp : Msgpack} {ML : MsgpackLaws}.
Implicit Types (g : graph) (c : conn).

Lemma node_ids g d i rec : repr g d → g_nodes g !! i = Some rec → in_u64 i ∧ valid_record rec.
Proof. intros Hr. by apply (node_valid Hr). Qed.

(** The index tables and full-text tables after a graph operation. *)
Lemma keeps_both {A} (m : M conn GraphError A) f ns c c' r :
  refines view m f → keeps f → m c = (c', r) → indexed ns (view c) → fts_ok ns (view c) →
  indexed ns (view c') ∧ fts_ok ns (view c').
Proof.
  intros Hm Hk E Hix Hfts. split; [by eapply keeps_indexed|].
  eapply core_only_fts; [|exact Hfts]. specialize (Hm c). specialize (Hk (view c)).
  rewrite <- Hm, E in Hk. exact Hk.
Qed.

(** A graph operation followed by the maintenance of all indexes. *)
Lemma maintain g' ns c i labels old new :
  repr g' (view c) → indexed ns (view c) → fts_ok ns (view c) →
  in_u64 i → (∀ j, is_Some (ns !! j) → in_u64 j) → NoDup labels →
  node_change ns (g_nodes g') i labels old (Some new) →
  ∃ c', Tx.update_all_indexes i labels old new c = (c', Ok ())
    ∧ repr g' (view c') ∧ indexed (g_nodes g') (view c') ∧ fts_ok (g_nodes g') (view c').
Proof.
  intros Hr Hix Hfts Hi Hids Hnd Hch. pose proof (ix_catalogue _ _ Hix) as Hc.
  destruct (update_indexes_for_node_spec i labels old new c Hc) as (c1 & S & E1 & Ht1 & HS).
  assert (fts_ok ns (view c1)) as Hfts1.
  { eapply touched_fts; [|exact Ht1|done]. apply Forall_forall. intros x Hx. by apply HS. }
  destruct (update_fts_for_node_spec old new c1 Hfts1 Hi Hnd Hch) as (c2 & D & E2 & HD & Ht2 & Hok2).
  exists c2. unfold Tx.update_all_indexes. rewrite (run_bind _ _ _ _ _ E1). split_and!; [done| | |done].
  - eapply repr_core_same; [exact (fts_touched_core _ _ _ _ _ _ HD Hfts1 Ht2)|].
    eapply repr_core_same; [exact (touched_core _ _ _ _ _ _ Hc Ht1)|done].
  - eapply fts_touched_indexed; [done|done|]. by eapply indexed_touched.
Qed.

Lemma node_change_update g i rec rec' :
  g_nodes g !! i = Some rec → rec_labels rec' = rec_labels rec →
  node_change (g_nodes g) (g_nodes (update_node g i rec')) i (rec_labels rec)
    (Some (rec_properties rec)) (Some (rec_properties rec')).
Proof.
  intros Hi Hl. split_and!; cbn.
  - intros j Hj. by apply lookup_insert_ne.
  - intros r Hr. by simplify_eq.
  - rewrite lookup_insert_eq. intros r [= <-]. by rewrite Hl.
  - rewrite Hi. split; eauto.
  - rewrite lookup_insert_eq. split; eauto.
Qed.

Lemma node_change_delete g i rec :
  g_nodes g !! i = Some rec →
  node_change (g_nodes g) (base.delete i (g_nodes g)) i (rec_labels rec)
    (Some (rec_properties rec)) None.
Proof.
  intros Hi. split_and!.
  - intros j Hj. by apply lookup_delete_ne.
  - intros r Hr. by simplify_eq.
  - by rewrite lookup_delete_eq.
  - rewrite Hi. split; eauto.
  - rewrite lookup_delete_eq. split; by intros [? ?].
Qed.

Lemma node_change_create g ls p :
  g_nodes g !! g_next_id g = None →
  node_change (g_nodes g) (g_nodes (add_node g ls p)) (g_next_id g) ls None (Some p).
Proof.
  intros Hno. split_and!; cbn.
  - intros j Hj. by apply lookup_insert_ne.
  - by rewrite Hno.
  - rewrite lookup_insert_eq. intros r [= <-]. split; [done|]. intros l. cbn.
    by rewrite sort_labels_perm.
  - rewrite Hno. split; by intros [? ?].
  - rewrite lookup_insert_eq. split; eauto.
Qed.

Lemma repr_ids_u64 g d : repr g d → ∀ j, is_Some (g_nodes g !! j) → in_u64 j.
Proof. intros Hr j [r Hj]. by apply (node_valid Hr) in Hj as [? _]. Qed.
Lemma node_labels_nodup g d i rec : repr g d → g_nodes g !! i = Some rec → NoDup (rec_labels rec).
Proof. intros Hr Hi. apply (node_valid Hr) in Hi as [_ Hv]. apply Hv. Qed.

(** ** The operations *)
Section Ops.
Context (lim : Tx.limits) (g : graph) (c : conn) (Hcs : consistent g (view c)).

Lemma tx_create_node ls p :
  NoDup ls → Forall valid_name ls → valid_keys p → props_storable p →
  in_u64 (g_next_id g + 1) → Tx.validate lim (default "" (head ls)) p = Ok () →
  ∃ c', Tx.create_node_with_labels lim ls p c = (c', Ok (g_next_id g))
    ∧ consistent (add_node g ls p) (view c').
Proof.
  intros Hnd Hls Hk Hp Hn Hv. destruct Hcs as [Hr Hix Hfts Hlk].
  assert (∃ c1, create_node ls p c = (c1, Ok (g_next_id g)) ∧ repr (add_node g ls p) (view c1))
    as (c1 & E1 & Hr1).
  { eapply lift_spec; [apply create_node_refines|]. by apply create_node_spec. }
  destruct (keeps_both _ _ _ _ _ _ (create_node_refines ls p) (keeps_create_node ls p) E1 Hix Hfts)
    as [Hix1 Hfts1].
  destruct (maintain (add_node g ls p) (g_nodes g) c1 (g_next_id g) ls None p)
    as (c2 & E2 & Hr2 & Hix2 & Hfts2); try done.
  { apply (r_id_bound _ _ Hr). }
  { exact (repr_ids_u64 _ _ Hr). }
  { eapply node_change_create, fresh_node, Hr. }
  exists c2. split; [|split; [done..|by apply linked_add_node]].
  unfold Tx.create_node_with_labels. rewrite (run_bind _ _ c c ()) by (unfold lift; by rewrite Hv).
  rewrite (run_bind _ _ _ _ _ E1), (run_bind _ _ _ _ _ E2). done.
Qed.

(** Both operations that change properties follow this pattern. *)
Lemma tx_change_properties (m : M conn GraphError unit) f i rec p :
  g_nodes g !! i = Some rec → refines view m f → keeps f →
  (∃ d', f (view c) = (d', Ok ())
     ∧ repr (update_node g i (mkNodeRecord (rec_labels rec) p)) d') →
  ∃ c', (m ≫= λ _, Tx.update_all_indexes i (rec_labels rec) (Some (rec_properties rec)) p) c
        = (c', Ok ())
    ∧ consistent (update_node g i (mkNodeRecord (rec_labels rec) p)) (view c').
Proof.
  intros Hi Hm Hk Hf. destruct Hcs as [Hr Hix Hfts Hlk].
  destruct (lift_spec _ _ _ _ _ Hm Hf) as (c1 & E1 & Hr1).
  destruct (keeps_both _ _ _ _ _ _ Hm Hk E1 Hix Hfts) as [Hix1 Hfts1].
  destruct (maintain _ (g_nodes g) c1 i (rec_labels rec) (Some (rec_properties rec)) p Hr1)
    as (c2 & E2 & Hr2 & Hix2 & Hfts2); try done.
  { exact (proj1 (node_ids _ _ _ _ Hr Hi)). }
  { exact (repr_ids_u64 _ _ Hr). }
  { exact (node_labels_nodup _ _ _ _ Hr Hi). }
  { by apply (node_change_update g i rec (mkNodeRecord (rec_labels rec) p)). }
  exists c2. rewrite (run_bind _ _ _ _ _ E1). split; [done|].
  split; [done..|by apply linked_update_node].
Qed.

Lemma get_node_at i rec :
  g_nodes g !! i = Some rec →
  get_node i c = Ok (mkNode i (rec_labels rec) (rec_properties rec)).
Proof.
  intros Hi. destruct Hcs as [Hr _ _ _]. rewrite get_node_view, (get_node_run Hr), Hi; [done|].
  exact (proj1 (node_ids _ _ _ _ Hr Hi)).
Qed.

Lemma tx_set_node_property i rec k v :
  g_nodes g !! i = Some rec → valid_name k → storable v → v ≠ Value.Null →
  Tx.validate lim "_" {[ k := v ]} = Ok () →
  ∃ c', Tx.set_node_property lim i k v c = (c', Ok ())
    ∧ consistent (update_node g i (mkNodeRecord (rec_labels rec)
                                     (<[k := v]> (rec_properties rec)))) (view c').
Proof.
  intros Hi Hk Hst Hnn Hv. unfold Tx.set_node_property.
  rewrite (run_bind _ _ c c ()) by (unfold lift; by rewrite Hv).
  rewrite (run_reads _ _ _ _ (get_node_at i rec Hi)). cbn [node_properties node_labels].
  eapply tx_change_properties; [done|apply set_node_property_refines|
    apply keeps_set_node_property|].
  assert (<[k := v]> (rec_properties rec) = set_prop (rec_properties rec) k v) as ->.
  { unfold set_prop. destruct (value_eqb v Value.Null) eqn:E; [|done].
    by apply value_eqb_iff in E. }
  apply (set_node_property_spec (cs_repr _ _ Hcs)); done.
Qed.

Lemma tx_remove_node_property i rec k :
  g_nodes g !! i = Some rec →
  ∃ c', Tx.remove_node_property i k c = (c', Ok ())
    ∧ consistent (update_node g i (mkNodeRecord (rec_labels rec)
                                     (base.delete k (rec_properties rec)))) (view c').
Proof.
  intros Hi. unfold Tx.remove_node_property.
  rewrite (run_reads _ _ _ _ (get_node_at i rec Hi)). cbn [node_properties node_labels].
  eapply tx_change_properties; [done|apply remove_node_property_refines|
    apply keeps_remove_node_property|].
  by apply (remove_node_property_spec (cs_repr _ _ Hcs)).
Qed.

Lemma tx_delete_node i rec :
  g_nodes g !! i = Some rec →
  ∃ c', Tx.delete_node i c = (c', Ok ()) ∧ consistent (remove_node g i) (view c').
Proof.
  intros Hi. pose proof (get_node_at i rec Hi) as Eg. destruct Hcs as [Hr Hix Hfts Hlk].
  pose proof (node_change_delete g i rec Hi) as Hch.
  assert (in_u64 i) as Hu by (exact (proj1 (node_ids _ _ _ _ Hr Hi))).
  destruct (remove_indexes_for_node_spec i (rec_labels rec) (rec_properties rec) c
    (ix_catalogue _ _ Hix)) as (c1 & S & E1 & Ht1 & HS).
  assert (indexed (base.delete i (g_nodes g)) (view c1)) as Hix1.
  { eapply indexed_touched; [exact Hch|done|exact (repr_ids_u64 _ _ Hr)|done..]. }
  assert (repr g (view c1)) as Hr1.
  { eapply repr_core_same; [|exact Hr]. by eapply touched_core; [apply Hix|]. }
  assert (fts_ok (g_nodes g) (view c1)) as Hfts1.
  { eapply touched_fts; [|exact Ht1|done]. apply Forall_forall. intros x Hx. by apply HS. }
  destruct (remove_fts_for_node_spec (rec_properties rec) c1 Hfts1 Hu
    (node_labels_nodup _ _ _ _ Hr Hi) Hch) as (c2 & D & E2 & HD & Ht2 & Hfts2).
  assert (repr g (view c2)) as Hr2.
  { eapply repr_core_same; [|exact Hr1]. by eapply fts_touched_core. }
  assert (indexed (base.delete i (g_nodes g)) (view c2)) as Hix2.
  { by eapply fts_touched_indexed. }
  assert (∃ c3, Nodes.delete_node i c2 = (c3, Ok ()) ∧ repr (remove_node g i) (view c3))
    as (c3 & E3 & Hr3).
  { eapply lift_spec; [apply delete_node_refines|]. by eapply delete_node_spec. }
  destruct (keeps_both _ _ _ _ _ _ (delete_node_refines i) (keeps_delete_node i) E3 Hix2 Hfts2)
    as [Hix3 Hfts3].
  exists c3. split; [|split; [done..|by apply linked_remove_node]].
  unfold Tx.delete_node. rewrite (run_reads _ _ _ _ Eg). cbn [node_properties node_labels].
  by rewrite (run_bind _ _ _ _ _ E1), (run_bind _ _ _ _ _ E2).
Qed.

Lemma node_exists_at i : in_u64 i → node_exists i c = Ok (bool_decide (is_Some (g_nodes g !! i))).
Proof. destruct Hcs as [Hr _ _ _]. rewrite node_exists_view. by apply (node_exists_run Hr). Qed.

(** The checks come before anything is written. *)
Lemma tx_create_edge s t l p :
  in_u64 s → in_u64 t → valid_name l → valid_keys p → props_storable p →
  in_u64 (g_next_seq g + 1) → Tx.validate lim l p = Ok () →
  if decide (is_Some (g_nodes g !! s) ∧ is_Some (g_nodes g !! t)) then
    ∃ c', Tx.create_edge lim s t l p c = (c', Ok ()) ∧ consistent (add_edge g s t l p) (view c')
  else Tx.create_edge lim s t l p c
    = (c, Err (GraphError.NodeNotFound (if decide (is_Some (g_nodes g !! s)) then t else s) None)).
Proof.
  intros Hs Ht Hl Hk Hp Hq Hv. pose proof (node_exists_at s Hs) as Es.
  pose proof (node_exists_at t Ht) as Et. unfold Tx.create_edge.
  rewrite (run_bind _ _ c c ()) by (unfold lift; by rewrite Hv).
  rewrite (run_reads _ _ _ _ Es).
  destruct (decide (is_Some (g_nodes g !! s))) as [Hs1|Hs1].
  2:{ rewrite bool_decide_eq_false_2 by done. by rewrite decide_False by tauto. }
  rewrite bool_decide_eq_true_2 by done. cbn [negb].
  rewrite (run_reads _ _ _ _ Et).
  destruct (decide (is_Some (g_nodes g !! t))) as [Ht1|Ht1].
  2:{ rewrite bool_decide_eq_false_2 by done. by rewrite decide_False by tauto. }
  rewrite bool_decide_eq_true_2, decide_True by done. cbn [negb].
  destruct Hcs as [Hr Hix Hfts Hlk].
  assert (∃ c1, create_edge s t l p c = (c1, Ok ()) ∧ repr (add_edge g s t l p) (view c1))
    as (c1 & E1 & Hr1).
  { eapply lift_spec; [apply create_edge_refines|]. by apply create_edge_spec. }
  destruct (keeps_both _ _ _ _ _ _ (create_edge_refines s t l p) (keeps_create_edge s t l p) E1
    Hix Hfts) as [Hix1 Hfts1].
  exists c1. split; [done|]. split; [done..|by apply linked_add_edge].
Qed.

Lemma tx_delete_edge s t l :
  in_u64 s → in_u64 t → valid_name l →
  ∃ c', Tx.delete_edge s t l c = (c', Ok ()) ∧ consistent (remove_edges g s t l) (view c').
Proof.
  intros Hs Ht Hl. destruct Hcs as [Hr Hix Hfts Hlk].
  assert (∃ c1, delete_edge s t l c = (c1, Ok ()) ∧ repr (remove_edges g s t l) (view c1))
    as (c1 & E1 & Hr1).
  { eapply lift_spec; [apply delete_edge_refines|]. by apply delete_edge_spec. }
  destruct (keeps_both _ _ _ _ _ _ (delete_edge_refines s t l) (keeps_delete_edge s t l) E1
    Hix Hfts) as [Hix1 Hfts1].
  exists c1. split; [done|]. split; [done..|by apply linked_remove_edges].
Qed.

(** *** Indexes *)

(** Tables of other names stay; the new or dropped one is no full-text table. *)
Lemma fts_ok_index ns (d d' : db) l ps :
  fts_ok ns d → indexed ns d' → (∀ k, k ≠ str_lower (index_name l ps) → d' !! k = d !! k) →
  fts_ok ns d'.
Proof.
  intros Hok Hix Hsame. eapply fts_ok_frame; [exact Hok|apply (ct_keys _ (ix_catalogue _ _ Hix))|].
  intros T f info Ht. destruct (fts_tbl_name _ _ _ _ Ht) as [r Er]. destruct Ht as (HT & Ht).
  split; [|done]. rewrite <- HT. symmetry. apply Hsame. rewrite Er. by apply fts_name_not_index.
Qed.

Lemma tx_create_index l ps :
  valid_index l ps → scan_exact (g_nodes g) l → ¬ has_tbl (view c) (index_name l ps) →
  ∃ c', Index.create_composite_index l ps c = (c', Ok ()) ∧ consistent g (view c').
Proof.
  intros Hv Hs Hno. destruct Hcs as [Hr Hix Hfts Hlk].
  apply (lift_spec _ _ _ _ (consistent g) (create_composite_index_refines l ps)).
  destruct (create_index_spec Hr Hix l ps Hv Hno Hs) as (d' & E & H1 & H2 & _ & H3).
  exists d'. split; [done|]. split; [done|done| |done]. by eapply fts_ok_index.
Qed.
Lemma tx_drop_index l ps :
  valid_index l ps → has_index (view c) l ps →
  ∃ c', Index.drop_composite_index l ps c = (c', Ok ()) ∧ consistent g (view c').
Proof.
  intros Hv Hi. destruct Hcs as [Hr Hix Hfts Hlk].
  apply (lift_spec _ _ _ _ (consistent g) (drop_composite_index_refines l ps)).
  destruct (drop_index_spec Hr Hix l ps Hv Hi) as (d' & E & H1 & H2 & _ & H3).
  exists d'. split; [done|]. split; [done|done| |done]. by eapply fts_ok_index.
Qed.
Lemma tx_create_fulltext l p spec :
  valid_name l → valid_name p → fts_free (view c) (fts_name l p) →
  ¬ has_tbl (view c) (legacy_fts_name l p) → ¬ covered (view c) l p →
  scan_exact (g_nodes g) l →
  ∃ c', Fts.create_fulltext_index_impl l p spec c = (c', Ok ()) ∧ consistent g (view c').
Proof.
  intros Hl Hp H1 H2 H3 H4. destruct Hcs as [Hr Hix Hfts Hlk].
  apply (lift_spec _ _ _ _ (consistent g) (create_fulltext_index_impl_refines l p spec)).
  destruct (create_single_spec Hr Hix Hfts l p spec Hl Hp H1 H2 H3 H4) as (d' & E & ? & ? & ? & _).
  by exists d'.
Qed.
Lemma tx_create_fulltext_multi l ps t :
  valid_name l → ps ≠ [] → NoDup ps → Forall valid_name ps →
  fts_multi_table_name l (view c) = Ok t → fts_free (view c) t → fts_columns_ok t ps = true →
  Forall (λ p, ¬ covered (view c) l p) ps → scan_exact (g_nodes g) l →
  ∃ c', Fts.create_fulltext_index_word_multi l ps c = (c', Ok ()) ∧ consistent g (view c').
Proof.
  intros Hl Hne Hnd Hps Ht H1 H2 H3 H4. destruct Hcs as [Hr Hix Hfts Hlk].
  apply (lift_spec _ _ _ _ (consistent g) (create_fulltext_index_word_multi_refines l ps)).
  destruct (create_multi_spec Hr Hix Hfts l ps t Hl Hne Hnd Hps Ht H1 H2 H3 H4)
    as (d' & E & ? & ? & ? & _). by exists d'.
Qed.
Lemma tx_drop_fulltext l p T :
  valid_name l → valid_name p → find_tbl (view c) (fts_name l p) = Some T →
  tbl_name T = fts_name l p → is_Some (tbl_fts T) →
  ∃ c', Fts.drop_fulltext_index l p c = (c', Ok ()) ∧ consistent g (view c').
Proof.
  intros Hl Hp H1 H2 H3. destruct Hcs as [Hr Hix Hfts Hlk].
  apply (lift_spec _ _ _ _ (consistent g) (drop_fulltext_index_refines l p)).
  destruct (drop_fts_spec Hr Hix Hfts l p T Hl Hp H1 H2 H3) as (d' & E & ? & ? & ? & _).
  by exists d'.
Qed.
End Ops.
End Spec.

(** * Sequences of transactional operations

    [tx_op] names the operations of a write transaction, [run_op] runs one,
    [effect] is what it means for the graph.  [ready] says that the input is valid
    and the tables have room; then the operation does what [effect] says. *)

Inductive tx_op :=
| OpCreateNode (labels : list string) (properties : Properties)
| OpSetProperty (id : N) (key : string) (v : value)
| OpRemoveProperty (id : N) (key : string)
| OpDeleteNode (id : N)
| OpCreateEdge (src dst : N) (label : string) (properties : Properties)
| OpDeleteEdge (src dst : N) (label : string)
| OpCreateIndex (label : string) (properties : list string)
| OpDropIndex (label : string) (properties : list string)
| OpCreateFulltext (label property : string) (spec : FtsTokenizerSpec)
| OpCreateFulltextMulti (label : string) (properties : list string)
| OpDropFulltext (label property : string).

(** Operations on the data do not see the schema epoch. *)
Definition on_data {conn A} (m : M conn GraphError A) : M (conn * N) GraphError unit := λ s,
  match m s.1 with
  | (c, Ok _) => ((c, s.2), Ok ()) | (c, Err e) => ((c, s.2), Err e) | (c, Panic) => ((c, s.2), Panic)
  end.

Definition run_op {conn} {O : SqlOps conn} {Mp : Msgpack} (lim : Tx.limits) (op : tx_op)
    : M (conn * N) GraphError unit :=
  match op with
  | OpCreateNode ls p => on_data (Tx.create_node_with_labels lim ls p)
  | OpSetProperty i k v => on_data (Tx.set_node_property lim i k v)
  | OpRemoveProperty i k => on_data (Tx.remove_node_property i k)
  | OpDeleteNode i => on_data (Tx.delete_node i)
  | OpCreateEdge s t l p => on_data (Tx.create_edge lim s t l p)
  | OpDeleteEdge s t l => on_data (Tx.delete_edge s t l)
  | OpCreateIndex l ps => Tx.create_composite_index l ps
  | OpDropIndex l ps => Tx.drop_composite_index l ps
  | OpCreateFulltext l p Spec.TrigramCaseSensitive => Tx.create_fulltext_index l p
  | OpCreateFulltext l p Spec.TrigramCaseInsensitive => Tx.create_fulltext_index_ci l p
  | OpCreateFulltext l p Spec.Word => Tx.create_fulltext_index_word l p
  | OpCreateFulltextMulti l ps => Tx.create_fulltext_index_word_multi l ps
  | OpDropFulltext l p => Tx.drop_fulltext_index l p
  end.

(** Operations that change which indexes there are. *)
Definition is_ddl (op : tx_op) : bool :=
  match op with
  | OpCreateIndex _ _ | OpDropIndex _ _ | OpCreateFulltext _ _ _ | OpCreateFulltextMulti _ _
  | OpDropFulltext _ _ => true
  | _ => false
  end.

Definition change_properties (g : graph) (i : N) (f : Properties → Properties) : graph :=
  match g_nodes g !! i with
  | Some rec => update_node g i (mkNodeRecord (rec_labels rec) (f (rec_properties rec)))
  | None => g
  end.
Definition endpoints (g : graph) (s t : N) : Prop :=
  is_Some (g_nodes g !! s) ∧ is_Some (g_nodes g !! t).

Definition effect (op : tx_op) (g : graph) : graph :=
  match op with
  | OpCreateNode ls p => add_node g ls p
  | OpSetProperty i k v => change_properties g i <[k := v]>
  | OpRemoveProperty i k => change_properties g i (base.delete k)
  | OpDeleteNode i => remove_node g i
  | OpCreateEdge s t l p => if decide (endpoints g s t) then add_edge g s t l p else g
  | OpDeleteEdge s t l => remove_edges g s t l
  | _ => g
  end.

(** The one failure that valid input leaves: an endpoint that does not exist. *)
Definition outcome (op : tx_op) (g : graph) : Res unit :=
  match op with
  | OpCreateEdge s t _ _ =>
      if decide (endpoints g s t) then Ok ()
      else Err (GraphError.NodeNotFound (if decide (is_Some (g_nodes g !! s)) then t else s) None)
  | _ => Ok ()
  end.

Definition ready {Mp : Msgpack} (lim : Tx.limits) (g : graph) (d : db) (op : tx_op) : Prop :=
  match op with
  | OpCreateNode ls p =>
      NoDup ls ∧ Forall valid_name ls ∧ valid_keys p ∧ props_storable p
      ∧ in_u64 (g_next_id g + 1) ∧ Tx.validate lim (default "" (head ls)) p = Ok ()
  | OpSetProperty i k v =>
      is_Some (g_nodes g !! i) ∧ valid_name k ∧ storable v ∧ v ≠ Value.Null
      ∧ Tx.validate lim "_" {[ k := v ]} = Ok ()
  | OpRemoveProperty i _ | OpDeleteNode i => is_Some (g_nodes g !! i)
  | OpCreateEdge s t l p =>
      in_u64 s ∧ in_u64 t ∧ valid_name l ∧ valid_keys p ∧ props_storable p
      ∧ in_u64 (g_next_seq g + 1) ∧ Tx.validate lim l p = Ok ()
  | OpDeleteEdge s t l => in_u64 s ∧ in_u64 t ∧ valid_name l
  | OpCreateIndex l ps =>
      valid_index l ps ∧ scan_exact (g_nodes g) l ∧ ¬ has_tbl d (index_name l ps)
  | OpDropIndex l ps => valid_index l ps ∧ has_index d l ps
  | OpCreateFulltext l p _ =>
      valid_name l ∧ valid_name p ∧ fts_free d (fts_name l p) ∧ ¬ has_tbl d (legacy_fts_name l p)
      ∧ ¬ covered d l p ∧ scan_exact (g_nodes g) l
  | OpCreateFulltextMulti l ps =>
      valid_name l ∧ ps ≠ [] ∧ NoDup ps ∧ Forall valid_name ps
      ∧ (∃ t, fts_multi_table_name l d = Ok t ∧ fts_free d t ∧ fts_columns_ok t ps = true)
      ∧ Forall (λ p, ¬ covered d l p) ps ∧ scan_exact (g_nodes g) l
  | OpDropFulltext l p =>
      valid_name l ∧ valid_name p
      ∧ ∃ T, find_tbl d (fts_name l p) = Some T ∧ tbl_name T = fts_name l p ∧ is_Some (tbl_fts T)
  end.

Section Simulation.
Context {conn : Type} {O : SqlOps conn} {view : conn → db} {L : SqlLaws conn view}.
Context {Mp : Msgpack} {ML : MsgpackLaws} (lim : Tx.limits).
Implicit Types (g : graph) (c : conn).

Lemma run_on_data {A} (m : M conn GraphError A) c e g' :
  (∃ c' a, m c = (c', Ok a) ∧ consistent g' (view c')) →
  ∃ c', on_data m (c, e) = ((c', e), Ok ()) ∧ consistent g' (view c').
Proof. intros (c' & a & E & H). exists c'. unfold on_data. cbn. by rewrite E. Qed.
Lemma run_with_epoch (m : M conn GraphError unit) c e g' :
  (∃ c', m c = (c', Ok ()) ∧ consistent g' (view c')) →
  ∃ c', Tx.with_epoch m (c, e) = ((c', u64_add e 1), Ok ()) ∧ consistent g' (view c').
Proof. intros (c' & E & H). exists c'. unfold Tx.with_epoch. cbn. by rewrite E. Qed.

(** An operation with valid input does what [effect] says. *)
Lemma run_op_spec op g c e :
  consistent g (view c) → ready lim g (view c) op →
  ∃ c', run_op lim op (c, e)
        = ((c', if is_ddl op then u64_add e 1 else e), outcome op g)
    ∧ consistent (effect op g) (view c').
Proof.
  intros Hcs Hop. destruct op; cbn [run_op ready is_ddl outcome effect] in *.
  - destruct Hop as (? & ? & ? & ? & ? & ?). apply run_on_data.
    destruct (tx_create_node lim g c Hcs labels properties) as (c' & E & Hcc); eauto.
  - destruct Hop as ([rec Hi] & ? & ? & ? & ?). apply run_on_data. unfold change_properties.
    rewrite Hi. destruct (tx_set_node_property lim g c Hcs id rec key v) as (c' & E & Hcc); eauto.
  - destruct Hop as [rec Hi]. apply run_on_data. unfold change_properties.
    rewrite Hi. destruct (tx_remove_node_property g c Hcs id rec key) as (c' & E & Hcc); eauto.
  - destruct Hop as [rec Hi]. apply run_on_data.
    destruct (tx_delete_node g c Hcs id rec Hi) as (c' & E & Hcc). eauto.
  - destruct Hop as (? & ? & ? & ? & ? & ? & ?).
    pose proof (tx_create_edge lim g c Hcs src dst label properties) as Hce.
    fold (endpoints g src dst) in Hce. case_decide as Hd.
    + apply run_on_data. destruct Hce as (c' & E & Hcc); eauto.
    + exists c. unfold on_data. cbn. rewrite Hce by done. done.
  - destruct Hop as (? & ? & ?). apply run_on_data.
    destruct (tx_delete_edge g c Hcs src dst label) as (c' & E & Hcc); eauto.
  - destruct Hop as (? & ? & ?). by apply run_with_epoch, tx_create_index.
  - destruct Hop as (? & ?). by apply run_with_epoch, tx_drop_index.
  - destruct Hop as (? & ? & ? & ? & ? & ?).
    destruct spec; by apply run_with_epoch, tx_create_fulltext.
  - destruct Hop as (? & ? & ? & ? & (t & ? & ? & ?) & ? & ?).
    apply run_with_epoch. by eapply tx_create_fulltext_multi.
  - destruct Hop as (? & ? & T & ? & ? & ?). apply run_with_epoch. by eapply tx_drop_fulltext.
Qed.
End Simulation.
