(* ===== verification/Transactions.v ===== *)
(** * Transactions and full-text indexes: main theorems

    Whatever sequence of operations a transaction runs, graph, secondary indexes
    and full-text tables stay consistent; full-text indexes are named so that they
    can be read back, filled from the nodes there are, and dropped alone. *)
From stdpp Require Import pretty.
From S2P Require Export TxSpec Storage Indexes.

(** ** Reachable databases *)
Section Reachable.
Context {conn : Type} {O : SqlOps conn} (view : conn → db).
Context {Mp : Msgpack} (lim : Tx.limits).

(** A new database, and what operations with valid input make of it.  Whether they
    succeed is not asked. *)
Inductive reachable : graph → conn * N → Prop :=
| reach_init c c' :
    view c = ∅ → init_schema c = (c', Ok ()) → reachable empty_graph (c', 0%N)
| reach_step g s op s' r :
    reachable g s → ready lim g (view s.1) op → run_op lim op s = (s', r) →
    reachable (effect op g) s'.
End Reachable.

Section Theorems.
Context {conn : Type} {O : SqlOps conn} {view : conn → db} {L : SqlLaws conn view}.
Context {Mp : Msgpack} {ML : MsgpackLaws} (lim : Tx.limits).
Implicit Types (g : graph) (c : conn).

Lemma fresh_consistent : consistent empty_graph fresh_db.
Proof.
  split; [apply fresh_repr|apply indexed_none; by_decide|apply fts_ok_none; by_decide|].
  intros e [p He]. by apply (lookup_empty_Some e p) in He.
Qed.

Lemma init_consistent c c' :
  view c = ∅ → init_schema c = (c', Ok ()) → consistent empty_graph (view c').
Proof.
  intros Hc Hi. pose proof (init_schema_refines (view := view) c) as E.
  rewrite Hi, Hc, fresh_run in E. unfold on_fst in E. cbn [fst snd] in *.
  injection E as ->.
  apply fresh_consistent.
Qed.



(** Creating a full-text index on existing nodes fills a new table with exactly
    the nodes that have the label and a string in the property and touches nothing
    else; a property that an index covers already is refused. *)
Theorem fulltext_create_backfills g c l p spec :
  repr g (view c) → indexed (g_nodes g) (view c) → fts_ok (g_nodes g) (view c) →
  valid_name l → valid_name p → scan_exact (g_nodes g) l →
  (covered (view c) l p →
   ∃ h, create_fulltext_index_impl l p spec c
        = (c, Err (GraphError.IndexAlreadyExists l [p] (Some h))))
  ∧ (fts_free (view c) (fts_name l p) → ¬ has_tbl (view c) (legacy_fts_name l p) →
     ¬ covered (view c) l p →
     ∃ c', create_fulltext_index_impl l p spec c = (c', Ok ())
       ∧ repr g (view c') ∧ indexed (g_nodes g) (view c') ∧ fts_ok (g_nodes g) (view c')
       ∧ covered (view c') l p ∧ fts_elsewhere (fts_name l p) (view c) (view c')).
Proof.
  intros Hr Hix Hfts Hl Hp Hs. split.
  - intros Hcov. destruct (is_covered_run Hfts l p) as (b & Eb & Hb).
    rewrite <- is_covered_view in Eb. assert (b = true) as -> by (by apply Hb).
    assert (∀ t, ∃ b, fts_table_exists t c = Ok b) as Hex.
    { intros t. rewrite fts_table_exists_view. eexists. reflexivity. }
    destruct (Hex (fts_name l p)) as [b1 E1]. destruct (Hex (legacy_fts_name l p)) as [b2 E2].
    unfold create_fulltext_index_impl. rewrite fts_table_name_valid by done.
    rewrite (run_bind _ _ c c (fts_name l p)) by done.
    erewrite run_reads; [|rewrite E1; cbn [mbind result_bind];
      rewrite legacy_fts_table_name_valid by done; cbn [mbind result_bind]; rewrite E2;
      instantiate (1 := b1 || b2); by destruct b1].
    destruct (b1 || b2); [by eexists|]. rewrite (run_reads _ _ _ _ Eb). by eexists.
  - intros H1 H2 H3.
    apply (lift_spec _ _ _ _ (λ d, repr g d ∧ indexed (g_nodes g) d ∧ fts_ok (g_nodes g) d
      ∧ covered d l p ∧ fts_elsewhere (fts_name l p) (view c) d)
      (create_fulltext_index_impl_refines l p spec)).
    by apply create_single_spec.
Qed.

End Theorems.

(** The catalogue says which index a full-text table is: label and property are
    read back from the name of a table on one property, and label and properties
    from the name and the CREATE statement of a table on several; two indexes on one
    property never share a name. *)
Theorem fulltext_info_roundtrip l p ps n tok :
  valid_name l → valid_name p → ps ≠ [] → Forall valid_name ps →
  (∀ sql, fts_info_of (fts_name l p, sql)
          = Some (mkFtsInfo l [p] (parse_tokenizer_kind sql) (fts_name l p)))
  ∧ (∀ l' p', valid_name l' → fts_name l' p' = fts_name l p → l' = l ∧ p' = p)
  ∧ parse_column_list (create_fts_sql (multi_name l n) (multi_columns ps) tok) = ps
  ∧ fi_properties <$> fts_info_of
      (multi_name l n, create_fts_sql (multi_name l n) (multi_columns ps) tok) = Some ps
  ∧ ∀ sql, fi_label <$> fts_info_of (multi_name l n, sql) = Some l.
Proof.
  intros Hl Hp Hne Hps.
  assert (parse_column_list (create_fts_sql (multi_name l n) (multi_columns ps) tok) = ps) as Ec.
  { apply parse_multi_columns; [done|done|]. unfold multi_name, multi_prefix.
    rewrite !str_bytes_app, !not_elem_of_app.
    split_and!; [by_decide|by apply (valid_name_no_byte l)|by_decide|by apply pretty_no_byte]. }
  split_and!; [intros; by apply fts_single_info| |done| |intros; by rewrite fts_multi_info].
  - intros l' p' Hl' E. pose proof (fts_single_info l' p' "" Hl') as E1.
    rewrite E, (fts_single_info l p "" Hl) in E1. by simplify_eq.
  - rewrite fts_multi_info. cbn [fmap option_fmap option_map fi_properties]. by rewrite Ec.
Qed.

(** ** Concrete databases *)
Module TxDemo.
#[local] Existing Instance Reference.msgpack.
#[local] Existing Instance Reference.msgpack_laws.
Import Demo.

(** The limits of the default configuration. *)
Definition lim : Tx.limits := Tx.mkLimits (1024 * 1024) 256.

Lemma d_consistent : consistent g d.
Proof.
  split; [exact d_repr|exact IndexDemo.d_indexed|apply fts_ok_none; by_decide|].
  assert (map_Forall (λ (e : eid) (_ : Properties),
    is_Some (g_nodes g !! eid_src e) ∧ is_Some (g_nodes g !! eid_dst e)) (g_edges g)) as H by by_decide.
  intros e [p He]. exact (H e p He).
Qed.

(** The property of node 1 is set to null, then to a name, then the node is deleted. *)
Definition nulled : db := (Tx.set_node_property lim 1 "name" Value.Null IndexDemo.di).1.
Definition renamed : db := (Tx.set_node_property lim 1 "name" (Value.String "Bob") nulled).1.
Definition deleted : db := (Tx.delete_node 1 renamed).1.

(** Full-text indexes with awkward names. *)
Definition fts_body : db := (create_fulltext_index "Doc" "body" d).1.
Definition fts_odd : db := (create_fulltext_index "Doc" "unicode61" d).1.
End TxDemo.

Section Witnesses.
#[local] Existing Instance Reference.msgpack.
#[local] Existing Instance Reference.msgpack_laws.
Import Demo TxDemo.



Lemma fulltext_create_backfills_witness :
  (covered d "Person" "name" →
   ∃ h, create_fulltext_index_impl "Person" "name" Spec.Word d
        = (d, Err (GraphError.IndexAlreadyExists "Person" ["name"] (Some h))))
  ∧ (fts_free d (fts_name "Person" "name") → ¬ has_tbl d (legacy_fts_name "Person" "name") →
     ¬ covered d "Person" "name" →
     ∃ c', create_fulltext_index_impl "Person" "name" Spec.Word d = (c', Ok ())
       ∧ repr g c' ∧ indexed (g_nodes g) c' ∧ fts_ok (g_nodes g) c'
       ∧ covered c' "Person" "name" ∧ fts_elsewhere (fts_name "Person" "name") d c').
Proof.
  apply (fulltext_create_backfills (view := id) g d "Person" "name" Spec.Word);
    [apply d_consistent|apply d_consistent|apply d_consistent|by_decide|by_decide|
     exact IndexDemo.d_exact].
Defined.


Lemma fulltext_info_roundtrip_witness :
  (∀ sql, fts_info_of ("node_fts$Person$name", sql)
          = Some (mkFtsInfo "Person" ["name"] (parse_tokenizer_kind sql) "node_fts$Person$name"))
  ∧ (∀ l' p', valid_name l' → fts_name l' p' = "node_fts$Person$name" → l' = "Person" ∧ p' = "name")
  ∧ parse_column_list (create_fts_sql (multi_name "Person" 1) (multi_columns ["name"; "bio"])
      "unicode61") = ["name"; "bio"]
  ∧ fi_properties <$> fts_info_of (multi_name "Person" 1,
      create_fts_sql (multi_name "Person" 1) (multi_columns ["name"; "bio"]) "unicode61")
    = Some ["name"; "bio"]
  ∧ ∀ sql, fi_label <$> fts_info_of (multi_name "Person" 1, sql) = Some "Person".
Proof.
  apply (fulltext_info_roundtrip "Person" "name" ["name"; "bio"] 1 "unicode61"); by_decide.
Defined.

(** A transaction that sets an indexed property to null removes the property but
    enters the node in the index under null; nothing removes that entry again, so
    after a new value is set and even after the node is deleted the index still
    lists the node. *)
Theorem set_null_corrupts_index :
  index_lookup "Person" "name" Value.Null IndexDemo.di = Ok []
  ∧ node_properties <$> get_node 1 nulled = Ok ∅
  ∧ index_lookup "Person" "name" Value.Null nulled = Ok [1%N]
  ∧ index_lookup "Person" "name" Value.Null renamed = Ok [1%N]
  ∧ node_exists 1 deleted = Ok false
  ∧ index_lookup "Person" "name" Value.Null deleted = Ok [1%N].
Proof. repeat apply conj; vm_compute; reflexivity. Qed.

(** Names mislead the full-text code.  An index on (Doc, body) makes the shadow
    table node_fts$Doc$body_data, so an index on (Doc, body_data) is refused as
    existing already, though no index covers it; an index on a property named
    unicode61 is reported as tokenized by words, whatever it was created with; and a
    node created with a label twice violates the index's key. *)
Theorem fulltext_names_mislead :
  (create_fulltext_index "Doc" "body_data" fts_body).2
    = Err (GraphError.IndexAlreadyExists "Doc" ["body_data"]
        (Some "a fulltext index on this (label, property) already exists"))
  ∧ is_covered "Doc" "body_data" fts_body = Ok false
  ∧ (create_fulltext_index "Doc" "unicode61" d).2 = Ok ()
  ∧ fts_tokenizer_kind "Doc" "unicode61" fts_odd = Ok Word
  ∧ (Tx.create_node_with_labels lim ["Doc"; "Doc"] {[ "body" := Value.String "x" ]} fts_body).2
    = Err (GraphError.Storage "constraint failed" None).
Proof. repeat apply conj; vm_compute; reflexivity. Qed.
End Witnesses.
