(* ===== verification/Ast.v ===== *)
(** * Syntax of Cypher: src/src/cypher/ast.rs

    Expressions contain statements (EXISTS subqueries) and statements contain
    expressions.  The types between the two take the type of expressions as a
    parameter, and one mutual declaration ties the knot.  [Box] is dropped. *)
From S2P Require Export Errors.

(** ** Plain enumerations *)
Module ShortestPathMode.
Inductive ShortestPathMode := None | Single | All.
End ShortestPathMode.
Abbreviation ShortestPathMode := ShortestPathMode.ShortestPathMode.

Inductive RelDirection := RelOutgoing | RelIncoming | RelUndirected.

Module QuantifierKind.
Inductive QuantifierKind := None | Single | Any | All.
End QuantifierKind.
Abbreviation QuantifierKind := QuantifierKind.QuantifierKind.

Module LiteralValue.
Inductive LiteralValue :=
| Null
| Bool (b : bool)
| I64 (n : Z)
| F64 (bits : N)
| String (s : string).
End LiteralValue.
Abbreviation LiteralValue := LiteralValue.LiteralValue.

Module BinOp.
Inductive BinOp :=
| Eq | Neq | Lt | Gt | Lte | Gte | And | Or | Xor | StartsWith | EndsWith | Contains | RegexMatch
| In | Add | Sub | Mul | Div | Mod | Pow.
End BinOp.
Abbreviation BinOp := BinOp.BinOp.

(** ** Patterns *)
Record NodePattern (E : Type) := mkNodePattern {
  np_variable : option string;
  np_labels : list string;
  np_properties : gmap string E }.
Record RelPattern (E : Type) := mkRelPattern {
  rp_variable : option string;
  rp_types : list string;
  rp_properties : gmap string E;
  rp_direction : RelDirection;
  rp_var_length : option (N * N) }.
Inductive PatternElement (E : Type) :=
| PNode (n : NodePattern E)
| PRelationship (r : RelPattern E).
Record Pattern (E : Type) := mkPattern {
  pt_elements : list (PatternElement E);
  pt_path_variable : option string;
  pt_shortest_path_mode : ShortestPathMode }.
Record OptionalMatch (E : Type) := mkOptionalMatch {
  om_patterns : list (Pattern E);
  om_where : option E }.

(** ** Clauses *)
Record ReturnItem (E : Type) := mkReturnItem { ri_expr : E; ri_alias : option string }.
Record ReturnClause (E : Type) := mkReturnClause {
  rc_items : list (ReturnItem E); rc_distinct : bool }.
Record SortItem (E : Type) := mkSortItem { si_expr : E; si_descending : bool }.
Record Assignment (E : Type) := mkAssignment {
  as_variable : string; as_property : string; as_value : E }.
Module SetItem.
Inductive SetItem (E : Type) :=
| Property (a : Assignment E)
| Label (variable : string) (labels : list string)
| MapOverwrite (variable : string) (v : E)
| MapMerge (variable : string) (v : E).
End SetItem.
Abbreviation SetItem := SetItem.SetItem.
Module RemoveItem.
Inductive RemoveItem :=
| Property (variable property : string)
| Label (variable : string) (labels : list string).
End RemoveItem.
Abbreviation RemoveItem := RemoveItem.RemoveItem.

Record WithClause (E : Type) := mkWith {
  wc_items : list (ReturnItem E);
  wc_distinct : bool;
  wc_order_by : list (SortItem E);
  wc_skip : option E;
  wc_limit : option E;
  wc_where : option E }.
Record UnwindClause (E : Type) := mkUnwindClause { uc_expr : E; uc_alias : string }.
Record IntermediateMatch (E : Type) := mkIntermediateMatch {
  im_patterns : list (Pattern E);
  im_optional : list (OptionalMatch E);
  im_where : option E }.
Module IntermediateClause.
Inductive IntermediateClause (E : Type) :=
| With (w : WithClause E)
| Unwind (u : UnwindClause E)
| Match (m : IntermediateMatch E).
End IntermediateClause.
Abbreviation IntermediateClause := IntermediateClause.IntermediateClause.

Module Clause.
Inductive Clause (E : Type) :=
| Match (patterns : list (Pattern E)) (optional_patterns : list (OptionalMatch E))
    (where_clause : option E)
| Create (patterns : list (Pattern E))
| Merge (pattern : Pattern E) (on_create on_match : list (SetItem E))
| With (w : WithClause E)
| Unwind (u : UnwindClause E)
| SetItems (items : list (SetItem E))
| Remove (items : list RemoveItem)
| Call (procedure_name : string) (args : list E) (implicit_args : bool)
    (yield_items : option (list (string * option string))) (yield_star : bool)
| Delete (exprs : list E) (detach : bool).
End Clause.
Abbreviation Clause := Clause.Clause.

(** ** Statements of one kind; [tl_] is the optional RETURN with its order and
    bounds that most of them end in. *)
Record Tail (E : Type) := mkTail {
  tl_return : option (ReturnClause E);
  tl_order_by : list (SortItem E);
  tl_skip : option E;
  tl_limit : option E }.

Record MultiClauseStatement (E : Type) := mkMultiClause {
  mc_clauses : list (Clause E); mc_tail : Tail E }.
Record ReturnStatement (E : Type) := mkReturnStmt {
  rs_return : ReturnClause E;
  rs_order_by : list (SortItem E);
  rs_skip : option E;
  rs_limit : option E }.
Record MatchStatement (E : Type) := mkMatchStmt {
  ms_patterns : list (Pattern E);
  ms_optional : list (OptionalMatch E);
  ms_where : option E;
  ms_intermediate : list (IntermediateClause E);
  ms_return : ReturnClause E;
  ms_order_by : list (SortItem E);
  ms_skip : option E;
  ms_limit : option E }.
Record CreateStatement (E : Type) := mkCreateStmt { cs_patterns : list (Pattern E); cs_tail : Tail E }.
Record MatchCreateStatement (E : Type) := mkMatchCreateStmt {
  mcs_patterns : list (Pattern E);
  mcs_where : option E;
  mcs_create : list (Pattern E);
  mcs_tail : Tail E }.
Record DeleteStatement (E : Type) := mkDeleteStmt {
  ds_patterns : list (Pattern E);
  ds_optional : list (OptionalMatch E);
  ds_where : option E;
  ds_detach : bool;
  ds_exprs : list E;
  ds_tail : Tail E }.
Record SetStatement (E : Type) := mkSetStmt {
  ss_patterns : list (Pattern E);
  ss_optional : list (OptionalMatch E);
  ss_where : option E;
  ss_items : list (SetItem E);
  ss_intermediate : list (IntermediateClause E);
  ss_tail : Tail E }.
Record RemoveStatement (E : Type) := mkRemoveStmt {
  rms_patterns : list (Pattern E);
  rms_optional : list (OptionalMatch E);
  rms_where : option E;
  rms_items : list RemoveItem;
  rms_tail : Tail E }.
Record MatchMergeStatement (E : Type) := mkMatchMergeStmt {
  mms_patterns : list (Pattern E);
  mms_where : option E;
  mms_pattern : Pattern E;
  mms_on_create : list (SetItem E);
  mms_on_match : list (SetItem E);
  mms_tail : Tail E }.
Record MergeStatement (E : Type) := mkMergeStmt {
  mgs_pattern : Pattern E;
  mgs_on_create : list (SetItem E);
  mgs_on_match : list (SetItem E);
  mgs_tail : Tail E }.
Module UnwindBody.
Inductive UnwindBody (E : Type) :=
| Return (where_clause : option E) (intermediate_clauses : list (IntermediateClause E))
    (return_clause : ReturnClause E) (order_by : list (SortItem E)) (skip limit : option E)
| Create (patterns : list (Pattern E)) (intermediate_clauses : list (IntermediateClause E))
    (tail : Tail E).
End UnwindBody.
Abbreviation UnwindBody := UnwindBody.UnwindBody.
Record UnwindStatement (E : Type) := mkUnwindStmt {
  us_expr : E; us_alias : string; us_body : UnwindBody E }.

Arguments mkNodePattern {E}. Arguments np_variable {E}. Arguments np_labels {E}.
Arguments np_properties {E}. Arguments mkRelPattern {E}. Arguments rp_variable {E}.
Arguments rp_types {E}. Arguments rp_properties {E}. Arguments rp_direction {E}.
Arguments rp_var_length {E}. Arguments mkPattern {E}. Arguments pt_elements {E}.
Arguments pt_path_variable {E}. Arguments pt_shortest_path_mode {E}.
Arguments mkOptionalMatch {E}. Arguments om_patterns {E}. Arguments om_where {E}.
Arguments mkReturnItem {E}. Arguments ri_expr {E}. Arguments ri_alias {E}.
Arguments mkReturnClause {E}. Arguments rc_items {E}. Arguments rc_distinct {E}.
Arguments mkSortItem {E}. Arguments si_expr {E}. Arguments si_descending {E}.
Arguments mkAssignment {E}. Arguments as_variable {E}. Arguments as_property {E}.
Arguments as_value {E}. Arguments mkWith {E}. Arguments wc_items {E}. Arguments wc_distinct {E}.
Arguments wc_order_by {E}. Arguments wc_skip {E}. Arguments wc_limit {E}. Arguments wc_where {E}.
Arguments mkUnwindClause {E}. Arguments uc_expr {E}. Arguments uc_alias {E}.
Arguments mkIntermediateMatch {E}. Arguments im_patterns {E}. Arguments im_optional {E}.
Arguments im_where {E}. Arguments mkTail {E}. Arguments tl_return {E}. Arguments tl_order_by {E}.
Arguments tl_skip {E}. Arguments tl_limit {E}. Arguments mkMultiClause {E}.
Arguments mc_clauses {E}. Arguments mc_tail {E}. Arguments mkReturnStmt {E}.
Arguments rs_return {E}. Arguments rs_order_by {E}. Arguments rs_skip {E}. Arguments rs_limit {E}.
Arguments mkMatchStmt {E}. Arguments ms_patterns {E}. Arguments ms_optional {E}.
Arguments ms_where {E}. Arguments ms_intermediate {E}. Arguments ms_return {E}.
Arguments ms_order_by {E}. Arguments ms_skip {E}. Arguments ms_limit {E}.
Arguments mkCreateStmt {E}. Arguments cs_patterns {E}. Arguments cs_tail {E}.
Arguments mkMatchCreateStmt {E}. Arguments mcs_patterns {E}. Arguments mcs_where {E}.
Arguments mcs_create {E}. Arguments mcs_tail {E}. Arguments mkDeleteStmt {E}.
Arguments ds_patterns {E}. Arguments ds_optional {E}. Arguments ds_where {E}.
Arguments ds_detach {E}. Arguments ds_exprs {E}. Arguments ds_tail {E}. Arguments mkSetStmt {E}.
Arguments ss_patterns {E}. Arguments ss_optional {E}. Arguments ss_where {E}.
Arguments ss_items {E}. Arguments ss_intermediate {E}. Arguments ss_tail {E}.
Arguments mkRemoveStmt {E}. Arguments rms_patterns {E}. Arguments rms_optional {E}.
Arguments rms_where {E}. Arguments rms_items {E}. Arguments rms_tail {E}.
Arguments mkMatchMergeStmt {E}. Arguments mms_patterns {E}. Arguments mms_where {E}.
Arguments mms_pattern {E}. Arguments mms_on_create {E}. Arguments mms_on_match {E}.
Arguments mms_tail {E}. Arguments mkMergeStmt {E}. Arguments mgs_pattern {E}.
Arguments mgs_on_create {E}. Arguments mgs_on_match {E}. Arguments mgs_tail {E}.
Arguments mkUnwindStmt {E}. Arguments us_expr {E}. Arguments us_alias {E}. Arguments us_body {E}.
Arguments PNode {E}. Arguments PRelationship {E}. Arguments SetItem.Property {E}.
Arguments SetItem.Label {E}. Arguments SetItem.MapOverwrite {E}. Arguments SetItem.MapMerge {E}.
Arguments IntermediateClause.With {E}. Arguments IntermediateClause.Unwind {E}.
Arguments IntermediateClause.Match {E}. Arguments Clause.Match {E}. Arguments Clause.Create {E}.
Arguments Clause.Merge {E}. Arguments Clause.With {E}. Arguments Clause.Unwind {E}.
Arguments Clause.SetItems {E}. Arguments Clause.Remove {E}. Arguments Clause.Call {E}.
Arguments Clause.Delete {E}. Arguments UnwindBody.Return {E}. Arguments UnwindBody.Create {E}.

(** ** Expressions and statements *)
#[warnings="-register-all"]
Inductive Expr :=
| mkExpr (kind : ExprKind) (span : Span)
with ExprKind :=
| Literal (l : LiteralValue)
| Property (variable property : string)
| Variable_ (name : string)
| Parameter_ (name : string)
| BinaryOp (left : Expr) (op : BinOp) (right : Expr)
| Not (e : Expr)
| IsNull (e : Expr)
| IsNotNull (e : Expr)
| FunctionCall (name : string) (args : list Expr) (distinct : bool) (original_text : option string)
| Case (operand : option Expr) (alternatives : list (Expr * Expr)) (default_ : option Expr)
| ListLit (items : list Expr)
| ListComprehension (variable : string) (list_expr : Expr) (filter_ map_expr : option Expr)
| PatternComprehension (path_variable : option string) (pattern : Pattern Expr)
    (where_clause : option Expr) (map_expr : Expr)
| Exists (patterns : list (Pattern Expr)) (where_clause : option Expr)
| ExistsSubquery (s : Statement)
| MapLiteral (pairs : list (string * Expr))
| Index (e index : Expr)
| DotAccess (e : Expr) (key : string)
| Slice (e : Expr) (start end_ : option Expr)
| Quantifier (kind : QuantifierKind) (variable : string) (list_expr predicate : Expr)
| HasLabel (variable : string) (labels : list string)
| PatternPredicate (p : Pattern Expr)
| Star
with Statement :=
| SMatch (m : MatchStatement Expr)
| SCreate (c : CreateStatement Expr)
| SMatchCreate (mc : MatchCreateStatement Expr)
| SMatchMerge (mm : MatchMergeStatement Expr)
| SDelete (d : DeleteStatement Expr)
| SSet (s : SetStatement Expr)
| SRemove (r : RemoveStatement Expr)
| SMerge (m : MergeStatement Expr)
| SUnwind (u : UnwindStatement Expr)
| SReturn (r : ReturnStatement Expr)
| SMultiClause (mc : MultiClauseStatement Expr)
| SExplain (inner : Statement)
| SUnion (statements : list Statement) (all : bool)
| SCreateIndex (label : string) (properties : list string)
| SDropIndex (label : string) (properties : list string)
| SCall (procedure_name : string) (args : list Expr) (implicit_args : bool)
    (yield_items : option (list (string * option string))) (yield_star : bool)
    (tail : Tail Expr).

Definition expr_kind (e : Expr) : ExprKind := let '(mkExpr k _) := e in k.
Definition expr_span (e : Expr) : Span := let '(mkExpr _ s) := e in s.
(** [Expr::synthetic]. *)
Definition synthetic (k : ExprKind) : Expr := mkExpr k span_synthetic.
