(* ===== verification/Params.v ===== *)
(** * Checking query parameters: src/src/cypher/parser/resolve.rs

    [validate_params] walks a statement and looks every [$name] up in the supplied
    parameters, before planning.  [mentions] says which parameters the syntax
    contains; the walk succeeds exactly when all of them are supplied. *)
From S2P Require Export Ast.

Section Walk.
Context (params : gmap string value).

Definition missing_parameter (name : string) : GraphError :=
  GraphError.argument SemanticAnalysis ("missing parameter: $" +:+ name).
Definition check_param (name : string) : Res unit :=
  if bool_decide (is_Some (params !! name)) then Ok () else Err (missing_parameter name).

(** The pieces between expressions, for a given check of expressions. *)
Section Pieces.
Context {E : Type} (validate_expr : E → Res unit).

Definition validate_opt (o : option E) : Res unit :=
  match o with Some e => validate_expr e | None => Ok () end.
(** The values of a [HashMap], in the map's own order. *)
Definition validate_props (properties : gmap string E) : Res unit :=
  map_fold (λ _ v acc, acc ≫= λ _, validate_expr v) (Ok ()) properties.
Definition validate_pattern (pattern : Pattern E) : Res unit :=
  for_each_r (λ el,
    match el with
    | PNode n => validate_props (np_properties n)
    | PRelationship r => validate_props (rp_properties r)
    end) (pt_elements pattern).
Definition validate_patterns (patterns : list (Pattern E)) : Res unit :=
  for_each_r validate_pattern patterns.
Definition validate_optional_match (om : OptionalMatch E) : Res unit :=
  validate_patterns (om_patterns om) ≫= λ _, validate_opt (om_where om).
Definition validate_optional_matches (oms : list (OptionalMatch E)) : Res unit :=
  for_each_r validate_optional_match oms.
Definition validate_set_items (items : list (SetItem E)) : Res unit :=
  for_each_r (λ item,
    match item with
    | SetItem.Property a => validate_expr (as_value a)
    | SetItem.MapOverwrite _ v | SetItem.MapMerge _ v => validate_expr v
    | SetItem.Label _ _ => Ok ()
    end) items.
Definition validate_return_items (items : list (ReturnItem E)) : Res unit :=
  for_each_r (λ item, validate_expr (ri_expr item)) items.
Definition validate_sort_items (items : list (SortItem E)) : Res unit :=
  for_each_r (λ item, validate_expr (si_expr item)) items.
Definition validate_return_tail (t : Tail E) : Res unit :=
  match tl_return t with Some rc => validate_return_items (rc_items rc) | None => Ok () end ≫= λ _,
  validate_sort_items (tl_order_by t) ≫= λ _,
  validate_opt (tl_skip t) ≫= λ _,
  validate_opt (tl_limit t).
Definition validate_with (w : WithClause E) : Res unit :=
  validate_return_items (wc_items w) ≫= λ _,
  validate_sort_items (wc_order_by w) ≫= λ _,
  validate_opt (wc_skip w) ≫= λ _,
  validate_opt (wc_limit w) ≫= λ _,
  validate_opt (wc_where w).
Definition validate_intermediate_clauses (clauses : list (IntermediateClause E)) : Res unit :=
  for_each_r (λ c,
    match c with
    | IntermediateClause.With w => validate_with w
    | IntermediateClause.Unwind u => validate_expr (uc_expr u)
    | IntermediateClause.Match m =>
        validate_patterns (im_patterns m) ≫= λ _,
        validate_optional_matches (im_optional m) ≫= λ _,
        validate_opt (im_where m)
    end) clauses.
Definition validate_clause (clause : Clause E) : Res unit :=
  match clause with
  | Clause.Match patterns optional_patterns where_clause =>
      validate_patterns patterns ≫= λ _,
      validate_optional_matches optional_patterns ≫= λ _,
      validate_opt where_clause
  | Clause.Create patterns => validate_patterns patterns
  | Clause.Merge pattern on_create on_match =>
      validate_pattern pattern ≫= λ _,
      validate_set_items on_create ≫= λ _,
      validate_set_items on_match
  | Clause.With w => validate_with w
  | Clause.Unwind u => validate_expr (uc_expr u)
  | Clause.SetItems items => validate_set_items items
  | Clause.Remove _ => Ok ()
  | Clause.Call _ args _ _ _ => for_each_r validate_expr args
  | Clause.Delete exprs _ => for_each_r validate_expr exprs
  end.
End Pieces.

Fixpoint validate_expr (expr : Expr) {struct expr} : Res unit :=
  let '(mkExpr kind _) := expr in
  match kind with
  | Parameter_ name => check_param name
  | BinaryOp l _ r => validate_expr l ≫= λ _, validate_expr r
  | Not inner | IsNull inner | IsNotNull inner => validate_expr inner
  | FunctionCall _ args _ _ => for_each_r validate_expr args
  | Case operand alternatives default_ =>
      validate_opt validate_expr operand ≫= λ _,
      for_each_r (λ a : Expr * Expr, let '(cond, result) := a in
        validate_expr cond ≫= λ _, validate_expr result) alternatives ≫= λ _,
      validate_opt validate_expr default_
  | ListLit items => for_each_r validate_expr items
  | ListComprehension _ list_expr filter_ map_expr =>
      validate_expr list_expr ≫= λ _,
      validate_opt validate_expr filter_ ≫= λ _,
      validate_opt validate_expr map_expr
  | PatternComprehension _ pattern where_clause map_expr =>
      validate_pattern validate_expr pattern ≫= λ _,
      validate_opt validate_expr where_clause ≫= λ _,
      validate_expr map_expr
  | Quantifier _ _ list_expr predicate => validate_expr list_expr ≫= λ _, validate_expr predicate
  | Exists patterns where_clause =>
      for_each_r (validate_pattern validate_expr) patterns ≫= λ _,
      validate_opt validate_expr where_clause
  | ExistsSubquery s => validate_params s
  | MapLiteral pairs => for_each_r (λ p : string * Expr, let '(_, v) := p in validate_expr v) pairs
  | Index e index => validate_expr e ≫= λ _, validate_expr index
  | DotAccess e _ => validate_expr e
  | Slice e start end_ =>
      validate_expr e ≫= λ _,
      validate_opt validate_expr start ≫= λ _,
      validate_opt validate_expr end_
  | Literal _ | Property _ _ | Variable_ _ | HasLabel _ _ | PatternPredicate _ | Star => Ok ()
  end
with validate_params (stmt : Statement) {struct stmt} : Res unit :=
  match stmt with
  | SMatch m =>
      validate_patterns validate_expr (ms_patterns m) ≫= λ _,
      validate_optional_matches validate_expr (ms_optional m) ≫= λ _,
      validate_opt validate_expr (ms_where m) ≫= λ _,
      validate_intermediate_clauses validate_expr (ms_intermediate m) ≫= λ _,
      validate_return_items validate_expr (rc_items (ms_return m)) ≫= λ _,
      validate_sort_items validate_expr (ms_order_by m) ≫= λ _,
      validate_opt validate_expr (ms_skip m) ≫= λ _,
      validate_opt validate_expr (ms_limit m)
  | SCreate c =>
      validate_patterns validate_expr (cs_patterns c) ≫= λ _,
      validate_return_tail validate_expr (cs_tail c)
  | SMatchCreate mc =>
      validate_patterns validate_expr (mcs_patterns mc) ≫= λ _,
      validate_opt validate_expr (mcs_where mc) ≫= λ _,
      validate_patterns validate_expr (mcs_create mc) ≫= λ _,
      validate_return_tail validate_expr (mcs_tail mc)
  | SMatchMerge mm =>
      validate_patterns validate_expr (mms_patterns mm) ≫= λ _,
      validate_opt validate_expr (mms_where mm) ≫= λ _,
      validate_pattern validate_expr (mms_pattern mm) ≫= λ _,
      validate_set_items validate_expr (mms_on_create mm) ≫= λ _,
      validate_set_items validate_expr (mms_on_match mm) ≫= λ _,
      validate_return_tail validate_expr (mms_tail mm)
  | SDelete d =>
      validate_patterns validate_expr (ds_patterns d) ≫= λ _,
      validate_optional_matches validate_expr (ds_optional d) ≫= λ _,
      validate_opt validate_expr (ds_where d) ≫= λ _,
      for_each_r validate_expr (ds_exprs d) ≫= λ _,
      validate_return_tail validate_expr (ds_tail d)
  | SSet s =>
      validate_patterns validate_expr (ss_patterns s) ≫= λ _,
      validate_optional_matches validate_expr (ss_optional s) ≫= λ _,
      validate_opt validate_expr (ss_where s) ≫= λ _,
      validate_set_items validate_expr (ss_items s) ≫= λ _,
      validate_intermediate_clauses validate_expr (ss_intermediate s) ≫= λ _,
      validate_return_tail validate_expr (ss_tail s)
  | SRemove r =>
      validate_patterns validate_expr (rms_patterns r) ≫= λ _,
      validate_optional_matches validate_expr (rms_optional r) ≫= λ _,
      validate_opt validate_expr (rms_where r) ≫= λ _,
      validate_return_tail validate_expr (rms_tail r)
  | SMerge m =>
      validate_pattern validate_expr (mgs_pattern m) ≫= λ _,
      validate_set_items validate_expr (mgs_on_create m) ≫= λ _,
      validate_set_items validate_expr (mgs_on_match m) ≫= λ _,
      validate_return_tail validate_expr (mgs_tail m)
  | SUnwind u =>
      validate_expr (us_expr u) ≫= λ _,
      match us_body u with
      | UnwindBody.Return where_clause intermediate_clauses return_clause order_by skip limit =>
          validate_opt validate_expr where_clause ≫= λ _,
          validate_intermediate_clauses validate_expr intermediate_clauses ≫= λ _,
          validate_return_items validate_expr (rc_items return_clause) ≫= λ _,
          validate_sort_items validate_expr order_by ≫= λ _,
          validate_opt validate_expr skip ≫= λ _,
          validate_opt validate_expr limit
      | UnwindBody.Create patterns intermediate_clauses tail =>
          validate_patterns validate_expr patterns ≫= λ _,
          validate_intermediate_clauses validate_expr intermediate_clauses ≫= λ _,
          validate_return_tail validate_expr tail
      end
  | SReturn r =>
      validate_return_items validate_expr (rc_items (rs_return r)) ≫= λ _,
      validate_sort_items validate_expr (rs_order_by r) ≫= λ _,
      validate_opt validate_expr (rs_skip r) ≫= λ _,
      validate_opt validate_expr (rs_limit r)
  | SMultiClause mc =>
      for_each_r (validate_clause validate_expr) (mc_clauses mc) ≫= λ _,
      validate_return_tail validate_expr (mc_tail mc)
  | SExplain inner => validate_params inner
  | SUnion statements _ => for_each_r validate_params statements
  | SCall _ args _ _ _ tail =>
      for_each_r validate_expr args ≫= λ _,
      validate_return_tail validate_expr tail
  | SCreateIndex _ _ | SDropIndex _ _ => Ok ()
  end.
End Walk.

(** * Parameters that a statement mentions

    [kind_exprs] and [stmt_exprs] list the expressions directly inside an expression
    or a statement, in the order of the walk; from them come an induction principle
    over the nested syntax and the relation [mentions]. *)

(** ** The expressions inside each piece *)
Section Exprs.
Context {E : Type}.

Definition opt_exprs (o : option E) : list E := match o with Some e => [e] | None => [] end.
Definition props_exprs (m : gmap string E) : list E := reverse (map_to_list m).*2.
Definition element_exprs (el : PatternElement E) : list E :=
  match el with
  | PNode n => props_exprs (np_properties n)
  | PRelationship r => props_exprs (rp_properties r)
  end.
Definition pattern_exprs (p : Pattern E) : list E := pt_elements p ≫= element_exprs.
Definition om_exprs (om : OptionalMatch E) : list E :=
  (om_patterns om ≫= pattern_exprs) ++ opt_exprs (om_where om).
Definition set_item_exprs (i : SetItem E) : list E :=
  match i with
  | SetItem.Property a => [as_value a]
  | SetItem.MapOverwrite _ v | SetItem.MapMerge _ v => [v]
  | SetItem.Label _ _ => []
  end.
Definition tail_exprs (t : Tail E) : list E :=
  match tl_return t with Some rc => ri_expr <$> rc_items rc | None => [] end
  ++ (si_expr <$> tl_order_by t) ++ opt_exprs (tl_skip t) ++ opt_exprs (tl_limit t).
Definition with_exprs (w : WithClause E) : list E :=
  (ri_expr <$> wc_items w) ++ (si_expr <$> wc_order_by w)
  ++ opt_exprs (wc_skip w) ++ opt_exprs (wc_limit w) ++ opt_exprs (wc_where w).
Definition matched_exprs (ps : list (Pattern E)) (oms : list (OptionalMatch E)) (w : option E)
    : list E := (ps ≫= pattern_exprs) ++ (oms ≫= om_exprs) ++ opt_exprs w.
Definition intermediate_exprs (c : IntermediateClause E) : list E :=
  match c with
  | IntermediateClause.With w => with_exprs w
  | IntermediateClause.Unwind u => [uc_expr u]
  | IntermediateClause.Match m => matched_exprs (im_patterns m) (im_optional m) (im_where m)
  end.
Definition clause_exprs (c : Clause E) : list E :=
  match c with
  | Clause.Match ps oms w => matched_exprs ps oms w
  | Clause.Create ps => ps ≫= pattern_exprs
  | Clause.Merge p on_create on_match =>
      pattern_exprs p ++ (on_create ≫= set_item_exprs) ++ (on_match ≫= set_item_exprs)
  | Clause.With w => with_exprs w
  | Clause.Unwind u => [uc_expr u]
  | Clause.SetItems items => items ≫= set_item_exprs
  | Clause.Remove _ => []
  | Clause.Call _ args _ _ _ => args
  | Clause.Delete exprs _ => exprs
  end.
End Exprs.

(** A pattern used as a predicate is left out, as in the code. *)
Definition kind_exprs (k : ExprKind) : list Expr :=
  match k with
  | BinaryOp l _ r => [l; r]
  | Not e | IsNull e | IsNotNull e | DotAccess e _ => [e]
  | FunctionCall _ args _ _ => args
  | Case operand alternatives default_ =>
      opt_exprs operand ++ (alternatives ≫= λ a, [a.1; a.2]) ++ opt_exprs default_
  | ListLit items => items
  | ListComprehension _ e f m => e :: opt_exprs f ++ opt_exprs m
  | PatternComprehension _ p w m => pattern_exprs p ++ opt_exprs w ++ [m]
  | Quantifier _ _ e p => [e; p]
  | Exists ps w => (ps ≫= pattern_exprs) ++ opt_exprs w
  | MapLiteral pairs => pairs.*2
  | Index e i => [e; i]
  | Slice e s t => e :: opt_exprs s ++ opt_exprs t
  | _ => []
  end.
Definition kind_stmts (k : ExprKind) : list Statement :=
  match k with ExistsSubquery s => [s] | _ => [] end.

Definition stmt_exprs (s : Statement) : list Expr :=
  match s with
  | SMatch m =>
      matched_exprs (ms_patterns m) (ms_optional m) (ms_where m)
      ++ (ms_intermediate m ≫= intermediate_exprs) ++ (ri_expr <$> rc_items (ms_return m))
      ++ (si_expr <$> ms_order_by m) ++ opt_exprs (ms_skip m) ++ opt_exprs (ms_limit m)
  | SCreate c => (cs_patterns c ≫= pattern_exprs) ++ tail_exprs (cs_tail c)
  | SMatchCreate mc =>
      (mcs_patterns mc ≫= pattern_exprs) ++ opt_exprs (mcs_where mc)
      ++ (mcs_create mc ≫= pattern_exprs) ++ tail_exprs (mcs_tail mc)
  | SMatchMerge mm =>
      (mms_patterns mm ≫= pattern_exprs) ++ opt_exprs (mms_where mm) ++ pattern_exprs (mms_pattern mm)
      ++ (mms_on_create mm ≫= set_item_exprs) ++ (mms_on_match mm ≫= set_item_exprs)
      ++ tail_exprs (mms_tail mm)
  | SDelete d =>
      matched_exprs (ds_patterns d) (ds_optional d) (ds_where d) ++ ds_exprs d ++ tail_exprs (ds_tail d)
  | SSet s =>
      matched_exprs (ss_patterns s) (ss_optional s) (ss_where s) ++ (ss_items s ≫= set_item_exprs)
      ++ (ss_intermediate s ≫= intermediate_exprs) ++ tail_exprs (ss_tail s)
  | SRemove r => matched_exprs (rms_patterns r) (rms_optional r) (rms_where r) ++ tail_exprs (rms_tail r)
  | SMerge m =>
      pattern_exprs (mgs_pattern m) ++ (mgs_on_create m ≫= set_item_exprs)
      ++ (mgs_on_match m ≫= set_item_exprs) ++ tail_exprs (mgs_tail m)
  | SUnwind u =>
      us_expr u ::
      match us_body u with
      | UnwindBody.Return w ic rc ob sk li =>
          opt_exprs w ++ (ic ≫= intermediate_exprs) ++ (ri_expr <$> rc_items rc)
          ++ (si_expr <$> ob) ++ opt_exprs sk ++ opt_exprs li
      | UnwindBody.Create ps ic t =>
          (ps ≫= pattern_exprs) ++ (ic ≫= intermediate_exprs) ++ tail_exprs t
      end
  | SReturn r =>
      (ri_expr <$> rc_items (rs_return r)) ++ (si_expr <$> rs_order_by r)
      ++ opt_exprs (rs_skip r) ++ opt_exprs (rs_limit r)
  | SMultiClause mc => (mc_clauses mc ≫= clause_exprs) ++ tail_exprs (mc_tail mc)
  | SCall _ args _ _ _ t => args ++ tail_exprs t
  | SExplain _ | SUnion _ _ | SCreateIndex _ _ | SDropIndex _ _ => []
  end.
Definition stmt_stmts (s : Statement) : list Statement :=
  match s with SExplain i => [i] | SUnion ss _ => ss | _ => [] end.

(** The parameters a statement or expression contains. *)
Inductive mentions (p : string) : Expr → Prop :=
| me_param s : mentions p (mkExpr (Parameter_ p) s)
| me_expr k s c : c ∈ kind_exprs k → mentions p c → mentions p (mkExpr k s)
| me_stmt k s st : st ∈ kind_stmts k → stmt_mentions p st → mentions p (mkExpr k s)
with stmt_mentions (p : string) : Statement → Prop :=
| sm_expr s c : c ∈ stmt_exprs s → mentions p c → stmt_mentions p s
| sm_stmt s st : st ∈ stmt_stmts s → stmt_mentions p st → stmt_mentions p s.

(** ** The walk visits these expressions *)
Lemma for_each_r_app {E A} (f : A → result E unit) l k :
  for_each_r f (l ++ k) = (for_each_r f l ≫= λ _, for_each_r f k).
Proof. induction l as [|x l IH]; [done|]. cbn. destruct (f x); cbn; [apply IH|done..]. Qed.
Lemma for_each_r_bind {E A B} (f : B → result E unit) (g : A → list B) h l :
  (∀ x, h x = for_each_r f (g x)) → for_each_r h l = for_each_r f (l ≫= g).
Proof.
  intros H. induction l as [|x l IH]; [done|]. cbn. rewrite for_each_r_app, H. by rewrite <- IH.
Qed.
Lemma for_each_r_fmap {E A B} (f : B → result E unit) (g : A → B) l :
  for_each_r (λ x, f (g x)) l = for_each_r f (g <$> l).
Proof. induction l as [|x l IH]; [done|]. cbn. destruct (f (g x)); cbn; [apply IH|done..]. Qed.
Lemma bind_unit {E} (m : result E unit) : (m ≫= λ _, Ok ()) = m.
Proof. by destruct m as [[]| |]. Qed.
Lemma bind_assoc {E A B C} (m : result E A) (f : A → result E B) (g : B → result E C) :
  ((m ≫= f) ≫= g) = (m ≫= λ x, f x ≫= g).
Proof. by destruct m. Qed.

Section Pieces.
Context {E : Type} (f : E → Res unit).

Lemma validate_opt_each o : validate_opt f o = for_each_r f (opt_exprs o).
Proof. destruct o; [|done]. cbn. by rewrite bind_unit. Qed.
Lemma validate_props_each m : validate_props f m = for_each_r f (props_exprs m).
Proof.
  unfold validate_props, props_exprs. rewrite map_fold_foldr.
  induction (map_to_list m) as [|[k v] l IH]; [done|]. cbn [foldr fmap list_fmap uncurry snd].
  rewrite reverse_cons, for_each_r_app. cbn. by rewrite bind_unit, <- IH.
Qed.
Lemma validate_pattern_each p : validate_pattern f p = for_each_r f (pattern_exprs p).
Proof. apply for_each_r_bind. intros [n|r]; apply validate_props_each. Qed.
Lemma validate_patterns_each ps : validate_patterns f ps = for_each_r f (ps ≫= pattern_exprs).
Proof. apply for_each_r_bind, validate_pattern_each. Qed.
Lemma validate_om_each oms : validate_optional_matches f oms = for_each_r f (oms ≫= om_exprs).
Proof.
  apply for_each_r_bind. intros om. unfold validate_optional_match, om_exprs.
  by rewrite validate_patterns_each, validate_opt_each, for_each_r_app.
Qed.
Lemma validate_set_each its : validate_set_items f its = for_each_r f (its ≫= set_item_exprs).
Proof. apply for_each_r_bind. intros []; cbn; by rewrite ?bind_unit. Qed.
Lemma validate_ret_each its : validate_return_items f its = for_each_r f (ri_expr <$> its).
Proof. apply for_each_r_fmap. Qed.
Lemma validate_sort_each its : validate_sort_items f its = for_each_r f (si_expr <$> its).
Proof. apply for_each_r_fmap. Qed.
Lemma validate_tail_each t : validate_return_tail f t = for_each_r f (tail_exprs t).
Proof.
  unfold validate_return_tail, tail_exprs.
  rewrite !for_each_r_app, validate_sort_each, !validate_opt_each.
  destruct (tl_return t); [by rewrite validate_ret_each|done].
Qed.
Lemma validate_with_each w : validate_with f w = for_each_r f (with_exprs w).
Proof.
  unfold validate_with, with_exprs.
  by rewrite !for_each_r_app, validate_ret_each, validate_sort_each, !validate_opt_each.
Qed.
Lemma validate_matched_each ps oms w :
  (validate_patterns f ps ≫= λ _, validate_optional_matches f oms ≫= λ _, validate_opt f w)
  = for_each_r f (matched_exprs ps oms w).
Proof.
  unfold matched_exprs. by rewrite !for_each_r_app, validate_patterns_each, validate_om_each,
    validate_opt_each.
Qed.
Lemma validate_inter_each cs :
  validate_intermediate_clauses f cs = for_each_r f (cs ≫= intermediate_exprs).
Proof.
  apply for_each_r_bind. intros [w|u|m]; cbn [intermediate_exprs].
  - apply validate_with_each.
  - cbn. by rewrite bind_unit.
  - apply validate_matched_each.
Qed.
Lemma validate_clauses_each cs :
  for_each_r (validate_clause f) cs = for_each_r f (cs ≫= clause_exprs).
Proof.
  apply for_each_r_bind. intros []; cbn [validate_clause clause_exprs].
  - apply validate_matched_each.
  - apply validate_patterns_each.
  - by rewrite !for_each_r_app, validate_pattern_each, !validate_set_each.
  - apply validate_with_each.
  - cbn. by rewrite bind_unit.
  - apply validate_set_each.
  - done.
  - done.
  - done.
Qed.
End Pieces.

Create Rewrite HintDb walk.
#[local] Hint Rewrite @for_each_r_app @validate_opt_each @validate_pattern_each
  @validate_patterns_each @validate_om_each @validate_set_each @validate_ret_each
  @validate_sort_each @validate_tail_each @validate_inter_each @validate_clauses_each
  @bind_assoc : walk.

(** One step of the walk. *)
Lemma validate_expr_step params k s :
  validate_expr params (mkExpr k s)
  = match k with
    | Parameter_ n => check_param params n
    | _ => for_each_r (validate_expr params) (kind_exprs k) ≫= λ _,
           for_each_r (validate_params params) (kind_stmts k)
    end.
Proof.
  destruct k; cbn [validate_expr kind_exprs kind_stmts]; unfold matched_exprs;
    autorewrite with walk; cbn [for_each_r]; rewrite ?bind_unit; try done.
  - f_equal. f_equal.
    rewrite (for_each_r_bind (validate_expr params) (λ a : Expr * Expr, [a.1; a.2])); [done|].
    intros [c r]. cbn. by rewrite bind_unit.
  - destruct (validate_expr params list_expr); [|done..]. cbn. by rewrite for_each_r_app.
  - by rewrite (for_each_r_bind (validate_expr params) pattern_exprs)
      by apply validate_pattern_each.
  - induction pairs as [|[k v] pairs IH]; [done|]. cbn.
    destruct (validate_expr params v); [apply IH|done..].
  - destruct (validate_expr params e); [|done..]. cbn. by rewrite for_each_r_app.
Qed.

Lemma validate_params_step params s :
  validate_params params s
  = (for_each_r (validate_expr params) (stmt_exprs s) ≫= λ _,
     for_each_r (validate_params params) (stmt_stmts s)).
Proof.
  destruct s; cbn [validate_params stmt_exprs stmt_stmts]; unfold matched_exprs;
    autorewrite with walk; cbn [for_each_r]; rewrite ?bind_unit; try done.
  destruct (us_body u); autorewrite with walk; cbn [for_each_r];
    (destruct (validate_expr params (us_expr u)); [|done..]); cbn; autorewrite with walk; done.
Qed.

(** ** Induction over the nested syntax *)
Lemma list_vsize_app {A} (f : A → nat) l k :
  list_vsize f (l ++ k) = list_vsize f l + list_vsize f k.
Proof. unfold list_vsize. induction l; cbn; lia. Qed.
Lemma list_vsize_bind {A B} (f : B → nat) (g : A → list B) h l :
  (∀ x, h x = list_vsize f (g x)) → list_vsize h l = list_vsize f (l ≫= g).
Proof.
  intros H. induction l as [|x l IH]; [done|]. rewrite bind_cons, list_vsize_app, <- H, <- IH. done.
Qed.
Lemma list_vsize_fmap {A B} (f : B → nat) (g : A → B) l :
  list_vsize (λ x, f (g x)) l = list_vsize f (g <$> l).
Proof. unfold list_vsize. induction l; cbn; congruence. Qed.

Lemma list_vsize_ext {A} (f g : A → nat) l : (∀ x, f x = g x) → list_vsize f l = list_vsize g l.
Proof. intros H. unfold list_vsize. induction l; cbn; congruence. Qed.

Section Sums.
Context {E : Type} (f : E → nat).

Definition opt_sum (o : option E) : nat := match o with Some e => f e | None => 0 end.
Definition pattern_sum (p : Pattern E) : nat :=
  list_vsize (λ el, match el with
                    | PNode n => props_vsize f (np_properties n)
                    | PRelationship r => props_vsize f (rp_properties r)
                    end) (pt_elements p).
Definition om_sum (om : OptionalMatch E) : nat :=
  list_vsize pattern_sum (om_patterns om) + opt_sum (om_where om).
Definition set_item_sum (i : SetItem E) : nat :=
  match i with
  | SetItem.Property a => f (as_value a)
  | SetItem.MapOverwrite _ v | SetItem.MapMerge _ v => f v
  | SetItem.Label _ _ => 0
  end.
Definition items_sum (l : list (ReturnItem E)) : nat := list_vsize (λ i, f (ri_expr i)) l.
Definition sort_sum (l : list (SortItem E)) : nat := list_vsize (λ i, f (si_expr i)) l.
Definition tail_sum (t : Tail E) : nat :=
  match tl_return t with Some rc => items_sum (rc_items rc) | None => 0 end
  + (sort_sum (tl_order_by t) + (opt_sum (tl_skip t) + opt_sum (tl_limit t))).
Definition with_sum (w : WithClause E) : nat :=
  items_sum (wc_items w) + (sort_sum (wc_order_by w)
  + (opt_sum (wc_skip w) + (opt_sum (wc_limit w) + opt_sum (wc_where w)))).
Definition matched_sum (ps : list (Pattern E)) (oms : list (OptionalMatch E)) (w : option E) : nat :=
  list_vsize pattern_sum ps + (list_vsize om_sum oms + opt_sum w).
Definition inter_sum (c : IntermediateClause E) : nat :=
  match c with
  | IntermediateClause.With w => with_sum w
  | IntermediateClause.Unwind u => f (uc_expr u)
  | IntermediateClause.Match m => matched_sum (im_patterns m) (im_optional m) (im_where m)
  end.
Definition clause_sum (c : Clause E) : nat :=
  match c with
  | Clause.Match ps oms w => matched_sum ps oms w
  | Clause.Create ps => list_vsize pattern_sum ps
  | Clause.Merge p on_create on_match =>
      pattern_sum p + (list_vsize set_item_sum on_create + list_vsize set_item_sum on_match)
  | Clause.With w => with_sum w
  | Clause.Unwind u => f (uc_expr u)
  | Clause.SetItems items => list_vsize set_item_sum items
  | Clause.Remove _ => 0
  | Clause.Call _ args _ _ _ => list_vsize f args
  | Clause.Delete exprs _ => list_vsize f exprs
  end.

Lemma list_vsize_one x : list_vsize f [x] = f x.
Proof. cbn. lia. Qed.
Lemma opt_sum_list o : opt_sum o = list_vsize f (opt_exprs o).
Proof. destruct o; cbn; lia. Qed.
Lemma props_sum_list m : props_vsize f m = list_vsize f (props_exprs m).
Proof.
  unfold props_vsize, props_exprs. rewrite map_fold_foldr.
  induction (map_to_list m) as [|[k v] l IH]; [done|]. cbn [foldr fmap list_fmap uncurry snd].
  rewrite reverse_cons, list_vsize_app, list_vsize_one, <- IH. cbn. lia.
Qed.
Lemma pattern_sum_list p : pattern_sum p = list_vsize f (pattern_exprs p).
Proof. apply list_vsize_bind. intros []; apply props_sum_list. Qed.
Lemma patterns_sum_list ps : list_vsize pattern_sum ps = list_vsize f (ps ≫= pattern_exprs).
Proof. apply list_vsize_bind, pattern_sum_list. Qed.
Lemma om_sum_list oms : list_vsize om_sum oms = list_vsize f (oms ≫= om_exprs).
Proof.
  apply list_vsize_bind. intros om. unfold om_sum, om_exprs.
  by rewrite list_vsize_app, patterns_sum_list, opt_sum_list.
Qed.
Lemma set_sum_list l : list_vsize set_item_sum l = list_vsize f (l ≫= set_item_exprs).
Proof. apply list_vsize_bind. intros []; cbn; lia. Qed.
Lemma items_sum_list l : items_sum l = list_vsize f (ri_expr <$> l).
Proof. apply list_vsize_fmap. Qed.
Lemma sort_sum_list l : sort_sum l = list_vsize f (si_expr <$> l).
Proof. apply list_vsize_fmap. Qed.
Lemma tail_sum_list t : tail_sum t = list_vsize f (tail_exprs t).
Proof.
  unfold tail_sum, tail_exprs. rewrite !list_vsize_app, sort_sum_list, !opt_sum_list.
  destruct (tl_return t); [by rewrite items_sum_list|done].
Qed.
Lemma with_sum_list w : with_sum w = list_vsize f (with_exprs w).
Proof.
  unfold with_sum, with_exprs. by rewrite !list_vsize_app, items_sum_list, sort_sum_list, !opt_sum_list.
Qed.
Lemma matched_sum_list ps oms w : matched_sum ps oms w = list_vsize f (matched_exprs ps oms w).
Proof.
  unfold matched_sum, matched_exprs.
  by rewrite !list_vsize_app, patterns_sum_list, om_sum_list, opt_sum_list.
Qed.
Lemma inter_sum_list l : list_vsize inter_sum l = list_vsize f (l ≫= intermediate_exprs).
Proof.
  apply list_vsize_bind. intros []; cbn [inter_sum intermediate_exprs];
    [apply with_sum_list|cbn; lia|apply matched_sum_list].
Qed.
Lemma clause_sum_list l : list_vsize clause_sum l = list_vsize f (l ≫= clause_exprs).
Proof.
  apply list_vsize_bind. intros []; cbn [clause_sum clause_exprs]; try done.
  - apply matched_sum_list.
  - apply patterns_sum_list.
  - by rewrite !list_vsize_app, pattern_sum_list, !set_sum_list.
  - apply with_sum_list.
  - apply set_sum_list.
Qed.
End Sums.

Fixpoint esize (e : Expr) : nat :=
  let '(mkExpr k _) := e in
  S match k with
    | BinaryOp a _ b | Index a b | Quantifier _ _ a b => esize a + esize b
    | Not a | IsNull a | IsNotNull a | DotAccess a _ => esize a
    | FunctionCall _ l _ _ | ListLit l => list_vsize esize l
    | Case o l d =>
        opt_sum esize o + (list_vsize (λ a : Expr * Expr, let '(x, y) := a in esize x + esize y) l
                           + opt_sum esize d)
    | ListComprehension _ a o1 o2 | Slice a o1 o2 => esize a + (opt_sum esize o1 + opt_sum esize o2)
    | PatternComprehension _ p o a => pattern_sum esize p + (opt_sum esize o + esize a)
    | Exists ps o => list_vsize (pattern_sum esize) ps + opt_sum esize o
    | ExistsSubquery s => ssize s
    | MapLiteral l => list_vsize (λ a : string * Expr, let '(_, x) := a in esize x) l
    | _ => 0
    end
with ssize (s : Statement) : nat :=
  S match s with
    | SMatch m =>
        matched_sum esize (ms_patterns m) (ms_optional m) (ms_where m)
        + (list_vsize (inter_sum esize) (ms_intermediate m)
           + (items_sum esize (rc_items (ms_return m)) + (sort_sum esize (ms_order_by m)
              + (opt_sum esize (ms_skip m) + opt_sum esize (ms_limit m)))))
    | SCreate c => list_vsize (pattern_sum esize) (cs_patterns c) + tail_sum esize (cs_tail c)
    | SMatchCreate mc =>
        list_vsize (pattern_sum esize) (mcs_patterns mc) + (opt_sum esize (mcs_where mc)
        + (list_vsize (pattern_sum esize) (mcs_create mc) + tail_sum esize (mcs_tail mc)))
    | SMatchMerge mm =>
        list_vsize (pattern_sum esize) (mms_patterns mm) + (opt_sum esize (mms_where mm)
        + (pattern_sum esize (mms_pattern mm) + (list_vsize (set_item_sum esize) (mms_on_create mm)
        + (list_vsize (set_item_sum esize) (mms_on_match mm) + tail_sum esize (mms_tail mm)))))
    | SDelete d =>
        matched_sum esize (ds_patterns d) (ds_optional d) (ds_where d)
        + (list_vsize esize (ds_exprs d) + tail_sum esize (ds_tail d))
    | SSet x =>
        matched_sum esize (ss_patterns x) (ss_optional x) (ss_where x)
        + (list_vsize (set_item_sum esize) (ss_items x)
           + (list_vsize (inter_sum esize) (ss_intermediate x) + tail_sum esize (ss_tail x)))
    | SRemove r =>
        matched_sum esize (rms_patterns r) (rms_optional r) (rms_where r) + tail_sum esize (rms_tail r)
    | SMerge m =>
        pattern_sum esize (mgs_pattern m) + (list_vsize (set_item_sum esize) (mgs_on_create m)
        + (list_vsize (set_item_sum esize) (mgs_on_match m) + tail_sum esize (mgs_tail m)))
    | SUnwind u =>
        esize (us_expr u)
        + match us_body u with
          | UnwindBody.Return w ic rc ob sk li =>
              opt_sum esize w + (list_vsize (inter_sum esize) ic + (items_sum esize (rc_items rc)
              + (sort_sum esize ob + (opt_sum esize sk + opt_sum esize li))))
          | UnwindBody.Create ps ic t =>
              list_vsize (pattern_sum esize) ps + (list_vsize (inter_sum esize) ic + tail_sum esize t)
          end
    | SReturn r =>
        items_sum esize (rc_items (rs_return r)) + (sort_sum esize (rs_order_by r)
        + (opt_sum esize (rs_skip r) + opt_sum esize (rs_limit r)))
    | SMultiClause mc => list_vsize (clause_sum esize) (mc_clauses mc) + tail_sum esize (mc_tail mc)
    | SCall _ args _ _ _ t => list_vsize esize args + tail_sum esize t
    | SExplain i => ssize i
    | SUnion l _ => list_vsize ssize l
    | SCreateIndex _ _ | SDropIndex _ _ => 0
    end.

Lemma list_vsize_cons {A} (f : A → nat) x l : list_vsize f (x :: l) = f x + list_vsize f l.
Proof. done. Qed.
Lemma list_vsize_nil {A} (f : A → nat) : list_vsize f [] = 0.
Proof. done. Qed.

Create Rewrite HintDb sums.
#[local] Hint Rewrite @list_vsize_app @opt_sum_list @pattern_sum_list @patterns_sum_list
  @om_sum_list @set_sum_list @items_sum_list @sort_sum_list @tail_sum_list @with_sum_list
  @matched_sum_list @inter_sum_list @clause_sum_list @list_vsize_cons @list_vsize_nil : sums.
#[local] Arguments list_vsize : simpl never.

Lemma esize_step k s :
  esize (mkExpr k s) = S (list_vsize esize (kind_exprs k) + list_vsize ssize (kind_stmts k)).
Proof.
  destruct k; cbn [esize kind_exprs kind_stmts]; autorewrite with sums; try lia.
  - rewrite (list_vsize_bind esize (λ a : Expr * Expr, [a.1; a.2])); [lia|].
    intros []. cbn. autorewrite with sums. lia.
  - rewrite <- list_vsize_fmap. f_equal. rewrite Nat.add_0_r. apply list_vsize_ext. by intros [].
Qed.
Lemma ssize_step s :
  ssize s = S (list_vsize esize (stmt_exprs s) + list_vsize ssize (stmt_stmts s)).
Proof.
  destruct s; cbn [ssize stmt_exprs stmt_stmts]; autorewrite with sums; try lia.
  destruct (us_body u); autorewrite with sums; lia.
Qed.

Lemma syntax_ind (P : Expr → Prop) (Q : Statement → Prop) :
  (∀ k s, (∀ c, c ∈ kind_exprs k → P c) → (∀ st, st ∈ kind_stmts k → Q st) → P (mkExpr k s)) →
  (∀ s, (∀ c, c ∈ stmt_exprs s → P c) → (∀ st, st ∈ stmt_stmts s → Q st) → Q s) →
  (∀ e, P e) ∧ (∀ s, Q s).
Proof.
  intros HP HQ.
  assert (∀ n, (∀ e, esize e < n → P e) ∧ (∀ s, ssize s < n → Q s)) as H.
  2:{ split; [intros e|intros s]; eapply H; apply Nat.lt_succ_diag_r. }
  induction n as [|n [IHe IHs]]; [split; intros; lia|]. split.
  - intros [k s] Hn. rewrite esize_step in Hn. apply HP.
    + intros c Hc. apply IHe. pose proof (foldr_sum_elem esize _ _ Hc). unfold list_vsize in Hn. lia.
    + intros st Hc. apply IHs. pose proof (foldr_sum_elem ssize _ _ Hc). unfold list_vsize in Hn. lia.
  - intros s Hn. rewrite ssize_step in Hn. apply HQ.
    + intros c Hc. apply IHe. pose proof (foldr_sum_elem esize _ _ Hc). unfold list_vsize in Hn. lia.
    + intros st Hc. apply IHs. pose proof (foldr_sum_elem ssize _ _ Hc). unfold list_vsize in Hn. lia.
Qed.

(** ** The theorem's two halves *)
Section Params.
Context (params : gmap string value).

(** The result of a check of some of the parameters [M]. *)
Definition checked (M : string → Prop) (r : Res unit) : Prop :=
  (r = Ok () ∧ ∀ p, M p → is_Some (params !! p))
  ∨ ∃ p, M p ∧ params !! p = None ∧ r = Err (missing_parameter p).

Lemma checked_each {A} (f : A → Res unit) (N : A → string → Prop) l :
  (∀ x, x ∈ l → checked (N x) (f x)) →
  checked (λ p, ∃ x, x ∈ l ∧ N x p) (for_each_r f l).
Proof.
  induction l as [|x l IH]; intros H.
  { left. split; [done|]. intros p (x & Hx & _). by apply not_elem_of_nil in Hx. }
  cbn [for_each_r]. destruct (H x ltac:(left)) as [[-> Hx]|(p & Hp & Hn & ->)]; cbn [mbind result_bind].
  - destruct IH as [[-> Hl]|(p & (y & Hy & Hp) & Hn & ->)]; [intros; apply H; by right|..].
    + left. split; [done|]. intros p (y & [->|Hy]%elem_of_cons & Hp); eauto.
    + right. exists p. split_and!; [|done..]. exists y. split; [by right|done].
  - right. exists p. split_and!; [|done..]. exists x. split; [left|done].
Qed.
Lemma checked_seq M1 M2 r1 r2 :
  checked M1 r1 → checked M2 r2 → checked (λ p, M1 p ∨ M2 p) (r1 ≫= λ _, r2).
Proof.
  intros [[-> H1]|(p & Hp & Hn & ->)] H; cbn [mbind result_bind]; [|right; eauto].
  destruct H as [[-> H2]|(p & Hp & Hn & ->)]; [left; naive_solver|right; eauto].
Qed.
Lemma checked_iff M M' r : (∀ p, M p ↔ M' p) → checked M r → checked M' r.
Proof. unfold checked. naive_solver. Qed.

Lemma validate_checked :
  (∀ e, checked (λ p, mentions p e) (validate_expr params e))
  ∧ (∀ s, checked (λ p, stmt_mentions p s) (validate_params params s)).
Proof.
  apply syntax_ind.
  - intros k s IHe IHs. rewrite validate_expr_step.
    pose proof (checked_seq _ _ _ _ (checked_each _ (λ e p, mentions p e) _ IHe)
      (checked_each _ (λ s p, stmt_mentions p s) _ IHs)) as H.
    destruct k as [| | |n | | | | | | | | | | | | | | | | | | |];
      try (eapply checked_iff; [|exact H]; intros q; split;
        [intros [(x & Hx & Hp)|(x & Hx & Hp)]; [by eapply me_expr|by eapply me_stmt]
        |inversion 1; subst; eauto]).
    unfold check_param, checked. case_bool_decide as Hb.
    + left. split; [done|]. intros p. inversion 1; subst; [done|set_solver..].
    + right. exists n. split_and!; [constructor|by apply eq_None_not_Some|done].
  - intros s IHe IHs. rewrite validate_params_step.
    eapply checked_iff; [|exact (checked_seq _ _ _ _ (checked_each _ (λ e p, mentions p e) _ IHe)
      (checked_each _ (λ s p, stmt_mentions p s) _ IHs))].
    intros p. split; [|inversion 1; subst; eauto].
    intros [(x & Hx & Hp)|(x & Hx & Hp)]; [by eapply sm_expr|by eapply sm_stmt].
Qed.
End Params.
