(* ===== verification/Caches.v ===== *)
(** * Caches: which plans may be cached, and the caches themselves *)
From S2P Require Export Params.

(** * Which plans may be cached: src/src/cypher/plan_cache.rs

    The planner evaluates SKIP and LIMIT while it plans, and looks procedures up, so
    a statement whose bounds depend on a parameter, or that calls a procedure, must
    be planned every time.  [is_plan_cacheable] decides this on the syntax. *)

Definition expr_opt {E} (f : E → bool) (e : option E) : bool :=
  match e with Some e => f e | None => false end.

Fixpoint expr_has_param (expr : Expr) {struct expr} : bool :=
  let '(mkExpr kind _) := expr in
  match kind with
  | Parameter_ _ => true
  | BinaryOp l _ r => expr_has_param l || expr_has_param r
  | Not e | IsNull e | IsNotNull e => expr_has_param e
  | FunctionCall _ args _ _ => existsb expr_has_param args
  | Case operand alternatives default_ =>
      expr_opt expr_has_param operand
      || existsb (λ a : Expr * Expr, let '(c, r) := a in expr_has_param c || expr_has_param r)
           alternatives
      || expr_opt expr_has_param default_
  | ListLit items => existsb expr_has_param items
  | ListComprehension _ list_expr filter_ map_expr =>
      expr_has_param list_expr || expr_opt expr_has_param filter_
      || expr_opt expr_has_param map_expr
  | PatternComprehension _ _ where_clause map_expr =>
      expr_opt expr_has_param where_clause || expr_has_param map_expr
  | Quantifier _ _ list_expr predicate => expr_has_param list_expr || expr_has_param predicate
  | Exists _ where_clause => expr_opt expr_has_param where_clause
  | ExistsSubquery _ => false
  | MapLiteral pairs => existsb (λ p : string * Expr, let '(_, v) := p in expr_has_param v) pairs
  | Index e index => expr_has_param e || expr_has_param index
  | DotAccess e _ => expr_has_param e
  | Slice e start end_ =>
      expr_has_param e || expr_opt expr_has_param start || expr_opt expr_has_param end_
  | Literal _ | Property _ _ | Variable_ _ | HasLabel _ _ | PatternPredicate _ | Star => false
  end.

Definition expr_opt_has_param (e : option Expr) : bool := expr_opt expr_has_param e.
Definition skip_limit_has_param (skip limit : option Expr) : bool :=
  expr_opt_has_param skip || expr_opt_has_param limit.
Definition intermediates_block_caching (clauses : list (IntermediateClause Expr)) : bool :=
  existsb (λ c,
    match c with
    | IntermediateClause.With w => skip_limit_has_param (wc_skip w) (wc_limit w)
    | _ => false
    end) clauses.
Definition clause_blocks_caching (clause : Clause Expr) : bool :=
  match clause with
  | Clause.Call _ _ _ _ _ => true
  | Clause.With w => skip_limit_has_param (wc_skip w) (wc_limit w)
  | _ => false
  end.
Definition tail_has_param (t : Tail Expr) : bool := skip_limit_has_param (tl_skip t) (tl_limit t).

Fixpoint is_plan_cacheable (stmt : Statement) {struct stmt} : bool :=
  match stmt with
  | SCall _ _ _ _ _ _ | SCreateIndex _ _ | SDropIndex _ _ => false
  | SExplain inner => is_plan_cacheable inner
  | SUnion statements _ => forallb is_plan_cacheable statements
  | SMatch m =>
      negb (skip_limit_has_param (ms_skip m) (ms_limit m))
      && negb (intermediates_block_caching (ms_intermediate m))
  | SCreate c => negb (tail_has_param (cs_tail c))
  | SMatchCreate mc => negb (tail_has_param (mcs_tail mc))
  | SMatchMerge mm => negb (tail_has_param (mms_tail mm))
  | SDelete d => negb (tail_has_param (ds_tail d))
  | SSet s =>
      negb (tail_has_param (ss_tail s)) && negb (intermediates_block_caching (ss_intermediate s))
  | SRemove r => negb (tail_has_param (rms_tail r))
  | SMerge m => negb (tail_has_param (mgs_tail m))
  | SUnwind u =>
      match us_body u with
      | UnwindBody.Return _ intermediate_clauses _ _ skip limit =>
          negb (skip_limit_has_param skip limit)
          && negb (intermediates_block_caching intermediate_clauses)
      | UnwindBody.Create _ intermediate_clauses tail =>
          negb (tail_has_param tail) && negb (intermediates_block_caching intermediate_clauses)
      end
  | SReturn r => negb (skip_limit_has_param (rs_skip r) (rs_limit r))
  | SMultiClause mc =>
      negb (tail_has_param (mc_tail mc))
      && forallb (λ c, negb (clause_blocks_caching c)) (mc_clauses mc)
  end.

(** ** What the check looks at

    [bare_mentions]: the parameters a bound contains, outside of the patterns of a
    pattern comprehension or EXISTS and outside of subqueries. *)
Definition bare_exprs (k : ExprKind) : list Expr :=
  match k with
  | PatternComprehension _ _ w m => opt_exprs w ++ [m]
  | Exists _ w => opt_exprs w
  | _ => kind_exprs k
  end.
Inductive bare_mentions (p : string) : Expr → Prop :=
| bm_param s : bare_mentions p (mkExpr (Parameter_ p) s)
| bm_expr k s c : c ∈ bare_exprs k → bare_mentions p c → bare_mentions p (mkExpr k s).

(** The SKIP and LIMIT expressions of a statement. *)
Definition inter_bounds {E} (c : IntermediateClause E) : list E :=
  match c with
  | IntermediateClause.With w => opt_exprs (wc_skip w) ++ opt_exprs (wc_limit w)
  | _ => []
  end.
Definition clause_bounds {E} (c : Clause E) : list E :=
  match c with Clause.With w => opt_exprs (wc_skip w) ++ opt_exprs (wc_limit w) | _ => [] end.
Definition tail_bounds {E} (t : Tail E) : list E := opt_exprs (tl_skip t) ++ opt_exprs (tl_limit t).
Definition own_bounds (s : Statement) : list Expr :=
  match s with
  | SMatch m =>
      (opt_exprs (ms_skip m) ++ opt_exprs (ms_limit m)) ++ (ms_intermediate m ≫= inter_bounds)
  | SCreate c => tail_bounds (cs_tail c)
  | SMatchCreate mc => tail_bounds (mcs_tail mc)
  | SMatchMerge mm => tail_bounds (mms_tail mm)
  | SDelete d => tail_bounds (ds_tail d)
  | SSet s => tail_bounds (ss_tail s) ++ (ss_intermediate s ≫= inter_bounds)
  | SRemove r => tail_bounds (rms_tail r)
  | SMerge m => tail_bounds (mgs_tail m)
  | SUnwind u =>
      match us_body u with
      | UnwindBody.Return _ ic _ _ sk li => (opt_exprs sk ++ opt_exprs li) ++ (ic ≫= inter_bounds)
      | UnwindBody.Create _ ic t => tail_bounds t ++ (ic ≫= inter_bounds)
      end
  | SReturn r => opt_exprs (rs_skip r) ++ opt_exprs (rs_limit r)
  | SMultiClause mc => tail_bounds (mc_tail mc) ++ (mc_clauses mc ≫= clause_bounds)
  | _ => []
  end.

(** Statements whose plan depends on the procedures, or is run once. *)
Definition own_uncacheable (s : Statement) : bool :=
  match s with
  | SCall _ _ _ _ _ _ | SCreateIndex _ _ | SDropIndex _ _ => true
  | SMultiClause mc =>
      existsb (λ c, match c with Clause.Call _ _ _ _ _ => true | _ => false end) (mc_clauses mc)
  | _ => false
  end.

(** The parts of a statement that are planned: UNION and EXPLAIN are unfolded. *)
Inductive part : Statement → Statement → Prop :=
| part_self s : part s s
| part_sub s t u : t ∈ stmt_stmts s → part t u → part s u.

(** ** The check looks at exactly that *)
Lemma existsb_elem {A} (f : A → bool) l : existsb f l = true ↔ ∃ x, x ∈ l ∧ f x = true.
Proof. rewrite existsb_exists. setoid_rewrite <- list_elem_of_In. done. Qed.
Lemma existsb_app' {A} (f : A → bool) l k : existsb f l || existsb f k = existsb f (l ++ k).
Proof. by rewrite existsb_app. Qed.
Lemma expr_opt_existsb {E} (f : E → bool) o : expr_opt f o = existsb f (opt_exprs o).
Proof. destruct o; cbn; [|done]. by rewrite orb_false_r. Qed.
Lemma existsb_bind {A B} (f : B → bool) (g : A → list B) h l :
  (∀ x, h x = existsb f (g x)) → existsb h l = existsb f (l ≫= g).
Proof.
  intros Hh. induction l as [|x l IH]; [done|]. by rewrite bind_cons, existsb_app, <- Hh, <- IH.
Qed.

Lemma expr_has_param_step k s :
  expr_has_param (mkExpr k s)
  = match k with Parameter_ _ => true | _ => existsb expr_has_param (bare_exprs k) end.
Proof.
  destruct k; cbn [expr_has_param bare_exprs kind_exprs existsb];
    rewrite ?existsb_app, ?expr_opt_existsb, ?orb_false_r, <- ?orb_assoc; try done.
  - rewrite (existsb_bind expr_has_param (λ a : Expr * Expr, [a.1; a.2])); [done|].
    intros [c r]. cbn. by rewrite orb_false_r.
  - cbn. by rewrite orb_false_r.
  - induction pairs as [|[k v] l IH]; [done|]. cbn. by rewrite IH.
Qed.

Lemma bare_exprs_sub k c : c ∈ bare_exprs k → c ∈ kind_exprs k.
Proof. destruct k; cbn; rewrite ?elem_of_app; tauto. Qed.
Lemma bare_mentions_mentions p e : bare_mentions p e → mentions p e.
Proof.
  induction 1 as [s|k s c Hc _ IH]; [constructor|]. eapply me_expr; [|exact IH].
  by apply bare_exprs_sub.
Qed.

Lemma expr_has_param_spec e : expr_has_param e = true ↔ ∃ p, bare_mentions p e.
Proof.
  revert e. refine (proj1 (syntax_ind _ (λ _, True) _ (λ _ _ _, I))). intros k s IH _.
  assert (existsb expr_has_param (bare_exprs k) = true
          ↔ ∃ p c, c ∈ bare_exprs k ∧ bare_mentions p c) as Hk.
  { rewrite existsb_elem. split.
    - intros (c & Hc & Hp). apply IH in Hp as [p Hp]; [|by apply bare_exprs_sub]. eauto.
    - intros (p & c & Hc & Hp). exists c. split; [done|].
      apply IH; [by apply bare_exprs_sub|eauto]. }
  rewrite expr_has_param_step. destruct k as [| | |n | | | | | | | | | | | | | | | | | | |];
    try (rewrite Hk; split;
      [intros (q & c & Hc & Hq); exists q; by eapply bm_expr
      |intros [q Hq]; inversion Hq; subst; eauto]).
  split; [|done]. intros _. exists n. constructor.
Qed.

Definition free_bounds (l : list Expr) : Prop := ∀ e, e ∈ l → ∀ p, ¬ bare_mentions p e.
Lemma free_bounds_iff l : negb (existsb expr_has_param l) = true ↔ free_bounds l.
Proof.
  rewrite negb_true_iff, <- not_true_iff_false, existsb_elem. unfold free_bounds.
  setoid_rewrite expr_has_param_spec. naive_solver.
Qed.
Lemma skip_limit_bounds o1 o2 :
  skip_limit_has_param o1 o2 = existsb expr_has_param (opt_exprs o1 ++ opt_exprs o2).
Proof. unfold skip_limit_has_param, expr_opt_has_param. by rewrite existsb_app, !expr_opt_existsb. Qed.
Lemma tail_has_bounds t : tail_has_param t = existsb expr_has_param (tail_bounds t).
Proof. apply skip_limit_bounds. Qed.
Lemma inter_has_bounds cs :
  intermediates_block_caching cs = existsb expr_has_param (cs ≫= inter_bounds).
Proof. apply existsb_bind. intros []; [apply skip_limit_bounds|done..]. Qed.
Lemma clauses_block cs :
  forallb (λ c, negb (clause_blocks_caching c)) cs
  = negb (existsb expr_has_param (cs ≫= clause_bounds))
    && negb (existsb (λ c, match c with Clause.Call _ _ _ _ _ => true | _ => false end) cs).
Proof.
  induction cs as [|c cs IH]; [done|]. cbn [forallb existsb]. rewrite IH, bind_cons, existsb_app.
  destruct c; cbn [clause_blocks_caching clause_bounds existsb];
    rewrite ?andb_false_r; try done.
  rewrite skip_limit_bounds. by destruct (existsb _ (_ ++ _)).
Qed.

Lemma is_plan_cacheable_step s :
  is_plan_cacheable s
  = negb (own_uncacheable s) && negb (existsb expr_has_param (own_bounds s))
    && forallb is_plan_cacheable (stmt_stmts s).
Proof.
  destruct s; cbn [is_plan_cacheable own_uncacheable own_bounds stmt_stmts forallb negb existsb];
    rewrite ?skip_limit_bounds, ?tail_has_bounds, ?inter_has_bounds, ?clauses_block, ?existsb_app,
      ?negb_orb, ?andb_true_r, ?andb_true_l, <- ?andb_assoc; try done.
  - destruct (us_body u); rewrite ?skip_limit_bounds, ?tail_has_bounds, ?inter_has_bounds,
      ?existsb_app, ?negb_orb, <- ?andb_assoc; done.
  - rewrite andb_assoc. apply andb_comm.
Qed.

Lemma is_plan_cacheable_parts s :
  is_plan_cacheable s = true
  ↔ ∀ t, part s t → own_uncacheable t = false ∧ free_bounds (own_bounds t).
Proof.
  revert s. refine (proj2 (syntax_ind (λ _, True) _ (λ _ _ _ _, I) _)). intros s _ IH.
  rewrite is_plan_cacheable_step, !andb_true_iff, free_bounds_iff, negb_true_iff, forallb_forall.
  setoid_rewrite <- list_elem_of_In. split.
  - intros [Hs Hl] t Ht. destruct Ht as [s|s t u Ht Hu]; [done|].
    refine (proj1 (IH t Ht) _ u Hu). by apply Hl.
  - intros H. split; [apply H; constructor|]. intros t Ht. apply (IH t Ht).
    intros u Hu. apply H. by eapply part_sub.
Qed.

(** * The caches of the query front end

    src/src/cypher/parse_cache.rs, plan_cache.rs and eval/regex_cache.rs: two FIFO
    caches behind a lock and a small LRU list. *)

(** ** The FIFO caches

    Parsed statements by query text and plans by text and epoch are cached in the
    same way.  A lookup and an insertion each take the lock; between them another
    caller may run, so they are two steps. *)
Record Inner (K V : Type) `{Countable K} := mkInner {
  map : gmap K V;
  order : list K;
  capacity : nat;
}.
Arguments mkInner {K V _ _} _ _ _.
Arguments map {K V _ _} _.
Arguments order {K V _ _} _.
Arguments capacity {K V _ _} _.

Section Fifo.
Context {K V : Type} `{Countable K}.

Definition with_capacity (n : nat) : Inner K V := mkInner ∅ [] n.
Definition cached (key : K) (s : Inner K V) : option V := map s !! key.

(** The second critical section: an entry that appeared in the meantime stays. *)
Definition insert_built (key : K) (v : V) (s : Inner K V) : Inner K V :=
  match map s !! key with
  | Some _ => s
  | None =>
      let '(m, o) :=
        if decide (capacity s ≤ size (map s)) then
          match order s with
          | oldest :: rest => (base.delete oldest (map s), rest)
          | [] => (map s, [])
          end
        else (map s, order s) in
      mkInner (<[key := v]> m) (o ++ [key]) (capacity s)
  end.

(** Both sections, and what is built on a miss; errors are not cached. *)
Definition get_or_build (key : K) (build : Res V) : M (Inner K V) GraphError V := λ s,
  match cached key s with
  | Some v => (s, Ok v)
  | None =>
      match build with
      | Ok v => (insert_built key v s, Ok v)
      | Err e => (s, Err e)
      | Panic => (s, Panic)
      end
  end.
End Fifo.

Definition DEFAULT_CAPACITY : nat := 128.

(** Parsed statements by text. *)
Section ParseCache.
Context {Statement : Type} (parse : string → Res Statement).
Definition ParseCache : Type := Inner string Statement.
Definition get_or_parse (cypher : string) : M ParseCache GraphError Statement :=
  get_or_build cypher (parse cypher).
End ParseCache.

(** Plans by text and schema epoch. *)
Record Key := mkKey { cypher : string; epoch : N }.
#[global] Instance Key_eq_dec : EqDecision Key.
Proof. solve_decision. Defined.
#[global] Instance Key_countable : Countable Key.
Proof.
  refine (inj_countable' (λ k, (cypher k, epoch k)) (λ p, mkKey p.1 p.2) _). by intros [].
Defined.
Definition PlanCache (LogicalOp : Type) : Type := Inner Key LogicalOp.
Definition get_or_plan {LogicalOp} (cypher : string) (epoch : N) (build : Res LogicalOp)
    : M (PlanCache LogicalOp) GraphError LogicalOp :=
  get_or_build (mkKey cypher epoch) build.

(** ** The regex cache

    Compiling a pattern belongs to the regex library; its errors are texts. *)
Section RegexCache.
Context {Regex : Type} (compile : string → result string Regex).

Record RegexCache := mkRegexCache {
  entries : list (string * Regex);
  regex_capacity : nat;
}.
Definition REGEX_DEFAULT_CAPACITY : nat := 32.
Definition anchored (pat : string) : string := "^(?:" +:+ pat +:+ ")$".
Definition invalid_pattern (pat err : string) : GraphError :=
  GraphError.query Runtime ErrorCode.InvalidArgumentValue
    ("invalid regex pattern `" +:+ pat +:+ "`: " +:+ err).

(** The position of a pattern. *)
Fixpoint position (pat : string) (l : list (string * Regex)) : option nat :=
  match l with
  | [] => None
  | e :: l' => if decide (e.1 = pat) then Some 0 else S <$> position pat l'
  end.

(** [Vec::remove] past the end is a panic. *)
Definition get_or_compile (pat : string) : M RegexCache GraphError Regex := λ s,
  match position pat (entries s) with
  | Some pos =>
      match entries s !! pos with
      | Some entry =>
          (mkRegexCache (base.delete pos (entries s) ++ [entry]) (regex_capacity s), Ok entry.2)
      | None => (s, Panic)
      end
  | None =>
      match compile (anchored pat) with
      | Err err => (s, Err (invalid_pattern pat err))
      | Panic => (s, Panic)
      | Ok re =>
          if decide (regex_capacity s ≤ length (entries s)) then
            match entries s with
            | _ :: rest => (mkRegexCache (rest ++ [(pat, re)]) (regex_capacity s), Ok re)
            | [] => (s, Panic)
            end
          else (mkRegexCache (entries s ++ [(pat, re)]) (regex_capacity s), Ok re)
      end
  end.
End RegexCache.
Arguments mkRegexCache {Regex} _ _.
Arguments entries {Regex} _.
Arguments regex_capacity {Regex} _.

(** * What the caches promise

    [fifo_push] is the first-in first-out queue a cache implements and [fifo_agrees]
    relates the two; [lru_use] does the same for the regex cache. *)

(** ** First-in first-out *)
Section Fifo.
Context {K V : Type} `{Countable K}.
Implicit Types (l h : list (K * V)) (s : Inner K V).

(** A queue of entries, oldest first; a key that is in it is not entered again. *)
Definition fifo_push (n : nat) (l : list (K * V)) (x : K * V) : list (K * V) :=
  if decide (x.1 ∈ l.*1) then l
  else (if decide (n ≤ length l) then tail l else l) ++ [x].
Definition fifo_run (n : nat) (h : list (K * V)) : list (K * V) := foldl (fifo_push n) [] h.

(** The cache after the insertions [h], whichever callers made them. *)
Definition fill (s : Inner K V) (h : list (K * V)) : Inner K V :=
  foldl (λ s x, insert_built x.1 x.2 s) s h.

Record fifo_agrees (s : Inner K V) (l : list (K * V)) : Prop := {
  fa_order : order s = l.*1;
  fa_nodup : NoDup l.*1;
  fa_map : map s = list_to_map l;
}.

Lemma fifo_agrees_size s l : fifo_agrees s l → size (map s) = length l.
Proof. intros [_ Hn ->]. by rewrite map_size_list_to_map. Qed.
Lemma fifo_agrees_cached s l k v : fifo_agrees s l → cached k s = Some v ↔ (k, v) ∈ l.
Proof. intros [_ Hn Hm]. unfold cached. rewrite Hm. symmetry. by apply elem_of_list_to_map. Qed.

Lemma list_to_map_snoc l k v :
  k ∉ l.*1 → (list_to_map (l ++ [(k, v)]) : gmap K V) = <[k := v]> (list_to_map l).
Proof.
  intros Hk%not_elem_of_list_to_map. rewrite list_to_map_app.
  cbn [list_to_map foldr uncurry fst snd].
  by rewrite <- insert_union_r, map_union_empty by done.
Qed.
Lemma agrees_snoc m l k v n :
  NoDup l.*1 → k ∉ l.*1 → m = list_to_map l →
  fifo_agrees (mkInner (<[k := v]> m) (l.*1 ++ [k]) n) (l ++ [(k, v)]).
Proof.
  intros Hn Hk ->. split; cbn [order map].
  - by rewrite fmap_app.
  - rewrite fmap_app. apply NoDup_app. split_and!; [done| |apply NoDup_singleton].
    intros x Hx ->%list_elem_of_singleton. done.
  - symmetry. by apply list_to_map_snoc.
Qed.

Lemma insert_built_agrees s l k v :
  fifo_agrees s l → fifo_agrees (insert_built k v s) (fifo_push (capacity s) l (k, v)).
Proof.
  intros Ha. pose proof (fifo_agrees_size _ _ Ha) as Hs. destruct Ha as [Ho Hn Hm].
  unfold insert_built, fifo_push. cbn [fst]. rewrite Hs.
  destruct (map s !! k) as [w|] eqn:E; rewrite Hm in E.
  - rewrite decide_True; [by split|]. apply elem_of_list_to_map_2 in E. by apply (list_elem_of_fmap_2' _ _ (k, w)).
  - apply not_elem_of_list_to_map in E. rewrite (decide_False (P := k ∈ l.*1)) by done.
    case_decide; [|by rewrite Ho; apply agrees_snoc].
    destruct l as [|[k0 v0] l]; rewrite Ho; cbn [fmap list_fmap fst tail] in *.
    + apply (agrees_snoc _ []); [constructor|apply not_elem_of_nil|done].
    + apply NoDup_cons in Hn as [Hk0 Hn]. apply agrees_snoc; [done|set_solver|].
      rewrite Hm. cbn [list_to_map foldr uncurry fst snd].
      by rewrite delete_insert_id by by apply not_elem_of_list_to_map.
Qed.
Lemma insert_built_capacity s k v : capacity (insert_built k v s) = capacity s.
Proof. unfold insert_built. destruct (map s !! k); [done|]. case_decide; [|done]. by destruct (order s). Qed.

Lemma fill_agrees s l h :
  fifo_agrees s l → fifo_agrees (fill s h) (foldl (fifo_push (capacity s)) l h).
Proof.
  revert s l. induction h as [|[k v] h IH]; intros s l Ha; [done|]. cbn [fill foldl fst snd].
  rewrite <- (insert_built_capacity s k v). apply IH. rewrite insert_built_capacity.
  by apply insert_built_agrees.
Qed.
Lemma fresh_agrees n : fifo_agrees (with_capacity n) [].
Proof. split; [done|constructor|done]. Qed.

Lemma fifo_push_bound n l x : length l ≤ max 1 n → length (fifo_push n l x) ≤ max 1 n.
Proof.
  unfold fifo_push. case_decide; [done|]. rewrite length_app. cbn [length].
  case_decide; [destruct l; cbn in *|]; lia.
Qed.
Lemma fifo_run_bound n h : length (fifo_run n h) ≤ max 1 n.
Proof.
  unfold fifo_run. assert (length (@nil (K * V)) ≤ max 1 n) as Hl by (cbn; lia). revert Hl.
  generalize (@nil (K * V)). induction h as [|x h IH]; intros l Hl; [done|].
  cbn [foldl]. apply IH. by apply fifo_push_bound.
Qed.
Lemma fifo_push_sub n l x y : y ∈ fifo_push n l x → y ∈ l ∨ y = x.
Proof.
  unfold fifo_push. case_decide; [by left|].
  case_decide; rewrite elem_of_app, list_elem_of_singleton; intros [Hy| ->]; [|by right|by left|by right].
  left. destruct l; [done|]. by right.
Qed.
Lemma fifo_run_sub n h y : y ∈ fifo_run n h → y ∈ h.
Proof.
  unfold fifo_run. intros Hy. enough (y ∈ @nil (K * V) ∨ y ∈ h) as [[]%not_elem_of_nil|] by done.
  revert Hy. generalize (@nil (K * V)). induction h as [|x h IH]; intros l; cbn [foldl]; [by left|].
  intros [Hy| ]%IH; [|by right; right]. apply fifo_push_sub in Hy as [| ->]; [by left|]. by right; left.
Qed.

(** A use of the cache that is not disturbed. *)
Lemma get_or_build_run n h key build :
  get_or_build key build (fill (with_capacity n) h)
  = match (list_to_map (fifo_run n h) : gmap K V) !! key, build with
    | Some v, _ => (fill (with_capacity n) h, Ok v)
    | None, Ok v => (fill (with_capacity n) (h ++ [(key, v)]), Ok v)
    | None, e => (fill (with_capacity n) h, e)
    end.
Proof.
  unfold get_or_build, cached. rewrite (fa_map _ _ (fill_agrees _ _ h (fresh_agrees n))).
  cbn [capacity with_capacity]. fold (fifo_run n h).
  destruct (list_to_map (fifo_run n h) !! key); [done|]. destruct build; [|done..].
  unfold fill. by rewrite foldl_app.
Qed.
End Fifo.

(** ** Least recently used *)
Section Lru.
Context {Regex : Type} (compile : string → result string Regex).
Implicit Types (l : list (string * Regex)) (s : @RegexCache Regex).

(** The entries after a use of [x]: it comes last, and makes room for itself. *)
Definition lru_use (n : nat) (l : list (string * Regex)) (x : string * Regex)
    : list (string * Regex) :=
  let rest := filter (λ e, e.1 ≠ x.1) l in
  (if decide (x.1 ∈ l.*1) then rest else if decide (n ≤ length l) then tail l else l) ++ [x].

(** The patterns in the cache, each compiled as [get_or_compile] would. *)
Record lru_ok (s : @RegexCache Regex) : Prop := {
  lo_nodup : NoDup (entries s).*1;
  lo_bound : length (entries s) ≤ regex_capacity s;
  lo_compiled : ∀ pat re, (pat, re) ∈ entries s → compile (anchored pat) = Ok re;
}.

Lemma position_Some pat l i :
  position pat l = Some i → ∃ l1 re l2, l = l1 ++ (pat, re) :: l2 ∧ length l1 = i ∧ pat ∉ l1.*1.
Proof.
  revert i. induction l as [|[k re] l IH]; intros i; cbn [position fst]; [done|].
  case_decide as Hk.
  - intros [= <-]. subst. exists [], re, l. split_and!; [done..|]. apply not_elem_of_nil.
  - intros (j & (l1 & r & l2 & -> & <- & Hn)%IH & ->)%fmap_Some.
    exists ((k, re) :: l1), r, l2. split_and!; [done..|]. cbn. set_solver.
Qed.
Lemma position_None pat l : position pat l = None ↔ pat ∉ l.*1.
Proof.
  induction l as [|[k re] l IH]; cbn [position fst fmap list_fmap]; [set_solver|].
  rewrite elem_of_cons. case_decide; [naive_solver|].
  rewrite fmap_None. naive_solver.
Qed.
Lemma filter_other pat l : pat ∉ l.*1 → filter (λ e, e.1 ≠ pat) l = l.
Proof.
  induction l as [|[k re] l IH]; intros Hp; [done|].
  rewrite fmap_cons, elem_of_cons in Hp. rewrite filter_cons_True by naive_solver.
  f_equal. apply IH. naive_solver.
Qed.
Lemma lru_use_old n l1 l2 pat re :
  NoDup (l1 ++ (pat, re) :: l2).*1 →
  lru_use n (l1 ++ (pat, re) :: l2) (pat, re) = (l1 ++ l2) ++ [(pat, re)].
Proof.
  rewrite fmap_app, fmap_cons. rewrite NoDup_app, NoDup_cons.
  intros (_ & Hd & Hn & _). unfold lru_use.
  rewrite decide_True by (rewrite fmap_app, fmap_cons; set_solver). cbn [fst].
  rewrite filter_app, filter_cons_False, !filter_other by (cbn in *; set_solver). done.
Qed.

(** One use of a cache that has room for an entry. *)
Lemma get_or_compile_use s pat :
  lru_ok s → 0 < regex_capacity s →
  get_or_compile compile pat s
  = match compile (anchored pat) with
    | Ok re => (mkRegexCache (lru_use (regex_capacity s) (entries s) (pat, re)) (regex_capacity s), Ok re)
    | Err err => (s, Err (invalid_pattern pat err))
    | Panic => (s, Panic)
    end.
Proof.
  intros [Hn Hb Hc] Hpos. unfold get_or_compile.
  destruct (position pat (entries s)) as [i|] eqn:E.
  - apply position_Some in E as (l1 & re & l2 & El & <- & Hp). rewrite El in *.
    rewrite (Hc pat re) by set_solver. rewrite list_lookup_middle by done.
    rewrite lru_use_old by done. cbn [snd]. by rewrite delete_middle.
  - apply position_None in E. destruct (compile (anchored pat)) as [re|err|]; [|done..].
    unfold lru_use. cbn [fst]. rewrite (decide_False (P := pat ∈ (entries s).*1)) by done.
    case_decide; [|done]. destruct (entries s); [cbn in *; lia|done].
Qed.
Lemma lru_use_keys n l x k : k ∈ (lru_use n l x).*1 → k ∈ l.*1 ∨ k = x.1.
Proof.
  unfold lru_use. rewrite fmap_app, elem_of_app. intros [Hk|Hk]; [left|right; set_solver].
  revert Hk. case_decide; [|case_decide; [destruct l; [done|set_solver]|done]].
  intros (y & -> & [_ Hy]%list_elem_of_filter)%list_elem_of_fmap. by apply list_elem_of_fmap_2.
Qed.
Lemma lru_use_ok s pat re :
  lru_ok s → 0 < regex_capacity s → compile (anchored pat) = Ok re →
  lru_ok (mkRegexCache (lru_use (regex_capacity s) (entries s) (pat, re)) (regex_capacity s)).
Proof.
  intros [Hn Hb Hc] Hpos Hre. unfold lru_use. cbn [fst].
  set (l := if decide _ then _ else _).
  assert ((l `sublist_of` entries s) ∧ (pat ∉ l.*1) ∧ length l < regex_capacity s) as (Hs & Hp & Hl).
  { subst l. case_decide as Hin.
    - split_and!.
      + apply sublist_filter.
      + intros ([k r] & -> & [Hk _]%list_elem_of_filter)%list_elem_of_fmap. done.
      + eapply Nat.lt_le_trans; [|exact Hb]. apply list_elem_of_fmap in Hin as (x & Hx & Hin).
        apply length_filter_lt with x; [done|]. naive_solver.
    - case_decide; split_and!; try done; try lia.
      + destruct (entries s); [done|]. by apply sublist_cons.
      + intros Hk. apply Hin. destruct (entries s); [done|]. by right.
      + destruct (entries s); cbn in *; lia. }
  split; cbn [entries regex_capacity].
  - rewrite fmap_app. apply NoDup_app. split_and!.
    + apply (sublist_NoDup _ _ Hn). by apply fmap_sublist.
    + intros x Hx ->%list_elem_of_singleton. done.
    + apply NoDup_singleton.
  - rewrite length_app. cbn. lia.
  - intros k r [Hk|Hk]%elem_of_app; [|set_solver]. apply Hc. by eapply elem_of_sublist.
Qed.
End Lru.
