(* ===== verification/Ir.v ===== *)
(** * Query plans: src/src/cypher/ir.rs and src/src/cypher/executor/mod.rs

    The operators the executor runs, and the walks over a plan that decide, before it
    runs, whether it writes and how deep its traversals go.  [Box] is dropped. *)
From stdpp Require Import pretty.
From S2P Require Export Ast.

Inductive FullTextOp := FtContains | FtStartsWith | FtEndsWith.

Module LookupKey.
Inductive LookupKey :=
| Literal (l : LiteralValue)
| Param (name : string).
End LookupKey.
Abbreviation LookupKey := LookupKey.LookupKey.

Inductive AggregateFunction :=
| Count | Sum | Avg | Min | Max | Collect | PercentileDisc | PercentileCont | StDev | StDevP.
Record AggregateExpr := mkAggregateExpr {
  ag_function : AggregateFunction;
  ag_input : Expr;
  ag_alias : option string;
  ag_distinct : bool;
  ag_extra_arg : option Expr;
  ag_original_name : string;
  ag_original_call_text : option string }.

Module Op.
#[warnings="-register-all"]
Inductive LogicalOp :=
| SingleRow
| Scan (label alias : string)
| IdLookup (alias : string) (value_expr : Expr)
| IndexLookup (label alias : string) (index_properties : list string)
    (lookups : list (string * LookupKey)) (remaining_filters : option Expr)
| FullTextLookup (label alias property : string) (op : FullTextOp) (term : Expr)
    (remaining_filters : option Expr)
| Expand (input : LogicalOp) (src_alias dst_alias : string) (rel_alias : option string)
    (edge_types : list string) (direction : Direction) (min_hops max_hops : N)
    (var_length : bool) (var_length_prop_filters : gmap string Expr) (result_cap : option N)
| CrossProduct (left right : LogicalOp) (same_match : bool)
| Filter (input : LogicalOp) (predicate : Expr)
| Project (input : LogicalOp) (items : list (ReturnItem Expr)) (emit_compound : bool)
| Aggregate (input : LogicalOp) (group_keys : list Expr) (aggregates : list AggregateExpr)
| Sort (input : LogicalOp) (items : list (SortItem Expr))
| Distinct (input : LogicalOp)
| Skip (input : LogicalOp) (count : N)
| Limit (input : LogicalOp) (count : N)
| CreateNode (labels : list string) (alias : option string) (properties : gmap string Expr)
| CreateEdge (src_alias dst_alias edge_type : string) (rel_alias : option string)
    (properties : gmap string Expr)
| CreateSequence (ops : list LogicalOp)
| MatchCreate (input : LogicalOp) (create_ops : list LogicalOp)
| Delete (input : LogicalOp) (exprs : list Expr) (detach : bool)
| SetProperty (input : LogicalOp) (assignments : list (Assignment Expr))
| SetLabel (input : LogicalOp) (variable : string) (labels : list string)
| SetProperties (input : LogicalOp) (variable : string) (v : Expr) (merge : bool)
| Remove (input : LogicalOp) (items : list RemoveItem)
| Merge (pattern : Pattern Expr) (on_create on_match : list (SetItem Expr))
| MatchMerge (input : LogicalOp) (merge_pattern : Pattern Expr)
    (on_create on_match : list (SetItem Expr))
| MaterializePath (input : LogicalOp) (path_alias : string) (node_aliases rel_aliases : list string)
| CorrelatedJoin (input right : LogicalOp) (same_match : bool)
| LeftOuterJoin (input right : LogicalOp) (optional_aliases : list string)
    (opt_filter : option Expr)
| Unwind (input : LogicalOp) (expr : Expr) (alias : string)
| Call (input : LogicalOp) (procedure_name : string) (args : list Expr)
    (yield_items : list (string * option string)) (yield_star : bool)
| ShortestPath (input : LogicalOp) (src_alias dst_alias path_alias : string)
    (edge_type : option string) (direction : Direction) (max_hops : N) (all_paths : bool)
| Union (inputs : list LogicalOp) (all : bool)
| EmptyRow
| CreateIndex (label : string) (properties : list string)
| DropIndex (label : string) (properties : list string).
End Op.
Abbreviation LogicalOp := Op.LogicalOp.

Definition op_name (op : LogicalOp) : string :=
  match op with
  | Op.SingleRow => "SingleRow"
  | Op.Scan _ _ => "Scan"
  | Op.IdLookup _ _ => "IdLookup"
  | Op.IndexLookup _ _ _ _ _ => "IndexLookup"
  | Op.FullTextLookup _ _ _ _ _ _ => "FullTextLookup"
  | Op.Expand _ _ _ _ _ _ _ _ _ _ _ => "Expand"
  | Op.CrossProduct _ _ _ => "CrossProduct"
  | Op.Filter _ _ => "Filter"
  | Op.Project _ _ _ => "Project"
  | Op.Aggregate _ _ _ => "Aggregate"
  | Op.Sort _ _ => "Sort"
  | Op.Distinct _ => "Distinct"
  | Op.Skip _ _ => "Skip"
  | Op.Limit _ _ => "Limit"
  | Op.CreateNode _ _ _ => "CreateNode"
  | Op.CreateEdge _ _ _ _ _ => "CreateEdge"
  | Op.CreateSequence _ => "CreateSequence"
  | Op.MatchCreate _ _ => "MatchCreate"
  | Op.Delete _ _ _ => "Delete"
  | Op.SetProperty _ _ => "SetProperty"
  | Op.SetLabel _ _ _ => "SetLabel"
  | Op.SetProperties _ _ _ _ => "SetProperties"
  | Op.Remove _ _ => "Remove"
  | Op.Merge _ _ _ => "Merge"
  | Op.MatchMerge _ _ _ _ => "MatchMerge"
  | Op.MaterializePath _ _ _ _ => "MaterializePath"
  | Op.CorrelatedJoin _ _ _ => "CorrelatedJoin"
  | Op.LeftOuterJoin _ _ _ _ => "LeftOuterJoin"
  | Op.Unwind _ _ _ => "Unwind"
  | Op.Call _ _ _ _ _ => "Call"
  | Op.ShortestPath _ _ _ _ _ _ _ _ => "ShortestPath"
  | Op.Union _ _ => "Union"
  | Op.EmptyRow => "EmptyRow"
  | Op.CreateIndex _ _ => "CreateIndex"
  | Op.DropIndex _ _ => "DropIndex"
  end.

(** ** src/src/cypher/executor/mod.rs *)
Fixpoint is_read_only (plan : LogicalOp) : bool :=
  match plan with
  | Op.Scan _ _ | Op.IndexLookup _ _ _ _ _ | Op.IdLookup _ _ | Op.FullTextLookup _ _ _ _ _ _
  | Op.EmptyRow | Op.SingleRow => true
  | Op.Filter input _ | Op.Project input _ _ | Op.Distinct input | Op.Sort input _
  | Op.Skip input _ | Op.Limit input _ | Op.Unwind input _ _ | Op.Aggregate input _ _
  | Op.ShortestPath input _ _ _ _ _ _ _ | Op.MaterializePath input _ _ _
  | Op.Call input _ _ _ _ => is_read_only input
  | Op.Expand input _ _ _ _ _ _ _ _ _ _ => is_read_only input
  | Op.CrossProduct l r _ | Op.CorrelatedJoin l r _ | Op.LeftOuterJoin l r _ _ =>
      is_read_only l && is_read_only r
  | Op.Union inputs _ => forallb is_read_only inputs
  | Op.CreateNode _ _ _ | Op.CreateEdge _ _ _ _ _ | Op.CreateSequence _ | Op.MatchCreate _ _
  | Op.Delete _ _ _ | Op.SetProperty _ _ | Op.SetLabel _ _ _ | Op.SetProperties _ _ _ _
  | Op.Remove _ _ | Op.Merge _ _ _ | Op.MatchMerge _ _ _ _ | Op.CreateIndex _ _
  | Op.DropIndex _ _ => false
  end.

Definition is_bare_write (plan : LogicalOp) : bool :=
  match plan with
  | Op.CreateNode _ _ _ | Op.CreateEdge _ _ _ _ _ | Op.CreateSequence _ | Op.MatchCreate _ _
  | Op.Delete _ _ _ | Op.SetProperty _ _ | Op.SetLabel _ _ _ | Op.SetProperties _ _ _ _
  | Op.Remove _ _ | Op.Merge _ _ _ | Op.MatchMerge _ _ _ _ | Op.CreateIndex _ _
  | Op.DropIndex _ _ => true
  | _ => false
  end.

(** The test in [execute_cypher] and [Database::execute_with_params]. *)
Definition is_ddl (plan : LogicalOp) : bool :=
  match plan with Op.CreateIndex _ _ | Op.DropIndex _ _ => true | _ => false end.

Definition too_deep (what : string) (max_hops cap : N) : GraphError :=
  GraphError.query SemanticAnalysis ErrorCode.NumberOutOfRange
    (what +:+ " hop count `" +:+ pretty max_hops +:+ "` exceeds the configured max traversal depth of `"
     +:+ pretty cap +:+ "`").

Fixpoint check_depth_recursive (cap : N) (op : LogicalOp) : Res unit :=
  match op with
  | Op.Expand input _ _ _ _ _ _ max_hops _ _ _ =>
      if decide (cap < max_hops)%N then Err (too_deep "var-length" max_hops cap)
      else check_depth_recursive cap input
  | Op.ShortestPath input _ _ _ _ _ max_hops _ =>
      if decide (cap < max_hops)%N then Err (too_deep "shortestPath" max_hops cap)
      else check_depth_recursive cap input
  | Op.Filter input _ | Op.Project input _ _ | Op.Aggregate input _ _ | Op.Sort input _
  | Op.Distinct input | Op.Skip input _ | Op.Limit input _ | Op.MatchCreate input _
  | Op.Delete input _ _ | Op.SetProperty input _ | Op.SetLabel input _ _
  | Op.SetProperties input _ _ _ | Op.Remove input _ | Op.MatchMerge input _ _ _
  | Op.MaterializePath input _ _ _ | Op.Unwind input _ _ | Op.Call input _ _ _ _ =>
      check_depth_recursive cap input
  | Op.CrossProduct l r _ =>
      check_depth_recursive cap l ≫= λ _, check_depth_recursive cap r
  | Op.CorrelatedJoin l r _ | Op.LeftOuterJoin l r _ _ =>
      check_depth_recursive cap l ≫= λ _, check_depth_recursive cap r
  | Op.Union inputs _ => for_each_r (check_depth_recursive cap) inputs
  | Op.CreateSequence ops => for_each_r (check_depth_recursive cap) ops
  | Op.SingleRow | Op.Scan _ _ | Op.IndexLookup _ _ _ _ _ | Op.IdLookup _ _
  | Op.FullTextLookup _ _ _ _ _ _ | Op.CreateNode _ _ _ | Op.CreateEdge _ _ _ _ _
  | Op.Merge _ _ _ | Op.CreateIndex _ _ | Op.DropIndex _ _ | Op.EmptyRow => Ok ()
  end.

(** A cap of 0 is no cap. *)
Definition validate_traversal_depth (plan : LogicalOp) (max_traversal_depth : N) : Res unit :=
  if decide (max_traversal_depth = 0)%N then Ok ()
  else check_depth_recursive max_traversal_depth plan.

(** ** The operators of a plan *)
Definition inputs (op : LogicalOp) : list LogicalOp :=
  match op with
  | Op.Expand i _ _ _ _ _ _ _ _ _ _ | Op.ShortestPath i _ _ _ _ _ _ _ | Op.Filter i _
  | Op.Project i _ _ | Op.Aggregate i _ _ | Op.Sort i _ | Op.Distinct i | Op.Skip i _
  | Op.Limit i _ | Op.Delete i _ _ | Op.SetProperty i _ | Op.SetLabel i _ _
  | Op.SetProperties i _ _ _ | Op.Remove i _ | Op.MatchMerge i _ _ _ | Op.MaterializePath i _ _ _
  | Op.Unwind i _ _ | Op.Call i _ _ _ _ => [i]
  | Op.MatchCreate i ops => i :: ops
  | Op.CrossProduct l r _ | Op.CorrelatedJoin l r _ | Op.LeftOuterJoin l r _ _ => [l; r]
  | Op.Union l _ | Op.CreateSequence l => l
  | _ => []
  end.

Fixpoint op_size (op : LogicalOp) : nat :=
  S match op with
    | Op.Expand i _ _ _ _ _ _ _ _ _ _ | Op.ShortestPath i _ _ _ _ _ _ _ | Op.Filter i _
    | Op.Project i _ _ | Op.Aggregate i _ _ | Op.Sort i _ | Op.Distinct i | Op.Skip i _
    | Op.Limit i _ | Op.Delete i _ _ | Op.SetProperty i _ | Op.SetLabel i _ _
    | Op.SetProperties i _ _ _ | Op.Remove i _ | Op.MatchMerge i _ _ _ | Op.MaterializePath i _ _ _
    | Op.Unwind i _ _ | Op.Call i _ _ _ _ => op_size i
    | Op.MatchCreate i ops => op_size i + sum_list_with op_size ops
    | Op.CrossProduct l r _ | Op.CorrelatedJoin l r _ | Op.LeftOuterJoin l r _ _ =>
        op_size l + op_size r
    | Op.Union l _ | Op.CreateSequence l => sum_list_with op_size l
    | _ => 0
    end.
Lemma op_size_step op : op_size op = S (sum_list_with op_size (inputs op)).
Proof. destruct op; cbn [op_size inputs sum_list_with]; lia. Qed.

Lemma op_ind (P : LogicalOp → Prop) :
  (∀ op, (∀ i, i ∈ inputs op → P i) → P op) → ∀ op, P op.
Proof.
  intros Hstep op. assert (∃ n, op_size op < n) as [n Hn] by eauto. revert op Hn.
  induction n as [|n IH]; intros op Hn; [lia|]. apply Hstep. intros i Hi. apply IH.
  rewrite op_size_step in Hn. pose proof (sum_list_with_in _ op_size _ Hi). lia.
Qed.

(** [occurs op o]: the operator [o] is in the plan [op]. *)
Inductive occurs : LogicalOp → LogicalOp → Prop :=
| occurs_self op : occurs op op
| occurs_in op i o : i ∈ inputs op → occurs i o → occurs op o.

Lemma occurs_inv op o : occurs op o ↔ o = op ∨ ∃ i, i ∈ inputs op ∧ occurs i o.
Proof.
  split; [inversion 1; subst; eauto|]. intros [-> |(i & Hi & Ho)]; [constructor|].
  by eapply occurs_in.
Qed.

Lemma is_read_only_step op :
  is_read_only op = negb (is_bare_write op) && forallb is_read_only (inputs op).
Proof. destruct op; cbn [is_read_only is_bare_write negb inputs forallb andb]; by rewrite ?andb_true_r. Qed.

Lemma is_read_only_occurs plan :
  is_read_only plan = true ↔ ∀ o, occurs plan o → is_bare_write o = false.
Proof.
  induction plan as [op IH] using op_ind.
  rewrite is_read_only_step, andb_true_iff, negb_true_iff, forallb_forall.
  setoid_rewrite <- list_elem_of_In. setoid_rewrite occurs_inv. split.
  - intros [Hw Hi] o [-> |(i & Hin & Ho)]; [done|]. by apply (proj1 (IH i Hin) (Hi i Hin)).
  - intros H. split; [by apply H; left|]. intros i Hi. apply (IH i Hi). intros o Ho. apply H. eauto.
Qed.

(** *** Traversals

    Those whose depth is checked; what a MATCH ... CREATE creates has none. *)
Definition hops (op : LogicalOp) : option N :=
  match op with
  | Op.Expand _ _ _ _ _ _ _ max_hops _ _ _ => Some max_hops
  | Op.ShortestPath _ _ _ _ _ _ max_hops _ => Some max_hops
  | _ => None
  end.
Definition checked_inputs (op : LogicalOp) : list LogicalOp :=
  match op with Op.MatchCreate i _ => [i] | _ => inputs op end.
Definition hop_name (op : LogicalOp) : string :=
  match op with Op.ShortestPath _ _ _ _ _ _ _ _ => "shortestPath" | _ => "var-length" end.
Inductive traverses : LogicalOp → LogicalOp → Prop :=
| traverses_self op : traverses op op
| traverses_in op i o : i ∈ checked_inputs op → traverses i o → traverses op o.

Lemma check_depth_step cap op :
  check_depth_recursive cap op
  = match hops op with
    | Some h => if decide (cap < h)%N then Err (too_deep (hop_name op) h cap)
                else for_each_r (check_depth_recursive cap) (checked_inputs op)
    | None => for_each_r (check_depth_recursive cap) (checked_inputs op)
    end.
Proof.
  assert (∀ m : Res unit, (m ≫= λ _, Ok ()) = m) as Hu by by intros [[]| |].
  destruct op; cbn [check_depth_recursive hops checked_inputs inputs hop_name for_each_r];
    try (case_decide; [done|]); rewrite ?Hu; done.
Qed.

(** The outcome: every checked traversal is within the cap, or one that is not is named. *)
Definition depth_checked (cap : N) (P : LogicalOp → Prop) (r : Res unit) : Prop :=
  (r = Ok () ∧ ∀ o h, P o → hops o = Some h → (h ≤ cap)%N)
  ∨ ∃ o h, P o ∧ hops o = Some h ∧ (cap < h)%N ∧ r = Err (too_deep (hop_name o) h cap).

Lemma depth_checked_each cap l :
  (∀ i, i ∈ l → depth_checked cap (traverses i) (check_depth_recursive cap i)) →
  depth_checked cap (λ o, ∃ i, i ∈ l ∧ traverses i o) (for_each_r (check_depth_recursive cap) l).
Proof.
  induction l as [|i l IH]; intros H; cbn [for_each_r].
  { left. split; [done|]. intros o h (i & Hi & _). by apply not_elem_of_nil in Hi. }
  destruct (H i ltac:(left)) as [[-> Hi]|(o & h & Ho & Hh & Hc & ->)]; cbn [mbind result_bind].
  - destruct IH as [[-> Hl]|(o & h & (j & Hj & Ho) & Hh & Hc & ->)]; [intros; apply H; by right|..].
    + left. split; [done|]. intros o h (j & [-> |Hj]%elem_of_cons & Ho); eauto.
    + right. exists o, h. split_and!; try done. exists j. split; [by right|done].
  - right. exists o, h. split_and!; try done. exists i. split; [left|done].
Qed.

Lemma check_depth_exact cap op : depth_checked cap (traverses op) (check_depth_recursive cap op).
Proof.
  induction op as [op IH] using op_ind. rewrite check_depth_step.
  assert (depth_checked cap (λ o, ∃ i, i ∈ checked_inputs op ∧ traverses i o)
            (for_each_r (check_depth_recursive cap) (checked_inputs op))) as Hin.
  { apply depth_checked_each. intros i Hi. apply IH. revert Hi.
    destruct op; cbn [checked_inputs inputs]; set_solver. }
  assert (∀ o, traverses op o → o = op ∨ ∃ i, i ∈ checked_inputs op ∧ traverses i o) as Hinv
    by (inversion 1; subst; eauto).
  destruct (hops op) as [h|] eqn:Hh; [case_decide as Hc|].
  - right. exists op, h. split_and!; try done. constructor.
  - destruct Hin as [[-> Hin]|(o & k & (i & Hi & Ho) & Hk & Hc' & ->)].
    + left. split; [done|]. intros o k [-> |Ho]%Hinv Hk; [|by eapply Hin]. simplify_eq. lia.
    + right. exists o, k. split_and!; try done. by eapply traverses_in.
  - destruct Hin as [[-> Hin]|(o & k & (i & Hi & Ho) & Hk & Hc' & ->)].
    + left. split; [done|]. intros o k [-> |Ho]%Hinv Hk; [|by eapply Hin]. congruence.
    + right. exists o, k. split_and!; try done. by eapply traverses_in.
Qed.
