(* ===== verification/Engine.v ===== *)
(** * From query text to rows: src/src/cypher/mod.rs and executor/mod.rs

    The pipeline every query goes through: parse or take the syntax tree from the
    cache, check the parameters, plan or take the plan from the cache, refuse writes
    in a read transaction, run.  The grammar, the planner and the operators of the
    executor are arguments of the pipeline. *)
From S2P Require Export Params Ir Caches.

(** What is shared by all queries of a database handle; [schema_epoch] is a [u64]. *)
Record Shared := mkShared {
  parse_cache : ParseCache (Statement := Statement);
  plan_cache : PlanCache LogicalOp;
  schema_epoch : N;
}.
(** Which of them a caller passes on. *)
Record ExecCaches := mkExecCaches { use_parse : bool; use_plan : bool; use_epoch : bool }.

Definition set_parse_cache (p : ParseCache) (s : Shared) : Shared :=
  mkShared p (plan_cache s) (schema_epoch s).
Definition set_plan_cache (p : PlanCache LogicalOp) (s : Shared) : Shared :=
  mkShared (parse_cache s) p (schema_epoch s).
Definition bump_epoch (s : Shared) : Shared :=
  mkShared (parse_cache s) (plan_cache s) (u64_add (schema_epoch s) 1).

Section Engine.
Context {conn Row ProcedureRegistry : Type}.

(** The limits; the regex cache is created per query and belongs to [run]. *)
Record ExecContext := mkExecContext {
  max_result_rows : N;
  max_traversal_depth : N;
  max_traversal_work : N;
  procedures : ProcedureRegistry;
  require_read_only : bool;
}.

(** The parts of the pipeline as it sees them: [parser::parse] (ParseStatement),
    [planner::plan_with_procedures] (PlanClauses), [cost::format_explain], and the executor's
    two interpreters (Executor, Iterators). *)
Record FrontEnd := mkFrontEnd {
  parse : string → Res Statement;
  plan_with_procedures :
    conn → Statement → ProcedureRegistry → option (gmap string value) → Res LogicalOp;
  format_explain : conn → LogicalOp → list Row;
  run_plan : ExecContext → option (gmap string value) → LogicalOp → M conn GraphError (list Row);
}.
Context (F : FrontEnd).
Implicit Types (params : option (gmap string value)) (ctx : ExecContext).

(** Run a computation on one part of the state. *)
Definition on_conn {A} (m : M conn GraphError A) : M (conn * Shared) GraphError A := λ s,
  let '(c, r) := m s.1 in ((c, s.2), r).
Definition on_shared {A} (m : M Shared GraphError A) : M (conn * Shared) GraphError A := λ s,
  let '(x, r) := m s.2 in ((s.1, x), r).

Definition execute_with_ctx ctx params (plan : LogicalOp) : M conn GraphError (list Row) :=
  lift (validate_traversal_depth plan (max_traversal_depth ctx)) ≫= λ _,
  run_plan F ctx params plan ≫= λ result,
  mret (if is_bare_write plan then [] else result).

Definition cached_parse (cypher : string) : M Shared GraphError Statement := λ s,
  let '(p, r) := get_or_parse (parse F) cypher (parse_cache s) in (set_parse_cache p s, r).
Definition cached_plan (cypher : string) (build : Res LogicalOp) : M Shared GraphError LogicalOp :=
  λ s, let '(p, r) := get_or_plan cypher (schema_epoch s) build (plan_cache s) in
       (set_plan_cache p s, r).

(** [validate_params] runs only when parameters are passed. *)
Definition validate_given (stmt : Statement) params : Res unit :=
  match params with Some p => validate_params p stmt | None => Ok () end.

Definition plan_statement (cypher : string) (stmt : Statement) ctx params (use_cache : bool)
    : M (conn * Shared) GraphError LogicalOp := λ s,
  let build := plan_with_procedures F s.1 stmt (procedures ctx) params in
  (if use_cache && is_plan_cacheable stmt then on_shared (cached_plan cypher build) else lift build) s.

Definition read_only_error : GraphError :=
  GraphError.Transaction "write operations are not permitted inside a read transaction"
    (Some "begin a write transaction with begin_write/write_tx, or remove the CREATE/SET/DELETE/MERGE/REMOVE clause").

Definition is_explain (stmt : Statement) : bool :=
  match stmt with SExplain _ => true | _ => false end.

Definition execute_cypher (cypher : string) params ctx (caches : ExecCaches)
    : M (conn * Shared) GraphError (list Row) :=
  (if use_parse caches then on_shared (cached_parse cypher) else lift (parse F cypher))
  ≫= λ stmt,
  lift (validate_given stmt params) ≫= λ _,
  plan_statement cypher stmt ctx params (use_plan caches && use_epoch caches) ≫= λ plan,
  if is_explain stmt then reads (λ s, Ok (format_explain F s.1 plan)) else
  if require_read_only ctx && negb (is_read_only plan) then throw read_only_error else
  on_conn (execute_with_ctx ctx params plan) ≫= λ result,
  if is_ddl plan && use_epoch caches
  then on_shared (λ s, (bump_epoch s, Ok result)) else mret result.
End Engine.
Arguments ExecContext : clear implicits.
Arguments FrontEnd : clear implicits.

(** * What a query does with the caches

    The parse cache only ever holds what the parser returned, so it cannot be
    observed; a cached plan was planned for the same text in the same epoch. *)

(** ** One cache whose entries satisfy [good] *)
Section Cache.
Context {K V : Type} `{Countable K} (good : K → V → Prop).

Record cache_ok (n : nat) (s : Inner K V) : Prop := {
  co_queue : ∃ l, fifo_agrees s l ∧ length l ≤ max 1 n;
  co_capacity : capacity s = n;
  co_good : ∀ k v, cached k s = Some v → good k v;
}.

Lemma cache_ok_fresh n : cache_ok n (with_capacity n).
Proof.
  split; [exists []; split; [apply fresh_agrees|cbn; lia]|done|].
  intros k v. unfold cached. cbn. by rewrite lookup_empty.
Qed.
Lemma cache_ok_size n s : cache_ok n s → size (map s) ≤ max 1 n.
Proof. intros [(l & Ha & Hl) _ _]. by rewrite (fifo_agrees_size _ _ Ha). Qed.
Lemma cache_ok_insert n k v s : cache_ok n s → good k v → cache_ok n (insert_built k v s).
Proof.
  intros [(l & Ha & Hl) Hc Hg] Hv. pose proof (insert_built_agrees _ _ k v Ha) as Ha'. split.
  - exists (fifo_push (capacity s) l (k, v)). split; [done|]. rewrite Hc. by apply fifo_push_bound.
  - by rewrite insert_built_capacity.
  - intros k' v'. rewrite (fifo_agrees_cached _ _ _ _ Ha'). intros [Hin|[= -> ->]]%fifo_push_sub; [|done].
    apply Hg. by apply (fifo_agrees_cached _ _ _ _ Ha).
Qed.
Lemma get_or_build_ok n k build s s' r :
  cache_ok n s → (∀ v, build = Ok v → good k v) → get_or_build k build s = (s', r) →
  cache_ok n s' ∧ (r = build ∨ ∃ v, cached k s = Some v ∧ r = Ok v).
Proof.
  intros Hs Hb. unfold get_or_build. destruct (cached k s) as [v|] eqn:E.
  - intros [= <- <-]. eauto.
  - destruct build as [v|e|]; intros [= <- <-]; (split; [|by left]); [|done..].
    apply cache_ok_insert; eauto.
Qed.
End Cache.

Section Engine.
Context {conn Row ProcedureRegistry : Type} (F : FrontEnd conn Row ProcedureRegistry).
Implicit Types (params : option (gmap string value)) (ctx : ExecContext ProcedureRegistry).
Implicit Types (s : conn * Shared) (y : Shared).

Definition good_parse (cypher : string) (stmt : Statement) : Prop := parse F cypher = Ok stmt.
Definition good_plan (k : Key) (plan : LogicalOp) : Prop :=
  ∃ stmt c procs params, parse F (cypher k) = Ok stmt ∧ is_plan_cacheable stmt = true
    ∧ plan_with_procedures F c stmt procs params = Ok plan.
Record shared_ok (y : Shared) : Prop := {
  so_parse : cache_ok good_parse DEFAULT_CAPACITY (parse_cache y);
  so_plan : cache_ok good_plan DEFAULT_CAPACITY (plan_cache y);
}.

(** Computations that keep it. *)
Definition keeps {A} (m : M (conn * Shared) GraphError A) : Prop :=
  ∀ s s' r, m s = (s', r) → shared_ok s.2 → shared_ok s'.2.

Lemma queries_keep_bind {A B} (m : M (conn * Shared) GraphError A) (f : A → M (conn * Shared) GraphError B) :
  keeps m → (∀ a, keeps (f a)) → keeps (m ≫= f).
Proof.
  intros Hm Hf s s' r. unfold mbind, M_bind. destruct (m s) as [s1 [a|e|]] eqn:E.
  - intros E' Hs. eapply Hf; [exact E'|]. by eapply Hm.
  - intros [= <- <-] Hs. by eapply Hm.
  - intros [= <- <-] Hs. by eapply Hm.
Qed.
Lemma queries_keep_lift {A} (r : Res A) : keeps (lift r).
Proof. intros s s' r' [= <- <-]. done. Qed.
Lemma queries_keep_reads {A} (f : conn * Shared → Res A) : keeps (reads f).
Proof. intros s s' r' [= <- <-]. done. Qed.
Lemma queries_keep_throw {A} e : keeps (throw e : M (conn * Shared) GraphError A).
Proof. intros s s' r' [= <- <-]. done. Qed.
Lemma queries_keep_ret {A} (a : A) : keeps (mret a : M (conn * Shared) GraphError A).
Proof. intros s s' r' [= <- <-]. done. Qed.
Lemma queries_keep_on_conn {A} (m : M conn GraphError A) : keeps (on_conn m).
Proof. intros s s' r'. unfold on_conn. destruct (m s.1). by intros [= <- <-]. Qed.
Lemma queries_keep_bump {A} (a : A) : keeps (on_shared (λ y, (bump_epoch y, Ok a))).
Proof. intros s s' r' [= <- <-] [Hp Hq]. by split. Qed.

(** The parser's answer, whatever the cache holds. *)
Lemma cached_parse_run cypher y :
  shared_ok y → ∃ y', cached_parse F cypher y = (y', parse F cypher) ∧ shared_ok y'
    ∧ plan_cache y' = plan_cache y ∧ schema_epoch y' = schema_epoch y.
Proof.
  intros [Hp Hq]. unfold cached_parse, get_or_parse.
  destruct (get_or_build cypher (parse F cypher) (parse_cache y)) as [p r] eqn:E.
  apply (get_or_build_ok good_parse DEFAULT_CAPACITY) in E as [Hp' Hr]; [|done|done].
  exists (set_parse_cache p y). split_and!; [|by split|done..].
  destruct Hr as [-> |(v & Hv & ->)]; [done|]. f_equal. symmetry. by apply (co_good _ _ _ Hp).
Qed.
Lemma queries_keep_cached_parse cypher : keeps (on_shared (cached_parse F cypher)).
Proof.
  intros s s' r' E Hs. destruct (cached_parse_run cypher s.2 Hs) as (y' & Ey & Hy & _).
  unfold on_shared in E. rewrite Ey in E. by injection E as <- <-.
Qed.

(** A plan comes from the planner or from the cache. *)
Lemma plan_statement_run cypher stmt ctx params b s s' r :
  shared_ok s.2 → parse F cypher = Ok stmt →
  plan_statement F cypher stmt ctx params b s = (s', r) →
  s'.1 = s.1 ∧ shared_ok s'.2
  ∧ (r = plan_with_procedures F s.1 stmt (procedures ctx) params
     ∨ ∃ plan, r = Ok plan ∧ is_plan_cacheable stmt = true
         ∧ cached (mkKey cypher (schema_epoch s.2)) (plan_cache s.2) = Some plan).
Proof.
  intros [Hp Hq] Hstmt. unfold plan_statement.
  destruct (b && is_plan_cacheable stmt) eqn:Hb; [|intros [= <- <-]; split_and!; [done|by split|by left]].
  apply andb_true_iff in Hb as [_ Hc]. unfold on_shared, cached_plan, get_or_plan.
  destruct (get_or_build _ _ _) as [p r'] eqn:E.
  apply (get_or_build_ok good_plan DEFAULT_CAPACITY) in E as [Hq' Hr]; [|done|].
  2:{ intros plan Hplan. by exists stmt, s.1, (procedures ctx), params. }
  intros [= <- <-]. split_and!; [done|by split|]. destruct Hr as [-> |(v & Hv & ->)]; [by left|right; eauto].
Qed.

(** A query, with the cache's answer replaced by the parser's. *)
Lemma execute_cypher_parsed cypher params ctx caches s s' r :
  shared_ok s.2 → execute_cypher F cypher params ctx caches s = (s', r) →
  ∃ y1, shared_ok y1 ∧ plan_cache y1 = plan_cache s.2 ∧ schema_epoch y1 = schema_epoch s.2
    ∧ execute_cypher F cypher params ctx
        (mkExecCaches false (use_plan caches) (use_epoch caches)) (s.1, y1) = (s', r).
Proof.
  intros Hs. unfold execute_cypher. cbn [use_parse use_plan use_epoch].
  destruct (use_parse caches); [|destruct s as [c y]; intros E; exists y; done].
  destruct (cached_parse_run cypher s.2 Hs) as (y' & Ey & Hy & Hpl & Hep).
  unfold mbind at 1, M_bind at 1. unfold on_shared at 1. rewrite Ey. intros E.
  exists y'. split_and!; [done..|]. unfold mbind at 1, M_bind at 1. unfold lift at 1. exact E.
Qed.

Lemma execute_cypher_keeps cypher params ctx caches : keeps (execute_cypher F cypher params ctx caches).
Proof.
  intros s s' r E Hs. apply execute_cypher_parsed in E as (y & Hy & _ & _ & E); [|done]. revert E.
  unfold execute_cypher. cbn [use_parse use_plan use_epoch]. unfold mbind at 1, M_bind at 1, lift at 1.
  destruct (parse F cypher) as [stmt|e|] eqn:Hp; [|by intros [= <- <-]..].
  intros E. refine ((_ : keeps _) _ _ _ E Hy). apply queries_keep_bind; [apply queries_keep_lift|intros _].
  apply queries_keep_bind.
  { intros s1 s2 r2 E2 Hs1. by eapply plan_statement_run in E2 as (_ & H & _). }
  intros plan. destruct (is_explain stmt); [apply queries_keep_reads|].
  destruct (require_read_only ctx && negb (is_read_only plan)); [apply queries_keep_throw|].
  apply queries_keep_bind; [apply queries_keep_on_conn|]. intros rows.
  destruct (Ir.is_ddl plan && use_epoch caches); [apply queries_keep_bump|apply queries_keep_ret].
Qed.

(** ** The connection

    [conn_by m P]: [m] leaves the connection alone, or changes it as [P] allows. *)
Definition conn_by {A} (P : conn → conn → Prop) (m : M (conn * Shared) GraphError A) : Prop :=
  ∀ s s' r, m s = (s', r) → s'.1 = s.1 ∨ P s.1 s'.1.

Lemma conn_by_bind {A B} P (m : M (conn * Shared) GraphError A) (f : A → M (conn * Shared) GraphError B) :
  conn_by (λ _ _, False) m → (∀ a, conn_by P (f a)) → conn_by P (m ≫= f).
Proof.
  intros Hm Hf s s' r. unfold mbind, M_bind. destruct (m s) as [s1 [a|e|]] eqn:E.
  - intros E'. destruct (Hm _ _ _ E) as [<- |[]]. by eapply Hf.
  - intros [= <- <-]. destruct (Hm _ _ _ E) as [|[]]. by left.
  - intros [= <- <-]. destruct (Hm _ _ _ E) as [|[]]. by left.
Qed.
Lemma conn_by_last {A B} P (m : M (conn * Shared) GraphError A) (f : A → M (conn * Shared) GraphError B) :
  conn_by P m → (∀ a, conn_by (λ _ _, False) (f a)) → conn_by P (m ≫= f).
Proof.
  intros Hm Hf s s' r. unfold mbind, M_bind. destruct (m s) as [s1 [a|e|]] eqn:E.
  - intros E'. destruct (Hf _ _ _ _ E') as [-> |[]]. by eapply Hm.
  - intros [= <- <-]. by eapply Hm.
  - intros [= <- <-]. by eapply Hm.
Qed.
Lemma conn_by_lift {A} P (r : Res A) : conn_by P (lift r).
Proof. intros s s' r' [= <- _]. by left. Qed.
Lemma conn_by_reads {A} P (f : conn * Shared → Res A) : conn_by P (reads f).
Proof. intros s s' r' [= <- _]. by left. Qed.
Lemma conn_by_throw {A} P e : conn_by P (throw e : M (conn * Shared) GraphError A).
Proof. intros s s' r' [= <- _]. by left. Qed.
Lemma conn_by_ret {A} P (a : A) : conn_by P (mret a : M (conn * Shared) GraphError A).
Proof. intros s s' r' [= <- _]. by left. Qed.
Lemma conn_by_shared {A} P (m : M Shared GraphError A) : conn_by P (on_shared m).
Proof. intros s s' r'. unfold on_shared. destruct (m s.2). intros [= <- _]. by left. Qed.
Lemma conn_by_plan P cypher stmt ctx params b : conn_by P (plan_statement F cypher stmt ctx params b).
Proof.
  intros s s' r. unfold plan_statement. destruct (b && is_plan_cacheable stmt);
    [apply conn_by_shared|apply conn_by_lift].
Qed.

(** A query changes the database by running one plan, in a read transaction one
    without write operators. *)
Lemma execute_cypher_conn cypher params ctx caches :
  conn_by (λ c c', ∃ plan r, (require_read_only ctx = true → is_read_only plan = true)
                     ∧ execute_with_ctx F ctx params plan c = (c', r))
    (execute_cypher F cypher params ctx caches).
Proof.
  unfold execute_cypher. apply conn_by_bind; [destruct (use_parse caches); [apply conn_by_shared|apply conn_by_lift]|].
  intros stmt. apply conn_by_bind; [apply conn_by_lift|intros _].
  apply conn_by_bind; [apply conn_by_plan|intros plan].
  destruct (is_explain stmt); [apply conn_by_reads|].
  destruct (require_read_only ctx && negb (is_read_only plan)) eqn:Hro; [apply conn_by_throw|].
  apply conn_by_last; [|intros a; destruct (Ir.is_ddl plan && use_epoch caches); [apply conn_by_shared|apply conn_by_ret]].
  intros s s' r. unfold on_conn. destruct (execute_with_ctx F ctx params plan s.1) as [c' r'] eqn:E.
  intros [= <- _]. right. exists plan, r'. split; [|done]. intros Hr. rewrite Hr in Hro.
  by destruct (is_read_only plan).
Qed.
End Engine.

(** * Queries and the caches around them: main theorems

    Parameters are checked before planning, plans are cached when their bounds are
    constant, plans are checked for depth and writes, and the caches are bounded. *)

(** C35: the parameter check accepts a statement exactly when every parameter that
    occurs in it has a value, and otherwise names one that occurs and has none; it
    always returns.  Parameters in a pattern that is used as a predicate are not
    checked. *)
Theorem validate_params_exact (params : gmap string value) (s : Statement) (p : Pattern Expr) :
  ((validate_params params s = Ok () ∧ ∀ n, stmt_mentions n s → is_Some (params !! n))
   ∨ ∃ n, stmt_mentions n s ∧ params !! n = None ∧ validate_params params s = Err (missing_parameter n))
  ∧ validate_expr params (synthetic (PatternPredicate p)) = Ok ().
Proof. split; [apply (proj2 (validate_checked params))|done]. Qed.

(** C36: a plan may be cached exactly when no part of the statement calls a procedure
    or defines an index and no parameter occurs in a SKIP or LIMIT, EXISTS and
    comprehension patterns and subqueries apart; so a bound that contains a parameter
    inside such a pattern, or draws a random number, is cached with its first value. *)
Theorem plan_cacheable_exact (s : Statement) :
  (is_plan_cacheable s = true
   ↔ ∀ t, part s t → own_uncacheable t = false
       ∧ ∀ e, e ∈ own_bounds t → ∀ n, ¬ bare_mentions n e)
  ∧ (∃ (limit : Expr) (st : ReturnStatement Expr), rs_limit st = Some limit
       ∧ mentions "k" limit ∧ is_plan_cacheable (SReturn st) = true).
Proof.
  split; [apply is_plan_cacheable_parts|].
  set (k := synthetic (Parameter_ "k")).
  set (pat := mkPattern [PNode (mkNodePattern None ["A"] {[ "x" := k ]})] None ShortestPathMode.None).
  set (limit := synthetic (FunctionCall "size"
    [synthetic (PatternComprehension None pat None (synthetic (Literal (LiteralValue.I64 1))))] false None)).
  exists limit, (mkReturnStmt (mkReturnClause [] false) [] None (Some limit)).
  split_and!; [done| |by vm_compute].
  eapply me_expr; [by left|]. eapply me_expr; [|apply (me_param "k" span_synthetic)].
  cbn [kind_exprs]. apply elem_of_app. left.
  assert (pattern_exprs pat = [k]) as -> by by vm_compute. by left.
Qed.

(** before a plan runs, it is taken for read-only exactly when no operator in it
    writes, and it is accepted exactly when the depth of every traversal in it is
    within the limit, 0 being no limit; otherwise the error names a traversal that is
    too deep.  What a MATCH ... CREATE creates contains no traversal. *)
Theorem plan_checks_exact (plan : LogicalOp) (limit : N) :
  (is_read_only plan = true ↔ ∀ o, occurs plan o → is_bare_write o = false)
  ∧ (validate_traversal_depth plan limit = Ok ()
     ↔ limit = 0%N ∨ ∀ o h, traverses plan o → hops o = Some h → (h ≤ limit)%N)
  ∧ (validate_traversal_depth plan limit = Ok ()
     ∨ ∃ o h, traverses plan o ∧ hops o = Some h ∧ (limit < h)%N
         ∧ validate_traversal_depth plan limit = Err (too_deep (hop_name o) h limit)).
Proof.
  split; [apply is_read_only_occurs|]. unfold validate_traversal_depth.
  case_decide as H0; [split; [naive_solver|by left]|].
  destruct (check_depth_exact limit plan) as [[-> Hall]|(o & h & Ho & Hh & Hlt & ->)].
  - split; [split; [by right|done]|by left].
  - split; [|right; by exists o, h]. split; [done|]. intros [?|Hall]; [done|].
    specialize (Hall o h Ho Hh). lia.
Qed.

(** Whatever insertions several callers make, in whatever order, a FIFO cache holds
    the entries of a queue that drops its oldest when it is full, never more than its
    capacity (one, if that is 0); a lookup returns a value that was built for exactly
    its key, and an undisturbed use returns the cached or the built value and never
    caches an error. *)
Theorem fifo_cache_exact {K V} `{Countable K} (n : nat) (h : list (K * V)) (k : K) (build : Res V) :
  let l := fifo_run n h in
  let s := fill (with_capacity n) h in
  order s = l.*1 ∧ NoDup l.*1 ∧ length l ≤ max 1 n
  ∧ (∀ v, cached k s = Some v ↔ (k, v) ∈ l) ∧ (∀ x, x ∈ l → x ∈ h)
  ∧ get_or_build k build s
    = match cached k s, build with
      | Some v, _ => (s, Ok v)
      | None, Ok v => (fill (with_capacity n) (h ++ [(k, v)]), Ok v)
      | None, e => (s, e)
      end.
Proof.
  intros l s. pose proof (fill_agrees _ _ h (fresh_agrees n)) as Ha.
  split_and!; [apply Ha|apply Ha|apply fifo_run_bound| |apply fifo_run_sub|].
  - intros v. by apply fifo_agrees_cached.
  - unfold s, cached. rewrite (fa_map _ _ Ha). apply get_or_build_run.
Qed.

(** the regex cache holds at most its capacity of patterns, each once and compiled
    in its anchored form; a use compiles only on a miss, puts the pattern last and
    drops the one used longest ago, and a pattern that does not compile is an error
    that changes nothing.  With capacity 0 the first new pattern panics. *)
Theorem regex_cache_lru {Regex} (compile : string → result string Regex) (s : RegexCache) (pat : string) :
  lru_ok compile s →
  match compile (anchored pat) with
  | Ok re =>
      if decide (regex_capacity s = 0) then get_or_compile compile pat s = (s, Panic)
      else ∃ s', get_or_compile compile pat s = (s', Ok re) ∧ lru_ok compile s'
             ∧ entries s' = lru_use (regex_capacity s) (entries s) (pat, re)
             ∧ regex_capacity s' = regex_capacity s
  | Err err => get_or_compile compile pat s = (s, Err (invalid_pattern pat err))
  | Panic => get_or_compile compile pat s = (s, Panic)
  end.
Proof.
  intros Hs. destruct (decide (regex_capacity s = 0)) as [H0|H0].
  - assert (entries s = []) as He.
    { pose proof (lo_bound _ _ Hs). destruct (entries s); [done|cbn in *; lia]. }
    unfold get_or_compile. rewrite He, H0. cbn [position length].
    by destruct (compile (anchored pat)).
  - rewrite (get_or_compile_use compile s pat Hs) by lia.
    destruct (compile (anchored pat)) as [re|err|] eqn:E; [|done..].
    eexists. split_and!; [done| |done..]. apply lru_use_ok; [done|lia|done].
Qed.

(** ** Witnesses *)
Module QueryDemo.
(** A library that accepts every pattern and keeps its text. *)
Definition compile (pat : string) : result string string := Ok pat.
Definition full : @RegexCache string := mkRegexCache [("a", anchored "a"); ("b", anchored "b")] 2.
Lemma full_ok : lru_ok compile full.
Proof.
  split; [by_decide|cbn; lia|]. intros pat re. cbn [entries full].
  intros [[= -> ->]|[[= -> ->]|[]%not_elem_of_nil]%elem_of_cons]%elem_of_cons; done.
Qed.
End QueryDemo.

(** The pattern "b" was used last, so "a" makes room for "c". *)
Lemma regex_cache_lru_witness :
  ∃ s', get_or_compile QueryDemo.compile "c" QueryDemo.full = (s', Ok (anchored "c"))
    ∧ lru_ok QueryDemo.compile s'
    ∧ entries s' = [("b", anchored "b"); ("c", anchored "c")] ∧ regex_capacity s' = 2.
Proof. exact (regex_cache_lru QueryDemo.compile QueryDemo.full "c" QueryDemo.full_ok). Defined.
