(* ===== verification/Database.v ===== *)
(** * Database handles: src/src/db.rs

    A handle owns one SQLite connection and remembers which kind of transaction it
    opened on it.  Single queries outside a transaction get one of their own; the
    typed API of src/src/transaction.rs opens one for the life of a guard.

    SQLite's part is [Session]: what is durable and what the open transaction sees.
    [Faults] are its documented failures: BEGIN may find the database busy, COMMIT may
    fail and either leave the transaction open or roll it back, and an error in a
    statement may roll it back. *)
From stdpp Require Import pretty.
From S2P Require Export Schema Tx TxSpec Engine.

Record Session (conn : Type) := mkSession { durable : conn; active : option conn }.
Arguments mkSession {conn} _ _.
Arguments durable {conn} _.
Arguments active {conn} _.

Record Faults (conn : Type) := mkFaults {
  begin_fails : Session conn → option string;
  commit_fails : Session conn → option (string * bool);
  error_aborts : conn → bool;
}.
Arguments mkFaults {conn} _ _ _.
Arguments begin_fails {conn} _ _.
Arguments commit_fails {conn} _ _.
Arguments error_aborts {conn} _ _.

Section Sqlite.
Context {conn : Type} (X : Faults conn).
Implicit Types (s : Session conn).

Definition sql_begin : M (Session conn) GraphError unit := λ s,
  match active s with
  | Some _ => (s, Err (GraphError.from_rusqlite "cannot start a transaction within a transaction"))
  | None =>
      match begin_fails X s with
      | Some e => (s, Err (GraphError.from_rusqlite e))
      | None => (mkSession (durable s) (Some (durable s)), Ok ())
      end
  end.
Definition sql_commit : M (Session conn) GraphError unit := λ s,
  match active s with
  | None => (s, Err (GraphError.from_rusqlite "cannot commit - no transaction is active"))
  | Some c =>
      match commit_fails X s with
      | Some (e, false) => (s, Err (GraphError.from_rusqlite e))
      | Some (e, true) => (mkSession (durable s) None, Err (GraphError.from_rusqlite e))
      | None => (mkSession c None, Ok ())
      end
  end.
Definition sql_rollback : M (Session conn) GraphError unit := λ s,
  match active s with
  | None => (s, Err (GraphError.from_rusqlite "cannot rollback - no transaction is active"))
  | Some _ => (mkSession (durable s) None, Ok ())
  end.

(** Only SQLite's own errors can end a transaction. *)
Definition aborts (r : Res unit) (c : conn) : bool :=
  match r with Err (GraphError.Storage _ _) => error_aborts X c | _ => false end.
(** Outside a transaction every statement is committed as it runs. *)
Definition on_session {Y A} (m : M (conn * Y) GraphError A) : M (Session conn * Y) GraphError A :=
  λ '(s, y),
    match active s with
    | None => let '((c, y'), r) := m (durable s, y) in ((mkSession c None, y'), r)
    | Some c =>
        let '((c', y'), r) := m (c, y) in
        let open := if aborts (r ≫= λ _, Ok ()) c' then None else Some c' in
        ((mkSession (durable s) open, y'), r)
    end.
End Sqlite.

(** ** The handle *)
Inductive TxState := TxNone | TxRead | TxWrite.
#[global] Instance TxState_eq_dec : EqDecision TxState.
Proof. solve_decision. Defined.
Definition tx_state_debug (t : TxState) : string :=
  match t with TxNone => "None" | TxRead => "Read" | TxWrite => "Write" end.

Module SyncMode.
Inductive SyncMode := Off | Normal | Full | Extra.
Definition display (m : SyncMode) : string :=
  match m with Off => "OFF" | Normal => "NORMAL" | Full => "FULL" | Extra => "EXTRA" end.
End SyncMode.
Record Config := mkConfig {
  cf_busy_timeout_ms : N;
  cf_synchronous : SyncMode.SyncMode;
  cf_max_traversal_depth : N;
  cf_max_traversal_work : N;
  cf_max_property_value_bytes : N;
  cf_max_name_bytes : nat;
  cf_max_result_rows : N;
  cf_cache_size : Z;
  cf_mmap_size : Z;
}.
Definition default_config : Config :=
  mkConfig 5000 SyncMode.Normal 64 10000000 (1024 * 1024) 256 100000 (-32000) 268435456.

Record Database (conn : Type) := mkDatabase {
  db_session : Session conn;
  db_shared : Shared;
  tx_state : TxState;
  db_config : Config;
}.
Arguments mkDatabase {conn} _ _ _ _.
Arguments db_session {conn} _.
Arguments db_shared {conn} _.
Arguments tx_state {conn} _.
Arguments db_config {conn} _.

Module Db.
Section Handle.
Context {conn Row ProcedureRegistry : Type} {O : SqlOps conn} {Mp : Msgpack}.
Context (X : Faults conn) (F : FrontEnd conn Row ProcedureRegistry).
Context (no_procedures : ProcedureRegistry).
Abbreviation D := (M (Database conn) GraphError).
Implicit Types (d : Database conn) (params : option (gmap string value)).

Definition with_session (s : Session conn) d : Database conn :=
  mkDatabase s (db_shared d) (tx_state d) (db_config d).
Definition with_tx_state (t : TxState) d : Database conn :=
  mkDatabase (db_session d) (db_shared d) t (db_config d).

(** [self.conn.execute_batch]. *)
Definition batch {A} (m : M (Session conn) GraphError A) : D A := λ d,
  let '(s, r) := m (db_session d) in (with_session s d, r).
Definition set_tx_state (t : TxState) : D unit := λ d, (with_tx_state t d, Ok ()).
(** A computation on the connection and what queries share. *)
Definition engine {A} (m : M (conn * Shared) GraphError A) : D A := λ d,
  let '((s, y), r) := on_session X m (db_session d, db_shared d) in
  (mkDatabase s y (tx_state d) (db_config d), r).
Definition shared {A} (m : M Shared GraphError A) : D A := λ d,
  let '(y, r) := m (db_shared d) in (mkDatabase (db_session d) y (tx_state d) (db_config d), r).

Definition ensure_no_active_tx (op : string) : D unit := λ d,
  if decide (tx_state d = TxNone) then (d, Ok ())
  else (d, Err (GraphError.Transaction
    (op +:+ ": a " +:+ tx_state_debug (tx_state d)
     +:+ " transaction is already active; nested transactions are not supported")
    (Some "commit or roll back the current transaction before beginning another"))).
Definition require_write_tx (op : string) : D unit := λ d,
  if decide (tx_state d = TxWrite) then (d, Ok ())
  else (d, Err (GraphError.Transaction
    (op +:+ ": requires an active write transaction (state: " +:+ tx_state_debug (tx_state d) +:+ ")")
    (Some "call begin_write before this operation"))).

Definition begin_write : D unit :=
  ensure_no_active_tx "begin_write" ≫= λ _, batch (sql_begin X) ≫= λ _, set_tx_state TxWrite.
Definition begin_read : D unit :=
  ensure_no_active_tx "begin_read" ≫= λ _, batch (sql_begin X) ≫= λ _, set_tx_state TxRead.

Definition no_tx (what : string) : GraphError :=
  GraphError.Transaction ("no active transaction to " +:+ what) None.
Definition commit : D unit := λ d,
  if decide (tx_state d = TxNone) then (d, Err (no_tx "commit"))
  else (batch (sql_commit X) ≫= λ _, set_tx_state TxNone) d.
Definition rollback : D unit := λ d,
  if decide (tx_state d = TxNone) then (d, Err (no_tx "roll back"))
  else (batch sql_rollback ≫= λ _, set_tx_state TxNone) d.

Definition exec_caches : ExecCaches := mkExecCaches true true true.
Definition exec_context d (read_only : bool) : ExecContext ProcedureRegistry :=
  mkExecContext (cf_max_result_rows (db_config d)) (cf_max_traversal_depth (db_config d))
    (cf_max_traversal_work (db_config d)) no_procedures read_only.

(** The end of an automatic transaction: an error rolls back, whatever that returns. *)
Definition finish_auto {A} (ddl : bool) (m : D A) : D A := λ d,
  match m d with
  | (d', Ok records) =>
      (batch (sql_commit X) ≫= λ _, set_tx_state TxNone ≫= λ _,
       shared (λ y, (if ddl then bump_epoch y else y, Ok records))) d'
  | (d', Err e) => (with_tx_state TxNone (batch sql_rollback d').1, Err e)
  | (d', Panic) => (d', Panic)
  end.

Definition execute_with_params (cypher : string) params : D (list Row) := λ d,
  if decide (tx_state d ≠ TxNone) then
    engine (execute_cypher F cypher params (exec_context d (bool_decide (tx_state d = TxRead)))
      exec_caches) d
  else
    (shared (cached_parse F cypher) ≫= λ stmt,
     lift (validate_given stmt params) ≫= λ _,
     let ctx := exec_context d false in
     engine (plan_statement F cypher stmt ctx params true) ≫= λ plan,
     if is_explain stmt
     then reads (λ d, Ok (format_explain F (default (durable (db_session d)) (active (db_session d))) plan))
     else
       batch (sql_begin X) ≫= λ _,
       set_tx_state (if is_read_only plan then TxRead else TxWrite) ≫= λ _,
       finish_auto (Ir.is_ddl plan) (engine (on_conn (execute_with_ctx F ctx params plan)))) d.
Definition execute (cypher : string) : D (list Row) := execute_with_params cypher None.

(** ** Index operations of a stateful transaction *)
Definition ddl (op : string) (m : M conn GraphError unit) : D unit :=
  require_write_tx op ≫= λ _,
  engine (on_conn m) ≫= λ _,
  shared (λ y, (bump_epoch y, Ok ())).
Definition create_index (label property : string) : D unit :=
  ddl "create_index" (Index.create_index label property).
Definition drop_index (label property : string) : D unit :=
  ddl "drop_index" (Index.drop_index label property).
Definition create_composite_index (label : string) (properties : list string) : D unit :=
  ddl "create_composite_index" (Index.create_composite_index label properties).
Definition drop_composite_index (label : string) (properties : list string) : D unit :=
  ddl "drop_composite_index" (Index.drop_composite_index label properties).
Definition create_fulltext_index (label property : string) : D unit :=
  ddl "create_fulltext_index" (Fts.create_fulltext_index label property).
Definition create_fulltext_index_ci (label property : string) : D unit :=
  ddl "create_fulltext_index_ci" (Fts.create_fulltext_index_ci label property).
Definition create_fulltext_index_word (label property : string) : D unit :=
  ddl "create_fulltext_index_word" (Fts.create_fulltext_index_word label property).
Definition create_fulltext_index_word_multi (label : string) (properties : list string) : D unit :=
  ddl "create_fulltext_index_word_multi" (Fts.create_fulltext_index_word_multi label properties).
Definition drop_fulltext_index (label property : string) : D unit :=
  ddl "drop_fulltext_index" (Fts.drop_fulltext_index label property).

(** *** Closing: [impl Drop for Database] *)
Definition drop_handle d : Database conn :=
  if decide (tx_state d = TxNone) then d
  else with_session (sql_rollback (db_session d)).1 (with_tx_state TxNone d).

(** ** The typed API

    [write_tx] and [read_tx] hand out a guard; while it lives the handle cannot be used
    otherwise.  Dropping a guard, or one whose COMMIT failed, makes [rusqlite] roll back
    a transaction that is still open. *)
Inductive Finish := Commit | Rollback | Dropped.

Definition drop_transaction : M (Session conn) GraphError unit := λ s, ((sql_rollback s).1, Ok ()).
Definition finish_guard (f : Finish) : M (Session conn) GraphError unit := λ s,
  match f with
  | Commit => let '(s', r) := sql_commit X s in ((drop_transaction s').1, r)
  | Rollback => sql_rollback s
  | Dropped => drop_transaction s
  end.
Definition open_tx (op : string) : D unit :=
  ensure_no_active_tx op ≫= λ _, batch (sql_begin X).
Definition write_tx : D unit := open_tx "write_tx".
Definition read_tx : D unit := open_tx "read_tx".

(** What a guard's methods run: operations on storage, and queries. *)
Definition query_with_procedures d (read_only : bool) (cypher : string) params
    (procs : ProcedureRegistry) : M (conn * Shared) GraphError (list Row) :=
  execute_cypher F cypher params
    (mkExecContext (cf_max_result_rows (db_config d)) (cf_max_traversal_depth (db_config d))
       (cf_max_traversal_work (db_config d)) procs read_only) exec_caches.
Definition query_with_params d (read_only : bool) (cypher : string) params
    : M (conn * Shared) GraphError (list Row) :=
  query_with_procedures d read_only cypher params no_procedures.
Definition query d (read_only : bool) (cypher : string) : M (conn * Shared) GraphError (list Row) :=
  query_with_params d read_only cypher None.

(** The operations of [WriteTransaction], on the handle's epoch. *)
Definition with_epoch_of {A} (m : M (conn * N) GraphError A) : M (conn * Shared) GraphError A :=
  λ '(c, y), let '((c', e), r) := m (c, schema_epoch y) in
             ((c', mkShared (parse_cache y) (plan_cache y) e), r).
Definition tx_limits (cf : Config) : Tx.limits :=
  Tx.mkLimits (cf_max_property_value_bytes cf) (cf_max_name_bytes cf).
Inductive guard_op :=
| GOperation (op : tx_op)
| GQuery (cypher : string) (params : option (gmap string value)).
(** A caller may go on after an error; rows go to the caller. *)
Definition guard_step (read_only : bool) (op : guard_op) : D unit := λ d,
  match op with
  | GOperation op => engine (with_epoch_of (run_op (tx_limits (db_config d)) op)) d
  | GQuery q params => (engine (query_with_params d read_only q params) ≫= λ _, mret ()) d
  end.
Definition guard_steps (read_only : bool) (ops : list guard_op) : D unit := λ d,
  (foldl (λ d op, (guard_step read_only op d).1) d ops, Ok ()).
(** The life of a guard. *)
Definition with_guard (read_only : bool) (ops : list guard_op) (f : Finish) : D unit :=
  (if read_only then read_tx else write_tx) ≫= λ _,
  guard_steps read_only ops ≫= λ _,
  batch (finish_guard f).
End Handle.
End Db.

(** ** Opening: the identity of the file

    [PRAGMA application_id] and [PRAGMA user_version] are two fields of the header. *)
Definition GRAPHDBLITE_APPLICATION_ID : Z := 1195655756.
Definition GRAPHDBLITE_SCHEMA_VERSION : Z := 1.

Record Header := mkHeader { application_id : Z; user_version : Z }.
Definition hex_digit (n : N) : byte := n2b (if decide (n < 10)%N then 48 + n else 87 + n).
Fixpoint hex_digits (k : nat) (n : N) : bytes :=
  match k with
  | 0 => []
  | S k' => hex_digits k' (n / 16) ++ [hex_digit (n mod 16)]
  end.
(** [{:#010x}] of an [i32] shows its two's complement. *)
Definition fmt_hex32 (z : Z) : string := "0x" +:+ bytes_str (hex_digits 8 (Z.to_N (z mod 2 ^ 32))).

Definition foreign_file (app_id : Z) : GraphError :=
  GraphError.Storage ("file is not a graphdblite database (application_id=" +:+ fmt_hex32 app_id
    +:+ ", expected " +:+ fmt_hex32 GRAPHDBLITE_APPLICATION_ID +:+ " 'GDBL')")
    (Some "this file was created by a different application — point graphdblite at a fresh path or a previously-opened graphdblite database").
Definition newer_file (user_version : Z) : GraphError :=
  GraphError.Storage ("database schema version " +:+ pretty user_version
    +:+ " is newer than this build supports (" +:+ pretty GRAPHDBLITE_SCHEMA_VERSION +:+ ")")
    (Some "this file was written by a newer graphdblite release; upgrade the library to read it").

Section Open.
Context {conn : Type} {O : SqlOps conn} {Mp : Msgpack}.
(** Whether SQLite accepts the settings, and the new header. *)
Context (configure : Config → result string unit) (write_header : result string unit).
Abbreviation File := (Header * conn)%type.

Definition storage_result (r : result string unit) : Res unit :=
  match r with Ok x => Ok x | Err e => Err (GraphError.from_rusqlite e) | Panic => Panic end.

Definition check_and_stamp_identity : M File GraphError unit := λ '(h, c),
  if decide (application_id h ≠ 0%Z ∧ application_id h ≠ GRAPHDBLITE_APPLICATION_ID)
  then ((h, c), Err (foreign_file (application_id h))) else
  if decide (GRAPHDBLITE_SCHEMA_VERSION < user_version h)%Z
  then ((h, c), Err (newer_file (user_version h))) else
  match storage_result write_header with
  | Ok _ => ((mkHeader GRAPHDBLITE_APPLICATION_ID GRAPHDBLITE_SCHEMA_VERSION, c), Ok ())
  | Err e => ((h, c), Err e)
  | Panic => ((h, c), Panic)
  end.

Definition new_handle (c : conn) (config : Config) : Database conn :=
  mkDatabase (mkSession c None)
    (mkShared (with_capacity DEFAULT_CAPACITY) (with_capacity DEFAULT_CAPACITY) 0) TxNone config.

Definition on_file {A} (m : M conn GraphError A) : M File GraphError A := λ f,
  let '(c, r) := m f.2 in ((f.1, c), r).
Definition init (config : Config) : M File GraphError (Database conn) :=
  lift (storage_result (configure config)) ≫= λ _,
  check_and_stamp_identity ≫= λ _,
  on_file init_schema ≫= λ _,
  reads (λ f, Ok (new_handle f.2 config)).
End Open.
