(* ===== verification/DatabaseSpec.v ===== *)
(** * The transactions of a handle

    What every operation of a handle keeps: a handle without a transaction has none
    open in SQLite, and its caches stay bounded and correct.  An automatic transaction
    is all or nothing. *)
From S2P Require Export Database Engine.
Import Db.

Section Handle.
Context {conn Row ProcedureRegistry : Type} {O : SqlOps conn} {Mp : Msgpack}.
Context (X : Faults conn) (F : FrontEnd conn Row ProcedureRegistry) (procs : ProcedureRegistry).
Abbreviation D := (M (Database conn) GraphError).
Implicit Types (d : Database conn) (s : Session conn).

(** ** SQLite *)
Lemma sql_begin_inv s s' r :
  sql_begin X s = (s', r) →
  (r = Ok () ∧ active s = None ∧ s' = mkSession (durable s) (Some (durable s)))
  ∨ (s' = s ∧ ∃ e, r = Err e).
Proof.
  unfold sql_begin. destruct (active s) eqn:E; [intros [= <- <-]; eauto|].
  destruct (begin_fails X s); intros [= <- <-]; eauto.
Qed.
Lemma sql_commit_inv s s' r :
  sql_commit X s = (s', r) →
  (∃ c, r = Ok () ∧ active s = Some c ∧ s' = mkSession c None)
  ∨ (durable s' = durable s ∧ (∃ e, r = Err (GraphError.from_rusqlite e))
     ∧ (active s' = active s ∨ active s' = None)).
Proof.
  unfold sql_commit. destruct (active s) as [c|] eqn:E; [|intros [= <- <-]; eauto 10].
  destruct (commit_fails X s) as [[e []]|]; intros [= <- <-]; eauto 10.
Qed.
Lemma sql_rollback_inv s : active (sql_rollback s).1 = None ∧ durable (sql_rollback s).1 = durable s.
Proof. unfold sql_rollback. by destruct (active s) eqn:E. Qed.
Lemma finish_guard_idle f s : active (finish_guard X f s).1 = None.
Proof.
  destruct f; cbn [finish_guard]; [|apply sql_rollback_inv..].
  destruct (sql_commit X s) as [s' r]. apply sql_rollback_inv.
Qed.

(** ** One computation on the connection *)
Lemma engine_inv {A} (m : M (conn * Shared) GraphError A) d d' r :
  engine X m d = (d', r) →
  tx_state d' = tx_state d ∧ db_config d' = db_config d
  ∧ match active (db_session d) with
    | None => active (db_session d') = None
        ∧ m (durable (db_session d), db_shared d) = ((durable (db_session d'), db_shared d'), r)
    | Some c => durable (db_session d') = durable (db_session d)
        ∧ ∃ c', m (c, db_shared d) = ((c', db_shared d'), r)
          ∧ active (db_session d') = (if aborts X (r ≫= λ _, Ok ()) c' then None else Some c')
    end.
Proof.
  unfold engine, on_session. destruct (active (db_session d)) as [c|].
  - destruct (m (c, db_shared d)) as [[c' y'] r'] eqn:E. intros [= <- <-]. cbn. eauto 10.
  - destruct (m (durable (db_session d), db_shared d)) as [[c' y'] r'] eqn:E.
    intros [= <- <-]. cbn. eauto.
Qed.

(** ** The caches *)
Definition d_keeps {A} (m : D A) : Prop :=
  ∀ d d' r, m d = (d', r) → shared_ok F (db_shared d) → shared_ok F (db_shared d').

Lemma d_keeps_bind {A B} (m : D A) (f : A → D B) :
  d_keeps m → (∀ a, d_keeps (f a)) → d_keeps (m ≫= f).
Proof.
  intros Hm Hf s s' r. unfold mbind, M_bind. destruct (m s) as [s1 [a|e|]] eqn:E.
  - intros E' Hs. eapply Hf; [exact E'|]. by eapply Hm.
  - intros [= <- <-] Hs. by eapply Hm.
  - intros [= <- <-] Hs. by eapply Hm.
Qed.
Lemma d_keeps_same {A} (m : D A) : (∀ d, db_shared (m d).1 = db_shared d) → d_keeps m.
Proof. intros H d d' r E Hs. specialize (H d). rewrite E in H. cbn in H. by rewrite H. Qed.
Lemma d_keeps_lift {A} (r : Res A) : d_keeps (lift r).
Proof. by apply d_keeps_same. Qed.
Lemma d_keeps_reads {A} (f : Database conn → Res A) : d_keeps (reads f).
Proof. by apply d_keeps_same. Qed.
Lemma d_keeps_ret {A} (a : A) : d_keeps (mret a).
Proof. by apply d_keeps_same. Qed.
Lemma d_keeps_batch {A} (m : M (Session conn) GraphError A) : d_keeps (batch m).
Proof. apply d_keeps_same. intros d. unfold batch. by destruct (m (db_session d)). Qed.
Lemma d_keeps_state t : d_keeps (set_tx_state t).
Proof. by apply d_keeps_same. Qed.
Lemma d_keeps_ensure op : d_keeps (ensure_no_active_tx op).
Proof. apply d_keeps_same. intros d. unfold ensure_no_active_tx. by case_decide. Qed.
Lemma d_keeps_require op : d_keeps (require_write_tx op).
Proof. apply d_keeps_same. intros d. unfold require_write_tx. by case_decide. Qed.
Lemma d_keeps_engine {A} (m : M (conn * Shared) GraphError A) : keeps F m → d_keeps (engine X m).
Proof.
  intros Hm d d' r (_ & _ & E)%engine_inv Hs. destruct (active (db_session d)) as [c|].
  - destruct E as (_ & c' & E & _). by eapply (Hm _ _ _ E).
  - destruct E as [_ E]. by eapply (Hm _ _ _ E).
Qed.
Lemma d_keeps_shared {A} (m : M Shared GraphError A) :
  (∀ y, shared_ok F y → shared_ok F (m y).1) → d_keeps (shared m).
Proof.
  intros Hm d d' r. unfold shared. destruct (m (db_shared d)) as [y r'] eqn:E. intros [= <- <-] Hs.
  cbn. specialize (Hm _ Hs). by rewrite E in Hm.
Qed.
Lemma d_keeps_bump {A} (b : bool) (a : A) :
  d_keeps (shared (λ y, (if b then bump_epoch y else y, Ok a))).
Proof. apply d_keeps_shared. intros y [Hp Hq]. by destruct b; split. Qed.

(** ** Inversion of the operations *)
Lemma ensure_inv op d d' r :
  ensure_no_active_tx op d = (d', r) →
  d' = d ∧ ((tx_state d = TxNone ∧ r = Ok ()) ∨ (tx_state d ≠ TxNone ∧ ∃ e, r = Err e)).
Proof. unfold ensure_no_active_tx. case_decide; intros [= <- <-]; eauto 10. Qed.

Lemma D_bind_inv {A B} (m : D A) (f : A → D B) d d' r :
  (m ≫= f) d = (d', r) →
  (∃ d1 a, m d = (d1, Ok a) ∧ f a d1 = (d', r))
  ∨ (∃ e, m d = (d', Err e) ∧ r = Err e) ∨ (m d = (d', Panic) ∧ r = Panic).
Proof.
  unfold mbind, M_bind. destruct (m d) as [d1 [a|e|]] eqn:E; [by left; eauto|..];
    intros [= <- <-]; eauto.
Qed.

(** BEGIN and the mark that goes with it. *)
Lemma begin_inv {A} t (k : D A) d d' r :
  (batch (sql_begin X) ≫= λ _, set_tx_state t ≫= λ _, k) d = (d', r) →
  (active (db_session d) = None
   ∧ k (mkDatabase (mkSession (durable (db_session d)) (Some (durable (db_session d))))
          (db_shared d) t (db_config d)) = (d', r))
  ∨ (d' = d ∧ ∃ e, r = Err e).
Proof.
  unfold mbind, M_bind, batch. destruct (sql_begin X (db_session d)) as [s1 r1] eqn:E.
  apply sql_begin_inv in E as [(-> & Ha & ->)|(-> & e & ->)]; intros E; [by left|right].
  injection E as <- <-. destruct d. eauto.
Qed.

Definition agree d : Prop := tx_state d = TxNone → active (db_session d) = None.
(** No failure has ended a transaction behind the handle's back. *)
Definition healthy d : Prop := tx_state d ≠ TxNone → is_Some (active (db_session d)).
Record handle_ok (d : Database conn) : Prop := {
  ho_agree : agree d;
  ho_shared : shared_ok F (db_shared d);
}.

(** ** The operations of a handle *)
Inductive handle_op :=
| HBeginWrite
| HBeginRead
| HCommit
| HRollback
| HExecute (cypher : string) (params : option (gmap string value))
| HIndex (op : string) (m : M conn GraphError unit)
| HGuard (read_only : bool) (ops : list guard_op) (f : Finish).

Definition run_handle (op : handle_op) : D unit :=
  match op with
  | HBeginWrite => begin_write X
  | HBeginRead => begin_read X
  | HCommit => commit X
  | HRollback => rollback
  | HExecute q params => execute_with_params X F procs q params ≫= λ _, mret ()
  | HIndex op m => ddl X op m
  | HGuard ro ops f => with_guard X F procs ro ops f
  end.

(** *** The caches survive everything *)
Lemma with_epoch_of_keeps {A} (m : M (conn * N) GraphError A) : keeps F (with_epoch_of m).
Proof.
  intros [c y] s' r. unfold with_epoch_of. destruct (m (c, schema_epoch y)) as [[c' e] r'].
  by intros [= <- <-] [Hp Hq].
Qed.
Lemma guard_step_keeps ro op : d_keeps (guard_step X F procs ro op).
Proof.
  intros d d' r E Hs. destruct op as [op|q params]; cbn [guard_step] in E;
    refine ((_ : d_keeps _) _ _ _ E Hs).
  - apply d_keeps_engine, with_epoch_of_keeps.
  - apply d_keeps_bind; [|intros; apply d_keeps_ret]. apply d_keeps_engine, execute_cypher_keeps.
Qed.
Lemma guard_steps_keeps ro ops : d_keeps (guard_steps X F procs ro ops).
Proof.
  intros d d' r [= <- _]. revert d. induction ops as [|op ops IH]; intros d Hs; [done|].
  cbn [foldl]. apply IH. destruct (guard_step X F procs ro op d) as [d1 r1] eqn:E.
  by eapply (guard_step_keeps ro op _ _ _ E).
Qed.
Lemma finish_auto_keeps {A} b (m : D A) : d_keeps m → d_keeps (finish_auto X b m).
Proof.
  intros Hm d d' r. unfold finish_auto. destruct (m d) as [d1 [a|e|]] eqn:E.
  - intros E' Hs. refine (d_keeps_bind _ _ _ _ _ _ _ E' (Hm _ _ _ E Hs)); [apply d_keeps_batch|].
    intros _. apply d_keeps_bind; [apply d_keeps_state|intros _; apply d_keeps_bump].
  - intros [= <- <-] Hs. assert (shared_ok F (db_shared d1)) as Hs1 by by eapply Hm.
    unfold batch. destruct (sql_rollback (db_session d1)). done.
  - intros [= <- <-] Hs. by eapply Hm.
Qed.
(** The parse and the plan of an automatic transaction. *)
Lemma plan_keeps q stmt ctx params :
  parse F q = Ok stmt → d_keeps (engine X (plan_statement F q stmt ctx params true)).
Proof. intros Hp. apply d_keeps_engine. intros s s' r E Hs. by eapply plan_statement_run in E as (_ & H & _). Qed.
Lemma shared_parse_run q d :
  shared_ok F (db_shared d) →
  ∃ y, shared (cached_parse F q) d = (mkDatabase (db_session d) y (tx_state d) (db_config d), parse F q)
    ∧ shared_ok F y.
Proof.
  intros Hs. destruct (cached_parse_run F q (db_shared d) Hs) as (y & E & Hy & _).
  exists y. split; [|done]. unfold shared. by rewrite E.
Qed.

(** An automatic transaction, unless it fails before BEGIN, is the plan and what
    follows. *)
Lemma execute_auto_inv q params d d' r :
  handle_ok d → tx_state d = TxNone → execute_with_params X F procs q params d = (d', r) →
  handle_ok d' ∧ durable (db_session d') = durable (db_session d) ∧ tx_state d' = TxNone
  ∨ ∃ stmt plan d1,
      parse F q = Ok stmt ∧ validate_given stmt params = Ok () ∧ is_explain stmt = false
      ∧ tx_state d1 = (if is_read_only plan then TxRead else TxWrite)
      ∧ shared_ok F (db_shared d1)
      ∧ db_session d1 = mkSession (durable (db_session d)) (Some (durable (db_session d)))
      ∧ finish_auto X (Ir.is_ddl plan)
          (engine X (on_conn (execute_with_ctx F (exec_context procs d false) params plan))) d1 = (d', r).
Proof.
  intros [Ha Hs] Ht. unfold execute_with_params. rewrite decide_False by (intros H; by apply H).
  destruct (shared_parse_run q d Hs) as (y & Ep & Hy).
  unfold mbind at 1, M_bind at 1. rewrite Ep. set (d0 := mkDatabase _ _ _ _).
  assert (handle_ok d0 ∧ durable (db_session d0) = durable (db_session d) ∧ tx_state d0 = TxNone) as H0
    by (split_and!; [by split|done..]).
  destruct (parse F q) as [stmt|e|] eqn:Hp; [|by intros [= <- <-]; left..].
  unfold mbind at 1, M_bind at 1, lift at 1.
  destruct (validate_given stmt params) as [[]|e|] eqn:Hv; [|by intros [= <- <-]; left..].
  set (ctx := exec_context procs d false).
  assert (∀ d1 r1, engine X (plan_statement F q stmt ctx params true) d0 = (d1, r1) →
    handle_ok d1 ∧ durable (db_session d1) = durable (db_session d) ∧ tx_state d1 = TxNone
    ∧ active (db_session d1) = None) as Hplan.
  { intros d1 r1 E1. pose proof (plan_keeps q stmt ctx params Hp _ _ _ E1 Hy) as Hs1.
    apply engine_inv in E1 as (Et & _ & E1). cbn [db_session d0] in E1. rewrite (Ha Ht) in E1.
    destruct E1 as [Ea E1].
    destruct (conn_by_plan F (λ _ _, False) _ _ _ _ _ _ _ _ E1) as [Ec|[]]. cbn [fst] in Ec.
    split_and!; [split; [by intros _|done]|done|by rewrite Et|done]. }
  intros [(d1 & plan & E1 & E)|[(e & E1 & ->)|(E1 & ->)]]%D_bind_inv;
    apply Hplan in E1 as (H1 & Hd1 & Ht1 & Ha1); [|by left..].
  destruct (is_explain stmt) eqn:Hx; [injection E as <- <-; by left|].
  apply begin_inv in E as [[_ E]|(-> & e & ->)]; [|by left].
  right. lazymatch type of E with finish_auto _ _ _ ?d1 = _ => exists stmt, plan, d1 end.
  split_and!; [done..|exact (ho_shared _ H1)| |exact E]. cbn [db_session]. by rewrite Hd1.
Qed.

(** *** How an automatic transaction ends *)
Inductive auto_outcome (c : conn) (t : TxState) (m : M conn GraphError (list Row))
    : Session conn → TxState → Res (list Row) → Prop :=
| auto_committed c' rows :
    m c = (c', Ok rows) → auto_outcome c t m (mkSession c' None) TxNone (Ok rows)
| auto_rolled_back c' e :
    m c = (c', Err e) → auto_outcome c t m (mkSession c None) TxNone (Err e)
| auto_stranded c' rows e (aborted : bool) :
    m c = (c', Ok rows) → commit_fails X (mkSession c (Some c')) = Some (e, aborted) →
    auto_outcome c t m (mkSession c (if aborted then None else Some c')) t
      (Err (GraphError.from_rusqlite e))
| auto_panicked c' :
    m c = (c', Panic) → auto_outcome c t m (mkSession c (Some c')) t Panic.

Lemma finish_auto_inv b (m : M conn GraphError (list Row)) c d d' r :
  db_session d = mkSession c (Some c) →
  finish_auto X b (engine X (on_conn m)) d = (d', r) →
  auto_outcome c (tx_state d) m (db_session d') (tx_state d') r.
Proof.
  intros Hd. unfold finish_auto, engine, on_session, on_conn. rewrite Hd. cbn [active durable fst snd].
  destruct (m c) as [c' [rows|e|]] eqn:E; cbn [mbind result_bind].
  - unfold mbind, M_bind, batch, sql_commit. cbn [db_session active durable with_session].
    destruct (commit_fails X _) as [[e a]|] eqn:Ec.
    + intros E'. eapply (auto_stranded _ (tx_state d) _ c' rows e a E) in Ec.
      by destruct a; injection E' as <- <-.
    + intros [= <- <-]. by eapply auto_committed.
  - intros [= <- <-]. unfold batch. destruct (sql_rollback _) as [s r'] eqn:Es.
    cbn [fst with_tx_state with_session db_session tx_state].
    replace s with (mkSession c None); [by eapply auto_rolled_back|].
    revert Es. unfold sql_rollback. cbn [db_session active durable].
    intros Es. by repeat case_match; simplify_eq.
  - intros [= <- <-]. by eapply auto_panicked.
Qed.

(** *** A handle without transaction has none open *)
Lemma finish_auto_agree {A} b (m : D A) d d' r :
  (∀ d1 r1, m d = (d1, r1) → agree d1) → finish_auto X b m d = (d', r) → agree d'.
Proof.
  unfold finish_auto. destruct (m d) as [d1 [a|e|]]; intros H.
  - unfold mbind, M_bind, batch. destruct (sql_commit X (db_session d1)) as [s1 r1] eqn:E.
    apply sql_commit_inv in E as [(c & -> & _ & ->)|(_ & (e & ->) & Ha)].
    + by intros [= <- _] _.
    + intros [= <- _] Ht. cbn in *. specialize (H _ _ eq_refl Ht). destruct Ha as [-> | ->]; done.
  - unfold batch. destruct (sql_rollback (db_session d1)) as [s1 r1] eqn:E. intros [= <- _] _. cbn.
    pose proof (sql_rollback_inv (db_session d1)) as [Ha _]. by rewrite E in Ha.
  - intros [= <- _]. by eapply H.
Qed.
Lemma engine_agree {A} (m : M (conn * Shared) GraphError A) d d' r :
  engine X m d = (d', r) → agree d → agree d'.
Proof.
  intros (Et & _ & E)%engine_inv Ha Ht. rewrite Et in Ht. rewrite (Ha Ht) in E. apply E.
Qed.
Lemma begin_agree op t d d' r :
  (ensure_no_active_tx op ≫= λ _, batch (sql_begin X) ≫= λ _, set_tx_state t) d = (d', r) →
  t ≠ TxNone → agree d → agree d'.
Proof.
  intros [(d1 & a & E1 & E)|[(e & E & _)|(E & _)]]%D_bind_inv Ht Ha;
    [|by apply ensure_inv in E as [-> _]..].
  apply ensure_inv in E1 as [-> _].
  assert ((batch (sql_begin X) ≫= λ _, set_tx_state t ≫= λ _, mret ()) d = (d', r)) as E'.
  { revert E. unfold mbind, M_bind. by destruct (batch (sql_begin X) d) as [d1 [| |]]. }
  apply begin_inv in E' as [[_ [= <- _]]|[-> _]]; [|done]. by intros Ht'.
Qed.
Lemma end_agree (m : M (Session conn) GraphError unit) d d' r :
  (∀ s s', m s = (s', Ok ()) → active s' = None) →
  (∀ s s' r, m s = (s', r) → active s = None → active s' = None) →
  (batch m ≫= λ _, set_tx_state TxNone) d = (d', r) → agree d → agree d'.
Proof.
  intros Hok Hidle. unfold mbind, M_bind, batch. destruct (m (db_session d)) as [s1 [[]|e|]] eqn:E.
  - intros [= <- _] _ _. by eapply Hok.
  - intros [= <- _] Ha Ht. cbn in *. eapply Hidle; [exact E|]. by apply Ha.
  - intros [= <- _] Ha Ht. cbn in *. eapply Hidle; [exact E|]. by apply Ha.
Qed.

Lemma sql_commit_end s s' : sql_commit X s = (s', Ok ()) → active s' = None.
Proof. by intros [(c & _ & _ & ->)|(_ & (e & [=]) & _)]%sql_commit_inv. Qed.
Lemma sql_commit_idle s s' r : sql_commit X s = (s', r) → active s = None → active s' = None.
Proof. unfold sql_commit. by intros E Ha; rewrite Ha in E; injection E as <- _. Qed.
Lemma sql_rollback_idle s s' r : sql_rollback s = (s', r) → active s' = None.
Proof. intros E. pose proof (sql_rollback_inv s) as [H _]. by rewrite E in H. Qed.

Lemma with_guard_inv ro ops f d d' r :
  with_guard X F procs ro ops f d = (d', r) →
  (d' = d ∧ ∃ e, r = Err e)
  ∨ (tx_state d = TxNone ∧ active (db_session d) = None ∧
     ∃ d1, guard_steps X F procs ro ops (with_session
             (mkSession (durable (db_session d)) (Some (durable (db_session d)))) d) = (d1, Ok ())
       ∧ batch (finish_guard X f) d1 = (d', r)).
Proof.
  unfold with_guard. intros E.
  assert (∃ op, (open_tx X op ≫= λ _, guard_steps X F procs ro ops ≫= λ _, batch (finish_guard X f)) d
                = (d', r)) as [op E'] by (destruct ro; eexists; exact E).
  assert (∀ d1 r1, open_tx X op d = (d1, r1) →
    (d1 = d ∧ ∃ e, r1 = Err e)
    ∨ (tx_state d = TxNone ∧ active (db_session d) = None ∧ r1 = Ok ()
       ∧ d1 = with_session (mkSession (durable (db_session d)) (Some (durable (db_session d)))) d)) as Ho.
  { clear. intros d1 r1 [(d2 & a & E1 & E)|[(e & E1 & ->)|[E1 ->]]]%D_bind_inv;
      apply ensure_inv in E1 as [-> [[Ht E1]|[Ht [e' E1]]]]; simplify_eq; eauto.
    unfold batch in E. destruct (sql_begin X (db_session d)) as [s1 r2] eqn:Eb. injection E as <- <-.
    apply sql_begin_inv in Eb as [(-> & Ha & ->)|(-> & e & ->)]; [by right|]. left. destruct d. eauto. }
  apply D_bind_inv in E' as [(d2 & a & E1 & E')|[(e & E1 & ->)|[E1 ->]]];
    apply Ho in E1 as [[-> [e' E1]]|(Ht & Ha & E1 & ->)]; simplify_eq; [|by eauto].
  right. split_and!; [done..|]. eexists. split; [reflexivity|]. exact E'.
Qed.

Lemma run_handle_ok op d d' r : run_handle op d = (d', r) → handle_ok d → handle_ok d'.
Proof.
  intros E [Ha Hs]. split.
  - destruct op as [| | | |q params|op m|ro ops f]; cbn [run_handle] in E.
    + by eapply begin_agree.
    + by eapply begin_agree.
    + unfold commit in E. case_decide; [by injection E as <- _|].
      eapply end_agree; [apply sql_commit_end|apply sql_commit_idle|exact E|exact Ha].
    + unfold rollback in E. case_decide; [by injection E as <- _|].
      eapply end_agree; [by intros ?? ?%sql_rollback_idle|by intros ??? ?%sql_rollback_idle|exact E|exact Ha].
    + assert (∀ d1 r1, execute_with_params X F procs q params d = (d1, r1) → agree d1) as Hx.
      { clear E. intros d1 r1 E. destruct (decide (tx_state d = TxNone)) as [Ht|Ht].
        - apply execute_auto_inv in E as [[[H _] _]|(st & pl & d2 & _ & _ & _ & Ht2 & _ & Hd2 & E)];
            [done| |by split|done].
          eapply finish_auto_agree; [|exact E]. intros d3 r3 E3. eapply engine_agree; [exact E3|].
          intros Hn. rewrite Ht2 in Hn. by destruct (is_read_only pl).
        - unfold execute_with_params in E. rewrite decide_True in E by done. by eapply engine_agree. }
      apply D_bind_inv in E as [(d1 & a & E1 & [= <- _])|[(e & E1 & _)|[E1 _]]]; by eapply Hx.
    + unfold ddl in E. apply D_bind_inv in E as [(d1 & a & E1 & E)|[(e & E1 & _)|[E1 _]]];
        unfold require_write_tx in E1; case_decide; simplify_eq; try done.
      apply D_bind_inv in E as [(d2 & a & E1 & E)|[(e & E1 & _)|[E1 _]]];
        apply engine_agree in E1; try done. by injection E as <- _.
    + apply with_guard_inv in E as [[-> _]|(_ & _ & d1 & _ & E)]; [done|].
      intros _. unfold batch in E. pose proof (finish_guard_idle f (db_session d1)) as H.
      destruct (finish_guard X f (db_session d1)) as [s1 r1]. by injection E as <- _.
  - destruct op as [| | | |q params|op m|ro ops f]; cbn [run_handle] in E.
    + refine ((_ : d_keeps (begin_write X)) _ _ _ E Hs).
      apply d_keeps_bind; [apply d_keeps_ensure|intros _].
      apply d_keeps_bind; [apply d_keeps_batch|intros _; apply d_keeps_state].
    + refine ((_ : d_keeps (begin_read X)) _ _ _ E Hs).
      apply d_keeps_bind; [apply d_keeps_ensure|intros _].
      apply d_keeps_bind; [apply d_keeps_batch|intros _; apply d_keeps_state].
    + unfold commit in E. case_decide; [by injection E as <- _|].
      refine (d_keeps_bind _ _ _ _ _ _ _ E Hs); [apply d_keeps_batch|intros _; apply d_keeps_state].
    + unfold rollback in E. case_decide; [by injection E as <- _|].
      refine (d_keeps_bind _ _ _ _ _ _ _ E Hs); [apply d_keeps_batch|intros _; apply d_keeps_state].
    + assert (∀ d1 r1, execute_with_params X F procs q params d = (d1, r1) → shared_ok F (db_shared d1)) as Hx.
      { clear E. intros d1 r1 E. destruct (decide (tx_state d = TxNone)) as [Ht|Ht].
        - apply execute_auto_inv in E as [[[_ H] _]|(st & pl & d2 & _ & _ & _ & _ & Hs2 & _ & E)];
            [done| |by split|done].
          refine (finish_auto_keeps _ _ _ _ _ _ E Hs2). apply d_keeps_engine, queries_keep_on_conn.
        - unfold execute_with_params in E. rewrite decide_True in E by done.
          refine (d_keeps_engine _ _ _ _ _ E Hs). apply execute_cypher_keeps. }
      apply D_bind_inv in E as [(d1 & a & E1 & [= <- _])|[(e & E1 & _)|[E1 _]]]; by eapply Hx.
    + refine (d_keeps_bind _ _ _ _ _ _ _ E Hs); [apply d_keeps_require|intros _].
      apply d_keeps_bind; [apply d_keeps_engine, queries_keep_on_conn|intros _]. apply (d_keeps_bump true).
    + apply with_guard_inv in E as [[-> _]|(_ & _ & d1 & E1 & E)]; [done|].
      refine (d_keeps_batch _ _ _ _ E _). by refine (guard_steps_keeps _ _ _ _ _ E1 _).
Qed.

(** ** What is durable

    Without a failure that ends a transaction behind the handle's back. *)
Section Durable.
Hypothesis no_aborts : ∀ c, error_aborts X c = false.

Lemma aborts_never r c : aborts X r c = false.
Proof. unfold aborts. by destruct r as [|[]|]. Qed.

Lemma engine_open {A} (m : M (conn * Shared) GraphError A) d d' r c :
  engine X m d = (d', r) → active (db_session d) = Some c →
  tx_state d' = tx_state d ∧ durable (db_session d') = durable (db_session d)
  ∧ ∃ c', active (db_session d') = Some c' ∧ m (c, db_shared d) = ((c', db_shared d'), r).
Proof.
  intros (Et & _ & E)%engine_inv Hc. rewrite Hc in E. destruct E as (Ed & c' & E & Ea).
  rewrite aborts_never in Ea. eauto.
Qed.
Lemma guard_step_open ro op d d' r c :
  guard_step X F procs ro op d = (d', r) → active (db_session d) = Some c →
  tx_state d' = tx_state d ∧ durable (db_session d') = durable (db_session d)
  ∧ is_Some (active (db_session d')).
Proof.
  destruct op as [op|q params]; cbn [guard_step]; intros E Hc.
  - by eapply engine_open in E as (Et & Ed & c' & Ha & _).
  - apply D_bind_inv in E as [(d1 & a & E1 & [= <- _])|[(e & E1 & _)|[E1 _]]];
      by eapply engine_open in E1 as (Et & Ed & c' & Ha & _).
Qed.
Lemma guard_steps_open ro ops d d' r :
  guard_steps X F procs ro ops d = (d', r) → is_Some (active (db_session d)) →
  durable (db_session d') = durable (db_session d) ∧ is_Some (active (db_session d')).
Proof.
  intros [= <- _]. revert d. induction ops as [|op ops IH]; intros d [c Hc]; [by eauto|].
  cbn [foldl]. destruct (guard_step X F procs ro op d) as [d1 r1] eqn:E.
  eapply guard_step_open in E as (_ & Ed & Ha); [|exact Hc]. rewrite <- Ed. by apply IH.
Qed.

(** Operations that end a transaction with COMMIT. *)
Definition commits (op : handle_op) (d : Database conn) : Prop :=
  match op with
  | HCommit | HGuard _ _ Commit => True
  | HExecute _ _ => tx_state d = TxNone
  | _ => False
  end.

Lemma batch_durable {A} (m : M (Session conn) GraphError A) d d' r :
  batch m d = (d', r) → (∀ s, durable (m s).1 = durable s) →
  durable (db_session d') = durable (db_session d).
Proof.
  unfold batch. intros E H. specialize (H (db_session d)).
  destruct (m (db_session d)) as [s' r']. by injection E as <- _.
Qed.
Lemma commit_durable d d' r :
  (batch (sql_commit X) ≫= λ _, set_tx_state TxNone) d = (d', r) →
  durable (db_session d') = durable (db_session d) ∨ r = Ok ().
Proof.
  unfold mbind, M_bind, batch. destruct (sql_commit X (db_session d)) as [s1 r1] eqn:E.
  apply sql_commit_inv in E as [(c & -> & _ & ->)|(Hd & (e & ->) & _)]; intros [= <- <-]; eauto.
Qed.

Lemma begin_durable op t d d' r :
  (ensure_no_active_tx op ≫= λ _, batch (sql_begin X) ≫= λ _, set_tx_state t) d = (d', r) →
  durable (db_session d') = durable (db_session d).
Proof.
  intros [(d1 & a & E1 & E)|[(e & E & _)|(E & _)]]%D_bind_inv;
    [|by apply ensure_inv in E as [-> _]..].
  apply ensure_inv in E1 as [-> _]. revert E. unfold mbind, M_bind, batch.
  destruct (sql_begin X (db_session d)) as [s1 r1] eqn:E.
  by apply sql_begin_inv in E as [(-> & _ & ->)|(-> & e & ->)]; intros [= <- _].
Qed.
Lemma engine_durable {A} (m : M (conn * Shared) GraphError A) d d' r :
  healthy d → tx_state d ≠ TxNone → engine X m d = (d', r) →
  durable (db_session d') = durable (db_session d).
Proof. intros Hh Ht E. destruct (Hh Ht) as [c Hc]. by eapply engine_open in E as (_ & Ed & _). Qed.
Lemma execute_durable q params d d' r :
  execute_with_params X F procs q params d = (d', r) → handle_ok d → healthy d →
  durable (db_session d') = durable (db_session d) ∨ (tx_state d = TxNone ∧ ∃ rows, r = Ok rows).
Proof.
  intros E Hok Hh. destruct (decide (tx_state d = TxNone)) as [Ht|Ht].
  - apply execute_auto_inv in E as [(_ & Hd & _)|(st & pl & d2 & _ & _ & _ & _ & _ & Hd2 & E)];
      [by left| |done..].
    apply finish_auto_inv with (c := durable (db_session d)) in E; [|done].
    inversion E; subst; eauto.
  - left. unfold execute_with_params in E. rewrite decide_True in E by done. by eapply engine_durable.
Qed.

(** The durable contents change only when an operation that commits reports success. *)
Lemma durable_step op d d' r :
  run_handle op d = (d', r) → handle_ok d → healthy d →
  durable (db_session d') = durable (db_session d) ∨ (commits op d ∧ r = Ok ()).
Proof.
  intros E Hok Hh. destruct op as [| | | |q params|op m|ro ops f]; cbn [run_handle] in E.
  - left. by eapply begin_durable.
  - left. by eapply begin_durable.
  - unfold commit in E. case_decide; [injection E as <- _; by left|].
    apply commit_durable in E as [E|E]; [by left|by right].
  - left. unfold rollback in E. case_decide; [by injection E as <- _|].
    apply D_bind_inv in E as [(d1 & a & E1 & [= <- _])|[(e & E1 & _)|[E1 _]]];
      by eapply batch_durable in E1; [|intros; apply sql_rollback_inv].
  - apply D_bind_inv in E as [(d1 & a & E1 & [= <- <-])|[(e & E1 & _)|[E1 _]]];
      apply execute_durable in E1 as [E1|[Ht [rows Hr]]]; try done; try (by left); by right.
  - left. unfold ddl in E. apply D_bind_inv in E as [(d1 & a & E1 & E)|[(e & E1 & _)|[E1 _]]];
      unfold require_write_tx in E1; case_decide; simplify_eq; try done.
    assert (tx_state d1 ≠ TxNone) as Ht by congruence.
    apply D_bind_inv in E as [(d2 & a & E1 & [= <- _])|[(e & E1 & _)|[E1 _]]]; by eapply engine_durable in E1.
  - apply with_guard_inv in E as [[-> _]|(_ & _ & d1 & E1 & E)]; [by left|].
    eapply guard_steps_open in E1 as [Hd1 Ha1]; [|cbn; eauto]. cbn [with_session db_session durable] in Hd1.
    destruct f; cbn [commits].
    + unfold batch, finish_guard in E. destruct (sql_commit X (db_session d1)) as [s1 r1] eqn:Ec.
      pose proof (sql_rollback_inv s1) as [_ Hs1]. unfold drop_transaction in E.
      injection E as <- <-. cbn [with_session db_session fst]. rewrite Hs1.
      apply sql_commit_inv in Ec as [(c & -> & _ & ->)|(-> & _ & _)]; [by right|by left].
    + left. rewrite <- Hd1. eapply batch_durable; [exact E|]. intros s. apply sql_rollback_inv.
    + left. rewrite <- Hd1. eapply batch_durable; [exact E|]. intros s. apply sql_rollback_inv.
Qed.
End Durable.
End Handle.
