(* ===== verification/Handles.v ===== *)
(** * Database handles: main theorems

    Transactions of a handle are all or nothing, its caches stay correct, and what is
    durable is always a consistent graph; and two ways in which a handle can be left
    in a state that its documentation excludes. *)
From S2P Require Export DatabaseSpec Transactions.
Import Db.

Section Theorems.
Context {conn Row ProcedureRegistry : Type} {O : SqlOps conn} {Mp : Msgpack}.
Context (X : Faults conn) (F : FrontEnd conn Row ProcedureRegistry) (procs : ProcedureRegistry).
Implicit Types (d : Database conn) (c : conn).

(** A handle that was opened and then used, whatever failed on the way. *)
Inductive handle_reachable (cf : Config) : Database conn → Prop :=
| hr_open c : handle_reachable cf (new_handle c cf)
| hr_step d op d' r :
    handle_reachable cf d → run_handle X F procs op d = (d', r) → handle_reachable cf d'.

Lemma new_handle_ok c cf : handle_ok F (new_handle c cf).
Proof. split; [done|]. split; apply cache_ok_fresh. Qed.
Lemma handle_reachable_ok cf d : handle_reachable cf d → handle_ok F d.
Proof.
  induction 1 as [c|d op d' r _ IH E]; [apply new_handle_ok|]. by eapply run_handle_ok.
Qed.

(** C33: whatever operations run on a handle and whatever fails in SQLite, a handle that
    says it has no transaction has none open, neither cache exceeds its capacity, the
    parse cache holds what the parser returns for the text, and every cached plan is
    one that the planner made for that text. *)
Theorem handle_invariant cf d :
  handle_reachable cf d →
  (tx_state d = TxNone → active (db_session d) = None)
  ∧ size (Caches.map (parse_cache (db_shared d))) ≤ DEFAULT_CAPACITY
  ∧ size (Caches.map (plan_cache (db_shared d))) ≤ DEFAULT_CAPACITY
  ∧ (∀ q stmt, cached q (parse_cache (db_shared d)) = Some stmt → parse F q = Ok stmt)
  ∧ (∀ k plan, cached k (plan_cache (db_shared d)) = Some plan →
       ∃ stmt c ps params, parse F (cypher k) = Ok stmt ∧ is_plan_cacheable stmt = true
         ∧ plan_with_procedures F c stmt ps params = Ok plan).
Proof.
  intros [Ha [Hp Hq]]%handle_reachable_ok. split_and!; [exact Ha| | | |].
  - exact (cache_ok_size _ _ _ Hp).
  - exact (cache_ok_size _ _ _ Hq).
  - apply (co_good _ _ _ Hp).
  - apply (co_good _ _ _ Hq).
Qed.


(** While SQLite does not end a transaction on its own, the durable contents change
    only through an operation that commits and reports success: COMMIT itself, a
    query outside a transaction, or a guard that is committed. *)
Theorem durable_by_commit op d d' r :
  (∀ c, error_aborts X c = false) → handle_ok F d →
  (tx_state d ≠ TxNone → is_Some (active (db_session d))) →
  run_handle X F procs op d = (d', r) →
  durable (db_session d') = durable (db_session d) ∨ (commits op d ∧ r = Ok ()).
Proof. intros Hx Hok Hh E. by eapply durable_step. Qed.
End Theorems.

(** ** Graphs behind a handle *)
Section Graphs.
Context {conn Row ProcedureRegistry : Type} {O : SqlOps conn} {view : conn → db} {L : SqlLaws conn view}.
Context {Mp : Msgpack} {ML : MsgpackLaws}.
Context (X : Faults conn) (F : FrontEnd conn Row ProcedureRegistry) (procs : ProcedureRegistry).
Context (cf : Config).
Implicit Types (g : graph) (d : Database conn) (c : conn).

(** Operations with valid input, one after the other. *)
Fixpoint all_ready (g : graph) (s : conn * N) (ops : list tx_op) : Prop :=
  match ops with
  | [] => True
  | op :: ops' =>
      ready (tx_limits cf) g (view s.1) op
      ∧ ∀ s' r, run_op (tx_limits cf) op s = (s', r) → all_ready (effect op g) s' ops'
  end.
Definition effects (ops : list tx_op) (g : graph) : graph := foldl (λ g op, effect op g) g ops.

Definition committed (f : Finish) (r : Res unit) : bool :=
  match f, r with Commit, Ok _ => true | _, _ => false end.

(** A new database, used through write guards: a commit that reports success makes
    the operations of its guard part of the graph, anything else leaves the graph. *)
Inductive guarded : graph → Database conn → Prop :=
| gd_open c c' : view c = ∅ → init_schema c = (c', Ok ()) → guarded empty_graph (new_handle c' cf)
| gd_guard g d ops f d' r :
    guarded g d →
    all_ready g (durable (db_session d), schema_epoch (db_shared d)) ops →
    with_guard X F procs false (GOperation <$> ops) f d = (d', r) →
    guarded (if committed f r then effects ops g else g) d'.

Lemma guard_ops_run ops g d c :
  db_config d = cf → active (db_session d) = Some c → consistent g (view c) →
  all_ready g (c, schema_epoch (db_shared d)) ops →
  ∃ d' c', guard_steps X F procs false (GOperation <$> ops) d = (d', Ok ())
    ∧ db_session d' = mkSession (durable (db_session d)) (Some c')
    ∧ tx_state d' = tx_state d ∧ db_config d' = cf ∧ consistent (effects ops g) (view c').
Proof.
  revert g d c. induction ops as [|op ops IH]; intros g d c Hcf Hc Hg Hr.
  { exists d, c. split_and!; try done. destruct d as [[du ac] ? ? ?]. cbn in *. by rewrite Hc. }
  destruct Hr as [Hop Hr].
  destruct (run_op_spec (tx_limits cf) op g c (schema_epoch (db_shared d)) Hg Hop) as (c1 & E & H1).
  specialize (Hr _ _ E).
  unfold guard_steps. cbn [fmap list_fmap foldl guard_step]. rewrite Hcf.
  unfold engine at 1, on_session at 1. rewrite Hc. cbn [with_epoch_of]. rewrite E.
  assert (aborts X (outcome op g ≫= λ _, Ok ()) c1 = false) as ->.
  { unfold aborts. destruct op; cbn [outcome mbind result_bind]; try done. by case_decide. }
  cbn [fst]. set (d1 := mkDatabase _ _ _ _).
  destruct (IH (effect op g) d1 c1) as (d2 & c2 & E2 & Hs & Ht & Hcf2 & H2); [done..|].
  exists d2, c2. split_and!; [exact E2|exact Hs|exact Ht|exact Hcf2|exact H2].
Qed.

End Graphs.

(** ** Stranded handles *)
Section Stranded.
Context {conn Row ProcedureRegistry : Type} {O : SqlOps conn} {Mp : Msgpack}.
Context (X : Faults conn) (F : FrontEnd conn Row ProcedureRegistry) (procs : ProcedureRegistry).
Implicit Types (d : Database conn).

(** The handle believes in a transaction that SQLite has ended. *)
Definition stuck (d : Database conn) : Prop :=
  tx_state d ≠ TxNone ∧ active (db_session d) = None.

Lemma stuck_engine {A} (m : M (conn * Shared) GraphError A) d d' r :
  engine X m d = (d', r) → stuck d → stuck d'.
Proof.
  intros (Et & _ & E)%engine_inv [Ht Ha]. rewrite Ha in E. split; [by rewrite Et|apply E].
Qed.
Lemma stuck_ensure op d : stuck d → ∃ e, ensure_no_active_tx op d = (d, Err e).
Proof. intros [Ht _]. unfold ensure_no_active_tx. rewrite decide_False by done. eauto. Qed.
Lemma stuck_end d :
  stuck d → (∃ e, commit X d = (d, Err e)) ∧ (∃ e, rollback d = (d, Err e)).
Proof.
  intros [Ht Ha]. unfold commit, rollback. rewrite !decide_False by done.
  unfold mbind, M_bind, batch, sql_commit, sql_rollback. rewrite Ha. destruct d. cbn. eauto.
Qed.
Lemma stuck_begin t op d :
  stuck d → ∃ e, (ensure_no_active_tx op ≫= λ _, batch (sql_begin X) ≫= λ _, set_tx_state t) d = (d, Err e).
Proof.
  intros Hs. destruct (stuck_ensure op d Hs) as [e E]. exists e. by rewrite (run_bind_err _ _ _ _ _ E).
Qed.

Lemma stuck_forever op d d' r : stuck d → run_handle X F procs op d = (d', r) → stuck d'.
Proof.
  intros Hs. destruct (stuck_end d Hs) as [[e1 E1] [e2 E2]].
  destruct op as [| | | |q params|op m|ro ops f]; cbn [run_handle].
  - destruct (stuck_begin TxWrite "begin_write" d Hs) as [e E]. unfold begin_write. rewrite E. by intros [= <- _].
  - destruct (stuck_begin TxRead "begin_read" d Hs) as [e E]. unfold begin_read. rewrite E. by intros [= <- _].
  - rewrite E1. by intros [= <- _].
  - rewrite E2. by intros [= <- _].
  - intros [(d1 & a & E & [= <- _])|[(e & E & _)|[E _]]]%D_bind_inv;
      unfold execute_with_params in E; rewrite decide_True in E by apply Hs; by eapply stuck_engine.
  - intros [(d1 & a & E & E')|[(e & E & _)|[E _]]]%D_bind_inv;
      unfold require_write_tx in E; case_decide; simplify_eq; try done.
    apply D_bind_inv in E' as [(d2 & a & E & [= <- _])|[(e & E & _)|[E _]]]; exact (stuck_engine _ _ _ _ E Hs).
  - intros [[-> _]|(Ht & _)]%with_guard_inv; [done|]. by destruct Hs.
Qed.

End Stranded.

Module HandleDemo.
#[local] Existing Instance Reference.msgpack.
Import Demo.

(** A front end for one query, which looks nodes up by name: through the index when
    there is one at planning time. *)
Definition stmt : Statement := SReturn (mkReturnStmt (mkReturnClause [] false) [] None None).
Definition plan (c : db) : Res LogicalOp :=
  match composite_index_table_name "Person" ["name"] ≫= λ t : string, index_present t "Person" ["name"] c with
  | Ok true => Ok (Op.IndexLookup "Person" "n" ["name"] [("name", LookupKey.Param "x")] None)
  | _ => Ok (Op.Scan "Person" "n")
  end.
Definition run (plan : LogicalOp) : M db GraphError (list N) :=
  match plan with
  | Op.IndexLookup l _ ps _ _ => reads (index_lookup l (default "" (head ps)) (Value.String "Ada"))
  | _ => reads (λ c, find_nodes_by_label "Person" c ≫= λ ns : list Node, Ok (node_id <$> ns))
  end.
Definition F : FrontEnd db N unit :=
  mkFrontEnd (λ _, Ok stmt) (λ c _ _ _, plan c) (λ _ _, []) (λ _ _, run).
Definition no_faults : Faults db := mkFaults (λ _, None) (λ _, None) (λ _, false).
(** The disk is full whenever a transaction commits. *)
Definition full_disk : Faults db :=
  mkFaults (λ _, None) (λ _, Some ("database or disk is full", true)) (λ _, false).

Definition handle : Database db := new_handle d default_config.
Definition query_again (d : Database db) : Database db * Res (list N) :=
  execute_with_params no_faults F () "q" None d.

(** In a write transaction: an index, then the query; then ROLLBACK. *)
Definition rolled_back : Database db :=
  ((begin_write no_faults ≫= λ _, Db.create_index no_faults "Person" "name" ≫= λ _,
    execute_with_params no_faults F () "q" None ≫= λ _, rollback) handle).1.
End HandleDemo.
Import HandleDemo.

(** ROLLBACK takes back the indexes of a transaction but not the plans that were
    cached with them: a query planned between CREATE INDEX and ROLLBACK fails
    afterwards with IndexNotFound, while a new handle on the same database answers it. *)
Theorem stale_plan_after_rollback :
  tx_state rolled_back = TxNone
  ∧ durable (db_session rolled_back) = Demo.d
  ∧ (query_again rolled_back).2 = Err (GraphError.IndexNotFound "Person" ["name"] None)
  ∧ (query_again (new_handle (durable (db_session rolled_back)) default_config)).2 = Ok [1%N; 2%N].
Proof. split_and!; [by vm_compute|by_decide|by vm_compute|by vm_compute]. Qed.

(** ** Witnesses *)
Section Witnesses.
#[local] Existing Instance Reference.msgpack.
#[local] Existing Instance Reference.msgpack_laws.
Import Demo.

(** The handle after one query. *)
Definition used : Database db := (run_handle no_faults F () (HExecute "q" None) handle).1.
Lemma used_reachable : handle_reachable no_faults F () default_config used.
Proof.
  eapply hr_step; [apply (hr_open _ _ _ default_config d)|]. apply surjective_pairing.
Qed.

Lemma handle_invariant_witness :
  active (db_session used) = None
  ∧ size (Caches.map (parse_cache (db_shared used))) ≤ DEFAULT_CAPACITY
  ∧ size (Caches.map (plan_cache (db_shared used))) ≤ DEFAULT_CAPACITY.
Proof.
  destruct (handle_invariant no_faults F () default_config used used_reachable) as (H1 & H2 & H3 & _).
  split_and!; [by apply H1; vm_compute|exact H2|exact H3].
Defined.


Lemma durable_by_commit_witness :
  let x := run_handle no_faults F () HBeginWrite handle in
  durable (db_session x.1) = d ∨ (False ∧ x.2 = Ok ()).
Proof.
  intros x. refine (durable_by_commit no_faults F () HBeginWrite handle x.1 x.2 (λ _, eq_refl)
    (new_handle_ok F d default_config) _ (surjective_pairing _)). by intros [].
Defined.

(** A guard that creates a node and commits, on a new database. *)
Definition started : Database db := new_handle fresh_db default_config.
Definition created : Database db * Res unit :=
  with_guard no_faults F () false (GOperation <$> [OpCreateNode ["Person"] props]) Commit started.

(** The disk is full when the query commits. *)
Definition stranded : Database db := (run_handle full_disk F () (HExecute "q" None) handle).1.
End Witnesses.
