(* ===== verification/Ints.v ===== *)
(** * Signed machine integers, decimal text, and slices of text

    Shared by the files that model src/src/temporal.rs and the evaluator: the
    signed and the 32-bit integer types with their wrap-around, parsing and
    zero-padded printing of decimals, and the slicing of a [&str]. *)
From S2P Require Export Fts.
#[local] Open Scope Z_scope.

(** ** Widths

    An [i32], [i64] or [u32] is a [Z] in its range; [as] casts and the
    arithmetic of a release build reduce into that range. *)
Definition u32_max : Z := 4294967295.
Definition i32_min : Z := -2147483648.
Definition i32_max : Z := 2147483647.
Definition i64_min : Z := -9223372036854775808.
Definition i64_max : Z := 9223372036854775807.

Definition as_u32 (n : Z) : Z := n `mod` 4294967296.
Definition as_i32 (n : Z) : Z := (n + 2147483648) `mod` 4294967296 - 2147483648.
Definition as_i64 (n : Z) : Z :=
  (n + 9223372036854775808) `mod` 18446744073709551616 - 9223372036854775808.

Definition in_u32 (n : Z) : Prop := 0 ≤ n ≤ u32_max.
Definition in_i32 (n : Z) : Prop := i32_min ≤ n ≤ i32_max.
Definition in_i64 (n : Z) : Prop := i64_min ≤ n ≤ i64_max.

Lemma as_u32_small n : in_u32 n → as_u32 n = n.
Proof. unfold in_u32, u32_max, as_u32. intros. apply Z.mod_small. lia. Qed.
Lemma as_i32_small n : in_i32 n → as_i32 n = n.
Proof.
  unfold in_i32, i32_min, i32_max, as_i32. intros. rewrite Z.mod_small; lia.
Qed.
Lemma as_i64_small n : in_i64 n → as_i64 n = n.
Proof.
  unfold in_i64, i64_min, i64_max, as_i64. intros. rewrite Z.mod_small; lia.
Qed.
Lemma as_u32_in n : in_u32 (as_u32 n).
Proof. unfold in_u32, u32_max, as_u32. pose proof (Z.mod_pos_bound n 4294967296). lia. Qed.
Lemma as_i64_in n : in_i64 (as_i64 n).
Proof.
  unfold in_i64, i64_min, i64_max, as_i64.
  pose proof (Z.mod_pos_bound (n + 9223372036854775808) 18446744073709551616). lia.
Qed.

(** Reduction inside a sum or product does not matter. *)
Lemma as_i64_add_l a b : as_i64 (as_i64 a + b) = as_i64 (a + b).
Proof.
  unfold as_i64. f_equal.
  replace ((a + 9223372036854775808) `mod` 18446744073709551616 - 9223372036854775808 + b
           + 9223372036854775808)
    with ((a + 9223372036854775808) `mod` 18446744073709551616 + b) by lia.
  rewrite Z.add_mod_idemp_l by lia. f_equal. lia.
Qed.

(** Unfolds the ranges for [lia]. *)
Ltac widths :=
  unfold in_u32, in_i32, in_i64, u32_max, i32_min, i32_max, i64_min, i64_max in *.

(** ** Decimal digits *)
Definition digit (n : Z) : byte := n2b (Z.to_N (48 + n)).
Definition digit_val (b : byte) : Z := Z.of_N (b2n b) - 48.
Definition is_digit (b : byte) : bool := byte_in 48 57 b.

Lemma digit_val_digit n : 0 ≤ n < 10 → digit_val (digit n) = n.
Proof.
  intros. unfold digit_val, digit. rewrite b2n_n2b, N.mod_small by lia. lia.
Qed.
Lemma is_digit_digit n : 0 ≤ n < 10 → is_digit (digit n) = true.
Proof.
  intros. unfold is_digit, byte_in, digit. rewrite b2n_n2b, N.mod_small by lia.
  apply andb_true_intro. split; apply N.leb_le; lia.
Qed.
Lemma digit_val_range b : is_digit b = true → 0 ≤ digit_val b < 10.
Proof.
  unfold is_digit, byte_in, digit_val. intros [H1 H2]%andb_true_iff.
  apply N.leb_le in H1, H2. lia.
Qed.

(** The decimal digits of a non-negative number: a number below [2^k] has at
    most [k] of them, so its bit length is fuel enough. *)
Fixpoint dec_digits (fuel : nat) (n : Z) : bytes :=
  match fuel with
  | O => []
  | S fuel' => if n <? 10 then [digit n] else dec_digits fuel' (n / 10) ++ [digit (n `mod` 10)]
  end.
Definition dec (n : Z) : bytes := dec_digits (S (Z.to_nat (Z.log2 n))) n.

(** [{}] of a signed integer. *)
Definition dec_signed (n : Z) : bytes := if n <? 0 then "-"%byte :: dec (- n) else dec n.

(** [{:0w}] of an unsigned integer, and of a signed one (the sign counts). *)
Definition pad (w : nat) (l : bytes) : bytes := replicate (w - length l) "0"%byte ++ l.
Definition fmt_0 (w : nat) (n : Z) : bytes := pad w (dec n).
Definition fmt_0s (w : nat) (n : Z) : bytes :=
  if n <? 0 then "-"%byte :: pad (w - 1) (dec (- n)) else pad w (dec n).

(** ** Parsing: [str::parse] at an integer type *)
Inductive ParseIntError := PEmpty | PInvalidDigit | PPosOverflow | PNegOverflow.

Definition parse_int_error_display (e : ParseIntError) : string :=
  match e with
  | PEmpty => "cannot parse integer from empty string"
  | PInvalidDigit => "invalid digit found in string"
  | PPosOverflow => "number too large to fit in target type"
  | PNegOverflow => "number too small to fit in target type"
  end.

(** One digit at a time; the running value must stay in the range. *)
Fixpoint parse_digits (lo hi : Z) (neg : bool) (acc : Z) (l : bytes) : result ParseIntError Z :=
  match l with
  | [] => Ok acc
  | b :: l' =>
      if is_digit b then
        let acc' := if neg then acc * 10 - digit_val b else acc * 10 + digit_val b in
        if (acc' <? lo) then Err PNegOverflow
        else if (hi <? acc') then Err PPosOverflow
        else parse_digits lo hi neg acc' l'
      else Err PInvalidDigit
  end.

(** An optional sign, [-] only at the signed types, then at least one digit. *)
Definition parse_int (signed : bool) (lo hi : Z) (l : bytes) : result ParseIntError Z :=
  match l with
  | [] => Err PEmpty
  | b :: l' =>
      if decide (b = "+"%byte) then
        match l' with [] => Err PInvalidDigit | _ => parse_digits lo hi false 0 l' end
      else if signed && bool_decide (b = "-"%byte) then
        match l' with [] => Err PInvalidDigit | _ => parse_digits lo hi true 0 l' end
      else parse_digits lo hi false 0 l
  end.

Definition parse_i32 : bytes → result ParseIntError Z := parse_int true i32_min i32_max.
Definition parse_i64 : bytes → result ParseIntError Z := parse_int true i64_min i64_max.
Definition parse_u32 : bytes → result ParseIntError Z := parse_int false 0 u32_max.

(** ** Slices of a [&str]

    [&s[i..j]] panics out of range and inside a character. *)
Definition char_boundary (l : bytes) (n : nat) : bool :=
  match l !! n with
  | Some b => negb (utf8_cont b)
  | None => bool_decide (n = length l)
  end.
Definition slice {E} (l : bytes) (i j : nat) : result E bytes :=
  if bool_decide (i ≤ j)%nat && char_boundary l i && char_boundary l j
  then Ok (take (j - i) (drop i l)) else Panic.
Definition slice_from {E} (l : bytes) (i : nat) : result E bytes := slice l i (length l).

(** [String::truncate]. *)
Definition truncate {E} (l : bytes) (n : nat) : result E bytes :=
  if decide (length l ≤ n)%nat then Ok l
  else if char_boundary l n then Ok (take n l) else Panic.

(** [s.trim_end_matches(c)] and [s.replace(c, "")]. *)
Definition trim_end_byte (c : byte) (l : bytes) : bytes := trim_end_of [[c]] l.
Definition remove_byte (c : byte) (l : bytes) : bytes := filter (λ b, b ≠ c) l.

(** ** Reading back what was printed *)
Definition digits_val (acc : Z) (l : bytes) : Z := foldl (λ a b, a * 10 + digit_val b) acc l.
Definition all_digits (l : bytes) : Prop := Forall (λ b, is_digit b = true) l.

Lemma digits_val_app acc l k : digits_val acc (l ++ k) = digits_val (digits_val acc l) k.
Proof. apply foldl_app. Qed.

Lemma dec_digits_spec f n :
  0 ≤ n < 10 ^ Z.of_nat f → (f ≠ 0)%nat →
  all_digits (dec_digits f n) ∧ digits_val 0 (dec_digits f n) = n.
Proof.
  revert n. induction f as [|f IH]; intros n Hn Hf; [done|]. simpl.
  destruct (Z.ltb_spec n 10) as [L|L].
  - split; [apply Forall_singleton, is_digit_digit; lia|].
    cbn. rewrite digit_val_digit; lia.
  - rewrite Nat2Z.inj_succ, Z.pow_succ_r in Hn by lia.
    assert (f ≠ 0%nat) as Hf' by (intros ->; simpl in Hn; lia).
    pose proof (Z.mod_pos_bound n 10 ltac:(lia)).
    destruct (IH (n / 10)) as [H1 H2]; [|done|].
    { split; [apply Z.div_pos; lia|]. apply Z.div_lt_upper_bound; lia. }
    split; [apply Forall_app; split; [done|apply Forall_singleton, is_digit_digit; lia]|].
    rewrite digits_val_app, H2. cbn. rewrite digit_val_digit by lia.
    pose proof (Z.div_mod n 10). lia.
Qed.

Lemma dec_digits_length f n k :
  0 ≤ n < 10 ^ Z.of_nat k → (k ≠ 0)%nat → (length (dec_digits f n) ≤ k)%nat.
Proof.
  revert n k. induction f as [|f IH]; intros n k Hn Hk; simpl; [lia|].
  destruct (Z.ltb_spec n 10) as [L|L]; [simpl; lia|].
  destruct k as [|[|k]]; [done|simpl in Hn; lia|].
  rewrite length_app. simpl.
  rewrite Nat2Z.inj_succ, Z.pow_succ_r in Hn by lia.
  assert (length (dec_digits f (n / 10)) ≤ S k)%nat; [|lia].
  apply IH; [|done]. split; [apply Z.div_pos; lia|]. apply Z.div_lt_upper_bound; lia.
Qed.

Lemma log2_fuel n : 0 ≤ n → n < 10 ^ Z.of_nat (S (Z.to_nat (Z.log2 n))).
Proof.
  intros Hn. rewrite Nat2Z.inj_succ, Z2Nat.id by apply Z.log2_nonneg.
  destruct (decide (n = 0)) as [->|]; [done|].
  destruct (Z.log2_spec n) as [_ H]; [lia|].
  eapply Z.lt_le_trans; [exact H|]. apply Z.pow_le_mono_l. lia.
Qed.

Lemma dec_spec n : 0 ≤ n → all_digits (dec n) ∧ digits_val 0 (dec n) = n.
Proof. intros. apply dec_digits_spec; [|done]. split; [done|by apply log2_fuel]. Qed.
Lemma dec_length n k : 0 ≤ n < 10 ^ Z.of_nat k → (k ≠ 0)%nat → (length (dec n) ≤ k)%nat.
Proof. apply dec_digits_length. Qed.
Lemma dec_nonempty n : dec n ≠ [].
Proof. unfold dec. simpl. destruct (n <? 10); [done|]. by intros []%app_nil. Qed.

Lemma all_digits_zeros k l : all_digits l → all_digits (replicate k "0"%byte ++ l).
Proof. intros. apply Forall_app. split; [|done]. by apply Forall_replicate. Qed.
Lemma digits_val_zeros k l : digits_val 0 (replicate k "0"%byte ++ l) = digits_val 0 l.
Proof. induction k as [|k IH]; [done|]. cbn. exact IH. Qed.

Lemma fmt_0_spec w n :
  0 ≤ n → all_digits (fmt_0 w n) ∧ digits_val 0 (fmt_0 w n) = n ∧ fmt_0 w n ≠ [].
Proof.
  intros Hn. destruct (dec_spec n Hn) as [H1 H2]. unfold fmt_0, pad.
  split; [by apply all_digits_zeros|]. split; [by rewrite digits_val_zeros|].
  intros [_ E]%app_nil. by apply dec_nonempty in E.
Qed.
Lemma fmt_0_length w n : 0 ≤ n < 10 ^ Z.of_nat w → (w ≠ 0)%nat → length (fmt_0 w n) = w.
Proof.
  intros Hn Hw. unfold fmt_0, pad. rewrite length_app, length_replicate.
  pose proof (dec_length n w Hn Hw). lia.
Qed.
Lemma fmt_0s_nonneg w n : 0 ≤ n → fmt_0s w n = fmt_0 w n.
Proof. intros. unfold fmt_0s. by destruct (Z.ltb_spec n 0); [lia|]. Qed.

Lemma digits_val_ge acc l : all_digits l → 0 ≤ acc → acc ≤ digits_val acc l.
Proof.
  intros Hl. revert acc. induction Hl as [|b l Hb _ IH]; intros acc Ha; [done|].
  apply digit_val_range in Hb. cbn.
  specialize (IH (acc * 10 + digit_val b) ltac:(lia)). unfold digits_val in IH. lia.
Qed.

Lemma digits_val_lt l acc k :
  all_digits l → (length l ≤ k)%nat → 0 ≤ acc →
  digits_val acc l < (acc + 1) * 10 ^ Z.of_nat k.
Proof.
  revert acc k. induction l as [|b l IH]; intros acc k Hl Hk Ha.
  - cbn. pose proof (Z.pow_pos_nonneg 10 (Z.of_nat k) ltac:(lia) ltac:(lia)). nia.
  - destruct k as [|k]; [simpl in Hk; lia|]. inversion Hl as [|? ? Hb Hl']; subst.
    apply digit_val_range in Hb. simpl in Hk.
    specialize (IH (acc * 10 + digit_val b) k Hl' ltac:(lia) ltac:(lia)).
    change (digits_val acc (b :: l)) with (digits_val (acc * 10 + digit_val b) l).
    rewrite Nat2Z.inj_succ, Z.pow_succ_r by lia.
    pose proof (Z.pow_pos_nonneg 10 (Z.of_nat k) ltac:(lia) ltac:(lia)). nia.
Qed.

Lemma parse_digits_ok lo hi acc l :
  all_digits l → lo ≤ 0 → 0 ≤ acc → digits_val acc l ≤ hi →
  parse_digits lo hi false acc l = Ok (digits_val acc l).
Proof.
  intros Hl Hlo. revert acc. induction Hl as [|b l Hb Hl IH]; intros acc Ha Hv; [done|].
  simpl. rewrite Hb. pose proof (digit_val_range b Hb). cbn in Hv.
  pose proof (digits_val_ge (acc * 10 + digit_val b) l Hl ltac:(lia)) as G.
  unfold digits_val in G.
  destruct (Z.ltb_spec (acc * 10 + digit_val b) lo); [lia|].
  destruct (Z.ltb_spec hi (acc * 10 + digit_val b)); [lia|].
  by rewrite IH by (done || lia).
Qed.

Lemma is_digit_sign b : is_digit b = true → b ≠ "+"%byte ∧ b ≠ "-"%byte.
Proof. intros Hb. split; intros ->; done. Qed.

Lemma parse_int_digits s lo hi l :
  all_digits l → l ≠ [] → lo ≤ 0 → digits_val 0 l ≤ hi →
  parse_int s lo hi l = Ok (digits_val 0 l).
Proof.
  intros Hl Hne Hlo Hv. unfold parse_int. destruct l as [|b l]; [done|].
  inversion Hl as [|? ? Hb ?]; subst. destruct (is_digit_sign b Hb).
  rewrite decide_False by done. rewrite bool_decide_eq_false_2 by done.
  rewrite andb_false_r. by apply parse_digits_ok.
Qed.

(** The round trip of a padded number, at every integer type that holds it. *)
Lemma parse_fmt_0 s lo hi w n :
  lo ≤ 0 → 0 ≤ n ≤ hi → parse_int s lo hi (fmt_0 w n) = Ok n.
Proof.
  intros Hlo Hn. destruct (fmt_0_spec w n) as (H1 & H2 & H3); [lia|].
  rewrite parse_int_digits by (rewrite ?H2; done || lia). by rewrite H2.
Qed.

Lemma digits_no b l : all_digits l → is_digit b = false → b ∉ l.
Proof.
  intros Hl Hb Hin. unfold all_digits in Hl. rewrite Forall_forall in Hl.
  specialize (Hl b Hin). congruence.
Qed.
Lemma fmt_0_no b w n : 0 ≤ n → is_digit b = false → b ∉ fmt_0 w n.
Proof. intros Hn. apply digits_no. by apply fmt_0_spec. Qed.
