(* ===== verification/Chrono.v ===== *)
(** * The proleptic Gregorian calendar

    What the documentation of chrono promises about dates is stated in terms of
    this calendar: which triples are dates and the number of each date, counted
    in days from the first of January of the year 1.  The file has the calendar,
    its order, and the conversion back from day numbers. *)
From S2P Require Export Ints.
#[local] Open Scope Z_scope.

(** Turns divisions and remainders by constants into linear facts. *)
Ltac div_lia := Z.to_euclidean_division_equations; lia.

(** ** Years and months *)
Definition leap (y : Z) : bool :=
  (y `mod` 4 =? 0) && (negb (y `mod` 100 =? 0) || (y `mod` 400 =? 0)).

Definition month_len (y m : Z) : Z :=
  if m =? 2 then (if leap y then 29 else 28)
  else if (m =? 4) || (m =? 6) || (m =? 9) || (m =? 11) then 30 else 31.

Definition year_len (y : Z) : Z := if leap y then 366 else 365.

(** Days before the first of January of year [y], and before the first of
    month [m] in it. *)
Definition days_before_year (y : Z) : Z :=
  365 * (y - 1) + (y - 1) / 4 - (y - 1) / 100 + (y - 1) / 400.
Definition days_before_month (y m : Z) : Z :=
  (367 * m - 362) / 12 - (if m <=? 2 then 0 else if leap y then 1 else 2).

Definition day_number (d : NaiveDate) : Z :=
  days_before_year (year d) + days_before_month (year d) (month d) + day d.

(** The years chrono represents. *)
Definition min_year : Z := -262143.
Definition max_year : Z := 262142.

Definition valid_ymd (y m d : Z) : Prop :=
  min_year ≤ y ≤ max_year ∧ 1 ≤ m ≤ 12 ∧ 1 ≤ d ≤ month_len y m.
#[global] Instance valid_ymd_dec y m d : Decision (valid_ymd y m d).
Proof. unfold valid_ymd. apply _. Defined.
Definition valid_date (d : NaiveDate) : Prop := valid_ymd (year d) (month d) (day d).
#[global] Instance valid_date_dec d : Decision (valid_date d).
Proof. unfold valid_date. apply _. Defined.

Lemma leap_spec y :
  leap y = true ↔ y `mod` 4 = 0 ∧ (y `mod` 100 ≠ 0 ∨ y `mod` 400 = 0).
Proof.
  unfold leap. rewrite andb_true_iff, orb_true_iff, negb_true_iff, !Z.eqb_eq, Z.eqb_neq. done.
Qed.

Lemma days_before_next_year y : days_before_year (y + 1) = days_before_year y + year_len y.
Proof.
  unfold days_before_year, year_len.
  destruct (leap y) eqn:E; [apply leap_spec in E; div_lia|].
  assert (¬ (y `mod` 4 = 0 ∧ (y `mod` 100 ≠ 0 ∨ y `mod` 400 = 0))) as G
    by (rewrite <- leap_spec; congruence).
  div_lia.
Qed.

Lemma days_before_year_mono y z : y ≤ z → days_before_year y ≤ days_before_year z.
Proof. intros. unfold days_before_year. div_lia. Qed.

(** The twelve months, one by one. *)
Lemma month_cases m (P : Z → Prop) :
  P 1 → P 2 → P 3 → P 4 → P 5 → P 6 → P 7 → P 8 → P 9 → P 10 → P 11 → P 12 →
  1 ≤ m ≤ 12 → P m.
Proof.
  intros. assert (m = 1 ∨ m = 2 ∨ m = 3 ∨ m = 4 ∨ m = 5 ∨ m = 6 ∨ m = 7 ∨ m = 8
    ∨ m = 9 ∨ m = 10 ∨ m = 11 ∨ m = 12) by lia. naive_solver.
Qed.
Ltac months m :=
  match goal with H : 1 ≤ m ≤ 12 |- _ => pattern m; apply (λ P, month_cases m P); [..|exact H] end.

Lemma month_len_range y m : 28 ≤ month_len y m ≤ 31.
Proof. unfold month_len. repeat case_match; lia. Qed.

Lemma days_before_next_month y m :
  1 ≤ m ≤ 12 → days_before_month y m + month_len y m
    = if m =? 12 then year_len y else days_before_month y (m + 1).
Proof.
  intros Hm. unfold days_before_month, month_len, year_len.
  months m; destruct (leap y); vm_compute; reflexivity.
Qed.
Lemma days_before_month_mono y m n :
  1 ≤ m → m < n ≤ 12 → days_before_month y m + month_len y m ≤ days_before_month y n.
Proof.
  intros Hm Hn.
  assert (∀ k : nat, m + 1 + Z.of_nat k ≤ 12 →
    days_before_month y m + month_len y m ≤ days_before_month y (m + 1 + Z.of_nat k)) as G.
  { induction k as [|k IH]; intros Hk.
    - rewrite days_before_next_month by lia.
      destruct (Z.eqb_spec m 12); [lia|]. by rewrite Z.add_0_r.
    - pose proof (IH ltac:(lia)).
      pose proof (days_before_next_month y (m + 1 + Z.of_nat k) ltac:(lia)) as E.
      pose proof (month_len_range y (m + 1 + Z.of_nat k)).
      destruct (Z.eqb_spec (m + 1 + Z.of_nat k) 12); [lia|].
      replace (m + 1 + Z.of_nat (S k)) with (m + 1 + Z.of_nat k + 1) by lia. lia. }
  specialize (G (Z.to_nat (n - m - 1))).
  replace (m + 1 + Z.of_nat (Z.to_nat (n - m - 1))) with n in G by lia. apply G. lia.
Qed.
Lemma days_before_month_1 y : days_before_month y 1 = 0.
Proof. reflexivity. Qed.
Lemma day_of_year_range y m d :
  1 ≤ m ≤ 12 → 1 ≤ d ≤ month_len y m → 1 ≤ days_before_month y m + d ≤ year_len y.
Proof.
  intros Hm Hd. split.
  - destruct (decide (m = 1)) as [->|]; [rewrite days_before_month_1; lia|].
    pose proof (days_before_month_mono y 1 m ltac:(lia) ltac:(lia)).
    rewrite days_before_month_1 in *. pose proof (month_len_range y 1). lia.
  - destruct (decide (m = 12)) as [->|].
    + pose proof (days_before_next_month y 12 ltac:(lia)) as E. simpl in E. lia.
    + pose proof (days_before_month_mono y m 12 ltac:(lia) ltac:(lia)).
      pose proof (days_before_next_month y 12 ltac:(lia)) as E. simpl in E.
      pose proof (month_len_range y 12). lia.
Qed.

(** ** Order *)

(** [Ord] of dates: by year, month and day. *)
Definition ymd_lt (a b : NaiveDate) : Prop :=
  year a < year b ∨ year a = year b ∧
    (month a < month b ∨ month a = month b ∧ day a < day b).

Lemma day_number_lt a b : valid_date a → valid_date b → ymd_lt a b → day_number a < day_number b.
Proof.
  destruct a as [y1 m1 d1], b as [y2 m2 d2]. unfold valid_date, valid_ymd, ymd_lt, day_number.
  simpl. intros (Hy1 & Hm1 & Hd1) (Hy2 & Hm2 & Hd2) H.
  pose proof (day_of_year_range y1 m1 d1 Hm1 Hd1).
  pose proof (day_of_year_range y2 m2 d2 Hm2 Hd2).
  destruct H as [H|[-> [H|[-> H]]]]; [| |lia].
  - pose proof (days_before_next_year y1).
    pose proof (days_before_year_mono (y1 + 1) y2 ltac:(lia)). lia.
  - pose proof (days_before_month_mono y2 m1 m2 ltac:(lia) ltac:(lia)). lia.
Qed.

Lemma ymd_trichotomy a b : ymd_lt a b ∨ a = b ∨ ymd_lt b a.
Proof.
  destruct a as [y1 m1 d1], b as [y2 m2 d2]. unfold ymd_lt; simpl.
  destruct (Z.lt_trichotomy y1 y2) as [|[->|]]; [by left; left| |by right; right; left].
  destruct (Z.lt_trichotomy m1 m2) as [|[->|]]; [left; right; auto| |right; right; right; auto].
  destruct (Z.lt_trichotomy d1 d2) as [|[->|]]; [left; right; auto|by right; left|].
  right; right; right; auto.
Qed.

Lemma day_number_inj a b : valid_date a → valid_date b → day_number a = day_number b → a = b.
Proof.
  intros Ha Hb E. destruct (ymd_trichotomy a b) as [H|[H|H]]; [|done|];
    apply day_number_lt in H; auto; lia.
Qed.
Lemma day_number_lt_iff a b :
  valid_date a → valid_date b → (day_number a < day_number b ↔ ymd_lt a b).
Proof.
  intros Ha Hb. split; [|by apply day_number_lt]. intros H.
  destruct (ymd_trichotomy a b) as [G|[G|G]]; [done|subst; lia|].
  apply day_number_lt in G; auto; lia.
Qed.

(** ** From day numbers to dates *)

(** The average year has 146097/400 days, so the estimate is off by at most
    one. *)
Definition year_of (n : Z) : Z :=
  let a := 400 * (n - 1) / 146097 in
  if n <=? days_before_year (a + 1) then a
  else if days_before_year (a + 2) <? n then a + 2 else a + 1.

(** The last month that begins before day [r] of the year. *)
Fixpoint month_of (k : nat) (y r : Z) : Z :=
  match k with
  | O => 1
  | S k' => if days_before_month y (Z.of_nat k + 1) <? r then Z.of_nat k + 1 else month_of k' y r
  end.

Definition civil (n : Z) : NaiveDate :=
  let y := year_of n in
  let r := n - days_before_year y in
  let m := month_of 11 y r in
  mkDate y m (r - days_before_month y m).

Lemma year_of_spec n :
  days_before_year (year_of n) < n ≤ days_before_year (year_of n + 1).
Proof.
  unfold year_of. set (a := 400 * (n - 1) / 146097).
  assert (146097 * a ≤ 400 * (n - 1) < 146097 * (a + 1)) as Ha by (subst a; div_lia).
  clearbody a. unfold days_before_year.
  destruct (Z.leb_spec n (365 * (a + 1 - 1) + (a + 1 - 1) / 4 - (a + 1 - 1) / 100
    + (a + 1 - 1) / 400)) as [H1|H1]; [div_lia|].
  destruct (Z.ltb_spec (365 * (a + 2 - 1) + (a + 2 - 1) / 4 - (a + 2 - 1) / 100
    + (a + 2 - 1) / 400) n) as [H2|H2]; div_lia.
Qed.

Lemma month_of_spec k y r :
  (k ≤ 11)%nat → 0 < r → r ≤ days_before_month y (Z.of_nat k + 1) + month_len y (Z.of_nat k + 1) →
  let m := month_of k y r in
  1 ≤ m ≤ 12 ∧ days_before_month y m < r ≤ days_before_month y m + month_len y m.
Proof.
  induction k as [|k IH]; intros Hk Hr Hle.
  { cbv zeta; cbn [month_of]. change (Z.of_nat 0 + 1) with 1 in Hle.
    rewrite days_before_month_1 in *. lia. }
  cbn [month_of]. destruct (Z.ltb_spec (days_before_month y (Z.of_nat (S k) + 1)) r).
  { cbv zeta. lia. }
  apply IH; [lia|done|]. rewrite days_before_next_month by lia.
  destruct (Z.eqb_spec (Z.of_nat k + 1) 12); [lia|].
  by replace (Z.of_nat k + 1 + 1) with (Z.of_nat (S k) + 1) by lia.
Qed.

Lemma civil_spec n :
  day_number (civil n) = n ∧ 1 ≤ month (civil n) ≤ 12
  ∧ 1 ≤ day (civil n) ≤ month_len (year (civil n)) (month (civil n)).
Proof.
  unfold civil, day_number; cbn [year month day].
  pose proof (year_of_spec n) as Hy. rewrite days_before_next_year in Hy.
  set (y := year_of n) in *. set (r := n - days_before_year y).
  pose proof (days_before_next_month y 12 ltac:(lia)) as E. rewrite Z.eqb_refl in E.
  destruct (month_of_spec 11 y r) as [Hm Hr];
    [done|unfold r; lia|change (Z.of_nat 11 + 1) with 12; unfold r; lia|].
  unfold r in *. lia.
Qed.

(** The first and the last day. *)
Definition min_day : Z := day_number (mkDate min_year 1 1).
Definition max_day : Z := day_number (mkDate max_year 12 31).

Lemma min_day_eq : min_day = days_before_year min_year + 1.
Proof. reflexivity. Qed.
Lemma max_day_eq : max_day = days_before_year (max_year + 1).
Proof. reflexivity. Qed.

Lemma civil_valid n : min_day ≤ n ≤ max_day ↔ valid_date (civil n).
Proof.
  destruct (civil_spec n) as (En & Hm & Hd). rewrite min_day_eq, max_day_eq.
  unfold valid_date, valid_ymd. split.
  - intros Hn. split_and!; try tauto; try lia.
    all: unfold civil; cbn [year]; pose proof (year_of_spec n) as Hy.
    + destruct (Z.le_gt_cases min_year (year_of n)); [done|].
      pose proof (days_before_year_mono (year_of n + 1) min_year ltac:(lia)). lia.
    + destruct (Z.le_gt_cases (year_of n) max_year); [done|].
      pose proof (days_before_year_mono (max_year + 1) (year_of n) ltac:(lia)). lia.
  - intros (Hy & _). unfold day_number in En.
    pose proof (day_of_year_range _ _ _ Hm Hd).
    pose proof (days_before_year_mono min_year (year (civil n)) ltac:(lia)).
    pose proof (days_before_year_mono (year (civil n) + 1) (max_year + 1) ltac:(lia)) as G.
    rewrite days_before_next_year in G. lia.
Qed.

Lemma valid_day_number d : valid_date d → min_day ≤ day_number d ≤ max_day.
Proof.
  intros (Hy & Hm & Hd). rewrite min_day_eq, max_day_eq. unfold day_number.
  pose proof (day_of_year_range _ _ _ Hm Hd).
  pose proof (days_before_year_mono min_year (year d) ltac:(lia)).
  pose proof (days_before_year_mono (year d + 1) (max_year + 1) ltac:(lia)) as G.
  rewrite days_before_next_year in G. lia.
Qed.

Lemma civil_day_number d : valid_date d → civil (day_number d) = d.
Proof.
  intros Hd. destruct (civil_spec (day_number d)) as (E & _).
  apply day_number_inj; [|done..]. by apply civil_valid, valid_day_number.
Qed.

(** * The interface to chrono and chrono-tz, with a reference calendar

    Dates, times and offsets are chrono's: [Chrono] lists the functions
    src/src/temporal.rs and src/src/cypher/eval/temporal_ops.rs call and
    [ChronoLaws] what their documentation says of them, in terms of the
    calendar above.  The time zone database is a parameter without
    laws.  [Reference] satisfies the laws, with the zone [UTC] only. *)

Inductive Weekday := Mon | Tue | Wed | Thu | Fri | Sat | Sun.
Definition num_days_from_monday (w : Weekday) : Z :=
  match w with Mon => 0 | Tue => 1 | Wed => 2 | Thu => 3 | Fri => 4 | Sat => 5 | Sun => 6 end.
#[global] Instance Weekday_eq_dec : EqDecision Weekday.
Proof. solve_decision. Defined.

(** A [TimeDelta], chrono's [Duration], by its length in nanoseconds. *)
Abbreviation TimeDelta := Z (only parsing).
Definition nanos_per_sec : Z := 1000000000.
Definition nanos_per_day : Z := 86400000000000.

(** [Timelike]: a leap second is a nanosecond part of at least one second. *)
Definition hour (t : NaiveTime) : Z := num_seconds_from_midnight t / 3600.
Definition minute (t : NaiveTime) : Z := num_seconds_from_midnight t `mod` 3600 / 60.
Definition second (t : NaiveTime) : Z := num_seconds_from_midnight t `mod` 60.

Definition hms_secs (h m s : Z) : Z := h * 3600 + m * 60 + s.

(** What the constructors of [NaiveTime] check. *)
Definition valid_time (t : NaiveTime) : Prop :=
  0 ≤ num_seconds_from_midnight t < 86400 ∧ 0 ≤ nanosecond t < 2 * nanos_per_sec
  ∧ (nanos_per_sec ≤ nanosecond t → second t = 59).
Definition leap_free (t : NaiveTime) : Prop := nanosecond t < nanos_per_sec.

#[global] Instance valid_time_dec t : Decision (valid_time t).
Proof. unfold valid_time. apply _. Defined.

Definition valid_hms (h m s n : Z) : Prop :=
  0 ≤ h < 24 ∧ 0 ≤ m < 60 ∧ 0 ≤ s < 60 ∧ 0 ≤ n < 2 * nanos_per_sec
  ∧ (nanos_per_sec ≤ n → s = 59).
#[global] Instance valid_hms_dec h m s n : Decision (valid_hms h m s n).
Proof. unfold valid_hms. apply _. Defined.

Definition valid_offset (off : FixedOffset) : Prop := -86400 < local_minus_utc off < 86400.
#[global] Instance valid_offset_dec off : Decision (valid_offset off).
Proof. unfold valid_offset. apply _. Defined.

(** Nanoseconds since midnight, and since the day before day 1. *)
Definition time_nanos (t : NaiveTime) : Z :=
  num_seconds_from_midnight t * nanos_per_sec + nanosecond t.
Definition local_nanos (dt : NaiveDateTime) : Z :=
  day_number (dt_date dt) * nanos_per_day + time_nanos (dt_time dt).

Definition valid_datetime (dt : NaiveDateTime) : Prop :=
  valid_date (dt_date dt) ∧ valid_time (dt_time dt).

(** The first of January 1970. *)
Definition epoch_day : Z := 719163.

(** The Monday of the first ISO week of a year: the week of January 4. *)
Definition first_monday (y : Z) : Z :=
  let jan4 := days_before_year y + 4 in jan4 - (jan4 - 1) `mod` 7.

(** Months counted from the year 0, and the date that many months on: the day
    is the last of its month when the month is too short. *)
Definition month_index (d : NaiveDate) : Z := year d * 12 + (month d - 1).
Definition add_months_to (d : NaiveDate) (n : Z) : NaiveDate :=
  let k := month_index d + n in
  mkDate (k / 12) (k `mod` 12 + 1) (day d `min` month_len (k / 12) (k `mod` 12 + 1)).

(** ** The functions *)
Class Chrono := {
  from_ymd_opt : Z → Z → Z → option NaiveDate;
  from_yo_opt : Z → Z → option NaiveDate;
  from_isoywd_opt : Z → Z → Weekday → option NaiveDate;
  weekday : NaiveDate → Weekday;
  ordinal : NaiveDate → Z;
  (** [d.iso_week().year()] and [.week()]. *)
  iso_year : NaiveDate → Z;
  iso_week : NaiveDate → Z;
  (** [a < b]. *)
  date_ltb : NaiveDate → NaiveDate → bool;
  (** [a.signed_duration_since(b).num_days()]. *)
  num_days_since : NaiveDate → NaiveDate → Z;
  date_checked_add_signed : NaiveDate → TimeDelta → option NaiveDate;
  checked_add_months : NaiveDate → Z → option NaiveDate;
  checked_sub_months : NaiveDate → Z → option NaiveDate;
  with_day : NaiveDate → Z → option NaiveDate;
  with_month : NaiveDate → Z → option NaiveDate;
  from_hms_nano_opt : Z → Z → Z → Z → option NaiveTime;
  from_num_seconds_from_midnight_opt : Z → Z → option NaiveTime;
  with_nanosecond : NaiveTime → Z → option NaiveTime;
  (** [t + delta]: wraps around midnight. *)
  time_add : NaiveTime → TimeDelta → NaiveTime;
  datetime_checked_add_signed : NaiveDateTime → TimeDelta → option NaiveDateTime;
  (** [DateTime::from_timestamp(secs, nsecs)] with [naive_utc]. *)
  from_timestamp : Z → Z → option NaiveDateTime;
  (** [dt.and_utc().timestamp()] and [.timestamp_millis()]. *)
  timestamp : NaiveDateTime → Z;
  timestamp_millis : NaiveDateTime → Z;
  (** [Duration::days] and [Duration::seconds]; [None] is a panic. *)
  delta_days : Z → option TimeDelta;
  delta_seconds : Z → option TimeDelta;
  east_opt : Z → option FixedOffset;
  (** chrono-tz: a zone by name; the offset of the earliest reading of a local
      time; the offset at a UTC time; the offset now. *)
  Tz : Type;
  tz_parse : string → option Tz;
  tz_from_local_earliest : Tz → NaiveDateTime → option FixedOffset;
  tz_from_utc : Tz → NaiveDateTime → FixedOffset;
  tz_now : Tz → FixedOffset;
}.

(** [NaiveTime::from_hms_opt]. *)
Definition from_hms_opt `{Chrono} (h m s : Z) : option NaiveTime := from_hms_nano_opt h m s 0.

(** ** What the documentation says *)
Class ChronoLaws `{Ch : Chrono} : Prop := {
  law_from_ymd y m d :
    from_ymd_opt y m d = if decide (valid_ymd y m d) then Some (mkDate y m d) else None;
  law_from_yo y o d :
    from_yo_opt y o = Some d ↔ valid_date d ∧ year d = y ∧ day_number d = days_before_year y + o;
  law_from_isoywd y w wd d :
    from_isoywd_opt y w wd = Some d ↔
    valid_date d ∧ 1 ≤ w ∧ first_monday y + 7 * w ≤ first_monday (y + 1)
    ∧ day_number d = first_monday y + 7 * (w - 1) + num_days_from_monday wd;
  law_weekday d : valid_date d → num_days_from_monday (weekday d) = (day_number d - 1) `mod` 7;
  law_ordinal d : valid_date d → ordinal d = day_number d - days_before_year (year d);
  law_iso_year d : valid_date d →
    first_monday (iso_year d) ≤ day_number d < first_monday (iso_year d + 1);
  law_iso_week d : valid_date d →
    iso_week d = (day_number d - first_monday (iso_year d)) / 7 + 1;
  law_date_ltb a b : valid_date a → valid_date b →
    date_ltb a b = bool_decide (day_number a < day_number b);
  law_num_days a b : valid_date a → valid_date b →
    num_days_since a b = day_number a - day_number b;
  law_date_add d delta d' : valid_date d →
    date_checked_add_signed d delta = Some d' ↔
    valid_date d' ∧ day_number d' = day_number d + Z.quot delta nanos_per_day;
  law_add_months d n : valid_date d → 0 ≤ n →
    checked_add_months d n =
      (let d' := add_months_to d n in if decide (valid_date d') then Some d' else None);
  law_sub_months d n : valid_date d → 0 ≤ n →
    checked_sub_months d n =
      (let d' := add_months_to d (- n) in if decide (valid_date d') then Some d' else None);
  law_with_day d n : valid_date d → with_day d n = from_ymd_opt (year d) (month d) n;
  law_with_month d n : valid_date d → with_month d n = from_ymd_opt (year d) n (day d);
  law_from_hms h m s n :
    from_hms_nano_opt h m s n =
      if decide (valid_hms h m s n) then Some (mkTime (hms_secs h m s) n) else None;
  law_from_secs s n :
    from_num_seconds_from_midnight_opt s n =
      if decide (valid_time (mkTime s n)) then Some (mkTime s n) else None;
  law_with_nanosecond t n : valid_time t →
    with_nanosecond t n =
      if decide (0 ≤ n < 2 * nanos_per_sec) then Some (mkTime (num_seconds_from_midnight t) n)
      else None;
  law_time_add t delta : valid_time t → leap_free t →
    valid_time (time_add t delta) ∧ leap_free (time_add t delta)
    ∧ time_nanos (time_add t delta) = (time_nanos t + delta) `mod` nanos_per_day;
  law_datetime_add dt delta dt' : valid_datetime dt → leap_free (dt_time dt) →
    datetime_checked_add_signed dt delta = Some dt' ↔
    valid_datetime dt' ∧ leap_free (dt_time dt') ∧ local_nanos dt' = local_nanos dt + delta;
  law_from_timestamp s n dt : 0 ≤ n < nanos_per_sec →
    from_timestamp s n = Some dt ↔
    valid_datetime dt ∧ leap_free (dt_time dt)
    ∧ local_nanos dt = epoch_day * nanos_per_day + s * nanos_per_sec + n;
  law_timestamp dt : valid_datetime dt →
    timestamp dt = (day_number (dt_date dt) - epoch_day) * 86400
      + num_seconds_from_midnight (dt_time dt);
  law_timestamp_millis dt : valid_datetime dt →
    timestamp_millis dt = (local_nanos dt - epoch_day * nanos_per_day) / 1000000;
  law_delta_days n :
    delta_days n = if decide (- (i64_max / 86400000) ≤ n ≤ i64_max / 86400000)
      then Some (n * nanos_per_day) else None;
  law_delta_seconds n :
    delta_seconds n = if decide (- (i64_max / 1000) ≤ n ≤ i64_max / 1000)
      then Some (n * nanos_per_sec) else None;
  law_east s : east_opt s = if decide (-86400 < s < 86400) then Some (mkOffset s) else None;
}.

(** ** A reference calendar *)
Module Gregorian.
(** The date numbered [n], when it is representable. *)
Definition date_of (n : Z) : option NaiveDate :=
  if decide (valid_date (civil n)) then Some (civil n) else None.
Definition weekday_of (n : Z) : Weekday :=
  match (n - 1) `mod` 7 with
  | 0 => Mon | 1 => Tue | 2 => Wed | 3 => Thu | 4 => Fri | 5 => Sat | _ => Sun
  end.
(** The year of the Thursday of the week. *)
Definition iso_year_of (n : Z) : Z := year_of (n - (n - 1) `mod` 7 + 3).
Definition time_of (n : Z) : NaiveTime := mkTime (n / nanos_per_sec) (n `mod` nanos_per_sec).
Definition datetime_of (n : Z) : option NaiveDateTime :=
  (λ d, mkDateTime d (time_of (n `mod` nanos_per_day))) <$> date_of (n / nanos_per_day).
Definition some_valid (d : NaiveDate) : option NaiveDate :=
  if decide (valid_date d) then Some d else None.
Definition ymd (y m d : Z) : option NaiveDate :=
  if decide (valid_ymd y m d) then Some (mkDate y m d) else None.

#[export] Instance chrono : Chrono := {
  from_ymd_opt := ymd;
  from_yo_opt y o :=
    d ← date_of (days_before_year y + o); if decide (year d = y) then Some d else None;
  from_isoywd_opt y w wd :=
    if decide (1 ≤ w ∧ first_monday y + 7 * w ≤ first_monday (y + 1))
    then date_of (first_monday y + 7 * (w - 1) + num_days_from_monday wd) else None;
  weekday d := weekday_of (day_number d);
  ordinal d := day_number d - days_before_year (year d);
  iso_year d := iso_year_of (day_number d);
  iso_week d := (day_number d - first_monday (iso_year_of (day_number d))) / 7 + 1;
  date_ltb a b := bool_decide (day_number a < day_number b);
  num_days_since a b := day_number a - day_number b;
  date_checked_add_signed d delta := date_of (day_number d + Z.quot delta nanos_per_day);
  checked_add_months d n := some_valid (add_months_to d n);
  checked_sub_months d n := some_valid (add_months_to d (- n));
  with_day d n := ymd (year d) (month d) n;
  with_month d n := ymd (year d) n (day d);
  from_hms_nano_opt h m s n :=
    if decide (valid_hms h m s n) then Some (mkTime (hms_secs h m s) n) else None;
  from_num_seconds_from_midnight_opt s n :=
    if decide (valid_time (mkTime s n)) then Some (mkTime s n) else None;
  with_nanosecond t n :=
    if decide (0 ≤ n < 2 * nanos_per_sec) then Some (mkTime (num_seconds_from_midnight t) n)
    else None;
  time_add t delta := time_of ((time_nanos t + delta) `mod` nanos_per_day);
  datetime_checked_add_signed dt delta := datetime_of (local_nanos dt + delta);
  from_timestamp s n := datetime_of (epoch_day * nanos_per_day + s * nanos_per_sec + n);
  timestamp dt := (day_number (dt_date dt) - epoch_day) * 86400
    + num_seconds_from_midnight (dt_time dt);
  timestamp_millis dt := (local_nanos dt - epoch_day * nanos_per_day) / 1000000;
  delta_days n := if decide (- (i64_max / 86400000) ≤ n ≤ i64_max / 86400000)
    then Some (n * nanos_per_day) else None;
  delta_seconds n := if decide (- (i64_max / 1000) ≤ n ≤ i64_max / 1000)
    then Some (n * nanos_per_sec) else None;
  east_opt s := if decide (-86400 < s < 86400) then Some (mkOffset s) else None;
  Tz := unit;
  tz_parse s := if decide (s = "UTC") then Some tt else None;
  tz_from_local_earliest _ _ := Some (mkOffset 0);
  tz_from_utc _ _ := mkOffset 0;
  tz_now _ := mkOffset 0;
}.

Lemma date_of_spec n d : date_of n = Some d ↔ valid_date d ∧ day_number d = n.
Proof.
  unfold date_of. destruct (civil_spec n) as [E _]. case_decide as V; split.
  - intros [= <-]. done.
  - intros [Vd <-]. by rewrite civil_day_number.
  - done.
  - intros [Vd <-]. by rewrite civil_day_number in V.
Qed.

Lemma weekday_of_spec n : num_days_from_monday (weekday_of n) = (n - 1) `mod` 7.
Proof.
  unfold weekday_of. pose proof (Z.mod_pos_bound (n - 1) 7 ltac:(lia)) as H.
  set (k := (n - 1) `mod` 7) in *. clearbody k.
  assert (k = 0 ∨ k = 1 ∨ k = 2 ∨ k = 3 ∨ k = 4 ∨ k = 5 ∨ k = 6)
    as [->|[->|[->|[->|[->|[->| ->]]]]]] by lia; done.
Qed.

Lemma first_monday_le n y : days_before_year y < n - (n - 1) `mod` 7 + 3 → first_monday y ≤ n.
Proof. unfold first_monday. div_lia. Qed.
Lemma first_monday_gt n y : n - (n - 1) `mod` 7 + 3 ≤ days_before_year y → n < first_monday y.
Proof. unfold first_monday. div_lia. Qed.

Lemma time_of_spec n :
  0 ≤ n < nanos_per_day →
  valid_time (time_of n) ∧ leap_free (time_of n) ∧ time_nanos (time_of n) = n.
Proof.
  unfold valid_time, leap_free, time_nanos, time_of, nanos_per_sec, nanos_per_day; simpl.
  intros. split_and!; div_lia.
Qed.
Lemma time_of_nanos t : valid_time t → leap_free t → time_of (time_nanos t) = t.
Proof.
  destruct t as [s n]. unfold valid_time, leap_free, time_nanos, time_of; simpl.
  intros (H1 & H2 & _) H3. unfold nanos_per_sec in *.
  rewrite Z.div_add_l by lia. rewrite Z.div_small by lia.
  rewrite (Z.add_comm (s * _)), Z.mod_add by lia. rewrite Z.mod_small by lia. f_equal. lia.
Qed.
Lemma time_nanos_range t : valid_time t → leap_free t → 0 ≤ time_nanos t < nanos_per_day.
Proof.
  unfold valid_time, leap_free, time_nanos, nanos_per_sec, nanos_per_day. lia.
Qed.

Lemma datetime_of_spec n dt :
  datetime_of n = Some dt ↔
  valid_datetime dt ∧ leap_free (dt_time dt) ∧ local_nanos dt = n.
Proof.
  unfold datetime_of, valid_datetime, local_nanos.
  pose proof (Z.mod_pos_bound n nanos_per_day ltac:(done)) as Hr.
  destruct (time_of_spec _ Hr) as (T1 & T2 & T3).
  rewrite fmap_Some. split.
  - intros (d & (V & E)%date_of_spec & ->). simpl. split_and!; try done.
    rewrite E, T3, Z.mul_comm. symmetry. by apply Z.div_mod.
  - intros ((V1 & V2) & L & E). pose proof (time_nanos_range _ V2 L) as R.
    exists (dt_date dt). rewrite date_of_spec. rewrite <- E.
    rewrite Z.div_add_l by done. rewrite Z.div_small by done.
    rewrite (Z.add_comm (_ * nanos_per_day)), Z.mod_add, Z.mod_small by done.
    rewrite time_of_nanos by done. split; [|by destruct dt]. split; [done|lia].
Qed.

#[export] Instance chrono_laws : ChronoLaws.
Proof.
  split; try done.
  - intros y o d. simpl. rewrite bind_Some. split.
    + intros (d' & (V & E)%date_of_spec & H). case_decide; simplify_eq. done.
    + intros (V & <- & E). exists d. rewrite date_of_spec, decide_True by done. done.
  - intros y w wd d. simpl. case_decide as G; [|naive_solver].
    rewrite date_of_spec. naive_solver.
  - intros d _. apply weekday_of_spec.
  - intros d _. simpl. unfold iso_year_of.
    pose proof (year_of_spec (day_number d - (day_number d - 1) `mod` 7 + 3)) as [H1 H2].
    split; [by apply first_monday_le|by apply first_monday_gt].
  - intros d delta d' _. apply date_of_spec.
  - intros t delta V L. simpl. apply time_of_spec. by apply Z.mod_pos_bound.
  - intros dt delta dt' V L. apply datetime_of_spec.
  - intros s n dt _. apply datetime_of_spec.
Qed.
End Gregorian.
