(* ===== verification/Temporal.v ===== *)
(** * Texts of temporal values: the parsers and printers of src/src/temporal.rs

    ISO 8601 dates, times and offsets.  A [&str] is its byte list here; a
    slice that the source takes at a fixed position panics inside a character
    ([slice]), one taken around an ASCII character it has just found cannot. *)
From S2P Require Export Chrono Errors.
#[local] Open Scope Z_scope.

(** [GraphError::Serialization] without a context. *)
Definition ser_error (m : string) : GraphError := GraphError.Serialization "" m None.
(** [format!("{m}{s}")]. *)
Definition ser_error_at (m : string) (s : bytes) : GraphError :=
  ser_error (m +:+ bytes_str s).

(** [opt.unwrap()]. *)
Definition unwrap {E A} (o : option A) : result E A :=
  match o with Some a => Ok a | None => Panic end.

(** [s.parse::<T>()] with the error wrapped. *)
Definition parse_num (parse : bytes → result ParseIntError Z) (s : bytes) : Res Z :=
  match parse s with
  | Ok n => Ok n
  | Err e => Err (ser_error (parse_int_error_display e))
  | Panic => Panic
  end.

Definition starts_with (c : byte) (s : bytes) : bool :=
  match s with b :: _ => bool_decide (b = c) | [] => false end.
Definition ends_with (c : byte) (s : bytes) : bool :=
  match last s with Some b => bool_decide (b = c) | None => false end.
Definition contains (c : byte) (s : bytes) : bool := bool_decide (c ∈ s).

(** [s.splitn(3, c)]. *)
Definition splitn3 (c : byte) (s : bytes) : list bytes :=
  match bytes_split_once c s with
  | None => [s]
  | Some (a, r) =>
      match bytes_split_once c r with
      | None => [a; r]
      | Some (b, r') => [a; b; r']
      end
  end.

Section texts.
Context `{Chrono}.

(** ** Offsets *)
Definition parse_offset (s : bytes) : Res FixedOffset :=
  if decide (s = ["Z"%byte] ∨ s = ["z"%byte]) then unwrap (east_opt 0) else
  sign ← (if starts_with "+"%byte s then Ok 1
          else if starts_with "-"%byte s then Ok (-1)
          else Err (ser_error_at "invalid offset: " s));
  let body := drop 1 s in
  let in_range secs := ok_or (east_opt secs) (ser_error_at "offset out of range: " s) in
  if decide (length body = 2)%nat then
    h ← parse_num parse_i32 body;
    in_range (as_i32 (sign * (h * 3600 + 0 * 60)))
  else if decide (length body = 4)%nat then
    hh ← slice body 0 2 ≫= parse_num parse_i32;
    mm ← slice_from body 2 ≫= parse_num parse_i32;
    in_range (as_i32 (sign * (hh * 3600 + mm * 60)))
  else if decide (length body = 5%nat ∧ body !! 2%nat = Some ":"%byte) then
    hh ← slice body 0 2 ≫= parse_num parse_i32;
    mm ← slice_from body 3 ≫= parse_num parse_i32;
    in_range (as_i32 (sign * (hh * 3600 + mm * 60)))
  else if decide (length body = 8%nat ∧ body !! 2%nat = Some ":"%byte
                  ∧ body !! 5%nat = Some ":"%byte) then
    hh ← slice body 0 2 ≫= parse_num parse_i32;
    mm ← slice body 3 5 ≫= parse_num parse_i32;
    ss ← slice body 6 8 ≫= parse_num parse_i32;
    in_range (as_i32 (sign * (hh * 3600 + mm * 60 + ss)))
  else Err (ser_error_at "invalid offset: " s).

(** The position found must not be the first. *)
Definition split_at_last (c : byte) (s : bytes) : option (bytes * bytes) :=
  match bytes_rsplit_once c s with
  | Some (a, b) => if decide (a = []) then None else Some (a, c :: b)
  | None => None
  end.

Definition split_time_offset (s : bytes) : bytes * option bytes :=
  if ends_with "Z"%byte s || ends_with "z"%byte s then
    (take (length s - 1) s, Some (drop (length s - 1) s))
  else match split_at_last "+"%byte s with
  | Some (a, b) => (a, Some b)
  | None =>
      match split_at_last "-"%byte s with
      | Some (a, b) => (a, Some b)
      | None => (s, None)
      end
  end.

Definition fmt_offset_public (off : FixedOffset) : bytes :=
  let secs := local_minus_utc off in
  if secs =? 0 then ["Z"%byte] else
  let sign := if secs <? 0 then "-"%byte else "+"%byte in
  let a := Z.abs secs in
  let h := a / 3600 in
  let m := a `mod` 3600 / 60 in
  let s := a `mod` 60 in
  if negb (s =? 0) then sign :: fmt_0 2 h ++ ":"%byte :: fmt_0 2 m ++ ":"%byte :: fmt_0 2 s
  else sign :: fmt_0 2 h ++ ":"%byte :: fmt_0 2 m.

(** The same text again, written to a formatter. *)
Definition fmt_offset (off : FixedOffset) : bytes :=
  let secs := local_minus_utc off in
  if secs =? 0 then ["Z"%byte] else
  let sign := if secs <? 0 then "-"%byte else "+"%byte in
  let a := Z.abs secs in
  let h := a / 3600 in
  let m := a `mod` 3600 / 60 in
  let s := a `mod` 60 in
  if negb (s =? 0) then sign :: fmt_0 2 h ++ ":"%byte :: fmt_0 2 m ++ ":"%byte :: fmt_0 2 s
  else sign :: fmt_0 2 h ++ ":"%byte :: fmt_0 2 m.

Definition parse_offset_public (s : bytes) : Res Z := local_minus_utc <$> parse_offset s.

(** ** Times *)

(** Up to nine digits of a fraction, as nanoseconds. *)
Definition parse_frac_nanos (frac : bytes) : Res Z :=
  let padded := frac ++ replicate (9 - length frac) "0"%byte in
  truncate padded 9 ≫= parse_num parse_u32.

Definition parse_time_str (s : bytes) : Res NaiveTime :=
  let invalid := ser_error_at "invalid time: " s in
  if contains ":"%byte s then
    let parts := splitn3 ":"%byte s in
    h ← parse_num parse_u32 (default [] (parts !! 0%nat));
    m ← parse_num parse_u32 (default ["0"%byte] (parts !! 1%nat));
    match parts !! 2%nat with
    | None => ok_or (from_hms_opt h m 0) invalid
    | Some sec_part =>
        match bytes_split_once "."%byte sec_part with
        | Some (sec, frac) =>
            sec ← parse_num parse_u32 sec;
            nano ← parse_frac_nanos frac;
            ok_or (from_hms_nano_opt h m sec nano) invalid
        | None =>
            sec ← parse_num parse_u32 sec_part;
            ok_or (from_hms_opt h m sec) invalid
        end
    end
  else
    let '(digits, frac) :=
      match bytes_split_once "."%byte s with Some (d, f) => (d, Some f) | None => (s, None) end in
    hms ← (match length digits with
           | 2%nat => h ← parse_num parse_u32 digits; Ok (h, 0, 0)
           | 4%nat =>
               hh ← slice digits 0 2 ≫= parse_num parse_u32;
               mm ← slice_from digits 2 ≫= parse_num parse_u32;
               Ok (hh, mm, 0)
           | 6%nat =>
               hh ← slice digits 0 2 ≫= parse_num parse_u32;
               mm ← slice digits 2 4 ≫= parse_num parse_u32;
               ss ← slice_from digits 4 ≫= parse_num parse_u32;
               Ok (hh, mm, ss)
           | _ => Err (ser_error_at "invalid compact time: " s)
           end);
    nano ← (match frac with Some f => parse_frac_nanos f | None => Ok 0 end);
    ok_or (from_hms_nano_opt hms.1.1 hms.1.2 hms.2 nano) invalid.

Definition fmt_local_time (t : NaiveTime) : bytes :=
  let hm := fmt_0 2 (hour t) ++ ":"%byte :: fmt_0 2 (minute t) in
  let sec := second t in
  let nano := nanosecond t in
  if negb (sec =? 0) || negb (nano =? 0) then
    hm ++ ":"%byte :: fmt_0 2 sec ++
      (if negb (nano =? 0) then "."%byte :: trim_end_byte "0"%byte (fmt_0 9 nano) else [])
  else hm.

(** ** Dates *)
Definition weekday_of_number (n : Z) : option Weekday :=
  match n with
  | 1 => Some Mon | 2 => Some Tue | 3 => Some Wed | 4 => Some Thu
  | 5 => Some Fri | 6 => Some Sat | 7 => Some Sun
  | _ => None
  end.

Definition parse_week_date (s : bytes) : Res NaiveDate :=
  let compact := remove_byte "-"%byte s in
  w ← ok_or (bytes_split_once "W"%byte compact) (ser_error_at "invalid week date: " s);
  let '(before, after_w) := w in
  y ← parse_num parse_i32 before;
  wd ← (if decide (3 ≤ length after_w)%nat then
          wk ← slice after_w 0 2 ≫= parse_num parse_u32;
          d ← slice after_w 2 3 ≫= parse_num parse_u32;
          Ok (wk, d)
        else if decide (length after_w = 2)%nat then
          wk ← parse_num parse_u32 after_w;
          Ok (wk, 1)
        else Err (ser_error_at "invalid week date: " s));
  weekday ← ok_or (weekday_of_number wd.2)
    (ser_error ("invalid day of week " +:+ bytes_str (dec wd.2) +:+ " in: " +:+ bytes_str s));
  ok_or (from_isoywd_opt y wd.1 weekday) (ser_error_at "invalid week date: " s).

Definition parse_date_str (s : bytes) : Res NaiveDate :=
  let invalid := ser_error_at "invalid date: " s in
  let invalid_ordinal := ser_error_at "invalid ordinal date: " s in
  if contains "W"%byte s then parse_week_date s
  else if contains "-"%byte s then
    match bytes_split "-"%byte s with
    | [p0; p1; p2] =>
        y ← parse_num parse_i32 p0;
        m ← parse_num parse_u32 p1;
        d ← parse_num parse_u32 p2;
        ok_or (from_ymd_opt y m d) invalid
    | [p0; p1] =>
        y ← parse_num parse_i32 p0;
        part2 ← parse_num parse_u32 p1;
        if decide (length p1 = 3)%nat then ok_or (from_yo_opt y part2) invalid_ordinal
        else ok_or (from_ymd_opt y part2 1) invalid
    | _ => Err invalid
    end
  else
    match length s with
    | 8%nat =>
        y ← slice s 0 4 ≫= parse_num parse_i32;
        m ← slice s 4 6 ≫= parse_num parse_u32;
        d ← slice_from s 6 ≫= parse_num parse_u32;
        ok_or (from_ymd_opt y m d) invalid
    | 7%nat =>
        y ← slice s 0 4 ≫= parse_num parse_i32;
        d ← slice_from s 4 ≫= parse_num parse_u32;
        ok_or (from_yo_opt y d) invalid_ordinal
    | 6%nat =>
        y ← slice s 0 4 ≫= parse_num parse_i32;
        m ← slice_from s 4 ≫= parse_num parse_u32;
        ok_or (from_ymd_opt y m 1) invalid
    | 4%nat =>
        y ← parse_num parse_i32 s;
        ok_or (from_ymd_opt y 1 1) invalid
    | _ => Err invalid
    end.

Definition fmt_date (d : NaiveDate) : bytes :=
  fmt_0s 4 (year d) ++ "-"%byte :: fmt_0 2 (month d) ++ "-"%byte :: fmt_0 2 (day d).
End texts.

(** * Temporal values: src/src/temporal.rs

    Construction of dates, times and date-times from property maps, from ISO
    strings and from the epoch, and their display.  The newtypes of the source
    are their payloads: a [CypherTime] is a time with its offset, a
    [CypherDateTime] a date-time with its offset and zone name. *)

Definition get_i64 (map : Properties) (key : string) : option Z :=
  match map !! key with Some (Value.I64 n) => Some n | _ => None end.

Section temporal.
Context `{Chrono}.

Definition midnight : option NaiveTime := from_hms_opt 0 0 0.
Definition utc {E} : result E FixedOffset := unwrap (east_opt 0).

(** ** Time zones *)
Definition resolve_tz_name_now (name : string) : Res (FixedOffset * option string) :=
  tz ← ok_or (tz_parse name) (ser_error ("unknown timezone: " +:+ name));
  Ok (tz_now tz, Some name).

Definition resolve_tz_name_at (name : string) (dt : NaiveDateTime)
    : Res (FixedOffset * option string) :=
  tz ← ok_or (tz_parse name) (ser_error ("unknown timezone: " +:+ name));
  off ← ok_or (tz_from_local_earliest tz dt)
    (ser_error ("ambiguous or invalid datetime in timezone: " +:+ name));
  Ok (off, Some name).

(** ** The base value of a projection *)
Definition base_of (map : Properties) : option value := map !! "time" ∪ map !! "datetime".

Definition base_source_offset (map : Properties) : option FixedOffset :=
  match base_of map with
  | Some (Value.Time _ off) => Some off
  | Some (Value.DateTime _ off _) => Some off
  | _ => None
  end.

Definition base_source_offset_at (map : Properties) (ndt : NaiveDateTime)
    : option FixedOffset :=
  match base_of map with
  | Some (Value.Time _ off) => Some off
  | Some (Value.DateTime _ off (Some tz_name)) =>
      match resolve_tz_name_at tz_name ndt with
      | Ok (off', _) => Some off'
      | _ => Some off
      end
  | Some (Value.DateTime _ off None) => Some off
  | _ => None
  end.

(** ** Times and dates from a map *)
Definition time_from_map (map : Properties) : Res NaiveTime :=
  let base_time :=
    match base_of map with
    | Some (Value.LocalTime t) => Some t
    | Some (Value.Time t _) => Some t
    | Some (Value.LocalDateTime dt) => Some (dt_time dt)
    | Some (Value.DateTime dt _ _) => Some (dt_time dt)
    | _ => None
    end in
  let component key (f : NaiveTime → Z) :=
    as_u32 (default 0 (get_i64 map key ∪ (f <$> base_time))) in
  let h := component "hour" hour in
  let m := component "minute" minute in
  let s := component "second" second in
  let nano := component "nanosecond" (λ t, nanosecond t `mod` 1000000000) in
  let nano := as_u32 (nano + as_u32 (as_u32 (default 0 (get_i64 map "millisecond")) * 1000000)) in
  let nano := as_u32 (nano + as_u32 (as_u32 (default 0 (get_i64 map "microsecond")) * 1000)) in
  ok_or (from_hms_nano_opt h m s nano) (ser_error "invalid time components").

Definition date_from_map (map : Properties) : Res NaiveDate :=
  let base_date :=
    match map !! "date" ∪ map !! "datetime" with
    | Some (Value.Date d) => Some d
    | Some (Value.LocalDateTime dt) => Some (dt_date dt)
    | Some (Value.DateTime dt _ _) => Some (dt_date dt)
    | _ => None
    end in
  let y := as_i32 (default 0 (get_i64 map "year" ∪ (year <$> base_date))) in
  match get_i64 map "week", get_i64 map "ordinalDay", get_i64 map "quarter" with
  | Some week, _, _ =>
      let y := as_i32 (default 0 (get_i64 map "year" ∪ (iso_year <$> base_date))) in
      let dow := as_u32 (default
        (default 1 ((λ d, num_days_from_monday (weekday d) + 1) <$> base_date))
        (get_i64 map "dayOfWeek")) in
      wd ← ok_or (weekday_of_number dow)
        (ser_error ("invalid dayOfWeek: " +:+ bytes_str (dec dow)));
      ok_or (from_isoywd_opt y (as_u32 week) wd) (ser_error "invalid week date components")
  | None, Some ord, _ =>
      ok_or (from_yo_opt y (as_u32 ord)) (ser_error "invalid ordinal date components")
  | None, None, Some quarter =>
      let quarter_start_month := as_u32 (as_i64 ((quarter - 1) * 3 + 1)) in
      match get_i64 map "dayOfQuarter", base_date with
      | Some doq, _ =>
          start ← ok_or (from_ymd_opt y quarter_start_month 1) (ser_error "invalid quarter");
          delta ← unwrap (delta_days (as_i64 (doq - 1)));
          ok_or (date_checked_add_signed start delta) (ser_error "dayOfQuarter out of range")
      | None, Some bd =>
          let base_month_in_quarter := (month bd - 1) `mod` 3 in
          let m := as_u32 (quarter_start_month + base_month_in_quarter) in
          let d := as_u32 (default (day bd) (get_i64 map "day")) in
          ok_or (from_ymd_opt y m d) (ser_error "invalid quarter date")
      | None, None =>
          ok_or (from_ymd_opt y quarter_start_month 1) (ser_error "invalid quarter")
      end
  | None, None, None =>
      let m := as_u32 (default 1 (get_i64 map "month" ∪ (month <$> base_date))) in
      let d := as_u32 (default 1 (get_i64 map "day" ∪ (day <$> base_date))) in
      ok_or (from_ymd_opt y m d) (ser_error "invalid date components")
  end.

(** A zone that starts like an offset is one. *)
Definition is_offset_text (s : string) : bool :=
  starts_with "+"%byte (str_bytes s) || starts_with "-"%byte (str_bytes s)
  || String.eqb s "Z" || String.eqb s "z".

Definition offset_from_map (map : Properties) : Res (FixedOffset * option string) :=
  match map !! "timezone" with
  | Some (Value.String s) =>
      if is_offset_text s then off ← parse_offset (str_bytes s); Ok (off, None)
      else resolve_tz_name_now s
  | _ =>
      match base_of map with
      | Some (Value.Time _ off) => Ok (off, None)
      | Some (Value.DateTime _ off tz) => Ok (off, tz)
      | Some (Value.LocalTime _ | Value.LocalDateTime _) => off ← utc; Ok (off, None)
      | _ => off ← utc; Ok (off, None)
      end
  end.

(** ** [CypherDate] *)
Definition date_display (d : NaiveDate) : bytes := fmt_date d.
Definition date_from_iso_string (s : bytes) : Res NaiveDate := parse_date_str s.
Definition cypher_date_from_map (map : Properties) : Res NaiveDate := date_from_map map.

(** ** [CypherLocalTime] *)
Definition local_time_display (t : NaiveTime) : bytes := fmt_local_time t.
Definition local_time_from_iso_string (s : bytes) : Res NaiveTime := parse_time_str s.
Definition local_time_from_map (map : Properties) : Res NaiveTime := time_from_map map.

(** ** [CypherTime] *)
Definition time_display (t : NaiveTime) (off : FixedOffset) : bytes :=
  fmt_local_time t ++ fmt_offset off.

Definition time_from_iso_string (s : bytes) : Res (NaiveTime * FixedOffset) :=
  let '(time_part, off_part) := split_time_offset s in
  t ← parse_time_str time_part;
  off ← (match off_part with Some o => parse_offset o | None => utc end);
  Ok (t, off).

Definition time_from_map_at (map : Properties) : Res (NaiveTime * FixedOffset) :=
  t ← time_from_map map;
  o ← offset_from_map map;
  let off := o.1 in
  let t :=
    match map !! "timezone", base_source_offset map with
    | Some _, Some src_off =>
        if decide (src_off = off) then t else
        let delta := as_i32 (local_minus_utc off - local_minus_utc src_off) in
        let secs := (num_seconds_from_midnight t + delta) `mod` 86400 in
        default t (from_num_seconds_from_midnight_opt secs (nanosecond t `mod` 1000000000))
    | _, _ => t
    end in
  Ok (t, off).

(** ** [CypherLocalDateTime] *)
Definition local_datetime_display (dt : NaiveDateTime) : bytes :=
  fmt_date (dt_date dt) ++ "T"%byte :: fmt_local_time (dt_time dt).

(** [s.find('T').or_else(|| s.find('t'))], and the text on both sides. *)
Definition split_T (s : bytes) : Res (bytes * bytes) :=
  ok_or (bytes_split_once "T"%byte s ∪ bytes_split_once "t"%byte s)
    (ser_error_at "expected 'T' separator in: " s).

Definition local_datetime_from_iso_string (s : bytes) : Res NaiveDateTime :=
  p ← split_T s;
  d ← parse_date_str p.1;
  t ← parse_time_str p.2;
  Ok (mkDateTime d t).

Definition local_datetime_from_map (map : Properties) : Res NaiveDateTime :=
  d ← date_from_map map;
  t ← time_from_map map;
  Ok (mkDateTime d t).

(** ** [CypherDateTime] *)
Definition datetime_display (dt : NaiveDateTime) (off : FixedOffset) (tz : option string)
    : bytes :=
  fmt_date (dt_date dt) ++ "T"%byte :: fmt_local_time (dt_time dt) ++ fmt_offset off
  ++ match tz with Some tz => "["%byte :: str_bytes tz ++ ["]"%byte] | None => [] end.

Definition datetime_from_iso_string (s : bytes)
    : Res (NaiveDateTime * FixedOffset * option string) :=
  p ← split_T s;
  let '(date_part, time_and_off) := p : bytes * bytes in
  d ← parse_date_str date_part;
  let '(time_off_part, tz_name) :=
    match bytes_split_once "["%byte time_and_off with
    | Some (before, name) => (before, Some (bytes_str (trim_end_byte "]"%byte name)))
    | None => (time_and_off, None)
    end in
  let '(time_part, off_part) := split_time_offset time_off_part in
  t ← parse_time_str time_part;
  off ← (match off_part, tz_name with
         | Some off_str, _ => parse_offset off_str
         | None, Some tz => fst <$> resolve_tz_name_at tz (mkDateTime d t)
         | None, None =>
             Err (ser_error_at "CypherDateTime requires an offset or timezone: " s)
         end);
  Ok (mkDateTime d t, off, tz_name).

(** Convert the projected local time between offsets; a named target zone is
    resolved through UTC and ends the construction. *)
Definition datetime_from_map (map : Properties)
    : Res (NaiveDateTime * FixedOffset * option string) :=
  d ← date_from_map map;
  t ← time_from_map map;
  let ndt := mkDateTime d t in
  match map !! "timezone" with
  | Some (Value.String s) =>
      let is_named := negb (is_offset_text s) in
      target_off ← (if is_offset_text s then parse_offset (str_bytes s) else utc);
      match base_source_offset_at map ndt with
      | Some src_off =>
          if is_named then
            back ← unwrap (delta_seconds (local_minus_utc src_off));
            utc_ndt ← unwrap (datetime_checked_add_signed ndt (- back));
            tz ← ok_or (tz_parse s) (ser_error ("unknown timezone: " +:+ s));
            let off := tz_from_utc tz utc_ndt in
            ahead ← unwrap (delta_seconds (local_minus_utc off));
            converted ← unwrap (datetime_checked_add_signed utc_ndt ahead);
            Ok (converted, off, Some s)
          else if decide (src_off = target_off) then Ok (ndt, target_off, None)
          else
            let delta := as_i32 (local_minus_utc target_off - local_minus_utc src_off) in
            delta ← unwrap (delta_seconds delta);
            ndt' ← unwrap (datetime_checked_add_signed ndt delta);
            Ok (ndt', target_off, None)
      | None =>
          if is_named then
            o ← resolve_tz_name_at s ndt;
            Ok (ndt, o.1, o.2)
          else Ok (ndt, target_off, None)
      end
  | _ =>
      match base_of map with
      | Some (Value.Time _ off) => Ok (ndt, off, None)
      | Some (Value.DateTime _ _ (Some tz_name)) =>
          o ← resolve_tz_name_at tz_name ndt;
          Ok (ndt, o.1, o.2)
      | Some (Value.DateTime _ off None) => Ok (ndt, off, None)
      | _ => off ← utc; Ok (ndt, off, None)
      end
  end.

(** The epoch when the instant is not representable. *)
Definition or_epoch {E} (o : option NaiveDateTime) : result E NaiveDateTime :=
  match o with Some dt => Ok dt | None => unwrap (from_timestamp 0 0) end.

Definition from_epoch (seconds nanos : Z)
    : Res (NaiveDateTime * FixedOffset * option string) :=
  let total_nanos := as_i64 (as_i64 (seconds * 1000000000) + nanos) in
  let secs := total_nanos / 1000000000 in
  let ns := total_nanos `mod` 1000000000 in
  dt ← or_epoch (from_timestamp secs ns);
  off ← utc;
  Ok (dt, off, None).

Definition from_epoch_millis (millis : Z)
    : Res (NaiveDateTime * FixedOffset * option string) :=
  let secs := millis / 1000 in
  let ms := millis `mod` 1000 in
  dt ← or_epoch (from_timestamp secs (as_u32 (ms * 1000000)));
  off ← utc;
  Ok (dt, off, None).

(** ** [CypherDuration] *)

(** [fmt::Display]: sign-preserving division throughout. *)
Definition duration_display (d : CypherDuration) : bytes :=
  let years := Z.quot (months d) 12 in
  let months := Z.rem (months d) 12 in
  let '(total_seconds, nanos) :=
    if (seconds d <? 0) && (0 <? nanos d)
    then (seconds d + 1, nanos d - 1000000000)
    else if (0 <? seconds d) && (nanos d <? 0)
    then (seconds d - 1, nanos d + 1000000000)
    else (seconds d, nanos d) in
  let hours := Z.quot total_seconds 3600 in
  let rem := Z.rem total_seconds 3600 in
  let minutes := Z.quot rem 60 in
  let secs := Z.rem rem 60 in
  let field (n : Z) (unit : byte) := if n =? 0 then [] else dec_signed n ++ [unit] in
  let has_date_part := negb ((years =? 0) && (months =? 0) && (days d =? 0)) in
  let has_time_part := negb ((hours =? 0) && (minutes =? 0) && (secs =? 0) && (nanos =? 0)) in
  if negb has_date_part && negb has_time_part then str_bytes "PT0S" else
  "P"%byte :: field years "Y"%byte ++ field months "M"%byte ++ field (days d) "D"%byte ++
  (if has_time_part then
    "T"%byte :: field hours "H"%byte ++ field minutes "M"%byte ++
    (if negb (nanos =? 0) then
       let trimmed := trim_end_byte "0"%byte (fmt_0 9 (Z.abs nanos)) in
       if (secs <? 0) || (secs =? 0) && (nanos <? 0)
       then "-"%byte :: dec (Z.abs secs) ++ "."%byte :: trimmed ++ ["S"%byte]
       else dec_signed secs ++ "."%byte :: trimmed ++ ["S"%byte]
     else field secs "S"%byte)
   else []).
End temporal.
