(* ===== verification/TemporalSerde.v ===== *)
(** * Serialized temporal values: the serde impls of src/src/temporal.rs

    Each temporal type is written as a struct of integers and read back either
    from a sequence or from a map of named fields.  serde and the formats are
    dependencies: [Serde] lists what the impls use of them, [SerdeLaws] that
    an integer or a string is read back at every type that holds it.
    [PlainSerde] is an instance. *)
From S2P Require Export Temporal.
#[local] Open Scope Z_scope.

Class Serde := {
  Item : Type;
  DeError : Type;
  item_int : Z → Item;
  item_str : string → Item;
  (** An element or a field read at an integer type given by its range. *)
  de_int : Z → Z → Item → result DeError Z;
  de_string : Item → result DeError string;
  (** [de::Error]'s constructors. *)
  de_custom : string → DeError;
  invalid_length : nat → DeError;
  missing_field : string → DeError;
  unknown_field : string → DeError;
}.

Class SerdeLaws `{Sd : Serde} : Prop := {
  law_de_int lo hi n : lo ≤ n ≤ hi → de_int lo hi (item_int n) = Ok n;
  law_de_string s : de_string (item_str s) = Ok s;
}.

Section serde.
Context `{Chrono} `{Serde}.

Abbreviation De := (result DeError).

Definition de_i32 : Item → De Z := de_int i32_min i32_max.
Definition de_u32 : Item → De Z := de_int 0 u32_max.
Definition de_i64 : Item → De Z := de_int i64_min i64_max.

(** ** Sequences *)

(** [seq.next_element()?.ok_or_else(|| invalid_length(i, &self))?]. *)
Definition next_element {A} (de : Item → De A) (i : nat) (seq : list Item) : De (A * list Item) :=
  match seq with
  | [] => Err (invalid_length i)
  | x :: seq' => v ← de x; Ok (v, seq')
  end.

(** The components every impl reads: dates from position [i], times likewise. *)
Definition seq_date (i : nat) (seq : list Item) : De ((Z * Z * Z) * list Item) :=
  y ← next_element de_i32 i seq;
  m ← next_element de_u32 (i + 1) y.2;
  d ← next_element de_u32 (i + 2) m.2;
  Ok ((y.1, m.1, d.1), d.2).
Definition seq_time (i : nat) (seq : list Item) : De ((Z * Z * Z * Z) * list Item) :=
  h ← next_element de_u32 i seq;
  m ← next_element de_u32 (i + 1) h.2;
  s ← next_element de_u32 (i + 2) m.2;
  n ← next_element de_u32 (i + 3) s.2;
  Ok ((h.1, m.1, s.1, n.1), n.2).

Definition make_date (c : Z * Z * Z) : De NaiveDate :=
  ok_or (from_ymd_opt c.1.1 c.1.2 c.2) (de_custom "invalid date").
Definition make_time (c : Z * Z * Z * Z) : De NaiveTime :=
  ok_or (from_hms_nano_opt c.1.1.1 c.1.1.2 c.1.2 c.2) (de_custom "invalid time").
Definition make_offset (o : Z) : De FixedOffset := ok_or (east_opt o) (de_custom "invalid offset").

(** ** Maps

    The fields of a type: integers by their range, or a string.  A later entry
    for a field replaces an earlier one. *)
Inductive FieldKind := IntField (lo hi : Z) | StrField.
Inductive FieldValue := IntValue (n : Z) | StrValue (s : string).

Definition de_field (k : FieldKind) (x : Item) : De FieldValue :=
  match k with
  | IntField lo hi => IntValue <$> de_int lo hi x
  | StrField => StrValue <$> de_string x
  end.

Fixpoint read_fields (fields : list (string * FieldKind)) (env : gmap string FieldValue)
    (entries : list (string * Item)) : De (gmap string FieldValue) :=
  match entries with
  | [] => Ok env
  | (k, x) :: entries' =>
      match (list_to_map fields : gmap string FieldKind) !! k with
      | None => Err (unknown_field k)
      | Some kind => v ← de_field kind x; read_fields fields (<[k := v]> env) entries'
      end
  end.

Definition require (env : gmap string FieldValue) (k : string) : De Z :=
  match env !! k with Some (IntValue n) => Ok n | _ => Err (missing_field k) end.

Definition i32_field : FieldKind := IntField i32_min i32_max.
Definition u32_field : FieldKind := IntField 0 u32_max.
Definition i64_field : FieldKind := IntField i64_min i64_max.

Definition date_fields : list (string * FieldKind) :=
  [("year", i32_field); ("month", u32_field); ("day", u32_field)].
Definition time_fields : list (string * FieldKind) :=
  [("hour", u32_field); ("minute", u32_field); ("second", u32_field);
   ("nanosecond", u32_field)].
Definition offset_fields : list (string * FieldKind) := [("offset_seconds", i32_field)].

Definition map_date (env : gmap string FieldValue) : De (Z * Z * Z) :=
  y ← require env "year"; m ← require env "month"; d ← require env "day"; Ok (y, m, d).
Definition map_time (env : gmap string FieldValue) : De (Z * Z * Z * Z) :=
  h ← require env "hour"; m ← require env "minute"; s ← require env "second";
  n ← require env "nanosecond"; Ok (h, m, s, n).

(** ** The impls *)
Definition ser_date (d : NaiveDate) : list (string * Item) :=
  [("year", item_int (year d)); ("month", item_int (month d)); ("day", item_int (day d))].
Definition ser_time (t : NaiveTime) : list (string * Item) :=
  [("hour", item_int (hour t)); ("minute", item_int (minute t));
   ("second", item_int (second t)); ("nanosecond", item_int (nanosecond t))].
Definition ser_offset (off : FixedOffset) : list (string * Item) :=
  [("offset_seconds", item_int (local_minus_utc off))].

Definition date_serialize (d : NaiveDate) : list (string * Item) := ser_date d.
Definition date_visit_seq (seq : list Item) : De NaiveDate :=
  c ← seq_date 0 seq; make_date c.1.
Definition date_visit_map (entries : list (string * Item)) : De NaiveDate :=
  env ← read_fields date_fields ∅ entries; c ← map_date env; make_date c.

Definition local_time_serialize (t : NaiveTime) : list (string * Item) := ser_time t.
Definition local_time_visit_seq (seq : list Item) : De NaiveTime :=
  c ← seq_time 0 seq; make_time c.1.
Definition local_time_visit_map (entries : list (string * Item)) : De NaiveTime :=
  env ← read_fields time_fields ∅ entries; c ← map_time env; make_time c.

Definition time_serialize (v : NaiveTime * FixedOffset) : list (string * Item) :=
  ser_time v.1 ++ ser_offset v.2.
Definition time_visit_seq (seq : list Item) : De (NaiveTime * FixedOffset) :=
  c ← seq_time 0 seq;
  o ← next_element de_i32 4 c.2;
  t ← make_time c.1; off ← make_offset o.1; Ok (t, off).
Definition time_visit_map (entries : list (string * Item)) : De (NaiveTime * FixedOffset) :=
  env ← read_fields (time_fields ++ offset_fields) ∅ entries;
  c ← map_time env; o ← require env "offset_seconds";
  t ← make_time c; off ← make_offset o; Ok (t, off).

Definition local_datetime_serialize (dt : NaiveDateTime) : list (string * Item) :=
  ser_date (dt_date dt) ++ ser_time (dt_time dt).
Definition local_datetime_visit_seq (seq : list Item) : De NaiveDateTime :=
  c ← seq_date 0 seq; c' ← seq_time 3 c.2;
  d ← make_date c.1; t ← make_time c'.1; Ok (mkDateTime d t).
Definition local_datetime_visit_map (entries : list (string * Item)) : De NaiveDateTime :=
  env ← read_fields (date_fields ++ time_fields) ∅ entries;
  c ← map_date env; c' ← map_time env;
  d ← make_date c; t ← make_time c'; Ok (mkDateTime d t).

(** The zone name is the last field, written when there is one; a sequence
    whose last element does not read as a string has none. *)
Definition datetime_serialize (v : NaiveDateTime * FixedOffset * option string)
    : list (string * Item) :=
  ser_date (dt_date v.1.1) ++ ser_time (dt_time v.1.1) ++ ser_offset v.1.2
  ++ match v.2 with Some tz => [("tz_name", item_str tz)] | None => [] end.
Definition datetime_visit_seq (seq : list Item)
    : De (NaiveDateTime * FixedOffset * option string) :=
  c ← seq_date 0 seq; c' ← seq_time 3 c.2; o ← next_element de_i32 7 c'.2;
  let tz_name :=
    match o.2 with
    | x :: _ => match de_string x with Ok s => Some s | _ => None end
    | [] => None
    end in
  d ← make_date c.1; t ← make_time c'.1; off ← make_offset o.1;
  Ok (mkDateTime d t, off, tz_name).
Definition datetime_visit_map (entries : list (string * Item))
    : De (NaiveDateTime * FixedOffset * option string) :=
  env ← read_fields (date_fields ++ time_fields ++ offset_fields ++ [("tz_name", StrField)])
    ∅ entries;
  c ← map_date env; c' ← map_time env; o ← require env "offset_seconds";
  let tz_name := match env !! "tz_name" with Some (StrValue s) => Some s | _ => None end in
  d ← make_date c; t ← make_time c'; off ← make_offset o;
  Ok (mkDateTime d t, off, tz_name).

Definition duration_fields : list (string * FieldKind) :=
  [("months", i64_field); ("days", i64_field); ("seconds", i64_field); ("nanos", i64_field)].
Definition duration_serialize (d : CypherDuration) : list (string * Item) :=
  [("months", item_int (months d)); ("days", item_int (days d));
   ("seconds", item_int (seconds d)); ("nanos", item_int (nanos d))].
Definition duration_visit_seq (seq : list Item) : De CypherDuration :=
  m ← next_element de_i64 0 seq;
  d ← next_element de_i64 1 m.2;
  s ← next_element de_i64 2 d.2;
  n ← next_element de_i64 3 s.2;
  Ok (mkDuration m.1 d.1 s.1 n.1).
Definition duration_visit_map (entries : list (string * Item)) : De CypherDuration :=
  env ← read_fields duration_fields ∅ entries;
  m ← require env "months"; d ← require env "days"; s ← require env "seconds";
  n ← require env "nanos"; Ok (mkDuration m d s n).
End serde.

(** ** A plain instance *)
Module PlainSerde.
Definition read_int (lo hi : Z) (x : Z + string) : result string Z :=
  match x with
  | inl n => if decide (lo ≤ n ≤ hi) then Ok n else Err "invalid value"
  | inr _ => Err "invalid type"
  end.
Definition read_string (x : Z + string) : result string string :=
  match x with inr s => Ok s | inl _ => Err "invalid type" end.
#[export] Instance serde : Serde := {
  Item := Z + string; DeError := string; item_int := inl; item_str := inr;
  de_int := read_int; de_string := read_string;
  de_custom s := s; invalid_length _ := "invalid length";
  missing_field k := "missing field " +:+ k; unknown_field k := "unknown field " +:+ k;
}.
#[export] Instance serde_laws : SerdeLaws.
Proof. split; [|done]. intros lo hi n Hn. simpl. by rewrite decide_True. Qed.
End PlainSerde.
