(* ===== verification/TemporalSpec.v ===== *)
(** * Reading back what was printed: properties of the texts of temporal values

    The parsers of Temporal.v on the output of the printers. *)
From S2P Require Export TemporalSerde.
#[local] Open Scope Z_scope.

(** ** Shapes of printed numbers *)
Lemma contains_false c s : c ∉ s → contains c s = false.
Proof. apply bool_decide_eq_false_2. Qed.
Lemma contains_true c s : c ∈ s → contains c s = true.
Proof. apply bool_decide_eq_true_2. Qed.

Lemma parse_num_fmt_0 parse s lo hi w n :
  parse = parse_int s lo hi → lo ≤ 0 → 0 ≤ n ≤ hi → parse_num parse (fmt_0 w n) = Ok n.
Proof. intros -> Hlo Hn. unfold parse_num. by rewrite parse_fmt_0. Qed.
Lemma parse_u32_fmt_0 w n : 0 ≤ n ≤ u32_max → parse_num parse_u32 (fmt_0 w n) = Ok n.
Proof. by apply (parse_num_fmt_0 parse_u32 false 0 u32_max). Qed.
Lemma parse_i32_fmt_0 w n : 0 ≤ n ≤ i32_max → parse_num parse_i32 (fmt_0 w n) = Ok n.
Proof. by apply (parse_num_fmt_0 parse_i32 true i32_min i32_max). Qed.


(** Digits are no separators. *)
Lemma digit_neq b c : is_digit b = true → is_digit c = false → b ≠ c.
Proof. congruence. Qed.

Ltac no_sep :=
  repeat first
    [ rewrite not_elem_of_app; split
    | rewrite not_elem_of_cons; split
    | apply fmt_0_no; [lia|reflexivity]
    | apply not_elem_of_nil
    | discriminate ].

(** ** Slices *)
(** A byte that is not a continuation byte begins a character. *)
Definition plain (l : bytes) : Prop := Forall (λ b, utf8_cont b = false) l.
Lemma plain_digits l : all_digits l → plain l.
Proof.
  intros Hl. eapply Forall_impl; [exact Hl|]. intros b Hb. unfold is_digit, byte_in in Hb. unfold utf8_cont.
  apply andb_true_iff in Hb as [_ Hb]. apply N.leb_le in Hb.
  apply andb_false_iff. left. apply N.leb_gt. lia.
Qed.
Lemma plain_boundary l i : plain l → (i ≤ length l)%nat → char_boundary l i = true.
Proof.
  intros Hl Hi. unfold char_boundary. destruct (l !! i) as [b|] eqn:E.
  - unfold plain in Hl. rewrite Forall_lookup in Hl. by rewrite (Hl i b E).
  - apply lookup_ge_None in E. apply bool_decide_eq_true_2. lia.
Qed.
Lemma slice_plain {E} (l : bytes) i j :
  plain l → (i ≤ j ≤ length l)%nat → slice (E := E) l i j = Ok (take (j - i) (drop i l)).
Proof.
  intros Hl Hij. unfold slice. rewrite bool_decide_eq_true_2 by lia.
  by rewrite !plain_boundary by (done || lia).
Qed.
Lemma plain_fmt_0 w n : 0 ≤ n → plain (fmt_0 w n).
Proof. intros. apply plain_digits. by apply fmt_0_spec. Qed.

(** ** Dates *)
Section dates.
Context {Ch : Chrono} {Laws : ChronoLaws}.

Lemma month_day_pos d : valid_date d → 1 ≤ month d ≤ 12 ∧ 1 ≤ day d ≤ 31.
Proof.
  intros (_ & Hm & Hd). pose proof (month_len_range (year d) (month d)). lia.
Qed.
Lemma from_ymd_valid d : valid_date d → from_ymd_opt (year d) (month d) (day d) = Some d.
Proof. intros Hd. rewrite law_from_ymd, decide_True by done. by destruct d. Qed.

Lemma fmt_date_nonneg d :
  0 ≤ year d →
  fmt_date d = fmt_0 4 (year d) ++ "-"%byte :: fmt_0 2 (month d) ++ "-"%byte :: fmt_0 2 (day d).
Proof. intros. unfold fmt_date. by rewrite fmt_0s_nonneg. Qed.

Lemma fmt_date_no c d :
  valid_date d → is_digit c = false → c ≠ "-"%byte → c ∉ fmt_date d.
Proof.
  intros Hd Hc Hn. pose proof (month_day_pos d Hd). unfold fmt_date, fmt_0s.
  destruct (Z.ltb_spec (year d) 0).
  - rewrite not_elem_of_app, !not_elem_of_cons, not_elem_of_app, not_elem_of_cons.
    split_and!; try done; apply fmt_0_no; try done; lia.
  - rewrite not_elem_of_app, !not_elem_of_cons, not_elem_of_app, not_elem_of_cons.
    fold (fmt_0 4 (year d)).
    split_and!; try done; apply fmt_0_no; try done; lia.
Qed.

Lemma parse_fmt_date d :
  valid_date d → 0 ≤ year d → parse_date_str (fmt_date d) = Ok d.
Proof.
  intros Hd Hy. pose proof (month_day_pos d Hd). pose proof Hd as (Hyr & _ & _).
  unfold max_year in Hyr.
  unfold parse_date_str. rewrite contains_false by (by apply fmt_date_no).
  rewrite (fmt_date_nonneg d Hy).
  rewrite contains_true by set_solver.
  rewrite bytes_split_app by (apply fmt_0_no; [lia|done]).
  rewrite bytes_split_app by (apply fmt_0_no; [lia|done]).
  rewrite bytes_split_one by (apply fmt_0_no; [lia|done]).
  rewrite parse_i32_fmt_0 by (widths; lia). simpl.
  rewrite !parse_u32_fmt_0 by (widths; lia). simpl.
  by rewrite from_ymd_valid.
Qed.

(** A year before the year 0 is printed with a sign, and the sign is taken for
    a separator. *)
Lemma parse_fmt_date_negative d :
  valid_date d → year d < 0 →
  parse_date_str (fmt_date d) = Err (ser_error_at "invalid date: " (fmt_date d)).
Proof.
  intros Hd Hy. pose proof (month_day_pos d Hd).
  unfold parse_date_str. rewrite contains_false by (by apply fmt_date_no).
  assert (bytes_split "-"%byte (fmt_date d) =
    [[]; pad 3 (dec (- year d)); fmt_0 2 (month d); fmt_0 2 (day d)]) as ->.
  { unfold fmt_date, fmt_0s. destruct (Z.ltb_spec (year d) 0); [|lia].
    change (bytes_split "-"%byte ([] ++ "-"%byte ::
      (pad 3 (dec (- year d)) ++ "-"%byte :: fmt_0 2 (month d) ++ "-"%byte :: fmt_0 2 (day d)))
      = [[]; pad 3 (dec (- year d)); fmt_0 2 (month d); fmt_0 2 (day d)]).
    rewrite bytes_split_app by apply not_elem_of_nil.
    rewrite bytes_split_app.
    2:{ apply digits_no; [|done]. apply all_digits_zeros, dec_spec. lia. }
    rewrite bytes_split_app by (apply fmt_0_no; [lia|done]).
    by rewrite bytes_split_one by (apply fmt_0_no; [lia|done]). }
  rewrite contains_true; [done|].
  unfold fmt_date. set_solver.
Qed.
End dates.

(** ** Trailing zeros *)
Lemma trim_front_cons f c l : trim_front (S f) [[c]] (c :: l) = trim_front f [[c]] l.
Proof. simpl. by rewrite decide_True. Qed.
Lemma trim_front_byte_stop f c l : starts_with c l = false → trim_front f [[c]] l = l.
Proof.
  intros Hl. destruct f as [|f]; [done|]. simpl. destruct l as [|x l]; [done|]. simpl in *.
  apply bool_decide_eq_false in Hl. by rewrite decide_False.
Qed.
Lemma trim_front_pieces f c l : ∃ k, l = replicate k c ++ trim_front f [[c]] l.
Proof.
  revert l. induction f as [|f IH]; intros l; [by exists 0%nat|].
  destruct l as [|x l]; [by exists 0%nat|]. destruct (decide (x = c)) as [->|Hx].
  - rewrite trim_front_cons. destruct (IH l) as [k E]. exists (S k). simpl. by f_equal.
  - exists 0%nat. simpl. by rewrite decide_False.
Qed.
Lemma trim_end_pieces c l : ∃ k, l = trim_end_byte c l ++ replicate k c.
Proof.
  unfold trim_end_byte, trim_end_of, trim_start_of. simpl.
  destruct (trim_front_pieces (length (reverse l)) c (reverse l)) as [k E]. exists k.
  rewrite <- (reverse_involutive l) at 1. rewrite E at 1.
  by rewrite reverse_app, reverse_replicate.
Qed.
Lemma trim_end_byte_one c l : ends_with c l = false → trim_end_byte c (l ++ [c]) = l.
Proof.
  intros Hl. unfold trim_end_byte, trim_end_of, trim_start_of.
  rewrite reverse_app. change (reverse [c] ++ reverse l) with (c :: reverse l).
  change (reverse <$> [[c]]) with [[c]].
  change (length (c :: reverse l)) with (S (length (reverse l))).
  rewrite trim_front_cons, trim_front_byte_stop; [by rewrite reverse_involutive|].
  destruct l as [|x l _] using rev_ind; [done|]. rewrite reverse_snoc.
  unfold ends_with in Hl. by rewrite last_snoc in Hl.
Qed.

Lemma pad_trimmed l k :
  (9 ≤ length l)%nat → l = take (length l - k) l ++ replicate k "0"%byte → (k ≤ length l)%nat →
  take 9 (take (length l - k) l ++ replicate (9 - (length l - k)) "0"%byte) = take 9 l.
Proof.
  intros Hn E Hk. set (m := (length l - k)%nat) in *.
  assert (length (take m l) = m) as Hm by (rewrite length_take; lia).
  rewrite E at 2. rewrite !take_app, Hm. f_equal.
  rewrite !take_replicate. f_equal. lia.
Qed.

Lemma frac_digits l :
  all_digits l → (9 ≤ length l ≤ 10)%nat →
  parse_frac_nanos (trim_end_byte "0"%byte l) = Ok (digits_val 0 (take 9 l)).
Proof.
  intros Hl Hn. destruct (trim_end_pieces "0"%byte l) as [k E].
  set (l' := trim_end_byte "0"%byte l) in *.
  assert (length l = length l' + k)%nat as Hlen.
  { rewrite E at 1. by rewrite length_app, length_replicate. }
  assert (l' = take (length l - k) l) as El'.
  { rewrite E at 2. rewrite take_app_length'; [done|lia]. }
  unfold parse_frac_nanos.
  assert (∃ p, l' ++ replicate (9 - length l') "0"%byte = p ∧ take 9 p = take 9 l
    ∧ all_digits p ∧ (length p ≤ 10)%nat) as (p & -> & Et & Hp & Hlp).
  { eexists. split; [done|]. split_and!.
    - rewrite El' at 1. replace (length l') with (length l - k)%nat by lia.
      apply pad_trimmed; [lia| |lia]. by rewrite <- El'.
    - apply Forall_app. split; [|by apply Forall_replicate].
      rewrite El'. by apply Forall_take.
    - rewrite length_app, length_replicate. lia. }
  assert (truncate (E := GraphError) p 9 = Ok (take 9 l)) as ->.
  { unfold truncate. case_decide as Hd; [by rewrite <- Et, take_ge by lia|].
    rewrite plain_boundary by first [by apply plain_digits|lia]. by rewrite Et. }
  simpl. unfold parse_num, parse_u32.
  assert (all_digits (take 9 l)) as Ht by by apply Forall_take.
  rewrite parse_int_digits; [done|done| |lia|].
  - intros E0%(f_equal length). rewrite length_firstn in E0. simpl length in E0 at 2. lia.
  - assert (length (take 9 l) ≤ 9)%nat as Hlt by (rewrite length_take; lia).
    pose proof (digits_val_lt (take 9 l) 0 9 Ht Hlt ltac:(lia)) as G.
    change ((0 + 1) * 10 ^ Z.of_nat 9) with 1000000000 in G. widths. lia.
Qed.

(** ** Times and offsets *)
Section times.
Context {Ch : Chrono} {Laws : ChronoLaws}.

Lemma hms_range t :
  valid_time t → 0 ≤ hour t < 24 ∧ 0 ≤ minute t < 60 ∧ 0 ≤ second t < 60.
Proof. intros (Hs & _). unfold hour, minute, second. split_and!; div_lia. Qed.
Lemma hms_secs_back t : hms_secs (hour t) (minute t) (second t) = num_seconds_from_midnight t.
Proof. unfold hms_secs, hour, minute, second. div_lia. Qed.

(** The time that is read back: the fraction keeps its nine leading digits. *)
Definition read_back (t : NaiveTime) : NaiveTime :=
  mkTime (num_seconds_from_midnight t)
    (if nanosecond t <? nanos_per_sec then nanosecond t else nanosecond t / 10).

Lemma read_back_leap_free t : leap_free t → read_back t = t.
Proof.
  unfold leap_free, read_back. intros Hl. destruct (Z.ltb_spec (nanosecond t) nanos_per_sec).
  - by destruct t.
  - lia.
Qed.

Lemma from_hms_read_back t :
  valid_time t →
  from_hms_nano_opt (hour t) (minute t) (second t) (nanosecond (read_back t))
    = Some (read_back t).
Proof.
  intros Ht. pose proof (hms_range t Ht). destruct Ht as (_ & Hn & _).
  rewrite law_from_hms, hms_secs_back. unfold nanos_per_sec in *.
  rewrite decide_True; [by unfold read_back|].
  unfold valid_hms, read_back; simpl. unfold nanos_per_sec.
  destruct (Z.ltb_spec (nanosecond t) 1000000000); split_and!; try lia; div_lia.
Qed.

Lemma parse_frac_fmt n :
  0 ≤ n < 2 * nanos_per_sec →
  parse_frac_nanos (trim_end_byte "0"%byte (fmt_0 9 n))
    = Ok (if n <? nanos_per_sec then n else n / 10).
Proof.
  unfold nanos_per_sec. intros Hn. destruct (fmt_0_spec 9 n) as (Hd & Hv & _); [lia|].
  assert (length (fmt_0 9 n) = if n <? 1000000000 then 9%nat else 10%nat) as Hlen.
  { destruct (Z.ltb_spec n 1000000000); [apply fmt_0_length; simpl; lia|].
    apply Nat.le_antisymm.
    - unfold fmt_0, pad. rewrite length_app, length_replicate.
      pose proof (dec_length n 10 ltac:(simpl; lia) ltac:(done)). lia.
    - destruct (Nat.le_gt_cases (length (fmt_0 9 n)) 9) as [H9|]; [|lia].
      pose proof (digits_val_lt (fmt_0 9 n) 0 9 Hd H9 ltac:(lia)) as G.
      rewrite Hv in G. simpl in G. lia. }
  rewrite frac_digits by (done || (rewrite Hlen; destruct (n <? 1000000000); lia)).
  f_equal. destruct (Z.ltb_spec n 1000000000); [by rewrite take_ge by lia|].
  rewrite <- (take_drop 9 (fmt_0 9 n)), digits_val_app in Hv.
  assert (∃ b, drop 9 (fmt_0 9 n) = [b]) as [b Eb].
  { assert (length (drop 9 (fmt_0 9 n)) = 1%nat) as L1 by (rewrite length_drop; lia).
    destruct (drop 9 (fmt_0 9 n)) as [|b [|]]; try done. by exists b. }
  assert (is_digit b = true) as Hb.
  { assert (all_digits (drop 9 (fmt_0 9 n))) as Ha by by apply Forall_drop.
    rewrite Eb in Ha. by inversion Ha. }
  rewrite Eb in Hv. apply digit_val_range in Hb.
  change (digits_val 0 (take 9 (fmt_0 9 n)) * 10 + digit_val b = n) in Hv.
  revert Hv. generalize (digits_val 0 (take 9 (fmt_0 9 n))). intros v Hv. div_lia.
Qed.

Lemma splitn3_two a b : ":"%byte ∉ a → ":"%byte ∉ b →
  splitn3 ":"%byte (a ++ ":"%byte :: b) = [a; b].
Proof.
  intros Ha Hb. unfold splitn3. rewrite bytes_split_once_app by done.
  by rewrite bytes_split_once_none.
Qed.
Lemma splitn3_three a b c : ":"%byte ∉ a → ":"%byte ∉ b →
  splitn3 ":"%byte (a ++ ":"%byte :: b ++ ":"%byte :: c) = [a; b; c].
Proof.
  intros Ha Hb. unfold splitn3. rewrite bytes_split_once_app by done.
  by rewrite bytes_split_once_app.
Qed.

Lemma parse_fmt_local_time t :
  valid_time t → parse_time_str (fmt_local_time t) = Ok (read_back t).
Proof.
  intros Ht. pose proof (hms_range t Ht) as (Hh & Hm & Hs).
  pose proof (from_hms_read_back t Ht) as E. pose proof Ht as (_ & Hn & _).
  unfold parse_time_str. rewrite contains_true.
  2:{ unfold fmt_local_time. repeat case_match; set_solver. }
  unfold fmt_local_time.
  assert (∀ (b : byte) n, 0 ≤ n → is_digit b = false → b ∉ fmt_0 2 n) as No
    by (intros; by apply fmt_0_no).
  destruct (Z.eqb_spec (nanosecond t) 0) as [N0|N0]; simpl.
  - rewrite orb_false_r. assert (read_back t = t) as Er.
    { apply read_back_leap_free. unfold leap_free. rewrite N0. done. }
    rewrite Er, N0 in E. destruct (Z.eqb_spec (second t) 0) as [S0|S0]; simpl.
    + rewrite splitn3_two by (apply No; [lia|done]). simpl.
      rewrite !parse_u32_fmt_0 by (widths; lia). simpl.
      unfold from_hms_opt. rewrite S0 in E. by rewrite E, Er.
    + rewrite app_nil_r, <- app_assoc. simpl.
      rewrite splitn3_three by (apply No; [lia|done]). simpl.
      rewrite !parse_u32_fmt_0 by (widths; lia). simpl.
      rewrite bytes_split_once_none by (apply No; [lia|done]).
      unfold from_hms_opt. by rewrite E, Er.
  - rewrite orb_true_r. rewrite <- app_assoc. simpl.
    rewrite splitn3_three by (apply No; [lia|done]). simpl.
    rewrite !parse_u32_fmt_0 by (widths; lia). simpl.
    rewrite bytes_split_once_app by (apply No; [lia|done]).
    rewrite ?parse_u32_fmt_0 by (widths; lia). simpl.
    rewrite parse_frac_fmt by done. simpl. unfold read_back in E at 1. simpl in E.
    by rewrite E.
Qed.
End times.

Section offsets.
Context {Ch : Chrono} {Laws : ChronoLaws}.

Lemma fmt_local_time_no c t :
  valid_time t → is_digit c = false → c ≠ ":"%byte → c ≠ "."%byte → c ∉ fmt_local_time t.
Proof.
  intros Ht Hc H1 H2. pose proof (hms_range t Ht) as (Hh & Hm & Hs).
  pose proof Ht as (_ & Hn & _).
  assert (∀ w n, 0 ≤ n → c ∉ fmt_0 w n) as No by (intros; by apply fmt_0_no).
  assert (c ∉ trim_end_byte "0"%byte (fmt_0 9 (nanosecond t))) as Hf.
  { destruct (trim_end_pieces "0"%byte (fmt_0 9 (nanosecond t))) as [k E].
    intros Hin. apply (No 9%nat (nanosecond t)); [lia|]. rewrite E. set_solver. }
  unfold fmt_local_time.
  assert (c ∉ fmt_0 2 (hour t) ++ ":"%byte :: fmt_0 2 (minute t)) as Hhm.
  { rewrite not_elem_of_app, not_elem_of_cons. split_and!; try done; apply No; lia. }
  destruct (_ || _); [|done].
  apply not_elem_of_app; split; [done|]. apply not_elem_of_cons; split; [done|].
  apply not_elem_of_app; split; [apply No; lia|].
  destruct (negb _); [|apply not_elem_of_nil]. by rewrite not_elem_of_cons.
Qed.

Lemma fmt_local_time_nonempty t : fmt_local_time t ≠ [].
Proof.
  intros E. assert (":"%byte ∈ fmt_local_time t) as Hin; [|rewrite E in Hin; by apply elem_of_nil in Hin].
  unfold fmt_local_time. destruct (_ || _); set_solver.
Qed.

Lemma take_pairs (a b d : bytes) c1 c2 :
  length a = 2%nat → length b = 2%nat → length d = 2%nat →
  let l := a ++ c1 :: b ++ c2 :: d in
  take 2 (drop 0 l) = a ∧ take 2 (drop 3 l) = b ∧ take 2 (drop 6 l) = d.
Proof.
  intros Ha Hb Hd.
  destruct a as [|a1 [|a2 [|]]], b as [|b1 [|b2 [|]]], d as [|d1 [|d2 [|]]]; done.
Qed.

(** The text of an offset: [Z], or a sign followed by colon-separated pairs. *)
Lemma fmt_offset_cases off :
  valid_offset off →
  (local_minus_utc off = 0 ∧ fmt_offset off = ["Z"%byte])
  ∨ ∃ c body, fmt_offset off = c :: body ∧ c = (if local_minus_utc off <? 0 then "-" else "+")%byte
    ∧ parse_offset (c :: body) = Ok off
    ∧ (∀ b, is_digit b = false → b ≠ ":"%byte → b ∉ body) ∧ body ≠ [].
Proof.
  unfold valid_offset. destruct off as [secs]; simpl. intros Hv. unfold fmt_offset; simpl.
  destruct (Z.eqb_spec secs 0) as [->|Hz]; [by left|]. right.
  set (a := Z.abs secs).
  assert (0 ≤ a / 3600 < 24 ∧ 0 ≤ a `mod` 3600 / 60 < 60 ∧ 0 ≤ a `mod` 60 < 60
    ∧ a = a / 3600 * 3600 + a `mod` 3600 / 60 * 60 + a `mod` 60) as (Hh & Hm & Hs & Ea)
    by (subst a; split_and!; div_lia).
  set (h := a / 3600) in *. set (m := a `mod` 3600 / 60) in *. set (s := a `mod` 60) in *.
  clearbody h m s.
  set (c := if secs <? 0 then "-"%byte else "+"%byte).
  assert (c = "-"%byte ∧ secs = - a ∨ c = "+"%byte ∧ secs = a) as Hc.
  { subst c a. destruct (Z.ltb_spec secs 0); [left|right]; split; auto; lia. }
  set (sg := if starts_with "+"%byte [c] then 1 else -1).
  assert (sg * a = secs) as Hsg by (destruct Hc as [[Ec Es]|[Ec Es]]; unfold sg; rewrite Ec; simpl; lia).
  assert (∀ l k x, l = c :: x → (if starts_with "+"%byte l then Ok 1 : Res Z
     else if starts_with "-"%byte l then Ok (-1) else k) = Ok sg) as Hsign.
  { intros l k x ->. unfold sg. destruct Hc as [[Ec _]|[Ec _]]; rewrite Ec; reflexivity. }
  assert (∀ l, ¬ (c :: l = ["Z"%byte] ∨ c :: l = ["z"%byte])) as Hnz.
  { intros l. destruct Hc as [[Ec _]|[Ec _]]; rewrite Ec; naive_solver. }
  assert (∀ n, 0 ≤ n < 60 → length (fmt_0 2 n) = 2%nat) as L2.
  { intros n Hn. apply fmt_0_length; simpl; lia. }
  assert (length (fmt_0 2 h) = 2%nat) as Lh by (apply L2; lia).
  pose proof (L2 m Hm) as Lm. pose proof (L2 s Hs) as Ls.
  assert (∀ n, 0 ≤ n < 60 → plain (fmt_0 2 n)) as Pl by (intros; apply plain_fmt_0; lia).
  assert (∀ b n, 0 ≤ n → is_digit b = false → b ∉ fmt_0 2 n) as No
    by (intros; by apply fmt_0_no).
  assert (∀ n, 0 ≤ n < 60 → parse_num parse_i32 (fmt_0 2 n) = Ok n) as Pi
    by (intros; apply parse_i32_fmt_0; widths; lia).
  destruct (Z.eqb_spec s 0) as [S0|S0]; simpl.
  all: eexists c, _; split; [reflexivity|]; split; [reflexivity|]; split_and!.
  - unfold parse_offset. rewrite decide_False by apply Hnz.
    erewrite Hsign by reflexivity. cbn [mbind result_bind skipn]. rewrite drop_0.
    assert (length (fmt_0 2 h ++ ":"%byte :: fmt_0 2 m) = 5%nat) as L.
    { rewrite length_app, length_cons. lia. }
    assert (plain (fmt_0 2 h ++ ":"%byte :: fmt_0 2 m)) as P.
    { apply Forall_app. split; [apply Pl; lia|]. constructor; [done|]. by apply Pl. }
    rewrite !L. rewrite decide_False by done. rewrite decide_False by done.
    rewrite decide_True.
    2:{ split; [done|]. rewrite lookup_app_r by lia. rewrite Lh. done. }
    unfold slice_from. rewrite !slice_plain by (done || lia). rewrite L.
    rewrite drop_0, take_app_length' by lia.
    rewrite drop_app, Lh, drop_ge by lia. simpl. rewrite drop_0, take_ge by lia.
    rewrite !Pi by lia. simpl.
    rewrite as_i32_small by (widths; lia).
    replace (sg * (h * 3600 + m * 60)) with secs by lia.
    by rewrite law_east, decide_True.
  - intros b Hb Hn. rewrite not_elem_of_app, not_elem_of_cons.
    split_and!; try done; apply No; (done || lia).
  - by intros [_ ?]%app_nil.
  - unfold parse_offset. rewrite decide_False by apply Hnz.
    erewrite Hsign by reflexivity. cbn [mbind result_bind skipn]. rewrite drop_0.
    assert (length (fmt_0 2 h ++ ":"%byte :: fmt_0 2 m ++ ":"%byte :: fmt_0 2 s) = 8%nat) as L.
    { rewrite length_app, length_cons, length_app, length_cons. lia. }
    assert (plain (fmt_0 2 h ++ ":"%byte :: fmt_0 2 m ++ ":"%byte :: fmt_0 2 s)) as P.
    { apply Forall_app. split; [apply Pl; lia|]. constructor; [done|].
      apply Forall_app. split; [by apply Pl|]. constructor; [done|]. by apply Pl. }
    rewrite !L. do 2 rewrite decide_False by done.
    rewrite decide_False by naive_solver. rewrite decide_True.
    2:{ split_and!; [done| |].
        - rewrite lookup_app_r by lia. by rewrite Lh.
        - rewrite lookup_app_r by lia. rewrite Lh. simpl.
          rewrite lookup_app_r by lia. by rewrite Lm. }
    rewrite !slice_plain by (done || lia). simpl Nat.sub.
    destruct (take_pairs _ _ _ ":"%byte ":"%byte Lh Lm Ls) as (E1 & E2 & E3).
    rewrite E1, E2, E3. simpl. rewrite !Pi by lia. simpl.
    rewrite as_i32_small by (widths; lia).
    replace (sg * (h * 3600 + m * 60 + s)) with secs by lia.
    by rewrite law_east, decide_True.
  - intros b Hb Hn. rewrite not_elem_of_app, not_elem_of_cons, not_elem_of_app, not_elem_of_cons.
    split_and!; try done; apply No; (done || lia).
  - by intros [_ ?]%app_nil.
Qed.

Lemma parse_fmt_offset off : valid_offset off → parse_offset (fmt_offset off) = Ok off.
Proof.
  intros Hv. destruct (fmt_offset_cases off Hv) as [[Hz ->]|(c & body & -> & _ & E & _)]; [|done].
  unfold parse_offset. simpl. rewrite law_east, decide_True by done.
  destruct off; simpl in *. by subst.
Qed.

Lemma ends_with_app c a b d : ends_with c (a ++ d :: b) = ends_with c (d :: b).
Proof. unfold ends_with. by rewrite last_app_cons. Qed.
Lemma ends_with_notin c a : c ∉ a → ends_with c a = false.
Proof.
  unfold ends_with. intros Hc. destruct (last a) as [b|] eqn:E; [|done].
  apply bool_decide_eq_false_2. intros ->. apply Hc. by apply last_Some_elem_of.
Qed.

(** A text without signs and zone letters, followed by an offset. *)
Lemma split_fmt_offset p off :
  valid_offset off → p ≠ [] →
  "+"%byte ∉ p → "-"%byte ∉ p → "Z"%byte ∉ p → "z"%byte ∉ p →
  split_time_offset (p ++ fmt_offset off) = (p, Some (fmt_offset off)).
Proof.
  intros Hv Hp H1 H2 H3 H4. unfold split_time_offset.
  destruct (fmt_offset_cases off Hv) as [[_ ->]|(c & body & -> & Ec & _ & Hb & _)].
  - rewrite ends_with_app. simpl. rewrite length_app. simpl.
    replace (length p + 1 - 1)%nat with (length p) by lia.
    by rewrite take_app_length, drop_app_length.
  - assert (∀ b, b ∉ c :: body → ends_with b (p ++ c :: body) = false) as He.
    { intros b Hin. rewrite ends_with_app. by apply ends_with_notin. }
    assert (∀ b, is_digit b = false → b ≠ ":"%byte → b ≠ c → b ∉ c :: body) as Hcb.
    { intros b B1 B2 B3. apply not_elem_of_cons. auto. }
    rewrite !He by (apply Hcb; destruct (_ <? _); by subst c). simpl.
    unfold split_at_last. destruct (local_minus_utc off <? 0); subst c.
    + rewrite bytes_rsplit_once_none.
      2:{ rewrite not_elem_of_app. split; [done|]. by apply Hcb. }
      rewrite bytes_rsplit_once_app by by apply Hb.
      by rewrite decide_False.
    + rewrite bytes_rsplit_once_app by by apply Hb. by rewrite decide_False.
Qed.

Lemma time_signs t :
  valid_time t →
  ("+"%byte ∉ fmt_local_time t) ∧ ("-"%byte ∉ fmt_local_time t)
  ∧ ("Z"%byte ∉ fmt_local_time t) ∧ ("z"%byte ∉ fmt_local_time t)
  ∧ ("["%byte ∉ fmt_local_time t).
Proof. intros Ht. split_and!; by apply fmt_local_time_no. Qed.

Lemma split_fmt_time t off :
  valid_time t → valid_offset off →
  split_time_offset (fmt_local_time t ++ fmt_offset off)
    = (fmt_local_time t, Some (fmt_offset off)).
Proof.
  intros Ht Ho. destruct (time_signs t Ht) as (? & ? & ? & ? & _).
  apply split_fmt_offset; auto using fmt_local_time_nonempty.
Qed.

Lemma time_roundtrip t off :
  valid_time t → valid_offset off →
  time_from_iso_string (time_display t off) = Ok (read_back t, off).
Proof.
  intros Ht Ho. unfold time_from_iso_string, time_display. rewrite split_fmt_time by done.
  by rewrite parse_fmt_local_time, parse_fmt_offset by done.
Qed.

Lemma split_T_display d x :
  valid_date d → split_T (fmt_date d ++ "T"%byte :: x) = Ok (fmt_date d, x).
Proof.
  intros Hd. unfold split_T. rewrite bytes_split_once_app by by apply fmt_date_no.
  by destruct (bytes_split_once "t"%byte _).
Qed.

Lemma local_datetime_roundtrip dt :
  valid_datetime dt → 0 ≤ year (dt_date dt) →
  local_datetime_from_iso_string (local_datetime_display dt)
    = Ok (mkDateTime (dt_date dt) (read_back (dt_time dt))).
Proof.
  intros [Hd Ht] Hy. unfold local_datetime_from_iso_string, local_datetime_display.
  rewrite split_T_display by done. simpl.
  by rewrite parse_fmt_date, parse_fmt_local_time by done.
Qed.

Lemma fmt_offset_no off : valid_offset off → "["%byte ∉ fmt_offset off.
Proof.
  intros Ho. destruct (fmt_offset_cases off Ho) as [[_ ->]|(c & body & -> & Ec & _ & Hb & _)].
  - apply not_elem_of_cons. split; [done|apply not_elem_of_nil].
  - apply not_elem_of_cons. split; [|by apply Hb]. destruct (_ <? _); by subst c.
Qed.

Lemma datetime_roundtrip dt off tz :
  valid_datetime dt → valid_offset off → 0 ≤ year (dt_date dt) →
  (∀ s, tz = Some s → ends_with "]"%byte (str_bytes s) = false) →
  datetime_from_iso_string (datetime_display dt off tz)
    = Ok (mkDateTime (dt_date dt) (read_back (dt_time dt)), off, tz).
Proof.
  intros [Hd Ht] Ho Hy Htz. unfold datetime_from_iso_string, datetime_display.
  rewrite split_T_display by done. simpl. rewrite parse_fmt_date by done. simpl.
  assert (match bytes_split_once "["%byte (fmt_local_time (dt_time dt) ++ fmt_offset off
      ++ match tz with Some tz => "["%byte :: str_bytes tz ++ ["]"%byte] | None => [] end) with
    | Some (before, name) => (before, Some (bytes_str (trim_end_byte "]"%byte name)))
    | None => (fmt_local_time (dt_time dt) ++ fmt_offset off
      ++ match tz with Some tz => "["%byte :: str_bytes tz ++ ["]"%byte] | None => [] end, None)
    end = (fmt_local_time (dt_time dt) ++ fmt_offset off, tz)) as ->.
  { destruct (time_signs _ Ht) as (_ & _ & _ & _ & Hb). pose proof (fmt_offset_no off Ho).
    assert ("["%byte ∉ fmt_local_time (dt_time dt) ++ fmt_offset off) as Hnb
      by (by apply not_elem_of_app).
    destruct tz as [tz|].
    - rewrite app_assoc, bytes_split_once_app by done.
      by rewrite trim_end_byte_one, bytes_str_bytes by (by apply Htz).
    - rewrite app_nil_r. by rewrite bytes_split_once_none. }
  rewrite split_fmt_time by done. rewrite parse_fmt_local_time by done. simpl.
  by rewrite parse_fmt_offset by done.
Qed.
End offsets.

(** * Serialized temporal values read back

    Both readers of TemporalSerde.v undo the writer: the sequence reader on the
    values in order, the map reader on the named fields in any order. *)

(** The value of a field in a list of fields. *)
Fixpoint assoc {A} (k : string) (l : list (string * A)) : option A :=
  match l with
  | [] => None
  | (k', v) :: l' => if decide (k = k') then Some v else assoc k l'
  end.

Lemma assoc_elem {A} k (v : A) l : NoDup l.*1 → (k, v) ∈ l → assoc k l = Some v.
Proof.
  induction l as [|[k' v'] l IH]; intros Hd Hin; [by apply elem_of_nil in Hin|].
  simpl in *. apply NoDup_cons in Hd as [Hk Hd].
  apply elem_of_cons in Hin as [[= -> ->]|Hin]; [by rewrite decide_True|].
  rewrite decide_False; [by apply IH|]. intros ->. apply Hk.
  apply list_elem_of_fmap. by exists (k', v).
Qed.
Lemma assoc_none {A} k (l : list (string * A)) : k ∉ l.*1 → assoc k l = None.
Proof.
  induction l as [|[k' v'] l IH]; intros Hk; [done|]. simpl in *.
  apply not_elem_of_cons in Hk as [? Hk]. rewrite decide_False by done. auto.
Qed.

Section serde.
Context {Sd : Serde} {SdLaws : SerdeLaws}.

(** An entry of the declared kind with the value [v]. *)
Definition reads_as (fields : list (string * FieldKind)) (e : string * Item)
    (v : string * FieldValue) : Prop :=
  e.1 = v.1 ∧ ∃ kind, (list_to_map fields : gmap string FieldKind) !! e.1 = Some kind
    ∧ de_field kind e.2 = Ok v.2.

Lemma read_fields_env fields (vals : list (string * FieldValue)) entries env :
  (∀ e, e ∈ entries → ∃ v, reads_as fields e v ∧ assoc v.1 vals = Some v.2) →
  ∃ env', read_fields fields env entries = Ok env' ∧
    ∀ k, env' !! k = if decide (k ∈ entries.*1) then assoc k vals else env !! k.
Proof.
  revert env. induction entries as [|[k x] entries IH]; intros env He.
  { exists env. split; [done|]. intros k. by rewrite decide_False by apply not_elem_of_nil. }
  destruct (He (k, x)) as ([k' v] & (Ek & kind & Hk & Hx) & Ha); [by left|].
  simpl in Ek, Hk, Hx, Ha. subst k'. simpl. rewrite Hk, Hx. simpl.
  destruct (IH (<[k := v]> env)) as (env' & -> & Henv).
  { intros e Hin. apply He. by right. }
  exists env'. split; [done|]. intros j. rewrite Henv.
  destruct (decide (j ∈ entries.*1)) as [Hj|Hj].
  - by rewrite decide_True by (by right).
  - destruct (decide (j = k)) as [->|Hn].
    + rewrite decide_True by left. by rewrite lookup_insert_eq.
    + rewrite decide_False by (rewrite elem_of_cons; naive_solver).
      by rewrite lookup_insert_ne.
Qed.

Lemma read_fields_perm fields vals entries0 entries :
  Forall2 (reads_as fields) entries0 vals → NoDup vals.*1 → entries ≡ₚ entries0 →
  ∃ env, read_fields fields ∅ entries = Ok env ∧ ∀ k, env !! k = assoc k vals.
Proof.
  intros Hf Hd Hp.
  assert (entries0.*1 = vals.*1) as Ek.
  { clear Hd Hp. induction Hf as [|e v es vs [E _] _ IH]; [done|]. simpl. by f_equal. }
  destruct (read_fields_env fields vals entries ∅) as (env & E & Henv).
  { intros e He. rewrite Hp in He. apply list_elem_of_lookup in He as [i Hi].
    destruct (Forall2_lookup_l _ _ _ _ _ Hf Hi) as (v & Hv & Hr). exists v.
    split; [done|]. apply assoc_elem; [done|]. destruct v.
    by eapply list_elem_of_lookup_2. }
  exists env. split; [done|]. intros k. rewrite Henv. case_decide as Hk; [done|].
  rewrite lookup_empty. symmetry. apply assoc_none. rewrite <- Ek.
  by rewrite <- (fmap_Permutation fst _ _ Hp).
Qed.

Lemma require_assoc env vals k n :
  (∀ k, env !! k = assoc k vals) → assoc k vals = Some (IntValue n) → require env k = Ok n.
Proof. intros Henv E. unfold require. by rewrite Henv, E. Qed.

Context {Ch : Chrono} {Laws : ChronoLaws}.

Lemma valid_date_ints d :
  valid_date d → in_i32 (year d) ∧ in_u32 (month d) ∧ in_u32 (day d).
Proof.
  intros Hd. pose proof (month_day_pos d Hd). destruct Hd as (Hy & _).
  unfold min_year, max_year in Hy. widths. lia.
Qed.
Lemma valid_time_ints t :
  valid_time t → in_u32 (hour t) ∧ in_u32 (minute t) ∧ in_u32 (second t)
    ∧ in_u32 (nanosecond t).
Proof.
  intros Ht. pose proof (hms_range t Ht). destruct Ht as (_ & Hn & _).
  unfold nanos_per_sec in Hn. widths. lia.
Qed.
Lemma valid_offset_int off : valid_offset off → in_i32 (local_minus_utc off).
Proof. unfold valid_offset. widths. lia. Qed.

Lemma make_date_valid d : valid_date d → make_date (year d, month d, day d) = Ok d.
Proof. intros. unfold make_date. simpl. by rewrite from_ymd_valid. Qed.
Lemma make_time_valid t :
  valid_time t → make_time (hour t, minute t, second t, nanosecond t) = Ok t.
Proof.
  intros Ht. pose proof (hms_range t Ht). unfold make_time. simpl.
  rewrite law_from_hms, hms_secs_back, decide_True; [by destruct t|].
  destruct Ht as (_ & Hn & Hl). unfold valid_hms. tauto.
Qed.
Lemma make_offset_valid off : valid_offset off → make_offset (local_minus_utc off) = Ok off.
Proof. intros Ho. unfold make_offset. rewrite law_east, decide_True by done. by destruct off. Qed.

Lemma seq_date_ser i d rest :
  valid_date d →
  seq_date i ((ser_date d).*2 ++ rest) = Ok ((year d, month d, day d), rest).
Proof.
  intros Hd. destruct (valid_date_ints d Hd) as (H1 & H2 & H3).
  unfold seq_date, de_i32, de_u32. simpl. rewrite !law_de_int by done. simpl.
  rewrite law_de_int by done. simpl. by rewrite law_de_int.
Qed.
Lemma seq_time_ser i t rest :
  valid_time t →
  seq_time i ((ser_time t).*2 ++ rest)
    = Ok ((hour t, minute t, second t, nanosecond t), rest).
Proof.
  intros Ht. destruct (valid_time_ints t Ht) as (H1 & H2 & H3 & H4).
  unfold seq_time, de_u32. simpl. rewrite !law_de_int by done. simpl.
  rewrite law_de_int by done. simpl. rewrite law_de_int by done. simpl.
  by rewrite law_de_int.
Qed.

Definition date_vals (d : NaiveDate) : list (string * FieldValue) :=
  [("year", IntValue (year d)); ("month", IntValue (month d)); ("day", IntValue (day d))].
Definition time_vals (t : NaiveTime) : list (string * FieldValue) :=
  [("hour", IntValue (hour t)); ("minute", IntValue (minute t));
   ("second", IntValue (second t)); ("nanosecond", IntValue (nanosecond t))].
Definition offset_vals (off : FixedOffset) : list (string * FieldValue) :=
  [("offset_seconds", IntValue (local_minus_utc off))].
End serde.

(** One field of a struct reads back. *)
Ltac field_reads :=
  split; [reflexivity|]; eexists; split; [reflexivity|]; simpl;
  first [rewrite law_de_int by assumption; reflexivity | rewrite law_de_string; reflexivity].
(** The fields of a struct whose names are written out. *)
Ltac fields_read :=
  repeat first [apply Forall2_nil_2 | apply Forall2_cons_2; [field_reads|]].
Ltac requires H :=
  repeat match goal with
  | |- context [require ?env ?k] => rewrite (require_assoc env _ k _ H eq_refl); simpl
  end.

Section roundtrips.
Context {Sd : Serde} {SdLaws : SerdeLaws} {Ch : Chrono} {Laws : ChronoLaws}.

(** Reading the fields in any order. *)
Definition reads_back {A} (serialize : A → list (string * Item))
    (visit_seq : list Item → result DeError A)
    (visit_map : list (string * Item) → result DeError A) (v : A) : Prop :=
  visit_seq (serialize v).*2 = Ok v
  ∧ ∀ entries, entries ≡ₚ serialize v → visit_map entries = Ok v.

Lemma date_reads_back d :
  valid_date d → reads_back date_serialize date_visit_seq date_visit_map d.
Proof.
  intros Hd. destruct (valid_date_ints d Hd) as (H1 & H2 & H3). split.
  - unfold date_visit_seq, date_serialize. rewrite <- (app_nil_r _.*2), seq_date_ser by done.
    by apply make_date_valid.
  - intros entries Hp. unfold date_visit_map.
    destruct (read_fields_perm date_fields (date_vals d) (date_serialize d) entries)
      as (env & -> & Henv); [fields_read|by_decide|done|].
    simpl. unfold map_date. requires Henv. by apply make_date_valid.
Qed.

Lemma local_time_reads_back t :
  valid_time t → reads_back local_time_serialize local_time_visit_seq local_time_visit_map t.
Proof.
  intros Ht. destruct (valid_time_ints t Ht) as (H1 & H2 & H3 & H4). split.
  - unfold local_time_visit_seq, local_time_serialize.
    rewrite <- (app_nil_r _.*2), seq_time_ser by done. by apply make_time_valid.
  - intros entries Hp. unfold local_time_visit_map.
    destruct (read_fields_perm time_fields (time_vals t) (local_time_serialize t) entries)
      as (env & -> & Henv); [fields_read|by_decide|done|].
    simpl. unfold map_time. requires Henv. by apply make_time_valid.
Qed.

Lemma time_reads_back v :
  valid_time v.1 → valid_offset v.2 →
  reads_back time_serialize time_visit_seq time_visit_map v.
Proof.
  destruct v as [t off]; simpl. intros Ht Ho.
  destruct (valid_time_ints t Ht) as (H1 & H2 & H3 & H4).
  pose proof (valid_offset_int off Ho) as H5. split.
  - unfold time_visit_seq, time_serialize. rewrite fmap_app, seq_time_ser by done.
    unfold de_i32. simpl. rewrite law_de_int by done. simpl.
    by rewrite make_time_valid, make_offset_valid by done.
  - intros entries Hp. unfold time_visit_map.
    destruct (read_fields_perm (time_fields ++ offset_fields) (time_vals t ++ offset_vals off)
      (time_serialize (t, off)) entries) as (env & -> & Henv); [fields_read|by_decide|done|].
    simpl. unfold map_time. requires Henv.
    by rewrite make_time_valid, make_offset_valid by done.
Qed.

Lemma local_datetime_reads_back dt :
  valid_datetime dt →
  reads_back local_datetime_serialize local_datetime_visit_seq local_datetime_visit_map dt.
Proof.
  destruct dt as [d t]. intros [Hd Ht]; simpl in *.
  destruct (valid_time_ints t Ht) as (H1 & H2 & H3 & H4).
  destruct (valid_date_ints d Hd) as (H5 & H6 & H7). split.
  - unfold local_datetime_visit_seq, local_datetime_serialize.
    rewrite fmap_app, seq_date_ser by done. cbn [mbind result_bind snd fst].
    rewrite <- (app_nil_r _.*2), seq_time_ser by done. simpl.
    by rewrite make_date_valid, make_time_valid by done.
  - intros entries Hp. unfold local_datetime_visit_map.
    destruct (read_fields_perm (date_fields ++ time_fields) (date_vals d ++ time_vals t)
      (local_datetime_serialize (mkDateTime d t)) entries)
      as (env & -> & Henv); [fields_read|by_decide|done|].
    simpl. unfold map_time, map_date. requires Henv.
    by rewrite make_date_valid, make_time_valid by done.
Qed.

Definition tz_vals (tz : option string) : list (string * FieldValue) :=
  match tz with Some s => [("tz_name", StrValue s)] | None => [] end.

Lemma datetime_reads_back v :
  valid_datetime v.1.1 → valid_offset v.1.2 →
  reads_back datetime_serialize datetime_visit_seq datetime_visit_map v.
Proof.
  destruct v as [[[d t] off] tz]. simpl. intros [Hd Ht] Ho; simpl in *.
  destruct (valid_time_ints t Ht) as (H1 & H2 & H3 & H4).
  destruct (valid_date_ints d Hd) as (H5 & H6 & H7).
  pose proof (valid_offset_int off Ho) as H8. split.
  - unfold datetime_visit_seq, datetime_serialize. cbn [fst snd dt_date dt_time].
    rewrite !fmap_app, seq_date_ser by done. cbn [mbind result_bind snd fst].
    rewrite seq_time_ser by done. unfold de_i32. simpl. rewrite law_de_int by done. simpl.
    rewrite make_date_valid, make_time_valid, make_offset_valid by done. simpl.
    destruct tz as [tz|]; simpl; [by rewrite law_de_string|done].
  - intros entries Hp. unfold datetime_visit_map.
    destruct (read_fields_perm
      (date_fields ++ time_fields ++ offset_fields ++ [("tz_name", StrField)])
      (date_vals d ++ time_vals t ++ offset_vals off ++ tz_vals tz)
      (datetime_serialize (mkDateTime d t, off, tz)) entries)
      as (env & -> & Henv); [destruct tz; fields_read|destruct tz; by_decide|done|].
    simpl. unfold map_time, map_date. requires Henv. rewrite Henv.
    rewrite make_date_valid, make_time_valid, make_offset_valid by done. simpl.
    by destruct tz.
Qed.

Definition duration_vals (d : CypherDuration) : list (string * FieldValue) :=
  [("months", IntValue (months d)); ("days", IntValue (days d));
   ("seconds", IntValue (seconds d)); ("nanos", IntValue (nanos d))].
Definition valid_duration (d : CypherDuration) : Prop :=
  in_i64 (months d) ∧ in_i64 (days d) ∧ in_i64 (seconds d) ∧ in_i64 (nanos d).

Lemma duration_reads_back d :
  valid_duration d → reads_back duration_serialize duration_visit_seq duration_visit_map d.
Proof.
  intros (H1 & H2 & H3 & H4). split.
  - unfold duration_visit_seq, de_i64. simpl.
    do 4 (rewrite law_de_int by done; simpl). by destruct d.
  - intros entries Hp. unfold duration_visit_map.
    destruct (read_fields_perm duration_fields (duration_vals d) (duration_serialize d) entries)
      as (env & -> & Henv); [fields_read|by_decide|done|].
    simpl. requires Henv. by destruct d.
Qed.
End roundtrips.
