(* ===== verification/Floats.v ===== *)
(** * Double precision: the [f64] of the source

    An [f64] is an IEEE-754 binary64 number, [spec_float] of the Standard
    Library with precision 53; its arithmetic is correctly rounded.  The file
    has the conversions from and to bit patterns, integers and decimals, and
    the functions of Rust's library that the source calls.  All NaNs are one. *)
From Stdlib Require Export SpecFloat.
From S2P Require Export Ints.
#[local] Open Scope Z_scope.

Abbreviation f64 := spec_float.
Definition prec : Z := 53.
Definition emax : Z := 1024.

Definition f64_add (x y : f64) : f64 := SFadd prec emax x y.
Definition f64_sub (x y : f64) : f64 := SFsub prec emax x y.
Definition f64_mul (x y : f64) : f64 := SFmul prec emax x y.
Definition f64_div (x y : f64) : f64 := SFdiv prec emax x y.

(** [z as f64], and the nearest double to [± m 2^e]. *)
Definition f64_of_int (z : Z) : f64 := binary_normalize prec emax z 0 false.
Definition f64_zero : f64 := S754_zero false.
Definition is_zero (x : f64) : bool := match x with S754_zero _ => true | _ => false end.

(** ** Bit patterns *)
Definition f64_of_bits (bits : N) : f64 :=
  let b := Z.of_N bits in
  let s := Z.testbit b 63 in
  let ex := Z.shiftr b 52 `mod` 2048 in
  let frac := b `mod` 4503599627370496 in
  if ex =? 2047 then (if frac =? 0 then S754_infinity s else S754_nan)
  else match (if ex =? 0 then frac else frac + 4503599627370496) with
       | Zpos m => S754_finite s m (Z.max ex 1 - 1075)
       | _ => S754_zero s
       end.

Definition f64_to_bits (x : f64) : N :=
  let sign (s : bool) : Z := if s then 9223372036854775808 else 0 in
  Z.to_N match x with
  | S754_zero s => sign s
  | S754_infinity s => sign s + 2047 * 4503599627370496
  | S754_nan => 2047 * 4503599627370496 + 2251799813685248
  | S754_finite s m e =>
      if Zpos m <? 4503599627370496 then sign s + Zpos m
      else sign s + (e + 1075) * 4503599627370496 + (Zpos m - 4503599627370496)
  end.

(** ** Rounding to integers *)

(** [f64::trunc] and [f64::round] (half away from zero).  A number with a
    non-negative exponent is an integer. *)
Definition with_sign (s : bool) (q : Z) : f64 :=
  if q =? 0 then S754_zero s else binary_normalize prec emax (cond_Zopp s q) 0 s.
Definition f64_trunc (x : f64) : f64 :=
  match x with
  | S754_finite s m (Zneg p) => with_sign s (Zpos m / 2 ^ Zpos p)
  | _ => x
  end.
Definition f64_round (x : f64) : f64 :=
  match x with
  | S754_finite s m (Zneg p) => with_sign s ((Zpos m + 2 ^ (Zpos p - 1)) / 2 ^ Zpos p)
  | _ => x
  end.

(** The integer part. *)
Definition int_part (s : bool) (m : positive) (e : Z) : Z :=
  cond_Zopp s (match e with
               | Zneg p => Zpos m / 2 ^ Zpos p
               | _ => Zpos m * 2 ^ e
               end).

(** [x as i64] and [x as i128]: saturating, and zero for NaN. *)
Definition f64_as_int (lo hi : Z) (x : f64) : Z :=
  match x with
  | S754_zero _ | S754_nan => 0
  | S754_infinity s => if s then lo else hi
  | S754_finite s m e => Z.max lo (Z.min hi (int_part s m e))
  end.
Definition f64_as_i64 : f64 → Z := f64_as_int i64_min i64_max.
Definition i128_min : Z := - 2 ^ 127.
Definition i128_max : Z := 2 ^ 127 - 1.
Definition f64_as_i128 : f64 → Z := f64_as_int i128_min i128_max.

(** [x % y]: exact, with the sign of [x]. *)
Definition f64_rem (x y : f64) : f64 :=
  match x, y with
  | S754_nan, _ | _, S754_nan | S754_infinity _, _ | _, S754_zero _ => S754_nan
  | S754_zero _, _ => x
  | _, S754_infinity _ => x
  | S754_finite sx mx ex, S754_finite _ my ey =>
      let e := Z.min ex ey in
      let r := (Zpos mx * 2 ^ (ex - e)) `mod` (Zpos my * 2 ^ (ey - e)) in
      if r =? 0 then S754_zero sx else binary_normalize prec emax (cond_Zopp sx r) e sx
  end.

(** ** Decimals

    [str::parse::<f64>]: a sign, [inf], [infinity] or [nan] in any case, or
    digits with at most one point and an optional exponent; the result is the
    double nearest to the decimal. *)
Inductive ParseFloatError := FEmpty | FInvalid.
Definition parse_float_error_display (e : ParseFloatError) : string :=
  match e with
  | FEmpty => "cannot parse float from empty string"
  | FInvalid => "invalid float literal"
  end.

(** The nearest double to [n 10^k]. *)
Definition decimal (s : bool) (n k : Z) : f64 :=
  match n with
  | Zpos _ =>
      if 0 <=? k then binary_normalize prec emax (cond_Zopp s (n * 10 ^ k)) 0 s
      else match 10 ^ (- k) with
           | Zpos d => match n with
                       | Zpos p => SFdiv prec emax (S754_finite s p 0) (S754_finite false d 0)
                       | _ => S754_zero s
                       end
           | _ => S754_zero s
           end
  | _ => S754_zero s
  end.

(** The longest run of digits at the front, and the rest. *)
Fixpoint span_digits (l : bytes) : bytes * bytes :=
  match l with
  | b :: l' => if is_digit b then (b :: (span_digits l').1, (span_digits l').2) else ([], l)
  | [] => ([], [])
  end.
Definition digits_int (l : bytes) : Z := foldl (λ a b, a * 10 + digit_val b) 0 l.

Definition byte_lower (b : byte) : byte :=
  if byte_in 65 90 b then n2b (b2n b + 32) else b.

(** What follows the digits: nothing, or an exponent. *)
Definition parse_exponent (l : bytes) : option Z :=
  match l with
  | [] => Some 0
  | e :: l' =>
      if decide (byte_lower e = "e"%byte) then
        let '(neg, l'') :=
          match l' with
          | b :: r => if decide (b = "-"%byte) then (true, r)
                      else if decide (b = "+"%byte) then (false, r) else (false, l')
          | [] => (false, l')
          end in
        let '(d, r) := span_digits l'' in
        if bool_decide (d ≠ []) && bool_decide (r = [])
        then Some (if neg then - digits_int d else digits_int d) else None
      else None
  end.

Definition parse_unsigned_f64 (s : bool) (l : bytes) : option f64 :=
  let lower := byte_lower <$> l in
  if decide (lower = str_bytes "inf" ∨ lower = str_bytes "infinity") then Some (S754_infinity s)
  else if decide (lower = str_bytes "nan") then Some S754_nan
  else
    let '(d1, r) := span_digits l in
    let '(d2, r) :=
      match r with
      | b :: r' => if decide (b = "."%byte) then span_digits r' else ([], r)
      | [] => ([], [])
      end in
    if bool_decide (d1 = [] ∧ d2 = []) then None else
    match parse_exponent r with
    | Some ex => Some (decimal s (digits_int (d1 ++ d2)) (ex - Z.of_nat (length d2)))
    | None => None
    end.

Definition parse_f64 (l : bytes) : result ParseFloatError f64 :=
  match l with
  | [] => Err FEmpty
  | b :: l' =>
      ok_or (if decide (b = "-"%byte) then parse_unsigned_f64 true l'
             else if decide (b = "+"%byte) then parse_unsigned_f64 false l'
             else parse_unsigned_f64 false l) FInvalid
  end.

Example bits_of_one : f64_to_bits (f64_of_int 1) = 4607182418800017408%N.
Proof. reflexivity. Qed.
Example bits_of_tenth :
  (f64_to_bits <$> parse_f64 (str_bytes "0.1")) = Ok 4591870180066957722%N.
Proof. reflexivity. Qed.
Example parse_exponents :
  (f64_to_bits <$> parse_f64 (str_bytes "-12.5e-3")) = Ok 13801731418039622042%N.
Proof. vm_compute. reflexivity. Qed.
Example rem_example :
  f64_rem (f64_of_int (-7)) (f64_of_int 3) = f64_of_int (-1).
Proof. reflexivity. Qed.

(** * Doubles: comparison, roots and decimal text

    The functions of Rust's [f64] that expressions use, beyond Floats.v, and how
    [Display] prints a double: the shortest decimal that is read back as the same
    number, without an exponent.  Powers, logarithms and the exponential function
    have no specified precision; they are parameters. *)

(** ** Functions *)
Definition f64_nan : f64 := S754_nan.
Definition is_nan (x : f64) : bool := match x with S754_nan => true | _ => false end.
Definition is_finite (x : f64) : bool :=
  match x with S754_nan | S754_infinity _ => false | _ => true end.
Definition f64_sign (x : f64) : bool :=
  match x with S754_zero s | S754_infinity s | S754_finite s _ _ => s | S754_nan => false end.
Definition f64_neg (x : f64) : f64 := SFopp x.
Definition f64_abs (x : f64) : f64 := SFabs x.
Definition f64_sqrt (x : f64) : f64 := SFsqrt prec emax x.

(** [a == b] and [a.partial_cmp(&b)]: zeros are equal, a NaN compares to nothing. *)
Definition f64_eqb (x y : f64) : bool := SFeqb x y.
Definition f64_cmp (x y : f64) : option comparison := SFcompare x y.

(** [f64::signum]: the sign of a zero counts. *)
Definition f64_signum (x : f64) : f64 :=
  if is_nan x then x else f64_of_int (if f64_sign x then -1 else 1).

(** [f64::floor] and [f64::ceil]. *)
Definition round_up (m : positive) (p : positive) : Z := - ((- Zpos m) / 2 ^ Zpos p).
Definition f64_floor (x : f64) : f64 :=
  match x with
  | S754_finite s m (Zneg p) =>
      with_sign s (if s then round_up m p else Zpos m / 2 ^ Zpos p)
  | _ => x
  end.
Definition f64_ceil (x : f64) : f64 :=
  match x with
  | S754_finite s m (Zneg p) =>
      with_sign s (if s then Zpos m / 2 ^ Zpos p else round_up m p)
  | _ => x
  end.
(** [x.fract() == 0.0] of a finite number. *)
Definition is_integral (x : f64) : bool := is_zero (f64_sub x (f64_trunc x)).

Class Libm := {
  f64_powf : f64 → f64 → f64;
  f64_ln : f64 → f64;
  f64_log10 : f64 → f64;
  f64_exp : f64 → f64;
}.

(** ** Decimal text *)

(** The ratio [num / den] of a positive number, and [k] with
    [10^(k-1) <= num / den < 10^k]. *)
Definition ratio (m : positive) (e : Z) : Z * Z := (Zpos m * 2 ^ Z.max e 0, 2 ^ Z.max (- e) 0).
Definition decimal_exponent (num den : Z) : Z :=
  Z.of_nat (length (dec (num * 10 ^ 330 / den))) - 330.

(** The decimal of [n] digits nearest to the number among those that are read back
    as it: its digits and its exponent of ten. *)
Definition digits_try (x : f64) (num den k n : Z) : option (Z * Z) :=
  let q := k - n in
  let a := num * 10 ^ Z.max (- q) 0 in
  let b := den * 10 ^ Z.max q 0 in
  let lo := a / b in
  let hi := lo + 1 in
  let ok d := bool_decide (f64_to_bits (decimal false d q) = f64_to_bits x) in
  if ok lo && ok hi then Some (if 2 * (a - lo * b) <? b then lo else hi, q)
  else if ok lo then Some (lo, q)
  else if ok hi then Some (if hi `mod` 10 =? 0 then (hi / 10, q + 1) else (hi, q))
  else None.

Fixpoint digits_search (fuel : nat) (x : f64) (num den k n : Z) : Z * Z :=
  match fuel with
  | O => (num * 10 ^ Z.max (n - k) 0 / (den * 10 ^ Z.max (k - n) 0), k - n)
  | S fuel' =>
      match digits_try x num den k n with
      | Some r => r
      | None => digits_search fuel' x num den k (n + 1)
      end
  end.

(** Seventeen digits are enough for every double. *)
Definition shortest (m : positive) (e : Z) : Z * Z :=
  let '(num, den) := ratio m e in
  digits_search 16 (S754_finite false m e) num den (decimal_exponent num den) 1.

(** [d 10^q] without an exponent. *)
Definition place_point (d q : Z) : bytes :=
  if 0 <=? q then dec d ++ replicate (Z.to_nat q) "0"%byte
  else
    let w := Z.to_nat (- q) in
    let l := pad (S w) (dec d) in
    take (length l - w) l ++ "."%byte :: drop (length l - w) l.

Definition sign_text (s : bool) : bytes := if s then ["-"%byte] else [].

(** [impl Display for f64]. *)
Definition f64_display (x : f64) : bytes :=
  match x with
  | S754_zero s => sign_text s ++ ["0"%byte]
  | S754_infinity s => sign_text s ++ str_bytes "inf"
  | S754_nan => str_bytes "NaN"
  | S754_finite s m e => let '(d, q) := shortest m e in sign_text s ++ place_point d q
  end.

(** [format!("{f:.1}")] of an integral number. *)
Definition f64_display_1 (x : f64) : bytes :=
  match x with
  | S754_finite s m e => sign_text s ++ dec (int_part false m e) ++ str_bytes ".0"
  | _ => f64_display x ++ str_bytes ".0"
  end.

Example display_tenth : (f64_display <$> parse_f64 (str_bytes "0.1")) = Ok (str_bytes "0.1").
Proof. vm_compute. reflexivity. Qed.
Example display_third :
  f64_display (f64_div (f64_of_int 1) (f64_of_int 3)) = str_bytes "0.3333333333333333".
Proof. vm_compute. reflexivity. Qed.
Example display_large :
  (f64_display <$> parse_f64 (str_bytes "-1e23")) = Ok (str_bytes "-100000000000000000000000").
Proof. vm_compute. reflexivity. Qed.
Example display_small : (f64_display <$> parse_f64 (str_bytes "1.5e-7")) = Ok (str_bytes "0.00000015").
Proof. vm_compute. reflexivity. Qed.
Example display_thousandth : (f64_display <$> parse_f64 (str_bytes "0.001")) = Ok (str_bytes "0.001").
Proof. vm_compute. reflexivity. Qed.
Example display_least :
  f64_display (f64_of_bits 1) = str_bytes "0." ++ replicate 323 "0"%byte ++ ["5"%byte].
Proof. vm_compute. reflexivity. Qed.
Example display_greatest :
  (λ l, (length l, take 17 l)) (f64_display (f64_of_bits 9218868437227405311))
  = (309%nat, str_bytes "17976931348623157").
Proof. vm_compute. reflexivity. Qed.

(** * Integers as doubles

    An integer below 2^53 in magnitude is a double exactly, and sums and
    products of such integers that stay below it are exact. *)

Definition digits (p : positive) : Z := Zpos (digits2_pos p).
Definition small (z : Z) : Prop := Z.abs z < 2 ^ 53.

Lemma digits_bounds p : 2 ^ (digits p - 1) ≤ Zpos p < 2 ^ digits p.
Proof.
  unfold digits. induction p as [p IH|p IH|]; simpl digits2_pos.
  - rewrite Pos2Z.inj_succ. replace (Z.succ (Zpos (digits2_pos p)) - 1)
      with (Z.succ (Zpos (digits2_pos p) - 1)) by lia.
    rewrite !Z.pow_succ_r by lia. lia.
  - rewrite Pos2Z.inj_succ. replace (Z.succ (Zpos (digits2_pos p)) - 1)
      with (Z.succ (Zpos (digits2_pos p) - 1)) by lia.
    rewrite !Z.pow_succ_r by lia. lia.
  - simpl. lia.
Qed.
Lemma digits_pos p : 1 ≤ digits p.
Proof. unfold digits. lia. Qed.

(** [p 2^k]. *)
Definition shl_pos (p : positive) (k : Z) : positive :=
  match k with Zpos n => Pos.iter xO p n | _ => p end.
Lemma shl_pos_spec p k : 0 ≤ k → Zpos (shl_pos p k) = Zpos p * 2 ^ k.
Proof.
  intros Hk. destruct k as [|n|n]; [simpl; lia| |lia].
  unfold shl_pos. induction n as [|n IH] using Pos.peano_ind; [simpl; lia|].
  rewrite Pos.iter_succ, Pos2Z.inj_succ, Z.pow_succ_r by lia.
  rewrite Pos2Z.inj_xO, IH by lia. lia.
Qed.
Lemma digits_shl p k : 0 ≤ k → digits (shl_pos p k) = digits p + k.
Proof.
  intros Hk. destruct k as [|n|n]; [simpl; lia| |lia].
  unfold shl_pos. induction n as [|n IH] using Pos.peano_ind; [unfold digits; simpl; lia|].
  rewrite Pos.iter_succ. unfold digits in *. simpl digits2_pos.
  rewrite !Pos2Z.inj_succ, IH by lia. lia.
Qed.
Lemma shl_pos_add p j k : 0 ≤ j → 0 ≤ k → shl_pos (shl_pos p j) k = shl_pos p (j + k).
Proof.
  intros Hj Hk. apply Pos2Z.inj. rewrite !shl_pos_spec by lia.
  rewrite Z.pow_add_r by lia. lia.
Qed.

(** Shifting right what was shifted left loses nothing. *)
Lemma iter_pos_iter {A} (f : A → A) n x : SpecFloat.iter_pos f n x = Pos.iter f x n.
Proof.
  revert x. induction n as [n IH|n IH|]; intros x; simpl; [|by rewrite !IH|done].
  by rewrite !IH, !Pos.iter_swap.
Qed.
Lemma shr_exact n p :
  SpecFloat.iter_pos shr_1 n (Build_shr_record (Zpos (Pos.iter xO p n)) false false)
    = Build_shr_record (Zpos p) false false.
Proof.
  induction n as [|n IH] using Pos.peano_ind; [done|].
  rewrite iter_pos_iter in *. rewrite !Pos.iter_succ, <- Pos.iter_swap. exact IH.
Qed.

Lemma fexp_int d : 1 ≤ d ≤ 53 → fexp prec emax d = d - 53.
Proof. intros. unfold fexp, emin, prec, emax. lia. Qed.

(** The canonical form of an integer. *)
Definition int_form (s : bool) (p : positive) : f64 :=
  S754_finite s (shl_pos p (53 - digits p)) (digits p - 53).

Lemma shr_fexp_exact p k :
  digits p ≤ 53 → 53 - digits p ≤ k →
  shr_fexp prec emax (Zpos (shl_pos p k)) (- k) loc_Exact
    = (Build_shr_record (Zpos (shl_pos p (53 - digits p))) false false, digits p - 53).
Proof.
  intros Hd Hk. pose proof (digits_pos p). unfold shr_fexp. simpl shr_record_of_loc.
  change (Zdigits2 (Zpos (shl_pos p k))) with (digits (shl_pos p k)).
  rewrite digits_shl by lia. replace (digits p + k + - k) with (digits p) by lia.
  rewrite fexp_int by lia.
  replace (shl_pos p k) with (shl_pos (shl_pos p (53 - digits p)) (k - (53 - digits p))).
  2:{ rewrite shl_pos_add by lia. f_equal. lia. }
  set (q := shl_pos p (53 - digits p)).
  replace (digits p - 53 - - k) with (k - (53 - digits p)) by lia.
  destruct (k - (53 - digits p)) as [|n|n] eqn:E; [|..|lia].
  - simpl. f_equal. lia.
  - unfold shr, shl_pos. rewrite shr_exact. f_equal. lia.
Qed.

Lemma round_aux_int s p k :
  digits p ≤ 53 → 53 - digits p ≤ k →
  binary_round_aux prec emax s (Zpos (shl_pos p k)) (- k) loc_Exact = int_form s p.
Proof.
  intros Hd Hk. pose proof (digits_pos p). unfold binary_round_aux.
  rewrite shr_fexp_exact by done. simpl.
  replace (digits p - 53) with (- (53 - digits p)) by lia.
  rewrite shr_fexp_exact by lia. simpl. unfold int_form.
  by destruct (Z.leb_spec (digits p - 53) (emax - prec)); [|unfold emax, prec in *; lia].
Qed.

Lemma round_int s p k :
  digits p ≤ 53 → 0 ≤ k →
  binary_round prec emax s (shl_pos p k) (- k) = int_form s p.
Proof.
  intros Hd Hk. pose proof (digits_pos p). unfold binary_round.
  change (Zpos (digits2_pos (shl_pos p k))) with (digits (shl_pos p k)).
  rewrite digits_shl by lia. replace (digits p + k + - k) with (digits p) by lia.
  rewrite fexp_int by lia. unfold shl_align.
  destruct (digits p - 53 - - k) as [|n|n] eqn:E.
  - by apply round_aux_int; lia.
  - by apply round_aux_int; lia.
  - change (Pos.iter xO (shl_pos p k) n) with (shl_pos (shl_pos p k) (Zpos n)).
    rewrite shl_pos_add by lia.
    replace (digits p - 53) with (- (k + Zpos n)) by lia. apply round_aux_int; lia.
Qed.

Lemma small_digits p : Zpos p < 2 ^ 53 → digits p ≤ 53.
Proof.
  intros Hp. pose proof (digits_bounds p) as [H _].
  destruct (Z.le_gt_cases (digits p) 53); [done|].
  assert (2 ^ 53 ≤ 2 ^ (digits p - 1)) by (apply Z.pow_le_mono_r; lia). lia.
Qed.

(** ** Conversion *)
Lemma f64_of_pos p : Zpos p < 2 ^ 53 → f64_of_int (Zpos p) = int_form false p.
Proof.
  intros Hp. apply (round_int false p 0); [by apply small_digits|done].
Qed.
Lemma f64_of_neg p : Zpos p < 2 ^ 53 → f64_of_int (Zneg p) = int_form true p.
Proof.
  intros Hp. apply (round_int true p 0); [by apply small_digits|done].
Qed.

(** [x] is the integer [z]; zero has two signs. *)
Definition rep (x : f64) (z : Z) : Prop :=
  match z with
  | Z0 => is_zero x = true
  | _ => x = f64_of_int z
  end.

Lemma rep_of_int z : rep (f64_of_int z) z.
Proof. by destruct z. Qed.

Lemma int_part_form s p :
  digits p ≤ 53 →
  int_part s (shl_pos p (53 - digits p)) (digits p - 53) = cond_Zopp s (Zpos p).
Proof.
  intros Hd. unfold int_part. f_equal.
  pose proof (shl_pos_spec p (53 - digits p) ltac:(lia)) as E.
  destruct (digits p - 53) as [|n|n] eqn:Ed; [|lia|].
  - rewrite E. replace (53 - digits p) with 0 by lia. simpl. lia.
  - rewrite E. replace (53 - digits p) with (Zpos n) by lia. apply Z.div_mul. lia.
Qed.

Lemma rep_cases x z :
  rep x z → small z →
  (z = 0 ∧ ∃ s, x = S754_zero s)
  ∨ ∃ s p, z = cond_Zopp s (Zpos p) ∧ x = int_form s p ∧ digits p ≤ 53.
Proof.
  unfold rep, small. intros Hx Hz. destruct z as [|p|p].
  - left. split; [done|]. destruct x as [s| | |]; try done. by exists s.
  - right. exists false, p. rewrite Hx, f64_of_pos by lia.
    split_and!; [done..|apply small_digits; lia].
  - right. exists true, p. rewrite Hx, f64_of_neg by lia.
    split_and!; [done..|apply small_digits; lia].
Qed.
Lemma rep_form s p z : z = cond_Zopp s (Zpos p) → small z → rep (int_form s p) z.
Proof.
  intros -> Hz. unfold small in Hz. destruct s; simpl in *.
  - rewrite <- f64_of_neg; [done|lia].
  - rewrite <- f64_of_pos; [done|lia].
Qed.

(** ** Rounding and casts *)
Lemma with_sign_rep s z : 0 ≤ z < 2 ^ 53 → rep (with_sign s z) (cond_Zopp s z).
Proof.
  intros Hz. unfold with_sign. destruct (Z.eqb_spec z 0) as [->|Hn]; [by destruct s|].
  destruct z as [|p|p]; [done| |lia]. destruct s; simpl; done.
Qed.

Lemma f64_trunc_rep x z : rep x z → small z → rep (f64_trunc x) z.
Proof.
  intros Hx Hz. destruct (rep_cases x z Hx Hz) as [[-> [s ->]]|(s & p & -> & -> & Hd)]; [done|].
  unfold f64_trunc, int_form. destruct (digits p - 53) as [|n|n] eqn:E.
  1, 2: rewrite <- E; by apply rep_form.
  pose proof (int_part_form s p Hd) as Hi. rewrite E in Hi. unfold int_part in Hi.
  assert (Zpos (shl_pos p (53 - digits p)) / 2 ^ Zpos n = Zpos p) as -> by (destruct s; simpl in Hi; lia).
  apply with_sign_rep. unfold small in Hz. destruct s; simpl in Hz; lia.
Qed.
Lemma f64_round_rep x z : rep x z → small z → rep (f64_round x) z.
Proof.
  intros Hx Hz. destruct (rep_cases x z Hx Hz) as [[-> [s ->]]|(s & p & -> & -> & Hd)]; [done|].
  unfold f64_round, int_form. destruct (digits p - 53) as [|n|n] eqn:E.
  1, 2: rewrite <- E; by apply rep_form.
  rewrite shl_pos_spec by lia. replace (53 - digits p) with (Zpos n) by lia.
  rewrite Z.div_add_l by lia. rewrite (Z.div_small (2 ^ (Zpos n - 1))), Z.add_0_r.
  - apply with_sign_rep. unfold small in Hz. destruct s; simpl in Hz; lia.
  - split; [lia|]. apply Z.pow_lt_mono_r; lia.
Qed.
Lemma f64_as_int_rep lo hi x z :
  rep x z → small z → lo ≤ z ≤ hi → f64_as_int lo hi x = z.
Proof.
  intros Hx Hz Hr. destruct (rep_cases x z Hx Hz) as [[-> [s ->]]|(s & p & E & -> & Hd)]; [done|].
  unfold f64_as_int, int_form. rewrite int_part_form by done. lia.
Qed.
Lemma f64_as_i64_rep x z : rep x z → small z → f64_as_i64 x = z.
Proof.
  intros Hx Hz. apply f64_as_int_rep; [done..|]. unfold small in Hz. widths. lia.
Qed.

(** ** Arithmetic *)
Lemma normalize_int z k s :
  0 ≤ k → small z → rep (binary_normalize prec emax (z * 2 ^ k) (- k) s) z.
Proof.
  intros Hk Hz. unfold small in Hz. destruct z as [|p|p]; [by simpl|..].
  - assert (Zpos p * 2 ^ k = Zpos (shl_pos p k)) as -> by (by rewrite shl_pos_spec).
    simpl binary_normalize. rewrite round_int by (done || (apply small_digits; lia)).
    by apply rep_form.
  - assert (Zneg p * 2 ^ k = Zneg (shl_pos p k)) as ->.
    { rewrite <- !Pos2Z.opp_pos. rewrite shl_pos_spec by done. lia. }
    simpl binary_normalize. rewrite round_int by (done || (apply small_digits; lia)).
    by apply rep_form.
Qed.

(** The mantissa of an integer aligned at a smaller exponent. *)
Lemma align_int p k :
  digits p ≤ 53 → 53 - digits p ≤ k →
  Zpos (fst (shl_align (shl_pos p (53 - digits p)) (digits p - 53) (- k))) = Zpos p * 2 ^ k.
Proof.
  intros Hd Hk. pose proof (digits_pos p). unfold shl_align.
  destruct (- k - (digits p - 53)) as [|n|n] eqn:E; simpl fst; [|lia|].
  - rewrite shl_pos_spec by lia. do 2 f_equal. lia.
  - change (Pos.iter xO (shl_pos p (53 - digits p)) n)
      with (shl_pos (shl_pos p (53 - digits p)) (Zpos n)).
    rewrite shl_pos_add, shl_pos_spec by lia. do 2 f_equal. lia.
Qed.

Lemma cond_Zopp_mul s a b : cond_Zopp s (a * b) = cond_Zopp s a * b.
Proof. destruct s; simpl; lia. Qed.

Lemma add_forms s1 p1 s2 p2 :
  digits p1 ≤ 53 → digits p2 ≤ 53 → small (cond_Zopp s1 (Zpos p1) + cond_Zopp s2 (Zpos p2)) →
  rep (f64_add (int_form s1 p1) (int_form s2 p2)) (cond_Zopp s1 (Zpos p1) + cond_Zopp s2 (Zpos p2)).
Proof.
  intros H1 H2 Hs. pose proof (digits_pos p1). pose proof (digits_pos p2).
  unfold f64_add, SFadd, int_form. cbv zeta.
  set (k := Z.max (53 - digits p1) (53 - digits p2)).
  replace (Z.min (digits p1 - 53) (digits p2 - 53)) with (- k) by lia.
  rewrite !align_int by lia. rewrite !cond_Zopp_mul, <- Z.mul_add_distr_r.
  apply normalize_int; [lia|done].
Qed.

Lemma f64_add_rep x y a b :
  rep x a → rep y b → small a → small b → small (a + b) → rep (f64_add x y) (a + b).
Proof.
  intros Hx Hy Ha Hb Hab.
  destruct (rep_cases x a Hx Ha) as [[-> [s ->]]|(s & p & -> & -> & Hd)];
    destruct (rep_cases y b Hy Hb) as [[-> [s' ->]]|(s' & p' & -> & -> & Hd')].
  - by destruct s, s'.
  - simpl. by apply rep_form.
  - rewrite Z.add_0_r. simpl. by apply rep_form.
  - by apply add_forms.
Qed.

Lemma sub_opp x y : (∀ s m e, y = S754_finite s m e → True) → f64_sub x y = f64_add x (SFopp y).
Proof.
  intros _. unfold f64_sub, f64_add, SFsub, SFadd.
  destruct x as [s|s| |s m e], y as [t|t| |t n f]; try done; simpl.
  - by destruct s, t.
  - by destruct s, t.
  - do 2 f_equal. destruct t; simpl; lia.
Qed.
Lemma opp_rep x z : rep x z → small z → rep (SFopp x) (- z).
Proof.
  intros Hx Hz. destruct (rep_cases x z Hx Hz) as [[-> [s ->]]|(s & p & -> & -> & Hd)]; [done|].
  simpl. apply (rep_form (negb s) p); [by destruct s|]. unfold small in *. lia.
Qed.
Lemma f64_sub_rep x y a b :
  rep x a → rep y b → small a → small b → small (a - b) → rep (f64_sub x y) (a - b).
Proof.
  intros Hx Hy Ha Hb Hab. rewrite sub_opp by done.
  replace (a - b) with (a + - b) by lia. apply f64_add_rep; try done.
  - by apply opp_rep.
  - unfold small in *. lia.
Qed.

Lemma mul_shl p q j k :
  0 ≤ j → 0 ≤ k → (shl_pos p j * shl_pos q k = shl_pos (p * q) (j + k))%positive.
Proof.
  intros Hj Hk. apply Pos2Z.inj. rewrite Pos2Z.inj_mul, !shl_pos_spec by lia.
  rewrite Pos2Z.inj_mul, Z.pow_add_r by lia. lia.
Qed.

Lemma digits_mul p q : digits p + digits q - 1 ≤ digits (p * q).
Proof.
  pose proof (digits_bounds p) as [Hp _]. pose proof (digits_bounds q) as [Hq _].
  pose proof (digits_bounds (p * q)) as [_ Hpq].
  pose proof (digits_pos p). pose proof (digits_pos q).
  destruct (Z.le_gt_cases (digits p + digits q - 1) (digits (p * q))) as [|Hlt]; [done|].
  assert (2 ^ digits (p * q) ≤ 2 ^ (digits p - 1 + (digits q - 1)))
    by (apply Z.pow_le_mono_r; lia).
  rewrite Z.pow_add_r in * by lia. rewrite Pos2Z.inj_mul in Hpq. nia.
Qed.

Lemma f64_mul_rep x y a b :
  rep x a → rep y b → small a → small b → small (a * b) → rep (f64_mul x y) (a * b).
Proof.
  intros Hx Hy Ha Hb Hab.
  destruct (rep_cases x a Hx Ha) as [[-> [s ->]]|(s & p & -> & -> & Hd)];
    destruct (rep_cases y b Hy Hb) as [[-> [s' ->]]|(s' & q & -> & -> & Hd')].
  - done.
  - done.
  - rewrite Z.mul_0_r. done.
  - pose proof (digits_pos p). pose proof (digits_pos q). pose proof (digits_mul p q).
    assert (cond_Zopp s (Zpos p) * cond_Zopp s' (Zpos q)
      = cond_Zopp (xorb s s') (Zpos (p * q))) as E by (destruct s, s'; simpl; lia).
    rewrite E in *.
    assert (digits (p * q) ≤ 53) as Hpq.
    { apply small_digits. unfold small in Hab. destruct (xorb s s'); simpl in Hab; lia. }
    unfold f64_mul, SFmul, int_form. rewrite mul_shl by lia.
    replace (digits p - 53 + (digits q - 53)) with (- (53 - digits p + (53 - digits q))) by lia.
    rewrite round_aux_int by lia. by apply rep_form.
Qed.

(** The fraction of an integer is zero. *)
Lemma frac_rep x z :
  rep x z → small z → is_zero (f64_sub x (f64_trunc x)) = true.
Proof.
  intros Hx Hz.
  assert (rep (f64_sub x (f64_trunc x)) (z - z)) as G.
  { apply f64_sub_rep; try done; [by apply f64_trunc_rep|]. unfold small. lia. }
  by rewrite Z.sub_diag in G.
Qed.

(** ** Text *)
Lemma span_digits_all l r :
  all_digits l → match r with b :: _ => is_digit b = false | [] => True end →
  span_digits (l ++ r) = (l, r).
Proof.
  intros Hl Hr. induction Hl as [|b l Hb _ IH]; simpl.
  - destruct r as [|b r]; [done|]. simpl. by rewrite Hr.
  - by rewrite Hb, IH.
Qed.

Lemma digit_not_letter l c :
  all_digits l → l ≠ [] → is_digit c = false → byte_lower <$> l ≠ c :: drop 1 (byte_lower <$> l).
Proof.
  intros Hl Hne Hc E. destruct l as [|b l]; [done|]. simpl in E. injection E as Eb.
  inversion Hl as [|? ? Hb _]; subst. unfold byte_lower, is_digit, byte_in in *.
  apply andb_true_iff in Hb as [B1 B2]. apply N.leb_le in B1, B2.
  destruct (N.leb_spec 65 (b2n b)); [lia|]. simpl in Hc.
  rewrite (proj2 (N.leb_le _ _) B1), (proj2 (N.leb_le _ _) B2) in Hc. done.
Qed.

Lemma parse_unsigned_digits s l :
  all_digits l → l ≠ [] → parse_unsigned_f64 s l = Some (decimal s (digits_val 0 l) 0).
Proof.
  intros Hl Hne. unfold parse_unsigned_f64.
  assert (∀ w, (∃ c t, str_bytes w = c :: t ∧ is_digit c = false) → byte_lower <$> l ≠ str_bytes w) as G.
  { intros w (c & t & -> & Hc) E. apply (digit_not_letter l c Hl Hne Hc). by rewrite E. }
  rewrite decide_False.
  2:{ intros [E|E]; revert E; apply G; by eexists _, _. }
  rewrite decide_False by (apply G; by eexists _, _).
  rewrite <- (app_nil_r l) at 1. rewrite span_digits_all by done.
  rewrite bool_decide_eq_false_2 by naive_solver. simpl. by rewrite app_nil_r.
Qed.

Lemma decimal_rep s n : 0 ≤ n < 2 ^ 53 → rep (decimal s n 0) (cond_Zopp s n).
Proof.
  intros Hn. destruct n as [|p|p]; [by destruct s| |lia].
  unfold decimal. simpl Z.leb. cbv iota. rewrite Z.pow_0_r, Z.mul_1_r.
  destruct s; simpl; done.
Qed.

(** What [{}] prints for an integer reads back as that integer. *)
Lemma parse_f64_dec n :
  0 ≤ n < 2 ^ 53 → ∃ x, parse_f64 (dec n) = Ok x ∧ rep x n.
Proof.
  intros Hn. destruct (dec_spec n) as [Hd Hv]; [lia|]. pose proof (dec_nonempty n) as Hne.
  exists (decimal false n 0). split; [|by apply (decimal_rep false)].
  unfold parse_f64. destruct (dec n) as [|b l] eqn:E; [done|].
  inversion Hd as [|? ? Hb _]; subst. destruct (is_digit_sign b Hb).
  rewrite !decide_False by done. by rewrite parse_unsigned_digits by done.
Qed.
Lemma parse_f64_neg n :
  0 ≤ n < 2 ^ 53 → ∃ x, parse_f64 ("-"%byte :: dec n) = Ok x ∧ rep x (- n).
Proof.
  intros Hn. destruct (dec_spec n) as [Hd Hv]; [lia|].
  exists (decimal true n 0). split; [|by apply (decimal_rep true)].
  unfold parse_f64. rewrite decide_True by done.
  rewrite parse_unsigned_digits by (done || apply dec_nonempty). by rewrite Hv.
Qed.
Lemma parse_f64_signed n :
  small n → ∃ x, parse_f64 (dec_signed n) = Ok x ∧ rep x n.
Proof.
  unfold small, dec_signed. intros Hn. destruct (Z.ltb_spec n 0).
  - destruct (parse_f64_neg (- n)) as (x & E & Hx); [lia|]. exists x.
    by rewrite Z.opp_involutive in Hx.
  - apply parse_f64_dec. lia.
Qed.
