(* ===== verification/Durations.v ===== *)
(** * Differences and truncation: src/src/temporal.rs

    [duration.between] and its three variants, the arithmetic of months they
    rest on, and truncation of dates and times.  Lengths are [i64] nanoseconds
    and wrap around; a date that chrono does not represent is a panic. *)
From S2P Require Export Temporal Floats.
#[local] Open Scope Z_scope.

Section durations.
Context `{Chrono}.

(** ** Parts of a value *)
Definition extract_date (val : value) : option NaiveDate :=
  match val with
  | Value.Date d => Some d
  | Value.LocalDateTime dt => Some (dt_date dt)
  | Value.DateTime dt _ _ => Some (dt_date dt)
  | _ => None
  end.

Definition extract_time (val : value) : Res (option NaiveTime) :=
  match val with
  | Value.Date _ => t ← unwrap midnight; Ok (Some t)
  | Value.LocalTime t => Ok (Some t)
  | Value.Time t _ => Ok (Some t)
  | Value.LocalDateTime dt => Ok (Some (dt_time dt))
  | Value.DateTime dt _ _ => Ok (Some (dt_time dt))
  | _ => Ok None
  end.

Definition extract_offset_secs (val : value) : Z :=
  match val with
  | Value.Time _ off => local_minus_utc off
  | Value.DateTime _ off _ => local_minus_utc off
  | _ => 0
  end.

Definition is_time_only (val : value) : bool :=
  match val with Value.LocalTime _ | Value.Time _ _ => true | _ => false end.
Definition has_date (val : value) : bool :=
  match val with Value.Date _ | Value.LocalDateTime _ | Value.DateTime _ _ _ => true | _ => false end.
Definition is_offset_aware (val : value) : bool :=
  match val with Value.Time _ _ | Value.DateTime _ _ _ => true | _ => false end.
Definition extract_tz_name (val : value) : option string :=
  match val with Value.DateTime _ _ tz => tz | _ => None end.

Definition resolve_offset_in_tz (d : NaiveDate) (t : NaiveTime) (tz_name : string) : Z :=
  match tz_parse tz_name with
  | Some tz =>
      match tz_from_local_earliest tz (mkDateTime d t) with
      | Some off => local_minus_utc off
      | None => 0
      end
  | None => 0
  end.

Definition effective_offset_dst (val other : value) : Res Z :=
  if is_offset_aware val && is_offset_aware other then Ok (extract_offset_secs val) else
  if is_offset_aware val then
    if bool_decide (is_Some (extract_tz_name val)) && negb (is_offset_aware other)
    then Ok (extract_offset_secs val) else Ok 0
  else
    match extract_tz_name other with
    | Some tz_name =>
        if negb (is_offset_aware val) then
          epoch ← unwrap (from_ymd_opt 1970 1 1);
          let d := default epoch (extract_date val ∪ extract_date other) in
          zero ← unwrap midnight;
          t ← extract_time val;
          Ok (resolve_offset_in_tz d (default zero t) tz_name)
        else Ok 0
    | None => Ok 0
    end.

(** ** Months *)
Definition days_in_month (y m : Z) : Res Z :=
  next ← unwrap (if m =? 12 then from_ymd_opt (as_i32 (y + 1)) 1 1
                 else from_ymd_opt y (as_u32 (m + 1)) 1);
  first ← unwrap (from_ymd_opt y m 1);
  Ok (as_u32 (num_days_since next first)).

Definition add_months_to_date (d : NaiveDate) (months : Z) : Res NaiveDate :=
  let total_months := as_i64 (year d * 12 + (month d - 1) + months) in
  let y := as_i32 (total_months / 12) in
  let m := as_u32 (total_months `mod` 12 + 1) in
  max_day ← days_in_month y m;
  let dy := day d `min` max_day in
  unwrap (from_ymd_opt y m dy).

Definition time_to_nanos (t : NaiveTime) : Z :=
  as_i64 (num_seconds_from_midnight t * 1000000000 + nanosecond t).

Definition month_diff (d1 d2 : NaiveDate) : Res Z :=
  let months := as_i64 ((year d2 - year d1) * 12 + month d2 - month d1) in
  adjusted ← add_months_to_date d1 months;
  Ok (if (0 <? months) && date_ltb d2 adjusted then months - 1
      else if (months <? 0) && date_ltb adjusted d2 then months + 1
      else months).

(** ** Differences *)
Definition zero_duration : CypherDuration := mkDuration 0 0 0 0.
Definition day_nanos : Z := 86400000000000.

(** The time of day of a value less its offset, in nanoseconds. *)
Definition effective_nanos (val other : value) : Res Z :=
  t ← extract_time val;
  off ← effective_offset_dst val other;
  Ok (as_i64 (default 0 (time_to_nanos <$> t) - off * 1000000000)).

Definition split_nanos (months days n : Z) : CypherDuration :=
  mkDuration months days (n / 1000000000) (n `mod` 1000000000).

Definition duration_between (lhs rhs : value) : Res CypherDuration :=
  let d1 := extract_date lhs in
  let d2 := extract_date rhs in
  let both_have_dates :=
    bool_decide (is_Some d1) && bool_decide (is_Some d2) && has_date lhs && has_date rhs in
  let either_time_only := is_time_only lhs || is_time_only rhs in
  if either_time_only && negb both_have_dates then
    lhs_nanos ← effective_nanos lhs rhs;
    rhs_nanos ← effective_nanos rhs lhs;
    Ok (split_nanos 0 0 (as_i64 (rhs_nanos - lhs_nanos)))
  else
    match d1, d2 with
    | Some date1, Some date2 =>
        months ← month_diff date1 date2;
        d1_advanced ← add_months_to_date date1 months;
        let day_diff := num_days_since date2 d1_advanced in
        t1_nanos ← effective_nanos lhs rhs;
        t2_nanos ← effective_nanos rhs lhs;
        let time_diff_nanos := as_i64 (t2_nanos - t1_nanos) in
        let '(day_diff, time_diff_nanos) :=
          if (0 <? day_diff) && (time_diff_nanos <? 0)
          then (day_diff - 1, as_i64 (time_diff_nanos + day_nanos))
          else if (day_diff <? 0) && (0 <? time_diff_nanos)
          then (day_diff + 1, as_i64 (time_diff_nanos - day_nanos))
          else (day_diff, time_diff_nanos) in
        Ok (split_nanos months day_diff time_diff_nanos)
    | _, _ => Ok zero_duration
    end.

Definition duration_in_months (lhs rhs : value) : Res CypherDuration :=
  if is_time_only lhs || is_time_only rhs then Ok zero_duration else
  match extract_date lhs, extract_date rhs with
  | Some date1, Some date2 =>
      months ← month_diff date1 date2;
      d1_advanced ← add_months_to_date date1 months;
      months ← (if decide (d1_advanced = date2) then
                  t1_nanos ← effective_nanos lhs rhs;
                  t2_nanos ← effective_nanos rhs lhs;
                  Ok (if (0 <? months) && (t2_nanos <? t1_nanos) then months - 1
                      else if (months <? 0) && (t1_nanos <? t2_nanos) then months + 1
                      else months)
                else Ok months);
      Ok (mkDuration months 0 0 0)
  | _, _ => Ok zero_duration
  end.

Definition duration_in_days (lhs rhs : value) : Res CypherDuration :=
  if is_time_only lhs || is_time_only rhs then Ok zero_duration else
  match extract_date lhs, extract_date rhs with
  | Some date1, Some date2 =>
      let nanos := as_i64 (num_days_since date2 date1 * day_nanos) in
      t1_nanos ← effective_nanos lhs rhs;
      t2_nanos ← effective_nanos rhs lhs;
      let total_nanos := as_i64 (nanos + (t2_nanos - t1_nanos)) in
      Ok (mkDuration 0 (Z.quot total_nanos day_nanos) 0 0)
  | _, _ => Ok zero_duration
  end.

Definition duration_in_seconds (lhs rhs : value) : Res CypherDuration :=
  let either_time_only := is_time_only lhs || is_time_only rhs in
  t1_nanos ← effective_nanos lhs rhs;
  t2_nanos ← effective_nanos rhs lhs;
  let time_diff := as_i64 (t2_nanos - t1_nanos) in
  if either_time_only && negb (has_date lhs && has_date rhs) then
    Ok (split_nanos 0 0 time_diff)
  else
    match extract_date lhs, extract_date rhs with
    | Some date1, Some date2 =>
        let total_day_secs := as_i64 (num_days_since date2 date1 * 86400) in
        let total_nanos := as_i64 (as_i64 (total_day_secs * 1000000000) + time_diff) in
        Ok (split_nanos 0 0 total_nanos)
    | _, _ => Ok zero_duration
    end.

(** ** Truncation *)
Definition one_of (unit : string) (units : list string) : bool := bool_decide (unit ∈ units).

(** [date + Duration::days(n)], which panics out of range. *)
Definition plus_days (d : NaiveDate) (n : Z) : Res NaiveDate :=
  delta ← unwrap (delta_days n);
  unwrap (date_checked_add_signed d delta).

Definition truncate_date_core (unit : string) (d : NaiveDate) : Res NaiveDate :=
  let y := year d in
  if one_of unit ["millennium"] then unwrap (from_ymd_opt (as_i32 (Z.quot y 1000 * 1000)) 1 1)
  else if one_of unit ["century"] then unwrap (from_ymd_opt (as_i32 (Z.quot y 100 * 100)) 1 1)
  else if one_of unit ["decade"] then unwrap (from_ymd_opt (as_i32 (Z.quot y 10 * 10)) 1 1)
  else if one_of unit ["year"] then unwrap (from_ymd_opt y 1 1)
  else if one_of unit ["weekYear"] then unwrap (from_isoywd_opt (iso_year d) 1 Mon)
  else if one_of unit ["quarter"] then
    let q := (month d - 1) / 3 in
    unwrap (from_ymd_opt y (q * 3 + 1) 1)
  else if one_of unit ["month"] then unwrap (from_ymd_opt y (month d) 1)
  else if one_of unit ["week"] then
    let dow := num_days_from_monday (weekday d) in
    delta ← unwrap (delta_days dow);
    unwrap (date_checked_add_signed d (- delta))
  else if one_of unit ["day"; "hour"; "minute"; "second"; "millisecond"; "microsecond"] then Ok d
  else Err (ser_error ("unsupported truncation unit for date: " +:+ unit)).

Definition truncate_date (unit : string) (val : value) (map : Properties) : Res NaiveDate :=
  d ← ok_or (extract_date val)
    (ser_error "truncate_date requires a temporal with a date component");
  d ← truncate_date_core unit d;
  d ← (match get_i64 map "day" with
       | Some dy => ok_or (with_day d (as_u32 dy))
                      (ser_error_at "invalid day: " (dec_signed dy))
       | None => Ok d
       end);
  d ← (match get_i64 map "dayOfWeek" with
       | Some dow =>
           let current_dow := num_days_from_monday (weekday d) + 1 in
           plus_days d (as_i64 (dow - current_dow))
       | None => Ok d
       end);
  match get_i64 map "month" with
  | Some m => ok_or (with_month d (as_u32 m)) (ser_error_at "invalid month: " (dec_signed m))
  | None => Ok d
  end.

Definition truncate_time_core (unit : string) (t : NaiveTime) : Res NaiveTime :=
  if one_of unit ["millennium"; "century"; "decade"; "year"; "weekYear"; "quarter"; "month";
                  "week"; "day"] then unwrap midnight
  else if one_of unit ["hour"] then unwrap (from_hms_opt (hour t) 0 0)
  else if one_of unit ["minute"] then unwrap (from_hms_opt (hour t) (minute t) 0)
  else if one_of unit ["second"] then unwrap (from_hms_opt (hour t) (minute t) (second t))
  else if one_of unit ["millisecond"] then
    let ms := nanosecond t / 1000000 in
    unwrap (from_hms_nano_opt (hour t) (minute t) (second t) (ms * 1000000))
  else if one_of unit ["microsecond"] then
    let us := nanosecond t / 1000 in
    unwrap (from_hms_nano_opt (hour t) (minute t) (second t) (us * 1000))
  else Err (ser_error ("unsupported truncation unit for time: " +:+ unit)).

Definition truncate_time (unit : string) (val : value) (map : Properties) : Res NaiveTime :=
  ot ← extract_time val;
  t ← ok_or ot (ser_error "truncate_time requires a temporal with a time component");
  t ← truncate_time_core unit t;
  match get_i64 map "nanosecond" with
  | Some ns =>
      let new_nanos := as_u32 (nanosecond t + as_u32 ns) in
      ok_or (with_nanosecond t new_nanos) (ser_error_at "invalid nanosecond: " (dec_signed ns))
  | None => Ok t
  end.
End durations.

(** * Durations from text and from maps: src/src/temporal.rs

    The ISO 8601 duration parser and the construction from components.  Both
    compute with [f64] and push the fraction of a unit down to smaller ones;
    the four accumulators are [i64] and wrap around. *)

Definition get_f64 (map : Properties) (key : string) : option f64 :=
  match map !! key with
  | Some (Value.I64 n) => Some (f64_of_int n)
  | Some (Value.F64 bits) => Some (f64_of_bits bits)
  | _ => None
  end.

Definition parse_num_f64 (s : bytes) : Res f64 :=
  match parse_f64 s with
  | Ok x => Ok x
  | Err e => Err (ser_error (parse_float_error_display e))
  | Panic => Panic
  end.

(** ** The accumulators *)
Definition add_months_acc (d : CypherDuration) (n : Z) : CypherDuration :=
  mkDuration (as_i64 (months d + n)) (days d) (seconds d) (nanos d).
Definition add_days_acc (d : CypherDuration) (n : Z) : CypherDuration :=
  mkDuration (months d) (as_i64 (days d + n)) (seconds d) (nanos d).
Definition add_seconds_acc (d : CypherDuration) (n : Z) : CypherDuration :=
  mkDuration (months d) (days d) (as_i64 (seconds d + n)) (nanos d).
Definition add_nanos_acc (d : CypherDuration) (n : Z) : CypherDuration :=
  mkDuration (months d) (days d) (seconds d) (as_i64 (nanos d + n)).

(** [seconds += n / 10^9; nanos += n % 10^9]. *)
Definition add_total_nanos (d : CypherDuration) (n : Z) : CypherDuration :=
  add_nanos_acc (add_seconds_acc d (Z.quot n 1000000000)) (Z.rem n 1000000000).

Definition frac (x : f64) : f64 := f64_sub x (f64_trunc x).
(** Average days in a month: 365.2425 / 12. *)
Definition days_per_month : f64 := decimal false 30436875 (-6).

Definition cascade_frac_days (fr : f64) (d : CypherDuration) : CypherDuration :=
  if is_zero fr then d else
  let total_nanos_f := f64_mul (f64_mul fr (f64_of_int 86400)) (f64_of_int 1000000000) in
  add_total_nanos d (f64_as_i64 (f64_round total_nanos_f)).

Definition cascade_frac_months (fr : f64) (d : CypherDuration) : CypherDuration :=
  if is_zero fr then d else
  let days_f := f64_mul fr days_per_month in
  let d := add_days_acc d (f64_as_i64 (f64_trunc days_f)) in
  cascade_frac_days (frac days_f) d.

(** ** The date part *)
Definition is_num_byte (b : byte) : bool := is_digit b || bool_decide (b = "."%byte).

Definition date_unit (b : byte) (n : f64) (d : CypherDuration) : Res CypherDuration :=
  let int_part := f64_as_i64 (f64_trunc n) in
  let fr := frac n in
  let u := byte_lower b in
  if decide (u = "y"%byte) then
    let d := add_months_acc d (as_i64 (int_part * 12)) in
    let frac_months := f64_mul fr (f64_of_int 12) in
    let d := add_months_acc d (f64_as_i64 (f64_trunc frac_months)) in
    Ok (cascade_frac_months (frac frac_months) d)
  else if decide (u = "m"%byte) then
    Ok (cascade_frac_months fr (add_months_acc d int_part))
  else if decide (u = "w"%byte) then
    let days_f := f64_mul n (f64_of_int 7) in
    Ok (cascade_frac_days (frac days_f) (add_days_acc d (f64_as_i64 (f64_trunc days_f))))
  else if decide (u = "d"%byte) then
    Ok (cascade_frac_days fr (add_days_acc d int_part))
  else Err (ser_error ("unexpected char '" +:+ bytes_str (dec (Z.of_N (b2n b)))
              +:+ "' in duration date part")).

(** The text of a number up to its unit; a sign may open each number.  Text
    after the last unit is dropped. *)
Fixpoint date_part_loop (num l : bytes) (d : CypherDuration) : Res CypherDuration :=
  match l with
  | [] => Ok d
  | b :: l' =>
      if is_num_byte b then date_part_loop (num ++ [b]) l' d
      else
        n ← parse_num_f64 num;
        d' ← date_unit b n d;
        match l' with
        | c :: l'' =>
            if decide (c = "-"%byte) then date_part_loop [c] l'' d' else date_part_loop [] l' d'
        | [] => Ok d'
        end
  end.

Definition parse_duration_date_part (s : bytes) (d : CypherDuration) : Res CypherDuration :=
  match s with
  | c :: s' =>
      if decide (c = "-"%byte) then date_part_loop [c] s' d else date_part_loop [] s d
  | [] => Ok d
  end.

(** ** The time part *)
Definition scaled_unit (num : bytes) (secs nanos_per_unit : Z) (d : CypherDuration)
    : Res CypherDuration :=
  n ← parse_num_f64 num;
  let int_part := f64_as_i64 (f64_trunc n) in
  let fr := frac n in
  let d := add_seconds_acc d (as_i64 (int_part * secs)) in
  Ok (if is_zero fr then d
      else add_total_nanos d (f64_as_i64 (f64_round (f64_mul fr (f64_of_int nanos_per_unit))))).

Definition time_unit (b : byte) (num : bytes) (d : CypherDuration) : Res CypherDuration :=
  let u := byte_lower b in
  if decide (u = "h"%byte) then scaled_unit num 3600 3600000000000 d
  else if decide (u = "m"%byte) then scaled_unit num 60 60000000000 d
  else if decide (u = "s"%byte) then
    match bytes_split_once "."%byte num with
    | Some (int_part, frac_part) =>
        let negative := starts_with "-"%byte int_part in
        int_val ← (if decide (int_part = [] ∨ int_part = ["-"%byte]) then Ok 0
                   else parse_num parse_i64 int_part);
        frac_nanos ← parse_frac_nanos frac_part;
        Ok (add_nanos_acc (add_seconds_acc d int_val)
              (if negative then - frac_nanos else frac_nanos))
    | None =>
        n ← parse_num parse_i64 num;
        Ok (add_seconds_acc d n)
    end
  else Err (ser_error ("unexpected char '" +:+ bytes_str (dec (Z.of_N (b2n b)))
              +:+ "' in duration time part")).

Fixpoint time_part_loop (num l : bytes) (d : CypherDuration) : Res CypherDuration :=
  match l with
  | [] => Ok d
  | b :: l' =>
      if is_num_byte b then time_part_loop (num ++ [b]) l' d
      else
        d' ← time_unit b num d;
        match l' with
        | c :: l'' =>
            if decide (c = "-"%byte) then time_part_loop [c] l'' d' else time_part_loop [] l' d'
        | [] => Ok d'
        end
  end.

Definition parse_duration_time_part (s : bytes) (d : CypherDuration) : Res CypherDuration :=
  match s with
  | c :: s' =>
      if decide (c = "-"%byte) then time_part_loop [c] s' d else time_part_loop [] s d
  | [] => Ok d
  end.

(** ** The whole text *)
Definition is_ascii_alphabetic (b : byte) : bool := byte_in 65 90 b || byte_in 97 122 b.

Definition duration_date (date_part : bytes) (d : CypherDuration) : Res CypherDuration :=
  if decide (date_part = []) then Ok d
  else if contains "-"%byte date_part && negb (existsb is_ascii_alphabetic date_part) then
    match bytes_split "-"%byte date_part with
    | [p0; p1; p2] =>
        y ← parse_num parse_i64 p0;
        m ← parse_num parse_i64 p1;
        dd ← parse_num parse_i64 p2;
        Ok (add_days_acc (add_months_acc d (as_i64 (y * 12 + m))) dd)
    | _ => Err (ser_error_at "invalid date-format duration: " date_part)
    end
  else parse_duration_date_part date_part d.

Definition duration_colon_time (tp : bytes) (d : CypherDuration) : Res CypherDuration :=
  match bytes_split ":"%byte tp with
  | p0 :: p1 :: rest =>
      h ← parse_num parse_i64 p0;
      m ← parse_num parse_i64 p1;
      let d := add_seconds_acc d (as_i64 (h * 3600 + m * 60)) in
      match rest with
      | [s_str] =>
          match bytes_split_once "."%byte s_str with
          | Some (int_part, frac_part) =>
              int_val ← (if decide (int_part = []) then Ok 0 else parse_num parse_i64 int_part);
              let d := add_seconds_acc d int_val in
              frac_nanos ← parse_frac_nanos frac_part;
              Ok (add_nanos_acc d frac_nanos)
          | None => s_val ← parse_num parse_i64 s_str; Ok (add_seconds_acc d s_val)
          end
      | _ => Ok d
      end
  | _ => Ok d
  end.

Definition duration_from_iso_string (s : bytes) : Res CypherDuration :=
  if negb (starts_with "P"%byte s) && negb (starts_with "p"%byte s) then
    Err (ser_error_at "duration must start with 'P': " s)
  else
    let body := drop 1 s in
    let '(date_part, time_part) :=
      match bytes_split_once "T"%byte body ∪ bytes_split_once "t"%byte body with
      | Some (a, b) => (a, Some b)
      | None => (body, None)
      end in
    d ← duration_date date_part zero_duration;
    match time_part with
    | Some tp =>
        if decide (tp = []) then Ok d
        else if contains ":"%byte tp then duration_colon_time tp d
        else parse_duration_time_part tp d
    | None => Ok d
    end.

(** ** From a map *)
Definition duration_from_map (map : Properties) : Res CypherDuration :=
  let get key := default f64_zero (get_f64 map key) in
  let months_f := f64_add (f64_mul (get "years") (f64_of_int 12)) (get "months") in
  let total_months := f64_as_i64 (f64_trunc months_f) in
  let frac_months := frac months_f in
  let days_f := f64_add (f64_add (f64_mul (get "weeks") (f64_of_int 7)) (get "days"))
                  (f64_mul frac_months days_per_month) in
  let total_days := f64_as_i64 (f64_trunc days_f) in
  let frac_days := frac days_f in
  let nanos_from_time :=
    f64_add (f64_add (f64_add (f64_add (f64_add
      (f64_mul (f64_add (get "hours") (f64_mul frac_days (f64_of_int 24)))
         (f64_of_int 3600000000000))
      (f64_mul (get "minutes") (f64_of_int 60000000000)))
      (f64_mul (get "seconds") (f64_of_int 1000000000)))
      (f64_mul (get "milliseconds") (f64_of_int 1000000)))
      (f64_mul (get "microseconds") (f64_of_int 1000)))
      (get "nanoseconds") in
  let total_nanos_i := f64_as_i64 (f64_round nanos_from_time) in
  let total_seconds := Z.quot total_nanos_i 1000000000 in
  let total_nanos := Z.rem total_nanos_i 1000000000 in
  let '(total_seconds, total_nanos) :=
    if (0 <? total_seconds) && (total_nanos <? 0)
    then (total_seconds - 1, total_nanos + 1000000000)
    else if (total_seconds <? 0) && (0 <? total_nanos)
    then (total_seconds + 1, total_nanos - 1000000000)
    else (total_seconds, total_nanos) in
  Ok (mkDuration total_months total_days total_seconds total_nanos).

(** The constants of the code are exactly representable, but for the days of a
    month. *)
Example parse_duration_example :
  duration_from_iso_string (str_bytes "P1Y2M3DT4H5M6.789S")
    = Ok (mkDuration 14 3 14706 789000000).
Proof. vm_compute. reflexivity. Qed.
Example parse_duration_fraction :
  duration_from_iso_string (str_bytes "P0.75M")
    = Ok (mkDuration 0 22 71509 500000000).
Proof. vm_compute. reflexivity. Qed.
Example duration_map_example :
  duration_from_map {["years" := Value.I64 1; "days" := Value.I64 14; "hours" := Value.I64 16]}
    = Ok (mkDuration 12 14 57600 0).
Proof. vm_compute. reflexivity. Qed.

(** * Temporal arithmetic: src/src/cypher/eval/temporal_ops.rs

    Sums, differences, multiples and quotients of durations, a temporal value
    moved by a duration, and the component accessors.  [None] means that the
    operands are not of this kind; chrono's operators panic out of range. *)

(** Average seconds per month: 365.2425 * 86400 / 12. *)
Definition AVG_SECONDS_PER_MONTH : Z := 2629746.

Definition months_abs_to_u32 (months : Z) : Res Z :=
  let a := Z.abs months in
  if i32_max <? a then
    Err (GraphError.query Runtime ErrorCode.NumberOutOfRange
      ("duration months component `" +:+ bytes_str (dec_signed months)
       +:+ "` is out of range (must fit in i32 to apply to a date/datetime)"))
  else Ok a.

Section ops.
Context `{Chrono}.

(** [date.checked_add_months(..).unwrap_or(date)] in the direction of the
    sign: a date out of range stays where it is. *)
Definition shift_months (d : NaiveDate) (months : Z) : Res NaiveDate :=
  if months =? 0 then Ok d else
  n ← months_abs_to_u32 months;
  Ok (default d (if 0 <? months then checked_add_months d n else checked_sub_months d n)).

(** [date + delta] and [datetime + delta]. *)
Definition date_plus (d : NaiveDate) (delta : Z) : Res NaiveDate :=
  unwrap (date_checked_add_signed d delta).
Definition datetime_plus (dt : NaiveDateTime) (delta : Z) : Res NaiveDateTime :=
  unwrap (datetime_checked_add_signed dt delta).

(** Nanoseconds carried into seconds and both of one sign. *)
Definition carry (seconds nanos : Z) : Z * Z :=
  let '(seconds, nanos) :=
    if (1000000000 <=? nanos) || (nanos <=? -1000000000)
    then (as_i64 (seconds + Z.quot nanos 1000000000), Z.rem nanos 1000000000)
    else (seconds, nanos) in
  if (0 <? seconds) && (nanos <? 0) then (seconds - 1, nanos + 1000000000)
  else if (seconds <? 0) && (0 <? nanos) then (seconds + 1, nanos - 1000000000)
  else (seconds, nanos).

Definition add_to_date (d : NaiveDate) (dur : CypherDuration) : Res NaiveDate :=
  d ← shift_months d (months dur);
  days ← unwrap (delta_days (days dur));
  d ← date_plus d days;
  secs ← unwrap (delta_seconds (seconds dur));
  d ← date_plus d secs;
  date_plus d (nanos dur).

Definition add_to_time (t : NaiveTime) (dur : CypherDuration) : Res NaiveTime :=
  secs ← unwrap (delta_seconds (seconds dur));
  Ok (time_add (time_add t secs) (nanos dur)).

Definition add_to_datetime (dt : NaiveDateTime) (dur : CypherDuration) : Res NaiveDateTime :=
  d ← shift_months (dt_date dt) (months dur);
  days ← unwrap (delta_days (days dur));
  d ← date_plus d days;
  secs ← unwrap (delta_seconds (seconds dur));
  dt' ← datetime_plus (mkDateTime d (dt_time dt)) secs;
  datetime_plus dt' (nanos dur).

Definition eval_temporal_add (left right : value) : option (Res value) :=
  match left, right with
  | Value.Duration a, Value.Duration b =>
      let '(seconds, nanos) :=
        carry (as_i64 (seconds a + seconds b)) (as_i64 (nanos a + nanos b)) in
      Some (Ok (Value.Duration
        (mkDuration (as_i64 (months a + months b)) (as_i64 (days a + days b)) seconds nanos)))
  | Value.Date d, Value.Duration dur | Value.Duration dur, Value.Date d =>
      Some (Value.Date <$> add_to_date d dur)
  | Value.LocalTime t, Value.Duration dur | Value.Duration dur, Value.LocalTime t =>
      Some (Value.LocalTime <$> add_to_time t dur)
  | Value.Time t off, Value.Duration dur | Value.Duration dur, Value.Time t off =>
      Some ((λ t', Value.Time t' off) <$> add_to_time t dur)
  | Value.LocalDateTime dt, Value.Duration dur | Value.Duration dur, Value.LocalDateTime dt =>
      Some (Value.LocalDateTime <$> add_to_datetime dt dur)
  | Value.DateTime dt off tz, Value.Duration dur
  | Value.Duration dur, Value.DateTime dt off tz =>
      Some ((λ dt', Value.DateTime dt' off tz) <$> add_to_datetime dt dur)
  | _, _ => None
  end.

Definition neg_duration (dur : CypherDuration) : CypherDuration :=
  mkDuration (as_i64 (- months dur)) (as_i64 (- days dur)) (as_i64 (- seconds dur))
    (as_i64 (- nanos dur)).

Definition eval_temporal_sub (left right : value) : option (Res value) :=
  match left, right with
  | Value.Duration a, Value.Duration b =>
      let '(seconds, nanos) :=
        carry (as_i64 (seconds a - seconds b)) (as_i64 (nanos a - nanos b)) in
      Some (Ok (Value.Duration
        (mkDuration (as_i64 (months a - months b)) (as_i64 (days a - days b)) seconds nanos)))
  | _, Value.Duration dur => eval_temporal_add left (Value.Duration (neg_duration dur))
  | _, _ => None
  end.

(** ** Multiples and quotients *)

(** [i128] holds every sum and product below. *)
Definition duration_to_total_nanos (d : CypherDuration) : Z :=
  let nanos_per_sec := 1000000000 in
  let nanos_per_day := 86400 * nanos_per_sec in
  let nanos_per_month := AVG_SECONDS_PER_MONTH * nanos_per_sec in
  months d * nanos_per_month + days d * nanos_per_day + seconds d * nanos_per_sec + nanos d.

Definition total_nanos_to_duration (total : Z) : CypherDuration :=
  let nanos_per_sec := 1000000000 in
  let nanos_per_day := 86400 * nanos_per_sec in
  let nanos_per_month := AVG_SECONDS_PER_MONTH * nanos_per_sec in
  let months := Z.quot total nanos_per_month in
  let remainder := Z.rem total nanos_per_month in
  let days := Z.quot remainder nanos_per_day in
  let remainder := Z.rem remainder nanos_per_day in
  let seconds := Z.quot remainder nanos_per_sec in
  let nanos := Z.rem remainder nanos_per_sec in
  mkDuration (as_i64 months) (as_i64 days) (as_i64 seconds) (as_i64 nanos).

Definition duration_mul_int (dur : CypherDuration) (n : Z) : CypherDuration :=
  mkDuration (as_i64 (months dur * n)) (as_i64 (days dur * n)) (as_i64 (seconds dur * n))
    (as_i64 (nanos dur * n)).
Definition duration_mul_f64 (d : CypherDuration) (n : f64) : CypherDuration :=
  let total := duration_to_total_nanos d in
  total_nanos_to_duration (f64_as_i128 (f64_round (f64_mul (f64_of_int total) n))).

Definition eval_duration_mul (left right : value) : option (Res value) :=
  match left, right with
  | Value.Duration d, Value.I64 n | Value.I64 n, Value.Duration d =>
      Some (Ok (Value.Duration (duration_mul_int d n)))
  | Value.Duration d, Value.F64 n | Value.F64 n, Value.Duration d =>
      Some (Ok (Value.Duration (duration_mul_f64 d (f64_of_bits n))))
  | _, _ => None
  end.

Definition duration_div_f64 (d : CypherDuration) (n : f64) : CypherDuration :=
  let nanos_per_sec := f64_of_int 1000000000 in
  let nanos_per_day := f64_mul (f64_of_int 86400) nanos_per_sec in
  let nanos_per_month := f64_mul (f64_of_int AVG_SECONDS_PER_MONTH) nanos_per_sec in
  let months_f := f64_div (f64_of_int (months d)) n in
  let months_i := f64_as_i64 (f64_trunc months_f) in
  let month_remainder_nanos := f64_mul (frac months_f) nanos_per_month in
  let days_f := f64_add (f64_div (f64_of_int (days d)) n)
                  (f64_div month_remainder_nanos nanos_per_day) in
  let days_i := f64_as_i64 (f64_trunc days_f) in
  let day_remainder_nanos := f64_mul (frac days_f) nanos_per_day in
  let sub_nanos_f :=
    f64_add (f64_div (f64_add (f64_mul (f64_of_int (seconds d)) nanos_per_sec)
                        (f64_of_int (nanos d))) n)
      day_remainder_nanos in
  let seconds_i := f64_as_i64 (f64_trunc (f64_div sub_nanos_f nanos_per_sec)) in
  let nanos_i := f64_as_i64 (f64_round (f64_rem sub_nanos_f nanos_per_sec)) in
  mkDuration months_i days_i seconds_i nanos_i.

Definition eval_duration_div (left right : value) : option (Res value) :=
  match left, right with
  | Value.Duration d, Value.I64 n =>
      if n =? 0 then Some (Ok Value.Null) else
      Some (Ok (Value.Duration
        (total_nanos_to_duration (Z.quot (duration_to_total_nanos d) n))))
  | Value.Duration d, Value.F64 n =>
      if is_zero (f64_of_bits n) then Some (Ok Value.Null) else
      Some (Ok (Value.Duration (duration_div_f64 d (f64_of_bits n))))
  | _, _ => None
  end.

(** ** Accessors *)
Definition quarter_start (d : NaiveDate) : Z := (month d - 1) / 3 * 3 + 1.

Definition date_accessor (d : NaiveDate) (prop : string) : Res (option value) :=
  let int n : Res (option value) := Ok (Some (Value.I64 n)) in
  if one_of prop ["year"] then int (year d)
  else if one_of prop ["month"] then int (month d)
  else if one_of prop ["day"] then int (day d)
  else if one_of prop ["ordinalDay"] then int (ordinal d)
  else if one_of prop ["weekYear"] then int (iso_year d)
  else if one_of prop ["week"] then int (iso_week d)
  else if one_of prop ["dayOfWeek"; "weekDay"] then int (num_days_from_monday (weekday d) + 1)
  else if one_of prop ["quarter"] then int ((month d - 1) / 3 + 1)
  else if one_of prop ["dayOfQuarter"] then
    q_start ← unwrap (from_ymd_opt (year d) (quarter_start d) 1);
    int (num_days_since d q_start + 1)
  else Ok None.

Definition time_accessor (t : NaiveTime) (prop : string) : option value :=
  let sub := nanosecond t `mod` 1000000000 in
  let int n := Some (Value.I64 n) in
  if one_of prop ["hour"] then int (hour t)
  else if one_of prop ["minute"] then int (minute t)
  else if one_of prop ["second"] then int (second t)
  else if one_of prop ["nanosecond"] then int sub
  else if one_of prop ["microsecond"] then int (sub / 1000)
  else if one_of prop ["millisecond"] then int (sub / 1000000)
  else None.

Definition offset_accessor (off : FixedOffset) (prop : string) : option value :=
  if one_of prop ["offset"; "timezone"]
  then Some (Value.String (bytes_str (fmt_offset_public off)))
  else if one_of prop ["offsetMinutes"] then Some (Value.I64 (Z.quot (local_minus_utc off) 60))
  else if one_of prop ["offsetSeconds"] then Some (Value.I64 (local_minus_utc off))
  else None.

Definition duration_accessor (d : CypherDuration) (prop : string) : option value :=
  let int n := Some (Value.I64 n) in
  if one_of prop ["years"] then int (Z.quot (months d) 12)
  else if one_of prop ["quarters"] then int (Z.quot (months d) 3)
  else if one_of prop ["months"] then int (months d)
  else if one_of prop ["weeks"] then int (Z.quot (days d) 7)
  else if one_of prop ["days"] then int (days d)
  else if one_of prop ["hours"] then int (Z.quot (seconds d) 3600)
  else if one_of prop ["minutes"] then int (Z.quot (seconds d) 60)
  else if one_of prop ["seconds"] then int (seconds d)
  else if one_of prop ["nanoseconds"] then int (as_i64 (seconds d * 1000000000 + nanos d))
  else if one_of prop ["milliseconds"]
  then int (as_i64 (seconds d * 1000 + Z.quot (nanos d) 1000000))
  else if one_of prop ["microseconds"]
  then int (as_i64 (seconds d * 1000000 + Z.quot (nanos d) 1000))
  else if one_of prop ["quartersOfYear"] then int (Z.quot (Z.rem (months d) 12) 3)
  else if one_of prop ["monthsOfQuarter"] then int (Z.rem (months d) 3)
  else if one_of prop ["monthsOfYear"] then int (Z.rem (months d) 12)
  else if one_of prop ["daysOfWeek"] then int (Z.rem (days d) 7)
  else if one_of prop ["minutesOfHour"] then int (Z.rem (Z.quot (seconds d) 60) 60)
  else if one_of prop ["secondsOfMinute"] then int (Z.rem (seconds d) 60)
  else if one_of prop ["millisecondsOfSecond"] then int (Z.quot (nanos d) 1000000)
  else if one_of prop ["microsecondsOfSecond"] then int (Z.quot (nanos d) 1000)
  else if one_of prop ["nanosecondsOfSecond"] then int (nanos d)
  else None.

(** [dt - Duration::seconds(offset)]. *)
Definition to_utc (dt : NaiveDateTime) (off : FixedOffset) : Res NaiveDateTime :=
  delta ← unwrap (delta_seconds (local_minus_utc off));
  datetime_plus dt (- delta).

(** The date's accessors, then the other's. *)
Definition accessor_or (r : Res (option value)) (v : option value) : Res (option value) :=
  o ← r; Ok (match o with Some x => Some x | None => v end).

Definition temporal_accessor (val : value) (prop : string) : Res (option value) :=
  match val with
  | Value.Date d => date_accessor d prop
  | Value.LocalTime t => Ok (time_accessor t prop)
  | Value.Time t off => Ok (time_accessor t prop ∪ offset_accessor off prop)
  | Value.LocalDateTime dt =>
      accessor_or (date_accessor (dt_date dt) prop) (time_accessor (dt_time dt) prop)
  | Value.DateTime dt off tz =>
      if one_of prop ["timezone"]
      then Ok (Some (Value.String (default (bytes_str (fmt_offset_public off)) tz)))
      else if one_of prop ["epochSeconds"] then
        utc_ndt ← to_utc dt off; Ok (Some (Value.I64 (timestamp utc_ndt)))
      else if one_of prop ["epochMillis"] then
        utc_ndt ← to_utc dt off; Ok (Some (Value.I64 (timestamp_millis utc_ndt)))
      else accessor_or (date_accessor (dt_date dt) prop)
             (time_accessor (dt_time dt) prop ∪ offset_accessor off prop)
  | Value.Duration d => Ok (duration_accessor d prop)
  | _ => Ok None
  end.
End ops.
