(* ===== verification/DurationTextSpec.v ===== *)
(** * Durations read back, and durations of whole components

    What duration_display prints is parsed as the same length, and a map of
    integer components gives their exact sum while it fits in a double. *)
From S2P Require Export Floats TemporalSpec Durations.
#[local] Open Scope Z_scope.

(** ** Numbers in the text *)
Definition num_bytes (l : bytes) : Prop := Forall (λ b, is_num_byte b = true) l.
Lemma num_bytes_digits l : all_digits l → num_bytes l.
Proof.
  intros Hl. eapply Forall_impl; [exact Hl|]. intros b Hb. unfold is_num_byte. simpl in Hb.
  by rewrite Hb.
Qed.

Lemma parse_num_f64_signed n :
  small n → ∃ x, parse_num_f64 (dec_signed n) = Ok x ∧ rep x n.
Proof.
  intros Hn. destruct (parse_f64_signed n Hn) as (x & E & Hx). exists x.
  unfold parse_num_f64. by rewrite E.
Qed.

Lemma parse_digits_neg lo acc l :
  all_digits l → acc ≤ 0 → lo ≤ - digits_val (- acc) l → 0 ≤ i64_max →
  parse_digits lo i64_max true acc l = Ok (- digits_val (- acc) l).
Proof.
  intros Hl. revert acc. induction Hl as [|b l Hb Hl IH]; intros acc Ha Hlo Hhi.
  { simpl. by rewrite Z.opp_involutive. }
  simpl. rewrite Hb. pose proof (digit_val_range b Hb).
  change (digits_val (- acc) (b :: l)) with (digits_val (- acc * 10 + digit_val b) l) in *.
  pose proof (digits_val_ge (- acc * 10 + digit_val b) l Hl ltac:(lia)) as G.
  destruct (Z.ltb_spec (acc * 10 - digit_val b) lo); [lia|].
  destruct (Z.ltb_spec i64_max (acc * 10 - digit_val b)); [lia|].
  rewrite IH by (done || lia || (replace (- (acc * 10 - digit_val b))
    with (- acc * 10 + digit_val b) by lia; done)).
  do 3 f_equal. lia.
Qed.

Lemma parse_i64_neg n : 0 ≤ n ≤ i64_max → parse_num parse_i64 ("-"%byte :: dec n) = Ok (- n).
Proof.
  intros Hn. destruct (dec_spec n) as [Hd Hv]; [lia|]. pose proof (dec_nonempty n) as Hne.
  unfold parse_num, parse_i64, parse_int. simpl.
  destruct (dec n) as [|b l] eqn:E; [done|].
  rewrite parse_digits_neg; [by rewrite Z.opp_0, Hv|done|done| |unfold i64_max; lia].
  rewrite Z.opp_0, Hv. widths. lia.
Qed.
Lemma parse_i64_dec n : 0 ≤ n ≤ i64_max → parse_num parse_i64 (dec n) = Ok n.
Proof.
  intros Hn. destruct (dec_spec n) as [Hd Hv]; [lia|]. unfold parse_num, parse_i64.
  rewrite parse_int_digits; [by rewrite Hv|done|apply dec_nonempty| |rewrite Hv; lia].
  by unfold i64_min.
Qed.
Lemma parse_i64_signed n : - i64_max ≤ n ≤ i64_max → parse_num parse_i64 (dec_signed n) = Ok n.
Proof.
  intros Hn. unfold dec_signed. destruct (Z.ltb_spec n 0).
  - rewrite parse_i64_neg by lia. f_equal. lia.
  - apply parse_i64_dec. lia.
Qed.

(** ** The loops, one number at a time *)
Lemma date_part_loop_num num l b r d :
  num_bytes l → is_num_byte b = false →
  date_part_loop num (l ++ b :: r) d
    = (n ← parse_num_f64 (num ++ l); d' ← date_unit b n d; parse_duration_date_part r d').
Proof.
  intros Hl Hb. revert num. induction Hl as [|c l Hc _ IH]; intros num; simpl.
  - rewrite Hb, app_nil_r. destruct (parse_num_f64 num) as [n| |]; [|done..]. simpl.
    destruct (date_unit b n d) as [d'| |]; [|done..]. simpl. by destruct r.
  - rewrite Hc, IH. by rewrite <- app_assoc.
Qed.
Lemma time_part_loop_num num l b r d :
  num_bytes l → is_num_byte b = false →
  time_part_loop num (l ++ b :: r) d
    = (d' ← time_unit b (num ++ l) d; parse_duration_time_part r d').
Proof.
  intros Hl Hb. revert num. induction Hl as [|c l Hc _ IH]; intros num; simpl.
  - rewrite Hb, app_nil_r. destruct (time_unit b num d) as [d'| |]; [|done..]. simpl.
    by destruct r.
  - rewrite Hc, IH. by rewrite <- app_assoc.
Qed.

(** A number with its sign, then a unit. *)
Lemma digits_head l : all_digits l → l ≠ [] → ∃ b r, l = b :: r ∧ b ≠ "-"%byte.
Proof.
  intros Hl Hne. destruct l as [|b r]; [done|]. inversion Hl as [|? ? Hb _]; subst.
  exists b, r. split; [done|]. by apply is_digit_sign.
Qed.

Lemma date_part_signed n b r d :
  is_num_byte b = false →
  parse_duration_date_part (dec_signed n ++ b :: r) d
    = (x ← parse_num_f64 (dec_signed n); d' ← date_unit b x d; parse_duration_date_part r d').
Proof.
  intros Hb. unfold dec_signed. destruct (Z.ltb_spec n 0) as [Hn|Hn].
  - simpl. destruct (dec_spec (- n)) as [Hd _]; [lia|].
    by rewrite date_part_loop_num by (done || by apply num_bytes_digits).
  - destruct (dec_spec n) as [Hd _]; [lia|].
    destruct (digits_head (dec n) Hd (dec_nonempty n)) as (c & t & E & Hc).
    rewrite <- (date_part_loop_num [] (dec n)) by (done || by apply num_bytes_digits).
    rewrite E. simpl. by rewrite decide_False.
Qed.

Lemma time_part_text sg l b r d :
  num_bytes l → is_num_byte b = false →
  match l with c :: _ => c ≠ "-"%byte | [] => False end →
  parse_duration_time_part ((if sg : bool then "-"%byte :: l else l) ++ b :: r) d
    = (d' ← time_unit b (if sg then "-"%byte :: l else l) d; parse_duration_time_part r d').
Proof.
  intros Hl Hb Hh. destruct sg.
  - simpl. by rewrite time_part_loop_num.
  - rewrite <- (time_part_loop_num [] l) by done.
    destruct l as [|c l]; [done|]. simpl. by rewrite decide_False.
Qed.

Lemma time_part_signed n b r d :
  is_num_byte b = false →
  parse_duration_time_part (dec_signed n ++ b :: r) d
    = (d' ← time_unit b (dec_signed n) d; parse_duration_time_part r d').
Proof.
  intros Hb. unfold dec_signed.
  assert (∀ k, 0 ≤ k → num_bytes (dec k) ∧ match dec k with c :: _ => c ≠ "-"%byte | [] => False end)
    as G.
  { intros k Hk. destruct (dec_spec k Hk) as [Hd _].
    destruct (digits_head (dec k) Hd (dec_nonempty k)) as (c & t & E & Hc).
    split; [by apply num_bytes_digits|]. by rewrite E. }
  destruct (Z.ltb_spec n 0) as [Hn|Hn].
  - destruct (G (- n)) as [G1 G2]; [lia|]. exact (time_part_text true _ b r d G1 Hb G2).
  - destruct (G n) as [G1 G2]; [lia|]. exact (time_part_text false _ b r d G1 Hb G2).
Qed.

(** ** Units on whole numbers *)
Definition in_range (d : CypherDuration) : Prop :=
  in_i64 (months d) ∧ in_i64 (days d) ∧ in_i64 (seconds d) ∧ in_i64 (nanos d).

Lemma add_months_acc_twice d a b :
  add_months_acc (add_months_acc d a) b = add_months_acc d (a + b).
Proof. unfold add_months_acc; simpl. f_equal. rewrite as_i64_add_l. f_equal. lia. Qed.
Lemma add_months_acc_zero d : in_range d → add_months_acc d 0 = d.
Proof.
  intros (H & _). unfold add_months_acc. rewrite Z.add_0_r, as_i64_small by done. by destruct d.
Qed.
Lemma add_days_acc_zero d : in_range d → add_days_acc d 0 = d.
Proof.
  intros (_ & H & _). unfold add_days_acc. rewrite Z.add_0_r, as_i64_small by done. by destruct d.
Qed.
Lemma add_seconds_acc_zero d : in_range d → add_seconds_acc d 0 = d.
Proof.
  intros (_ & _ & H & _). unfold add_seconds_acc. rewrite Z.add_0_r, as_i64_small by done.
  by destruct d.
Qed.
Lemma add_nanos_acc_zero d : in_range d → add_nanos_acc d 0 = d.
Proof.
  intros (_ & _ & _ & H). unfold add_nanos_acc. rewrite Z.add_0_r, as_i64_small by done.
  by destruct d.
Qed.

Lemma add_months_acc_in d n : in_range d → in_range (add_months_acc d n).
Proof. intros (H1 & H2 & H3 & H4). split_and!; simpl; auto using as_i64_in. Qed.
Lemma add_days_acc_in d n : in_range d → in_range (add_days_acc d n).
Proof. intros (H1 & H2 & H3 & H4). split_and!; simpl; auto using as_i64_in. Qed.
Lemma add_seconds_acc_in d n : in_range d → in_range (add_seconds_acc d n).
Proof. intros (H1 & H2 & H3 & H4). split_and!; simpl; auto using as_i64_in. Qed.

Lemma cascade_frac_days_zero fr d : is_zero fr = true → cascade_frac_days fr d = d.
Proof. intros H. unfold cascade_frac_days. by rewrite H. Qed.
Lemma cascade_frac_months_zero fr d : is_zero fr = true → cascade_frac_months fr d = d.
Proof. intros H. unfold cascade_frac_months. by rewrite H. Qed.

(** Zero times a number that is not infinite is zero. *)
Lemma is_zero_rep x : is_zero x = true ↔ rep x 0.
Proof. done. Qed.
Lemma mul_zero_rep x z : is_zero x = true → small z → is_zero (f64_mul x (f64_of_int z)) = true.
Proof.
  intros Hx Hz. apply is_zero_rep. change 0 with (0 * z).
  apply f64_mul_rep; [done|apply rep_of_int|done|done|done].
Qed.

Lemma int_value x n : rep x n → small n → f64_as_i64 (f64_trunc x) = n.
Proof. intros Hx Hn. apply f64_as_i64_rep; [by apply f64_trunc_rep|done]. Qed.
Lemma frac_zero x n : rep x n → small n → is_zero (frac x) = true.
Proof. apply frac_rep. Qed.

Lemma small_bound n : small n → - 9007199254740992 < n < 9007199254740992.
Proof. unfold small. change (2 ^ 53) with 9007199254740992. lia. Qed.

Lemma date_unit_y x n d :
  rep x n → small n → in_range d → date_unit "Y"%byte x d = Ok (add_months_acc d (n * 12)).
Proof.
  intros Hx Hn Hd. pose proof (small_bound n Hn).
  unfold date_unit. rewrite decide_True by done. rewrite (int_value x n) by done.
  rewrite as_i64_small by (widths; lia).
  pose proof (mul_zero_rep (frac x) 12 (frac_zero x n Hx Hn) ltac:(done)) as Hz.
  rewrite (int_value _ 0) by (done || exact Hz).
  rewrite cascade_frac_months_zero by (by apply (frac_zero _ 0)).
  by rewrite add_months_acc_zero by by apply add_months_acc_in.
Qed.
Lemma date_unit_m x n d :
  rep x n → small n → date_unit "M"%byte x d = Ok (add_months_acc d n).
Proof.
  intros Hx Hn. unfold date_unit. rewrite decide_False by done. rewrite decide_True by done.
  rewrite (int_value x n) by done.
  by rewrite cascade_frac_months_zero by by apply (frac_zero x n).
Qed.
Lemma date_unit_d x n d :
  rep x n → small n → date_unit "D"%byte x d = Ok (add_days_acc d n).
Proof.
  intros Hx Hn. unfold date_unit. do 3 rewrite decide_False by done. rewrite decide_True by done.
  rewrite (int_value x n) by done.
  by rewrite cascade_frac_days_zero by by apply (frac_zero x n).
Qed.

(** [{n}{unit}] when [n] is not zero. *)
Definition field (n : Z) (u : byte) : bytes := if n =? 0 then [] else dec_signed n ++ [u].

Lemma date_field u f n r d :
  is_num_byte u = false → small n → f d 0 = d →
  (∀ x, rep x n → date_unit u x d = Ok (f d n)) →
  parse_duration_date_part (field n u ++ r) d = parse_duration_date_part r (f d n).
Proof.
  intros Hu Hn Hz Hf. unfold field. destruct (Z.eqb_spec n 0) as [->|H0]; [by rewrite Hz|].
  rewrite <- app_assoc. simpl. rewrite date_part_signed by done.
  destruct (parse_num_f64_signed n Hn) as (x & -> & Hx). simpl. by rewrite Hf.
Qed.

Lemma scaled_unit_ok num x n secs k d :
  parse_num_f64 num = Ok x → rep x n → small n →
  scaled_unit num secs k d = Ok (add_seconds_acc d (n * secs)).
Proof.
  intros E Hx Hn. unfold scaled_unit. rewrite E. simpl.
  rewrite (int_value x n) by done. rewrite (frac_zero x n) by done.
  f_equal. unfold add_seconds_acc. f_equal.
  by rewrite Z.add_comm, as_i64_add_l, Z.add_comm.
Qed.

Lemma time_field u secs n r d :
  u = "H"%byte ∧ secs = 3600 ∨ u = "M"%byte ∧ secs = 60 →
  small n → in_range d →
  parse_duration_time_part (field n u ++ r) d
    = parse_duration_time_part r (add_seconds_acc d (n * secs)).
Proof.
  intros Hu Hn Hd. unfold field. destruct (Z.eqb_spec n 0) as [->|H0].
  { by rewrite add_seconds_acc_zero. }
  destruct (parse_num_f64_signed n Hn) as (x & E & Hx).
  rewrite <- app_assoc. simpl.
  rewrite time_part_signed by (by destruct Hu as [[-> _]|[-> _]]).
  assert (time_unit u (dec_signed n) d = Ok (add_seconds_acc d (n * secs))) as ->; [|done].
  unfold time_unit. destruct Hu as [[-> ->]|[-> ->]].
  - rewrite decide_True by done. by apply (scaled_unit_ok _ x).
  - rewrite decide_False by done. rewrite decide_True by done. by apply (scaled_unit_ok _ x).
Qed.

(** ** Seconds and their fraction *)
Lemma time_unit_s_whole n d :
  small n → time_unit "S"%byte (dec_signed n) d = Ok (add_seconds_acc d n).
Proof.
  intros Hn. pose proof (small_bound n Hn). unfold time_unit.
  do 2 rewrite decide_False by done. rewrite decide_True by done.
  rewrite bytes_split_once_none.
  2:{ unfold dec_signed. destruct (Z.ltb_spec n 0); [apply not_elem_of_cons; split; [done|]|];
      (apply digits_no; [apply dec_spec; lia|done]). }
  rewrite parse_i64_signed by (widths; lia). done.
Qed.

Lemma time_unit_s_frac sg a fr d :
  0 ≤ a < 2 ^ 53 → 0 < fr < nanos_per_sec →
  time_unit "S"%byte ((if sg : bool then "-"%byte :: dec a else dec a)
      ++ "."%byte :: trim_end_byte "0"%byte (fmt_0 9 fr)) d
    = Ok (add_nanos_acc (add_seconds_acc d (if sg then - a else a)) (if sg then - fr else fr)).
Proof.
  intros Ha Hfr. destruct (dec_spec a) as [Hd _]; [lia|]. pose proof (dec_nonempty a) as Hne.
  destruct (digits_head (dec a) Hd Hne) as (c & t & E & Hc).
  unfold time_unit. do 2 rewrite decide_False by done. rewrite decide_True by done.
  rewrite bytes_split_once_app.
  2:{ destruct sg; [apply not_elem_of_cons; split; [done|]|]; by apply digits_no. }
  rewrite decide_False by (rewrite E; destruct sg; naive_solver).
  assert (parse_num parse_i64 (if sg then "-"%byte :: dec a else dec a)
    = Ok (if sg then - a else a)) as ->.
  { change (2 ^ 53) with 9007199254740992 in Ha.
    destruct sg; [apply parse_i64_neg|apply parse_i64_dec]; widths; lia. }
  simpl. rewrite parse_frac_fmt by lia. simpl.
  destruct (Z.ltb_spec fr nanos_per_sec); [|lia].
  do 2 f_equal. rewrite E. destruct sg; simpl; [done|].
  by rewrite bool_decide_eq_false_2.
Qed.

(** ** The whole text *)

(** Seconds and nanoseconds of one sign, as they are printed. *)
Definition signed_pair (d : CypherDuration) : Z * Z :=
  if (seconds d <? 0) && (0 <? nanos d) then (seconds d + 1, nanos d - 1000000000)
  else if (0 <? seconds d) && (nanos d <? 0) then (seconds d - 1, nanos d + 1000000000)
  else (seconds d, nanos d).
Definition signed_form (d : CypherDuration) : CypherDuration :=
  mkDuration (months d) (days d) (signed_pair d).1 (signed_pair d).2.

Lemma signed_pair_total d :
  (signed_pair d).1 * 1000000000 + (signed_pair d).2 = seconds d * 1000000000 + nanos d.
Proof.
  unfold signed_pair. destruct (_ && _); [simpl; lia|]. destruct (_ && _); simpl; lia.
Qed.
Lemma signed_pair_signs d :
  Z.abs (nanos d) < 1000000000 →
  Z.abs (signed_pair d).2 < 1000000000 ∧ Z.abs (signed_pair d).1 ≤ Z.abs (seconds d)
  ∧ (0 < (signed_pair d).1 → 0 ≤ (signed_pair d).2)
  ∧ ((signed_pair d).1 < 0 → (signed_pair d).2 ≤ 0).
Proof.
  intros Hn. unfold signed_pair.
  destruct (Z.ltb_spec (seconds d) 0), (Z.ltb_spec 0 (nanos d)), (Z.ltb_spec 0 (seconds d)),
    (Z.ltb_spec (nanos d) 0); simpl; lia.
Qed.

Definition date_text (d : CypherDuration) : bytes :=
  field (Z.quot (months d) 12) "Y"%byte ++ field (Z.rem (months d) 12) "M"%byte
  ++ field (days d) "D"%byte.
Definition seconds_text (secs ns : Z) : bytes :=
  if negb (ns =? 0) then
    let trimmed := trim_end_byte "0"%byte (fmt_0 9 (Z.abs ns)) in
    if (secs <? 0) || (secs =? 0) && (ns <? 0)
    then "-"%byte :: dec (Z.abs secs) ++ "."%byte :: trimmed ++ ["S"%byte]
    else dec_signed secs ++ "."%byte :: trimmed ++ ["S"%byte]
  else field secs "S"%byte.
Definition time_text (ts ns : Z) : bytes :=
  field (Z.quot ts 3600) "H"%byte ++ field (Z.quot (Z.rem ts 3600) 60) "M"%byte
  ++ seconds_text (Z.rem (Z.rem ts 3600) 60) ns.

Lemma small_quot n k : small n → 0 < k → small (Z.quot n k).
Proof.
  unfold small. intros Hn Hk. assert (Z.abs (Z.quot n k) ≤ Z.abs n); [|lia].
  rewrite <- Z.quot_abs by lia. rewrite (Z.abs_eq k) by lia.
  apply Z.quot_le_upper_bound; nia.
Qed.
Lemma small_rem n k : 0 < k ≤ 3600 → small (Z.rem n k).
Proof.
  unfold small. intros Hk. pose proof (Z.rem_bound_abs n k ltac:(lia)).
  change (2 ^ 53) with 9007199254740992. lia.
Qed.

Lemma field_no c n u : is_digit c = false → c ≠ "-"%byte → c ≠ u → c ∉ field n u.
Proof.
  intros Hc H1 H2. unfold field. destruct (n =? 0); [apply not_elem_of_nil|].
  apply not_elem_of_app. split; [|set_solver]. unfold dec_signed.
  destruct (Z.ltb_spec n 0); [apply not_elem_of_cons; split; [done|]|];
    (apply digits_no; [apply dec_spec; lia|done]).
Qed.

Lemma parse_date_text d :
  small (months d) → small (days d) →
  parse_duration_date_part (date_text d) zero_duration = Ok (mkDuration (months d) (days d) 0 0).
Proof.
  intros Hm Hd. unfold date_text.
  pose proof (small_bound _ Hm) as Bm. pose proof (small_bound _ Hd) as Bd.
  pose proof (small_quot _ 12 Hm ltac:(done)) as Hq.
  pose proof (small_rem (months d) 12 ltac:(done)) as Hr.
  assert (in_range zero_duration) as I0 by (unfold in_range; simpl; widths; lia).
  rewrite (date_field _ (λ d n, add_months_acc d (n * 12)));
    [|done|done|by rewrite add_months_acc_zero|intros; by apply date_unit_y].
  assert (in_range (add_months_acc zero_duration (Z.quot (months d) 12 * 12))) as I1
    by by apply add_months_acc_in.
  rewrite (date_field _ add_months_acc);
    [|done|done|by rewrite add_months_acc_zero|intros; by apply date_unit_m].
  rewrite <- (app_nil_r (field (days d) _)).
  rewrite (date_field _ add_days_acc);
    [|done|done| |intros; by apply date_unit_d].
  2:{ by apply add_days_acc_zero, add_months_acc_in. }
  simpl. f_equal. rewrite add_months_acc_twice. unfold add_months_acc, add_days_acc; simpl.
  replace (Z.quot (months d) 12 * 12 + Z.rem (months d) 12) with (months d)
    by (pose proof (Z.quot_rem' (months d) 12); lia).
  rewrite !as_i64_small by (widths; lia). done.
Qed.

Lemma field_alpha n u : is_ascii_alphabetic u = true → field n u ≠ [] →
  existsb is_ascii_alphabetic (field n u) = true.
Proof.
  intros Hu Hne. unfold field in *. destruct (n =? 0); [done|].
  rewrite existsb_app. simpl. rewrite Hu. apply orb_true_r.
Qed.

Lemma duration_date_text d :
  small (months d) → small (days d) →
  duration_date (date_text d) zero_duration = Ok (mkDuration (months d) (days d) 0 0).
Proof.
  intros Hm Hd. rewrite <- parse_date_text by done. unfold duration_date.
  case_decide as E; [by rewrite E|].
  assert (existsb is_ascii_alphabetic (date_text d) = true) as ->.
  { unfold date_text in *. rewrite !existsb_app, !orb_true_iff.
    destruct (decide (field (Z.quot (months d) 12) "Y"%byte = [])) as [E1|E1];
      [|left; by apply field_alpha].
    destruct (decide (field (Z.rem (months d) 12) "M"%byte = [])) as [E2|E2];
      [|right; left; by apply field_alpha].
    right; right. apply field_alpha; [done|]. intros E3. by rewrite E1, E2, E3 in E. }
  by rewrite andb_false_r.
Qed.

Lemma parse_seconds_text secs ns d :
  small secs → Z.abs ns < 1000000000 → (0 < secs → 0 ≤ ns) → (secs < 0 → ns ≤ 0) →
  in_range d → nanos d = 0 →
  parse_duration_time_part (seconds_text secs ns) d
    = Ok (add_nanos_acc (add_seconds_acc d secs) ns).
Proof.
  intros Hs Hn Hp Hm Hd Hz. unfold seconds_text. destruct (Z.eqb_spec ns 0) as [->|N0]; simpl.
  { rewrite add_nanos_acc_zero by by apply add_seconds_acc_in.
    unfold field. destruct (Z.eqb_spec secs 0) as [->|S0]; [by rewrite add_seconds_acc_zero|].
    rewrite time_part_signed by done. by rewrite time_unit_s_whole. }
  assert (∀ sg, (secs <? 0) || (secs =? 0) && (ns <? 0) = sg →
    (if sg : bool then "-"%byte :: dec (Z.abs secs) ++ "."%byte
        :: trim_end_byte "0"%byte (fmt_0 9 (Z.abs ns)) ++ ["S"%byte]
     else dec_signed secs ++ "."%byte :: trim_end_byte "0"%byte (fmt_0 9 (Z.abs ns)) ++ ["S"%byte])
    = (if sg then "-"%byte :: (dec (Z.abs secs) ++ "."%byte
        :: trim_end_byte "0"%byte (fmt_0 9 (Z.abs ns)))
       else dec (Z.abs secs) ++ "."%byte :: trim_end_byte "0"%byte (fmt_0 9 (Z.abs ns)))
      ++ "S"%byte :: []
    ∧ (if sg then - Z.abs secs else Z.abs secs) = secs
    ∧ (if sg then - Z.abs ns else Z.abs ns) = ns) as G.
  { intros sg Hsg. destruct sg.
    - split; [cbn [app]; by rewrite <- app_assoc|].
      destruct (Z.ltb_spec secs 0), (Z.eqb_spec secs 0), (Z.ltb_spec ns 0); try done; lia.
    - assert (0 ≤ secs ∧ 0 < ns) as [Hs0 Hn0].
      { destruct (Z.ltb_spec secs 0), (Z.eqb_spec secs 0), (Z.ltb_spec ns 0); try done; lia. }
      unfold dec_signed. destruct (Z.ltb_spec secs 0); [lia|].
      rewrite (Z.abs_eq secs), (Z.abs_eq ns) by lia. split; [by rewrite <- app_assoc|lia]. }
  destruct (G _ eq_refl) as (-> & Es & En). set (sg := _ || _) in *.
  destruct (dec_spec (Z.abs secs)) as [Hdg _]; [lia|].
  destruct (digits_head _ Hdg (dec_nonempty (Z.abs secs))) as (c & t & Ec & Hc).
  rewrite time_part_text.
  - assert ((if sg then "-"%byte :: dec (Z.abs secs) ++ "."%byte
        :: trim_end_byte "0"%byte (fmt_0 9 (Z.abs ns))
      else dec (Z.abs secs) ++ "."%byte :: trim_end_byte "0"%byte (fmt_0 9 (Z.abs ns)))
      = (if sg then "-"%byte :: dec (Z.abs secs) else dec (Z.abs secs))
        ++ "."%byte :: trim_end_byte "0"%byte (fmt_0 9 (Z.abs ns))) as -> by by destruct sg.
    rewrite time_unit_s_frac; [|unfold small in Hs; lia|unfold nanos_per_sec; lia].
    by rewrite Es, En.
  - apply Forall_app. split; [by apply num_bytes_digits|]. constructor; [done|].
    apply num_bytes_digits. destruct (fmt_0_spec 9 (Z.abs ns)) as (Hf & _); [lia|].
    destruct (trim_end_pieces "0"%byte (fmt_0 9 (Z.abs ns))) as [k E].
    rewrite E in Hf. by apply Forall_app in Hf as [Hf _].
  - done.
  - by rewrite Ec.
Qed.

Lemma parse_time_text ts ns d :
  small ts → Z.abs ns < 1000000000 → (0 < ts → 0 ≤ ns) → (ts < 0 → ns ≤ 0) →
  in_range d → seconds d = 0 → nanos d = 0 →
  parse_duration_time_part (time_text ts ns) d = Ok (mkDuration (months d) (days d) ts ns).
Proof.
  intros Hs Hn Hp Hm Hd Hsz Hnz. unfold time_text. pose proof (small_bound _ Hs).
  pose proof (Z.quot_rem' ts 3600) as E1. pose proof (Z.quot_rem' (Z.rem ts 3600) 60) as E2.
  assert (0 < Z.rem (Z.rem ts 3600) 60 → 0 < ts) as Hs1.
  { intros. destruct (Z.le_gt_cases ts 0); [|lia].
    pose proof (Z.rem_nonpos ts 3600 ltac:(done) ltac:(done)).
    pose proof (Z.rem_nonpos (Z.rem ts 3600) 60 ltac:(done) ltac:(done)). lia. }
  assert (Z.rem (Z.rem ts 3600) 60 < 0 → ts < 0) as Hs2.
  { intros. destruct (Z.le_gt_cases 0 ts); [|lia].
    pose proof (Z.rem_nonneg ts 3600 ltac:(done) ltac:(done)).
    pose proof (Z.rem_nonneg (Z.rem ts 3600) 60 ltac:(done) ltac:(done)). lia. }
  rewrite (time_field _ 3600); [|by left|by apply small_quot|done].
  rewrite (time_field _ 60); [|by right|apply small_quot; [by apply small_rem|done]|by apply add_seconds_acc_in].
  rewrite parse_seconds_text; [|by apply small_rem|done|tauto|tauto| |done].
  2:{ by apply add_seconds_acc_in, add_seconds_acc_in. }
  f_equal. unfold add_nanos_acc, add_seconds_acc; simpl. rewrite Hsz, Hnz.
  f_equal.
  - rewrite Z.add_0_l, as_i64_add_l, <- Z.add_assoc, as_i64_add_l.
    replace (Z.quot ts 3600 * 3600 + (Z.quot (Z.rem ts 3600) 60 * 60
      + Z.rem (Z.rem ts 3600) 60)) with ts by lia.
    apply as_i64_small. widths. lia.
  - rewrite Z.add_0_l. apply as_i64_small. widths. lia.
Qed.

Lemma date_text_no c d :
  is_digit c = false → c ≠ "-"%byte → c ≠ "Y"%byte → c ≠ "M"%byte → c ≠ "D"%byte →
  c ∉ date_text d.
Proof.
  intros Hc H1 H2 H3 H4. unfold date_text.
  apply not_elem_of_app; split; [by apply field_no|].
  apply not_elem_of_app; split; by apply field_no.
Qed.
Lemma seconds_text_no c secs ns :
  is_digit c = false → c ≠ "-"%byte → c ≠ "."%byte → c ≠ "S"%byte → c ∉ seconds_text secs ns.
Proof.
  intros Hc H1 H2 H3. unfold seconds_text.
  destruct (negb (ns =? 0)); [|by apply field_no].
  destruct (fmt_0_spec 9 (Z.abs ns)) as (Hf & _); [lia|].
  assert (c ∉ trim_end_byte "0"%byte (fmt_0 9 (Z.abs ns))) as Ht.
  { destruct (trim_end_pieces "0"%byte (fmt_0 9 (Z.abs ns))) as [k E].
    apply digits_no; [|done]. rewrite E in Hf. by apply Forall_app in Hf as [Hf _]. }
  assert (∀ n, 0 ≤ n → c ∉ dec n) as Hdec by (intros; apply digits_no; [by apply dec_spec|done]).
  assert (c ∉ dec (Z.abs secs)) by (apply Hdec; lia).
  assert (c ∉ dec_signed secs).
  { unfold dec_signed. destruct (Z.ltb_spec secs 0);
      [apply not_elem_of_cons; split; [done|]|]; apply Hdec; lia. }
  destruct (_ || _); set_solver.
Qed.
Lemma time_text_no c ts ns :
  is_digit c = false → c ≠ "-"%byte → c ≠ "."%byte → c ≠ "S"%byte → c ≠ "H"%byte →
  c ≠ "M"%byte → c ∉ time_text ts ns.
Proof.
  intros Hc H1 H2 H3 H4 H5. unfold time_text.
  apply not_elem_of_app; split; [by apply field_no|].
  apply not_elem_of_app; split; [by apply field_no|]. by apply seconds_text_no.
Qed.

Lemma duration_display_text d :
  duration_display d =
  let ts := (signed_pair d).1 in
  let ns := (signed_pair d).2 in
  let has_date := negb ((Z.quot (months d) 12 =? 0) && (Z.rem (months d) 12 =? 0) && (days d =? 0)) in
  let has_time := negb ((Z.quot ts 3600 =? 0) && (Z.quot (Z.rem ts 3600) 60 =? 0)
    && (Z.rem (Z.rem ts 3600) 60 =? 0) && (ns =? 0)) in
  if negb has_date && negb has_time then str_bytes "PT0S"
  else "P"%byte :: date_text d ++ (if has_time then "T"%byte :: time_text ts ns else []).
Proof.
  unfold duration_display. unfold signed_pair.
  destruct ((seconds d <? 0) && (0 <? nanos d)); [|destruct ((0 <? seconds d) && (nanos d <? 0))];
    cbn [fst snd]; (destruct (_ && _); [reflexivity|]);
    unfold date_text, time_text, seconds_text; fold (field (Z.quot (months d) 12) "Y"%byte);
    by rewrite <- !app_assoc.
Qed.

(** [Display] and [from_iso_string]: the same length, with seconds and
    nanoseconds of one sign. *)
Lemma duration_roundtrip d :
  small (months d) → small (days d) → small (seconds d) → Z.abs (nanos d) < 1000000000 →
  duration_from_iso_string (duration_display d) = Ok (signed_form d).
Proof.
  intros Hm Hd Hs Hn. destruct (signed_pair_signs d Hn) as (Hns & Hts & Hp & Hneg).
  rewrite duration_display_text. unfold signed_form. cbv zeta.
  set (ts := (signed_pair d).1) in *. set (ns := (signed_pair d).2) in *.
  assert (small ts) as Hsts by (unfold small in *; lia).
  pose proof (Z.quot_rem' (months d) 12) as Em. pose proof (Z.quot_rem' ts 3600) as E1.
  pose proof (Z.quot_rem' (Z.rem ts 3600) 60) as E2.
  destruct (negb _ && negb _) eqn:Hnone.
  { rewrite !negb_involutive, !andb_true_iff, !Z.eqb_eq in Hnone.
    destruct Hnone as [[[M1 M2] M3] [[[T1 T2] T3] T4]].
    rewrite M3, T4. replace (months d) with 0 by lia. replace ts with 0 by lia.
    vm_compute. reflexivity. }
  unfold duration_from_iso_string. change (starts_with "P"%byte ("P"%byte :: ?l)) with true.
  simpl negb. cbn [andb]. cbn [skipn drop].
  change (drop 1 ("P"%byte :: ?l)) with (drop 0 l). rewrite drop_0.
  assert (in_range (mkDuration (months d) (days d) 0 0)) as Ir.
  { pose proof (small_bound _ Hm). pose proof (small_bound _ Hd).
    unfold in_range; simpl; widths; lia. }
  destruct (negb ((Z.quot ts 3600 =? 0) && _ && _ && _)) eqn:Htime.
  - rewrite bytes_split_once_app by by apply date_text_no.
    assert (∀ o : option (bytes * bytes), Some (date_text d, time_text ts ns) ∪ o
      = Some (date_text d, time_text ts ns)) as -> by by destruct o.
    rewrite duration_date_text by done. simpl.
    rewrite decide_False.
    2:{ unfold time_text, seconds_text, field. intros E. revert Htime.
        destruct (Z.eqb_spec (Z.quot ts 3600) 0); [|by destruct (dec_signed _)].
        destruct (Z.eqb_spec (Z.quot (Z.rem ts 3600) 60) 0); [|by destruct (dec_signed _)].
        destruct (Z.eqb_spec ns 0); simpl in E.
        - destruct (Z.eqb_spec (Z.rem (Z.rem ts 3600) 60) 0); [done|by destruct (dec_signed _)].
        - destruct (_ || _); [done|by destruct (dec_signed _)]. }
    rewrite contains_false by by apply time_text_no.
    by rewrite parse_time_text.
  - rewrite app_nil_r.
    rewrite !bytes_split_once_none by by apply date_text_no.
    simpl. rewrite duration_date_text by done. simpl.
    rewrite negb_false_iff, !andb_true_iff, !Z.eqb_eq in Htime.
    destruct Htime as [[[T1 T2] T3] T4]. rewrite T4. do 2 f_equal. lia.
Qed.

(** ** From whole components *)
Definition component (map : Properties) (k : string) : Z := default 0 (get_i64 map k).
(** No component is a float. *)
Definition whole_components (map : Properties) : Prop :=
  ∀ k n, map !! k ≠ Some (Value.F64 n).

Definition map_months (map : Properties) : Z := component map "years" * 12 + component map "months".
Definition map_days (map : Properties) : Z := component map "weeks" * 7 + component map "days".
(** The units of time with their nanoseconds. *)
Definition time_units : list (string * Z) :=
  [("hours", 3600000000000); ("minutes", 60000000000); ("seconds", 1000000000);
   ("milliseconds", 1000000); ("microseconds", 1000); ("nanoseconds", 1)].
Definition map_nanos (map : Properties) : Z :=
  foldr (λ u acc, component map u.1 * u.2 + acc) 0 time_units.
(** The sum of the magnitudes: no rounding happens while it is small. *)
Definition map_span (map : Properties) : Z :=
  foldr (λ u acc, Z.abs (component map u.1) * u.2 + acc) 0 time_units.

Lemma get_component map k :
  whole_components map → small (component map k) →
  rep (default f64_zero (get_f64 map k)) (component map k).
Proof.
  intros Hw Hs. unfold get_f64, component, get_i64 in *.
  destruct (map !! k) as [v|] eqn:E; [|done].
  destruct v; [reflexivity|reflexivity|apply rep_of_int| |reflexivity..].
  exfalso. exact (Hw _ _ E).
Qed.

Lemma rep_mul_const x n k :
  rep x n → small n → small k → small (n * k) → rep (f64_mul x (f64_of_int k)) (n * k).
Proof. intros. apply f64_mul_rep; [done|apply rep_of_int|done..]. Qed.

Lemma duration_from_map_exact map :
  whole_components map →
  Z.abs (component map "years") * 12 + Z.abs (component map "months") < 2 ^ 53 →
  Z.abs (component map "weeks") * 7 + Z.abs (component map "days") < 2 ^ 53 →
  map_span map < 2 ^ 53 →
  duration_from_map map
    = Ok (mkDuration (map_months map) (map_days map)
            (Z.quot (map_nanos map) 1000000000) (Z.rem (map_nanos map) 1000000000)).
Proof.
  intros Hw Hm Hd Ht. unfold map_span, map_nanos, map_months, map_days in *. simpl in *.
  change (Z.pow_pos 2 53) with 9007199254740992 in *.
  assert (∀ k, Z.abs (component map k) < 9007199254740992 →
    rep (default f64_zero (get_f64 map k)) (component map k)) as G
    by (intros; by apply get_component).
  pose proof (G "years" ltac:(lia)) as Ry. pose proof (G "months" ltac:(lia)) as Rmo.
  pose proof (G "weeks" ltac:(lia)) as Rw. pose proof (G "days" ltac:(lia)) as Rd.
  pose proof (G "hours" ltac:(lia)) as Rh. pose proof (G "minutes" ltac:(lia)) as Rmi.
  pose proof (G "seconds" ltac:(lia)) as Rs. pose proof (G "milliseconds" ltac:(lia)) as Rml.
  pose proof (G "microseconds" ltac:(lia)) as Rmc. pose proof (G "nanoseconds" ltac:(lia)) as Rn.
  clear G. unfold duration_from_map. cbv zeta.
  set (y := component map "years") in *. set (mo := component map "months") in *.
  set (w := component map "weeks") in *. set (dd := component map "days") in *.
  set (h := component map "hours") in *. set (mi := component map "minutes") in *.
  set (s := component map "seconds") in *. set (ml := component map "milliseconds") in *.
  set (mc := component map "microseconds") in *. set (n := component map "nanoseconds") in *.
  clearbody y mo w dd h mi s ml mc n.
  assert (∀ z, Z.abs z < 9007199254740992 → small z) as Sm by done.
  assert (rep (f64_add (f64_mul (default f64_zero (get_f64 map "years")) (f64_of_int 12))
    (default f64_zero (get_f64 map "months"))) (y * 12 + mo)) as Rmonths.
  { apply f64_add_rep; try (apply Sm; lia); [|done].
    apply rep_mul_const; try (apply Sm; lia); done. }
  set (months_f := f64_add (f64_mul (default f64_zero (get_f64 map "years")) _) _) in *.
  pose proof (frac_zero _ _ Rmonths ltac:(apply Sm; lia)) as Fm.
  rewrite (int_value _ _ Rmonths) by (apply Sm; lia).
  assert (is_zero (f64_mul (frac months_f) days_per_month) = true) as Fz.
  { by destruct (frac months_f). }
  set (fz := f64_mul (frac months_f) days_per_month) in *.
  assert (rep (f64_add (f64_add (f64_mul (default f64_zero (get_f64 map "weeks")) (f64_of_int 7))
    (default f64_zero (get_f64 map "days"))) fz) (w * 7 + dd)) as Rdays.
  { replace (w * 7 + dd) with (w * 7 + dd + 0) by lia.
    apply f64_add_rep; try (apply Sm; lia); [|done].
    apply f64_add_rep; try (apply Sm; lia); [|done].
    apply rep_mul_const; try (apply Sm; lia); done. }
  set (days_f := f64_add (f64_add (f64_mul (default f64_zero (get_f64 map "weeks")) _) _) _) in *.
  pose proof (frac_zero _ _ Rdays ltac:(apply Sm; lia)) as Fd.
  rewrite (int_value _ _ Rdays) by (apply Sm; lia).
  assert (is_zero (f64_mul (frac days_f) (f64_of_int 24)) = true) as Fz'
    by by apply mul_zero_rep.
  match goal with |- context [f64_round ?x] =>
    assert (rep x (h * 3600000000000 + (mi * 60000000000 + (s * 1000000000 + (ml * 1000000
      + (mc * 1000 + (n * 1 + 0))))))) as R end.
  { replace (h * 3600000000000 + (mi * 60000000000 + (s * 1000000000 + (ml * 1000000
      + (mc * 1000 + (n * 1 + 0)))))) with ((h + 0) * 3600000000000 + mi * 60000000000
      + s * 1000000000 + ml * 1000000 + mc * 1000 + n) by lia.
    repeat first
      [ assumption
      | apply rep_mul_const; [|apply Sm; lia..]
      | apply f64_add_rep; [| |apply Sm; lia..] ]. }
  rewrite (f64_as_i64_rep _ _ (f64_round_rep _ _ R ltac:(apply Sm; lia)) ltac:(apply Sm; lia)).
  set (N := h * 3600000000000 + _).
  pose proof (Z.quot_rem' N 1000000000) as EN.
  destruct (Z.le_gt_cases 0 N) as [HN|HN].
  - pose proof (Z.rem_nonneg N 1000000000 ltac:(done) HN).
    pose proof (Z.quot_pos N 1000000000 HN ltac:(done)).
    destruct (Z.ltb_spec (Z.rem N 1000000000) 0); [lia|]. rewrite andb_false_r.
    by destruct (Z.ltb_spec (Z.quot N 1000000000) 0); [lia|].
  - pose proof (Z.rem_nonpos N 1000000000 ltac:(done) ltac:(lia)).
    assert (Z.quot N 1000000000 ≤ 0).
    { rewrite <- (Z.opp_involutive N), Z.quot_opp_l by done.
      pose proof (Z.quot_pos (- N) 1000000000 ltac:(lia) ltac:(done)). lia. }
    destruct (Z.ltb_spec 0 (Z.quot N 1000000000)); [lia|].
    destruct (Z.ltb_spec 0 (Z.rem N 1000000000)); [lia|]. by rewrite andb_false_r.
Qed.
