(* ===== verification/DurationSpec.v ===== *)
(** * The arithmetic of months and differences

    The month arithmetic of Durations.v is that of the calendar; a difference
    counts as many whole months as fit, and a value moved by its difference to
    another is that other. *)
From S2P Require Export TemporalSpec Durations.
#[local] Open Scope Z_scope.

(** ** Counting months *)
Lemma month_index_range d :
  valid_date d → min_year * 12 ≤ month_index d ≤ max_year * 12 + 11.
Proof.
  intros (Hy & Hm & _). unfold month_index, min_year, max_year in *. lia.
Qed.
Lemma month_index_year d : 1 ≤ month d ≤ 12 → month_index d / 12 = year d.
Proof. unfold month_index. div_lia. Qed.
Lemma month_index_month d : 1 ≤ month d ≤ 12 → month_index d `mod` 12 + 1 = month d.
Proof. unfold month_index. div_lia. Qed.

Lemma add_months_index d n : month_index (add_months_to d n) = month_index d + n.
Proof. unfold add_months_to, month_index at 1; simpl. div_lia. Qed.
Lemma add_months_month d n : 1 ≤ month (add_months_to d n) ≤ 12.
Proof. unfold add_months_to; simpl. div_lia. Qed.
Lemma add_months_valid d n :
  valid_date d → min_year * 12 ≤ month_index d + n ≤ max_year * 12 + 11 →
  valid_date (add_months_to d n).
Proof.
  intros (_ & Hm & Hd) Hk. unfold valid_date, valid_ymd. pose proof (add_months_month d n).
  split_and!; try tauto; unfold add_months_to; simpl.
  - unfold min_year, max_year in *. div_lia.
  - unfold min_year, max_year in *. div_lia.
  - pose proof (month_len_range ((month_index d + n) / 12) ((month_index d + n) `mod` 12 + 1)).
    lia.
  - lia.
Qed.
Lemma add_months_0 d : valid_date d → add_months_to d 0 = d.
Proof.
  intros (_ & Hm & Hd). unfold add_months_to. rewrite Z.add_0_r.
  rewrite month_index_year, month_index_month by done.
  rewrite Z.min_l by lia. by destruct d.
Qed.

(** A date of a later month is later. *)
Lemma month_index_lt a b :
  valid_date a → valid_date b → month_index a < month_index b → day_number a < day_number b.
Proof.
  intros Ha Hb Hi. apply day_number_lt; [done..|].
  destruct Ha as (_ & Hm & _), Hb as (_ & Hn & _). unfold month_index, ymd_lt in *. lia.
Qed.

Section months.
Context {Ch : Chrono} {Laws : ChronoLaws}.

Lemma days_in_month_len y m :
  min_year ≤ y < max_year → 1 ≤ m ≤ 12 → days_in_month y m = Ok (month_len y m).
Proof.
  intros Hy Hm. unfold days_in_month. unfold min_year, max_year in Hy.
  pose proof (month_len_range y m) as Hl. pose proof (days_before_next_month y m Hm) as E.
  assert (valid_ymd y m 1) as V1 by (unfold valid_ymd, min_year, max_year; lia).
  assert (∃ d, (if m =? 12 then from_ymd_opt (as_i32 (y + 1)) 1 1
    else from_ymd_opt y (as_u32 (m + 1)) 1) = Some d ∧ valid_date d
    ∧ day_number d = days_before_year y + days_before_month y m + month_len y m + 1)
    as (d & -> & V & En).
  { destruct (Z.eqb_spec m 12) as [->|Hn].
    - rewrite as_i32_small by (widths; lia). rewrite law_from_ymd, decide_True.
      2:{ pose proof (month_len_range (y + 1) 1). unfold valid_ymd, min_year, max_year. lia. }
      eexists. split; [done|].
      pose proof (month_len_range (y + 1) 1). split.
      { unfold valid_date, valid_ymd, min_year, max_year; simpl. lia. }
      unfold day_number. cbn [year month day]. rewrite days_before_next_year.
      rewrite days_before_month_1. lia.
    - rewrite as_u32_small by (widths; lia). rewrite law_from_ymd, decide_True.
      2:{ pose proof (month_len_range y (m + 1)). unfold valid_ymd, min_year, max_year. lia. }
      eexists. split; [done|]. pose proof (month_len_range y (m + 1)). split.
      { unfold valid_date, valid_ymd, min_year, max_year; simpl. lia. }
      unfold day_number. cbn [year month day]. lia. }
  simpl. rewrite law_from_ymd, decide_True by done. simpl.
  rewrite law_num_days by done. rewrite En. unfold day_number. simpl.
  f_equal. rewrite as_u32_small by (widths; lia). lia.
Qed.

(** Dates chrono can say the next month of. *)
Definition inner_date (d : NaiveDate) : Prop := valid_date d ∧ year d < max_year.

Lemma add_months_to_date_ok d n :
  valid_date d → min_year * 12 ≤ month_index d + n < max_year * 12 →
  add_months_to_date d n = Ok (add_months_to d n).
Proof.
  intros Hd Hk. unfold add_months_to_date.
  replace (year d * 12 + (month d - 1) + n) with (month_index d + n) by (unfold month_index; lia).
  pose proof (add_months_valid d n Hd ltac:(lia)) as V.
  set (k := month_index d + n) in *.
  assert (min_year ≤ k / 12 < max_year) as Hy by (unfold min_year, max_year in *; div_lia).
  assert (1 ≤ k `mod` 12 + 1 ≤ 12) as Hm by div_lia.
  unfold min_year, max_year in *.
  rewrite as_i64_small by (widths; lia). rewrite as_i32_small by (widths; lia).
  rewrite as_u32_small by (widths; lia).
  rewrite days_in_month_len by (unfold min_year, max_year; lia). simpl.
  rewrite law_from_ymd, decide_True; [done|]. exact V.
Qed.

Lemma inner_index d : inner_date d → min_year * 12 ≤ month_index d < max_year * 12.
Proof.
  intros ((Hy & Hm & _) & Hl). unfold month_index, min_year, max_year in *. lia.
Qed.

(** How far [d2] is from [d1] in whole months, as [month_diff] counts. *)
Definition whole_months (d1 d2 : NaiveDate) : Z :=
  let n := month_index d2 - month_index d1 in
  let a := add_months_to d1 n in
  if (0 <? n) && bool_decide (day_number d2 < day_number a) then n - 1
  else if (n <? 0) && bool_decide (day_number a < day_number d2) then n + 1 else n.

Lemma month_diff_whole d1 d2 :
  inner_date d1 → inner_date d2 → month_diff d1 d2 = Ok (whole_months d1 d2).
Proof.
  intros H1 H2. pose proof (inner_index d1 H1). pose proof (inner_index d2 H2).
  destruct H1 as [V1 _], H2 as [V2 _]. unfold month_diff, whole_months.
  assert ((year d2 - year d1) * 12 + month d2 - month d1 = month_index d2 - month_index d1) as ->
    by (unfold month_index; lia).
  rewrite as_i64_small by (widths; unfold min_year, max_year in *; lia).
  rewrite add_months_to_date_ok by (done || lia). simpl.
  assert (valid_date (add_months_to d1 (month_index d2 - month_index d1))) as Va
    by (apply add_months_valid; [done|lia]).
  by rewrite !law_date_ltb by done.
Qed.

Lemma whole_months_between d1 d2 :
  let n := month_index d2 - month_index d1 in
  (0 ≤ n → 0 ≤ whole_months d1 d2 ≤ n) ∧ (n ≤ 0 → n ≤ whole_months d1 d2 ≤ 0).
Proof.
  intros n. unfold whole_months. fold n.
  destruct (Z.ltb_spec 0 n), (Z.ltb_spec n 0); simpl; try lia; case_bool_decide; lia.
Qed.

(** Not past the target, and one month more is. *)
Lemma whole_months_fits d1 d2 :
  inner_date d1 → inner_date d2 → day_number d1 ≤ day_number d2 →
  0 ≤ whole_months d1 d2
  ∧ day_number (add_months_to d1 (whole_months d1 d2)) ≤ day_number d2
    < day_number (add_months_to d1 (whole_months d1 d2 + 1)).
Proof.
  intros H1 H2 Hle. pose proof (inner_index d1 H1). pose proof (inner_index d2 H2).
  destruct H1 as [V1 _], H2 as [V2 _].
  assert (0 ≤ month_index d2 - month_index d1) as Hn.
  { destruct (Z.le_gt_cases (month_index d1) (month_index d2)); [lia|].
    pose proof (month_index_lt d2 d1 V2 V1 ltac:(lia)). lia. }
  assert (∀ k, 0 ≤ k ≤ month_index d2 - month_index d1 + 1 → valid_date (add_months_to d1 k)) as Va.
  { intros k Hk. apply add_months_valid; [done|]. unfold min_year, max_year in *. lia. }
  unfold whole_months. set (n := month_index d2 - month_index d1) in *.
  pose proof (Va n ltac:(lia)) as Vn. pose proof (Va (n + 1) ltac:(lia)) as Vn1.
  assert (day_number d2 < day_number (add_months_to d1 (n + 1))) as Hnext.
  { apply month_index_lt; [done..|]. rewrite add_months_index. lia. }
  destruct (Z.ltb_spec 0 n) as [L|L]; simpl.
  - case_bool_decide as C.
    + pose proof (Va (n - 1) ltac:(lia)) as Vp. split; [lia|]. split.
      * apply Z.lt_le_incl, month_index_lt; [done..|]. rewrite add_months_index. lia.
      * by replace (n - 1 + 1) with n by lia.
    + destruct (Z.ltb_spec n 0); [lia|]. simpl. lia.
  - destruct (Z.ltb_spec n 0); [lia|]. simpl. assert (n = 0) as E by lia. rewrite E in *.
    rewrite add_months_0 in * by done. lia.
Qed.

(** The mirror image, for an earlier target. *)
Lemma whole_months_fits_back d1 d2 :
  inner_date d1 → inner_date d2 → min_year < year d2 → day_number d2 ≤ day_number d1 →
  whole_months d1 d2 ≤ 0
  ∧ day_number (add_months_to d1 (whole_months d1 d2 - 1)) < day_number d2
    ≤ day_number (add_months_to d1 (whole_months d1 d2)).
Proof.
  intros H1 H2 Hmin Hle. pose proof (inner_index d1 H1). pose proof (inner_index d2 H2).
  destruct H1 as [V1 _], H2 as [V2 _].
  assert (min_year * 12 < month_index d2) as Hi2.
  { destruct V2 as (_ & Hm & _). unfold month_index, min_year in *. lia. }
  assert (month_index d2 - month_index d1 ≤ 0) as Hn.
  { destruct (Z.le_gt_cases (month_index d2) (month_index d1)); [lia|].
    pose proof (month_index_lt d1 d2 V1 V2 ltac:(lia)). lia. }
  assert (∀ k, month_index d2 - month_index d1 - 1 ≤ k ≤ 0 → valid_date (add_months_to d1 k)) as Va.
  { intros k Hk. apply add_months_valid; [done|]. unfold min_year, max_year in *. lia. }
  unfold whole_months. set (n := month_index d2 - month_index d1) in *.
  pose proof (Va n ltac:(lia)) as Vn. pose proof (Va (n - 1) ltac:(lia)) as Vn1.
  assert (day_number (add_months_to d1 (n - 1)) < day_number d2) as Hnext.
  { apply month_index_lt; [done..|]. rewrite add_months_index. lia. }
  destruct (Z.ltb_spec 0 n) as [L|L]; simpl; [lia|].
  destruct (Z.ltb_spec n 0) as [L'|L']; simpl.
  - case_bool_decide as C.
    + pose proof (Va (n + 1) ltac:(lia)) as Vp. split; [lia|]. split.
      * by replace (n + 1 - 1) with n by lia.
      * apply Z.lt_le_incl, month_index_lt; [done..|]. rewrite add_months_index. lia.
    + lia.
  - assert (n = 0) as E by lia. rewrite E in *. rewrite add_months_0 in * by done. lia.
Qed.
End months.

(** * A value moved by its difference to another is that other

    [duration.between] of Durations.v against the addition there,
    both as the code has them, on dates, local date-times and date-times. *)

(** ** Steps that stay in range *)
Lemma day_bounds : -100000000 ≤ min_day ∧ max_day ≤ 100000000.
Proof. split; vm_compute; discriminate. Qed.

(** A year away from both ends. *)
Definition safe_date (d : NaiveDate) : Prop := inner_date d ∧ min_year < year d.

Lemma safe_date_days d : safe_date d → min_day + 365 ≤ day_number d ≤ max_day - 365.
Proof.
  intros (((Hy & Hm & Hd) & Hmax) & Hmin). rewrite min_day_eq, max_day_eq.
  pose proof (day_of_year_range _ _ _ Hm Hd).
  pose proof (days_before_year_mono (min_year + 1) (year d) ltac:(lia)) as G1.
  pose proof (days_before_year_mono (year d + 1) max_year ltac:(lia)) as G2.
  rewrite days_before_next_year in G1, G2. rewrite days_before_next_year.
  unfold day_number.
  assert (365 ≤ year_len min_year ∧ 365 ≤ year_len max_year) by (vm_compute; split; discriminate).
  lia.
Qed.

Section steps.
Context {Ch : Chrono} {Laws : ChronoLaws}.

Lemma date_plus_ok d n :
  valid_date d → min_day ≤ day_number d + n ≤ max_day →
  ∃ d', date_plus d (n * nanos_per_day) = Ok d' ∧ valid_date d'
    ∧ day_number d' = day_number d + n.
Proof.
  intros Hd Hn. exists (civil (day_number d + n)).
  destruct (civil_spec (day_number d + n)) as [E _].
  assert (valid_date (civil (day_number d + n))) as V by by apply civil_valid.
  unfold date_plus.
  assert (date_checked_add_signed d (n * nanos_per_day) = Some (civil (day_number d + n))) as ->;
    [|done].
  apply law_date_add; [done|]. split; [done|].
  by rewrite Z.quot_mul by done.
Qed.

Lemma datetime_plus_ok dt delta :
  valid_datetime dt → leap_free (dt_time dt) →
  min_day * nanos_per_day ≤ local_nanos dt + delta < (max_day + 1) * nanos_per_day →
  ∃ dt', datetime_plus dt delta = Ok dt' ∧ valid_datetime dt' ∧ leap_free (dt_time dt')
    ∧ local_nanos dt' = local_nanos dt + delta.
Proof.
  intros Hd Hl Hn. set (n := local_nanos dt + delta) in *.
  assert (min_day ≤ n / nanos_per_day ≤ max_day) as Hq by (unfold nanos_per_day in *; div_lia).
  assert (∃ dt', Gregorian.datetime_of n = Some dt') as [dt' E].
  { unfold Gregorian.datetime_of, Gregorian.date_of.
    rewrite decide_True by by apply civil_valid. by eexists. }
  apply Gregorian.datetime_of_spec in E as (V & L & E). exists dt'.
  unfold datetime_plus.
  assert (datetime_checked_add_signed dt delta = Some dt') as ->; [|done].
  by apply law_datetime_add.
Qed.

Lemma delta_days_ok n : Z.abs n ≤ 1000000000 → delta_days n = Some (n * nanos_per_day).
Proof.
  intros Hn. rewrite law_delta_days, decide_True; [done|].
  change (i64_max / 86400000) with 106751991167. lia.
Qed.
Lemma delta_seconds_ok n : Z.abs n ≤ 1000000000000 → delta_seconds n = Some (n * nanos_per_sec).
Proof.
  intros Hn. rewrite law_delta_seconds, decide_True; [done|].
  change (i64_max / 1000) with 9223372036854775. lia.
Qed.

Lemma shift_months_ok d n :
  valid_date d → Z.abs n ≤ i32_max → valid_date (add_months_to d n) →
  shift_months d n = Ok (add_months_to d n).
Proof.
  intros Hd Hn Hv. unfold shift_months.
  destruct (Z.eqb_spec n 0) as [->|N0]; [by rewrite add_months_0|].
  unfold months_abs_to_u32. destruct (Z.ltb_spec i32_max (Z.abs n)); [lia|]. simpl.
  destruct (Z.ltb_spec 0 n).
  - rewrite law_add_months by (done || lia). rewrite Z.abs_eq by lia. by rewrite decide_True.
  - rewrite law_sub_months by (done || lia). rewrite Z.abs_neq by lia.
    rewrite Z.opp_involutive. by rewrite decide_True.
Qed.
End steps.

(** ** Values on a time line *)

(** The instant of a value with a date: local nanoseconds less the offset. *)
Definition instant (v : value) : Z :=
  match v with
  | Value.Date d => day_number d * nanos_per_day
  | Value.LocalDateTime dt => local_nanos dt
  | Value.DateTime dt off _ => local_nanos dt - local_minus_utc off * nanos_per_sec
  | _ => 0
  end.

Definition safe_datetime (dt : NaiveDateTime) : Prop :=
  safe_date (dt_date dt) ∧ valid_time (dt_time dt) ∧ leap_free (dt_time dt).

(** Two values of one kind with safe dates. *)
Definition comparable (a b : value) : Prop :=
  match a, b with
  | Value.Date d, Value.Date e => safe_date d ∧ safe_date e
  | Value.LocalDateTime d, Value.LocalDateTime e => safe_datetime d ∧ safe_datetime e
  | Value.DateTime d o _, Value.DateTime e p _ =>
      safe_datetime d ∧ safe_datetime e ∧ valid_offset o ∧ valid_offset p
  | _, _ => False
  end.

(** The same value but for its local date and time. *)
Definition same_zone (a b : value) : Prop :=
  match a, b with
  | Value.Date _, Value.Date _ => True
  | Value.LocalDateTime _, Value.LocalDateTime _ => True
  | Value.DateTime _ o z, Value.DateTime _ p w => o = p ∧ z = w
  | _, _ => False
  end.

Definition date_part (v : value) : NaiveDate := default (mkDate 1 1 1) (extract_date v).
(** The time of day less the offset. *)
Definition clock (v : value) : Z := instant v - day_number (date_part v) * nanos_per_day.

Section between.
Context {Ch : Chrono} {Laws : ChronoLaws}.

Lemma clock_date d : clock (Value.Date d) = 0.
Proof. unfold clock, date_part; simpl. lia. Qed.
Lemma clock_local dt : clock (Value.LocalDateTime dt) = time_nanos (dt_time dt).
Proof. unfold clock, date_part, local_nanos; simpl. unfold local_nanos. lia. Qed.
Lemma clock_zoned dt off tz :
  clock (Value.DateTime dt off tz)
    = time_nanos (dt_time dt) - local_minus_utc off * nanos_per_sec.
Proof. unfold clock, date_part, local_nanos; simpl. unfold local_nanos. lia. Qed.

Lemma clock_bound t o :
  valid_time t → leap_free t → Z.abs o < 86400 →
  Z.abs (time_nanos t - o * nanos_per_sec) < 2 * nanos_per_day.
Proof.
  intros Ht Hl Ho. pose proof (Gregorian.time_nanos_range t Ht Hl).
  unfold nanos_per_sec, nanos_per_day in *. lia.
Qed.

Lemma comparable_parts a b :
  comparable a b →
  extract_date a = Some (date_part a) ∧ extract_date b = Some (date_part b)
  ∧ safe_date (date_part a) ∧ safe_date (date_part b)
  ∧ is_time_only a = false ∧ is_time_only b = false ∧ has_date a = true ∧ has_date b = true
  ∧ Z.abs (clock a) < 2 * nanos_per_day ∧ Z.abs (clock b) < 2 * nanos_per_day.
Proof.
  destruct a, b; cbn [comparable]; try done; rewrite ?clock_date, ?clock_local, ?clock_zoned.
  - intros [Ha Hb]. split_and!; done.
  - intros [(Ha & Ta & La) (Hb & Tb & Lb)].
    pose proof (clock_bound _ 0 Ta La ltac:(lia)). pose proof (clock_bound _ 0 Tb Lb ltac:(lia)).
    split_and!; try done; lia.
  - intros ((Ha & Ta & La) & (Hb & Tb & Lb) & Oa & Ob). unfold valid_offset in *.
    split_and!; try done; apply clock_bound; (done || lia).
Qed.

Lemma time_to_nanos_ok t : valid_time t → leap_free t → time_to_nanos t = time_nanos t.
Proof.
  intros Ht Hl. pose proof (Gregorian.time_nanos_range t Ht Hl).
  unfold time_to_nanos. apply as_i64_small. unfold time_nanos, nanos_per_sec, nanos_per_day in *.
  widths. lia.
Qed.

Lemma midnight_ok : midnight = Some (mkTime 0 0).
Proof. unfold midnight, from_hms_opt. rewrite law_from_hms. by rewrite decide_True. Qed.

Lemma effective_nanos_ok a b :
  comparable a b → effective_nanos a b = Ok (clock a).
Proof.
  intros H. pose proof (comparable_parts a b H) as (_ & _ & _ & _ & _ & _ & _ & _ & Hc & _).
  revert H Hc. unfold effective_nanos.
  destruct a, b; cbn [comparable]; try done; rewrite ?clock_date, ?clock_local, ?clock_zoned.
  - intros _ _. simpl. rewrite midnight_ok. done.
  - intros [(_ & Ta & La) _] Hc. unfold effective_offset_dst. simpl.
    rewrite time_to_nanos_ok by done. rewrite as_i64_small; [f_equal; lia|].
    widths. unfold nanos_per_day in *. lia.
  - intros ((_ & Ta & La) & _) Hc. unfold effective_offset_dst. simpl.
    rewrite time_to_nanos_ok by done. rewrite as_i64_small; [done|].
    widths. unfold nanos_per_day, nanos_per_sec in *. lia.
Qed.

Lemma comparable_sym a b : comparable a b → comparable b a.
Proof. destruct a, b; simpl; tauto. Qed.

(** A day is borrowed when days and clock disagree in sign. *)
Definition borrow (dd td : Z) : Z * Z :=
  if (0 <? dd) && (td <? 0) then (dd - 1, td + nanos_per_day)
  else if (dd <? 0) && (0 <? td) then (dd + 1, td - nanos_per_day) else (dd, td).

Lemma borrow_total dd td :
  (borrow dd td).1 * nanos_per_day + (borrow dd td).2 = dd * nanos_per_day + td
  ∧ Z.min dd 0 ≤ (borrow dd td).1 ≤ Z.max dd 0
  ∧ Z.abs (borrow dd td).2 ≤ Z.abs td + nanos_per_day.
Proof.
  unfold borrow, nanos_per_day.
  destruct (Z.ltb_spec 0 dd), (Z.ltb_spec td 0), (Z.ltb_spec dd 0), (Z.ltb_spec 0 td);
    cbn [andb fst snd]; lia.
Qed.

(** The advanced date and the rest. *)
Definition advanced (a b : value) : NaiveDate :=
  add_months_to (date_part a) (whole_months (date_part a) (date_part b)).
Definition rest (a b : value) : Z * Z :=
  borrow (day_number (date_part b) - day_number (advanced a b)) (clock b - clock a).

Lemma advanced_safe a b : comparable a b → safe_date (advanced a b).
Proof.
  intros H. destruct (comparable_parts a b H) as (_ & _ & [Ia Ma] & [Ib Mb] & _).
  pose proof (inner_index _ Ia). pose proof (inner_index _ Ib).
  pose proof (whole_months_between (date_part a) (date_part b)) as [W1 W2].
  unfold advanced. set (n := whole_months _ _) in *.
  assert (Z.min (month_index (date_part a)) (month_index (date_part b))
    ≤ month_index (date_part a) + n
    ≤ Z.max (month_index (date_part a)) (month_index (date_part b))) as Hr by lia.
  assert (min_year * 12 + 12 ≤ month_index (date_part a)
    ∧ min_year * 12 + 12 ≤ month_index (date_part b)) as [Ga Gb].
  { destruct Ia as ((_ & Hma & _) & _), Ib as ((_ & Hmb & _) & _).
    unfold month_index, min_year in *. lia. }
  destruct Ia as [Va _]. unfold safe_date, inner_date.
  split_and!.
  - apply add_months_valid; [done|]. unfold min_year, max_year in *. lia.
  - unfold add_months_to; simpl. unfold min_year, max_year in *. div_lia.
  - unfold add_months_to; simpl. unfold min_year, max_year in *. div_lia.
Qed.

Lemma duration_between_ok a b :
  comparable a b →
  duration_between a b
    = Ok (split_nanos (whole_months (date_part a) (date_part b)) (rest a b).1 (rest a b).2).
Proof.
  intros H. pose proof (comparable_parts a b H) as
    (Ea & Eb & [Ia Ma] & [Ib Mb] & Ta & Tb & Da & Db & Ca & Cb).
  pose proof (advanced_safe a b H) as [[Vadv _] _].
  unfold duration_between. rewrite Ea, Eb, Ta, Tb. simpl.
  rewrite month_diff_whole by done. simpl.
  pose proof (inner_index _ Ia). pose proof (inner_index _ Ib).
  pose proof (whole_months_between (date_part a) (date_part b)) as [W1 W2].
  rewrite add_months_to_date_ok; [|by destruct Ia|lia].
  simpl. fold (advanced a b). rewrite (effective_nanos_ok a b H). simpl.
  rewrite (effective_nanos_ok b a (comparable_sym a b H)). simpl.
  destruct Ib as [Vb _]. rewrite law_num_days by done.
  rewrite as_i64_small by (widths; unfold nanos_per_day in *; lia).
  unfold rest, borrow. change nanos_per_day with day_nanos in *.
  set (dd := day_number (date_part b) - day_number (advanced a b)).
  set (td := clock b - clock a).
  assert (Z.abs td < 4 * day_nanos) as Htd by (subst td; lia).
  unfold day_nanos in *.
  destruct ((0 <? dd) && (td <? 0)).
  { cbn [fst snd]. by rewrite as_i64_small by (widths; lia). }
  destruct ((dd <? 0) && (0 <? td)); cbn [fst snd]; [|done].
  by rewrite as_i64_small by (widths; lia).
Qed.

Lemma instant_clock v : instant v = day_number (date_part v) * nanos_per_day + clock v.
Proof. unfold clock. lia. Qed.

(** The months of a difference bring the date to [advanced], its days to within
    a day of the target. *)
Lemma between_date_steps a b :
  comparable a b →
  shift_months (date_part a) (whole_months (date_part a) (date_part b)) = Ok (advanced a b)
  ∧ delta_days (rest a b).1 = Some ((rest a b).1 * nanos_per_day)
  ∧ ∃ d', date_plus (advanced a b) ((rest a b).1 * nanos_per_day) = Ok d' ∧ valid_date d'
      ∧ day_number d' = day_number (advanced a b) + (rest a b).1
      ∧ min_day + 365 ≤ day_number d' ≤ max_day - 365.
Proof.
  intros H. pose proof (comparable_parts a b H) as (_ & _ & Sa & Sb & _).
  pose proof (advanced_safe a b H) as Sadv.
  pose proof (safe_date_days _ Sb). pose proof (safe_date_days _ Sadv).
  pose proof day_bounds.
  pose proof (borrow_total (day_number (date_part b) - day_number (advanced a b))
    (clock b - clock a)) as (_ & Hr & _). fold (rest a b) in Hr.
  destruct Sa as [[Va La] Ma]. destruct Sadv as [[Vadv Ladv] Madv].
  pose proof (whole_months_between (date_part a) (date_part b)) as [W1 W2].
  pose proof (inner_index (date_part a) ltac:(by split)).
  destruct Sb as [Ib _]. pose proof (inner_index (date_part b) Ib).
  split_and!.
  - apply shift_months_ok; [done| |done]. unfold min_year, max_year in *. widths. lia.
  - apply delta_days_ok. lia.
  - destruct (date_plus_ok (advanced a b) (rest a b).1) as (d' & E & V & N); [done|lia|].
    exists d'. split_and!; try done; lia.
Qed.

Lemma add_between_datetime a b dt :
  comparable a b → dt_date dt = date_part a → valid_time (dt_time dt) → leap_free (dt_time dt) →
  ∃ dt', add_to_datetime dt (split_nanos (whole_months (date_part a) (date_part b))
      (rest a b).1 (rest a b).2) = Ok dt'
    ∧ valid_datetime dt' ∧ leap_free (dt_time dt')
    ∧ local_nanos dt' = time_nanos (dt_time dt) - clock a + instant b.
Proof.
  intros H Ed Ht Hl.
  pose proof (comparable_parts a b H) as (_ & _ & _ & _ & _ & _ & _ & _ & Ca & Cb).
  destruct (between_date_steps a b H) as (E1 & E2 & d' & E3 & V & N & Hd').
  pose proof (borrow_total (day_number (date_part b) - day_number (advanced a b))
    (clock b - clock a)) as (Htot & _ & Hr2). fold (rest a b) in Htot, Hr2.
  pose proof (Gregorian.time_nanos_range _ Ht Hl) as Ht'.
  rewrite instant_clock.
  unfold add_to_datetime, split_nanos. cbn [Types.months Types.days Types.seconds Types.nanos].
  rewrite Ed, E1. simpl. rewrite E2. simpl. rewrite E3. simpl.
  set (r1 := (rest a b).1) in *. set (r2 := (rest a b).2) in *.
  assert (Z.abs r2 < 6 * nanos_per_day) as Hr2' by lia.
  rewrite delta_seconds_ok by (unfold nanos_per_day in *; div_lia). simpl.
  destruct (datetime_plus_ok (mkDateTime d' (dt_time dt)) (r2 / 1000000000 * nanos_per_sec))
    as (dt1 & E4 & V1 & L1 & N1); [done|done| |].
  { unfold local_nanos; simpl. unfold nanos_per_sec, nanos_per_day in *. div_lia. }
  rewrite E4. simpl. unfold local_nanos in N1 at 2; simpl in N1.
  destruct (datetime_plus_ok dt1 (r2 `mod` 1000000000)) as (dt2 & E5 & V2 & L2 & N2); [done|done| |].
  { rewrite N1. unfold nanos_per_sec, nanos_per_day in *. div_lia. }
  exists dt2. rewrite E5. split_and!; try done. rewrite N2, N1, N.
  assert (r2 / 1000000000 * nanos_per_sec + r2 `mod` 1000000000 = r2)
    by (unfold nanos_per_sec; div_lia). lia.
Qed.

Lemma date_plus_zero d : valid_date d → date_plus d 0 = Ok d.
Proof.
  intros Hd. pose proof (valid_day_number d Hd).
  destruct (date_plus_ok d 0) as (d' & E & V & N); [done|lia|].
  rewrite Z.mul_0_l in E. rewrite E. f_equal. apply day_number_inj; [done..|lia].
Qed.

Lemma add_between_date a b d :
  comparable a b → a = Value.Date d →
  add_to_date d (split_nanos (whole_months (date_part a) (date_part b)) (rest a b).1 (rest a b).2)
    = Ok (date_part b).
Proof.
  intros H ->. destruct b as [| | | | | | | | | |e| | | | |]; try done.
  destruct (between_date_steps _ _ H) as (E1 & E2 & d' & E3 & V & N & _).
  unfold add_to_date, split_nanos. cbn [Types.months Types.days Types.seconds Types.nanos].
  assert (shift_months d (whole_months (date_part (Value.Date d)) (date_part (Value.Date e)))
    = Ok (advanced (Value.Date d) (Value.Date e))) as -> by exact E1.
  simpl. rewrite E2. simpl.
  rewrite E3. simpl.
  assert ((rest (Value.Date d) (Value.Date e)) =
    (day_number e - day_number (advanced (Value.Date d) (Value.Date e)), 0)) as Er.
  { unfold rest, borrow. rewrite !clock_date. simpl.
    destruct (Z.ltb_spec (day_number e - day_number (advanced (Value.Date d) (Value.Date e))) 0);
      rewrite ?andb_false_r; done. }
  rewrite Er in *. simpl in N.
  change (0 / 1000000000) with 0. change (0 `mod` 1000000000) with 0.
  rewrite delta_seconds_ok by done. simpl. rewrite date_plus_zero by done. simpl.
  rewrite date_plus_zero by done. f_equal.
  destruct H as [_ [[Ve _] _]]. change (date_part (Value.Date e)) with e.
  apply day_number_inj; [done..|lia].
Qed.
End between.

(** * Truncation, elapsed time, division, the epoch

    Truncation gives the first day of the unit; elapsed seconds and days are
    the difference of the instants reduced to 64 bits; dividing a duration
    divides its length; an epoch count is read back. *)

(** ** Units of the calendar *)
Definition date_units : list string :=
  ["millennium"; "century"; "decade"; "year"; "weekYear"; "quarter"; "month"; "week"; "day"].

Definition same_unit `{Chrono} (unit : string) (a b : NaiveDate) : Prop :=
  if one_of unit ["millennium"] then year a / 1000 = year b / 1000
  else if one_of unit ["century"] then year a / 100 = year b / 100
  else if one_of unit ["decade"] then year a / 10 = year b / 10
  else if one_of unit ["year"] then year a = year b
  else if one_of unit ["weekYear"] then iso_year a = iso_year b
  else if one_of unit ["quarter"] then year a = year b ∧ (month a - 1) / 3 = (month b - 1) / 3
  else if one_of unit ["month"] then year a = year b ∧ month a = month b
  else if one_of unit ["week"] then (day_number a - 1) / 7 = (day_number b - 1) / 7
  else a = b.

Lemma first_of_month_le y m x :
  valid_ymd y m 1 → valid_date x → y < year x ∨ y = year x ∧ m ≤ month x →
  day_number (mkDate y m 1) ≤ day_number x.
Proof.
  intros V Vx H. destruct (ymd_trichotomy (mkDate y m 1) x) as [G|[G|G]].
  - apply Z.lt_le_incl. by apply day_number_lt.
  - by rewrite G.
  - exfalso. destruct Vx as (_ & _ & Hd). unfold ymd_lt in G; simpl in G. lia.
Qed.

Lemma first_monday_next y : first_monday y + 7 ≤ first_monday (y + 1).
Proof.
  unfold first_monday. rewrite days_before_next_year.
  assert (365 ≤ year_len y) by (unfold year_len; destruct (leap y); lia). div_lia.
Qed.
Lemma first_monday_mono y z : y ≤ z → first_monday y ≤ first_monday z.
Proof.
  intros H. replace z with (y + Z.of_nat (Z.to_nat (z - y))) by lia.
  induction (Z.to_nat (z - y)) as [|k IH]; [by rewrite Z.add_0_r|].
  pose proof (first_monday_next (y + Z.of_nat k)).
  replace (y + Z.of_nat (S k)) with (y + Z.of_nat k + 1) by lia. lia.
Qed.
Lemma first_monday_near y : days_before_year y - 2 ≤ first_monday y ≤ days_before_year y + 4.
Proof. unfold first_monday. div_lia. Qed.

Section truncate.
Context {Ch : Chrono} {Laws : ChronoLaws}.

Lemma iso_year_unique d y :
  valid_date d → first_monday y ≤ day_number d < first_monday (y + 1) → iso_year d = y.
Proof.
  intros Hd Hy. pose proof (law_iso_year d Hd) as Hi. revert Hi.
  generalize (iso_year d). intros i Hi.
  destruct (Z.lt_trichotomy i y) as [H|[H|H]]; [|done|].
  - pose proof (first_monday_mono (i + 1) y ltac:(lia)). lia.
  - pose proof (first_monday_mono (y + 1) i ltac:(lia)). lia.
Qed.

(** A first of a month as the result. *)
Lemma first_day_ok y m (P : NaiveDate → Prop) :
  valid_ymd y m 1 → P (mkDate y m 1) →
  (∀ x, valid_date x → P x → y < year x ∨ y = year x ∧ m ≤ month x) →
  ∃ r, unwrap (E := GraphError) (from_ymd_opt y m 1) = Ok r ∧ valid_date r ∧ P r
    ∧ ∀ x, valid_date x → P x → day_number r ≤ day_number x.
Proof.
  intros V HP Hx. exists (mkDate y m 1). rewrite law_from_ymd, decide_True by done.
  split_and!; try done. intros x Vx Px. apply first_of_month_le; auto.
Qed.

Lemma valid_first y m : min_year ≤ y ≤ max_year → 1 ≤ m ≤ 12 → valid_ymd y m 1.
Proof. intros. pose proof (month_len_range y m). unfold valid_ymd. lia. Qed.

Lemma truncate_first_of_year y0 d k :
  valid_date d → 0 ≤ year d → k = 1000 ∨ k = 100 ∨ k = 10 → y0 = as_i32 (Z.quot (year d) k * k) →
  ∃ r, unwrap (E := GraphError) (from_ymd_opt y0 1 1) = Ok r ∧ valid_date r
    ∧ year r / k = year d / k
    ∧ ∀ x, valid_date x → year x / k = year d / k → day_number r ≤ day_number x.
Proof.
  intros (Hyr & _) Hy Hk ->. unfold min_year, max_year in Hyr.
  rewrite Z.quot_div_nonneg by lia.
  assert (0 ≤ year d / k * k ≤ year d) by (destruct Hk as [->|[->| ->]]; div_lia).
  rewrite as_i32_small by (widths; lia).
  apply (first_day_ok (year d / k * k) 1 (λ x, year x / k = year d / k)).
  - apply valid_first; [unfold min_year, max_year; lia|done].
  - simpl. destruct Hk as [->|[->| ->]]; div_lia.
  - intros x (_ & Hm & _) E.
    assert (year d / k * k ≤ year x); [|lia]. destruct Hk as [->|[->| ->]]; div_lia.
Qed.

Lemma truncate_date_core_first unit d :
  unit ∈ date_units → valid_date d → 0 ≤ year d →
  ∃ r, truncate_date_core unit d = Ok r ∧ valid_date r ∧ same_unit unit r d
    ∧ ∀ x, valid_date x → same_unit unit x d → day_number r ≤ day_number x.
Proof.
  intros Hu Hd Hy. pose proof Hd as (Hyr & Hm & _).
  unfold date_units in Hu. rewrite !elem_of_cons in Hu.
  destruct Hu as [->|[->|[->|[->|[->|[->|[->|[->|[->|[]%elem_of_nil]]]]]]]]].
  - apply (truncate_first_of_year _ d 1000); auto.
  - apply (truncate_first_of_year _ d 100); auto.
  - apply (truncate_first_of_year _ d 10); auto.
  - apply (first_day_ok (year d) 1 (λ x, year x = year d)); [by apply valid_first|done|].
    intros x (_ & Hxm & _) E. right. rewrite E. lia.
  - pose proof (law_iso_year d Hd) as [Hi1 Hi2]. set (i := iso_year d) in *.
    assert (-1 ≤ i) as Hi.
    { destruct (Z.le_gt_cases (-1) i); [done|].
      pose proof (first_monday_mono (i + 1) (-1) ltac:(lia)).
      pose proof (first_monday_near (-1)). pose proof (days_before_year_mono 0 (year d) Hy).
      pose proof (days_before_next_year (-1)) as En. simpl in En.
      assert (365 ≤ year_len (-1)) by (vm_compute; discriminate).
      pose proof (day_of_year_range (year d) (month d) (day d) Hm ltac:(apply Hd)).
      unfold day_number in Hi2. change (-1 + 1) with 0 in En. lia. }
    pose proof (first_monday_near i). pose proof (days_before_year_mono (-1) i Hi).
    pose proof (valid_day_number d Hd).
    assert (min_day ≤ days_before_year (-1) - 2) by (vm_compute; discriminate).
    assert (valid_date (civil (first_monday i))) as V by (apply civil_valid; lia).
    destruct (civil_spec (first_monday i)) as [En _].
    exists (civil (first_monday i)).
    assert (truncate_date_core "weekYear" d = Ok (civil (first_monday i))) as ->.
    { change (unwrap (E := GraphError) (from_isoywd_opt i 1 Mon) = Ok (civil (first_monday i))).
      assert (from_isoywd_opt i 1 Mon = Some (civil (first_monday i))) as ->; [|done].
      apply law_from_isoywd. pose proof (first_monday_next i). rewrite En. simpl.
      split_and!; try done; lia. }
    split_and!; try done.
    + change (iso_year (civil (first_monday i)) = i). apply iso_year_unique; [done|].
      pose proof (first_monday_next i). lia.
    + intros x Vx Ex. change (iso_year x = i) in Ex. rewrite En, <- Ex. by apply law_iso_year.
  - apply (first_day_ok (year d) ((month d - 1) / 3 * 3 + 1)
      (λ x, year x = year d ∧ (month x - 1) / 3 = (month d - 1) / 3)).
    + apply valid_first; [done|div_lia].
    + simpl. split; [done|div_lia].
    + intros x (_ & Hxm & _) [E1 E2]. right. split; [done|div_lia].
  - apply (first_day_ok (year d) (month d) (λ x, year x = year d ∧ month x = month d)).
    + by apply valid_first.
    + done.
    + intros x _ [E1 E2]. right. lia.
  - set (w := (day_number d - 1) `mod` 7).
    assert (0 ≤ w < 7) as Hw by (apply Z.mod_pos_bound; done).
    pose proof (valid_day_number d Hd). pose proof (days_before_year_mono 0 (year d) Hy).
    pose proof (day_of_year_range (year d) (month d) (day d) Hm ltac:(apply Hd)).
    assert (min_day + 7 ≤ days_before_year 0) by (vm_compute; discriminate).
    destruct (date_plus_ok d (- w) Hd) as (r & E & V & En).
    { unfold day_number in *. lia. }
    exists r. assert (truncate_date_core "week" d = Ok r) as ->.
    { change (truncate_date_core "week" d) with
        (delta ← unwrap (E := GraphError) (delta_days (num_days_from_monday (weekday d)));
         unwrap (E := GraphError) (date_checked_add_signed d (- delta))).
      rewrite law_weekday by done. fold w. rewrite delta_days_ok by lia. simpl.
      rewrite <- Z.mul_opp_l. exact E. }
    split_and!; try done.
    + change ((day_number r - 1) / 7 = (day_number d - 1) / 7). subst w. div_lia.
    + intros x Vx Ex. change ((day_number x - 1) / 7 = (day_number d - 1) / 7) in Ex.
      subst w. div_lia.
  - exists d. split_and!; try done. intros x _ E. change (x = d) in E. by rewrite E.
Qed.
End truncate.

(** ** Elapsed time *)
Section elapsed.
Context {Ch : Chrono} {Laws : ChronoLaws}.

Lemma as_i64_add_r a b : as_i64 (a + as_i64 b) = as_i64 (a + b).
Proof. by rewrite Z.add_comm, as_i64_add_l, Z.add_comm. Qed.
Lemma as_i64_mul_l a b : as_i64 (as_i64 a * b) = as_i64 (a * b).
Proof.
  unfold as_i64. f_equal.
  pose proof (Z.div_mod (a + 9223372036854775808) 18446744073709551616 ltac:(lia)).
  set (q := (a + 9223372036854775808) / 18446744073709551616) in *.
  set (r := (a + 9223372036854775808) `mod` 18446744073709551616) in *.
  replace (a * b + 9223372036854775808) with
    ((r - 9223372036854775808) * b + 9223372036854775808 + q * b * 18446744073709551616) by lia.
  by rewrite Z.mod_add by lia.
Qed.

(** The elapsed time as a 64-bit number of nanoseconds. *)
Definition elapsed (a b : value) : Z := as_i64 (instant b - instant a).

Lemma elapsed_steps a b :
  comparable a b →
  as_i64 (clock b - clock a) = clock b - clock a
  ∧ instant b - instant a
    = (day_number (date_part b) - day_number (date_part a)) * nanos_per_day + (clock b - clock a).
Proof.
  intros H. pose proof (comparable_parts a b H) as (_ & _ & _ & _ & _ & _ & _ & _ & Ca & Cb).
  split; [apply as_i64_small; unfold nanos_per_day in *; widths; lia|].
  rewrite !instant_clock. lia.
Qed.

Lemma duration_in_seconds_ok a b :
  comparable a b → duration_in_seconds a b = Ok (split_nanos 0 0 (elapsed a b)).
Proof.
  intros H. pose proof (comparable_parts a b H) as
    (Ea & Eb & [[Va _] _] & [[Vb _] _] & Ta & Tb & Da & Db & _).
  destruct (elapsed_steps a b H) as [Ec Ed].
  unfold duration_in_seconds. rewrite (effective_nanos_ok a b H). simpl.
  rewrite (effective_nanos_ok b a (comparable_sym a b H)). simpl.
  rewrite Ta, Tb, Ea, Eb, Ec. simpl. rewrite law_num_days by done.
  f_equal. unfold elapsed. rewrite Ed. f_equal.
  rewrite as_i64_add_l, <- as_i64_add_l. rewrite as_i64_mul_l, as_i64_add_l.
  f_equal. unfold nanos_per_day. lia.
Qed.

Lemma duration_in_days_ok a b :
  comparable a b →
  duration_in_days a b = Ok (mkDuration 0 (Z.quot (elapsed a b) nanos_per_day) 0 0).
Proof.
  intros H. pose proof (comparable_parts a b H) as
    (Ea & Eb & [[Va _] _] & [[Vb _] _] & Ta & Tb & Da & Db & _).
  destruct (elapsed_steps a b H) as [Ec Ed].
  unfold duration_in_days. rewrite Ta, Tb, Ea, Eb. simpl.
  rewrite (effective_nanos_ok a b H). simpl.
  rewrite (effective_nanos_ok b a (comparable_sym a b H)). simpl.
  rewrite law_num_days by done. rewrite as_i64_add_l. unfold elapsed. by rewrite Ed.
Qed.

(** ** Dividing a duration *)
Definition month_nanos : Z := AVG_SECONDS_PER_MONTH * 1000000000.

Lemma total_nanos_back n :
  in_i64 (Z.quot n month_nanos) →
  duration_to_total_nanos (total_nanos_to_duration n) = n.
Proof.
  intros Hm. unfold total_nanos_to_duration, duration_to_total_nanos. cbv zeta.
  cbn [Types.months Types.days Types.seconds Types.nanos].
  fold month_nanos. change (86400 * 1000000000) with nanos_per_day.
  pose proof (Z.quot_rem' n month_nanos) as E1.
  set (r1 := Z.rem n month_nanos) in *.
  assert (Z.abs r1 < month_nanos) as B1.
  { pose proof (Z.rem_bound_abs n month_nanos ltac:(done)). unfold r1.
    unfold month_nanos, AVG_SECONDS_PER_MONTH in *. lia. }
  pose proof (Z.quot_rem' r1 nanos_per_day) as E2.
  set (r2 := Z.rem r1 nanos_per_day) in *.
  assert (Z.abs r2 < nanos_per_day) as B2.
  { pose proof (Z.rem_bound_abs r1 nanos_per_day ltac:(done)). unfold r2, nanos_per_day in *. lia. }
  pose proof (Z.quot_rem' r2 1000000000) as E3.
  pose proof (Z.rem_bound_abs r2 1000000000 ltac:(done)) as B3.
  assert (∀ x y, Z.abs y < 5000000000000000 → x = 86400000000000 * Z.quot x 86400000000000 + y →
    Z.abs x < 5000000000000000 → in_i64 (Z.quot x 86400000000000)) as G.
  { intros x y Hy E Hx. widths. lia. }
  unfold month_nanos, AVG_SECONDS_PER_MONTH, nanos_per_day in *.
  rewrite (as_i64_small (Z.quot n _)) by done.
  rewrite (as_i64_small (Z.quot r1 _)) by (widths; lia).
  rewrite (as_i64_small (Z.quot r2 _)) by (widths; lia).
  rewrite (as_i64_small (Z.rem r2 _)) by (widths; lia).
  lia.
Qed.

(** ** The epoch *)
Lemma or_epoch_ok s n :
  0 ≤ n < nanos_per_sec →
  min_day * nanos_per_day ≤ epoch_day * nanos_per_day + s * nanos_per_sec + n
    < (max_day + 1) * nanos_per_day →
  ∃ dt, or_epoch (E := GraphError) (from_timestamp s n) = Ok dt ∧ valid_datetime dt
    ∧ leap_free (dt_time dt)
    ∧ local_nanos dt = epoch_day * nanos_per_day + s * nanos_per_sec + n.
Proof.
  intros Hn Hr. set (k := epoch_day * nanos_per_day + s * nanos_per_sec + n) in *.
  assert (min_day ≤ k / nanos_per_day ≤ max_day) as Hq by (unfold nanos_per_day in *; div_lia).
  assert (∃ dt', Gregorian.datetime_of k = Some dt') as [dt E].
  { unfold Gregorian.datetime_of, Gregorian.date_of.
    rewrite decide_True by by apply civil_valid. by eexists. }
  apply Gregorian.datetime_of_spec in E as (V & L & E). exists dt.
  assert (from_timestamp s n = Some dt) as ->; [|done]. by apply law_from_timestamp.
Qed.

Lemma utc_ok : utc (E := GraphError) = Ok (mkOffset 0).
Proof. unfold utc. by rewrite law_east, decide_True. Qed.

Lemma to_utc_zero dt :
  valid_datetime dt → leap_free (dt_time dt) → to_utc dt (mkOffset 0) = Ok dt.
Proof.
  intros V L. unfold to_utc. rewrite law_delta_seconds, decide_True by done.
  change (datetime_plus dt 0 = Ok dt). unfold datetime_plus.
  assert (datetime_checked_add_signed dt 0 = Some dt) as ->; [|done].
  apply law_datetime_add; [done..|]. split_and!; try done. lia.
Qed.

Lemma epoch_seconds_back dt s n :
  valid_datetime dt → leap_free (dt_time dt) → 0 ≤ n < nanos_per_sec →
  local_nanos dt = epoch_day * nanos_per_day + s * nanos_per_sec + n →
  timestamp dt = s ∧ timestamp_millis dt = (s * nanos_per_sec + n) / 1000000.
Proof.
  intros V L Hn E. rewrite law_timestamp, law_timestamp_millis by done. split.
  - destruct V as [_ (Vs & Vn & _)]. unfold leap_free in L. unfold local_nanos, time_nanos in E.
    unfold nanos_per_sec, nanos_per_day in *. lia.
  - rewrite E. f_equal. lia.
Qed.
End elapsed.
