(* ===== verification/Temporals.v ===== *)
(** * Temporal values: the main theorems

    Text and serialized forms are read back; durations are exact; a value
    moved by its difference to another is that other; truncation finds the
    first day of a unit.  The theorems hold for every chrono that satisfies
    [ChronoLaws]; their witnesses use [Gregorian]. *)
From S2P Require Export TemporalSpec DurationTextSpec DurationSpec.
#[local] Open Scope Z_scope.

Section text.
Context {Ch : Chrono} {Laws : ChronoLaws}.

(** C37: What [Display] prints of a temporal value, [from_iso_string] reads
    back.  Dates, local date-times and date-times of a year from 0 on, with
    their offset and zone name, come back unchanged, and so do times; the one
    exception are leap seconds, of whose ten-digit fraction only nine digits
    are read ([read_back]).  A date before the year 0 is rejected. *)
Theorem temporal_text_roundtrip :
  (∀ d, valid_date d →
    date_from_iso_string (date_display d)
      = if decide (0 ≤ year d) then Ok d else Err (ser_error_at "invalid date: " (date_display d)))
  ∧ (∀ t, valid_time t → local_time_from_iso_string (local_time_display t) = Ok (read_back t))
  ∧ (∀ t off, valid_time t → valid_offset off →
      time_from_iso_string (time_display t off) = Ok (read_back t, off))
  ∧ (∀ dt, valid_datetime dt → 0 ≤ year (dt_date dt) →
      local_datetime_from_iso_string (local_datetime_display dt)
        = Ok (mkDateTime (dt_date dt) (read_back (dt_time dt))))
  ∧ (∀ dt off tz, valid_datetime dt → valid_offset off → 0 ≤ year (dt_date dt) →
      (∀ s, tz = Some s → ends_with "]"%byte (str_bytes s) = false) →
      datetime_from_iso_string (datetime_display dt off tz)
        = Ok (mkDateTime (dt_date dt) (read_back (dt_time dt)), off, tz))
  ∧ (∀ t, leap_free t → read_back t = t).
Proof.
  split_and!.
  - intros d Hd. case_decide; [by apply parse_fmt_date|].
    apply parse_fmt_date_negative; [done|lia].
  - intros t Ht. by apply parse_fmt_local_time.
  - intros t off Ht Ho. by apply time_roundtrip.
  - intros dt Hdt Hy. by apply local_datetime_roundtrip.
  - intros dt off tz Hdt Ho Hy Htz. by apply datetime_roundtrip.
  - intros t Hl. by apply read_back_leap_free.
Qed.
End text.

Section serialized.
Context {Ch : Chrono} {Laws : ChronoLaws} {Sd : Serde} {SdLaws : SerdeLaws}.

(** C38: A serialized temporal value is read back, by the sequence reader from
    the values in their order and by the map reader from the named fields in
    any order: for each of the six types, and for date-times with and without
    a zone name. *)
Theorem temporal_serde_roundtrip :
  (∀ d, valid_date d → reads_back date_serialize date_visit_seq date_visit_map d)
  ∧ (∀ t, valid_time t →
      reads_back local_time_serialize local_time_visit_seq local_time_visit_map t)
  ∧ (∀ t off, valid_time t → valid_offset off →
      reads_back time_serialize time_visit_seq time_visit_map (t, off))
  ∧ (∀ dt, valid_datetime dt →
      reads_back local_datetime_serialize local_datetime_visit_seq local_datetime_visit_map dt)
  ∧ (∀ dt off tz, valid_datetime dt → valid_offset off →
      reads_back datetime_serialize datetime_visit_seq datetime_visit_map (dt, off, tz))
  ∧ (∀ d, valid_duration d →
      reads_back duration_serialize duration_visit_seq duration_visit_map d).
Proof.
  split_and!; intros.
  - by apply date_reads_back.
  - by apply local_time_reads_back.
  - by apply time_reads_back.
  - by apply local_datetime_reads_back.
  - by apply datetime_reads_back.
  - by apply duration_reads_back.
Qed.
End serialized.

(** C40: The printed form of a duration is parsed as the same duration: months
    and days unchanged, seconds and nanoseconds with their total unchanged and
    brought to one sign, for magnitudes below 2^53 (the parser goes through
    [f64]) and less than a second of nanoseconds. *)
Theorem duration_text_roundtrip (d : CypherDuration)
    (Hm : small (months d)) (Hd : small (days d)) (Hs : small (seconds d))
    (Hn : Z.abs (nanos d) < 1000000000) :
  duration_from_iso_string (duration_display d) = Ok (signed_form d)
  ∧ months (signed_form d) = months d ∧ days (signed_form d) = days d
  ∧ seconds (signed_form d) * 1000000000 + nanos (signed_form d)
    = seconds d * 1000000000 + nanos d.
Proof.
  split; [by apply duration_roundtrip|]. split_and!; [done|done|]. apply signed_pair_total.
Qed.

(** A duration built from a map of whole components is exact: months are
    twelve times the years plus the months, days seven times the weeks plus the
    days, and the clock part is the sum of all units in nanoseconds, split into
    seconds and nanoseconds of one sign.  It needs the magnitudes to stay below
    2^53, for which nanoseconds allow 104 days. *)
Theorem duration_components_exact (map : Properties)
    (Hw : whole_components map)
    (Hm : Z.abs (component map "years") * 12 + Z.abs (component map "months") < 2 ^ 53)
    (Hd : Z.abs (component map "weeks") * 7 + Z.abs (component map "days") < 2 ^ 53)
    (Ht : map_span map < 2 ^ 53) :
  ∃ d, duration_from_map map = Ok d
    ∧ months d = map_months map ∧ days d = map_days map
    ∧ seconds d * 1000000000 + nanos d = map_nanos map
    ∧ Z.abs (nanos d) < 1000000000 ∧ 0 ≤ seconds d * nanos d.
Proof.
  rewrite duration_from_map_exact by done. eexists. split; [done|]. simpl.
  set (N := map_nanos map). pose proof (Z.quot_rem' N 1000000000) as E.
  pose proof (Z.rem_bound_abs N 1000000000 ltac:(done)) as B.
  split_and!; [done|done|lia|lia|].
  destruct (Z.le_gt_cases 0 N) as [HN|HN].
  - pose proof (Z.rem_nonneg N 1000000000 ltac:(done) HN).
    pose proof (Z.quot_pos N 1000000000 HN ltac:(done)). nia.
  - pose proof (Z.rem_nonpos N 1000000000 ltac:(done) ltac:(lia)).
    assert (Z.quot N 1000000000 ≤ 0) by lia. nia.
Qed.

Section differences.
Context {Ch : Chrono} {Laws : ChronoLaws}.

(** C39: [lhs + duration.between(lhs, rhs)] is [rhs]: for two dates, two local
    date-times or two date-times away from the ends of the calendar and from
    leap seconds, the difference is computed without a panic, adding it
    succeeds, and the sum is at the instant of [rhs], in the zone of [lhs]. *)
Theorem between_moves (lhs rhs : value) (H : comparable lhs rhs) :
  ∃ dur v, duration_between lhs rhs = Ok dur
    ∧ eval_temporal_add lhs (Value.Duration dur) = Some (Ok v)
    ∧ instant v = instant rhs ∧ same_zone v lhs.
Proof.
  eexists _. rewrite duration_between_ok by done.
  destruct lhs as [| | | | | | | | | |d| | |dt|dt off tz|], rhs as [| | | | | | | | | |d2| | |dt'|dt' off' tz'|];
    try done.
  - eexists. split; [done|]. cbn [eval_temporal_add].
    rewrite (add_between_date _ _ d H eq_refl). done.
  - destruct (add_between_datetime _ _ dt H eq_refl) as (dt2 & E & _ & _ & N);
      [apply H|apply H|].
    eexists. split; [done|]. cbn [eval_temporal_add]. rewrite E. split; [done|].
    rewrite clock_local in N. split; [simpl in *; lia|done].
  - destruct (add_between_datetime _ _ dt H eq_refl) as (dt2 & E & _ & _ & N);
      [apply H|apply H|].
    eexists. split; [done|]. cbn [eval_temporal_add]. rewrite E. split; [done|].
    rewrite clock_zoned in N. split; [simpl in *; lia|done].
Qed.

(** The months of a difference are as many as fit: moving the earlier date
    forward by them does not pass the later one and by one month more does; in
    the other direction alike.  The day is clamped to the length of the month
    as the code clamps it. *)
Theorem month_diff_maximal (d1 d2 : NaiveDate) (H1 : safe_date d1) (H2 : safe_date d2) :
  ∃ n, month_diff d1 d2 = Ok n
    ∧ (day_number d1 ≤ day_number d2 → 0 ≤ n
        ∧ day_number (add_months_to d1 n) ≤ day_number d2 < day_number (add_months_to d1 (n + 1)))
    ∧ (day_number d2 ≤ day_number d1 → n ≤ 0
        ∧ day_number (add_months_to d1 (n - 1)) < day_number d2
          ≤ day_number (add_months_to d1 n))
    ∧ add_months_to_date d1 n = Ok (add_months_to d1 n).
Proof.
  destruct H1 as [I1 M1], H2 as [I2 M2]. exists (whole_months d1 d2).
  pose proof (inner_index d1 I1). pose proof (inner_index d2 I2).
  pose proof (whole_months_between d1 d2) as [W1 W2]. split_and!.
  - by apply month_diff_whole.
  - by apply whole_months_fits.
  - by apply whole_months_fits_back.
  - apply add_months_to_date_ok; [by destruct I1|lia].
Qed.

(** Elapsed seconds and days are computed from the 64-bit nanoseconds
    between the two instants: [duration.inSeconds] is exact if and only if the
    distance fits in an [i64] (292 years), and then [duration.inDays] is its
    whole days. *)
Theorem elapsed_bounds (lhs rhs : value) (H : comparable lhs rhs) :
  ∃ s d, duration_in_seconds lhs rhs = Ok s ∧ duration_in_days lhs rhs = Ok d
    ∧ (seconds s * 1000000000 + nanos s = instant rhs - instant lhs
        ↔ in_i64 (instant rhs - instant lhs))
    ∧ (in_i64 (instant rhs - instant lhs) →
        days d = Z.quot (instant rhs - instant lhs) nanos_per_day).
Proof.
  eexists _, _. rewrite duration_in_seconds_ok, duration_in_days_ok by done.
  split; [done|]. split; [done|]. simpl. unfold elapsed.
  set (n := instant rhs - instant lhs).
  assert (as_i64 n / 1000000000 * 1000000000 + as_i64 n `mod` 1000000000 = as_i64 n) as ->
    by (rewrite (Z.div_mod (as_i64 n) 1000000000) at 3 by done; lia).
  split; [split|].
  - intros E. rewrite <- E. apply as_i64_in.
  - intros Hn. by apply as_i64_small.
  - intros Hn. by rewrite as_i64_small.
Qed.

(** Truncating a date of a year from 0 on to a unit, from the day to the
    millennium and with the ISO week and week-year, gives the first day that
    lies in the same unit. *)
Theorem truncate_date_first (unit : string) (d : NaiveDate)
    (Hu : unit ∈ date_units) (Hd : valid_date d) (Hy : 0 ≤ year d) :
  ∃ r, truncate_date unit (Value.Date d) ∅ = Ok r ∧ valid_date r ∧ same_unit unit r d
    ∧ ∀ x, valid_date x → same_unit unit x d → day_number r ≤ day_number x.
Proof.
  destruct (truncate_date_core_first unit d Hu Hd Hy) as (r & E & V & S & F).
  exists r. split; [|done]. unfold truncate_date. simpl. rewrite E. done.
Qed.

(** Dividing by a whole number divides the length, with average months. *)
Theorem duration_division_exact (d : CypherDuration) (n : Z) :
  n ≠ 0 → in_i64 (Z.quot (Z.quot (duration_to_total_nanos d) n) month_nanos) →
  ∃ q, eval_duration_div (Value.Duration d) (Value.I64 n) = Some (Ok (Value.Duration q))
    ∧ duration_to_total_nanos q = Z.quot (duration_to_total_nanos d) n.
Proof.
  intros Hn Hr. unfold eval_duration_div. destruct (Z.eqb_spec n 0); [done|].
  eexists. split; [done|]. by apply total_nanos_back.
Qed.

(** Epoch counts are read back by the accessors. *)
Theorem epoch_seconds_roundtrip (s n : Z) :
  0 ≤ n < nanos_per_sec → in_i64 (s * nanos_per_sec + n) → in_i64 (s * nanos_per_sec) →
  ∃ dt off, from_epoch s n = Ok (dt, off, None)
    ∧ temporal_accessor (Value.DateTime dt off None) "epochSeconds"
      = Ok (Some (Value.I64 s))
    ∧ temporal_accessor (Value.DateTime dt off None) "nanosecond"
      = Ok (Some (Value.I64 n)).
Proof.
  intros Hn Hr Hs. unfold from_epoch.
  rewrite (as_i64_small (s * 1000000000)) by done. rewrite as_i64_small by done.
  change 1000000000 with nanos_per_sec.
  rewrite Z.div_add_l, (Z.div_small n), Z.add_0_r by done.
  rewrite (Z.add_comm _ n), Z.mod_add, Z.mod_small by done.
  destruct (or_epoch_ok s n Hn) as (dt & -> & V & L & E).
  { assert (min_day * nanos_per_day + i64_max < epoch_day * nanos_per_day + i64_min
      ∧ epoch_day * nanos_per_day + i64_max < (max_day + 1) * nanos_per_day)
      by (vm_compute; done). widths. lia. }
  simpl. rewrite utc_ok. simpl. exists dt, (mkOffset 0). split; [done|].
  destruct (epoch_seconds_back dt s n V L Hn E) as [Es _].
  split.
  - change (temporal_accessor (Value.DateTime dt (mkOffset 0) None) "epochSeconds")
      with (utc_ndt ← to_utc dt (mkOffset 0); Ok (E := GraphError) (Some (Value.I64 (timestamp utc_ndt)))).
    rewrite to_utc_zero by done. simpl. by rewrite Es.
  - change (Ok (E := GraphError) (Some (Value.I64 (nanosecond (dt_time dt) `mod` 1000000000)))
      = Ok (Some (Value.I64 n))).
    do 3 f_equal. destruct V as [_ (Vs & Vn & _)]. unfold leap_free in L.
    unfold local_nanos, time_nanos, nanos_per_sec, nanos_per_day in *.
    rewrite Z.mod_small by lia. lia.
Qed.
End differences.

(** ** Witnesses: the reference calendar *)
Import Gregorian PlainSerde.

Definition stockholm : NaiveDateTime := mkDateTime (mkDate 2015 7 21) (mkTime 78032 142000000).
Definition plus_two : FixedOffset := mkOffset 7200.

Lemma temporal_text_roundtrip_witness :
  datetime_from_iso_string (str_bytes "2015-07-21T21:40:32.142+02:00[Europe/Stockholm]")
    = Ok (stockholm, plus_two, Some "Europe/Stockholm")
  ∧ date_from_iso_string (date_display (mkDate (-5) 1 1))
    = Err (ser_error_at "invalid date: " (date_display (mkDate (-5) 1 1))).
Proof.
  pose proof temporal_text_roundtrip as (H1 & _ & _ & _ & H5 & H6). split.
  - change (str_bytes "2015-07-21T21:40:32.142+02:00[Europe/Stockholm]")
      with (datetime_display stockholm plus_two (Some "Europe/Stockholm")).
    rewrite H5; [by rewrite H6|by_decide|by_decide|done|].
    intros s [= <-]. vm_compute. reflexivity.
  - rewrite H1 by by_decide. by rewrite decide_False by (simpl; lia).
Defined.

Lemma temporal_serde_roundtrip_witness :
  date_visit_map [("day", inl 21); ("month", inl 7); ("year", inl 2015)]
    = Ok (mkDate 2015 7 21)
  ∧ datetime_visit_seq [inl 2015; inl 7; inl 21; inl 21; inl 40; inl 32; inl 142000000;
      inl 7200; inr "Europe/Stockholm"] = Ok (stockholm, plus_two, Some "Europe/Stockholm").
Proof.
  pose proof temporal_serde_roundtrip as (H1 & _ & _ & _ & H5 & _). split.
  - apply (H1 (mkDate 2015 7 21)); [by_decide|].
    apply (Permutation_rev [("day", inl 21); ("month", inl 7); ("year", inl 2015)]).
  - apply (H5 stockholm plus_two (Some "Europe/Stockholm")); by_decide.
Defined.

Lemma duration_text_roundtrip_witness :
  duration_display (mkDuration 14 (-3) (-3662) 500000000) = str_bytes "P1Y2M-3DT-1H-1M-1.5S"
  ∧ duration_from_iso_string (str_bytes "P1Y2M-3DT-1H-1M-1.5S")
    = Ok (mkDuration 14 (-3) (-3661) (-500000000)).
Proof.
  split; [vm_compute; reflexivity|].
  change (str_bytes "P1Y2M-3DT-1H-1M-1.5S")
    with (duration_display (mkDuration 14 (-3) (-3662) 500000000)).
  apply (duration_text_roundtrip (mkDuration 14 (-3) (-3662) 500000000)); done.
Defined.

Lemma duration_components_exact_witness :
  ∃ d, duration_from_map {["years" := Value.I64 1; "weeks" := Value.I64 (-2);
      "hours" := Value.I64 16; "milliseconds" := Value.I64 (-1)]} = Ok d
    ∧ months d = 12 ∧ days d = -14 ∧ seconds d * 1000000000 + nanos d = 57599999000000
    ∧ Z.abs (nanos d) < 1000000000 ∧ 0 ≤ seconds d * nanos d.
Proof.
  apply duration_components_exact; [|done..].
  intros k n. assert (map_Forall (λ _ v, match v with Value.F64 _ => False | _ => True end)
    ({["years" := Value.I64 1; "weeks" := Value.I64 (-2); "hours" := Value.I64 16;
       "milliseconds" := Value.I64 (-1)]} : Properties)) as F.
  { repeat (apply map_Forall_insert_2; [done|]). apply map_Forall_empty. }
  intros E. exact (F _ _ E).
Defined.

Definition noon (y m d : Z) : value := Value.LocalDateTime (mkDateTime (mkDate y m d) (mkTime 43200 0)).

Lemma between_moves_witness :
  ∃ dur v, duration_between (noon 2020 1 31) (noon 2020 3 1) = Ok dur
    ∧ eval_temporal_add (noon 2020 1 31) (Value.Duration dur) = Some (Ok v)
    ∧ instant v = instant (noon 2020 3 1) ∧ same_zone v (noon 2020 1 31).
Proof. apply (between_moves (noon 2020 1 31) (noon 2020 3 1)). by_decide. Defined.

Lemma month_diff_maximal_witness :
  ∃ n, month_diff (mkDate 2020 1 31) (mkDate 2020 3 1) = Ok n
    ∧ (day_number (mkDate 2020 1 31) ≤ day_number (mkDate 2020 3 1) → 0 ≤ n
        ∧ day_number (add_months_to (mkDate 2020 1 31) n) ≤ day_number (mkDate 2020 3 1)
          < day_number (add_months_to (mkDate 2020 1 31) (n + 1)))
    ∧ (day_number (mkDate 2020 3 1) ≤ day_number (mkDate 2020 1 31) → n ≤ 0
        ∧ day_number (add_months_to (mkDate 2020 1 31) (n - 1)) < day_number (mkDate 2020 3 1)
          ≤ day_number (add_months_to (mkDate 2020 1 31) n))
    ∧ add_months_to_date (mkDate 2020 1 31) n = Ok (add_months_to (mkDate 2020 1 31) n).
Proof. apply (month_diff_maximal (mkDate 2020 1 31) (mkDate 2020 3 1)); by_decide. Defined.

Lemma elapsed_bounds_witness :
  ∃ s d, duration_in_seconds (noon 1 1 1) (noon 2020 1 1) = Ok s
    ∧ duration_in_days (noon 1 1 1) (noon 2020 1 1) = Ok d
    ∧ (seconds s * 1000000000 + nanos s = instant (noon 2020 1 1) - instant (noon 1 1 1)
        ↔ in_i64 (instant (noon 2020 1 1) - instant (noon 1 1 1)))
    ∧ (in_i64 (instant (noon 2020 1 1) - instant (noon 1 1 1)) →
        days d = Z.quot (instant (noon 2020 1 1) - instant (noon 1 1 1)) nanos_per_day).
Proof. apply (elapsed_bounds (noon 1 1 1) (noon 2020 1 1)). by_decide. Defined.

Lemma truncate_date_first_witness :
  ∃ r, truncate_date "weekYear" (Value.Date (mkDate 2021 1 2)) ∅ = Ok r ∧ valid_date r
    ∧ same_unit "weekYear" r (mkDate 2021 1 2)
    ∧ ∀ x, valid_date x → same_unit "weekYear" x (mkDate 2021 1 2) →
        day_number r ≤ day_number x.
Proof. apply (truncate_date_first "weekYear" (mkDate 2021 1 2)); by_decide. Defined.

(** ** Where the code does not do what it means to *)

(** A leap second is printed with ten digits after the point, trailing zeros
    removed, and comes back as another time. *)
Lemma leap_second_reads_wrong :
  local_time_display (mkTime 86399 1500000000) = str_bytes "23:59:59.15"
  ∧ local_time_from_iso_string (str_bytes "23:59:59.15") = Ok (mkTime 86399 150000000).
Proof. split; by vm_compute. Qed.

(** Text that is not ASCII makes the slices of the parsers panic. *)
Lemma offset_text_panics :
  time_from_iso_string (str_bytes "12:00+a" ++ [xe2; x82; xac]) = Panic
  ∧ local_time_from_iso_string (str_bytes "12:00:00.12345678" ++ [xe2; x82; xac]) = Panic.
Proof. split; vm_compute; reflexivity. Qed.

(** Components are cut to 32 bits before they are checked. *)
Lemma component_truncated :
  local_time_from_map {["hour" := Value.I64 4294967297]} = Ok (mkTime 3600 0).
Proof. by vm_compute. Qed.

(** The sign of an offset may be followed by another sign. *)
Lemma offset_two_signs : parse_offset (str_bytes "+-1:30") = Ok (mkOffset (-1800)).
Proof. by vm_compute. Qed.

(** Division rounds toward zero: truncation moves years before 0 forward. *)
Lemma truncate_moves_forward :
  truncate_date "decade" (Value.Date (mkDate (-5) 6 1)) ∅ = Ok (mkDate 0 1 1).
Proof. by vm_compute. Qed.

(** 2020 years do not fit in 64 bits of nanoseconds. *)
Lemma elapsed_seconds_wrap :
  instant (noon 2020 1 1) - instant (noon 1 1 1) = 63713433600 * 1000000000
  ∧ duration_in_seconds (noon 1 1 1) (noon 2020 1 1) = Ok (mkDuration 0 0 (8373201378) 871345152).
Proof. split; by vm_compute. Qed.

(** Beyond 104 days a double has no room for nanoseconds. *)
Lemma duration_loses_nanosecond :
  duration_from_map {["hours" := Value.I64 2503; "nanoseconds" := Value.I64 1]}
    = Ok (mkDuration 0 0 9010800 0).
Proof. by vm_compute. Qed.

(** A number without a unit at the end is dropped. *)
Lemma duration_drops_number :
  duration_from_iso_string (str_bytes "P1Y5") = Ok (mkDuration 12 0 0 0)
  ∧ duration_from_iso_string (str_bytes "P7") = Ok zero_duration
  ∧ duration_from_iso_string (str_bytes "PT1:2:3:4") = Ok (mkDuration 0 0 3720 0).
Proof. split_and!; by vm_compute. Qed.

(** Months that lead out of the calendar are ignored. *)
Lemma months_out_of_range_ignored :
  eval_temporal_add (Value.Date (mkDate 2020 1 1)) (Value.Duration (mkDuration 2147483647 0 0 0))
    = Some (Ok (Value.Date (mkDate 2020 1 1))).
Proof. by vm_compute. Qed.

(** An instant out of the calendar becomes 1970; the last December has no
    length. *)
Lemma epoch_millis_falls_back :
  from_epoch_millis 9000000000000000
    = Ok (mkDateTime (mkDate 1970 1 1) (mkTime 0 0), mkOffset 0, None)
  ∧ days_in_month 262142 12 = Panic.
Proof. split; by vm_compute. Qed.
