(* ===== verification/Text.v ===== *)
(** * Strings as characters

    The functions of [str] that expressions use.  A string is UTF-8; a character
    is a byte that is not a continuation, with the continuations after it.  Case
    mappings beyond ASCII are tables of the Unicode standard: a parameter. *)
From S2P Require Export Fts Floats.

(** ** Characters *)
Fixpoint chars (l : bytes) : list bytes :=
  match l with
  | [] => []
  | b :: l' =>
      match l' with
      | [] => [[b]]
      | c :: _ =>
          if utf8_cont c then
            match chars l' with
            | w :: ws => (b :: w) :: ws
            | [] => [[b]]
            end
          else [b] :: chars l'
      end
  end.
(** [.collect::<String>()] of characters. *)
Definition of_chars (ws : list bytes) : bytes := concat ws.

Definition str_chars (s : string) : list bytes := chars (str_bytes s).
Definition str_of_chars (ws : list bytes) : string := bytes_str (of_chars ws).

(** ** Substrings *)
Definition str_starts_with (s p : string) : bool :=
  bool_decide (str_bytes p `prefix_of` str_bytes s).
Definition str_ends_with (s p : string) : bool :=
  bool_decide (str_bytes p `suffix_of` str_bytes s).

(** [s.split(d)] for a string: between any two characters when [d] is empty. *)
Fixpoint split_on (skip : nat) (d acc l : bytes) : list bytes :=
  match l with
  | [] => [acc]
  | b :: l' =>
      match skip with
      | S k => split_on k d acc l'
      | O =>
          if decide (d `prefix_of` l) then acc :: split_on (length d - 1) d [] l'
          else split_on O d (acc ++ [b]) l'
      end
  end.
Definition split_str (d l : bytes) : list bytes :=
  match d with
  | [] => [] :: chars l ++ [[]]
  | _ => split_on O d [] l
  end.
Fixpoint join_bytes (sep : bytes) (l : list bytes) : bytes :=
  match l with
  | [] => []
  | [x] => x
  | x :: l' => x ++ sep ++ join_bytes sep l'
  end.
(** [s.replace(from, to)]. *)
Definition replace_str (from to l : bytes) : bytes := join_bytes to (split_str from l).

(** [trim_start] and [trim_end]. *)
Definition trim_start (l : bytes) : bytes := trim_start_of white_space l.
Definition trim_end (l : bytes) : bytes := trim_end_of white_space l.

(** [to_ascii_lowercase]. *)
Definition ascii_lowercase (s : string) : string := bytes_str (byte_lower <$> str_bytes s).

Class Unicode := {
  to_lowercase : string → string;
  to_uppercase : string → string;
}.

(** ** Their properties *)
Lemma chars_cons b c l :
  chars (b :: c :: l) =
    if utf8_cont c then match chars (c :: l) with w :: ws => (b :: w) :: ws | [] => [[b]] end
    else [b] :: chars (c :: l).
Proof. done. Qed.
Lemma of_chars_chars l : of_chars (chars l) = l.
Proof.
  induction l as [|b l IH]; [done|]. cbn [chars]. destruct l as [|c l]; [done|].
  destruct (utf8_cont c).
  - destruct (chars (c :: l)) as [|w ws] eqn:E; [done|].
    unfold of_chars in *. simpl in *. by rewrite IH.
  - unfold of_chars in *. cbn [concat]. by rewrite IH.
Qed.

(** A character after the first byte of a text is a whole character again. *)
Lemma chars_cons_nil b l : chars (b :: l) ≠ [].
Proof.
  cbn [chars]. destruct l as [|c l]; [done|]. destruct (utf8_cont c); [|done].
  by destruct (chars (c :: l)).
Qed.
Lemma chars_boundary a c l :
  utf8_cont c = false → chars (a ++ c :: l) = chars a ++ chars (c :: l).
Proof.
  intros Hc. induction a as [|b a IH]; [done|].
  destruct a as [|b' a]; [change ([b] ++ c :: l) with (b :: c :: l); cbn [chars]; by rewrite Hc|].
  change ((b :: b' :: a) ++ c :: l) with (b :: b' :: (a ++ c :: l)).
  change ((b' :: a) ++ c :: l) with (b' :: (a ++ c :: l)) in IH.
  rewrite !chars_cons, IH. destruct (utf8_cont b'); [|done].
  pose proof (chars_cons_nil b' a) as Hn. by destruct (chars (b' :: a)).
Qed.

(** A character starts with no continuation and goes on with continuations only. *)
Definition is_char (w : bytes) : Prop :=
  match w with b :: w' => utf8_cont b = false ∧ Forall (λ c, utf8_cont c = true) w' | [] => False end.
Lemma chars_are_chars b l : utf8_cont b = false → Forall is_char (chars (b :: l)).
Proof.
  assert (∀ b l, ∃ w ws, chars (b :: l) = (b :: w) :: ws ∧ Forall (λ c, utf8_cont c = true) w
    ∧ Forall is_char ws) as H.
  { clear. intros b l. revert b. induction l as [|c l IH]; intros b.
    - exists [], []. done.
    - destruct (IH c) as (w & ws & E & Hw & Hws). destruct (utf8_cont c) eqn:Hc.
      + exists (c :: w), ws. split_and!; [|by constructor|done].
        by rewrite chars_cons, Hc, E.
      + exists [], ((c :: w) :: ws). split_and!; [|done|by constructor].
        by rewrite chars_cons, Hc, E. }
  intros Hb. destruct (H b l) as (w & ws & -> & ? & ?). by constructor.
Qed.
Lemma chars_of_chars ws : Forall is_char ws → chars (of_chars ws) = ws.
Proof.
  induction 1 as [|w ws Hw Hws IH]; [done|]. unfold of_chars in *. cbn [concat].
  destruct w as [|b w]; [done|]. destruct Hw as [Hb Hw].
  assert (chars (b :: w) = [b :: w]) as E.
  { clear - Hw. revert b. induction Hw as [|c w Hc _ IH]; intros b; [done|].
    by rewrite chars_cons, Hc, IH. }
  destruct ws as [|w' ws]; [by rewrite app_nil_r|].
  inversion_clear Hws as [|? ? Hw']. destruct w' as [|c w']; [done|]. destruct Hw' as [Hc _].
  change ((b :: w) ++ concat ((c :: w') :: ws)) with ((b :: w) ++ c :: (w' ++ concat ws)).
  rewrite chars_boundary by done. rewrite E. change (c :: w' ++ concat ws) with (concat ((c :: w') :: ws)).
  by rewrite IH.
Qed.

(** Joining what was split with the same separator gives the text back. *)
Lemma split_on_nonempty skip d acc l : split_on skip d acc l ≠ [].
Proof.
  revert skip acc. induction l as [|b l IH]; intros skip acc; [done|]. cbn [split_on].
  destruct skip; [|apply IH]. case_decide; [done|apply IH].
Qed.
Lemma join_cons sep x l : l ≠ [] → join_bytes sep (x :: l) = x ++ sep ++ join_bytes sep l.
Proof. by destruct l. Qed.
Lemma join_split_on skip d acc l :
  d ≠ [] → skip ≤ length l → join_bytes d (split_on skip d acc l) = acc ++ drop skip l.
Proof.
  intros Hd. revert skip acc. induction l as [|b l IH]; intros skip acc Hs.
  { by rewrite drop_nil, app_nil_r. }
  cbn [split_on]. destruct skip as [|skip].
  - case_decide as P.
    + rewrite join_cons by apply split_on_nonempty. rewrite drop_0.
      destruct P as [r E]. destruct d as [|x d]; [done|]. simplify_eq/=.
      rewrite IH by (rewrite length_app; lia). rewrite Nat.sub_0_r.
      by rewrite drop_app_length.
    + rewrite IH by lia. rewrite !drop_0, <- app_assoc. done.
  - simpl in Hs. rewrite IH by lia. done.
Qed.
Lemma concat_join l : join_bytes [] l = concat l.
Proof.
  induction l as [|x l IH]; [done|]. destruct l as [|y l]; [symmetry; apply app_nil_r|].
  rewrite join_cons by done. by rewrite IH.
Qed.
Lemma join_split d l : join_bytes d (split_str d l) = l.
Proof.
  destruct d as [|x d].
  - unfold split_str. rewrite concat_join. cbn [concat app]. rewrite concat_app. cbn [concat].
    rewrite !app_nil_r. apply of_chars_chars.
  - unfold split_str. rewrite join_split_on by (done || lia). apply drop_0.
Qed.
