(* ===== verification/Compare.v ===== *)
(** * Comparing values: src/src/cypher/eval/comparison.rs and executor/util.rs

    Three-valued equality, the partial order of the comparison operators and the
    order of ORDER BY.  The comparison of temporal values is chrono's. *)
From S2P Require Export Ast Chrono Floats.
#[local] Open Scope Z_scope.

(** ** What chrono adds

    Its orders, and a local time less its offset; [None] is a panic. *)
Class ChronoOrder := {
  date_cmp : NaiveDate → NaiveDate → comparison;
  time_cmp : NaiveTime → NaiveTime → comparison;
  datetime_cmp : NaiveDateTime → NaiveDateTime → comparison;
  time_sub_offset : NaiveTime → FixedOffset → NaiveTime;
  datetime_sub_offset : NaiveDateTime → FixedOffset → option NaiveDateTime;
}.

(** [a.then(b)]. *)
Definition cmp_then (a b : comparison) : comparison := match a with Eq => b | _ => a end.

(** Seconds since the first day, of a local date-time. *)
Definition local_secs (dt : NaiveDateTime) : Z :=
  day_number (dt_date dt) * 86400 + num_seconds_from_midnight (dt_time dt).

Class ChronoOrderLaws `{ChronoOrder} : Prop := {
  law_date_cmp a b : valid_date a → valid_date b →
    date_cmp a b = Z.compare (day_number a) (day_number b);
  law_time_cmp a b : valid_time a → valid_time b →
    time_cmp a b =
      cmp_then (Z.compare (num_seconds_from_midnight a) (num_seconds_from_midnight b))
               (Z.compare (nanosecond a) (nanosecond b));
  law_datetime_cmp a b : valid_datetime a → valid_datetime b →
    datetime_cmp a b = cmp_then (date_cmp (dt_date a) (dt_date b)) (time_cmp (dt_time a) (dt_time b));
  law_time_sub t off : valid_time t → valid_offset off →
    time_sub_offset t off =
      mkTime ((num_seconds_from_midnight t - local_minus_utc off) `mod` 86400) (nanosecond t);
  law_datetime_sub dt off dt' : valid_datetime dt → leap_free (dt_time dt) → valid_offset off →
    datetime_sub_offset dt off = Some dt' ↔
    valid_datetime dt' ∧ nanosecond (dt_time dt') = nanosecond (dt_time dt)
    ∧ local_secs dt' = local_secs dt - local_minus_utc off;
}.

(** ** Equality *)
Section equality.
Definition tri_and (r rest : value) : value :=
  match r with
  | Value.Bool false => Value.Bool false
  | Value.Null => match rest with Value.Bool true => Value.Null | _ => rest end
  | _ => rest
  end.

(** The loop over two lists of one length: the first false ends it, a null is
    remembered. *)
Fixpoint lists_loop (f : value → value → value) (a b : list value) : value :=
  match a, b with
  | x :: a', y :: b' => tri_and (f x y) (lists_loop f a' b')
  | _, _ => Value.Bool true
  end.
Definition lists_equal (f : value → value → value) (a b : list value) : value :=
  if decide (length a = length b) then lists_loop f a b else Value.Bool false.

(** The loop over the keys; its result does not depend on their order. *)
Definition maps_equal (f : value → value → value) (a b : gmap string value) : value :=
  if decide (dom a = dom b) then
    map_fold (λ k v rest, match b !! k with Some w => tri_and (f v w) rest | None => rest end)
      (Value.Bool true) a
  else Value.Bool false.

Definition paths_equal (a b : PathValue) : value :=
  if negb (Nat.eqb (length (path_nodes a)) (length (path_nodes b)))
     || negb (Nat.eqb (length (path_edges a)) (length (path_edges b)))
  then Value.Bool false
  else Value.Bool
    (forallb2 (λ n1 n2, N.eqb (node_id n1) (node_id n2)) (path_nodes a) (path_nodes b)
     && forallb2 (λ e1 e2, N.eqb (edge_src e1) (edge_src e2) && N.eqb (edge_dst e1) (edge_dst e2)
                           && String.eqb (edge_label e1) (edge_label e2))
          (path_edges a) (path_edges b)).

(** [==] of two doubles given by their bits, and of an integer and a double. *)
Definition bits_eqb (a b : N) : bool := f64_eqb (f64_of_bits a) (f64_of_bits b).
Definition int_eqb (n : Z) (b : N) : bool := f64_eqb (f64_of_int n) (f64_of_bits b).

Fixpoint values_equal (a b : value) {struct a} : value :=
  match a, b with
  | Value.Null, _ | _, Value.Null => Value.Null
  | Value.Bool a, Value.Bool b => Value.Bool (Bool.eqb a b)
  | Value.I64 a, Value.I64 b => Value.Bool (a =? b)
  | Value.F64 a, Value.F64 b => Value.Bool (bits_eqb a b)
  | Value.I64 a, Value.F64 b => Value.Bool (int_eqb a b)
  | Value.F64 a, Value.I64 b => Value.Bool (f64_eqb (f64_of_bits a) (f64_of_int b))
  | Value.String a, Value.String b => Value.Bool (String.eqb a b)
  | Value.List a, Value.List b => lists_equal values_equal a b
  | Value.Map a, Value.Map b => maps_equal values_equal a b
  | Value.Node a, Value.Node b => Value.Bool (N.eqb (node_id a) (node_id b))
  | Value.Edge a, Value.Edge b => Value.Bool (edge_eqb value_eqb a b)
  | Value.Date a, Value.Date b => Value.Bool (bool_decide (a = b))
  | Value.LocalTime a, Value.LocalTime b => Value.Bool (bool_decide (a = b))
  | Value.Time a c, Value.Time b d =>
      Value.Bool (bool_decide (a = b) && bool_decide (c = d))
  | Value.LocalDateTime a, Value.LocalDateTime b => Value.Bool (bool_decide (a = b))
  | Value.DateTime a c e, Value.DateTime b d f =>
      Value.Bool (bool_decide (a = b) && bool_decide (c = d) && bool_decide (e = f))
  | Value.Duration a, Value.Duration b => Value.Bool (duration_eqb a b)
  | Value.Path a, Value.Path b => paths_equal a b
  | _, _ => Value.Bool false
  end.
End equality.

(** ** Order *)
Definition is_numeric (v : value) : bool :=
  match v with Value.I64 _ | Value.F64 _ => true | _ => false end.

Definition bool_cmp (a b : bool) : comparison := Z.compare (Z.b2z a) (Z.b2z b).
Definition str_cmp (a b : string) : comparison := bytes_cmp (str_bytes a) (str_bytes b).
Definition len_cmp (a b : list value) : comparison := Nat.compare (length a) (length b).

Section order.
Context {Co : ChronoOrder}.

(** [a.0 - a.1]. *)
Definition utc_of (dt : NaiveDateTime) (off : FixedOffset) : Res NaiveDateTime :=
  match datetime_sub_offset dt off with Some u => Ok u | None => Panic end.
Definition datetime_utc_cmp (a : NaiveDateTime) (c : FixedOffset) (b : NaiveDateTime)
    (d : FixedOffset) : Res comparison :=
  a_utc ← utc_of a c; b_utc ← utc_of b d; Ok (datetime_cmp a_utc b_utc).

(** The first pair of elements that differs or is incomparable decides. *)
Fixpoint lists_cmp (f : value → value → Res (option comparison)) (a b : list value)
    (rest : comparison) : Res (option comparison) :=
  match a, b with
  | x :: a', y :: b' =>
      o ← f x y;
      match o with Some Eq => lists_cmp f a' b' rest | other => Ok other end
  | _, _ => Ok (Some rest)
  end.

Fixpoint compare_values (a b : value) {struct a} : Res (option comparison) :=
  match a, b with
  | Value.Bool a, Value.Bool b => Ok (Some (bool_cmp a b))
  | Value.I64 a, Value.I64 b => Ok (Some (Z.compare a b))
  | Value.F64 a, Value.F64 b => Ok (f64_cmp (f64_of_bits a) (f64_of_bits b))
  | Value.I64 a, Value.F64 b => Ok (f64_cmp (f64_of_int a) (f64_of_bits b))
  | Value.F64 a, Value.I64 b => Ok (f64_cmp (f64_of_bits a) (f64_of_int b))
  | Value.String a, Value.String b => Ok (Some (str_cmp a b))
  | Value.Date a, Value.Date b => Ok (Some (date_cmp a b))
  | Value.LocalTime a, Value.LocalTime b => Ok (Some (time_cmp a b))
  | Value.Time a c, Value.Time b d =>
      Ok (Some (time_cmp (time_sub_offset a c) (time_sub_offset b d)))
  | Value.LocalDateTime a, Value.LocalDateTime b => Ok (Some (datetime_cmp a b))
  | Value.DateTime a c _, Value.DateTime b d _ => Some <$> datetime_utc_cmp a c b d
  | Value.List a, Value.List b => lists_cmp compare_values a b (len_cmp a b)
  | _, _ => Ok None
  end.

Definition compare_to_value (a b : value) (pred : comparison → bool) : Res value :=
  match a, b with
  | Value.Null, _ | _, Value.Null => Ok Value.Null
  | _, _ =>
      o ← compare_values a b;
      Ok (match o with
          | Some ord => Value.Bool (pred ord)
          | None => if is_numeric a && is_numeric b then Value.Bool false else Value.Null
          end)
  end.

(** *** ORDER BY *)
Definition type_rank (v : value) : Z :=
  match v with
  | Value.Map _ => 0
  | Value.Node _ => 1
  | Value.Edge _ => 2
  | Value.List _ => 3
  | Value.Path _ => 4
  | Value.String _ => 5
  | Value.Bool _ => 6
  | Value.I64 _ | Value.F64 _ => 7
  | Value.Null => 8
  | Value.Date _ | Value.LocalTime _ | Value.Time _ _ | Value.LocalDateTime _
  | Value.DateTime _ _ _ | Value.Duration _ => 7
  end.

(** [a.partial_cmp(&b).unwrap_or(Equal)], and with NaN after every number. *)
Definition or_equal (o : option comparison) : comparison := default Eq o.
Definition f64_sort_cmp (a b : f64) : comparison :=
  match is_nan a, is_nan b with
  | true, true => Eq
  | true, false => Gt
  | false, true => Lt
  | false, false => or_equal (f64_cmp a b)
  end.

Definition duration_cmp (a b : CypherDuration) : comparison :=
  cmp_then (Z.compare (months a) (months b))
    (cmp_then (Z.compare (days a) (days b))
      (cmp_then (Z.compare (seconds a) (seconds b)) (Z.compare (nanos a) (nanos b)))).

Fixpoint lists_sort_cmp (f : value → value → Res comparison) (a b : list value)
    (rest : comparison) : Res comparison :=
  match a, b with
  | x :: a', y :: b' =>
      o ← f x y;
      match o with Eq => lists_sort_cmp f a' b' rest | _ => Ok o end
  | _, _ => Ok rest
  end.

Fixpoint compare_values_for_sort (a b : value) {struct a} : Res comparison :=
  match a, b with
  | Value.Bool a, Value.Bool b => Ok (bool_cmp a b)
  | Value.I64 a, Value.I64 b => Ok (Z.compare a b)
  | Value.F64 a, Value.F64 b => Ok (f64_sort_cmp (f64_of_bits a) (f64_of_bits b))
  | Value.I64 a, Value.F64 b =>
      if is_nan (f64_of_bits b) then Ok Lt
      else Ok (or_equal (f64_cmp (f64_of_int a) (f64_of_bits b)))
  | Value.F64 a, Value.I64 b =>
      if is_nan (f64_of_bits a) then Ok Gt
      else Ok (or_equal (f64_cmp (f64_of_bits a) (f64_of_int b)))
  | Value.String a, Value.String b => Ok (str_cmp a b)
  | Value.List a, Value.List b => lists_sort_cmp compare_values_for_sort a b (len_cmp a b)
  | Value.Date a, Value.Date b => Ok (date_cmp a b)
  | Value.LocalTime a, Value.LocalTime b => Ok (time_cmp a b)
  | Value.Time a c, Value.Time b d =>
      Ok (time_cmp (time_sub_offset a c) (time_sub_offset b d))
  | Value.LocalDateTime a, Value.LocalDateTime b => Ok (datetime_cmp a b)
  | Value.DateTime a c _, Value.DateTime b d _ => datetime_utc_cmp a c b d
  | Value.Duration a, Value.Duration b => Ok (duration_cmp a b)
  | _, _ => Ok (Z.compare (type_rank a) (type_rank b))
  end.
End order.

(** ** Kinds of values *)
Definition value_type_name (v : value) : string :=
  match v with
  | Value.Bool _ => "Boolean"
  | Value.I64 _ => "Integer"
  | Value.F64 _ => "Float"
  | Value.String _ => "String"
  | Value.List _ => "List"
  | Value.Map _ => "Map"
  | Value.Null => "Null"
  | Value.Node _ => "Node"
  | Value.Edge _ => "Relationship"
  | Value.Path _ => "Path"
  | Value.Date _ => "Date"
  | Value.LocalTime _ => "LocalTime"
  | Value.Time _ _ => "Time"
  | Value.LocalDateTime _ => "LocalDateTime"
  | Value.DateTime _ _ _ => "DateTime"
  | Value.Duration _ => "Duration"
  end.

Definition to_tribool (v : value) : Res (option bool) :=
  match v with
  | Value.Bool b => Ok (Some b)
  | Value.Null => Ok None
  | _ => Err (GraphError.Query (QueryError.SyntaxError Runtime ErrorCode.Other
           ("Type mismatch: expected Boolean but was " +:+ value_type_name v) None None))
  end.

Definition literal_to_value (lit : LiteralValue) : value :=
  match lit with
  | LiteralValue.Null => Value.Null
  | LiteralValue.Bool b => Value.Bool b
  | LiteralValue.I64 n => Value.I64 n
  | LiteralValue.F64 n => Value.F64 n
  | LiteralValue.String s => Value.String s
  end.

(** ** A reference order, on the reference calendar *)
Module GregorianOrder.
Definition ref_time_cmp (a b : NaiveTime) : comparison :=
  cmp_then (Z.compare (num_seconds_from_midnight a) (num_seconds_from_midnight b))
           (Z.compare (nanosecond a) (nanosecond b)).
Definition ref_date_cmp (a b : NaiveDate) : comparison :=
  Z.compare (day_number a) (day_number b).
Definition ref_datetime_sub (dt : NaiveDateTime) (off : FixedOffset) : option NaiveDateTime :=
  let n := local_secs dt - local_minus_utc off in
  (λ d, mkDateTime d (mkTime (n `mod` 86400) (nanosecond (dt_time dt)))) <$> Gregorian.date_of (n / 86400).

#[export] Instance gregorian_order : ChronoOrder := {
  date_cmp := ref_date_cmp;
  time_cmp := ref_time_cmp;
  datetime_cmp a b := cmp_then (ref_date_cmp (dt_date a) (dt_date b))
                               (ref_time_cmp (dt_time a) (dt_time b));
  time_sub_offset t off :=
    mkTime ((num_seconds_from_midnight t - local_minus_utc off) `mod` 86400) (nanosecond t);
  datetime_sub_offset := ref_datetime_sub;
}.

#[export] Instance gregorian_order_laws : ChronoOrderLaws.
Proof.
  split; try done. intros dt off dt' V L _. simpl. unfold ref_datetime_sub.
  set (n := local_secs dt - local_minus_utc off).
  pose proof (Z.mod_pos_bound n 86400 ltac:(done)) as B.
  pose proof (Z.div_mod n 86400 ltac:(done)) as D.
  rewrite fmap_Some. split.
  - intros (d & (Vd & E)%Gregorian.date_of_spec & ->).
    destruct V as [_ (_ & Vn & _)]. unfold leap_free in L.
    split_and!; [split; [done|]|done|].
    + unfold valid_time; simpl. lia.
    + unfold local_secs; simpl. lia.
  - intros ([Vd (Vt & Vn & _)] & N & E). exists (dt_date dt').
    assert (n / 86400 = day_number (dt_date dt')
            ∧ n `mod` 86400 = num_seconds_from_midnight (dt_time dt')) as [Q R].
    { unfold local_secs in E. split; div_lia. }
    rewrite Gregorian.date_of_spec, Q, R, <- N. split; [done|].
    by destruct dt' as [? []].
Qed.
End GregorianOrder.
