(* ===== verification/Records.v ===== *)
(** * Rows: src/src/cypher/record.rs, record_v2.rs and record_view.rs

    A row is a list of named values in the order of their insertion, or a vector
    of slots whose names a schema holds.  Expressions read either through the
    same view. *)
From S2P Require Export Errors Fts.

(** ** Rows by name

    [IndexMap]: a list of entries with distinct keys. *)
Module NamedRecord.
Record NamedRecord := mk { fields : list (string * value) }.

Fixpoint lookup_field (key : string) (l : list (string * value)) : option value :=
  match l with
  | [] => None
  | (k, v) :: l' => if decide (k = key) then Some v else lookup_field key l'
  end.
(** [IndexMap::insert]: a key that is present keeps its place. *)
Fixpoint insert_field (key : string) (v : value) (l : list (string * value))
    : list (string * value) :=
  match l with
  | [] => [(key, v)]
  | (k, w) :: l' => if decide (k = key) then (k, v) :: l' else (k, w) :: insert_field key v l'
  end.
(** [IndexMap::swap_remove]: the last entry takes the place of the removed one. *)
Definition swap_remove (key : string) (l : list (string * value)) : list (string * value) :=
  match list_find (λ e : string * value, e.1 = key) l with
  | Some (i, _) =>
      match last l with
      | Some e => take (length l - 1) (<[i := e]> l)
      | None => l
      end
  | None => l
  end.

Definition new : NamedRecord := mk [].
Definition get (key : string) (r : NamedRecord) : option value := lookup_field key (fields r).
Definition set (key : string) (v : value) (r : NamedRecord) : NamedRecord :=
  mk (insert_field key v (fields r)).
Definition remove (key : string) (r : NamedRecord) : NamedRecord :=
  mk (swap_remove key (fields r)).
Definition len (r : NamedRecord) : nat := length (fields r).
Definition is_empty (r : NamedRecord) : bool := bool_decide (fields r = []).
Definition iter (r : NamedRecord) : list (string * value) := fields r.
Definition keys (r : NamedRecord) : list string := (fields r).*1.
Definition values (r : NamedRecord) : list value := (fields r).*2.
Definition name_at (i : nat) (r : NamedRecord) : option string := fst <$> fields r !! i.
Definition value_at (i : nat) (r : NamedRecord) : option value := snd <$> fields r !! i.
End NamedRecord.
Abbreviation NamedRecord := NamedRecord.NamedRecord.
#[global] Instance NamedRecord_eq_dec : EqDecision NamedRecord.
Proof. solve_decision. Defined.

(** [r.set(k, v)] for each entry in turn. *)
Definition set_all (l : list (string * value)) (r : NamedRecord) : NamedRecord :=
  foldl (λ r e, NamedRecord.set e.1 e.2 r) r l.

(** ** Rows by slot *)
Module SlotId.
(** [u32::try_from(i).expect(..)]. *)
Definition from_usize {E} (i : nat) : result E N :=
  if decide (N.of_nat i < 4294967296)%N then Ok (N.of_nat i) else Panic.
Definition index (slot : N) : nat := N.to_nat slot.
End SlotId.

Module SlotRecord.
Record Record := mk { values : list value }.
Definition new : Record := mk [].
Definition with_capacity (n : nat) : Record := mk (replicate n Value.Null).
Definition get (slot : N) (r : Record) : Res value :=
  match values r !! SlotId.index slot with Some v => Ok v | None => Panic end.
Definition set (slot : N) (v : value) (r : Record) : Res Record :=
  if decide (SlotId.index slot < length (values r))
  then Ok (mk (<[SlotId.index slot := v]> (values r))) else Panic.
Definition len (r : Record) : nat := length (values r).
Definition is_empty (r : Record) : bool := bool_decide (values r = []).
Definition push (v : value) (r : Record) : Res (N * Record) :=
  slot ← SlotId.from_usize (length (values r)); Ok (slot, mk (values r ++ [v])).
End SlotRecord.
Abbreviation SlotRecord := SlotRecord.Record.

Module RecordSchema.
Record RecordSchema := mk { by_name : gmap string N; names : list string }.
Definition new : RecordSchema := mk ∅ [].
Definition slot (name : string) (s : RecordSchema) : option N := by_name s !! name.
Definition name (slot : N) (s : RecordSchema) : Res string :=
  match names s !! SlotId.index slot with Some n => Ok n | None => Panic end.
Definition len (s : RecordSchema) : nat := length (names s).
Definition is_empty (s : RecordSchema) : bool := bool_decide (names s = []).
(** The slots with their names, in slot order. *)
Definition iter (s : RecordSchema) : Res (list (N * string)) :=
  collect (λ e : nat * string, slot ← SlotId.from_usize e.1; Ok (slot, e.2))
    (imap (λ i n, (i, n)) (names s)).
Definition add (name : string) (s : RecordSchema) : Res (N * RecordSchema) :=
  match by_name s !! name with
  | Some slot => Ok (slot, s)
  | None =>
      slot ← SlotId.from_usize (length (names s));
      Ok (slot, mk (<[name := slot]> (by_name s)) (names s ++ [name]))
  end.
End RecordSchema.
Abbreviation RecordSchema := RecordSchema.RecordSchema.

(** ** Views

    What expressions see of a row: its fields by name and in order.  Reading a slot
    that the row does not have is a panic. *)
Record RecordView := mkView {
  view_get : string → Res (option value);
  for_each_field : Res (list (string * value)) }.

Definition named_view (r : NamedRecord) : RecordView :=
  mkView (λ name, Ok (NamedRecord.get name r)) (Ok (NamedRecord.fields r)).

(** [SlotView]. *)
Definition slot_view (schema : RecordSchema) (rec : SlotRecord) : RecordView :=
  mkView
    (λ name, match RecordSchema.slot name schema with
             | Some s => v ← SlotRecord.get s rec; Ok (Some v)
             | None => Ok None
             end)
    (slots ← RecordSchema.iter schema;
     collect (λ s : N * string, v ← SlotRecord.get s.1 rec; Ok (s.2, v)) slots).

(** [slot_to_named] of iter_slot.rs. *)
Definition slot_to_named (schema : RecordSchema) (rec : SlotRecord) : Res NamedRecord :=
  slots ← RecordSchema.iter schema;
  fields ← collect (λ s : N * string, v ← SlotRecord.get s.1 rec; Ok (s.2, v)) slots;
  Ok (set_all fields NamedRecord.new).

Definition view_to_named (view : RecordView) : Res NamedRecord :=
  l ← for_each_field view; Ok (set_all l NamedRecord.new).

(** ** Properties of rows *)
Module Import RecordFacts.
Import NamedRecord.

Lemma lookup_field_insert k v l : lookup_field k (insert_field k v l) = Some v.
Proof.
  induction l as [|[k' w] l IH]; simpl; [by rewrite decide_True|].
  case_decide; simpl; [by rewrite decide_True|by rewrite decide_False].
Qed.
Lemma lookup_field_insert_ne k k' v l :
  k ≠ k' → lookup_field k' (insert_field k v l) = lookup_field k' l.
Proof.
  intros Hk. induction l as [|[k'' w] l IH]; simpl; [by rewrite decide_False|].
  case_decide; simpl.
  - subst. by rewrite !decide_False.
  - case_decide; [done|apply IH].
Qed.
Lemma get_set k v r : get k (set k v r) = Some v.
Proof. apply lookup_field_insert. Qed.
Lemma get_set_ne k k' v r : k ≠ k' → get k' (set k v r) = get k' r.
Proof. apply lookup_field_insert_ne. Qed.

Lemma insert_field_new k v l : k ∉ l.*1 → insert_field k v l = l ++ [(k, v)].
Proof.
  induction l as [|[k' w] l IH]; simpl; intros Hk; [done|].
  apply not_elem_of_cons in Hk as [Hne Hk]. rewrite decide_False by congruence.
  by rewrite IH.
Qed.
Lemma set_all_fresh l r : NoDup ((fields r).*1 ++ l.*1) → fields (set_all l r) = fields r ++ l.
Proof.
  revert r. induction l as [|[k v] l IH]; intros r Hn; [by rewrite app_nil_r|].
  change (set_all ((k, v) :: l) r) with (set_all l (set k v r)).
  assert (fields (set k v r) = fields r ++ [(k, v)]) as E.
  { apply insert_field_new. intros Hk. apply NoDup_app in Hn as (_ & Hd & _).
    apply (Hd k Hk). left. }
  rewrite IH.
  - rewrite E. by rewrite <- app_assoc.
  - rewrite E, fmap_app, <- app_assoc. exact Hn.
Qed.
Lemma insert_field_keys k v l : NoDup l.*1 → NoDup (insert_field k v l).*1.
Proof.
  assert (∀ x l, x ∈ (insert_field k v l).*1 → x = k ∨ x ∈ l.*1) as Hin.
  { clear. intros x l. induction l as [|[k' w] l IH]; simpl; [set_solver|].
    case_decide; simpl; [set_solver|]. rewrite !elem_of_cons. naive_solver. }
  induction l as [|[k' w] l IH]; simpl; intros Hn; [apply NoDup_singleton|].
  apply NoDup_cons in Hn as [Hx Hn]. case_decide; simpl; [by constructor|].
  constructor; [|by apply IH]. intros Hx'. apply Hin in Hx' as [->|?]; done.
Qed.
End RecordFacts.
Arguments NamedRecord.get : simpl never.
Arguments NamedRecord.set : simpl never.

(** * Nodes and edges in rows: src/src/cypher/executor/read.rs and util.rs

    A row holds a node under a name as flat fields, [n.__id], [n.__labels] and one
    for each property; an edge likewise.  This file writes and reads that shape. *)

Definition dot (var key : string) : string := var +:+ "." +:+ key.

(** ** Writing a node *)
Definition label_values (labels : list string) : value := Value.List (Value.String <$> labels).
Definition id_value (id : N) : value := Value.I64 (i64_of_u64 id).

(** A [HashMap] is walked in some order. *)
Definition populate_node_bindings (n : Node) (alias : string) (rec : NamedRecord) : NamedRecord :=
  let rec := NamedRecord.set alias (id_value (node_id n)) rec in
  let rec := set_all ((λ p : string * value, (dot alias p.1, p.2)) <$> map_to_list (node_properties n)) rec in
  let rec := NamedRecord.set (dot alias "__label") (Value.String (join ":" (node_labels n))) rec in
  let rec := NamedRecord.set (dot alias "__labels") (label_values (node_labels n)) rec in
  NamedRecord.set (dot alias "__id") (id_value (node_id n)) rec.

Definition node_to_record (n : Node) (alias : string) : NamedRecord :=
  populate_node_bindings n alias NamedRecord.new.

(** ** Reading a node or an edge *)
Definition str_starts (p s : string) : bool :=
  match strip_prefix p s with Some _ => true | None => false end.

(** The fields [var.prop] that do not begin with two underscores. *)
Definition bound_property (var : string) (e : string * value) : option (string * value) :=
  prop ← strip_prefix (var +:+ ".") e.1;
  if str_starts "__" prop then None else Some (prop, e.2).
Definition bound_properties (var : string) (l : list (string * value)) : Properties :=
  foldl (λ m e, <[e.1 := e.2]> m) ∅ (omap (bound_property var) l).

Definition split_labels (label_str : string) : list string :=
  if decide (label_str = "") then [] else str_split ":" label_str.

(** [Some(Value::I64(n))] and [Some(Value::String(s))]. *)
Definition int_field (o : option value) : option Z :=
  match o with Some (Value.I64 n) => Some n | _ => None end.
Definition str_field (o : option value) : option string :=
  match o with Some (Value.String s) => Some s | _ => None end.
(** A list or a path is bound as it is. *)
Definition whole_field (o : option value) : option value :=
  match o with
  | Some (Value.List l) => Some (Value.List l)
  | Some (Value.Path p) => Some (Value.Path p)
  | _ => None
  end.

Definition edge_binding (rec : RecordView) (var : string) : Res (option value) :=
  src ← view_get rec (dot var "__src");
  dst ← view_get rec (dot var "__dst");
  type_ ← view_get rec (dot var "__type");
  match int_field src, int_field dst, str_field type_ with
  | Some src, Some dst, Some label =>
      l ← for_each_field rec;
      Ok (Some (Value.Edge (mkEdge (u64_of_i64 src) (u64_of_i64 dst) label
                              (bound_properties var l))))
  | _, _, _ => Ok None
  end.

Definition node_binding (rec : RecordView) (var : string) : Res (option value) :=
  id ← view_get rec (dot var "__id");
  label ← view_get rec (dot var "__label");
  match int_field id, str_field label with
  | Some id, Some label_str =>
      l ← for_each_field rec;
      Ok (Some (Value.Node (mkNode (u64_of_i64 id) (split_labels label_str)
                              (bound_properties var l))))
  | _, _ => Ok None
  end.

Definition build_compound_binding (rec : RecordView) (var : string) : Res (option value) :=
  whole ← view_get rec var;
  match whole_field whole with
  | Some v => Ok (Some v)
  | None =>
      edge ← edge_binding rec var;
      match edge with Some e => Ok (Some e) | None => node_binding rec var end
  end.

(** The names bound to nodes or edges, in order and each once. *)
Definition compound_binding_vars (rec : RecordView) : Res (list string) :=
  l ← for_each_field rec;
  Ok (sort_labels (elements (list_to_set (C := gset string)
    (omap (λ e : string * value,
       p ← split_once "." e.1;
       if bool_decide (p.2 = "__id" ∨ p.2 = "__src") then Some p.1 else None) l)))).

Definition is_user_visible_field (key : string) : bool :=
  match split_once "." key with Some (_, prop) => negb (str_starts "__" prop) | None => false end.

(** [rec.get(var) == Some(&Value::Null)], and the mark of a deleted entity. *)
Definition is_null_field (o : option value) : bool :=
  match o with Some Value.Null => true | _ => false end.
Definition is_deleted_field (o : option value) : bool :=
  match o with Some (Value.Bool true) => true | _ => false end.
Definition deleted_entity (message : string) : GraphError :=
  GraphError.Query (QueryError.EntityNotFound Runtime ErrorCode.Other
    ("DeletedEntityAccess: " +:+ message) None None).
