(* ===== verification/ValueText.v ===== *)
(** * Names of result columns: src/src/cypher/eval/column_name.rs

    The text of an expression, which names its column and under which aggregated
    values are looked up. *)
From S2P Require Export Ir Text Floats Records Temporal Durations.
#[local] Open Scope Z_scope.

(** ** Operators *)
Definition binop_precedence (op : BinOp) : Z :=
  match op with
  | BinOp.Or => 1
  | BinOp.Xor => 2
  | BinOp.And => 3
  | BinOp.Eq | BinOp.Neq | BinOp.Lt | BinOp.Gt | BinOp.Lte | BinOp.Gte => 5
  | BinOp.In | BinOp.StartsWith | BinOp.EndsWith | BinOp.Contains | BinOp.RegexMatch => 5
  | BinOp.Add | BinOp.Sub => 6
  | BinOp.Mul | BinOp.Div | BinOp.Mod => 7
  | BinOp.Pow => 8
  end.

Definition op_str (op : BinOp) : string :=
  match op with
  | BinOp.Add => " + "
  | BinOp.Sub => " - "
  | BinOp.Mul => " * "
  | BinOp.Div => " / "
  | BinOp.Mod => " % "
  | BinOp.Pow => " ^ "
  | BinOp.Eq => " = "
  | BinOp.Neq => " <> "
  | BinOp.Lt => " < "
  | BinOp.Gt => " > "
  | BinOp.Lte => " <= "
  | BinOp.Gte => " >= "
  | BinOp.And => " AND "
  | BinOp.Or => " OR "
  | BinOp.Xor => " XOR "
  | BinOp.In => " IN "
  | BinOp.StartsWith => " STARTS WITH "
  | BinOp.EndsWith => " ENDS WITH "
  | BinOp.Contains => " CONTAINS "
  | BinOp.RegexMatch => " =~ "
  end.

(** ** Literals *)
Definition bool_text (b : bool) : string := if b then "true" else "false".
Definition i64_text (n : Z) : string := bytes_str (dec_signed n).
Definition literal_text (lit : LiteralValue) : string :=
  match lit with
  | LiteralValue.Null => "null"
  | LiteralValue.Bool b => bool_text b
  | LiteralValue.I64 n => i64_text n
  | LiteralValue.F64 n => bytes_str (f64_display (f64_of_bits n))
  | LiteralValue.String s => "'" +:+ s +:+ "'"
  end.

(** ** Expressions *)
Definition is_star (e : Expr) : bool := match expr_kind e with Star => true | _ => false end.

Definition needs_parens (e : Expr) (parent_prec : Z) (is_left : bool) : bool :=
  match expr_kind e with
  | BinaryOp _ op _ =>
      let child_prec := binop_precedence op in
      (child_prec <? parent_prec) || ((child_prec =? parent_prec) && negb is_left)
  | _ => false
  end.
Definition format_child_expr (name : Expr → string) (e : Expr) (parent_prec : Z) (is_left : bool)
    : string :=
  let s := name e in if needs_parens e parent_prec is_left then "(" +:+ s +:+ ")" else s.

(** Bases that need no parentheses before a dot. *)
Definition is_dotted (e : Expr) : bool :=
  match expr_kind e with Variable_ _ | DotAccess _ _ | Property _ _ => true | _ => false end.

Fixpoint expr_to_column_name (e : Expr) : string :=
  match expr_kind e with
  | Variable_ name => name
  | Property var prop => var +:+ "." +:+ prop
  | FunctionCall name args distinct original_text =>
      match original_text with
      | Some text => text
      | None =>
          match args with
          | [] => name +:+ "(*)"
          | a :: _ =>
              if is_star a then name +:+ "(*)"
              else name +:+ "(" +:+ (if distinct : bool then "DISTINCT " else "")
                   +:+ join ", " (List.map expr_to_column_name args) +:+ ")"
          end
      end
  | Star => "*"
  | Literal lit => literal_text lit
  | Case _ _ _ => "CASE"
  | ListLit items => "[" +:+ join ", " (List.map expr_to_column_name items) +:+ "]"
  | Index e' index => expr_to_column_name e' +:+ "[" +:+ expr_to_column_name index +:+ "]"
  | DotAccess e' key =>
      let base := expr_to_column_name e' in
      if is_dotted e' then base +:+ "." +:+ key else "(" +:+ base +:+ ")." +:+ key
  | Slice e' start end_ =>
      expr_to_column_name e' +:+ "["
      +:+ (match start with Some s => expr_to_column_name s | None => "" end) +:+ ".."
      +:+ (match end_ with Some s => expr_to_column_name s | None => "" end) +:+ "]"
  | BinaryOp l op r =>
      let prec := binop_precedence op in
      format_child_expr expr_to_column_name l prec true +:+ op_str op
      +:+ format_child_expr expr_to_column_name r prec false
  | IsNull inner => expr_to_column_name inner +:+ " IS NULL"
  | IsNotNull inner => expr_to_column_name inner +:+ " IS NOT NULL"
  | Not inner => "NOT " +:+ expr_to_column_name inner
  | PatternComprehension _ _ _ _ => "_expr"
  | Parameter_ name => "$" +:+ name
  | HasLabel var labels =>
      "(" +:+ var +:+ join "" (List.map (λ l, ":" +:+ l) labels) +:+ ")"
  | MapLiteral pairs =>
      "{" +:+ join ", " (List.map (λ p : string * Expr, p.1 +:+ ": " +:+ expr_to_column_name p.2) pairs)
      +:+ "}"
  | _ => "_expr"
  end.

(** ** Aggregates: executor/util.rs *)
Definition agg_fn_name (f : AggregateFunction) : string :=
  match f with
  | Count => "count"
  | Sum => "sum"
  | Avg => "avg"
  | Min => "min"
  | Max => "max"
  | Collect => "collect"
  | PercentileDisc => "percentileDisc"
  | PercentileCont => "percentileCont"
  | StDev => "stDev"
  | StDevP => "stDevP"
  end.

Definition agg_col_name (agg : AggregateExpr) : string :=
  match ag_alias agg with
  | Some alias => alias
  | None =>
      match ag_original_call_text agg with
      | Some text => text
      | None =>
          let name := if decide (ag_original_name agg = "") then agg_fn_name (ag_function agg)
                      else ag_original_name agg in
          expr_to_column_name
            (synthetic (FunctionCall name [ag_input agg] (ag_distinct agg) None))
      end
  end.

(** The functions whose values the Aggregate operator computes. *)
Definition aggregate_names : list string :=
  ["count"; "sum"; "avg"; "min"; "max"; "collect"; "percentiledisc"; "percentilecont"; "stdev";
   "stdevp"].

#[local] Abbreviation var x := (synthetic (Variable_ x)).
Example name_of_product :
  expr_to_column_name (synthetic (BinaryOp
    (synthetic (BinaryOp (var "a") BinOp.Add (var "b"))) BinOp.Mul
    (synthetic (BinaryOp (var "c") BinOp.Mul (var "d"))))) = "(a + b) * (c * d)".
Proof. vm_compute. reflexivity. Qed.
Example name_of_call :
  expr_to_column_name (synthetic (FunctionCall "f" [var "a"; synthetic (Literal (LiteralValue.F64
    4611686018427387904))] true None)) = "f(DISTINCT a, 2)".
Proof. vm_compute. reflexivity. Qed.
#[local] Close Scope Z_scope.

(** * Display of values: src/src/types.rs

    [impl Display for Value]: the text that messages and the command line show. *)

(** The entries of a map in the order of their keys, each as [k: v]. *)
Definition entries_text (m : gmap string string) : string :=
  join ", " ((λ k, k +:+ ": " +:+ default "" (m !! k)) <$> sort_labels (map_to_list m).*1).

Definition labels_text (labels : list string) : string := join "" ((λ l, ":" +:+ l) <$> labels).

(** [{..}] of the properties, with what comes before it, unless there are none. *)
Definition block_text (before : string) (props : gmap string string) : string :=
  if decide (props = ∅) then "" else before +:+ "{" +:+ entries_text props +:+ "}".

Definition quote_text (s : string) : string :=
  bytes_str [x22] +:+ s +:+ bytes_str [x22].

(** Nodes and edges whose property values are already texts. *)
Abbreviation text_node := (node_of string).
Abbreviation text_edge := (edge_of string).

Definition node_text (n : text_node) : string :=
  "(" +:+ labels_text (node_labels n) +:+ block_text " " (node_properties n) +:+ ")".
Definition edge_text (e : text_edge) : string :=
  "[:" +:+ edge_label e +:+ " {" +:+ entries_text (edge_properties e) +:+ "}]".

(** Inside a path a node without labels has no space before its properties. *)
Definition path_node_text (n : text_node) : string :=
  "(" +:+ labels_text (node_labels n)
  +:+ block_text (match node_labels n with [] => "" | _ => " " end) (node_properties n) +:+ ")".
Definition step_text (prev : text_node) (edge : text_edge) (next : text_node) : string :=
  let forward := N.eqb (node_id prev) (edge_src edge) in
  (if forward then "-[:" else "<-[:") +:+ edge_label edge
  +:+ block_text " " (edge_properties edge)
  +:+ (if forward then "]->" else "]-") +:+ path_node_text next.
Fixpoint steps_text (prev : text_node) (edges : list text_edge) (rest : list text_node) : string :=
  match edges, rest with
  | e :: edges', n :: rest' => step_text prev e n +:+ steps_text n edges' rest'
  | _, _ => ""
  end.
Definition path_text (nodes : list text_node) (edges : list text_edge) : string :=
  "<" +:+ match nodes with
          | [] => ""
          | first :: rest => path_node_text first +:+ steps_text first edges rest
          end +:+ ">".

Definition map_node {V W} (f : V → W) (n : node_of V) : node_of W :=
  mkNode (node_id n) (node_labels n) (f <$> node_properties n).
Definition map_edge {V W} (f : V → W) (e : edge_of V) : edge_of W :=
  mkEdge (edge_src e) (edge_dst e) (edge_label e) (f <$> edge_properties e).

Section display.
Context {Ch : Chrono}.
Fixpoint value_display (v : value) : string :=
  match v with
  | Value.Null => "null"
  | Value.Bool b => bool_text b
  | Value.I64 n => i64_text n
  | Value.F64 n => bytes_str (f64_display (f64_of_bits n))
  | Value.String s => quote_text s
  | Value.List items => "[" +:+ join ", " (List.map value_display items) +:+ "]"
  | Value.Node n => node_text (map_node value_display n)
  | Value.Edge e => edge_text (map_edge value_display e)
  | Value.Path p =>
      path_text (List.map (map_node value_display) (path_nodes p))
                (List.map (map_edge value_display) (path_edges p))
  | Value.Map m => "{" +:+ entries_text (value_display <$> m) +:+ "}"
  | Value.Date d => bytes_str (date_display d)
  | Value.LocalTime t => bytes_str (local_time_display t)
  | Value.Time t off => bytes_str (time_display t off)
  | Value.LocalDateTime dt => bytes_str (local_datetime_display dt)
  | Value.DateTime dt off tz => bytes_str (datetime_display dt off tz)
  | Value.Duration d => bytes_str (duration_display d)
  end.
End display.

Example display_of_map `{Chrono} :
  value_display (Value.Map {["b" := Value.I64 1; "a" := Value.List [Value.Null; Value.Bool true]]})
  = "{a: [null, true], b: 1}".
Proof. vm_compute. reflexivity. Qed.
Example display_of_path `{Chrono} :
  value_display (Value.Path (mkPath
    [mkNode 1 [] {["x" := Value.I64 1]}; mkNode 2 ["B"] ∅; mkNode 3 ["C"; "D"] {["y" := Value.I64 2]}]
    [mkEdge 1 2 "R" ∅; mkEdge 3 2 "S" ∅]))
  = "<({x: 1})-[:R]->(:B)<-[:S]-(:C:D {y: 2})>".
Proof. vm_compute. reflexivity. Qed.
