(* ===== verification/Functions.v ===== *)
(** * Operators of expressions: [eval_binop] of src/src/cypher/eval/mod.rs

    Operators on two values.  Matching a regular expression goes through the cache
    of the query, so operators run in the state of the evaluator. *)
From S2P Require Export Compare Durations ValueText Caches Records Temporal.
#[local] Open Scope Z_scope.

(** ** What evaluation may do besides reading *)

(** The regex cache behind [=~] and the random bits behind [rand()]. *)
Record Effects (S : Type) := mkEffects {
  eff_is_match : string → string → M S GraphError bool;
  eff_random : M S GraphError N }.
Arguments mkEffects {S} _ _.
Arguments eff_is_match {S} _ _ _.
Arguments eff_random {S} _.

Section effects.
Context {Regex R : Type} (compile : string → result string Regex)
  (regex_is_match : Regex → string → bool) (random : R → N * R).

(** The scope of a query holds a cache. *)
Definition cached_effects : Effects (RegexCache (Regex := Regex) * R) :=
  mkEffects
    (λ l r s,
      let '(c, re) := get_or_compile compile r s.1 in
      ((c, s.2), (λ re, regex_is_match re l) <$> re))
    (λ s, let '(n, g) := random s.2 in ((s.1, g), Ok n)).

(** Without a scope each match has a cache of its own. *)
Definition direct_effects : Effects R :=
  mkEffects
    (λ l r s,
      (s, (λ re, regex_is_match re l)
            <$> (get_or_compile compile r (mkRegexCache [] REGEX_DEFAULT_CAPACITY)).2))
    (λ s, let '(n, g) := random s in (g, Ok n)).
End effects.

(** ** Arithmetic *)
Definition checked (n : Z) : option Z := if decide (in_i64 n) then Some n else None.
Definition checked_div (a b : Z) : option Z := if b =? 0 then None else checked (Z.quot a b).
(** [i64::MIN % -1] overflows with the quotient. *)
Definition checked_rem (a b : Z) : option Z :=
  if b =? 0 then None else if (a =? i64_min) && (b =? -1) then None else Some (Z.rem a b).

Definition F (x : f64) : value := Value.F64 (f64_to_bits x).

Definition arithmetic_type_error (op_name : string) (left right : value) : GraphError :=
  GraphError.with_code
    (GraphError.type_error Runtime
       ("Type mismatch: cannot apply `" +:+ op_name +:+ "` to " +:+ value_type_name left
        +:+ " and " +:+ value_type_name right))
    ErrorCode.InvalidArgumentType.

Definition integer_overflow (a : Z) (op_name : string) (b : Z) : GraphError :=
  GraphError.number_out_of_range Runtime
    ("integer overflow: " +:+ i64_text a +:+ " " +:+ op_name +:+ " " +:+ i64_text b).

Definition eval_arithmetic (left right : value) (op_name : string)
    (int_op : Z → Z → option Z) (float_op : f64 → f64 → f64) : Res value :=
  match left, right with
  | Value.Null, _ | _, Value.Null => Ok Value.Null
  | Value.I64 a, Value.I64 b => Value.I64 <$> ok_or (int_op a b) (integer_overflow a op_name b)
  | Value.F64 a, Value.F64 b => Ok (F (float_op (f64_of_bits a) (f64_of_bits b)))
  | Value.I64 a, Value.F64 b => Ok (F (float_op (f64_of_int a) (f64_of_bits b)))
  | Value.F64 a, Value.I64 b => Ok (F (float_op (f64_of_bits a) (f64_of_int b)))
  | Value.String a, Value.String b => Ok (Value.String (a +:+ b))
  | _, _ => Err (arithmetic_type_error op_name left right)
  end.

(** ** Logic *)
Definition tri_value (o : option bool) : value :=
  match o with Some b => Value.Bool b | None => Value.Null end.

Definition tri_op (f : option bool → option bool → value) (left right : value) : Res value :=
  a ← to_tribool left; b ← to_tribool right; Ok (f a b).
Definition eval_and (a b : option bool) : value :=
  match a, b with
  | Some false, _ | _, Some false => Value.Bool false
  | Some true, Some true => Value.Bool true
  | _, _ => Value.Null
  end.
Definition eval_xor (a b : option bool) : value :=
  match a, b with Some a, Some b => Value.Bool (xorb a b) | _, _ => Value.Null end.
Definition eval_or (a b : option bool) : value :=
  match a, b with
  | Some true, _ | _, Some true => Value.Bool true
  | Some false, Some false => Value.Bool false
  | _, _ => Value.Null
  end.
Definition eval_neq (left right : value) : value :=
  match values_equal left right with Value.Bool b => Value.Bool (negb b) | other => other end.

(** [STARTS WITH], [ENDS WITH] and [CONTAINS]. *)
Definition eval_string_test (test : string → string → bool) (left right : value) : value :=
  match left, right with
  | Value.Null, _ | _, Value.Null => Value.Null
  | Value.String l, Value.String r => Value.Bool (test l r)
  | _, _ => Value.Null
  end.

(** [IN]. *)
Fixpoint in_loop (v : value) (has_null : bool) (items : list value) : value :=
  match items with
  | [] => if has_null then Value.Null else Value.Bool false
  | item :: items' =>
      match values_equal v item with
      | Value.Bool true => Value.Bool true
      | Value.Null => in_loop v true items'
      | _ => in_loop v has_null items'
      end
  end.
Definition eval_in (left right : value) : Res value :=
  match left, right with
  | _, Value.Null => Ok Value.Null
  | Value.Null, Value.List items =>
      Ok (match items with [] => Value.Bool false | _ => Value.Null end)
  | v, Value.List items => Ok (in_loop v false items)
  | _, rhs =>
      Err (GraphError.with_code
        (GraphError.type_error Runtime
           ("IN requires a list on the right side, got " +:+ value_type_name rhs))
        ErrorCode.InvalidArgumentType)
  end.

(** ** The operators *)
Section binop.
Context {Ch : Chrono} {Co : ChronoOrder} {Lm : Libm} {S : Type} (X : Effects S).

Definition eval_add (left right : value) : Res value :=
  match eval_temporal_add left right with
  | Some r => r
  | None =>
      match left, right with
      | Value.List a, Value.List b => Ok (Value.List (a ++ b))
      | Value.List a, v => Ok (Value.List (a ++ [v]))
      | v, Value.List b => Ok (Value.List (v :: b))
      | _, _ => eval_arithmetic left right "+" (λ a b, checked (a + b)) f64_add
      end
  end.
Definition eval_sub (left right : value) : Res value :=
  match eval_temporal_sub left right with
  | Some r => r
  | None => eval_arithmetic left right "-" (λ a b, checked (a - b)) f64_sub
  end.
Definition eval_mul (left right : value) : Res value :=
  match eval_duration_mul left right with
  | Some r => r
  | None => eval_arithmetic left right "*" (λ a b, checked (a * b)) f64_mul
  end.

Definition eval_div (left right : value) : Res value :=
  match eval_duration_div left right with
  | Some r => r
  | None =>
      match left, right with
      | Value.Null, _ | _, Value.Null => Ok Value.Null
      | Value.I64 a, Value.I64 b =>
          if b =? 0 then Ok Value.Null
          else Value.I64 <$> ok_or (checked_div a b) (integer_overflow a "/" b)
      | Value.F64 a, Value.F64 b => Ok (F (f64_div (f64_of_bits a) (f64_of_bits b)))
      | Value.I64 a, Value.F64 b =>
          let b := f64_of_bits b in
          if is_zero b && (a =? 0) then Ok (F f64_nan)
          else if is_zero b then Ok Value.Null
          else Ok (F (f64_div (f64_of_int a) b))
      | Value.F64 a, Value.I64 b =>
          if b =? 0 then Ok Value.Null else Ok (F (f64_div (f64_of_bits a) (f64_of_int b)))
      | _, _ => Err (arithmetic_type_error "/" left right)
      end
  end.

Definition eval_mod (left right : value) : Res value :=
  match left, right with
  | Value.Null, _ | _, Value.Null => Ok Value.Null
  | Value.I64 a, Value.I64 b =>
      if b =? 0 then Ok Value.Null
      else Value.I64 <$> ok_or (checked_rem a b) (integer_overflow a "%" b)
  | Value.F64 a, Value.F64 b =>
      let b := f64_of_bits b in
      if is_zero b then Ok Value.Null else Ok (F (f64_rem (f64_of_bits a) b))
  | Value.I64 a, Value.F64 b =>
      let b := f64_of_bits b in
      if is_zero b then Ok Value.Null else Ok (F (f64_rem (f64_of_int a) b))
  | Value.F64 a, Value.I64 b =>
      if b =? 0 then Ok Value.Null else Ok (F (f64_rem (f64_of_bits a) (f64_of_int b)))
  | _, _ => Err (arithmetic_type_error "%" left right)
  end.

Definition eval_pow (left right : value) : Res value :=
  match left, right with
  | Value.Null, _ | _, Value.Null => Ok Value.Null
  | Value.I64 a, Value.I64 b => Ok (F (f64_powf (f64_of_int a) (f64_of_int b)))
  | Value.F64 a, Value.F64 b => Ok (F (f64_powf (f64_of_bits a) (f64_of_bits b)))
  | Value.I64 a, Value.F64 b => Ok (F (f64_powf (f64_of_int a) (f64_of_bits b)))
  | Value.F64 a, Value.I64 b => Ok (F (f64_powf (f64_of_bits a) (f64_of_int b)))
  | _, _ => Err (arithmetic_type_error "^" left right)
  end.

Definition eval_regex_match (left right : value) : M S GraphError value :=
  match left, right with
  | Value.Null, _ | _, Value.Null => mret Value.Null
  | Value.String l, Value.String r => b ← eff_is_match X l r; mret (Value.Bool b)
  | _, _ => mret Value.Null
  end.

Definition eval_binop (left : value) (op : BinOp) (right : value) : M S GraphError value :=
  match op with
  | BinOp.And => lift (tri_op eval_and left right)
  | BinOp.Xor => lift (tri_op eval_xor left right)
  | BinOp.Or => lift (tri_op eval_or left right)
  | BinOp.Eq => mret (values_equal left right)
  | BinOp.Neq => mret (eval_neq left right)
  | BinOp.Lt => lift (compare_to_value left right (λ o, match o with Lt => true | _ => false end))
  | BinOp.Gt => lift (compare_to_value left right (λ o, match o with Gt => true | _ => false end))
  | BinOp.Lte => lift (compare_to_value left right (λ o, match o with Gt => false | _ => true end))
  | BinOp.Gte => lift (compare_to_value left right (λ o, match o with Lt => false | _ => true end))
  | BinOp.StartsWith => mret (eval_string_test str_starts_with left right)
  | BinOp.EndsWith => mret (eval_string_test str_ends_with left right)
  | BinOp.Contains => mret (eval_string_test str_contains left right)
  | BinOp.RegexMatch => eval_regex_match left right
  | BinOp.In => lift (eval_in left right)
  | BinOp.Add => lift (eval_add left right)
  | BinOp.Sub => lift (eval_sub left right)
  | BinOp.Mul => lift (eval_mul left right)
  | BinOp.Div => lift (eval_div left right)
  | BinOp.Mod => lift (eval_mod left right)
  | BinOp.Pow => lift (eval_pow left right)
  end.
End binop.

(** * Functions of one value: src/src/cypher/eval/functions.rs

    The scalar functions that only look at the values of their arguments, and
    [range], [substring] and their like. *)

(** ** Errors and texts *)
Definition invalid_argument_type (func_name : string) (v : value) : GraphError :=
  GraphError.Query (QueryError.TypeError Runtime ErrorCode.Other
    (func_name +:+ ": invalid argument type " +:+ value_type_name v) None None).

Definition format_float (f : f64) : bytes :=
  if is_finite f && is_integral f then f64_display_1 f else f64_display f.

Definition int_len {A} (l : list A) : value := Value.I64 (Z.of_nat (length l)).
Definition text (l : bytes) : value := Value.String (bytes_str l).

(** ** Functions of one argument; a missing one is null *)
Section unary.
Context {Ch : Chrono} {Lm : Libm} {Un : Unicode}.

Definition fn_length (v : value) : Res value :=
  match v with
  | Value.Path p => Ok (Value.I64 (Z.of_nat (path_len p)))
  | Value.String s => Ok (Value.I64 (Z.of_nat (str_len s)))
  | Value.List items => Ok (int_len items)
  | Value.Null => Ok Value.Null
  | other => Err (invalid_argument_type "length()" other)
  end.
Definition fn_nodes (v : value) : Res value :=
  match v with
  | Value.Path p => Ok (Value.List (Value.Node <$> path_nodes p))
  | _ => Ok Value.Null
  end.
Definition fn_relationships (v : value) : Res value :=
  match v with
  | Value.Path p => Ok (Value.List (Value.Edge <$> path_edges p))
  | _ => Ok Value.Null
  end.
Definition fn_on_string (f : string → value) (v : value) : Res value :=
  match v with Value.String s => Ok (f s) | _ => Ok Value.Null end.
Definition fn_tolower : value → Res value := fn_on_string (λ s, Value.String (to_lowercase s)).
Definition fn_toupper : value → Res value := fn_on_string (λ s, Value.String (to_uppercase s)).
Definition fn_trim : value → Res value := fn_on_string (λ s, text (trim (str_bytes s))).
Definition fn_ltrim : value → Res value := fn_on_string (λ s, text (trim_start (str_bytes s))).
Definition fn_rtrim : value → Res value := fn_on_string (λ s, text (trim_end (str_bytes s))).

Definition fn_tostring (v : value) : Res value :=
  match v with
  | Value.Null => Ok Value.Null
  | Value.String s => Ok (Value.String s)
  | Value.I64 n => Ok (Value.String (i64_text n))
  | Value.F64 f => Ok (text (format_float (f64_of_bits f)))
  | Value.Bool b => Ok (Value.String (bool_text b))
  | Value.Date d => Ok (text (date_display d))
  | Value.LocalTime t => Ok (text (local_time_display t))
  | Value.Time t off => Ok (text (time_display t off))
  | Value.LocalDateTime dt => Ok (text (local_datetime_display dt))
  | Value.DateTime dt off tz => Ok (text (datetime_display dt off tz))
  | Value.Duration d => Ok (text (duration_display d))
  | other => Err (invalid_argument_type "toString()" other)
  end.
Definition fn_toboolean (v : value) : Res value :=
  match v with
  | Value.Null => Ok Value.Null
  | Value.Bool b => Ok (Value.Bool b)
  | Value.String s =>
      let l := to_lowercase s in
      Ok (if decide (l = "true") then Value.Bool true
          else if decide (l = "false") then Value.Bool false else Value.Null)
  | other => Err (invalid_argument_type "toBoolean()" other)
  end.
Definition fn_tointeger (v : value) : Res value :=
  match v with
  | Value.Null => Ok Value.Null
  | Value.I64 n => Ok (Value.I64 n)
  | Value.F64 f => Ok (Value.I64 (f64_as_i64 (f64_of_bits f)))
  | Value.String s =>
      match parse_i64 (str_bytes s) with
      | Ok n => Ok (Value.I64 n)
      | _ => match parse_f64 (str_bytes s) with
             | Ok f => Ok (Value.I64 (f64_as_i64 f))
             | _ => Ok Value.Null
             end
      end
  | Value.Bool b => Ok (Value.I64 (Z.b2z b))
  | other => Err (invalid_argument_type "toInteger()" other)
  end.
Definition fn_tofloat (v : value) : Res value :=
  match v with
  | Value.Null => Ok Value.Null
  | Value.F64 f => Ok (Value.F64 f)
  | Value.I64 n => Ok (F (f64_of_int n))
  | Value.String s =>
      match parse_f64 (str_bytes s) with Ok f => Ok (F f) | _ => Ok Value.Null end
  | other => Err (invalid_argument_type "toFloat()" other)
  end.

Definition fn_head (v : value) : Res value :=
  match v with Value.List items => Ok (default Value.Null (head items)) | _ => Ok Value.Null end.
Definition fn_last (v : value) : Res value :=
  match v with Value.List items => Ok (default Value.Null (last items)) | _ => Ok Value.Null end.
Definition fn_tail (v : value) : Res value :=
  match v with Value.List items => Ok (Value.List (tail items)) | _ => Ok Value.Null end.
Definition fn_size (v : value) : Res value :=
  match v with
  | Value.List items => Ok (int_len items)
  | Value.String s => Ok (Value.I64 (Z.of_nat (str_len s)))
  | _ => Ok Value.Null
  end.
Definition fn_reverse (v : value) : Res value :=
  match v with
  | Value.String s => Ok (Value.String (str_of_chars (reverse (str_chars s))))
  | Value.List items => Ok (Value.List (reverse items))
  | _ => Ok Value.Null
  end.
Definition fn_exists (v : value) : Res value :=
  Ok (Value.Bool (match v with Value.Null => false | _ => true end)).

(** A number as a double, and a function on it. *)
Definition fn_float (f : f64 → f64) (v : value) : Res value :=
  match v with
  | Value.I64 n => Ok (F (f (f64_of_int n)))
  | Value.F64 x => Ok (F (f (f64_of_bits x)))
  | _ => Ok Value.Null
  end.
Definition fn_abs (v : value) : Res value :=
  match v with
  | Value.I64 n =>
      Value.I64 <$> ok_or (checked (Z.abs n))
        (GraphError.number_out_of_range Runtime ("integer overflow: abs(" +:+ i64_text n +:+ ")"))
  | Value.F64 x => Ok (F (f64_abs (f64_of_bits x)))
  | _ => Ok Value.Null
  end.
Definition fn_sqrt (v : value) : Res value :=
  match v with
  | Value.I64 _ | Value.F64 _ | Value.Null => fn_float f64_sqrt v
  | other => Err (invalid_argument_type "sqrt()" other)
  end.
Definition fn_sign (v : value) : Res value :=
  match v with
  | Value.I64 n => Ok (Value.I64 (Z.sgn n))
  | Value.F64 x =>
      let f := f64_of_bits x in
      Ok (Value.I64 (if is_nan f then 0 else f64_as_i64 (f64_signum f)))
  | _ => Ok Value.Null
  end.
(** An integer is rounded to itself. *)
Definition fn_round_to (f : f64 → f64) (v : value) : Res value :=
  match v with
  | Value.I64 n => Ok (F (f64_of_int n))
  | Value.F64 x => Ok (F (f (f64_of_bits x)))
  | _ => Ok Value.Null
  end.

Definition unary_table : list (string * (value → Res value)) :=
  [("length", fn_length); ("nodes", fn_nodes); ("tolower", fn_tolower); ("toupper", fn_toupper);
   ("tostring", fn_tostring); ("toboolean", fn_toboolean); ("tointeger", fn_tointeger);
   ("tofloat", fn_tofloat); ("relationships", fn_relationships); ("head", fn_head);
   ("last", fn_last); ("tail", fn_tail); ("size", fn_size); ("abs", fn_abs); ("sqrt", fn_sqrt);
   ("sign", fn_sign); ("ceil", fn_round_to f64_ceil); ("floor", fn_round_to f64_floor);
   ("round", fn_round_to f64_round); ("log", fn_float f64_ln); ("log10", fn_float f64_log10);
   ("exp", fn_float f64_exp); ("trim", fn_trim); ("ltrim", fn_ltrim); ("rtrim", fn_rtrim);
   ("exists", fn_exists); ("reverse", fn_reverse)].
End unary.

(** The entry of a table. *)
Definition table_get {A} (name : string) (l : list (string * A)) : option A :=
  snd <$> List.find (λ e, String.eqb e.1 name) l.

(** ** Functions of several arguments; [None] is an argument that is not given *)
Definition clamp_len (n : Z) : nat := Z.to_nat (Z.max n 0).

Definition fn_substring (s : value) (start len : option value) : value :=
  match s, start with
  | Value.String s, Some (Value.I64 start) =>
      let start := clamp_len start in
      let cs := str_chars s in
      if decide (length cs ≤ start)%nat then Value.String ""
      else Value.String (str_of_chars
             (match len with
              | Some (Value.I64 l) => take (clamp_len l) (drop start cs)
              | _ => drop start cs
              end))
  | _, _ => Value.Null
  end.
Definition fn_replace (s : value) (search replacement : option value) : value :=
  match s, search, replacement with
  | Value.String s, Some (Value.String search), Some (Value.String repl) =>
      text (replace_str (str_bytes search) (str_bytes repl) (str_bytes s))
  | _, _, _ => Value.Null
  end.
Definition fn_split (s : value) (delim : option value) : value :=
  match s, delim with
  | Value.String s, Some (Value.String d) =>
      Value.List (text <$> split_str (str_bytes d) (str_bytes s))
  | _, _ => Value.Null
  end.
Definition fn_left (s : value) (len : option value) : value :=
  match s, len with
  | Value.String s, Some (Value.I64 n) => Value.String (str_of_chars (take (clamp_len n) (str_chars s)))
  | _, _ => Value.Null
  end.
Definition fn_right (s : value) (len : option value) : value :=
  match s, len with
  | Value.String s, Some (Value.I64 n) =>
      let cs := str_chars s in
      Value.String (str_of_chars (drop (length cs - clamp_len n) cs))
  | _, _ => Value.Null
  end.

(** *** [range] *)
Definition MAX_RANGE_LEN : Z := 10000000.

Definition range_len (s e step : Z) : Z :=
  if ((0 <? step) && (s <=? e)) || ((step <? 0) && (e <=? s))
  then Z.quot (e - s) step + 1 else 0.

(** [while i <= e { push(i); i = i.checked_add(step)? }] and its mirror image. *)
Fixpoint range_loop (fuel : nat) (in_range : Z → bool) (step i : Z) : list Z :=
  match fuel with
  | O => []
  | S fuel' =>
      if in_range i then
        i :: match checked (i + step) with
             | Some n => range_loop fuel' in_range step n
             | None => []
             end
      else []
  end.

Definition range_cap_error (s e step len : Z) : GraphError :=
  GraphError.Query (QueryError.ArgumentError Runtime ErrorCode.NumberOutOfRange
    ("NumberOutOfRange: range(" +:+ i64_text s +:+ ", " +:+ i64_text e +:+ ", " +:+ i64_text step
     +:+ ") would produce " +:+ i64_text len +:+ " elements, exceeding the "
     +:+ i64_text MAX_RANGE_LEN +:+ "-element cap") None None).
Definition range_step_error : GraphError :=
  GraphError.Query (QueryError.ArgumentError Runtime ErrorCode.Other
    "NumberOutOfRange: step argument to range() cannot be zero" None None).

(** Each turn of the loop adds an element, so [range_len] turns are enough. *)
Definition range_values (s e step : Z) : Res (list Z) :=
  let len := range_len s e step in
  if MAX_RANGE_LEN <? len then Err (range_cap_error s e step len)
  else Ok (if ((0 <? step) && (s <=? e)) || ((step <? 0) && (e <=? s)) then
             range_loop (S (Z.to_nat len)) (λ i, if 0 <? step then i <=? e else e <=? i) step s
           else []).

Definition range_argument_error (label : string) (v : value) : GraphError :=
  GraphError.Query (QueryError.ArgumentError Runtime ErrorCode.Other
    ("InvalidArgumentType: range() " +:+ label +:+ " argument must be an integer, got "
     +:+ value_type_name v) None None).
Definition check_range_arg (label : string) (o : option value) : Res unit :=
  match o with
  | None | Some (Value.I64 _) | Some Value.Null => Ok ()
  | Some v => Err (range_argument_error label v)
  end.

Definition fn_range (start : value) (end_ step : option value) : Res value :=
  check_range_arg "start" (Some start) ≫= λ _,
  check_range_arg "end" end_ ≫= λ _,
  check_range_arg "step" step ≫= λ _,
  match start, end_ with
  | Value.I64 s, Some (Value.I64 e) =>
      let step := match step with Some (Value.I64 st) => st | _ => 1 end in
      if step =? 0 then Err range_step_error
      else (λ l, Value.List (Value.I64 <$> l)) <$> range_values s e step
  | _, _ => Ok Value.Null
  end.

(** *** Constants *)
Definition e_bits : N := 4613303445314885481.
Definition pi_bits : N := 4614256656552045848.
(** [(bits >> 11) as f64 / (1u64 << 53) as f64]. *)
Definition rand_value (bits : N) : value :=
  F (f64_div (f64_of_int (Z.of_N (N.shiftr bits 11))) (f64_of_int 9007199254740992)).

(** * Function calls: [eval_function_call] of src/src/cypher/eval/functions.rs

    Functions of nodes, edges and maps, the temporal constructors, and the dispatch
    on the name.  An argument is an expression with the computation of its value. *)

Section functions.
Context {Ch : Chrono} {Lm : Libm} {Un : Unicode} {conn : Type} {O : SqlOps conn} {Mp : Msgpack}.
Context {S : Type} (X : Effects S) (c : conn) (record : RecordView).
Abbreviation E' := (M S GraphError).
(** Arguments and their values. *)
Implicit Types (args : list Expr) (vals : list (E' value)).

(** ** Reading *)
Definition field (key : string) : E' (option value) := lift (view_get record key).
(** [if let Ok(node) = get_node(conn, NodeId(id as u64))]. *)
Definition get_node_ok (id : Z) : E' (option Node) :=
  lift (match get_node (u64_of_i64 id) c with
        | Ok n => Ok (Some n)
        | Err _ => Ok None
        | Panic => Panic
        end).
(** The node of the identifier in a field. *)
Definition node_of_field (o : option value) : E' (option Node) :=
  match int_field o with Some id => get_node_ok id | None => mret None end.

Definition opt_arg vals (i : nat) : E' (option value) :=
  match vals !! i with Some m => v ← m; mret (Some v) | None => mret None end.
Definition eval_single_arg vals : E' value := v ← opt_arg vals 0; mret (default Value.Null v).

(** The variable that the first argument is. *)
Definition first_var args : option string :=
  match args with
  | a :: _ => match expr_kind a with Variable_ v => Some v | _ => None end
  | [] => None
  end.

(** [let r = first()?; if r is some, return it; rest]. *)
Definition or_else {A} (m : E' (option A)) (rest : E' A) : E' A :=
  o ← m; match o with Some a => mret a | None => rest end.
(** Runs only when the first argument is a variable. *)
Definition when_var {A} args (f : string → E' (option A)) : E' (option A) :=
  match first_var args with Some var => f var | None => mret None end.

(** ** Nodes, edges and maps *)
Definition sorted_keys (m : Properties) : value :=
  Value.List (Value.String <$> sort_labels (map_to_list m).*1).

Definition keys_of_var (var : string) : E' (option value) :=
  id ← field (dot var "__id");
  node ← node_of_field id;
  match node with
  | Some n => mret (Some (sorted_keys (node_properties n)))
  | None =>
      type_ ← field (dot var "__type");
      src ← field (dot var "__src");
      edge ← (match type_, src with
              | Some _, Some _ => lift (build_compound_binding record var)
              | _, _ => mret None
              end);
      match edge with
      | Some (Value.Edge e) => mret (Some (sorted_keys (edge_properties e)))
      | _ =>
          v ← field var;
          mret (match v with Some (Value.Map m) => Some (sorted_keys m) | _ => None end)
      end
  end.
Definition fn_keys args vals : E' value :=
  or_else (when_var args keys_of_var)
    (arg ← eval_single_arg vals;
     match arg with
     | Value.Node n => mret (sorted_keys (node_properties n))
     | Value.Edge e => mret (sorted_keys (edge_properties e))
     | Value.Map m => mret (sorted_keys m)
     | Value.I64 id =>
         node ← lift (get_node (u64_of_i64 id) c); mret (sorted_keys (node_properties node))
     | _ => mret Value.Null
     end).

Definition labels_of_var (var : string) : E' (option value) :=
  labels ← field (dot var "__labels");
  match labels with
  | Some (Value.List l) => mret (Some (Value.List l))
  | _ =>
      id ← field (dot var "__id");
      v ← (match id with Some v => mret (Some v) | None => field var end);
      node ← node_of_field v;
      mret ((λ n, label_values (node_labels n)) <$> node)
  end.
Definition fn_labels args vals : E' value :=
  or_else (when_var args labels_of_var)
    (arg ← eval_single_arg vals;
     match arg with
     | Value.Node n => mret (label_values (node_labels n))
     | Value.Null => mret Value.Null
     | other => throw (invalid_argument_type "labels()" other)
     end).

Definition fn_id args vals : E' value :=
  or_else (when_var args (λ var,
      id ← field (dot var "__id");
      mret (match int_field id with Some n => Some (Value.I64 n) | None => None end)))
    (arg ← eval_single_arg vals;
     mret (match arg with
           | Value.I64 n => Value.I64 n
           | Value.Node n => id_value (node_id n)
           | _ => Value.Null
           end)).

Definition fn_score args : E' value :=
  match args with
  | [a] =>
      match expr_kind a with
      | Variable_ var => v ← field (dot var "__fts_score"); mret (default Value.Null v)
      | _ => mret Value.Null
      end
  | _ => mret Value.Null
  end.

Definition type_of_var (var : string) : E' (option value) :=
  type_ ← field (dot var "__type");
  match str_field type_ with
  | Some s => mret (Some (Value.String s))
  | None =>
      v ← field var;
      if is_null_field v then mret (Some Value.Null) else
      match str_field v with
      | Some s =>
          src ← field (dot var "__src");
          mret (match src with Some _ => Some (Value.String s) | None => None end)
      | None => mret None
      end
  end.
Definition fn_type args vals : E' value :=
  or_else (when_var args type_of_var)
    (arg ← eval_single_arg vals;
     match arg with
     | Value.Edge e => mret (Value.String (edge_label e))
     | Value.Null => mret Value.Null
     | other => throw (invalid_argument_type "type()" other)
     end).

Definition properties_of_var (var : string) : E' (option value) :=
  compound ← lift (build_compound_binding record var);
  match compound with
  | Some (Value.Node n) => mret (Some (Value.Map (node_properties n)))
  | Some (Value.Edge e) => mret (Some (Value.Map (edge_properties e)))
  | Some _ => mret (Some Value.Null)
  | None => v ← field var; mret (if is_null_field v then Some Value.Null else None)
  end.
Definition fn_properties args vals : E' value :=
  or_else (when_var args properties_of_var)
    (arg ← eval_single_arg vals;
     match arg with
     | Value.Node n => mret (Value.Map (node_properties n))
     | Value.Edge e => mret (Value.Map (edge_properties e))
     | Value.Map m => mret (Value.Map m)
     | Value.Null => mret Value.Null
     | other => throw (invalid_argument_type "properties()" other)
     end).

(** [startNode] and [endNode]: [key] is the field and [end_of] the end. *)
Definition fn_end_node (key : string) (end_of : Edge → N) args vals : E' value :=
  or_else (when_var args (λ var,
      id ← field (dot var key);
      node ← node_of_field id;
      mret (Value.Node <$> node)))
    (arg ← eval_single_arg vals;
     match arg with
     | Value.Edge e =>
         lift (match get_node (end_of e) c with
               | Ok n => Ok (Value.Node n)
               | Err _ => Ok Value.Null
               | Panic => Panic
               end)
     | _ => mret Value.Null
     end).

Fixpoint fn_coalesce vals : E' value :=
  match vals with
  | [] => mret Value.Null
  | m :: vals' => v ← m; match v with Value.Null => fn_coalesce vals' | _ => mret v end
  end.

(** ** Temporal functions *)
Definition temporal_key (arg : value) : string :=
  match arg with
  | Value.Date _ => "date"
  | Value.LocalDateTime _ | Value.DateTime _ _ _ => "datetime"
  | _ => "time"
  end.
Definition eval_temporal_constructor args vals (from_str : bytes → Res value)
    (from_map : Properties → Res value) : E' value :=
  match args with
  | [] => lift (from_map ∅)
  | _ =>
      arg ← eval_single_arg vals;
      match arg with
      | Value.String s => lift (from_str (str_bytes s))
      | Value.Map m => lift (from_map m)
      | Value.Date _ | Value.LocalTime _ | Value.Time _ _ | Value.LocalDateTime _
      | Value.DateTime _ _ _ => lift (from_map {[temporal_key arg := arg]})
      | _ => mret Value.Null
      end
  end.

Definition time_value (p : NaiveTime * FixedOffset) : value := Value.Time p.1 p.2.
Definition datetime_value (p : NaiveDateTime * FixedOffset * option string) : value :=
  Value.DateTime p.1.1 p.1.2 p.2.

Definition constructor_table : list (string * ((bytes → Res value) * (Properties → Res value))) :=
  [("date", (λ s, Value.Date <$> date_from_iso_string s, λ m, Value.Date <$> cypher_date_from_map m));
   ("localtime", (λ s, Value.LocalTime <$> local_time_from_iso_string s,
                  λ m, Value.LocalTime <$> local_time_from_map m));
   ("time", (λ s, time_value <$> time_from_iso_string s, λ m, time_value <$> time_from_map_at m));
   ("localdatetime", (λ s, Value.LocalDateTime <$> local_datetime_from_iso_string s,
                      λ m, Value.LocalDateTime <$> local_datetime_from_map m));
   ("datetime", (λ s, datetime_value <$> datetime_from_iso_string s,
                 λ m, datetime_value <$> datetime_from_map m));
   ("duration", (λ s, Value.Duration <$> duration_from_iso_string s,
                 λ m, Value.Duration <$> duration_from_map m))].

(** [date.transaction] and the like are the constructor itself. *)
Definition constructor_base (name : string) : string :=
  match split_once "." name with
  | Some (base, suffix) =>
      if one_of suffix ["transaction"; "statement"; "realtime"]
         && one_of base ["date"; "localtime"; "time"; "localdatetime"; "datetime"]
      then base else name
  | None => name
  end.

Definition fn_from_epoch args vals : E' value :=
  secs ← eval_single_arg vals;
  nanos ← opt_arg vals 1;
  lift (match secs, nanos with
        | Value.I64 s, Some (Value.I64 n) => datetime_value <$> from_epoch s n
        | Value.I64 s, None => datetime_value <$> from_epoch s 0
        | _, _ => Ok Value.Null
        end).
Definition fn_from_epoch_millis vals : E' value :=
  millis ← eval_single_arg vals;
  lift (match millis with
        | Value.I64 ms => datetime_value <$> from_epoch_millis ms
        | _ => Ok Value.Null
        end).

Definition difference_table : list (string * (value → value → Res CypherDuration)) :=
  [("duration.between", duration_between); ("duration.inmonths", duration_in_months);
   ("duration.indays", duration_in_days); ("duration.inseconds", duration_in_seconds)].
(** The inner match looks at the name as it was written. *)
Definition fn_difference (name : string) vals : E' value :=
  match vals with
  | l :: r :: _ =>
      lhs ← l; rhs ← r;
      match lhs, rhs with
      | Value.Null, _ | _, Value.Null => mret Value.Null
      | _, _ =>
          match table_get name difference_table with
          | Some f => lift (Value.Duration <$> f lhs rhs)
          | None => lift Panic
          end
      end
  | _ => mret Value.Null
  end.

(** Unit, value and map of a truncation; [None] makes it null. *)
Definition truncate_args vals : E' (option (string * value * Properties)) :=
  match vals with
  | u :: v :: rest =>
      unit_ ← u;
      match unit_ with
      | Value.String s =>
          val ← v;
          match rest with
          | m :: _ =>
              map_ ← m;
              mret (Some (s, val, match map_ with Value.Map p => p | _ => ∅ end))
          | [] => mret (Some (s, val, ∅))
          end
      | _ => mret None
      end
  | _ => mret None
  end.
Definition truncation vals (f : string → value → Properties → Res value) : E' value :=
  o ← truncate_args vals;
  match o with Some (u, v, m) => lift (f u v m) | None => mret Value.Null end.

Definition truncate_to_time (u : string) (v : value) (m : Properties) : Res value :=
  offset ← (match m !! "timezone" with
            | Some (Value.String tz_s) =>
                off_secs ← parse_offset_public (str_bytes tz_s); unwrap (east_opt off_secs)
            | _ => unwrap (east_opt (extract_offset_secs v))
            end);
  t ← truncate_time u v m;
  Ok (Value.Time t offset).
Definition truncate_to_local_datetime (u : string) (v : value) (m : Properties)
    : Res NaiveDateTime :=
  d ← truncate_date u v m; t ← truncate_time u v m; Ok (mkDateTime d t).

(** The zone of a truncated date-time: of the map, of the value, or UTC. *)
Definition truncate_zone (v : value) (m : Properties) (ndt : NaiveDateTime)
    : Res (FixedOffset * option string) :=
  match m !! "timezone" with
  | Some (Value.String tz_s) =>
      let s := str_bytes tz_s in
      if starts_with "+"%byte s || starts_with "-"%byte s || bool_decide (tz_s = "Z") then
        off_secs ← parse_offset_public s; off ← unwrap (east_opt off_secs); Ok (off, None)
      else
        tz ← ok_or (tz_parse tz_s) (GraphError.semantic ("unknown timezone: " +:+ tz_s));
        off ← ok_or (tz_from_local_earliest tz ndt)
                (GraphError.semantic ("ambiguous or invalid datetime in timezone: " +:+ tz_s));
        Ok (off, Some tz_s)
  | _ =>
      match v with
      | Value.DateTime _ off tz => Ok (off, tz)
      | _ => off ← unwrap (east_opt 0); Ok (off, None)
      end
  end.
Definition truncate_to_datetime (u : string) (v : value) (m : Properties) : Res value :=
  ndt ← truncate_to_local_datetime u v m;
  zone ← truncate_zone v m ndt;
  Ok (Value.DateTime ndt zone.1 zone.2).

Definition truncation_table : list (string * (string → value → Properties → Res value)) :=
  [("date.truncate", λ u v m, Value.Date <$> truncate_date u v m);
   ("localtime.truncate", λ u v m, Value.LocalTime <$> truncate_time u v m);
   ("time.truncate", truncate_to_time);
   ("localdatetime.truncate", λ u v m, Value.LocalDateTime <$> truncate_to_local_datetime u v m);
   ("datetime.truncate", truncate_to_datetime)].

(** ** The call *)

(** [labels], [keys] and [properties] of a deleted entity are errors. *)
Definition check_deleted (name name_lower : string) args : E' unit :=
  if one_of name_lower ["labels"; "keys"; "properties"] then
    match first_var args with
    | Some var =>
        deleted ← field (dot var "__deleted");
        if is_deleted_field deleted
        then throw (deleted_entity ("cannot call " +:+ name +:+ "() on deleted entity `" +:+ var +:+ "`"))
        else mret ()
    | None => mret ()
    end
  else mret ().

(** The value that the Aggregate operator left under the text of the call. *)
Definition precomputed (name name_lower : string) args (original_text : option string)
    : E' (option value) :=
  if one_of name_lower aggregate_names then
    v ← field (expr_to_column_name (synthetic (FunctionCall name args false None)));
    match v, original_text with
    | Some v, _ => mret (Some v)
    | None, Some orig => field orig
    | None, None => mret None
    end
  else mret None.

Definition ternary vals (f : value → option value → option value → Res value) : E' value :=
  a ← eval_single_arg vals; b ← opt_arg vals 1; d ← opt_arg vals 2; lift (f a b d).
Definition binary vals (f : value → option value → Res value) : E' value :=
  a ← eval_single_arg vals; b ← opt_arg vals 1; lift (f a b).

Definition dispatch_table : list (string * (list Expr → list (E' value) → E' value)) :=
  [("keys", fn_keys); ("labels", fn_labels); ("id", fn_id); ("score", λ args _, fn_score args);
   ("type", fn_type); ("properties", fn_properties); ("coalesce", λ _ vals, fn_coalesce vals);
   ("startnode", fn_end_node "__src" edge_src); ("endnode", fn_end_node "__dst" edge_dst);
   ("e", λ _ _, mret (Value.F64 e_bits)); ("pi", λ _ _, mret (Value.F64 pi_bits));
   ("substring", λ _ vals, ternary vals (λ a b d, Ok (fn_substring a b d)));
   ("replace", λ _ vals, ternary vals (λ a b d, Ok (fn_replace a b d)));
   ("split", λ _ vals, binary vals (λ a b, Ok (fn_split a b)));
   ("left", λ _ vals, binary vals (λ a b, Ok (fn_left a b)));
   ("right", λ _ vals, binary vals (λ a b, Ok (fn_right a b)));
   ("range", λ _ vals, ternary vals fn_range);
   ("rand", λ _ _, bits ← eff_random X; mret (rand_value bits));
   ("datetime.fromepoch", fn_from_epoch);
   ("datetime.fromepochmillis", λ _ vals, fn_from_epoch_millis vals)].

Definition call_table (name name_lower : string) args vals : E' value :=
  match table_get name_lower dispatch_table with
  | Some f => f args vals
  | None =>
  match table_get name_lower unary_table with
  | Some f => v ← eval_single_arg vals; lift (f v)
  | None =>
  match table_get (constructor_base name_lower) constructor_table with
  | Some (from_str, from_map) => eval_temporal_constructor args vals from_str from_map
  | None =>
  match table_get name_lower difference_table with
  | Some _ => fn_difference name vals
  | None =>
  match table_get name_lower truncation_table with
  | Some f => truncation vals f
  | None => mret Value.Null
  end end end end end.

Definition eval_function_call (name : string) args vals (original_text : option string)
    : E' value :=
  let name_lower := ascii_lowercase name in
  check_deleted name name_lower args ≫= λ _,
  or_else (precomputed name name_lower args original_text)
    (call_table name name_lower args vals).
End functions.
