(* ===== verification/Eval.v ===== *)
(** * Expressions: src/src/cypher/eval/mod.rs, comprehension.rs and subquery.rs

    The evaluator.  It reads a row, the parameters of the query and the database;
    what a pattern or a statement inside an expression finds is asked of
    [Subqueries], which stands for the planner and the executor. *)
From S2P Require Export Functions.
#[local] Open Scope Z_scope.

(** The rows of a pattern with its condition for a set of bindings: whether there
    is one, whether a statement has one, and all of them. *)
Record Subqueries (S : Type) := mkSubqueries {
  first_match : list (Pattern Expr) → option Expr → list (string * value) → M S GraphError bool;
  correlated_exists : Statement → NamedRecord → M S GraphError bool;
  correlated_rows : Pattern Expr → option Expr → NamedRecord → M S GraphError (list NamedRecord) }.
Arguments mkSubqueries {S} _ _ _.
Arguments first_match {S} _ _ _ _.
Arguments correlated_exists {S} _ _ _.
Arguments correlated_rows {S} _ _ _ _.

(** [l.map(f).collect::<Result<Vec<_>, _>>()] for computations. *)
Definition collect_m {S A B} (f : A → M S GraphError B) : list A → M S GraphError (list B) :=
  fix go l := match l with
              | [] => mret []
              | x :: l' => y ← f x; ys ← go l'; mret (y :: ys)
              end.

Section eval.
Context {Ch : Chrono} {Co : ChronoOrder} {Lm : Libm} {Un : Unicode}.
Context {conn : Type} {O : SqlOps conn} {Mp : Msgpack}.
Context {S : Type} (X : Effects S) (Q : Subqueries S) (c : conn).
Context (params : option (gmap string value)).
Abbreviation E' := (M S GraphError).
(** An expression in a row. *)
Abbreviation Ev := (RecordView → E' value).

Definition is_true (v : value) : bool := match v with Value.Bool true => true | _ => false end.
Definition holds (m : E' value) : E' bool := v ← m; mret (is_true v).

(** ** Properties *)
Definition type_error_at (message : string) (code : ErrorCode) : GraphError :=
  GraphError.with_code (GraphError.type_error Runtime message) code.

Definition map_get (m : Properties) (key : string) : value := default Value.Null (m !! key).
Definition node_property (n : Node) (prop : string) : value :=
  if decide (prop = "labels") then label_values (node_labels n) else map_get (node_properties n) prop.

(** A value that the variable is bound to as a whole. *)
Definition has_metadata (record : RecordView) (var : string) : E' bool :=
  id ← field record (dot var "__id");
  src ← field record (dot var "__src");
  type_ ← field record (dot var "__type");
  mret (match id, src, type_ with None, None, None => false | _, _, _ => true end).
Definition is_scalar (v : value) : bool :=
  match v with
  | Value.Bool _ | Value.I64 _ | Value.F64 _ | Value.String _ | Value.List _ => true
  | _ => false
  end.
Definition bound_value_property (record : RecordView) (var prop : string) (v : option value) : E' value :=
  match v with
  | Some (Value.Map m) => mret (map_get m prop)
  | Some (Value.Node n) => mret (node_property n prop)
  | Some (Value.Edge e) => mret (map_get (edge_properties e) prop)
  | Some v =>
      accessor ← lift (temporal_accessor v prop);
      match accessor with
      | Some r => mret r
      | None =>
          meta ← has_metadata record var;
          if negb meta && is_scalar v
          then throw (type_error_at ("property access on " +:+ value_type_name v)
                        ErrorCode.InvalidArgumentType)
          else mret Value.Null
      end
  | None => mret Value.Null
  end.

Definition eval_property (record : RecordView) (var prop : string) : E' value :=
  deleted ← field record (dot var "__deleted");
  if is_deleted_field deleted
  then throw (deleted_entity ("cannot access property `" +:+ prop +:+ "` on deleted entity `"
                              +:+ var +:+ "`")) else
  v ← field record var;
  if is_null_field v then mret Value.Null else
  flat ← field record (dot var prop);
  match flat with
  | Some val => mret val
  | None =>
      id ← field record (dot var "__id");
      node ← node_of_field c id;
      match node with
      | Some n => mret (node_property n prop)
      | None => bound_value_property record var prop v
      end
  end.

Definition eval_variable (record : RecordView) (name : string) : E' value :=
  compound ← lift (build_compound_binding record name);
  match compound with
  | Some v => mret v
  | None => v ← field record name; mret (default Value.Null v)
  end.

(** ** Indexing *)

(** [n['name']] for a variable [n]. *)
Definition variable_index (record : RecordView) (var key : string) : E' (option value) :=
  flat ← field record (dot var key);
  match flat with
  | Some val => mret (Some val)
  | None =>
      v ← field record var;
      if is_null_field v then mret (Some Value.Null) else
      match v with
      | Some (Value.Map m) => mret (Some (map_get m key))
      | _ =>
          id ← field record (dot var "__id");
          node ← node_of_field c id;
          mret ((λ n, map_get (node_properties n) key) <$> node)
      end
  end.

Definition list_index (items : list value) (i : Z) : value :=
  let len := Z.of_nat (length items) in
  let resolved := if i <? 0 then len + i else i in
  if 0 <=? resolved then default Value.Null (items !! Z.to_nat resolved) else Value.Null.

Definition eval_index (base idx : value) : Res value :=
  match base, idx with
  | Value.List items, Value.I64 i => Ok (list_index items i)
  | Value.Node n, Value.String key => Ok (map_get (node_properties n) key)
  | Value.Edge e, Value.String key => Ok (map_get (edge_properties e) key)
  | Value.Map m, Value.String key => Ok (map_get m key)
  | Value.Null, _ | _, Value.Null => Ok Value.Null
  | _, Value.I64 _ =>
      Err (type_error_at "cannot index a non-list value" ErrorCode.InvalidArgumentType)
  | Value.List _, _ =>
      Err (type_error_at "list index must be an integer" ErrorCode.InvalidArgumentType)
  | Value.Map _, _ | Value.Node _, _ | Value.Edge _, _ =>
      Err (type_error_at "map index must be a string" ErrorCode.MapElementAccessByNonString)
  | _, _ => Ok Value.Null
  end.

Definition eval_dot (base : value) (key : string) : Res value :=
  match base with
  | Value.Map m => Ok (map_get m key)
  | Value.Node n => Ok (map_get (node_properties n) key)
  | Value.Edge e => Ok (map_get (edge_properties e) key)
  | Value.Null => Ok Value.Null
  | _ => r ← temporal_accessor base key; Ok (default Value.Null r)
  end.

(** [list[s..e]]: bounds from the end when negative, clamped to the list. *)
Definition slice_bound (len v : Z) : nat :=
  let r := if v <? 0 then len + v else v in Z.to_nat (Z.max 0 (Z.min len r)).
Definition is_null_bound (o : option value) : bool :=
  match o with Some Value.Null => true | _ => false end.
Definition eval_slice (base : value) (start end_ : option value) : value :=
  match base with
  | Value.List items =>
      if is_null_bound start || is_null_bound end_ then Value.Null else
      let len := Z.of_nat (length items) in
      let s := match start with Some (Value.I64 i) => slice_bound len i | _ => 0%nat end in
      let e := match end_ with Some (Value.I64 i) => slice_bound len i | _ => length items end in
      if decide (e ≤ s)%nat then Value.List [] else Value.List (take (e - s) (drop s items))
  | _ => Value.Null
  end.

(** ** Labels and parameters *)
Definition has_label_value (labels : list value) (l : string) : bool :=
  List.existsb (value_eqb (Value.String l)) labels.

Definition eval_has_label (record : RecordView) (var : string) (labels : list string) : E' value :=
  v ← field record var;
  if is_null_field v then mret Value.Null else
  node_labels ← field record (dot var "__labels");
  match node_labels with
  | Some (Value.List l) => mret (Value.Bool (forallb (has_label_value l) labels))
  | _ =>
      type_ ← field record (dot var "__type");
      match str_field type_ with
      | Some rel_type => mret (Value.Bool (forallb (λ l, String.eqb l rel_type) labels))
      | None =>
          id ← field record (dot var "__id");
          node ← node_of_field c id;
          mret (Value.Bool
            (match node with
             | Some n => forallb (λ l, bool_decide (l ∈ Types.node_labels n)) labels
             | None => false
             end))
      end
  end.

Definition unresolved_parameter (name : string) : GraphError :=
  GraphError.Query (QueryError.ArgumentError Runtime ErrorCode.MissingParameter
    ("unresolved parameter: $" +:+ name)
    (Some ("pass `" +:+ name +:+ "` via execute_with_params or set it before running the query"))
    None).
Definition eval_parameter (name : string) : Res value :=
  match params with
  | Some p => ok_or (p !! name) (unresolved_parameter name)
  | None => Err (unresolved_parameter name)
  end.

(** ** CASE *)
Fixpoint simple_case (op_val : value) (alternatives : list (E' value * E' value)) (default_ : E' value)
    : E' value :=
  match alternatives with
  | [] => default_
  | (w, r) :: alternatives' =>
      when_val ← w;
      if is_true (values_equal op_val when_val) then r
      else simple_case op_val alternatives' default_
  end.
Fixpoint searched_case (alternatives : list (E' value * E' value)) (default_ : E' value) : E' value :=
  match alternatives with
  | [] => default_
  | (w, r) :: alternatives' =>
      b ← holds w;
      if b : bool then r else searched_case alternatives' default_
  end.

(** ** Comprehensions *)
Definition bind_item (base : NamedRecord) (variable : string) (item : value) : RecordView :=
  named_view (NamedRecord.set variable item base).

Fixpoint comprehension_loop (filter map_expr : option Ev) (base : NamedRecord) (variable : string)
    (items : list value) : E' (list value) :=
  match items with
  | [] => mret []
  | item :: items' =>
      let local := bind_item base variable item in
      keep ← match filter with Some pred => holds (pred local) | None => mret true end;
      if keep : bool then
        val ← match map_expr with Some m => m local | None => mret item end;
        rest ← comprehension_loop filter map_expr base variable items';
        mret (val :: rest)
      else comprehension_loop filter map_expr base variable items'
  end.
Definition eval_list_comprehension (variable : string) (list_expr : E' value)
    (filter map_expr : option Ev) (record : RecordView) : E' value :=
  list_val ← list_expr;
  match list_val with
  | Value.List items =>
      base ← lift (view_to_named record);
      results ← comprehension_loop filter map_expr base variable items;
      mret (Value.List results)
  | Value.Null => mret (Value.List [])
  | _ => throw (GraphError.semantic "list comprehension requires a list input")
  end.

(** How many items made the predicate true, false or neither. *)
Record Counts := mkCounts { true_count : nat; false_count : nat; null_count : nat }.
Definition count_value (v : value) (n : Counts) : Counts :=
  match v with
  | Value.Bool true => mkCounts (1 + true_count n)%nat (false_count n) (null_count n)
  | Value.Bool false => mkCounts (true_count n) (1 + false_count n)%nat (null_count n)
  | _ => mkCounts (true_count n) (false_count n) (1 + null_count n)%nat
  end.
Fixpoint quantifier_loop (pred : Ev) (base : NamedRecord) (variable : string) (items : list value)
    (n : Counts) : E' Counts :=
  match items with
  | [] => mret n
  | item :: items' =>
      v ← pred (bind_item base variable item);
      quantifier_loop pred base variable items' (count_value v n)
  end.
Definition quantifier_result (kind : QuantifierKind) (n : Counts) : value :=
  match kind with
  | QuantifierKind.All =>
      if decide (0 < false_count n)%nat then Value.Bool false
      else if decide (0 < null_count n)%nat then Value.Null else Value.Bool true
  | QuantifierKind.Any =>
      if decide (0 < true_count n)%nat then Value.Bool true
      else if decide (0 < null_count n)%nat then Value.Null else Value.Bool false
  | QuantifierKind.None =>
      if decide (0 < true_count n)%nat then Value.Bool false
      else if decide (0 < null_count n)%nat then Value.Null else Value.Bool true
  | QuantifierKind.Single =>
      if decide (true_count n = 1 ∧ null_count n = 0)%nat then Value.Bool true
      else if decide (0 < null_count n ∧ true_count n ≤ 1)%nat then Value.Null
      else Value.Bool false
  end.
Definition eval_quantifier (kind : QuantifierKind) (variable : string) (list_expr : E' value)
    (pred : Ev) (record : RecordView) : E' value :=
  list_val ← list_expr;
  match list_val with
  | Value.List items =>
      base ← lift (view_to_named record);
      n ← quantifier_loop pred base variable items (mkCounts 0 0 0);
      mret (quantifier_result kind n)
  | Value.Null => mret Value.Null
  | _ => throw (GraphError.semantic "quantifier requires a list input")
  end.

(** Bindings that the subquery of a pattern comprehension sees: names of the
    planner are left out and nodes are spread over flat fields. *)
Definition is_internal (name : string) : bool :=
  str_starts "_anon_" name || str_starts "_path_rel_" name.
Definition first_segment (k : string) : string := default k (head (str_split "." k)).
Definition outer_field (e : string * value) : list (string * value) :=
  if is_internal e.1 then [] else
  match e.2 with
  | Value.Node n =>
      (e.1, id_value (node_id n)) :: (dot e.1 "__id", id_value (node_id n))
      :: (dot e.1 "__label", Value.String (join ":" (node_labels n)))
      :: (dot e.1 "__labels", label_values (node_labels n))
      :: ((λ p : string * value, (dot e.1 p.1, p.2)) <$> map_to_list (node_properties n))
  | v => if is_internal (first_segment e.1) then [] else [(e.1, v)]
  end.
Definition outer_record (outer_base : NamedRecord) : NamedRecord :=
  set_all (NamedRecord.fields outer_base ≫= outer_field) NamedRecord.new.

Definition with_path_variable (path_variable : option string) (p : Pattern Expr) : Pattern Expr :=
  match path_variable with
  | Some pv => mkPattern (pt_elements p) (Some pv) (pt_shortest_path_mode p)
  | None => p
  end.

Definition eval_pattern_comprehension (path_variable : option string) (pattern : Pattern Expr)
    (where_clause : option Expr) (map_expr : Ev) (record : RecordView) : E' value :=
  outer_base ← lift (view_to_named record);
  rows ← correlated_rows Q (with_path_variable path_variable pattern) where_clause
           (outer_record outer_base);
  results ← collect_m (λ row, map_expr (named_view (set_all (NamedRecord.fields row) outer_base))) rows;
  mret (Value.List results).

(** ** EXISTS *)
Definition eval_exists (patterns : list (Pattern Expr)) (where_clause : option Expr)
    (record : RecordView) : E' value :=
  l ← lift (for_each_field record);
  found ← first_match Q patterns where_clause
            (filter (λ e : string * value, "."%byte ∉ str_bytes e.1) l);
  mret (Value.Bool found).
Definition eval_exists_subquery (stmt : Statement) (record : RecordView) : E' value :=
  outer ← lift (view_to_named record);
  found ← correlated_exists Q stmt outer;
  mret (Value.Bool found).

(** ** The evaluator *)
Definition opt_value (o : option (E' value)) : E' (option value) :=
  match o with Some m => v ← m; mret (Some v) | None => mret None end.
Definition variable_of (e : Expr) : option string :=
  match expr_kind e with Variable_ v => Some v | _ => None end.

Fixpoint eval_expr (e : Expr) (record : RecordView) {struct e} : E' value :=
  match expr_kind e with
  | Literal lit => mret (literal_to_value lit)
  | Variable_ name => eval_variable record name
  | Property var prop => eval_property record var prop
  | ListLit items =>
      values ← collect_m (λ e, eval_expr e record) items; mret (Value.List values)
  | Index e' index =>
      early ← (match variable_of e' with
               | Some var =>
                   idx_val ← eval_expr index record;
                   match idx_val with
                   | Value.String key => variable_index record var key
                   | _ => mret None
                   end
               | None => mret None
               end);
      match early with
      | Some v => mret v
      | None =>
          base ← eval_expr e' record;
          idx ← eval_expr index record;
          lift (eval_index base idx)
      end
  | DotAccess e' key => base ← eval_expr e' record; lift (eval_dot base key)
  | Slice e' start end_ =>
      base ← eval_expr e' record;
      start_val ← opt_value (match start with Some s => Some (eval_expr s record) | None => None end);
      end_val ← opt_value (match end_ with Some s => Some (eval_expr s record) | None => None end);
      mret (eval_slice base start_val end_val)
  | HasLabel var labels => eval_has_label record var labels
  | Star => mret Value.Null
  | Parameter_ name => lift (eval_parameter name)
  | BinaryOp l op r =>
      lval ← eval_expr l record;
      rval ← eval_expr r record;
      eval_binop X lval op rval
  | Not inner =>
      val ← eval_expr inner record;
      o ← lift (to_tribool val);
      mret (tri_value (negb <$> o))
  | IsNull inner =>
      val ← eval_expr inner record;
      mret (Value.Bool (match val with Value.Null => true | _ => false end))
  | IsNotNull inner =>
      val ← eval_expr inner record;
      mret (Value.Bool (match val with Value.Null => false | _ => true end))
  | Case operand alternatives default_ =>
      let alts := List.map (λ p, (eval_expr p.1 record, eval_expr p.2 record)) alternatives in
      let dflt := match default_ with Some d => eval_expr d record | None => mret Value.Null end in
      match operand with
      | Some op_expr => op_val ← eval_expr op_expr record; simple_case op_val alts dflt
      | None => searched_case alts dflt
      end
  | ListComprehension variable list_expr filter_ map_expr =>
      eval_list_comprehension variable (eval_expr list_expr record)
        (match filter_ with Some p => Some (eval_expr p) | None => None end)
        (match map_expr with Some m => Some (eval_expr m) | None => None end) record
  | Quantifier kind variable list_expr pred =>
      eval_quantifier kind variable (eval_expr list_expr record) (eval_expr pred) record
  | PatternComprehension path_variable pattern where_clause map_expr =>
      eval_pattern_comprehension path_variable pattern where_clause (eval_expr map_expr) record
  | Ast.Exists patterns where_clause => eval_exists patterns where_clause record
  | PatternPredicate pattern => eval_exists [pattern] None record
  | ExistsSubquery stmt => eval_exists_subquery stmt record
  | MapLiteral pairs =>
      kvs ← collect_m (λ p : string * Expr, v ← eval_expr p.2 record; mret (p.1, v)) pairs;
      mret (Value.Map (foldl (λ m e, <[e.1 := e.2]> m) ∅ kvs))
  | FunctionCall name args _ original_text =>
      eval_function_call X c record name args (List.map (λ a, eval_expr a record) args) original_text
  end.

Definition eval_predicate (e : Expr) (record : RecordView) : E' bool :=
  holds (eval_expr e record).
End eval.
