(* ===== verification/Aggregates.v ===== *)
(** * Aggregation, sorting and bounds: src/src/cypher/executor/aggregate.rs

    What the operators Aggregate, Sort, Distinct, Skip and Limit do to the rows
    they are given.  Expressions are evaluated by [ev], which the executor
    instantiates with [eval_expr]. *)
From S2P Require Export Eval.
#[local] Open Scope Z_scope.

(** ** Derived texts

    [{:?}] of a value and of an expression is derived by the compiler. *)
Class DebugText := {
  value_debug : value → string;
  expr_debug : Expr → string;
}.
Definition agg_fn_debug (f : AggregateFunction) : string :=
  match f with
  | Count => "Count"
  | Sum => "Sum"
  | Avg => "Avg"
  | Min => "Min"
  | Max => "Max"
  | Collect => "Collect"
  | PercentileDisc => "PercentileDisc"
  | PercentileCont => "PercentileCont"
  | StDev => "StDev"
  | StDevP => "StDevP"
  end.

(** ** Sorting

    [slice::sort_by] is a stable sort.  For a comparison that is a total preorder
    all stable sorts return the same list; this one inserts. *)
Section sorting.
Context {A : Type}.

Fixpoint insert_by (cmp : A → A → comparison) (x : A) (l : list A) : list A :=
  match l with
  | [] => [x]
  | y :: l' => match cmp x y with Gt => y :: insert_by cmp x l' | _ => x :: l end
  end.
Definition sort_by (cmp : A → A → comparison) : list A → list A := foldr (insert_by cmp) [].

Context {S E : Type}.
Fixpoint insert_by_m (cmp : A → A → M S E comparison) (x : A) (l : list A) : M S E (list A) :=
  match l with
  | [] => mret [x]
  | y :: l' =>
      o ← cmp x y;
      match o with Gt => rest ← insert_by_m cmp x l'; mret (y :: rest) | _ => mret (x :: l) end
  end.
Fixpoint sort_by_m (cmp : A → A → M S E comparison) (l : list A) : M S E (list A) :=
  match l with
  | [] => mret []
  | x :: l' => sorted ← sort_by_m cmp l'; insert_by_m cmp x sorted
  end.
End sorting.

(** [r.ok()] of a computation, and [r.unwrap_or(Value::Null)]. *)
Definition ok_m {S E A} (m : M S E A) : M S E (option A) := λ s,
  match m s with
  | (s', Ok a) => (s', Ok (Some a))
  | (s', Err _) => (s', Ok None)
  | (s', Panic) => (s', Panic)
  end.
Definition or_null {S E} (m : M S E value) : M S E value :=
  o ← ok_m m; mret (default Value.Null o).

(** ** Folding steps *)
Definition is_null (v : value) : bool := match v with Value.Null => true | _ => false end.
Definition f64_sum (l : list f64) : f64 := foldl f64_add (S754_zero true) l.

Record SumState := mkSum { i64_sum : Z; f64_total : f64; all_integer : bool }.
Definition sum_step (s : SumState) (v : value) : SumState :=
  match v with
  | Value.I64 n =>
      mkSum (as_i64 (i64_sum s + n)) (f64_add (f64_total s) (f64_of_int n)) (all_integer s)
  | Value.F64 n => mkSum (i64_sum s) (f64_add (f64_total s) (f64_of_bits n)) false
  | _ => s
  end.
Definition sum_result (s : SumState) : value :=
  if all_integer s then Value.I64 (i64_sum s) else F (f64_total s).

Definition avg_step (s : f64 * Z) (v : value) : f64 * Z :=
  match v with
  | Value.I64 n => (f64_add s.1 (f64_of_int n), s.2 + 1)
  | Value.F64 n => (f64_add s.1 (f64_of_bits n), s.2 + 1)
  | _ => s
  end.
Definition avg_result (s : f64 * Z) : value :=
  if 0 <? s.2 then F (f64_div s.1 (f64_of_int s.2)) else Value.Null.

Definition collect_step (items : list value) (v : value) : list value :=
  if is_null v then items else items ++ [v].

(** The numbers among the values, as doubles. *)
Definition number_step (l : list f64) (v : value) : list f64 :=
  match v with
  | Value.I64 n => l ++ [f64_of_int n]
  | Value.F64 n => l ++ [f64_of_bits n]
  | _ => l
  end.

Section extremes.
Context {Co : ChronoOrder}.
Definition is_less (o : comparison) : bool := match o with Lt => true | _ => false end.
Definition min_step (cur : option value) (v : value) : Res (option value) :=
  if is_null v then Ok cur else
  match cur with
  | None => Ok (Some v)
  | Some current =>
      o ← compare_values_for_sort v current;
      Ok (Some (if is_less o then v else current))
  end.
Definition max_step (cur : option value) (v : value) : Res (option value) :=
  if is_null v then Ok cur else
  match cur with
  | None => Ok (Some v)
  | Some current =>
      o ← compare_values_for_sort current v;
      Ok (Some (if is_less o then v else current))
  end.
End extremes.

(** ** Percentiles and deviations *)
Definition number_out_of_range (message : string) : GraphError :=
  GraphError.with_code (GraphError.argument Runtime message) ErrorCode.NumberOutOfRange.
Definition f64_as_usize (x : f64) : nat := Z.to_nat (f64_as_int 0 (2 ^ 64 - 1) x).
Definition f64_len {A} (l : list A) : f64 := f64_of_int (Z.of_nat (length l)).
Definition f64_last {A} (l : list A) : f64 := f64_of_int (Z.of_nat (length l) - 1).
Definition f64_at (l : list f64) (i : nat) : Res f64 :=
  match l !! i with Some x => Ok x | None => Panic end.

(** [(0.0..=1.0).contains(&pct)]. *)
Definition in_unit (pct : f64) : bool := SFleb f64_zero pct && SFleb pct (f64_of_int 1).
Definition sort_f64 : list f64 → list f64 := sort_by (λ a b, or_equal (f64_cmp a b)).

Definition percentile_disc (pct : f64) (values : list f64) : Res value :=
  x ← f64_at values (f64_as_usize (f64_round (f64_mul pct (f64_last values)))); Ok (F x).
Definition percentile_cont (pct : f64) (values : list f64) : Res value :=
  let pos := f64_mul pct (f64_last values) in
  let lower := f64_as_usize (f64_floor pos) in
  let upper := f64_as_usize (f64_ceil pos) in
  if Nat.eqb lower upper then x ← f64_at values lower; Ok (F x) else
  let frac := f64_sub pos (f64_of_int (Z.of_nat lower)) in
  x ← f64_at values lower;
  y ← f64_at values upper;
  Ok (F (f64_add (f64_mul x (f64_sub (f64_of_int 1) frac)) (f64_mul y frac))).

(** [(v - mean).powi(2)] is a product. *)
Definition deviation (is_sample : bool) (values : list f64) : value :=
  let n := Z.of_nat (length values) in
  if (n =? 0) || (is_sample && (n <? 2)) then F f64_zero else
  let mean := f64_div (f64_sum values) (f64_of_int n) in
  let square v := let d := f64_sub v mean in f64_mul d d in
  let variance := f64_div (f64_sum (square <$> values))
                    (f64_of_int (if is_sample then n - 1 else n)) in
  F (f64_sqrt variance).

(** ** The operators *)
Section operators.
Context {Co : ChronoOrder} {Db : DebugText} {S : Type}.
Context (ev : Expr → RecordView → M S GraphError value).
Abbreviation E' := (M S GraphError).

(** The rows whose value is new and not null. *)
Fixpoint dedup_loop (input : Expr) (seen : list value) (records : list RecordView)
    : E' (list RecordView) :=
  match records with
  | [] => mret []
  | rec :: records' =>
      val ← ev input rec;
      if is_null val || List.existsb (value_eqb val) seen then dedup_loop input seen records'
      else kept ← dedup_loop input (seen ++ [val]) records'; mret (rec :: kept)
  end.

(** A loop that evaluates the input in each row. *)
Fixpoint agg_loop {B} (input : Expr) (f : B → value → Res B) (b : B) (records : list RecordView)
    : E' B :=
  match records with
  | [] => mret b
  | rec :: records' =>
      v ← ev input rec;
      b' ← lift (f b v);
      agg_loop input f b' records'
  end.
Definition agg_fold {B} (input : Expr) (f : B → value → B) : B → list RecordView → E' B :=
  agg_loop input (λ b v, Ok (f b v)).

(** Rows in which the input is not null; an error counts. *)
Fixpoint count_loop (input : Expr) (records : list RecordView) : E' nat :=
  match records with
  | [] => mret 0%nat
  | rec :: records' =>
      o ← ok_m (ev input rec);
      n ← count_loop input records';
      mret (match o with Some Value.Null => n | _ => Datatypes.S n end)
  end.

Definition percentile_argument (agg : AggregateExpr) (records : list RecordView) : E' f64 :=
  match ag_extra_arg agg with
  | Some pct_expr =>
      let first_rec := default (named_view NamedRecord.new) (head records) in
      v ← ev pct_expr first_rec;
      match v with
      | Value.F64 v => mret (f64_of_bits v)
      | Value.I64 v => mret (f64_of_int v)
      | other => throw (number_out_of_range ("expected number but got " +:+ value_debug other))
      end
  | None => throw (number_out_of_range "percentile function requires a second argument")
  end.
Definition percentile (agg : AggregateExpr) (f : f64 → list f64 → Res value)
    (records : list RecordView) : E' value :=
  pct ← percentile_argument agg records;
  if negb (in_unit pct)
  then throw (number_out_of_range ("percentile must be between 0.0 and 1.0, got "
                +:+ bytes_str (f64_display pct))) else
  values ← agg_fold (ag_input agg) number_step [] records;
  match values with [] => mret Value.Null | _ => lift (f pct (sort_f64 values)) end.

Definition compute_aggregate (agg : AggregateExpr) (records : list RecordView) : E' value :=
  let input := ag_input agg in
  records ← (if ag_distinct agg && negb (is_star input)
             then dedup_loop input [] records else mret records);
  match ag_function agg with
  | Count =>
      if is_star input then mret (int_len records)
      else n ← count_loop input records; mret (Value.I64 (Z.of_nat n))
  | Sum => s ← agg_fold input sum_step (mkSum 0 f64_zero true) records; mret (sum_result s)
  | Avg => s ← agg_fold input avg_step (f64_zero, 0) records; mret (avg_result s)
  | Min => o ← agg_loop input min_step None records; mret (default Value.Null o)
  | Max => o ← agg_loop input max_step None records; mret (default Value.Null o)
  | Collect => items ← agg_fold input collect_step [] records; mret (Value.List items)
  | PercentileDisc => percentile agg percentile_disc records
  | PercentileCont => percentile agg percentile_cont records
  | StDev => l ← agg_fold input number_step [] records; mret (deviation true l)
  | StDevP => l ← agg_fold input number_step [] records; mret (deviation false l)
  end.

(** *** Groups *)
Definition key_of (group_keys : list Expr) (view : RecordView) : E' (list value) :=
  collect_m (λ k, or_null (ev k view)) group_keys.
Definition keys_eqb (a b : list value) : bool := forallb2 value_eqb a b.

(** The groups in the order in which their keys appear, each with its rows:
    [key_order] and [group_map] together. *)
Fixpoint add_to_group {A} (key : list value) (a : A) (groups : list (list value * list A))
    : list (list value * list A) :=
  match groups with
  | [] => [(key, [a])]
  | (k, l) :: groups' =>
      if keys_eqb k key then (k, l ++ [a]) :: groups' else (k, l) :: add_to_group key a groups'
  end.
Fixpoint group_loop {A} (view : A → RecordView) (group_keys : list Expr)
    (groups : list (list value * list A)) (records : list A) : E' (list (list value * list A)) :=
  match records with
  | [] => mret groups
  | rec :: records' =>
      key ← key_of group_keys (view rec);
      group_loop view group_keys (add_to_group key rec groups) records'
  end.

(** [rec.set(col_name, val)] for each aggregate. *)
Fixpoint set_aggregates (name : AggregateExpr → string) (aggregates : list AggregateExpr)
    (views : list RecordView) (rec : NamedRecord) : E' NamedRecord :=
  match aggregates with
  | [] => mret rec
  | agg :: aggregates' =>
      val ← compute_aggregate agg views;
      set_aggregates name aggregates' views (NamedRecord.set (name agg) val rec)
  end.

(** The fields [var.*] of a row. *)
Definition var_fields (var : string) (r : NamedRecord) : list (string * value) :=
  List.filter (λ e : string * value, str_starts (var +:+ ".") e.1) (NamedRecord.fields r).
Definition carried (key_expr : Expr) (group : list NamedRecord) : list (string * value) :=
  match variable_of key_expr, head group with
  | Some var, Some first => var_fields var first
  | _, _ => []
  end.
Definition set_keys (name : Expr → string) (group_keys : list Expr) (key_vals : list value)
    (group : list NamedRecord) (rec : NamedRecord) : NamedRecord :=
  foldl (λ rec e, set_all (carried e.1 group) (NamedRecord.set (name e.1) e.2 rec)) rec
    (zip group_keys key_vals).

Definition aggregate_with (key_name : Expr → string) (agg_name : AggregateExpr → string)
    (records : list NamedRecord) (group_keys : list Expr) (aggregates : list AggregateExpr)
    : E' (list NamedRecord) :=
  match group_keys with
  | [] =>
      rec ← set_aggregates agg_name aggregates (named_view <$> records) NamedRecord.new;
      mret [rec]
  | _ =>
      groups ← group_loop named_view group_keys [] records;
      collect_m (λ g : list value * list NamedRecord,
        set_aggregates agg_name aggregates (named_view <$> g.2)
          (set_keys key_name group_keys g.1 g.2 NamedRecord.new)) groups
  end.
Definition aggregate_named_records : list NamedRecord → list Expr → list AggregateExpr →
    E' (list NamedRecord) :=
  aggregate_with expr_to_column_name agg_col_name.

(** The correlated path names its columns in its own way. *)
Definition correlated_key_name (k : Expr) : string :=
  match variable_of k with Some v => v | None => expr_debug k end.
Definition correlated_agg_name (agg : AggregateExpr) : string :=
  default (agg_fn_debug (ag_function agg)) (ag_alias agg).
Definition exec_aggregate_over_records : list NamedRecord → list Expr → list AggregateExpr →
    E' (list NamedRecord) :=
  aggregate_with correlated_key_name correlated_agg_name.

(** *** Rows by slot *)
Definition set_named (output_schema : RecordSchema) (name : string) (v : value) (out : SlotRecord)
    : Res SlotRecord :=
  match RecordSchema.slot name output_schema with
  | Some slot => SlotRecord.set slot v out
  | None => Ok out
  end.
Fixpoint set_aggregates_slot (output_schema : RecordSchema) (aggregates : list AggregateExpr)
    (views : list RecordView) (out : SlotRecord) : E' SlotRecord :=
  match aggregates with
  | [] => mret out
  | agg :: aggregates' =>
      val ← compute_aggregate agg views;
      out' ← lift (set_named output_schema (agg_col_name agg) val out);
      set_aggregates_slot output_schema aggregates' views out'
  end.

(** The loop over the slots of the input whose name begins with [var.]. *)
Fixpoint carry_slots (output_schema : RecordSchema) (first_rec : SlotRecord) (var : string)
    (slots : list (N * string)) (out : SlotRecord) : Res SlotRecord :=
  match slots with
  | [] => Ok out
  | (in_slot, name) :: slots' =>
      out' ← (if str_starts (var +:+ ".") name then
                match RecordSchema.slot name output_schema with
                | Some out_slot => v ← SlotRecord.get in_slot first_rec; SlotRecord.set out_slot v out
                | None => Ok out
                end
              else Ok out);
      carry_slots output_schema first_rec var slots' out'
  end.
Definition carry_group (input_schema output_schema : RecordSchema) (group : list SlotRecord)
    (key_expr : Expr) (out : SlotRecord) : Res SlotRecord :=
  match variable_of key_expr, head group with
  | Some var, Some first_rec =>
      slots ← RecordSchema.iter input_schema;
      carry_slots output_schema first_rec var slots out
  | _, _ => Ok out
  end.
Fixpoint set_keys_slot (input_schema output_schema : RecordSchema) (group : list SlotRecord)
    (keys : list (Expr * value)) (out : SlotRecord) : Res SlotRecord :=
  match keys with
  | [] => Ok out
  | (key_expr, v) :: keys' =>
      out1 ← set_named output_schema (expr_to_column_name key_expr) v out;
      out2 ← carry_group input_schema output_schema group key_expr out1;
      set_keys_slot input_schema output_schema group keys' out2
  end.

Definition aggregate_slot_records (input_schema : RecordSchema) (records : list SlotRecord)
    (output_schema : RecordSchema) (group_keys : list Expr) (aggregates : list AggregateExpr)
    : E' (list SlotRecord) :=
  let empty := SlotRecord.with_capacity (RecordSchema.len output_schema) in
  match group_keys with
  | [] =>
      out ← set_aggregates_slot output_schema aggregates (slot_view input_schema <$> records) empty;
      mret [out]
  | _ =>
      groups ← group_loop (slot_view input_schema) group_keys [] records;
      collect_m (λ g : list value * list SlotRecord,
        out ← lift (set_keys_slot input_schema output_schema g.2 (zip group_keys g.1) empty);
        set_aggregates_slot output_schema aggregates (slot_view input_schema <$> g.2) out) groups
  end.

(** *** Sort, Distinct, Skip and Limit *)
Fixpoint compare_rows (items : list (SortItem Expr)) (a b : RecordView) : E' comparison :=
  match items with
  | [] => mret Eq
  | item :: items' =>
      va ← or_null (ev (si_expr item) a);
      vb ← or_null (ev (si_expr item) b);
      o ← lift (compare_values_for_sort va vb);
      match (if si_descending item then CompOpp o else o) with
      | Eq => compare_rows items' a b
      | o => mret o
      end
  end.
Definition sort_records (items : list (SortItem Expr)) (records : list NamedRecord)
    : E' (list NamedRecord) :=
  sort_by_m (λ a b, compare_rows items (named_view a) (named_view b)) records.
End operators.

(** [IndexMap]'s equality does not look at the order of the entries. *)
Definition fields_eqb (a b : list (string * value)) : bool :=
  Nat.eqb (length a) (length b)
  && forallb (λ e : string * value,
       match NamedRecord.lookup_field e.1 b with Some v => value_eqb e.2 v | None => false end) a.
Fixpoint distinct_loop (seen : list NamedRecord) (records : list NamedRecord) : list NamedRecord :=
  match records with
  | [] => []
  | rec :: records' =>
      if List.existsb (λ s, fields_eqb (NamedRecord.fields s) (NamedRecord.fields rec)) seen
      then distinct_loop seen records'
      else rec :: distinct_loop (seen ++ [rec]) records'
  end.
Definition distinct_records : list NamedRecord → list NamedRecord := distinct_loop [].
Definition skip_records (count : N) (records : list NamedRecord) : list NamedRecord :=
  drop (N.to_nat count) records.
Definition limit_records (count : N) (records : list NamedRecord) : list NamedRecord :=
  take (N.to_nat count) records.
