(* ===== verification/ReadOps.v ===== *)
(** * Reading rows: src/src/cypher/executor/read.rs, path.rs and util.rs

    What the reading operators of a plan do to one row or to the rows of their
    input: looking nodes up, expanding relationships, joining, projecting and
    unwinding.  Expressions are evaluated by [ev]. *)
From stdpp Require Import pretty.
From S2P Require Export Aggregates ValueText Traverse.
#[local] Open Scope Z_scope.

(** ** Loops *)

(** [results.extend(f(x)?)] for each [x]. *)
Fixpoint concat_m {S A B} (f : A → M S GraphError (list B)) (l : list A) : M S GraphError (list B) :=
  match l with
  | [] => mret []
  | x :: l' => ys ← f x; rest ← concat_m f l'; mret (ys ++ rest)
  end.
Definition concat_r {A B} (f : A → Res (list B)) (l : list A) : Res (list B) :=
  ls ← collect f l; Ok (concat ls).
(** Those for which the test succeeds. *)
Definition filter_m {S A} (f : A → M S GraphError bool) : list A → M S GraphError (list A) :=
  concat_m (λ x, b ← f x; mret (if b : bool then [x] else [])).

(** [r.ok()] and [r.unwrap_or(d)]; a panic is not an error. *)
Definition ok_r {A} (r : Res A) : Res (option A) :=
  match r with Ok a => Ok (Some a) | Err _ => Ok None | Panic => Panic end.
Definition unwrap_or {A} (d : A) (r : Res A) : Res A := o ← ok_r r; Ok (default d o).

(** ** Rows *)

(** [value_to_node_id], and the node that an alias is bound to. *)
Definition value_to_node_id (v : value) : option N :=
  match v with
  | Value.I64 id => Some (u64_of_i64 id)
  | Value.Node n => Some (node_id n)
  | _ => None
  end.
Definition bound_node (alias : string) (rec : NamedRecord) : option N :=
  v ← NamedRecord.get alias rec; value_to_node_id v.

(** [combined.set(k, v)] for each field of [r], and for the fields that are new. *)
Definition merge_over (r combined : NamedRecord) : NamedRecord :=
  set_all (NamedRecord.fields r) combined.
Definition merge_under (r combined : NamedRecord) : NamedRecord :=
  foldl (λ acc e, match NamedRecord.get e.1 acc with
                  | Some _ => acc
                  | None => NamedRecord.set e.1 e.2 acc
                  end) combined (NamedRecord.fields r).

Definition record_matches_bindings (rec : NamedRecord) (bindings : list (string * value)) : bool :=
  forallb (λ b : string * value,
    match NamedRecord.get b.1 rec with Some v => value_eqb v b.2 | None => true end) bindings.

Definition rows_exceeded (what : string) (max : N) : GraphError :=
  GraphError.constraint (what +:+ " exceeded maximum of " +:+ pretty max +:+ " rows").
Definition check_row_limit {A} (results : list A) (max_result_rows : N) : Res unit :=
  if decide (0 < max_result_rows ∧ max_result_rows < N.of_nat (length results))%N
  then Err (rows_exceeded "result set" max_result_rows) else Ok ().

(** *** Relationships of a row *)

(** What tells two relationships apart: the ends in order, the type and the number. *)
Abbreviation EdgeId := (Z * Z * string * N)%type.
Definition edge_key_of (src dst : Z) (label : string) (seq : N) : EdgeId :=
  (Z.min src dst, Z.max src dst, label, seq).
Definition edge_seq_field (o : option value) : N :=
  match int_field o with Some s => u64_of_i64 s | None => 0%N end.
Definition edge_id_of (rec : NamedRecord) (alias : string) : option EdgeId :=
  let get key := NamedRecord.get (dot alias key) rec in
  s ← int_field (get "__src");
  d ← int_field (get "__dst");
  t ← str_field (get "__type");
  Some (edge_key_of s d t (edge_seq_field (get "__edge_seq"))).

(** [&key[..key.len() - 6]] of a key that ends in [.__src]. *)
Definition src_alias_of (key : string) : option string :=
  if str_ends_with key ".__src"
  then Some (bytes_str (take (str_len key - 6) (str_bytes key))) else None.
Definition collect_flat_edge_ids (rec : NamedRecord) : list EdgeId :=
  omap (λ e : string * value, alias ← src_alias_of e.1; edge_id_of rec alias)
    (NamedRecord.fields rec).
Fixpoint has_duplicate (seen l : list EdgeId) : bool :=
  match l with
  | [] => false
  | k :: l' => bool_decide (k ∈ seen) || has_duplicate (seen ++ [k]) l'
  end.
Definition has_duplicate_relationships (rec : NamedRecord) : bool :=
  has_duplicate [] (collect_flat_edge_ids rec).

(** Another relationship of the row is the same edge. *)
Definition bound_elsewhere (rec : NamedRecord) (r_alias : string) (edge_key : EdgeId) : bool :=
  List.existsb (λ e : string * value,
    match src_alias_of e.1 with
    | Some other =>
        negb (String.eqb e.1 (dot r_alias "__src"))
        && bool_decide (edge_id_of rec other = Some edge_key)
    | None => false
    end) (NamedRecord.fields rec).

(** Writing a relationship. *)
Definition set_rel (r_alias label : string) (src dst seq : N) (props : Properties)
    (rec : NamedRecord) : NamedRecord :=
  let rec := NamedRecord.set r_alias (Value.String label) rec in
  let rec := NamedRecord.set (dot r_alias "__src") (id_value src) rec in
  let rec := NamedRecord.set (dot r_alias "__dst") (id_value dst) rec in
  let rec := NamedRecord.set (dot r_alias "__type") (Value.String label) rec in
  let rec := NamedRecord.set (dot r_alias "__edge_seq") (id_value seq) rec in
  set_all ((λ p : string * value, (dot r_alias p.1, p.2)) <$> map_to_list props) rec.

(** ** Traversals

    The searches of Traverse.v run on fuel; these are their results with enough
    of it. *)
Record Traversals := mkTraversals {
  tr_paths : list string → Direction → N → N → gmap string value → option nat → N → N →
    Res (list (N * list PathStep));
  tr_traverse : N → string → Direction → N → N → Res (list N);
  tr_shortest : N → N → string → Direction → N → Res (option (list N));
  tr_all_shortest : N → N → string → Direction → N → Res (list (list N)) }.

Section read.
Context {conn : Type} {O : SqlOps conn} {Mp : Msgpack} {Fm : FtsMatch conn}.
Context (c : conn).

Record traversals_spec (T : Traversals) : Prop := {
  paths_spec labels dir lo hi filters cap work start :
    ∃ fuel, traverse_paths labels dir lo hi filters cap work c start fuel
            = Some (tr_paths T labels dir lo hi filters cap work start);
  traverse_spec start label dir lo hi :
    ∃ fuel, traverse start label dir lo hi None c fuel = Some (tr_traverse T start label dir lo hi);
  shortest_spec start end_ label dir hi :
    ∃ fuel, shortest_path start end_ label dir hi c fuel
            = Some (tr_shortest T start end_ label dir hi);
  all_shortest_spec start end_ label dir hi :
    ∃ fuel, all_shortest_paths start end_ label dir hi c fuel
            = Some (tr_all_shortest T start end_ label dir hi) }.

Context (T : Traversals) (params : option (gmap string value)).
Context {S : Type} (ev : Expr → RecordView → M S GraphError value).
Abbreviation E' := (M S GraphError).

Definition ev_in (e : Expr) (rec : NamedRecord) : E' value := ev e (named_view rec).
Definition holds_in (e : Expr) (rec : NamedRecord) : E' bool := holds (ev_in e rec).
Definition passes (filter : option Expr) (rec : NamedRecord) : E' bool :=
  match filter with Some f => holds_in f rec | None => mret true end.

Definition fetch_and_populate (rec : NamedRecord) (id : N) (alias : string) : Res NamedRecord :=
  n ← get_node id c; Ok (populate_node_bindings n alias rec).

(** ** Leaves *)
Definition exec_scan (label alias : string) (max_result_rows : N) : Res (list NamedRecord) :=
  nodes ← find_nodes_by_label label c;
  let records := (λ n, node_to_record n alias) <$> nodes in
  _ ← check_row_limit records max_result_rows; Ok records.

Definition node_by_id (id : N) (alias : string) : Res (list NamedRecord) :=
  match get_node id c with
  | Ok n => Ok [node_to_record n alias]
  | Err (GraphError.NodeNotFound _ _) => Ok []
  | Err e => Err e
  | Panic => Panic
  end.
Definition exec_id_lookup (alias : string) (value_expr : Expr) (record : NamedRecord)
    : E' (list NamedRecord) :=
  evaluated ← ev_in value_expr record;
  match evaluated with
  | Value.I64 n => if 0 <=? n then lift (node_by_id (Z.to_N n) alias) else mret []
  | _ => mret []
  end.

Definition resolve_lookup_key (key : LookupKey) : Res value :=
  match key with
  | LookupKey.Literal lv => Ok (literal_to_value lv)
  | LookupKey.Param name =>
      ok_or (p ← params; p !! name)
        (GraphError.query Runtime ErrorCode.MissingParameter ("missing parameter: $" +:+ name))
  end.
Definition index_lookup_ids (label : string) (index_properties : list string)
    (lookups : list (string * LookupKey)) : Res (list N) :=
  values ← collect (λ l : string * LookupKey, resolve_lookup_key l.2) lookups;
  composite_index_prefix_lookup label index_properties values c.

Definition has_label (label : string) (n : Node) : bool :=
  String.eqb label "" || bool_decide (label ∈ node_labels n).
Definition exec_index_lookup (label alias : string) (index_properties : list string)
    (lookups : list (string * LookupKey)) (remaining_filters : option Expr) : E' (list NamedRecord) :=
  node_ids ← lift (index_lookup_ids label index_properties lookups);
  concat_m (λ id,
    n ← lift (get_node id c);
    if negb (has_label label n) then mret [] else
    let rec := node_to_record n alias in
    b ← passes remaining_filters rec;
    mret (if b : bool then [rec] else [])) node_ids.

(** *** Full text *)
Definition fts_value_type_name : value → string := value_type_name.
Definition fts_op_test (op : FullTextOp) (s term : string) : bool :=
  match op with
  | FtContains => str_contains s term
  | FtStartsWith => str_starts_with s term
  | FtEndsWith => str_ends_with s term
  end.
Definition fts_anchor_matches (properties : Properties) (property : string) (op : FullTextOp)
    (term : string) : bool :=
  match properties !! property with
  | Some (Value.String s) =>
      match op with FtContains => true | _ => fts_op_test op s term end
  | _ => false
  end.
Definition fts_fallback_matches (properties : Properties) (property : string) (op : FullTextOp)
    (term : string) : bool :=
  match properties !! property with
  | Some (Value.String s) => fts_op_test op s term
  | _ => false
  end.

(** A row with its score, if it passes the remaining filters. *)
Definition scored_row (n : Node) (alias : string) (score : f64) (remaining_filters : option Expr)
    : E' (list NamedRecord) :=
  let rec := NamedRecord.set (dot alias "__fts_score") (F score) (node_to_record n alias) in
  b ← passes remaining_filters rec;
  mret (if b : bool then [rec] else []).

Definition exec_fulltext_fallback (label alias property : string) (op : FullTextOp) (term : string)
    (remaining_filters : option Expr) : E' (list NamedRecord) :=
  nodes ← lift (find_nodes_by_label label c);
  concat_m (λ n,
    if fts_fallback_matches (node_properties n) property op term
    then scored_row n alias f64_zero remaining_filters else mret []) nodes.

Definition exec_fulltext_lookup (label alias property : string) (op : FullTextOp) (term_expr : Expr)
    (remaining_filters : option Expr) (record : NamedRecord) : E' (list NamedRecord) :=
  evaluated ← ev_in term_expr record;
  match evaluated with
  | Value.String term =>
      candidates ← lift (fulltext_lookup label property term c);
      match candidates with
      | Some rows =>
          concat_m (λ r : N * N,
            n ← lift (get_node r.1 c);
            if fts_anchor_matches (node_properties n) property op term
            then scored_row n alias (f64_neg (f64_of_bits r.2)) remaining_filters else mret []) rows
      | None => exec_fulltext_fallback label alias property op term remaining_filters
      end
  | Value.Null => mret []
  | other =>
      throw (GraphError.type_error Runtime
        ("fulltext predicate on '" +:+ property +:+ "' requires a String term, got "
         +:+ fts_value_type_name other))
  end.

(** ** Expand *)
Definition literal_filters (filters : gmap string Expr) : gmap string value :=
  omap (λ e, match expr_kind e with Literal lit => Some (literal_to_value lit) | _ => None end)
    filters.

(** The types that an expansion follows. *)
Definition expand_labels (src_id : N) (edge_types : list string) (direction : Direction)
    : Res (list string) :=
  match edge_types with
  | [] => all ← get_all_edge_labels src_id direction c; Ok (fst <$> (all : list (string * list N)))
  | _ => Ok edge_types
  end.
(** [if let Some(required) = bound && dst_id != required { continue }]. *)
Definition dst_allowed (bound : option N) (dst_id : N) : bool :=
  match bound with Some required => N.eqb dst_id required | None => true end.

Definition edge_ends (direction : Direction) (src_id dst_id : N) (label : string) : Res (N * N) :=
  match direction with
  | Incoming => Ok (dst_id, src_id)
  | Outgoing => Ok (src_id, dst_id)
  | Both =>
      b ← unwrap_or false (edge_exists src_id dst_id label c);
      Ok (if b : bool then (src_id, dst_id) else (dst_id, src_id))
  end.

(** The relationship that a step of a path took. *)
Definition edge_of_step (step : PathStep) : Res value :=
  props ← unwrap_or ∅ (get_edge_properties_at (step_src step) (step_dst step) (step_label step)
                         (step_seq step) c);
  Ok (Value.Edge (mkEdge (step_src step) (step_dst step) (step_label step) props)).
Definition path_row (rec : NamedRecord) (dst_alias : string) (rel_alias : option string)
    (p : N * list PathStep) : Res NamedRecord :=
  new_rec ← fetch_and_populate rec p.1 dst_alias;
  match rel_alias with
  | Some r_alias =>
      edges ← collect edge_of_step p.2;
      Ok (NamedRecord.set r_alias (Value.List edges) new_rec)
  | None => Ok new_rec
  end.

(** The rows for one neighbour: one for each stored edge that the row does not
    bind already. *)
Definition edge_rows (rec : NamedRecord) (dst_node : Node) (dst_alias r_alias label : string)
    (src dst : N) (edge : N * Properties) : list NamedRecord :=
  let new_rec := populate_node_bindings dst_node dst_alias rec in
  let edge_key := edge_key_of (i64_of_u64 src) (i64_of_u64 dst) label edge.1 in
  if bound_elsewhere new_rec r_alias edge_key then []
  else [set_rel r_alias label src dst edge.1 edge.2 new_rec].
Definition neighbor_rows (rec : NamedRecord) (src_id : N) (dst_alias : string)
    (rel_alias : option string) (direction : Direction) (label : string) (dst_id : N)
    : Res (list NamedRecord) :=
  match rel_alias with
  | None => new_rec ← fetch_and_populate rec dst_id dst_alias; Ok [new_rec]
  | Some r_alias =>
      ends ← edge_ends direction src_id dst_id label;
      all_edges ← get_all_edge_props ends.1 ends.2 label c;
      let edge_list := match all_edges with [] => [(0%N, ∅)] | _ => all_edges end in
      dst_node ← get_node dst_id c;
      Ok (edge_list ≫= edge_rows rec dst_node dst_alias r_alias label ends.1 ends.2)
  end.

Record ExpandOp := mkExpand {
  ex_src : string; ex_dst : string; ex_rel : option string; ex_types : list string;
  ex_direction : Direction; ex_min : N; ex_max : N; ex_var_length : bool }.

Definition expand_record (x : ExpandOp) (filters : gmap string value) (result_cap : option nat)
    (max_traversal_work : N) (rec : NamedRecord) : Res (list NamedRecord) :=
  match bound_node (ex_src x) rec with
  | None => Ok []
  | Some src_id =>
      labels ← expand_labels src_id (ex_types x) (ex_direction x);
      let bound_dst_id := bound_node (ex_dst x) rec in
      if ex_var_length x then
        paths ← tr_paths T (ex_types x) (ex_direction x) (ex_min x) (ex_max x) filters result_cap
                  max_traversal_work src_id;
        collect (path_row rec (ex_dst x) (ex_rel x))
          (List.filter (λ p, dst_allowed bound_dst_id p.1) paths)
      else
        concat_r (λ label,
          neighbors ← get_neighbors src_id label (ex_direction x) c;
          concat_r (neighbor_rows rec src_id (ex_dst x) (ex_rel x) (ex_direction x) label)
            (List.filter (dst_allowed bound_dst_id) neighbors)) labels
  end.

(** [for rec in &input_records] until the cap is reached. *)
Fixpoint expand_loop (x : ExpandOp) (filters : gmap string value) (result_cap : option nat)
    (max_traversal_work : N) (records results : list NamedRecord) : Res (list NamedRecord) :=
  match records with
  | [] => Ok results
  | rec :: records' =>
      if match result_cap with Some cap => Nat.leb cap (length results) | None => false end
      then Ok results else
      let per_call_cap := (λ cap, (cap - length results)%nat) <$> result_cap in
      expanded ← expand_record x filters per_call_cap max_traversal_work rec;
      expand_loop x filters result_cap max_traversal_work records' (results ++ expanded)
  end.
Definition exec_expand (x : ExpandOp) (filters : gmap string Expr) (result_cap : option N)
    (max_result_rows max_traversal_work : N) (records : list NamedRecord) : Res (list NamedRecord) :=
  results ← expand_loop x (literal_filters filters) (N.to_nat <$> result_cap) max_traversal_work
              records [];
  _ ← check_row_limit results max_result_rows;
  Ok results.
End read.

(** * Rows of the operators: src/src/cypher/executor/read.rs and path.rs

    Projections, joins, unwinding and paths: what the operators above the leaves
    of a plan do to the rows of their inputs. *)

(** ** Project *)

(** Nothing, one column, or all: what [RETURN *] emits for a field. *)
Definition has_field (key : string) (rec : NamedRecord) : bool :=
  match NamedRecord.get key rec with Some _ => true | None => false end.
Definition star_field (rec : NamedRecord) (bound_vars : list string) (projected : NamedRecord)
    (e : string * value) : NamedRecord :=
  match split_once "." e.1 with
  | Some (owner, prop) =>
      if str_starts "__" prop || bool_decide (owner ∈ bound_vars) then projected
      else NamedRecord.set e.1 e.2 projected
  | None =>
      if bool_decide (e.1 ∈ bound_vars) || has_field (dot e.1 "__id") rec then projected
      else NamedRecord.set e.1 e.2 projected
  end.
Fixpoint set_compounds (rec : NamedRecord) (vars : list string) (projected : NamedRecord)
    : Res NamedRecord :=
  match vars with
  | [] => Ok projected
  | var :: vars' =>
      o ← build_compound_binding (named_view rec) var;
      set_compounds rec vars'
        (match o with Some v => NamedRecord.set var v projected | None => projected end)
  end.
Definition project_star (emit_compound : bool) (rec projected : NamedRecord) : Res NamedRecord :=
  if emit_compound then
    bound_vars ← compound_binding_vars (named_view rec);
    projected ← set_compounds rec bound_vars projected;
    Ok (foldl (star_field rec bound_vars) projected (NamedRecord.fields rec))
  else Ok (merge_over rec projected).

(** The fields of a variable under a new name. *)
Definition renamed_fields (var col_name : string) (rec : NamedRecord) : list (string * value) :=
  omap (λ e : string * value,
    rest ← strip_prefix (var +:+ ".") e.1; Some (dot col_name rest, e.2)) (NamedRecord.fields rec).

Section rows.
Context {Ch : Chrono} {Co : ChronoOrder}.
Context {conn : Type} {O : SqlOps conn} {Mp : Msgpack}.
Context (c : conn) (T : Traversals).
Context {S : Type} (ev : Expr → RecordView → M S GraphError value).
Abbreviation E' := (M S GraphError).
Abbreviation rows := (list NamedRecord).

Definition project_variable (emit_compound : bool) (e : Expr) (var col_name : string)
    (rec projected : NamedRecord) : E' NamedRecord :=
  let evaluated := val ← ev_in ev e rec; mret (NamedRecord.set col_name val projected) in
  if emit_compound then
    compound ← lift (build_compound_binding (named_view rec) var);
    match compound with
    | Some v => mret (NamedRecord.set col_name v projected)
    | None =>
        match NamedRecord.get col_name rec with
        | Some v => mret (NamedRecord.set col_name v projected)
        | None => evaluated
        end
    end
  else
    let flat := renamed_fields var col_name rec in
    match flat, NamedRecord.get var rec with
    | [], None => evaluated
    | _, bare =>
        let projected := set_all flat projected in
        mret (match bare with Some v => NamedRecord.set col_name v projected | None => projected end)
    end.

Definition is_aggregate_call (e : Expr) : bool :=
  match expr_kind e with
  | FunctionCall name _ _ _ => bool_decide (ascii_lowercase name ∈ aggregate_names)
  | _ => false
  end.
(** The value of an expression that an operator below has computed, if any. *)
Definition computed_value (e : Expr) (col_name : string) (rec : NamedRecord) : option value :=
  let expr_col := expr_to_column_name e in
  if has_field (dot col_name "__id") rec then None else
  match NamedRecord.get expr_col rec with
  | Some v => Some v
  | None =>
      if decide (col_name = expr_col) then None
      else if is_aggregate_call e then NamedRecord.get col_name rec else None
  end.
Definition check_deleted (e : Expr) (rec : NamedRecord) : Res unit :=
  match expr_kind e with
  | Property var prop =>
      if is_deleted_field (NamedRecord.get (dot var "__deleted") rec)
      then Err (deleted_entity ("cannot access property `" +:+ prop +:+ "` on deleted entity `"
                                +:+ var +:+ "`"))
      else Ok ()
  | _ => Ok ()
  end.
Definition project_expr (e : Expr) (col_name : string) (rec projected : NamedRecord)
    : E' NamedRecord :=
  _ ← lift (check_deleted e rec);
  val ← (match computed_value e col_name rec with
         | Some v => mret v
         | None => ev_in ev e rec
         end);
  mret (NamedRecord.set col_name val projected).

Definition project_item (emit_compound : bool) (item : ReturnItem Expr) (rec projected : NamedRecord)
    : E' NamedRecord :=
  let e := ri_expr item in
  match expr_kind e with
  | Star => lift (project_star emit_compound rec projected)
  | Variable_ var =>
      project_variable emit_compound e var (default var (ri_alias item)) rec projected
  | _ => project_expr e (default (expr_to_column_name e) (ri_alias item)) rec projected
  end.
Fixpoint project_items (emit_compound : bool) (items : list (ReturnItem Expr))
    (rec projected : NamedRecord) : E' NamedRecord :=
  match items with
  | [] => mret projected
  | item :: items' =>
      projected ← project_item emit_compound item rec projected;
      project_items emit_compound items' rec projected
  end.
Definition exec_project (items : list (ReturnItem Expr)) (emit_compound : bool) (records : rows)
    : E' rows :=
  collect_m (λ rec, project_items emit_compound items rec NamedRecord.new) records.

(** ** Filter, Unwind and Union *)
Definition exec_filter (predicate : Expr) (records : rows) : E' rows :=
  filter_m (holds_in ev predicate) records.

Definition bind_unwound (alias : string) (item : value) (rec : NamedRecord) : NamedRecord :=
  match item with
  | Value.Node n => merge_over (node_to_record n alias) rec
  | Value.Edge e =>
      let rec := NamedRecord.set alias (Value.Edge e) rec in
      let rec := NamedRecord.set (dot alias "__src") (id_value (edge_src e)) rec in
      let rec := NamedRecord.set (dot alias "__dst") (id_value (edge_dst e)) rec in
      let rec := NamedRecord.set (dot alias "__type") (Value.String (edge_label e)) rec in
      set_all ((λ p : string * value, (dot alias p.1, p.2)) <$> map_to_list (edge_properties e)) rec
  | _ => NamedRecord.set alias item rec
  end.
Definition exec_unwind (e : Expr) (alias : string) (records : rows) : E' rows :=
  concat_m (λ rec,
    val ← ev_in ev e rec;
    match val with
    | Value.List items => mret ((λ item, bind_unwound alias item rec) <$> items)
    | Value.Null => mret []
    | _ => throw (GraphError.semantic ("UNWIND requires a list, got: " +:+ value_display val))
    end) records.

(** Rows of a union are compared without their scores. *)
Definition is_fts_score (key : string) : bool := str_ends_with key ".__fts_score".
Definition scoreless (rec : NamedRecord) : list (string * value) :=
  List.filter (λ e : string * value, negb (is_fts_score e.1)) (NamedRecord.fields rec).
Definition union_rows_equal (a b : NamedRecord) : bool :=
  Nat.eqb (length (scoreless a)) (length (scoreless b))
  && forallb (λ e : string * value,
       match NamedRecord.get e.1 b with Some v => value_eqb v e.2 | None => false end) (scoreless a).
Fixpoint union_loop (seen records : rows) : rows :=
  match records with
  | [] => []
  | rec :: records' =>
      if List.existsb (λ s, union_rows_equal s rec) seen then union_loop seen records'
      else rec :: union_loop (seen ++ [rec]) records'
  end.
Definition union_records (all : bool) (results : rows) : rows :=
  if all then results else union_loop [] results.

(** ** Joins *)
Definition combine_rows (merge : NamedRecord → NamedRecord → NamedRecord) (same_match : bool)
    (l r : NamedRecord) : rows :=
  let combined := merge r l in
  if same_match && has_duplicate_relationships combined then [] else [combined].

(** The loop over the right rows; the limit is checked after each push. *)
Fixpoint cross_loop (same_match : bool) (max_result_rows : N) (l : NamedRecord) (right results : rows)
    : Res rows :=
  match right with
  | [] => Ok results
  | r :: right' =>
      match combine_rows merge_over same_match l r with
      | [] => cross_loop same_match max_result_rows l right' results
      | combined =>
          let results := results ++ combined in
          if decide (0 < max_result_rows ∧ max_result_rows < N.of_nat (length results))%N
          then Err (rows_exceeded "cross product" max_result_rows)
          else cross_loop same_match max_result_rows l right' results
      end
  end.
(** The right side runs again for each left row. *)
Fixpoint cross_product (same_match : bool) (max_result_rows : N) (right : E' rows)
    (left_records results : rows) : E' rows :=
  match left_records with
  | [] => mret results
  | l :: left_records' =>
      right_records ← right;
      results ← lift (cross_loop same_match max_result_rows l right_records results);
      cross_product same_match max_result_rows right left_records' results
  end.

(** The right side sees the left row. *)
Definition correlated_join (right : NamedRecord → E' rows) (same_match : bool) (left_records : rows)
    : E' rows :=
  concat_m (λ l_rec,
    right_records ← right l_rec;
    mret (right_records ≫= combine_rows merge_under same_match l_rec)) left_records.

Definition null_suffixes : list string := ["__id"; "__labels"; "__src"; "__dst"; "__type"].
Definition null_fill (optional_aliases : list string) (rec : NamedRecord) : NamedRecord :=
  set_all (optional_aliases ≫= λ alias : string,
    (alias, Value.Null) :: ((λ suffix, (dot alias suffix, Value.Null)) <$> null_suffixes)) rec.
Definition left_outer_join (right : NamedRecord → E' rows) (optional_aliases : list string)
    (opt_filter : option Expr) (left_records : rows) : E' rows :=
  concat_m (λ l_rec,
    right_records ← right l_rec;
    results ← filter_m (passes ev opt_filter) ((λ r_rec, merge_under r_rec l_rec) <$> right_records);
    mret (match results with [] => [null_fill optional_aliases l_rec] | _ => results end))
    left_records.

(** ** Paths *)

(** The nodes of the aliases, up to the first that is null or that does not exist;
    whether a null was met. *)
Fixpoint alias_nodes (rec : NamedRecord) (aliases : list string) (nodes : list Node)
    : Res (bool * list Node) :=
  match aliases with
  | [] => Ok (false, nodes)
  | alias :: aliases' =>
      if is_null_field (NamedRecord.get alias rec) then Ok (true, nodes) else
      match int_field (NamedRecord.get (dot alias "__id") rec) with
      | Some id =>
          o ← ok_r (get_node (u64_of_i64 id) c);
          match o with
          | Some n => alias_nodes rec aliases' (nodes ++ [n])
          | None => Ok (false, nodes)
          end
      | None => alias_nodes rec aliases' nodes
      end
  end.
Definition edge_of_value (v : value) : option Edge :=
  match v with Value.Edge e => Some e | _ => None end.
Fixpoint alias_edges (rec : NamedRecord) (aliases : list string) (edges : list Edge)
    : Res (bool * list Edge) :=
  match aliases with
  | [] => Ok (false, edges)
  | alias :: aliases' =>
      match NamedRecord.get alias rec with
      | Some Value.Null => Ok (true, edges)
      | Some (Value.List l) => alias_edges rec aliases' (edges ++ omap edge_of_value l)
      | _ =>
          o ← build_compound_binding (named_view rec) alias;
          alias_edges rec aliases' (edges ++ match o ≫= edge_of_value with
                                             | Some e => [e] | None => [] end)
      end
  end.
Definition is_list_field (o : option value) : bool :=
  match o with Some (Value.List _) => true | _ => false end.
Definition has_var_length_rel (rec : NamedRecord) (rel_aliases : list string) : bool :=
  List.existsb (λ a, is_list_field (NamedRecord.get a rec)) rel_aliases.

(** The nodes after [prev] along the edges. *)
Fixpoint follow (next_id : N → Edge → N) (prev : N) (edges : list Edge) : Res (list Node) :=
  match edges with
  | [] => Ok []
  | e :: edges' =>
      n ← get_node (next_id prev e) c;
      rest ← follow next_id (node_id n) edges';
      Ok (n :: rest)
  end.
Definition other_end (prev : N) (e : Edge) : N :=
  if N.eqb prev (edge_src e) then edge_dst e else edge_src e.
(** [nodes[0]] and those that follow, the last replaced by the last of [nodes]
    when there are two. *)
Definition rebuilt (next_id : N → Edge → N) (nodes : list Node) (edges : list Edge)
    : Res (list Node) :=
  match nodes with
  | [] => Panic
  | first :: rest =>
      following ← follow next_id (node_id first) edges;
      let full_nodes := first :: following in
      Ok (match last rest with
          | Some n => take (length full_nodes - 1) full_nodes ++ [n]
          | None => full_nodes
          end)
  end.

Definition set_path (path_alias : string) (has_null : bool) (nodes : list Node) (edges : list Edge)
    (rec : NamedRecord) : NamedRecord :=
  if has_null then NamedRecord.set path_alias Value.Null rec else
  match nodes with
  | [] => rec
  | _ => NamedRecord.set path_alias (Value.Path (mkPath nodes edges)) rec
  end.
Definition materialize_path (path_alias : string) (node_aliases rel_aliases : list string)
    (rec : NamedRecord) : Res NamedRecord :=
  ns ← alias_nodes rec node_aliases [];
  es ← alias_edges rec rel_aliases [];
  let has_null := (fst ns || fst es)%bool in
  let edges : list Edge := snd es in
  nodes ← (if negb has_null && has_var_length_rel rec rel_aliases then
             match edges with
             | [] => Ok (take 1 (snd ns))
             | _ => rebuilt other_end (snd ns) edges
             end
           else Ok (snd ns));
  Ok (set_path path_alias has_null nodes edges rec).

(** *** Shortest paths *)
Fixpoint path_edges_of (label : string) (node_ids : list N) : Res (list Edge) :=
  match node_ids with
  | a :: ((b :: _) as node_ids') =>
      e ← edge_exists a b label c;
      let ends := if e : bool then (a, b) else (b, a) in
      properties ← get_edge_properties ends.1 ends.2 label c;
      rest ← path_edges_of label node_ids';
      Ok (mkEdge ends.1 ends.2 label properties :: rest)
  | _ => Ok []
  end.
Definition build_path_value (node_ids : list N) (label : string) : Res PathValue :=
  nodes ← collect (λ id, get_node id c) node_ids;
  edges ← path_edges_of label node_ids;
  Ok (mkPath nodes edges).

Definition shortest_path_rows (src_alias dst_alias path_alias : string) (edge_type : option string)
    (direction : Direction) (max_hops : N) (all_paths : bool) (rec : NamedRecord) : Res rows :=
  let label := default "" edge_type in
  let with_path p := path_value ← build_path_value p label;
                     Ok (NamedRecord.set path_alias (Value.Path path_value) rec) in
  let without := NamedRecord.set path_alias Value.Null rec in
  match bound_node src_alias rec, bound_node dst_alias rec with
  | Some src_id, Some dst_id =>
      if all_paths then
        paths ← tr_all_shortest T src_id dst_id label direction max_hops;
        match paths with [] => Ok [without] | _ => collect with_path paths end
      else
        path ← tr_shortest T src_id dst_id label direction max_hops;
        match path with
        | Some p => new_rec ← with_path p; Ok [new_rec]
        | None => Ok [without]
        end
  | _, _ => Ok []
  end.
End rows.
