(* ===== verification/Writes.v ===== *)
(** * Writing operators: src/src/cypher/executor/write.rs

    What CREATE, DELETE, SET and REMOVE do to the database and to the rows of their
    input.  The state is the connection with whatever else expressions need;
    expressions read the connection as it is when they are evaluated. *)
From stdpp Require Import pretty.
From S2P Require Export ReadOps Tx.
#[local] Open Scope Z_scope.

(** ** The database as a part of the state *)
Definition on_db {conn S A} (m : M conn GraphError A) : M (conn * S) GraphError A := λ s,
  let '(c, r) := m s.1 in ((c, s.2), r).
Definition in_db {conn S A} (f : conn → Res A) : M (conn * S) GraphError A := λ s, (s, f s.1).
(** [let _ = m;] *)
Definition ignore_err {S A} (m : M S GraphError A) : M S GraphError unit := _ ← ok_m m; mret ().

(** [for x in l { acc = f(acc, x)?; }] *)
Fixpoint fold_m {S A B} (f : B → A → M S GraphError B) (b : B) (l : list A) : M S GraphError B :=
  match l with [] => mret b | x :: l' => b' ← f b x; fold_m f b' l' end.

Definition unbound_variable (v : string) : GraphError :=
  GraphError.semantic ("unbound variable: " +:+ v).

(** ** Relationships and nodes of a row *)

(** The ends, the type and the number of the relationship that [var] is bound to. *)
Definition edge_ref (var : string) (rec : NamedRecord) : option (N * N * string * option N) :=
  let get key := NamedRecord.get (dot var key) rec in
  s ← int_field (get "__src");
  d ← int_field (get "__dst");
  t ← str_field (get "__type");
  Some (u64_of_i64 s, u64_of_i64 d, t, u64_of_i64 <$> int_field (get "__edge_seq")).
Definition node_ref (var : string) (rec : NamedRecord) : option N :=
  u64_of_i64 <$> int_field (NamedRecord.get var rec).

Definition set_props (alias : string) (props : Properties) (rec : NamedRecord) : NamedRecord :=
  set_all ((λ p : string * value, (dot alias p.1, p.2)) <$> map_to_list props) rec.
Definition remove_props (alias : string) (props : Properties) (rec : NamedRecord) : NamedRecord :=
  foldl (λ r p, NamedRecord.remove (dot alias p.1) r) rec (map_to_list props).
(** A created or merged node: no label fields. *)
Definition set_node_ref (alias : string) (id : N) (props : Properties) (rec : NamedRecord)
    : NamedRecord :=
  set_props alias props
    (NamedRecord.set (dot alias "__id") (id_value id) (NamedRecord.set alias (id_value id) rec)).
(** A created or merged relationship: no number. *)
Definition set_edge_ref (alias : string) (src dst : N) (edge_type : string) (props : Properties)
    (rec : NamedRecord) : NamedRecord :=
  let rec := NamedRecord.set alias (Value.String edge_type) rec in
  let rec := NamedRecord.set (dot alias "__src") (id_value src) rec in
  let rec := NamedRecord.set (dot alias "__dst") (id_value dst) rec in
  set_props alias props (NamedRecord.set (dot alias "__type") (Value.String edge_type) rec).
(** A field that was set to a value, null removing it. *)
Definition set_or_remove (key : string) (v : value) (rec : NamedRecord) : NamedRecord :=
  if is_null v then NamedRecord.remove key rec else NamedRecord.set key v rec.

Fixpoint validate_property_value (v : value) : Res unit :=
  match v with
  | Value.Map _ | Value.Node _ | Value.Edge _ | Value.Path _ =>
      Err (GraphError.with_code
             (GraphError.type_error Runtime
                "maps, nodes, relationships, and paths cannot be stored as properties")
             ErrorCode.InvalidPropertyType)
  | Value.List items => foldr (λ x rest, validate_property_value x ≫= λ _, rest) (Ok ()) items
  | _ => Ok ()
  end.

Section write.
Context {conn : Type} {O : SqlOps conn} {Mp : Msgpack} {S : Type}.
Abbreviation W := (conn * S)%type.
Abbreviation E' := (M W GraphError).
Abbreviation rows := (list NamedRecord).
Context (ev : Expr → RecordView → E' value).

(** ** CREATE *)

(** The properties of a pattern; those that are null are left out. *)
Definition eval_props (properties : gmap string Expr) (rec : NamedRecord) : E' Properties :=
  fold_m (λ props p, v ← ev_in ev p.2 rec;
                     mret (if is_null v then props else <[p.1 := v]> props))
    ∅ (map_to_list properties).

(** [node::create_node] with the maintenance of the indexes. *)
Definition insert_node (labels : list string) (props : Properties) : E' N :=
  id ← on_db (create_node labels props);
  _ ← on_db (Tx.update_all_indexes id labels None props);
  mret id.

Definition exec_create_node (labels : list string) (alias : option string)
    (properties : gmap string Expr) : E' rows :=
  props ← eval_props properties NamedRecord.new;
  id ← insert_node labels props;
  mret [match alias with
        | Some a => set_node_ref a id props NamedRecord.new
        | None => NamedRecord.new
        end].

(** The variables bound to nodes, and the row under construction. *)
Record Created := mkCreated { cr_bindings : gmap string N; cr_record : NamedRecord }.

(** One operation, its expressions evaluated in [view]. *)
Definition create_node_op (view : NamedRecord) (labels : list string) (alias : option string)
    (properties : gmap string Expr) (st : Created) : E' Created :=
  props ← eval_props properties view;
  id ← insert_node labels props;
  mret (match alias with
        | Some a => mkCreated (<[a := id]> (cr_bindings st)) (set_node_ref a id props (cr_record st))
        | None => st
        end).
Definition bound_id (alias : string) (st : Created) : Res N :=
  match cr_bindings st !! alias with Some id => Ok id | None => Err (unbound_variable alias) end.
Definition create_edge_op (view : NamedRecord) (src_alias dst_alias edge_type : string)
    (rel_alias : option string) (properties : gmap string Expr) (st : Created) : E' Created :=
  src ← lift (bound_id src_alias st);
  dst ← lift (bound_id dst_alias st);
  props ← eval_props properties view;
  _ ← on_db (Edges.create_edge src dst edge_type props);
  mret (match rel_alias with
        | Some r => mkCreated (cr_bindings st) (set_edge_ref r src dst edge_type props (cr_record st))
        | None => st
        end).

(** Expressions see what was created before them. *)
Definition sequence_op (st : Created) (op : LogicalOp) : E' Created :=
  match op with
  | Op.CreateNode labels alias properties =>
      create_node_op (cr_record st) labels alias properties st
  | Op.CreateEdge src dst edge_type rel properties =>
      create_edge_op (cr_record st) src dst edge_type rel properties st
  | _ => mret st
  end.
Definition exec_create_sequence (ops : list LogicalOp) : E' rows :=
  st ← fold_m sequence_op (mkCreated ∅ NamedRecord.new) ops;
  mret [cr_record st].

(** Fields without a dot that hold an integer count as nodes. *)
Definition seed_bindings (rec : NamedRecord) : gmap string N :=
  foldl (λ b e, if str_contains e.1 "." then b else
                match e.2 with Value.I64 id => <[e.1 := u64_of_i64 id]> b | _ => b end)
    ∅ (NamedRecord.fields rec).
(** Expressions see the row of the input. *)
Definition match_create_op (rec : NamedRecord) (st : Created) (op : LogicalOp) : E' Created :=
  match op with
  | Op.CreateNode labels alias properties =>
      if match alias with Some a => bool_decide (is_Some (cr_bindings st !! a)) | None => false end
      then mret st else create_node_op rec labels alias properties st
  | Op.CreateEdge src dst edge_type rel properties =>
      create_edge_op rec src dst edge_type rel properties st
  | _ => mret st
  end.
Definition exec_match_create (create_ops : list LogicalOp) : rows → E' rows :=
  collect_m (λ rec, st ← fold_m (match_create_op rec) (mkCreated (seed_bindings rec) rec) create_ops;
                    mret (cr_record st)).

(** ** DELETE *)

(** What is to be deleted: relationships, all parallel ones without a number, and nodes. *)
Abbreviation Doomed := (list (N * N * string * option N) * list N)%type.
Definition doomed_app (a b : Doomed) : Doomed := (a.1 ++ b.1, a.2 ++ b.2).
Definition whole_edge (e : Edge) : N * N * string * option N :=
  (edge_src e, edge_dst e, edge_label e, None).

Fixpoint collect_value_entities (v : value) : Doomed :=
  match v with
  | Value.Node n => ([], [node_id n])
  | Value.Edge e => ([whole_edge e], [])
  | Value.Path p => (whole_edge <$> path_edges p, node_id <$> path_nodes p)
  | Value.I64 id => ([], [u64_of_i64 id])
  | Value.List items => foldr (λ x acc, doomed_app (collect_value_entities x) acc) ([], []) items
  | _ => ([], [])
  end.
Definition collect_var_entities (rec : NamedRecord) (var : string) : Doomed :=
  match edge_ref var rec with
  | Some r => ([r], [])
  | None =>
      match NamedRecord.get var rec with
      | Some v => collect_value_entities v
      | None => ([], [])
      end
  end.

(** One row: what it dooms, and the row with its variables marked. *)
Definition doom_expr (acc : NamedRecord * Doomed) (e : Expr) : E' (NamedRecord * Doomed) :=
  let (rec, doomed) := acc in
  match variable_of e with
  | Some var =>
      mret (NamedRecord.set (dot var "__deleted") (Value.Bool true) rec,
            doomed_app doomed (collect_var_entities rec var))
  | None => v ← ev_in ev e rec; mret (rec, doomed_app doomed (collect_value_entities v))
  end.
Fixpoint doom_rows (exprs : list Expr) (records : rows) (doomed : Doomed) : E' (rows * Doomed) :=
  match records with
  | [] => mret ([], doomed)
  | rec :: records' =>
      p ← fold_m doom_expr (rec, doomed) exprs;
      q ← doom_rows exprs records' p.2;
      mret (p.1 :: q.1, q.2)
  end.

Definition delete_doomed_edge (e : N * N * string * option N) : E' unit :=
  let '(src, dst, label, seq) := e in
  match seq with
  | Some q => ignore_err (on_db (delete_single_edge src dst label q))
  | None => ignore_err (on_db (Edges.delete_edge src dst label))
  end.
Definition connected_node (id : N) : GraphError :=
  GraphError.with_code
    (GraphError.constraint ("cannot delete node NodeId(" +:+ pretty id
       +:+ ") because it still has relationships. Use DETACH DELETE."))
    ErrorCode.DeleteConnectedNode.
(** A node that is gone already is passed over. *)
Definition delete_doomed_node (detach : bool) (id : N) : E' unit :=
  attached ← (if detach then mret false else in_db (node_has_edges id));
  if attached : bool then throw (connected_node id) else
  n ← ok_m (in_db (get_node id));
  _ ← match n with
      | Some n =>
          _ ← ignore_err (on_db (remove_indexes_for_node id (node_labels n) (node_properties n)));
          ignore_err (on_db (remove_fts_for_node id (node_labels n) (node_properties n)))
      | None => mret ()
      end;
  ignore_err (on_db (Nodes.delete_node id)).

Definition exec_delete (exprs : list Expr) (detach : bool) (records : rows) : E' rows :=
  p ← doom_rows exprs records ([], []);
  _ ← for_each delete_doomed_edge p.2.1;
  _ ← for_each (delete_doomed_node detach) p.2.2;
  mret p.1.

(** ** SET and REMOVE of properties *)

(** [node::get_node], a change of the properties and the maintenance of the indexes. *)
Definition change_node (id : N) (old : Node) (m : M conn GraphError unit) (new_props : Properties)
    : E' unit :=
  _ ← on_db m;
  on_db (Tx.update_all_indexes id (node_labels old) (Some (node_properties old)) new_props).
Definition put_or_delete (k : string) (v : value) (p : Properties) : Properties :=
  if is_null v then base.delete k p else <[k := v]> p.

(** The number of the relationship, the first one of its kind when the row has none. *)
Definition set_edge_prop (r : N * N * string * option N) (key : string) (v : value) : E' unit :=
  let '(src, dst, label, seq) := r in
  match seq with
  | Some q => on_db (set_edge_property_at src dst label q key v)
  | None => on_db (set_edge_property src dst label key v)
  end.

Definition set_assignment (rec : NamedRecord) (a : Assignment Expr) : E' NamedRecord :=
  let var := as_variable a in
  let key := as_property a in
  match edge_ref var rec with
  | Some r =>
      v ← ev_in ev (as_value a) rec;
      _ ← lift (validate_property_value v);
      _ ← set_edge_prop r key v;
      mret (set_or_remove (dot var key) v rec)
  | None =>
      match node_ref var rec with
      | Some id =>
          old ← in_db (get_node id);
          v ← ev_in ev (as_value a) rec;
          _ ← lift (validate_property_value v);
          _ ← change_node id old (Nodes.set_node_property id key v)
                (put_or_delete key v (node_properties old));
          mret (set_or_remove (dot var key) v rec)
      | None => mret rec
      end
  end.
Definition exec_set_property (assignments : list (Assignment Expr)) : rows → E' rows :=
  collect_m (λ rec, fold_m set_assignment rec assignments).

(** [SET v = map] and [SET v += map]. *)
Definition merged_props (merge : bool) (old map : Properties) : Properties :=
  foldl (λ props p, if merge then put_or_delete p.1 p.2 props
                    else if is_null p.2 then props else <[p.1 := p.2]> props)
    (if merge then old else ∅) (map_to_list map).
(** The values that are stored are checked, in relationships only. *)
Definition validate_map (map : Properties) : Res unit :=
  foldr (λ p rest, (if is_null p.2 then Ok () else validate_property_value p.2) ≫= λ _, rest)
    (Ok ()) (map_to_list map).
(** [None]: null, nothing to set. *)
Definition map_argument (v : value) : Res (option Properties) :=
  match v with
  | Value.Map m => Ok (Some m)
  | Value.Null => Ok None
  | _ => Err (GraphError.semantic "SET properties requires a map value")
  end.
Definition rewrite_props (var : string) (old new : Properties) (rec : NamedRecord) : NamedRecord :=
  set_props var new (remove_props var old rec).

Definition first_seq (src dst : N) (label : string) (c : conn) : Res N :=
  let prefix := edge_props_prefix src dst label in
  entries ← kv_scan_prefix TABLE_EDGE_PROPS prefix c;
  Ok (match entries with (k, _) :: _ => edge_seq_from_key k (length prefix) | [] => 0%N end).

Definition set_edge_map (merge : bool) (value_expr : Expr) (var : string)
    (r : N * N * string * option N) (rec : NamedRecord) : E' NamedRecord :=
  let '(src, dst, label, seq) := r in
  q ← match seq with Some q => mret q | None => in_db (first_seq src dst label) end;
  v ← ev_in ev value_expr rec;
  o ← lift (map_argument v);
  match o with
  | None => mret rec
  | Some map =>
      old ← in_db (get_edge_properties_at src dst label q);
      _ ← lift (validate_map map);
      let new := merged_props merge old map in
      _ ← on_db (set_all_edge_properties_at src dst label q new);
      mret (rewrite_props var old new rec)
  end.
Definition set_node_map (merge : bool) (value_expr : Expr) (var : string) (id : N)
    (rec : NamedRecord) : E' NamedRecord :=
  v ← ev_in ev value_expr rec;
  o ← lift (map_argument v);
  match o with
  | None => mret rec
  | Some map =>
      old ← in_db (get_node id);
      let new := merged_props merge (node_properties old) map in
      _ ← change_node id old (set_all_node_properties id new) new;
      mret (rewrite_props var (node_properties old) new rec)
  end.
Definition set_map (variable : string) (value_expr : Expr) (merge : bool) (rec : NamedRecord)
    : E' NamedRecord :=
  match edge_ref variable rec with
  | Some r => set_edge_map merge value_expr variable r rec
  | None =>
      match node_ref variable rec with
      | Some id => set_node_map merge value_expr variable id rec
      | None => mret rec
      end
  end.
Definition exec_set_properties (variable : string) (value_expr : Expr) (merge : bool)
    : rows → E' rows :=
  collect_m (set_map variable value_expr merge).

(** ** Labels *)

(** The labels of a row with more of them, in the order of their texts. *)
Definition add_labels (labels : list string) (current : list value) : list value :=
  let text (v : value) := match v with Value.String s => s | _ => "" end in
  sort_by (λ a b, str_cmp (text a) (text b))
    (foldl (λ l x, if List.existsb (value_eqb (Value.String x)) l then l else l ++ [Value.String x])
       current labels).
Definition label_strings (l : list value) : list string :=
  omap (λ v, match v with Value.String s => Some s | _ => None end) l.
Definition list_field (o : option value) : option (list value) :=
  match o with Some (Value.List l) => Some l | _ => None end.

(** [node::add_node_label] for each label and the maintenance of the indexes. *)
Definition label_node (id : N) (labels : list string) : E' unit :=
  _ ← for_each (λ l, on_db (add_node_label id l)) labels;
  new ← in_db (get_node id);
  on_db (Tx.update_all_indexes id (node_labels new) None (node_properties new)).
Definition set_label (variable : string) (labels : list string) (rec : NamedRecord)
    : E' NamedRecord :=
  match node_ref variable rec with
  | Some id =>
      _ ← label_node id labels;
      mret (match list_field (NamedRecord.get (dot variable "__labels") rec) with
            | Some current =>
                let updated := add_labels labels current in
                NamedRecord.set (dot variable "__labels") (Value.List updated)
                  (NamedRecord.set (dot variable "__label")
                     (Value.String (join ":" (label_strings updated))) rec)
            | None => rec
            end)
  | None => mret rec
  end.
Definition exec_set_label (variable : string) (labels : list string) : rows → E' rows :=
  collect_m (set_label variable labels).

Definition drop_label (id : N) (properties : Properties) (label : string) : E' unit :=
  _ ← on_db (remove_indexes_for_label id label properties);
  _ ← on_db (remove_fts_for_label id label properties);
  on_db (remove_node_label id label).
Definition remove_item (rec : NamedRecord) (item : RemoveItem) : E' NamedRecord :=
  match item with
  | RemoveItem.Property variable property =>
      match edge_ref variable rec with
      | Some r =>
          _ ← set_edge_prop r property Value.Null;
          mret (NamedRecord.remove (dot variable property) rec)
      | None =>
          match node_ref variable rec with
          | Some id =>
              old ← in_db (get_node id);
              _ ← change_node id old (Nodes.remove_node_property id property)
                    (base.delete property (node_properties old));
              mret (NamedRecord.remove (dot variable property) rec)
          | None => mret rec
          end
      end
  | RemoveItem.Label variable labels =>
      match node_ref variable rec with
      | Some id =>
          old ← in_db (get_node id);
          _ ← for_each (drop_label id (node_properties old)) labels;
          mret (match list_field (NamedRecord.get (dot variable "__labels") rec) with
                | Some current =>
                    NamedRecord.set (dot variable "__labels")
                      (Value.List (List.filter (λ v, match v with
                                                     | Value.String s => negb (bool_decide (s ∈ labels))
                                                     | _ => true
                                                     end) current)) rec
                | None => rec
                end)
      | None => mret rec
      end
  end.
Definition exec_remove (items : list RemoveItem) : rows → E' rows :=
  collect_m (λ rec, fold_m remove_item rec items).

(** ** Indexes *)
Definition exec_create_index (label : string) (properties : list string) : E' rows :=
  _ ← on_db (Index.create_composite_index label properties); mret [].
Definition exec_drop_index (label : string) (properties : list string) : E' rows :=
  _ ← on_db (Index.drop_composite_index label properties); mret [].
End write.
Arguments Created : clear implicits.

(** * MERGE: src/src/cypher/executor/merge.rs

    Finding what a pattern describes, or creating it, and the assignments of ON
    CREATE and ON MATCH. *)

Definition unreachable {S A} : M S GraphError A := lift Panic.
Definition null_in_merge : GraphError :=
  GraphError.with_code (GraphError.semantic "MERGE with null property value")
    ErrorCode.MergeReadOwnWrites.

Section merge.
Context {conn : Type} {O : SqlOps conn} {Mp : Msgpack} {S : Type}.
Abbreviation W := (conn * S)%type.
Abbreviation E' := (M W GraphError).
Abbreviation rows := (list NamedRecord).
Context (ev : Expr → RecordView → E' value).

(** ** Finding nodes *)

(** [properties.get(k) == Some(expected)] for every expected property. *)
Definition has_props (expected actual : Properties) : bool :=
  forallb (λ p : string * value,
    match actual !! p.1 with Some v => value_eqb v p.2 | None => false end) (map_to_list expected).
(** The properties that have an index of their own. *)
Definition indexed_props (label : string) (c : conn) : Res (list string) :=
  list_indexes_for_label label c ≫= λ infos : list IndexInfo,
  Ok (omap (λ info, match info_properties info with [p] => Some p | _ => None end) infos).
(** The first expected property that has an index. *)
Definition indexed_key (props : list string) (properties : Properties) : option (string * value) :=
  head (filter (λ p : string * value, p.1 ∈ props) (map_to_list properties)).

Definition find_merge_matches_evaluated (label : string) (properties : Properties) (c : conn)
    : Res (list Node) :=
  indexed_props label c ≫= λ props : list string,
  match indexed_key props properties with
  | Some (key, v) =>
      index_lookup label key v c ≫= λ ids : list N,
      collect (λ id, get_node id c) ids ≫= λ nodes : list Node,
      Ok (List.filter (λ n, has_props properties (node_properties n)) nodes)
  | None =>
      find_nodes_by_label label c ≫= λ existing : list Node,
      Ok (List.filter (λ n, has_props properties (node_properties n)) existing)
  end.
Definition find_merge_matches_by_label_and_props : string → Properties → conn → Res (list Node) :=
  find_merge_matches_evaluated.

(** Nodes are read one by one until one matches. *)
Fixpoint first_with_props (properties : Properties) (ids : list N) (c : conn) : Res (option Node) :=
  match ids with
  | [] => Ok None
  | id :: ids' =>
      get_node id c ≫= λ n : Node,
      if has_props properties (node_properties n) then Ok (Some n)
      else first_with_props properties ids' c
  end.
Definition find_merge_match_evaluated (label : string) (properties : Properties) (c : conn)
    : Res (option Node) :=
  indexed_props label c ≫= λ props : list string,
  match indexed_key props properties with
  | Some (key, v) => index_lookup label key v c ≫= λ ids : list N,
 first_with_props properties ids c
  | None =>
      find_nodes_by_label label c ≫= λ existing : list Node,
      Ok (List.find (λ n, has_props properties (node_properties n)) existing)
  end.
Definition find_merge_match_multi_label (labels : list string) (properties : Properties) (c : conn)
    : Res (option Node) :=
  find_merge_matches_by_label_and_props (default "" (head labels)) properties c
  ≫= λ candidates : list Node,
  Ok (List.find (λ n, forallb (λ req, has_label req n) labels) candidates).

(** ** Assignments *)

(** Whatever is no map, node or relationship has no properties. *)
Definition resolve_to_map (e : Expr) (rec : NamedRecord) : E' Properties :=
  v ← ev_in ev e rec;
  match v with
  | Value.Map m => mret m
  | Value.Node n => mret (node_properties n)
  | Value.Edge e => mret (edge_properties e)
  | Value.I64 id =>
      in_db (λ c, ok_r (get_node (u64_of_i64 id) c) ≫= λ n : option Node,
                  Ok (default ∅ (node_properties <$> n)))
  | _ => mret ∅
  end.

Definition set_each (set : string → value → E' unit) (m : Properties) : E' unit :=
  for_each (λ p : string * value, set p.1 p.2) (map_to_list m).
Definition clear_each (set : string → value → E' unit) (m : Properties) : E' unit :=
  for_each (λ p : string * value, set p.1 Value.Null) (map_to_list m).
Definition maintain_indexes_after_prop_change (id : N) (old : Node) (new_props : Properties)
    : E' unit :=
  on_db (Tx.update_all_indexes id (node_labels old) (Some (node_properties old)) new_props).

(** A single property goes into the new properties also when it is null. *)
Definition apply_merge_set_item_node (id : N) (rec : NamedRecord) (item : SetItem Expr) : E' unit :=
  let set k v := on_db (Nodes.set_node_property id k v) in
  match item with
  | SetItem.Property a =>
      old ← in_db (get_node id);
      v ← ev_in ev (as_value a) (NamedRecord.set (as_variable a) (id_value id) rec);
      change_node id old (Nodes.set_node_property id (as_property a) v)
        (<[as_property a := v]> (node_properties old))
  | SetItem.Label _ labels => label_node id labels
  | SetItem.MapMerge _ e =>
      map ← resolve_to_map e rec;
      old ← in_db (get_node id);
      _ ← set_each set map;
      maintain_indexes_after_prop_change id old (merged_props true (node_properties old) map)
  | SetItem.MapOverwrite _ e =>
      map ← resolve_to_map e rec;
      old ← in_db (get_node id);
      _ ← clear_each set (node_properties old);
      _ ← set_each set map;
      maintain_indexes_after_prop_change id old (merged_props false (node_properties old) map)
  end.

(** [apply_merge_set_item_edge] and, with a number, [apply_merge_set_item_edge_at]. *)
Definition edge_props_of (r : N * N * string * option N) (c : conn) : Res Properties :=
  let '(src, dst, label, seq) := r in
  match seq with
  | Some q => get_edge_properties_at src dst label q c
  | None => get_edge_properties src dst label c
  end.
Definition apply_merge_set_item_edge (r : N * N * string * option N) (rec : NamedRecord)
    (item : SetItem Expr) : E' unit :=
  match item with
  | SetItem.Property a => v ← ev_in ev (as_value a) rec; set_edge_prop r (as_property a) v
  | SetItem.Label _ _ => mret ()
  | SetItem.MapMerge _ e => map ← resolve_to_map e rec; set_each (set_edge_prop r) map
  | SetItem.MapOverwrite _ e =>
      map ← resolve_to_map e rec;
      old ← in_db (edge_props_of r);
      _ ← clear_each (set_edge_prop r) old;
      set_each (set_edge_prop r) map
  end.

(** ** Nodes *)

(** The properties of the pattern; null is an error. *)
Definition merge_props (properties : gmap string Expr) (rec : NamedRecord) : E' Properties :=
  fold_m (λ props p, v ← ev_in ev p.2 rec;
                     if is_null v then throw null_in_merge else mret (<[p.1 := v]> props))
    ∅ (map_to_list properties).
Definition single_label (label : string) : list string := if decide (label = "") then [] else [label].
Definition first_label (p : NodePattern Expr) : string := default "" (head (np_labels p)).

Definition find_or_create_merge_node (label : string) (properties : gmap string Expr) : E' N :=
  props ← merge_props properties NamedRecord.new;
  matched ← in_db (find_merge_match_evaluated label props);
  match matched with
  | Some n => mret (node_id n)
  | None => insert_node (single_label label) props
  end.

(** The node as it is now, in the row and, as a path, in the path variable. *)
Definition bind_merged_node (path_variable : option string) (alias : string) (id : N)
    (rec : NamedRecord) : E' NamedRecord :=
  resolved ← in_db (get_node id);
  let rec := set_node_ref alias id (node_properties resolved) rec in
  mret (match path_variable with
        | Some p => NamedRecord.set p (Value.Path (path_single resolved)) rec
        | None => rec
        end).
Definition merge_alias (p : NodePattern Expr) : string := default "_merge" (np_variable p).

Definition exec_merge_node (pattern : Pattern Expr) (on_create on_match : list (SetItem Expr))
    : E' rows :=
  match pt_elements pattern with
  | PNode p :: _ =>
      props ← merge_props (np_properties p) NamedRecord.new;
      matched ← in_db (find_merge_match_multi_label (np_labels p) props);
      id ← match matched with
           | Some n =>
               _ ← for_each (apply_merge_set_item_node (node_id n) NamedRecord.new) on_match;
               mret (node_id n)
           | None =>
               id ← insert_node (np_labels p) props;
               _ ← for_each (apply_merge_set_item_node id NamedRecord.new) on_create;
               mret id
           end;
      rec ← bind_merged_node (pt_path_variable pattern) (merge_alias p) id NamedRecord.new;
      mret [rec]
  | _ => unreachable
  end.

(** ** Relationships *)
Definition bind_id (variable : option string) (id : N) (rec : NamedRecord) : NamedRecord :=
  match variable with Some v => NamedRecord.set v (id_value id) rec | None => rec end.
Definition bind_edge_path (path_variable : option string) (r : N * N * string * option N)
    (rec : NamedRecord) : E' NamedRecord :=
  match path_variable with
  | Some p =>
      let '(src, dst, label, _) := r in
      src_node ← in_db (get_node src);
      dst_node ← in_db (get_node dst);
      props ← in_db (edge_props_of r);
      mret (NamedRecord.set p
              (Value.Path (mkPath [src_node; dst_node] [mkEdge src dst label props])) rec)
  | None => mret rec
  end.

Definition edge_matches (src dst : N) (edge_type : string) (props : Properties) (c : conn)
    : Res bool :=
  edge_exists src dst edge_type c ≫= λ e : bool,
  if e then
    if decide (props = ∅) then Ok true
    else get_edge_properties src dst edge_type c ≫= λ existing : Properties,
 Ok (has_props props existing)
  else Ok false.

Definition exec_merge_relationship (pattern : Pattern Expr) (on_create on_match : list (SetItem Expr))
    : E' rows :=
  match pt_elements pattern with
  | PNode src_pat :: PRelationship rel :: PNode dst_pat :: _ =>
      let edge_type := default "" (head (rp_types rel)) in
      src ← find_or_create_merge_node (first_label src_pat) (np_properties src_pat);
      dst ← find_or_create_merge_node (first_label dst_pat) (np_properties dst_pat);
      props ← merge_props (rp_properties rel) NamedRecord.new;
      let r := (src, dst, edge_type, None) in
      let rec := bind_id (np_variable dst_pat) dst (bind_id (np_variable src_pat) src NamedRecord.new) in
      matched ← in_db (edge_matches src dst edge_type props);
      _ ← (if matched : bool then for_each (apply_merge_set_item_edge r rec) on_match
           else _ ← on_db (Edges.create_edge src dst edge_type props);
                for_each (apply_merge_set_item_edge r rec) on_create);
      rec ← bind_edge_path (pt_path_variable pattern) r rec;
      mret [rec]
  | _ => unreachable
  end.

Definition exec_merge (pattern : Pattern Expr) (on_create on_match : list (SetItem Expr)) : E' rows :=
  if decide (length (pt_elements pattern) = 1%nat) then exec_merge_node pattern on_create on_match
  else exec_merge_relationship pattern on_create on_match.

(** ** MERGE after other clauses *)

(** One row of the input; one row of the result for each node that matches. *)
Definition match_merge_node (pattern : Pattern Expr) (on_create on_match : list (SetItem Expr))
    (rec : NamedRecord) : E' rows :=
  match pt_elements pattern with
  | PNode p :: _ =>
      props ← merge_props (np_properties p) rec;
      matches ← in_db (find_merge_matches_evaluated (first_label p) props);
      let bind id := bind_merged_node (pt_path_variable pattern) (merge_alias p) id rec in
      match matches with
      | [] =>
          id ← insert_node (single_label (first_label p)) props;
          _ ← for_each (apply_merge_set_item_node id rec) on_create;
          out_rec ← bind id;
          mret [out_rec]
      | _ =>
          collect_m (λ n, _ ← for_each (apply_merge_set_item_node (node_id n) rec) on_match;
                          bind (node_id n)) matches
      end
  | _ => unreachable
  end.

Definition matching_edges (src dst : N) (edge_type : string) (props : Properties) (c : conn)
    : Res (list (N * N * N)) :=
  get_all_edge_props src dst edge_type c ≫= λ all : list (N * Properties),
  Ok ((λ e : N * Properties, (src, dst, e.1)) <$>
      List.filter (λ e, has_props props e.2) all).

(** The created relationship has no number in its row, a matched one has. *)
Definition bind_created_edge (r_alias : option string) (r : N * N * string * option N)
    (rec : NamedRecord) : E' NamedRecord :=
  match r_alias with
  | Some a =>
      let '(src, dst, label, _) := r in
      props ← in_db (edge_props_of r);
      mret (set_edge_ref a src dst label props rec)
  | None => mret rec
  end.
Definition bind_matched_edge (r_alias : option string) (src dst : N) (label : string) (seq : N)
    (rec : NamedRecord) : E' NamedRecord :=
  match r_alias with
  | Some a =>
      props ← in_db (get_edge_properties_at src dst label seq);
      mret (set_rel a label src dst seq props rec)
  | None => mret rec
  end.

Definition match_merge_edge (pattern : Pattern Expr) (src_var dst_var : string) (rel : RelPattern Expr)
    (on_create on_match : list (SetItem Expr)) (rec : NamedRecord) : E' rows :=
  let edge_type := default "" (head (rp_types rel)) in
  match node_ref src_var rec, node_ref dst_var rec with
  | Some src, Some dst =>
      props ← merge_props (rp_properties rel) rec;
      forward ← in_db (matching_edges src dst edge_type props);
      backward ← match rp_direction rel with
                 | RelUndirected => in_db (matching_edges dst src edge_type props)
                 | _ => mret []
                 end;
      match forward ++ backward with
      | [] =>
          let r := (src, dst, edge_type, None) in
          _ ← on_db (Edges.create_edge src dst edge_type props);
          _ ← for_each (apply_merge_set_item_edge r rec) on_create;
          out_rec ← bind_created_edge (rp_variable rel) r rec;
          out_rec ← bind_edge_path (pt_path_variable pattern) r out_rec;
          mret [out_rec]
      | matched =>
          _ ← for_each (λ '(s, d, q),
                for_each (apply_merge_set_item_edge (s, d, edge_type, Some q) rec) on_match) matched;
          collect_m (λ '(s, d, q),
            match_rec ← bind_matched_edge (rp_variable rel) s d edge_type q rec;
            bind_edge_path (pt_path_variable pattern) (s, d, edge_type, Some q) match_rec) matched
      end
  | _, _ => mret []
  end.

Definition merge_error (message : string) : GraphError := GraphError.semantic message.
Definition exec_match_merge (pattern : Pattern Expr) (on_create on_match : list (SetItem Expr))
    (records : rows) : E' rows :=
  match pt_elements pattern with
  | [_] => concat_m (match_merge_node pattern on_create on_match) records
  | [e0; e1; e2] =>
      match e0, e1, e2 with
      | PNode src_node, PRelationship rel, PNode dst_node =>
          match np_variable src_node, np_variable dst_node with
          | Some src_var, Some dst_var =>
              concat_m (match_merge_edge pattern src_var dst_var rel on_create on_match) records
          | None, _ => throw (merge_error "MERGE relationship source must have a variable")
          | _, None => throw (merge_error "MERGE relationship target must have a variable")
          end
      | PNode _, PRelationship _, _ | PRelationship _, _, _ =>
          throw (merge_error "expected node pattern")
      | PNode _, PNode _, _ =>
          throw (merge_error "expected relationship pattern")
      end
  | _ => throw (merge_error "MERGE pattern must be a single node or (node)-[rel]->(node)")
  end.
End merge.
