(* ===== verification/Executor.v ===== *)
(** * Rows under an outer row: src/src/cypher/executor/correlated.rs

    The right side of a join and the pattern of a subquery run with the bindings of
    an outer row: aliases that it binds are not looked up again. *)
From stdpp Require Import pretty.
From S2P Require Export ReadOps Writes.
#[local] Open Scope Z_scope.

Section correlated.
Context {Ch : Chrono} {Co : ChronoOrder} {Db : DebugText}.
Context {conn : Type} {O : SqlOps conn} {Mp : Msgpack} {Fm : FtsMatch conn}.
Context (c : conn) (T : Traversals) (params : option (gmap string value)).
Context {S : Type} (ev : Expr → RecordView → M S GraphError value).
Context (max_result_rows max_traversal_work : N).
Abbreviation E' := (M S GraphError).
Abbreviation rows := (list NamedRecord).

(** ** Leaves *)
Definition correlated_scan (label alias : string) (outer : NamedRecord) : Res rows :=
  match bound_node alias outer with
  | Some node_id =>
      node ← get_node node_id c;
      Ok (if has_label label node then [node_to_record node alias] else [])
  | None =>
      if is_null_field (NamedRecord.get alias outer) then Ok []
      else exec_scan c label alias max_result_rows
  end.

Definition correlated_id_lookup (alias : string) (value_expr : Expr) (outer : NamedRecord)
    : E' rows :=
  match bound_node alias outer with
  | Some node_id => node ← lift (get_node node_id c); mret [node_to_record node alias]
  | None =>
      if is_null_field (NamedRecord.get alias outer) then mret []
      else exec_id_lookup c ev alias value_expr outer
  end.

(** The properties that are looked up are those of the row. *)
Fixpoint lookups_match (rec : NamedRecord) (alias : string) (lookups : list (string * LookupKey))
    : Res bool :=
  match lookups with
  | [] => Ok true
  | (property, key) :: lookups' =>
      expected ← resolve_lookup_key params key;
      match NamedRecord.get (dot alias property) rec with
      | Some v => if value_eqb v expected then lookups_match rec alias lookups' else Ok false
      | None => Ok false
      end
  end.
Definition correlated_index_lookup (label alias : string) (index_properties : list string)
    (lookups : list (string * LookupKey)) (remaining_filters : option Expr) (outer : NamedRecord)
    : E' rows :=
  match bound_node alias outer with
  | Some node_id =>
      node ← lift (get_node node_id c);
      if negb (has_label label node) then mret [] else
      let rec := node_to_record node alias in
      m ← lift (lookups_match rec alias lookups);
      if negb m then mret [] else
      b ← passes ev remaining_filters rec;
      mret (if b : bool then [rec] else [])
  | None => exec_index_lookup c params ev label alias index_properties lookups remaining_filters
  end.

(** ** Expand *)
Definition or_opt {A} (a b : option A) : option A := match a with Some _ => a | None => b end.

(** A list of edges that the relationship is bound to. *)
Definition bound_edge_list (rel_alias : option string) (outer rec : NamedRecord)
    : option (list Edge) :=
  ra ← rel_alias;
  v ← or_opt (NamedRecord.get ra outer) (NamedRecord.get ra rec);
  match v with
  | Value.List items =>
      let edges := omap edge_of_value items in
      if Nat.eqb (length edges) (length items) && negb (Nat.eqb (length edges) 0)
      then Some edges else None
  | _ => None
  end.
Definition next_node (direction : Direction) (current : N) (e : Edge) : option N :=
  match direction with
  | Outgoing => if N.eqb (edge_src e) current then Some (edge_dst e) else None
  | Incoming => if N.eqb (edge_dst e) current then Some (edge_src e) else None
  | Both =>
      if N.eqb (edge_src e) current then Some (edge_dst e)
      else if N.eqb (edge_dst e) current then Some (edge_src e) else None
  end.
Fixpoint walk (direction : Direction) (current : N) (edges : list Edge) : option N :=
  match edges with
  | [] => Some current
  | e :: edges' => n ← next_node direction current e; walk direction n edges'
  end.
Definition bound_path_rows (x : ExpandOp) (bound_dst : option N) (src_id : N)
    (bound_edges : list Edge) (rec : NamedRecord) : Res rows :=
  match walk (ex_direction x) src_id bound_edges with
  | Some dst_id =>
      if dst_allowed bound_dst dst_id then
        new_rec ← fetch_and_populate c rec dst_id (ex_dst x);
        Ok [match ex_rel x with
            | Some r_alias =>
                NamedRecord.set r_alias (Value.List (Value.Edge <$> bound_edges)) new_rec
            | None => new_rec
            end]
      else Ok []
  | None => Ok []
  end.

(** A path that takes an edge of an earlier part of the pattern is left out; here
    the number of a parallel edge does not count. *)
Definition unnumbered (k : EdgeId) : Z * Z * string := k.1.
Definition step_key (step : PathStep) : Z * Z * string :=
  unnumbered (edge_key_of (i64_of_u64 (step_src step)) (i64_of_u64 (step_dst step))
                (step_label step) 0).
Definition overlaps (prior_edges : list (Z * Z * string)) (steps : list PathStep) : bool :=
  List.existsb (λ step, bool_decide (step_key step ∈ prior_edges)) steps.
Definition searched_path_rows (x : ExpandOp) (filters : gmap string Expr) (bound_dst : option N)
    (src_id : N) (rec : NamedRecord) : Res rows :=
  paths ← tr_paths T (ex_types x) (ex_direction x) (ex_min x) (ex_max x) (literal_filters filters)
            None max_traversal_work src_id;
  let prior_edges := unnumbered <$> collect_flat_edge_ids rec in
  collect (path_row c rec (ex_dst x) (ex_rel x))
    (List.filter (λ p : N * list PathStep,
       dst_allowed bound_dst p.1 && negb (overlaps prior_edges p.2)) paths).

(** A relationship that the outer row binds: its ends, type and number. *)
Definition bound_rel (rel_alias : option string) (outer : NamedRecord)
    : option (N * N * string * N) :=
  ra ← rel_alias;
  let get key := NamedRecord.get (dot ra key) outer in
  src ← int_field (get "__src");
  dst ← int_field (get "__dst");
  rtype ← str_field (get "__type");
  Some (u64_of_i64 src, u64_of_i64 dst, rtype, edge_seq_field (get "__edge_seq")).
(** The other end of the relationship, when the node is an end that the direction
    allows. *)
Definition bound_rel_dst (direction : Direction) (src_id rel_src rel_dst : N) : option N :=
  match direction with
  | Incoming => if N.eqb src_id rel_dst then Some rel_src else None
  | Outgoing => if N.eqb src_id rel_src then Some rel_dst else None
  | Both =>
      if N.eqb src_id rel_src then Some rel_dst
      else if N.eqb src_id rel_dst then Some rel_src else None
  end.
Definition bound_rel_rows (x : ExpandOp) (src_id : N) (rel : N * N * string * N) (rec : NamedRecord)
    : Res rows :=
  let '(rel_src, rel_dst, rel_type, rel_seq) := rel in
  if negb (bool_decide (ex_types x = [])) && negb (bool_decide (rel_type ∈ ex_types x)) then Ok [] else
  match bound_rel_dst (ex_direction x) src_id rel_src rel_dst with
  | Some dst_id =>
      new_rec ← fetch_and_populate c rec dst_id (ex_dst x);
      Ok [match ex_rel x with
          | Some r_alias => set_rel r_alias rel_type rel_src rel_dst rel_seq ∅ new_rec
          | None => new_rec
          end]
  | None => Ok []
  end.

(** One row for a neighbour, whatever the number of edges to it. *)
Definition set_rel_unnumbered (r_alias label : string) (src dst : N) (props : Properties)
    (rec : NamedRecord) : NamedRecord :=
  let rec := NamedRecord.set r_alias (Value.String label) rec in
  let rec := NamedRecord.set (dot r_alias "__src") (id_value src) rec in
  let rec := NamedRecord.set (dot r_alias "__dst") (id_value dst) rec in
  let rec := NamedRecord.set (dot r_alias "__type") (Value.String label) rec in
  set_all ((λ p : string * value, (dot r_alias p.1, p.2)) <$> map_to_list props) rec.
Definition correlated_neighbor (x : ExpandOp) (src_id : N) (label : string) (rec : NamedRecord)
    (dst_id : N) : Res rows :=
  new_rec ← fetch_and_populate c rec dst_id (ex_dst x);
  match ex_rel x with
  | None => Ok [new_rec]
  | Some r_alias =>
      ends ← edge_ends c (ex_direction x) src_id dst_id label;
      let edge_key := edge_key_of (i64_of_u64 ends.1) (i64_of_u64 ends.2) label 0 in
      if bound_elsewhere new_rec r_alias edge_key then Ok [] else
      props ← ok_r (get_edge_properties ends.1 ends.2 label c);
      Ok [set_rel_unnumbered r_alias label ends.1 ends.2 (default ∅ props) new_rec]
  end.
Definition correlated_neighbors (x : ExpandOp) (src_id : N) (label : string) : Res (list N) :=
  if N.eqb (ex_min x) 1 && N.eqb (ex_max x) 1 then get_neighbors src_id label (ex_direction x) c
  else tr_traverse T src_id label (ex_direction x) (ex_min x) (ex_max x).

Definition correlated_expand (x : ExpandOp) (filters : gmap string Expr) (outer rec : NamedRecord)
    : Res rows :=
  match bound_node (ex_src x) rec with
  | None => Ok []
  | Some src_id =>
      labels ← expand_labels c src_id (ex_types x) (ex_direction x);
      let bound_dst := or_opt (bound_node (ex_dst x) outer) (bound_node (ex_dst x) rec) in
      if ex_var_length x then
        match bound_edge_list (ex_rel x) outer rec with
        | Some bound_edges => bound_path_rows x bound_dst src_id bound_edges rec
        | None => searched_path_rows x filters bound_dst src_id rec
        end
      else
        match bound_rel (ex_rel x) outer with
        | Some rel => bound_rel_rows x src_id rel rec
        | None =>
            concat_r (λ label,
              dst_ids ← correlated_neighbors x src_id label;
              concat_r (correlated_neighbor x src_id label rec)
                (List.filter (dst_allowed bound_dst) dst_ids)) labels
        end
  end.
Definition exec_correlated_expand (x : ExpandOp) (filters : gmap string Expr) (outer : NamedRecord)
    (input_records : rows) : Res rows :=
  results ← concat_r (correlated_expand x filters outer) input_records;
  _ ← check_row_limit results max_result_rows;
  Ok results.

(** ** Filters and joins *)
Definition correlated_filter (predicate : Expr) (outer : NamedRecord) : rows → E' rows :=
  filter_m (λ rec, holds_in ev predicate (merge_under outer rec)).

Definition correlated_product (merge : NamedRecord → NamedRecord → NamedRecord) (same_match : bool)
    (right : NamedRecord → E' rows) (outer : NamedRecord) : rows → E' rows :=
  concat_m (λ l,
    right_records ← right (merge_over l outer);
    mret (right_records ≫= combine_rows merge same_match l)).

(** ** Project *)
Definition correlated_column (item : ReturnItem Expr) : string :=
  let e := ri_expr item in
  match ri_alias item, variable_of e with
  | Some alias, _ => alias
  | None, Some v => v
  | None, None => expr_debug e
  end.
Definition correlated_project_item (item : ReturnItem Expr) (rec projected : NamedRecord)
    : E' NamedRecord :=
  let e := ri_expr item in
  if is_star e then mret (merge_over rec projected) else
  let col := correlated_column item in
  val ← (match or_opt (NamedRecord.get (expr_to_column_name e) rec) (NamedRecord.get col rec) with
         | Some existing => mret existing
         | None => ev_in ev e rec
         end);
  let projected := NamedRecord.set col val projected in
  mret (match variable_of e with
        | Some v => set_all (renamed_fields v (default v (ri_alias item)) rec) projected
        | None => projected
        end).
Fixpoint correlated_project_items (items : list (ReturnItem Expr)) (rec projected : NamedRecord)
    : E' NamedRecord :=
  match items with
  | [] => mret projected
  | item :: items' =>
      projected ← correlated_project_item item rec projected;
      correlated_project_items items' rec projected
  end.
Definition has_dot (key : string) : bool := str_contains key ".".
Definition correlated_compound (projected : NamedRecord) : Res NamedRecord :=
  bound_vars ← compound_binding_vars (named_view projected);
  compound ← set_compounds projected bound_vars NamedRecord.new;
  Ok (set_all (List.filter (λ e : string * value,
        negb (has_dot e.1) && negb (bool_decide (e.1 ∈ bound_vars))) (NamedRecord.fields projected))
        compound).
Definition correlated_project (items : list (ReturnItem Expr)) (emit_compound : bool) : rows → E' rows :=
  collect_m (λ rec,
    projected ← correlated_project_items items rec NamedRecord.new;
    if emit_compound : bool then lift (correlated_compound projected) else mret projected).

(** ** Paths *)
Definition edge_value_key (e : Edge) : EdgeId :=
  edge_key_of (i64_of_u64 (edge_src e)) (i64_of_u64 (edge_dst e)) (edge_label e) 0.
Definition correlated_path (path_alias : string) (node_aliases rel_aliases : list string)
    (rec : NamedRecord) : Res rows :=
  ns ← alias_nodes c rec node_aliases [];
  es ← alias_edges rec rel_aliases [];
  let has_null := (fst ns || fst es)%bool in
  let edges : list Edge := snd es in
  if negb has_null && has_duplicate [] (edge_value_key <$> edges) then Ok [] else
  nodes ← (if negb has_null && has_var_length_rel rec rel_aliases then
             match edges with
             | [] => Ok (take 1 (snd ns))
             | _ => if Nat.ltb (length (snd ns)) (length edges + 1)
                    then rebuilt c (λ _ e, edge_dst e) (snd ns) edges else Ok (snd ns)
             end
           else Ok (snd ns));
  Ok [set_path path_alias has_null nodes edges rec].

(** ** Aggregates *)
Definition correlated_aggregate (group_keys : list Expr) (aggregates : list AggregateExpr)
    (records : rows) : E' rows :=
  exec_aggregate_over_records ev records group_keys aggregates.
End correlated.

(** * CALL: src/src/cypher/executor/call.rs, procedure.rs and builtin_procedures.rs

    The registry of procedures, the procedures that are built in, and the operator
    that runs them for each row. *)

(** ** Procedures *)
Record ProcParam := mkParam { pp_name : string; pp_type_name : string }.
(** A row is a map from column names to values. *)
Abbreviation ProcRow := (gmap string value).
Record ProcedureDef := mkProcedure {
  pd_name : string;
  pd_inputs : list ProcParam;
  pd_outputs : list ProcParam;
  pd_rows : list ProcRow }.
Abbreviation ProcedureRegistry := (gmap string ProcedureDef).

(** [ProcedureRegistry::register], as a release build runs it. *)
Definition register (proc_def : ProcedureDef) (r : ProcedureRegistry) : ProcedureRegistry :=
  <[pd_name proc_def := proc_def]> r.

(** ** Built-in procedures *)
Record BuiltinSig := mkSig { bs_inputs : list ProcParam; bs_outputs : list ProcParam }.
Definition string_param (name : string) : ProcParam := mkParam name "STRING?".
Definition builtin_signature (name : string) : option BuiltinSig :=
  if decide (name = "db.indexes") then
    Some (mkSig [] [string_param "label"; string_param "property"; string_param "kind"])
  else if decide (name = "db.counts") then
    Some (mkSig [] [string_param "kind"; string_param "name"; mkParam "count" "INTEGER?"])
  else if decide (name = "fts.search") then
    Some (mkSig [string_param "label"; string_param "property"; string_param "query"]
            [mkParam "node" "NODE?"; mkParam "score" "FLOAT?"])
  else None.

(** [SELECT rowid, bm25("t") .. WHERE "t" MATCH ?1 ORDER BY rank]: whether the
    statement can be prepared and bound, and its rows, each of which can fail. *)
Class FtsSearch (conn : Type) := {
  sql_fts_search : conn → string → string →
    result (string + string) (list (result string (Z * N)));
}.

Definition index_row (label property kind : string) : ProcRow :=
  <["label" := Value.String label]> (<["property" := Value.String property]>
    {["kind" := Value.String kind]}).
Definition count_row (kind name : string) (count : N) : ProcRow :=
  <["kind" := Value.String kind]> (<["name" := Value.String name]> {["count" := id_value count]}).
Definition fts_kind_name (k : FtsTokenizerKind) : string :=
  match k with
  | TrigramCaseSensitive => "fulltext"
  | TrigramCaseInsensitive => "fulltext_ci"
  | Word => "fulltext_word"
  end.
Definition fts_search_type_error (message : string) : GraphError :=
  GraphError.Query (QueryError.TypeError Runtime ErrorCode.Other message None None).
Definition procedure_error (message : string) (hint : option string) : GraphError :=
  GraphError.Query (QueryError.ProcedureError Runtime ErrorCode.Other message hint None).
Definition string_arg (what : string) (o : option value) : Res string :=
  match o with
  | Some (Value.String s) => Ok s
  | _ => Err (fts_search_type_error ("fts.search: " +:+ what +:+ " must be a string"))
  end.

Section builtins.
Context {conn : Type} {O : SqlOps conn} {Mp : Msgpack} {Fs : FtsSearch conn}.

Definition exec_db_indexes (c : conn) : Res (list ProcRow) :=
  list_all_indexes c ≫= λ secondary : list IndexInfo,
  list_all_fulltext_indexes c ≫= λ fulltext : list FtsIndexInfo,
  Ok ((secondary ≫= λ info, (λ p, index_row (info_label info) p (info_kind info))
         <$> info_properties info)
      ++ (fulltext ≫= λ info, (λ p, index_row (fi_label info) p (fts_kind_name (fi_kind info)))
            <$> fi_properties info)).
Definition exec_db_counts (c : conn) : Res (list ProcRow) :=
  get_all_label_counts c ≫= λ labels : list (string * N),
  get_all_edge_type_counts c ≫= λ edge_types : list (string * N),
  Ok (((λ e : string * N, count_row "label" e.1 e.2) <$> labels)
      ++ ((λ e : string * N, count_row "edge_type" e.1 e.2) <$> edge_types)).

(** The table to search, and the column to which a search is limited. *)
Definition resolve_fts_target (label property : string) (c : conn) : Res (string * option string) :=
  list_fulltext_indexes_for_label label c ≫= λ infos : list FtsIndexInfo,
  if decide (property = "*") then
    match infos with
    | [] => Err (GraphError.IndexNotFound label ["*"]
                   (Some ("no fulltext index on label `" +:+ label +:+ "`")))
    | [info] => Ok (fi_table_name info, None)
    | _ => Err (procedure_error
                  ("fts.search('*'): label `" +:+ label +:+
                   "` has multiple FTS indexes; specify a property to disambiguate") None)
    end
  else
    match List.find (λ info, bool_decide (property ∈ fi_properties info)) infos with
    | Some info =>
        Ok (fi_table_name info,
            if str_starts_with (fi_table_name info) "node_fts_multi_" then Some property else None)
    | None => Err (GraphError.IndexNotFound label [property]
                     (Some "no fulltext index covers this (label, property)"))
    end.

(** Rows whose node is gone are skipped. *)
Fixpoint search_rows (query : string) (rows : list (result string (Z * N))) (c : conn)
    : Res (list ProcRow) :=
  match rows with
  | [] => Ok []
  | Panic :: _ => Panic
  | Err e :: _ => Err (procedure_error ("fts.search: error iterating fulltext rows: " +:+ e)
                         (Some ("query was: " +:+ query)))
  | Ok (rowid, rank) :: rows' =>
      match get_node (u64_of_i64 rowid) c with
      | Ok n =>
          search_rows query rows' c ≫= λ rest : list ProcRow,
          Ok (<["node" := Value.Node n]> {["score" := F (f64_neg (f64_of_bits rank))]} :: rest)
      | Err (GraphError.NodeNotFound _ _) => search_rows query rows' c
      | Err e => Err e
      | Panic => Panic
      end
  end.
Definition exec_fts_search (args : list value) (c : conn) : Res (list ProcRow) :=
  string_arg "label" (args !! 0%nat) ≫= λ label : string,
  string_arg "property" (args !! 1%nat) ≫= λ property : string,
  string_arg "query" (args !! 2%nat) ≫= λ query : string,
  resolve_fts_target label property c ≫= λ target : string * option string,
  let match_term := match target.2 with
                    | Some col => quoted col +:+ ":(" +:+ query +:+ ")"
                    | None => query
                    end in
  match sql_fts_search c target.1 match_term with
  | Ok rows => search_rows query rows c
  | Err (inl e) => Err (procedure_error ("fts.search: failed to prepare fulltext query: " +:+ e)
                          (Some ("query was: " +:+ query)))
  | Err (inr e) => Err (procedure_error ("fts.search: invalid fulltext query syntax (fts5): " +:+ e)
                          (Some ("query was: " +:+ query)))
  | Panic => Panic
  end.

(** A name that is not built in is unreachable. *)
Definition execute_builtin (name : string) (args : list value) (c : conn) : Res (list ProcRow) :=
  if decide (name = "db.indexes") then exec_db_indexes c
  else if decide (name = "db.counts") then exec_db_counts c
  else if decide (name = "fts.search") then exec_fts_search args c
  else Panic.
End builtins.

(** ** CALL *)

(** [Value::F64(a) == Value::F64(b)] of this function is equality of doubles. *)
Definition values_match (row_val arg_val : value) : bool :=
  match row_val, arg_val with
  | Value.I64 a, Value.I64 b => a =? b
  | Value.F64 a, Value.F64 b => bits_eqb a b
  | Value.I64 a, Value.F64 b => int_eqb a b
  | Value.F64 a, Value.I64 b => int_eqb b a
  | Value.String a, Value.String b => String.eqb a b
  | Value.Bool a, Value.Bool b => Bool.eqb a b
  | Value.Null, Value.Null => true
  | _, _ => value_eqb row_val arg_val
  end.

(** Registered rows are filtered by the arguments. *)
Definition matches_args (inputs : list ProcParam) (args : list value) (row : ProcRow) : bool :=
  forallb (λ p : ProcParam * value,
    match row !! pp_name p.1 with Some v => values_match v p.2 | None => true end) (zip inputs args).
Definition registry_rows (def : ProcedureDef) (args : list value) : list ProcRow :=
  match pd_inputs def, args with
  | [], _ | _, [] => pd_rows def
  | inputs, _ => List.filter (matches_args inputs args) (pd_rows def)
  end.

Definition yield_row (yield_items : list (string * option string)) (rec : NamedRecord)
    (data_row : ProcRow) : NamedRecord :=
  foldl (λ r y, NamedRecord.set (default y.1 y.2) (default Value.Null (data_row !! y.1)) r)
    rec yield_items.
(** Without columns the row of a preceding clause goes through as it is. *)
Definition yield_rows (yield_items : list (string * option string)) (rec : NamedRecord)
    (matching : list ProcRow) : list NamedRecord :=
  match yield_items with
  | [] => if NamedRecord.is_empty rec then [] else [rec]
  | _ => yield_row yield_items rec <$> matching
  end.

Section call.
Context {conn : Type} {O : SqlOps conn} {Mp : Msgpack} {Fs : FtsSearch conn} {S : Type}.
Abbreviation E' := (M (conn * S) GraphError).
Context (ev : Expr → RecordView → E' value) (procedures : ProcedureRegistry).

(** The rows of a procedure for some arguments; [None]: no such procedure. *)
Definition procedure_rows (name : string) : option (list value → E' (list ProcRow)) :=
  match procedures !! name with
  | Some def => Some (λ args, mret (registry_rows def args))
  | None =>
      match builtin_signature name with
      | Some _ => Some (λ args, in_db (execute_builtin name args))
      | None => None
      end
  end.

Definition exec_call (name : string) (args : list Expr) (yield_items : list (string * option string))
    (max_result_rows : N) (records : list NamedRecord) : E' (list NamedRecord) :=
  match procedure_rows name with
  | None => throw (procedure_error ("ProcedureNotFound: unknown procedure `" +:+ name +:+ "`") None)
  | Some f =>
      results ← concat_m (λ rec,
        vals ← collect_m (λ a, ev_in ev a rec) args;
        matching ← f vals;
        mret (yield_rows yield_items rec matching)) records;
      _ ← lift (check_row_limit results max_result_rows);
      mret results
  end.
End call.

(** * Running a plan: src/src/cypher/executor/mod.rs

    [exec] and [exec_correlated] over the operators of a plan.  The two call each
    other on the same plan, so one function returns both: the rows of the plan, and
    its rows under an outer row. *)

(** The limits of [ExecContext]. *)
Record Limits := mkLimits {
  max_result_rows : N;
  max_traversal_depth : N;
  max_traversal_work : N }.
Definition default_limits : Limits := mkLimits 0 0 10000000.

Section exec.
Context {Ch : Chrono} {Co : ChronoOrder} {Lm : Libm} {Un : Unicode} {Db : DebugText}.
Context {conn : Type} {O : SqlOps conn} {Mp : Msgpack} {Fm : FtsMatch conn} {Fs : FtsSearch conn}.
Context {S : Type} (X : Effects S) (Q : conn → Subqueries S) (T : conn → Traversals).
Context (params : option (gmap string value)) (procedures : ProcedureRegistry) (ctx : Limits).
Abbreviation E' := (M (conn * S) GraphError).
Abbreviation rows := (list NamedRecord).

(** Expressions, and operators that only read, see the database as it is now. *)
Definition eval (e : Expr) (view : RecordView) : E' value := λ w,
  let '(s, r) := eval_expr X (Q w.1) w.1 params e view w.2 in ((w.1, s), r).
Definition reading {A} (f : conn → E' A) : E' A := λ w, f w.1 w.
Definition reading_r {A} (f : conn → Res A) : E' A := in_db f.

(** The rows of a plan, and its rows under an outer row. *)
Record Run := mkRun { plain : E' rows; under : NamedRecord → E' rows }.
Definition fallback (m : E' rows) : Run := mkRun m (λ _, m).

(** [f] on the rows of the input, and [g] on its rows under the outer row. *)
Definition over (input : Run) (f : rows → E' rows) (g : NamedRecord → rows → E' rows) : Run :=
  mkRun (records ← plain input; f records) (λ outer, records ← under input outer; g outer records).
(** An operator that has no correlated form runs without the outer row. *)
Definition over_plain (input : Run) (f : rows → E' rows) : Run :=
  fallback (records ← plain input; f records).

Fixpoint run (plan : LogicalOp) : Run :=
  match plan with
  | Op.SingleRow | Op.EmptyRow => fallback (mret [NamedRecord.new])
  | Op.Scan label alias =>
      mkRun (reading_r (λ c, exec_scan c label alias (max_result_rows ctx)))
            (λ outer, reading_r (λ c, correlated_scan c (max_result_rows ctx) label alias outer))
  | Op.IndexLookup label alias index_properties lookups remaining_filters =>
      mkRun (reading (λ c, exec_index_lookup c params eval label alias index_properties lookups
                             remaining_filters))
            (λ outer, reading (λ c, correlated_index_lookup c params eval label alias
                                      index_properties lookups remaining_filters outer))
  | Op.IdLookup alias value_expr =>
      mkRun (reading (λ c, exec_id_lookup c eval alias value_expr NamedRecord.new))
            (λ outer, reading (λ c, correlated_id_lookup c eval alias value_expr outer))
  | Op.FullTextLookup label alias property op term remaining_filters =>
      let lookup rec := reading (λ c, exec_fulltext_lookup c eval label alias property op term
                                        remaining_filters rec) in
      mkRun (lookup NamedRecord.new) lookup
  | Op.Expand input src dst rel types direction lo hi var_length filters result_cap =>
      let x := mkExpand src dst rel types direction lo hi var_length in
      over (run input)
        (λ records, reading_r (λ c, exec_expand c (T c) x filters result_cap (max_result_rows ctx)
                                      (max_traversal_work ctx) records))
        (λ outer records, reading_r (λ c, exec_correlated_expand c (T c) (max_result_rows ctx)
                                            (max_traversal_work ctx) x filters outer records))
  | Op.CrossProduct lhs rhs same_match =>
      let l := run lhs in
      let r := run rhs in
      mkRun (left_records ← plain l;
             cross_product same_match (max_result_rows ctx) (plain r) left_records [])
            (λ outer, left_records ← under l outer;
                      correlated_product merge_over same_match (under r) outer left_records)
  | Op.Filter input predicate =>
      over (run input) (exec_filter eval predicate) (correlated_filter eval predicate)
  | Op.Project input items emit_compound =>
      over (run input) (exec_project eval items emit_compound)
        (λ _, correlated_project eval items emit_compound)
  | Op.Aggregate input group_keys aggregates =>
      over (run input)
        (λ records, aggregate_named_records eval records group_keys aggregates)
        (λ _, correlated_aggregate eval group_keys aggregates)
  | Op.Distinct input => over_plain (run input) (λ records, mret (distinct_records records))
  | Op.Sort input items => over_plain (run input) (sort_records eval items)
  | Op.Skip input count => over_plain (run input) (λ records, mret (skip_records count records))
  | Op.Limit input count => over_plain (run input) (λ records, mret (limit_records count records))
  | Op.Unwind input e alias => over_plain (run input) (exec_unwind eval e alias)
  | Op.MaterializePath input path_alias node_aliases rel_aliases =>
      over (run input)
        (collect_m (λ rec, reading_r (λ c, materialize_path c path_alias node_aliases rel_aliases rec)))
        (λ _, concat_m (λ rec, reading_r (λ c, correlated_path c path_alias node_aliases
                                                 rel_aliases rec)))
  | Op.CorrelatedJoin input rhs same_match =>
      let l := run input in
      let r := run rhs in
      mkRun (left_records ← plain l; correlated_join (under r) same_match left_records)
            (λ outer, left_records ← under l outer;
                      correlated_product merge_under same_match (under r) outer left_records)
  | Op.LeftOuterJoin input rhs optional_aliases opt_filter =>
      let r := run rhs in
      over_plain (run input) (left_outer_join eval (under r) optional_aliases opt_filter)
  | Op.ShortestPath input src dst path_alias edge_type direction max_hops all_paths =>
      over_plain (run input)
        (concat_m (λ rec, reading_r (λ c, shortest_path_rows c (T c) src dst path_alias edge_type
                                            direction max_hops all_paths rec)))
  | Op.Union inputs all =>
      fallback (results ← collect_m (λ input, plain (run input)) inputs;
                mret (union_records all (concat results)))
  | Op.CreateNode labels alias properties => fallback (exec_create_node eval labels alias properties)
  | Op.CreateEdge _ _ _ _ _ => fallback (mret [])
  | Op.CreateSequence ops => fallback (exec_create_sequence eval ops)
  | Op.MatchCreate input create_ops => over_plain (run input) (exec_match_create eval create_ops)
  | Op.Delete input exprs detach => over_plain (run input) (exec_delete eval exprs detach)
  | Op.SetProperty input assignments => over_plain (run input) (exec_set_property eval assignments)
  | Op.SetLabel input variable labels => over_plain (run input) (exec_set_label variable labels)
  | Op.SetProperties input variable v merge =>
      over_plain (run input) (exec_set_properties eval variable v merge)
  | Op.Remove input items => over_plain (run input) (exec_remove items)
  | Op.Merge pattern on_create on_match => fallback (exec_merge eval pattern on_create on_match)
  | Op.MatchMerge input pattern on_create on_match =>
      over_plain (run input) (exec_match_merge eval pattern on_create on_match)
  | Op.Call input procedure_name args yield_items _ =>
      over_plain (run input)
        (exec_call eval procedures procedure_name args yield_items (max_result_rows ctx))
  | Op.CreateIndex label properties => fallback (exec_create_index label properties)
  | Op.DropIndex label properties => fallback (exec_drop_index label properties)
  end.

Definition exec (plan : LogicalOp) : E' rows := plain (run plan).
Definition exec_correlated (plan : LogicalOp) (outer : NamedRecord) : E' rows :=
  under (run plan) outer.

(** The path of [execute_with_ctx] through the executor of named rows. *)
Definition execute_named (plan : LogicalOp) : E' rows :=
  _ ← lift (validate_traversal_depth plan (max_traversal_depth ctx));
  result ← exec plan;
  mret (if is_bare_write plan then [] else result).
End exec.

(** ** Subqueries: src/src/cypher/executor/util.rs *)
Section subqueries.
Context {Ch : Chrono} {Co : ChronoOrder} {Lm : Libm} {Un : Unicode} {Db : DebugText}.
Context {conn : Type} {O : SqlOps conn} {Mp : Msgpack} {Fm : FtsMatch conn} {Fs : FtsSearch conn}.
Context {S : Type} (X : Effects S) (Q : conn → Subqueries S) (T : conn → Traversals).
Context (params : option (gmap string value)).
Abbreviation E' := (M (conn * S) GraphError).

(** They run without registered procedures and with the default limits. *)
Definition exec_default (plan : LogicalOp) : E' (list NamedRecord) :=
  exec X Q T params ∅ default_limits plan.
Definition exec_correlated_subquery (plan : LogicalOp) (outer : NamedRecord) : E' (list NamedRecord) :=
  exec_correlated X Q T params ∅ default_limits plan outer.
Definition exec_correlated_exists (plan : LogicalOp) (outer : NamedRecord) : E' bool :=
  rows ← exec_correlated_subquery plan outer;
  mret (match rows with [] => false | _ => true end).

(** The first element for which the test succeeds ends the loop. *)
Fixpoint any_m {A} (f : A → E' bool) (l : list A) : E' bool :=
  match l with
  | [] => mret false
  | x :: l' => b ← f x; if b : bool then mret true else any_m f l'
  end.

(** [execute_first_match]; [execute] runs a plan through the iterators of iter.rs. *)
Section first_match.
Context (execute : LogicalOp → E' (list NamedRecord)) (bindings : list (string * value)).

Definition first_indexed (alias : string) (remaining_filters : option Expr) (id : N) : E' bool :=
  n ← in_db (get_node id);
  let rec := node_to_record n alias in
  ok ← passes (eval X Q params) remaining_filters rec;
  mret (ok && record_matches_bindings rec bindings).
Definition first_neighbor (rec : NamedRecord) (dst_alias : string) (dst_id : N) : E' bool :=
  new_rec ← in_db (λ c, fetch_and_populate c rec dst_id dst_alias);
  mret (record_matches_bindings new_rec bindings).
(** All neighbours are collected before the first is looked at. *)
Definition first_expanded (x : ExpandOp) (rec : NamedRecord) : E' bool :=
  match bound_node (ex_src x) rec with
  | None => mret false
  | Some src_id =>
      labels ← in_db (λ c, expand_labels c src_id (ex_types x) (ex_direction x));
      dst_ids ← in_db (λ c, concat_r (λ label,
        if decide (ex_min x = 1%N ∧ ex_max x = 1%N) then get_neighbors src_id label (ex_direction x) c
        else tr_traverse (T c) src_id label (ex_direction x) (ex_min x) (ex_max x)) labels);
      any_m (first_neighbor rec (ex_dst x)) dst_ids
  end.

Definition execute_first_match (plan : LogicalOp) : E' bool :=
  match plan with
  | Op.Scan label alias =>
      nodes ← in_db (find_nodes_by_label label);
      mret (List.existsb (λ n, record_matches_bindings (node_to_record n alias) bindings) nodes)
  | Op.IndexLookup label alias index_properties lookups remaining_filters =>
      ids ← in_db (λ c, index_lookup_ids c params label index_properties lookups);
      any_m (first_indexed alias remaining_filters) ids
  | Op.Filter input predicate =>
      records ← exec_default input;
      any_m (λ rec, ok ← holds_in (eval X Q params) predicate rec;
                    mret (ok && record_matches_bindings rec bindings)) records
  | Op.Expand input src dst rel types direction lo hi var_length _ _ =>
      records ← exec_default input;
      any_m (first_expanded (mkExpand src dst rel types direction lo hi var_length)) records
  | _ =>
      results ← execute plan;
      mret (List.existsb (λ rec, record_matches_bindings rec bindings) results)
  end.
End first_match.
End subqueries.
