(* ===== verification/Iterators.v ===== *)
(** * The slots of a plan: src/src/cypher/schema_infer.rs

    Which names the rows of an operator have slots for: the fields of the nodes and
    relationships it binds, and every property that the plan refers to. *)
From S2P Require Export Aggregates Executor.

(** ** References to properties

    For each variable the properties that occur anywhere in the plan. *)
Abbreviation PropertyRefs := (gmap string (gset string)).

(** [out.entry(var).or_default()], changed by [f]. *)
Definition refs_entry (var : string) (f : gset string → gset string) (out : PropertyRefs)
    : PropertyRefs := <[var := f (default ∅ (out !! var))]> out.
Definition add_ref (var prop : string) : PropertyRefs → PropertyRefs :=
  refs_entry var (λ set, {[prop]} ∪ set).

Section walk.
Context {E : Type} (walk_expr : E → PropertyRefs → PropertyRefs).
Definition walk_opt (o : option E) (out : PropertyRefs) : PropertyRefs :=
  match o with Some e => walk_expr e out | None => out end.
Definition walk_list (l : list E) (out : PropertyRefs) : PropertyRefs :=
  foldl (λ acc e, walk_expr e acc) out l.
Definition walk_values (properties : gmap string E) (out : PropertyRefs) : PropertyRefs :=
  map_fold (λ _ e acc, walk_expr e acc) out properties.
Definition walk_element (variable : option string) (properties : gmap string E) (out : PropertyRefs)
    : PropertyRefs :=
  walk_values properties
    (match variable with
     | Some v => refs_entry v (λ set, dom properties ∪ set) out
     | None => out
     end).
Definition walk_pattern (pattern : Pattern E) (out : PropertyRefs) : PropertyRefs :=
  foldl (λ acc el,
    match el with
    | PNode n => walk_element (np_variable n) (np_properties n) acc
    | PRelationship r => walk_element (rp_variable r) (rp_properties r) acc
    end) out (pt_elements pattern).
Definition walk_set_item (item : SetItem E) (out : PropertyRefs) : PropertyRefs :=
  match item with
  | SetItem.Property a => walk_expr (as_value a) (add_ref (as_variable a) (as_property a) out)
  | SetItem.MapOverwrite _ v | SetItem.MapMerge _ v => walk_expr v out
  | SetItem.Label _ _ => out
  end.
End walk.

(** A statement inside an expression has a scope of its own. *)
Fixpoint walk_expr (e : Expr) (out : PropertyRefs) {struct e} : PropertyRefs :=
  let '(mkExpr kind _) := e in
  match kind with
  | Property var prop => add_ref var prop out
  | DotAccess e key =>
      walk_expr e (match variable_of e with Some var => add_ref var key out | None => out end)
  | Variable_ _ | Literal _ | Parameter_ _ | Star | HasLabel _ _ | ExistsSubquery _ => out
  | BinaryOp l _ r => walk_expr r (walk_expr l out)
  | Not x | IsNull x | IsNotNull x => walk_expr x out
  | FunctionCall _ args _ _ => walk_list walk_expr args out
  | Case operand alternatives default_ =>
      let out := walk_opt walk_expr operand out in
      let out := foldl (λ acc (a : Expr * Expr), let (cond, res) := a in
                          walk_expr res (walk_expr cond acc)) out alternatives in
      walk_opt walk_expr default_ out
  | ListLit xs => walk_list walk_expr xs out
  | ListComprehension _ list_expr filter_ map_expr =>
      walk_opt walk_expr map_expr (walk_opt walk_expr filter_ (walk_expr list_expr out))
  | PatternComprehension _ pattern where_clause map_expr =>
      walk_expr map_expr (walk_opt walk_expr where_clause (walk_pattern walk_expr pattern out))
  | Ast.Exists patterns where_clause =>
      walk_opt walk_expr where_clause
        (foldl (λ acc p, walk_pattern walk_expr p acc) out patterns)
  | MapLiteral entries => foldl (λ acc (p : string * Expr), let (_, v) := p in walk_expr v acc) out entries
  | Index e index => walk_expr index (walk_expr e out)
  | Slice e start end_ => walk_opt walk_expr end_ (walk_opt walk_expr start (walk_expr e out))
  | Quantifier _ _ list_expr predicate => walk_expr predicate (walk_expr list_expr out)
  | PatternPredicate p => walk_pattern walk_expr p out
  end.

Definition walk_set_items (items : list (SetItem Expr)) (out : PropertyRefs) : PropertyRefs :=
  foldl (λ acc i, walk_set_item walk_expr i acc) out items.
Definition walk_aggregate (a : AggregateExpr) (out : PropertyRefs) : PropertyRefs :=
  walk_opt walk_expr (ag_extra_arg a) (walk_expr (ag_input a) out).

Fixpoint collect_property_refs (op : LogicalOp) (out : PropertyRefs) : PropertyRefs :=
  match op with
  | Op.SingleRow | Op.EmptyRow | Op.Scan _ _ | Op.IdLookup _ _
  | Op.CreateIndex _ _ | Op.DropIndex _ _ => out
  | Op.IndexLookup _ _ _ _ remaining_filters => walk_opt walk_expr remaining_filters out
  | Op.FullTextLookup _ _ _ _ term remaining_filters =>
      walk_opt walk_expr remaining_filters (walk_expr term out)
  | Op.Expand input _ _ _ _ _ _ _ _ filters _ =>
      walk_values walk_expr filters (collect_property_refs input out)
  | Op.Filter input predicate => walk_expr predicate (collect_property_refs input out)
  | Op.Project input items _ =>
      foldl (λ acc i, walk_expr (ri_expr i) acc) (collect_property_refs input out) items
  | Op.Aggregate input group_keys aggregates =>
      foldl (λ acc a, walk_aggregate a acc)
        (walk_list walk_expr group_keys (collect_property_refs input out)) aggregates
  | Op.Sort input items =>
      foldl (λ acc s, walk_expr (si_expr s) acc) (collect_property_refs input out) items
  | Op.Distinct input | Op.Skip input _ | Op.Limit input _ | Op.SetLabel input _ _
  | Op.Remove input _ | Op.MaterializePath input _ _ _ | Op.ShortestPath input _ _ _ _ _ _ _ =>
      collect_property_refs input out
  | Op.CreateNode _ _ properties => walk_values walk_expr properties out
  | Op.CreateEdge _ _ _ _ properties => walk_values walk_expr properties out
  | Op.CreateSequence ops => foldl (λ acc o, collect_property_refs o acc) out ops
  | Op.MatchCreate input create_ops =>
      foldl (λ acc o, collect_property_refs o acc) (collect_property_refs input out) create_ops
  | Op.CrossProduct l r _ | Op.CorrelatedJoin l r _ =>
      collect_property_refs r (collect_property_refs l out)
  | Op.LeftOuterJoin l r _ opt_filter =>
      walk_opt walk_expr opt_filter (collect_property_refs r (collect_property_refs l out))
  | Op.Delete input exprs _ => walk_list walk_expr exprs (collect_property_refs input out)
  | Op.SetProperty input assignments =>
      foldl (λ acc a, add_ref (as_variable a) (as_property a) (walk_expr (as_value a) acc))
        (collect_property_refs input out) assignments
  | Op.SetProperties input _ v _ => walk_expr v (collect_property_refs input out)
  | Op.Merge pattern on_create on_match =>
      walk_set_items (on_create ++ on_match) (walk_pattern walk_expr pattern out)
  | Op.MatchMerge input pattern on_create on_match =>
      walk_set_items (on_create ++ on_match)
        (walk_pattern walk_expr pattern (collect_property_refs input out))
  | Op.Unwind input e _ => walk_expr e (collect_property_refs input out)
  | Op.Call input _ args _ _ => walk_list walk_expr args (collect_property_refs input out)
  | Op.Union inputs _ => foldl (λ acc i, collect_property_refs i acc) out inputs
  end.

(** ** Schemas *)
Fixpoint add_names (names : list string) (s : RecordSchema) : Res RecordSchema :=
  match names with
  | [] => Ok s
  | name :: names' => RecordSchema.add name s ≫= λ p : N * RecordSchema, add_names names' p.2
  end.

Definition add_node_metadata (alias : string) : RecordSchema → Res RecordSchema :=
  add_names (alias :: (dot alias <$> ["__id"; "__label"; "__labels"])).
Definition add_edge_metadata (alias : string) : RecordSchema → Res RecordSchema :=
  add_names (alias :: (dot alias <$> ["__src"; "__dst"; "__type"; "__edge_seq"])).
(** A [BTreeSet] is walked in order. *)
Definition set_names (set : gset string) : list string := sort_by str_cmp (elements set).
Definition add_referenced_props (alias : string) (props : PropertyRefs)
    : RecordSchema → Res RecordSchema :=
  add_names (dot alias <$> match props !! alias with Some set => set_names set | None => [] end).
(** The keys of a map, under the alias. *)
Definition add_keys (alias : string) (properties : gmap string Expr)
    : RecordSchema → Res RecordSchema :=
  add_names (dot alias <$> (map_to_list properties).*1).
Definition extend_with (src target : RecordSchema) : Res RecordSchema :=
  RecordSchema.iter src ≫= λ slots : list (N * string), add_names slots.*2 target.

Definition return_item_name (item : ReturnItem Expr) : string :=
  default (expr_to_column_name (ri_expr item)) (ri_alias item).
Definition aggregate_name (a : AggregateExpr) : string :=
  match ag_alias a, ag_original_call_text a with
  | Some alias, _ => alias
  | None, Some text => text
  | None, None => ag_original_name a +:+ "(" +:+ expr_to_column_name (ag_input a) +:+ ")"
  end.

(** [s.and_then(f)] one step after the other. *)
Definition node_slots (alias : string) (props : PropertyRefs) (s : RecordSchema) : Res RecordSchema :=
  add_node_metadata alias s ≫= λ s : RecordSchema, add_referenced_props alias props s.
Definition edge_slots (alias : string) (props : PropertyRefs) (s : RecordSchema) : Res RecordSchema :=
  add_edge_metadata alias s ≫= λ s : RecordSchema, add_referenced_props alias props s.

Definition bind_element (el : PatternElement Expr) (props : PropertyRefs) (s : RecordSchema)
    : Res RecordSchema :=
  match el with
  | PNode n =>
      match np_variable n with
      | Some v => node_slots v props s ≫= λ s : RecordSchema, add_keys v (np_properties n) s
      | None => Ok s
      end
  | PRelationship r =>
      match rp_variable r with
      | Some v =>
          match rp_var_length r with
          | Some _ => add_names [v] s
          | None => edge_slots v props s ≫= λ s : RecordSchema, add_keys v (rp_properties r) s
          end
      | None => Ok s
      end
  end.
Fixpoint bind_elements (els : list (PatternElement Expr)) (props : PropertyRefs) (s : RecordSchema)
    : Res RecordSchema :=
  match els with
  | [] => Ok s
  | el :: els' => bind_element el props s ≫= λ s : RecordSchema, bind_elements els' props s
  end.
Definition populate_pattern_bindings (pattern : Pattern Expr) (props : PropertyRefs)
    (s : RecordSchema) : Res RecordSchema :=
  add_names (match pt_path_variable pattern with Some p => [p] | None => [] end) s
  ≫= λ s : RecordSchema, bind_elements (pt_elements pattern) props s.

(** The slots [src.*] of the input under the name of the item. *)
Definition renamed_slots (src col : string) (names : list string) : list string :=
  omap (λ name, rest ← strip_prefix (src +:+ ".") name; Some (dot col rest)) names.
Fixpoint project_slots (in_schema : option RecordSchema) (items : list (ReturnItem Expr))
    (s : RecordSchema) : Res RecordSchema :=
  match items with
  | [] => Ok s
  | item :: items' =>
      let col := return_item_name item in
      add_names [col] s ≫= λ s : RecordSchema,
      match in_schema, variable_of (ri_expr item) with
      | Some in_s, Some src =>
          RecordSchema.iter in_s ≫= λ slots : list (N * string),
          add_names (renamed_slots src col slots.*2) s
      | _, _ => Ok s
      end ≫= λ s : RecordSchema, project_slots in_schema items' s
  end.

Fixpoint infer_with_props (props : PropertyRefs) (op : LogicalOp) : Res RecordSchema :=
  let infer := infer_with_props props in
  match op with
  | Op.SingleRow | Op.EmptyRow | Op.CreateIndex _ _ | Op.DropIndex _ _ => Ok RecordSchema.new
  | Op.Scan _ alias | Op.IndexLookup _ alias _ _ _ | Op.FullTextLookup _ alias _ _ _ _
  | Op.IdLookup alias _ => node_slots alias props RecordSchema.new
  | Op.Expand input _ dst rel _ _ _ _ var_length _ _ =>
      infer input ≫= λ s : RecordSchema,
      node_slots dst props s ≫= λ s : RecordSchema,
      match rel with
      | Some ra => if var_length then add_names [ra] s else edge_slots ra props s
      | None => Ok s
      end
  | Op.Filter input _ | Op.Sort input _ | Op.Distinct input | Op.Skip input _ | Op.Limit input _
  | Op.SetProperty input _ | Op.SetLabel input _ _ | Op.SetProperties input _ _ _
  | Op.Remove input _ => infer input
  | Op.Delete input exprs _ =>
      infer input ≫= λ s : RecordSchema,
      add_names (omap (λ e, v ← variable_of e; Some (dot v "__deleted")) exprs) s
  | Op.Project input items emit_compound =>
      if emit_compound : bool then project_slots None items RecordSchema.new
      else infer input ≫= λ in_s : RecordSchema, project_slots (Some in_s) items RecordSchema.new
  | Op.Aggregate _ group_keys aggregates =>
      add_names ((expr_to_column_name <$> group_keys) ++ (aggregate_name <$> aggregates))
        RecordSchema.new
  | Op.CrossProduct l r _ | Op.CorrelatedJoin l r _ | Op.LeftOuterJoin l r _ _ =>
      infer l ≫= λ s : RecordSchema,
      infer r ≫= λ s2 : RecordSchema, extend_with s2 s
  | Op.Unwind input _ alias =>
      infer input ≫= λ s : RecordSchema,
      add_node_metadata alias s ≫= λ s : RecordSchema, edge_slots alias props s
  | Op.Call input _ _ yield_items yield_star =>
      infer input ≫= λ s : RecordSchema,
      if yield_star : bool then Ok s
      else add_names ((λ y : string * option string, default y.1 y.2) <$> yield_items) s
  | Op.CreateNode _ alias properties =>
      match alias with
      | Some a => node_slots a props RecordSchema.new ≫= λ s : RecordSchema, add_keys a properties s
      | None => Ok RecordSchema.new
      end
  | Op.CreateEdge _ _ _ rel_alias properties =>
      match rel_alias with
      | Some ra => edge_slots ra props RecordSchema.new ≫= λ s : RecordSchema, add_keys ra properties s
      | None => Ok RecordSchema.new
      end
  | Op.CreateSequence ops =>
      foldl (λ acc o, acc ≫= λ s : RecordSchema, infer o ≫= λ s2 : RecordSchema, extend_with s2 s)
        (Ok RecordSchema.new) ops
  | Op.MatchCreate input create_ops =>
      foldl (λ acc o, acc ≫= λ s : RecordSchema, infer o ≫= λ s2 : RecordSchema, extend_with s2 s)
        (infer input) create_ops
  | Op.Merge pattern _ _ => populate_pattern_bindings pattern props RecordSchema.new
  | Op.MatchMerge input pattern _ _ =>
      infer input ≫= λ s : RecordSchema, populate_pattern_bindings pattern props s
  | Op.MaterializePath input path_alias _ _ =>
      infer input ≫= λ s : RecordSchema, add_names [path_alias] s
  | Op.ShortestPath input _ dst path_alias _ _ _ _ =>
      infer input ≫= λ s : RecordSchema,
      node_slots dst props s ≫= λ s : RecordSchema, add_names [path_alias] s
  | Op.Union inputs _ =>
      match inputs with i :: _ => infer i | [] => Ok RecordSchema.new end
  end.

Definition infer_schema (op : LogicalOp) : Res RecordSchema :=
  infer_with_props (collect_property_refs op ∅) op.

(** * Iterators over rows: src/src/cypher/iter.rs and iter_slot.rs

    A plan runs row by row: each operator is an iterator that pulls rows from the
    one below it.  Rows are held in slots; operators that have no iterator of this
    kind run through the executor of named rows when the iterator is built. *)
#[local] Open Scope Z_scope.

(** ** Iterators

    An iterator is what its [next_record] does: nothing more, or a row and the
    iterator that is left. *)
Inductive Pull (W R : Type) := mkPull (pull : M W GraphError (option (R * Pull W R))).
Arguments mkPull {W R} _.

Section iterators.
Context {W : Type}.
Abbreviation E' := (M W GraphError).
Definition next {R} (p : Pull W R) : E' (option (R * Pull W R)) := let '(mkPull m) := p in m.

(** [VecIter], and an iterator whose rows are computed when the first is asked for. *)
Fixpoint vec_iter {R} (records : list R) : Pull W R :=
  mkPull (mret (match records with [] => None | r :: records' => Some (r, vec_iter records') end)).
Definition blocking {R} (m : E' (list R)) : Pull W R :=
  mkPull (records ← m; next (vec_iter records)).

(** [collect_all]. *)
Fixpoint collect_all {R} (p : Pull W R) : E' (list R) :=
  o ← next p;
  match o with
  | Some (rec, p') => records ← collect_all p'; mret (rec :: records)
  | None => mret []
  end.

(** [FilterIter]: [while let Some(rec) = input.next_record()?]. *)
Fixpoint filter_iter {R} (f : R → E' bool) (input : Pull W R) : Pull W R :=
  mkPull
    (o ← next input;
     match o with
     | Some (rec, input') =>
         b ← f rec;
         if b : bool then mret (Some (rec, filter_iter f input')) else next (filter_iter f input')
     | None => mret None
     end).

(** [SkipIter] and [LimitIter]. *)
Fixpoint skip_iter {R} (remaining_to_skip : N) (input : Pull W R) : Pull W R :=
  mkPull
    (if N.eqb remaining_to_skip 0 then next input else
     o ← next input;
     match o with
     | Some (_, input') => next (skip_iter (N.pred remaining_to_skip) input')
     | None => mret None
     end).
Fixpoint limit_iter {R} (remaining : N) (input : Pull W R) : Pull W R :=
  mkPull
    (if N.eqb remaining 0 then mret None else
     o ← next input;
     match o with
     | Some (rec, input') => mret (Some (rec, limit_iter (N.pred remaining) input'))
     | None => mret None
     end).

(** One row for each row. *)
Fixpoint map_iter {R R'} (f : R → E' R') (input : Pull W R) : Pull W R' :=
  mkPull
    (o ← next input;
     match o with
     | Some (rec, input') => out ← f rec; mret (Some (out, map_iter f input'))
     | None => mret None
     end).

(** Any number of rows for each row, which are given out before the next row of the
    input is asked for. *)
Fixpoint buffered {R} (buffer : list R) (rest : Pull W R) : Pull W R :=
  match buffer with
  | [] => rest
  | r :: buffer' => mkPull (mret (Some (r, buffered buffer' rest)))
  end.
Fixpoint flat_iter {R R'} (f : R → E' (list R')) (input : Pull W R) : Pull W R' :=
  mkPull
    (o ← next input;
     match o with
     | Some (rec, input') => buffer ← f rec; next (buffered buffer (flat_iter f input'))
     | None => mret None
     end).

(** The distinct rows, and the rows with their sort keys. *)
Fixpoint distinct_drain {R} (eqb : R → R → bool) (deduped : list R) (input : Pull W R)
    : E' (list R) :=
  o ← next input;
  match o with
  | Some (rec, input') =>
      distinct_drain eqb (if List.existsb (λ s, eqb s rec) deduped then deduped else deduped ++ [rec])
        input'
  | None => mret deduped
  end.
Fixpoint tagged_drain {R K} (keys : R → E' K) (input : Pull W R) : E' (list (K * R)) :=
  o ← next input;
  match o with
  | Some (rec, input') => k ← keys rec; rest ← tagged_drain keys input'; mret ((k, rec) :: rest)
  | None => mret []
  end.
End iterators.

(** ** Which plans run on slots *)

(** A variable, a star or a pattern inside the expression. *)
Fixpoint expr_has_bare_variable (e : Expr) : bool :=
  let '(mkExpr kind _) := e in
  let opt o := match o with Some x => expr_has_bare_variable x | None => false end in
  match kind with
  | Variable_ _ | Star => true
  | Literal _ | Parameter_ _ | HasLabel _ _ | Property _ _ => false
  | BinaryOp l _ r => expr_has_bare_variable l || expr_has_bare_variable r
  | Not x | IsNull x | IsNotNull x | DotAccess x _ => expr_has_bare_variable x
  | FunctionCall _ args _ _ => List.existsb expr_has_bare_variable args
  | Case operand alternatives default_ =>
      opt operand
      || List.existsb (λ a : Expr * Expr, let (c, r) := a in
           expr_has_bare_variable c || expr_has_bare_variable r) alternatives
      || opt default_
  | ListLit xs => List.existsb expr_has_bare_variable xs
  | ListComprehension _ list_expr filter_ map_expr =>
      expr_has_bare_variable list_expr || opt filter_ || opt map_expr
  | PatternComprehension _ _ _ _ | Ast.Exists _ _ | ExistsSubquery _ | PatternPredicate _ => true
  | MapLiteral entries => List.existsb (λ p : string * Expr, let (_, v) := p in expr_has_bare_variable v) entries
  | Index x index => expr_has_bare_variable x || expr_has_bare_variable index
  | Slice x start end_ => expr_has_bare_variable x || opt start || opt end_
  | Quantifier _ _ list_expr predicate =>
      expr_has_bare_variable list_expr || expr_has_bare_variable predicate
  end.

(** A pattern or a statement inside the expression. *)
Fixpoint expr_has_pattern_subquery (e : Expr) : bool :=
  let '(mkExpr kind _) := e in
  let opt o := match o with Some x => expr_has_pattern_subquery x | None => false end in
  match kind with
  | Variable_ _ | Star | Literal _ | Parameter_ _ | HasLabel _ _ | Property _ _ => false
  | PatternComprehension _ _ _ _ | Ast.Exists _ _ | ExistsSubquery _ | PatternPredicate _ => true
  | BinaryOp l _ r => expr_has_pattern_subquery l || expr_has_pattern_subquery r
  | Not x | IsNull x | IsNotNull x | DotAccess x _ => expr_has_pattern_subquery x
  | FunctionCall _ args _ _ => List.existsb expr_has_pattern_subquery args
  | Case operand alternatives default_ =>
      opt operand
      || List.existsb (λ a : Expr * Expr, let (c, r) := a in
           expr_has_pattern_subquery c || expr_has_pattern_subquery r) alternatives
      || opt default_
  | ListLit xs => List.existsb expr_has_pattern_subquery xs
  | ListComprehension _ list_expr filter_ map_expr =>
      expr_has_pattern_subquery list_expr || opt filter_ || opt map_expr
  | MapLiteral entries =>
      List.existsb (λ p : string * Expr, let (_, v) := p in expr_has_pattern_subquery v) entries
  | Index x index => expr_has_pattern_subquery x || expr_has_pattern_subquery index
  | Slice x start end_ => expr_has_pattern_subquery x || opt start || opt end_
  | Quantifier _ _ list_expr predicate =>
      expr_has_pattern_subquery list_expr || expr_has_pattern_subquery predicate
  end.

Definition is_project_item_supported (item : ReturnItem Expr) : bool :=
  negb (expr_has_bare_variable (ri_expr item)).

Fixpoint is_slot_supported (plan : LogicalOp) : bool :=
  match plan with
  | Op.EmptyRow | Op.SingleRow | Op.Scan _ _ => true
  | Op.FullTextLookup _ _ _ _ _ _ => false
  | Op.IndexLookup _ _ _ _ remaining_filters =>
      match remaining_filters with Some f => negb (expr_has_bare_variable f) | None => true end
  | Op.Filter input predicate => is_slot_supported input && negb (expr_has_bare_variable predicate)
  | Op.Project input items _ => is_slot_supported input && forallb is_project_item_supported items
  | Op.Aggregate input group_keys aggregates =>
      is_slot_supported input
      && forallb (λ e, negb (expr_has_pattern_subquery e)) group_keys
      && forallb (λ a, negb (expr_has_pattern_subquery (ag_input a))) aggregates
  | Op.Skip input _ | Op.Limit input _ | Op.Distinct input => is_slot_supported input
  | Op.Sort input items =>
      is_slot_supported input && forallb (λ s, negb (expr_has_bare_variable (si_expr s))) items
  | Op.Unwind input e _ => is_slot_supported input && negb (expr_has_pattern_subquery e)
  | Op.Expand input _ _ _ _ _ _ _ _ filters _ =>
      is_slot_supported input
      && forallb (λ p : string * Expr, negb (expr_has_bare_variable p.2)) (map_to_list filters)
  | Op.CrossProduct _ _ _ | Op.CorrelatedJoin _ _ _ | Op.LeftOuterJoin _ _ _ _
  | Op.CreateNode _ _ _ | Op.CreateEdge _ _ _ _ _ | Op.CreateSequence _ | Op.MatchCreate _ _
  | Op.Delete _ _ _ | Op.SetProperty _ _ | Op.SetLabel _ _ _ | Op.SetProperties _ _ _ _
  | Op.Remove _ _ | Op.Merge _ _ _ | Op.MatchMerge _ _ _ _ | Op.CreateIndex _ _
  | Op.DropIndex _ _ => true
  | _ => false
  end.

(** ** Rows in slots *)

(** [named_to_slot]: the fields that the schema names. *)
Fixpoint fill_slots (named : NamedRecord) (slots : list (N * string)) (rec : SlotRecord)
    : Res SlotRecord :=
  match slots with
  | [] => Ok rec
  | (slot, name) :: slots' =>
      match NamedRecord.get name named with
      | Some v => SlotRecord.set slot v rec
      | None => Ok rec
      end ≫= λ rec : SlotRecord, fill_slots named slots' rec
  end.
Definition empty_row (schema : RecordSchema) : SlotRecord :=
  SlotRecord.with_capacity (RecordSchema.len schema).
Definition named_to_slot (schema : RecordSchema) (named : NamedRecord) : Res SlotRecord :=
  RecordSchema.iter schema ≫= λ slots : list (N * string), fill_slots named slots (empty_row schema).

(** Fields written one by one; those without a slot are dropped. *)
Fixpoint write_slots (schema : RecordSchema) (fields : list (string * value)) (rec : SlotRecord)
    : Res SlotRecord :=
  match fields with
  | [] => Ok rec
  | (name, v) :: fields' =>
      set_named schema name v rec ≫= λ rec : SlotRecord, write_slots schema fields' rec
  end.
Definition node_to_slot_record (alias : string) (schema : RecordSchema) (n : Node) : Res SlotRecord :=
  write_slots schema
    ([(alias, id_value (node_id n)); (dot alias "__id", id_value (node_id n));
      (dot alias "__label", Value.String (join ":" (node_labels n)));
      (dot alias "__labels", label_values (node_labels n))]
     ++ ((λ p : string * value, (dot alias p.1, p.2)) <$> map_to_list (node_properties n)))
    (empty_row schema).
Definition materialize_named : RecordSchema → SlotRecord → Res NamedRecord := slot_to_named.

(** The slots of a row that the schema of the result also has. *)
Fixpoint carry_forward (output_schema : RecordSchema) (base : SlotRecord) (slots : list (N * string))
    (out : SlotRecord) : Res SlotRecord :=
  match slots with
  | [] => Ok out
  | (in_slot, name) :: slots' =>
      match RecordSchema.slot name output_schema with
      | Some out_slot =>
          SlotRecord.get in_slot base ≫= λ v : value, SlotRecord.set out_slot v out
      | None => Ok out
      end ≫= λ out : SlotRecord, carry_forward output_schema base slots' out
  end.
(** [UnwindSlotIter::project]: what the named row has under the alias goes on top. *)
Definition unwind_project (alias : string) (input_schema output_schema : RecordSchema)
    (base : SlotRecord) (named : NamedRecord) : Res SlotRecord :=
  RecordSchema.iter input_schema ≫= λ slots : list (N * string),
  carry_forward output_schema base slots (empty_row output_schema) ≫= λ out : SlotRecord,
  write_slots output_schema
    (List.filter (λ e : string * value, String.eqb e.1 alias || str_starts (alias +:+ ".") e.1)
       (NamedRecord.fields named)) out.
(** Here the entries of a map become fields as well. *)
Definition bind_unwound_slot (alias : string) (item : value) (rec : NamedRecord) : NamedRecord :=
  match item with
  | Value.Map entries => set_props alias entries (NamedRecord.set alias item rec)
  | _ => bind_unwound alias item rec
  end.

Definition slot_rows_equal (a b : SlotRecord) : bool :=
  Nat.eqb (SlotRecord.len a) (SlotRecord.len b)
  && forallb2 value_eqb (SlotRecord.values a) (SlotRecord.values b).

Definition property_deleted_var (e : Expr) (schema : RecordSchema) (rec : SlotRecord) : Res bool :=
  match expr_kind e with
  | Property var _ =>
      match RecordSchema.slot (dot var "__deleted") schema with
      | Some slot => SlotRecord.get slot rec ≫= λ v : value, Ok (is_true v)
      | None => Ok false
      end
  | _ => Ok false
  end.

(** ** Building the iterators *)
Section build.
Context {Ch : Chrono} {Co : ChronoOrder} {Lm : Libm} {Un : Unicode} {Db : DebugText}.
Context {conn : Type} {O : SqlOps conn} {Mp : Msgpack} {Fm : FtsMatch conn} {Fs : FtsSearch conn}.
Context {S : Type} (X : Effects S) (Q : conn → Subqueries S) (T : conn → Traversals).
Context (params : option (gmap string value)) (procedures : ProcedureRegistry) (ctx : Limits).
Abbreviation W := (conn * S)%type.
Abbreviation E' := (M W GraphError).
Abbreviation ev := (eval X Q params).

(** *** Slot rows *)
Abbreviation SlotIter := (Pull W SlotRecord).

Definition EmptyRowSlotIter : SlotIter := vec_iter [SlotRecord.new].
Definition VecSlotIter (records : list SlotRecord) : SlotIter := vec_iter records.
Definition MaterializedSlotIter (records : list NamedRecord) (schema : RecordSchema) : SlotIter :=
  map_iter (λ r, lift (named_to_slot schema r)) (vec_iter records).
Definition SkipSlotIter (input : SlotIter) (remaining_to_skip : N) : SlotIter :=
  skip_iter remaining_to_skip input.
Definition LimitSlotIter (input : SlotIter) (remaining : N) : SlotIter := limit_iter remaining input.
Definition DistinctSlotIter (input : SlotIter) : SlotIter :=
  blocking (distinct_drain slot_rows_equal [] input).
Definition SlotToNamedAdapter (schema : RecordSchema) (input : SlotIter) : Pull W NamedRecord :=
  map_iter (λ r, lift (materialize_named schema r)) input.
Definition NamedToSlotAdapter (input : Pull W NamedRecord) (schema : RecordSchema) : SlotIter :=
  map_iter (λ r, lift (named_to_slot schema r)) input.

Definition slot_holds (predicate : Expr) (schema : RecordSchema) (rec : SlotRecord) : E' bool :=
  holds (ev predicate (slot_view schema rec)).
Definition FilterSlotIter (input : SlotIter) (schema : RecordSchema) (predicate : Expr) : SlotIter :=
  filter_iter (slot_holds predicate schema) input.

Definition eval_project_item (e : Expr) (input_schema : RecordSchema) (input_rec : SlotRecord)
    : E' value :=
  let view := slot_view input_schema input_rec in
  match expr_kind e with
  | Literal lit => mret (literal_to_value lit)
  | Property var prop =>
      is_deleted ← lift (property_deleted_var e input_schema input_rec);
      if is_deleted : bool then ev e view else
      match RecordSchema.slot (dot var prop) input_schema with
      | Some slot => lift (SlotRecord.get slot input_rec)
      | None => ev e view
      end
  | _ => ev e view
  end.
(** The slot of the input that holds the value of an item, if there is one. *)
Definition computed_slot (item : ReturnItem Expr) (input_schema : RecordSchema) : option N :=
  let e := ri_expr item in
  match RecordSchema.slot (expr_to_column_name e) input_schema with
  | Some slot => Some slot
  | None =>
      if negb (String.eqb (return_item_name item) (expr_to_column_name e)) && is_aggregate_call e
      then RecordSchema.slot (return_item_name item) input_schema else None
  end.
Definition slot_item (item : ReturnItem Expr) (input_schema : RecordSchema) (input_rec : SlotRecord)
    : E' value :=
  deleted_var ← lift (property_deleted_var (ri_expr item) input_schema input_rec);
  match (if deleted_var : bool then None else computed_slot item input_schema) with
  | Some slot => lift (SlotRecord.get slot input_rec)
  | None => eval_project_item (ri_expr item) input_schema input_rec
  end.
Fixpoint project_slot_items (items : list (ReturnItem Expr)) (input_schema output_schema : RecordSchema)
    (input_rec out : SlotRecord) : E' SlotRecord :=
  match items with
  | [] => mret out
  | item :: items' =>
      out ← match RecordSchema.slot (return_item_name item) output_schema with
            | Some out_slot =>
                v ← slot_item item input_schema input_rec;
                lift (SlotRecord.set out_slot v out)
            | None => mret out
            end;
      project_slot_items items' input_schema output_schema input_rec out
  end.
Definition project_slot (items : list (ReturnItem Expr)) (input_schema output_schema : RecordSchema)
    (input_rec : SlotRecord) : E' SlotRecord :=
  project_slot_items items input_schema output_schema input_rec (empty_row output_schema).
Definition ProjectSlotIter (input : SlotIter) (items : list (ReturnItem Expr))
    (input_schema output_schema : RecordSchema) : SlotIter :=
  map_iter (project_slot items input_schema output_schema) input.

Definition unwind_slot (e : Expr) (alias : string) (input_schema output_schema : RecordSchema)
    (input_rec : SlotRecord) : E' (list SlotRecord) :=
  val ← ev e (slot_view input_schema input_rec);
  match val with
  | Value.List [] => mret []
  | Value.List items =>
      view ← lift (materialize_named input_schema input_rec);
      lift (collect (λ item, unwind_project alias input_schema output_schema input_rec
                               (bind_unwound_slot alias item view)) items)
  | Value.Null => mret []
  | _ => throw (GraphError.semantic ("UNWIND requires a list, got: " +:+ value_display val))
  end.
Definition UnwindSlotIter (input : SlotIter) (e : Expr) (alias : string)
    (input_schema output_schema : RecordSchema) : SlotIter :=
  flat_iter (unwind_slot e alias input_schema output_schema) input.

Fixpoint compare_keys (items : list (SortItem Expr)) (a b : list value) : Res comparison :=
  match items, a, b with
  | item :: items', va :: a', vb :: b' =>
      compare_values_for_sort va vb ≫= λ o : comparison,
      match (if si_descending item then CompOpp o else o) with
      | Eq => compare_keys items' a' b'
      | o => Ok o
      end
  | [], _, _ => Ok Eq
  | _, _, _ => Panic
  end.
(** The keys of a row are evaluated once, when the row is drained. *)
Definition sort_slots (items : list (SortItem Expr)) (schema : RecordSchema) (input : SlotIter)
    : E' (list SlotRecord) :=
  tagged ← tagged_drain (λ rec,
    collect_m (λ si : SortItem Expr, or_null (ev (si_expr si) (slot_view schema rec))) items) input;
  sorted ← sort_by_m (λ a b : list value * SlotRecord, lift (compare_keys items a.1 b.1)) tagged;
  mret (snd <$> (sorted : list (list value * SlotRecord))).
Definition SortSlotIter (input : SlotIter) (schema : RecordSchema) (items : list (SortItem Expr))
    : SlotIter := blocking (sort_slots items schema input).

Definition AggregateSlotIter (input : SlotIter) (group_keys : list Expr)
    (aggregates : list AggregateExpr) (input_schema output_schema : RecordSchema) : SlotIter :=
  blocking
    (slot_inputs ← collect_all input;
     aggregate_slot_records ev input_schema slot_inputs output_schema group_keys aggregates).

(** [ExpandIter::next_record] on one row of the input. *)
Definition expand_iter (x : ExpandOp) (filters : gmap string Expr) (rec : NamedRecord)
    : E' (list NamedRecord) :=
  reading_r (λ c, expand_record c (T c) x (literal_filters filters) None (max_traversal_work ctx) rec).

Definition infer (refs : PropertyRefs) (plan : LogicalOp) : E' RecordSchema :=
  lift (infer_with_props refs plan).

(** An operator without an iterator of its own. *)
Definition bridge (refs : PropertyRefs) (plan : LogicalOp) : E' (RecordSchema * SlotIter) :=
  output_schema ← infer refs plan;
  records ← exec X Q T params procedures ctx plan;
  mret (output_schema, MaterializedSlotIter records output_schema).

(** The iterator of a plan, with the schema of its rows. *)
Fixpoint build_slot_iter_inner (refs : PropertyRefs) (plan : LogicalOp)
    : E' (RecordSchema * SlotIter) :=
  let over input (f : RecordSchema → SlotIter → E' (RecordSchema * SlotIter)) :=
    i ← build_slot_iter_inner refs input; f i.1 i.2 in
  match plan with
  | Op.EmptyRow | Op.SingleRow => mret (RecordSchema.new, EmptyRowSlotIter)
  | Op.Scan label alias =>
      schema ← infer refs plan;
      nodes ← reading_r (find_nodes_by_label label);
      records ← lift (collect (node_to_slot_record alias schema) nodes);
      mret (schema, VecSlotIter records)
  | Op.IndexLookup label alias index_properties lookups remaining_filters =>
      schema ← infer refs plan;
      node_ids ← reading_r (λ c, index_lookup_ids c params label index_properties lookups);
      records ← collect_m (λ id, n ← reading_r (get_node id);
                                 lift (node_to_slot_record alias schema n)) node_ids;
      mret (schema, match remaining_filters with
                    | Some f => FilterSlotIter (VecSlotIter records) schema f
                    | None => VecSlotIter records
                    end)
  | Op.Filter input predicate =>
      over input (λ schema i, mret (schema, FilterSlotIter i schema predicate))
  | Op.Expand input src dst rel types direction lo hi var_length filters _ =>
      over input (λ input_schema i,
        output_schema ← infer refs plan;
        mret (output_schema, NamedToSlotAdapter
          (flat_iter (expand_iter (mkExpand src dst rel types direction lo hi var_length) filters)
             (SlotToNamedAdapter input_schema i)) output_schema))
  | Op.Aggregate input group_keys aggregates =>
      over input (λ input_schema i,
        output_schema ← infer refs plan;
        mret (output_schema, AggregateSlotIter i group_keys aggregates input_schema output_schema))
  | Op.Skip input count => over input (λ schema i, mret (schema, SkipSlotIter i count))
  | Op.Limit input count => over input (λ schema i, mret (schema, LimitSlotIter i count))
  | Op.Distinct input => over input (λ schema i, mret (schema, DistinctSlotIter i))
  | Op.Sort input items => over input (λ schema i, mret (schema, SortSlotIter i schema items))
  | Op.Unwind input e alias =>
      over input (λ input_schema i,
        output_schema ← infer refs plan;
        mret (output_schema, UnwindSlotIter i e alias input_schema output_schema))
  | Op.Project input items _ =>
      over input (λ input_schema i,
        output_schema ← infer refs plan;
        mret (output_schema, ProjectSlotIter i items input_schema output_schema))
  | Op.CrossProduct _ _ _ | Op.CorrelatedJoin _ _ _ | Op.LeftOuterJoin _ _ _ _
  | Op.CreateNode _ _ _ | Op.CreateEdge _ _ _ _ _ | Op.CreateSequence _ | Op.MatchCreate _ _
  | Op.Delete _ _ _ | Op.SetProperty _ _ | Op.SetLabel _ _ _ | Op.SetProperties _ _ _ _
  | Op.Remove _ _ | Op.Merge _ _ _ | Op.MatchMerge _ _ _ _ | Op.CreateIndex _ _
  | Op.DropIndex _ _ => bridge refs plan
  | _ => unreachable
  end.
Definition build_slot_iter (plan : LogicalOp) : E' (RecordSchema * SlotIter) :=
  build_slot_iter_inner (collect_property_refs plan ∅) plan.

Definition collect_to_named (schema : RecordSchema) (i : SlotIter) : E' (list NamedRecord) :=
  collect_all (map_iter (λ rec, lift (slot_to_named schema rec)) i).

(** [execute_with_ctx]. *)
Definition run_plan_rows (plan : LogicalOp) : E' (list NamedRecord) :=
  if is_slot_supported plan then
    i ← build_slot_iter plan; collect_to_named i.1 i.2
  else exec X Q T params procedures ctx plan.
Definition execute_plan (plan : LogicalOp) : E' (list NamedRecord) :=
  _ ← lift (validate_traversal_depth plan (max_traversal_depth ctx));
  result ← run_plan_rows plan;
  mret (if is_bare_write plan then [] else result).
End build.

(** *** Named rows: iter.rs *)
Section named.
Context {Ch : Chrono} {Co : ChronoOrder} {Lm : Libm} {Un : Unicode} {Db : DebugText}.
Context {conn : Type} {O : SqlOps conn} {Mp : Msgpack} {Fm : FtsMatch conn} {Fs : FtsSearch conn}.
Context {S : Type} (X : Effects S) (Q : conn → Subqueries S) (T : conn → Traversals).
Context (params : option (gmap string value)).
Abbreviation W := (conn * S)%type.
Abbreviation E' := (M W GraphError).
Abbreviation ev := (eval X Q params).
Abbreviation RecordIter := (Pull W NamedRecord).

(** Here a star keeps the fields that [is_user_visible_field] lets through. *)
Definition star_iter_field (bound_vars : list string) (projected : NamedRecord) (e : string * value)
    : NamedRecord :=
  if negb (is_user_visible_field e.1) then projected else
  match split_once "." e.1 with
  | Some (owner, _) => if bool_decide (owner ∈ bound_vars) then projected
                       else NamedRecord.set e.1 e.2 projected
  | None => NamedRecord.set e.1 e.2 projected
  end.
Definition star_iter (emit_compound : bool) (rec projected : NamedRecord) : Res NamedRecord :=
  if emit_compound then
    compound_binding_vars (named_view rec) ≫= λ bound_vars : list string,
    set_compounds rec bound_vars projected ≫= λ projected : NamedRecord,
    Ok (foldl (star_iter_field bound_vars) projected (NamedRecord.fields rec))
  else Ok (merge_over rec projected).

Definition project_iter_item (emit_compound : bool) (rec projected : NamedRecord)
    (item : ReturnItem Expr) : E' NamedRecord :=
  let e := ri_expr item in
  match expr_kind e with
  | Star => lift (star_iter emit_compound rec projected)
  | Variable_ var => project_variable ev emit_compound e var (default var (ri_alias item)) rec projected
  | _ =>
      let col_name := return_item_name item in
      val ← match NamedRecord.get col_name rec with
            | Some existing => mret existing
            | None => ev_in ev e rec
            end;
      mret (NamedRecord.set col_name val projected)
  end.
Definition project_iter_row (items : list (ReturnItem Expr)) (emit_compound : bool) (rec : NamedRecord)
    : E' NamedRecord :=
  fold_m (project_iter_item emit_compound rec) NamedRecord.new items.

Definition index_row_iter (alias : string) (remaining_filters : option Expr) (id : N)
    : E' (list NamedRecord) :=
  n ← reading_r (get_node id);
  let rec := node_to_record n alias in
  ok ← passes ev remaining_filters rec;
  mret (if ok : bool then [rec] else []).

Fixpoint build_iter (max_traversal_work : N) (plan : LogicalOp) : E' RecordIter :=
  let over input (f : RecordIter → E' RecordIter) :=
    i ← build_iter max_traversal_work input; f i in
  match plan with
  | Op.EmptyRow => mret (vec_iter [NamedRecord.new])
  | Op.Scan label alias =>
      nodes ← reading_r (find_nodes_by_label label);
      mret (vec_iter ((λ n, node_to_record n alias) <$> (nodes : list Node)))
  | Op.IndexLookup label alias index_properties lookups remaining_filters =>
      node_ids ← reading_r (λ c, index_lookup_ids c params label index_properties lookups);
      records ← concat_m (index_row_iter alias remaining_filters) node_ids;
      mret (vec_iter records)
  | Op.Filter input predicate => over input (λ i, mret (filter_iter (holds_in ev predicate) i))
  | Op.Skip input count => over input (λ i, mret (skip_iter count i))
  | Op.Limit input count => over input (λ i, mret (limit_iter count i))
  | Op.Project input items emit_compound =>
      over input (λ i, mret (map_iter (project_iter_row items emit_compound) i))
  | Op.Expand input src dst rel types direction lo hi var_length filters _ =>
      over input (λ i, mret (flat_iter
        (expand_iter T (mkLimits 0 0 max_traversal_work)
           (mkExpand src dst rel types direction lo hi var_length) filters) i))
  | Op.Distinct input =>
      over input (λ i, records ← collect_all i; mret (vec_iter (distinct_records records)))
  | Op.Sort input items =>
      over input (λ i, records ← collect_all i; sorted ← sort_records ev items records;
                       mret (vec_iter sorted))
  | Op.FullTextLookup label alias property op term remaining_filters =>
      records ← reading (λ c, exec_fulltext_lookup c ev label alias property op term
                                remaining_filters NamedRecord.new);
      mret (vec_iter records)
  | _ => records ← exec_default X Q T params plan; mret (vec_iter records)
  end.

(** [execute]. *)
Definition execute (plan : LogicalOp) : E' (list NamedRecord) :=
  _ ← lift (validate_traversal_depth plan (max_traversal_depth default_limits));
  if is_read_only plan then
    i ← build_iter (max_traversal_work default_limits) plan; collect_all i
  else
    result ← exec_default X Q T params plan;
    mret (if is_bare_write plan then [] else result).
(** The subqueries of EXISTS: [execute_first_match] with [execute] as its fallback. *)
Definition first_match_of (bindings : list (string * value)) (plan : LogicalOp) : E' bool :=
  execute_first_match X Q T params execute bindings plan.
End named.

(** ** Statements inside expressions

    [eval_exists], [eval_exists_subquery] and [eval_pattern_comprehension] plan what is
    inside of them and run the plan.  The two planners are arguments.  The parser
    refuses updating clauses there, so the plans only read and the connection after
    them is the one before.  A statement inside an expression of another one is a
    level deeper. *)
Section subqueries.
Context {Ch : Chrono} {Co : ChronoOrder} {Lm : Libm} {Un : Unicode} {Db : DebugText}.
Context {conn : Type} {O : SqlOps conn} {Mp : Msgpack} {Fm : FtsMatch conn} {Fs : FtsSearch conn}.
Context {S : Type} (X : Effects S) (T : conn → Traversals) (params : option (gmap string value)).
Context (plan_patterns : conn → list (Pattern Expr) → Res LogicalOp).
Context (plan_subquery : conn → Statement → Res LogicalOp).

Definition at_conn {A} (c : conn) (m : M (conn * S) GraphError A) : M S GraphError A := λ s,
  let '((_, s'), r) := m (c, s) in (s', r).
Definition with_where (where_clause : option Expr) (op : LogicalOp) : LogicalOp :=
  match where_clause with Some predicate => Op.Filter op predicate | None => op end.

Definition exists_planned (Q : conn → Subqueries S) (c : conn) (patterns : list (Pattern Expr))
    (where_clause : option Expr) (outer_bindings : list (string * value)) : M S GraphError bool :=
  op ← lift (plan_patterns c patterns);
  at_conn c (first_match_of X Q T params outer_bindings (with_where where_clause op)).
Definition subquery_planned (Q : conn → Subqueries S) (c : conn) (stmt : Statement)
    (outer : NamedRecord) : M S GraphError bool :=
  base_plan ← lift (plan_subquery c stmt);
  at_conn c (exec_correlated_exists X Q T params base_plan outer).
Definition pattern_rows_planned (Q : conn → Subqueries S) (c : conn) (pat : Pattern Expr)
    (where_clause : option Expr) (outer_rec : NamedRecord) : M S GraphError (list NamedRecord) :=
  op ← lift (plan_patterns c [pat]);
  at_conn c (exec_correlated_subquery X Q T params (with_where where_clause op) outer_rec).

Fixpoint subqueries (depth : nat) (c : conn) : Subqueries S :=
  match depth with
  | 0%nat => mkSubqueries (λ _ _ _, lift Panic) (λ _ _, lift Panic) (λ _ _ _, lift Panic)
  | Datatypes.S depth' =>
      let Q := subqueries depth' in
      mkSubqueries (exists_planned Q c) (subquery_planned Q c) (pattern_rows_planned Q c)
  end.
End subqueries.
