(* ===== verification/Simulate.v ===== *)
(** * Two computations in step

    [msim I R m1 m2]: from states related by [I] the two computations end in states
    related by [I], both with a value, the values related by [R], both with the same
    error, or both in a panic. *)
From S2P Require Export Executor Params Caches.

Definition rsim {E A B} (R : A → B → Prop) (r1 : result E A) (r2 : result E B) : Prop :=
  match r1, r2 with
  | Ok a, Ok b => R a b
  | Err e1, Err e2 => e1 = e2
  | Panic, Panic => True
  | _, _ => False
  end.
Definition msim {S1 S2 E A B} (I : S1 → S2 → Prop) (R : A → B → Prop)
    (m1 : M S1 E A) (m2 : M S2 E B) : Prop :=
  ∀ s1 s2, I s1 s2 → I (m1 s1).1 (m2 s2).1 ∧ rsim R (m1 s1).2 (m2 s2).2.

Create HintDb sim discriminated.

Section msim.
Context {S1 S2 E : Type} (I : S1 → S2 → Prop).

Lemma rsim_eq {A} (r1 r2 : result E A) : rsim eq r1 r2 ↔ r1 = r2.
Proof. destruct r1, r2; simpl; naive_solver. Qed.
Lemma rsim_refl {A} (r : result E A) : rsim eq r r.
Proof. by apply rsim_eq. Qed.

Lemma msim_ret {A B} (R : A → B → Prop) a b :
  R a b → msim I R (mret a : M S1 E A) (mret b : M S2 E B).
Proof. intros H s1 s2 Hs. by split. Qed.
Lemma msim_lift {A B} (R : A → B → Prop) r1 r2 :
  rsim R r1 r2 → msim I R (lift r1 : M S1 E A) (lift r2 : M S2 E B).
Proof. intros H s1 s2 Hs. by split. Qed.
Lemma msim_lift_eq {A} (r : result E A) : msim I eq (lift r) (lift r).
Proof. apply msim_lift, rsim_refl. Qed.
Lemma msim_throw {A B} (R : A → B → Prop) (e : E) :
  msim I R (throw e : M S1 E A) (throw e : M S2 E B).
Proof. intros s1 s2 Hs. by split. Qed.

Lemma msim_bind {A1 A2 B1 B2} (R : A1 → A2 → Prop) (Q : B1 → B2 → Prop)
    (m1 : M S1 E A1) (m2 : M S2 E A2) (f1 : A1 → M S1 E B1) (f2 : A2 → M S2 E B2) :
  msim I R m1 m2 → (∀ a1 a2, R a1 a2 → msim I Q (f1 a1) (f2 a2)) →
  msim I Q (m1 ≫= f1) (m2 ≫= f2).
Proof.
  intros Hm Hf s1 s2 Hs. destruct (Hm s1 s2 Hs) as [Hs' Hr].
  unfold mbind, M_bind. destruct (m1 s1) as [s1' [a1|e1|]], (m2 s2) as [s2' [a2|e2|]];
    simpl in *; try done; by apply Hf.
Qed.
(** The common case: both bind the same value. *)
Lemma msim_bind_eq {A B1 B2} (Q : B1 → B2 → Prop)
    (m1 : M S1 E A) (m2 : M S2 E A) (f1 : A → M S1 E B1) (f2 : A → M S2 E B2) :
  msim I eq m1 m2 → (∀ a, msim I Q (f1 a) (f2 a)) → msim I Q (m1 ≫= f1) (m2 ≫= f2).
Proof. intros Hm Hf. eapply msim_bind; [exact Hm|]. by intros a ? <-. Qed.

Lemma msim_ok_m {A B} (R : A → B → Prop) (m1 : M S1 E A) (m2 : M S2 E B) :
  msim I R m1 m2 → msim I (option_Forall2 R) (ok_m m1) (ok_m m2).
Proof.
  intros Hm s1 s2 Hs. destruct (Hm s1 s2 Hs) as [Hs' Hr]. unfold ok_m.
  destruct (m1 s1) as [s1' [a1|e1|]], (m2 s2) as [s2' [a2|e2|]]; simpl in *; try done;
    split; try done; by constructor.
Qed.
Lemma msim_or_null (m1 : M S1 E value) (m2 : M S2 E value) :
  msim I eq m1 m2 → msim I eq (or_null m1) (or_null m2).
Proof.
  intros Hm. eapply msim_bind; [by apply msim_ok_m|].
  intros o1 o2 Ho. apply msim_ret. by destruct Ho as [? ? ->|].
Qed.

Lemma msim_mono {A B} (R Q : A → B → Prop) (m1 : M S1 E A) (m2 : M S2 E B) :
  msim I R m1 m2 → (∀ a b, R a b → Q a b) → msim I Q m1 m2.
Proof.
  intros Hm HQ s1 s2 Hs. destruct (Hm s1 s2 Hs) as [Hs' Hr]. split; [done|].
  destruct (m1 s1) as [? []], (m2 s2) as [? []]; simpl in *; auto.
Qed.
End msim.

(** A computation is in step with itself. *)
Lemma msim_same {S E A} (m : M S E A) : msim eq eq m m.
Proof. intros s ? <-. split; [done|apply rsim_refl]. Qed.

Section collections.
Context {S1 S2 : Type} (I : S1 → S2 → Prop).

Lemma msim_collect_m {A1 A2 B1 B2} (P : A1 → A2 → Prop) (R : B1 → B2 → Prop)
    (f1 : A1 → M S1 GraphError B1) (f2 : A2 → M S2 GraphError B2) l1 l2 :
  Forall2 P l1 l2 → (∀ x y, P x y → msim I R (f1 x) (f2 y)) →
  msim I (Forall2 R) (collect_m f1 l1) (collect_m f2 l2).
Proof.
  intros Hl Hf. induction Hl as [|x y l1 l2 Hxy _ IH]; [apply msim_ret; constructor|].
  eapply msim_bind; [by apply Hf|]. intros a b Hab.
  eapply msim_bind; [exact IH|]. intros la lb Hlab. apply msim_ret. by constructor.
Qed.
Lemma msim_collect_m_eq {A B} (f1 : A → M S1 GraphError B) (f2 : A → M S2 GraphError B) l :
  (∀ x, x ∈ l → msim I eq (f1 x) (f2 x)) → msim I eq (collect_m f1 l) (collect_m f2 l).
Proof.
  intros Hf. eapply msim_mono.
  - apply (msim_collect_m (λ x y, x = y ∧ x ∈ l) eq); [|by intros x ? [<- Hx]; apply Hf].
    apply Forall2_same_length_lookup_2; [done|]. intros i x y Hx Hy.
    rewrite Hx in Hy. injection Hy as ->. split; [done|]. by eapply list_elem_of_lookup_2.
  - intros a b H. by apply list_eq_Forall2.
Qed.
End collections.
#[export] Hint Resolve msim_lift_eq msim_throw msim_or_null : sim.

(** Steps through two computations of the same shape. *)
Ltac sim_step :=
  match goal with
  | |- msim _ _ (mbind _ _) (mbind _ _) => apply msim_bind_eq; [|intros ?]
  | |- msim _ eq (mret _) (mret _) => apply msim_ret; reflexivity
  | |- msim _ _ (lift ?r) (lift ?r) => apply msim_lift_eq
  | |- msim _ _ (throw _) (throw _) => apply msim_throw
  | |- msim _ _ (match ?x with _ => _ end) (match ?x with _ => _ end) => destruct x
  | |- msim _ _ ((match ?x with _ => _ end) _) _ => destruct x
  | |- msim _ _ (if ?x then _ else _) (if ?x then _ else _) => destruct x
  end.
Ltac sim_steps := repeat (first [ solve [eauto with sim] | sim_step ]).

(** * Evaluation in two states

    An expression evaluates alike in two kinds of states whose effects and
    subqueries answer alike.  So the regex cache of a query changes nothing but its
    speed. *)

Lemma table_get_sim {A B} (R : A → B → Prop) name (l1 : list (string * A)) (l2 : list (string * B)) :
  Forall2 (λ x y, x.1 = y.1 ∧ R x.2 y.2) l1 l2 →
  option_Forall2 R (table_get name l1) (table_get name l2).
Proof.
  unfold table_get. induction 1 as [|[k a] [k' b] l1 l2 [E Hab] _ IH]; [constructor|].
  simpl in E, Hab. subst k'. cbn [List.find fst]. destruct (String.eqb k name); [by constructor|].
  exact IH.
Qed.

Section sim.
Context {Ch : Chrono} {Co : ChronoOrder} {Lm : Libm} {Un : Unicode}.
Context {conn : Type} {O : SqlOps conn} {Mp : Msgpack}.
Context {S1 S2 : Type} (I : S1 → S2 → Prop) (X1 : Effects S1) (X2 : Effects S2).
Context (Q1 : Subqueries S1) (Q2 : Subqueries S2) (c : conn) (params : option (gmap string value)).

Record effects_agree : Prop := {
  ea_match l r : msim I eq (eff_is_match X1 l r) (eff_is_match X2 l r);
  ea_random : msim I eq (eff_random X1) (eff_random X2) }.
Record subqueries_agree : Prop := {
  sa_first ps w l : msim I eq (first_match Q1 ps w l) (first_match Q2 ps w l);
  sa_exists st r : msim I eq (correlated_exists Q1 st r) (correlated_exists Q2 st r);
  sa_rows p w r : msim I eq (correlated_rows Q1 p w r) (correlated_rows Q2 p w r) }.
Context (HX : effects_agree) (HQ : subqueries_agree).

(** ** Function calls *)
Abbreviation vals_sim := (Forall2 (msim I (@eq value) (E := GraphError))).
Context (record : RecordView).

Lemma opt_arg_sim v1 v2 i : vals_sim v1 v2 → msim I eq (opt_arg v1 i) (opt_arg v2 i).
Proof.
  intros Hv. unfold opt_arg. pose proof (proj1 (Forall2_lookup _ v1 v2) Hv i) as H. destruct H as [m1 m2 H|]; [|by sim_step].
  apply msim_bind_eq; [done|]. intros a. by sim_step.
Qed.
Lemma single_arg_sim v1 v2 : vals_sim v1 v2 → msim I eq (eval_single_arg v1) (eval_single_arg v2).
Proof.
  intros Hv. apply msim_bind_eq; [by apply opt_arg_sim|]. intros a. by sim_step.
Qed.
Lemma or_else_sim {A} (m1 : M S1 GraphError (option A)) (m2 : M S2 GraphError (option A)) r1 r2 :
  msim I eq m1 m2 → msim I eq r1 r2 → msim I eq (or_else m1 r1) (or_else m2 r2).
Proof. intros Hm Hr. apply msim_bind_eq; [done|]. intros [a|]; [by sim_step|done]. Qed.
Lemma when_var_sim {A} args (f1 : string → M S1 GraphError (option A)) (f2 : string → M S2 GraphError (option A)) :
  (∀ v, msim I eq (f1 v) (f2 v)) → msim I eq (when_var args f1) (when_var args f2).
Proof. intros Hf. unfold when_var. destruct (first_var args); [apply Hf|by sim_step]. Qed.
Lemma field_sim k : msim I eq (field (S := S1) record k) (field (S := S2) record k).
Proof. apply msim_lift_eq. Qed.
Lemma node_of_field_sim o : msim I eq (node_of_field (S := S1) c o) (node_of_field (S := S2) c o).
Proof. unfold node_of_field. destruct (int_field o); [apply msim_lift_eq|by sim_step]. Qed.
#[local] Hint Resolve opt_arg_sim single_arg_sim field_sim node_of_field_sim : sim.

Ltac fn_sim :=
  intros; repeat (first
    [ solve [eauto with sim]
    | apply or_else_sim | apply when_var_sim; intros ? | sim_step ]).

Lemma keys_of_var_sim v : msim I eq (keys_of_var (S := S1) c record v) (keys_of_var (S := S2) c record v).
Proof. unfold keys_of_var. fn_sim. Qed.
Lemma labels_of_var_sim v :
  msim I eq (labels_of_var (S := S1) c record v) (labels_of_var (S := S2) c record v).
Proof. unfold labels_of_var. fn_sim. Qed.
Lemma type_of_var_sim v : msim I eq (type_of_var (S := S1) record v) (type_of_var (S := S2) record v).
Proof. unfold type_of_var. fn_sim. Qed.
Lemma properties_of_var_sim v :
  msim I eq (properties_of_var (S := S1) record v) (properties_of_var (S := S2) record v).
Proof. unfold properties_of_var. fn_sim. Qed.
#[local] Hint Resolve keys_of_var_sim labels_of_var_sim type_of_var_sim properties_of_var_sim : sim.

Abbreviation call_sim f1 f2 := (∀ args v1 v2, vals_sim v1 v2 → msim I eq (f1 args v1) (f2 args v2)).

Lemma fn_keys_sim : call_sim (fn_keys (S := S1) c record) (fn_keys (S := S2) c record).
Proof. unfold fn_keys. fn_sim. Qed.
Lemma fn_labels_sim : call_sim (fn_labels (S := S1) c record) (fn_labels (S := S2) c record).
Proof. unfold fn_labels. fn_sim. Qed.
Lemma fn_id_sim : call_sim (fn_id (S := S1) record) (fn_id (S := S2) record).
Proof. unfold fn_id. fn_sim. Qed.
Lemma fn_score_sim args : msim I eq (fn_score (S := S1) record args) (fn_score (S := S2) record args).
Proof. unfold fn_score. fn_sim. Qed.
Lemma fn_type_sim : call_sim (fn_type (S := S1) record) (fn_type (S := S2) record).
Proof. unfold fn_type. fn_sim. Qed.
Lemma fn_properties_sim : call_sim (fn_properties (S := S1) record) (fn_properties (S := S2) record).
Proof. unfold fn_properties. fn_sim. Qed.
Lemma fn_end_node_sim key end_of :
  call_sim (fn_end_node (S := S1) c record key end_of) (fn_end_node (S := S2) c record key end_of).
Proof. unfold fn_end_node. fn_sim. Qed.
Lemma fn_coalesce_sim v1 v2 : vals_sim v1 v2 → msim I eq (fn_coalesce v1) (fn_coalesce v2).
Proof. induction 1 as [|m1 m2 l1 l2 Hm _ IH]; simpl; fn_sim. Qed.
Lemma ternary_sim f v1 v2 : vals_sim v1 v2 → msim I eq (ternary v1 f) (ternary v2 f).
Proof. unfold ternary. fn_sim. Qed.
Lemma binary_sim f v1 v2 : vals_sim v1 v2 → msim I eq (Functions.binary v1 f) (Functions.binary v2 f).
Proof. unfold Functions.binary. fn_sim. Qed.
Lemma from_epoch_sim : call_sim fn_from_epoch fn_from_epoch.
Proof. unfold fn_from_epoch. fn_sim. Qed.
Lemma from_epoch_millis_sim v1 v2 :
  vals_sim v1 v2 → msim I eq (fn_from_epoch_millis v1) (fn_from_epoch_millis v2).
Proof. unfold fn_from_epoch_millis. fn_sim. Qed.
Lemma constructor_sim f g : call_sim (λ args v, eval_temporal_constructor args v f g)
                                     (λ args v, eval_temporal_constructor args v f g).
Proof. unfold eval_temporal_constructor. fn_sim. Qed.
Lemma difference_sim name v1 v2 :
  vals_sim v1 v2 → msim I eq (fn_difference name v1) (fn_difference name v2).
Proof.
  unfold fn_difference. intros [|? ? ? ? H1 [|? ? ? ? H2 ?]]; fn_sim.
Qed.
Lemma truncation_sim f v1 v2 : vals_sim v1 v2 → msim I eq (truncation v1 f) (truncation v2 f).
Proof.
  intros Hv. unfold truncation, truncate_args.
  apply msim_bind_eq; [|intros [[[]]|]; fn_sim].
  destruct Hv as [|? ? ? ? H1 [|? ? ? ? H2 [|? ? ? ? H3 ?]]]; fn_sim.
Qed.
#[local] Hint Resolve fn_keys_sim fn_labels_sim fn_id_sim fn_score_sim fn_type_sim
  fn_properties_sim fn_end_node_sim fn_coalesce_sim ternary_sim binary_sim from_epoch_sim
  from_epoch_millis_sim constructor_sim difference_sim truncation_sim : sim.

Lemma dispatch_sim :
  Forall2 (λ x y : string * _, x.1 = y.1 ∧ call_sim x.2 y.2)
    (dispatch_table X1 c record) (dispatch_table X2 c record).
Proof.
  unfold dispatch_table.
  repeat (apply Forall2_cons; split; [split; [reflexivity|cbn [snd]]|]); try apply Forall2_nil_2;
    try (intros; solve [eauto with sim | by sim_step]).
  intros. apply msim_bind_eq; [apply HX|]. intros n. by sim_step.
Qed.

Lemma function_call_sim name args v1 v2 text :
  vals_sim v1 v2 →
  msim I eq (eval_function_call X1 c record name args v1 text)
            (eval_function_call X2 c record name args v2 text).
Proof.
  intros Hv. unfold eval_function_call. apply msim_bind_eq.
  { unfold Functions.check_deleted. fn_sim. }
  intros _. apply or_else_sim; [unfold precomputed; fn_sim|].
  unfold call_table.
  destruct (table_get_sim (λ f1 f2, call_sim f1 f2) (ascii_lowercase name) _ _ dispatch_sim) as [f1 f2 Hf|]; [by apply Hf|].
  destruct (table_get _ unary_table); [fn_sim|].
  destruct (table_get _ constructor_table) as [[f g]|]; [by apply constructor_sim|].
  destruct (table_get _ difference_table); [by apply difference_sim|].
  destruct (table_get _ truncation_table); [by apply truncation_sim|by sim_step].
Qed.
End sim.
#[export] Hint Resolve field_sim node_of_field_sim : sim.

(** ** Expressions *)
Section eval_sim.
Context {Ch : Chrono} {Co : ChronoOrder} {Lm : Libm} {Un : Unicode}.
Context {conn : Type} {O : SqlOps conn} {Mp : Msgpack}.
Context {S1 S2 : Type} (I : S1 → S2 → Prop) (X1 : Effects S1) (X2 : Effects S2).
Context (Q1 : Subqueries S1) (Q2 : Subqueries S2) (c : conn) (params : option (gmap string value)).
Context (HX : effects_agree I X1 X2) (HQ : subqueries_agree I Q1 Q2).
Abbreviation E1 := (M S1 GraphError).
Abbreviation E2 := (M S2 GraphError).
Abbreviation ev1 := (eval_expr X1 Q1 c params).
Abbreviation ev2 := (eval_expr X2 Q2 c params).
Abbreviation holds_sim e := (∀ record, msim I eq (ev1 e record) (ev2 e record)).

Lemma variable_sim record name :
  msim I eq (eval_variable (S := S1) record name) (eval_variable (S := S2) record name).
Proof. unfold eval_variable. sim_steps. Qed.
Lemma property_sim record var prop :
  msim I eq (eval_property (S := S1) c record var prop) (eval_property (S := S2) c record var prop).
Proof. unfold eval_property, bound_value_property, has_metadata. sim_steps. Qed.
Lemma variable_index_sim record var key :
  msim I eq (variable_index (S := S1) c record var key) (variable_index (S := S2) c record var key).
Proof. unfold variable_index. sim_steps. Qed.
Lemma has_label_sim record var labels :
  msim I eq (eval_has_label (S := S1) c record var labels) (eval_has_label (S := S2) c record var labels).
Proof. unfold eval_has_label. sim_steps. Qed.

Lemma binop_sim l op r : msim I eq (eval_binop X1 l op r) (eval_binop X2 l op r).
Proof.
  destruct op; simpl; try (by sim_step). unfold eval_regex_match.
  destruct l; try (by sim_steps); destruct r; try (by sim_steps).
  apply msim_bind_eq; [apply HX|]. intros b. by sim_step.
Qed.

Lemma holds_sim_ok (m1 : E1 value) (m2 : E2 value) : msim I eq m1 m2 → msim I eq (holds m1) (holds m2).
Proof. intros H. apply msim_bind_eq; [done|]. intros v. by sim_step. Qed.
Lemma opt_value_sim (o : option Expr) record :
  (∀ e, o = Some e → holds_sim e) →
  msim I eq (opt_value (match o with Some s => Some (ev1 s record) | None => None end))
            (opt_value (match o with Some s => Some (ev2 s record) | None => None end)).
Proof.
  intros H. destruct o as [e|]; simpl; [|by sim_step].
  apply msim_bind_eq; [by apply H|]. intros v. by sim_step.
Qed.

Abbreviation alt_sim := (λ (a : E1 value * E1 value) (b : E2 value * E2 value),
  msim I eq a.1 b.1 ∧ msim I eq a.2 b.2).
Lemma simple_case_sim v a1 a2 d1 d2 :
  Forall2 alt_sim a1 a2 → msim I eq d1 d2 → msim I eq (simple_case v a1 d1) (simple_case v a2 d2).
Proof.
  intros Ha Hd. induction Ha as [|[] [] a1 a2 [Hw Hr] _ IH]; simpl; [done|].
  apply msim_bind_eq; [done|]. intros w. by destruct (is_true _).
Qed.
Lemma searched_case_sim a1 a2 d1 d2 :
  Forall2 alt_sim a1 a2 → msim I eq d1 d2 → msim I eq (searched_case a1 d1) (searched_case a2 d2).
Proof.
  intros Ha Hd. induction Ha as [|[] [] a1 a2 [Hw Hr] _ IH]; simpl; [done|].
  apply msim_bind_eq; [by apply holds_sim_ok|]. by intros [].
Qed.

Abbreviation ev_sim f1 f2 := (∀ record : RecordView, msim I eq (f1 record) (f2 record)).
Lemma comprehension_sim f1 f2 g1 g2 record variable (l1 : E1 value) (l2 : E2 value) :
  msim I eq l1 l2 → option_Forall2 (λ f1 f2, ev_sim f1 f2) f1 f2 →
  option_Forall2 (λ f1 f2, ev_sim f1 f2) g1 g2 →
  msim I eq (eval_list_comprehension variable l1 f1 g1 record)
            (eval_list_comprehension variable l2 f2 g2 record).
Proof.
  intros Hl Hf Hg. unfold eval_list_comprehension. apply msim_bind_eq; [done|].
  intros v. destruct v; try (by sim_step). apply msim_bind_eq; [by sim_step|]. intros base.
  apply msim_bind_eq; [|intros r; by sim_step].
  induction items as [|item items IH]; simpl; [by sim_step|].
  apply msim_bind_eq.
  { destruct Hf; [by apply holds_sim_ok|by sim_step]. }
  intros [|]; [|done]. apply msim_bind_eq.
  { destruct Hg; [done|by sim_step]. }
  intros val. apply msim_bind_eq; [done|]. intros rest. by sim_step.
Qed.
Lemma quantifier_sim kind f1 f2 record variable (l1 : E1 value) (l2 : E2 value) :
  msim I eq l1 l2 → ev_sim f1 f2 →
  msim I eq (eval_quantifier kind variable l1 f1 record) (eval_quantifier kind variable l2 f2 record).
Proof.
  intros Hl Hf. unfold eval_quantifier. apply msim_bind_eq; [done|].
  intros v. destruct v; try (by sim_step). apply msim_bind_eq; [by sim_step|]. intros base.
  apply msim_bind_eq; [|intros r; by sim_step]. generalize (mkCounts 0 0 0).
  induction items as [|item items IH]; intros n; simpl; [by sim_step|].
  apply msim_bind_eq; [apply Hf|]. intros w. apply IH.
Qed.
Lemma pattern_comprehension_sim pv p w f1 f2 record :
  ev_sim f1 f2 →
  msim I eq (eval_pattern_comprehension Q1 pv p w f1 record)
            (eval_pattern_comprehension Q2 pv p w f2 record).
Proof.
  intros Hf. unfold eval_pattern_comprehension. apply msim_bind_eq; [by sim_step|]. intros base.
  apply msim_bind_eq; [apply HQ|]. intros rows.
  apply msim_bind_eq; [|intros r; by sim_step]. by apply msim_collect_m_eq.
Qed.
Lemma exists_sim ps w record : msim I eq (eval_exists Q1 ps w record) (eval_exists Q2 ps w record).
Proof.
  unfold eval_exists. apply msim_bind_eq; [by sim_step|]. intros l.
  apply msim_bind_eq; [apply HQ|]. intros b. by sim_step.
Qed.
Lemma exists_subquery_sim st record :
  msim I eq (eval_exists_subquery Q1 st record) (eval_exists_subquery Q2 st record).
Proof.
  unfold eval_exists_subquery. apply msim_bind_eq; [by sim_step|]. intros l.
  apply msim_bind_eq; [apply HQ|]. intros b. by sim_step.
Qed.

Lemma alternatives_sim alternatives record :
  (∀ a, a ∈ alternatives → holds_sim a.1 ∧ holds_sim a.2) →
  Forall2 alt_sim (List.map (λ p : Expr * Expr, (ev1 p.1 record, ev1 p.2 record)) alternatives)
                  (List.map (λ p : Expr * Expr, (ev2 p.1 record, ev2 p.2 record)) alternatives).
Proof.
  induction alternatives as [|a l IH]; intros H; constructor.
  - destruct (H a) as [Hw Hr]; [left|]. split; [apply Hw|apply Hr].
  - apply IH. intros b Hb. apply H. by right.
Qed.
Lemma vals_sim_map args record : (∀ a, a ∈ args → holds_sim a) →
  Forall2 (msim I eq) (List.map (λ a, ev1 a record) args) (List.map (λ a, ev2 a record) args).
Proof.
  induction args as [|a l IH]; intros H; constructor; [apply H; left|].
  apply IH. intros b Hb. apply H. by right.
Qed.

(** ** The evaluator *)
Lemma eval_expr_sim e record : msim I eq (ev1 e record) (ev2 e record).
Proof.
  revert e record. apply (syntax_ind (λ e, ∀ record, msim I eq (ev1 e record) (ev2 e record)) (λ _, True));
    [|done].
  intros k sp IH _ record.
  assert (∀ e, e ∈ kind_exprs k → holds_sim e) as H by (intros e He r; by apply IH). clear IH.
  destruct k; cbn [eval_expr expr_kind]; cbn [kind_exprs] in H; try (by sim_step).
  - apply property_sim.
  - apply variable_sim.
  - apply msim_bind_eq; [apply H; set_solver|]. intros v1.
    apply msim_bind_eq; [apply H; set_solver|]. intros v2. apply binop_sim.
  - apply msim_bind_eq; [apply H; set_solver|]. intros v. sim_steps.
  - apply msim_bind_eq; [apply H; set_solver|]. intros v. sim_steps.
  - apply msim_bind_eq; [apply H; set_solver|]. intros v. sim_steps.
  - apply function_call_sim; [done|]. by apply vals_sim_map.
  - assert (∀ a, a ∈ alternatives → holds_sim a.1 ∧ holds_sim a.2) as Ha.
    { intros a Ha. split; apply H; rewrite !elem_of_app; right; left; apply list_elem_of_bind;
        exists a; (split; [|done]); set_solver. }
    assert (msim I eq (match default_ with Some d => ev1 d record | None => mret Value.Null end)
                      (match default_ with Some d => ev2 d record | None => mret Value.Null end)) as Hd.
    { destruct default_ as [d|]; [|by sim_step]. apply H. rewrite !elem_of_app. right; right. left. }
    destruct operand as [op|].
    + apply msim_bind_eq; [apply H; left|]. intros v.
      apply simple_case_sim; [by apply alternatives_sim|done].
    + apply searched_case_sim; [by apply alternatives_sim|done].
  - apply msim_bind_eq; [|intros l; by sim_step]. apply msim_collect_m_eq. intros e He.
    by apply H.
  - apply comprehension_sim; [apply H; left| |].
    + destruct filter_ as [f|]; constructor. intros r. apply H. right. left.
    + destruct map_expr as [m|]; constructor. intros r. apply H. right.
      apply elem_of_app. right. left.
  - apply pattern_comprehension_sim. intros r. apply H. rewrite !elem_of_app. right; right. left.
  - apply exists_sim.
  - apply exists_subquery_sim.
  - apply msim_bind_eq; [|intros l; by sim_step]. apply msim_collect_m_eq. intros [n e] He. simpl.
    apply msim_bind_eq; [|intros v; by sim_step]. apply H. by apply (list_elem_of_fmap_2 snd) in He.
  - apply msim_bind_eq.
    + destruct (variable_of e) as [var|]; [|by sim_step].
      apply msim_bind_eq; [apply H; set_solver|]. intros v.
      destruct v; try (by sim_step). apply variable_index_sim.
    + intros early. destruct early; [by sim_step|].
      apply msim_bind_eq; [apply H; set_solver|]. intros b.
      apply msim_bind_eq; [apply H; set_solver|]. intros i. by sim_step.
  - apply msim_bind_eq; [apply H; set_solver|]. intros v. by sim_step.
  - apply msim_bind_eq; [apply H; left|]. intros b.
    apply msim_bind_eq; [apply opt_value_sim; intros e' ->; intros r; apply H; set_solver|]. intros s.
    apply msim_bind_eq; [apply opt_value_sim; intros e' ->; intros r; apply H; set_solver|]. intros t.
    by sim_step.
  - apply quantifier_sim; [|intros r]; apply H; set_solver.
  - apply has_label_sim.
  - apply exists_sim.
Qed.
End eval_sim.
