(* ===== verification/SlotSpec.v ===== *)
(** * Rows in slots, and rows in order *)
From Stdlib Require Import FunctionalExtensionality.
From S2P Require Export Simulate.
#[local] Open Scope Z_scope.

(** * Rows by slot and rows by name

    A slot row under its schema and the named row it stands for look the same to
    every expression, and aggregating slot rows gives the slots of the rows that
    aggregating named rows gives. *)

(** ** Schemas *)
Record schema_wf (s : RecordSchema) : Prop := {
  wf_size : (N.of_nat (length (RecordSchema.names s)) <= 4294967296)%N;
  wf_nodup : NoDup (RecordSchema.names s);
  wf_slot name slot : RecordSchema.slot name s = Some slot ↔
    RecordSchema.names s !! N.to_nat slot = Some name }.

Lemma schema_new_wf : schema_wf RecordSchema.new.
Proof. split; [done|constructor|]. intros. by split. Qed.

Lemma schema_known s name : schema_wf s →
  RecordSchema.slot name s = None ↔ name ∉ RecordSchema.names s.
Proof.
  intros [_ _ Hs]. split.
  - intros E [i Hi]%list_elem_of_lookup. pose proof (proj2 (Hs name (N.of_nat i))) as H'.
    rewrite Nat2N.id, E in H'. by specialize (H' Hi).
  - intros Hni. destruct (RecordSchema.slot name s) as [k|] eqn:E; [|done].
    destruct Hni. apply Hs in E. by eapply list_elem_of_lookup_2.
Qed.

Lemma schema_add_wf s name slot s' :
  schema_wf s → RecordSchema.add name s = Ok (slot, s') → schema_wf s'.
Proof.
  intros Hwf. pose proof (schema_known s name Hwf) as Hk. destruct Hwf as [Hn Hd Hs].
  unfold RecordSchema.add, RecordSchema.slot in *.
  destruct (RecordSchema.by_name s !! name) as [k|] eqn:E; [by intros [= <- <-]|].
  apply proj1 in Hk. specialize (Hk eq_refl). unfold SlotId.from_usize.
  case_decide as Hb; [|done]. intros [= <- <-].
  set (n := length (RecordSchema.names s)) in *. split; simpl.
  - rewrite length_app. simpl. fold n. lia.
  - apply NoDup_app. split_and!; [done| |apply NoDup_singleton]. set_solver.
  - intros name' slot'. unfold RecordSchema.slot. simpl.
    destruct (decide (name' = name)) as [->|Hne].
    + rewrite lookup_insert_eq. split; [intros [= <-]|].
      * by rewrite Nat2N.id, lookup_app_r, Nat.sub_diag by done.
      * intros [H|[Hle H]]%lookup_app_Some; [by apply list_elem_of_lookup_2 in H|].
        destruct (N.to_nat slot' - _)%nat as [|[]] eqn:Eq; try done. f_equal. unfold n in *. lia.
    + rewrite lookup_insert_ne by done. rewrite Hs. split.
      * intros H. by rewrite lookup_app_l by (by eapply lookup_lt_Some).
      * intros [H|[Hle H]]%lookup_app_Some; [done|].
        destruct (N.to_nat slot' - _)%nat as [|[]] eqn:Eq; simplify_eq/=.
Qed.

(** ** Views *)

(** The named row of a slot row. *)
Definition named_of (s : RecordSchema) (r : SlotRecord) : NamedRecord :=
  NamedRecord.mk (zip (RecordSchema.names s) (SlotRecord.values r)).
(** A row has a value for each slot. *)
Definition row_of (s : RecordSchema) (r : SlotRecord) : Prop :=
  length (SlotRecord.values r) = length (RecordSchema.names s).

Definition slot_list (s : RecordSchema) : list (N * string) :=
  imap (λ i n, (N.of_nat i, n)) (RecordSchema.names s).

Lemma schema_iter s : schema_wf s → RecordSchema.iter s = Ok (slot_list s).
Proof.
  intros [Hn _ _]. unfold RecordSchema.iter, slot_list.
  rewrite (collect_ok _ (λ e : nat * string, (N.of_nat e.1, e.2))).
  - f_equal. by rewrite fmap_imap.
  - intros [i n] (j & y & Hj & Hl)%elem_of_lookup_imap. injection Hj as -> ->. simpl.
    unfold SlotId.from_usize. rewrite decide_True; [done|]. apply lookup_lt_Some in Hl. lia.
Qed.

Lemma lookup_field_zip k names values i :
  NoDup names → names !! i = Some k → length values = length names →
  NamedRecord.lookup_field k (zip names values) = values !! i.
Proof.
  intros Hd. revert i values. induction Hd as [|n names Hn Hd IH]; intros i [|v values] Hi Hl;
    simplify_eq/=; [done..|].
  destruct i as [|i]; simplify_eq/=; [by rewrite decide_True|].
  rewrite decide_False by (intros ->; by apply list_elem_of_lookup_2 in Hi).
  apply IH; [done|lia].
Qed.
Lemma lookup_field_zip_none k names values :
  k ∉ names → NamedRecord.lookup_field k (zip names values) = None.
Proof.
  revert values. induction names as [|n names IH]; intros [|v values] Hk; simpl; try done.
  apply not_elem_of_cons in Hk as [Hne Hk]. rewrite decide_False by done. by apply IH.
Qed.

Lemma row_get s r slot name : row_of s r → schema_wf s → RecordSchema.slot name s = Some slot →
  ∃ v, SlotRecord.get slot r = Ok v ∧ SlotRecord.values r !! N.to_nat slot = Some v.
Proof.
  intros Hr [_ _ Hs] E. apply Hs in E. apply lookup_lt_Some in E. rewrite <- Hr in E.
  destruct (lookup_lt_is_Some_2 _ _ E) as [v Hv]. exists v. split; [|done].
  unfold SlotRecord.get, SlotId.index. by rewrite Hv.
Qed.

Lemma collect_slots s r : row_of s r →
  collect (λ e : N * string, v ← SlotRecord.get e.1 r; Ok (e.2, v)) (slot_list s)
  = Ok (NamedRecord.fields (named_of s r)).
Proof.
  unfold row_of, slot_list, named_of. simpl. destruct r as [vs]. simpl.
  enough (∀ names pre post, vs = pre ++ post → length post = length names →
    collect (λ e : N * string, v ← SlotRecord.get e.1 (SlotRecord.mk vs); Ok (e.2, v))
      (imap (λ i n, (N.of_nat (length pre + i), n)) names)
    = Ok (zip names post)) as H.
  { intros Hl. rewrite <- (H _ [] vs eq_refl Hl). f_equal. }
  induction names as [|n names IH]; intros pre [|v post] E Hl; simplify_eq/=; [done|].
  assert (SlotRecord.get (N.of_nat (length pre + 0)) (SlotRecord.mk (pre ++ v :: post)) = Ok v) as ->.
  { unfold SlotRecord.get, SlotId.index. simpl.
    by rewrite Nat2N.id, Nat.add_0_r, lookup_app_r, Nat.sub_diag by done. }
  simpl.
  specialize (IH (pre ++ [v]) post). rewrite length_app in IH. simpl in IH.
  rewrite <- app_assoc in IH. simpl in IH.
  replace (imap ((λ i n0, (N.of_nat (length pre + i), n0)) ∘ S) names)
    with (imap (λ i n0, (N.of_nat (length pre + 1 + i), n0)) names)
    by (apply imap_ext; intros; simpl; f_equal; f_equal; lia).
  rewrite IH by (done || lia). done.
Qed.

(** What every expression sees of a slot row is what it sees of its named row. *)
Lemma slot_view_named s r : schema_wf s → row_of s r → slot_view s r = named_view (named_of s r).
Proof.
  intros Hwf Hr. unfold slot_view, named_view. f_equal.
  - apply functional_extensionality. intros k. unfold NamedRecord.get, named_of. simpl.
    destruct (RecordSchema.slot k s) as [slot|] eqn:E.
    + destruct (row_get s r slot k) as (v & -> & Hv); [done..|]. simpl.
      apply Hwf in E. erewrite lookup_field_zip; [by rewrite Hv|apply Hwf|exact E|done].
    + rewrite lookup_field_zip_none; [done|]. by apply schema_known.
  - rewrite schema_iter by done. by apply collect_slots.
Qed.

Lemma slot_to_named_ok s r : schema_wf s → row_of s r → slot_to_named s r = Ok (named_of s r).
Proof.
  intros Hwf Hr. unfold slot_to_named. rewrite schema_iter by done. simpl.
  rewrite collect_slots by done. simpl. f_equal.
  assert (NoDup (zip (RecordSchema.names s) (SlotRecord.values r)).*1) as Hd.
  { rewrite fst_zip by (unfold row_of in Hr; lia). apply Hwf. }
  pose proof (RecordFacts.set_all_fresh (NamedRecord.fields (named_of s r)) NamedRecord.new Hd) as E.
  destruct (set_all _ _) as [fs]. simpl in *. by rewrite E.
Qed.

(** ** Rows that agree

    A slot row agrees with a named row when each slot holds the value of its name,
    null where the named row has none. *)
Definition agrees (s : RecordSchema) (rec : NamedRecord) (out : SlotRecord) : Prop :=
  row_of s out ∧
  ∀ name slot, RecordSchema.slot name s = Some slot →
    SlotRecord.values out !! N.to_nat slot = Some (default Value.Null (NamedRecord.get name rec)).

Lemma agrees_empty s : schema_wf s →
  agrees s NamedRecord.new (SlotRecord.with_capacity (RecordSchema.len s)).
Proof.
  intros [_ _ Hs]. split; [apply length_replicate|]. intros name slot E%Hs.
  apply lookup_replicate_2. by eapply lookup_lt_Some.
Qed.

Lemma agrees_set s rec out name v : schema_wf s → agrees s rec out →
  ∃ out', set_named s name v out = Ok out' ∧ agrees s (NamedRecord.set name v rec) out'.
Proof.
  intros Hwf [Hr Ha]. pose proof (wf_slot s Hwf) as Hs. unfold set_named.
  assert (∀ name' slot', name' ≠ name → RecordSchema.slot name' s = Some slot' →
    SlotRecord.values out !! N.to_nat slot'
    = Some (default Value.Null (NamedRecord.get name' (NamedRecord.set name v rec)))) as Hne.
  { intros name' slot' Hn E. rewrite RecordFacts.get_set_ne by done. by apply Ha. }
  destruct (RecordSchema.slot name s) as [slot|] eqn:E.
  - destruct (row_get s out slot name) as (w & _ & Hw); [done..|].
    unfold SlotRecord.set, SlotId.index. rewrite decide_True by (by eapply lookup_lt_Some).
    eexists. split; [done|]. split; [unfold row_of; simpl; by rewrite length_insert|].
    intros name' slot' E'. simpl. destruct (decide (name' = name)) as [->|Hn].
    + rewrite E in E'. injection E' as <-. rewrite RecordFacts.get_set.
      rewrite list_lookup_insert_eq by (by eapply lookup_lt_Some). done.
    + rewrite list_lookup_insert_ne; [by apply Hne|]. intros Heq.
      apply Hs in E. apply Hs in E'. rewrite <- Heq, E in E'. by injection E' as ->.
  - exists out. split; [done|]. split; [done|]. intros name' slot' E'. apply Hne; [|done].
    intros ->. by rewrite E in E'.
Qed.

(** The slots whose name begins with [var.], one after the other. *)
Lemma agrees_carry s first var rec out l : schema_wf s → agrees s rec out →
  (∀ e, e ∈ l → ∃ v, SlotRecord.get e.1 first = Ok v
                     ∧ SlotRecord.values first !! N.to_nat e.1 = Some v) →
  ∃ out', carry_slots s first var l out = Ok out'
    ∧ agrees s (set_all (List.filter (λ e : string * value, str_starts (var +:+ ".") e.1)
         (omap (λ e : N * string, v ← SlotRecord.values first !! N.to_nat e.1; Some (e.2, v)) l)) rec)
         out'.
Proof.
  intros Hwf. revert rec out. induction l as [|[i n] l IH]; intros rec out Ha Hl.
  { exists out. done. }
  destruct (Hl (i, n)) as (v & Hv & Hv'); [left|]. simpl in Hv, Hv'.
  cbn [carry_slots omap list_omap]. simpl (_ ≫= _). rewrite Hv'. simpl.
  destruct (str_starts (var +:+ ".") n) eqn:En.
  - destruct (agrees_set s rec out n v) as (out1 & E1 & Ha1); [done..|].
    unfold set_named in E1.
    assert ((match RecordSchema.slot n s with
             | Some out_slot => w ← SlotRecord.get i first; SlotRecord.set out_slot w out
             | None => Ok out
             end) = Ok out1) as ->.
    { destruct (RecordSchema.slot n s); [by rewrite Hv|done]. }
    simpl. apply IH; [done|]. intros e He. apply Hl. by right.
  - simpl. apply IH; [done|]. intros e He. apply Hl. by right.
Qed.

Lemma slot_list_get s r e : schema_wf s → row_of s r → e ∈ slot_list s →
  ∃ v, SlotRecord.get e.1 r = Ok v ∧ SlotRecord.values r !! N.to_nat e.1 = Some v.
Proof.
  intros Hwf Hr (i & n & -> & Hn)%elem_of_lookup_imap. simpl.
  eapply row_get; [done..|]. apply Hwf. by rewrite Nat2N.id.
Qed.
Lemma slot_list_fields s r : schema_wf s → row_of s r →
  omap (λ e : N * string, v ← SlotRecord.values r !! N.to_nat e.1; Some (e.2, v)) (slot_list s)
  = NamedRecord.fields (named_of s r).
Proof.
  intros Hwf Hr. pose proof (collect_slots s r Hr) as E.
  assert (∀ l, (∀ e, e ∈ l → ∃ v, SlotRecord.get e.1 r = Ok v
                     ∧ SlotRecord.values r !! N.to_nat e.1 = Some v) →
    collect (λ e : N * string, v ← SlotRecord.get e.1 r; Ok (e.2, v)) l
    = Ok (E := GraphError)
        (omap (λ e : N * string, v ← SlotRecord.values r !! N.to_nat e.1; Some (e.2, v)) l)) as H.
  { induction l as [|e l IH]; intros Hl; [done|].
    destruct (Hl e) as (v & Hv & Hv'); [left|]. cbn [collect omap list_omap].
    rewrite Hv. simpl. rewrite Hv'. simpl.
    rewrite IH by (intros e' He'; apply Hl; by right). done. }
  rewrite H in E by (intros e He; by eapply slot_list_get). by injection E.
Qed.

(** ** Aggregation *)
Section aggregation.
Context {Co : ChronoOrder} {Db : DebugText} {S : Type}.
Context (ev : Expr → RecordView → M S GraphError value) (s_in s_out : RecordSchema).
Context (Hin : schema_wf s_in) (Hout : schema_wf s_out).

Lemma set_aggregates_agree aggregates views rec out : agrees s_out rec out →
  msim eq (agrees s_out) (set_aggregates ev agg_col_name aggregates views rec)
    (set_aggregates_slot ev s_out aggregates views out).
Proof.
  revert rec out. induction aggregates as [|agg l IH]; intros rec out Ha; [by apply msim_ret|].
  simpl. apply msim_bind_eq; [apply msim_same|]. intros v.
  destruct (agrees_set s_out rec out (agg_col_name agg) v) as (out' & -> & Ha'); [done..|].
  intros s1 s2 Hs. by apply IH.
Qed.

Lemma carry_group_agree group k rec out : Forall (row_of s_in) group → agrees s_out rec out →
  ∃ out', carry_group s_in s_out group k out = Ok out'
    ∧ agrees s_out (set_all (carried k (named_of s_in <$> group)) rec) out'.
Proof.
  intros Hg Ha. unfold carry_group, carried. destruct (variable_of k) as [var|]; [|by exists out].
  destruct group as [|first group]; [by exists out|]. simpl. apply Forall_cons in Hg as [Hf _].
  rewrite schema_iter by done. unfold var_fields. rewrite <- slot_list_fields by done.
  apply agrees_carry; [done..|]. intros e He. exact (slot_list_get s_in first e Hin Hf He).
Qed.

Lemma set_keys_agree group keys rec out : Forall (row_of s_in) group → agrees s_out rec out →
  ∃ out', set_keys_slot s_in s_out group keys out = Ok out'
    ∧ agrees s_out (foldl (λ rec e, set_all (carried e.1 (named_of s_in <$> group))
                             (NamedRecord.set (expr_to_column_name e.1) e.2 rec)) rec keys) out'.
Proof.
  intros Hg. revert rec out. induction keys as [|[k v] keys IH]; intros rec out Ha.
  { by exists out. }
  destruct (agrees_set s_out rec out (expr_to_column_name k) v) as (out1 & E1 & Ha1); [done..|].
  destruct (carry_group_agree group k _ out1 Hg Ha1) as (out2 & E2 & Ha2).
  cbn [set_keys_slot foldl fst snd]. rewrite E1. simpl. rewrite E2. simpl. by apply IH.
Qed.

(** The groups of slot rows are the groups of their named rows. *)
Definition group_agrees (g : list value * list NamedRecord) (h : list value * list SlotRecord) :=
  g.1 = h.1 ∧ g.2 = named_of s_in <$> h.2 ∧ Forall (row_of s_in) h.2.

Lemma add_to_group_agree key r gs hs : row_of s_in r → Forall2 group_agrees gs hs →
  Forall2 group_agrees (add_to_group key (named_of s_in r) gs) (add_to_group key r hs).
Proof.
  intros Hr. induction 1 as [|[k l] [k' l'] gs hs (Hk & Hl & Hf) Hrest IH]; simpl in *.
  - repeat constructor; done.
  - subst. destruct (keys_eqb k' key); constructor; try done. split_and!; simpl; [done| |].
    + by rewrite fmap_app.
    + apply Forall_app. split; [done|by constructor].
Qed.

Lemma group_loop_agree group_keys gs hs records :
  Forall (row_of s_in) records → Forall2 group_agrees gs hs →
  msim eq (Forall2 group_agrees)
    (group_loop ev named_view group_keys gs (named_of s_in <$> records))
    (group_loop ev (slot_view s_in) group_keys hs records).
Proof.
  intros Hrs. revert gs hs. induction Hrs as [|r records Hr Hrs IH]; intros gs hs Hg.
  { by apply msim_ret. }
  simpl. rewrite slot_view_named by done.
  apply msim_bind_eq; [apply msim_same|]. intros key.
  apply IH. by apply add_to_group_agree.
Qed.

Lemma slot_views_named records : Forall (row_of s_in) records →
  slot_view s_in <$> records = named_view <$> (named_of s_in <$> records).
Proof.
  induction 1 as [|r records Hr _ IH]; [done|]. rewrite !fmap_cons, IH. f_equal.
  by apply slot_view_named.
Qed.

Lemma aggregate_agree records group_keys aggregates : Forall (row_of s_in) records →
  msim eq (Forall2 (agrees s_out))
    (aggregate_named_records ev (named_of s_in <$> records) group_keys aggregates)
    (aggregate_slot_records ev s_in records s_out group_keys aggregates).
Proof.
  intros Hr. unfold aggregate_named_records, aggregate_with, aggregate_slot_records.
  pose proof (agrees_empty s_out Hout) as He. destruct group_keys as [|k ks].
  - rewrite slot_views_named by done. eapply msim_bind; [by apply set_aggregates_agree|].
    intros rec out Ha. apply msim_ret. constructor; [exact Ha|constructor].
  - eapply msim_bind; [apply group_loop_agree; [done|constructor]|].
    intros gs hs Hg. eapply msim_collect_m; [exact Hg|].
    intros [key l] [key' l'] (Ek & El & Hl). simpl in Ek, El, Hl. subst key l. cbn [fst snd].
    rewrite slot_views_named by done.
    destruct (set_keys_agree l' (zip (k :: ks) key') NamedRecord.new
                (SlotRecord.with_capacity (RecordSchema.len s_out)) Hl He) as (out & E & Ha).
    intros s1 s2 Hs. unfold mbind at 1, M_bind, lift. rewrite E.
    by apply set_aggregates_agree.
Qed.
End aggregation.

(** * The order of ORDER BY

    Values whose numbers and temporal leaves are of one kind are ordered as the
    sequences of integers that [sort_key] gives them; so the comparison is a total
    preorder there, and sorting by it is what a stable sort promises. *)

(** ** Lexicographic order *)
Fixpoint lex (a b : list Z) : comparison :=
  match a, b with
  | [], [] => Eq
  | [], _ => Lt
  | _, [] => Gt
  | x :: a', y :: b' => cmp_then (Z.compare x y) (lex a' b')
  end.

Lemma cmp_then_assoc a b c : cmp_then (cmp_then a b) c = cmp_then a (cmp_then b c).
Proof. by destruct a. Qed.
Lemma cmp_then_opp a b : CompOpp (cmp_then a b) = cmp_then (CompOpp a) (CompOpp b).
Proof. by destruct a. Qed.
Lemma lex_refl a : lex a a = Eq.
Proof. induction a as [|x a IH]; simpl; [done|]. by rewrite Z.compare_refl. Qed.
Lemma lex_sym a b : lex b a = CompOpp (lex a b).
Proof.
  revert b. induction a as [|x a IH]; intros [|y b]; simpl; try done.
  by rewrite cmp_then_opp, <- IH, <- Z.compare_antisym.
Qed.
Lemma lex_eq a b : lex a b = Eq ↔ a = b.
Proof.
  revert b. induction a as [|x a IH]; intros [|y b]; simpl; try done.
  split.
  - destruct (Z.compare_spec x y); simpl; [|done..]. intros H'%IH. by subst.
  - intros [= -> ->]. rewrite Z.compare_refl. by apply IH.
Qed.
Lemma lex_trans a b c : lex a b ≠ Gt → lex b c ≠ Gt → lex a c ≠ Gt.
Proof.
  revert b c. induction a as [|x a IH]; intros [|y b] [|z c]; simpl; try done.
  destruct (Z.compare_spec x y), (Z.compare_spec y z), (Z.compare_spec x z); simpl; try done; try lia.
  apply IH.
Qed.
Lemma lex_app a a' b b' :
  length a = length a' → lex (a ++ b) (a' ++ b') = cmp_then (lex a a') (lex b b').
Proof.
  revert a'. induction a as [|x a IH]; intros [|y a'] Hl; simplify_eq/=; [done|].
  rewrite IH by done. by rewrite cmp_then_assoc.
Qed.

(** ** Total preorders *)
Record total_preorder {A} (P : A → Prop) (cmp : A → A → comparison) : Prop := {
  tp_sym x y : P x → P y → cmp y x = CompOpp (cmp x y);
  tp_trans x y z : P x → P y → P z → cmp x y ≠ Gt → cmp y z ≠ Gt → cmp x z ≠ Gt }.

Section preorder.
Context {A : Type} (P : A → Prop) (cmp : A → A → comparison) (H : total_preorder P cmp).
Lemma tp_refl x : P x → cmp x x = Eq.
Proof. intros Hx. pose proof (tp_sym _ _ H x x Hx Hx). by destruct (cmp x x). Qed.
Lemma tp_eq_l x y z : P x → P y → P z → cmp x y = Eq → cmp x z = cmp y z.
Proof.
  intros Hx Hy Hz E. pose proof (tp_sym _ _ H x y Hx Hy) as E'. rewrite E in E'. simpl in E'.
  pose proof (tp_trans _ _ H x y z Hx Hy Hz) as T1.
  pose proof (tp_trans _ _ H y x z Hy Hx Hz) as T2.
  pose proof (tp_trans _ _ H z y x Hz Hy Hx) as T3.
  pose proof (tp_trans _ _ H z x y Hz Hx Hy) as T4.
  rewrite E in *. rewrite E' in *.
  rewrite (tp_sym _ _ H x z), (tp_sym _ _ H y z) in * by done.
  destruct (cmp x z), (cmp y z); simpl in *; naive_solver.
Qed.
End preorder.

Lemma preorder_by_key {A} (P : A → Prop) (key : A → list Z) (cmp : A → A → comparison) :
  (∀ x y, P x → P y → cmp x y = lex (key x) (key y)) → total_preorder P cmp.
Proof.
  intros Hk. split.
  - intros x y Hx Hy. rewrite !Hk by done. apply lex_sym.
  - intros x y z Hx Hy Hz. rewrite !Hk by done. apply lex_trans.
Qed.
Lemma preorder_reverse {A} (P : A → Prop) (cmp : A → A → comparison) :
  total_preorder P cmp → total_preorder P (λ x y, CompOpp (cmp x y)).
Proof.
  intros H. split.
  - intros x y Hx Hy. by rewrite (tp_sym _ _ H x y).
  - intros x y z Hx Hy Hz H1 H2 H3. apply (tp_trans _ _ H z y x); [done..| | |].
    + rewrite (tp_sym _ _ H y z) by done. done.
    + rewrite (tp_sym _ _ H x y) by done. done.
    + rewrite (tp_sym _ _ H x z) by done. done.
Qed.
Lemma preorder_then {A} (P : A → Prop) (c1 c2 : A → A → comparison) :
  total_preorder P c1 → total_preorder P c2 → total_preorder P (λ x y, cmp_then (c1 x y) (c2 x y)).
Proof.
  intros H1 H2. split.
  - intros x y Hx Hy. by rewrite cmp_then_opp, <- (tp_sym _ _ H1), <- (tp_sym _ _ H2).
  - intros x y z Hx Hy Hz. pose proof (tp_trans _ _ H1 x y z Hx Hy Hz) as T1.
    pose proof (tp_trans _ _ H2 x y z Hx Hy Hz) as T2.
    pose proof (tp_eq_l _ _ H1 x y z Hx Hy Hz) as E1.
    pose proof (tp_eq_l _ _ H1 z y x Hz Hy Hx) as E2.
    pose proof (tp_sym _ _ H1 y z Hy Hz) as S1. pose proof (tp_sym _ _ H1 x z Hx Hz) as S2.
    pose proof (tp_sym _ _ H1 x y Hx Hy) as S3.
    pose proof (tp_eq_l _ _ H1 x z y Hx Hz Hy) as E3. rewrite S1, S2, S3 in *.
    destruct (c1 x y), (c1 y z), (c1 x z); simpl in *; try done; naive_solver.
Qed.

(** ** Keys of values *)
Inductive leaf_kind :=
| KInteger | KFloat | KNumber | KDate | KLocalTime | KTime | KLocalDateTime | KDateTime | KDuration.

(** Infinities, signs and zero, then the exponent and the mantissa; NaN is last. *)
Definition f64_key (x : f64) : list Z :=
  match x with
  | S754_infinity true => [-2; 0; 0]
  | S754_finite true m e => [-1; -e; Zneg m]
  | S754_zero _ => [0; 0; 0]
  | S754_finite false m e => [1; e; Zpos m]
  | S754_infinity false => [2; 0; 0]
  | S754_nan => [3; 0; 0]
  end.

Lemma f64_cmp_key x y : is_nan x = false → is_nan y = false →
  f64_cmp x y = Some (lex (f64_key x) (f64_key y)).
Proof.
  intros Hx Hy. unfold f64_cmp.
  destruct x as [[]|[]| |[] m e], y as [[]|[]| |[] m' e']; try done; simpl.
  - f_equal. rewrite Z.compare_opp, Z.compare_antisym.
    destruct (Z.compare_spec e' e); simpl; try done.
    unfold Pos.compare. by destruct (Pos.compare_cont Eq m m').
  - f_equal. destruct (Z.compare_spec e e'); simpl; try done.
    unfold Pos.compare. by destruct (Pos.compare_cont Eq m m').
Qed.
Lemma f64_sort_key x y : f64_sort_cmp x y = lex (f64_key x) (f64_key y).
Proof.
  unfold f64_sort_cmp. destruct (is_nan x) eqn:Hx, (is_nan y) eqn:Hy.
  - by destruct x, y.
  - by destruct x; try done; destruct y as [[]|[]| |[] ? ?].
  - by destruct y; try done; destruct x as [[]|[]| |[] ? ?].
  - by rewrite f64_cmp_key.
Qed.
Lemma f64_key_length x : length (f64_key x) = 3%nat.
Proof. by destruct x as [[]|[]| |[] ? ?]. Qed.

(** Integers below [2^53] keep their order as doubles. *)
Lemma int_form_lt p q : digits p ≤ 53 → digits q ≤ 53 → (p < q)%positive →
  lex (f64_key (int_form false p)) (f64_key (int_form false q)) = Lt.
Proof.
  intros Hp Hq Hlt. unfold int_form. simpl.
  pose proof (digits_bounds p) as [P1 P2]. pose proof (digits_bounds q) as [Q1 Q2].
  destruct (Z.compare_spec (digits p - 53) (digits q - 53)) as [E|E|E]; simpl; [|done|].
  - assert (digits p = digits q) as E' by lia. rewrite E'.
    pose proof (shl_pos_spec p (53 - digits q) ltac:(lia)) as Sp.
    pose proof (shl_pos_spec q (53 - digits q) ltac:(lia)) as Sq.
    assert (0 < 2 ^ (53 - digits q)) by (apply Z.pow_pos_nonneg; lia).
    assert (shl_pos p (53 - digits q) < shl_pos q (53 - digits q))%positive as Hs by nia.
    apply Pos.compare_lt_iff in Hs. by rewrite Hs.
  - assert (2 ^ digits q ≤ 2 ^ (digits p - 1)) by (apply Z.pow_le_mono_r; lia). lia.
Qed.
Lemma f64_of_int_lt a b : small a → small b → a < b →
  lex (f64_key (f64_of_int a)) (f64_key (f64_of_int b)) = Lt.
Proof.
  unfold small. intros Ha Hb Hlt. destruct a as [|p|p], b as [|q|q]; try lia.
  - by rewrite f64_of_pos by lia.
  - rewrite !f64_of_pos by lia. apply int_form_lt; [apply small_digits; lia..|lia].
  - by rewrite f64_of_neg by lia.
  - by rewrite f64_of_neg, f64_of_pos by lia.
  - rewrite !f64_of_neg by lia.
    pose proof (int_form_lt q p ltac:(apply small_digits; lia) ltac:(apply small_digits; lia) ltac:(lia)) as H.
    unfold int_form in *. simpl in *. rewrite Z.compare_opp.
    destruct (Z.compare_spec (digits q - 53) (digits p - 53)); simpl in *; try done.
    by rewrite <- Pos.compare_antisym.
Qed.
Lemma f64_of_int_key a b : small a → small b →
  Z.compare a b = lex (f64_key (f64_of_int a)) (f64_key (f64_of_int b)).
Proof.
  intros Ha Hb. destruct (Z.compare_spec a b) as [->|H|H].
  - by rewrite lex_refl.
  - by rewrite f64_of_int_lt.
  - rewrite lex_sym. by rewrite f64_of_int_lt.
Qed.
Lemma f64_of_int_number a : small a → is_nan (f64_of_int a) = false.
Proof.
  unfold small. destruct a as [|p|p]; intros; [done| |];
    [rewrite f64_of_pos by lia|rewrite f64_of_neg by lia]; done.
Qed.

Section keys.
Context {Co : ChronoOrder} {L : ChronoOrderLaws}.

Definition time_key (t : NaiveTime) : list Z := [num_seconds_from_midnight t; nanosecond t].
Definition datetime_key (dt : NaiveDateTime) : list Z := day_number (dt_date dt) :: time_key (dt_time dt).
Definition leaf_key (k : leaf_kind) (v : value) : list Z :=
  match v with
  | Value.I64 n => match k with KNumber => f64_key (f64_of_int n) | _ => [n] end
  | Value.F64 b => f64_key (f64_of_bits b)
  | Value.Date d => [day_number d]
  | Value.LocalTime t => time_key t
  | Value.Time t off => time_key (time_sub_offset t off)
  | Value.LocalDateTime dt => datetime_key dt
  | Value.DateTime dt off _ =>
      match datetime_sub_offset dt off with Some u => datetime_key u | None => [] end
  | Value.Duration d => [months d; days d; seconds d; nanos d]
  | _ => []
  end.

(** The leaves of a kind: those that chrono can represent, integers among doubles
    only when they are exact. *)
Definition leaf_ok (k : leaf_kind) (v : value) : Prop :=
  match k, v with
  | KInteger, Value.I64 _ => True
  | KFloat, Value.F64 _ => True
  | KNumber, Value.I64 n => small n
  | KNumber, Value.F64 _ => True
  | KDate, Value.Date d => valid_date d
  | KLocalTime, Value.LocalTime t => valid_time t
  | KTime, Value.Time t off => valid_time (time_sub_offset t off)
  | KLocalDateTime, Value.LocalDateTime dt => valid_datetime dt
  | KDateTime, Value.DateTime dt off _ =>
      match datetime_sub_offset dt off with Some u => valid_datetime u | None => False end
  | KDuration, Value.Duration _ => True
  | _, _ => False
  end.

Fixpoint sortable (k : leaf_kind) (v : value) : Prop :=
  match v with
  | Value.List l => (fix all (l : list value) : Prop :=
                       match l with [] => True | x :: l' => sortable k x ∧ all l' end) l
  | _ => type_rank v = 7 → leaf_ok k v
  end.
Lemma sortable_list k l : sortable k (Value.List l) ↔ Forall (sortable k) l.
Proof. simpl. induction l as [|x l IH]; [done|]. by rewrite Forall_cons, IH. Qed.

(** The rank of the type, then the content; strings and lists end with a zero. *)
Fixpoint sort_key (k : leaf_kind) (v : value) : list Z :=
  match v with
  | Value.List l => 3 :: (fix items (l : list value) : list Z :=
                            match l with [] => [0] | x :: l' => 1 :: sort_key k x ++ items l' end) l
  | Value.String s => 5 :: ((λ b, Z.of_N (b2n b) + 1) <$> str_bytes s) ++ [0]
  | Value.Bool b => [6; Z.b2z b]
  | _ => type_rank v :: leaf_key k v
  end.
Fixpoint items_key (k : leaf_kind) (l : list value) : list Z :=
  match l with [] => [0] | x :: l' => 1 :: sort_key k x ++ items_key k l' end.
Lemma sort_key_list k l : sort_key k (Value.List l) = 3 :: items_key k l.
Proof. simpl. f_equal. induction l as [|x l IH]; [done|]. simpl. by rewrite IH. Qed.

Lemma time_cmp_key a b : valid_time a → valid_time b → time_cmp a b = lex (time_key a) (time_key b).
Proof.
  intros Ha Hb. rewrite law_time_cmp by done. simpl. f_equal. by destruct (_ ?= _).
Qed.
Lemma datetime_cmp_key a b : valid_datetime a → valid_datetime b →
  datetime_cmp a b = lex (datetime_key a) (datetime_key b).
Proof.
  intros Ha Hb. rewrite law_datetime_cmp by done. destruct Ha, Hb.
  rewrite law_date_cmp, time_cmp_key by done. done.
Qed.

Lemma leaf_cmp k a b : type_rank a = 7 → type_rank b = 7 → leaf_ok k a → leaf_ok k b →
  compare_values_for_sort a b = Ok (lex (leaf_key k a) (leaf_key k b))
  ∧ length (leaf_key k a) = length (leaf_key k b).
Proof.
  intros Ra Rb Ha Hb.
  destruct k, a; try done; destruct b; try done; simpl in Ha, Hb; split; try done;
    cbn [compare_values_for_sort leaf_key].
  - simpl. by destruct (_ ?= _).
  - by rewrite f64_sort_key.
  - by rewrite !f64_key_length.
  - by rewrite (f64_of_int_key n n0).
  - by rewrite !f64_key_length.
  - pose proof (f64_sort_key (f64_of_int n) (f64_of_bits bits)) as E.
    unfold f64_sort_cmp in E. rewrite f64_of_int_number in E by done.
    destruct (is_nan _); by rewrite <- E.
  - by rewrite !f64_key_length.
  - pose proof (f64_sort_key (f64_of_bits bits) (f64_of_int n)) as E.
    unfold f64_sort_cmp in E. rewrite f64_of_int_number in E by done.
    destruct (is_nan _); by rewrite <- E.
  - by rewrite !f64_key_length.
  - by rewrite f64_sort_key.
  - by rewrite !f64_key_length.
  - rewrite law_date_cmp by done. simpl. by destruct (_ ?= _).
  - by rewrite time_cmp_key.
  - by rewrite time_cmp_key.
  - by rewrite datetime_cmp_key.
  - unfold datetime_utc_cmp, utc_of. do 2 (destruct (datetime_sub_offset _ _); [|done]). simpl.
    by rewrite datetime_cmp_key.
  - by do 2 (destruct (datetime_sub_offset _ _); [|done]).
  - unfold duration_cmp. simpl. repeat f_equal. by destruct (_ ?= _).
Qed.

Lemma str_cmp_key a b r1 r2 :
  lex (((λ c, Z.of_N (b2n c) + 1) <$> a) ++ 0 :: r1) (((λ c, Z.of_N (b2n c) + 1) <$> b) ++ 0 :: r2)
  = cmp_then (bytes_cmp a b) (lex r1 r2).
Proof.
  revert b. induction a as [|x a IH]; intros [|y b]; cbn [fmap list_fmap app lex bytes_cmp].
  - done.
  - by destruct (Z.compare_spec 0 (Z.of_N (b2n y) + 1)); [lia|..|lia].
  - by destruct (Z.compare_spec (Z.of_N (b2n x) + 1) 0); [lia|lia|].
  - rewrite IH. rewrite <- cmp_then_assoc. f_equal.
    replace (Z.of_N (b2n x) + 1 ?= Z.of_N (b2n y) + 1) with (b2n x ?= b2n y)%N; [by destruct (_ ?= _)%N|].
    rewrite <- N2Z.inj_compare. destruct (Z.compare_spec (Z.of_N (b2n x)) (Z.of_N (b2n y))); symmetry;
      [apply Z.compare_eq_iff|apply Z.compare_lt_iff|apply Z.compare_gt_iff]; lia.
Qed.

(** The comparison of two values, whatever follows their keys. *)
Lemma sort_cmp_key k a b : sortable k a → sortable k b →
  ∃ o, compare_values_for_sort a b = Ok o
    ∧ ∀ r1 r2, lex (sort_key k a ++ r1) (sort_key k b ++ r2) = cmp_then o (lex r1 r2).
Proof.
  revert b. induction a as [a IH] using (Wf_nat.induction_ltof1 _ vsize). intros b Ha Hb.
  unfold Wf_nat.ltof in IH.
  assert (∀ (x y : value), type_rank x ≠ type_rank y → ∀ l1 l2 r1 r2,
    lex ((type_rank x :: l1) ++ r1) ((type_rank y :: l2) ++ r2)
    = cmp_then (Z.compare (type_rank x) (type_rank y)) (lex r1 r2)) as Hrank.
  { intros x y Hxy l1 l2 r1 r2. simpl. by destruct (Z.compare_spec (type_rank x) (type_rank y)). }
  assert (∀ v, ∃ l, sort_key k v = type_rank v :: l) as Hkey by (intros []; eexists; reflexivity).
  destruct (decide (type_rank a = type_rank b)) as [E|E].
  2:{ exists (Z.compare (type_rank a) (type_rank b)). split.
      - destruct a, b; try done.
      - intros r1 r2. destruct (Hkey a) as [la ->], (Hkey b) as [lb ->]. by apply Hrank. }
  destruct (decide (type_rank a = 7)) as [R|R].
  { assert (leaf_ok k a ∧ leaf_ok k b) as [La Lb].
    { assert (∀ v, sortable k v → type_rank v = 7 → leaf_ok k v) as Hok by (by intros []).
      split; apply Hok; congruence. }
    destruct (leaf_cmp k a b) as [Hc Hl]; [done|by rewrite <- E|done..|].
    eexists. split; [exact Hc|]. intros r1 r2.
    assert (sort_key k a = 7 :: leaf_key k a) as -> by (by destruct a).
    assert (sort_key k b = 7 :: leaf_key k b) as -> by (rewrite E in R; by destruct b).
    simpl. by apply lex_app. }
  destruct a, b; try done; cbn [compare_values_for_sort]; try (by eexists; split; [reflexivity|]).
  - eexists. split; [reflexivity|]. intros r1 r2. cbn [sort_key]. simpl. rewrite <- !app_assoc.
    apply str_cmp_key.
  - rewrite sortable_list in Ha, Hb.
    enough (∃ o, lists_sort_cmp compare_values_for_sort items items0 (len_cmp items items0) = Ok o
      ∧ ∀ r1 r2, lex (items_key k items ++ r1) (items_key k items0 ++ r2) = cmp_then o (lex r1 r2))
      as (o & Ho & Hl).
    { exists o. split; [exact Ho|]. intros r1 r2. rewrite !sort_key_list. simpl. apply Hl. }
    assert (∀ x, x ∈ items → ∀ y, sortable k x → sortable k y →
      ∃ o, compare_values_for_sort x y = Ok o
        ∧ ∀ r1 r2, lex (sort_key k x ++ r1) (sort_key k y ++ r2) = cmp_then o (lex r1 r2)) as IHl.
    { intros x Hx y. apply IH. simpl. pose proof (foldr_sum_elem vsize _ _ Hx). unfold list_vsize. lia. }
    clear - Ha Hb IHl. unfold len_cmp.
    revert items0 Hb. induction Ha as [|x l Hx Ha IH]; intros [|y l'] Hb.
    + by eexists.
    + by eexists.
    + by eexists.
    + apply Forall_cons in Hb as [Hy Hb].
      destruct (IHl x ltac:(left) y Hx Hy) as (o & Ho & Hk).
      destruct (IH (λ z Hz, IHl z ltac:(by right)) l' Hb) as (o' & Ho' & Hk').
      exists (cmp_then o o'). split.
      * cbn [lists_sort_cmp]. rewrite Ho. simpl in *. destruct o; simpl; [exact Ho'|done..].
      * intros r1 r2. cbn [items_key app lex]. rewrite Z.compare_refl. cbn [cmp_then].
        rewrite <- !app_assoc, Hk, Hk'. by rewrite cmp_then_assoc.
Qed.

Lemma sort_cmp_lex k a b : sortable k a → sortable k b →
  compare_values_for_sort a b = Ok (lex (sort_key k a) (sort_key k b)).
Proof.
  intros Ha Hb. destruct (sort_cmp_key k a b Ha Hb) as (o & -> & H). f_equal.
  specialize (H [] []). rewrite !app_nil_r in H. rewrite H. by destruct o.
Qed.
End keys.

(** * Sorting rows

    Stable sorting by a total preorder, and the operator Sort. *)

(** ** Insertion *)
Section sorted.
Context {A : Type} (P : A → Prop) (cmp : A → A → comparison) (H : total_preorder P cmp).
Abbreviation before x y := (cmp x y ≠ Gt).

Lemma insert_by_perm x l : insert_by cmp x l ≡ₚ x :: l.
Proof.
  induction l as [|y l IH]; simpl; [done|]. destruct (cmp x y); [done..|].
  rewrite IH. apply Permutation_swap.
Qed.
Lemma sort_by_perm l : sort_by cmp l ≡ₚ l.
Proof.
  induction l as [|x l IH]; [done|]. change (sort_by cmp (x :: l)) with (insert_by cmp x (sort_by cmp l)).
  by rewrite insert_by_perm, IH.
Qed.
Lemma insert_by_sorted x l : P x → Forall P l →
  StronglySorted (λ x y, before x y) l → StronglySorted (λ x y, before x y) (insert_by cmp x l).
Proof.
  intros Hx Hl. induction 1 as [|y l Hs IH Hy]; simpl; [by repeat constructor|].
  apply Forall_cons in Hl as [Py Pl]. specialize (IH Pl).
  pose proof (tp_sym _ _ H x y Hx Py) as E.
  assert (before x y → StronglySorted (λ x y, before x y) (x :: y :: l)) as Hlt.
  { intros Hb. constructor; [by constructor|]. constructor; [done|].
    rewrite Forall_forall in *. intros z Hz. eapply (tp_trans _ _ H x y z); auto. }
  destruct (cmp x y); [by apply Hlt..|]. constructor; [done|]. rewrite insert_by_perm.
  constructor; [by rewrite E|done].
Qed.
Lemma sort_by_sorted l : Forall P l → StronglySorted (λ x y, before x y) (sort_by cmp l).
Proof.
  induction 1 as [|x l Hx Hl IH]; [constructor|].
  change (sort_by cmp (x :: l)) with (insert_by cmp x (sort_by cmp l)).
  apply insert_by_sorted; [done| |done]. by rewrite sort_by_perm.
Qed.

(** Elements that compare equal keep their order. *)
Lemma insert_by_class z x l : P z → P x → Forall P l →
  filter (λ y, cmp y z = Eq) (insert_by cmp x l) = filter (λ y, cmp y z = Eq) (x :: l).
Proof.
  intros Hz Hx. induction 1 as [|y l Hy Hl IH]; simpl; [done|].
  destruct (cmp x y) eqn:E; [done..|]. rewrite (filter_cons _ y), IH, !filter_cons.
  destruct (decide (cmp x z = Eq)) as [Ex|Ex], (decide (cmp y z = Eq)) as [Ey|Ey]; try done.
  exfalso. pose proof (tp_eq_l _ _ H x z y Hx Hz Hy Ex) as T.
  rewrite (tp_sym _ _ H y z), Ey in T by done. simpl in T. congruence.
Qed.
Lemma sort_by_class z l : P z → Forall P l →
  filter (λ y, cmp y z = Eq) (sort_by cmp l) = filter (λ y, cmp y z = Eq) l.
Proof.
  intros Hz. induction 1 as [|x l Hx Hl IH]; [done|].
  change (sort_by cmp (x :: l)) with (insert_by cmp x (sort_by cmp l)).
  rewrite insert_by_class by (done || by rewrite sort_by_perm). by rewrite !filter_cons, IH.
Qed.
End sorted.

(** ** Computations that always return one value *)
Definition returns {S E A} (Inv : S → Prop) (m : M S E A) (a : A) : Prop :=
  ∀ s, Inv s → ∃ s', Inv s' ∧ m s = (s', Ok a).

Section returns.
Context {S E : Type} (Inv : S → Prop).
Lemma returns_ret {A} (a : A) : returns (E := E) Inv (mret a) a.
Proof. intros s Hs. by exists s. Qed.
Lemma returns_lift {A} (r : result E A) a : r = Ok a → returns Inv (lift r) a.
Proof. intros -> s Hs. by exists s. Qed.
Lemma returns_bind {A B} (m : M S E A) (f : A → M S E B) a b :
  returns Inv m a → returns Inv (f a) b → returns Inv (m ≫= f) b.
Proof.
  intros Hm Hf s Hs. destruct (Hm s Hs) as (s1 & Hs1 & E1). destruct (Hf s1 Hs1) as (s2 & Hs2 & E2).
  exists s2. split; [done|]. by rewrite (run_bind _ _ _ _ _ E1).
Qed.

Lemma insert_by_returns {A} (P : A → Prop) (cmp : A → A → comparison) (cmp_m : A → A → M S E comparison) x l :
  (∀ x y, P x → P y → returns Inv (cmp_m x y) (cmp x y)) → P x → Forall P l →
  returns Inv (insert_by_m cmp_m x l) (insert_by cmp x l).
Proof.
  intros Hc Hx. induction 1 as [|y l Hy Hl IH]; simpl; [apply returns_ret|].
  eapply returns_bind; [by apply Hc|]. destruct (cmp x y); [apply returns_ret..|].
  eapply returns_bind; [exact IH|apply returns_ret].
Qed.
Lemma sort_by_returns {A} (P : A → Prop) (cmp : A → A → comparison) (cmp_m : A → A → M S E comparison) l :
  (∀ x y, P x → P y → returns Inv (cmp_m x y) (cmp x y)) → Forall P l →
  returns Inv (sort_by_m cmp_m l) (sort_by cmp l).
Proof.
  intros Hc. induction 1 as [|x l Hx Hl IH]; [apply returns_ret|].
  change (sort_by cmp (x :: l)) with (insert_by cmp x (sort_by cmp l)).
  eapply returns_bind; [exact IH|]. eapply insert_by_returns; [done..|]. by rewrite sort_by_perm.
Qed.
End returns.

(** ** Rows *)
Section rows.
Context {Co : ChronoOrder} {L : ChronoOrderLaws} {S : Type} (Inv : S → Prop).
Context (ev : Expr → RecordView → M S GraphError value).
Context (kd : Expr → leaf_kind) (val : Expr → NamedRecord → value).

Definition direction (item : SortItem Expr) (o : comparison) : comparison :=
  if si_descending item then CompOpp o else o.
(** The order that the items ask for: the first in which two rows differ decides. *)
Definition item_order (item : SortItem Expr) (a b : NamedRecord) : comparison :=
  let e := si_expr item in
  direction item (lex (sort_key (kd e) (val e a)) (sort_key (kd e) (val e b))).
Fixpoint row_order (items : list (SortItem Expr)) (a b : NamedRecord) : comparison :=
  match items with
  | [] => Eq
  | item :: items' => cmp_then (item_order item a b) (row_order items' a b)
  end.

(** Each item has a value in the row, of the item's kind. *)
Definition row_sortable (items : list (SortItem Expr)) (r : NamedRecord) : Prop :=
  Forall (λ item, let e := si_expr item in
    returns Inv (or_null (ev e (named_view r))) (val e r) ∧ sortable (kd e) (val e r)) items.

Lemma row_order_preorder items : total_preorder (λ _, True) (row_order items).
Proof.
  induction items as [|item items IH]; [by split|]. apply preorder_then; [|done].
  unfold item_order, direction. destruct (si_descending item); [apply preorder_reverse|];
    by eapply preorder_by_key.
Qed.

Lemma compare_rows_returns items a b : row_sortable items a → row_sortable items b →
  returns Inv (compare_rows ev items (named_view a) (named_view b)) (row_order items a b).
Proof.
  unfold row_sortable. induction items as [|item items IH]; intros Ha Hb; [apply returns_ret|].
  apply Forall_cons in Ha as [[Ra Sa] Ha], Hb as [[Rb Sb] Hb].
  cbn [compare_rows]. eapply returns_bind; [exact Ra|]. eapply returns_bind; [exact Rb|].
  eapply returns_bind; [by apply returns_lift, (sort_cmp_lex (kd (si_expr item)))|].
  cbn [row_order]. unfold item_order, direction.
  destruct (if si_descending item then _ else _); simpl; [by apply IH|apply returns_ret..].
Qed.

Lemma sort_records_sorts items records : Forall (row_sortable items) records →
  returns Inv (sort_records ev items records) (sort_by (row_order items) records).
Proof.
  intros Hr. eapply sort_by_returns; [|exact Hr]. intros a b Ha Hb. by apply compare_rows_returns.
Qed.
End rows.
