(* ===== verification/PlanSim.v ===== *)
(** * Plans in two states

    Every operator of a plan, run with expressions that evaluate alike in two kinds
    of states, ends alike: in step from the leaves to the whole plan. *)
From S2P Require Export Simulate.
#[local] Open Scope Z_scope.

(** ** Loops *)
Section loops.
Context {S1 S2 : Type} (I : S1 → S2 → Prop).
Abbreviation sim := (msim I eq).

Lemma concat_m_sim {A B} (f1 : A → M S1 GraphError (list B)) (f2 : A → M S2 GraphError (list B)) l :
  (∀ x, sim (f1 x) (f2 x)) → sim (concat_m f1 l) (concat_m f2 l).
Proof.
  intros Hf. induction l as [|x l IH]; cbn [concat_m]; [by sim_step|].
  apply msim_bind_eq; [apply Hf|]. intros ys. apply msim_bind_eq; [exact IH|]. intros r. by sim_step.
Qed.
Lemma filter_m_sim {A} (f1 : A → M S1 GraphError bool) (f2 : A → M S2 GraphError bool) l :
  (∀ x, sim (f1 x) (f2 x)) → sim (filter_m f1 l) (filter_m f2 l).
Proof.
  intros Hf. apply concat_m_sim. intros x. apply msim_bind_eq; [apply Hf|]. intros b. by sim_step.
Qed.
Lemma collect_m_sim {A B} (f1 : A → M S1 GraphError B) (f2 : A → M S2 GraphError B) l :
  (∀ x, sim (f1 x) (f2 x)) → sim (collect_m f1 l) (collect_m f2 l).
Proof. intros Hf. apply msim_collect_m_eq. intros x _. apply Hf. Qed.
Lemma fold_m_sim {A B} (f1 : B → A → M S1 GraphError B) (f2 : B → A → M S2 GraphError B) b l :
  (∀ b x, sim (f1 b x) (f2 b x)) → sim (fold_m f1 b l) (fold_m f2 b l).
Proof.
  intros Hf. revert b. induction l as [|x l IH]; intros b; cbn [fold_m]; [by sim_step|].
  apply msim_bind_eq; [apply Hf|]. intros b'. apply IH.
Qed.
Lemma for_each_sim {A} (f1 : A → M S1 GraphError unit) (f2 : A → M S2 GraphError unit) l :
  (∀ x, sim (f1 x) (f2 x)) → sim (for_each f1 l) (for_each f2 l).
Proof.
  intros Hf. induction l as [|x l IH]; cbn [for_each]; [by sim_step|].
  apply msim_bind_eq; [apply Hf|]. intros _. exact IH.
Qed.
Lemma insert_by_m_sim {A} (f1 : A → A → M S1 GraphError comparison) (f2 : A → A → M S2 GraphError comparison) x l :
  (∀ x y, sim (f1 x y) (f2 x y)) → sim (insert_by_m f1 x l) (insert_by_m f2 x l).
Proof.
  intros Hf. induction l as [|y l IH]; cbn [insert_by_m]; [by sim_step|].
  apply msim_bind_eq; [apply Hf|]. intros [| |]; try by sim_step.
Qed.
Lemma sort_by_m_sim {A} (f1 : A → A → M S1 GraphError comparison) (f2 : A → A → M S2 GraphError comparison) l :
  (∀ x y, sim (f1 x y) (f2 x y)) → sim (sort_by_m f1 l) (sort_by_m f2 l).
Proof.
  intros Hf. induction l as [|x l IH]; cbn [sort_by_m]; [by sim_step|].
  apply msim_bind_eq; [exact IH|]. intros s. by apply insert_by_m_sim.
Qed.
Lemma ok_m_sim {A} (m1 : M S1 GraphError A) (m2 : M S2 GraphError A) : sim m1 m2 → sim (ok_m m1) (ok_m m2).
Proof.
  intros H. eapply msim_mono; [by apply msim_ok_m|]. intros a b Hab. by destruct Hab as [? ? ->|].
Qed.
Lemma ignore_err_sim {A} (m1 : M S1 GraphError A) (m2 : M S2 GraphError A) :
  sim m1 m2 → sim (ignore_err m1) (ignore_err m2).
Proof. intros H. apply msim_bind_eq; [by apply ok_m_sim|]. intros o. by sim_step. Qed.
End loops.

(** Loops, then the shapes of [sim_step]. *)
Ltac plan_step :=
  first
    [ solve [eauto with sim]
    | apply concat_m_sim; intros ? | apply filter_m_sim; intros ? | apply collect_m_sim; intros ?
    | apply fold_m_sim; intros ? ? | apply for_each_sim; intros ? | apply sort_by_m_sim; intros ? ?
    | apply ok_m_sim | apply ignore_err_sim
    | sim_step ].
Ltac plan_sim := intros; repeat plan_step.

(** ** Operators that read *)
Section reads.
Context {Ch : Chrono} {Co : ChronoOrder} {Db : DebugText}.
Context {conn : Type} {O : SqlOps conn} {Mp : Msgpack} {Fm : FtsMatch conn}.
Context {S1 S2 : Type} (I : S1 → S2 → Prop).
Context (ev1 : Expr → RecordView → M S1 GraphError value) (ev2 : Expr → RecordView → M S2 GraphError value).
Context (Hev : ∀ e view, msim I eq (ev1 e view) (ev2 e view)).
Context (c : conn) (params : option (gmap string value)).
Abbreviation sim := (msim I eq).

Lemma ev_in_sim e rec : sim (ev_in ev1 e rec) (ev_in ev2 e rec).
Proof. apply Hev. Qed.
#[local] Hint Resolve Hev ev_in_sim : sim.
Lemma holds_in_sim e rec : sim (holds_in ev1 e rec) (holds_in ev2 e rec).
Proof. unfold holds_in, holds. plan_sim. Qed.
#[local] Hint Resolve holds_in_sim : sim.
Lemma passes_sim o rec : sim (passes ev1 o rec) (passes ev2 o rec).
Proof. unfold passes. plan_sim. Qed.
#[local] Hint Resolve passes_sim : sim.

Lemma id_lookup_sim alias e rec : sim (exec_id_lookup c ev1 alias e rec) (exec_id_lookup c ev2 alias e rec).
Proof. unfold exec_id_lookup. plan_sim. Qed.
Lemma index_lookup_sim label alias ps ls o :
  sim (exec_index_lookup c params ev1 label alias ps ls o) (exec_index_lookup c params ev2 label alias ps ls o).
Proof. unfold exec_index_lookup. plan_sim. Qed.
Lemma scored_row_sim n alias score o :
  sim (scored_row ev1 n alias score o) (scored_row ev2 n alias score o).
Proof. unfold scored_row. plan_sim. Qed.
#[local] Hint Resolve id_lookup_sim index_lookup_sim scored_row_sim : sim.
Lemma fulltext_lookup_sim label alias property op e o rec :
  sim (exec_fulltext_lookup c ev1 label alias property op e o rec)
      (exec_fulltext_lookup c ev2 label alias property op e o rec).
Proof. unfold exec_fulltext_lookup, exec_fulltext_fallback. plan_sim. Qed.

Lemma project_items_sim emit items rec projected :
  sim (project_items ev1 emit items rec projected) (project_items ev2 emit items rec projected).
Proof.
  revert projected. induction items as [|item items IH]; intros projected; cbn [project_items]; [by sim_step|].
  apply msim_bind_eq; [|intros p; apply IH].
  unfold project_item, project_variable, project_expr. cbv zeta. plan_sim.
Qed.
#[local] Hint Resolve project_items_sim : sim.
Lemma exec_project_sim items emit records :
  sim (exec_project ev1 items emit records) (exec_project ev2 items emit records).
Proof. unfold exec_project. plan_sim. Qed.
Lemma exec_filter_sim e records : sim (exec_filter ev1 e records) (exec_filter ev2 e records).
Proof. unfold exec_filter. plan_sim. Qed.
Lemma exec_unwind_sim e alias records :
  sim (exec_unwind ev1 e alias records) (exec_unwind ev2 e alias records).
Proof. unfold exec_unwind. plan_sim. Qed.

Abbreviation rows := (list NamedRecord).
Context (right1 : NamedRecord → M S1 GraphError rows) (right2 : NamedRecord → M S2 GraphError rows).
Context (Hright : ∀ rec, sim (right1 rec) (right2 rec)).
#[local] Hint Resolve Hright : sim.

Lemma cross_product_sim same max (r1 : M S1 GraphError rows) (r2 : M S2 GraphError rows) l results :
  sim r1 r2 → sim (cross_product same max r1 l results) (cross_product same max r2 l results).
Proof.
  intros Hr. revert results. induction l as [|x l IH]; intros results; cbn [cross_product]; [by sim_step|].
  apply msim_bind_eq; [exact Hr|]. intros rs. apply msim_bind_eq; [by sim_step|]. intros res. apply IH.
Qed.
Lemma correlated_join_sim same l :
  sim (correlated_join right1 same l) (correlated_join right2 same l).
Proof. unfold correlated_join. plan_sim. Qed.
Lemma left_outer_join_sim aliases o l :
  sim (left_outer_join ev1 right1 aliases o l) (left_outer_join ev2 right2 aliases o l).
Proof. unfold left_outer_join. plan_sim. Qed.
Lemma correlated_product_sim merge same outer l :
  sim (correlated_product merge same right1 outer l) (correlated_product merge same right2 outer l).
Proof. unfold correlated_product. plan_sim. Qed.

Lemma correlated_id_sim alias e outer :
  sim (correlated_id_lookup c ev1 alias e outer) (correlated_id_lookup c ev2 alias e outer).
Proof. unfold correlated_id_lookup. plan_sim. Qed.
Lemma correlated_index_sim label alias ps ls o outer :
  sim (correlated_index_lookup c params ev1 label alias ps ls o outer)
      (correlated_index_lookup c params ev2 label alias ps ls o outer).
Proof. unfold correlated_index_lookup. plan_sim. Qed.
Lemma correlated_filter_sim e outer l :
  sim (correlated_filter ev1 e outer l) (correlated_filter ev2 e outer l).
Proof. unfold correlated_filter. plan_sim. Qed.
Lemma correlated_items_sim items rec projected :
  sim (correlated_project_items ev1 items rec projected) (correlated_project_items ev2 items rec projected).
Proof.
  revert projected. induction items as [|item items IH]; intros projected; cbn [correlated_project_items]; [by sim_step|].
  apply msim_bind_eq; [|intros p; apply IH]. unfold correlated_project_item. cbv zeta. plan_sim.
Qed.
#[local] Hint Resolve correlated_items_sim : sim.
Lemma correlated_project_sim items emit l :
  sim (correlated_project ev1 items emit l) (correlated_project ev2 items emit l).
Proof. unfold correlated_project. plan_sim. Qed.

(** *** Aggregation and sorting *)
Lemma dedup_loop_sim e seen l : sim (dedup_loop ev1 e seen l) (dedup_loop ev2 e seen l).
Proof.
  revert seen. induction l as [|x l IH]; intros seen; cbn [dedup_loop]; [by sim_step|].
  apply msim_bind_eq; [apply Hev|]. intros v. case_match; [apply IH|].
  apply msim_bind_eq; [apply IH|]. intros k. by sim_step.
Qed.
Lemma agg_loop_sim {B} e (f : B → value → Res B) b l : sim (agg_loop ev1 e f b l) (agg_loop ev2 e f b l).
Proof.
  revert b. induction l as [|x l IH]; intros b; cbn [agg_loop]; [by sim_step|].
  apply msim_bind_eq; [apply Hev|]. intros v. apply msim_bind_eq; [by sim_step|]. intros b'. apply IH.
Qed.
Lemma agg_fold_sim {B} e (f : B → value → B) b l : sim (agg_fold ev1 e f b l) (agg_fold ev2 e f b l).
Proof. apply agg_loop_sim. Qed.
Lemma count_loop_sim e l : sim (count_loop ev1 e l) (count_loop ev2 e l).
Proof.
  induction l as [|x l IH]; cbn [count_loop]; [by sim_step|].
  apply msim_bind_eq; [apply ok_m_sim, Hev|]. intros o. apply msim_bind_eq; [exact IH|].
  intros n. by sim_step.
Qed.
#[local] Hint Resolve dedup_loop_sim agg_loop_sim agg_fold_sim count_loop_sim : sim.
Lemma percentile_sim agg f l : sim (percentile ev1 agg f l) (percentile ev2 agg f l).
Proof. unfold percentile, percentile_argument. plan_sim. Qed.
#[local] Hint Resolve percentile_sim : sim.
Lemma compute_aggregate_sim agg l : sim (compute_aggregate ev1 agg l) (compute_aggregate ev2 agg l).
Proof. unfold compute_aggregate. plan_sim. Qed.
#[local] Hint Resolve compute_aggregate_sim : sim.
Lemma set_aggregates_sim name aggregates views rec :
  sim (set_aggregates ev1 name aggregates views rec) (set_aggregates ev2 name aggregates views rec).
Proof.
  revert rec. induction aggregates as [|a l IH]; intros rec; cbn [set_aggregates]; [by sim_step|].
  apply msim_bind_eq; [apply compute_aggregate_sim|]. intros v. apply IH.
Qed.
Lemma group_loop_sim {A} (view : A → RecordView) keys groups l :
  sim (group_loop ev1 view keys groups l) (group_loop ev2 view keys groups l).
Proof.
  revert groups. induction l as [|x l IH]; intros groups; cbn [group_loop]; [by sim_step|].
  apply msim_bind_eq; [unfold key_of; plan_sim|]. intros k. apply IH.
Qed.
#[local] Hint Resolve set_aggregates_sim group_loop_sim : sim.
Lemma aggregate_with_sim kn an l keys aggregates :
  sim (aggregate_with ev1 kn an l keys aggregates) (aggregate_with ev2 kn an l keys aggregates).
Proof. unfold aggregate_with. plan_sim. Qed.

Lemma compare_rows_sim items a b : sim (compare_rows ev1 items a b) (compare_rows ev2 items a b).
Proof.
  induction items as [|i l IH]; cbn [compare_rows]; [by sim_step|].
  apply msim_bind_eq; [apply msim_or_null, Hev|]. intros va.
  apply msim_bind_eq; [apply msim_or_null, Hev|]. intros vb.
  apply msim_bind_eq; [by sim_step|]. intros o. destruct (si_descending i), o; cbn [CompOpp]; try exact IH; by sim_step.
Qed.
Lemma sort_records_sim items l : sim (sort_records ev1 items l) (sort_records ev2 items l).
Proof. apply sort_by_m_sim. intros x y. apply compare_rows_sim. Qed.
End reads.

(** ** Operators that write *)
Section writes.
Context {conn : Type} {O : SqlOps conn} {Mp : Msgpack} {Fs : FtsSearch conn} {S1 S2 : Type}.
Context (I : conn * S1 → conn * S2 → Prop).
Context (Hdb : ∀ w1 w2, I w1 w2 → w1.1 = w2.1).
Abbreviation sim := (msim I eq).

Lemma in_db_sim {A} (f : conn → Res A) : sim (in_db f) (in_db f).
Proof. intros w1 w2 H. unfold in_db. rewrite (Hdb _ _ H). split; [done|apply rsim_refl]. Qed.
Lemma reading_sim {A} (f1 : conn → M (conn * S1) GraphError A) (f2 : conn → M (conn * S2) GraphError A) :
  (∀ c, sim (f1 c) (f2 c)) → sim (reading f1) (reading f2).
Proof. intros Hf w1 w2 H. unfold reading. rewrite (Hdb _ _ H). by apply Hf. Qed.
#[local] Hint Resolve in_db_sim : sim.

Context (ev1 : Expr → RecordView → M (conn * S1) GraphError value).
Context (ev2 : Expr → RecordView → M (conn * S2) GraphError value).
Context (Hev : ∀ e view, msim I eq (ev1 e view) (ev2 e view)).
Lemma ev_in_writes e rec : sim (ev_in ev1 e rec) (ev_in ev2 e rec).
Proof. apply Hev. Qed.
#[local] Hint Resolve ev_in_writes : sim.

Lemma exec_call_sim procedures name args yields max l :
  sim (exec_call ev1 procedures name args yields max l) (exec_call ev2 procedures name args yields max l).
Proof. unfold exec_call, procedure_rows. destruct (procedures !! name); [plan_sim|]. destruct (builtin_signature name); plan_sim. Qed.

Context (Hwrite : ∀ w1 w2 c, I w1 w2 → I (c, w1.2) (c, w2.2)).
Lemma on_db_sim {A} (m : M conn GraphError A) : sim (on_db m) (on_db m).
Proof.
  intros w1 w2 H. unfold on_db. rewrite (Hdb _ _ H). destruct (m w2.1) as [c r]. simpl.
  split; [by apply Hwrite|apply rsim_refl].
Qed.
#[local] Hint Resolve on_db_sim : sim.

Lemma eval_props_sim props rec : sim (eval_props ev1 props rec) (eval_props ev2 props rec).
Proof. unfold eval_props. plan_sim. Qed.
Lemma insert_node_sim labels props : sim (insert_node labels props) (insert_node labels props).
Proof. unfold insert_node. plan_sim. Qed.
#[local] Hint Resolve eval_props_sim insert_node_sim : sim.
Lemma exec_create_node_sim labels alias props :
  sim (exec_create_node ev1 labels alias props) (exec_create_node ev2 labels alias props).
Proof. unfold exec_create_node. plan_sim. Qed.
Lemma create_node_op_sim view labels alias props st :
  sim (create_node_op ev1 view labels alias props st) (create_node_op ev2 view labels alias props st).
Proof. unfold create_node_op. plan_sim. Qed.
Lemma create_edge_op_sim view s d t r props st :
  sim (create_edge_op ev1 view s d t r props st) (create_edge_op ev2 view s d t r props st).
Proof. unfold create_edge_op. plan_sim. Qed.
#[local] Hint Resolve create_node_op_sim create_edge_op_sim : sim.
Lemma exec_create_sequence_sim ops :
  sim (exec_create_sequence ev1 ops) (exec_create_sequence ev2 ops).
Proof. unfold exec_create_sequence, sequence_op. plan_sim. Qed.
Lemma exec_match_create_sim ops l :
  sim (exec_match_create ev1 ops l) (exec_match_create ev2 ops l).
Proof. unfold exec_match_create, match_create_op. plan_sim. Qed.

Lemma doom_rows_sim exprs l d : sim (doom_rows ev1 exprs l d) (doom_rows ev2 exprs l d).
Proof.
  revert d. induction l as [|x l IH]; intros d; cbn [doom_rows]; [by sim_step|].
  apply msim_bind_eq; [unfold doom_expr; plan_sim|]. intros p.
  apply msim_bind_eq; [apply IH|]. intros q. by sim_step.
Qed.
#[local] Hint Resolve doom_rows_sim : sim.
Lemma exec_delete_sim exprs detach l : sim (exec_delete ev1 exprs detach l) (exec_delete ev2 exprs detach l).
Proof. unfold exec_delete, delete_doomed_edge, delete_doomed_node. plan_sim. Qed.

Lemma change_node_sim id old m props : sim (change_node id old m props) (change_node id old m props).
Proof. unfold change_node. plan_sim. Qed.
Lemma set_edge_prop_sim r k v : sim (set_edge_prop r k v) (set_edge_prop r k v).
Proof. unfold set_edge_prop. plan_sim. Qed.
Lemma label_node_sim id labels : sim (label_node id labels) (label_node id labels).
Proof. unfold label_node. plan_sim. Qed.
#[local] Hint Resolve change_node_sim set_edge_prop_sim label_node_sim : sim.
Lemma exec_set_property_sim assignments l :
  sim (exec_set_property ev1 assignments l) (exec_set_property ev2 assignments l).
Proof. unfold exec_set_property, set_assignment. plan_sim. Qed.
Lemma exec_set_properties_sim v e merge l :
  sim (exec_set_properties ev1 v e merge l) (exec_set_properties ev2 v e merge l).
Proof. unfold exec_set_properties, Writes.set_map, set_edge_map, set_node_map. cbv zeta. plan_sim. Qed.
Lemma exec_set_label_sim v labels l : sim (exec_set_label v labels l) (exec_set_label v labels l).
Proof. unfold exec_set_label, set_label. plan_sim. Qed.
Lemma exec_remove_sim items l : sim (exec_remove items l) (exec_remove items l).
Proof. unfold exec_remove, remove_item, drop_label. plan_sim. Qed.
Lemma exec_create_index_sim label ps : sim (exec_create_index label ps) (exec_create_index label ps).
Proof. unfold exec_create_index. plan_sim. Qed.
Lemma exec_drop_index_sim label ps : sim (exec_drop_index label ps) (exec_drop_index label ps).
Proof. unfold exec_drop_index. plan_sim. Qed.

(** *** MERGE *)
Lemma resolve_to_map_sim e rec : sim (resolve_to_map ev1 e rec) (resolve_to_map ev2 e rec).
Proof. unfold resolve_to_map. plan_sim. Qed.
#[local] Hint Resolve resolve_to_map_sim : sim.
Lemma apply_merge_set_item_node_sim id rec item :
  sim (apply_merge_set_item_node ev1 id rec item) (apply_merge_set_item_node ev2 id rec item).
Proof.
  unfold apply_merge_set_item_node, maintain_indexes_after_prop_change, set_each, clear_each. cbv zeta. plan_sim.
Qed.
Lemma apply_merge_set_item_edge_sim r rec item :
  sim (apply_merge_set_item_edge ev1 r rec item) (apply_merge_set_item_edge ev2 r rec item).
Proof. unfold apply_merge_set_item_edge, set_each, clear_each. plan_sim. Qed.
Lemma merge_props_sim props rec : sim (merge_props ev1 props rec) (merge_props ev2 props rec).
Proof. unfold merge_props. plan_sim. Qed.
#[local] Hint Resolve apply_merge_set_item_node_sim apply_merge_set_item_edge_sim merge_props_sim : sim.
Lemma bind_merged_node_sim p alias id rec : sim (bind_merged_node p alias id rec) (bind_merged_node p alias id rec).
Proof. unfold bind_merged_node. cbv zeta. plan_sim. Qed.
Lemma bind_edge_path_sim p r rec : sim (bind_edge_path p r rec) (bind_edge_path p r rec).
Proof. unfold bind_edge_path. plan_sim. Qed.
#[local] Hint Resolve bind_merged_node_sim bind_edge_path_sim : sim.
Lemma find_or_create_sim label props :
  sim (find_or_create_merge_node ev1 label props) (find_or_create_merge_node ev2 label props).
Proof. unfold find_or_create_merge_node. plan_sim. Qed.
#[local] Hint Resolve find_or_create_sim : sim.
Lemma exec_merge_sim pattern on_create on_match :
  sim (exec_merge ev1 pattern on_create on_match) (exec_merge ev2 pattern on_create on_match).
Proof. unfold exec_merge, exec_merge_node, exec_merge_relationship, unreachable. cbv zeta. plan_sim. Qed.
Lemma match_merge_node_sim pattern on_create on_match rec :
  sim (match_merge_node ev1 pattern on_create on_match rec) (match_merge_node ev2 pattern on_create on_match rec).
Proof. unfold match_merge_node, unreachable. cbv zeta. plan_sim. Qed.
Lemma match_merge_edge_sim pattern s d rel on_create on_match rec :
  sim (match_merge_edge ev1 pattern s d rel on_create on_match rec)
      (match_merge_edge ev2 pattern s d rel on_create on_match rec).
Proof. unfold match_merge_edge, bind_created_edge, bind_matched_edge. cbv zeta. plan_sim. Qed.
#[local] Hint Resolve match_merge_node_sim match_merge_edge_sim : sim.
Lemma exec_match_merge_sim pattern on_create on_match l :
  sim (exec_match_merge ev1 pattern on_create on_match l) (exec_match_merge ev2 pattern on_create on_match l).
Proof. unfold exec_match_merge. plan_sim. Qed.
End writes.

(** ** Plans *)
Section plans.
Context {Ch : Chrono} {Co : ChronoOrder} {Lm : Libm} {Un : Unicode} {Db : DebugText}.
Context {conn : Type} {O : SqlOps conn} {Mp : Msgpack} {Fm : FtsMatch conn} {Fs : FtsSearch conn}.
Context {S1 S2 : Type} (X1 : Effects S1) (X2 : Effects S2).
Context (Q1 : conn → Subqueries S1) (Q2 : conn → Subqueries S2) (T : conn → Traversals).
Context (params : option (gmap string value)) (procedures : ProcedureRegistry) (ctx : Limits).
Context (I : conn * S1 → conn * S2 → Prop) (Hdb : ∀ w1 w2, I w1 w2 → w1.1 = w2.1).
Abbreviation sim := (msim I eq).
Abbreviation eval1 := (eval X1 Q1 params).
Abbreviation eval2 := (eval X2 Q2 params).
Abbreviation run1 := (run X1 Q1 T params procedures ctx).
Abbreviation run2 := (run X2 Q2 T params procedures ctx).
Context (Hev : ∀ e view, sim (eval1 e view) (eval2 e view)).

Record run_sim (r1 : Run (S := S1)) (r2 : Run (S := S2)) : Prop := {
  plain_sim : sim (plain r1) (plain r2);
  under_sim outer : sim (under r1 outer) (under r2 outer) }.

Lemma fallback_sim m1 m2 : sim m1 m2 → run_sim (fallback m1) (fallback m2).
Proof. by split. Qed.
Lemma over_sim r1 r2 f1 f2 g1 g2 :
  run_sim r1 r2 → (∀ l, sim (f1 l) (f2 l)) → (∀ outer l, sim (g1 outer l) (g2 outer l)) →
  run_sim (over r1 f1 g1) (over r2 f2 g2).
Proof. intros [Hp Hu] Hf Hg. split; [|intros outer]; apply msim_bind_eq; auto. Qed.
Lemma over_plain_sim r1 r2 f1 f2 :
  run_sim r1 r2 → (∀ l, sim (f1 l) (f2 l)) → run_sim (over_plain r1 f1) (over_plain r2 f2).
Proof. intros [Hp Hu] Hf. apply fallback_sim. by apply msim_bind_eq. Qed.
Lemma reading_r_sim {A} (f : conn → Res A) : sim (reading_r f) (reading_r f).
Proof. by apply in_db_sim. Qed.
#[local] Hint Resolve reading_r_sim : sim.

(** A plan that may write needs states that stay related when both are written to. *)
Definition may_run (plan : LogicalOp) : Prop :=
  is_read_only plan = true ∨ ∀ w1 w2 c, I w1 w2 → I (c, w1.2) (c, w2.2).
Lemma may_run_inputs op i : may_run op → i ∈ inputs op → may_run i.
Proof.
  intros [Hr|Hw] Hi; [left|by right].
  rewrite is_read_only_step, andb_true_iff, forallb_forall in Hr. by apply Hr, list_elem_of_In.
Qed.
Lemma may_run_write op :
  may_run op → is_bare_write op = true → ∀ w1 w2 c, I w1 w2 → I (c, w1.2) (c, w2.2).
Proof. intros [Hr|Hw] Hb; [|done]. by rewrite is_read_only_step, Hb in Hr. Qed.

#[local] Hint Resolve id_lookup_sim index_lookup_sim fulltext_lookup_sim exec_project_sim exec_filter_sim
  exec_unwind_sim cross_product_sim correlated_join_sim left_outer_join_sim correlated_product_sim
  correlated_id_sim correlated_index_sim correlated_filter_sim correlated_project_sim aggregate_with_sim
  sort_records_sim exec_call_sim exec_create_node_sim exec_create_sequence_sim exec_match_create_sim
  exec_delete_sim exec_set_property_sim exec_set_properties_sim exec_set_label_sim exec_remove_sim
  exec_create_index_sim exec_drop_index_sim exec_merge_sim exec_match_merge_sim : sim.

Ltac op_step :=
  lazymatch goal with
  | |- run_sim (over _ _ _) _ => apply over_sim; [|intros ?|intros ? ?]
  | |- run_sim (over_plain _ _) _ => apply over_plain_sim; [|intros ?]
  | |- run_sim (fallback _) _ => apply fallback_sim
  | |- run_sim (mkRun _ _) _ => split; [cbn [plain]|intros ?; cbn [under]]
  | H : ∀ i, i ∈ _ → run_sim _ _ |- run_sim (run _ _ _ _ _ _ ?op) _ =>
      apply H; first [assumption | left | right; left]
  | |- msim _ _ (collect_m (λ i, plain (run _ _ _ _ _ _ i)) _) _ =>
      apply msim_collect_m_eq; intros ? ?; apply plain_sim
  | |- msim _ _ (plain _) _ => apply plain_sim
  | |- msim _ _ (under _ _) _ => apply under_sim
  | |- msim _ _ (reading _) _ => apply reading_sim; [exact Hdb|intros ?]
  | |- msim _ _ (cross_product _ _ _ _ _) _ => apply cross_product_sim
  | |- msim _ _ (correlated_join _ _ _) _ => apply correlated_join_sim; intros ?
  | |- msim _ _ (correlated_product _ _ _ _ _) _ => apply correlated_product_sim; intros ?
  | |- msim _ _ (left_outer_join _ _ _ _ _) _ => apply left_outer_join_sim; [exact Hev|intros ?]
  | |- msim _ _ _ _ => plan_step
  end.
Lemma run_in_step plan : may_run plan → run_sim (run1 plan) (run2 plan).
Proof.
  induction plan as [op IH] using op_ind. intros Hm.
  assert (∀ i, i ∈ inputs op → run_sim (run1 i) (run2 i)) as Hin.
  { intros i Hi. apply IH; [done|]. by eapply may_run_inputs. }
  pose proof (may_run_write op Hm) as Hw. clear IH Hm.
  destruct op; cbn [run Ir.inputs is_bare_write] in *; cbv zeta; try (specialize (Hw eq_refl)).
  all: repeat op_step.
Qed.
End plans.
