(* ===== verification/IterSpec.v ===== *)
(** * What iterators give out

    Two iterators in step: pulled in related states they end alike, give out related
    rows and leave iterators in step. *)
From S2P Require Export Iterators PlanSim SlotSpec.
#[local] Open Scope Z_scope.

(** ** Induction over the pulls of an iterator *)
Lemma pull_ind {W R} (P : Pull W R → Prop) :
  (∀ m, (∀ s s' r p, m s = (s', Ok (Some (r, p))) → P p) → P (mkPull m)) → ∀ p, P p.
Proof.
  intros H. fix IH 1. intros [m]. apply H. intros s s' r p.
  destruct (m s) as [t [[[r' q]|]|e|]]; intros E; try discriminate E.
  injection E as _ _ <-. apply IH.
Qed.

Section psim.
Context {W1 W2 : Type} (I : W1 → W2 → Prop).

Fixpoint psim {R1 R2} (RR : R1 → R2 → Prop) (p1 : Pull W1 R1) (p2 : Pull W2 R2) : Prop :=
  let '(mkPull m1) := p1 in
  ∀ s1 s2, I s1 s2 →
    match m1 s1, next p2 s2 with
    | (t1, Ok (Some (r1, q1))), (t2, Ok (Some (r2, q2))) => I t1 t2 ∧ RR r1 r2 ∧ psim RR q1 q2
    | (t1, Ok None), (t2, Ok None) => I t1 t2
    | (t1, Err e1), (t2, Err e2) => I t1 t2 ∧ e1 = e2
    | (t1, Panic), (t2, Panic) => I t1 t2
    | _, _ => False
    end.
Definition osim {R1 R2} (RR : R1 → R2 → Prop) : option (R1 * Pull W1 R1) → option (R2 * Pull W2 R2) → Prop :=
  option_Forall2 (λ a b, RR a.1 b.1 ∧ psim RR a.2 b.2).

Lemma psim_next {R1 R2} (RR : R1 → R2 → Prop) p1 p2 :
  psim RR p1 p2 ↔ msim I (osim RR) (next p1) (next p2).
Proof.
  destruct p1 as [m1]. cbn [psim next]. split; intros H s1 s2 Hs; specialize (H s1 s2 Hs);
    destruct (m1 s1) as [t1 [[[r1 q1]|]|e1|]], (next p2 s2) as [t2 [[[r2 q2]|]|e2|]]; simpl in *.
  all: try done; try (destruct H as [? H]; by inversion H).
  all: try (destruct H as (? & ? & ?); split; [done|]; by constructor).
  all: try (split; [done|constructor]).
  all: destruct H as [? H]; inversion H as [? ? [? ?]|]; by subst.
Qed.
Lemma psim_mk {R1 R2} (RR : R1 → R2 → Prop) m1 m2 :
  msim I (osim RR) m1 m2 → psim RR (mkPull m1) (mkPull m2).
Proof. intros H. by apply psim_next. Qed.

(** Induction along two iterators in step. *)
Lemma psim_ind {R1 R2} (RR : R1 → R2 → Prop) (P : Pull W1 R1 → Pull W2 R2 → Prop) :
  (∀ p1 p2, msim I (option_Forall2 (λ a b, RR a.1 b.1 ∧ psim RR a.2 b.2 ∧ P a.2 b.2)) (next p1) (next p2) →
            P p1 p2) →
  ∀ p1 p2, psim RR p1 p2 → P p1 p2.
Proof.
  intros H p1. induction p1 as [m IH] using pull_ind. intros p2 Hp. apply H.
  apply psim_next in Hp. cbn [next] in *. intros s1 s2 Hs. specialize (Hp s1 s2 Hs). specialize (IH s1).
  destruct (m s1) as [t1 [[[r1 q1]|]|e1|]], (next p2 s2) as [t2 [[[r2 q2]|]|e2|]]; simpl in *.
  all: destruct Hp as [Ht Ho]; split; try done; inversion Ho as [? ? [Hr Hq]|]; subst; constructor.
  split_and!; try done. by eapply IH.
Qed.

(** A step: both are at their end, or both go on with related rows. *)
Lemma osim_bind {A1 A2 B1 B2} (P : A1 → A2 → Prop) (Q : B1 → B2 → Prop)
    (m1 : M W1 GraphError (option A1)) (m2 : M W2 GraphError (option A2)) f1 f2 :
  msim I (option_Forall2 P) m1 m2 → msim I Q (f1 None) (f2 None) →
  (∀ a b, P a b → msim I Q (f1 (Some a)) (f2 (Some b))) → msim I Q (m1 ≫= f1) (m2 ≫= f2).
Proof.
  intros Hn H0 H1. eapply msim_bind; [exact Hn|]. intros o1 o2 [a b Hab|]; [by apply H1|done].
Qed.
End psim.

(** ** The iterators *)
Section combinators.
Context {W1 W2 : Type} (I : W1 → W2 → Prop).

Section rows.
Context {R1 R2 : Type} (RR : R1 → R2 → Prop).

Lemma vec_iter_sim l1 l2 : Forall2 RR l1 l2 → psim I RR (vec_iter l1) (vec_iter l2).
Proof.
  induction 1 as [|r1 r2 l1 l2 Hr _ IH]; apply psim_mk, msim_ret; [constructor|]. by constructor.
Qed.
Lemma blocking_sim m1 m2 :
  msim I (Forall2 RR) m1 m2 → psim I RR (blocking m1) (blocking m2).
Proof.
  intros H. apply psim_mk. eapply msim_bind; [exact H|]. intros l1 l2 Hl. by apply psim_next, vec_iter_sim.
Qed.
Lemma collect_all_sim p1 p2 :
  psim I RR p1 p2 → msim I (Forall2 RR) (collect_all p1) (collect_all p2).
Proof.
  revert p1 p2. apply psim_ind. intros p1 p2 Hn.
  destruct p1 as [m1], p2 as [m2]. cbn [collect_all].
  eapply osim_bind; [exact Hn|apply msim_ret; constructor|]. intros [r1 q1] [r2 q2] (Hr & _ & IH).
  eapply msim_bind; [exact IH|]. intros l1 l2 Hl. apply msim_ret. by constructor.
Qed.
Lemma filter_iter_sim f1 f2 p1 p2 :
  (∀ r1 r2, RR r1 r2 → msim I eq (f1 r1) (f2 r2)) → psim I RR p1 p2 →
  psim I RR (filter_iter f1 p1) (filter_iter f2 p2).
Proof.
  intros Hf. revert p1 p2. apply psim_ind. intros p1 p2 Hn.
  destruct p1 as [m1], p2 as [m2]. cbn [filter_iter]. apply psim_mk.
  eapply osim_bind; [exact Hn|apply msim_ret; constructor|]. intros [r1 q1] [r2 q2] (Hr & _ & IH).
  apply msim_bind_eq; [by apply Hf|]. intros [|]; [|by apply psim_next in IH].
  apply msim_ret. by constructor.
Qed.
Lemma skip_iter_sim n p1 p2 : psim I RR p1 p2 → psim I RR (skip_iter n p1) (skip_iter n p2).
Proof.
  intros Hp. revert n. pattern p1, p2. revert p1 p2 Hp. apply psim_ind. intros p1 p2 Hn n.
  destruct p1 as [m1], p2 as [m2]. cbn [skip_iter]. apply psim_mk. destruct (N.eqb n 0).
  - eapply msim_mono; [exact Hn|]. intros o1 o2 Ho. destruct Ho as [? ? (? & ? & ?)|]; by constructor.
  - eapply osim_bind; [exact Hn|apply msim_ret; constructor|]. intros [r1 q1] [r2 q2] (_ & _ & IH).
    by apply psim_next, IH.
Qed.
Lemma limit_iter_sim n p1 p2 : psim I RR p1 p2 → psim I RR (limit_iter n p1) (limit_iter n p2).
Proof.
  intros Hp. revert n. pattern p1, p2. revert p1 p2 Hp. apply psim_ind. intros p1 p2 Hn n.
  destruct p1 as [m1], p2 as [m2]. cbn [limit_iter]. apply psim_mk. destruct (N.eqb n 0).
  - apply msim_ret. constructor.
  - eapply osim_bind; [exact Hn|apply msim_ret; constructor|]. intros [r1 q1] [r2 q2] (Hr & _ & IH).
    apply msim_ret. constructor. split; [done|]. apply IH.
Qed.
Lemma distinct_drain_sim eqb1 eqb2 d1 d2 p1 p2 :
  (∀ a1 a2 b1 b2, RR a1 a2 → RR b1 b2 → eqb1 a1 b1 = eqb2 a2 b2) → Forall2 RR d1 d2 →
  psim I RR p1 p2 → msim I (Forall2 RR) (distinct_drain eqb1 d1 p1) (distinct_drain eqb2 d2 p2).
Proof.
  intros He Hd Hp. revert d1 d2 Hd. pattern p1, p2. revert p1 p2 Hp. apply psim_ind. intros p1 p2 Hn d1 d2 Hd.
  destruct p1 as [m1], p2 as [m2]. cbn [distinct_drain].
  eapply osim_bind; [exact Hn|by apply msim_ret|]. intros [r1 q1] [r2 q2] (Hr & _ & IH). apply IH.
  assert (List.existsb (λ s, eqb1 s r1) d1 = List.existsb (λ s, eqb2 s r2) d2) as ->.
  { induction Hd as [|x1 x2 d1 d2 Hx _ IHd]; [done|]. cbn [List.existsb]. by rewrite IHd, (He x1 x2 r1 r2). }
  destruct (List.existsb _ _); [done|]. apply Forall2_app; [done|]. by constructor.
Qed.
Lemma tagged_drain_sim {K} (k1 : R1 → M W1 GraphError K) (k2 : R2 → M W2 GraphError K) p1 p2 :
  (∀ r1 r2, RR r1 r2 → msim I eq (k1 r1) (k2 r2)) → psim I RR p1 p2 →
  msim I (Forall2 (λ a b, a.1 = b.1 ∧ RR a.2 b.2)) (tagged_drain k1 p1) (tagged_drain k2 p2).
Proof.
  intros Hk. revert p1 p2. apply psim_ind. intros p1 p2 Hn.
  destruct p1 as [m1], p2 as [m2]. cbn [tagged_drain].
  eapply osim_bind; [exact Hn|apply msim_ret; constructor|]. intros [r1 q1] [r2 q2] (Hr & _ & IH).
  apply msim_bind_eq; [by apply Hk|]. intros k. eapply msim_bind; [exact IH|]. intros l1 l2 Hl.
  apply msim_ret. by constructor.
Qed.
End rows.

Lemma map_iter_sim {R1 R2 T1 T2} (RR : R1 → R2 → Prop) (TT : T1 → T2 → Prop) f1 f2 p1 p2 :
  (∀ r1 r2, RR r1 r2 → msim I TT (f1 r1) (f2 r2)) → psim I RR p1 p2 →
  psim I TT (map_iter f1 p1) (map_iter f2 p2).
Proof.
  intros Hf. revert p1 p2. apply psim_ind. intros p1 p2 Hn.
  destruct p1 as [m1], p2 as [m2]. cbn [map_iter]. apply psim_mk.
  eapply osim_bind; [exact Hn|apply msim_ret; constructor|]. intros [r1 q1] [r2 q2] (Hr & _ & IH).
  eapply msim_bind; [by apply Hf|]. intros t1 t2 Ht. apply msim_ret. by constructor.
Qed.
Lemma buffered_sim {R1 R2} (RR : R1 → R2 → Prop) l1 l2 p1 p2 :
  Forall2 RR l1 l2 → psim I RR p1 p2 → psim I RR (buffered l1 p1) (buffered l2 p2).
Proof.
  intros Hl Hp. induction Hl as [|r1 r2 l1 l2 Hr _ IH]; [done|]. apply psim_mk, msim_ret. by constructor.
Qed.
Lemma flat_iter_sim {R1 R2 T1 T2} (RR : R1 → R2 → Prop) (TT : T1 → T2 → Prop) f1 f2 p1 p2 :
  (∀ r1 r2, RR r1 r2 → msim I (Forall2 TT) (f1 r1) (f2 r2)) → psim I RR p1 p2 →
  psim I TT (flat_iter f1 p1) (flat_iter f2 p2).
Proof.
  intros Hf. revert p1 p2. apply psim_ind. intros p1 p2 Hn.
  destruct p1 as [m1], p2 as [m2]. cbn [flat_iter]. apply psim_mk.
  eapply osim_bind; [exact Hn|apply msim_ret; constructor|]. intros [r1 q1] [r2 q2] (Hr & _ & IH).
  eapply msim_bind; [by apply Hf|]. intros l1 l2 Hl. by apply psim_next, buffered_sim.
Qed.
End combinators.
(** ** Schemas *)
Definition wf_res (r : Res RecordSchema) : Prop := ∀ s, r = Ok s → schema_wf s.

Lemma wf_ret s : schema_wf s → wf_res (Ok s).
Proof. by intros H ? [= <-]. Qed.
Lemma wf_bind {A} (m : Res A) f : (∀ a, m = Ok a → wf_res (f a)) → wf_res (m ≫= f).
Proof. intros H. destruct m as [a|e|]; [|done..]. cbn. by apply H. Qed.
Lemma wf_then (m : Res RecordSchema) f : wf_res m → (∀ s, schema_wf s → wf_res (f s)) → wf_res (m ≫= f).
Proof. intros Hm Hf. apply wf_bind. intros s E. by apply Hf, Hm. Qed.
Lemma add_names_wf names s : schema_wf s → wf_res (add_names names s).
Proof.
  revert s. induction names as [|n names IH]; intros s Hs; cbn [add_names]; [by apply wf_ret|].
  apply wf_bind. intros [slot s'] E. apply IH. by eapply schema_add_wf.
Qed.
Lemma node_slots_wf alias props s : schema_wf s → wf_res (node_slots alias props s).
Proof. intros Hs. apply wf_then; [by apply add_names_wf|]. intros ? ?. by apply add_names_wf. Qed.
Lemma edge_slots_wf alias props s : schema_wf s → wf_res (edge_slots alias props s).
Proof. intros Hs. apply wf_then; [by apply add_names_wf|]. intros ? ?. by apply add_names_wf. Qed.
Lemma extend_with_wf src s : schema_wf s → wf_res (extend_with src s).
Proof. intros Hs. apply wf_bind. intros l _. by apply add_names_wf. Qed.

Ltac wf_step :=
  match goal with
  | |- schema_wf RecordSchema.new => apply schema_new_wf
  | H : schema_wf ?s |- schema_wf ?s => exact H
  | |- wf_res (Ok _) => apply wf_ret
  | |- wf_res (add_names _ _) => apply add_names_wf
  | |- wf_res (node_slots _ _ _) => apply node_slots_wf
  | |- wf_res (edge_slots _ _ _) => apply edge_slots_wf
  | |- wf_res (extend_with _ _) => apply extend_with_wf
  | |- wf_res (add_node_metadata _ _) => apply add_names_wf
  | |- wf_res (add_keys _ _ _) => apply add_names_wf
  | |- wf_res (match ?x with _ => _ end) => destruct x
  | |- wf_res (if ?x then _ else _) => destruct x
  | |- wf_res (infer_with_props _ _) => solve [eauto with nocore]
  | |- wf_res (@mbind _ _ RecordSchema _ _ _) => apply wf_then; [|intros ? ?]
  | |- wf_res (_ ≫= _) => apply wf_bind; intros ? _
  end.
Ltac solve_wf := repeat wf_step.

Lemma bind_elements_wf els props s : schema_wf s → wf_res (bind_elements els props s).
Proof.
  revert s. induction els as [|el els IH]; intros s Hs; cbn [bind_elements]; [by apply wf_ret|].
  apply wf_then; [|done]. unfold bind_element. solve_wf.
Qed.
Lemma pattern_bindings_wf p props s : schema_wf s → wf_res (populate_pattern_bindings p props s).
Proof. intros Hs. apply wf_then; [by apply add_names_wf|]. intros s' Hs'. by apply bind_elements_wf. Qed.
Lemma project_slots_wf o items s : schema_wf s → wf_res (project_slots o items s).
Proof.
  revert s. induction items as [|item items IH]; intros s Hs; cbn [project_slots]; [by apply wf_ret|].
  apply wf_then; [by apply add_names_wf|]. intros s' Hs'. apply wf_then; [|done]. solve_wf.
Qed.
Lemma infer_wf props plan : wf_res (infer_with_props props plan).
Proof.
  induction plan as [op IH] using op_ind.
  assert (∀ i, i ∈ inputs op → wf_res (infer_with_props props i)) as Hin by done. clear IH.
  assert (∀ ops m, (∀ o, o ∈ ops → wf_res (infer_with_props props o)) → wf_res m →
    wf_res (foldl (λ acc o, acc ≫= λ s, infer_with_props props o ≫= λ s2, extend_with s2 s) m ops)) as Hfold.
  { intros ops. induction ops as [|o ops IH]; intros m Ho Hm; cbn [foldl]; [done|].
    apply IH; [intros; apply Ho; by right|]. apply wf_then; [done|]. intros s Hs.
    apply wf_then; [apply Ho; left|]. intros s2 _. by apply extend_with_wf. }
  destruct op; cbn [infer_with_props]; cbv zeta; cbn [Ir.inputs] in Hin;
    repeat first [ apply Hin; first [left | right; left] | apply pattern_bindings_wf
                 | apply project_slots_wf | wf_step | progress intros ].
  - apply Hfold; [done|]. apply wf_ret, schema_new_wf.
  - apply Hfold; [|apply Hin; left]. intros o Ho. apply Hin. by right.
Qed.

(** ** The rows of an iterator in a state that it does not change *)
Section pulls.
Context {W : Type} (w : W).

Definition computes {A} (m : M W GraphError A) (a : A) : Prop := m w = (w, Ok a).
Lemma computes_ret {A} (a : A) : computes (mret a) a.
Proof. done. Qed.
Lemma computes_lift {A} r (a : A) : r = Ok a → computes (lift r) a.
Proof. by intros ->. Qed.
Lemma computes_bind {A B} (m : M W GraphError A) (f : A → M W GraphError B) a b :
  computes m a → computes (f a) b → computes (m ≫= f) b.
Proof. intros Hm Hf. unfold computes, mbind, M_bind. by rewrite Hm. Qed.
Lemma computes_collect {A B} (f : A → M W GraphError B) (g : A → B) l :
  (∀ x, x ∈ l → computes (f x) (g x)) → computes (collect_m f l) (g <$> l).
Proof.
  induction l as [|x l IH]; intros Hf; [done|].
  eapply computes_bind; [apply Hf; left|]. eapply computes_bind; [|done].
  apply IH. intros y Hy. apply Hf. by right.
Qed.

Inductive pulls {R} : Pull W R → list R → Prop :=
| pulls_end p : computes (next p) None → pulls p []
| pulls_row p r p' l : computes (next p) (Some (r, p')) → pulls p' l → pulls p (r :: l).

(** Pulling [p] is pulling [q]. *)
Lemma pulls_as {R} (p q : Pull W R) l : next p w = next q w → pulls q l → pulls p l.
Proof.
  intros E H. destruct H as [q H|q r p' l H Hl]; [apply pulls_end|eapply pulls_row; [|exact Hl]];
    unfold computes in *; congruence.
Qed.
Lemma pulls_vec {R} (l : list R) : pulls (vec_iter l) l.
Proof. induction l as [|r l IH]; [by apply pulls_end|by eapply pulls_row]. Qed.
Lemma pulls_blocking {R} (m : M W GraphError (list R)) l : computes m l → pulls (blocking m) l.
Proof.
  intros H. eapply pulls_as; [|apply (pulls_vec l)]. cbn [next blocking]. unfold mbind, M_bind. by rewrite H.
Qed.
Lemma pulls_collect {R} (p : Pull W R) l : pulls p l → computes (collect_all p) l.
Proof.
  induction 1 as [[m] H|[m] r p' l H _ IH]; cbn [collect_all];
    (eapply computes_bind; [exact H|]); [done|]. by eapply computes_bind.
Qed.

(** The step of a combinator on a row, and at the end. *)
Lemma next_bind {A B} (m : M W GraphError A) a (f : A → M W GraphError B) :
  computes m a → (m ≫= f) w = f a w.
Proof. intros H. unfold mbind, M_bind. by rewrite H. Qed.

Lemma pulls_filter {R} (f : R → M W GraphError bool) (b : R → bool) p l :
  pulls p l → (∀ r, r ∈ l → computes (f r) (b r)) → pulls (filter_iter f p) (List.filter b l).
Proof.
  induction 1 as [[m] H|[m] r p' l H _ IH]; intros Hf.
  - apply pulls_end. cbn [filter_iter next]. unfold computes. by rewrite (next_bind _ _ _ H).
  - assert (pulls (filter_iter f p') (List.filter b l)) as Hrest.
    { apply IH. intros x Hx. apply Hf. by right. }
    assert (next (filter_iter f (mkPull m)) w
      = (if b r then mret (Some (r, filter_iter f p')) else next (filter_iter f p')) w) as E.
    { cbn [filter_iter next]. rewrite (next_bind _ _ _ H), (next_bind _ (b r)); [done|apply Hf; left]. }
    cbn [List.filter]. destruct (b r); [by eapply pulls_row|]. by eapply pulls_as.
Qed.
Lemma pulls_skip {R} n (p : Pull W R) l : pulls p l → pulls (skip_iter n p) (drop (N.to_nat n) l).
Proof.
  intros H. revert n. induction H as [[m] H|[m] r p' l H Hl IH]; intros n.
  - rewrite drop_nil. apply pulls_end. cbn [skip_iter next]. destruct (N.eqb n 0); [exact H|].
    unfold computes. by rewrite (next_bind _ _ _ H).
  - destruct (N.eqb_spec n 0) as [->|Hn].
    + eapply pulls_as; [|by eapply pulls_row]. done.
    + destruct (N.to_nat n) as [|k] eqn:E; [lia|]. cbn [drop]. replace k with (N.to_nat (N.pred n)) by lia.
      eapply pulls_as; [|apply IH]. cbn [skip_iter next]. rewrite (proj2 (N.eqb_neq n 0) Hn).
      by rewrite (next_bind _ _ _ H).
Qed.
Lemma pulls_limit {R} n (p : Pull W R) l : pulls p l → pulls (limit_iter n p) (take (N.to_nat n) l).
Proof.
  intros H. revert n. induction H as [[m] H|[m] r p' l H Hl IH]; intros n;
    (destruct (N.eqb_spec n 0) as [->|Hn]; [by apply pulls_end|]).
  - rewrite take_nil. apply pulls_end. cbn [limit_iter next]. rewrite (proj2 (N.eqb_neq n 0) Hn).
    unfold computes. by rewrite (next_bind _ _ _ H).
  - destruct (N.to_nat n) as [|k] eqn:E; [lia|]. cbn [take]. replace k with (N.to_nat (N.pred n)) by lia.
    eapply pulls_row; [|apply IH]. cbn [limit_iter next]. rewrite (proj2 (N.eqb_neq n 0) Hn).
    unfold computes. by rewrite (next_bind _ _ _ H).
Qed.
Lemma pulls_map {R R'} (f : R → M W GraphError R') (g : R → R') p l :
  pulls p l → (∀ r, r ∈ l → computes (f r) (g r)) → pulls (map_iter f p) (g <$> l).
Proof.
  induction 1 as [[m] H|[m] r p' l H _ IH]; intros Hf.
  - apply pulls_end. cbn [map_iter next]. unfold computes. by rewrite (next_bind _ _ _ H).
  - rewrite fmap_cons. eapply pulls_row; [|apply IH; intros x Hx; apply Hf; by right].
    cbn [map_iter next]. unfold computes. rewrite (next_bind _ _ _ H), (next_bind _ (g r)); [done|apply Hf; left].
Qed.
Definition distinct_rows {R} (eqb : R → R → bool) : list R → list R → list R :=
  foldl (λ seen r, if List.existsb (λ s, eqb s r) seen then seen else seen ++ [r]).
Lemma computes_distinct {R} (eqb : R → R → bool) seen p l :
  pulls p l → computes (distinct_drain eqb seen p) (distinct_rows eqb seen l).
Proof.
  intros H. revert seen. induction H as [[m] H|[m] r p' l H _ IH]; intros seen; cbn [distinct_drain];
    (eapply computes_bind; [exact H|]); [done|]. apply IH.
Qed.
Lemma computes_tagged {R K} (keys : R → M W GraphError K) (key : R → K) p l :
  pulls p l → (∀ r, r ∈ l → computes (keys r) (key r)) →
  computes (tagged_drain keys p) ((λ r, (key r, r)) <$> l).
Proof.
  induction 1 as [[m] H|[m] r p' l H _ IH]; intros Hf; cbn [tagged_drain];
    (eapply computes_bind; [exact H|]); [done|].
  eapply computes_bind; [apply Hf; left|]. eapply computes_bind; [|done].
  apply IH. intros x Hx. apply Hf. by right.
Qed.
End pulls.
