(* ===== verification/ExprSpec.v ===== *)
(** * Operators, lists and types of expressions

    Three-valued logic as minimum, maximum and agreement over all readings of the
    nulls; arithmetic on integers; [range]; the types of expressions that have one. *)
From S2P Require Export Simulate.
#[local] Open Scope Z_scope.

Lemma run_bind_inv {S E A B} (m : M S E A) (k : A → M S E B) s s' b :
  (m ≫= k) s = (s', Ok b) → ∃ s1 a, m s = (s1, Ok a) ∧ k a s1 = (s', Ok b).
Proof. unfold mbind, M_bind. destruct (m s) as [s1 [a|e|]]; [eauto|done..]. Qed.

(** ** Three truth values *)
Definition tri_rank (o : option bool) : Z :=
  match o with Some false => 0 | None => 1 | Some true => 2 end.
Definition of_rank (r : Z) : option bool :=
  if r =? 0 then Some false else if r =? 1 then None else Some true.
Definition kand (a b : option bool) : option bool := of_rank (Z.min (tri_rank a) (tri_rank b)).
Definition kor (a b : option bool) : option bool := of_rank (Z.max (tri_rank a) (tri_rank b)).
Definition knot (a : option bool) : option bool := of_rank (2 - tri_rank a).

(** The truth value of a value; what is no truth value counts as unknown. *)
Definition tri_of (v : value) : option bool := match v with Value.Bool b => Some b | _ => None end.
Definition is_tri (v : value) : Prop := match v with Value.Bool _ | Value.Null => True | _ => False end.

Lemma tri_of_value o : tri_of (tri_value o) = o.
Proof. by destruct o. Qed.
Lemma tri_value_of v : is_tri v → tri_value (tri_of v) = v.
Proof. by destruct v. Qed.
Lemma tri_value_is o : is_tri (tri_value o).
Proof. by destruct o. Qed.

Lemma tri_and_is r s : is_tri r → is_tri s → is_tri (tri_and r s).
Proof. destruct r as [|[]| | | | | | | | | | | | | |], s as [|[]| | | | | | | | | | | | | |]; done. Qed.
Lemma lists_loop_is f a b : (∀ x y, x ∈ a → is_tri (f x y)) → is_tri (lists_loop f a b).
Proof.
  revert b. induction a as [|x a IH]; intros [|y b] H; simpl; try done.
  apply tri_and_is; [apply H; left|apply IH; intros z w Hz; apply H; by right].
Qed.
Lemma maps_equal_is f a b : (∀ k x y, a !! k = Some x → is_tri (f x y)) → is_tri (maps_equal f a b).
Proof.
  intros H. unfold maps_equal. case_decide; [|done].
  enough (∀ l, (∀ e y, e ∈ l → is_tri (f e.2 y)) →
    is_tri (foldr (λ e rest, match b !! e.1 with Some w => tri_and (f e.2 w) rest | None => rest end)
              (Value.Bool true) l)) as E.
  { rewrite map_fold_foldr. rewrite (foldr_ext _ (λ e rest,
      match b !! e.1 with Some w => tri_and (f e.2 w) rest | None => rest end)
      _ (Value.Bool true) _ (map_to_list a)) by (done || by intros []).
    apply E. intros [k v] y He%elem_of_map_to_list. by eapply H. }
  induction l as [|e l IH]; intros Hl; simpl; [done|].
  assert (is_tri (foldr (λ e rest, match b !! e.1 with Some w => tri_and (f e.2 w) rest | None => rest end)
            (Value.Bool true) l)) as Ht by (apply IH; intros e' y He; apply Hl; by right).
  destruct (b !! e.1); [|done]. apply tri_and_is; [apply Hl; left|done].
Qed.
Lemma values_equal_is a b : is_tri (values_equal a b).
Proof.
  revert b. induction a as [a IH] using (Wf_nat.induction_ltof1 _ vsize). unfold Wf_nat.ltof in IH.
  intros b. destruct a, b; try done; cbn [values_equal].
  - unfold lists_equal. case_decide; [|done]. apply lists_loop_is. intros x y Hx. apply IH.
    simpl. pose proof (foldr_sum_elem vsize _ _ Hx). unfold list_vsize. lia.
  - unfold paths_equal. by destruct (_ || _).
  - apply maps_equal_is. intros k x y Hk. apply IH. simpl.
    pose proof (props_vsize_lookup vsize _ _ _ Hk). lia.
Qed.

Lemma tri_and_kand r s : is_tri r → is_tri s → tri_of (tri_and r s) = kand (tri_of r) (tri_of s).
Proof. destruct r as [|[]| | | | | | | | | | | | | |], s as [|[]| | | | | | | | | | | | | |]; done. Qed.

(** *** Operators *)
Lemma and_kleene a b : tri_op eval_and (tri_value a) (tri_value b) = Ok (tri_value (kand a b)).
Proof. by destruct a as [[]|], b as [[]|]. Qed.
Lemma or_kleene a b : tri_op eval_or (tri_value a) (tri_value b) = Ok (tri_value (kor a b)).
Proof. by destruct a as [[]|], b as [[]|]. Qed.
Lemma not_kleene a : tri_value (negb <$> a) = tri_value (knot a).
Proof. by destruct a as [[]|]. Qed.

(** [IN] is the disjunction of the equalities. *)
Lemma in_loop_kleene v has_null items :
  in_loop v has_null items
  = tri_value (kor (if has_null then None else Some false)
                 (foldr (λ x acc, kor (tri_of (values_equal v x)) acc) (Some false) items)).
Proof.
  revert has_null. induction items as [|x items IH]; intros h; simpl; [by destruct h|].
  pose proof (values_equal_is v x) as Hx. revert Hx.
  destruct (values_equal v x) as [|[]| | | | | | | | | | | | | |]; intros; try done; rewrite ?IH;
    simpl; destruct h; destruct (foldr _ _ _) as [[]|]; done.
Qed.
(** Equality of lists of one length is the conjunction of the equalities. *)
Lemma lists_loop_kleene f a b : (∀ x y, x ∈ a → is_tri (f x y)) → length a = length b →
  tri_of (lists_loop f a b)
  = foldr (λ p acc, kand (tri_of (f p.1 p.2)) acc) (Some true) (zip a b).
Proof.
  revert b. induction a as [|x a IH]; intros [|y b] H Hl; simplify_eq/=; try done.
  rewrite tri_and_kand.
  - rewrite IH; [done|intros z w Hz; apply H; by right|done].
  - apply H; left.
  - apply lists_loop_is. intros z w Hz. apply H. by right.
Qed.

(** ** Quantifiers

    A reading replaces each unknown truth value by true or false.  A quantifier has
    a truth value when all readings agree on it. *)
Definition reading (ps : list (option bool)) (bs : list bool) : Prop :=
  Forall2 (λ p b, p = None ∨ p = Some b) ps bs.
Fixpoint trues (bs : list bool) : nat :=
  match bs with [] => 0 | b :: bs' => (if b then 1 else 0) + trues bs' end.
Definition classical (kind : QuantifierKind) (bs : list bool) : bool :=
  match kind with
  | QuantifierKind.All => forallb id bs
  | QuantifierKind.Any => existsb id bs
  | QuantifierKind.None => negb (existsb id bs)
  | QuantifierKind.Single => Nat.eqb (trues bs) 1
  end.

Definition counts_of (vs : list value) : Counts :=
  foldl (λ n v, count_value v n) (mkCounts 0 0 0) vs.
Fixpoint occurrences (o : option bool) (ps : list (option bool)) : nat :=
  match ps with
  | [] => 0
  | p :: ps' => (if decide (p = o) then 1 else 0) + occurrences o ps'
  end.
Abbreviation sures b := (occurrences (Some b)).
Abbreviation unknowns := (occurrences None).

Lemma counts_of_spec vs n :
  foldl (λ n v, count_value v n) n vs
  = mkCounts (true_count n + sures true (tri_of <$> vs)) (false_count n + sures false (tri_of <$> vs))
      (null_count n + unknowns (tri_of <$> vs)).
Proof.
  revert n. induction vs as [|v vs IH]; intros n; simpl.
  { destruct n; simpl; f_equal; lia. }
  rewrite IH. unfold fmap. destruct v as [|[]| | | | | | | | | | | | | |]; simpl; f_equal; simpl; lia.
Qed.
Lemma reading_trues ps bs : reading ps bs →
  (sures true ps ≤ trues bs ≤ sures true ps + unknowns ps)%nat
  ∧ length bs = (sures true ps + sures false ps + unknowns ps)%nat.
Proof.
  induction 1 as [|p b ps bs Hp _ IH]; simpl; [lia|].
  destruct p as [[]|], b; simpl; destruct Hp as [Hp|Hp]; try done; lia.
Qed.
Lemma reading_exists ps k : (sures true ps ≤ k ≤ sures true ps + unknowns ps)%nat →
  ∃ bs, reading ps bs ∧ trues bs = k.
Proof.
  revert k. induction ps as [|p ps IH]; simpl; intros k Hk.
  { exists []. split; [constructor|simpl; lia]. }
  destruct p as [b|]; simpl in Hk.
  - destruct (IH (k - (if b then 1 else 0))%nat) as (bs & Hr & Ht).
    { destruct b; simpl in *; lia. }
    exists (b :: bs). split; [constructor; [by right|done]|]. simpl. destruct b; simpl in *; lia.
  - destruct (decide (k = sures true ps)) as [->|Hne].
    + destruct (IH (sures true ps)) as (bs & Hr & Ht); [lia|].
      exists (false :: bs). split; [constructor; [by left|done]|done].
    + destruct (IH (k - 1)%nat) as (bs & Hr & Ht); [lia|].
      exists (true :: bs). split; [constructor; [by left|done]|]. simpl. lia.
Qed.

(** Over lists, the quantifiers depend on the number of true elements only. *)
Definition by_number (kind : QuantifierKind) (k len : nat) : bool :=
  match kind with
  | QuantifierKind.All => Nat.eqb k len
  | QuantifierKind.Any => Nat.ltb 0 k
  | QuantifierKind.None => Nat.eqb k 0
  | QuantifierKind.Single => Nat.eqb k 1
  end.
Lemma trues_le bs : (trues bs ≤ length bs)%nat.
Proof. induction bs as [|[] bs IH]; simpl; lia. Qed.
Lemma classical_number kind bs : classical kind bs = by_number kind (trues bs) (length bs).
Proof.
  assert (forallb id bs = Nat.eqb (trues bs) (length bs)
          ∧ existsb id bs = Nat.ltb 0 (trues bs)) as [Ha Ho].
  { induction bs as [|[] bs [Ha Ho]]; simpl; [done|by rewrite Ha|].
    pose proof (trues_le bs). split; [symmetry; apply Nat.eqb_neq; lia|done]. }
  destruct kind; simpl; [|done|by rewrite Ho|done]; rewrite Ho;
    by destruct (trues bs).
Qed.

Lemma quantifier_readings kind vs b :
  quantifier_result kind (counts_of vs) = Value.Bool b
  ↔ ∀ bs, reading (tri_of <$> vs) bs → classical kind bs = b.
Proof.
  set (ps := tri_of <$> vs). pose proof (counts_of_spec vs (mkCounts 0 0 0)) as E.
  unfold counts_of. rewrite E. fold ps. simpl. clear E.
  set (t := sures true ps). set (f := sures false ps). set (n := unknowns ps).
  assert ((∀ bs, reading ps bs → classical kind bs = b)
    ↔ ∀ k, (t ≤ k ≤ t + n)%nat → by_number kind k (t + f + n) = b) as ->.
  { split.
    - intros H k Hk. destruct (reading_exists ps k Hk) as (bs & Hr & <-).
      destruct (reading_trues ps bs Hr) as [_ Hl]. rewrite <- (H bs Hr), classical_number, Hl. done.
    - intros H bs Hr. destruct (reading_trues ps bs Hr) as [Hk Hl].
      rewrite classical_number, Hl. by apply H. }
  clearbody t f n. clear ps vs. unfold quantifier_result. simpl.
  split.
  - intros H k Hk. destruct kind; simpl in *; repeat case_decide; simplify_eq;
      first [apply Nat.eqb_eq | apply Nat.eqb_neq | apply Nat.ltb_lt | apply Nat.ltb_ge]; lia.
  - intros H. pose proof (H t) as H1. pose proof (H (t + n)%nat) as H2. pose proof (H 1%nat) as H3.
    clear H. revert H1 H2 H3.
    destruct kind; simpl; repeat case_decide; intros T1 T2 T3; f_equal; destruct b; try done;
      exfalso; revert T1 T2 T3;
      repeat match goal with
      | |- context [Nat.eqb ?x ?y] => destruct (Nat.eqb_spec x y)
      | |- context [Nat.ltb ?x ?y] => destruct (Nat.ltb_spec x y)
      end; intros T1 T2 T3; try lia; try (specialize (T1 ltac:(lia)); done);
      try (specialize (T2 ltac:(lia)); done); try (specialize (T3 ltac:(lia)); done).
Qed.

Lemma quantifier_loop_counts {S} (pred : RecordView → M S GraphError value) base variable items n
    s s' results :
  collect_m (λ item, pred (bind_item base variable item)) items s = (s', Ok results) →
  quantifier_loop pred base variable items n s
  = (s', Ok (foldl (λ n v, count_value v n) n results)).
Proof.
  revert n s results. induction items as [|item items IH]; intros n s results.
  { by intros [= -> <-]. }
  cbn [collect_m]. intros (s1 & v & E1 & E2)%run_bind_inv.
  apply run_bind_inv in E2 as (s2 & vs & E2 & E3). injection E3 as -> <-.
  cbn [quantifier_loop]. erewrite run_bind by exact E1. exact (IH (count_value v n) s1 vs E2).
Qed.

(** ** Integers *)
Section arithmetic.
Context {Ch : Chrono} {Co : ChronoOrder} {Lm : Libm}.

(** The exact result, or an overflow that names the operation. *)
Definition exact_or_overflow (a : Z) (op_name : string) (b exact : Z) : Res value :=
  if decide (in_i64 exact) then Ok (Value.I64 exact) else Err (integer_overflow a op_name b).

Lemma checked_exact a op b n :
  (Value.I64 <$> ok_or (Functions.checked n) (integer_overflow a op b)) = exact_or_overflow a op b n.
Proof. unfold Functions.checked, exact_or_overflow. by case_decide. Qed.

Lemma add_exact a b : eval_add (Value.I64 a) (Value.I64 b) = exact_or_overflow a "+" b (a + b).
Proof. apply checked_exact. Qed.
Lemma sub_exact a b : eval_sub (Value.I64 a) (Value.I64 b) = exact_or_overflow a "-" b (a - b).
Proof. apply checked_exact. Qed.
Lemma mul_exact a b : eval_mul (Value.I64 a) (Value.I64 b) = exact_or_overflow a "*" b (a * b).
Proof. apply checked_exact. Qed.
Lemma div_exact a b :
  eval_div (Value.I64 a) (Value.I64 b)
  = if decide (b = 0) then Ok Value.Null else exact_or_overflow a "/" b (Z.quot a b).
Proof.
  unfold eval_div, checked_div. simpl. destruct (Z.eqb_spec b 0) as [->|Hb]; [done|].
  rewrite decide_False by done. apply checked_exact.
Qed.
(** The remainder always fits, but [i64::MIN % -1] is refused. *)
Lemma mod_exact a b : in_i64 a → in_i64 b →
  eval_mod (Value.I64 a) (Value.I64 b)
  = if decide (b = 0) then Ok Value.Null
    else if decide (in_i64 (Z.quot a b)) then Ok (Value.I64 (Z.rem a b))
    else Err (integer_overflow a "%" b).
Proof.
  intros Ha Hb. unfold eval_mod, checked_rem. destruct (Z.eqb_spec b 0) as [->|Hb0]; [done|].
  rewrite decide_False by done. unfold in_i64, i64_min, i64_max in *.
  destruct (Z.eqb_spec a (-9223372036854775808)) as [->|Ha'], (Z.eqb_spec b (-1)) as [->|Hb1]; simpl.
  - done.
  - rewrite decide_True; [done|]. destruct (decide (b = 1)) as [->|Hb2]; [by vm_compute|].
    pose proof (Z.quot_abs (-9223372036854775808) b Hb0) as E.
    assert (Z.abs (Z.quot (-9223372036854775808) b) ≤ 4611686018427387904).
    { rewrite <- E. rewrite Z.quot_div_nonneg by lia. apply Z.div_le_upper_bound; lia. }
    lia.
  - rewrite decide_True; [done|]. change (-1) with (- (1)). rewrite Z.quot_opp_r, Z.quot_1_r by lia. lia.
  - rewrite decide_True; [done|].
    pose proof (Z.quot_abs a b Hb0) as E.
    assert (Z.abs (Z.quot a b) ≤ Z.abs a).
    { rewrite <- E. rewrite Z.quot_div_nonneg by lia. apply Z.div_le_upper_bound; nia. }
    lia.
Qed.
Lemma rem_range a b : b ≠ 0 → Z.abs (Z.rem a b) < Z.abs b.
Proof. intros Hb. apply Z.rem_bound_abs. done. Qed.
End arithmetic.

(** ** [range] *)

(** [s, s + step, ..] as long as the end is not passed. *)
Definition progression (s step : Z) (n : nat) : list Z := (λ k, s + step * Z.of_nat k) <$> seq 0 n.
Definition inside (e step i : Z) : bool := if 0 <? step then i <=? e else e <=? i.

Lemma progression_cons s step n : progression s step (S n) = s :: progression (s + step) step n.
Proof.
  unfold progression. simpl. f_equal; [lia|]. rewrite <- seq_shift, <- list_fmap_compose.
  apply list_fmap_ext. intros i k _. simpl. lia.
Qed.

Lemma range_loop_exact fuel s e step n :
  in_i64 s → in_i64 e → step ≠ 0 → (n ≤ fuel)%nat →
  (∀ k, (k < n)%nat → inside e step (s + step * Z.of_nat k) = true) →
  inside e step (s + step * Z.of_nat n) = false →
  (n < fuel)%nat →
  range_loop fuel (inside e step) step s = progression s step n.
Proof.
  intros Hs He Hstep _ Hin Hout. revert s n Hs Hin Hout.
  induction fuel as [|fuel IH]; intros s n Hs Hin Hout Hf; [lia|]. simpl. destruct n as [|n].
  - rewrite Z.mul_0_r, Z.add_0_r in Hout. by rewrite Hout.
  - pose proof (Hin 0%nat ltac:(lia)) as H0. rewrite Z.mul_0_r, Z.add_0_r in H0. rewrite H0.
    rewrite progression_cons. f_equal. unfold Functions.checked. case_decide as Hc.
    + apply IH; [done| | |lia].
      * intros k Hk. specialize (Hin (S k) ltac:(lia)). rewrite <- Hin. f_equal. lia.
      * rewrite <- Hout. f_equal. lia.
    + destruct n as [|n]; [done|]. exfalso. specialize (Hin 1%nat ltac:(lia)).
      apply Hc. unfold inside, in_i64 in *. change (Z.of_nat 1) with 1 in Hin. rewrite Z.mul_1_r in Hin.
      destruct (Z.ltb_spec 0 step); [apply Z.leb_le in Hin|apply Z.leb_le in Hin]; lia.
Qed.

Lemma range_len_pos s e step n : step ≠ 0 → 0 ≤ n →
  inside e step (s + step * n) = true ↔ n < range_len s e step.
Proof.
  intros Hstep Hn. unfold range_len, inside. destruct (Z.ltb_spec 0 step) as [Hp|Hp].
  - replace (step <? 0) with false by (symmetry; apply Z.ltb_ge; lia). simpl.
    rewrite orb_false_r, Z.leb_le. destruct (Z.leb_spec s e) as [Hse|Hse]; [|nia].
    rewrite Z.quot_div_nonneg by lia. pose proof (Z.div_mod (e - s) step ltac:(lia)).
    pose proof (Z.mod_pos_bound (e - s) step ltac:(lia)). split; intros; nia.
  - replace (step <? 0) with true by (symmetry; apply Z.ltb_lt; lia). simpl.
    rewrite Z.leb_le. destruct (Z.leb_spec e s) as [Hse|Hse]; [|nia].
    replace (Z.quot (e - s) step) with ((s - e) / - step).
    2:{ rewrite <- Z.quot_opp_opp by lia. rewrite Z.quot_div_nonneg by lia. f_equal. lia. }
    pose proof (Z.div_mod (s - e) (- step) ltac:(lia)).
    pose proof (Z.mod_pos_bound (s - e) (- step) ltac:(lia)). split; intros; nia.
Qed.

Lemma range_values_exact s e step : in_i64 s → in_i64 e → step ≠ 0 →
  range_values s e step
  = if MAX_RANGE_LEN <? range_len s e step then Err (range_cap_error s e step (range_len s e step))
    else Ok (progression s step (Z.to_nat (range_len s e step))).
Proof.
  intros Hs He Hstep. unfold range_values. destruct (_ <? _); [done|]. f_equal.
  pose proof (range_len_pos s e step) as Hlen.
  destruct (_ || _) eqn:E; [|unfold range_len; by rewrite E].
  assert (0 ≤ range_len s e step) as Hpos.
  { apply Z.nlt_ge. intros Hneg. pose proof (proj1 (Hlen 0 Hstep ltac:(lia))) as H0.
    rewrite Z.mul_0_r, Z.add_0_r in H0. enough (inside e step s = true) by (specialize (H0 H); lia).
    unfold inside. apply orb_true_iff in E as [E|E]; apply andb_true_iff in E as [E1 E2].
    - by rewrite E1.
    - apply Z.ltb_lt in E1. replace (0 <? step) with false by (symmetry; apply Z.ltb_ge; lia). done. }
  apply range_loop_exact; [done..|lia| | |lia].
  - intros k Hk. apply Hlen; [done|lia|lia].
  - apply not_true_is_false. rewrite Z2Nat.id by done. intros H. apply Hlen in H; [lia|done..].
Qed.

(** ** Types *)
Inductive ty := TyBool | TyInteger | TyString | TyList | TyMap | TyNumber.
#[global] Instance ty_eq_dec : EqDecision ty.
Proof. solve_decision. Defined.

(** Null has every type; a number is an integer or a double. *)
Definition has_type (t : ty) (v : value) : Prop :=
  match v, t with
  | Value.Null, _ => True
  | Value.Bool _, TyBool => True
  | Value.I64 n, (TyInteger | TyNumber) => in_i64 n
  | Value.F64 _, TyNumber => True
  | Value.String _, TyString => True
  | Value.List _, TyList => True
  | Value.Map _, TyMap => True
  | _, _ => False
  end.

Definition is_numeric_ty (t : ty) : bool :=
  match t with TyInteger | TyNumber => true | _ => false end.
Definition binop_type (op : BinOp) (l r : option ty) : option ty :=
  match op with
  | BinOp.And | BinOp.Or | BinOp.Xor | BinOp.Eq | BinOp.Neq | BinOp.Lt | BinOp.Gt | BinOp.Lte
  | BinOp.Gte | BinOp.StartsWith | BinOp.EndsWith | BinOp.Contains | BinOp.RegexMatch | BinOp.In =>
      Some TyBool
  | BinOp.Add | BinOp.Sub | BinOp.Mul | BinOp.Div | BinOp.Mod =>
      match l, r with
      | Some TyInteger, Some TyInteger => Some TyInteger
      | Some l, Some r => if is_numeric_ty l && is_numeric_ty r then Some TyNumber else None
      | _, _ => None
      end
  | BinOp.Pow => Some TyNumber
  end.
(** The type of all of them, when it is one. *)
Definition meet (a b : option ty) : option ty :=
  match a, b with
  | Some a, Some b => if decide (a = b) then Some a else None
  | _, _ => None
  end.

Fixpoint static_type (e : Expr) : option ty :=
  match expr_kind e with
  | Literal (LiteralValue.Bool _) => Some TyBool
  | Literal (LiteralValue.I64 n) => if decide (in_i64 n) then Some TyInteger else None
  | Literal (LiteralValue.F64 _) => Some TyNumber
  | Literal (LiteralValue.String _) => Some TyString
  | BinaryOp l op r => binop_type op (static_type l) (static_type r)
  | Not _ | IsNull _ | IsNotNull _ | Ast.Exists _ _ | PatternPredicate _ | ExistsSubquery _
  | Quantifier _ _ _ _ | HasLabel _ _ => Some TyBool
  | ListLit _ | ListComprehension _ _ _ _ | PatternComprehension _ _ _ _ => Some TyList
  | MapLiteral _ => Some TyMap
  | Case _ ((_, r) :: alternatives) (Some d) =>
      foldr (λ a acc, meet (static_type a.2) acc) (meet (static_type r) (static_type d)) alternatives
  | _ => None
  end.

Ltac yields_step :=
  match goal with
  | |- yields (mbind _ _) _ => apply yields_bind_any; intros ?
  | |- yields (mret _) _ => apply yields_ret; exact I
  | |- yields (throw _) _ => apply yields_throw
  | |- yields (match ?x with _ => _ end) _ => destruct x
  | |- yields ((match ?x with _ => _ end) _) _ => destruct x
  end.

Section types.
Context {Ch : Chrono} {Co : ChronoOrder} {Lm : Libm} {Un : Unicode}.
Context {conn : Type} {O : SqlOps conn} {Mp : Msgpack}.
Context {S : Type} (X : Effects S) (Q : Subqueries S) (c : conn).
Context (params : option (gmap string value)).

Lemma tri_value_type o : has_type TyBool (tri_value o).
Proof. by destruct o. Qed.
Lemma is_tri_type v : is_tri v → has_type TyBool v.
Proof. by destruct v. Qed.
Lemma compare_type a b p v : compare_to_value a b p = Ok v → has_type TyBool v.
Proof.
  assert (compare_to_value a b p
    = if is_null a || is_null b then Ok Value.Null
      else o ← compare_values a b;
           Ok (match o with
               | Some ord => Value.Bool (p ord)
               | None => if is_numeric a && is_numeric b then Value.Bool false else Value.Null
               end)) as -> by (by destruct a, b).
  destruct (_ || _); [by intros [= <-]|]. destruct (compare_values a b) as [[o|]|e|]; simpl;
    [by intros [= <-]| |done..]. destruct (_ && _); by intros [= <-].
Qed.
Lemma in_type l r v : eval_in l r = Ok v → has_type TyBool v.
Proof.
  unfold eval_in. intros H. destruct r; [by destruct l; injection H as <-|..];
    try (by destruct l). destruct l; try (injection H as <-; by destruct items);
    injection H as <-; rewrite in_loop_kleene; apply tri_value_type.
Qed.
Lemma in_i64_quot a b : in_i64 a → in_i64 b → in_i64 (Z.rem a b).
Proof.
  intros Ha Hb. destruct (decide (b = 0)) as [->|Hn]; [by rewrite Z.rem_0_r_ext|].
  pose proof (Z.rem_bound_abs a b Hn). unfold in_i64, i64_min, i64_max in *. lia.
Qed.
Lemma has_type_meet a b t v : meet a b = Some t → (∀ t', a = Some t' → has_type t' v) → has_type t v.
Proof. unfold meet. destruct a, b; try done. case_decide; [|done]. intros [= <-] Hv. by apply Hv. Qed.

(** Results of arithmetic on numbers and nulls. *)
Definition numeric_value (v : value) : Prop :=
  match v with Value.Null | Value.F64 _ => True | Value.I64 n => in_i64 n | _ => False end.
Lemma numeric_of t v : is_numeric_ty t = true → has_type t v → numeric_value v.
Proof. by destruct t, v. Qed.
Lemma exact_type t a op b n v :
  is_numeric_ty t = true → exact_or_overflow a op b n = Ok v → has_type t v.
Proof. unfold exact_or_overflow. intros Ht. case_decide; [|done]. intros [= <-]. by destruct t. Qed.

Definition is_arith (op : BinOp) : bool :=
  match op with BinOp.Add | BinOp.Sub | BinOp.Mul | BinOp.Div | BinOp.Mod => true | _ => false end.
Lemma integer_type op a b : is_arith op = true → in_i64 a → in_i64 b →
  yields (eval_binop X (Value.I64 a) op (Value.I64 b)) (has_type TyInteger).
Proof.
  intros Ho Ha Hb. destruct op; try done; apply yields_lift; intros v.
  - rewrite add_exact. by apply exact_type.
  - rewrite sub_exact. by apply exact_type.
  - rewrite mul_exact. by apply exact_type.
  - rewrite div_exact. case_decide; [by intros [= <-]|]. by apply exact_type.
  - rewrite mod_exact by done. case_decide; [by intros [= <-]|]. case_decide; [|done].
    intros [= <-]. by apply in_i64_quot.
Qed.
Lemma float_type a : has_type TyNumber (F a).
Proof. done. Qed.
#[local] Opaque f64_add f64_sub f64_mul f64_div f64_rem f64_to_bits f64_of_bits f64_of_int is_zero F.
Lemma number_type op l r : is_arith op = true → numeric_value l → numeric_value r →
  yields (eval_binop X l op r) (has_type TyNumber).
Proof.
  intros Ho Hl Hr.
  assert (∀ (r : Res value) P, (∃ v, r = Ok v ∧ P v) → yields (S := S) (lift r) P) as Hlift.
  { intros r0 P (v & -> & Hv). apply yields_lift. by intros ? [= <-]. }
  destruct l, r; try done;
    try (destruct op; try done; apply Hlift; exists Value.Null; done).
  1: { intros s s' v Hv. pose proof (integer_type op n n0 Ho Hl Hr s s' v Hv). by destruct v. }
  all: destruct op; try done; apply Hlift; cbn;
    repeat match goal with |- context [if ?b then _ else _] => destruct b end;
    (eexists; split; [reflexivity|]); first [apply float_type | exact I].
Qed.

Lemma tri_op_type f l r :
  (∀ a b, is_tri (f a b)) → yields (S := S) (lift (tri_op f l r)) (has_type TyBool).
Proof.
  intros Hf. apply yields_lift. intros v. unfold tri_op.
  destruct (to_tribool l) as [a|e|]; simpl; [|done..].
  destruct (to_tribool r) as [b|e|]; simpl; [|done..]. intros [= <-]. by apply is_tri_type.
Qed.
Lemma test_type (l r : value) (test : string → string → bool) :
  has_type TyBool (eval_string_test test l r).
Proof. by destruct l; try done; destruct r. Qed.
Lemma regex_type l r : yields (eval_regex_match X l r) (has_type TyBool).
Proof.
  unfold eval_regex_match. destruct l; try (by apply yields_ret); destruct r; try (by apply yields_ret).
  apply yields_bind_any. intros b. by apply yields_ret.
Qed.
Lemma pow_type l r : yields (eval_binop X l BinOp.Pow r) (has_type TyNumber).
Proof.
  apply yields_lift. intros v. destruct l; try done; destruct r; try done; by intros [= <-].
Qed.

Lemma binop_typed op tl tr t l r : binop_type op tl tr = Some t →
  (∀ t, tl = Some t → has_type t l) → (∀ t, tr = Some t → has_type t r) →
  yields (eval_binop X l op r) (has_type t).
Proof.
  intros Ht Hl Hr.
  destruct (is_arith op) eqn:Ho.
  - assert (∃ t1 t2, tl = Some t1 ∧ tr = Some t2 ∧ is_numeric_ty t1 = true ∧ is_numeric_ty t2 = true
      ∧ (t = TyNumber ∨ t = TyInteger ∧ t1 = TyInteger ∧ t2 = TyInteger)) as (t1 & t2 & -> & -> & N1 & N2 & E).
    { destruct op; try done; simpl in Ht; destruct tl as [[]|]; try done; destruct tr as [[]|]; try done;
        injection Ht as <-; eauto 10. }
    specialize (Hl _ eq_refl). specialize (Hr _ eq_refl).
    pose proof (number_type op l r Ho (numeric_of _ _ N1 Hl) (numeric_of _ _ N2 Hr)) as Hn.
    destruct E as [->|(-> & -> & ->)]; [exact Hn|].
    destruct l; try done; destruct r; try done; try (by apply integer_type);
      intros s s' v Hv; specialize (Hn s s' v Hv); by destruct op; try done; injection Hv as _ <-.
  - destruct op; try done; injection Ht as <-; cbn [eval_binop].
    + by apply yields_ret, is_tri_type, values_equal_is.
    + apply yields_ret. unfold eval_neq. pose proof (values_equal_is l r).
      by destruct (values_equal l r).
    + apply yields_lift. intros v. apply compare_type.
    + apply yields_lift. intros v. apply compare_type.
    + apply yields_lift. intros v. apply compare_type.
    + apply yields_lift. intros v. apply compare_type.
    + apply tri_op_type. by intros [[]|] [[]|].
    + apply tri_op_type. by intros [[]|] [[]|].
    + apply tri_op_type. by intros [[]|] [[]|].
    + by apply yields_ret, test_type.
    + by apply yields_ret, test_type.
    + by apply yields_ret, test_type.
    + apply regex_type.
    + apply yields_lift. intros v. apply in_type.
    + apply pow_type.
Qed.

Lemma quantifier_typed kind n : has_type TyBool (quantifier_result kind n).
Proof. destruct kind; simpl; repeat case_decide; done. Qed.
Lemma has_label_typed record var labels :
  yields (S := S) (eval_has_label c record var labels) (has_type TyBool).
Proof. unfold eval_has_label. repeat first [by apply yields_ret | yields_step]. Qed.

Abbreviation ev := (eval_expr X Q c params).
Lemma simple_case_type t v alts d :
  (∀ a, a ∈ alts → yields a.2 (has_type t)) → yields d (has_type t) →
  yields (S := S) (simple_case v alts d) (has_type t).
Proof.
  intros Ha Hd. induction alts as [|[w r] alts IH]; [done|]. simpl. apply yields_bind_any. intros x.
  destruct (is_true _); [apply (Ha (w, r)); left|apply IH; intros a Hin; apply Ha; by right].
Qed.
Lemma searched_case_type t alts d :
  (∀ a, a ∈ alts → yields a.2 (has_type t)) → yields d (has_type t) →
  yields (S := S) (searched_case alts d) (has_type t).
Proof.
  intros Ha Hd. induction alts as [|[w r] alts IH]; [done|]. simpl. apply yields_bind_any. intros x.
  destruct x; [apply (Ha (w, r)); left|apply IH; intros a Hin; apply Ha; by right].
Qed.
Lemma meet_all t alternatives acc :
  foldr (λ a acc, meet (static_type a.2) acc) acc alternatives = Some t →
  acc = Some t ∧ ∀ a : Expr * Expr, a ∈ alternatives → static_type a.2 = Some t.
Proof.
  induction alternatives as [|a l IH]; simpl; intros H0; [split; [done|set_solver]|].
  unfold meet in H0 at 1. destruct (static_type a.2) as [t1|] eqn:E1; [|done].
  destruct (foldr _ _ l) as [t2|] eqn:E2; [|done]. case_decide as Et; [|done].
  injection H0 as ->. subst t2. destruct (IH eq_refl) as [Ha Hl]. split; [done|].
  intros b [->|Hb]%elem_of_cons; [done|by apply Hl].
Qed.

Lemma expr_typed e record t : static_type e = Some t → yields (ev e record) (has_type t).
Proof.
  revert e record t.
  apply (syntax_ind (λ e, ∀ record t, static_type e = Some t → yields (ev e record) (has_type t))
    (λ _, True)); [|done].
  intros k sp IH _ record t. assert (∀ e, e ∈ kind_exprs k → ∀ record t, static_type e = Some t →
    yields (ev e record) (has_type t)) as H by (intros e He; by apply IH). clear IH.
  destruct k; try done; cbn [static_type eval_expr expr_kind]; cbn [kind_exprs] in H.
  - destruct l; try done; [intros [= <-]|case_decide; [intros [= <-]|done]|intros [= <-]..];
      by apply yields_ret.
  - intros Ht. eapply yields_bind; [|intros l Hl].
    { instantiate (1 := λ v, ∀ t, static_type left = Some t → has_type t v).
      intros s s' v Hv t' Ht'. eapply H; [|done..]. set_solver. }
    eapply yields_bind; [|intros r Hr].
    { instantiate (1 := λ v, ∀ t, static_type right = Some t → has_type t v).
      intros s s' v Hv t' Ht'. eapply H; [|done..]. set_solver. }
    by eapply binop_typed.
  - intros [= <-]. apply yields_bind_any. intros v. apply yields_bind_any. intros o.
    apply yields_ret, tri_value_type.
  - intros [= <-]. apply yields_bind_any. intros v. by apply yields_ret.
  - intros [= <-]. apply yields_bind_any. intros v. by apply yields_ret.
  - destruct alternatives as [|[w r] alternatives]; [done|]. destruct default_ as [d|]; [|done].
    intros [Hrd Hall]%meet_all. unfold meet in Hrd.
    destruct (static_type r) as [t1|] eqn:Er; [|done]. destruct (static_type d) as [t2|] eqn:Ed; [|done].
    case_decide; [|done]. injection Hrd as ->. subst t2.
    assert (∀ a, a ∈ List.map (λ p : Expr * Expr, (ev p.1 record, ev p.2 record)) ((w, r) :: alternatives)
      → yields a.2 (has_type t)) as Ha.
    { intros a (p & <- & Hp)%list_elem_of_In%in_map_iff. simpl. apply list_elem_of_In in Hp.
      apply H; [|apply elem_of_cons in Hp as [->|Hp]; [done|by apply Hall]].
      rewrite !elem_of_app. right. left. apply list_elem_of_bind. exists p. split; [|done]. set_solver. }
    assert (yields (ev d record) (has_type t)) as Hd.
    { apply H; [|done]. rewrite !elem_of_app. right; right. left. }
    destruct operand as [op|].
    + apply yields_bind_any. intros v. by apply simple_case_type.
    + by apply searched_case_type.
  - intros [= <-]. apply yields_bind_any. intros l. by apply yields_ret.
  - intros [= <-]. unfold eval_list_comprehension. repeat first [by apply yields_ret | yields_step].
  - intros [= <-]. unfold eval_pattern_comprehension. repeat first [by apply yields_ret | yields_step].
  - intros [= <-]. unfold eval_exists. repeat first [by apply yields_ret | yields_step].
  - intros [= <-]. unfold eval_exists_subquery. repeat first [by apply yields_ret | yields_step].
  - intros [= <-]. apply yields_bind_any. intros l. by apply yields_ret.
  - intros [= <-]. unfold eval_quantifier.
    repeat first [by apply yields_ret | by apply yields_ret, quantifier_typed | yields_step].
  - intros [= <-]. apply has_label_typed.
  - intros [= <-]. unfold eval_exists. repeat first [by apply yields_ret | yields_step].
Qed.
End types.
