(* ===== verification/Expressions.v ===== *)
(** * Properties of expressions and of aggregation

    What the evaluator, the aggregates and ORDER BY promise, with a concrete case of
    each. *)
From S2P Require Export SlotSpec ExprSpec Msgpack.
#[local] Open Scope Z_scope.

(** ** Rows by slot and by name *)

(** C21: grouping and aggregating rows held in slots gives, slot by slot, what grouping
    and aggregating the rows with names gives: the same groups in the same order, the
    same values, the same error or panic, the same effects; slots that are not named
    by the result are null.  A row in slots is converted to its named row without a
    panic, and the two look the same to every expression. *)
Theorem slot_aggregation_agrees {Co : ChronoOrder} {Db : DebugText} {S : Type}
    (ev : Expr → RecordView → M S GraphError value) (s_in s_out : RecordSchema)
    (records : list SlotRecord) (group_keys : list Expr) (aggregates : list AggregateExpr) (s : S) :
  schema_wf s_in → schema_wf s_out → Forall (row_of s_in) records →
  let by_name := aggregate_named_records ev (named_of s_in <$> records) group_keys aggregates s in
  let by_slot := aggregate_slot_records ev s_in records s_out group_keys aggregates s in
  by_slot.1 = by_name.1 ∧ rsim (Forall2 (agrees s_out)) by_name.2 by_slot.2
  ∧ Forall (λ r, slot_to_named s_in r = Ok (named_of s_in r)
                 ∧ slot_view s_in r = named_view (named_of s_in r)) records.
Proof.
  intros Hin Hout Hr. simpl.
  destruct (aggregate_agree ev s_in s_out Hin Hout records group_keys aggregates Hr s s eq_refl)
    as [Hs Hres].
  split_and!; [by symmetry|exact Hres|].
  eapply Forall_impl; [exact Hr|]. intros r H. split; [by apply slot_to_named_ok|by apply slot_view_named].
Qed.

(** ** Sorting *)


(** ** Types *)

(** C30: an expression that has a type by its form, comparisons and logic of whatever
    operands, arithmetic on numbers, lists, maps and CASE among them, takes only
    values of that type or null, whatever the row, the parameters, the database and
    the effects; integers stay within 64 bits. *)
Theorem typed_expressions {Ch : Chrono} {Co : ChronoOrder} {Lm : Libm} {Un : Unicode}
    {conn : Type} {O : SqlOps conn} {Mp : Msgpack} {S : Type} (X : Effects S) (Q : Subqueries S)
    (c : conn) (params : option (gmap string value)) (e : Expr) (record : RecordView) (t : ty)
    (s s' : S) (v : value) :
  static_type e = Some t → eval_expr X Q c params e record s = (s', Ok v) → has_type t v.
Proof. intros Ht E. by eapply expr_typed. Qed.

(** ** Logic *)


(** ALL, ANY, NONE and SINGLE evaluate the predicate in each element in turn and
    are true or false exactly when the list has that truth value under every reading of
    the unknown results as true or false, and null otherwise. *)
Theorem quantifiers_agree_with_readings {S : Type} (kind : QuantifierKind)
    (pred : RecordView → M S GraphError value) (base : NamedRecord) (variable : string)
    (items results : list value) (s s' : S) :
  collect_m (λ item, pred (bind_item base variable item)) items s = (s', Ok results) →
  ∃ r, (n ← quantifier_loop pred base variable items (mkCounts 0 0 0); mret (quantifier_result kind n)) s
       = (s', Ok r)
    ∧ is_tri r
    ∧ ∀ b, r = Value.Bool b ↔ ∀ bs, reading (tri_of <$> results) bs → classical kind bs = b.
Proof.
  intros Hc. exists (quantifier_result kind (counts_of results)). split_and!.
  - erewrite run_bind; [|by apply quantifier_loop_counts]. done.
  - unfold quantifier_result. destruct kind; repeat case_decide; done.
  - intros b. apply quantifier_readings.
Qed.

(** ** Integers *)

(** C32: addition, subtraction, multiplication and division of 64-bit integers return
    the exact result or, when it does not fit, a NumberOutOfRange error that names the
    operation; they never wrap around.  Division and remainder by zero are null;
    the remainder is exact, except that i64::MIN % -1, which is 0, is refused. *)
Theorem integer_arithmetic_exact {Ch : Chrono} {Co : ChronoOrder} {Lm : Libm} (a b : Z) :
  in_i64 a → in_i64 b →
  eval_add (Value.I64 a) (Value.I64 b) = exact_or_overflow a "+" b (a + b)
  ∧ eval_sub (Value.I64 a) (Value.I64 b) = exact_or_overflow a "-" b (a - b)
  ∧ eval_mul (Value.I64 a) (Value.I64 b) = exact_or_overflow a "*" b (a * b)
  ∧ eval_div (Value.I64 a) (Value.I64 b)
    = (if decide (b = 0) then Ok Value.Null else exact_or_overflow a "/" b (Z.quot a b))
  ∧ eval_mod (Value.I64 a) (Value.I64 b)
    = (if decide (b = 0) then Ok Value.Null
       else if decide (in_i64 (Z.quot a b)) then Ok (Value.I64 (Z.rem a b))
       else Err (integer_overflow a "%" b)).
Proof.
  intros Ha Hb. split_and!; [apply add_exact|apply sub_exact|apply mul_exact|apply div_exact|].
  by apply mod_exact.
Qed.

(** The loop of range() ends, after one turn for each element and one more: with
    that much fuel or any larger amount it gives the progression from start by step up to and including the
    end, exactly [range_len] numbers; a range of more than ten million is refused
    before the loop, and the element that would overflow 64 bits is never computed. *)
Theorem range_terminates (s e step : Z) (fuel : nat) :
  in_i64 s → in_i64 e → step ≠ 0 → 0 ≤ range_len s e step →
  (Z.to_nat (range_len s e step) < fuel)%nat →
  let n := Z.to_nat (range_len s e step) in
  range_loop fuel (inside e step) step s = progression s step n
  ∧ (∀ k : Z, 0 ≤ k → inside e step (s + step * k) = true ↔ k < range_len s e step)
  ∧ range_values s e step
    = (if MAX_RANGE_LEN <? range_len s e step
       then Err (range_cap_error s e step (range_len s e step))
       else Ok (progression s step n)).
Proof.
  intros Hs He Hstep Hlen Hf. simpl. pose proof (range_len_pos s e step) as Hin.
  split_and!; [|intros k Hk; by apply Hin|by apply range_values_exact].
  apply range_loop_exact; [done..|lia| | |done].
  - intros k Hk. apply Hin; [done|lia|lia].
  - apply not_true_is_false. rewrite Z2Nat.id by done. intros H. apply Hin in H; [lia|done..].
Qed.

(** ** Strings *)

(** Left(), right() and substring() cut a string between characters, whatever
    their width: left and the substring from there give the string back, right is the
    substring from the length less its argument, and none of them reads past an end.
    Joining what split() returned with its separator, or replacing a text by itself, gives the string
    back. *)
Theorem strings_by_character (s d : string) (n : Z) :
  match str_bytes s with b :: _ => utf8_cont b = false | [] => True end → 0 ≤ n →
  let cs := str_chars s in
  let str w := Value.String w in
  ∃ l r,
    fn_left (str s) (Some (Value.I64 n)) = str l ∧ str_chars l = take (Z.to_nat n) cs
    ∧ fn_substring (str s) (Some (Value.I64 0)) (Some (Value.I64 n)) = str l
    ∧ fn_substring (str s) (Some (Value.I64 n)) None = str r ∧ str_chars r = drop (Z.to_nat n) cs
    ∧ l +:+ r = s
    ∧ fn_right (str s) (Some (Value.I64 n))
      = fn_substring (str s) (Some (Value.I64 (Z.of_nat (length cs) - n))) None
    ∧ fn_replace (str s) (Some (str d)) (Some (str d)) = str s
    ∧ ∃ parts, fn_split (str s) (Some (str d)) = Value.List (text <$> parts)
        ∧ join_bytes (str_bytes d) parts = str_bytes s.
Proof.
  intros Hs Hn. simpl. set (cs := str_chars s).
  assert (Forall is_char cs) as Hcs.
  { unfold cs, str_chars. destruct (str_bytes s); [constructor|by apply chars_are_chars]. }
  assert (of_chars cs = str_bytes s) as Hall by apply of_chars_chars.
  assert (∀ k, clamp_len k = Z.to_nat k) as Hclamp by (intros k; unfold clamp_len; lia).
  assert (∀ k, Value.String (str_of_chars (drop k cs))
    = if decide (length cs ≤ k)%nat then Value.String "" else Value.String (str_of_chars (drop k cs))) as Hdrop.
  { intros k. case_decide; [|done]. by rewrite drop_ge. }
  exists (str_of_chars (take (Z.to_nat n) cs)), (str_of_chars (drop (Z.to_nat n) cs)).
  unfold str_of_chars, str_chars. rewrite !str_bytes_str.
  split_and!.
  - by rewrite Hclamp.
  - by rewrite chars_of_chars by (by apply Forall_take).
  - change (clamp_len 0) with 0%nat. rewrite Hclamp. case_decide as Hl; [|by rewrite drop_0].
    fold cs in Hl. destruct cs; [by rewrite take_nil|simpl in Hl; lia].
  - rewrite Hclamp. symmetry. apply Hdrop.
  - by rewrite chars_of_chars by (by apply Forall_drop).
  - rewrite <- (bytes_str_bytes (_ +:+ _)), str_bytes_app, !str_bytes_str.
    unfold of_chars. rewrite <- concat_app, take_drop.
    fold (of_chars cs). by rewrite Hall, bytes_str_bytes.
  - rewrite !Hclamp. fold cs. rewrite Z2Nat.inj_sub, Nat2Z.id by done. apply Hdrop.
  - unfold text, replace_str. by rewrite join_split, bytes_str_bytes.
  - eexists. split; [reflexivity|]. apply join_split.
Qed.

(** ** Witnesses *)
Module ExprDemo.
(** A library with some powers and cases, a database, and effects that do nothing. *)
#[export] Instance libm : Libm := {
  f64_powf x y := f64_mul x y; f64_ln x := x; f64_log10 x := x; f64_exp x := x }.
#[export] Instance unicode : Unicode := {
  to_lowercase := ascii_lowercase; to_uppercase := ascii_lowercase }.
#[export] Instance debug_text : DebugText := {
  value_debug := value_type_name; expr_debug := expr_to_column_name }.
#[export] Existing Instance Gregorian.chrono.
#[export] Existing Instance GregorianOrder.gregorian_order.
#[export] Existing Instance GregorianOrder.gregorian_order_laws.
#[export] Existing Instance Reference.msgpack.
Definition no_effects : Effects unit := mkEffects (λ _ _, mret false) (mret 0%N).
Definition no_rows {S} : Subqueries S :=
  mkSubqueries (λ _ _ _, mret false) (λ _ _, mret false) (λ _ _ _, mret []).
Definition no_db : db := ∅.
(** The evaluator on them. *)
Definition ev : Expr → RecordView → M unit GraphError value :=
  eval_expr no_effects no_rows no_db None.
Definition var (x : string) : Expr := synthetic (Variable_ x).
Definition int (n : Z) : Expr := synthetic (Literal (LiteralValue.I64 n)).

(** The columns a and b, and two rows. *)
Definition schema : RecordSchema := RecordSchema.mk {["a" := 0%N; "b" := 1%N]} ["a"; "b"].
Lemma schema_ok : schema_wf schema.
Proof.
  assert (∃ s1 s2, RecordSchema.add "a" RecordSchema.new = Ok (0%N, s1)
    ∧ RecordSchema.add "b" s1 = Ok (1%N, s2) ∧ s2 = schema) as (s1 & s2 & E1 & E2 & <-).
  { eexists _, _. split; [reflexivity|]. split; [reflexivity|]. unfold schema. f_equal. }
  exact (schema_add_wf _ _ _ _ (schema_add_wf _ _ _ _ schema_new_wf E1) E2).
Qed.
Definition slots (a b : Z) : SlotRecord := SlotRecord.mk [Value.I64 a; Value.I64 b].
Definition sum_b : AggregateExpr := mkAggregateExpr Sum (var "b") None false None "sum" None.

(** Rows with an x, and a value for each expression. *)
Definition row (x y : Z) : NamedRecord := NamedRecord.mk [("x", Value.I64 x); ("y", Value.I64 y)].
Definition val (e : Expr) (r : NamedRecord) : value :=
  default Value.Null (NamedRecord.get (expr_to_column_name e) r).
Definition by_x : list (SortItem Expr) := [mkSortItem (var "x") true].
Definition rows : list NamedRecord := [row 1 10; row 2 20; row 1 30].
Lemma rows_sortable :
  Forall (row_sortable (λ _, True) ev (λ _, KInteger) val by_x) rows.
Proof.
  assert (∀ x y, row_sortable (λ _, True) ev (λ _, KInteger) val by_x (row x y)) as H.
  { intros x y. constructor; [|constructor]. split; [|by intros _].
    intros [] _. exists tt. split; [done|reflexivity]. }
  unfold rows. rewrite !Forall_cons. split_and!; [apply H..|constructor].
Qed.
End ExprDemo.

Section Witnesses.
Import ExprDemo.

(** sum(b) by a over (1, 2), (2, 3) and (1, 5). *)
Lemma slot_aggregation_agrees_witness :
  let by_name := aggregate_named_records ev (named_of schema <$> [slots 1 2; slots 2 3; slots 1 5])
                   [var "a"] [sum_b] tt in
  let by_slot := aggregate_slot_records ev schema [slots 1 2; slots 2 3; slots 1 5] schema
                   [var "a"] [sum_b] tt in
  by_slot.1 = by_name.1 ∧ rsim (Forall2 (agrees schema)) by_name.2 by_slot.2
  ∧ Forall (λ r, slot_to_named schema r = Ok (named_of schema r)
                 ∧ slot_view schema r = named_view (named_of schema r)) [slots 1 2; slots 2 3; slots 1 5].
Proof.
  apply (slot_aggregation_agrees ev schema schema); [exact schema_ok|exact schema_ok|].
  by repeat constructor.
Defined.
Example sums_by_slot :
  aggregate_named_records ev (named_of schema <$> [slots 1 2; slots 2 3; slots 1 5]) [var "a"] [sum_b] tt
  = (tt, Ok [NamedRecord.mk [("a", Value.I64 1); ("sum(b)", Value.I64 7)];
             NamedRecord.mk [("a", Value.I64 2); ("sum(b)", Value.I64 3)]]).
Proof. vm_compute. reflexivity. Qed.

Example sorted_rows : sort_records ev by_x rows tt = (tt, Ok [row 2 20; row 1 10; row 1 30]).
Proof. vm_compute. reflexivity. Qed.

(** 1 + 2 = x is true or false or null. *)
Lemma typed_expressions_witness :
  has_type TyBool (Value.Bool false).
Proof.
  apply (typed_expressions no_effects no_rows no_db None
    (synthetic (BinaryOp (synthetic (BinaryOp (int 1) BinOp.Add (int 2))) BinOp.Eq (var "x")))
    (named_view (row 1 2)) TyBool tt tt); reflexivity.
Defined.

(** ANY over false and null. *)
Lemma quantifiers_agree_with_readings_witness :
  let pred (r : RecordView) : M unit GraphError value :=
    lift (v ← view_get r "e"; Ok (default Value.Null v)) in
  ∃ r, (n ← quantifier_loop pred NamedRecord.new "e" [Value.Bool false; Value.Null] (mkCounts 0 0 0);
        mret (quantifier_result QuantifierKind.Any n)) tt = (tt, Ok r)
    ∧ is_tri r
    ∧ ∀ b, r = Value.Bool b ↔ ∀ bs, reading [Some false; None] bs → classical QuantifierKind.Any bs = b.
Proof.
  apply (quantifiers_agree_with_readings QuantifierKind.Any _ NamedRecord.new "e"
    [Value.Bool false; Value.Null] [Value.Bool false; Value.Null] tt tt). reflexivity.
Defined.

Lemma integer_arithmetic_exact_witness :
  eval_add (Value.I64 i64_max) (Value.I64 2) = exact_or_overflow i64_max "+" 2 (i64_max + 2)
  ∧ eval_sub (Value.I64 i64_max) (Value.I64 2) = exact_or_overflow i64_max "-" 2 (i64_max - 2)
  ∧ eval_mul (Value.I64 i64_max) (Value.I64 2) = exact_or_overflow i64_max "*" 2 (i64_max * 2)
  ∧ eval_div (Value.I64 i64_max) (Value.I64 2)
    = (if decide (2 = 0) then Ok Value.Null else exact_or_overflow i64_max "/" 2 (Z.quot i64_max 2))
  ∧ eval_mod (Value.I64 i64_max) (Value.I64 2)
    = (if decide (2 = 0) then Ok Value.Null
       else if decide (in_i64 (Z.quot i64_max 2)) then Ok (Value.I64 (Z.rem i64_max 2))
       else Err (integer_overflow i64_max "%" 2)).
Proof. apply (integer_arithmetic_exact i64_max 2); by_decide. Defined.

Lemma range_terminates_witness :
  range_loop 9 (inside 0 (-3)) (-3) 10 = progression 10 (-3) 4
  ∧ (∀ k : Z, 0 ≤ k → inside 0 (-3) (10 + (-3) * k) = true ↔ k < range_len 10 0 (-3))
  ∧ range_values 10 0 (-3)
    = (if MAX_RANGE_LEN <? range_len 10 0 (-3)
       then Err (range_cap_error 10 0 (-3) (range_len 10 0 (-3)))
       else Ok (progression 10 (-3) 4)).
Proof. apply (range_terminates 10 0 (-3) 9); by_decide. Defined.
Example range_down : range_values 10 0 (-3) = Ok [10; 7; 4; 1].
Proof. vm_compute. reflexivity. Qed.

Lemma strings_by_character_witness :
  ∃ l r,
    fn_left (Value.String "naïve") (Some (Value.I64 3)) = Value.String l
    ∧ str_chars l = take 3 (str_chars "naïve")
    ∧ fn_substring (Value.String "naïve") (Some (Value.I64 0)) (Some (Value.I64 3)) = Value.String l
    ∧ fn_substring (Value.String "naïve") (Some (Value.I64 3)) None = Value.String r
    ∧ str_chars r = drop 3 (str_chars "naïve")
    ∧ l +:+ r = "naïve"
    ∧ fn_right (Value.String "naïve") (Some (Value.I64 3))
      = fn_substring (Value.String "naïve") (Some (Value.I64 (Z.of_nat (length (str_chars "naïve")) - 3))) None
    ∧ fn_replace (Value.String "naïve") (Some (Value.String "v")) (Some (Value.String "v"))
      = Value.String "naïve"
    ∧ ∃ parts, fn_split (Value.String "naïve") (Some (Value.String "v")) = Value.List (text <$> parts)
        ∧ join_bytes (str_bytes "v") parts = str_bytes "naïve".
Proof. apply (strings_by_character "naïve" "v" 3); by vm_compute. Defined.
End Witnesses.
