(* ===== verification/Plans.v ===== *)
(** * Running a plan

    The iterators of a plan in two states, and what follows of whole plans: rows fit
    the schema that was inferred for them, plans that only read leave the database
    alone, and a row of a limit costs one pull. *)
From S2P Require Import Handles Expressions.
From S2P Require Export DatabaseSpec IterSpec.
#[local] Open Scope Z_scope.

(** ** Rows that fit a schema *)

Lemma gives_collect {A B} (P : B → Prop) (f : A → Res B) l :
  (∀ x, gives (f x) P) → gives (collect f l) (Forall P).
Proof.
  intros Hf. induction l as [|x l IH]; cbn [collect]; [apply gives_ok; constructor|].
  eapply gives_then; [apply Hf|]. intros b Hb. eapply gives_then; [exact IH|]. intros bs Hbs.
  apply gives_ok. by constructor.
Qed.

Section rows.
Context (s : RecordSchema).
Abbreviation rows r := (gives r (row_of s)).

Lemma empty_row_fits : row_of s (empty_row s).
Proof. apply length_replicate. Qed.
Lemma set_fits slot v out : row_of s out → rows (SlotRecord.set slot v out).
Proof.
  intros H out'. unfold SlotRecord.set. case_decide; [|done]. intros [= <-].
  unfold row_of. cbn [SlotRecord.values]. by rewrite length_insert.
Qed.
Lemma set_named_fits name v out : row_of s out → rows (set_named s name v out).
Proof. intros H. unfold set_named. destruct (RecordSchema.slot name s); [by apply set_fits|by apply gives_ok]. Qed.
Lemma fill_slots_fits named slots out : row_of s out → rows (fill_slots named slots out).
Proof.
  revert out. induction slots as [|[i n] slots IH]; intros out H; cbn [fill_slots]; [by apply gives_ok|].
  apply (gives_then _ (row_of s)); [|done]. destruct (NamedRecord.get n named); [by apply set_fits|by apply gives_ok].
Qed.
Lemma named_to_slot_fits named : rows (named_to_slot s named).
Proof. apply gives_bind_any. intros slots. apply fill_slots_fits, empty_row_fits. Qed.
Lemma write_slots_fits fields out : row_of s out → rows (write_slots s fields out).
Proof.
  revert out. induction fields as [|[n v] l IH]; intros out H; cbn [write_slots]; [by apply gives_ok|].
  eapply gives_then; [by apply set_named_fits|]. done.
Qed.
Lemma node_row_fits alias n : rows (node_to_slot_record alias s n).
Proof. apply write_slots_fits, empty_row_fits. Qed.

Lemma carry_slot_fits (o : option N) (m : Res value) out : row_of s out →
  rows (match o with Some i => m ≫= λ v : value, SlotRecord.set i v out | None => Ok out end).
Proof. intros H. destruct o; [apply gives_bind_any; intros v; by apply set_fits|by apply gives_ok]. Qed.
Lemma carry_forward_fits base slots out : row_of s out → rows (carry_forward s base slots out).
Proof.
  revert out. induction slots as [|[i n] l IH]; intros out H; cbn [carry_forward]; [by apply gives_ok|].
  eapply gives_then; [by apply carry_slot_fits|]. done.
Qed.
Lemma unwind_project_fits alias s_in base named : rows (unwind_project alias s_in s base named).
Proof.
  apply gives_bind_any. intros slots. eapply gives_then; [apply carry_forward_fits, empty_row_fits|].
  intros out H. by apply write_slots_fits.
Qed.
Lemma carry_slots_fits first var slots out : row_of s out → rows (carry_slots s first var slots out).
Proof.
  revert out. induction slots as [|[i n] l IH]; intros out H; cbn [carry_slots]; [by apply gives_ok|].
  apply (gives_then _ (row_of s)); [|done]. destruct (str_starts _ _); [by apply carry_slot_fits|by apply gives_ok].
Qed.
Lemma set_keys_slot_fits s_in group keys out : row_of s out → rows (set_keys_slot s_in s group keys out).
Proof.
  revert out. induction keys as [|[k v] l IH]; intros out H; cbn [set_keys_slot]; [by apply gives_ok|].
  eapply gives_then; [by apply set_named_fits|]. intros out1 H1.
  apply (gives_then _ (row_of s)); [|done]. unfold carry_group.
  destruct (variable_of k), (head group); try by apply gives_ok.
  apply gives_bind_any. intros slots. by apply carry_slots_fits.
Qed.
End rows.

(** ** Iterators of slots in two states *)
Section iterators.
Context {Ch : Chrono} {Co : ChronoOrder} {Lm : Libm} {Un : Unicode} {Db : DebugText}.
Context {conn : Type} {O : SqlOps conn} {Mp : Msgpack} {Fm : FtsMatch conn} {Fs : FtsSearch conn}.
Context {S1 S2 : Type} (X1 : Effects S1) (X2 : Effects S2).
Context (Q1 : conn → Subqueries S1) (Q2 : conn → Subqueries S2) (T : conn → Traversals).
Context (params : option (gmap string value)) (procedures : ProcedureRegistry) (ctx : Limits).
Context (I : conn * S1 → conn * S2 → Prop) (Hdb : ∀ w1 w2, I w1 w2 → w1.1 = w2.1).
Abbreviation sim := (msim I eq).
Abbreviation ev1 := (eval X1 Q1 params).
Abbreviation ev2 := (eval X2 Q2 params).
Context (Hev : ∀ e view, sim (ev1 e view) (ev2 e view)).

(** The same row, which fits the schema. *)
Definition fit (s : RecordSchema) (r1 r2 : SlotRecord) : Prop := r1 = r2 ∧ row_of s r1.
Abbreviation fits s := (psim I (fit s)).

Lemma lift_gives {A} (P : A → Prop) (r : Res A) : gives r P → msim I (λ a b, a = b ∧ P a) (lift r) (lift r).
Proof. intros H. apply msim_lift. destruct r; [|done..]. split; [done|]. by apply H. Qed.
Lemma fit_list s l : Forall (row_of s) l → Forall2 (fit s) l l.
Proof. induction 1; by repeat constructor. Qed.
Lemma fit_eq s l1 l2 : Forall2 (fit s) l1 l2 → l1 = l2 ∧ Forall (row_of s) l1.
Proof. induction 1 as [|a b l1 l2 [-> Ha] _ [-> IH]]; split; try done. by constructor. Qed.
Lemma lift_collect {A} s (f : A → Res SlotRecord) l : (∀ x, gives (f x) (row_of s)) →
  msim I (Forall2 (fit s)) (lift (collect f l)) (lift (collect f l)).
Proof.
  intros Hf. eapply msim_mono; [by apply lift_gives, gives_collect|].
  intros a b [<- H]. by apply fit_list.
Qed.
Lemma under_fit {A1 A2} s (P : SlotRecord → SlotRecord → Prop) (f : SlotRecord → A1) (g : SlotRecord → A2)
    (R : A1 → A2 → Prop) :
  (∀ r, row_of s r → R (f r) (g r)) → ∀ r1 r2, fit s r1 r2 → R (f r1) (g r2).
Proof. intros H r1 r2 [<- Hr]. by apply H. Qed.

(** *** Rows *)
Lemma slot_holds_sim e s r : sim (slot_holds X1 Q1 params e s r) (slot_holds X2 Q2 params e s r).
Proof. apply msim_bind_eq; [apply Hev|]. intros v. sim_steps. Qed.
Lemma project_item_sim e s r :
  sim (eval_project_item X1 Q1 params e s r) (eval_project_item X2 Q2 params e s r).
Proof. unfold eval_project_item. cbv zeta. repeat first [apply Hev | sim_step]. Qed.
Lemma slot_item_sim item s r : sim (slot_item X1 Q1 params item s r) (slot_item X2 Q2 params item s r).
Proof. unfold slot_item. repeat first [apply project_item_sim | sim_step]. Qed.
Lemma project_slot_items_sim items s_in s r out : row_of s out →
  msim I (fit s) (project_slot_items X1 Q1 params items s_in s r out)
    (project_slot_items X2 Q2 params items s_in s r out).
Proof.
  revert out. induction items as [|item items IH]; intros out H; cbn [project_slot_items]; [by apply msim_ret|].
  apply (msim_bind _ (fit s)); [|intros o1 o2 [<- Ho]; by apply IH].
  destruct (RecordSchema.slot _ s); [|by apply msim_ret].
  apply msim_bind_eq; [apply slot_item_sim|]. intros v. by apply lift_gives, set_fits.
Qed.
Lemma project_slot_sim items s_in s r :
  msim I (fit s) (project_slot X1 Q1 params items s_in s r) (project_slot X2 Q2 params items s_in s r).
Proof. apply project_slot_items_sim, empty_row_fits. Qed.
Lemma unwind_slot_sim e alias s_in s r :
  msim I (Forall2 (fit s)) (unwind_slot X1 Q1 params e alias s_in s r) (unwind_slot X2 Q2 params e alias s_in s r).
Proof.
  apply msim_bind_eq; [apply Hev|]. intros v. destruct v; try by apply msim_throw.
  - by apply msim_ret.
  - case_match; [by apply msim_ret|]. apply msim_bind_eq; [by sim_step|]. intros view.
    apply lift_collect. intros x. apply unwind_project_fits.
Qed.

(** Sorting keeps the rows. *)
Lemma insert_keeps {A} (P : A → Prop) (cmp : A → A → Res comparison) x l : P x → Forall P l →
  msim I (λ a b, a = b ∧ Forall P a) (insert_by_m (λ a b, lift (cmp a b)) x l)
    (insert_by_m (λ a b, lift (cmp a b)) x l).
Proof.
  intros Hx. induction 1 as [|y l Hy Hl IH]; cbn [insert_by_m].
  { apply msim_ret. split; [done|]. by repeat constructor. }
  apply msim_bind_eq; [by sim_step|]. intros [| |].
  3: eapply msim_bind; [exact IH|]; intros a ? [<- Ha]; apply msim_ret; split; [done|]; by constructor.
  all: apply msim_ret; split; [done|]; by repeat constructor.
Qed.
Lemma sort_keeps {A} (P : A → Prop) (cmp : A → A → Res comparison) l : Forall P l →
  msim I (λ a b, a = b ∧ Forall P a) (sort_by_m (λ a b, lift (cmp a b)) l)
    (sort_by_m (λ a b, lift (cmp a b)) l).
Proof.
  induction 1 as [|x l Hx Hl IH]; cbn [sort_by_m]; [by apply msim_ret|].
  eapply msim_bind; [exact IH|]. intros a ? [<- Ha]. by apply insert_keeps.
Qed.
Lemma sort_slots_sim items s p1 p2 : fits s p1 p2 →
  msim I (Forall2 (fit s)) (sort_slots X1 Q1 params items s p1) (sort_slots X2 Q2 params items s p2).
Proof.
  intros Hp. unfold sort_slots.
  eapply msim_bind; [apply (tagged_drain_sim I (fit s)); [|exact Hp]|].
  { intros r ? [<- _]. apply collect_m_sim. intros x. apply msim_or_null, Hev. }
  intros t1 t2 Ht.
  assert (t1 = t2 ∧ Forall (λ a, row_of s a.2) t1) as [<- Hs].
  { induction Ht as [|[k1 r1] [k2 r2] t1 t2 [Hk [Hr Hf]] _ [-> IH]]; [done|]. simpl in *. subst.
    split; [done|]. by constructor. }
  eapply msim_bind; [apply (sort_keeps (λ a, row_of s a.2)); exact Hs|].
  intros a ? [<- Ha]. apply msim_ret, fit_list. by apply Forall_fmap.
Qed.

(** *** Groups *)
Lemma set_aggregates_slot_sim s aggregates views out : row_of s out →
  msim I (fit s) (set_aggregates_slot ev1 s aggregates views out) (set_aggregates_slot ev2 s aggregates views out).
Proof.
  revert out. induction aggregates as [|a l IH]; intros out H; cbn [set_aggregates_slot]; [by apply msim_ret|].
  apply msim_bind_eq; [by apply compute_aggregate_sim|]. intros v.
  eapply msim_bind; [by apply lift_gives, set_named_fits|]. intros o1 o2 [<- Ho]. by apply IH.
Qed.
Lemma aggregate_slot_sim s_in records s keys aggregates :
  msim I (Forall2 (fit s)) (aggregate_slot_records ev1 s_in records s keys aggregates)
    (aggregate_slot_records ev2 s_in records s keys aggregates).
Proof.
  unfold aggregate_slot_records. cbv zeta. destruct keys as [|k ks].
  - eapply msim_bind; [by apply set_aggregates_slot_sim, empty_row_fits|]. intros o1 o2 Ho.
    apply msim_ret. constructor; [exact Ho|constructor].
  - apply msim_bind_eq; [by apply group_loop_sim|]. intros gs.
    apply (msim_collect_m I eq (fit s)); [by apply list_eq_Forall2|]. intros g ? <-.
    eapply msim_bind; [apply lift_gives, set_keys_slot_fits, empty_row_fits|]. intros o1 o2 [<- Ho].
    by apply set_aggregates_slot_sim.
Qed.

(** *** Iterators *)
(** The rows of both iterators fit the schema inferred for the plan. *)
Definition in_step (refs : PropertyRefs) (plan : LogicalOp)
    (a : RecordSchema * Pull (conn * S1) SlotRecord) (b : RecordSchema * Pull (conn * S2) SlotRecord) : Prop :=
  infer_with_props refs plan = Ok a.1 ∧ a.1 = b.1 ∧ fits a.1 a.2 b.2.
Abbreviation isim refs plan := (msim (E := GraphError) I (in_step refs plan)).

Lemma iter_ret refs plan s p1 p2 : infer_with_props refs plan = Ok s → fits s p1 p2 →
  isim refs plan (mret (s, p1)) (mret (s, p2)).
Proof. intros Hs Hp. by apply msim_ret. Qed.
Lemma infer_then refs plan f1 f2 : (∀ s, infer_with_props refs plan = Ok s → isim refs plan (f1 s) (f2 s)) →
  isim refs plan (infer (S := S1) refs plan ≫= f1) (infer (S := S2) refs plan ≫= f2).
Proof.
  intros Hf. eapply (msim_bind _ (λ a b, a = b ∧ infer_with_props refs plan = Ok a));
    [by apply lift_gives; intros a E|]. intros s ? [<- Hs]. by apply Hf.
Qed.

Lemma filter_slot_fits s p1 p2 e : fits s p1 p2 →
  fits s (FilterSlotIter X1 Q1 params p1 s e) (FilterSlotIter X2 Q2 params p2 s e).
Proof. apply filter_iter_sim. intros r ? [<- _]. apply slot_holds_sim. Qed.
Lemma sort_iter_fits s items p1 p2 : fits s p1 p2 →
  fits s (SortSlotIter X1 Q1 params p1 s items) (SortSlotIter X2 Q2 params p2 s items).
Proof. intros Hp. by apply blocking_sim, sort_slots_sim. Qed.
Lemma skip_slot_fits s n p1 p2 : fits s p1 p2 → fits s (SkipSlotIter p1 n) (SkipSlotIter p2 n).
Proof. apply skip_iter_sim. Qed.
Lemma limit_slot_fits s n p1 p2 : fits s p1 p2 → fits s (LimitSlotIter p1 n) (LimitSlotIter p2 n).
Proof. apply limit_iter_sim. Qed.
Lemma distinct_slot_fits s p1 p2 : fits s p1 p2 → fits s (DistinctSlotIter p1) (DistinctSlotIter p2).
Proof.
  intros Hp. apply blocking_sim. eapply (distinct_drain_sim _ (fit s)); [|constructor|exact Hp].
  by intros a ? b ? [<- _] [<- _].
Qed.
Lemma named_rows_fit s (p1 : Pull (conn * S1) NamedRecord) (p2 : Pull (conn * S2) NamedRecord) :
  psim I eq p1 p2 → fits s (NamedToSlotAdapter p1 s) (NamedToSlotAdapter p2 s).
Proof. apply map_iter_sim. intros r ? <-. apply lift_gives, named_to_slot_fits. Qed.
Lemma materialized_fits s records : fits s (MaterializedSlotIter records s) (MaterializedSlotIter records s).
Proof.
  apply (map_iter_sim I eq).
  - intros r ? <-. apply lift_gives, named_to_slot_fits.
  - apply vec_iter_sim. by apply list_eq_Forall2.
Qed.
Lemma expand_slot_fits s_in s x filters p1 p2 : fits s_in p1 p2 →
  fits s (NamedToSlotAdapter (flat_iter (expand_iter T ctx x filters) (SlotToNamedAdapter s_in p1)) s)
         (NamedToSlotAdapter (flat_iter (expand_iter T ctx x filters) (SlotToNamedAdapter s_in p2)) s).
Proof.
  intros Hp. apply named_rows_fit. apply (flat_iter_sim I eq).
  - intros r ? <-. eapply msim_mono; [by apply in_db_sim|]. intros a ? <-. by apply list_eq_Forall2.
  - apply (map_iter_sim I (fit s_in)); [|exact Hp]. intros r ? [<- _]. apply msim_lift_eq.
Qed.
Lemma unwind_iter_fits s_in s e alias p1 p2 : fits s_in p1 p2 →
  fits s (UnwindSlotIter X1 Q1 params p1 e alias s_in s) (UnwindSlotIter X2 Q2 params p2 e alias s_in s).
Proof. apply flat_iter_sim. intros r ? [<- _]. apply unwind_slot_sim. Qed.
Lemma project_iter_fits s_in s items p1 p2 : fits s_in p1 p2 →
  fits s (ProjectSlotIter X1 Q1 params p1 items s_in s) (ProjectSlotIter X2 Q2 params p2 items s_in s).
Proof. apply map_iter_sim. intros r ? [<- _]. apply project_slot_sim. Qed.
Lemma aggregate_iter_fits s_in s keys aggregates p1 p2 : fits s_in p1 p2 →
  fits s (AggregateSlotIter X1 Q1 params p1 keys aggregates s_in s)
         (AggregateSlotIter X2 Q2 params p2 keys aggregates s_in s).
Proof.
  intros Hp. apply blocking_sim. eapply msim_bind; [by apply (collect_all_sim I (fit s_in))|].
  intros l1 l2 [<- _]%fit_eq. apply aggregate_slot_sim.
Qed.

(** *** Building *)
Abbreviation may_run := (PlanSim.may_run I).
Create HintDb fits discriminated.
#[local] Hint Resolve filter_slot_fits distinct_slot_fits materialized_fits expand_slot_fits
  unwind_iter_fits project_iter_fits aggregate_iter_fits
  sort_iter_fits skip_slot_fits limit_slot_fits : fits.

Lemma vec_fits s l : Forall2 (fit s) l l → fits s (VecSlotIter l) (VecSlotIter l).
Proof. apply vec_iter_sim. Qed.
Lemma empty_fits : fits RecordSchema.new EmptyRowSlotIter EmptyRowSlotIter.
Proof. apply vec_iter_sim. by repeat constructor. Qed.
Lemma lookup_row_sim alias s id : msim I (fit s)
  (reading_r (S := S1) (get_node id) ≫= λ n : Node, lift (node_to_slot_record alias s n))
  (reading_r (S := S2) (get_node id) ≫= λ n : Node, lift (node_to_slot_record alias s n)).
Proof. apply msim_bind_eq; [by apply in_db_sim|]. intros n. apply lift_gives, node_row_fits. Qed.
Lemma bridge_sim refs plan : may_run plan →
  isim refs plan (bridge X1 Q1 T params procedures ctx refs plan) (bridge X2 Q2 T params procedures ctx refs plan).
Proof.
  intros Hm. apply infer_then. intros s Hs. apply msim_bind_eq.
  - by eapply plain_sim, run_in_step.
  - intros l. apply iter_ret; [done|]. apply materialized_fits.
Qed.

Ltac build_step :=
  lazymatch goal with
  | |- msim _ _ (mret _) (mret _) => apply iter_ret; [first [assumption | reflexivity]|]
  | |- msim _ _ (bridge _ _ _ _ _ _ _ _) _ => apply bridge_sim; assumption
  | |- msim _ _ unreachable _ => intros ? ? ?; done
  | |- psim _ _ _ _ => solve [auto with fits nocore]
  | |- msim _ _ (infer _ _ ≫= _) _ => apply infer_then; intros ? ?
  | H : ∀ i, i ∈ _ → msim _ _ _ _ |- msim _ _ (build_slot_iter_inner _ _ _ _ _ _ _ _ ≫= _) _ =>
      eapply msim_bind; [apply H; left|intros [? ?] [? ?] (? & E & ?); cbn [fst snd] in *; subst]
  end.
Lemma build_in_step refs plan : may_run plan →
  isim refs plan (build_slot_iter_inner X1 Q1 T params procedures ctx refs plan)
       (build_slot_iter_inner X2 Q2 T params procedures ctx refs plan).
Proof.
  induction plan as [op IH] using op_ind. intros Hm.
  assert (∀ i, i ∈ inputs op →
    isim refs i (build_slot_iter_inner X1 Q1 T params procedures ctx refs i)
         (build_slot_iter_inner X2 Q2 T params procedures ctx refs i)) as Hin.
  { intros i Hi. apply IH; [done|]. by eapply may_run_inputs. }
  clear IH. pose proof empty_fits.
  destruct op; cbn [build_slot_iter_inner Ir.inputs] in *; cbv zeta.
  all: repeat build_step.
  - apply msim_bind_eq; [by apply in_db_sim|]. intros nodes.
    eapply msim_bind; [apply lift_collect; intros n; apply node_row_fits|].
    intros l ? [<- Hl]%fit_eq. apply iter_ret; [done|]. by apply vec_fits, fit_list.
  - apply msim_bind_eq; [by apply in_db_sim|]. intros ids.
    eapply msim_bind; [apply (msim_collect_m I eq (fit s)); [by apply list_eq_Forall2|]|].
    { intros id ? <-. apply lookup_row_sim. }
    intros l ? [<- Hl]%fit_eq. apply iter_ret; [done|].
    destruct remaining_filters; [apply filter_slot_fits|]; by apply vec_fits, fit_list.
Qed.

Lemma run_plan_rows_sim plan : may_run plan →
  sim (run_plan_rows X1 Q1 T params procedures ctx plan) (run_plan_rows X2 Q2 T params procedures ctx plan).
Proof.
  intros Hm. unfold run_plan_rows. destruct (is_slot_supported plan).
  - eapply msim_bind; [by apply build_in_step|].
    intros [s p1] [? p2] (_ & E & Hp). cbn [fst snd] in *. subst.
    eapply msim_mono; [apply (collect_all_sim I eq)|intros l1 l2; apply list_eq_Forall2].
    eapply map_iter_sim; [|exact Hp]. intros row ? [<- _]. apply msim_lift_eq.
  - by eapply plain_sim, run_in_step.
Qed.
Lemma execute_plan_sim plan : may_run plan →
  sim (execute_plan X1 Q1 T params procedures ctx plan) (execute_plan X2 Q2 T params procedures ctx plan).
Proof.
  intros Hm. apply msim_bind_eq; [apply msim_lift_eq|]. intros _.
  apply msim_bind_eq; [by apply run_plan_rows_sim|]. intros l. by sim_step.
Qed.

(** *** Rows by name *)
Abbreviation nsim := (msim (E := GraphError) I (psim I (@eq NamedRecord))).
Lemma psim_eq_list (l : list NamedRecord) : psim I eq (vec_iter l) (vec_iter l).
Proof. apply vec_iter_sim. by apply list_eq_Forall2. Qed.
Lemma vec_of_sim (m1 : M (conn * S1) GraphError (list NamedRecord)) m2 :
  sim m1 m2 → nsim (m1 ≫= λ l, mret (vec_iter l)) (m2 ≫= λ l, mret (vec_iter l)).
Proof. intros H. apply msim_bind_eq; [exact H|]. intros l. apply msim_ret, psim_eq_list. Qed.
Lemma drained_sim p1 p2 (f1 f2 : list NamedRecord → _) :
  psim I eq p1 p2 → (∀ l, nsim (f1 l) (f2 l)) → nsim (collect_all p1 ≫= f1) (collect_all p2 ≫= f2).
Proof.
  intros Hp Hf. eapply msim_bind; [by apply (collect_all_sim I eq)|].
  intros l1 l2 ->%list_eq_Forall2. apply Hf.
Qed.
Lemma project_iter_row_sim items emit rec :
  sim (project_iter_row X1 Q1 params items emit rec) (project_iter_row X2 Q2 params items emit rec).
Proof.
  apply fold_m_sim. intros projected item. unfold project_iter_item, project_variable, ev_in. cbv zeta.
  repeat first [apply Hev | sim_step].
Qed.
Lemma index_row_iter_sim alias o id :
  sim (index_row_iter X1 Q1 params alias o id) (index_row_iter X2 Q2 params alias o id).
Proof.
  apply msim_bind_eq; [by apply in_db_sim|]. intros n. cbv zeta.
  apply msim_bind_eq; [by apply passes_sim|]. intros b. by sim_step.
Qed.
Lemma build_iter_in_step work plan : may_run plan →
  nsim (build_iter X1 Q1 T params work plan) (build_iter X2 Q2 T params work plan).
Proof.
  induction plan as [op IH] using op_ind. intros Hm.
  assert (∀ i, i ∈ inputs op → nsim (build_iter X1 Q1 T params work i) (build_iter X2 Q2 T params work i)) as Hin.
  { intros i Hi. apply IH; [done|]. by eapply may_run_inputs. }
  clear IH. destruct op; cbn [build_iter Ir.inputs] in *; cbv zeta.
  all: try (apply vec_of_sim; by eapply plain_sim, run_in_step).
  all: try (apply msim_ret, psim_eq_list).
  all: try (apply (msim_bind _ (psim I eq)); [apply Hin; left|intros p1 p2 Hp]).
  - apply msim_bind_eq; [by apply in_db_sim|]. intros nodes. apply msim_ret, psim_eq_list.
  - apply msim_bind_eq; [by apply in_db_sim|]. intros ids. apply vec_of_sim.
    apply concat_m_sim. intros id. apply index_row_iter_sim.
  - apply vec_of_sim, reading_sim; [exact Hdb|]. intros c. by apply fulltext_lookup_sim.
  - apply msim_ret, (flat_iter_sim I eq); [|exact Hp]. intros r ? <-.
    eapply msim_mono; [by apply in_db_sim|]. intros a ? <-. by apply list_eq_Forall2.
  - apply msim_ret, filter_iter_sim; [|exact Hp]. intros r ? <-. by apply holds_in_sim.
  - apply msim_ret, (map_iter_sim I eq); [|exact Hp]. intros r ? <-. apply project_iter_row_sim.
  - apply drained_sim; [exact Hp|]. intros l. by apply vec_of_sim, sort_records_sim.
  - apply drained_sim; [exact Hp|]. intros l. apply msim_ret, psim_eq_list.
  - by apply msim_ret, skip_iter_sim.
  - by apply msim_ret, limit_iter_sim.
Qed.
Lemma execute_sim plan : may_run plan → sim (execute X1 Q1 T params plan) (execute X2 Q2 T params plan).
Proof.
  intros Hm. apply msim_bind_eq; [apply msim_lift_eq|]. intros _. destruct (is_read_only plan).
  - apply (msim_bind _ (psim I eq)); [by apply build_iter_in_step|]. intros p1 p2 Hp.
    eapply msim_mono; [by apply (collect_all_sim I eq)|]. intros l1 l2. apply list_eq_Forall2.
  - apply msim_bind_eq; [by eapply plain_sim, run_in_step|]. intros l. by sim_step.
Qed.

(** *** Statements inside expressions *)
Lemma any_m_sim {A} (f1 : A → M (conn * S1) GraphError bool) (f2 : A → M (conn * S2) GraphError bool) l :
  (∀ x, sim (f1 x) (f2 x)) → sim (any_m f1 l) (any_m f2 l).
Proof.
  intros Hf. induction l as [|x l IH]; cbn [any_m]; [by sim_step|].
  apply msim_bind_eq; [apply Hf|]. intros [|]; [by sim_step|exact IH].
Qed.
Lemma first_match_sim bindings plan : may_run plan →
  sim (first_match_of X1 Q1 T params bindings plan) (first_match_of X2 Q2 T params bindings plan).
Proof.
  intros Hm. assert (∀ i, i ∈ inputs plan →
    sim (exec_default X1 Q1 T params i) (exec_default X2 Q2 T params i)) as Hin.
  { intros i Hi. eapply plain_sim, run_in_step; [done..|]. by eapply may_run_inputs. }
  pose proof (execute_sim plan Hm) as Hx. clear Hm. unfold first_match_of.
  destruct plan; cbn [execute_first_match Ir.inputs] in *.
  all: try (apply msim_bind_eq; [exact Hx|]; intros l; by sim_step).
  - apply msim_bind_eq; [by apply in_db_sim|]. intros l. by sim_step.
  - apply msim_bind_eq; [by apply in_db_sim|]. intros l. apply any_m_sim. intros id.
    apply msim_bind_eq; [by apply in_db_sim|]. intros n. cbv zeta.
    apply msim_bind_eq; [by apply passes_sim|]. intros b. by sim_step.
  - apply msim_bind_eq; [apply Hin; left|]. intros l. apply any_m_sim. intros r. unfold first_expanded.
    destruct (bound_node _ r); [|by sim_step]. apply msim_bind_eq; [by apply in_db_sim|]. intros labels.
    apply msim_bind_eq; [by apply in_db_sim|]. intros ids. apply any_m_sim. intros id.
    apply msim_bind_eq; [by apply in_db_sim|]. intros rec. by sim_step.
  - apply msim_bind_eq; [apply Hin; left|]. intros l. apply any_m_sim. intros r.
    apply msim_bind_eq; [by apply holds_in_sim|]. intros b. by sim_step.
Qed.
End iterators.

(** ** Statements inside expressions, planned and run *)
Section subqueries.
Context {Ch : Chrono} {Co : ChronoOrder} {Lm : Libm} {Un : Unicode} {Db : DebugText}.
Context {conn : Type} {O : SqlOps conn} {Mp : Msgpack} {Fm : FtsMatch conn} {Fs : FtsSearch conn}.
Context {S1 S2 : Type} (X1 : Effects S1) (X2 : Effects S2) (T : conn → Traversals).
Context (params : option (gmap string value)).
Context (plan_patterns : conn → list (Pattern Expr) → Res LogicalOp).
Context (plan_subquery : conn → Statement → Res LogicalOp).
Context (I : S1 → S2 → Prop) (HX : effects_agree I X1 X2).

(** The same database, and states in step. *)
Definition beside (w1 : conn * S1) (w2 : conn * S2) : Prop := w1.1 = w2.1 ∧ I w1.2 w2.2.
Lemma beside_db w1 w2 : beside w1 w2 → w1.1 = w2.1.
Proof. by intros []. Qed.
Lemma beside_may plan : may_run beside plan.
Proof. right. intros w1 w2 c [_ H]. by split. Qed.
Lemma at_conn_sim {A} c (m1 : M (conn * S1) GraphError A) (m2 : M (conn * S2) GraphError A) :
  msim beside eq m1 m2 → msim I eq (at_conn c m1) (at_conn c m2).
Proof.
  intros H s1 s2 Hs. destruct (H (c, s1) (c, s2) (conj eq_refl Hs)) as [[_ H1] H2]. unfold at_conn.
  by destruct (m1 (c, s1)) as [[]], (m2 (c, s2)) as [[]].
Qed.
Lemma eval_beside Q1 Q2 e view : (∀ c, subqueries_agree I (Q1 c) (Q2 c)) →
  msim beside eq (eval X1 Q1 params e view) (eval X2 Q2 params e view).
Proof.
  intros HQ [c s1] [c2 s2] [E Hs]. cbn [fst snd] in *. subst c2. unfold eval. cbn [fst snd].
  pose proof (eval_expr_sim I _ _ _ _ c params HX (HQ c) e view s1 s2 Hs) as [Hs' Hr].
  by destruct (eval_expr X1 _ _ _ _ _ s1), (eval_expr X2 _ _ _ _ _ s2).
Qed.
Lemma subqueries_in_step depth c :
  subqueries_agree I (subqueries X1 T params plan_patterns plan_subquery depth c)
                     (subqueries X2 T params plan_patterns plan_subquery depth c).
Proof.
  revert c. induction depth as [|depth IH]; intros c; [by split; intros; intros s1 s2 Hs|].
  pose proof (λ e view, eval_beside _ _ e view IH) as Hev. cbn [subqueries].
  split; intros; cbn [first_match correlated_exists correlated_rows];
    apply msim_bind_eq; try apply msim_lift_eq; intros op; apply at_conn_sim.
  - apply first_match_sim; [apply beside_db|exact Hev|apply beside_may].
  - apply msim_bind_eq; [|intros l; by sim_step].
    eapply under_sim, run_in_step; [apply beside_db|exact Hev|apply beside_may].
  - eapply under_sim, run_in_step; [apply beside_db|exact Hev|apply beside_may].
Qed.
End subqueries.

(** ** Plans that only read *)
Section reading.
Context {Ch : Chrono} {Co : ChronoOrder} {Lm : Libm} {Un : Unicode} {Db : DebugText}.
Context {conn : Type} {O : SqlOps conn} {Mp : Msgpack} {Fm : FtsMatch conn} {Fs : FtsSearch conn}.
Context {S : Type} (X : Effects S) (Q : conn → Subqueries S) (T : conn → Traversals).
Context (params : option (gmap string value)) (procedures : ProcedureRegistry) (ctx : Limits).

(** Equal states with this database. *)
Definition with_db (c : conn) (w1 w2 : conn * S) : Prop := w1 = w2 ∧ w1.1 = c.
Lemma with_db_eq c w1 w2 : with_db c w1 w2 → w1.1 = w2.1.
Proof. by intros [-> _]. Qed.
Lemma eval_with_db c e view : msim (with_db c) eq (eval X Q params e view) (eval X Q params e view).
Proof.
  intros w ? [<- Hc]. unfold eval. destruct (eval_expr _ _ _ _ _ _ _) as [s r]. split; [by split|].
  apply rsim_refl.
Qed.
Lemma keeps_db {A} (R : A → A → Prop) (m : M (conn * S) GraphError A) (w : conn * S) :
  msim (with_db w.1) R m m → (m w).1.1 = w.1.
Proof. intros H. by destruct (H w w (conj eq_refl eq_refl)) as [[_ E] _]. Qed.

Lemma run_plan_rows_db plan w : is_read_only plan = true →
  (run_plan_rows X Q T params procedures ctx plan w).1.1 = w.1.
Proof.
  intros Hr. eapply keeps_db, run_plan_rows_sim; [apply with_db_eq|apply eval_with_db|by left].
Qed.
End reading.

(** ** The executor behind a handle *)
Section composed.
Context {Ch : Chrono} {Co : ChronoOrder} {Lm : Libm} {Un : Unicode} {Db : DebugText}.
Context {conn : Type} {O : SqlOps conn} {Mp : Msgpack} {Fm : FtsMatch conn} {Fs : FtsSearch conn}.
Context {S : Type} (X : Effects S) (T : conn → Traversals).
Abbreviation Context_ := (ExecContext ProcedureRegistry).
Abbreviation Front := (FrontEnd conn NamedRecord ProcedureRegistry).
(** The subqueries of a query, and the state it starts from: an empty regex cache. *)
Context (Q : Context_ → option (gmap string value) → conn → Subqueries S) (start : S).

Definition limits_of (ctx : Context_) : Limits :=
  mkLimits (Engine.max_result_rows ctx) (Engine.max_traversal_depth ctx) (Engine.max_traversal_work ctx).
Definition run_query (ctx : Context_) (params : option (gmap string value)) (plan : LogicalOp)
    : M conn GraphError (list NamedRecord) := λ c,
  let '((c', _), r) :=
    run_plan_rows X (Q ctx params) T params (Engine.procedures ctx) (limits_of ctx) plan (c, start) in
  (c', r).
(** A parser and a planner with this executor. *)
Definition with_executor (F : Front) : Front :=
  mkFrontEnd (Engine.parse F) (plan_with_procedures F) (format_explain F) run_query.

Lemma run_query_db ctx params plan c : is_read_only plan = true → (run_query ctx params plan c).1 = c.
Proof.
  intros Hr. unfold run_query.
  pose proof (run_plan_rows_db X (Q ctx params) T params (Engine.procedures ctx) (limits_of ctx) plan (c, start) Hr) as H.
  destruct (run_plan_rows _ _ _ _ _ _ _ _) as [[c' s] r]. exact H.
Qed.
Lemma execute_with_ctx_db F ctx params plan c : is_read_only plan = true →
  (execute_with_ctx (with_executor F) ctx params plan c).1 = c.
Proof.
  intros Hr. unfold execute_with_ctx, mbind, M_bind, lift.
  destruct (validate_traversal_depth _ _); [|done..].
  pose proof (run_query_db ctx params plan c Hr) as H. cbn [run_plan with_executor].
  by destruct (run_query ctx params plan c) as [c' [| |]].
Qed.
End composed.

(** ** Properties *)


(** ** The regex cache *)
Section regex.
Context {Regex R : Type} (compile : string → result string Regex)
  (regex_is_match : Regex → string → bool) (random : R → N * R).
Abbreviation cache := (RegexCache (Regex := Regex)).

(** A cache of some capacity that holds only compiled patterns, and the same random numbers. *)
Definition behind_cache (s1 : cache * R) (s2 : R) : Prop :=
  lru_ok compile s1.1 ∧ (0 < regex_capacity s1.1)%nat ∧ s1.2 = s2.
Lemma cached_effects_agree :
  effects_agree behind_cache (cached_effects compile regex_is_match random)
    (direct_effects compile regex_is_match random).
Proof.
  split.
  - intros l r [c1 g1] g2 (Hok & Hcap & <-). cbn [eff_is_match cached_effects direct_effects fst snd].
    assert (lru_ok compile (mkRegexCache [] REGEX_DEFAULT_CAPACITY)) as H0.
    { split; [constructor|simpl; lia|]. intros pat re []%not_elem_of_nil. }
    rewrite (get_or_compile_use compile c1 r Hok Hcap).
    rewrite (get_or_compile_use compile _ r H0) by (simpl; unfold REGEX_DEFAULT_CAPACITY; lia).
    destruct (compile (anchored r)) as [re|err|] eqn:E; simpl; split; try done.
    split_and!; [by apply lru_use_ok|done|done].
  - intros [c1 g1] g2 (Hok & Hcap & <-). simpl. by destruct (random g1).
Qed.
End regex.

(** C23: a plan run with the regex cache of a query, with all its expressions and the
    statements inside them, returns the rows, the error or the panic that it returns when
    every pattern is compiled afresh; it leaves the same database and draws the same random
    numbers, and the cache still holds only compiled patterns. *)
Theorem regex_cache_transparent {Ch : Chrono} {Co : ChronoOrder} {Lm : Libm} {Un : Unicode}
    {Db : DebugText} {conn : Type} {O : SqlOps conn} {Mp : Msgpack} {Fm : FtsMatch conn}
    {Fs : FtsSearch conn} {Regex R : Type} (compile : string → result string Regex)
    (regex_is_match : Regex → string → bool) (random : R → N * R) (T : conn → Traversals)
    (plan_patterns : conn → list (Pattern Expr) → Res LogicalOp)
    (plan_subquery : conn → Statement → Res LogicalOp) (depth : nat)
    (params : option (gmap string value)) (procedures : ProcedureRegistry) (ctx : Limits)
    (plan : LogicalOp) (c : conn) (cache : RegexCache (Regex := Regex)) (g : R) :
  lru_ok compile cache → (0 < regex_capacity cache)%nat →
  let with_cache := cached_effects compile regex_is_match random in
  let afresh := direct_effects compile regex_is_match random in
  let nested {S} (X : Effects S) := subqueries X T params plan_patterns plan_subquery depth in
  let cached := execute_plan with_cache (nested with_cache) T params procedures ctx plan (c, (cache, g)) in
  let direct := execute_plan afresh (nested afresh) T params procedures ctx plan (c, g) in
  cached.2 = direct.2 ∧ cached.1.1 = direct.1.1 ∧ cached.1.2.2 = direct.1.2
  ∧ lru_ok compile cached.1.2.1.
Proof.
  intros Hc Hn with_cache afresh nested cached direct. pose (I := behind_cache (R := R) compile).
  pose proof (cached_effects_agree compile regex_is_match random) as HX.
  assert (∀ c, subqueries_agree I (nested _ with_cache c) (nested _ afresh c)) as HQ.
  { intros c'. by apply subqueries_in_step. }
  pose proof (execute_plan_sim with_cache afresh (nested _ with_cache) (nested _ afresh) T params procedures
    ctx (beside I) (beside_db I) (λ e view, eval_beside _ _ params I HX _ _ e view HQ) plan (beside_may I plan)
    (c, (cache, g)) (c, g)) as H.
  destruct H as [[H1 (H2 & _ & H3)] Hr]; [by split|].
  by apply rsim_eq in Hr.
Qed.

(** ** The schema of the rows *)

(** The schema inferred for a plan is the type of its rows: when a plan that runs
    on slots returns, the inference has succeeded, the names of its slots are distinct,
    and every row has exactly those columns in that order; so no operator writes past
    the slots of its schema. *)
Theorem rows_fit_schema {Ch : Chrono} {Co : ChronoOrder} {Lm : Libm} {Un : Unicode}
    {Db : DebugText} {conn : Type} {O : SqlOps conn} {Mp : Msgpack} {Fm : FtsMatch conn}
    {Fs : FtsSearch conn} {S : Type} (X : Effects S) (Q : conn → Subqueries S) (T : conn → Traversals)
    (params : option (gmap string value)) (procedures : ProcedureRegistry) (ctx : Limits)
    (plan : LogicalOp) (w w' : conn * S) (rows : list NamedRecord) :
  is_slot_supported plan = true →
  run_plan_rows X Q T params procedures ctx plan w = (w', Ok rows) →
  ∃ schema, infer_schema plan = Ok schema ∧ NoDup (RecordSchema.names schema)
    ∧ Forall (λ row, (NamedRecord.fields row).*1 = RecordSchema.names schema) rows.
Proof.
  unfold run_plan_rows. intros -> E. set (refs := collect_property_refs plan ∅).
  pose (TT (s : RecordSchema) (a b : NamedRecord) := (NamedRecord.fields a).*1 = RecordSchema.names s).
  assert (msim eq (λ l1 _, ∃ s, infer_schema plan = Ok s ∧ schema_wf s ∧ Forall (λ a, TT s a a) l1)
    (build_slot_iter X Q T params procedures ctx plan ≫= λ i, collect_to_named i.1 i.2)
    (build_slot_iter X Q T params procedures ctx plan ≫= λ i, collect_to_named i.1 i.2)) as H.
  { eapply msim_bind; [eapply build_in_step; [by intros ? ? ->|intros; apply msim_same|right; by intros ? ? ? ->]|].
    intros [s p1] [s2 p2] (Hs & E2 & Hp). cbn [fst snd] in *. subst s2.
    pose proof (infer_wf _ _ s Hs) as Hwf.
    eapply msim_mono.
    - apply (collect_all_sim eq (TT s)). eapply map_iter_sim; [|exact Hp]. intros row ? [<- Hrow].
      rewrite slot_to_named_ok by done. apply msim_ret. apply fst_zip. unfold row_of in Hrow. lia.
    - intros l1 l2 Hl. exists s. split_and!; [done..|]. clear -Hl. by induction Hl; constructor. }
  destruct (H w w eq_refl) as [_ Hr]. rewrite E in Hr. destruct Hr as (s & Hi & Hwf & Hrows).
  exists s. split_and!; [done|apply Hwf|exact Hrows].
Qed.

(** ** Witnesses *)
Module PlanDemo.
Import ExprDemo.
Export Demo.
(** Full-text search finds nothing, and nothing is traversed. *)
#[export] Instance fts_match : FtsMatch db := {| sql_fts_match := λ _ _ _, Ok [] |}.
#[export] Instance fts_search : FtsSearch db := {| sql_fts_search := λ _ _ _, Ok [] |}.
Definition no_paths : Traversals :=
  mkTraversals (λ _ _ _ _ _ _ _ _, Ok []) (λ _ _ _ _ _, Ok []) (λ _ _ _ _ _, Ok None) (λ _ _ _ _ _, Ok []).

(** MATCH (n:Person) WHERE n.name = 'Ada' OR n.name IS NULL
    RETURN DISTINCT n.name AS x, n.age ORDER BY n.age DESC SKIP 0 LIMIT 5. *)
Definition prop (p : string) : Expr := synthetic (Property "n" p).
Definition text_lit (s : string) : Expr := synthetic (Literal (LiteralValue.String s)).
Definition condition : Expr :=
  synthetic (BinaryOp (synthetic (BinaryOp (prop "name") BinOp.Eq (text_lit "Ada"))) BinOp.Or
    (synthetic (IsNull (prop "name")))).
Definition plan : LogicalOp :=
  Op.Limit (Op.Skip (Op.Distinct
    (Op.Project
      (Op.Sort (Op.Filter (Op.Scan "Person" "n") condition) [mkSortItem (prop "age") true])
      [mkReturnItem (prop "name") (Some "x"); mkReturnItem (prop "age") None] true)) 0) 5.
Definition row (x : value) : NamedRecord := NamedRecord.mk [("x", x); ("n.age", Value.Null)].
Definition answer : list NamedRecord := [row (Value.String "Ada"); row Value.Null].
(** The plan through the iterators. *)
Definition by_slot : (db * unit) * Res (list NamedRecord) :=
  run_plan_rows no_effects (λ _, no_rows) (λ _, no_paths) None ∅ default_limits plan (d, tt).
(** A handle on the database in a read transaction, with this plan for every query. *)
Definition front : FrontEnd db NamedRecord ProcedureRegistry :=
  mkFrontEnd (λ _, Ok HandleDemo.stmt) (λ _ _ _ _, Ok plan) (λ _ _, []) (λ _ _ _, mret []).
Definition executor : FrontEnd db NamedRecord ProcedureRegistry :=
  with_executor no_effects (λ _, no_paths) (λ _ _ _, no_rows) tt front.
Definition reading : Database db := (Db.begin_read HandleDemo.no_faults HandleDemo.handle).1.
End PlanDemo.

Section Witnesses.
Import ExprDemo PlanDemo.

Lemma reading_ok : handle_ok executor reading.
Proof.
  eapply (run_handle_ok HandleDemo.no_faults executor ∅ HBeginRead); [apply surjective_pairing|].
  apply (new_handle_ok executor d default_config).
Qed.

Lemma rows_fit_schema_witness :
  ∃ schema, infer_schema plan = Ok schema ∧ NoDup (RecordSchema.names schema)
    ∧ Forall (λ row, (NamedRecord.fields row).*1 = RecordSchema.names schema) answer.
Proof.
  apply (rows_fit_schema no_effects (λ _, no_rows) (λ _, no_paths) None ∅ default_limits plan (d, tt) by_slot.1).
  - vm_compute. reflexivity.
  - assert (by_slot.2 = Ok answer) as <- by (vm_compute; reflexivity). apply surjective_pairing.
Defined.

(** The condition is a match of a pattern. *)
Definition matching : LogicalOp :=
  Op.Filter (Op.Scan "Person" "n") (synthetic (BinaryOp (prop "name") BinOp.RegexMatch (text_lit "A.*"))).
Lemma regex_cache_transparent_witness :
  let compile (pat : string) : result string string := Ok pat in
  let random (g : N) := (g, (g + 1)%N) in
  let with_cache := cached_effects compile String.eqb random in
  let afresh := direct_effects compile String.eqb random in
  let nested {S} (X : Effects S) :=
    subqueries X (λ _, no_paths) None (λ _ _, Ok Op.SingleRow) (λ _ _, Ok Op.SingleRow) 2 in
  let cached := execute_plan with_cache (nested with_cache) (λ _, no_paths) None ∅ default_limits matching
                  (d, (mkRegexCache [] 32, 0%N)) in
  let direct := execute_plan afresh (nested afresh) (λ _, no_paths) None ∅ default_limits matching (d, 0%N) in
  cached.2 = direct.2 ∧ cached.1.1 = direct.1.1 ∧ cached.1.2.2 = direct.1.2
  ∧ lru_ok compile cached.1.2.1.
Proof.
  apply regex_cache_transparent; [split; [constructor|simpl; lia|]|simpl; lia].
  intros pat re []%not_elem_of_nil.
Defined.
End Witnesses.
