(* ===== verification/SlotPlans.v ===== *)
(** * The rows of slots and the rows of names

    A plan that looks up nodes by their label, filters, sorts and projects their
    properties gives the same rows through the iterators of slots as through the
    operators on named rows. *)
From S2P Require Import Handles Expressions.
From S2P Require Export Plans.
#[local] Open Scope Z_scope.

(** ** Plans over one variable *)

(** A property that is not a name of the executor, nor the pseudo-property. *)
Definition good_property (p : string) : bool := negb (String.eqb p "labels") && negb (str_starts "__" p).
Definition property_of (a : string) (e : Expr) : bool :=
  match expr_kind e with Property var p => String.eqb var a && good_property p | _ => false end.
(** Conditions on the properties of the variable. *)
Fixpoint node_expr (a : string) (e : Expr) : bool :=
  match expr_kind e with
  | Literal _ | Parameter_ _ => true
  | Property var p => String.eqb var a && good_property p
  | BinaryOp l op r =>
      match op with BinOp.RegexMatch => false | _ => true end && node_expr a l && node_expr a r
  | Not x | IsNull x | IsNotNull x => node_expr a x
  | _ => false
  end.
Fixpoint node_plan (a : string) (plan : LogicalOp) : bool :=
  match plan with
  | Op.Scan _ alias => String.eqb alias a
  | Op.Filter input predicate => node_plan a input && node_expr a predicate
  | Op.Sort input items => node_plan a input && forallb (λ i, property_of a (si_expr i)) items
  | Op.Skip input _ | Op.Limit input _ => node_plan a input
  | _ => false
  end.
Fixpoint return_plan (a : string) (plan : LogicalOp) : bool :=
  match plan with
  | Op.Project input items _ => node_plan a input && forallb (λ i, property_of a (ri_expr i)) items
  | Op.Distinct input | Op.Skip input _ | Op.Limit input _ => return_plan a input
  | _ => false
  end.

(** ** Rows of a node *)

(** A node with no property whose name is one of the executor's. *)
Definition plain_node (n : Node) : Prop :=
  ∀ p, is_Some (node_properties n !! p) → str_starts "__" p = false.

(** What expressions over the variable need of a row of the node: a property is
    in its field, or there is no field and it is read from the database. *)
Record shows (a : string) (n : Node) (r : NamedRecord) : Prop := {
  sh_bound : NamedRecord.get a r = Some (id_value (node_id n));
  sh_id : NamedRecord.get (dot a "__id") r = Some (id_value (node_id n));
  sh_live : is_deleted_field (NamedRecord.get (dot a "__deleted") r) = false;
  sh_prop p : good_property p = true →
    NamedRecord.get (dot a p) r = None
    ∨ NamedRecord.get (dot a p) r = Some (map_get (node_properties n) p) }.

Section nodes.
Context {Ch : Chrono} {Co : ChronoOrder} {Lm : Libm} {Un : Unicode}.
Context {conn : Type} {O : SqlOps conn} {Mp : Msgpack} {S : Type} (X : Effects S) (Q : Subqueries S).
Context (c : conn) (params : option (gmap string value)).

(** A node as it is stored. *)
Record known (n : Node) : Prop := {
  kn_stored : get_node (node_id n) c = Ok n;
  kn_id : in_u64 (node_id n);
  kn_plain : plain_node n }.

Lemma property_shown a n r p (s : S) : known n → shows a n r → good_property p = true →
  eval_property c (named_view r) a p s = (s, Ok (map_get (node_properties n) p)).
Proof.
  intros [Hg Hu _] [Hb Hi Hl Hp] Hgood. unfold eval_property, field, mbind, M_bind, lift.
  cbn [view_get named_view]. rewrite Hl, Hb.
  destruct (Hp p Hgood) as [-> | ->]; [|done]. cbn. rewrite Hi.
  unfold node_of_field. cbn [int_field id_value]. unfold get_node_ok. rewrite u64_of_i64_of_u64 by done.
  rewrite Hg. cbn. unfold node_property. case_decide as E; [|done]. by subst p.
Qed.

(** A computation that only reads the row: its result is [res] in every state. *)
Abbreviation gives_always m res := (∀ s : S, m s = (s, res)).
Lemma always_bind {A B} (m : M S GraphError A) (f : A → M S GraphError B) r (g : A → Res B) :
  gives_always m r → (∀ a, r = Ok a → gives_always (f a) (g a)) → gives_always (m ≫= f) (r ≫= g).
Proof. intros Hm Hf s. unfold mbind at 1, M_bind. rewrite Hm. destruct r as [a|e|]; [by apply Hf|done..]. Qed.
Definition binop_res (l : value) (op : BinOp) (r : value) (s0 : S) : Res value := (eval_binop X l op r s0).2.
Lemma binop_always l op r s0 : (match op with BinOp.RegexMatch => false | _ => true end) = true →
  gives_always (eval_binop X l op r) (binop_res l op r s0).
Proof. intros H s. destruct op; done. Qed.

(** A condition has one value in all rows of the node, and it changes nothing. *)
Lemma condition_always a n e (s0 : S) : known n → node_expr a e = true →
  ∃ res, ∀ r, shows a n r → gives_always (eval_expr X Q c params e (named_view r)) res.
Proof.
  intros Hk. revert e. fix IH 1. intros [kind sp].
  destruct kind as [lit|v p|v|v|l op r|x|x|x| | | | | | | | | | | | | | |];
    cbn [node_expr expr_kind eval_expr]; intros He; try discriminate He.
  - by exists (Ok (literal_to_value lit)).
  - apply andb_true_iff in He as [Hv%String.eqb_eq Hp]. rewrite Hv. eexists. intros r Hr s. by apply property_shown.
  - by exists (eval_parameter params v).
  - apply andb_true_iff in He as [[Hop Hl]%andb_true_iff Hr].
    destruct (IH l Hl) as [rl El], (IH r Hr) as [rr Er].
    exists (rl ≫= λ a, rr ≫= λ b, binop_res a op b s0). intros row Hrow.
    apply always_bind; [by apply El|]. intros va _. apply always_bind; [by apply Er|]. intros vb _.
    by apply binop_always.
  - destruct (IH x He) as [rx Ex]. exists (rx ≫= λ v : value, to_tribool v ≫= λ o, Ok (tri_value (negb <$> o))).
    intros row Hrow. apply always_bind; [by apply Ex|]. intros v _. by apply always_bind.
  - destruct (IH x He) as [rx Ex]. eexists (rx ≫= λ v : value, Ok _).
    intros row Hrow. apply always_bind; [by apply Ex|]. done.
  - destruct (IH x He) as [rx Ex]. eexists (rx ≫= λ v : value, Ok _).
    intros row Hrow. apply always_bind; [by apply Ex|]. done.
Qed.
End nodes.

(** ** Names *)
Lemma append_inj (a p q : string) : a +:+ p = a +:+ q → p = q.
Proof. induction a as [|ch a IH]; [done|]. intros E. apply IH. by injection E. Qed.
Lemma dot_inj a p q : dot a p = dot a q → p = q.
Proof. unfold dot. intros E. apply append_inj in E. by apply append_inj in E. Qed.
Lemma append_longer (a p : string) : String.length (a +:+ p) = (String.length a + String.length p)%nat.
Proof. induction a as [|ch a IH]; [done|]. change (S (String.length (a +:+ p)) = S (String.length a + String.length p)). by rewrite IH. Qed.
Lemma dot_ne a p : dot a p ≠ a.
Proof.
  intros E. apply (f_equal String.length) in E. unfold dot in E. rewrite !append_longer in E.
  cbn in E. lia.
Qed.

Lemma get_set_all_ne l k r : k ∉ l.*1 → NamedRecord.get k (set_all l r) = NamedRecord.get k r.
Proof.
  revert r. induction l as [|[k' v] l IH]; intros r Hk; [done|].
  apply not_elem_of_cons in Hk as [Hne Hk]. change (set_all ((k', v) :: l) r) with (set_all l (NamedRecord.set k' v r)).
  rewrite IH by done. by apply RecordFacts.get_set_ne.
Qed.
Lemma get_set_all l k v r : NoDup l.*1 → (k, v) ∈ l → NamedRecord.get k (set_all l r) = Some v.
Proof.
  revert r. induction l as [|[k' v'] l IH]; intros r Hd Hin; [by apply elem_of_nil in Hin|].
  apply NoDup_cons in Hd as [Hk Hd]. change (set_all ((k', v') :: l) r) with (set_all l (NamedRecord.set k' v' r)).
  apply elem_of_cons in Hin as [[= -> ->]|Hin]; [|by apply IH].
  rewrite get_set_all_ne by done. apply RecordFacts.get_set.
Qed.

(** The properties of a node as fields. *)
Definition prop_fields (a : string) (n : Node) : list (string * value) :=
  (λ p : string * value, (dot a p.1, p.2)) <$> map_to_list (node_properties n).
Lemma prop_fields_keys a n k : k ∈ (prop_fields a n).*1 ↔ ∃ p, k = dot a p ∧ is_Some (node_properties n !! p).
Proof.
  unfold prop_fields. rewrite <- list_fmap_compose, list_elem_of_fmap. split.
  - intros ([p v] & -> & Hin). exists p. split; [done|]. apply elem_of_map_to_list in Hin. by exists v.
  - intros (p & -> & v & Hv). exists (p, v). split; [done|]. by apply elem_of_map_to_list.
Qed.
Lemma prop_fields_nodup a n : NoDup (prop_fields a n).*1.
Proof.
  unfold prop_fields. rewrite <- list_fmap_compose.
  assert ((fst ∘ λ p : string * value, (dot a p.1, p.2)) = dot a ∘ fst) as -> by done.
  rewrite list_fmap_compose. apply NoDup_fmap_2; [intros p q; apply dot_inj|apply NoDup_fst_map_to_list].
Qed.
Lemma plain_ne n p q : plain_node n → str_starts "__" q = true → is_Some (node_properties n !! p) → p ≠ q.
Proof. intros Hn Hq Hp ->. apply Hn in Hp. congruence. Qed.
Lemma meta_not_prop a n q : plain_node n → str_starts "__" q = true → dot a q ∉ (prop_fields a n).*1.
Proof. intros Hn Hq (p & E%dot_inj & Hp)%prop_fields_keys. by eapply plain_ne. Qed.
Lemma good_ne p q : good_property p = true → str_starts "__" q = true → q ≠ p.
Proof. unfold good_property. intros Hp Hq ->. rewrite Hq in Hp. by rewrite andb_false_r in Hp. Qed.

(** ** The two rows of a node *)
Lemma shows_named a n : plain_node n → shows a n (node_to_record n a).
Proof.
  intros Hn. unfold node_to_record, populate_node_bindings. fold (prop_fields a n).
  assert (∀ p q, p ≠ q → dot a p ≠ dot a q) as Hd by (intros p q H E; by apply dot_inj in E).
  assert (∀ p, str_starts "__" p = true → p ≠ "__label" → p ≠ "__labels" → p ≠ "__id" →
    NamedRecord.get (dot a p) (NamedRecord.set (dot a "__id") (id_value (node_id n))
      (NamedRecord.set (dot a "__labels") (label_values (node_labels n))
      (NamedRecord.set (dot a "__label") (Value.String (join ":" (node_labels n)))
      (set_all (prop_fields a n) (NamedRecord.set a (id_value (node_id n)) NamedRecord.new))))) = None) as Hnone.
  { intros p Hp H1 H2 H3. rewrite !RecordFacts.get_set_ne by (apply Hd; congruence).
    rewrite get_set_all_ne by (by apply meta_not_prop). rewrite RecordFacts.get_set_ne; [done|].
    intros E. by apply (dot_ne a p). }
  split.
  - rewrite !RecordFacts.get_set_ne by apply dot_ne. rewrite get_set_all_ne, RecordFacts.get_set; [done|].
    intros (p & E & _)%prop_fields_keys. by apply (dot_ne a p).
  - apply RecordFacts.get_set.
  - by rewrite Hnone.
  - intros p Hp. rewrite !RecordFacts.get_set_ne by (apply Hd; by apply good_ne).
    destruct (node_properties n !! p) as [v|] eqn:E.
    + right. unfold map_get. rewrite E. apply get_set_all; [apply prop_fields_nodup|].
      apply list_elem_of_fmap. exists (p, v). split; [done|]. by apply elem_of_map_to_list.
    + left. rewrite get_set_all_ne, RecordFacts.get_set_ne; [done| |].
      * intros E'. by apply (dot_ne a p).
      * intros (q & <-%dot_inj & [v Hv])%prop_fields_keys. congruence.
Qed.

Section slots.
Context (s : RecordSchema) (Hwf : schema_wf s).

Lemma write_slots_agree l rec out : agrees s rec out →
  ∃ out', write_slots s l out = Ok out' ∧ agrees s (set_all l rec) out'.
Proof.
  revert rec out. induction l as [|[k v] l IH]; intros rec out H; [by exists out|].
  cbn [write_slots]. destruct (agrees_set s rec out k v) as (out1 & -> & H1); [done..|]. by apply IH.
Qed.

(** What a row in slots shows of the named row it agrees with. *)
Lemma named_of_get rec q k : agrees s rec q →
  NamedRecord.get k (named_of s q)
  = (if bool_decide (k ∈ RecordSchema.names s) then Some (default Value.Null (NamedRecord.get k rec)) else None).
Proof.
  intros [Hr Ha]. unfold named_of, NamedRecord.get at 1. cbn [NamedRecord.fields].
  case_bool_decide as Hk; [|by apply lookup_field_zip_none].
  apply list_elem_of_lookup in Hk as [i Hi].
  rewrite (lookup_field_zip k _ _ i) by (done || apply Hwf).
  rewrite <- (Nat2N.id i). apply Ha. apply Hwf. by rewrite Nat2N.id.
Qed.

Lemma slot_row_shows a n :
  a ∈ RecordSchema.names s → dot a "__id" ∈ RecordSchema.names s → plain_node n →
  ∃ q, node_to_slot_record a s n = Ok q ∧ row_of s q ∧ shows a n (named_of s q).
Proof.
  intros Ha Hi Hn. unfold node_to_slot_record. set (l := _ ++ _).
  destruct (write_slots_agree l NamedRecord.new (empty_row s)) as (q & E & Hq); [by apply agrees_empty|].
  exists q. split; [exact E|]. split; [apply Hq|].
  assert (NoDup l.*1) as Hd.
  { unfold l. fold (prop_fields a n). rewrite fmap_app. cbn [fmap list_fmap fst app].
    repeat apply NoDup_cons_2; [..|apply prop_fields_nodup].
    1: rewrite !not_elem_of_cons; split_and!; try (intros E'; by eapply dot_ne);
       intros (p & E' & _)%prop_fields_keys; by apply (dot_ne a p).
    all: rewrite ?not_elem_of_cons; split_and?; try (by apply meta_not_prop);
       intros E'; by apply dot_inj in E'. }
  assert (∀ k v, (k, v) ∈ l → k ∈ RecordSchema.names s → NamedRecord.get k (named_of s q) = Some v) as Hin.
  { intros k v Hkv Hks. rewrite (named_of_get _ _ _ Hq), bool_decide_true by done. f_equal.
    by rewrite (get_set_all l k v). }
  split.
  - apply Hin; [left|done].
  - apply Hin; [right; left|done].
  - rewrite (named_of_get _ _ _ Hq). case_bool_decide; [|done].
    rewrite get_set_all_ne; [done|]. unfold l. fold (prop_fields a n). rewrite fmap_app. cbn [fmap list_fmap fst app].
    rewrite !not_elem_of_cons. split_and!; try (by apply meta_not_prop); intros E'; [by eapply dot_ne|by apply dot_inj in E'..].
  - intros p Hp. rewrite (named_of_get _ _ _ Hq). case_bool_decide as Hk; [right|by left]. f_equal.
    unfold map_get. destruct (node_properties n !! p) as [v|] eqn:Ev.
    + rewrite (get_set_all l (dot a p) v); [done..|]. unfold l. apply elem_of_app. right.
      apply list_elem_of_fmap. exists (p, v). split; [done|]. by apply elem_of_map_to_list.
    + rewrite get_set_all_ne; [done|]. unfold l. fold (prop_fields a n). rewrite fmap_app. cbn [fmap list_fmap fst app].
      rewrite !not_elem_of_cons. split_and!.
      1: intros E'; by eapply dot_ne.
      4: intros (r & <-%dot_inj & [v Hv])%prop_fields_keys; congruence.
      all: by intros ->%dot_inj.
Qed.
End slots.

(** ** Loops *)
Section loops.
Context {W : Type} (w : W).

Definition value_at {A} (d : A) (m : M W GraphError A) : A :=
  match (m w).2 with Ok a => a | _ => d end.
(** A filter that succeeded has had an answer for each row. *)
Lemma filter_m_inv {A} (f : A → M W GraphError bool) l w' l' :
  (∀ x, x ∈ l → ∃ r, f x w = (w, r)) → filter_m f l w = (w', Ok l') →
  w' = w ∧ (∀ x, x ∈ l → computes w (f x) (value_at false (f x)))
  ∧ l' = List.filter (λ x, value_at false (f x)) l.
Proof.
  unfold filter_m. revert w' l'. induction l as [|x l IH]; intros w' l' Hf E; cbn [concat_m] in E.
  { injection E as <- <-. split_and!; [done| |done]. by intros x ?%elem_of_nil. }
  destruct (Hf x) as [r Er]; [left|].
  unfold mbind at 1, M_bind at 1 in E. unfold mbind at 1, M_bind at 1 in E. rewrite Er in E.
  destruct r as [b|e|]; [|done..]. unfold mret at 1, M_ret at 1 in E.
  unfold mbind at 1, M_bind at 1 in E.
  destruct (concat_m _ l w) as [w1 [rest|e|]] eqn:El; [|done..]. injection E as <- <-.
  destruct (IH w1 rest) as (-> & Hc & ->); [intros y Hy; apply Hf; by right|done|].
  assert (value_at false (f x) = b) as Hb by (unfold value_at; by rewrite Er).
  split_and!; [done| |].
  - intros y [->|Hy]%elem_of_cons; [|by apply Hc]. unfold computes. by rewrite Er, Hb.
  - cbn [List.filter]. rewrite Hb. by destruct b.
Qed.
Lemma Forall2_filter_rel {A B} (P : A → B → Prop) (f : A → bool) (g : B → bool) l k :
  Forall2 P l k → (∀ x y, P x y → f x = g y) → Forall2 P (List.filter f l) (List.filter g k).
Proof.
  intros H Hfg. induction H as [|x y l k Hxy _ IH]; [constructor|]. cbn [List.filter].
  rewrite (Hfg x y Hxy). destruct (g y); [by constructor|done].
Qed.

(** Sorting related rows by orders that agree. *)
Definition at_state (w1 w2 : W) : Prop := w1 = w ∧ w2 = w.
Lemma sort_by_m_rel {A B} (P : A → B → Prop) (f : A → A → M W GraphError comparison)
    (g : B → B → M W GraphError comparison) l k :
  Forall2 P l k → (∀ x1 x2 y1 y2, P x1 y1 → P x2 y2 → msim at_state eq (f x1 x2) (g y1 y2)) →
  msim at_state (Forall2 P) (sort_by_m f l) (sort_by_m g k).
Proof.
  intros H Hfg.
  assert (∀ x y l k, P x y → Forall2 P l k →
    msim at_state (Forall2 P) (insert_by_m f x l) (insert_by_m g y k)) as Hins.
  { clear l k H. intros x y l k Hxy. induction 1 as [|x' y' l k Hxy' Hlk IH]; cbn [insert_by_m].
    - apply msim_ret. by repeat constructor.
    - apply msim_bind_eq; [by apply Hfg|]. intros [| |].
      3: eapply msim_bind; [exact IH|]; intros l' k' Hl'; apply msim_ret; by constructor.
      all: apply msim_ret; by repeat constructor. }
  induction H as [|x y l k Hxy _ IH]; cbn [sort_by_m]; [by apply msim_ret|].
  eapply msim_bind; [exact IH|]. intros l' k' Hl'. by apply Hins.
Qed.
Lemma at_state_run {A B} (R : A → B → Prop) (m1 : M W GraphError A) (m2 : M W GraphError B) w' a :
  msim at_state R m1 m2 → m1 w = (w', Ok a) → w' = w ∧ ∃ b, computes w m2 b ∧ R a b.
Proof.
  intros H E. destruct (H w w (conj eq_refl eq_refl)) as [[H1 H2] Hr]. rewrite E in H1, Hr. cbn in H1, Hr.
  split; [done|]. unfold computes. destruct (m2 w) as [w2 [b|e|]]; [|done..]. cbn in H2. subst. eauto.
Qed.
End loops.

Lemma schema_add_in k s i s' : schema_wf s → RecordSchema.add k s = Ok (i, s') →
  RecordSchema.names s ⊆ RecordSchema.names s' ∧ k ∈ RecordSchema.names s'.
Proof.
  intros Hwf. unfold RecordSchema.add. destruct (RecordSchema.by_name s !! k) as [j|] eqn:E.
  - intros [= _ <-]. split; [done|]. apply (wf_slot s Hwf) in E. by eapply list_elem_of_lookup_2.
  - destruct (SlotId.from_usize _); [|done..]. intros [= _ <-]. cbn [RecordSchema.names].
    split; [intros x Hx; by apply elem_of_app; left|]. apply elem_of_app. right. left.
Qed.
Lemma add_names_in names s s' : schema_wf s → add_names names s = Ok s' →
  schema_wf s' ∧ RecordSchema.names s ⊆ RecordSchema.names s' ∧ names ⊆ RecordSchema.names s'.
Proof.
  revert s. induction names as [|k names IH]; intros s Hwf; cbn [add_names].
  { intros [= <-]. split_and!; [done..|]. intros x Hx. by apply elem_of_nil in Hx. }
  destruct (RecordSchema.add k s) as [[i s1]|e|] eqn:E; [|done..]. cbn. intros E'.
  destruct (schema_add_in _ _ _ _ Hwf E) as [H1 H2]. pose proof (schema_add_wf _ _ _ _ Hwf E) as Hwf1.
  destruct (IH s1 Hwf1 E') as (Hwf' & H3 & H4). split_and!; [done|by etrans|].
  intros x [->|Hx]%elem_of_cons; [by apply H3|by apply H4].
Qed.
Lemma node_slots_in a refs s : node_slots a refs RecordSchema.new = Ok s →
  schema_wf s ∧ a ∈ RecordSchema.names s ∧ dot a "__id" ∈ RecordSchema.names s.
Proof.
  unfold node_slots. destruct (add_node_metadata a RecordSchema.new) as [s1|e|] eqn:E; [|done..]. cbn. intros E'.
  apply (add_names_in _ _ _ schema_new_wf) in E as (Hwf & _ & H1).
  apply (add_names_in _ _ _ Hwf) in E' as (Hwf' & H2 & _).
  split_and!; [done|apply H2, H1; left|apply H2, H1; right; left].
Qed.

(** ** Rows that are the same

    A named row that agrees with a row in slots and has the same names is its named row. *)
Definition snoc_new (l : list string) (k : string) : list string :=
  if bool_decide (k ∈ l) then l else l ++ [k].
Lemma set_keys_new k v r : (NamedRecord.fields (NamedRecord.set k v r)).*1 = snoc_new (NamedRecord.fields r).*1 k.
Proof.
  unfold NamedRecord.set. cbn [NamedRecord.fields]. unfold snoc_new.
  induction (NamedRecord.fields r) as [|[k' v'] l IH]; [done|].
  cbn [NamedRecord.insert_field fmap list_fmap fst]. destruct (decide (k' = k)) as [->|Hne].
  - rewrite bool_decide_true by left. done.
  - cbn [fmap list_fmap fst]. rewrite IH. repeat case_bool_decide; try done.
    + destruct H0. by right.
    + apply elem_of_cons in H0 as [->|]; done.
Qed.
Lemma schema_add_new k s i s' : schema_wf s → RecordSchema.add k s = Ok (i, s') →
  RecordSchema.names s' = snoc_new (RecordSchema.names s) k.
Proof.
  intros Hwf. pose proof (schema_known s k Hwf) as Hk. unfold RecordSchema.slot in Hk. unfold RecordSchema.add, snoc_new.
  destruct (RecordSchema.by_name s !! k) as [j|].
  - intros [= _ <-]. rewrite bool_decide_true; [done|]. destruct (decide (k ∈ RecordSchema.names s)); [done|].
    by apply Hk in n.
  - destruct (SlotId.from_usize _); [|done..]. intros [= _ <-]. cbn [RecordSchema.names].
    rewrite bool_decide_false; [done|by apply Hk].
Qed.
Lemma add_names_new names s s' : schema_wf s → add_names names s = Ok s' →
  RecordSchema.names s' = foldl snoc_new (RecordSchema.names s) names.
Proof.
  revert s. induction names as [|k names IH]; intros s Hwf; cbn [add_names foldl]; [by intros [= <-]|].
  destruct (RecordSchema.add k s) as [[i s1]|e|] eqn:E; [|done..]. cbn. intros E'.
  rewrite <- (schema_add_new _ _ _ _ Hwf E). apply IH; [|done]. by eapply schema_add_wf.
Qed.
Lemma set_all_keys l r : (NamedRecord.fields (set_all l r)).*1 = foldl snoc_new (NamedRecord.fields r).*1 l.*1.
Proof.
  revert r. induction l as [|[k v] l IH]; intros r; [done|].
  change (set_all ((k, v) :: l) r) with (set_all l (NamedRecord.set k v r)).
  by rewrite IH, set_keys_new.
Qed.
Lemma agrees_exact s rec out : schema_wf s → agrees s rec out →
  (NamedRecord.fields rec).*1 = RecordSchema.names s → rec = named_of s out.
Proof.
  intros Hwf [Hr Ha] Hk. destruct rec as [fields]. unfold named_of. f_equal. cbn [NamedRecord.fields] in Hk.
  apply list_eq_same_length with (length fields); [|done|].
  { rewrite length_zip_with. rewrite <- (length_fmap fst fields), Hk, Hr. lia. }
  intros i [k v] e2 Hi Hf Hz. apply lookup_zip_with_Some in Hz as (x & y & -> & Hx & Hy).
  assert (RecordSchema.names s !! i = Some k) as Hn by (rewrite <- Hk, list_lookup_fmap, Hf; done).
  assert (k = x) as <- by congruence. f_equal.
  assert (NamedRecord.lookup_field k fields = Some v) as Hl.
  { assert (zip (RecordSchema.names s) fields.*2 = fields) as <- by (rewrite <- Hk; apply zip_fst_snd).
    rewrite (lookup_field_zip k _ _ i); [by rewrite list_lookup_fmap, Hf|apply Hwf|done|].
    by rewrite <- Hk, !length_fmap. }
  specialize (Ha k (N.of_nat i)). rewrite Nat2N.id in Ha.
  rewrite Ha in Hy by (apply Hwf; by rewrite Nat2N.id). unfold NamedRecord.get in Hy. cbn in Hy. rewrite Hl in Hy.
  by injection Hy.
Qed.

(** ** Plans *)
Section plans.
Context {Ch : Chrono} {Co : ChronoOrder} {Lm : Libm} {Un : Unicode} {Db : DebugText}.
Context {conn : Type} {O : SqlOps conn} {Mp : Msgpack} {Fm : FtsMatch conn} {Fs : FtsSearch conn}.
Context {S : Type} (X : Effects S) (Q : conn → Subqueries S) (T : conn → Traversals).
Context (params : option (gmap string value)) (procedures : ProcedureRegistry) (ctx : Limits).
Context (a : string) (c : conn) (st : S).
Abbreviation w := (c, st).
Abbreviation ev := (eval X Q params).
Abbreviation known := (known c).

(** The rows of one node by name and by slot. *)
Definition same_node (s : RecordSchema) (r : NamedRecord) (q : SlotRecord) (n : Node) : Prop :=
  row_of s q ∧ known n ∧ shows a n r ∧ shows a n (named_of s q).
Definition same_row (s : RecordSchema) (r : NamedRecord) (q : SlotRecord) : Prop := ∃ n, same_node s r q n.

Lemma eval_at e view s' res : eval_expr X (Q c) c params e view st = (s', res) → ev e view w = ((c, s'), res).
Proof. intros E. unfold eval. cbn [fst snd]. by rewrite E. Qed.
Lemma condition_at e s r q : schema_wf s → same_row s r q → node_expr a e = true →
  ∃ res, ev e (named_view r) w = (w, res) ∧ ev e (slot_view s q) w = (w, res).
Proof.
  intros Hwf (n & Hq & Hk & Hr & Hs) He.
  destruct (condition_always X (Q c) c params a n e st Hk He) as [res H].
  exists res. rewrite slot_view_named by done. split; by apply eval_at, H.
Qed.
Lemma property_at e s r q n : schema_wf s → same_node s r q n → property_of a e = true →
  ∃ p, e = mkExpr (Property a p) (expr_span e) ∧ good_property p = true
    ∧ ev e (named_view r) w = (w, Ok (map_get (node_properties n) p))
    ∧ ev e (slot_view s q) w = (w, Ok (map_get (node_properties n) p)).
Proof.
  intros Hwf (Hq & Hk & Hr & Hs) He. destruct e as [kind sp]. unfold property_of in He. cbn [expr_kind] in He.
  destruct kind; try discriminate He. apply andb_true_iff in He as [->%String.eqb_eq Hp].
  eexists. rewrite slot_view_named by done. split_and!; [reflexivity|done|..];
    apply eval_at; cbn [eval_expr expr_kind]; by apply property_shown.
Qed.

Context (Hmax : Executor.max_result_rows ctx = 0%N).
Context (Hstored : ∀ label nodes, find_nodes_by_label label c = Ok nodes → Forall known nodes).
Abbreviation exec_ := (exec X Q T params procedures ctx).
Abbreviation build refs := (build_slot_iter_inner X Q T params procedures ctx refs).

(** The iterator of a plan gives rows related to [rows]. *)
Definition iterates (R : RecordSchema → NamedRecord → SlotRecord → Prop) (refs : PropertyRefs)
    (plan : LogicalOp) (s : RecordSchema) (rows : list NamedRecord) : Prop :=
  ∃ p qs, build refs plan w = (w, Ok (s, p)) ∧ pulls w p qs ∧ Forall2 (R s) rows qs.

(** A computation that succeeds after one that leaves the state alone. *)
Lemma bind_at {A B} (m : M (conn * S) GraphError A) (f : A → M (conn * S) GraphError B) w' b :
  (m ≫= f) w = (w', Ok b) → ∃ w1 a, m w = (w1, Ok a) ∧ f a w1 = (w', Ok b).
Proof. unfold mbind, M_bind. destruct (m w) as [w1 [x|e|]] eqn:E; [|done..]. eauto. Qed.

Lemma same_scanned s nodes : schema_wf s → a ∈ RecordSchema.names s → dot a "__id" ∈ RecordSchema.names s →
  Forall known nodes →
  ∃ qs, collect (node_to_slot_record a s) nodes = Ok qs
    ∧ Forall2 (same_row s) ((λ n, node_to_record n a) <$> nodes) qs.
Proof.
  intros Hwf Ha Hi. induction 1 as [|n nodes Hn Hk (qs & Eq & Hrel)]; [by exists []|].
  destruct (slot_row_shows s Hwf a n Ha Hi (kn_plain _ _ Hn)) as (q & E & Hq & Hshow).
  exists (q :: qs). cbn [collect]. rewrite E. cbn. rewrite Eq. split; [done|].
  constructor; [|done]. exists n. split_and!; [done..|by apply shows_named, Hn|done].
Qed.
Lemma scan_iterates label refs s rows w' :
  node_slots a refs RecordSchema.new = Ok s →
  exec_ (Op.Scan label a) w = (w', Ok rows) → w' = w ∧ iterates same_row refs (Op.Scan label a) s rows.
Proof.
  intros Hs. pose proof (node_slots_in _ _ _ Hs) as (Hwf & Ha & Hi).
  unfold exec. cbn [run plain]. unfold reading_r, in_db. cbn [fst]. unfold exec_scan. rewrite Hmax.
  destruct (find_nodes_by_label label c) as [nodes|e|] eqn:E; [|done..]. cbn. intros [= <- <-].
  split; [done|]. destruct (same_scanned s nodes Hwf Ha Hi (Hstored label nodes E)) as (qs & Eq & Hrel).
  exists (VecSlotIter qs), qs. split_and!; [|apply pulls_vec|done].
  cbn [build_slot_iter_inner]. unfold infer. cbn [infer_with_props]. rewrite Hs. unfold reading_r, in_db.
  cbn [fst]. unfold mbind, M_bind, lift. cbn [fst]. by rewrite E, Eq.
Qed.

Lemma same_holds s r q e : schema_wf s → same_row s r q → node_expr a e = true →
  (∃ res, holds_in ev e r w = (w, res)) ∧ slot_holds X Q params e s q w = holds_in ev e r w.
Proof.
  intros Hwf H He. destruct (condition_at e s r q Hwf H He) as (res & E1 & E2).
  unfold slot_holds, holds_in, ev_in, holds, mbind, M_bind. rewrite E1, E2. split; [|done].
  destruct res; cbn; eauto.
Qed.
Lemma filter_iterates i e refs s rows rows' w' :
  schema_wf s → node_expr a e = true → iterates same_row refs i s rows →
  exec_filter ev e rows w = (w', Ok rows') → iterates same_row refs (Op.Filter i e) s rows' ∧ w' = w.
Proof.
  intros Hwf He (p & qs & Eb & Hp & Hrel) E.
  destruct (filter_m_inv w (holds_in ev e) rows w' rows') as (-> & Hc & ->); [|exact E|].
  { intros r Hr. apply list_elem_of_lookup in Hr as [k Hk].
    destruct (Forall2_lookup_l _ _ _ _ _ Hrel Hk) as (q & _ & H). by eapply same_holds. }
  split; [|done]. eexists _, _. split_and!.
  - cbn [build_slot_iter_inner]. unfold mbind, M_bind. rewrite Eb. done.
  - apply (pulls_filter w _ (λ q, value_at w false (slot_holds X Q params e s q))); [exact Hp|].
    intros q Hq. apply list_elem_of_lookup in Hq as [k Hk].
    destruct (Forall2_lookup_r _ _ _ _ _ Hrel Hk) as (r & Hr & H).
    pose proof (Hc r (list_elem_of_lookup_2 _ _ _ Hr)) as Hcr.
    destruct (same_holds s r q e Hwf H He) as [_ Es]. unfold computes, value_at in *. cbn [fst]. rewrite Es. exact Hcr.
  - eapply Forall2_filter_rel; [exact Hrel|]. intros r q H.
    destruct (same_holds s r q e Hwf H He) as [_ Es]. unfold value_at. by rewrite Es.
Qed.

(** *** Sorting *)
Definition node_keys (items : list (SortItem Expr)) (n : Node) : list value :=
  (λ i : SortItem Expr, match expr_kind (si_expr i) with
                        | Property _ p => map_get (node_properties n) p
                        | _ => Value.Null
                        end) <$> items.
Definition keyed (items : list (SortItem Expr)) (s : RecordSchema) (r : NamedRecord)
    (kq : list value * SlotRecord) : Prop :=
  ∃ n, same_node s r kq.2 n ∧ kq.1 = node_keys items n.

Lemma key_at e s r q n : schema_wf s → same_node s r q n → property_of a e = true →
  let v := match expr_kind e with Property _ p => map_get (node_properties n) p | _ => Value.Null end in
  or_null (ev e (named_view r)) w = (w, Ok v) ∧ or_null (ev e (slot_view s q)) w = (w, Ok v).
Proof.
  intros Hwf H He. destruct (property_at e s r q n Hwf H He) as (p & -> & _ & E1 & E2).
  cbn [expr_kind]. unfold or_null, ok_m, mbind, M_bind. by rewrite E1, E2.
Qed.
Lemma keys_at items s r q n : schema_wf s → same_node s r q n →
  forallb (λ i, property_of a (si_expr i)) items = true →
  computes w (collect_m (λ si : SortItem Expr, or_null (ev (si_expr si) (slot_view s q))) items) (node_keys items n).
Proof.
  intros Hwf H Hi. apply computes_collect. intros i Hin. rewrite forallb_forall in Hi.
  by apply (key_at _ s r), Hi, list_elem_of_In.
Qed.
Lemma compare_at items s x1 x2 y1 y2 : schema_wf s → forallb (λ i, property_of a (si_expr i)) items = true →
  keyed items s x1 y1 → keyed items s x2 y2 →
  msim (at_state w) eq (compare_rows ev items (named_view x1) (named_view x2)) (lift (compare_keys items y1.1 y2.1)).
Proof.
  intros Hwf Hi (n1 & H1 & ->) (n2 & H2 & ->). induction items as [|i items IH]; [by apply msim_ret|].
  cbn [forallb] in Hi. apply andb_true_iff in Hi as [Hi His].
  destruct (key_at _ s x1 _ n1 Hwf H1 Hi) as [E1 _]. destruct (key_at _ s x2 _ n2 Hwf H2 Hi) as [E2 _].
  assert (compare_rows ev (i :: items) (named_view x1) (named_view x2) w
    = (lift (compare_values_for_sort
         (match expr_kind (si_expr i) with Property _ p => map_get (node_properties n1) p | _ => Value.Null end)
         (match expr_kind (si_expr i) with Property _ p => map_get (node_properties n2) p | _ => Value.Null end))
       ≫= λ o, match (if si_descending i then CompOpp o else o) with
               | Eq => compare_rows ev items (named_view x1) (named_view x2)
               | o => mret o
               end) w) as E.
  { cbn [compare_rows]. by rewrite (next_bind w _ _ _ E1), (next_bind w _ _ _ E2). }
  intros w1 w2 [-> ->]. rewrite E. cbn [node_keys fmap list_fmap compare_keys].
  unfold mbind, M_bind, lift. destruct (compare_values_for_sort _ _) as [o|e|]; [|done..].
  cbn [result_bind]. destruct (if si_descending i then CompOpp o else o); [by apply (IH His)|done..].
Qed.
Lemma sort_iterates i items refs s rows rows' w' :
  schema_wf s → forallb (λ i, property_of a (si_expr i)) items = true → iterates same_row refs i s rows →
  sort_records ev items rows w = (w', Ok rows') → iterates same_row refs (Op.Sort i items) s rows' ∧ w' = w.
Proof.
  intros Hwf Hi (p & qs & Eb & Hp & Hrel) E.
  pose (key q := value_at w [] (collect_m (λ si : SortItem Expr, or_null (ev (si_expr si) (slot_view s q))) items)).
  assert (∀ r q n, same_node s r q n → computes w (collect_m (λ si : SortItem Expr,
    or_null (ev (si_expr si) (slot_view s q))) items) (key q) ∧ key q = node_keys items n) as Hkey.
  { intros r q n H. pose proof (keys_at items s r q n Hwf H Hi) as Hc.
    assert (key q = node_keys items n) as Hk by (unfold key, value_at; by rewrite Hc).
    by rewrite Hk. }
  assert (Forall2 (keyed items s) rows ((λ q, (key q, q)) <$> qs)) as Hkeyed.
  { apply Forall2_fmap_r. eapply Forall2_impl; [exact Hrel|]. intros r q [n H]. exists n.
    split; [done|]. by apply (Hkey r). }
  destruct (at_state_run w _ _ (sort_by_m (λ a b : list value * SlotRecord, lift (compare_keys items a.1 b.1))
    ((λ q, (key q, q)) <$> qs)) w' rows'
    (sort_by_m_rel w (keyed items s) _ _ _ _ Hkeyed (λ x1 x2 y1 y2, compare_at items s x1 x2 y1 y2 Hwf Hi)) E)
    as (-> & sorted & Hs & Hsorted).
  split; [|done]. eexists _, (snd <$> sorted). split_and!.
  - cbn [build_slot_iter_inner]. unfold mbind, M_bind. by rewrite Eb.
  - apply pulls_blocking. unfold sort_slots. eapply computes_bind.
    + apply (computes_tagged w _ key); [exact Hp|]. intros q Hq. apply list_elem_of_lookup in Hq as [k Hk].
      destruct (Forall2_lookup_r _ _ _ _ _ Hrel Hk) as (r & _ & n & H). by apply (Hkey r q n).
    + eapply computes_bind; [exact Hs|]. done.
  - apply Forall2_fmap_r. eapply Forall2_impl; [exact Hsorted|]. intros r [k q] (n & H & _). by exists n.
Qed.

Lemma skip_iterates R i n refs s rows : iterates R refs i s rows →
  iterates R refs (Op.Skip i n) s (skip_records n rows).
Proof.
  intros (p & qs & Eb & Hp & Hrel). eexists _, _. split_and!; [|by apply pulls_skip|by apply Forall2_drop].
  cbn [build_slot_iter_inner]. unfold mbind, M_bind. by rewrite Eb.
Qed.
Lemma limit_iterates R i n refs s rows : iterates R refs i s rows →
  iterates R refs (Op.Limit i n) s (limit_records n rows).
Proof.
  intros (p & qs & Eb & Hp & Hrel). eexists _, _. split_and!; [|by apply pulls_limit|by apply Forall2_take].
  cbn [build_slot_iter_inner]. unfold mbind, M_bind. by rewrite Eb.
Qed.

Lemma node_plan_iterates plan refs s rows w' :
  node_slots a refs RecordSchema.new = Ok s → node_plan a plan = true →
  exec_ plan w = (w', Ok rows) → w' = w ∧ iterates same_row refs plan s rows.
Proof.
  intros Hs. pose proof (node_slots_in _ _ _ Hs) as (Hwf & _ & _). revert rows w'.
  induction plan as [op IH] using op_ind. intros rows w' Hp E.
  assert (∀ i r1 w1, i ∈ inputs op → node_plan a i = true → plain (run X Q T params procedures ctx i) w = (w1, Ok r1) →
    w1 = w ∧ iterates same_row refs i s r1) as Hin by (intros; by eapply IH).
  clear IH. destruct op; try discriminate Hp; cbn [node_plan] in Hp; unfold exec in E;
    cbn [run over over_plain fallback plain] in E; cbn [Ir.inputs] in Hin.
  - apply String.eqb_eq in Hp. subst alias. by eapply scan_iterates.
  - apply andb_true_iff in Hp as [Hp He]. apply bind_at in E as (w1 & r1 & E1 & E).
    apply Hin in E1 as [-> H1]; [|left|done].
    by destruct (filter_iterates _ _ _ _ _ _ _ Hwf He H1 E).
  - apply andb_true_iff in Hp as [Hp Hi]. apply bind_at in E as (w1 & r1 & E1 & E).
    apply Hin in E1 as [-> H1]; [|left|done].
    by destruct (sort_iterates _ _ _ _ _ _ _ Hwf Hi H1 E).
  - apply bind_at in E as (w1 & r1 & E1 & E). apply Hin in E1 as [-> H1]; [|left|done].
    injection E as <- <-. split; [done|by apply skip_iterates].
  - apply bind_at in E as (w1 & r1 & E1 & E). apply Hin in E1 as [-> H1]; [|left|done].
    injection E as <- <-. split; [done|by apply limit_iterates].
Qed.

(** *** Projections *)
Lemma slot_value s q k : schema_wf s → row_of s q →
  match RecordSchema.slot k s with
  | Some i => ∃ v, SlotRecord.get i q = Ok v ∧ NamedRecord.get k (named_of s q) = Some v
  | None => NamedRecord.get k (named_of s q) = None
  end.
Proof.
  intros Hwf Hq. pose proof (slot_view_named s q Hwf Hq) as E.
  apply (f_equal (λ v, view_get v k)) in E. cbn [view_get slot_view named_view] in E.
  destruct (RecordSchema.slot k s) as [i|] eqn:Ei; [|by injection E].
  destruct (row_get s q i k Hq Hwf Ei) as (v & Ev & _). rewrite Ev in E. injection E as E. eauto.
Qed.
Lemma slot_item_at s r q n item : schema_wf s → same_node s r q n → property_of a (ri_expr item) = true →
  ∃ p, ri_expr item = mkExpr (Property a p) (expr_span (ri_expr item)) ∧ good_property p = true
    ∧ slot_item X Q params item s q w = (w, Ok (map_get (node_properties n) p)).
Proof.
  intros Hwf H Hi. destruct (property_at _ s r q n Hwf H Hi) as (p & Ee & Hp & _ & E).
  destruct H as (Hq & Hk & _ & Hs). exists p. split_and!; [done..|].
  assert (property_deleted_var (ri_expr item) s q = Ok false) as Hd.
  { rewrite Ee. unfold property_deleted_var. cbn [expr_kind].
    pose proof (slot_value s q (dot a "__deleted") Hwf Hq) as Hv. pose proof (sh_live _ _ _ Hs) as Hl.
    destruct (RecordSchema.slot _ s) as [i|]; [|done]. destruct Hv as (v & -> & Ev). rewrite Ev in Hl. cbn.
    by destruct v as [| [] | | | | | | | | | | | | | |]. }
  pose proof (slot_value s q (dot a p) Hwf Hq) as Hv.
  unfold slot_item, computed_slot, mbind, M_bind, lift. rewrite Hd. unfold return_item_name.
  rewrite Ee. cbn [expr_to_column_name is_aggregate_call expr_kind].
  change (a +:+ "." +:+ p) with (dot a p). rewrite andb_false_r.
  destruct (RecordSchema.slot (dot a p) s) as [i|] eqn:Ei.
  - destruct Hv as (v & Eg & Ev). rewrite Eg. destruct (sh_prop _ _ _ Hs p Hp) as [H0|H0]; [congruence|].
    rewrite Ev in H0. by injection H0 as ->.
  - unfold eval_project_item. cbn [expr_kind]. rewrite <- Ee, Hd. unfold mbind, M_bind, lift.
    rewrite Ei. exact E.
Qed.
Lemma named_item_at s r q n item emit p projected : schema_wf s → same_node s r q n →
  ri_expr item = mkExpr (Property a p) (expr_span (ri_expr item)) → good_property p = true →
  project_item ev emit item r projected w
  = (w, Ok (NamedRecord.set (return_item_name item) (map_get (node_properties n) p) projected)).
Proof.
  intros Hwf H Ee Hp. pose proof H as (_ & _ & Hr & _).
  assert (property_of a (ri_expr item) = true) as Hi.
  { rewrite Ee. unfold property_of. cbn [expr_kind]. by rewrite String.eqb_refl. }
  destruct (property_at _ s r q n Hwf H Hi) as (p' & Ee' & _ & E & _).
  assert (p' = p) as -> by (rewrite Ee in Ee'; by injection Ee').
  unfold project_item, return_item_name. rewrite Ee. cbn [expr_kind]. rewrite <- Ee.
  unfold project_expr, mbind, M_bind, lift. unfold check_deleted at 1.
  assert (is_deleted_field (NamedRecord.get (dot a "__deleted") r) = false) as Hl by apply Hr.
  rewrite Ee at 1. cbn [expr_kind]. rewrite Hl.
  assert (computed_value (ri_expr item) (default (expr_to_column_name (ri_expr item)) (ri_alias item)) r = None
    ∨ computed_value (ri_expr item) (default (expr_to_column_name (ri_expr item)) (ri_alias item)) r
      = Some (map_get (node_properties n) p)) as [-> | ->]; [|by unfold ev_in; rewrite E|done].
  unfold computed_value. destruct (has_field _ r); [by left|]. rewrite Ee. cbn [expr_to_column_name expr_kind is_aggregate_call].
  change (a +:+ "." +:+ p) with (dot a p).
  destruct (sh_prop _ _ _ Hr p Hp) as [-> | ->]; [left|by right]. by destruct (decide _).
Qed.

(** The same row, exactly. *)
Definition exact_row (s : RecordSchema) (r : NamedRecord) (q : SlotRecord) : Prop :=
  row_of s q ∧ r = named_of s q.

Lemma project_slots_names o items s : forallb (λ i, property_of a (ri_expr i)) items = true →
  project_slots o items s = add_names (return_item_name <$> items) s.
Proof.
  revert s. induction items as [|i items IH]; intros s Hi; [done|].
  cbn [forallb] in Hi. apply andb_true_iff in Hi as [Hi His].
  assert (variable_of (ri_expr i) = None) as Hv.
  { unfold property_of, variable_of in *. by destruct (expr_kind (ri_expr i)). }
  cbn [project_slots fmap list_fmap add_names]. cbv zeta. rewrite Hv.
  destruct (RecordSchema.add _ s) as [[j s1]|e|]; cbn; [|done..]. destruct o; cbn; by apply IH.
Qed.

Lemma project_row_at s s2 r q n items emit projected : schema_wf s → schema_wf s2 → same_node s r q n →
  forallb (λ i, property_of a (ri_expr i)) items = true →
  ∃ l, l.*1 = return_item_name <$> items
    ∧ project_items ev emit items r projected w = (w, Ok (set_all l projected))
    ∧ ∀ rec out, agrees s2 rec out →
        ∃ out', project_slot_items X Q params items s s2 q out w = (w, Ok out') ∧ agrees s2 (set_all l rec) out'.
Proof.
  intros Hwf Hwf2 H. revert projected. induction items as [|i items IH]; intros projected Hi.
  { exists []. split_and!; [done..|]. intros rec out Ho. by exists out. }
  cbn [forallb] in Hi. apply andb_true_iff in Hi as [Hi His].
  destruct (slot_item_at s r q n i Hwf H Hi) as (p & Ee & Hp & Es).
  pose proof (λ pr, named_item_at s r q n i emit p pr Hwf H Ee Hp) as En.
  set (v := map_get (node_properties n) p) in *.
  destruct (IH (NamedRecord.set (return_item_name i) v projected) His) as (l & Hl & El & Ho).
  exists ((return_item_name i, v) :: l). split_and!.
  - cbn [fmap list_fmap fst]. by f_equal.
  - cbn [project_items]. unfold mbind, M_bind. rewrite En. exact El.
  - intros rec out Hag. destruct (agrees_set s2 rec out (return_item_name i) v Hwf2 Hag) as (out1 & E1 & H1).
    destruct (Ho _ _ H1) as (out' & E' & H'). exists out'. split; [|exact H'].
    cbn [project_slot_items]. unfold set_named in E1. unfold mbind, M_bind.
    destruct (RecordSchema.slot (return_item_name i) s2); [|injection E1 as ->; exact E'].
    rewrite Es. unfold lift. rewrite E1. exact E'.
Qed.
Lemma project_rows_at s s2 r q items emit o : schema_wf s → same_row s r q →
  project_slots o items RecordSchema.new = Ok s2 →
  forallb (λ i, property_of a (ri_expr i)) items = true →
  ∃ row out, project_items ev emit items r NamedRecord.new w = (w, Ok row)
    ∧ project_slot X Q params items s s2 q w = (w, Ok out) ∧ exact_row s2 row out.
Proof.
  intros Hwf (n & H) Hs2 Hi. rewrite project_slots_names in Hs2 by done.
  pose proof (proj1 (add_names_in _ _ _ schema_new_wf Hs2)) as Hwf2.
  destruct (project_row_at s s2 r q n items emit NamedRecord.new Hwf Hwf2 H Hi) as (l & Hl & El & Ho).
  destruct (Ho NamedRecord.new (empty_row s2)) as (out & Eo & Hag); [by apply agrees_empty|].
  exists (set_all l NamedRecord.new), out. split_and!; [exact El|exact Eo|]. split; [apply Hag|].
  apply agrees_exact; [done..|]. rewrite set_all_keys, Hl.
  by rewrite (add_names_new _ _ _ schema_new_wf Hs2).
Qed.

Lemma project_iterates i items emit refs s s2 rows rows' w' :
  schema_wf s → infer_with_props refs (Op.Project i items emit) = Ok s2 →
  forallb (λ i, property_of a (ri_expr i)) items = true → iterates same_row refs i s rows →
  exec_project ev items emit rows w = (w', Ok rows') →
  w' = w ∧ iterates exact_row refs (Op.Project i items emit) s2 rows'.
Proof.
  intros Hwf Hs2 Hi (p & qs & Eb & Hp & Hrel) E.
  assert (∃ o, project_slots o items RecordSchema.new = Ok s2) as [o Ho].
  { cbn [infer_with_props] in Hs2. destruct emit; [by eexists|].
    destruct (infer_with_props refs i) as [si|e|]; [by eexists (Some si)|done..]. }
  pose (row r := value_at w NamedRecord.new (project_items ev emit items r NamedRecord.new)).
  pose (out q := value_at w SlotRecord.new (project_slot X Q params items s s2 q)).
  assert (∀ r q, same_row s r q → computes w (project_items ev emit items r NamedRecord.new) (row r)
    ∧ computes w (project_slot X Q params items s s2 q) (out q) ∧ exact_row s2 (row r) (out q)) as Hrow.
  { intros r q H. destruct (project_rows_at s s2 r q items emit o Hwf H Ho Hi) as (x & y & E1 & E2 & Hx).
    assert (row r = x) as -> by (unfold row, value_at; by rewrite E1).
    assert (out q = y) as -> by (unfold out, value_at; by rewrite E2). done. }
  assert (computes w (exec_project ev items emit rows) (row <$> rows)) as Hc.
  { apply computes_collect. intros r Hr. apply list_elem_of_lookup in Hr as [k Hk].
    destruct (Forall2_lookup_l _ _ _ _ _ Hrel Hk) as (q & _ & H). by apply (Hrow r q). }
  unfold computes in Hc. rewrite Hc in E. injection E as <- <-. split; [done|].
  eexists _, (out <$> qs). split_and!.
  - cbn [build_slot_iter_inner]. unfold mbind, M_bind, infer, lift. rewrite Eb, Hs2. done.
  - apply (pulls_map w _ out); [exact Hp|]. intros q Hq. apply list_elem_of_lookup in Hq as [k Hk].
    destruct (Forall2_lookup_r _ _ _ _ _ Hrel Hk) as (r & _ & H). by apply (Hrow r q).
  - apply Forall2_fmap. eapply Forall2_impl; [exact Hrel|]. intros r q H. by apply Hrow.
Qed.

(** *** DISTINCT *)
Lemma distinct_loop_rows seen l :
  seen ++ distinct_loop seen l
  = distinct_rows (λ a b, fields_eqb (NamedRecord.fields a) (NamedRecord.fields b)) seen l.
Proof.
  revert seen. induction l as [|r l IH]; intros seen; cbn [distinct_loop distinct_rows foldl]; [apply app_nil_r|].
  destruct (List.existsb _ seen); [apply IH|]. fold (distinct_rows (λ a b, fields_eqb (NamedRecord.fields a)
    (NamedRecord.fields b)) (seen ++ [r]) l). rewrite <- IH, <- app_assoc. done.
Qed.
Lemma forallb_same {A} (f g : A → bool) l : (∀ x, x ∈ l → f x = g x) → forallb f l = forallb g l.
Proof.
  induction l as [|x l IH]; intros H; [done|]. cbn [forallb]. rewrite (H x) by left. f_equal.
  apply IH. intros y Hy. apply H. by right.
Qed.
Lemma fields_eqb_zip names v1 v2 : NoDup names → length v1 = length names → length v2 = length names →
  fields_eqb (zip names v1) (zip names v2) = Nat.eqb (length v1) (length v2) && forallb2 value_eqb v1 v2.
Proof.
  intros Hd H1 H2. unfold fields_eqb. rewrite !length_zip_with, H1, H2, Nat.min_id. f_equal.
  revert v1 v2 H1 H2. induction Hd as [|k names Hk Hd IH]; intros [|x v1] [|y v2] H1 H2; try discriminate; [done|].
  injection H1 as H1. injection H2 as H2.
  change (zip (k :: names) (x :: v1)) with ((k, x) :: zip names v1).
  change (zip (k :: names) (y :: v2)) with ((k, y) :: zip names v2).
  cbn [forallb NamedRecord.lookup_field fst snd]. rewrite decide_True by done.
  cbn [forallb2]. f_equal.
  rewrite <- (IH v1 v2 H1 H2). apply forallb_same. intros [k' v'] Hin.
  cbn [NamedRecord.lookup_field fst snd]. rewrite decide_False; [done|]. intros ->. apply Hk.
  apply elem_of_lookup_zip_with in Hin as (i & x' & y' & [= -> ->] & Hx & _).
  by eapply list_elem_of_lookup_2.
Qed.
Lemma exact_eqb s r q r' q' : schema_wf s → exact_row s r q → exact_row s r' q' →
  fields_eqb (NamedRecord.fields r) (NamedRecord.fields r') = slot_rows_equal q q'.
Proof. intros Hwf [Hq ->] [Hq' ->]. unfold slot_rows_equal, SlotRecord.len. apply fields_eqb_zip; [apply Hwf|done..]. Qed.
Lemma distinct_exact s seen seen' rows qs : schema_wf s →
  Forall2 (exact_row s) seen seen' → Forall2 (exact_row s) rows qs →
  Forall2 (exact_row s) (distinct_rows (λ a b, fields_eqb (NamedRecord.fields a) (NamedRecord.fields b)) seen rows)
    (distinct_rows slot_rows_equal seen' qs).
Proof.
  intros Hwf Hs Hr. revert seen seen' Hs. induction Hr as [|r q rows qs Hrq _ IH]; intros seen seen' Hs; [done|].
  cbn [distinct_rows foldl]. apply IH.
  assert (List.existsb (λ s, fields_eqb (NamedRecord.fields s) (NamedRecord.fields r)) seen
    = List.existsb (λ s, slot_rows_equal s q) seen') as ->.
  { clear IH. induction Hs as [|x y seen seen' Hxy _ IH]; [done|]. cbn [List.existsb].
    by rewrite IH, (exact_eqb s x y r q). }
  destruct (List.existsb _ seen'); [done|]. apply Forall2_app; [done|by constructor].
Qed.
Lemma distinct_iterates i refs s rows : schema_wf s → iterates exact_row refs i s rows →
  iterates exact_row refs (Op.Distinct i) s (distinct_records rows).
Proof.
  intros Hwf (p & qs & Eb & Hp & Hrel). eexists _, _. split_and!.
  - cbn [build_slot_iter_inner]. unfold mbind, M_bind. by rewrite Eb.
  - apply pulls_blocking, computes_distinct, Hp.
  - unfold distinct_records. rewrite <- (app_nil_l (distinct_loop [] rows)), distinct_loop_rows.
    by apply distinct_exact.
Qed.

Lemma return_plan_iterates plan refs s1 s2 rows w' :
  node_slots a refs RecordSchema.new = Ok s1 → infer_with_props refs plan = Ok s2 → return_plan a plan = true →
  exec_ plan w = (w', Ok rows) → w' = w ∧ iterates exact_row refs plan s2 rows.
Proof.
  intros H1 H2 Hp E. pose proof (infer_wf refs plan s2 H2) as Hwf2.
  pose proof (node_slots_in _ _ _ H1) as (Hwf & _ & _).
  revert rows w' H2 Hp E. induction plan as [op IH] using op_ind. intros rows w' H2 Hp E.
  assert (∀ i r1 w1, i ∈ inputs op → infer_with_props refs i = Ok s2 → return_plan a i = true →
    plain (run X Q T params procedures ctx i) w = (w1, Ok r1) → w1 = w ∧ iterates exact_row refs i s2 r1) as Hin
    by (intros; by eapply IH).
  clear IH. destruct op; try discriminate Hp; cbn [return_plan] in Hp; unfold exec in E;
    cbn [run over over_plain fallback plain] in E; cbn [Ir.inputs] in Hin;
    apply bind_at in E as (w1 & r1 & E1 & E).
  - apply andb_true_iff in Hp as [Hp Hi]. eapply node_plan_iterates in E1 as [-> Hit]; [|exact H1|exact Hp].
    by eapply project_iterates.
  - apply Hin in E1 as [-> Hit]; [|left|done..]. injection E as <- <-. split; [done|by apply distinct_iterates].
  - apply Hin in E1 as [-> Hit]; [|left|done..]. injection E as <- <-. split; [done|by apply skip_iterates].
  - apply Hin in E1 as [-> Hit]; [|left|done..]. injection E as <- <-. split; [done|by apply limit_iterates].
Qed.

(** These plans run on slots. *)
Lemma node_expr_bare e : node_expr a e = true → expr_has_bare_variable e = false.
Proof.
  revert e. fix IH 1. intros [kind sp]. destruct kind as [lit|v p|v|v|l op r|x|x|x| | | | | | | | | | | | | | |];
    cbn [node_expr expr_kind expr_has_bare_variable]; intros He; try discriminate He; try done; try (by apply IH).
  apply andb_true_iff in He as [[_ Hl]%andb_true_iff Hr]. by rewrite (IH l Hl), (IH r Hr).
Qed.
Lemma property_bare e : property_of a e = true → expr_has_bare_variable e = false.
Proof. destruct e as [kind sp]. unfold property_of. cbn [expr_kind]. by destruct kind. Qed.
Lemma node_plan_supported plan : node_plan a plan = true → is_slot_supported plan = true.
Proof.
  induction plan as [op IH] using op_ind. intros Hp.
  destruct op; try discriminate Hp; cbn [node_plan is_slot_supported Ir.inputs] in *; try done.
  - apply andb_true_iff in Hp as [Hp He]. rewrite IH by (done || left). by rewrite node_expr_bare.
  - apply andb_true_iff in Hp as [Hp Hi]. rewrite IH by (done || left). cbn [andb].
    rewrite forallb_forall in Hi |- *. intros x Hx. by rewrite property_bare by (by apply Hi).
  - by apply IH; [left|].
  - by apply IH; [left|].
Qed.
Lemma return_plan_supported plan : return_plan a plan = true → is_slot_supported plan = true.
Proof.
  induction plan as [op IH] using op_ind. intros Hp.
  destruct op; try discriminate Hp; cbn [return_plan is_slot_supported Ir.inputs] in *; try (by apply IH; [left|]).
  apply andb_true_iff in Hp as [Hp Hi]. rewrite node_plan_supported by done. cbn [andb].
  rewrite forallb_forall in Hi |- *. intros x Hx. unfold is_project_item_supported. by rewrite property_bare by (by apply Hi).
Qed.

Lemma slot_rows_collected plan s rows : schema_wf s →
  iterates exact_row (collect_property_refs plan ∅) plan s rows →
  (build_slot_iter X Q T params procedures ctx plan ≫= λ i, collect_to_named i.1 i.2) w = (w, Ok rows).
Proof.
  intros Hwf (p & qs & Eb & Hp & Hrel). unfold build_slot_iter, mbind, M_bind. rewrite Eb. cbn [fst snd].
  assert (rows = named_of s <$> qs) as ->.
  { clear -Hrel. induction Hrel as [|r q rows qs [_ ->] _ IH]; [done|]. cbn. by f_equal. }
  apply pulls_collect, (pulls_map w _ (named_of s)); [exact Hp|].
  intros q Hq. apply list_elem_of_lookup in Hq as [k Hk].
  destruct (Forall2_lookup_r _ _ _ _ _ Hrel Hk) as (r & _ & Hr & _). apply computes_lift. by apply slot_to_named_ok.
Qed.
End plans.

(** ** Nodes of a graph *)
Lemma collect_each {A B} (f : A → Res B) l ys y : collect f l = Ok ys → y ∈ ys → ∃ x, x ∈ l ∧ f x = Ok y.
Proof.
  revert ys. induction l as [|x l IH]; intros ys; cbn [collect]; [by intros [= <-] ?%elem_of_nil|].
  destruct (f x) as [z|e|] eqn:Ef; [|done..]. cbn. destruct (collect f l) as [zs|e|] eqn:El; [|done..].
  intros [= <-] [->|Hy]%elem_of_cons; [exists x; split; [left|done]|].
  destruct (IH zs eq_refl Hy) as (x' & Hx & E). exists x'. split; [by right|done].
Qed.
Lemma scanned_known {Mp : Msgpack} {ML : MsgpackLaws} {conn : Type} {O : SqlOps conn} {view : conn → db}
    {L : SqlLaws conn view} (g : graph) (c : conn) label nodes :
  repr g (view c) →
  (∀ i rec p, g_nodes g !! i = Some rec → is_Some (rec_properties rec !! p) → str_starts "__" p = false) →
  find_nodes_by_label label c = Ok nodes → Forall (known c) nodes.
Proof.
  intros Hr Hplain. rewrite find_nodes_by_label_view. unfold find_nodes_by_label.
  destruct (storage _) as [rows|e|] eqn:Er; [|done..]. cbn [mbind result_bind]. intros E.
  apply Forall_forall. intros n Hn.
  destruct (collect_each _ _ _ _ E Hn) as (kv & Hkv & Ekv).
  assert (∃ k r, kv = key_value (k, r) ∧ trows (view c) TABLE_NODES !! k = Some r) as (k & r & -> & Hk).
  { revert Er Hkv. cbn. unfold db_query_labelled, on_tbl, trows.
    destruct (find_tbl (view c) TABLE_NODES) as [tb|]; [|done]. cbn. intros [= <-].
    intros ([k r] & -> & [_ Hin%elem_of_ordered]%list_elem_of_filter)%list_elem_of_fmap. by exists k, r. }
  destruct (node_row_run Hr k r Hk) as (i & rec & Hi & _ & _ & Erow).
  rewrite Erow in Ekv. injection Ekv as <-. pose proof (node_ids _ _ _ _ Hr Hi) as Hid.
  split; [|exact (proj1 Hid)|intros p Hp; by eapply Hplain].
  change (node_id (node_at i rec)) with i. rewrite get_node_view, (get_node_run Hr), Hi; [done|exact (proj1 Hid)].
Qed.

(** ** Properties *)

(** C4: MATCH (n:Label) with a condition on the properties of n, sorted by properties,
    that returns properties of n, with or without DISTINCT, SKIP and LIMIT: when the
    executor of named rows returns rows, the iterators of slots return the same rows,
    in the same order and under the same columns, although they evaluate row by row,
    keep only the slots of their schema and stop at the limit.  The database holds a
    graph whose properties are not named like the fields of the executor, and the
    schemas have slots for their names. *)
Theorem slots_answer_like_names {Ch : Chrono} {Co : ChronoOrder} {Lm : Libm} {Un : Unicode}
    {Db : DebugText} {Mp : Msgpack} {ML : MsgpackLaws} {conn : Type} {O : SqlOps conn}
    {view : conn → db} {L : SqlLaws conn view} {Fm : FtsMatch conn} {Fs : FtsSearch conn} {S : Type}
    (X : Effects S) (Q : conn → Subqueries S) (T : conn → Traversals)
    (params : option (gmap string value)) (procedures : ProcedureRegistry) (ctx : Limits)
    (g : graph) (c : conn) (s s' : S) (c' : conn) (n : string) (plan : LogicalOp)
    (rows : list NamedRecord) (slots schema : RecordSchema) :
  consistent g (view c) →
  (∀ i rec p, g_nodes g !! i = Some rec → is_Some (rec_properties rec !! p) → str_starts "__" p = false) →
  return_plan n plan = true → Executor.max_result_rows ctx = 0%N →
  node_slots n (collect_property_refs plan ∅) RecordSchema.new = Ok slots → infer_schema plan = Ok schema →
  exec X Q T params procedures ctx plan (c, s) = ((c', s'), Ok rows) →
  is_slot_supported plan = true
  ∧ run_plan_rows X Q T params procedures ctx plan (c, s) = ((c, s), Ok rows).
Proof.
  intros Hg Hplain Hp Hmax H1 H2 E. pose proof (return_plan_supported n plan Hp) as Hs.
  split; [exact Hs|]. unfold run_plan_rows. rewrite Hs.
  assert (∀ label nodes, find_nodes_by_label label c = Ok nodes → Forall (known c) nodes) as Hk.
  { intros label nodes. apply (scanned_known g); [apply Hg|exact Hplain]. }
  destruct (return_plan_iterates X Q T params procedures ctx n c s Hmax Hk plan _ _ _ _ _ H1 H2 Hp E) as [_ Hit].
  apply (slot_rows_collected X Q T params procedures ctx c s plan schema); [|exact Hit].
  exact (infer_wf _ _ _ H2).
Qed.

(** ** Witness *)
Section Witness.
Import ExprDemo PlanDemo.

Lemma demo_plain i rec p : g_nodes g !! i = Some rec → is_Some (rec_properties rec !! p) → str_starts "__" p = false.
Proof.
  assert (map_Forall (λ _ r, map_Forall (λ k _, str_starts "__" k = false) (rec_properties r)) (g_nodes g)) as H
    by by_decide.
  intros Hi [v Hv]. exact (H i rec Hi p v Hv).
Qed.
Definition slots_of (r : Res RecordSchema) : RecordSchema := match r with Ok s => s | _ => RecordSchema.new end.

(** The database has Ada and a nameless person. *)
Lemma slots_answer_like_names_witness :
  is_slot_supported plan = true ∧ by_slot = ((d, tt), Ok answer).
Proof.
  pose (named := exec no_effects (λ _, no_rows) (λ _, no_paths) None ∅ default_limits plan (d, tt)).
  assert (named.2 = Ok answer) as H by (vm_compute; reflexivity).
  set (slots := slots_of (node_slots "n" (collect_property_refs plan ∅) RecordSchema.new)).
  assert (node_slots "n" (collect_property_refs plan ∅) RecordSchema.new = Ok slots) as Hslots
    by (vm_compute; reflexivity).
  assert (infer_schema plan = Ok (slots_of (infer_schema plan))) as Hschema by (vm_compute; reflexivity).
  assert (named = ((named.1.1, named.1.2), Ok answer)) as Hnamed.
  { rewrite <- H. rewrite (surjective_pairing named) at 1. by rewrite (surjective_pairing named.1) at 1. }
  exact (slots_answer_like_names (view := id) no_effects (λ _, no_rows) (λ _, no_paths) None ∅ default_limits
    g d tt named.1.2 named.1.1 "n" plan answer slots (slots_of (infer_schema plan))
    TxDemo.d_consistent demo_plain eq_refl eq_refl Hslots Hschema Hnamed).
Defined.
End Witness.
