(* ===== verification/PlanHelpers.v ===== *)
(** * Helpers of the planner: src/src/cypher/planner/helpers.rs

    Names close to a misspelt one, aggregates inside expressions, the aliases of
    RETURN inside ORDER BY, the parts of a conjunction, and the columns of a
    statement. *)
From S2P Require Export Executor.
#[local] Open Scope Z_scope.

(** ** Equality of syntax: the derived [PartialEq] of ast.rs

    Two expressions are equal when their kinds are; positions in the text do not
    count.  Floats compare by value, and a map by size and entries. *)
Definition opt_eqb {A} (eqb : A → A → bool) (x y : option A) : bool :=
  match x, y with Some a, Some b => eqb a b | None, None => true | _, _ => false end.
Definition list_eqb {A} (eqb : A → A → bool) : list A → list A → bool :=
  fix go x y := match x, y with
                | [], [] => true
                | a :: x', b :: y' => eqb a b && go x' y'
                | _, _ => false
                end.
Definition same `{EqDecision A} (x y : A) : bool := bool_decide (x = y).
Definition literal_eqb (x y : LiteralValue) : bool :=
  match x, y with
  | LiteralValue.Null, LiteralValue.Null => true
  | LiteralValue.Bool a, LiteralValue.Bool b => same a b
  | LiteralValue.I64 a, LiteralValue.I64 b => same a b
  | LiteralValue.F64 a, LiteralValue.F64 b => f64_eqb (f64_of_bits a) (f64_of_bits b)
  | LiteralValue.String a, LiteralValue.String b => String.eqb a b
  | _, _ => false
  end.
#[global] Instance binop_eq : EqDecision BinOp.
Proof. solve_decision. Defined.
#[global] Instance quantifier_eq : EqDecision QuantifierKind.
Proof. solve_decision. Defined.
#[global] Instance direction_eq : EqDecision RelDirection.
Proof. solve_decision. Defined.
#[global] Instance path_mode_eq : EqDecision ShortestPathMode.
Proof. solve_decision. Defined.
#[global] Instance remove_item_eq : EqDecision RemoveItem.
Proof. solve_decision. Defined.

Section pieces.
Context {E : Type} (eqb : E → E → bool).
Abbreviation opt := (opt_eqb eqb).
Abbreviation list := (list_eqb eqb).
Definition props_eqb (x y : gmap string E) : bool :=
  same (size x) (size y)
  && map_fold (λ k v acc, acc && match y !! k with Some w => eqb v w | None => false end) true x.
Definition element_eqb (x y : PatternElement E) : bool :=
  match x, y with
  | PNode a, PNode b =>
      same (np_variable a) (np_variable b) && same (np_labels a) (np_labels b)
      && props_eqb (np_properties a) (np_properties b)
  | PRelationship a, PRelationship b =>
      same (rp_variable a) (rp_variable b) && same (rp_types a) (rp_types b)
      && props_eqb (rp_properties a) (rp_properties b) && same (rp_direction a) (rp_direction b)
      && same (rp_var_length a) (rp_var_length b)
  | _, _ => false
  end.
Definition pattern_eqb (x y : Pattern E) : bool :=
  list_eqb element_eqb (pt_elements x) (pt_elements y)
  && same (pt_path_variable x) (pt_path_variable y)
  && same (pt_shortest_path_mode x) (pt_shortest_path_mode y).
Definition optional_eqb (x y : OptionalMatch E) : bool :=
  list_eqb pattern_eqb (om_patterns x) (om_patterns y) && opt (om_where x) (om_where y).
Definition return_item_eqb (x y : ReturnItem E) : bool :=
  eqb (ri_expr x) (ri_expr y) && same (ri_alias x) (ri_alias y).
Definition return_clause_eqb (x y : ReturnClause E) : bool :=
  list_eqb return_item_eqb (rc_items x) (rc_items y) && same (rc_distinct x) (rc_distinct y).
Definition sort_item_eqb (x y : SortItem E) : bool :=
  eqb (si_expr x) (si_expr y) && same (si_descending x) (si_descending y).
Definition set_item_eqb (x y : SetItem E) : bool :=
  match x, y with
  | SetItem.Property a, SetItem.Property b =>
      same (as_variable a) (as_variable b) && same (as_property a) (as_property b)
      && eqb (as_value a) (as_value b)
  | SetItem.Label v l, SetItem.Label w m => same v w && same l m
  | SetItem.MapOverwrite v a, SetItem.MapOverwrite w b
  | SetItem.MapMerge v a, SetItem.MapMerge w b => same v w && eqb a b
  | _, _ => false
  end.
Definition with_eqb (x y : WithClause E) : bool :=
  list_eqb return_item_eqb (wc_items x) (wc_items y) && same (wc_distinct x) (wc_distinct y)
  && list_eqb sort_item_eqb (wc_order_by x) (wc_order_by y) && opt (wc_skip x) (wc_skip y)
  && opt (wc_limit x) (wc_limit y) && opt (wc_where x) (wc_where y).
Definition unwind_clause_eqb (x y : UnwindClause E) : bool :=
  eqb (uc_expr x) (uc_expr y) && same (uc_alias x) (uc_alias y).
Definition intermediate_eqb (x y : IntermediateClause E) : bool :=
  match x, y with
  | IntermediateClause.With a, IntermediateClause.With b => with_eqb a b
  | IntermediateClause.Unwind a, IntermediateClause.Unwind b => unwind_clause_eqb a b
  | IntermediateClause.Match a, IntermediateClause.Match b =>
      list_eqb pattern_eqb (im_patterns a) (im_patterns b)
      && list_eqb optional_eqb (im_optional a) (im_optional b) && opt (im_where a) (im_where b)
  | _, _ => false
  end.
Definition clause_eqb (x y : Clause E) : bool :=
  match x, y with
  | Clause.Match a b c, Clause.Match d e f =>
      list_eqb pattern_eqb a d && list_eqb optional_eqb b e && opt c f
  | Clause.Create a, Clause.Create b => list_eqb pattern_eqb a b
  | Clause.Merge a b c, Clause.Merge d e f =>
      pattern_eqb a d && list_eqb set_item_eqb b e && list_eqb set_item_eqb c f
  | Clause.With a, Clause.With b => with_eqb a b
  | Clause.Unwind a, Clause.Unwind b => unwind_clause_eqb a b
  | Clause.SetItems a, Clause.SetItems b => list_eqb set_item_eqb a b
  | Clause.Remove a, Clause.Remove b => same a b
  | Clause.Call a b c d e, Clause.Call f g h i j =>
      same a f && list b g && same c h && same d i && same e j
  | Clause.Delete a b, Clause.Delete c d => list a c && same b d
  | _, _ => false
  end.
Definition bounds_eqb (order1 order2 : Datatypes.list (SortItem E)) (skip1 skip2 limit1 limit2 : option E)
    : bool := list_eqb sort_item_eqb order1 order2 && opt skip1 skip2 && opt limit1 limit2.
Definition tail_eqb (x y : Tail E) : bool :=
  opt_eqb return_clause_eqb (tl_return x) (tl_return y)
  && bounds_eqb (tl_order_by x) (tl_order_by y) (tl_skip x) (tl_skip y) (tl_limit x) (tl_limit y).
Definition matched_eqb (p1 p2 : Datatypes.list (Pattern E)) (o1 o2 : Datatypes.list (OptionalMatch E))
    (w1 w2 : option E) : bool :=
  list_eqb pattern_eqb p1 p2 && list_eqb optional_eqb o1 o2 && opt w1 w2.
Definition unwind_body_eqb (x y : UnwindBody E) : bool :=
  match x, y with
  | UnwindBody.Return w i r o s l, UnwindBody.Return w' i' r' o' s' l' =>
      opt w w' && list_eqb intermediate_eqb i i' && return_clause_eqb r r' && bounds_eqb o o' s s' l l'
  | UnwindBody.Create p i t, UnwindBody.Create p' i' t' =>
      list_eqb pattern_eqb p p' && list_eqb intermediate_eqb i i' && tail_eqb t t'
  | _, _ => false
  end.
End pieces.

Fixpoint expr_eqb (x y : Expr) {struct x} : bool :=
  let '(mkExpr k _) := x in
  let list := list_eqb expr_eqb in
  let opt := opt_eqb expr_eqb in
  match k, expr_kind y with
  | Literal a, Literal b => literal_eqb a b
  | Property a b, Property c d => String.eqb a c && String.eqb b d
  | Variable_ a, Variable_ b | Parameter_ a, Parameter_ b => String.eqb a b
  | BinaryOp a op b, BinaryOp c op' d => expr_eqb a c && same op op' && expr_eqb b d
  | Not a, Not b | IsNull a, IsNull b | IsNotNull a, IsNotNull b => expr_eqb a b
  | FunctionCall n a d t, FunctionCall m b d' t' => String.eqb n m && list a b && same d d' && same t t'
  | Case o a d, Case o' a' d' =>
      opt o o'
      && list_eqb (λ p q : Expr * Expr, let (c, r) := p in expr_eqb c q.1 && expr_eqb r q.2) a a'
      && opt d d'
  | ListLit a, ListLit b => list a b
  | ListComprehension v l f m, ListComprehension v' l' f' m' =>
      String.eqb v v' && expr_eqb l l' && opt f f' && opt m m'
  | PatternComprehension v p w m, PatternComprehension v' p' w' m' =>
      same v v' && pattern_eqb expr_eqb p p' && opt w w' && expr_eqb m m'
  | Ast.Exists p w, Ast.Exists p' w' => list_eqb (pattern_eqb expr_eqb) p p' && opt w w'
  | ExistsSubquery s, ExistsSubquery s' => statement_eqb s s'
  | MapLiteral a, MapLiteral b =>
      list_eqb (λ p q : string * Expr, let (n, v) := p in String.eqb n q.1 && expr_eqb v q.2) a b
  | Index a i, Index b j => expr_eqb a b && expr_eqb i j
  | DotAccess a n, DotAccess b m => expr_eqb a b && String.eqb n m
  | Slice a s t, Slice b s' t' => expr_eqb a b && opt s s' && opt t t'
  | Quantifier q v l p, Quantifier q' v' l' p' =>
      same q q' && String.eqb v v' && expr_eqb l l' && expr_eqb p p'
  | HasLabel v l, HasLabel w m => String.eqb v w && same l m
  | PatternPredicate p, PatternPredicate q => pattern_eqb expr_eqb p q
  | Star, Star => true
  | _, _ => false
  end
with statement_eqb (x y : Statement) {struct x} : bool :=
  let patterns := list_eqb (pattern_eqb expr_eqb) in
  let items := list_eqb (set_item_eqb expr_eqb) in
  let opt := opt_eqb expr_eqb in
  let tail := tail_eqb expr_eqb in
  match x, y with
  | SMatch a, SMatch b =>
      matched_eqb expr_eqb (ms_patterns a) (ms_patterns b) (ms_optional a) (ms_optional b)
        (ms_where a) (ms_where b)
      && list_eqb (intermediate_eqb expr_eqb) (ms_intermediate a) (ms_intermediate b)
      && return_clause_eqb expr_eqb (ms_return a) (ms_return b)
      && bounds_eqb expr_eqb (ms_order_by a) (ms_order_by b) (ms_skip a) (ms_skip b)
           (ms_limit a) (ms_limit b)
  | SCreate a, SCreate b => patterns (cs_patterns a) (cs_patterns b) && tail (cs_tail a) (cs_tail b)
  | SMatchCreate a, SMatchCreate b =>
      patterns (mcs_patterns a) (mcs_patterns b) && opt (mcs_where a) (mcs_where b)
      && patterns (mcs_create a) (mcs_create b) && tail (mcs_tail a) (mcs_tail b)
  | SMatchMerge a, SMatchMerge b =>
      patterns (mms_patterns a) (mms_patterns b) && opt (mms_where a) (mms_where b)
      && pattern_eqb expr_eqb (mms_pattern a) (mms_pattern b)
      && items (mms_on_create a) (mms_on_create b) && items (mms_on_match a) (mms_on_match b)
      && tail (mms_tail a) (mms_tail b)
  | SDelete a, SDelete b =>
      matched_eqb expr_eqb (ds_patterns a) (ds_patterns b) (ds_optional a) (ds_optional b)
        (ds_where a) (ds_where b)
      && same (ds_detach a) (ds_detach b) && list_eqb expr_eqb (ds_exprs a) (ds_exprs b)
      && tail (ds_tail a) (ds_tail b)
  | SSet a, SSet b =>
      matched_eqb expr_eqb (ss_patterns a) (ss_patterns b) (ss_optional a) (ss_optional b)
        (ss_where a) (ss_where b)
      && items (ss_items a) (ss_items b)
      && list_eqb (intermediate_eqb expr_eqb) (ss_intermediate a) (ss_intermediate b)
      && tail (ss_tail a) (ss_tail b)
  | SRemove a, SRemove b =>
      matched_eqb expr_eqb (rms_patterns a) (rms_patterns b) (rms_optional a) (rms_optional b)
        (rms_where a) (rms_where b)
      && same (rms_items a) (rms_items b) && tail (rms_tail a) (rms_tail b)
  | SMerge a, SMerge b =>
      pattern_eqb expr_eqb (mgs_pattern a) (mgs_pattern b)
      && items (mgs_on_create a) (mgs_on_create b) && items (mgs_on_match a) (mgs_on_match b)
      && tail (mgs_tail a) (mgs_tail b)
  | SUnwind a, SUnwind b =>
      expr_eqb (us_expr a) (us_expr b) && same (us_alias a) (us_alias b)
      && unwind_body_eqb expr_eqb (us_body a) (us_body b)
  | SReturn a, SReturn b =>
      return_clause_eqb expr_eqb (rs_return a) (rs_return b)
      && bounds_eqb expr_eqb (rs_order_by a) (rs_order_by b) (rs_skip a) (rs_skip b)
           (rs_limit a) (rs_limit b)
  | SMultiClause a, SMultiClause b =>
      list_eqb (clause_eqb expr_eqb) (mc_clauses a) (mc_clauses b) && tail (mc_tail a) (mc_tail b)
  | SExplain a, SExplain b => statement_eqb a b
  | SUnion l a, SUnion m b => list_eqb statement_eqb l m && same a b
  | SCreateIndex a l, SCreateIndex b m | SDropIndex a l, SDropIndex b m => same a b && same l m
  | SCall a b c d e t, SCall a' b' c' d' e' t' =>
      same a a' && list_eqb expr_eqb b b' && same c c' && same d d' && same e e' && tail t t'
  | _, _ => false
  end.

(** ** Names *)

(** [a.eq_ignore_ascii_case(b)]. *)
Definition eq_ignore_ascii_case (a b : string) : bool :=
  String.eqb (ascii_lowercase a) (ascii_lowercase b).

(** One row of the table: [cur[1..]] from [cur[j]] and [prev[j..]]. *)
Fixpoint lev_cells (ca : byte) (b : bytes) (left_ : nat) (prev : list nat) : list nat :=
  match b, prev with
  | cb :: b', p :: ((p' :: _) as prev') =>
      let cost := if decide (ca = cb) then 0%nat else 1%nat in
      let x := (((left_ + 1) `min` (p' + 1)) `min` (p + cost))%nat in
      x :: lev_cells ca b' x prev'
  | _, _ => []
  end.
Fixpoint lev_rows (i : nat) (a b : bytes) (prev : list nat) : list nat :=
  match a with
  | [] => prev
  | ca :: a' => lev_rows (S i) a' b ((i + 1)%nat :: lev_cells ca b (i + 1) prev)
  end.
Definition levenshtein_lc (a b : bytes) : nat :=
  match a, b with
  | [], _ => length b
  | _, [] => length a
  | _, _ => List.nth (length b) (lev_rows 0 a b (seq 0 (S (length b)))) 0%nat
  end.

(** The first of the closest candidates; two edits are allowed, or one in a name of
    three bytes or fewer. *)
Fixpoint closest (target_lc : string) (max_dist : nat) (best : option (nat * string))
    (candidates : list string) : option (nat * string) :=
  match candidates with
  | [] => best
  | cand :: candidates' =>
      let d := levenshtein_lc (str_bytes target_lc) (str_bytes (ascii_lowercase cand)) in
      let better := match best with None => true | Some (bd, _) => bool_decide (d < bd)%nat end in
      closest target_lc max_dist
        (if bool_decide (d ≤ max_dist)%nat && better then Some (d, cand) else best) candidates'
  end.
Definition suggest_close_name (target : string) (candidates : list string) : option string :=
  let max_dist := if decide (str_len target ≤ 3)%nat then 1%nat else 2%nat in
  snd <$> closest (ascii_lowercase target) max_dist None candidates.

Definition did_you_mean (s : string) : string := "did you mean `" +:+ s +:+ "`?".
(** A [HashSet] is iterated in the order of [elements]. *)
Definition undefined_variable_error_with_props (name : string) (scope : gset string)
    (seen_props : list (string * string)) (span : Span) : GraphError :=
  let err := GraphError.with_span
    (GraphError.with_code (GraphError.syntax name) ErrorCode.UndefinedVariable) span in
  match suggest_close_name name (elements scope) with
  | Some suggestion => GraphError.with_hint err (did_you_mean suggestion)
  | None =>
      let name_lc := ascii_lowercase name in
      match List.find (λ vp : string * string,
              bool_decide (vp.1 ∈ scope) && String.eqb (ascii_lowercase vp.2) name_lc) seen_props with
      | Some (var, prop) => GraphError.with_hint err (did_you_mean (var +:+ "." +:+ prop))
      | None => err
      end
  end.
Definition undefined_variable_error (name : string) (scope : gset string) (span : Span) : GraphError :=
  undefined_variable_error_with_props name scope [] span.

(** [eval::KNOWN_FUNCTION_NAMES] and [is_known_function]. *)
Definition KNOWN_FUNCTION_NAMES : list string :=
  ["length"; "nodes"; "tolower"; "toupper"; "tostring"; "toboolean"; "tointeger"; "tofloat"; "keys";
   "labels"; "id"; "type"; "properties"; "relationships"; "coalesce"; "head"; "last"; "tail"; "size";
   "abs"; "sqrt"; "sign"; "ceil"; "floor"; "round"; "log"; "log10"; "exp"; "e"; "pi"; "substring";
   "replace"; "split"; "trim"; "ltrim"; "rtrim"; "left"; "right"; "startnode"; "endnode"; "exists";
   "reverse"; "range"; "rand"; "score";
   "date"; "date.transaction"; "date.statement"; "date.realtime";
   "localtime"; "localtime.transaction"; "localtime.statement"; "localtime.realtime";
   "time"; "time.transaction"; "time.statement"; "time.realtime";
   "localdatetime"; "localdatetime.transaction"; "localdatetime.statement"; "localdatetime.realtime";
   "datetime"; "datetime.transaction"; "datetime.statement"; "datetime.realtime";
   "duration"; "datetime.fromepoch"; "datetime.fromepochmillis"; "duration.between";
   "duration.inmonths"; "duration.indays"; "duration.inseconds";
   "date.truncate"; "localtime.truncate"; "time.truncate"; "localdatetime.truncate";
   "datetime.truncate";
   "count"; "sum"; "avg"; "min"; "max"; "collect"; "percentiledisc"; "percentilecont"; "stdev";
   "stdevp"].
Definition is_known_function (name : string) : bool :=
  List.existsb (λ n, String.eqb n (ascii_lowercase name)) KNOWN_FUNCTION_NAMES.

Definition ARITY_ONE : list string :=
  ["length"; "nodes"; "tolower"; "toupper"; "tostring"; "toboolean"; "tointeger"; "tofloat"; "keys";
   "labels"; "id"; "type"; "properties"; "relationships"; "head"; "last"; "tail"; "size"; "abs";
   "sqrt"; "sign"; "ceil"; "floor"; "log"; "log10"; "exp"; "reverse"; "startnode"; "endnode"; "trim";
   "ltrim"; "rtrim"].
Definition function_arity (name : string) : option (nat * nat) :=
  if decide (name ∈ ARITY_ONE) then Some (1, 1)%nat
  else if decide (name ∈ ["split"; "left"; "right"]) then Some (2, 2)%nat
  else if decide (name = "replace") then Some (3, 3)%nat
  else if decide (name = "round") then Some (1, 2)%nat
  else if decide (name ∈ ["substring"; "range"]) then Some (2, 3)%nat
  else if decide (name ∈ ["e"; "pi"; "rand"]) then Some (0, 0)%nat
  else None.
Definition unknown_function_error (name : string) (span : Span) : GraphError :=
  let err := GraphError.with_span
    (GraphError.with_code (GraphError.syntax ("unknown function `" +:+ name +:+ "`"))
       ErrorCode.UnknownFunction) span in
  match suggest_close_name name KNOWN_FUNCTION_NAMES with
  | Some suggestion => GraphError.with_hint err (did_you_mean (suggestion +:+ "()"))
  | None => err
  end.

(** ** Walks over expressions *)

(** Every access [var.prop], in the order of the walk. *)
Fixpoint collect_property_refs (e : Expr) : list (string * string) :=
  let opt (o : option Expr) := match o with Some e => collect_property_refs e | None => [] end in
  match expr_kind e with
  | Property v p => [(v, p)]
  | BinaryOp l _ r => collect_property_refs l ++ collect_property_refs r
  | Not x | IsNull x | IsNotNull x | DotAccess x _ => collect_property_refs x
  | FunctionCall _ args _ _ => flat_map collect_property_refs args
  | Case operand alternatives default_ =>
      opt operand
      ++ flat_map (λ a : Expr * Expr, let (c, r) := a in collect_property_refs c ++ collect_property_refs r)
           alternatives
      ++ opt default_
  | ListLit items => flat_map collect_property_refs items
  | MapLiteral pairs => flat_map (λ p : string * Expr, let (_, v) := p in collect_property_refs v) pairs
  | Index x i => collect_property_refs x ++ collect_property_refs i
  | Slice x s t => collect_property_refs x ++ opt s ++ opt t
  | ListComprehension _ l _ _ | Quantifier _ _ l _ => collect_property_refs l
  | _ => []
  end.

Definition parse_agg_name (name : string) : option AggregateFunction :=
  let n := ascii_lowercase name in
  if decide (n = "count") then Some Count
  else if decide (n = "sum") then Some Sum
  else if decide (n = "avg") then Some Avg
  else if decide (n = "min") then Some Min
  else if decide (n = "max") then Some Max
  else if decide (n = "collect") then Some Collect
  else if decide (n = "percentiledisc") then Some PercentileDisc
  else if decide (n = "percentilecont") then Some PercentileCont
  else if decide (n = "stdev") then Some StDev
  else if decide (n = "stdevp") then Some StDevP
  else None.
(** The names that [is_aggregate_fn] and the walks below list once more. *)
Definition AGGREGATE_NAMES : list string :=
  ["count"; "sum"; "avg"; "min"; "max"; "collect"; "percentiledisc"; "percentilecont"; "stdev";
   "stdevp"].
Definition is_aggregate_name (name : string) : bool :=
  bool_decide (ascii_lowercase name ∈ AGGREGATE_NAMES).

Fixpoint is_aggregate_fn (e : Expr) : bool :=
  match expr_kind e with
  | FunctionCall name args _ _ => is_aggregate_name name || List.existsb is_aggregate_fn args
  | BinaryOp l _ r => is_aggregate_fn l || is_aggregate_fn r
  | Not x | IsNull x | IsNotNull x => is_aggregate_fn x
  | MapLiteral pairs => List.existsb (λ p : string * Expr, let (_, v) := p in is_aggregate_fn v) pairs
  | ListLit items => List.existsb is_aggregate_fn items
  | ListComprehension _ l _ _ | Quantifier _ _ l _ => is_aggregate_fn l
  | _ => false
  end.
Fixpoint collect_aggregate_calls (e : Expr) : list Expr :=
  match expr_kind e with
  | FunctionCall name args _ _ =>
      if is_aggregate_name name then [e] else flat_map collect_aggregate_calls args
  | BinaryOp l _ r => collect_aggregate_calls l ++ collect_aggregate_calls r
  | Not x | IsNull x | IsNotNull x => collect_aggregate_calls x
  | MapLiteral pairs => flat_map (λ p : string * Expr, let (_, v) := p in collect_aggregate_calls v) pairs
  | ListLit items => flat_map collect_aggregate_calls items
  | ListComprehension _ l _ _ => collect_aggregate_calls l
  | Quantifier _ _ l p => collect_aggregate_calls l ++ collect_aggregate_calls p
  | _ => []
  end.
Definition is_pure_aggregate (e : Expr) : bool :=
  match expr_kind e with
  | FunctionCall name _ _ _ => match parse_agg_name name with Some _ => true | None => false end
  | _ => false
  end.
Fixpoint contains_nondeterministic_fn (e : Expr) : bool :=
  match expr_kind e with
  | FunctionCall name args _ _ =>
      eq_ignore_ascii_case name "rand" || List.existsb contains_nondeterministic_fn args
  | BinaryOp l _ r => contains_nondeterministic_fn l || contains_nondeterministic_fn r
  | Not x | IsNull x | IsNotNull x => contains_nondeterministic_fn x
  | _ => false
  end.
Fixpoint collect_non_aggregate_leaves (e : Expr) : list Expr :=
  match expr_kind e with
  | FunctionCall name args _ _ =>
      match parse_agg_name name with
      | Some _ => []
      | None => flat_map collect_non_aggregate_leaves args
      end
  | BinaryOp l _ r => collect_non_aggregate_leaves l ++ collect_non_aggregate_leaves r
  | Not x | IsNull x | IsNotNull x => collect_non_aggregate_leaves x
  | Literal _ | Parameter_ _ | Star => []
  | MapLiteral pairs =>
      flat_map (λ p : string * Expr, let (_, v) := p in collect_non_aggregate_leaves v) pairs
  | ListLit items => flat_map collect_non_aggregate_leaves items
  | ListComprehension _ l _ _ | Quantifier _ _ l _ => collect_non_aggregate_leaves l
  | _ => [e]
  end.

(** [args.first()] and [args.get(1)] of an aggregate. *)
Definition aggregate_of (function : AggregateFunction) (name : string) (args : list Expr)
    (distinct : bool) (original_text alias : option string) : AggregateExpr :=
  mkAggregateExpr function (default (synthetic Star) (head args)) alias distinct (args !! 1%nat) name
    original_text.
Fixpoint extract_nested_aggregates (e : Expr) : list AggregateExpr :=
  match expr_kind e with
  | FunctionCall name args distinct original_text =>
      match parse_agg_name name with
      | Some function => [aggregate_of function name args distinct original_text None]
      | None => flat_map extract_nested_aggregates args
      end
  | BinaryOp l _ r => extract_nested_aggregates l ++ extract_nested_aggregates r
  | Not x | IsNull x | IsNotNull x => extract_nested_aggregates x
  | MapLiteral pairs => flat_map (λ p : string * Expr, let (_, v) := p in extract_nested_aggregates v) pairs
  | ListLit items => flat_map extract_nested_aggregates items
  | ListComprehension _ l _ _ | Quantifier _ _ l _ => extract_nested_aggregates l
  | _ => []
  end.

(** ** Group keys and aggregates of a projection *)
Definition syntax_error_at (message : string) (code : ErrorCode) : GraphError :=
  GraphError.with_code (GraphError.syntax message) code.
Definition semantic_type_error (message : string) (code : ErrorCode) : GraphError :=
  GraphError.with_code (GraphError.type_error SemanticAnalysis message) code.

(** What an item adds: group keys, aggregates, items of both kinds. *)
Record Split := mkSplit { sp_keys : list Expr; sp_aggregates : list AggregateExpr; sp_mixed : list Expr }.
Definition split_item (s : Split) (item : ReturnItem Expr) : Res Split :=
  let e := ri_expr item in
  let nested :=
    let aggregates := sp_aggregates s ++ extract_nested_aggregates e in
    Ok (if negb (is_aggregate_fn e) then mkSplit (sp_keys s ++ [e]) aggregates (sp_mixed s)
        else if negb (is_pure_aggregate e) then mkSplit (sp_keys s) aggregates (sp_mixed s ++ [e])
        else mkSplit (sp_keys s) aggregates (sp_mixed s)) in
  match expr_kind e with
  | FunctionCall name args distinct original_text =>
      match parse_agg_name name with
      | Some function =>
          if List.existsb is_aggregate_fn args
          then Err (GraphError.syntax "Can not use an aggregation in an aggregation")
          else if List.existsb contains_nondeterministic_fn args
          then Err (semantic_type_error "non-deterministic function inside aggregate"
                      ErrorCode.NonConstantExpression)
          else Ok (mkSplit (sp_keys s)
                 (sp_aggregates s ++ [aggregate_of function name args distinct original_text (ri_alias item)])
                 (sp_mixed s))
      | None => nested
      end
  | _ => nested
  end.
Fixpoint split_items (s : Split) (items : list (ReturnItem Expr)) : Res Split :=
  match items with
  | [] => Ok s
  | i :: items' => s' ← split_item s i; split_items s' items'
  end.
Definition split_aggregates (items : list (ReturnItem Expr))
    : Res (list Expr * list AggregateExpr) :=
  s ← split_items (mkSplit [] [] []) items;
  if forallb (λ m, forallb (λ leaf, List.existsb (λ gk, expr_eqb gk leaf) (sp_keys s))
                     (collect_non_aggregate_leaves m)) (sp_mixed s)
  then Ok (sp_keys s, sp_aggregates s)
  else Err (syntax_error_at "expression mixes aggregate and non-aggregate sub-expressions"
              ErrorCode.AmbiguousAggregationExpression).

(** ** Aliases of RETURN in ORDER BY *)
Fixpoint resolve_sort_aliases (items : list (ReturnItem Expr)) (e : Expr) : Expr :=
  match expr_kind e with
  | Variable_ name =>
      match List.find (λ i : ReturnItem Expr, bool_decide (ri_alias i = Some name)) items with
      | Some i => if is_aggregate_fn (ri_expr i) then e else ri_expr i
      | None => e
      end
  | BinaryOp l op r =>
      synthetic (BinaryOp (resolve_sort_aliases items l) op (resolve_sort_aliases items r))
  | Not x => synthetic (Not (resolve_sort_aliases items x))
  | FunctionCall name args distinct original_text =>
      synthetic (FunctionCall name (List.map (resolve_sort_aliases items) args) distinct original_text)
  | _ => e
  end.
Definition resolved_sort (items : list (ReturnItem Expr)) (order_by : list (SortItem Expr))
    : list (SortItem Expr) :=
  (λ si, mkSortItem (resolve_sort_aliases items (si_expr si)) (si_descending si)) <$> order_by.

(** ** Conjunctions *)
Definition and_of (l r : Expr) : Expr := synthetic (BinaryOp l BinOp.And r).
Definition eq_of (l r : Expr) : Expr := synthetic (BinaryOp l BinOp.Eq r).
(** [reduce]. *)
Definition conjunction (l : list Expr) : option Expr :=
  match l with [] => None | e :: l' => Some (foldl and_of e l') end.
Definition rebuild_conjunction : list Expr → option Expr := conjunction.
Fixpoint decompose_conjuncts (e : Expr) : list Expr :=
  match expr_kind e with
  | BinaryOp l BinOp.And r => decompose_conjuncts l ++ decompose_conjuncts r
  | _ => [e]
  end.

(** The conditions [variable.key = value]; [remove(0)] of an empty vector panics, and
    no caller passes an empty map. *)
Definition property_condition (variable : string) (p : string * Expr) : Expr :=
  eq_of (synthetic (Property variable p.1)) p.2.
Definition properties_to_filter (variable : string) (properties : gmap string Expr) : Res Expr :=
  match conjunction (property_condition variable <$> map_to_list properties) with
  | Some e => Ok e
  | None => Panic
  end.

Fixpoint get_last_alias (op : LogicalOp) : string :=
  match op with
  | Op.Scan _ alias => alias
  | Op.IndexLookup _ alias _ _ _ => alias
  | Op.Expand _ _ dst_alias _ _ _ _ _ _ _ _ => dst_alias
  | Op.Filter input _ => get_last_alias input
  | _ => "_unknown"
  end.

Definition extract_eq_property_predicate (predicate : Expr) : option (string * string * LookupKey) :=
  match expr_kind predicate with
  | BinaryOp l BinOp.Eq r =>
      match expr_kind l, expr_kind r with
      | Property a p, Literal lit | Literal lit, Property a p => Some (a, p, LookupKey.Literal lit)
      | Property a p, Parameter_ n | Parameter_ n, Property a p => Some (a, p, LookupKey.Param n)
      | _, _ => None
      end
  | _ => None
  end.

(** ** The columns of a statement *)
Definition item_column (item : ReturnItem Expr) : string :=
  match ri_alias item with Some a => a | None => expr_to_column_name (ri_expr item) end.
Definition return_items_columns (items : list (ReturnItem Expr)) : list string := item_column <$> items.
Definition tail_columns (t : Tail Expr) : list string :=
  match tl_return t with Some rc => return_items_columns (rc_items rc) | None => [] end.
Definition statement_return_columns (stmt : Statement) : list string :=
  match stmt with
  | SMatch s => return_items_columns (rc_items (ms_return s))
  | SReturn s => return_items_columns (rc_items (rs_return s))
  | SCreate s => tail_columns (cs_tail s)
  | SUnwind s =>
      match us_body s with
      | UnwindBody.Return _ _ return_clause _ _ _ => return_items_columns (rc_items return_clause)
      | UnwindBody.Create _ _ t => tail_columns t
      end
  | SMultiClause s => tail_columns (mc_tail s)
  | _ => []
  end.
