(* ===== verification/Validation.v ===== *)
(** * Checks on a statement before it is planned: src/src/cypher/planner/validation.rs

    Names in scope, what functions and operators may be applied to, where patterns
    and aggregates are allowed, and what a variable may be bound to. *)
From stdpp Require Import pretty.
From S2P Require Export PlanHelpers.
#[local] Open Scope Z_scope.

Abbreviation scope := (gset string).

(** [GraphError::syntax(var).with_code(UndefinedVariable)]. *)
Definition not_in_scope (var : string) : GraphError := syntax_error_at var ErrorCode.UndefinedVariable.
Definition already_bound (var : string) : GraphError :=
  syntax_error_at ("variable `" +:+ var +:+ "` already bound") ErrorCode.VariableAlreadyBound.
Definition require (b : bool) (e : GraphError) : Res unit := if b then Ok () else Err e.
Definition in_scope (vars : scope) (var : string) : bool := bool_decide (var ∈ vars).
(** A check of an optional part. *)
Definition check_opt {A} (f : A → Res unit) (o : option A) : Res unit :=
  match o with Some a => f a | None => Ok () end.

(** ** Variables *)
Fixpoint check_expr_variables_inner (vars : scope) (seen_props : list (string * string)) (e : Expr)
    : Res unit :=
  let check := check_expr_variables_inner vars seen_props in
  let var_check var :=
    require (in_scope vars var) (undefined_variable_error_with_props var vars seen_props (expr_span e)) in
  match expr_kind e with
  | Variable_ var => var_check var
  | Property var _ => var_check var
  | BinaryOp l _ r => check l ≫= λ _, check r
  | Not x | IsNull x | IsNotNull x => check x
  | FunctionCall _ args _ _ => for_each_r check args
  | Case operand alternatives default_ =>
      check_opt check operand ≫= λ _,
      for_each_r (λ a : Expr * Expr, let (cond, result) := a in
                    check cond ≫= λ _, check result) alternatives ≫= λ _,
      check_opt check default_
  | ListLit items => for_each_r check items
  | MapLiteral pairs => for_each_r (λ p : string * Expr, let (_, v) := p in check v) pairs
  | Index x index => check x ≫= λ _, check index
  | Slice x start end_ => check x ≫= λ _, check_opt check start ≫= λ _, check_opt check end_
  | Literal _ | Parameter_ _ | Star => Ok ()
  | ListComprehension _ list_expr _ _ => check list_expr
  | Quantifier _ _ list_expr _ => check list_expr
  | Ast.Exists _ _ | ExistsSubquery _ | PatternPredicate _ | PatternComprehension _ _ _ _ => Ok ()
  | DotAccess x _ => check x
  | HasLabel var _ => require (in_scope vars var) (not_in_scope var)
  end.
Definition check_expr_variables (e : Expr) (vars : scope) : Res unit :=
  check_expr_variables_inner vars (collect_property_refs e) e.

Definition validate_return_variables (items : list (ReturnItem Expr)) (scope_vars : scope) : Res unit :=
  for_each_r (λ item : ReturnItem Expr,
    match expr_kind (ri_expr item) with
    | Star =>
        require (negb (bool_decide (scope_vars = ∅)))
          (GraphError.syntax "RETURN * is not allowed when there are no variables in scope")
    | _ => check_expr_variables (ri_expr item) scope_vars
    end) items.

Fixpoint duplicate_columns_from (seen : scope) (items : list (ReturnItem Expr)) : Res unit :=
  match items with
  | [] => Ok ()
  | item :: items' =>
      if is_star (ri_expr item) then duplicate_columns_from seen items' else
      let col := item_column item in
      if in_scope seen col
      then Err (GraphError.syntax ("Multiple result columns with the same name are not supported: '"
                  +:+ col +:+ "'"))
      else duplicate_columns_from ({[col]} ∪ seen) items'
  end.
Definition check_duplicate_columns : list (ReturnItem Expr) → Res unit := duplicate_columns_from ∅.

(** The named elements of patterns. *)
Definition element_variable {E} (el : PatternElement E) : option string :=
  match el with PNode n => np_variable n | PRelationship r => rp_variable r end.
Definition insert_opt (o : option string) (vars : scope) : scope :=
  match o with Some v => {[v]} ∪ vars | None => vars end.
Definition pattern_variables (vars : scope) (p : Pattern Expr) : scope :=
  foldl (λ acc el, insert_opt (element_variable el) acc) (insert_opt (pt_path_variable p) vars)
    (pt_elements p).
Definition collect_pattern_variables (patterns : list (Pattern Expr)) : scope :=
  foldl pattern_variables ∅ patterns.

(** ** Where patterns may stand *)
Definition single_bound_node (vars : scope) (p : Pattern Expr) : bool :=
  match pt_elements p with
  | [PNode n] => match np_variable n with Some v => in_scope vars v | None => false end
  | _ => false
  end.
Fixpoint validate_pattern_predicate_vars (vars : scope) (e : Expr) : Res unit :=
  match expr_kind e with
  | PatternPredicate pattern =>
      require (negb (single_bound_node vars pattern))
        (semantic_type_error "a single node pattern is not a valid predicate"
           ErrorCode.InvalidArgumentType) ≫= λ _,
      for_each_r (λ el, check_opt (λ var, require (in_scope vars var) (not_in_scope var))
                          (element_variable el)) (pt_elements pattern)
  | BinaryOp l _ r =>
      validate_pattern_predicate_vars vars l ≫= λ _, validate_pattern_predicate_vars vars r
  | Not x | IsNull x | IsNotNull x => validate_pattern_predicate_vars vars x
  | _ => Ok ()
  end.

Fixpoint reject_pattern_predicates (e : Expr) : Res unit :=
  match expr_kind e with
  | PatternPredicate _ =>
      Err (syntax_error_at "pattern expressions are not allowed here" ErrorCode.UnexpectedSyntax)
  | FunctionCall _ args _ _ => for_each_r reject_pattern_predicates args
  | BinaryOp l _ r => reject_pattern_predicates l ≫= λ _, reject_pattern_predicates r
  | Not x | IsNull x | IsNotNull x | DotAccess x _ => reject_pattern_predicates x
  | ListLit items => for_each_r reject_pattern_predicates items
  | Index x index => reject_pattern_predicates x ≫= λ _, reject_pattern_predicates index
  | Case operand alternatives default_ =>
      check_opt reject_pattern_predicates operand ≫= λ _,
      for_each_r (λ a : Expr * Expr, let (cond, result) := a in
                    reject_pattern_predicates cond ≫= λ _, reject_pattern_predicates result)
        alternatives ≫= λ _,
      check_opt reject_pattern_predicates default_
  | _ => Ok ()
  end.

(** ** What a variable is bound to *)
Inductive VarKind := VkNode | VkRelationship | VkPath.
#[global] Instance var_kind_eq : EqDecision VarKind.
Proof. solve_decision. Defined.
Definition var_kind_debug (k : VarKind) : string :=
  match k with VkNode => "Node" | VkRelationship => "Relationship" | VkPath => "Path" end.
Abbreviation VarTypes := (gmap string VarKind).

Definition type_conflict (var : string) : GraphError :=
  GraphError.Query (QueryError.SyntaxError SemanticAnalysis ErrorCode.Other
    ("variable '" +:+ var +:+ "' already defined with a different type") None None).
Definition bind_kind (var : string) (kind : VarKind) (types : VarTypes) : Res VarTypes :=
  match types !! var with
  | Some existing => if decide (existing = kind) then Ok types else Err (type_conflict var)
  | None => Ok (<[var := kind]> types)
  end.
Definition relationship_twice (var : string) : GraphError :=
  syntax_error_at ("cannot use relationship variable '" +:+ var +:+ "' more than once in a pattern")
    ErrorCode.VariableAlreadyBound.
Definition bind_relationship (prior_rels : VarTypes) (var : string) (types : VarTypes) : Res VarTypes :=
  match types !! var with
  | Some VkRelationship =>
      if decide (prior_rels !! var = Some VkRelationship) then Ok types
      else Err (relationship_twice var)
  | _ => bind_kind var VkRelationship types
  end.
Definition bind_element_kind (prior_rels types : VarTypes) (el : PatternElement Expr) : Res VarTypes :=
  match el with
  | PNode n => match np_variable n with Some var => bind_kind var VkNode types | None => Ok types end
  | PRelationship r =>
      match rp_variable r with Some var => bind_relationship prior_rels var types | None => Ok types end
  end.
(** A fold that can fail. *)
Fixpoint fold_r {A B} (f : B → A → Res B) (b : B) (l : list A) : Res B :=
  match l with [] => Ok b | x :: l' => b' ← f b x; fold_r f b' l' end.
Definition bind_pattern_kinds (prior_rels types : VarTypes) (pattern : Pattern Expr) : Res VarTypes :=
  types ← match pt_path_variable pattern with
          | Some path_var => bind_kind path_var VkPath types
          | None => Ok types
          end;
  fold_r (bind_element_kind prior_rels) types (pt_elements pattern).
Definition validate_variable_types_with_map (patterns : list (Pattern Expr)) (types : VarTypes)
    : Res VarTypes := fold_r (bind_pattern_kinds types) types patterns.
Definition validate_variable_types (patterns : list (Pattern Expr)) : Res VarTypes :=
  validate_variable_types_with_map patterns ∅.

Inductive WithValueKind := WkScalar | WkNode.
#[global] Instance with_kind_eq : EqDecision WithValueKind.
Proof. solve_decision. Defined.
Abbreviation WithKinds := (gmap string WithValueKind).
Definition infer_with_value_kind (e : Expr) : WithValueKind :=
  match expr_kind e with
  | Literal _ | MapLiteral _ | Property _ _ | BinaryOp _ _ _ | ListLit _ => WkScalar
  | _ => WkNode
  end.

(** ** Functions and operators *)
Definition is_arithmetic (op : BinOp) : bool :=
  match op with
  | BinOp.Add | BinOp.Sub | BinOp.Mul | BinOp.Div | BinOp.Mod | BinOp.Pow => true
  | _ => false
  end.
Fixpoint expr_references_var (var : string) (e : Expr) : bool :=
  match expr_kind e with
  | Variable_ v | Property v _ => String.eqb v var
  | BinaryOp l _ r => expr_references_var var l || expr_references_var var r
  | Not x | IsNull x | IsNotNull x => expr_references_var var x
  | FunctionCall _ args _ _ => List.existsb (expr_references_var var) args
  | _ => false
  end.
Fixpoint predicate_uses_arithmetic_on (var : string) (e : Expr) : bool :=
  match expr_kind e with
  | BinaryOp l op r =>
      (is_arithmetic op && (expr_references_var var l || expr_references_var var r))
      || (predicate_uses_arithmetic_on var l || predicate_uses_arithmetic_on var r)
  | Not x | IsNull x | IsNotNull x => predicate_uses_arithmetic_on var x
  | FunctionCall _ args _ _ => List.existsb (predicate_uses_arithmetic_on var) args
  | _ => false
  end.

Definition argument_error (code : ErrorCode) (message : string) (hint : option string) (span : Span)
    : GraphError :=
  GraphError.Query (QueryError.ArgumentError SemanticAnalysis code message hint (Some span)).
Definition check_arity (name name_lower : string) (args : list Expr) (span : Span) : Res unit :=
  match function_arity name_lower with
  | Some (min, max) =>
      let got := length args in
      let expected := if decide (min = max) then pretty min
                      else pretty min +:+ " or " +:+ pretty max in
      require (bool_decide (min ≤ got ≤ max)%nat)
        (argument_error ErrorCode.InvalidNumberOfArguments
           (name +:+ "() expected " +:+ expected +:+ " argument(s) but got " +:+ pretty got) None span)
  | None => Ok ()
  end.
Definition check_argument_kind (name name_lower : string) (kind : VarKind) : Res unit :=
  let structural := bool_decide (kind = VkNode) || bool_decide (kind = VkRelationship) in
  if decide (name_lower = "type") then
    require (negb (bool_decide (kind = VkNode)))
      (semantic_type_error "type() requires a relationship" ErrorCode.InvalidArgumentType)
  else if decide (name_lower = "length") then
    require (negb structural)
      (semantic_type_error "length() requires a path, string, or list" ErrorCode.InvalidArgumentType)
  else if decide (name_lower = "size") then
    require (negb (bool_decide (kind = VkPath)))
      (semantic_type_error "size() requires a string or list" ErrorCode.InvalidArgumentType)
  else if decide (name_lower ∈ ["toboolean"; "tointeger"; "tofloat"; "tostring"]) then
    require (negb structural)
      (semantic_type_error (name +:+ "() cannot convert a " +:+ var_kind_debug kind)
         ErrorCode.InvalidArgumentValue)
  else Ok ().
Definition check_score (name_lower : string) (args : list Expr) (span : Span) : Res unit :=
  if decide (name_lower = "score") then
    match args with
    | [a] =>
        require (match variable_of a with Some _ => true | None => false end)
          (argument_error ErrorCode.InvalidArgumentValue "score() argument must be a variable"
             (Some "usage: score(n) where n is an FTS-matched node variable") span)
    | _ =>
        Err (argument_error ErrorCode.InvalidArgumentValue
               ("score() requires exactly 1 argument, got " +:+ pretty (length args))
               (Some "usage: score(node_variable)") span)
    end
  else Ok ().
Definition is_string_literal (e : Expr) : bool :=
  match expr_kind e with Literal (LiteralValue.String _) => true | _ => false end.
Definition is_bool_literal (e : Expr) : bool :=
  match expr_kind e with Literal (LiteralValue.Bool _) => true | _ => false end.
Definition check_quantified_list (variable : string) (list_expr predicate : Expr) : Res unit :=
  match expr_kind list_expr with
  | ListLit ((_ :: _) as items) =>
      let all_strings := forallb is_string_literal items in
      require (negb ((all_strings || forallb is_bool_literal items)
                     && predicate_uses_arithmetic_on variable predicate))
        (semantic_type_error ((if all_strings then "String" else "Boolean")
           +:+ " is not a valid argument type for arithmetic operations") ErrorCode.InvalidArgumentType)
  | _ => Ok ()
  end.
Fixpoint validate_expr_types (var_types : VarTypes) (e : Expr) : Res unit :=
  match expr_kind e with
  | FunctionCall name args _ _ =>
      let name_lower := ascii_lowercase name in
      require (is_known_function name_lower) (unknown_function_error name (expr_span e)) ≫= λ _,
      check_arity name name_lower args (expr_span e) ≫= λ _,
      check_opt (check_argument_kind name name_lower)
        (var ← (a ← head args; variable_of a); var_types !! var) ≫= λ _,
      check_score name_lower args (expr_span e) ≫= λ _,
      for_each_r (validate_expr_types var_types) args
  | Property var _ =>
      require (negb (bool_decide (var_types !! var = Some VkPath)))
        (semantic_type_error "property access on a path is not allowed" ErrorCode.InvalidArgumentType)
  | BinaryOp l _ r => validate_expr_types var_types l ≫= λ _, validate_expr_types var_types r
  | Not x | IsNull x | IsNotNull x => validate_expr_types var_types x
  | Quantifier _ variable list_expr predicate =>
      check_quantified_list variable list_expr predicate ≫= λ _,
      validate_expr_types var_types list_expr
  | _ => Ok ()
  end.

(** ** Updating clauses *)
Definition map_values {E} (m : gmap string E) : list E := (map_to_list m).*2.
Definition check_one_type (clause : string) (rel_types : list string) : Res unit :=
  require (bool_decide (length rel_types = 1%nat))
    (syntax_error_at ("a relationship must have exactly one type in " +:+ clause)
       ErrorCode.NoSingleRelationshipType).

Definition check_create_element (vars : scope) (el : PatternElement Expr) : Res scope :=
  match el with
  | PNode n =>
      _ ← for_each_r (λ e, check_expr_variables e vars) (map_values (np_properties n));
      Ok (insert_opt (np_variable n) vars)
  | PRelationship rel =>
      _ ← check_one_type "CREATE" (rp_types rel);
      _ ← require (negb (bool_decide (rp_direction rel = RelUndirected)))
            (syntax_error_at "only directed relationships are supported in CREATE"
               ErrorCode.RequiresDirectedRelationship);
      _ ← for_each_r (λ e, check_expr_variables e vars) (map_values (rp_properties rel));
      Ok (insert_opt (rp_variable rel) vars)
  end.
Definition validate_create_patterns (patterns : list (Pattern Expr)) (vars : scope) : Res unit :=
  _ ← fold_r (λ vars p, fold_r check_create_element vars (pt_elements p)) vars patterns; Ok ().

Definition bind_merge_element (vars : scope) (el : PatternElement Expr) : Res scope :=
  match el with
  | PNode n => Ok (insert_opt (np_variable n) vars)
  | PRelationship rel =>
      _ ← check_one_type "MERGE" (rp_types rel); Ok (insert_opt (rp_variable rel) vars)
  end.
Definition check_merge_item (vars : scope) (item : SetItem Expr) : Res unit :=
  match item with
  | SetItem.Property a =>
      require (in_scope vars (as_variable a)) (not_in_scope (as_variable a)) ≫= λ _,
      check_expr_variables (as_value a) vars
  | SetItem.Label variable _ => require (in_scope vars variable) (not_in_scope variable)
  | SetItem.MapOverwrite variable v | SetItem.MapMerge variable v =>
      require (in_scope vars variable) (not_in_scope variable) ≫= λ _, check_expr_variables v vars
  end.
Definition validate_merge_pattern (pattern : Pattern Expr) (vars : scope)
    (on_create on_match : list (SetItem Expr)) : Res unit :=
  merge_vars ← fold_r bind_merge_element vars (pt_elements pattern);
  for_each_r (check_merge_item merge_vars) (on_create ++ on_match).

Definition validate_set_variables (items : list (SetItem Expr)) (vars : scope) : Res unit :=
  for_each_r (λ item : SetItem Expr,
    check_merge_item vars item ≫= λ _,
    match item with SetItem.Property a => reject_pattern_predicates (as_value a) | _ => Ok () end) items.

Fixpoint extract_root_variable (e : Expr) : option string :=
  match expr_kind e with
  | Variable_ v | Property v _ => Some v
  | Index base _ => extract_root_variable base
  | _ => None
  end.
Definition invalid_delete_target : GraphError :=
  syntax_error_at "DELETE requires a node, relationship, or path" ErrorCode.InvalidArgumentType.
Definition validate_delete_exprs (exprs : list Expr) (vars : scope) : Res unit :=
  for_each_r (λ e : Expr,
    match expr_kind e with
    | Variable_ var => require (in_scope vars var) (not_in_scope var)
    | HasLabel _ _ =>
        Err (syntax_error_at "cannot delete a label predicate expression" ErrorCode.InvalidDelete)
    | Literal _ | BinaryOp _ _ _ => Err invalid_delete_target
    | _ => check_opt (λ root, require (in_scope vars root) (not_in_scope root)) (extract_root_variable e)
    end) exprs.

Definition rebinding_checked (vars : scope) (el : PatternElement Expr) : Res unit :=
  match el with
  | PRelationship rel =>
      check_opt (λ var, require (negb (in_scope vars var)) (already_bound var)) (rp_variable rel)
  | PNode n =>
      check_opt (λ var, require (negb (in_scope vars var && negb (bool_decide (np_labels n = []))))
                          (already_bound var)) (np_variable n)
  end.
Definition validate_merge_variable_rebinding (pattern : Pattern Expr) (vars : scope) : Res unit :=
  match pt_elements pattern with
  | [PNode n] =>
      check_opt (λ var, require (negb (in_scope vars var)) (already_bound var)) (np_variable n)
  | [_; _; _] => for_each_r (rebinding_checked vars) (pt_elements pattern)
  | _ => Ok ()
  end.

(** ** Order and aggregation *)
Definition validate_no_aggregation_in_order_by (order_by : list (SortItem Expr)) : Res unit :=
  for_each_r (λ item, require (negb (is_aggregate_fn (si_expr item)))
    (syntax_error_at "aggregation functions are not allowed in ORDER BY when there is no aggregation in the preceding WITH/RETURN"
       ErrorCode.InvalidAggregation)) order_by.

(** Every name of a column: its text, and its alias. *)
Definition column_names (items : list (ReturnItem Expr)) : scope :=
  foldl (λ acc item, insert_opt (ri_alias item) ({[expr_to_column_name (ri_expr item)]} ∪ acc)) ∅ items.
Definition validate_return_order_by_with_aggregates (return_items : list (ReturnItem Expr))
    (order_by : list (SortItem Expr)) : Res unit :=
  let returned_cols := column_names return_items in
  for_each_r (λ sort_item,
    if is_aggregate_fn (si_expr sort_item) then
      for_each_r (λ leaf, require (in_scope returned_cols (expr_to_column_name leaf))
        (syntax_error_at "ORDER BY references a variable not in RETURN" ErrorCode.UndefinedVariable))
        (collect_non_aggregate_leaves (si_expr sort_item))
    else Ok ()) order_by.
Definition returned_variables (items : list (ReturnItem Expr)) : scope :=
  foldl (λ acc item, insert_opt (variable_of (ri_expr item)) acc) ∅ items.
Definition validate_distinct_order_by (return_items : list (ReturnItem Expr))
    (order_by : list (SortItem Expr)) (distinct : bool) : Res unit :=
  if negb distinct then Ok () else
  let projected := column_names return_items in
  let returned_vars := returned_variables return_items in
  for_each_r (λ sort_item,
    require (in_scope projected (expr_to_column_name (si_expr sort_item))
             || match expr_kind (si_expr sort_item) with
                | Property var _ => in_scope returned_vars var
                | _ => false
                end)
      (syntax_error_at "ORDER BY references a variable not in RETURN DISTINCT"
         ErrorCode.UndefinedVariable)) order_by.

Fixpoint validate_expr_in_scope (vars : scope) (e : Expr) : Res unit :=
  match expr_kind e with
  | Variable_ var | Property var _ =>
      require (in_scope vars var) (undefined_variable_error var vars (expr_span e))
  | BinaryOp l _ r => validate_expr_in_scope vars l ≫= λ _, validate_expr_in_scope vars r
  | FunctionCall _ args _ _ => for_each_r (validate_expr_in_scope vars) args
  | Not x | IsNull x | IsNotNull x => validate_expr_in_scope vars x
  | ListLit items => for_each_r (validate_expr_in_scope vars) items
  | _ => Ok ()
  end.
Definition validate_with_order_by_scope_input (input_scope : scope) (with_items : list (ReturnItem Expr))
    (order_by : list (SortItem Expr)) : Res unit :=
  if List.existsb (λ i, is_star (ri_expr i)) with_items then Ok () else
  let vars := foldl (λ acc i, insert_opt (ri_alias i) acc) input_scope with_items in
  for_each_r (λ si, validate_expr_in_scope vars (si_expr si)) order_by.

Fixpoint collect_variables_from_expr (vars : scope) (e : Expr) : scope :=
  match expr_kind e with
  | Variable_ name => {[name]} ∪ vars
  | Property var _ => {[var]} ∪ vars
  | BinaryOp l _ r => collect_variables_from_expr (collect_variables_from_expr vars l) r
  | FunctionCall _ args _ _ => foldl (λ acc a, collect_variables_from_expr acc a) vars args
  | Not x | IsNull x | IsNotNull x => collect_variables_from_expr vars x
  | _ => vars
  end.
Fixpoint validate_non_agg_leaves_in_scope (vars : scope) (e : Expr) : Res unit :=
  match expr_kind e with
  | FunctionCall name args _ _ =>
      if is_aggregate_name name then Ok () else for_each_r (validate_non_agg_leaves_in_scope vars) args
  | Variable_ var | Property var _ =>
      require (in_scope vars var) (undefined_variable_error var vars (expr_span e))
  | BinaryOp l _ r =>
      validate_non_agg_leaves_in_scope vars l ≫= λ _, validate_non_agg_leaves_in_scope vars r
  | Not x | IsNull x | IsNotNull x => validate_non_agg_leaves_in_scope vars x
  | _ => Ok ()
  end.
Definition validate_agg_order_by_scope (with_items : list (ReturnItem Expr))
    (order_by : list (SortItem Expr)) : Res unit :=
  let vars := foldl (λ acc item,
    let acc := insert_opt (ri_alias item) acc in
    if is_aggregate_fn (ri_expr item) then acc else collect_variables_from_expr acc (ri_expr item))
    ∅ with_items in
  for_each_r (λ si, validate_non_agg_leaves_in_scope vars (si_expr si)) order_by.

Fixpoint validate_no_aggregation_in_list_comp (e : Expr) : Res unit :=
  match expr_kind e with
  | ListComprehension _ list_expr filter_ map_expr =>
      check_opt (λ me,
        require (negb (is_aggregate_fn me))
          (syntax_error_at "aggregation functions are not allowed in list comprehension"
             ErrorCode.InvalidAggregation) ≫= λ _,
        validate_no_aggregation_in_list_comp me) map_expr ≫= λ _,
      check_opt validate_no_aggregation_in_list_comp filter_ ≫= λ _,
      validate_no_aggregation_in_list_comp list_expr
  | FunctionCall _ args _ _ => for_each_r validate_no_aggregation_in_list_comp args
  | BinaryOp l _ r =>
      validate_no_aggregation_in_list_comp l ≫= λ _, validate_no_aggregation_in_list_comp r
  | Not x | IsNull x | IsNotNull x => validate_no_aggregation_in_list_comp x
  | ListLit items => for_each_r validate_no_aggregation_in_list_comp items
  | _ => Ok ()
  end.
