(* ===== verification/PlanPattern.v ===== *)
(** * Plans for patterns: src/src/cypher/planner/pattern.rs and cost.rs

    How many rows an operator may have, and the operators that look a pattern up,
    expand its relationships, join several patterns, or create one.  [next_anon] is
    the global counter of anonymous names. *)
From stdpp Require Import pretty.
From S2P Require Export Validation.
#[local] Open Scope Z_scope.

(** ** Estimates: src/src/cypher/cost.rs *)
Definition f64_max (x y : f64) : f64 :=
  match f64_cmp x y with Some Lt => y | Some _ => x | None => if f64_eqb x x then x else y end.
Definition f64_min (x y : f64) : f64 :=
  match f64_cmp x y with Some Gt => y | Some _ => x | None => if f64_eqb x x then x else y end.
Definition f64_of_N (n : N) : f64 := f64_of_int (Z.of_N n).
(** 30% as it is rounded, 0.5 and 0.1 likewise. *)
Definition f64_ratio (a b : Z) : f64 := f64_div (f64_of_int a) (f64_of_int b).
Definition DEFAULT_LABEL_COUNT : f64 := f64_of_int 1000.
Definition DEFAULT_FILTER_SELECTIVITY : f64 := f64_ratio 3 10.
Definition DEFAULT_EXPAND_FAN_OUT : f64 := f64_of_int 5.
Definition f64_max_value : f64 := f64_of_bits 9218868437227405311.

(** What the planner does besides reading the database: it takes a number for an
    anonymous name, and evaluates the expression of a bound. *)
Record PlanEffects (S : Type) := mkPlanEffects {
  next_anon : M S GraphError N;
  eval_bound : Expr → M S GraphError value }.
Arguments mkPlanEffects {S} _ _.
Arguments next_anon {S} _.
Arguments eval_bound {S} _ _.

Section planner.
Context {conn : Type} {O : SqlOps conn} (c : conn).

Fixpoint estimate_rows (plan : LogicalOp) : Res f64 :=
  match plan with
  | Op.SingleRow | Op.EmptyRow => Ok (f64_of_int 1)
  | Op.Scan label _ =>
      count ← unwrap_or 0%N (get_label_count label c);
      Ok (if (0 <? count)%N then f64_of_N count else DEFAULT_LABEL_COUNT)
  | Op.IndexLookup _ _ _ _ _ | Op.IdLookup _ _ => Ok (f64_of_int 1)
  | Op.FullTextLookup _ _ _ _ _ _ => Ok (f64_of_int 10)
  | Op.Expand input _ _ _ _ _ _ _ _ _ _ =>
      r ← estimate_rows input; Ok (f64_mul r DEFAULT_EXPAND_FAN_OUT)
  | Op.CrossProduct left_ right_ _ | Op.CorrelatedJoin left_ right_ _ =>
      l ← estimate_rows left_; r ← estimate_rows right_; Ok (f64_mul l r)
  | Op.MaterializePath input _ _ _ | Op.Project input _ _ | Op.Sort input _ => estimate_rows input
  | Op.Filter input _ => r ← estimate_rows input; Ok (f64_mul r DEFAULT_FILTER_SELECTIVITY)
  | Op.Aggregate input group_keys _ =>
      match group_keys with
      | [] => Ok (f64_of_int 1)
      | _ => r ← estimate_rows input; Ok (f64_max (f64_mul r (f64_ratio 1 2)) (f64_of_int 1))
      end
  | Op.Distinct input => r ← estimate_rows input; Ok (f64_mul r (f64_ratio 1 2))
  | Op.Skip input count => r ← estimate_rows input; Ok (f64_max (f64_sub r (f64_of_N count)) f64_zero)
  | Op.Limit input count => r ← estimate_rows input; Ok (f64_min r (f64_of_N count))
  | Op.Unwind input _ _ => r ← estimate_rows input; Ok (f64_mul r (f64_of_int 3))
  | Op.LeftOuterJoin input right_ _ _ =>
      l ← estimate_rows input; r ← estimate_rows right_;
      Ok (f64_max l (f64_min l (f64_mul (f64_mul l r) (f64_ratio 1 10))))
  | Op.ShortestPath input _ _ _ _ _ _ all_paths =>
      r ← estimate_rows input; Ok (if all_paths : bool then f64_mul r (f64_of_int 2) else r)
  | Op.Call _ _ _ _ _ => Ok (f64_of_int 1)
  | Op.CreateNode _ _ _ | Op.CreateEdge _ _ _ _ _ | Op.CreateSequence _ | Op.MatchCreate _ _
  | Op.Delete _ _ _ | Op.SetProperty _ _ | Op.SetLabel _ _ _ | Op.SetProperties _ _ _ _
  | Op.Remove _ _ | Op.Merge _ _ _ | Op.MatchMerge _ _ _ _ | Op.CreateIndex _ _ | Op.DropIndex _ _ =>
      Ok (f64_of_int 1)
  | Op.Union inputs _ =>
      estimates ← collect estimate_rows inputs; Ok (foldl f64_add f64_zero estimates)
  end.

(** ** Looking up a node *)
Fixpoint covered_prefix (equality_preds : gmap string LookupKey) (properties : list string) : nat :=
  match properties with
  | p :: properties' =>
      match equality_preds !! p with Some _ => S (covered_prefix equality_preds properties') | None => 0%nat end
  | [] => 0%nat
  end.
Definition better_index (info : IndexInfo) (k : nat) (current : IndexInfo * nat) : bool :=
  let len_a := length (info_properties info) in
  let len_b := length (info_properties current.1) in
  if Nat.ltb (snd current) k then true
  else if Nat.ltb k (snd current) then false
  else if Nat.ltb len_a len_b then true
  else if Nat.ltb len_b len_a then false
  else match bytes_cmp (str_bytes (join "," (info_properties info)))
                       (str_bytes (join "," (info_properties current.1))) with
       | Lt => true
       | _ => false
       end.
Definition pick_index_for_equality_preds (candidates : list IndexInfo)
    (equality_preds : gmap string LookupKey) : option (IndexInfo * nat) :=
  foldl (λ best info,
    let k := covered_prefix equality_preds (info_properties info) in
    if Nat.eqb k 0 then best else
    match best with
    | Some current => if better_index info k current then Some (info, k) else best
    | None => Some (info, k)
    end) None candidates.

Definition lookup_key_of (e : Expr) : option LookupKey :=
  match expr_kind e with
  | Literal l => Some (LookupKey.Literal l)
  | Parameter_ name => Some (LookupKey.Param name)
  | _ => None
  end.
(** The keys of the covered properties in the order of the index, and the conditions
    that are left; [expect] panics when a property occurs twice. *)
Fixpoint take_lookups (equality_preds : gmap string LookupKey) (properties : list string)
    : Res (list (string * LookupKey) * gmap string LookupKey) :=
  match properties with
  | [] => Ok ([], equality_preds)
  | p :: properties' =>
      match equality_preds !! p with
      | Some key =>
          r ← take_lookups (delete p equality_preds) properties'; Ok ((p, key) :: r.1, r.2)
      | None => Panic
      end
  end.
Definition has_label_condition (alias label : string) : Expr :=
  synthetic (BinaryOp (synthetic (Literal (LiteralValue.String label))) BinOp.In
               (synthetic (Property alias "__labels"))).

Definition index_plan (node : NodePattern Expr) (alias label : string) (info : IndexInfo) (k : nat)
    (equality_preds : gmap string LookupKey) : Res LogicalOp :=
  taken ← take_lookups equality_preds (take k (info_properties info));
  let remaining := filter (λ p : string * Expr,
    is_Some (taken.2 !! p.1) ∨ lookup_key_of p.2 = None) (np_properties node) in
  remaining_filters ← (if decide (remaining = ∅) then Ok None
                       else e ← properties_to_filter alias remaining; Ok (Some e));
  Ok (Op.IndexLookup label alias (info_properties info) taken.1 remaining_filters).
Definition scan_plan (node : NodePattern Expr) (alias label : string) : Res LogicalOp :=
  let scan := foldl (λ op extra_label, Op.Filter op (has_label_condition alias extra_label))
                (Op.Scan label alias) (drop 1 (np_labels node)) in
  if decide (np_properties node = ∅) then Ok scan
  else predicate ← properties_to_filter alias (np_properties node); Ok (Op.Filter scan predicate).
Definition plan_node_scan (node : NodePattern Expr) (alias : string) : Res LogicalOp :=
  let label := default "" (head (np_labels node)) in
  if bool_decide (np_properties node = ∅) || String.eqb label "" then scan_plan node alias label else
  indexes ← unwrap_or [] (list_indexes_for_label label c);
  let equality_preds := omap lookup_key_of (np_properties node) in
  match pick_index_for_equality_preds indexes equality_preds with
  | Some (info, k) => index_plan node alias label info k equality_preds
  | None => scan_plan node alias label
  end.

(** ** One pattern *)
Context {S : Type} (X : PlanEffects S).
Abbreviation E' := (M S GraphError).

Definition anon_name (prefix : string) : E' string := n ← next_anon X; mret (prefix +:+ pretty n).
Definition name_or (o : option string) (m : E' string) : E' string :=
  match o with Some v => mret v | None => m end.
Definition direction_of (d : RelDirection) : Direction :=
  match d with RelOutgoing => Outgoing | RelIncoming => Incoming | RelUndirected => Both end.

Definition add_filter (op : LogicalOp) (predicate : Res Expr) : Res LogicalOp :=
  e ← predicate; Ok (Op.Filter op e).
Definition filter_props (op : LogicalOp) (alias : string) (properties : gmap string Expr) : Res LogicalOp :=
  if decide (properties = ∅) then Ok op else add_filter op (properties_to_filter alias properties).
(** The expansion of a relationship and the conditions on its end and itself. *)
Definition expand_plan (op : LogicalOp) (rel : RelPattern Expr) (dst : NodePattern Expr)
    (dst_alias rel_alias : string) : Res LogicalOp :=
  let hops := default (1, 1)%N (rp_var_length rel) in
  let var_length := bool_decide (is_Some (rp_var_length rel)) in
  let op := Op.Expand op (get_last_alias op) dst_alias (Some rel_alias) (rp_types rel)
              (direction_of (rp_direction rel)) hops.1 hops.2 var_length
              (if var_length then rp_properties rel else ∅) None in
  let op := foldl (λ op dst_label,
              if String.eqb dst_label "" then op
              else Op.Filter op (has_label_condition dst_alias dst_label)) op (np_labels dst) in
  op ← filter_props op dst_alias (np_properties dst);
  if var_length then Ok op else filter_props op rel_alias (rp_properties rel).

Fixpoint plan_elements (named_path : bool) (i : nat) (elements : list (PatternElement Expr))
    (op : option LogicalOp) (element_aliases : gmap nat string)
    : E' (option LogicalOp * gmap nat string) :=
  match elements with
  | [] => mret (op, element_aliases)
  | PNode node :: elements' =>
      match op with
      | None =>
          alias ← name_or (np_variable node) (anon_name "_anon_");
          scan ← lift (plan_node_scan node alias);
          plan_elements named_path (i + 1) elements' (Some scan) (<[i := alias]> element_aliases)
      | Some _ => plan_elements named_path (i + 1) elements' op element_aliases
      end
  | PRelationship rel :: elements' =>
      match elements' with
      | PNode dst :: elements'' =>
          dst_alias ← name_or (np_variable dst) (anon_name "_anon_");
          rel_alias ← name_or (rp_variable rel)
            (if named_path then mret ("_path_rel_" +:+ pretty i) else anon_name "_anon_rel_");
          match op with
          | None => lift Panic
          | Some op =>
              op ← lift (expand_plan op rel dst dst_alias rel_alias);
              plan_elements named_path (i + 2) elements'' (Some op)
                (<[i := rel_alias]> (<[(i + 1)%nat := dst_alias]> element_aliases))
          end
      | _ => throw (GraphError.semantic "relationship must be followed by a node pattern")
      end
  end.

(** The names of the nodes and of the relationships of a path. *)
Definition path_node_alias (element_aliases : gmap nat string) (idx : nat) (el : PatternElement Expr)
    : option string :=
  match el with
  | PNode n => Some (match element_aliases !! idx with
                     | Some a => a
                     | None => default ("_anon_" +:+ pretty idx) (np_variable n)
                     end)
  | PRelationship _ => None
  end.
Definition path_rel_alias (element_aliases : gmap nat string) (idx : nat) (el : PatternElement Expr)
    : option string :=
  match el with
  | PRelationship r => Some (match element_aliases !! idx with
                             | Some a => a
                             | None => default ("_path_rel_" +:+ pretty idx) (rp_variable r)
                             end)
  | PNode _ => None
  end.
Definition path_aliases (f : nat → PatternElement Expr → option string)
    (elements : list (PatternElement Expr)) : list string := omap id (imap f elements).

Definition plan_single_pattern (pattern : Pattern Expr) : E' LogicalOp :=
  let elements := pt_elements pattern in
  planned ← plan_elements (bool_decide (is_Some (pt_path_variable pattern))) 0 elements None ∅;
  match planned.1 with
  | None => throw (GraphError.semantic "empty pattern")
  | Some result =>
      mret (match pt_path_variable pattern with
            | Some path_var =>
                Op.MaterializePath result path_var
                  (path_aliases (path_node_alias planned.2) elements)
                  (path_aliases (path_rel_alias planned.2) elements)
            | None => result
            end)
  end.

(** ** Shortest paths *)
Definition plan_shortest_path_pattern (pattern : Pattern Expr) (existing_input : option LogicalOp)
    : Res LogicalOp :=
  match pt_elements pattern with
  | [e0; e1; e2] =>
      match e0, e1, e2 with
      | PNode src_node, PRelationship rel, PNode dst_node =>
          let src_alias := default "_sp_src" (np_variable src_node) in
          let dst_alias := default "_sp_dst" (np_variable dst_node) in
          let path_alias := default "_path" (pt_path_variable pattern) in
          let max_hops := snd (default (1, 4294967295)%N (rp_var_length rel)) in
          input ← match existing_input with
                  | Some existing => Ok existing
                  | None =>
                      src_scan ← plan_node_scan src_node src_alias;
                      dst_scan ← plan_node_scan dst_node dst_alias;
                      Ok (Op.CrossProduct src_scan dst_scan false)
                  end;
          Ok (Op.ShortestPath input src_alias dst_alias path_alias (head (rp_types rel))
                (direction_of (rp_direction rel)) max_hops
                (bool_decide (pt_shortest_path_mode pattern = ShortestPathMode.All)))
      | PNode _, PRelationship _, _ =>
          Err (GraphError.semantic "shortestPath pattern must end with a node")
      | PNode _, _, _ =>
          Err (GraphError.semantic "shortestPath pattern must have a relationship")
      | _, _, _ => Err (GraphError.semantic "shortestPath pattern must start with a node")
      end
  | _ => Err (GraphError.semantic "shortestPath pattern must be (a)-[*..N]->(b)")
  end.

(** ** Several patterns *)

(** Cheaper patterns come first; one that cannot be planned is as dear as can be. *)
Definition pattern_cost (pattern : Pattern Expr) : E' f64 :=
  plan ← ok_m (plan_single_pattern pattern);
  match plan with
  | Some p => lift (estimate_rows p)
  | None => mret f64_max_value
  end.
Definition order_patterns (regular : list (Pattern Expr)) : E' (list (Pattern Expr)) :=
  match regular with
  | _ :: _ :: _ =>
      indexed ← collect_m (λ pat, cost ← pattern_cost pat; mret (pat, cost)) regular;
      mret (fst <$> sort_by (λ a b : Pattern Expr * f64, or_equal (f64_cmp a.2 b.2)) indexed)
  | _ => mret regular
  end.
(** Patterns that share a variable with an earlier one run under its rows. *)
Fixpoint join_patterns (patterns : list (Pattern Expr)) (op : option LogicalOp) (bound_vars : scope)
    : E' (option LogicalOp) :=
  match patterns with
  | [] => mret op
  | pattern :: patterns' =>
      right_ ← plan_single_pattern pattern;
      let pattern_vars := collect_pattern_variables [pattern] in
      let shared := negb (bool_decide (pattern_vars ∩ bound_vars = ∅)) in
      let op := match op with
                | None => right_
                | Some left_ =>
                    if shared then Op.CorrelatedJoin left_ right_ true
                    else Op.CrossProduct left_ right_ true
                end in
      join_patterns patterns' (Some op) (bound_vars ∪ pattern_vars)
  end.
Fixpoint apply_shortest (patterns : list (Pattern Expr)) (op : option LogicalOp)
    : Res (option LogicalOp) :=
  match patterns with
  | [] => Ok op
  | pattern :: patterns' =>
      op' ← plan_shortest_path_pattern pattern op; apply_shortest patterns' (Some op')
  end.
Definition is_regular (pattern : Pattern Expr) : bool :=
  bool_decide (pt_shortest_path_mode pattern = ShortestPathMode.None).
Definition plan_patterns (patterns : list (Pattern Expr)) : E' LogicalOp :=
  match patterns with
  | [] => mret Op.EmptyRow
  | _ =>
      regular ← order_patterns (List.filter is_regular patterns);
      op ← join_patterns regular None ∅;
      op ← lift (apply_shortest (List.filter (λ p, negb (is_regular p)) patterns) op);
      match op with
      | Some op => mret op
      | None => throw (GraphError.semantic "empty patterns")
      end
  end.

(** The names that an OPTIONAL MATCH adds, each once, in order of occurrence. *)
Definition add_alias (bound_vars : scope) (new_aliases : list string) (o : option string) : list string :=
  match o with
  | Some var =>
      if in_scope bound_vars var || bool_decide (var ∈ new_aliases) then new_aliases
      else new_aliases ++ [var]
  | None => new_aliases
  end.
Definition optional_aliases_of (bound_vars : scope) (patterns : list (Pattern Expr)) : list string :=
  foldl (λ acc p, foldl (λ acc el, add_alias bound_vars acc (element_variable el))
                    (add_alias bound_vars acc (pt_path_variable p)) (pt_elements p)) [] patterns.
Definition plan_optional_match (opt_match : OptionalMatch Expr) (bound_vars : scope)
    : E' (LogicalOp * list string * option Expr) :=
  op ← plan_patterns (om_patterns opt_match);
  mret (op, optional_aliases_of bound_vars (om_patterns opt_match), om_where opt_match).
End planner.

(** ** CREATE

    [Creation] is what the loop over the elements carries: the named variables that
    have a node already, the counter of anonymous names, the last node and the
    operators so far. *)
Record Creation := mkCreation {
  cr_seen : scope; cr_anon : N; cr_last : option string; cr_ops : list LogicalOp }.
(** [node.variable] or the next anonymous name. *)
Definition create_alias (variable : option string) (anon_counter : N) : string * N :=
  match variable with
  | Some v => (v, anon_counter)
  | None => let n := (anon_counter + 1)%N in ("__anon_" +:+ pretty n, n)
  end.
(** The node of an element: created unless its variable has been. *)
Definition created_node (node : NodePattern Expr) (s : Creation) : Res Creation :=
  let '(alias, anon) := create_alias (np_variable node) (cr_anon s) in
  let already_seen := bool_decide (is_Some (np_variable node)) && in_scope (cr_seen s) alias in
  let seen := insert_opt (np_variable node) (cr_seen s) in
  if already_seen && negb (bool_decide (np_labels node = [])) then Err (already_bound alias)
  else Ok (mkCreation seen anon (Some alias)
             (if already_seen then cr_ops s
              else cr_ops s ++ [Op.CreateNode (np_labels node) (Some alias) (np_properties node)])).
Fixpoint create_elements (elements : list (PatternElement Expr)) (s : Creation) : Res Creation :=
  match elements with
  | [] => Ok s
  | PNode node :: elements' => s' ← created_node node s; create_elements elements' s'
  | PRelationship rel :: elements' =>
      _ ← require (negb (bool_decide (is_Some (rp_var_length rel))))
            (syntax_error_at "variable-length relationships are not allowed in CREATE"
               ErrorCode.CreatingVarLength);
      match elements' with
      | PNode dst_node :: elements'' =>
          s' ← created_node dst_node s;
          left_ ← ok_or (cr_last s) (GraphError.semantic "edge without source node");
          right_ ← ok_or (cr_last s') (GraphError.semantic "edge target must have a variable");
          let '(src, dst) := if decide (rp_direction rel = RelIncoming) then (right_, left_)
                             else (left_, right_) in
          create_elements elements''
            (mkCreation (cr_seen s') (cr_anon s') (cr_last s')
               (cr_ops s' ++ [Op.CreateEdge src dst (default "" (head (rp_types rel)))
                                (rp_variable rel) (rp_properties rel)]))
      | _ => Err (GraphError.semantic "relationship must be followed by a node")
      end
  end.
(** The operators, and the state for the next pattern. *)
Definition plan_create_pattern_with_counter (pattern : Pattern Expr) (seen : scope) (anon_counter : N)
    : Res (list LogicalOp * scope * N) :=
  s ← create_elements (pt_elements pattern) (mkCreation seen anon_counter None []);
  Ok (cr_ops s, cr_seen s, cr_anon s).
(** Each pattern counts its anonymous nodes from the start. *)
Definition plan_create_pattern (pattern : Pattern Expr) (seen : scope) : Res (list LogicalOp * scope) :=
  r ← plan_create_pattern_with_counter pattern seen 0; Ok (fst r).
