(* ===== verification/Planner.v ===== *)
(** * Plans for statements: src/src/cypher/planner/statement.rs, multi.rs and helpers.rs

    Each kind of statement is checked and turned into operators, clause by clause. *)
From S2P Require Export PlanPattern.
#[local] Open Scope Z_scope.

Section planner.
Context {conn : Type} {O : SqlOps conn} (c : conn).
Context {S : Type} (X : PlanEffects S).
Abbreviation E' := (M S GraphError).
Abbreviation Items := (list (ReturnItem Expr)).
Abbreviation Order := (list (SortItem Expr)).
Implicit Types (op : LogicalOp) (vars : scope).

(** ** Bounds and projections: helpers.rs *)
Definition negative_bound : GraphError :=
  syntax_error_at "SKIP/LIMIT must be a non-negative integer" ErrorCode.NegativeIntegerArgument.
Definition bound_type_error (message : string) : GraphError :=
  GraphError.with_code (GraphError.type_error Runtime message) ErrorCode.InvalidArgumentType.
Definition bound_of_int (n : Z) : Res N := if n <? 0 then Err negative_bound else Ok (Z.to_N n).
Definition eval_skip_limit (e : Expr) : E' N :=
  match expr_kind e with
  | Literal (LiteralValue.I64 n) => lift (bound_of_int n)
  | Literal (LiteralValue.F64 _) =>
      throw (bound_type_error "SKIP/LIMIT does not accept a floating point value")
  | _ =>
      val ← eval_bound X e;
      match val with
      | Value.I64 n => lift (bound_of_int n)
      | Value.F64 _ => throw (bound_type_error "SKIP/LIMIT does not accept a floating point value")
      | Value.Null => throw (bound_type_error "SKIP/LIMIT does not accept NULL")
      | _ => throw (bound_type_error "SKIP/LIMIT must evaluate to an integer")
      end
  end.
Definition add_bound (f : LogicalOp → N → LogicalOp) (o : option Expr) op : E' LogicalOp :=
  match o with Some e => count ← eval_skip_limit e; mret (f op count) | None => mret op end.
(** SKIP, then LIMIT. *)
Definition add_bounds (skip limit : option Expr) op : E' LogicalOp :=
  op ← add_bound Op.Skip skip op; add_bound Op.Limit limit op.
Definition add_distinct (distinct : bool) op : LogicalOp := if distinct then Op.Distinct op else op.
Definition add_sort (items : Order) op : LogicalOp :=
  match items with [] => op | _ => Op.Sort op items end.
Definition has_aggregates (items : Items) : bool := List.existsb (λ i, is_aggregate_fn (ri_expr i)) items.
Definition add_aggregate (items : Items) op : Res LogicalOp :=
  if has_aggregates items
  then s ← split_aggregates items; Ok (Op.Aggregate op s.1 s.2) else Ok op.
Definition add_filter_opt (o : option Expr) op : LogicalOp :=
  match o with Some predicate => Op.Filter op predicate | None => op end.

Definition apply_return_projection op (rc : ReturnClause Expr) (order_by : Order) (skip limit : option Expr)
    : E' LogicalOp :=
  op ← lift (add_aggregate (rc_items rc) op);
  let op := add_sort (resolved_sort (rc_items rc) order_by) op in
  add_bounds skip limit (add_distinct (rc_distinct rc) (Op.Project op (rc_items rc) true)).
Definition apply_tail (t : Tail Expr) op : E' LogicalOp :=
  match tl_return t with
  | Some rc => apply_return_projection op rc (tl_order_by t) (tl_skip t) (tl_limit t)
  | None => mret op
  end.

(** ** Conditions pushed into index lookups: helpers.rs *)
Fixpoint prefix_lookups (candidates : gmap string LookupKey) (properties : list string)
    : Res (list (string * LookupKey)) :=
  match properties with
  | [] => Ok []
  | p :: properties' =>
      match candidates !! p with
      | Some key => l ← prefix_lookups candidates properties'; Ok ((p, key) :: l)
      | None => Panic
      end
  end.
(** The plan with the scan of the alias replaced, and the properties looked up. *)
Definition replace_in (r : Res (option (LogicalOp * list string))) (f : LogicalOp → LogicalOp)
    : Res (option (LogicalOp * list string)) :=
  match r with
  | Ok (Some (op, used)) => Ok (Some (f op, used))
  | _ => r
  end.
Fixpoint try_replace_scan_multi (alias : string) (candidates : gmap string LookupKey) op
    : Res (option (LogicalOp * list string)) :=
  if decide (candidates = ∅) then Ok None else
  match op with
  | Op.Scan label scan_alias =>
      if negb (String.eqb scan_alias alias) || String.eqb label "" then Ok None else
      indexes ← unwrap_or [] (list_indexes_for_label label c);
      match pick_index_for_equality_preds indexes candidates with
      | Some (info, k) =>
          let covered := take k (info_properties info) in
          lookups ← prefix_lookups candidates covered;
          Ok (Some (Op.IndexLookup label alias (info_properties info) lookups None, covered))
      | None => Ok None
      end
  | Op.Filter input existing =>
      replace_in (try_replace_scan_multi alias candidates input) (λ i, Op.Filter i existing)
  | Op.Expand input src dst rel types direction lo hi var_length filters cap =>
      replace_in (try_replace_scan_multi alias candidates input)
        (λ i, Op.Expand i src dst rel types direction lo hi var_length filters cap)
  | Op.CrossProduct left_ right_ same_match =>
      l ← try_replace_scan_multi alias candidates left_;
      match l with
      | Some (new_left, used) => Ok (Some (Op.CrossProduct new_left right_ same_match, used))
      | None =>
          replace_in (try_replace_scan_multi alias candidates right_)
            (λ r, Op.CrossProduct left_ r same_match)
      end
  | _ => Ok None
  end.

(** The equality conditions of a conjunction: for each alias the keys of its
    properties, and the properties that are compared with two different keys. *)
Definition lookup_key_eqb (x y : LookupKey) : bool :=
  match x, y with
  | LookupKey.Literal a, LookupKey.Literal b => literal_eqb a b
  | LookupKey.Param a, LookupKey.Param b => String.eqb a b
  | _, _ => false
  end.
Abbreviation ByAlias := (gmap string (gmap string LookupKey)).
Definition add_candidate (st : ByAlias * gset (string * string)) (conj : Expr)
    : ByAlias * gset (string * string) :=
  match extract_eq_property_predicate conj with
  | Some (alias, prop, key) =>
      let slot := default ∅ (st.1 !! alias) in
      match slot !! prop with
      | Some existing =>
          if lookup_key_eqb existing key then (<[alias := <[prop := key]> slot]> st.1, st.2)
          else (<[alias := slot]> st.1, {[(alias, prop)]} ∪ st.2)
      | None => (<[alias := <[prop := key]> slot]> st.1, st.2)
      end
  | None => st
  end.
Definition index_candidates (conjuncts : list Expr) : ByAlias :=
  let '(by_alias, conflicted) := foldl add_candidate (∅, ∅) conjuncts in
  map_imap (λ alias slot,
    Some (filter (λ p : string * LookupKey, (alias, p.1) ∉ conflicted) slot)) by_alias.
(** Aliases in order. *)
Definition string_cmp (a b : string) : comparison := bytes_cmp (str_bytes a) (str_bytes b).
Fixpoint push_candidates (candidates : list (string * gmap string LookupKey)) op
    (consumed : gset (string * string)) : Res (LogicalOp * gset (string * string)) :=
  match candidates with
  | [] => Ok (op, consumed)
  | (alias, slot) :: candidates' =>
      r ← try_replace_scan_multi alias slot op;
      match r with
      | Some (new_op, props) =>
          push_candidates candidates' new_op
            (list_to_set ((λ p, (alias, p)) <$> props) ∪ consumed)
      | None => push_candidates candidates' op consumed
      end
  end.
Definition is_consumed (consumed : gset (string * string)) (conj : Expr) : bool :=
  match extract_eq_property_predicate conj with
  | Some (alias, prop, _) => bool_decide ((alias, prop) ∈ consumed)
  | None => false
  end.
Definition push_where (predicate : Expr) op : Res LogicalOp :=
  let conjuncts := decompose_conjuncts predicate in
  let candidates := sort_by (λ a b : string * gmap string LookupKey, string_cmp a.1 b.1)
                      (map_to_list (index_candidates conjuncts)) in
  pushed ← push_candidates candidates op ∅;
  Ok (add_filter_opt
        (rebuild_conjunction (List.filter (λ conj, negb (is_consumed pushed.2 conj)) conjuncts))
        pushed.1).

(** ** WITH: multi.rs *)
Fixpoint substitute_aliases (aliases : gmap string Expr) (e : Expr) : Expr :=
  match expr_kind e with
  | Variable_ name => default e (aliases !! name)
  | BinaryOp l op r =>
      synthetic (BinaryOp (substitute_aliases aliases l) op (substitute_aliases aliases r))
  | Not x => synthetic (Not (substitute_aliases aliases x))
  | IsNull x => synthetic (IsNull (substitute_aliases aliases x))
  | IsNotNull x => synthetic (IsNotNull (substitute_aliases aliases x))
  | FunctionCall name args distinct original_text =>
      synthetic (FunctionCall name (List.map (substitute_aliases aliases) args) distinct original_text)
  | _ => e
  end.
Definition needs_no_alias (e : Expr) : bool :=
  match expr_kind e with Variable_ _ | Star | Property _ _ => true | _ => false end.
(** Later items win, as in a [HashMap] collected from them. *)
Definition alias_map (items : Items) : gmap string Expr :=
  foldl (λ acc i, match ri_alias i with Some a => <[a := ri_expr i]> acc | None => acc end) ∅ items.

Definition projected_aggregates (items : Items) : scope :=
  foldl (λ acc i,
    if is_aggregate_fn (ri_expr i)
    then insert_opt (ri_alias i) ({[expr_to_column_name (ri_expr i)]} ∪ acc) else acc) ∅ items.
Definition check_projected_aggregates (items : Items) (order_by : Order) : Res unit :=
  for_each_r (λ sort_item,
    for_each_r (λ agg_expr,
      require (in_scope (projected_aggregates items) (expr_to_column_name agg_expr))
        (syntax_error_at "ORDER BY contains an aggregation that is not projected in WITH"
           ErrorCode.UndefinedVariable))
      (collect_aggregate_calls (si_expr sort_item))) order_by.
(** Aggregation, and the sorting of its rows. *)
Definition with_aggregates (items : Items) (order_by : Order) op : Res LogicalOp :=
  s ← split_aggregates items;
  let op := Op.Aggregate op s.1 s.2 in
  match order_by with
  | [] => Ok op
  | _ =>
      _ ← validate_agg_order_by_scope items order_by;
      _ ← check_projected_aggregates items order_by;
      Ok (Op.Sort op order_by)
  end.
Definition with_order (input_scope : option scope) (items : Items) (order_by : Order) op
    : Res LogicalOp :=
  match order_by with
  | [] => Ok op
  | _ =>
      _ ← validate_no_aggregation_in_order_by order_by;
      _ ← check_opt (λ vars, validate_with_order_by_scope_input vars items order_by) input_scope;
      Ok (Op.Sort op (resolved_sort items order_by))
  end.
Definition plan_with_scoped op (w : WithClause Expr) (input_scope : option scope) : E' LogicalOp :=
  let items := wc_items w in
  let project op := Op.Project op items false in
  let aggregated := has_aggregates items in
  _ ← lift (check_duplicate_columns items);
  _ ← lift (for_each_r (λ i : ReturnItem Expr,
              require (bool_decide (is_Some (ri_alias i)) || needs_no_alias (ri_expr i))
                (syntax_error_at "expression in WITH must be aliased (use AS)"
                   ErrorCode.NoExpressionAlias)) items);
  op ← lift (if aggregated then with_aggregates items (wc_order_by w) op else Ok op);
  op ← lift (match wc_where w with
             | Some predicate =>
                 Ok (if aggregated then Op.Filter (project op) predicate
                     else project (Op.Filter op (substitute_aliases (alias_map items) predicate)))
             | None =>
                 op ← (if aggregated then Ok op else with_order input_scope items (wc_order_by w) op);
                 Ok (project op)
             end);
  add_bounds (wc_skip w) (wc_limit w) (add_distinct (wc_distinct w) op).
Definition plan_with op (w : WithClause Expr) : E' LogicalOp := plan_with_scoped op w None.

(** ** OPTIONAL MATCH, and MATCH after other clauses *)
Fixpoint join_optional op (optional : list (OptionalMatch Expr)) (bound_vars : scope)
    : E' (LogicalOp * scope) :=
  match optional with
  | [] => mret (op, bound_vars)
  | opt_match :: optional' =>
      planned ← plan_optional_match c X opt_match bound_vars;
      let '(right_, new_aliases, opt_filter) := planned in
      join_optional (Op.LeftOuterJoin op right_ new_aliases opt_filter) optional'
        (bound_vars ∪ list_to_set new_aliases)
  end.
Definition already_defined (path_var : string) : GraphError :=
  syntax_error_at ("variable `" +:+ path_var +:+ "` already defined") ErrorCode.VariableAlreadyBound.
Definition plan_intermediate_match_with_scope op (im : IntermediateMatch Expr) (upstream_vars : scope)
    : E' LogicalOp :=
  _ ← lift (for_each_r (λ p : Pattern Expr,
              check_opt (λ v, require (negb (in_scope upstream_vars v)) (already_defined v))
                (pt_path_variable p)) (im_patterns im));
  op ← (match im_patterns im with
        | [] => mret op
        | _ => right_ ← plan_patterns c X (im_patterns im); mret (Op.CorrelatedJoin op right_ false)
        end);
  joined ← join_optional op (im_optional im)
             (upstream_vars ∪ collect_pattern_variables (im_patterns im));
  mret (add_filter_opt (im_where im) joined.1).
Definition optional_variables (optional : list (OptionalMatch Expr)) (vars : scope) : scope :=
  foldl (λ acc opt, acc ∪ collect_pattern_variables (om_patterns opt)) vars optional.

(** ** MATCH: statement.rs *)
Definition scalar_conflict (var : string) : GraphError :=
  syntax_error_at ("variable `" +:+ var +:+ "` already defined as a scalar value")
    ErrorCode.VariableTypeConflict.
Definition check_not_scalar (kinds : WithKinds) (o : option string) : Res unit :=
  check_opt (λ var, require (negb (bool_decide (kinds !! var = Some WkScalar))) (scalar_conflict var)) o.
(** In a MATCH statement a relationship of variable length may name a list. *)
Definition check_scalar_element (skip_var_length : bool) (kinds : WithKinds) (el : PatternElement Expr)
    : Res unit :=
  match el with
  | PNode n => check_not_scalar kinds (np_variable n)
  | PRelationship r =>
      if skip_var_length && bool_decide (is_Some (rp_var_length r)) then Ok ()
      else check_not_scalar kinds (rp_variable r)
  end.

Definition where_is_entity (types : VarTypes) (predicate : Expr) : bool :=
  match variable_of predicate with
  | Some var => match types !! var with Some VkNode | Some VkRelationship => true | _ => false end
  | None => false
  end.
Definition check_where (predicate : Expr) vars (types : VarTypes) (subquery : bool) : Res unit :=
  _ ← require (negb (is_aggregate_fn predicate))
        (syntax_error_at "aggregation functions are not allowed in WHERE" ErrorCode.InvalidAggregation);
  _ ← require (negb (where_is_entity types predicate))
        (semantic_type_error "a single node pattern is not a valid predicate" ErrorCode.InvalidArgumentType);
  _ ← check_expr_variables predicate vars;
  _ ← validate_expr_types types predicate;
  if subquery then Ok () else validate_pattern_predicate_vars vars predicate.

(** The name under which an item of WITH goes on. *)
Definition with_item_name (i : ReturnItem Expr) : option string :=
  match ri_alias i with Some a => Some a | None => variable_of (ri_expr i) end.
Definition with_item_kind (kinds : WithKinds) (name : string) (i : ReturnItem Expr) : WithKinds :=
  <[name := infer_with_value_kind (ri_expr i)]> kinds.
Definition match_with_item (bound_vars : scope) (st : scope * WithKinds) (i : ReturnItem Expr)
    : scope * WithKinds :=
  if is_star (ri_expr i) then (bound_vars, st.2) else
  match with_item_name i with
  | Some name => ({[name]} ∪ st.1, with_item_kind st.2 name i)
  | None => st
  end.

Record MatchState := mkMatchState {
  m_op : LogicalOp; m_scope : scope; m_types : VarTypes; m_kinds : WithKinds }.
Definition match_clause (bound_vars : scope) (st : MatchState) (clause : IntermediateClause Expr)
    : E' MatchState :=
  match clause with
  | IntermediateClause.With w =>
      _ ← lift (for_each_r (λ i, reject_pattern_predicates (ri_expr i)) (wc_items w));
      op ← plan_with_scoped (m_op st) w (Some (m_scope st));
      let '(vars, kinds) := foldl (match_with_item bound_vars) (∅, ∅) (wc_items w) in
      mret (mkMatchState op vars ∅ kinds)
  | IntermediateClause.Unwind u =>
      mret (mkMatchState (Op.Unwind (m_op st) (uc_expr u) (uc_alias u)) ({[uc_alias u]} ∪ m_scope st)
              (m_types st) (m_kinds st))
  | IntermediateClause.Match im =>
      _ ← lift (for_each_r (λ p : Pattern Expr,
                  for_each_r (check_scalar_element true (m_kinds st)) (pt_elements p)) (im_patterns im));
      types ← lift (validate_variable_types_with_map (im_patterns im) (m_types st));
      _ ← lift (check_opt (validate_expr_types types) (im_where im));
      op ← plan_intermediate_match_with_scope (m_op st) im (m_scope st);
      mret (mkMatchState op
              (optional_variables (im_optional im) (m_scope st ∪ collect_pattern_variables (im_patterns im)))
              types (m_kinds st))
  end.
(** RETURN, with its checks. *)
Definition check_return (items : Items) vars : Res unit :=
  _ ← validate_return_variables items vars;
  _ ← for_each_r (λ i, reject_pattern_predicates (ri_expr i)) items;
  for_each_r (λ i, validate_no_aggregation_in_list_comp (ri_expr i)) items.
Definition match_order (rc : ReturnClause Expr) (order_by : Order) op : Res LogicalOp :=
  match order_by with
  | [] => Ok op
  | _ =>
      _ ← (if has_aggregates (rc_items rc)
           then validate_return_order_by_with_aggregates (rc_items rc) order_by
           else validate_no_aggregation_in_order_by order_by);
      _ ← validate_distinct_order_by (rc_items rc) order_by (rc_distinct rc);
      Ok (Op.Sort op (resolved_sort (rc_items rc) order_by))
  end.
Definition plan_match (stmt : MatchStatement Expr) (subquery : bool) : E' LogicalOp :=
  let rc := ms_return stmt in
  types ← lift (validate_variable_types (ms_patterns stmt));
  _ ← lift (for_each_r (λ i, validate_expr_types types (ri_expr i)) (rc_items rc));
  op ← (match ms_patterns stmt with [] => mret Op.SingleRow | ps => plan_patterns c X ps end);
  joined ← join_optional op (ms_optional stmt) (collect_pattern_variables (ms_patterns stmt));
  let '(op, bound_vars) := joined in
  _ ← lift (check_opt (λ p, check_where p bound_vars types subquery) (ms_where stmt));
  op ← lift (match ms_where stmt with Some predicate => push_where predicate op | None => Ok op end);
  st ← fold_m (match_clause bound_vars) (mkMatchState op bound_vars types ∅) (ms_intermediate stmt);
  _ ← lift (check_return (rc_items rc) (m_scope st));
  op ← lift (add_aggregate (rc_items rc) (m_op st));
  op ← lift (match_order rc (ms_order_by stmt) op);
  add_bounds (ms_skip stmt) (ms_limit stmt) (add_distinct (rc_distinct rc) (Op.Project op (rc_items rc) true)).

Definition plan_return (stmt : ReturnStatement Expr) : E' LogicalOp :=
  let rc := rs_return stmt in
  _ ← lift (check_duplicate_columns (rc_items rc));
  _ ← lift (validate_return_variables (rc_items rc) ∅);
  _ ← lift (for_each_r (λ i, validate_expr_types ∅ (ri_expr i)) (rc_items rc));
  _ ← lift (for_each_r (λ i, validate_no_aggregation_in_list_comp (ri_expr i)) (rc_items rc));
  op ← lift (add_aggregate (rc_items rc) Op.SingleRow);
  let op := Op.Project (add_sort (rs_order_by stmt) op) (rc_items rc) true in
  add_bounds (rs_skip stmt) (rs_limit stmt) (add_distinct (rc_distinct rc) op).

(** ** Updating statements *)
Definition create_ops (patterns : list (Pattern Expr)) (seen : scope) : Res (list LogicalOp * scope) :=
  fold_r (λ acc p, r ← plan_create_pattern p acc.2; Ok (acc.1 ++ r.1, r.2)) ([], seen) patterns.
Definition creation_plan (ops : list LogicalOp) : LogicalOp :=
  match ops with [op] => op | _ => Op.CreateSequence ops end.
Definition plan_create (stmt : CreateStatement Expr) : E' LogicalOp :=
  _ ← lift (validate_create_patterns (cs_patterns stmt) ∅);
  ops ← lift (create_ops (cs_patterns stmt) ∅);
  apply_tail (cs_tail stmt) (creation_plan ops.1).

Definition plan_match_create (stmt : MatchCreateStatement Expr) : E' LogicalOp :=
  _ ← lift (validate_create_patterns (mcs_create stmt) (collect_pattern_variables (mcs_patterns stmt)));
  op ← plan_patterns c X (mcs_patterns stmt);
  let op := add_filter_opt (mcs_where stmt) op in
  ops ← lift (create_ops (mcs_create stmt) ∅);
  apply_tail (mcs_tail stmt) (Op.MatchCreate op ops.1).

Definition plan_delete (stmt : DeleteStatement Expr) : E' LogicalOp :=
  let match_vars := collect_pattern_variables (ds_patterns stmt) in
  _ ← lift (validate_delete_exprs (ds_exprs stmt) (optional_variables (ds_optional stmt) match_vars));
  op ← plan_patterns c X (ds_patterns stmt);
  joined ← join_optional op (ds_optional stmt) match_vars;
  apply_tail (ds_tail stmt)
    (Op.Delete (add_filter_opt (ds_where stmt) joined.1) (ds_exprs stmt) (ds_detach stmt)).

Definition set_item_op op (item : SetItem Expr) : LogicalOp :=
  match item with
  | SetItem.Property a => Op.SetProperty op [a]
  | SetItem.Label variable labels => Op.SetLabel op variable labels
  | SetItem.MapOverwrite variable v => Op.SetProperties op variable v false
  | SetItem.MapMerge variable v => Op.SetProperties op variable v true
  end.
Definition set_clause (st : LogicalOp * scope) (clause : IntermediateClause Expr) : E' (LogicalOp * scope) :=
  match clause with
  | IntermediateClause.With w => op ← plan_with st.1 w; mret (op, st.2)
  | IntermediateClause.Match im =>
      op ← plan_intermediate_match_with_scope st.1 im st.2;
      mret (op, st.2 ∪ collect_pattern_variables (im_patterns im))
  | IntermediateClause.Unwind u => mret (Op.Unwind st.1 (uc_expr u) (uc_alias u), st.2)
  end.
Definition plan_set (stmt : SetStatement Expr) : E' LogicalOp :=
  let match_vars := collect_pattern_variables (ss_patterns stmt) in
  _ ← lift (validate_set_variables (ss_items stmt) (optional_variables (ss_optional stmt) match_vars));
  op ← (match ss_patterns stmt with [] => mret Op.SingleRow | ps => plan_patterns c X ps end);
  joined ← join_optional op (ss_optional stmt) match_vars;
  let op := foldl set_item_op (add_filter_opt (ss_where stmt) joined.1) (ss_items stmt) in
  st ← fold_m set_clause (op, joined.2) (ss_intermediate stmt);
  apply_tail (ss_tail stmt) st.1.

Definition plan_remove (stmt : RemoveStatement Expr) : E' LogicalOp :=
  op ← plan_patterns c X (rms_patterns stmt);
  joined ← join_optional op (rms_optional stmt) (collect_pattern_variables (rms_patterns stmt));
  apply_tail (rms_tail stmt) (Op.Remove (add_filter_opt (rms_where stmt) joined.1) (rms_items stmt)).

Definition merge_var_length : GraphError :=
  syntax_error_at "variable-length relationships are not allowed in MERGE" ErrorCode.CreatingVarLength.
Definition check_merge_shape (pattern : Pattern Expr) : Res unit :=
  match pt_elements pattern with
  | [PNode _] => Ok ()
  | [_] => Err (GraphError.semantic "MERGE pattern must start with a node")
  | [PNode _; PRelationship rel; PNode _] =>
      require (negb (bool_decide (is_Some (rp_var_length rel)))) merge_var_length
  | [_; _; _] => Err (GraphError.semantic "MERGE relationship pattern must be (node)-[rel]->(node)")
  | _ => Err (GraphError.semantic "MERGE only supports single node or (node)-[rel]->(node) patterns")
  end.
Definition plan_merge (stmt : MergeStatement Expr) : E' LogicalOp :=
  _ ← lift (validate_merge_pattern (mgs_pattern stmt) ∅ (mgs_on_create stmt) (mgs_on_match stmt));
  _ ← lift (check_merge_shape (mgs_pattern stmt));
  apply_tail (mgs_tail stmt) (Op.Merge (mgs_pattern stmt) (mgs_on_create stmt) (mgs_on_match stmt)).
Definition plan_match_merge (stmt : MatchMergeStatement Expr) : E' LogicalOp :=
  let match_vars := collect_pattern_variables (mms_patterns stmt) in
  _ ← lift (validate_merge_pattern (mms_pattern stmt) match_vars (mms_on_create stmt) (mms_on_match stmt));
  _ ← lift (validate_merge_variable_rebinding (mms_pattern stmt) match_vars);
  op ← plan_patterns c X (mms_patterns stmt);
  apply_tail (mms_tail stmt)
    (Op.MatchMerge (add_filter_opt (mms_where stmt) op) (mms_pattern stmt) (mms_on_create stmt)
       (mms_on_match stmt)).

(** ** UNWIND *)
Definition unwind_clause (st : LogicalOp * scope) (clause : IntermediateClause Expr)
    : E' (LogicalOp * scope) :=
  match clause with
  | IntermediateClause.With w =>
      op ← plan_with st.1 w;
      mret (op, foldl (λ acc i, insert_opt (with_item_name i) acc) ∅ (wc_items w))
  | IntermediateClause.Unwind u =>
      mret (Op.Unwind st.1 (uc_expr u) (uc_alias u), {[uc_alias u]} ∪ st.2)
  | IntermediateClause.Match im =>
      op ← plan_intermediate_match_with_scope st.1 im st.2;
      mret (op, optional_variables (im_optional im) (st.2 ∪ collect_pattern_variables (im_patterns im)))
  end.
Definition plan_unwind (stmt : UnwindStatement Expr) : E' LogicalOp :=
  let op := Op.Unwind Op.EmptyRow (us_expr stmt) (us_alias stmt) in
  match us_body stmt with
  | UnwindBody.Return where_clause intermediate_clauses rc order_by skip limit =>
      st ← fold_m unwind_clause (add_filter_opt where_clause op, {[us_alias stmt]}) intermediate_clauses;
      op ← lift (add_aggregate (rc_items rc) st.1);
      add_bounds skip limit
        (add_sort order_by (add_distinct (rc_distinct rc) (Op.Project op (rc_items rc) true)))
  | UnwindBody.Create patterns intermediate_clauses tail =>
      ops ← lift (create_ops patterns ∅);
      st ← fold_m unwind_clause (Op.MatchCreate op ops.1, {[us_alias stmt]}) intermediate_clauses;
      apply_tail tail st.1
  end.
End planner.
