(* ===== verification/PlanClauses.v ===== *)
(** * Whole plans: rewriting them, chains of clauses, CALL, and the entry points *)
From stdpp Require Import pretty.
From S2P Require Export Planner.
#[local] Open Scope Z_scope.

(** * Rewriting plans: src/src/cypher/planner/mod.rs

    The passes over a finished plan: a limit is pushed into an expansion of variable
    length, a condition on the id of a node becomes a lookup, and conditions on texts
    become lookups in a full-text index. *)

(** [f] on the inputs of an operator; what MATCH .. CREATE creates is left alone. *)
Definition walk_children (f : LogicalOp → LogicalOp) (op : LogicalOp) : LogicalOp :=
  match op with
  | Op.Expand i src dst rel types direction lo hi var_length filters cap =>
      Op.Expand (f i) src dst rel types direction lo hi var_length filters cap
  | Op.Filter i predicate => Op.Filter (f i) predicate
  | Op.Project i items emit_compound => Op.Project (f i) items emit_compound
  | Op.Aggregate i group_keys aggregates => Op.Aggregate (f i) group_keys aggregates
  | Op.Sort i items => Op.Sort (f i) items
  | Op.Distinct i => Op.Distinct (f i)
  | Op.Skip i count => Op.Skip (f i) count
  | Op.Limit i count => Op.Limit (f i) count
  | Op.MatchCreate i ops => Op.MatchCreate (f i) ops
  | Op.Delete i exprs detach => Op.Delete (f i) exprs detach
  | Op.SetProperty i assignments => Op.SetProperty (f i) assignments
  | Op.SetLabel i variable labels => Op.SetLabel (f i) variable labels
  | Op.SetProperties i variable v merge => Op.SetProperties (f i) variable v merge
  | Op.Remove i items => Op.Remove (f i) items
  | Op.MatchMerge i pattern on_create on_match => Op.MatchMerge (f i) pattern on_create on_match
  | Op.MaterializePath i alias nodes rels => Op.MaterializePath (f i) alias nodes rels
  | Op.Unwind i e alias => Op.Unwind (f i) e alias
  | Op.Call i name args yield_items yield_star => Op.Call (f i) name args yield_items yield_star
  | Op.ShortestPath i src dst alias type direction hops all =>
      Op.ShortestPath (f i) src dst alias type direction hops all
  | Op.CrossProduct l r same_match => Op.CrossProduct (f l) (f r) same_match
  | Op.CorrelatedJoin i r same_match => Op.CorrelatedJoin (f i) (f r) same_match
  | Op.LeftOuterJoin i r aliases opt_filter => Op.LeftOuterJoin (f i) (f r) aliases opt_filter
  | Op.Union inputs all => Op.Union (List.map f inputs) all
  | Op.CreateSequence ops => Op.CreateSequence (List.map f ops)
  | Op.SingleRow | Op.Scan _ _ | Op.IndexLookup _ _ _ _ _ | Op.IdLookup _ _
  | Op.FullTextLookup _ _ _ _ _ _ | Op.CreateNode _ _ _ | Op.CreateEdge _ _ _ _ _ | Op.Merge _ _ _
  | Op.CreateIndex _ _ | Op.DropIndex _ _ | Op.EmptyRow => op
  end.

(** A pass that rewrites the inputs of an operator first, then the operator: on a plan
    of [fuel] operators or fewer. *)
Fixpoint bottom_up (rewrite : LogicalOp → LogicalOp) (fuel : nat) (op : LogicalOp) : LogicalOp :=
  match fuel with
  | 0%nat => op
  | S fuel' => rewrite (walk_children (bottom_up rewrite fuel') op)
  end.

(** ** A limit above an expansion of variable length *)
Definition tighter (cap : option N) (count : N) : option N :=
  Some (match cap with Some existing => N.min existing count | None => count end).
(** [find_pushdown_target] and the assignment to its cap. *)
Fixpoint cap_target (count : N) (op : LogicalOp) : LogicalOp :=
  match op with
  | Op.Project i items emit_compound => Op.Project (cap_target count i) items emit_compound
  | Op.Expand i src dst rel types direction lo hi var_length filters cap =>
      Op.Expand i src dst rel types direction lo hi var_length filters
        (if var_length : bool then tighter cap count else cap)
  | _ => op
  end.
Definition cap_input (op : LogicalOp) : LogicalOp :=
  match op with Op.Limit i count => Op.Limit (cap_target count i) count | _ => op end.
(** The operator first, then its inputs as they are after that: on a plan of [fuel]
    operators or fewer. *)
Fixpoint push_limit (fuel : nat) (op : LogicalOp) : LogicalOp :=
  match fuel with
  | 0%nat => op
  | S fuel' => walk_children (push_limit fuel') (cap_input op)
  end.
Definition push_limit_into_var_length_expand (op : LogicalOp) : LogicalOp := push_limit (op_size op) op.

(** ** Conditions on the id of a node *)
Definition matches_id_of_alias (alias : string) (e : Expr) : bool :=
  match expr_kind e with
  | FunctionCall name [a] _ _ =>
      eq_ignore_ascii_case name "id" && bool_decide (variable_of a = Some alias)
  | _ => false
  end.
Definition extract_id_eq_alias (predicate : Expr) (alias : string) : option Expr :=
  match expr_kind predicate with
  | BinaryOp l BinOp.Eq r =>
      if matches_id_of_alias alias l then Some r
      else if matches_id_of_alias alias r then Some l else None
  | _ => None
  end.
(** This search also looks into CASE and lists. *)
Fixpoint references_var (name : string) (e : Expr) : bool :=
  let opt (o : option Expr) := match o with Some e => references_var name e | None => false end in
  match expr_kind e with
  | Variable_ v | Property v _ => String.eqb v name
  | BinaryOp l _ r => references_var name l || references_var name r
  | Not x | IsNull x | IsNotNull x => references_var name x
  | FunctionCall _ args _ _ => List.existsb (references_var name) args
  | Case operand alternatives default_ =>
      opt operand
      || List.existsb (λ a : Expr * Expr, let (c, r) := a in references_var name c || references_var name r)
           alternatives
      || opt default_
  | ListLit items => List.existsb (references_var name) items
  | _ => false
  end.
Definition id_lookup_value (predicate : Expr) (alias : string) : option Expr :=
  match extract_id_eq_alias predicate alias with
  | Some value_expr => if references_var alias value_expr then None else Some value_expr
  | None => None
  end.
Definition id_lookup_of (op : LogicalOp) : LogicalOp :=
  match op with
  | Op.Filter (Op.Scan label alias) predicate =>
      if String.eqb label "" then
        match id_lookup_value predicate alias with
        | Some value_expr => Op.IdLookup alias value_expr
        | None => op
        end
      else op
  | Op.Filter (Op.CorrelatedJoin input (Op.Scan label alias) same_match) predicate =>
      if String.eqb label "" then
        match id_lookup_value predicate alias with
        | Some value_expr => Op.CorrelatedJoin input (Op.IdLookup alias value_expr) same_match
        | None => op
        end
      else op
  | _ => op
  end.
Definition rewrite_id_filter_to_lookup (op : LogicalOp) : LogicalOp :=
  bottom_up id_lookup_of (op_size op) op.

(** ** Conditions on texts *)
Record MatchedFts := mkMatchedFts {
  mf_property : string; mf_op : FullTextOp; mf_term : Expr; mf_needs_ci : bool }.
Definition fts_op_of (op : BinOp) : option FullTextOp :=
  match op with
  | BinOp.Contains => Some FtContains
  | BinOp.StartsWith => Some FtStartsWith
  | BinOp.EndsWith => Some FtEndsWith
  | _ => None
  end.
Definition property_on (alias : string) (e : Expr) : option string :=
  match expr_kind e with
  | Property var prop => if String.eqb var alias then Some prop else None
  | _ => None
  end.
Definition unwrap_tolower (e : Expr) : option Expr :=
  match expr_kind e with
  | FunctionCall name [a] _ _ => if eq_ignore_ascii_case name "toLower" then Some a else None
  | _ => None
  end.
Definition unwrap_tolower_of_property (e : Expr) (alias : string) : option string :=
  unwrap_tolower e ≫= property_on alias.
Definition match_fts_binop (e : Expr) (alias : string) : option MatchedFts :=
  match expr_kind e with
  | BinaryOp l op r =>
      fts_op ← fts_op_of op;
      match unwrap_tolower_of_property l alias, unwrap_tolower r with
      | Some prop, Some inner => Some (mkMatchedFts prop fts_op inner true)
      | _, _ => prop ← property_on alias l; Some (mkMatchedFts prop fts_op r false)
      end
  | _ => None
  end.
(** [flatten_top_level_and], [flatten_top_level_or] and [rebuild_and]. *)
Definition flatten_top_level_and : Expr → list Expr := decompose_conjuncts.
Fixpoint flatten_top_level_or (e : Expr) : list Expr :=
  match expr_kind e with
  | BinaryOp l BinOp.Or r => flatten_top_level_or l ++ flatten_top_level_or r
  | _ => [e]
  end.
Definition rebuild_and : list Expr → option Expr := conjunction.
(** The first condition that can be looked up, and the conjunction of the others. *)
Fixpoint extract_from (alias : string) (before after : list Expr) : option (MatchedFts * option Expr) :=
  match after with
  | [] => None
  | e :: after' =>
      match match_fts_binop e alias with
      | Some m => Some (m, rebuild_and (before ++ after'))
      | None => extract_from alias (before ++ [e]) after'
      end
  end.
Definition extract_fts_predicate (predicate : Expr) (alias : string) : option (MatchedFts * option Expr) :=
  extract_from alias [] (flatten_top_level_and predicate).

Section fulltext.
Context {conn : Type} {O : SqlOps conn} (c : conn).

Inductive FtsKind := CaseSensitive | CaseInsensitive.
(** An error of the lookup counts as no index; it cannot panic. *)
Definition fts_kind_for (label property : string) : option FtsKind :=
  match fts_tokenizer_kind label property c with
  | Ok TrigramCaseSensitive => Some CaseSensitive
  | Ok TrigramCaseInsensitive => Some CaseInsensitive
  | _ => None
  end.
Definition fts_rewrite_is_usable (label property : string) (needs_ci : bool) : bool :=
  match fts_kind_for label property with
  | Some CaseInsensitive => true
  | Some CaseSensitive => negb needs_ci
  | None => false
  end.
Definition usable_match (label : string) (m : MatchedFts) : bool :=
  fts_rewrite_is_usable label (mf_property m) (mf_needs_ci m).
Definition fulltext_op (label alias : string) (m : MatchedFts) (residual : option Expr) : LogicalOp :=
  Op.FullTextLookup label alias (mf_property m) (mf_op m) (mf_term m) residual.

(** The lookup for a conjunction, if its index can be used. *)
Definition conjunct_lookup (label alias : string) (predicate : Expr) : option LogicalOp :=
  '(m, residual) ← extract_fts_predicate predicate alias;
  if usable_match label m then Some (fulltext_op label alias m residual) else None.
Definition or_lookup (label alias : string) (d : Expr) : option LogicalOp :=
  m ← match_fts_binop d alias;
  if usable_match label m then Some (fulltext_op label alias m None) else None.
Definition try_rewrite_or_chain_to_union (label alias : string) (predicate : Expr) : option LogicalOp :=
  match flatten_top_level_or predicate with
  | (_ :: _ :: _) as disjuncts => (λ l, Op.Union l false) <$> mapM (or_lookup label alias) disjuncts
  | _ => None
  end.
Definition fulltext_of (op : LogicalOp) : LogicalOp :=
  match op with
  | Op.Filter (Op.Scan label alias) predicate =>
      if String.eqb label "" then op else
      match conjunct_lookup label alias predicate with
      | Some lookup => lookup
      | None => default op (try_rewrite_or_chain_to_union label alias predicate)
      end
  | Op.Filter (Op.CorrelatedJoin input (Op.Scan label alias) same_match) predicate =>
      if String.eqb label "" then op else
      match conjunct_lookup label alias predicate with
      | Some lookup => Op.CorrelatedJoin input lookup same_match
      | None => op
      end
  | _ => op
  end.
Definition rewrite_text_filter_to_fts (op : LogicalOp) : LogicalOp :=
  bottom_up fulltext_of (op_size op) op.

Definition apply_post_passes (op : LogicalOp) : LogicalOp :=
  rewrite_text_filter_to_fts (rewrite_id_filter_to_lookup (push_limit_into_var_length_expand op)).
End fulltext.

(** * Plans for chains of clauses and for CALL: src/src/cypher/planner/multi.rs,
    statement.rs and mod.rs

    The planner of statements made of any clauses in any order, the planner of CALL,
    and the entry points, which rewrite the plan at the end. *)

Section planner.
Context {conn : Type} {O : SqlOps conn} (c : conn).
Context {S : Type} (X : PlanEffects S).
Abbreviation E' := (M S GraphError).
Implicit Types (op : LogicalOp) (vars : scope).

(** ** Chains of clauses

    The plan so far, what CREATE has made, and the names in scope. *)
Record Chain := mkChain {
  ch_op : option LogicalOp; ch_created : scope; ch_anon : N; ch_scope : scope;
  ch_types : VarTypes; ch_kinds : WithKinds }.
Definition no_clauses : Chain := mkChain None ∅ 0 ∅ ∅ ∅.
Definition chain_step (op : LogicalOp) (vars : scope) (st : Chain) : Chain :=
  mkChain (Some op) (ch_created st) (ch_anon st) vars (ch_types st) (ch_kinds st).

Definition check_match_names (kinds : WithKinds) (pat : Pattern Expr) : Res unit :=
  check_opt (λ v, require (negb (bool_decide (is_Some (kinds !! v)))) (already_bound v))
    (pt_path_variable pat) ≫= λ _,
  for_each_r (check_scalar_element false kinds) (pt_elements pat).
Definition chain_match (patterns : list (Pattern Expr)) (optional : list (OptionalMatch Expr))
    (where_clause : option Expr) (st : Chain) : E' Chain :=
  _ ← lift (for_each_r (check_match_names (ch_kinds st)) patterns);
  types ← lift (validate_variable_types_with_map patterns (ch_types st));
  match_op ← plan_patterns c X patterns;
  let '(base, bound_vars) :=
    match ch_op st with
    | Some input =>
        (match patterns with [] => input | _ => Op.CorrelatedJoin input match_op false end,
         collect_pattern_variables patterns ∪ ch_scope st)
    | None => (match_op, collect_pattern_variables patterns)
    end in
  joined ← join_optional c X base optional bound_vars;
  mret (mkChain (Some (add_filter_opt where_clause joined.1)) (ch_created st) (ch_anon st)
          (optional_variables optional (ch_scope st ∪ collect_pattern_variables patterns))
          types (ch_kinds st)).

Definition check_creation (vars created : scope) (pattern : Pattern Expr) : Res unit :=
  let fresh := check_opt (λ v, require (negb (in_scope vars v || in_scope created v)) (already_bound v)) in
  match pt_elements pattern with
  | [PNode n] => fresh (np_variable n)
  | _ => Ok ()
  end ≫= λ _,
  for_each_r (λ el, match el with PRelationship r => fresh (rp_variable r) | PNode _ => Ok () end)
    (pt_elements pattern).
Definition chain_create (patterns : list (Pattern Expr)) (st : Chain) : E' Chain :=
  _ ← lift (validate_create_patterns patterns (ch_scope st));
  _ ← lift (for_each_r (check_creation (ch_scope st) (ch_created st)) patterns);
  created ← lift (fold_r (λ acc p,
    r ← plan_create_pattern_with_counter p acc.1.2 acc.2; Ok (acc.1.1 ++ r.1.1, r.1.2, r.2))
    ([], ch_created st, ch_anon st) patterns);
  let '(ops, seen, anon) := created in
  let op := match ch_op st with
            | Some input => Op.MatchCreate input ops
            | None => creation_plan ops
            end in
  mret (mkChain (Some op) seen anon (ch_scope st ∪ collect_pattern_variables patterns) (ch_types st)
          (ch_kinds st)).

Definition check_no_var_length (el : PatternElement Expr) : Res unit :=
  match el with
  | PRelationship rel => require (negb (bool_decide (is_Some (rp_var_length rel)))) merge_var_length
  | PNode _ => Ok ()
  end.
Definition chain_merge (pattern : Pattern Expr) (on_create on_match : list (SetItem Expr)) (st : Chain)
    : E' Chain :=
  _ ← lift (validate_merge_pattern pattern (ch_scope st) on_create on_match);
  _ ← lift (validate_merge_variable_rebinding pattern (ch_scope st));
  _ ← lift (for_each_r check_no_var_length (pt_elements pattern));
  let op := match ch_op st with
            | Some input => Op.MatchMerge input pattern on_create on_match
            | None => Op.Merge pattern on_create on_match
            end in
  mret (chain_step op (ch_scope st ∪ collect_pattern_variables [pattern]) st).

(** ORDER BY of a WITH may name what is in scope and what the WITH projects. *)
Definition with_order_scope (vars : scope) (items : list (ReturnItem Expr)) : scope :=
  foldl (λ acc i, {[expr_to_column_name (ri_expr i)]} ∪ insert_opt (ri_alias i) acc) vars items.
Definition check_with_order (vars : scope) (w : WithClause Expr) : Res unit :=
  if bool_decide (vars = ∅) then Ok () else
  for_each_r (λ sort_item,
    if is_aggregate_fn (si_expr sort_item) then Ok () else
    match check_expr_variables (si_expr sort_item) (with_order_scope vars (wc_items w)) with
    | Err _ => Err (syntax_error_at "ORDER BY references a variable not in scope"
                      ErrorCode.UndefinedVariable)
    | r => r
    end) (wc_order_by w).
(** A property goes on under the text of its access. *)
Definition chain_item_name (i : ReturnItem Expr) : option string :=
  match with_item_name i, expr_kind (ri_expr i) with
  | Some name, _ => Some name
  | None, Property var prop => Some (var +:+ "." +:+ prop)
  | None, _ => None
  end.
Definition chain_with_item (old_scope : scope) (st : scope * WithKinds) (i : ReturnItem Expr)
    : scope * WithKinds :=
  if is_star (ri_expr i) then (old_scope, st.2) else
  match chain_item_name i with
  | Some name => ({[name]} ∪ st.1, with_item_kind st.2 name i)
  | None => st
  end.
Definition chain_with (w : WithClause Expr) (st : Chain) : E' Chain :=
  _ ← lift (check_with_order (ch_scope st) w);
  op ← plan_with X (default Op.EmptyRow (ch_op st)) w;
  let '(vars, kinds) := foldl (chain_with_item (ch_scope st)) (∅, ∅) (wc_items w) in
  mret (mkChain (Some op) (ch_created st) (ch_anon st) vars (ch_types st) kinds).

Definition needs_input (what : string) (st : Chain) : Res LogicalOp :=
  ok_or (ch_op st) (GraphError.semantic (what +:+ " requires preceding MATCH")).

Definition declared_twice (name : string) : GraphError :=
  syntax_error_at ("variable `" +:+ name +:+ "` already declared") ErrorCode.VariableAlreadyBound.
Definition yield_name (y : string * option string) : string := default y.1 y.2.
(** The names of YIELD, each new to the scope [outer] and to the names before it. *)
Fixpoint check_yields (outer bound : scope) (items : list (string * option string)) : Res unit :=
  match items with
  | [] => Ok ()
  | y :: items' =>
      if in_scope outer (yield_name y) || in_scope bound (yield_name y)
      then Err (declared_twice (yield_name y))
      else check_yields outer ({[yield_name y]} ∪ bound) items'
  end.
Definition implicit_with_yield : GraphError :=
  syntax_error_at "implicit argument passing is not allowed with YIELD"
    ErrorCode.InvalidArgumentPassingMode.
Definition check_implicit (implicit_args : bool) (yield_items : option (list (string * option string)))
    (yield_star : bool) : Res unit :=
  require (negb (implicit_args && (bool_decide (is_Some yield_items) || yield_star))) implicit_with_yield.
Definition check_call_args (args : list Expr) : Res unit :=
  for_each_r (λ arg, require (negb (is_aggregate_fn arg))
    (syntax_error_at "aggregation functions are not allowed in CALL arguments"
       ErrorCode.InvalidAggregation)) args.
Definition chain_call (procedure_name : string) (args : list Expr) (implicit_args : bool)
    (yield_items : option (list (string * option string))) (yield_star : bool) (st : Chain) : E' Chain :=
  let resolved_yields := if yield_star then [] else default [] yield_items in
  _ ← lift (if yield_star then Ok () else check_opt (check_yields (ch_scope st) ∅) yield_items);
  _ ← lift (check_implicit implicit_args yield_items yield_star);
  _ ← lift (check_call_args args);
  let op := Op.Call (default Op.SingleRow (ch_op st)) procedure_name args resolved_yields yield_star in
  mret (chain_step op (foldl (λ acc y, {[yield_name y]} ∪ acc) (ch_scope st) resolved_yields) st).

Definition chain_clause (st : Chain) (clause : Clause Expr) : E' Chain :=
  match clause with
  | Clause.Match patterns optional where_clause => chain_match patterns optional where_clause st
  | Clause.Create patterns => chain_create patterns st
  | Clause.Merge pattern on_create on_match => chain_merge pattern on_create on_match st
  | Clause.With w => chain_with w st
  | Clause.Unwind u =>
      mret (chain_step (Op.Unwind (default Op.EmptyRow (ch_op st)) (uc_expr u) (uc_alias u))
              ({[uc_alias u]} ∪ ch_scope st) st)
  | Clause.SetItems items =>
      _ ← lift (validate_set_variables items (ch_scope st));
      input ← lift (needs_input "SET" st);
      mret (chain_step (foldl set_item_op input items) (ch_scope st) st)
  | Clause.Remove items =>
      input ← lift (needs_input "REMOVE" st);
      mret (chain_step (Op.Remove input items) (ch_scope st) st)
  | Clause.Call procedure_name args implicit_args yield_items yield_star =>
      chain_call procedure_name args implicit_args yield_items yield_star st
  | Clause.Delete exprs detach =>
      _ ← lift (validate_delete_exprs exprs (ch_scope st));
      input ← lift (needs_input "DELETE" st);
      mret (chain_step (Op.Delete input exprs detach) (ch_scope st) st)
  end.
Definition plan_multi_clause (stmt : MultiClauseStatement Expr) : E' LogicalOp :=
  st ← fold_m chain_clause no_clauses (mc_clauses stmt);
  let result := default Op.EmptyRow (ch_op st) in
  _ ← lift (match tl_return (mc_tail stmt) with
            | Some rc =>
                if bool_decide (ch_scope st = ∅) then Ok ()
                else validate_return_variables (rc_items rc) (ch_scope st)
            | None => Ok ()
            end);
  apply_tail X (mc_tail stmt) result.

(** ** Any statement *)
Definition unknown_procedure (procedure_name : string) : GraphError :=
  GraphError.Query (QueryError.ProcedureError SemanticAnalysis ErrorCode.ProcedureNotFound
    ("unknown procedure `" +:+ procedure_name +:+ "`") None None).
Definition same_columns (statements : list Statement) : Res unit :=
  match statement_return_columns <$> statements with
  | first :: others =>
      require (forallb (λ cols, bool_decide (cols = first)) others)
        (syntax_error_at "all sub queries in a UNION must have the same column names"
           ErrorCode.DifferentColumnsInUnion)
  | [] => Ok ()
  end.
Fixpoint plan_inner (stmt : Statement) (subquery : bool) : E' LogicalOp :=
  match stmt with
  | SMatch m => plan_match c X m subquery
  | SCreate s => plan_create X s
  | SMatchCreate s => plan_match_create c X s
  | SDelete s => plan_delete c X s
  | SSet s => plan_set c X s
  | SRemove s => plan_remove c X s
  | SMerge s => plan_merge X s
  | SMatchMerge s => plan_match_merge c X s
  | SUnwind s => plan_unwind c X s
  | SReturn s => plan_return X s
  | SMultiClause s => plan_multi_clause s
  | SCall procedure_name _ _ _ _ _ => throw (unknown_procedure procedure_name)
  | SCreateIndex label properties => mret (Op.CreateIndex label properties)
  | SDropIndex label properties => mret (Op.DropIndex label properties)
  | SExplain inner => plan_inner inner subquery
  | SUnion statements all =>
      _ ← lift (same_columns statements);
      inputs ← collect_m (λ s, plan_inner s subquery) statements;
      mret (Op.Union inputs all)
  end.

(** ** CALL *)
Definition procedure_of (procedures : ProcedureRegistry) (procedure_name : string) : Res ProcedureDef :=
  match procedures !! procedure_name with
  | Some def => Ok def
  | None =>
      match builtin_signature procedure_name with
      | Some sig => Ok (mkProcedure procedure_name (bs_inputs sig) (bs_outputs sig) [])
      | None => Err (unknown_procedure procedure_name)
      end
  end.
Definition value_to_literal_expr (v : value) : Expr :=
  synthetic (Literal (match v with
                      | Value.I64 n => LiteralValue.I64 n
                      | Value.F64 f => LiteralValue.F64 f
                      | Value.String s => LiteralValue.String s
                      | Value.Bool b => LiteralValue.Bool b
                      | _ => LiteralValue.Null
                      end)).
Definition implicit_arguments (inputs : list ProcParam) (params : option (gmap string value))
    : Res (list Expr) :=
  collect (λ p : ProcParam,
    match default ∅ params !! pp_name p with
    | Some v => Ok (value_to_literal_expr v)
    | None =>
        Err (syntax_error_at "implicit argument passing requires all procedure parameters to be provided"
               ErrorCode.MissingParameter)
    end) inputs.

Definition byte_upper (b : byte) : byte :=
  if decide (97 ≤ b2n b ≤ 122)%N then n2b (b2n b - 32) else b.
(** [type_name.trim_end_matches('?').to_ascii_uppercase()]. *)
Definition base_type (type_name : string) : string :=
  bytes_str (byte_upper <$> trim_end_byte "?"%byte (str_bytes type_name)).
Definition wrong_type (type_name got : string) : string :=
  "InvalidArgumentType: expected " +:+ type_name +:+ " but got " +:+ got.
Definition check_arg_type (arg : Expr) (type_name : string) : option string :=
  let accepts (types : list string) (got : string) :=
    if decide (base_type type_name ∈ types) then None else Some (wrong_type type_name got) in
  match expr_kind arg with
  | Literal (LiteralValue.I64 _) => accepts ["INTEGER"; "NUMBER"; "FLOAT"; "ANY"] "INTEGER"
  | Literal (LiteralValue.F64 _) => accepts ["FLOAT"; "NUMBER"; "ANY"] "FLOAT"
  | Literal (LiteralValue.String _) => accepts ["STRING"; "ANY"] "STRING"
  | Literal (LiteralValue.Bool _) => accepts ["BOOLEAN"; "ANY"] "BOOLEAN"
  | _ => None
  end.
Definition check_arguments (args : list Expr) (inputs : list ProcParam) : Res unit :=
  _ ← require (bool_decide (length args = length inputs))
        (syntax_error_at ("expected " +:+ pretty (length inputs) +:+ " argument(s) but got "
           +:+ pretty (length args)) ErrorCode.InvalidNumberOfArguments);
  _ ← check_call_args args;
  for_each_r (λ ap : Expr * ProcParam,
    match check_arg_type ap.1 (pp_type_name ap.2) with
    | Some err => Err (GraphError.syntax err)
    | None => Ok ()
    end) (zip args inputs).

Fixpoint check_return_vars_in_scope (vars : scope) (e : Expr) : Res unit :=
  match expr_kind e with
  | Variable_ name | Property name _ =>
      require (in_scope vars name)
        (syntax_error_at ("variable `" +:+ name +:+ "` not defined") ErrorCode.UndefinedVariable)
  | BinaryOp l _ r => check_return_vars_in_scope vars l ≫= λ _, check_return_vars_in_scope vars r
  | Not x | IsNull x | IsNotNull x => check_return_vars_in_scope vars x
  | FunctionCall _ args _ _ => for_each_r (check_return_vars_in_scope vars) args
  | ListLit items => for_each_r (check_return_vars_in_scope vars) items
  | _ => Ok ()
  end.
Definition is_star_variable (items : list (ReturnItem Expr)) : bool :=
  match items with [i] => bool_decide (variable_of (ri_expr i) = Some "*") | _ => false end.
Definition call_items (rc : ReturnClause Expr) (yields : list (string * option string))
    : Res (list (ReturnItem Expr)) :=
  if is_star_variable (rc_items rc)
  then Ok ((λ y, mkReturnItem (synthetic (Variable_ (yield_name y))) None) <$> yields)
  else _ ← for_each_r (λ i, check_return_vars_in_scope (list_to_set (yield_name <$> yields)) (ri_expr i))
             (rc_items rc);
       Ok (rc_items rc).

Definition output_yields (def : ProcedureDef) : list (string * option string) :=
  (λ p, (pp_name p, None)) <$> pd_outputs def.
Definition call_yields (def : ProcedureDef) (yield_items : option (list (string * option string)))
    (yield_star in_query : bool) : Res (list (string * option string)) :=
  if yield_star then Ok (output_yields def) else
  match yield_items with
  | Some items => _ ← check_yields ∅ ∅ items; Ok items
  | None => Ok (if in_query then [] else output_yields def)
  end.
Definition plan_call (procedures : ProcedureRegistry) (params : option (gmap string value))
    (procedure_name : string) (args : list Expr) (implicit_args : bool)
    (yield_items : option (list (string * option string))) (yield_star : bool) (t : Tail Expr)
    : E' LogicalOp :=
  def ← lift (procedure_of procedures procedure_name);
  let in_query := bool_decide (is_Some (tl_return t)) in
  _ ← lift (require (negb (yield_star && in_query))
              (syntax_error_at "YIELD * is not allowed in an in-query CALL" ErrorCode.UnexpectedSyntax));
  _ ← lift (check_implicit implicit_args yield_items yield_star);
  args ← lift (if implicit_args && negb (bool_decide (pd_inputs def = []))
               then implicit_arguments (pd_inputs def) params else Ok args);
  _ ← lift (if implicit_args then Ok () else check_arguments args (pd_inputs def));
  yields ← lift (call_yields def yield_items yield_star in_query);
  let plan := Op.Call Op.SingleRow procedure_name args yields yield_star in
  match tl_return t with
  | Some rc =>
      items ← lift (call_items rc yields);
      add_bounds X (tl_skip t) (tl_limit t)
        (add_sort (tl_order_by t) (add_distinct (rc_distinct rc) (Op.Project plan items true)))
  | None => mret plan
  end.

(** ** Entry points *)
Definition plan (stmt : Statement) : E' LogicalOp :=
  op ← plan_inner stmt false; mret (apply_post_passes c op).
Definition plan_subquery (stmt : Statement) : E' LogicalOp :=
  op ← plan_inner stmt true; mret (apply_post_passes c op).
(** The passes run once more on a plan that they have rewritten. *)
Fixpoint plan_with_procedures (procedures : ProcedureRegistry) (params : option (gmap string value))
    (stmt : Statement) : E' LogicalOp :=
  op ← (match stmt with
        | SCall procedure_name args implicit_args yield_items yield_star t =>
            plan_call procedures params procedure_name args implicit_args yield_items yield_star t
        | SExplain inner => plan_with_procedures procedures params inner
        | _ => plan stmt
        end);
  mret (apply_post_passes c op).
End planner.
