(* ===== verification/PlanSpec.v ===== *)
(** * What plans have in common: src/src/cypher/planner/

    Lemmas on the results of the planner: which plans only read, and that the passes
    over a finished plan settle after one run. *)
From S2P Require Export PlanClauses.
From S2P Require Params.

Lemma yields_fold {S A B} (f : B → A → M S GraphError B) (P : B → Prop) l acc :
  (∀ acc x, P acc → yields (f acc x) P) → P acc → yields (fold_m f acc l) P.
Proof.
  intros Hf. revert acc. induction l as [|x l IH]; intros acc Hacc; cbn; [by apply yields_ret|].
  apply (yields_bind _ P); auto.
Qed.

(** One step through the definition of a plan. *)
Ltac plan_step :=
  lazymatch goal with
  | |- yields (mret _) _ => apply yields_ret
  | |- yields (throw _) _ => apply yields_throw
  | |- yields (lift _) _ => apply yields_lift
  | |- gives (Ok _) _ => apply gives_ok
  | |- gives (Err _) _ => apply gives_err
  | |- gives Panic _ => apply gives_panic
  | |- gives (if ?b then _ else _) _ => destruct b
  | |- yields (if ?b then _ else _) _ => destruct b
  | |- gives (match ?x with _ => _ end) _ => destruct x
  | |- yields (match ?x with _ => _ end) _ => destruct x
  end.
Create HintDb plans.
#[export] Hint Resolve yields_any gives_any : plans.

(** ** The inputs that the passes visit *)
Definition children (op : LogicalOp) : list LogicalOp :=
  match op with Op.MatchCreate i _ => [i] | _ => inputs op end.

Lemma children_size op i : i ∈ children op → op_size i < op_size op.
Proof.
  intros Hi. rewrite (op_size_step op).
  assert (i ∈ inputs op) as Hin by (destruct op; set_solver).
  pose proof (sum_list_with_in _ op_size _ Hin). lia.
Qed.
Lemma children_ind (P : LogicalOp → Prop) :
  (∀ op, (∀ i, i ∈ children op → P i) → P op) → ∀ op, P op.
Proof.
  intros Hstep op. induction op as [op IH] using op_ind. apply Hstep. intros i Hi. apply IH.
  destruct op; set_solver.
Qed.
(** Rewriting with an equation on every input of an operator. *)
Ltac on_children H :=
  cbn in *; try done;
  first [ repeat (rewrite H by (repeat constructor)); done
        | f_equal; apply List.map_ext_in;
          intros ? ?; by apply H, list_elem_of_In ].
Lemma walk_children_ext f g op :
  (∀ i, i ∈ children op → f i = g i) → walk_children f op = walk_children g op.
Proof.
  intros H. destruct op; on_children H.
Qed.
Lemma walk_children_id op : walk_children (λ i, i) op = op.
Proof. destruct op; cbn; by rewrite ?List.map_id. Qed.
Lemma walk_children_walk f g op :
  walk_children f (walk_children g op) = walk_children (λ i, f (g i)) op.
Proof. destruct op; cbn; by rewrite ?List.map_map. Qed.
Lemma children_walk f op : children (walk_children f op) = f <$> children op.
Proof. by destruct op. Qed.

(** The fuel of a pass is enough, and more changes nothing. *)
Lemma bottom_up_fuel t n m op : op_size op ≤ n → op_size op ≤ m →
  bottom_up t n op = bottom_up t m op.
Proof.
  revert n m. induction op as [op IH] using children_ind. intros [|n] [|m] Hn Hm; try done;
    [rewrite op_size_step in Hn; lia|rewrite op_size_step in Hm; lia|]. cbn. f_equal.
  apply walk_children_ext. intros i Hi. pose proof (children_size op i Hi). apply IH; [done|lia..].
Qed.
Definition everywhere (t : LogicalOp → LogicalOp) (op : LogicalOp) : LogicalOp :=
  bottom_up t (op_size op) op.
Lemma everywhere_step t op : everywhere t op = t (walk_children (everywhere t) op).
Proof.
  unfold everywhere at 1. destruct (op_size op) as [|n] eqn:Hn; [by rewrite op_size_step in Hn|].
  cbn. f_equal. apply walk_children_ext. intros i Hi. pose proof (children_size op i Hi).
  apply bottom_up_fuel; lia.
Qed.
Lemma size_cap_target n op : op_size (cap_target n op) = op_size op.
Proof. induction op; cbn; auto. Qed.
Lemma size_cap_input op : op_size (cap_input op) = op_size op.
Proof. destruct op; cbn; by rewrite ?size_cap_target. Qed.
Lemma push_limit_fuel n m op : op_size op ≤ n → op_size op ≤ m → push_limit n op = push_limit m op.
Proof.
  revert m op. induction n as [|n IH]; intros m op Hn Hm; [rewrite op_size_step in Hn; lia|].
  destruct m as [|m]; [rewrite op_size_step in Hm; lia|]. cbn. apply walk_children_ext.
  intros i Hi. pose proof (children_size _ i Hi) as Hs. rewrite size_cap_input in Hs. apply IH; lia.
Qed.
Abbreviation push := push_limit_into_var_length_expand.
Lemma push_step op : push op = walk_children push (cap_input op).
Proof.
  unfold push_limit_into_var_length_expand at 1.
  destruct (op_size op) as [|n] eqn:Hn; [by rewrite op_size_step in Hn|].
  cbn. apply walk_children_ext. intros i Hi. pose proof (children_size _ i Hi) as Hs.
  rewrite size_cap_input in Hs. apply push_limit_fuel; lia.
Qed.

(** A pass keeps whether a plan only reads, if what it does to one operator does. *)
Lemma walk_children_reads f op : (∀ i, i ∈ children op → is_read_only (f i) = is_read_only i) →
  is_read_only (walk_children f op) = is_read_only op.
Proof.
  intros H. destruct op; cbn in *; try done; try (by repeat (rewrite H by (repeat constructor))).
  induction inputs as [|i l IH]; cbn; [done|]. rewrite H by constructor. f_equal. apply IH.
  intros j Hj. apply H. by constructor.
Qed.
Lemma everywhere_reads t op : (∀ op, is_read_only (t op) = is_read_only op) →
  is_read_only (everywhere t op) = is_read_only op.
Proof.
  intros Ht. induction op as [op IH] using children_ind.
  rewrite everywhere_step, Ht. by apply walk_children_reads.
Qed.
Lemma cap_target_reads n op : is_read_only (cap_target n op) = is_read_only op.
Proof. induction op; cbn; auto. Qed.
Lemma cap_input_reads op : is_read_only (cap_input op) = is_read_only op.
Proof. destruct op; cbn; by rewrite ?cap_target_reads. Qed.
Lemma push_limit_reads n op : is_read_only (push_limit n op) = is_read_only op.
Proof.
  revert op. induction n as [|n IH]; intros op; [done|]. cbn.
  rewrite walk_children_reads by auto. apply cap_input_reads.
Qed.
Ltac cases := repeat (case_match; subst; cbn in *; try done).
Lemma id_lookup_reads op : is_read_only (id_lookup_of op) = is_read_only op.
Proof. destruct op; try done. cbn. cases. Qed.

Section fulltext.
Context {conn : Type} {O : SqlOps conn} (c : conn).

Lemma conjunct_lookup_inv label alias predicate op :
  conjunct_lookup c label alias predicate = Some op → ∃ m residual, op = fulltext_op label alias m residual.
Proof.
  unfold conjunct_lookup. intros H. apply bind_Some in H as ([m residual] & _ & H).
  case_match; simplify_eq. eauto.
Qed.
Lemma or_union_inv label alias predicate op :
  try_rewrite_or_chain_to_union c label alias predicate = Some op →
  ∃ ops, op = Op.Union ops false ∧ Forall (λ o, ∃ m, o = fulltext_op label alias m None) ops.
Proof.
  unfold try_rewrite_or_chain_to_union. intros H. do 2 (case_match; [done|]).
  apply fmap_Some in H as (ops & Hops & ->). exists ops. split; [done|].
  apply mapM_Some in Hops. clear -Hops. induction Hops as [|d o ds os Hd]; constructor; [|done].
  unfold or_lookup in Hd. apply bind_Some in Hd as (m & _ & Hd). case_match; simplify_eq. eauto.
Qed.
Lemma fulltext_reads op : is_read_only (fulltext_of c op) = is_read_only op.
Proof.
  destruct op as [| | | | | | |input| | | | | | | | | | | | | | | | | | | | | | | | | | | ]; try done.
  cbn. destruct input; try done; cbn.
  - case_match; [done|]. case_match eqn:Hc.
    + by apply conjunct_lookup_inv in Hc as (m & residual & ->).
    + destruct (try_rewrite_or_chain_to_union c label alias predicate) as [o|] eqn:Ho; [|done].
      apply or_union_inv in Ho as (ops & -> & Hops). cbn. induction Hops as [|o ops (m & ->) _ IH]; done.
  - destruct input2; try done. case_match; [done|]. case_match eqn:Hc; [|done].
    by apply conjunct_lookup_inv in Hc as (m & residual & ->).
Qed.
Lemma apply_post_passes_def op :
  apply_post_passes c op = everywhere (fulltext_of c) (everywhere id_lookup_of (push op)).
Proof. done. Qed.
Lemma passes_reads op : is_read_only (apply_post_passes c op) = is_read_only op.
Proof.
  rewrite apply_post_passes_def. rewrite (everywhere_reads _ _ fulltext_reads).
  rewrite (everywhere_reads _ _ id_lookup_reads). apply push_limit_reads.
Qed.
End fulltext.

(** ** Plans that only read *)
Section planner.
Context {conn : Type} {O : SqlOps conn} (c : conn).
Context {S : Type} (X : PlanEffects S).
Implicit Types (op : LogicalOp) (vars : scope).
Abbreviation read op := (is_read_only op = true).
(** Both kinds of plans, by what they are. *)
Abbreviation reads_as b op := (is_read_only op = b).

Lemma scan_plan_reads node alias label : gives (scan_plan node alias label) (λ op, read op).
Proof.
  unfold scan_plan.
  assert (∀ l op, read op → read (foldl (λ op l, Op.Filter op (has_label_condition alias l)) op l))
    as Hl by (induction l; cbn; auto).
  plan_step; [plan_step; by apply Hl|]. apply gives_bind_any. intros predicate. plan_step. by apply Hl.
Qed.
Lemma node_scan_reads node alias : gives (plan_node_scan c node alias) (λ op, read op).
Proof.
  unfold plan_node_scan. plan_step; [apply scan_plan_reads|]. apply gives_bind_any. intros indexes.
  plan_step; [|apply scan_plan_reads]. plan_step. unfold index_plan.
  apply gives_bind_any. intros taken. apply gives_bind_any. intros filters. by plan_step.
Qed.
Lemma expand_plan_reads op rel dst dst_alias rel_alias : read op →
  gives (expand_plan op rel dst dst_alias rel_alias) (λ op, read op).
Proof.
  intros Hop.
  assert (∀ op alias props, read op → gives (filter_props op alias props) (λ op, read op)) as Hf.
  { intros o alias props Ho. unfold filter_props, add_filter. plan_step; [by plan_step|].
    apply gives_bind_any. intros e. by plan_step. }
  unfold expand_plan. apply (gives_then _ (λ op, read op)).
  - apply Hf. assert (∀ l op, read op → read (foldl (λ op l, if String.eqb l "" then op
        else Op.Filter op (has_label_condition dst_alias l)) op l)) as Hl.
    { induction l as [|x l IH]; intros o Ho; cbn; [done|]. apply IH. by destruct (String.eqb x ""). }
    by apply Hl.
  - intros o Ho. plan_step; [by plan_step|by apply Hf].
Qed.
Definition read_opt (o : option LogicalOp) : Prop := ∀ op, o = Some op → read op.

Lemma elements_read named_path elements (op : option LogicalOp) i aliases : read_opt op →
  yields (plan_elements c X named_path i elements op aliases) (λ r, read_opt r.1).
Proof.
  remember (length elements) as n eqn:Hn. revert elements Hn op i aliases.
  induction n as [n IH] using lt_wf_ind. intros [|[node|rel] els] -> op i aliases Hop; cbn.
  - by plan_step.
  - destruct op as [o|]; [apply (IH (length els)); [cbn; lia|done..]|]. apply yields_bind_any. intros alias.
    apply (yields_bind _ (λ op, read op)); [apply yields_lift, node_scan_reads|]. intros scan Hs.
    apply (IH (length els)); [cbn; lia|done|]. by intros o [= <-].
  - destruct els as [|[dst|] els]; [by plan_step| |by plan_step].
    apply yields_bind_any. intros dst_alias. apply yields_bind_any. intros rel_alias.
    destruct op as [o|]; [|by apply yields_lift, gives_panic].
    apply (yields_bind _ (λ op, read op)); [by apply yields_lift, expand_plan_reads, Hop|].
    intros o' Ho'. apply (IH (length els)); [cbn; lia|done|]. by intros ? [= <-].
Qed.
Lemma single_pattern_reads pattern : yields (plan_single_pattern c X pattern) (λ op, read op).
Proof.
  unfold plan_single_pattern. apply (yields_bind _ (λ r, read_opt r.1)); [by apply elements_read|].
  intros [[op|] aliases] Hop; cbn; [|by plan_step]. plan_step. specialize (Hop _ eq_refl). by case_match.
Qed.
Lemma shortest_reads pattern existing : read_opt existing →
  gives (plan_shortest_path_pattern c pattern existing) (λ op, read op).
Proof.
  intros Hop. unfold plan_shortest_path_pattern. repeat plan_step.
  apply (gives_then _ (λ op, read op)); [|by intros input Hi; plan_step].
  destruct existing as [e|]; [plan_step; by apply Hop|].
  apply (gives_then _ (λ op, read op)); [apply node_scan_reads|]. intros s1 H1.
  apply (gives_then _ (λ op, read op)); [apply node_scan_reads|]. intros s2 H2.
  plan_step. cbn. by rewrite H1, H2.
Qed.
Lemma join_patterns_read patterns (op : option LogicalOp) vars : read_opt op →
  yields (join_patterns c X patterns op vars) read_opt.
Proof.
  revert op vars. induction patterns as [|p ps IH]; intros op vars Hop; cbn; [by plan_step|].
  apply (yields_bind _ (λ op, read op)); [apply single_pattern_reads|]. intros r Hr. apply IH.
  intros o [= <-]. destruct op as [l|]; [|done]. specialize (Hop _ eq_refl).
  by case_match; cbn; rewrite Hop, Hr.
Qed.
Lemma apply_shortest_reads patterns (op : option LogicalOp) : read_opt op →
  gives (apply_shortest c patterns op) read_opt.
Proof.
  revert op. induction patterns as [|p ps IH]; intros op Hop; cbn; [by plan_step|].
  apply (gives_then _ (λ op, read op)); [by apply shortest_reads|]. intros r Hr. apply IH.
  by intros o [= <-].
Qed.
Lemma patterns_read patterns : yields (plan_patterns c X patterns) (λ op, read op).
Proof.
  unfold plan_patterns. destruct patterns as [|p ps]; [by plan_step|]. apply yields_bind_any.
  intros regular. apply (yields_bind _ read_opt); [by apply join_patterns_read|]. intros op Hop.
  apply (yields_bind _ read_opt); [by apply yields_lift, apply_shortest_reads|]. intros op' Hop'.
  destruct op'; plan_step. by apply Hop'.
Qed.

(** *** Bounds, projections and joins keep what a plan is *)
Lemma add_bounds_reads b skip limit op : reads_as b op →
  yields (add_bounds X skip limit op) (λ op, reads_as b op).
Proof.
  assert (∀ (f : LogicalOp → N → LogicalOp) o op, (∀ op n, is_read_only (f op n) = is_read_only op) →
    reads_as b op → yields (add_bound X f o op) (λ op, reads_as b op)) as Hb.
  { intros f [e|] o Hf Ho; cbn; [|by plan_step]. apply yields_bind_any. intros n. plan_step.
    by rewrite Hf. }
  intros Hop. unfold add_bounds. apply (yields_bind _ (λ op, reads_as b op)); auto.
Qed.
Lemma add_distinct_reads distinct op : is_read_only (add_distinct distinct op) = is_read_only op.
Proof. by destruct distinct. Qed.
Lemma add_sort_reads items op : is_read_only (add_sort items op) = is_read_only op.
Proof. by destruct items. Qed.
Lemma add_filter_opt_reads o op : is_read_only (add_filter_opt o op) = is_read_only op.
Proof. by destruct o. Qed.
Lemma add_aggregate_reads items op : gives (add_aggregate items op) (λ o, is_read_only o = is_read_only op).
Proof.
  unfold add_aggregate. plan_step; [|by plan_step]. apply gives_bind_any. intros s. by plan_step.
Qed.
Lemma return_projection_reads b op rc order_by skip limit : reads_as b op →
  yields (apply_return_projection X op rc order_by skip limit) (λ op, reads_as b op).
Proof.
  intros Hop. unfold apply_return_projection. eapply yields_bind; [apply yields_lift, add_aggregate_reads|].
  cbn. intros o Ho. apply add_bounds_reads. rewrite add_distinct_reads. cbn. rewrite add_sort_reads. congruence.
Qed.
Lemma tail_reads b t op : reads_as b op → yields (apply_tail X t op) (λ op, reads_as b op).
Proof.
  intros Hop. unfold apply_tail. case_match; [by apply return_projection_reads|by plan_step].
Qed.
Lemma with_aggregates_reads items order_by op :
  gives (with_aggregates items order_by op) (λ o, is_read_only o = is_read_only op).
Proof.
  unfold with_aggregates. apply gives_bind_any. intros s. plan_step; [by plan_step|].
  do 2 (apply gives_bind_any; intros _). by plan_step.
Qed.
Lemma with_order_reads input_scope items order_by op :
  gives (with_order input_scope items order_by op) (λ o, is_read_only o = is_read_only op).
Proof.
  unfold with_order. plan_step; [by plan_step|]. do 2 (apply gives_bind_any; intros _). by plan_step.
Qed.
Lemma with_reads b op w input_scope : reads_as b op →
  yields (plan_with_scoped X op w input_scope) (λ op, reads_as b op).
Proof.
  intros Hop. unfold plan_with_scoped. do 2 (apply yields_bind_any; intros _).
  apply (yields_bind _ (λ op, reads_as b op)).
  { apply yields_lift. plan_step; [|by plan_step]. intros o Ho. apply with_aggregates_reads in Ho. congruence. }
  intros op1 H1. apply (yields_bind _ (λ op, reads_as b op)).
  - apply yields_lift. plan_step; [by plan_step; case_match|].
    apply (gives_then _ (λ op, reads_as b op)); [|by intros o Ho; plan_step].
    plan_step; [by plan_step|]. intros o Ho. apply with_order_reads in Ho. congruence.
  - intros op2 H2. apply add_bounds_reads. by rewrite add_distinct_reads.
Qed.
Lemma optional_reads opt_match vars :
  yields (plan_optional_match c X opt_match vars) (λ r, read r.1.1).
Proof.
  unfold plan_optional_match. apply (yields_bind _ (λ op, read op)); [apply patterns_read|].
  intros op Hop. by plan_step.
Qed.
Lemma join_optional_reads b op optional vars : reads_as b op →
  yields (join_optional c X op optional vars) (λ r, reads_as b r.1).
Proof.
  revert op vars. induction optional as [|o l IH]; intros op vars Hop; cbn; [by plan_step|].
  apply (yields_bind _ _ _ _ (optional_reads o vars)). intros [[r al] f] Hr. apply IH. cbn in *.
  by rewrite Hr, andb_true_r.
Qed.
Lemma later_match_reads b op im vars : reads_as b op →
  yields (plan_intermediate_match_with_scope c X op im vars) (λ op, reads_as b op).
Proof.
  intros Hop. unfold plan_intermediate_match_with_scope. apply yields_bind_any. intros _.
  apply (yields_bind _ (λ op, reads_as b op)).
  - plan_step; [by plan_step|]. apply (yields_bind _ (λ op, read op)); [apply patterns_read|].
    intros r Hr. plan_step. cbn. by rewrite Hr, andb_true_r.
  - intros o Ho. apply (yields_bind _ (λ r, reads_as b r.1)); [by apply join_optional_reads|].
    intros r Hr. plan_step. by rewrite add_filter_opt_reads.
Qed.

(** *** Conditions in index lookups *)
Definition replaces op (r : option (LogicalOp * list string)) : Prop :=
  ∀ new used, r = Some (new, used) → is_read_only new = is_read_only op.
Lemma replace_in_reads op i r f : gives r (replaces i) →
  (∀ n, is_read_only n = is_read_only i → is_read_only (f n) = is_read_only op) →
  gives (replace_in r f) (replaces op).
Proof.
  intros Hr Hf. destruct r as [[[n used]|]|e|]; intros o [= <-]; [|by intros ??].
  intros new u [= <- <-]. apply Hf. by eapply (Hr _ eq_refl).
Qed.
Lemma replace_scan_reads alias candidates op :
  gives (try_replace_scan_multi c alias candidates op) (replaces op).
Proof.
  induction op; cbn; (case_decide; [by plan_step|]); try (by plan_step).
  - plan_step; [by plan_step|]. apply gives_bind_any. intros indexes. plan_step; [|by plan_step].
    plan_step. apply gives_bind_any. intros lookups. plan_step. by intros new used [= <- _].
  - eapply replace_in_reads; [done|]. auto.
  - apply (gives_then _ (replaces op1)); [done|]. intros [[n used]|] Hn.
    + plan_step. intros new u [= <- <-]. cbn. by rewrite (Hn _ _ eq_refl).
    + eapply replace_in_reads; [done|]. intros n Hr. cbn. by rewrite Hr.
  - eapply replace_in_reads; [done|]. auto.
Qed.
Lemma push_candidates_reads candidates op consumed :
  gives (push_candidates c candidates op consumed) (λ r, is_read_only r.1 = is_read_only op).
Proof.
  revert op consumed. induction candidates as [|[alias slot] l IH]; intros op consumed; cbn; [by plan_step|].
  apply (gives_then _ (replaces op)); [apply replace_scan_reads|]. intros [[new props]|] Hr; [|apply IH].
  rewrite <-(Hr _ _ eq_refl). apply IH.
Qed.
Lemma push_where_reads predicate op :
  gives (push_where c predicate op) (λ o, is_read_only o = is_read_only op).
Proof.
  unfold push_where. eapply gives_then; [apply push_candidates_reads|]. cbn. intros [o used] Ho.
  plan_step. by rewrite add_filter_opt_reads.
Qed.

(** *** Statements *)
Lemma match_clause_reads vars st clause : read (m_op st) →
  yields (match_clause c X vars st clause) (λ st, read (m_op st)).
Proof.
  intros Hst. destruct clause as [w|u|im]; cbn.
  - apply yields_bind_any. intros _. apply (yields_bind _ (λ op, read op)); [by apply with_reads|].
    intros op Hop. plan_step. by plan_step.
  - by plan_step.
  - do 3 (apply yields_bind_any; intros ?). apply (yields_bind _ (λ op, read op)); [by apply later_match_reads|].
    intros op Hop. by plan_step.
Qed.
Lemma match_reads stmt subquery : yields (plan_match c X stmt subquery) (λ op, read op).
Proof.
  unfold plan_match. do 2 (apply yields_bind_any; intros ?). apply (yields_bind _ (λ op, read op)).
  { plan_step; [by plan_step|apply patterns_read]. }
  intros op Hop. apply (yields_bind _ (λ r, read r.1)); [by apply join_optional_reads|].
  intros [op1 vars] H1. apply yields_bind_any. intros _. apply (yields_bind _ (λ op, read op)).
  { plan_step. plan_step; [|by plan_step]. intros o Ho. apply push_where_reads in Ho. by rewrite Ho. }
  intros op2 H2. apply (yields_bind _ (λ st, read (m_op st))).
  { apply yields_fold; [|done]. intros acc x Hacc. by apply match_clause_reads. }
  intros st Hst. apply yields_bind_any. intros _.
  eapply yields_bind; [apply yields_lift, add_aggregate_reads|]. cbn. intros op3 H3.
  apply (yields_bind _ (λ op, is_read_only op = is_read_only op3)).
  { plan_step. unfold match_order. plan_step; [by plan_step|].
    do 2 (apply gives_bind_any; intros _). by plan_step. }
  intros op4 H4. apply add_bounds_reads. rewrite add_distinct_reads. cbn. congruence.
Qed.
Lemma return_reads stmt : yields (plan_return X stmt) (λ op, read op).
Proof.
  unfold plan_return. do 4 (apply yields_bind_any; intros _).
  eapply yields_bind; [apply yields_lift, add_aggregate_reads|]. cbn. intros op Hop.
  apply add_bounds_reads. rewrite add_distinct_reads. cbn. by rewrite add_sort_reads.
Qed.

Abbreviation writes op := (is_read_only op = false).
Lemma creation_writes ops : Forall (λ op, writes op) ops → writes (creation_plan ops).
Proof. by intros [|op [|? ?] Hop]. Qed.
Lemma created_node_writes node s : Forall (λ op, writes op) (cr_ops s) →
  gives (created_node node s) (λ s, Forall (λ op, writes op) (cr_ops s)).
Proof.
  intros Hs. unfold created_node. destruct (create_alias _ _) as [alias anon]. plan_step; [by plan_step|].
  plan_step. cbn. case_match; [done|]. apply Forall_app. by repeat constructor.
Qed.
Lemma create_elements_write elements s : Forall (λ op, writes op) (cr_ops s) →
  gives (create_elements elements s) (λ s, Forall (λ op, writes op) (cr_ops s)).
Proof.
  remember (length elements) as n eqn:Hn. revert elements Hn s.
  induction n as [n IH] using lt_wf_ind. intros [|[node|rel] els] -> s Hs; cbn.
  - by plan_step.
  - eapply gives_then; [by apply created_node_writes|]. cbn. intros s' Hs'.
    apply (IH (length els)); [cbn; lia|done..].
  - apply gives_bind_any. intros _. destruct els as [|[dst|] els]; [by plan_step| |by plan_step].
    eapply gives_then; [by apply created_node_writes|]. cbn. intros s' Hs'.
    do 2 (apply gives_bind_any; intros ?). destruct (if decide _ then _ else _) as [src dst'].
    apply (IH (length els)); [cbn; lia|done|]. cbn. apply Forall_app. by repeat constructor.
Qed.
Lemma create_pattern_writes pattern seen anon :
  gives (plan_create_pattern_with_counter pattern seen anon) (λ r, Forall (λ op, writes op) r.1.1).
Proof.
  unfold plan_create_pattern_with_counter.
  eapply gives_then; [apply create_elements_write; constructor|]. cbn. intros s Hs. by plan_step.
Qed.
Lemma fold_gives {A B} (f : B → A → Res B) (P : B → Prop) l acc :
  (∀ acc x, P acc → gives (f acc x) P) → P acc → gives (fold_r f acc l) P.
Proof.
  intros Hf. revert acc. induction l as [|x l IH]; intros acc Hacc; cbn; [by plan_step|].
  apply (gives_then _ P); auto.
Qed.
Lemma create_ops_write patterns seen :
  gives (create_ops patterns seen) (λ r, Forall (λ op, writes op) r.1).
Proof.
  unfold create_ops. apply fold_gives; [|constructor]. intros acc p Hacc.
  apply (gives_then _ (λ r, Forall (λ op, writes op) r.1)).
  - unfold plan_create_pattern. eapply gives_then; [apply create_pattern_writes|]. cbn. intros r Hr. by plan_step.
  - intros r Hr. plan_step. by apply Forall_app.
Qed.
Lemma set_items_write items op :
  is_read_only (foldl set_item_op op items) = match items with [] => is_read_only op | _ => false end.
Proof.
  assert (∀ items op, writes op → writes (foldl set_item_op op items)) as Hw.
  { intros l. induction l as [|i l IH]; intros o Ho; cbn; [done|]. apply IH. by destruct i. }
  destruct items as [|i l]; [done|]. cbn. apply Hw. by destruct i.
Qed.

(** *** Which statements write *)
Definition clause_writes (clause : Clause Expr) : bool :=
  match clause with
  | Clause.Create _ | Clause.Merge _ _ _ | Clause.Remove _ | Clause.Delete _ _ => true
  | Clause.SetItems items => match items with [] => false | _ => true end
  | Clause.Match _ _ _ | Clause.With _ | Clause.Unwind _ | Clause.Call _ _ _ _ _ => false
  end.
Fixpoint statement_writes (stmt : Statement) : bool :=
  match stmt with
  | SMatch _ | SReturn _ | SCall _ _ _ _ _ _ => false
  | SCreate _ | SMatchCreate _ | SDelete _ | SRemove _ | SMerge _ | SMatchMerge _
  | SCreateIndex _ _ | SDropIndex _ _ => true
  | SSet s => match ss_items s with [] => false | _ => true end
  | SUnwind s => match us_body s with UnwindBody.Create _ _ _ => true | _ => false end
  | SMultiClause s => List.existsb clause_writes (mc_clauses s)
  | SExplain inner => statement_writes inner
  | SUnion statements _ => List.existsb statement_writes statements
  end.

Lemma unwind_clause_reads b st clause : reads_as b st.1 →
  yields (unwind_clause c X st clause) (λ st, reads_as b st.1).
Proof.
  intros Hst. destruct clause as [w|u|im]; cbn; [| |].
  - eapply yields_bind; [by apply with_reads|]. intros op Hop. by plan_step.
  - by plan_step.
  - eapply yields_bind; [by apply later_match_reads|]. intros op Hop. by plan_step.
Qed.
Lemma set_clause_reads b st clause : reads_as b st.1 →
  yields (set_clause c X st clause) (λ st, reads_as b st.1).
Proof.
  intros Hst. destruct clause as [w|u|im]; cbn; [| |].
  - eapply yields_bind; [by apply with_reads|]. intros op Hop. by plan_step.
  - by plan_step.
  - eapply yields_bind; [by apply later_match_reads|]. intros op Hop. by plan_step.
Qed.
Lemma unwind_reads stmt :
  yields (plan_unwind c X stmt) (λ op, reads_as (negb (statement_writes (SUnwind stmt))) op).
Proof.
  unfold plan_unwind. cbn. destruct (us_body stmt) as [wh cls rc order_by skip limit|ps cls tail]; cbn.
  - apply (yields_bind _ (λ st, read st.1)).
    { apply yields_fold; [intros; by apply unwind_clause_reads|]. by destruct wh. }
    intros st Hst. eapply yields_bind; [apply yields_lift, add_aggregate_reads|]. cbn. intros op Hop.
    apply add_bounds_reads. rewrite add_sort_reads, add_distinct_reads. cbn. congruence.
  - apply yields_bind_any. intros ops. apply (yields_bind _ (λ st, writes st.1)).
    { apply yields_fold; [intros; by apply unwind_clause_reads|done]. }
    intros st Hst. by apply tail_reads.
Qed.
Lemma set_reads stmt :
  yields (plan_set c X stmt) (λ op, reads_as (negb (statement_writes (SSet stmt))) op).
Proof.
  unfold plan_set. apply yields_bind_any. intros _. apply (yields_bind _ (λ op, read op)).
  { plan_step; [by plan_step|apply patterns_read]. }
  intros op Hop. apply (yields_bind _ (λ r, read r.1)); [by apply join_optional_reads|].
  intros [op1 vars] H1.
  apply (yields_bind _ (λ st, reads_as (negb (statement_writes (SSet stmt))) st.1)).
  { apply yields_fold; [intros; by apply set_clause_reads|]. cbn.
    rewrite set_items_write, add_filter_opt_reads. cbn in H1. rewrite H1. by destruct (ss_items stmt). }
  intros st Hst. by apply tail_reads.
Qed.

(** Chains: what the plan so far is, and what the clauses so far say. *)
Definition chain_reads (b : bool) (st : Chain) : Prop :=
  match ch_op st with Some op => reads_as b op | None => b = true end.
Lemma chain_reads_default b st op : chain_reads b st → read op → reads_as b (default op (ch_op st)).
Proof. unfold chain_reads. destruct (ch_op st); cbn; congruence. Qed.
Lemma needs_input_reads b what st : chain_reads b st → gives (needs_input what st) (λ op, reads_as b op).
Proof. unfold chain_reads, needs_input. destruct (ch_op st); cbn; intros H; by plan_step. Qed.
Lemma chain_match_reads b patterns optional where_clause st : chain_reads b st →
  yields (chain_match c X patterns optional where_clause st) (chain_reads b).
Proof.
  intros Hst. unfold chain_match. do 2 (apply yields_bind_any; intros ?).
  apply (yields_bind _ (λ op, read op)); [apply patterns_read|]. intros op Hop.
  destruct (match ch_op st with Some _ => _ | None => _ end) as [base vars] eqn:Hb.
  assert (reads_as b base) as Hbase.
  { unfold chain_reads in Hst. destruct (ch_op st) as [i|]; simplify_eq; [|by subst].
    destruct patterns; [done|]. cbn. by rewrite Hop, andb_true_r. }
  apply (yields_bind _ (λ r, reads_as b r.1)); [by apply join_optional_reads|]. intros [o v] Ho.
  plan_step. unfold chain_reads. cbn. by rewrite add_filter_opt_reads.
Qed.
Lemma chain_create_writes patterns st : yields (chain_create patterns st : M S GraphError Chain) (chain_reads false).
Proof.
  unfold chain_create. do 2 (apply yields_bind_any; intros ?).
  apply (yields_bind _ (λ r, Forall (λ op, writes op) r.1.1)).
  { apply yields_lift, fold_gives; [|constructor]. intros [[ops seen] anon] p Hacc.
    eapply gives_then; [apply create_pattern_writes|]. cbn. intros r Hr. plan_step. cbn. by apply Forall_app. }
  intros [[ops seen] anon] Hops. plan_step. unfold chain_reads. cbn. case_match; [done|].
  by apply creation_writes.
Qed.
Lemma chain_clause_reads b st clause : chain_reads b st →
  yields (chain_clause c X st clause) (chain_reads (b && negb (clause_writes clause))).
Proof.
  intros Hst. destruct clause; cbn; rewrite ?andb_true_r, ?andb_false_r.
  - by apply chain_match_reads.
  - apply chain_create_writes.
  - unfold chain_merge. do 3 (apply yields_bind_any; intros _). plan_step. unfold chain_reads. cbn.
    by case_match.
  - unfold chain_with. apply yields_bind_any. intros _. apply (yields_bind _ (λ op, reads_as b op)).
    { apply with_reads, chain_reads_default; auto. }
    intros op Hop. destruct (foldl _ _ _). by plan_step.
  - plan_step. unfold chain_reads. cbn. by apply chain_reads_default.
  - apply yields_bind_any. intros _. apply (yields_bind _ (λ op, reads_as b op)).
    { by apply yields_lift, needs_input_reads. }
    intros op Hop. plan_step. unfold chain_reads. cbn. rewrite set_items_write.
    destruct items; cbn; [by rewrite andb_true_r|by rewrite andb_false_r].
  - apply yields_bind_any. intros op. by plan_step.
  - unfold chain_call. do 3 (apply yields_bind_any; intros _). plan_step. unfold chain_reads. cbn.
    by apply chain_reads_default.
  - do 2 (apply yields_bind_any; intros ?). by plan_step.
Qed.
Lemma chain_fold_reads clauses b st : chain_reads b st →
  yields (fold_m (chain_clause c X) st clauses) (chain_reads (b && negb (List.existsb clause_writes clauses))).
Proof.
  revert b st. induction clauses as [|cl l IH]; intros b st Hst; cbn.
  - plan_step. by rewrite andb_true_r.
  - eapply yields_bind; [by apply chain_clause_reads|]. intros st' Hst'.
    rewrite negb_orb, andb_assoc. by apply IH.
Qed.
Lemma multi_reads stmt :
  yields (plan_multi_clause c X stmt) (λ op, reads_as (negb (statement_writes (SMultiClause stmt))) op).
Proof.
  unfold plan_multi_clause. eapply yields_bind; [by apply (chain_fold_reads _ true)|]. cbn.
  intros st Hst. apply yields_bind_any. intros _. by apply tail_reads, chain_reads_default.
Qed.

Lemma collect_yields {A B} (f : A → M S GraphError B) (P : A → B → Prop) l :
  (∀ x, x ∈ l → yields (f x) (P x)) → yields (collect_m f l) (Forall2 P l).
Proof.
  induction l as [|x l IH]; intros Hf; cbn; [by plan_step|].
  eapply yields_bind; [apply Hf; by constructor|]. intros y Hy.
  eapply yields_bind; [apply IH; intros; apply Hf; by constructor|]. intros ys Hys.
  plan_step. by constructor.
Qed.
Lemma union_reads all statements inputs :
  Forall2 (λ s op, reads_as (negb (statement_writes s)) op) statements inputs →
  reads_as (negb (List.existsb statement_writes statements)) (Op.Union inputs all).
Proof.
  cbn. induction 1 as [|s op l l' Hop _ IH]; cbn; [done|]. by rewrite Hop, negb_orb, IH.
Qed.
Lemma create_writes stmt : yields (plan_create X stmt) (λ op, writes op).
Proof.
  unfold plan_create. apply yields_bind_any. intros _.
  eapply yields_bind; [apply yields_lift, create_ops_write|]. intros ops Hops.
  by apply tail_reads, creation_writes.
Qed.
Lemma match_create_writes stmt : yields (plan_match_create c X stmt) (λ op, writes op).
Proof. unfold plan_match_create. do 3 (apply yields_bind_any; intros ?). by apply tail_reads. Qed.
Lemma delete_writes stmt : yields (plan_delete c X stmt) (λ op, writes op).
Proof. unfold plan_delete. do 3 (apply yields_bind_any; intros ?). by apply tail_reads. Qed.
Lemma remove_writes stmt : yields (plan_remove c X stmt) (λ op, writes op).
Proof. unfold plan_remove. do 2 (apply yields_bind_any; intros ?). by apply tail_reads. Qed.
Lemma merge_writes stmt : yields (plan_merge X stmt) (λ op, writes op).
Proof. unfold plan_merge. do 2 (apply yields_bind_any; intros ?). by apply tail_reads. Qed.
Lemma match_merge_writes stmt : yields (plan_match_merge c X stmt) (λ op, writes op).
Proof. unfold plan_match_merge. do 3 (apply yields_bind_any; intros ?). by apply tail_reads. Qed.

Lemma inner_reads stmt subquery :
  yields (plan_inner c X stmt subquery) (λ op, reads_as (negb (statement_writes stmt)) op).
Proof.
  revert stmt. refine (proj2 (Params.syntax_ind (λ _, True) (λ stmt, yields (plan_inner c X stmt subquery)
    (λ op, reads_as (negb (statement_writes stmt)) op)) _ _)); [done|]. intros stmt _ IH.
  destruct stmt; cbn [plan_inner statement_writes negb]; try (by plan_step).
  - apply match_reads.
  - apply create_writes.
  - apply match_create_writes.
  - apply match_merge_writes.
  - apply delete_writes.
  - apply set_reads.
  - apply remove_writes.
  - apply merge_writes.
  - apply unwind_reads.
  - apply return_reads.
  - apply multi_reads.
  - apply IH. constructor.
  - apply yields_bind_any. intros _. eapply yields_bind; [by apply collect_yields, IH|]. intros inputs Hi.
    plan_step. by apply union_reads.
Qed.

Lemma call_reads procedures params name args implicit_args yield_items yield_star t :
  yields (plan_call X procedures params name args implicit_args yield_items yield_star t) (λ op, read op).
Proof.
  unfold plan_call. do 6 (apply yields_bind_any; intros ?). plan_step; [|by plan_step].
  apply yields_bind_any. intros items. apply add_bounds_reads. by rewrite add_sort_reads, add_distinct_reads.
Qed.
Lemma with_procedures_reads procedures params stmt :
  yields (plan_with_procedures c X procedures params stmt)
    (λ op, reads_as (negb (statement_writes stmt)) op).
Proof.
  assert (∀ s, yields (plan c X s) (λ op, reads_as (negb (statement_writes s)) op)) as Hplan.
  { intros s. unfold plan. eapply yields_bind; [apply inner_reads|]. intros op Hop. plan_step.
    by rewrite passes_reads. }
  revert stmt. refine (proj2 (Params.syntax_ind (λ _, True) (λ stmt, yields (plan_with_procedures c X procedures
    params stmt) (λ op, reads_as (negb (statement_writes stmt)) op)) _ _)); [done|]. intros stmt _ IH.
  destruct stmt; cbn [plan_with_procedures];
    (eapply yields_bind; [|intros op Hop; plan_step; rewrite passes_reads; exact Hop]);
    try apply Hplan; [apply (IH stmt); constructor|apply call_reads].
Qed.
End planner.

(** ** The passes settle

    An operator is settled for a rewriting when neither it nor an operator below it
    would be rewritten. *)
Inductive settled (t : LogicalOp → LogicalOp) : LogicalOp → Prop :=
| settled_op op : t op = op → (∀ i, i ∈ children op → settled t i) → settled t op.

Lemma settled_at t op : settled t op → t op = op.
Proof. by destruct 1. Qed.
Lemma settled_child t op i : settled t op → i ∈ children op → settled t i.
Proof. destruct 1; auto. Qed.
Lemma walk_same f op : (∀ i, i ∈ children op → f i = i) → walk_children f op = op.
Proof. intros H. rewrite (walk_children_ext _ (λ i, i)) by done. apply walk_children_id. Qed.
Lemma everywhere_settled t op : settled t op → everywhere t op = op.
Proof. induction 1 as [op Hop _ IH]. rewrite everywhere_step, walk_same by done. done. Qed.
Lemma everywhere_settles t op :
  (∀ op, (∀ i, i ∈ children op → settled t i) → settled t (t op)) → settled t (everywhere t op).
Proof.
  intros Ht. induction op as [op IH] using children_ind. rewrite everywhere_step. apply Ht.
  intros i. rewrite children_walk. intros (j & -> & Hj)%list_elem_of_fmap. auto.
Qed.
Lemma push_settled op : settled cap_input op → push op = op.
Proof. induction 1 as [op Hop _ IH]. rewrite push_step, Hop. by apply walk_same. Qed.

(** What the two rewritings make of a filter: a lookup, a union of lookups, or a join
    with one. *)
Definition is_lookup (op : LogicalOp) : Prop :=
  match op with
  | Op.IdLookup _ _ | Op.FullTextLookup _ _ _ _ _ _ => True
  | Op.Union ops _ => Forall (λ o, ∃ label alias m residual, o = fulltext_op label alias m residual) ops
  | _ => False
  end.
Inductive rewritten : LogicalOp → LogicalOp → Prop :=
| rewritten_not op : rewritten op op
| rewritten_leaf input predicate op : is_lookup op → rewritten (Op.Filter input predicate) op
| rewritten_join input right_ same_match predicate op : is_lookup op →
    rewritten (Op.Filter (Op.CorrelatedJoin input right_ same_match) predicate)
      (Op.CorrelatedJoin input op same_match).

Ltac rewrites := first [apply rewritten_not | by apply rewritten_leaf | by apply rewritten_join].
Lemma id_lookup_rewritten op : rewritten op (id_lookup_of op).
Proof. destruct op; try apply rewritten_not. cbn. repeat case_match; subst; rewrites. Qed.
Lemma fulltext_rewritten {conn} {O : SqlOps conn} (c : conn) op : rewritten op (fulltext_of c op).
Proof.
  destruct op; try apply rewritten_not. cbn. destruct op; try apply rewritten_not.
  - case_match; [apply rewritten_not|]. case_match eqn:Hc.
    + apply conjunct_lookup_inv in Hc as (m & residual & ->). rewrites.
    + destruct (try_rewrite_or_chain_to_union c label alias predicate) as [o|] eqn:Ho; [|apply rewritten_not].
      apply or_union_inv in Ho as (ops & -> & Hops). apply rewritten_leaf. cbn.
      eapply Forall_impl; [done|]. cbn. intros o (m & ->). eauto.
  - destruct op2; try apply rewritten_not. case_match; [apply rewritten_not|]. case_match eqn:Hc; [|apply rewritten_not].
    apply conjunct_lookup_inv in Hc as (m & residual & ->). rewrites.
Qed.

(** Rewritings that concern filters and limits only. *)
Definition local (u : LogicalOp → LogicalOp) : Prop :=
  ∀ op, match op with Op.Filter _ _ | Op.Limit _ _ => True | _ => u op = op end.
Lemma lookup_settled u op : local u → is_lookup op → settled u op.
Proof.
  intros Hu Hop. constructor; [specialize (Hu op); destruct op; solve [destruct Hop | exact Hu]|].
  destruct op; try solve [destruct Hop]; try (intros i Hi; by apply not_elem_of_nil in Hi).
  cbn in *. intros i Hi. rewrite Forall_forall in Hop. destruct (Hop i Hi) as (l & a & m & r & ->).
  constructor; [apply (Hu (fulltext_op l a m r))|intros j Hj; by apply not_elem_of_nil in Hj].
Qed.
Lemma rewritten_settled u op op' : local u → rewritten op op' →
  (∀ i, i ∈ children op → settled u i) → op' = op ∨ settled u op'.
Proof.
  intros Hu Hr Hop. destruct Hr as [op|i p op Hl|i r sm p op Hl]; [by left|right; by apply lookup_settled|].
  right. constructor; [apply (Hu (Op.CorrelatedJoin _ _ _))|]. cbn.
  assert (settled u (Op.CorrelatedJoin i r sm)) as Hj by (apply Hop; constructor).
  intros x [->|[->|Hx%not_elem_of_nil]%elem_of_cons]%elem_of_cons; [|by apply lookup_settled|done].
  by apply (settled_child _ _ _ Hj); constructor.
Qed.

Lemma cap_local : local cap_input.
Proof. by intros []. Qed.
Lemma id_local : local id_lookup_of.
Proof. by intros []. Qed.
Lemma fulltext_local {conn} {O : SqlOps conn} (c : conn) : local (fulltext_of c).
Proof. by intros []. Qed.

(** [push] settles the limits. *)
Lemma cap_target_idem n op : cap_target n (cap_target n op) = cap_target n op.
Proof.
  induction op; cbn; try done; [|by f_equal]. unfold tighter. destruct var_length, result_cap; by rewrite <-?N.min_assoc, ?N.min_id.
Qed.
Lemma cap_target_push n op : cap_target n (push op) = push (cap_target n op).
Proof. induction op; try by rewrite !push_step. rewrite !push_step. cbn. by rewrite IHop. Qed.
Lemma push_settles op : settled cap_input (push op).
Proof.
  remember (op_size op) as n eqn:Hn. revert op Hn. induction n as [n IH] using lt_wf_ind.
  intros op ->. constructor.
  - rewrite push_step. destruct op; try done. cbn. by rewrite cap_target_push, cap_target_idem.
  - intros i. rewrite push_step, children_walk. intros (j & -> & Hj)%list_elem_of_fmap.
    apply children_size in Hj. rewrite size_cap_input in Hj. by eapply IH.
Qed.

(** A rewriting of filters settles, and keeps what another has settled. *)
Section keeps.
Context (t : LogicalOp → LogicalOp) (Ht : ∀ op, rewritten op (t op)) (Hl : local t).

Lemma rewriting_settles op : settled t (everywhere t op).
Proof.
  apply everywhere_settles. intros o Ho.
  destruct (rewritten_settled t o (t o) Hl (Ht o) Ho) as [Hr|Hr]; [|done]. rewrite Hr. by constructor.
Qed.
Lemma everywhere_keeps u op : local u →
  (∀ op, u op = op → u (walk_children (everywhere t) op) = walk_children (everywhere t) op) →
  settled u op → settled u (everywhere t op).
Proof.
  intros Hu Hw. induction 1 as [op Hop _ IH]. rewrite everywhere_step.
  assert (∀ i, i ∈ children (walk_children (everywhere t) op) → settled u i) as Hc.
  { intros i. rewrite children_walk. intros (j & -> & Hj)%list_elem_of_fmap. by apply IH. }
  destruct (rewritten_settled u _ _ Hu (Ht (walk_children (everywhere t) op)) Hc) as [->|Hr]; [|done].
  constructor; [by apply Hw|done].
Qed.

(** The operator at the top. *)
Lemma everywhere_head op :
  everywhere t op = walk_children (everywhere t) op
  ∨ (∃ i p, op = Op.Filter i p) ∧ (is_lookup (everywhere t op)
      ∨ ∃ j l sm, everywhere t op = Op.CorrelatedJoin j l sm ∧ is_lookup l).
Proof.
  rewrite everywhere_step. remember (walk_children (everywhere t) op) as x eqn:Hx.
  destruct (Ht x) as [x|i p y Hy|i r sm p y Hy]; [by left|right..]; (split; [destruct op; simplify_eq/=; eauto|]);
    [by left|right; eauto].
Qed.
Lemma everywhere_other op : (∀ i p, op ≠ Op.Filter i p) →
  everywhere t op = walk_children (everywhere t) op.
Proof. intros Hop. by destruct (everywhere_head op) as [?|[(i & p & ->) _]]; [|destruct (Hop i p)]. Qed.
Lemma cap_target_everywhere n op : cap_target n (everywhere t op) = everywhere t (cap_target n op).
Proof.
  induction op; cbn [cap_target];
    try (rewrite !everywhere_other by done; cbn [walk_children cap_target]; congruence).
  destruct (everywhere_head (Op.Filter op predicate)) as [->|[_ [Hop|(j & l & sm & -> & _)]]]; [done| |done].
  destruct (everywhere t (Op.Filter op predicate)); solve [reflexivity|destruct Hop].
Qed.
Lemma everywhere_keeps_caps op : settled cap_input op → settled cap_input (everywhere t op).
Proof.
  apply everywhere_keeps; [apply cap_local|]. intros o Ho. destruct o; try done. cbn in *.
  f_equal. rewrite cap_target_everywhere. congruence.
Qed.
(** A scan, alone or under a join, stays where it is. *)
Lemma everywhere_scan op label alias : everywhere t op = Op.Scan label alias → op = Op.Scan label alias.
Proof.
  destruct (everywhere_head op) as [->|[_ [Hop|(j & l & sm & -> & _)]]]; [by destruct op| |done].
  intros H. by rewrite H in Hop.
Qed.
Lemma everywhere_join op i label alias sm :
  everywhere t op = Op.CorrelatedJoin i (Op.Scan label alias) sm →
  ∃ j, op = Op.CorrelatedJoin j (Op.Scan label alias) sm.
Proof.
  destruct (everywhere_head op) as [->|[_ [Hop|(j & l & s' & -> & Hl')]]].
  - destruct op; try done. cbn. intros [= _ H ->]. apply everywhere_scan in H as ->. eauto.
  - intros H. rewrite H in Hop. destruct Hop.
  - intros [= -> -> ->]. done.
Qed.
Lemma everywhere_keeps_ids op : settled id_lookup_of op → settled id_lookup_of (everywhere t op).
Proof.
  apply everywhere_keeps; [apply id_local|]. intros o Ho. destruct o; try done. cbn in *.
  destruct (everywhere t o) eqn:He; try done.
  - apply everywhere_scan in He as ->. by repeat case_match.
  - lazymatch type of He with _ = Op.CorrelatedJoin _ ?r _ => destruct r; try done end.
    apply everywhere_join in He as (j & ->). by repeat case_match.
Qed.
End keeps.

(** A second run of the passes changes nothing. *)
Lemma passes_idempotent {conn} {O : SqlOps conn} (c : conn) op :
  apply_post_passes c (apply_post_passes c op) = apply_post_passes c op.
Proof.
  pose proof (fulltext_rewritten c) as Hf. pose proof id_lookup_rewritten as Hi.
  rewrite !apply_post_passes_def.
  set (x := everywhere (fulltext_of c) (everywhere id_lookup_of (push op))).
  assert (settled cap_input x) as Hcap by (by apply everywhere_keeps_caps, everywhere_keeps_caps, push_settles).
  assert (settled id_lookup_of x) as Hid
    by (apply everywhere_keeps_ids; [done|]; apply rewriting_settles; [done|apply id_local]).
  rewrite (push_settled x Hcap), (everywhere_settled _ x Hid). apply everywhere_settled.
  apply rewriting_settles; [done|apply fulltext_local].
Qed.
