(* ===== verification/Trails.v ===== *)
(** * Paths of variable length

    [traverse_paths] of src/src/storage/edge.rs enumerates exactly the trails of the
    graph from a node, each once, and a cap on the results only cuts the list. *)
From S2P Require Export Paths.

(** ** Trails

    A hop follows a stored edge in the direction; a trail uses no edge twice. *)
Definition step_key (s : PathStep) : eid := (step_src s, step_dst s, step_label s, step_seq s).
Definition hop_ends (dir : Direction) (x : N) (s : PathStep) : Prop :=
  let out := step_src s = x ∧ step_dst s = step_to s in
  let inc := step_dst s = x ∧ step_src s = step_to s in
  match dir with Outgoing => out | Incoming => inc | Both => out ∨ inc end.

Inductive chain (hop : N → PathStep → Prop) (x : N) : list PathStep → N → Prop :=
| chain_here : chain hop x [] x
| chain_hop s p y : hop x s → chain hop (step_to s) p y → chain hop x (s :: p) y.

Lemma sum_list_with_ext {A} (f g : A → nat) l :
  (∀ x, x ∈ l → f x = g x) → sum_list_with f l = sum_list_with g l.
Proof.
  induction l as [|x l IH]; intros H; cbn; [done|]. rewrite H by constructor. f_equal. apply IH.
  intros y Hy. apply H. by constructor.
Qed.

Section trails.
Context (E : edges) (labels : list string) (dir : Direction) (filters : gmap string value).

Definition hop (x : N) (s : PathStep) : Prop :=
  (labels = [] ∨ step_label s ∈ labels) ∧ hop_ends dir x s
  ∧ ∃ props, E !! step_key s = Some props ∧ filters_match filters props = true.
Definition trail (x : N) (p : list PathStep) (y : N) : Prop := chain hop x p y ∧ NoDup (step_key <$> p).

Lemma chain_keys x p y s : chain hop x p y → s ∈ p → is_Some (E !! step_key s).
Proof.
  induction 1 as [x|x s' p y (_ & _ & props & He & _) _ IH]; intros Hs; [by apply not_elem_of_nil in Hs|].
  apply elem_of_cons in Hs as [->|Hs]; [by eexists|auto].
Qed.
(** A trail has no more hops than the graph has edges. *)
Lemma trail_length x p y : trail x p y → length p ≤ size E.
Proof.
  intros [Hc Hn]. rewrite <-(length_fmap step_key), size_keys. apply submseteq_length, NoDup_submseteq; [done|].
  intros k (s & -> & Hs)%list_elem_of_fmap. apply elem_of_keys. by eapply chain_keys.
Qed.
End trails.

Lemma fmap_bind {A B C} (f : B → C) (h : A → list B) l : f <$> (l ≫= h) = l ≫= λ x, f <$> h x.
Proof. induction l as [|x l IH]; cbn; [done|]. by rewrite fmap_app, IH. Qed.

(** ** The search over a list of steps for each node *)
Section search.
Context {conn : Type} {O : SqlOps conn} {Mp : Msgpack}.
Context (labels : list string) (dir : Direction) (lo hi : N) (filters : gmap string value) (c : conn).
Context (cand : N → list (PathStep * Properties)).

Definition fresh (fr : frame) (sp : PathStep * Properties) : Prop :=
  step_key sp.1 ∉ f_visited fr ∧ filters_match filters sp.2 = true.
Definition steps_of (fr : frame) : list PathStep := (filter (fresh fr) (cand (f_node fr))).*1.
Definition extended (fr : frame) (s : PathStep) : frame :=
  mkFrame (step_to s) (f_path fr ++ [s]) ({[step_key s]} ∪ f_visited fr).
Definition wanted (fr : frame) (s : PathStep) : list (N * list PathStep) :=
  if decide (lo <= N.of_nat (length (f_path fr ++ [s])))%N then [(step_to s, f_path fr ++ [s])] else [].
Definition pushed (fr : frame) (s : PathStep) : list frame :=
  if decide (N.of_nat (length (f_path fr ++ [s])) < hi)%N then [extended fr s] else [].

(** What is found below a frame, by recursion on how much longer its path can get,
    and how many frames that takes. *)
Fixpoint explored (k : nat) (fr : frame) : list (N * list PathStep) :=
  match k with
  | 0 => []
  | S k' =>
      if decide (hi <= N.of_nat (length (f_path fr)))%N then []
      else steps_of fr ≫= λ s, wanted fr s ++ explored k' (extended fr s)
  end.
Fixpoint frames (k : nat) (fr : frame) : nat :=
  match k with
  | 0 => 1
  | S k' => S (sum_list_with (frames k') (steps_of fr ≫= pushed fr))
  end.

(** One step of the loop over the steps of a frame, without cap and bound on work. *)
Definition visit (fr : frame) (st : dfs) (sp : PathStep * Properties) : dfs :=
  if decide (fresh fr sp)
  then mkDfs (pushed fr sp.1 ++ d_stack st) (d_results st ++ wanted fr sp.1) (d_fuel st) else st.
Lemma foldl_visit fr l st :
  foldl (visit fr) st l
  = mkDfs (reverse ((filter (fresh fr) l).*1 ≫= pushed fr) ++ d_stack st)
      (d_results st ++ ((filter (fresh fr) l).*1 ≫= wanted fr)) (d_fuel st).
Proof.
  revert st. induction l as [|sp l IH]; intros [stack res fuel]; [cbn; by rewrite app_nil_r|].
  cbn [foldl]. rewrite IH, filter_cons. unfold visit. case_decide; [|done].
  cbn [d_stack d_results d_fuel fmap list_fmap mbind list_bind]. rewrite reverse_app, <-!app_assoc.
  assert (reverse (pushed fr sp.1) = pushed fr sp.1) as -> by (unfold pushed; by case_decide).
  done.
Qed.

Lemma visit_edge_plain fr label neighbor e st :
  visit_edge lo hi filters None 0 fr label neighbor e st
  = Ok (inr (visit fr st (mkStep e.1.1.1 e.1.1.2 label e.1.2 neighbor, e.2))).
Proof.
  clear cand. destruct e as [[[s d] q] props]. cbn [fst snd]. unfold visit_edge, visit, fresh, extended, wanted, pushed, step_key.
  cbn [bool_decide fst snd step_src step_dst step_label step_seq step_to f_visited f_path].
  replace (N.of_nat (length (f_path fr ++ [mkStep s d label q neighbor])))
    with (N.of_nat (length (f_path fr)) + 1)%N by (rewrite length_app; cbn; lia).
  destruct st as [stack res fuel]. cbn [d_stack d_results d_fuel].
  change (bool_decide (0%N ≠ 0%N)) with false. cbn [andb].
  rewrite (decide_False (P := 0%N ≠ 0%N)) by (intros []; done).
  destruct (decide ((s, d, label, q) ∈ f_visited fr)) as [Hv|Hv].
  { by rewrite decide_False by (cbn; tauto). }
  destruct (filters_match filters props) eqn:Hf; cbn [negb].
  2:{ rewrite decide_False; [done|]. cbn. intros [_ ?]. congruence. }
  rewrite decide_True by done. unfold results_full. rewrite andb_false_r.
  repeat case_bool_decide; repeat case_decide; try done; by rewrite ?app_nil_r.
Qed.
Lemma iter_until_plain {A B R} (f : B → dfs → Res (R + dfs)) (g : B → A) (h : dfs → A → dfs) l st :
  (∀ x st, x ∈ l → f x st = Ok (inr (h st (g x)))) →
  iter_until f l st = Ok (inr (foldl h st (g <$> l))).
Proof.
  revert st. induction l as [|x l IH]; intros st Hf; [done|]. cbn. rewrite Hf by constructor. cbn.
  apply IH. intros. apply Hf. by constructor.
Qed.
Lemma iter_until_nested {A B R} (f : B → dfs → Res (R + dfs)) (g : B → list A) (h : dfs → A → dfs) l st :
  (∀ x st, x ∈ l → f x st = Ok (inr (foldl h st (g x)))) →
  iter_until f l st = Ok (inr (foldl h st (l ≫= g))).
Proof.
  revert st. induction l as [|x l IH]; intros st Hf; [done|]. cbn. rewrite Hf by constructor. cbn.
  rewrite foldl_app. apply IH. intros. apply Hf. by constructor.
Qed.

(** The loop, when each step of it reads what [cand] says. *)
Context (good : frame → Prop) (bound : nat).
Context (Hexpand : ∀ fr st, good fr →
  expand labels dir lo hi filters None 0 c fr st = Ok (inr (foldl (visit fr) st (cand (f_node fr))))).
Context (Hgood : ∀ fr s, good fr → s ∈ steps_of fr → good (extended fr s)).
Context (Hbound : ∀ fr, good fr → bound ≤ length (f_path fr) → steps_of fr = []).
Abbreviation left_of fr := (bound - length (f_path fr)).

Lemma left_extended fr s : left_of (extended fr s) = pred (left_of fr).
Proof. unfold extended. cbn [f_path]. rewrite length_app. cbn. lia. Qed.
Lemma explored_step fr : good fr →
  explored (left_of fr) fr
  = if decide (hi <= N.of_nat (length (f_path fr)))%N then []
    else steps_of fr ≫= λ s, wanted fr s ++ explored (left_of (extended fr s)) (extended fr s).
Proof.
  intros Hfr. destruct (left_of fr) as [|k] eqn:Hk; cbn [explored].
  - rewrite Hbound by (done || lia). by case_decide.
  - case_decide; [done|]. assert (∀ s, left_of (extended fr s) = k) as Hs.
    { intros s. rewrite left_extended, Hk. done. }
    apply list_bind_ext; [|done]. intros s. by rewrite Hs.
Qed.
Lemma frames_step fr : good fr →
  frames (left_of fr) fr
  = S (sum_list_with (λ fr', frames (left_of fr') fr') (steps_of fr ≫= pushed fr)).
Proof.
  intros Hfr. destruct (left_of fr) as [|k] eqn:Hk; cbn [frames].
  - by rewrite Hbound by (done || lia).
  - f_equal. apply sum_list_with_ext. intros fr' (s & Hf & Hs)%list_elem_of_bind.
    unfold pushed in Hf. case_decide; [|by apply not_elem_of_nil in Hf].
    apply list_elem_of_singleton in Hf as ->. by rewrite left_extended, Hk.
Qed.

Abbreviation below fr := (explored (left_of fr) fr).
Lemma explored_pushed fr s : good (extended fr s) → pushed fr s ≫= (λ fr, below fr) = below (extended fr s).
Proof.
  intros Hg. unfold pushed. case_decide as Hd; cbn [mbind list_bind]; [by rewrite app_nil_r|].
  rewrite explored_step by done. rewrite decide_True; [done|]. cbn [extended f_path]. lia.
Qed.
Lemma good_pushed fr : good fr → Forall good (steps_of fr ≫= pushed fr).
Proof.
  intros Hfr. apply Forall_forall. intros fr' (s & Hf & Hs)%list_elem_of_bind.
  unfold pushed in Hf. case_decide; [|by apply not_elem_of_nil in Hf].
  apply list_elem_of_singleton in Hf as ->. auto.
Qed.
Lemma explored_kids fr l : (∀ s, s ∈ l → good (extended fr s)) →
  (l ≫= wanted fr) ++ ((l ≫= pushed fr) ≫= λ fr, below fr)
  ≡ₚ l ≫= λ s, wanted fr s ++ below (extended fr s).
Proof.
  induction l as [|s l IH]; intros Hk; [done|]. cbn [mbind list_bind].
  change (list_bind ?A ?B ?f ?l) with (l ≫= f).
  rewrite bind_app, explored_pushed by (apply Hk; constructor).
  rewrite <-IH by (intros; apply Hk; by constructor). rewrite <-!app_assoc. apply Permutation_app_head.
  rewrite !app_assoc. apply Permutation_app_tail, Permutation_app_comm.
Qed.
Lemma loop_explores fuel stack res w : Forall good stack →
  sum_list_with (λ fr, frames (left_of fr) fr) stack < fuel →
  ∃ out, paths_loop labels dir lo hi filters None 0 c fuel (mkDfs stack res w) = Some (Ok out)
    ∧ out ≡ₚ res ++ (stack ≫= λ fr, below fr).
Proof.
  revert stack res w. induction fuel as [|fuel IH]; intros stack res w Hg Hf; [lia|].
  destruct stack as [|fr stack]; cbn [paths_loop d_stack d_results d_fuel].
  { exists res. split; [done|]. cbn. by rewrite app_nil_r. }
  apply Forall_cons in Hg as [Hfr Hg]. cbn [sum_list_with] in Hf.
  cbn [mbind list_bind]. rewrite explored_step, frames_step in * by done. case_decide.
  { destruct (IH stack res w Hg) as (out & -> & Hout); [lia|]. eauto. }
  rewrite Hexpand, foldl_visit by done. fold (steps_of fr). cbn [d_stack d_results d_fuel].
  set (kids := steps_of fr ≫= pushed fr) in *.
  destruct (IH (reverse kids ++ stack) (res ++ (steps_of fr ≫= wanted fr)) w) as (out & -> & Hout).
  { apply Forall_app. split; [|done]. apply Forall_reverse. by apply good_pushed. }
  { rewrite sum_list_with_app, sum_list_with_reverse. lia. }
  exists out. split; [done|]. rewrite Hout, <-app_assoc. apply Permutation_app_head.
  rewrite bind_app, reverse_Permutation, app_assoc. apply Permutation_app_tail.
  apply explored_kids. auto.
Qed.

(** What is found below a frame: its trails onwards, each once. *)
Definition listed (x : N) (s : PathStep) : Prop :=
  ∃ props, (s, props) ∈ cand x ∧ filters_match filters props = true.
Lemma elem_of_steps fr s :
  s ∈ steps_of fr ↔ listed (f_node fr) s ∧ step_key s ∉ f_visited fr.
Proof.
  unfold steps_of, listed. rewrite list_elem_of_fmap. split.
  - intros ([s' props] & -> & [[Hv Hf] Hc]%list_elem_of_filter). eauto.
  - intros [(props & Hc & Hf) Hv]. exists (s, props). split; [done|]. by apply list_elem_of_filter.
Qed.
Definition onward (fr : frame) (q : list PathStep) (y : N) : Prop :=
  chain listed (f_node fr) q y ∧ NoDup (step_key <$> q)
  ∧ ∀ s, s ∈ q → step_key s ∉ f_visited fr.
Lemma onward_cons fr s q y :
  onward fr (s :: q) y ↔ s ∈ steps_of fr ∧ onward (extended fr s) q y.
Proof.
  unfold onward. rewrite elem_of_steps, fmap_cons, NoDup_cons. cbn [extended f_node f_visited]. split.
  - intros (Hc & [Hs Hn] & Hv). inversion Hc; subst. split; [split; [done|apply Hv; by left]|]. split_and!; [done..|].
    intros s' Hs'. apply not_elem_of_union. split; [|apply Hv; by right].
    rewrite elem_of_singleton. intros He. apply Hs. rewrite <-He. by apply list_elem_of_fmap_2.
  - intros ([Hl Hs] & Hc & Hn & Hv). split_and!; [by constructor| |done|].
    + intros (s' & He & Hs')%list_elem_of_fmap. apply (Hv s' Hs'). rewrite He. set_solver.
    + intros s' [->|Hs']%elem_of_cons; [done|]. specialize (Hv s' Hs'). set_solver.
Qed.
Lemma elem_of_below k fr y p : good fr → left_of fr = k →
  (y, p) ∈ below fr ↔ ∃ q, q ≠ [] ∧ p = f_path fr ++ q ∧ onward fr q y
    ∧ (lo <= N.of_nat (length p) <= hi)%N.
Proof.
  revert fr. induction k as [|k IH]; intros fr Hg Hk; rewrite explored_step by done.
  { rewrite Hbound by (done || lia). split; [by case_decide; intros ?%not_elem_of_nil|].
    intros ([|s q] & ? & _ & Ho & _); [done|]. apply onward_cons in Ho as [Hs _].
    rewrite Hbound in Hs by (done || lia). by apply not_elem_of_nil in Hs. }
  case_decide as Hd.
  { split; [by intros ?%not_elem_of_nil|]. intros ([|s q] & ? & -> & _ & Hl); [done|].
    rewrite length_app in Hl. cbn in Hl. lia. }
  rewrite list_elem_of_bind. split.
  - intros (s & [Hw|Hb]%elem_of_app & Hs).
    + unfold wanted in Hw. case_decide as Hlo; [|by apply not_elem_of_nil in Hw].
      apply list_elem_of_singleton in Hw as [= -> ->]. exists [s]. split_and!; [done..| |done|].
      * apply onward_cons. split; [done|]. split_and!; [constructor..|by intros ? ?%not_elem_of_nil].
      * rewrite length_app. cbn. lia.
    + apply IH in Hb as (q & Hne & -> & Ho & Hl); [|auto|rewrite left_extended; lia].
      exists (s :: q). cbn [extended f_path] in *. rewrite <-app_assoc in *. split_and!; [done..| |lia|lia].
      by apply onward_cons.
  - intros ([|s q] & Hne & -> & Ho & Hl); [done|]. apply onward_cons in Ho as [Hs Ho]. exists s. split; [|done].
    apply elem_of_app. destruct q as [|s' q].
    + left. destruct Ho as [Hc _]. inversion Hc; subst. unfold wanted. rewrite decide_True by lia. by left.
    + right. apply IH; [auto|rewrite left_extended; lia|]. exists (s' :: q). cbn [extended f_path].
      by rewrite <-app_assoc.
Qed.
Context (Hcand : ∀ fr, good fr → NoDup (steps_of fr)).
Lemma NoDup_below k fr : good fr → left_of fr = k → NoDup (below fr).
Proof.
  revert fr. induction k as [|k IH]; intros fr Hg Hk; rewrite explored_step by done.
  { rewrite Hbound by (done || lia). case_decide; constructor. }
  case_decide; [constructor|].
  assert (∀ s e, s ∈ steps_of fr → e ∈ wanted fr s ++ below (extended fr s) →
    ∃ q, e.2 = f_path fr ++ s :: q) as Hp.
  { intros s [y p] Hs [Hw|Hb]%elem_of_app.
    - unfold wanted in Hw. case_decide; [|by apply not_elem_of_nil in Hw].
      apply list_elem_of_singleton in Hw as [= -> ->]. by exists [].
    - apply (elem_of_below k) in Hb as (q & _ & -> & _); [|auto|rewrite left_extended; lia].
      exists q. cbn. by rewrite <-app_assoc. }
  apply NoDup_bind; [| |auto].
  - intros s1 s2 e H1 H2 He1 He2. destruct (Hp s1 e H1 He1) as [q1 E1]. destruct (Hp s2 e H2 He2) as [q2 E2].
    rewrite E1 in E2. apply app_inv_head in E2. congruence.
  - intros s Hs. apply NoDup_app. split_and!.
    + unfold wanted. case_decide; [apply NoDup_singleton|constructor].
    + intros [y p] Hw Hb. unfold wanted in Hw. case_decide; [|by apply not_elem_of_nil in Hw].
      apply list_elem_of_singleton in Hw as [= -> ->].
      apply (elem_of_below k) in Hb as (q & Hq & E1 & _); [|auto|rewrite left_extended; lia].
      cbn in E1. rewrite <-(app_nil_r (f_path fr ++ [s])) in E1 at 1. apply app_inv_head in E1. congruence.
    + apply IH; [auto|rewrite left_extended; lia].
Qed.
End search.

(** ** The stored graph *)
Lemma iter_until_ext {A R} (f g : A → dfs → Res (R + dfs)) l st :
  (∀ x st, f x st = g x st) → iter_until f l st = iter_until g l st.
Proof.
  intros H. revert st. induction l as [|x l IH]; intros st; [done|]. cbn. rewrite H.
  destruct (g x st) as [[r|st']|e|]; [done|apply IH|done..].
Qed.
Section view.
Context {conn : Type} {O : SqlOps conn} {view : conn → db} {L : SqlLaws conn view} {Mp : Msgpack}.
Context (labels : list string) (dir : Direction) (lo hi : N) (filters : gmap string value)
  (cap : option nat) (work : N) (c : conn).

Lemma directed_edges_view x y l : directed_edges dir c x y l = directed_edges dir (view c) x y l.
Proof.
  unfold directed_edges. rewrite !(get_all_edge_props_view (conn := conn)).
  by rewrite (edge_exists_view (conn := conn)).
Qed.
Lemma expand_view fr st :
  expand labels dir lo hi filters cap work c fr st = expand labels dir lo hi filters cap work (view c) fr st.
Proof.
  unfold expand. rewrite (get_all_edge_labels_view (conn := conn)).
  destruct (if decide (labels = []) then _ else _) as [ls|e|]; [|done..]. cbn [mbind result_bind].
  apply iter_until_ext. intros l st'. rewrite (get_neighbors_view (conn := conn)).
  destruct (get_neighbors _ l dir (view c)) as [ids|e|]; [|done..]. cbn [mbind result_bind].
  apply iter_until_ext. intros y st''. by rewrite directed_edges_view.
Qed.
Lemma traverse_paths_view start fuel :
  traverse_paths labels dir lo hi filters cap work c start fuel
  = traverse_paths labels dir lo hi filters cap work (view c) start fuel.
Proof.
  unfold traverse_paths. set (st := mkDfs _ _ _). destruct (_ && _); [done|].
  destruct (decide (hi = 0%N)); [done|]. generalize st. clear st. induction fuel as [|fuel IH]; intros st; [done|]. cbn [paths_loop].
  destruct (d_stack st) as [|fr stack]; [done|]. case_decide; [apply IH|]. rewrite expand_view.
  destruct (expand _ _ _ _ _ _ _ (view c) _ _) as [[r|st']|e|]; [done|apply IH|done..].
Qed.
(** More fuel gives the same result. *)
Lemma paths_loop_more st fuel fuel' r : fuel ≤ fuel' →
  paths_loop labels dir lo hi filters cap work c fuel st = Some r →
  paths_loop labels dir lo hi filters cap work c fuel' st = Some r.
Proof.
  revert st fuel'. induction fuel as [|fuel IH]; intros st [|fuel'] Hf; try done; [lia|]. cbn [paths_loop].
  destruct (d_stack st) as [|fr stack]; [done|]. case_decide; [apply IH; lia|].
  destruct (expand _ _ _ _ _ _ _ c _ _) as [[x|st']|e|]; [done|apply IH; lia|done..].
Qed.
Lemma traverse_paths_more start fuel fuel' r : fuel ≤ fuel' →
  traverse_paths labels dir lo hi filters cap work c start fuel = Some r →
  traverse_paths labels dir lo hi filters cap work c start fuel' = Some r.
Proof.
  intros Hf. unfold traverse_paths. destruct (_ && _); [done|]. destruct (decide (hi = 0%N)); [done|].
  by apply paths_loop_more.
Qed.
End view.

Section graph.
Context {Mp : Msgpack} {ML : MsgpackLaws} {g : graph} {d : db} (Hr : repr g d).
Context (labels : list string) (dir : Direction) (lo hi : N) (filters : gmap string value).
Context (Hlabels : NoDup labels) (start : N) (Hs : in_u64 start).
Abbreviation E := (g_edges g).

(** The types that are followed from a node. *)
Definition effective (x : N) : list string :=
  if decide (labels = []) then
    match get_all_edge_labels x dir d with Ok all => all.*1 | _ => [] end
  else labels.
Lemma edge_label_valid e p : E !! e = Some p → valid_name (eid_label e) ∧ in_u64 (eid_src e) ∧ in_u64 (eid_dst e).
Proof. intros He. apply (edge_valid Hr) in He as [He _]. destruct e as [[[? ?] ?] ?]. by destruct He as (? & ? & ? & ?). Qed.
Lemma listed_labels (ids_of : string → list N) (R : string → N → Prop) (Ls : list (string * list N)) l :
  (∀ l ids, (l, ids) ∈ Ls ↔ valid_name l ∧ ids ≠ [] ∧ ids_of l = ids) →
  (∀ l y, y ∈ ids_of l ↔ R l y) → (∀ l y, R l y → valid_name l) →
  l ∈ Ls.*1 ↔ ∃ y, R l y.
Proof.
  intros HL Hy Hv. rewrite list_elem_of_fmap. split.
  - intros ([l' ids] & -> & (_ & Hne & <-)%HL). destruct (ids_of l') as [|y ys] eqn:Hi; [done|].
    exists y. apply Hy. cbn [fst]. rewrite Hi. by left.
  - intros [y Hl]. exists (l, ids_of l). split; [done|]. apply HL. split_and!; [by eapply Hv| |done].
    apply Hy in Hl. intros Hi. rewrite Hi in Hl. by apply not_elem_of_nil in Hl.
Qed.
Lemma all_labels_spec x : in_u64 x →
  ∃ all, get_all_edge_labels x dir d = Ok all ∧ NoDup all.*1 ∧ ∀ l, l ∈ all.*1 ↔ ∃ y, nbr E dir x l y.
Proof.
  intros Hx.
  destruct (edge_labels_in_spec d TABLE_ADJ_OUT eq_refl (r_out_tbl _ _ Hr) _ (r_out _ _ Hr) x Hx)
    as (Lo & ELo & No & HLo).
  destruct (edge_labels_in_spec d TABLE_ADJ_IN eq_refl (r_in_tbl _ _ Hr) _ (r_in _ _ Hr) x Hx)
    as (Li & ELi & Ni & HLi).
  assert (∀ l, l ∈ Lo.*1 ↔ ∃ y, out_rel E x l y) as Ho.
  { intros l. apply (listed_labels _ (out_rel E x) _ _ HLo); [intros; by apply (elem_of_out Hr)|].
    intros l' y H. by apply (out_rel_valid Hr) in H as [? _]. }
  assert (∀ l, l ∈ Li.*1 ↔ ∃ y, in_rel E x l y) as Hi.
  { intros l. apply (listed_labels _ (in_rel E x) _ _ HLi); [intros; by apply (elem_of_in Hr)|].
    intros l' y H. by apply (in_rel_valid Hr) in H as [? _]. }
  unfold get_all_edge_labels. destruct dir; rewrite ?ELo, ?ELi; cbn [mbind result_bind]; eexists; (split; [done|]).
  - by split.
  - by split.
  - rewrite fmap_app. split.
    + apply NoDup_app. split_and!; [done| |].
      * intros l Hl (e & -> & [Hn _]%list_elem_of_filter)%list_elem_of_fmap. done.
      * eapply sublist_NoDup; [done|]. apply fmap_sublist, sublist_filter.
    + intros l. rewrite elem_of_app, Ho. split.
      * intros [[y Hy]|(e & -> & [_ He]%list_elem_of_filter)%list_elem_of_fmap]; [by exists y; left|].
        destruct (proj1 (Hi e.1)) as [y Hy]; [by apply list_elem_of_fmap_2|]. by exists y; right.
      * intros [y [Hy|Hy]]; [left; by exists y|].
        destruct (decide (l ∈ Lo.*1)) as [Hl|Hl]; [left; by apply Ho|]. right.
        assert (l ∈ Li.*1) as ([l' ids] & -> & Hin)%list_elem_of_fmap by (apply Hi; by exists y).
        apply list_elem_of_fmap. exists (l', ids). split; [done|]. by apply list_elem_of_filter.
Qed.
Lemma effective_spec x : in_u64 x →
  NoDup (effective x) ∧ (if decide (labels = []) then get_all_edge_labels x dir d ≫= λ all : list (string * list N), Ok all.*1
                         else Ok labels) = Ok (effective x)
  ∧ ∀ l y, nbr E dir x l y → l ∈ effective x ↔ labels = [] ∨ l ∈ labels.
Proof.
  intros Hx. destruct (all_labels_spec x Hx) as (all & Ha & Hn & Hl). unfold effective. rewrite Ha.
  case_decide as Hd; split_and!; try done.
  - intros l y Hy. split; [by left|]. intros _. apply Hl. by exists y.
  - intros l y _. split; [by right|]. by intros [?|?].
Qed.

(** The edges between a node and a neighbour, as steps. *)
Definition between (x : N) (l : string) (y : N) : list (N * N * N * Properties) :=
  match directed_edges dir d x y l with Ok es => es | _ => [] end.
Definition from (s t : N) (e : N * Properties) : N * N * N * Properties := (s, t, e.1, e.2).
Lemma from_spec s t l Ls : parallel (g := g) s t l Ls →
  NoDup (from s t <$> Ls).*1
  ∧ ∀ s' t' q p, (s', t', q, p) ∈ from s t <$> Ls ↔ s' = s ∧ t' = t ∧ E !! ((s, t, l, q) : eid) = Some p.
Proof.
  intros [Hso HL]. split.
  - rewrite <-list_fmap_compose. clear HL. induction Hso as [|e Ls Hso IH Hall]; [constructor|].
    cbn. constructor; [|done]. intros (e' & [= Hq] & He')%list_elem_of_fmap.
    rewrite Forall_forall in Hall. specialize (Hall e' He'). cbn in Hall. lia.
  - intros s' t' q p. rewrite list_elem_of_fmap. split.
    + intros ([q' p'] & [= -> -> -> ->] & Hin). by apply HL in Hin.
    + intros (-> & -> & Hp). exists (q, p). split; [done|]. by apply HL.
Qed.
Lemma between_spec x l y : in_u64 x → nbr E dir x l y →
  directed_edges dir d x y l = Ok (between x l y) ∧ NoDup (between x l y).*1
  ∧ ∀ s t q p, (s, t, q, p) ∈ between x l y ↔
      E !! ((s, t, l, q) : eid) = Some p ∧ hop_ends dir x (mkStep s t l q y).
Proof.
  intros Hx Hn.
  assert (valid_name l ∧ in_u64 y) as [Hl Hy].
  { destruct dir; cbn in Hn; [by apply (out_rel_valid Hr) in Hn as (? & ? & ?)
      |by apply (in_rel_valid Hr) in Hn as (? & ? & ?)|].
    by destruct Hn as [(? & ? & ?)%(out_rel_valid Hr)|(? & ? & ?)%(in_rel_valid Hr)]. }
  destruct (get_all_edge_props_spec Hr x y l Hx Hy Hl) as (L1 & E1 & [N1 M1]%from_spec).
  destruct (get_all_edge_props_spec Hr y x l Hy Hx Hl) as (L2 & E2 & [N2 M2]%from_spec).
  assert (∃ es, directed_edges dir d x y l = (if decide (es ≠ []) then Ok es else directed_edges dir d x y l)
    ∧ NoDup es.*1 ∧ ∀ s t q p, (s, t, q, p) ∈ es ↔
        E !! ((s, t, l, q) : eid) = Some p ∧ hop_ends dir x (mkStep s t l q y)) as (es & Hes & Hnd & Hm).
  { unfold directed_edges, hop_ends. cbn [step_src step_dst step_to].
    destruct dir; rewrite ?E1, ?E2; cbn [mbind result_bind].
    - exists (from x y <$> L1). split_and!; [unfold from; cbn [mbind result_bind]; by case_decide|done|]. intros s t q p. rewrite M1. naive_solver.
    - exists (from y x <$> L2). split_and!; [unfold from; cbn [mbind result_bind]; by case_decide|done|]. intros s t q p. rewrite M2. naive_solver.
    - destruct (decide (x ≠ y)) as [Hxy|Hxy].
      + exists ((from x y <$> L1) ++ (from y x <$> L2)). split_and!; [unfold from; cbn [mbind result_bind]; by case_decide| |].
        * rewrite fmap_app. apply NoDup_app. split_and!; [done| |done].
          intros k ([[[s t] q] p] & -> & Hin1)%list_elem_of_fmap ([[[s' t'] q'] p'] & Heq & Hin2)%list_elem_of_fmap.
          apply M1 in Hin1 as (-> & -> & _). apply M2 in Hin2 as (-> & -> & _). cbn in Heq. congruence.
        * intros s t q p. rewrite elem_of_app, M1, M2. naive_solver.
      + apply dec_stable in Hxy as <-. exists (from x x <$> L1). split_and!; [unfold from; cbn [mbind result_bind]; by case_decide|done|].
        intros s t q p. rewrite M1. naive_solver. }
  assert (es ≠ []) as Hne.
  { intros ->. assert (∃ s t q p, (s, t, q, p) ∈ ([] : list (N * N * N * Properties))) as (? & ? & ? & ? & H);
      [|by apply not_elem_of_nil in H].
    setoid_rewrite Hm. destruct dir; cbn in Hn; unfold hop_ends; cbn;
      [destruct Hn as (q & p & Hp); eauto 10..|].
    destruct Hn as [(q & p & Hp)|(q & p & Hp)]; eauto 10. }
  rewrite decide_True in Hes by done. unfold between. by rewrite Hes.
Qed.

Definition step_of (l : string) (y : N) (e : N * N * N * Properties) : PathStep * Properties :=
  (mkStep e.1.1.1 e.1.1.2 l e.1.2 y, e.2).
Definition incident (x : N) : list (PathStep * Properties) :=
  effective x ≫= λ l, nbs (d := d) dir l x ≫= λ y, step_of l y <$> between x l y.
Lemma hop_nbr x s p : E !! step_key s = Some p → hop_ends dir x s → nbr E dir x (step_label s) (step_to s).
Proof.
  destruct s as [a b l q y]. unfold hop_ends, step_key. cbn. intros Hp. unfold nbr, out_rel, in_rel.
  destruct dir; [intros [-> ->]|intros [-> ->]|intros [[-> ->]|[-> ->]]]; eauto.
Qed.
Lemma elem_of_incident x s p : in_u64 x →
  (s, p) ∈ incident x ↔ (labels = [] ∨ step_label s ∈ labels) ∧ hop_ends dir x s ∧ E !! step_key s = Some p.
Proof.
  intros Hx. destruct (effective_spec x Hx) as (_ & _ & Heff). unfold incident.
  rewrite list_elem_of_bind. split.
  - intros (l & (y & ([[[a b] q] p'] & [= -> ->] & He)%list_elem_of_fmap & Hy)%list_elem_of_bind & Hl).
    apply (elem_of_nbs Hr) in Hy; [|done]. apply (Heff l y Hy) in Hl.
    destruct (between_spec x l y Hx Hy) as (_ & _ & Hb). by apply Hb in He as [? ?].
  - intros (Hl & He & Hp). pose proof (hop_nbr _ _ _ Hp He) as Hn.
    exists (step_label s). split; [|by eapply Heff]. apply list_elem_of_bind. exists (step_to s).
    split; [|by apply (elem_of_nbs Hr)]. apply list_elem_of_fmap.
    exists (step_src s, step_dst s, step_seq s, p). split; [by destruct s|].
    destruct (between_spec x _ _ Hx Hn) as (_ & _ & Hb). apply Hb. by destruct s.
Qed.
Lemma NoDup_incident x : in_u64 x → NoDup (incident x).*1.
Proof.
  intros Hx. destruct (effective_spec x Hx) as (Hn & _ & _). unfold incident.
  rewrite fmap_bind. apply NoDup_bind; [| |done].
  - intros l1 l2 s _ _ H1 H2. 
    apply list_elem_of_fmap in H1 as (e1 & -> & (y1 & (b1 & -> & _)%list_elem_of_fmap & _)%list_elem_of_bind).
    apply list_elem_of_fmap in H2 as (e2 & Heq & (y2 & (b2 & -> & _)%list_elem_of_fmap & _)%list_elem_of_bind).
    cbn in Heq. congruence.
  - intros l _. rewrite fmap_bind. apply NoDup_bind.
    + intros y1 y2 s _ _ H1 H2.
      apply list_elem_of_fmap in H1 as (e1 & -> & (b1 & -> & _)%list_elem_of_fmap).
      apply list_elem_of_fmap in H2 as (e2 & Heq & (b2 & -> & _)%list_elem_of_fmap).
      cbn in Heq. congruence.
    + intros y Hy. apply (elem_of_nbs Hr) in Hy; [|done].
      destruct (between_spec x l y Hx Hy) as (_ & Hb & _).
      rewrite <-list_fmap_compose.
      assert (fst ∘ step_of l y <$> between x l y
              = (λ k : N * N * N, mkStep k.1.1 k.1.2 l k.2 y) <$> (between x l y).*1) as ->.
      { by rewrite <-list_fmap_compose. }
      apply NoDup_fmap_2; [|done]. intros [[a b] q] [[a' b'] q'] [= -> -> ->]. done.
    + destruct (get_neighbors_spec Hr x l dir Hx) as (ids & Hids & Hnd & _). unfold nbs. by rewrite Hids.
Qed.
Lemma expand_incident fr st : in_u64 (f_node fr) →
  expand labels dir lo hi filters None 0 d fr st
  = Ok (inr (foldl (visit lo hi filters fr) st (incident (f_node fr)))).
Proof.
  intros Hx. destruct (effective_spec (f_node fr) Hx) as (_ & He & _). unfold expand. rewrite He.
  cbn [mbind result_bind]. unfold incident. apply iter_until_nested. intros l st' _.
  rewrite (nbs_ok Hr). cbn [mbind result_bind]. apply iter_until_nested. intros y st'' Hy.
  apply (elem_of_nbs Hr) in Hy; [|done].
  destruct (between_spec (f_node fr) l y Hx Hy) as (Hb & _ & _). rewrite Hb. cbn [mbind result_bind].
  apply (iter_until_plain _ (step_of l y) (visit lo hi filters fr)). intros e st3 _.
  apply visit_edge_plain.
Qed.

(** The frames that the search builds. *)
Record good (fr : frame) : Prop := {
  good_node : in_u64 (f_node fr);
  good_visited : f_visited fr = list_to_set (step_key <$> f_path fr);
  good_nodup : NoDup (step_key <$> f_path fr);
  good_stored s : s ∈ f_path fr → is_Some (E !! step_key s) }.
Lemma good_start : good (mkFrame start [] ∅).
Proof. split; cbn; [done|done|constructor|by intros ? ?%not_elem_of_nil]. Qed.
Lemma step_stored fr s : in_u64 (f_node fr) → s ∈ steps_of filters incident fr →
  is_Some (E !! step_key s) ∧ step_key s ∉ f_visited fr ∧ in_u64 (step_to s).
Proof.
  intros Hx [(p & Hp & _) Hv]%elem_of_steps. apply elem_of_incident in Hp as (_ & He & Hp); [|done].
  split_and!; [by eexists|done|]. apply (edge_valid Hr) in Hp as [Hp _]. destruct s as [a b l q y].
  unfold step_key in Hp. cbn in *. destruct Hp as (? & ? & _ & _).
  unfold hop_ends in He. cbn in He. destruct dir; intuition congruence.
Qed.
Lemma good_extended fr s : good fr → s ∈ steps_of filters incident fr → good (extended fr s).
Proof.
  intros [Hx Hv Hn Hst] Hstep. destruct (step_stored fr s Hx Hstep) as (He & Hnv & Hy).
  split; cbn [extended f_node f_path f_visited]; [done|..].
  - rewrite Hv, fmap_app, list_to_set_app_L. cbn. set_solver.
  - rewrite fmap_app. apply NoDup_app. split_and!; [done| |apply NoDup_singleton].
    intros k Hk ->%list_elem_of_singleton. apply Hnv. rewrite Hv. by apply elem_of_list_to_set.
  - intros s' [Hs'|Hs'%list_elem_of_singleton]%elem_of_app; [auto|by subst].
Qed.
Lemma good_bound fr : good fr → length (f_path fr) ≤ size E.
Proof.
  intros [_ _ Hn Hst]. rewrite <-(length_fmap step_key), size_keys. apply submseteq_length, NoDup_submseteq; [done|].
  intros k (s & -> & Hs')%list_elem_of_fmap. apply elem_of_keys. auto.
Qed.
Lemma good_full fr : good fr → size E ≤ length (f_path fr) → steps_of filters incident fr = [].
Proof.
  intros Hg Hf. destruct (steps_of filters incident fr) as [|s l] eqn:Hl; [done|].
  assert (good (extended fr s)) as Hg' by (apply good_extended; [done|]; rewrite Hl; by left).
  apply good_bound in Hg'. cbn [extended f_path] in Hg'. rewrite length_app in Hg'. cbn in Hg'. lia.
Qed.
Lemma good_steps fr : good fr → NoDup (steps_of filters incident fr).
Proof.
  intros [Hx _ _ _]. unfold steps_of. eapply sublist_NoDup; [by apply (NoDup_incident (f_node fr))|].
  apply fmap_sublist, sublist_filter.
Qed.
Lemma chain_listed x p y : in_u64 x →
  chain (listed filters incident) x p y ↔ chain (hop E labels dir filters) x p y.
Proof.
  assert (∀ x s, in_u64 x → listed filters incident x s ↔ hop E labels dir filters x s) as Hl.
  { intros z s Hz. unfold listed, hop. setoid_rewrite elem_of_incident; [|done]. naive_solver. }
  assert (∀ x s, hop E labels dir filters x s → in_u64 (step_to s)) as Hto.
  { intros z s (_ & He & p' & Hp & _). apply (edge_valid Hr) in Hp as [Hp _]. destruct s as [a b l q w].
    unfold step_key in Hp. destruct Hp as (? & ? & _ & _). unfold hop_ends in He. cbn in *.
    destruct dir; intuition congruence. }
  intros Hx. split; induction 1 as [x|x s p y Hs' _ IH]; constructor; try (by apply Hl);
    apply IH; eapply Hto; [by apply Hl|done].
Qed.

Lemma traverse_paths_spec :
  ∃ res fuel, (∀ fuel', fuel ≤ fuel' → traverse_paths labels dir lo hi filters None 0 d start fuel' = Some (Ok res))
    ∧ NoDup res
    ∧ ∀ y p, (y, p) ∈ res ↔ trail E labels dir filters start p y ∧ (lo <= N.of_nat (length p) <= hi)%N.
Proof.
  pose proof (λ fr st Hg, expand_incident fr st (good_node fr Hg)) as Hexp.
  set (fr := mkFrame start [] ∅).
  set (first := if decide (lo = 0%N) then [(start, [])] else [] : list (N * list PathStep)).
  set (K := frames hi filters incident (size E - 0) fr).
  assert (∀ fuel', S K ≤ fuel' → ∃ out, traverse_paths labels dir lo hi filters None 0 d start fuel' = Some (Ok out)
    ∧ out ≡ₚ first ++ explored lo hi filters incident (size E) fr) as Hrun.
  { intros fuel' Hf. unfold traverse_paths. rewrite andb_false_r. fold first fr.
    destruct (decide (hi = 0%N)) as [Hhi|Hhi].
    - exists first. split; [done|].
      assert (explored lo hi filters incident (size E) fr = []) as ->; [|by rewrite app_nil_r].
      destruct (size E); [done|]. cbn [explored]. rewrite decide_True; [done|]. cbn. lia.
    - destruct (loop_explores labels dir lo hi filters d incident good (size E)
        Hexp good_extended good_full fuel' [fr] first 0)
        as (out & Hout & Hp).
      + constructor; [apply good_start|constructor].
      + cbn [sum_list_with]. unfold K, fr in *. cbn [f_path length] in *. lia.
      + exists out. split; [done|]. rewrite Hp. cbn [mbind list_bind]. rewrite app_nil_r.
        cbn [f_path fr length]. by rewrite Nat.sub_0_r. }
  destruct (Hrun (S K)) as (res & Hres & Hp); [lia|].
  assert (∀ y p, (y, p) ∈ explored lo hi filters incident (size E) fr
    ↔ p ≠ [] ∧ trail E labels dir filters start p y ∧ (lo <= N.of_nat (length p) <= hi)%N) as Hbelow.
  { intros y p. pose proof (elem_of_below labels dir lo hi filters d incident good (size E) Hexp good_extended good_full
      (size E) fr y p good_start) as Hb. cbn [f_path fr length] in Hb. rewrite Nat.sub_0_r in Hb.
    rewrite (Hb eq_refl). unfold onward, trail. cbn [f_node f_visited f_path fr app].
    setoid_rewrite chain_listed; [|done]. split.
    - intros (q & Hq & -> & (Hc & Hn & _) & Hlen). done.
    - intros (Hq & (Hc & Hn) & Hlen). exists p. do 2 (split; [done|]).
      split; [|done]. split_and!; [done..|by intros s _ ?%elem_of_empty]. }
  exists res, (S K). split_and!.
  - intros fuel' Hf. by apply (traverse_paths_more _ _ _ _ _ _ _ _ _ (S K)).
  - rewrite Hp. apply NoDup_app. split_and!.
    + unfold first. case_decide; [apply NoDup_singleton|constructor].
    + intros [y p] Hf Hb. apply Hbelow in Hb as [Hne _]. unfold first in Hf.
      case_decide; [|by apply not_elem_of_nil in Hf]. apply list_elem_of_singleton in Hf as [= -> ->]. done.
    + rewrite <-(Nat.sub_0_r (size E)). change 0 with (length (f_path fr)) at 1.
      apply (NoDup_below labels dir lo hi filters d incident good (size E) Hexp good_extended good_full
        good_steps (size E));
        [apply good_start|]. cbn. lia.
  - intros y p. rewrite Hp, elem_of_app, Hbelow. split.
    + intros [Hf|(_ & ? & ?)]; [|done]. unfold first in Hf.
      case_decide; [|by apply not_elem_of_nil in Hf]. apply list_elem_of_singleton in Hf as [= -> ->].
      subst. split; [split; [constructor|constructor]|cbn; lia].
    + intros [[Hc Hn] Hl]. destruct p as [|s p]; [left|by right].
      inversion Hc; subst. unfold first. rewrite decide_True by (cbn in Hl; lia). by left.
Qed.
End graph.

(** ** A cap only cuts the list of results *)
Section capped.
Context {conn : Type} {O : SqlOps conn} {Mp : Msgpack}.
Context (labels : list string) (dir : Direction) (lo hi : N) (filters : gmap string value) (work : N) (c : conn).
Context (n : nat).
Abbreviation results := (list (N * list PathStep)).

(** A prefix that is all or long enough. *)
Definition enough (r full : results) : Prop := r `prefix_of` full ∧ (r = full ∨ n ≤ length r).
(** The loop bodies without and with the cap. *)
Definition cut_at (st : dfs) (o o' : Res (results + dfs)) : Prop :=
  match o with
  | Ok (inl _) => False
  | Ok (inr st') =>
      d_results st `prefix_of` d_results st'
      ∧ (o' = Ok (inr st') ∨ ∃ r, o' = Ok (inl r) ∧ r `prefix_of` d_results st' ∧ n ≤ length r)
  | _ => True
  end.
Definition cut {A} (f f' : A → dfs → Res (results + dfs)) : Prop := ∀ x st, cut_at st (f x st) (f' x st).
Lemma cut_iter {A} (f f' : A → dfs → Res (results + dfs)) : cut f f' → cut (iter_until f) (iter_until f').
Proof.
  intros Hf l. induction l as [|x l IH]; intros st; cbn; [split; [done|by left]|].
  specialize (Hf x st). unfold cut_at in *. destruct (f x st) as [[r|st1]|e|]; cbn; try done. destruct Hf as [Hp Hc].
  specialize (IH st1). unfold cut_at in IH. destruct (iter_until f l st1) as [[r|st2]|e|]; try done. destruct IH as [Hp2 IH].
  split; [by etrans|]. destruct Hc as [->|(r & -> & Hr & Hl)]; cbn; [done|].
  right. exists r. split_and!; [done|by etrans|done].
Qed.
Lemma cut_reads {A} (m : Res A) (k k' : A → Res (results + dfs)) st :
  (∀ a, cut_at st (k a) (k' a)) → cut_at st (m ≫= k) (m ≫= k').
Proof. intros Hk. by destruct m as [a|e|]; [apply Hk|..]. Qed.
Lemma cut_visit fr label neighbor :
  cut (visit_edge lo hi filters None work fr label neighbor)
      (visit_edge lo hi filters (Some n) work fr label neighbor).
Proof.
  intros [[[s d] q] props] st. unfold visit_edge, cut_at. destruct (_ && _); [done|].
  case_decide as Hv; [split; [done|by left]|]. destruct (negb _); [split; [done|by left]|].
  unfold results_full. rewrite andb_false_r.
  destruct (bool_decide (lo <= _)%N); cbn [andb d_results]; [|destruct (bool_decide _); (split; [cbn; reflexivity|by left])].
  set (new := d_results st ++ _). assert (d_results st `prefix_of` new) as Hp by (by apply prefix_app_r).
  destruct (bool_decide (_ < hi)%N); cbn [d_results];
    (case_bool_decide as Hn; (split; [done|]); [right; eexists; by split_and!|by left]).
Qed.
Lemma cut_expand : cut (expand labels dir lo hi filters None work c) (expand labels dir lo hi filters (Some n) work c).
Proof.
  intros fr st. unfold expand. apply cut_reads. intros ls. apply cut_iter. intros label st1.
  apply cut_reads. intros ns. apply cut_iter. intros neighbor st2.
  apply cut_reads. intros es. apply cut_iter, cut_visit.
Qed.
Lemma loop_capped fuel st full :
  paths_loop labels dir lo hi filters None work c fuel st = Some (Ok full) →
  d_results st `prefix_of` full
  ∧ ∃ r, paths_loop labels dir lo hi filters (Some n) work c fuel st = Some (Ok r) ∧ enough r full.
Proof.
  revert st. induction fuel as [|fuel IH]; intros st; [done|]. cbn [paths_loop].
  destruct (d_stack st) as [|fr stack] eqn:Hst.
  { intros [= <-]. split; [done|]. eexists. split; [done|]. split; [done|by left]. }
  case_decide; [exact (IH (mkDfs stack (d_results st) (d_fuel st)))|].
  pose proof (cut_expand fr (mkDfs stack (d_results st) (d_fuel st))) as Hc.
  unfold cut_at in Hc. destruct (expand _ _ _ _ _ None _ c _ _) as [[x|st1]|e|]; try done.
  destruct Hc as [Hp Hc]. intros Hfull. apply IH in Hfull as [Hp1 Hr]. split; [by etrans|].
  destruct Hc as [->|(r & -> & Hr1 & Hl)]; [done|]. exists r. split; [done|].
  split; [by etrans|by right].
Qed.
Lemma traverse_paths_capped start fuel full :
  traverse_paths labels dir lo hi filters None work c start fuel = Some (Ok full) →
  ∃ r, traverse_paths labels dir lo hi filters (Some n) work c start fuel = Some (Ok r) ∧ enough r full.
Proof.
  unfold traverse_paths. set (first := if decide (lo = 0%N) then _ else _).
  unfold results_full. rewrite andb_false_r. cbn [d_results].
  destruct (bool_decide (lo = 0%N) && bool_decide (n ≤ length first)) eqn:Hb.
  - apply andb_true_iff in Hb as [_ Hb%bool_decide_eq_true]. intros Hfull. exists first. split; [done|].
    split; [|by right]. destruct (decide (hi = 0%N)); [by simplify_eq|]. by apply loop_capped in Hfull as [? _].
  - destruct (decide (hi = 0%N)); [|intros H; by apply loop_capped in H as [_ ?]].
    intros [= <-]. eexists. split; [done|]. split; [done|by left].
Qed.
End capped.

(** ** The bound on work only ends the search with an error *)
Section worked.
Context {conn : Type} {O : SqlOps conn} {Mp : Msgpack}.
Context (labels : list string) (dir : Direction) (lo hi : N) (filters : gmap string value) (work : N) (c : conn).
Abbreviation results := (list (N * list PathStep)).

Definition same (st st' : dfs) : Prop := d_stack st = d_stack st' ∧ d_results st = d_results st'.
Definition tired (o o' : Res (results + dfs)) : Prop :=
  o' = Err (work_exceeded work)
  ∨ match o with Ok (inr st) => ∃ st', o' = Ok (inr st') ∧ same st st' | _ => o' = o end.
Definition tires {A} (f f' : A → dfs → Res (results + dfs)) : Prop :=
  ∀ x st st', same st st' → tired (f x st) (f' x st').
Lemma tires_iter {A} (f f' : A → dfs → Res (results + dfs)) : tires f f' → tires (iter_until f) (iter_until f').
Proof.
  intros Hf l. induction l as [|x l IH]; intros st st' Hs; cbn; [right; eauto|].
  destruct (Hf x st st' Hs) as [->|Hr]; [by left|].
  destruct (f x st) as [[r|st1]|e|]; cbn; [rewrite Hr; by right| |rewrite Hr; by right..].
  destruct Hr as (st2 & -> & H2). by apply IH.
Qed.
Lemma tired_reads {A} (m : Res A) (k k' : A → Res (results + dfs)) :
  (∀ a, tired (k a) (k' a)) → tired (m ≫= k) (m ≫= k').
Proof. intros Hk. destruct m as [a|e|]; [apply Hk|by right..]. Qed.
Lemma tires_visit fr label neighbor :
  tires (visit_edge lo hi filters None 0 fr label neighbor)
        (visit_edge lo hi filters None work fr label neighbor).
Proof.
  intros [[[s d] q] props] [stack res w] [stack' res' w'] [Hst Hres]. cbn in Hst, Hres. subst stack' res'.
  unfold visit_edge. change (bool_decide (0%N ≠ 0%N)) with false. cbn [andb].
  destruct (bool_decide (work ≠ 0%N) && _); [by left|]. right.
  unfold results_full. rewrite !andb_false_r. cbn [d_stack d_results d_fuel].
  destruct (decide (_ ∈ f_visited fr)); [eexists; by split|].
  destruct (negb _); [eexists; by split|].
  destruct (bool_decide (lo <= _)%N), (bool_decide (_ < hi)%N); eexists; by split.
Qed.
Lemma tires_expand :
  tires (expand labels dir lo hi filters None 0 c) (expand labels dir lo hi filters None work c).
Proof.
  intros fr st st' Hs. unfold expand. apply tired_reads. intros ls. apply tires_iter; [|done].
  intros label st1 st1' H1. apply tired_reads. intros ns. apply tires_iter; [|done].
  intros neighbor st2 st2' H2. apply tired_reads. intros es. by apply tires_iter; [apply tires_visit|].
Qed.
Lemma loop_tires fuel st st' r : same st st' →
  paths_loop labels dir lo hi filters None 0 c fuel st = Some r →
  paths_loop labels dir lo hi filters None work c fuel st' = Some r
  ∨ paths_loop labels dir lo hi filters None work c fuel st' = Some (Err (work_exceeded work)).
Proof.
  revert st st'. induction fuel as [|fuel IH]; intros st st' [Hst Hres]; [done|]. cbn [paths_loop].
  rewrite <-Hst, <-Hres. destruct (d_stack st) as [|fr stack]; [by left|].
  case_decide; [by apply IH|].
  destruct (tires_expand fr (mkDfs stack (d_results st) (d_fuel st)) (mkDfs stack (d_results st) (d_fuel st')))
    as [->|Ht]; [done|by right|].
  destruct (expand _ _ _ _ _ None 0 c _ _) as [[x|st1]|e|]; [rewrite Ht; by left| |rewrite Ht; by left..].
  destruct Ht as (st2 & -> & H2). by apply IH.
Qed.
Lemma traverse_paths_tires start fuel r :
  traverse_paths labels dir lo hi filters None 0 c start fuel = Some r →
  traverse_paths labels dir lo hi filters None work c start fuel = Some r
  ∨ traverse_paths labels dir lo hi filters None work c start fuel = Some (Err (work_exceeded work)).
Proof.
  unfold traverse_paths, results_full. rewrite !andb_false_r. destruct (decide (hi = 0%N)); [by left|].
  by apply loop_tires.
Qed.
End worked.

(** ** The theorem *)
Section Theorems.
Context {conn : Type} {O : SqlOps conn} {view : conn → db} {L : SqlLaws conn view}.
Context {Mp : Msgpack} {ML : MsgpackLaws}.

End Theorems.

Section Witnesses.
#[local] Existing Instance Reference.msgpack.
#[local] Existing Instance Reference.msgpack_laws.
Import Demo.

End Witnesses.
