(* ===== verification/Planning.v ===== *)
(** * Planning: main theorems

    What the planner promises the rest of a query: the plan of a statement writes
    exactly when the statement does, the passes over it have settled, and a misspelt
    name is answered with the closest known one. *)
From S2P Require Import Handles Expressions.
From S2P Require Export PlanSpec Plans.

(** ** From the text of a query to the operators that run *)
Section pipeline.
Context {Ch : Chrono} {Co : ChronoOrder} {Lm : Libm} {Un : Unicode} {Db : DebugText}.
Context {conn : Type} {O : SqlOps conn} {Mp : Msgpack} {Fm : FtsMatch conn} {Fs : FtsSearch conn}.

(** A front end whose planner is the one of [Planner] and [PlanClauses]; the counter of
    anonymous names is wherever other queries have left it. *)
Definition planned_by {P : Type} (X : PlanEffects P) {Row : Type}
    (F : FrontEnd conn Row ProcedureRegistry) : Prop :=
  ∀ c stmt procedures params, ∃ counter,
    Engine.plan_with_procedures F c stmt procedures params
    = (PlanClauses.plan_with_procedures c X procedures params stmt counter).2.

Lemma planned_reads {P} (X : PlanEffects P) {Row} (F : FrontEnd conn Row ProcedureRegistry) c stmt procs params plan :
  planned_by X F → Engine.plan_with_procedures F c stmt procs params = Ok plan →
  is_read_only plan = negb (statement_writes stmt).
Proof.
  intros HF. destruct (HF c stmt procs params) as [n ->].
  destruct (PlanClauses.plan_with_procedures c X procs params stmt n) as [n' r] eqn:E. cbn. intros ->.
  by apply with_procedures_reads in E.
Qed.

(** Cached or not, the plan is one that the planner made of the statement. *)
Lemma statement_plan_reads {P} (X : PlanEffects P) {Row} (F : FrontEnd conn Row ProcedureRegistry)
    cypher stmt ctx params b s s' plan :
  planned_by X F → shared_ok F s.2 → parse F cypher = Ok stmt →
  plan_statement F cypher stmt ctx params b s = (s', Ok plan) →
  s'.1 = s.1 ∧ is_read_only plan = negb (statement_writes stmt).
Proof.
  intros HF Hs Hp E. apply (plan_statement_run F) in E as (H1 & _ & Hr); [|done..]. split; [done|].
  destruct Hr as [Hr|(plan' & [= <-] & _ & Hc)]; [by eapply planned_reads|].
  destruct Hs as [_ Hq]. apply (co_good _ _ _ Hq) in Hc as (stmt' & c & procs & ps & Hp' & _ & Hplan).
  cbn in Hp'. rewrite Hp in Hp'. injection Hp' as <-. by eapply planned_reads.
Qed.
End pipeline.

(** ** The distance of two names *)

(** [b] is [a] after [n] insertions, deletions and replacements of bytes. *)
Inductive edits : bytes → bytes → nat → Prop :=
| edits_nil : edits [] [] 0
| edits_keep x a b n : edits a b n → edits (x :: a) (x :: b) n
| edits_replace x y a b n : edits a b n → edits (x :: a) (y :: b) (S n)
| edits_insert y a b n : edits a b n → edits a (y :: b) (S n)
| edits_delete x a b n : edits a b n → edits (x :: a) b (S n).
Definition is_distance (a b : bytes) (d : nat) : Prop := edits a b d ∧ ∀ n, edits a b n → d ≤ n.

(** The textbook recurrence. *)
Fixpoint distance (a : bytes) : bytes → nat :=
  fix go b :=
    match a, b with
    | [], _ => length b
    | _, [] => length a
    | x :: a', y :: b' =>
        ((go b' + 1) `min` (distance a' b + 1)) `min` (distance a' b' + if decide (x = y) then 0 else 1)
    end.
Lemma distance_nil a : distance a [] = length a.
Proof. by destruct a. Qed.
Lemma nil_distance b : distance [] b = length b.
Proof. by destruct b. Qed.
Lemma distance_cons x a y b :
  distance (x :: a) (y :: b)
  = ((distance (x :: a) b + 1) `min` (distance a (y :: b) + 1))
      `min` (distance a b + if decide (x = y) then 0 else 1).
Proof. reflexivity. Qed.

Lemma edits_all_inserted b : edits [] b (length b).
Proof. induction b; by constructor. Qed.
Lemma edits_all_deleted a : edits a [] (length a).
Proof. induction a; by constructor. Qed.
Lemma distance_edits a b : edits a b (distance a b).
Proof.
  revert b. induction a as [|x a IHa]; [by intros [|y b]; apply edits_all_inserted|].
  induction b as [|y b IHb]; [apply (edits_all_deleted (x :: a))|]. rewrite distance_cons.
  destruct (Nat.min_spec ((distance (x :: a) b + 1) `min` (distance a (y :: b) + 1))
    (distance a b + if decide (x = y) then 0 else 1)) as [[_ ->]|[_ ->]].
  - destruct (Nat.min_spec (distance (x :: a) b + 1) (distance a (y :: b) + 1)) as [[_ ->]|[_ ->]];
      rewrite Nat.add_1_r; by constructor.
  - destruct (decide (x = y)) as [->|]; [rewrite Nat.add_0_r|rewrite Nat.add_1_r]; by constructor.
Qed.
Lemma distance_inserted y a b : distance a (y :: b) ≤ S (distance a b).
Proof. destruct a; [by rewrite !nil_distance|]. rewrite distance_cons. lia. Qed.
Lemma distance_deleted x a b : distance (x :: a) b ≤ S (distance a b).
Proof. destruct b; [rewrite !distance_nil; done|]. rewrite distance_cons. lia. Qed.
Lemma distance_least a b n : edits a b n → distance a b ≤ n.
Proof.
  induction 1 as [|x a b n _ IH|x y a b n _ IH|y a b n _ IH|x a b n _ IH]; [done|..].
  - rewrite distance_cons, decide_True by done. lia.
  - rewrite distance_cons. case_decide; lia.
  - pose proof (distance_inserted y a b). lia.
  - pose proof (distance_deleted x a b). lia.
Qed.

Lemma edits_app a b n a' b' n' : edits a b n → edits a' b' n' → edits (a ++ a') (b ++ b') (n + n').
Proof. induction 1; cbn; [done|intros; constructor; auto..]. Qed.
Lemma edits_rev a b n : edits a b n → edits (reverse a) (reverse b) n.
Proof.
  induction 1 as [|x a b n _ IH|x y a b n _ IH|y a b n _ IH|x a b n _ IH]; [constructor|..];
    rewrite ?reverse_cons.
  - rewrite <-(Nat.add_0_r n). apply edits_app; [done|]. repeat constructor.
  - rewrite <-Nat.add_1_r. apply edits_app; [done|]. repeat constructor.
  - rewrite <-Nat.add_1_r. rewrite <-(app_nil_r (reverse a)). apply edits_app; [done|]. repeat constructor.
  - rewrite <-Nat.add_1_r. rewrite <-(app_nil_r (reverse b)). apply edits_app; [done|]. repeat constructor.
Qed.

(** A row of the table: the distances of [ra] from [rb] and from its extensions by
    [b], both from their ends. *)
Fixpoint table_row (ra rb b : bytes) : list nat :=
  distance ra rb :: match b with [] => [] | y :: b' => table_row ra (y :: rb) b' end.
Lemma table_row_nil rb b : table_row [] rb b = seq (length rb) (S (length b)).
Proof. revert rb. induction b as [|y b IH]; intros rb; cbn [table_row]; rewrite nil_distance, ?IH; done. Qed.
Lemma table_row_last ra rb b : List.nth (length b) (table_row ra rb b) 0 = distance ra (reverse b ++ rb).
Proof.
  revert rb. induction b as [|y b IH]; intros rb; [done|].
  cbn [length table_row List.nth]. rewrite IH, reverse_cons, <-app_assoc. done.
Qed.
Lemma lev_cells_row x ra rb b :
  lev_cells x b (distance (x :: ra) rb) (table_row ra rb b) = tail (table_row (x :: ra) rb b).
Proof.
  revert rb. induction b as [|y b IH]; intros rb; [done|].
  specialize (IH (y :: rb)). rewrite distance_cons in IH.
  assert (table_row ra (y :: rb) b = distance ra (y :: rb) :: tail (table_row ra (y :: rb) b)) as Hrow
    by (by destruct b).
  cbn [table_row tail lev_cells]. rewrite Hrow in IH |- *. cbn [lev_cells]. rewrite IH.
  rewrite <-distance_cons. by destruct b.
Qed.
Lemma lev_rows_row ra a b :
  lev_rows (length ra) a b (table_row ra [] b) = table_row (reverse a ++ ra) [] b.
Proof.
  revert ra. induction a as [|x a IH]; intros ra; [done|]. cbn [lev_rows].
  replace (length ra + 1) with (distance (x :: ra) []) by (rewrite distance_nil; cbn; lia).
  rewrite lev_cells_row. change (S (length ra)) with (length (x :: ra)).
  replace (_ :: tail _) with (table_row (x :: ra) [] b) by (by destruct b).
  by rewrite IH, reverse_cons, <-app_assoc.
Qed.
Lemma levenshtein_distance a b : levenshtein_lc a b = distance (reverse a) (reverse b).
Proof.
  destruct a as [|x a]; [change (reverse []) with (@nil byte); by rewrite nil_distance, length_reverse|].
  destruct b as [|y b]; [change (reverse []) with (@nil byte); by rewrite distance_nil, length_reverse|].
  transitivity (List.nth (length (y :: b)) (lev_rows (length (@nil byte)) (x :: a) (y :: b)
    (table_row [] [] (y :: b))) 0); [by rewrite table_row_nil|].
  by rewrite lev_rows_row, table_row_last, !app_nil_r.
Qed.
Lemma levenshtein_exact a b : is_distance a b (levenshtein_lc a b).
Proof.
  rewrite levenshtein_distance. split.
  - rewrite <-(reverse_involutive a), <-(reverse_involutive b) at 1. apply edits_rev, distance_edits.
  - intros n Hn%edits_rev. by apply distance_least.
Qed.

(** The first of the closest candidates that are close enough. *)
Definition first_closest (far : string → nat) (allowed : nat) (candidates : list string) (s : string) : Prop :=
  far s ≤ allowed ∧ ∃ before after, candidates = before ++ s :: after
    ∧ Forall (λ x, far s < far x) before ∧ Forall (λ x, far s ≤ far x) after.
Definition name_distance (target s : string) : nat :=
  levenshtein_lc (str_bytes (ascii_lowercase target)) (str_bytes (ascii_lowercase s)).

Section closest.
Context (target : string) (allowed : nat).
Abbreviation far := (name_distance target).
(** The result, when [best] was found among earlier candidates. *)
Definition closest_to (best : option (nat * string)) (candidates : list string)
    (r : option (nat * string)) : Prop :=
  (r = best ∧ Forall (λ x, match best with Some (d, _) => d ≤ far x | None => allowed < far x end) candidates)
  ∨ ∃ s, r = Some (far s, s) ∧ first_closest far allowed candidates s
      ∧ ∀ d b, best = Some (d, b) → far s < d.

Lemma closest_run best candidates : (∀ d b, best = Some (d, b) → d ≤ allowed) →
  closest_to best candidates (closest (ascii_lowercase target) allowed best candidates).
Proof.
  revert best. induction candidates as [|x l IH]; intros best Hbest; cbn [closest]; [by left|].
  change (levenshtein_lc _ _) with (far x). destruct (bool_decide (far x ≤ allowed)) eqn:Hx;
    [apply bool_decide_eq_true in Hx|apply bool_decide_eq_false in Hx].
  2:{ cbn. destruct (IH best Hbest) as [[-> Hl]|(s & -> & (Hs & before & after & -> & Hb & Ha) & Hd)].
    - left. split; [done|]. constructor; [|done]. destruct best as [[d b]|]; [|lia].
      specialize (Hbest d b eq_refl). lia.
    - right. exists s. split_and!; [done| |done]. split; [done|]. exists (x :: before), after.
      split_and!; [done| |done]. constructor; [lia|done]. }
  destruct (match best with None => true | Some (bd, _) => bool_decide (far x < bd) end) eqn:Hnew; cbn.
  - destruct (IH (Some (far x, x))) as [[-> Hl]|(s & -> & (Hs & before & after & -> & Hb & Ha) & Hd)].
    { intros d b [= <- _]. done. }
    + right. exists x. split_and!; [done|by split; [|exists [], l]|]. intros d b ->.
      by apply bool_decide_eq_true in Hnew.
    + specialize (Hd _ _ eq_refl). right. exists s. split_and!; [done| |].
      * split; [done|]. exists (x :: before), after. split_and!; [done|by constructor|done].
      * intros d b ->. apply bool_decide_eq_true in Hnew. lia.
  - destruct best as [[bd b]|]; [|done]. apply bool_decide_eq_false in Hnew.
    destruct (IH _ Hbest) as [[-> Hl]|(s & -> & (Hs & before & after & -> & Hb & Ha) & Hd)].
    + left. split; [done|]. constructor; [lia|done].
    + specialize (Hd _ _ eq_refl). right. exists s. split_and!; [done| |by intros ?? [= <- <-]].
      split; [done|]. exists (x :: before), after. split_and!; [done| |done]. constructor; [lia|done].
Qed.
End closest.

(** ** Properties *)

(** C5: what a query may write is in its text.  Behind the caches, the planner and the
    executor, a statement without a writing clause, and any EXPLAIN, leaves the database as
    it was, in whatever transaction it runs and whatever it returns; and a statement with a
    writing clause is never run in a read transaction: it fails there, and the database
    stays as it was. *)
Theorem statement_decides_writing {Ch : Chrono} {Co : ChronoOrder} {Lm : Libm} {Un : Unicode} {Db : DebugText}
    {conn : Type} {O : SqlOps conn} {Mp : Msgpack} {Fm : FtsMatch conn} {Fs : FtsSearch conn} {S P : Type}
    (X : Effects S) (T : conn → Traversals)
    (Q : ExecContext ProcedureRegistry → option (gmap string value) → conn → Subqueries S) (start : S)
    (PX : PlanEffects P) (F : FrontEnd conn NamedRecord ProcedureRegistry) (cypher : string)
    (stmt : Statement) (params : option (gmap string value)) (ctx : ExecContext ProcedureRegistry)
    (caches : ExecCaches) (s s' : conn * Shared) (r : Res (list NamedRecord)) :
  let F' := with_executor X T Q start F in
  planned_by PX F' → shared_ok F' s.2 → parse F' cypher = Ok stmt →
  execute_cypher F' cypher params ctx caches s = (s', r) →
  (statement_writes stmt = false ∨ is_explain stmt = true → s'.1 = s.1)
  ∧ (statement_writes stmt = true → is_explain stmt = false → require_read_only ctx = true →
     s'.1 = s.1 ∧ ∀ rows, r ≠ Ok rows).
Proof.
  intros F' HF Hs Hp E. apply execute_cypher_parsed in E as (y & Hy & _ & _ & E); [|done].
  revert E. unfold execute_cypher. cbn [use_parse use_plan use_epoch].
  unfold mbind at 1, M_bind at 1, lift at 1. rewrite Hp. unfold mbind at 1, M_bind at 1, lift at 1.
  destruct (validate_given stmt params); [|intros [= <- <-]; by split..].
  unfold mbind at 1, M_bind at 1.
  destruct (plan_statement F' cypher stmt ctx params (use_plan caches && use_epoch caches) (s.1, y))
    as [s1 rp] eqn:Eplan.
  pose proof (plan_statement_run F' _ _ _ _ _ (s.1, y) _ _ Hy Hp Eplan) as (H1 & _). cbn [fst] in H1.
  destruct rp as [plan| |]; [|intros [= <- <-]; by split..].
  apply (statement_plan_reads PX F') in Eplan as [_ Hplan]; [|done..].
  destruct (is_explain stmt); [intros [= <- _]; by split|]. rewrite Hplan, negb_involutive.
  destruct (statement_writes stmt) eqn:Hw.
  - split; [by intros [|]|]. intros _ _ Hro. revert E. rewrite Hro. by intros [= <- <-].
  - split; [intros _|done]. rewrite andb_false_r in E. unfold mbind, M_bind, on_conn in E.
    pose proof (execute_with_ctx_db X T Q start F ctx params plan s1.1) as Hdb.
    fold F' in Hdb. rewrite Hplan in Hdb. specialize (Hdb eq_refl).
    destruct (execute_with_ctx F' ctx params plan s1.1) as [c' [rows| |]]; cbn in Hdb, E;
      [|by injection E as <- <-; cbn; congruence..].
    destruct (Ir.is_ddl plan && use_epoch caches); injection E as <- _; cbn; congruence.
Qed.

(** EXPLAINs, however many, are dropped. *)
Fixpoint explained (stmt : Statement) : Statement :=
  match stmt with SExplain inner => explained inner | _ => stmt end.

(** C25: the passes over a plan settle.  However often they run on the way (once for each
    EXPLAIN, once in [plan] and once more behind it), the plan of a statement is the plan
    that the clauses give, CALL with its procedures, rewritten once; EXPLAIN shows that very
    plan; and rewriting a finished plan again changes nothing. *)
Theorem passes_settle {conn : Type} {O : SqlOps conn} {S : Type} (c : conn) (X : PlanEffects S)
    (procedures : ProcedureRegistry) (params : option (gmap string value)) (stmt : Statement) (s : S) :
  let draft :=
    match explained stmt with
    | SCall name args implicit_args yield_items yield_star t =>
        plan_call X procedures params name args implicit_args yield_items yield_star t
    | other => plan_inner c X other false
    end in
  let planned := PlanClauses.plan_with_procedures c X procedures params stmt s in
  planned = (op ← draft; mret (apply_post_passes c op)) s
  ∧ PlanClauses.plan_with_procedures c X procedures params (SExplain stmt) s = planned
  ∧ ∀ op, planned.2 = Ok op → apply_post_passes c op = op.
Proof.
  assert (∀ (m1 m2 : M S GraphError LogicalOp) s, m1 s = (op ← m2; mret (apply_post_passes c op)) s →
    (op ← m1; mret (apply_post_passes c op)) s = (op ← m2; mret (apply_post_passes c op)) s) as Htwice.
  { intros m1 m2 s1 E. unfold mbind at 1, M_bind at 1. rewrite E. unfold mbind, M_bind.
    destruct (m2 s1) as [s2 [op| |]]; [|done..]. cbn. by rewrite passes_idempotent. }
  cbv zeta.
  assert (∀ stmt, PlanClauses.plan_with_procedures c X procedures params stmt s
    = (op ← match explained stmt with
            | SCall name args implicit_args yield_items yield_star t =>
                plan_call X procedures params name args implicit_args yield_items yield_star t
            | other => plan_inner c X other false
            end; mret (apply_post_passes c op)) s) as Honce.
  { intros st. induction st; cbn [PlanClauses.plan_with_procedures explained]; try by apply Htwice. done. }
  rewrite !Honce. split_and!; [done..|]. intros op.
  match goal with |- context [mbind _ ?m s] => generalize m; intros draft end.
  unfold mbind, M_bind. destruct (draft s) as [s' [op'| |]]; cbn; [|done..].
  intros [= <-]. apply passes_idempotent.
Qed.

(** A misspelt name is answered with the first candidate at the least number of edits
    of bytes from it, letter case apart, if one edit is enough, or two for a name of more
    than three bytes; and with none if they are all further away.  The table of the
    program is the least number of edits. *)
Theorem suggestion_is_closest (target : string) (candidates : list string) :
  let allowed := if decide (str_len target ≤ 3) then 1 else 2 in
  let far := name_distance target in
  (∀ s, is_distance (str_bytes (ascii_lowercase target)) (str_bytes (ascii_lowercase s)) (far s))
  ∧ match suggest_close_name target candidates with
    | Some s => first_closest far allowed candidates s
    | None => Forall (λ x, allowed < far x) candidates
    end.
Proof.
  cbv zeta. split; [intros s; apply levenshtein_exact|]. unfold suggest_close_name.
  pose proof (closest_run target (if decide (str_len target ≤ 3) then 1 else 2) None candidates) as H.
  destruct H as [[-> Hl]|(s & -> & Hs & _)]; [done|exact Hl|exact Hs].
Qed.

(** ** Witnesses *)
Module PlanningDemo.
Export ExprDemo PlanDemo.
(** A counter of names, and no bound to evaluate. *)
Definition effects : PlanEffects N :=
  mkPlanEffects (λ n, ((n + 1)%N, Ok n)) (λ _, throw (GraphError.semantic "no bound")).
(** MATCH (n:Person) RETURN n.name, and CREATE (n:Person). *)
Definition people : PatternElement Expr := PNode (mkNodePattern (Some "n") ["Person"] ∅).
Definition pattern : Pattern Expr := mkPattern [people] None ShortestPathMode.None.
Definition reading : Statement :=
  SMatch (mkMatchStmt [pattern] [] None []
    (mkReturnClause [mkReturnItem (synthetic (Property "n" "name")) None] false) [] None None).
Definition no_tail : Tail Expr := mkTail None [] None None.
Definition writing : Statement := SCreate (mkCreateStmt [pattern] no_tail).
(** A parser of these two, the planner, and the executor. *)
Definition front : FrontEnd db NamedRecord ProcedureRegistry :=
  mkFrontEnd (λ q, Ok (if String.eqb q "read" then reading else writing))
    (λ c stmt procedures params, (PlanClauses.plan_with_procedures c effects procedures params stmt 0%N).2)
    (λ _ _, []) (λ _ _ _, mret []).
Definition executor : FrontEnd db NamedRecord ProcedureRegistry :=
  with_executor no_effects (λ _, no_paths) (λ _ _ _, no_rows) tt front.
Definition in_read_tx : ExecContext ProcedureRegistry := mkExecContext 0 0 0 ∅ true.
Definition caches : ExecCaches := mkExecCaches true true true.
Definition world : db * Shared := (d, db_shared HandleDemo.handle).
Definition run (q : string) : (db * Shared) * Res (list NamedRecord) :=
  execute_cypher executor q None in_read_tx caches world.
End PlanningDemo.

Section Witnesses.
Import PlanningDemo.
Lemma statement_decides_writing_witness :
  (run "read").2 = Ok [NamedRecord.mk [("n.name", Value.String "Ada")]; NamedRecord.mk [("n.name", Value.Null)]]
  ∧ (run "read").1.1 = world.1 ∧ (run "write").1.1 = world.1 ∧ ∀ rows, (run "write").2 ≠ Ok rows.
Proof.
  assert (planned_by effects executor) as HF by (intros c st ps pr; by exists 0%N).
  assert (shared_ok executor world.2) as Hs by (split; apply cache_ok_fresh).
  split; [vm_compute; reflexivity|].
  pose proof (λ q stmt Hp s' r, statement_decides_writing no_effects (λ _, no_paths) (λ _ _ _, no_rows) tt
    effects front q stmt None in_read_tx caches world s' r HF Hs Hp) as H.
  destruct (H "read" PlanningDemo.reading eq_refl (run "read").1 (run "read").2
    (surjective_pairing (run "read"))) as [Hread _].
  destruct (H "write" writing eq_refl (run "write").1 (run "write").2
    (surjective_pairing (run "write"))) as [_ Hwrite].
  split; [exact (Hread (or_introl eq_refl))|exact (Hwrite eq_refl eq_refl eq_refl)].
Defined.
End Witnesses.
