(* ===== verification/MatchSpec.v ===== *)
(** * What MATCH finds

    The plan of a chain of nodes and directed relationships, run by the executor,
    against the matches of the pattern in the graph: which rows there are, and what
    each of them shows. *)
From S2P Require Import Handles Expressions.
From S2P Require Export PlanPattern SlotPlans Indexes.
#[local] Open Scope Z_scope.

(** ** Rows that list a set

    Each element of [E] is shown by exactly one of the rows. *)
Definition lists {A R} (E : A → Prop) (shows : A → R → Prop) (rows : list R) : Prop :=
  ∃ xs, NoDup xs ∧ (∀ x, x ∈ xs ↔ E x) ∧ Forall2 shows xs rows.

Lemma Forall2_within {A R} (V W : A → R → Prop) xs rows :
  (∀ x r, x ∈ xs → V x r → W x r) → Forall2 V xs rows → Forall2 W xs rows.
Proof. intros H Hs. induction Hs; constructor; [by apply H; [left|]|]. apply IHHs. intros. apply H; [by right|done]. Qed.
Lemma Forall2_diag_on {A} (V : A → A → Prop) l : (∀ x, x ∈ l → V x x) → Forall2 V l l.
Proof. intros H. apply (Forall2_within eq); [by intros x ? Hx <-; apply H|]. clear. by induction l; constructor. Qed.
Lemma lists_mono {A R} (E E' : A → Prop) (V W : A → R → Prop) rows :
  (∀ x, E x ↔ E' x) → (∀ x r, E x → V x r → W x r) → lists E V rows → lists E' W rows.
Proof.
  intros HE HV (xs & Hd & Hx & Hs). exists xs. split_and!; [done|by intros x; rewrite Hx|].
  eapply Forall2_within; [|exact Hs]. intros x r Hin. apply HV. by apply Hx.
Qed.
Lemma lists_self {A} (l : list A) : NoDup l → lists (λ x, x ∈ l) eq l.
Proof. intros H. exists l. split_and!; [done..|]. clear H. by induction l; constructor. Qed.
Lemma lists_map {A B R} (E : A → Prop) (V : A → R → Prop) (W : B → R → Prop) (f : A → B) rows :
  (∀ x y, E x → E y → f x = f y → x = y) → (∀ x r, E x → V x r → W (f x) r) →
  lists E V rows → lists (λ y, ∃ x, E x ∧ y = f x) W rows.
Proof.
  intros Hf HV (xs & Hd & Hx & Hs). exists (f <$> xs). split_and!.
  - apply NoDup_fmap_2_strong; [|done]. intros x y ?%Hx ?%Hx. by apply Hf.
  - intros y. rewrite list_elem_of_fmap. split; [intros (x & -> & ?%Hx); eauto|].
    intros (x & ?%Hx & ->). eauto.
  - apply Forall2_fmap_l. eapply Forall2_within; [|exact Hs]. intros x r Hin. apply HV. by apply Hx.
Qed.

(** The rows of each row, one after another. *)
Section expansion.
Context {A B R1 R2 : Type} (E : A → Prop) (V : A → R1 → Prop) (E' : A → B → Prop) (W : B → R2 → Prop).
Context (Hdisjoint : ∀ a a' b, E a → E a' → E' a b → E' a' b → a = a').
Lemma lists_concat (f : R1 → Res (list R2)) rows :
  (∀ a r, E a → V a r → ∃ rs, f r = Ok rs ∧ lists (E' a) W rs) → lists E V rows →
  ∃ rs, concat_r f rows = Ok rs ∧ lists (λ b, ∃ a, E a ∧ E' a b) W rs.
Proof.
  intros Hf (xs & Hd & Hx & Hs).
  assert (∃ rs ys, concat_r f rows = Ok rs ∧ NoDup ys
    ∧ (∀ b, b ∈ ys ↔ ∃ a, a ∈ xs ∧ E' a b) ∧ Forall2 W ys rs) as (rs & ys & Er & Hy & Hb & Hw).
  2:{ exists rs. split; [done|]. exists ys. split_and!; [done| |done]. intros b. rewrite Hb. by setoid_rewrite Hx. }
  assert (∀ a, a ∈ xs → E a) as HE by (intros a; apply Hx). clear Hx. revert rows Hs.
  induction xs as [|a xs IH]; intros rows Hs.
  - apply Forall2_nil_inv_l in Hs as ->. exists [], []. split_and!; [done|constructor| |constructor].
    intros b. split; [by intros ?%elem_of_nil|]. by intros (a & ?%elem_of_nil & _).
  - apply Forall2_cons_inv_l in Hs as (r & rows' & Hr & Hs & ->). apply NoDup_cons in Hd as [Ha Hd].
    destruct (Hf a r (HE a (list_elem_of_here _ _)) Hr) as (rs1 & E1 & ys1 & Hy1 & Hb1 & Hw1).
    destruct (IH Hd (λ a' H, HE a' (list_elem_of_further _ _ _ H)) rows' Hs) as (rs & ys & Er & Hy & Hb & Hw).
    exists (rs1 ++ rs), (ys1 ++ ys). split_and!; [| | |by apply Forall2_app].
    + revert Er. unfold concat_r. cbn [collect]. rewrite E1. cbn.
      destruct (collect f rows'); [|done..]. by intros [= <-].
    + apply NoDup_app. split_and!; [done| |done]. intros b Hb'%Hb1 (a' & Ha' & Hb'')%Hb.
      assert (a = a') as <-; [|done]. eapply Hdisjoint; [| |exact Hb'|exact Hb''];
        apply HE; [by left|by right].
    + intros b. rewrite elem_of_app, Hb1, Hb. setoid_rewrite elem_of_cons. naive_solver.
Qed.
End expansion.

(** The rows that pass a test. *)
Lemma lists_filter {S A R} (E P : A → Prop) `{!∀ a, Decision (P a)} (V : A → R → Prop)
    (f : R → M S GraphError bool) (s : S) rows :
  (∀ a r, E a → V a r → f r s = (s, Ok (bool_decide (P a)))) → lists E V rows →
  ∃ rs, filter_m f rows s = (s, Ok rs) ∧ lists (λ a, E a ∧ P a) V rs.
Proof.
  intros Hf (xs & Hd & Hx & Hs).
  assert (∃ rs, filter_m f rows s = (s, Ok rs) ∧ Forall2 V (filter P xs) rs) as (rs & Er & Hw).
  { assert (∀ a, a ∈ xs → E a) as HE by (intros a; apply Hx). clear Hd Hx.
    revert rows Hs. induction xs as [|a xs IH]; intros rows Hs.
    - apply Forall2_nil_inv_l in Hs as ->. by exists [].
    - apply Forall2_cons_inv_l in Hs as (r & rows' & Hr & Hs & ->).
      destruct (IH (λ a' H, HE a' (list_elem_of_further _ _ _ H)) rows' Hs) as (rs & Er & Hw).
      pose proof (Hf a r (HE a (list_elem_of_here _ _)) Hr) as E1.
      exists ((if bool_decide (P a) then [r] else []) ++ rs). split.
      + change (filter_m f (r :: rows') s) with ((ys ← (b ← f r; mret (if b : bool then [r] else []));
          rest ← filter_m f rows'; mret (ys ++ rest)) s).
        unfold mbind, M_bind. rewrite E1. cbn -[filter_m]. by rewrite Er.
      + rewrite filter_cons, bool_decide_decide. destruct (decide (P a)); [by constructor|done]. }
  exists rs. split; [done|]. exists (filter P xs). split_and!; [by apply NoDup_filter| |done].
  intros a. rewrite list_elem_of_filter, Hx. naive_solver.
Qed.

(** ** Names with a dot *)
Definition no_dot (s : string) : Prop := "."%byte ∉ str_bytes s.
#[global] Instance no_dot_dec s : Decision (no_dot s).
Proof. unfold no_dot. apply _. Defined.

Lemma first_dot (a b p q : bytes) : "."%byte ∉ a → "."%byte ∉ b →
  a ++ "."%byte :: p = b ++ "."%byte :: q → a = b ∧ p = q.
Proof.
  revert b. induction a as [|x a IH]; intros [|y b] Ha Hb; cbn.
  - by intros [= ->].
  - intros [= <- _]. destruct Hb. left.
  - intros [= -> _]. destruct Ha. left.
  - apply not_elem_of_cons in Ha as [_ Ha], Hb as [_ Hb]. intros [= -> H].
    by destruct (IH b Ha Hb H) as [-> ->].
Qed.
Lemma dot_bytes v p : str_bytes (dot v p) = str_bytes v ++ "."%byte :: str_bytes p.
Proof. unfold dot. by rewrite !str_bytes_app. Qed.
Lemma dot_inj2 u v p q : no_dot u → no_dot v → dot u p = dot v q → u = v ∧ p = q.
Proof.
  intros Hu Hv E%(f_equal str_bytes). rewrite !dot_bytes in E.
  apply first_dot in E as [?%(inj str_bytes) ?%(inj str_bytes)]; done.
Qed.
Lemma no_dot_ne v u p : no_dot v → v ≠ dot u p.
Proof. intros Hv ->. apply Hv. rewrite dot_bytes. set_solver. Qed.
(** Every name has its first dot somewhere, or none. *)
Lemma dot_cases k : no_dot k ∨ ∃ v p, no_dot v ∧ k = dot v p.
Proof.
  destruct (decide (no_dot k)) as [|Hk]; [by left|right].
  unfold no_dot in Hk. apply dec_stable in Hk.
  assert (∀ l : bytes, "."%byte ∈ l → ∃ a b, l = a ++ "."%byte :: b ∧ "."%byte ∉ a) as Hsplit.
  { intros l. induction l as [|x l IH]; [by intros ?%elem_of_nil|].
    destruct (decide (x = "."%byte)) as [->|Hx].
    - intros _. exists [], l. split; [done|apply not_elem_of_nil].
    - intros [<-|Hl]%elem_of_cons; [done|]. destruct (IH Hl) as (a & b & -> & Ha).
      exists (x :: a), b. split; [done|]. apply not_elem_of_cons. split; [congruence|done]. }
  destruct (Hsplit _ Hk) as (a & b & E & Ha). exists (bytes_str a), (bytes_str b). split.
  - unfold no_dot. by rewrite str_bytes_str.
  - apply (inj str_bytes). by rewrite dot_bytes, !str_bytes_str.
Qed.

(** ** What a row shows *)

(** A variable is bound to a node or to a relationship. *)
Inductive binding := BNode (n : Node) | BRel (e : eid) (props : Properties).
Abbreviation bindings := (gmap string binding).
Definition bare (b : binding) : value :=
  match b with BNode n => id_value (node_id n) | BRel e _ => Value.String (eid_label e) end.
(** The fields behind a dot: those of the executor, and the properties. *)
Definition part (b : binding) (p : string) : option value :=
  match b with
  | BNode n =>
      if decide (p = "__id") then Some (id_value (node_id n))
      else if decide (p = "__labels") then Some (label_values (node_labels n))
      else if decide (p = "__label") then Some (Value.String (join ":" (node_labels n)))
      else node_properties n !! p
  | BRel e props =>
      match props !! p with
      | Some v => Some v
      | None =>
          if decide (p = "__src") then Some (id_value (eid_src e))
          else if decide (p = "__dst") then Some (id_value (eid_dst e))
          else if decide (p = "__type") then Some (Value.String (eid_label e))
          else if decide (p = "__edge_seq") then Some (id_value (eid_seq e))
          else None
      end
  end.
(** All fields of the row: every name is [v] or [dot v p] for one [v] without a dot. *)
Definition shown (m : bindings) (r : NamedRecord) : Prop :=
  ∀ v, no_dot v → NamedRecord.get v r = bare <$> m !! v
    ∧ ∀ p, NamedRecord.get (dot v p) r = (b ← m !! v; part b p).

Definition fields_of (v : string) (props : Properties) : list (string * value) :=
  (λ p : string * value, (dot v p.1, p.2)) <$> map_to_list props.
Lemma get_fields_bare v props u r : no_dot u →
  NamedRecord.get u (set_all (fields_of v props) r) = NamedRecord.get u r.
Proof.
  intros Hu. apply get_set_all_ne. unfold fields_of.
  intros ((k & w) & -> & ([p x] & [= -> _] & _)%list_elem_of_fmap)%list_elem_of_fmap.
  cbn [fst] in Hu. apply Hu. rewrite dot_bytes. set_solver.
Qed.
Lemma get_fields_dot v props u p r : no_dot u → no_dot v →
  NamedRecord.get (dot u p) (set_all (fields_of v props) r)
  = (if decide (u = v) then match props !! p with Some x => Some x | None => NamedRecord.get (dot u p) r end
     else NamedRecord.get (dot u p) r).
Proof.
  intros Hu Hv. unfold fields_of.
  assert (NoDup ((λ p : string * value, (dot v p.1, p.2)) <$> map_to_list props).*1) as Hd.
  { rewrite <- list_fmap_compose.
    assert ((fst ∘ λ p : string * value, (dot v p.1, p.2)) = dot v ∘ fst) as -> by done.
    rewrite list_fmap_compose. apply NoDup_fmap_2; [intros x y; apply dot_inj|apply NoDup_fst_map_to_list]. }
  assert ((u ≠ v ∨ props !! p = None) →
    dot u p ∉ ((λ p : string * value, (dot v p.1, p.2)) <$> map_to_list props).*1) as Hno.
  { intros H ((k & w) & E & ([q x] & [= -> ->] & Hin)%list_elem_of_fmap)%list_elem_of_fmap.
    cbn [fst] in E. apply dot_inj2 in E as [-> ->]; [|done..]. apply elem_of_map_to_list in Hin.
    destruct H; [done|congruence]. }
  case_decide as E; [subst v|by apply get_set_all_ne, Hno; left].
  destruct (props !! p) as [x|] eqn:Ep; [|by apply get_set_all_ne, Hno; right].
  apply get_set_all; [done|]. apply list_elem_of_fmap. exists (p, x). split; [done|].
  by apply elem_of_map_to_list.
Qed.

(** Setting a field, by the kind of its name. *)
Lemma get_set_bare_bare k v u r :
  NamedRecord.get u (NamedRecord.set k v r) = if decide (u = k) then Some v else NamedRecord.get u r.
Proof.
  case_decide; [subst; apply RecordFacts.get_set|]. apply RecordFacts.get_set_ne. congruence.
Qed.
Lemma get_set_dot_bare k q v u r : no_dot u →
  NamedRecord.get u (NamedRecord.set (dot k q) v r) = NamedRecord.get u r.
Proof. intros Hu. apply RecordFacts.get_set_ne. intros E. by eapply no_dot_ne. Qed.
Lemma get_set_bare_dot k v u p r : no_dot k →
  NamedRecord.get (dot u p) (NamedRecord.set k v r) = NamedRecord.get (dot u p) r.
Proof. intros Hk. apply RecordFacts.get_set_ne. by apply no_dot_ne. Qed.
Lemma get_set_dot_dot k q v u p r : no_dot u → no_dot k →
  NamedRecord.get (dot u p) (NamedRecord.set (dot k q) v r)
  = if decide (u = k ∧ p = q) then Some v else NamedRecord.get (dot u p) r.
Proof.
  intros Hu Hk. case_decide as E; [destruct E as [-> ->]; apply RecordFacts.get_set|].
  apply RecordFacts.get_set_ne. intros Ed. symmetry in Ed. by apply dot_inj2 in Ed.
Qed.

Section binding.
Context (m : bindings) (r : NamedRecord) (Hm : shown m r) (v : string) (Hv : no_dot v) (Hnew : m !! v = None).

Lemma populate_shown n : shown (<[v := BNode n]> m) (populate_node_bindings n v r).
Proof.
  intros u Hu. unfold populate_node_bindings. fold (fields_of v (node_properties n)). split; [|intros p].
  - rewrite !get_set_dot_bare, get_fields_bare, get_set_bare_bare by done. case_decide as E; [subst u|].
    + by rewrite lookup_insert_eq.
    + rewrite lookup_insert_ne by congruence. by apply Hm.
  - rewrite !get_set_dot_dot, get_fields_dot, get_set_bare_dot by done. rewrite (proj2 (Hm u Hu) p).
    destruct (decide (u = v)) as [->|E].
    + rewrite lookup_insert_eq, Hnew. cbn. repeat case_decide; try tauto; [naive_solver..|].
      by destruct (node_properties n !! p).
    + rewrite lookup_insert_ne by congruence. rewrite !decide_False by tauto. done.
Qed.
Lemma set_rel_shown e props :
  shown (<[v := BRel e props]> m) (set_rel v (eid_label e) (eid_src e) (eid_dst e) (eid_seq e) props r).
Proof.
  intros u Hu. unfold set_rel. fold (fields_of v props). split; [|intros p].
  - rewrite get_fields_bare, !get_set_dot_bare, get_set_bare_bare by done. case_decide as E; [subst u|].
    + by rewrite lookup_insert_eq.
    + rewrite lookup_insert_ne by congruence. by apply Hm.
  - rewrite get_fields_dot, !get_set_dot_dot, get_set_bare_dot by done. rewrite (proj2 (Hm u Hu) p).
    destruct (decide (u = v)) as [->|E].
    + rewrite lookup_insert_eq, Hnew. cbn. destruct (props !! p); [done|].
      repeat case_decide; try tauto; naive_solver.
    + rewrite lookup_insert_ne by congruence. rewrite !decide_False by tauto. done.
Qed.
End binding.

(** *** Relationships of a row *)

(** Property names without a dot, and unlike those of the executor. *)
Definition plain_name (p : string) : Prop := no_dot p ∧ str_starts "__" p = false.
#[global] Instance plain_name_dec p : Decision (plain_name p).
Proof. unfold plain_name. apply _. Defined.
Definition plain_binding (b : binding) : Prop :=
  match b with
  | BNode n => ∀ p, is_Some (node_properties n !! p) → plain_name p
  | BRel e props => in_u64 (eid_seq e) ∧ ∀ p, is_Some (props !! p) → plain_name p
  end.
Definition well_named (m : bindings) : Prop := ∀ v b, m !! v = Some b → no_dot v ∧ plain_binding b.
Definition edge_key (e : eid) : EdgeId :=
  edge_key_of (i64_of_u64 (eid_src e)) (i64_of_u64 (eid_dst e)) (eid_label e) (eid_seq e).

Lemma plain_none (props : Properties) p : (∀ p, is_Some (props !! p) → plain_name p) →
  str_starts "__" p = true ∨ ¬ no_dot p → props !! p = None.
Proof.
  intros H Hp. destruct (props !! p) eqn:E; [|done]. destruct (H p); [by eexists|].
  destruct Hp; [congruence|done].
Qed.
Lemma src_alias_spec k u : src_alias_of k = Some u ↔ k = dot u "__src".
Proof.
  unfold src_alias_of, str_ends_with, str_len. split.
  - case_bool_decide as H; [|done]. intros [= <-]. destruct H as [l E].
    apply (inj str_bytes). rewrite dot_bytes, str_bytes_str.
    change (str_bytes ".__src") with ("."%byte :: str_bytes "__src") in E. rewrite E.
    rewrite length_app. change (length ("."%byte :: str_bytes "__src")) with 6%nat.
    rewrite Nat.add_sub, take_app_length. done.
  - intros ->. rewrite bool_decide_eq_true_2.
    + f_equal. rewrite dot_bytes, length_app. change (length ("."%byte :: str_bytes "__src")) with 6%nat.
      rewrite Nat.add_sub, take_app_length. apply bytes_str_bytes.
    + exists (str_bytes u). by rewrite dot_bytes.
Qed.
Lemma dotted_twice u p q : dot (dot u p) q = dot u (p +:+ "." +:+ q).
Proof. apply (inj str_bytes). rewrite !dot_bytes, !str_bytes_app, <-app_assoc. done. Qed.

Section relationships.
Context (m : bindings) (r : NamedRecord) (Hm : shown m r) (Hw : well_named m).

Lemma shown_part u b p : m !! u = Some b → NamedRecord.get (dot u p) r = part b p.
Proof. intros Hu. rewrite (proj2 (Hm u (proj1 (Hw _ _ Hu)))). by rewrite Hu. Qed.
Lemma shown_edge_id u e props : m !! u = Some (BRel e props) → edge_id_of r u = Some (edge_key e).
Proof.
  intros Hu. destruct (Hw _ _ Hu) as [_ [Hq Hp]].
  assert (∀ p, str_starts "__" p = true → props !! p = None) as Hnone by (intros; apply plain_none; auto).
  assert (part (BRel e props) "__src" = Some (id_value (eid_src e))) as Hsrc by (cbn [part]; by rewrite Hnone).
  assert (part (BRel e props) "__dst" = Some (id_value (eid_dst e))) as Hdst by (cbn [part]; by rewrite Hnone).
  assert (part (BRel e props) "__type" = Some (Value.String (eid_label e))) as Htype
    by (cbn [part]; by rewrite Hnone).
  assert (part (BRel e props) "__edge_seq" = Some (id_value (eid_seq e))) as Hseq
    by (cbn [part]; by rewrite Hnone).
  unfold edge_id_of. rewrite !(shown_part u _ _ Hu), Hsrc, Hdst, Htype, Hseq.
  cbn [int_field str_field id_value edge_seq_field mbind option_bind]. unfold edge_seq_field.
  cbn [int_field]. by rewrite u64_of_i64_of_u64.
Qed.
Lemma shown_src_key u : is_Some (NamedRecord.get (dot u "__src") r) → ∃ e props, m !! u = Some (BRel e props).
Proof.
  intros [x Hx]. destruct (dot_cases u) as [Hu|(u' & p & Hu' & ->)].
  - rewrite (proj2 (Hm u Hu)) in Hx. destruct (m !! u) as [[n|e props]|] eqn:E; [|eauto|done].
    destruct (Hw _ _ E) as [_ Hp]. cbn in Hx. rewrite plain_none in Hx by (done || by left). done.
  - rewrite dotted_twice in Hx. rewrite (proj2 (Hm u' Hu')) in Hx.
    destruct (m !! u') as [b|] eqn:E; [|done]. exfalso. destruct (Hw _ _ E) as [_ Hp].
    set (q := p +:+ "." +:+ "__src") in Hx.
    assert (¬ no_dot q) as Hq.
    { intros H. apply H. unfold q. rewrite !str_bytes_app. set_solver. }
    assert (∀ s, no_dot s → q ≠ s) as Hne by (intros s Hs ->; done).
    cbn in Hx. destruct b as [n|e props]; cbn in Hx.
    + rewrite !decide_False in Hx by (apply Hne; by_decide). rewrite plain_none in Hx by (done || by right). done.
    + destruct Hp as [_ Hp]. rewrite plain_none in Hx by (done || by right).
      rewrite !decide_False in Hx by (apply Hne; by_decide). done.
Qed.
Lemma bound_elsewhere_spec v key : no_dot v → m !! v = None →
  bound_elsewhere r v key = true ↔ ∃ u e props, m !! u = Some (BRel e props) ∧ edge_key e = key.
Proof.
  intros Hvd Hv. unfold bound_elsewhere. rewrite existsb_exists. split.
  - intros ([k x] & Hin & H). cbn [fst] in H. destruct (src_alias_of k) as [u|] eqn:Eu; [|done].
    apply src_alias_spec in Eu as ->. apply andb_true_iff in H as [_ H%bool_decide_eq_true].
    destruct (shown_src_key u) as (e & props & Hu).
    { apply list_elem_of_In in Hin. unfold NamedRecord.get. clear -Hin.
      induction (NamedRecord.fields r) as [|[k' y] l IH]; [by apply elem_of_nil in Hin|]. cbn.
      case_decide; [by eexists|]. apply elem_of_cons in Hin as [Heq|Hin]; [congruence|auto]. }
    exists u, e, props. split; [done|]. rewrite (shown_edge_id u e props Hu) in H. congruence.
  - intros (u & e & props & Hu & <-). destruct (Hw _ _ Hu) as [Hd [_ Hp]].
    assert (NamedRecord.get (dot u "__src") r = Some (id_value (eid_src e))) as Hg.
    { rewrite (proj2 (Hm u Hd)), Hu. cbn. by rewrite plain_none by (done || by left). }
    exists (dot u "__src", id_value (eid_src e)). cbn [fst]. split.
    + apply list_elem_of_In. unfold NamedRecord.get in Hg. clear -Hg.
      induction (NamedRecord.fields r) as [|[k' y] l IH]; [done|]. cbn in Hg. revert Hg.
      case_decide as E; [intros [= ->]; subst; by left|]. intros H. right. auto.
    + rewrite (proj2 (src_alias_spec _ u) eq_refl). rewrite (shown_edge_id u e props Hu).
      rewrite bool_decide_true by done. rewrite andb_true_r. apply negb_true_iff, String.eqb_neq.
      intros [-> _]%dot_inj2; [congruence|done..].
Qed.
End relationships.

(** *** The condition on a label *)
Lemma in_loop_labels l labels :
  in_loop (Value.String l) false (Value.String <$> labels) = Value.Bool (bool_decide (l ∈ labels)).
Proof.
  induction labels as [|x labels IH]; [done|]. cbn [fmap list_fmap in_loop].
  assert (values_equal (Value.String l) (Value.String x) = Value.Bool (String.eqb l x)) as -> by done.
  destruct (String.eqb l x) eqn:E.
  - apply String.eqb_eq in E as ->. by rewrite bool_decide_true by left.
  - apply String.eqb_neq in E. rewrite IH. f_equal. apply bool_decide_ext.
    rewrite elem_of_cons. naive_solver.
Qed.

Section condition.
Context {Ch : Chrono} {Co : ChronoOrder} {Lm : Libm} {Un : Unicode}.
Context {conn : Type} {O : SqlOps conn} {Mp : Msgpack} {S : Type}.
Context (X : Effects S) (Q : conn → Subqueries S) (params : option (gmap string value)).

Lemma label_condition m r v n l (w : conn * S) : shown m r → well_named m → m !! v = Some (BNode n) →
  holds_in (eval X Q params) (has_label_condition v l) r w = (w, Ok (bool_decide (l ∈ node_labels n))).
Proof.
  intros Hm Hw Hv. destruct (Hw _ _ Hv) as [Hd Hp]. destruct w as [c s].
  assert (NamedRecord.get (dot v "__deleted") r = None) as Hdel.
  { rewrite (shown_part m r Hm Hw v _ _ Hv). cbn [part].
    rewrite !decide_False by done. apply plain_none; [done|by left]. }
  assert (NamedRecord.get v r = Some (id_value (node_id n))) as Hid by (by rewrite (proj1 (Hm v Hd)), Hv).
  assert (NamedRecord.get (dot v "__labels") r = Some (label_values (node_labels n))) as Hl
    by (by rewrite (shown_part m r Hm Hw v _ _ Hv)).
  assert (eval_expr X (Q c) c params (has_label_condition v l) (named_view r) s
    = (s, Ok (Value.Bool (bool_decide (l ∈ node_labels n))))) as Hev.
  { unfold has_label_condition, synthetic. cbn [eval_expr expr_kind].
    unfold eval_property, field, mbind, M_bind, lift, mret, M_ret. cbn [view_get named_view literal_to_value].
    rewrite Hdel, Hid, Hl. cbn -[in_loop fmap]. by rewrite in_loop_labels. }
  unfold holds_in, ev_in, Eval.holds, mbind, M_bind, eval. cbn [fst snd]. rewrite Hev. cbn. by case_bool_decide.
Qed.
End condition.

(** ** Matches of a chain in a graph

    A chain of named nodes and directed relationships of one hop:
    [(start:labels)-[rel:types]->(dst:labels)-...], each arrow in either direction. *)
Record Hop := mkHop {
  h_rel : string; h_types : list string; h_out : bool; h_dst : string; h_labels : list string }.
Record Line := mkLine { l_start : string; l_labels : list string; l_hops : list Hop }.
(** The nodes and edges that are taken, in order. *)
Abbreviation embedding := (N * list (eid * N))%type.

Definition node_pattern (v : string) (labels : list string) : PatternElement Expr :=
  PNode (mkNodePattern (Some v) labels ∅).
Definition hop_elements (h : Hop) : list (PatternElement Expr) :=
  [PRelationship (mkRelPattern (Some (h_rel h)) (h_types h) ∅ (if h_out h then RelOutgoing else RelIncoming) None);
   node_pattern (h_dst h) (h_labels h)].
Definition pattern_of (l : Line) : Pattern Expr :=
  mkPattern (node_pattern (l_start l) (l_labels l) :: flat_map hop_elements (l_hops l)) None
    ShortestPathMode.None.
Definition line_names (l : Line) : list string :=
  l_start l :: flat_map (λ h, [h_rel h; h_dst h]) (l_hops l).

Section matches.
Context (g : graph).

(** The node has all labels. *)
Definition labelled (labels : list string) (i : N) : Prop :=
  ∃ rec, g_nodes g !! i = Some rec ∧ Forall (λ l, l ∈ rec_labels rec) labels.
(** The edge leads from [i] to [j], or from [j] to [i] against the arrow. *)
Definition leads (out : bool) (e : eid) (i j : N) : Prop :=
  if out then eid_src e = i ∧ eid_dst e = j else eid_src e = j ∧ eid_dst e = i.
Definition takes (h : Hop) (i : N) (x : eid * N) : Prop :=
  is_Some (g_edges g !! x.1) ∧ (h_types h = [] ∨ eid_label x.1 ∈ h_types h)
  ∧ leads (h_out h) x.1 i x.2 ∧ labelled (h_labels h) x.2.
Fixpoint route (i : N) (hops : list Hop) (steps : list (eid * N)) : Prop :=
  match hops, steps with
  | [], [] => True
  | h :: hops', x :: steps' => takes h i x ∧ route x.2 hops' steps'
  | _, _ => False
  end.
(** Each node has its labels, each edge its type and its ends, and no edge is taken twice. *)
Definition matches (l : Line) (m : embedding) : Prop :=
  labelled (l_labels l) m.1 ∧ route m.1 (l_hops l) m.2 ∧ NoDup m.2.*1.

(** What the names are bound to. *)
Definition node_of (i : N) : Node :=
  match g_nodes g !! i with Some rec => node_at i rec | None => mkNode i [] ∅ end.
Definition rel_of (e : eid) : binding := BRel e (default ∅ (g_edges g !! e)).
Definition bind_step (b : bindings) (hx : Hop * (eid * N)) : bindings :=
  <[h_rel hx.1 := rel_of hx.2.1]> (<[h_dst hx.1 := BNode (node_of hx.2.2)]> b).
Definition bound (l : Line) (m : embedding) : bindings :=
  foldl bind_step {[l_start l := BNode (node_of m.1)]} (zip (l_hops l) m.2).

(** *** One hop more *)
Definition snoc (l : Line) (h : Hop) : Line := mkLine (l_start l) (l_labels l) (l_hops l ++ [h]).
Definition end_of (m : embedding) : N := match last m.2 with Some x => x.2 | None => m.1 end.
Definition last_name (l : Line) : string :=
  match last (l_hops l) with Some h => h_dst h | None => l_start l end.
Definition further (m : embedding) (x : eid * N) : embedding := (m.1, m.2 ++ [x]).

Lemma route_steps i hops steps : route i hops steps → length steps = length hops.
Proof.
  revert i steps. induction hops as [|h hops IH]; intros i [|x steps]; try done.
  cbn. intros [_ H%IH]. congruence.
Qed.
Lemma route_snoc i hops h steps x :
  route i (hops ++ [h]) (steps ++ [x]) ↔ route i hops steps ∧ takes h (end_of (i, steps)) x.
Proof.
  revert i steps. induction hops as [|h' hops IH]; intros i [|y steps]; cbn [route app].
  - by rewrite !(right_id True and), (left_id True and).
  - split; [|by intros [[] _]]. intros [_ H]. by destruct steps.
  - split; [|by intros [[] _]]. intros [_ H]. by destruct hops.
  - rewrite IH. assert (end_of (y.2, steps) = end_of (i, y :: steps)) as ->; [|tauto].
    unfold end_of. cbn [snd fst]. rewrite last_cons. by destruct (last steps).
Qed.
Lemma matches_snoc l h m :
  matches (snoc l h) m ↔ ∃ m' x, matches l m' ∧ (takes h (end_of m') x ∧ x.1 ∉ m'.2.*1) ∧ m = further m' x.
Proof.
  unfold matches, snoc. cbn [l_labels l_hops]. split.
  - destruct m as [i steps]. cbn [fst snd]. intros (Hl & Hr & Hd).
    destruct steps as [|x steps _] using rev_ind.
    { apply route_steps in Hr. rewrite length_app in Hr. cbn in Hr. lia. }
    apply route_snoc in Hr as [Hr Hx]. rewrite fmap_app in Hd. apply NoDup_app in Hd as (Hd & Hn & _).
    exists (i, steps), x. split_and!; try done. intros Hin. eapply Hn; [exact Hin|]. cbn. by left.
  - intros ([i steps] & x & (Hl & Hr & Hd) & [Hx Hn] & ->). unfold further. cbn [fst snd] in *.
    split_and!; [done|by apply route_snoc|]. rewrite fmap_app. apply NoDup_app. split_and!; [done| |].
    + intros e He. cbn. intros ->%list_elem_of_singleton. done.
    + apply NoDup_singleton.
Qed.
Lemma bound_snoc l h m x : length m.2 = length (l_hops l) →
  bound (snoc l h) (further m x) = bind_step (bound l m) (h, x).
Proof.
  intros H. unfold bound, snoc, further. cbn [l_start l_hops fst snd].
  rewrite zip_with_app by done. by rewrite foldl_app.
Qed.
End matches.

(** ** Expanding a row *)
Lemma concat_r_pure {A B} (f : A → list B) l : concat_r (λ a, Ok (f a)) l = Ok (l ≫= f).
Proof.
  unfold concat_r. assert (collect (λ a, Ok (f a)) l = Ok (f <$> l)) as -> by (by apply collect_ok).
  change (Ok (concat (f <$> l)) = (Ok (l ≫= f) : Res (list B))). f_equal.
  induction l as [|a l IH]; [done|]. cbn. by f_equal.
Qed.
Lemma lists_one {A R} (V : A → R → Prop) y r : V y r → lists (λ z, z = y) V [r].
Proof.
  intros H. exists [y]. split_and!; [apply NoDup_singleton|set_solver|by repeat constructor].
Qed.
Lemma lists_none {A R} (V : A → R → Prop) : lists (λ _, False) V [].
Proof. exists []. split_and!; [constructor|set_solver|constructor]. Qed.

(** Properties of nodes and relationships have plain names. *)
Definition plain_graph (g : graph) : Prop :=
  (∀ i rec p, g_nodes g !! i = Some rec → is_Some (rec_properties rec !! p) → plain_name p)
  ∧ (∀ e props p, g_edges g !! e = Some props → is_Some (props !! p) → plain_name p).

Section finding.
Context {Ch : Chrono} {Co : ChronoOrder} {Lm : Libm} {Un : Unicode}.
Context {Mp : Msgpack} {ML : MsgpackLaws} {conn : Type} {O : SqlOps conn} {view : conn → db}
  {L : SqlLaws conn view}.
Context (g : graph) (c : conn) (Hg : consistent g (view c)) (Hplain : plain_graph g) (T : Traversals).

Definition dir_of (out : bool) : Direction := if out then Outgoing else Incoming.
Lemma stored_edge e p : g_edges g !! e = Some p → valid_eid e ∧ is_Some (g_nodes g !! eid_src e)
  ∧ is_Some (g_nodes g !! eid_dst e).
Proof.
  intros He. split; [exact (proj1 (edge_valid (cs_repr _ _ Hg) e p He))|]. apply (cs_linked _ _ Hg). by eexists.
Qed.
Lemma nbr_iff out i l j : nbr (g_edges g) (dir_of out) i l j ↔
  ∃ e, is_Some (g_edges g !! e) ∧ eid_label e = l ∧ leads out e i j.
Proof.
  destruct out; cbn; (split; [intros [q H]|intros ([[[s t] l'] q] & H & <- & <- & <-)]).
  - by exists ((i, j, l, q) : eid).
  - by exists q.
  - by exists ((j, i, l, q) : eid).
  - by exists q.
Qed.
Lemma stored_node i : is_Some (g_nodes g !! i) → in_u64 i ∧ get_node i c = Ok (node_of g i).
Proof.
  intros Hi. pose proof (repr_ids g _ (cs_repr _ _ Hg) i Hi) as Hu. split; [done|].
  rewrite get_node_view, (get_node_run (cs_repr _ _ Hg)) by done. unfold node_of.
  destruct Hi as [rec ->]. done.
Qed.
Lemma leads_ends out e i j : is_Some (g_edges g !! e) → leads out e i j →
  is_Some (g_nodes g !! i) ∧ is_Some (g_nodes g !! j).
Proof. intros [p He%stored_edge] Hl. destruct out, Hl as [<- <-]; tauto. Qed.

(** The types that are followed: those that are named, or those there are. *)
Lemma followed_types out i types : in_u64 i → NoDup types →
  ∃ ls, expand_labels c i types (dir_of out) = Ok ls ∧ NoDup ls
    ∧ ∀ l j, nbr (g_edges g) (dir_of out) i l j → l ∈ ls ↔ types = [] ∨ l ∈ types.
Proof.
  intros Hi Ht. destruct types as [|t types].
  2:{ exists (t :: types). split_and!; [done..|]. intros l j _. split; [by right|by intros [|]]. }
  pose proof (cs_repr _ _ Hg) as Hr.
  assert (∃ L, get_all_edge_labels i (dir_of out) c = Ok L ∧ NoDup L.*1
    ∧ ∀ l j, nbr (g_edges g) (dir_of out) i l j → l ∈ L.*1) as (L0 & E & Hd & HL).
  { rewrite get_all_edge_labels_view. destruct out.
    - destruct (edge_labels_in_spec (view c) TABLE_ADJ_OUT eq_refl (r_out_tbl _ _ Hr) _ (r_out _ _ Hr) i Hi)
        as (L0 & EL & Hd & HL). exists L0. split_and!; [done..|]. intros l j Hj.
      apply list_elem_of_fmap. exists (l, adj_ids (trows (view c) TABLE_ADJ_OUT) i l). split; [done|].
      apply HL. split_and!; [exact (proj1 (out_rel_valid Hr _ _ _ Hj))| |done].
      apply (elem_of_out Hr) in Hj; [|done]. intros E0. rewrite E0 in Hj. by apply elem_of_nil in Hj.
    - destruct (edge_labels_in_spec (view c) TABLE_ADJ_IN eq_refl (r_in_tbl _ _ Hr) _ (r_in _ _ Hr) i Hi)
        as (L0 & EL & Hd & HL). exists L0. split_and!; [done..|]. intros l j Hj.
      apply list_elem_of_fmap. exists (l, adj_ids (trows (view c) TABLE_ADJ_IN) i l). split; [done|].
      apply HL. split_and!; [exact (proj1 (in_rel_valid Hr _ _ _ Hj))| |done].
      apply (elem_of_in Hr) in Hj; [|done]. intros E0. rewrite E0 in Hj. by apply elem_of_nil in Hj. }
  exists L0.*1. unfold expand_labels. rewrite E. split_and!; [done..|].
  intros l j Hj. split; [by left|]. intros _. by eapply HL.
Qed.

Section row.
Context (m : bindings) (r : NamedRecord) (Hm : shown m r) (Hw : well_named m).
Context (i : N) (Hi : is_Some (g_nodes g !! i)) (used : list eid).
Context (Hused : ∀ e, (∃ u p, m !! u = Some (BRel e p)) ↔ e ∈ used)
  (Hstored : ∀ e, e ∈ used → is_Some (g_edges g !! e)).
Context (h : Hop) (Hrel : no_dot (h_rel h)) (Hdst : no_dot (h_dst h)) (Hne : h_rel h ≠ h_dst h)
  (Hnew_rel : m !! h_rel h = None) (Hnew_dst : m !! h_dst h = None).

(** An edge from the node along the arrow that is not taken yet. *)
Definition steps_to (l : string) (j : N) (y : eid * N) : Prop :=
  (is_Some (g_edges g !! y.1) ∧ eid_label y.1 = l ∧ leads (h_out h) y.1 i j ∧ y.2 = j) ∧ y.1 ∉ used.
Abbreviation shows_step := (λ (y : eid * N) r', shown (bind_step g m (h, y)) r').

Lemma node_named j : is_Some (g_nodes g !! j) → well_named (<[h_dst h := BNode (node_of g j)]> m).
Proof.
  intros [rec Hj] u b. rewrite lookup_insert_Some. intros [[<- <-]|[_ Hb]]; [|by apply Hw].
  split; [done|]. cbn. unfold node_of. rewrite Hj. cbn. intros p. by apply (proj1 Hplain j rec).
Qed.

(** The rows for one stored edge. *)
Lemma edge_rows_step j e props : is_Some (g_nodes g !! j) → g_edges g !! e = Some props →
  lists (λ y, y = (e, j) ∧ e ∉ used) shows_step
    (edge_rows r (node_of g j) (h_dst h) (h_rel h) (eid_label e) (eid_src e) (eid_dst e) (eid_seq e, props)).
Proof.
  intros Hj He. unfold edge_rows. cbn [fst snd].
  set (m' := <[h_dst h := BNode (node_of g j)]> m).
  assert (shown m' (populate_node_bindings (node_of g j) (h_dst h) r)) as Hm' by (by apply populate_shown).
  assert (well_named m') as Hw' by (by apply node_named).
  assert (m' !! h_rel h = None) as Hr' by (unfold m'; by rewrite lookup_insert_ne).
  change (edge_key_of _ _ _ _) with (edge_key e).
  pose proof (bound_elsewhere_spec m' _ Hm' Hw' (h_rel h) (edge_key e) Hrel Hr') as Hb.
  assert ((∃ u e' p, m' !! u = Some (BRel e' p) ∧ edge_key e' = edge_key e) ↔ e ∈ used) as Hiff.
  { rewrite <-Hused. unfold m'. split.
    - intros (u & e' & p & Hu & Ek). apply lookup_insert_Some in Hu as [[_ ?]|[_ Hu]]; [done|].
      exists u, p. assert (e' = e) as <-; [|done].
      eapply (r_seq_inj _ _ (cs_repr _ _ Hg)); [apply Hstored, Hused; eauto|by eexists|].
      unfold edge_key, edge_key_of in Ek. congruence.
    - intros (u & p & Hu). exists u, e, p. split; [|done]. rewrite lookup_insert_ne; [done|congruence]. }
  destruct (bound_elsewhere _ _ _).
  - eapply lists_mono; [| |apply (lists_none shows_step)]; [|done].
    intros y. split; [done|]. intros [_ Hn]. apply Hn, Hiff, Hb. done.
  - eapply lists_mono; [| |apply (lists_one shows_step (e, j))]; [|done|].
    + intros y. split; [intros ->; split; [done|]|by intros [-> _]]. intros Hin%Hiff%Hb. done.
    + unfold bind_step. cbn [fst snd]. unfold rel_of. rewrite He. by apply set_rel_shown.
Qed.

(** The rows for one neighbour. *)
Lemma neighbor_step l j : nbr (g_edges g) (dir_of (h_out h)) i l j →
  ∃ rs, neighbor_rows c r i (h_dst h) (Some (h_rel h)) (dir_of (h_out h)) l j = Ok rs
    ∧ lists (steps_to l j) shows_step rs.
Proof.
  intros Hn. pose proof (cs_repr _ _ Hg) as Hr.
  apply nbr_iff in Hn as (e0 & He0 & <- & Hl0).
  destruct (leads_ends _ _ _ _ He0 Hl0) as [_ Hj]. destruct (stored_node j Hj) as [Hju Ej].
  destruct (stored_node i Hi) as [Hiu _].
  set (s := if h_out h then i else j). set (t := if h_out h then j else i).
  assert (valid_name (eid_label e0)) as Hv.
  { destruct He0 as [p0 Hp0]. apply stored_edge in Hp0 as [Hv _]. by destruct e0 as [[[? ?] ?] ?], Hv as (? & ? & ? & ?). }
  destruct (get_all_edge_props_spec Hr s t (eid_label e0)) as (L0 & EL & Hs & HL);
    [by unfold s; destruct (h_out h)|by unfold t; destruct (h_out h)|done|].
  assert (edge_ends c (dir_of (h_out h)) i j (eid_label e0) = Ok (s, t)) as Eends
    by (unfold s, t; by destruct (h_out h)).
  assert (∀ q p, (q, p) ∈ L0 ↔ g_edges g !! ((s, t, eid_label e0, q) : eid) = Some p) as HL' by done.
  assert (L0 ≠ []) as Hne0.
  { intros ->. destruct He0 as [p0 Hp0].
    assert (e0 = (s, t, eid_label e0, eid_seq e0)) as E0.
    { unfold s, t. destruct e0 as [[[a b] l] q]. destruct (h_out h), Hl0 as [<- <-]; done. }
    rewrite E0 in Hp0. apply HL' in Hp0. by apply elem_of_nil in Hp0. }
  assert (NoDup L0) as Hd.
  { clear -Hs. induction Hs as [|a l _ IH Ha]; constructor; [|done]. intros Hin.
    rewrite Forall_forall in Ha. specialize (Ha a Hin). lia. }
  destruct (lists_concat (λ a, a ∈ L0) eq
    (λ a y, y = ((s, t, eid_label e0, a.1) : eid, j) ∧ ((s, t, eid_label e0, a.1) : eid) ∉ used) shows_step)
    with (f := λ a, Ok (edge_rows r (node_of g j) (h_dst h) (h_rel h) (eid_label e0) s t a) : Res _)
         (rows := L0) as (rs & Ers & Hrs).
  - intros [q p] [q' p'] y Hq Hq' [-> _] [[= ->] _]. apply HL' in Hq, Hq'. congruence.
  - intros [q p] ? Hq <-. eexists. split; [done|]. apply HL' in Hq.
    by apply (edge_rows_step j ((s, t, eid_label e0, q) : eid) p).
  - by apply lists_self.
  - exists rs. split.
    + unfold neighbor_rows. rewrite Eends. cbn [mbind result_bind fst snd].
      rewrite get_all_edge_props_view, EL. cbn [mbind result_bind]. rewrite Ej. cbn [mbind result_bind].
      rewrite concat_r_pure in Ers. destruct L0; [done|]. exact Ers.
    + eapply lists_mono; [| |exact Hrs]; [|done]. intros [e j']. cbn [fst snd]. unfold steps_to. cbn [fst snd].
      split.
      * intros ([q p] & Hq & [= -> ->] & Hnu). apply HL' in Hq. split; [|done].
        split_and!; [by eexists|done| |done]. unfold leads, s, t. by destruct (h_out h).
      * intros [([p He] & El & Hl & ->) Hnu]. destruct e as [[[a b] l'] q].
        assert ((a, b) = (s, t)) as [= -> ->] by (unfold s, t; destruct (h_out h), Hl as [<- <-]; done).
        cbn in El. subst l'. exists (q, p). split_and!; [by apply HL'|done|done].
Qed.

Definition hop_op (v : string) : ExpandOp :=
  mkExpand v (h_dst h) (Some (h_rel h)) (h_types h) (dir_of (h_out h)) 1 1 false.
(** A step of the hop, whatever the labels of its end. *)
Definition steps_along (y : eid * N) : Prop :=
  (is_Some (g_edges g !! y.1) ∧ (h_types h = [] ∨ eid_label y.1 ∈ h_types h) ∧ leads (h_out h) y.1 i y.2)
  ∧ y.1 ∉ used.

(** The rows for one row. *)
Lemma expand_step v filters cap work : NoDup (h_types h) → m !! v = Some (BNode (node_of g i)) →
  ∃ rs, expand_record c T (hop_op v) filters cap work r = Ok rs ∧ lists steps_along shows_step rs.
Proof.
  intros Ht Hv. destruct (stored_node i Hi) as [Hiu _].
  assert (bound_node v r = Some i) as Hsrc.
  { unfold bound_node. rewrite (proj1 (Hm v (proj1 (Hw _ _ Hv)))), Hv.
    change (value_to_node_id (id_value (node_id (node_of g i))) = Some i).
    assert (node_id (node_of g i) = i) as -> by (unfold node_of; by destruct (g_nodes g !! i)).
    unfold value_to_node_id, id_value. by rewrite u64_of_i64_of_u64. }
  assert (bound_node (h_dst h) r = None) as Hd by (unfold bound_node; by rewrite (proj1 (Hm _ Hdst)), Hnew_dst).
  destruct (followed_types (h_out h) i (h_types h) Hiu Ht) as (ls & Els & Hdls & Hls).
  unfold expand_record. cbn [hop_op ex_src ex_dst ex_rel ex_types ex_direction ex_min ex_max ex_var_length].
  rewrite Hsrc, Els, Hd. cbn [mbind result_bind].
  destruct (lists_concat (λ l, l ∈ ls) eq
    (λ l y, ∃ j, nbr (g_edges g) (dir_of (h_out h)) i l j ∧ steps_to l j y) shows_step)
    with (f := λ l, neighbors ← get_neighbors i l (dir_of (h_out h)) c;
                    concat_r (neighbor_rows c r i (h_dst h) (Some (h_rel h)) (dir_of (h_out h)) l)
                      (List.filter (dst_allowed None) neighbors))
         (rows := ls) as (rs & Ers & Hrs).
  - intros l l' y _ _ (j & _ & [(_ & <- & _) _]) (j' & _ & [(_ & <- & _) _]). done.
  - intros l ? Hl <-. destruct (get_neighbors_spec (cs_repr _ _ Hg) i l (dir_of (h_out h)) Hiu)
      as (ids & Eids & Hdi & Hids).
    rewrite get_neighbors_view, Eids. cbn [mbind result_bind].
    assert (List.filter (dst_allowed None) ids = ids) as ->.
    { clear. induction ids as [|x ids IH]; [done|]. cbn. by f_equal. }
    destruct (lists_concat (λ j, j ∈ ids) eq (steps_to l) shows_step)
      with (f := neighbor_rows c r i (h_dst h) (Some (h_rel h)) (dir_of (h_out h)) l) (rows := ids)
      as (rs & Ers & Hrs).
    + intros j j' y _ _ [(_ & _ & _ & <-) _] [(_ & _ & _ & <-) _]. done.
    + intros j ? Hj <-. apply Hids in Hj. by apply neighbor_step.
    + by apply lists_self.
    + exists rs. split; [done|]. eapply lists_mono; [| |exact Hrs]; [|done].
      intros y. by setoid_rewrite Hids.
  - by apply lists_self.
  - exists rs. split; [exact Ers|]. eapply lists_mono; [| |exact Hrs]; [|done].
    intros [e j]. unfold steps_along, steps_to. cbn [fst snd]. split.
    + intros (l & Hl & j' & Hn & (He & <- & Hle & <-) & Hnu).
      split; [|done]. split_and!; [done| |done]. by eapply Hls.
    + intros [(He & Hty & Hle) Hnu]. assert (nbr (g_edges g) (dir_of (h_out h)) i (eid_label e) j) as Hn
        by (apply nbr_iff; eauto).
      exists (eid_label e). split; [by eapply Hls|]. exists j. split; [done|]. done.
Qed.
End row.

(** *** All rows of the input *)
Lemma expand_all x filters work rows :
  exec_expand c T x filters None 0 work rows = concat_r (expand_record c T x (literal_filters filters) None work) rows.
Proof.
  unfold exec_expand. cbn [fmap option_fmap option_map].
  assert (∀ rows results, expand_loop c T x (literal_filters filters) None work rows results
    = (rs ← concat_r (expand_record c T x (literal_filters filters) None work) rows; Ok (results ++ rs))) as Hloop.
  { intros l. induction l as [|r l IH]; intros results; [unfold concat_r; cbn; by rewrite app_nil_r|]; cbn [expand_loop].
    unfold concat_r in *. cbn [collect fmap option_fmap option_map].
    destruct (expand_record _ _ _ _ _ _ _); [|done..]. cbn. rewrite IH.
    destruct (collect _ l); [|done..]. cbn. by rewrite <-app_assoc. }
  rewrite Hloop. destruct (concat_r _ _); [|done..]. cbn. unfold check_row_limit.
  by rewrite decide_False by lia.
Qed.
End finding.

(** ** Plans of chains *)
Section plans.
Context {Ch : Chrono} {Co : ChronoOrder} {Lm : Libm} {Un : Unicode} {Db : DebugText}.
Context {Mp : Msgpack} {ML : MsgpackLaws} {conn : Type} {O : SqlOps conn} {view : conn → db}
  {L : SqlLaws conn view} {Fm : FtsMatch conn} {Fs : FtsSearch conn}.
Context {S : Type} (X : Effects S) (Q : conn → Subqueries S) (T : conn → Traversals)
  (params : option (gmap string value)) (procedures : ProcedureRegistry) (ctx : Limits)
  (Hmax : Executor.max_result_rows ctx = 0%N).
Context (g : graph) (c : conn) (Hg : consistent g (view c)) (Hplain : plain_graph g).
Abbreviation exec_plan op := (Executor.exec X Q T params procedures ctx op).

(** The rows of a plan are the elements of [E], under the names of [B]. *)
Definition finds (op : LogicalOp) (E : embedding → Prop) (B : embedding → bindings) : Prop :=
  ∀ s, ∃ rows, exec_plan op (c, s) = ((c, s), Ok rows) ∧ lists E (λ m r, shown (B m) r) rows.
Definition end_labels (m : embedding) : list string := node_labels (node_of g (end_of m)).

Lemma finds_mono op (E E' : embedding → Prop) (B B' : embedding → bindings) :
  (∀ m, E m ↔ E' m) → (∀ m, E m → B m = B' m) → finds op E B → finds op E' B'.
Proof.
  intros HE HB H s. destruct (H s) as (rows & Er & Hl). exists rows. split; [done|].
  eapply lists_mono; [exact HE| |exact Hl]. intros m r Hm. cbn beta. by rewrite HB.
Qed.

(** One condition on a label of the last node. *)
Lemma finds_label op E B v l :
  (∀ m, E m → well_named (B m) ∧ B m !! v = Some (BNode (node_of g (end_of m)))) →
  finds op E B → finds (Op.Filter op (has_label_condition v l)) (λ m, E m ∧ l ∈ end_labels m) B.
Proof.
  intros HE H s. destruct (H s) as (rows & Er & Hl).
  destruct (lists_filter E (λ m, l ∈ end_labels m) (λ m r, shown (B m) r)
    (holds_in (eval X Q params) (has_label_condition v l)) (c, s) rows) as (rs & Ers & Hrs); [|done|].
  - intros m r Hm Hr. destruct (HE m Hm) as [Hw Hv]. by eapply label_condition.
  - exists rs. split; [|done].
    change ((records ← exec_plan op; exec_filter (eval X Q params) (has_label_condition v l) records) (c, s)
      = ((c, s), Ok rs)).
    unfold mbind, M_bind. by rewrite Er.
Qed.
Lemma finds_labels (step : LogicalOp → string → LogicalOp) op E B v labels :
  (∀ op l, l ∈ labels → step op l = Op.Filter op (has_label_condition v l)) →
  (∀ m, E m → well_named (B m) ∧ B m !! v = Some (BNode (node_of g (end_of m)))) →
  finds op E B → finds (foldl step op labels) (λ m, E m ∧ Forall (λ l, l ∈ end_labels m) labels) B.
Proof.
  revert op E. induction labels as [|l labels IH]; intros op E Hstep HE H; cbn [foldl].
  - eapply finds_mono; [| |exact H]; [|done]. intros m. rewrite Forall_nil. tauto.
  - rewrite Hstep by left.
    apply (finds_mono _ (λ m, (E m ∧ l ∈ end_labels m) ∧ Forall (λ l, l ∈ end_labels m) labels) _ B); [|done|].
    + intros m. rewrite Forall_cons. tauto.
    + apply IH; [intros o l' Hl'; apply Hstep; by right| |by apply finds_label].
      intros m [Hm _]. by apply HE.
Qed.

(** *** The names of a chain *)
Definition line_ok (l : Line) : Prop := NoDup (line_names l) ∧ Forall no_dot (line_names l).
Definition bare_line (v : string) : Line := mkLine v [] [].
Lemma line_names_snoc l h : line_names (snoc l h) = line_names l ++ [h_rel h; h_dst h].
Proof. unfold line_names, snoc. cbn [l_start l_hops]. by rewrite flat_map_app. Qed.
Lemma line_ok_snoc l h : line_ok (snoc l h) →
  line_ok l ∧ no_dot (h_rel h) ∧ no_dot (h_dst h) ∧ h_rel h ≠ h_dst h
  ∧ h_rel h ∉ line_names l ∧ h_dst h ∉ line_names l.
Proof.
  unfold line_ok. rewrite line_names_snoc. intros [(Hd & Hn & Hd2)%NoDup_app Hf].
  apply Forall_app in Hf as [Hf [H1 [H2 _]%Forall_cons]%Forall_cons].
  apply NoDup_cons in Hd2 as [Hne _]. rewrite list_elem_of_singleton in Hne.
  split_and!; try done; intros Hin; apply (Hn _ Hin); set_solver.
Qed.

(** What the names of a match are bound to. *)
Record bound_ok (l : Line) (m : embedding) (b : bindings) : Prop := {
  bk_named : well_named b;
  bk_end : is_Some (g_nodes g !! end_of m);
  bk_last : b !! last_name l = Some (BNode (node_of g (end_of m)));
  bk_new v : v ∉ line_names l → b !! v = None;
  bk_used e : (∃ u p, b !! u = Some (BRel e p)) ↔ e ∈ m.2.*1;
  bk_stored e : e ∈ m.2.*1 → is_Some (g_edges g !! e) }.

Lemma plain_node_binding i : is_Some (g_nodes g !! i) → plain_binding (BNode (node_of g i)).
Proof. intros [rec Hi] p. unfold node_of. rewrite Hi. cbn. by apply (proj1 Hplain i rec). Qed.
Lemma plain_rel_binding e : is_Some (g_edges g !! e) → plain_binding (rel_of g e).
Proof.
  intros [props He]. unfold rel_of. rewrite He. cbn. split; [|intros p; by apply (proj2 Hplain e props)].
  apply (edge_valid (cs_repr _ _ Hg)) in He as [Hv _]. by destruct e as [[[? ?] ?] ?], Hv as (_ & _ & _ & ?).
Qed.
Lemma bound_ok_start l i : l_hops l = [] → no_dot (l_start l) → is_Some (g_nodes g !! i) →
  bound_ok l (i, []) (bound g l (i, [])).
Proof.
  intros Hl Hd Hi. unfold bound. rewrite Hl. cbn [zip zip_with foldl fst snd].
  split; cbn [end_of last fst snd]; [|done| | | |set_solver].
  - intros v b. rewrite lookup_singleton_Some. intros [<- <-]. split; [done|by apply plain_node_binding].
  - unfold last_name. rewrite Hl. apply lookup_singleton_eq.
  - intros v Hv. apply lookup_singleton_ne. unfold line_names in Hv. set_solver.
  - intros e. split; [|set_solver]. intros (u & p & H). by apply lookup_singleton_Some in H as [_ ?].
Qed.
Lemma end_of_further m x : end_of (further m x) = x.2.
Proof. unfold end_of, further. cbn [snd]. by rewrite last_snoc. Qed.
Lemma last_name_snoc l h : last_name (snoc l h) = h_dst h.
Proof. unfold last_name, snoc. cbn [l_hops]. by rewrite last_snoc. Qed.
Lemma bound_ok_step l h m x b : line_ok (snoc l h) → bound_ok l m b →
  is_Some (g_edges g !! x.1) → is_Some (g_nodes g !! x.2) →
  bound_ok (snoc l h) (further m x) (bind_step g b (h, x)).
Proof.
  intros (Hl & Hr & Hd & Hne & Hnr & Hnd)%line_ok_snoc [H1 H2 H3 H4 H5 H6] He Hn.
  unfold bind_step. cbn [fst snd]. split; rewrite ?end_of_further, ?last_name_snoc, ?line_names_snoc.
  - intros v bd. rewrite !lookup_insert_Some. intros [[<- <-]|[_ [[<- <-]|[_ Hv]]]]; [| |by apply H1].
    + split; [done|by apply plain_rel_binding].
    + split; [done|by apply plain_node_binding].
  - done.
  - rewrite lookup_insert_ne by done. apply lookup_insert_eq.
  - intros v Hv. rewrite !lookup_insert_ne by set_solver. apply H4. set_solver.
  - intros e. unfold further. cbn [snd]. rewrite fmap_app, elem_of_app, <-H5. split.
    + intros (u & p & Hu). apply lookup_insert_Some in Hu as [[<- Hu]|[_ Hu]].
      * unfold rel_of in Hu. right. cbn. injection Hu as <- _. by left.
      * apply lookup_insert_Some in Hu as [[_ ?]|[_ Hu]]; [done|]. left. eauto.
    + intros [(u & p & Hu)|He'].
      * exists u, p. rewrite !lookup_insert_ne; [done|intros <-|intros <-]; by rewrite H4 in Hu.
      * apply list_elem_of_singleton in He' as ->. exists (h_rel h), (default ∅ (g_edges g !! x.1)).
        apply lookup_insert_eq.
  - intros e. unfold further. cbn [snd]. rewrite fmap_app, elem_of_app.
    intros [?|Hx]; [by apply H6|]. by apply list_elem_of_singleton in Hx as ->.
Qed.

Lemma matches_bound l m : line_ok l → matches g l m → bound_ok l m (bound g l m).
Proof.
  destruct l as [v labels hops]. revert m. induction hops as [|h hops IH] using rev_ind; intros m Hok.
  - destruct m as [i [|x steps]]; intros (Hl & Hr & _); [|done].
    destruct Hl as (rec & Hi & _). apply bound_ok_start; [done| |by eexists].
    by destruct Hok as [_ [? _]%Forall_cons].
  - change (mkLine v labels (hops ++ [h])) with (snoc (mkLine v labels hops) h) in *.
    intros (m' & x & Hm & [(He & _ & _ & rec & Hn & _) _] & ->)%matches_snoc.
    rewrite bound_snoc by (by eapply route_steps, Hm).
    apply bound_ok_step; [done| |done|by eexists]. apply IH; [|done]. by apply line_ok_snoc in Hok as [? _].
Qed.

(** *** The first node *)
Definition scannable (labels : list string) : Prop :=
  match labels with
  | [] => True
  | l :: _ => valid_name l ∧ "_"%byte ∉ str_bytes l
      ∧ ∀ i rec l', g_nodes g !! i = Some rec → l' ∈ rec_labels rec → str_lower l' = str_lower l → l' = l
  end.
Lemma scan_nodes labels : scannable labels →
  ∃ nodes, find_nodes_by_label (default "" (head labels)) c = Ok nodes ∧ NoDup (node_id <$> nodes)
    ∧ ∀ n, n ∈ nodes ↔ ∃ i, n = node_of g i ∧ labelled g (take 1 labels) i.
Proof.
  intros Hs. destruct labels as [|l labels]; cbn [default head take].
  - rewrite find_nodes_by_label_view.
    destruct (find_all_nodes_run (cs_repr _ _ Hg)) as (nodes & E & Hd & Hn). exists nodes. split_and!; [done..|].
    intros n. rewrite Hn. unfold labelled, node_of. split.
    + intros (i & rec & -> & Hi). exists i. rewrite Hi. eauto.
    + intros (i & -> & rec & Hi & _). exists i, rec. by rewrite Hi.
  - destruct Hs as (Hv & Hu & Hcase).
    destruct (label_scan_exact g c l (cs_repr _ _ Hg) Hv Hu Hcase) as (nodes & E & Hd & Hn).
    exists nodes. split_and!; [done..|]. intros n. rewrite Hn. unfold labelled, node_of. split.
    + intros (i & rec & -> & Hi & Hl). exists i. rewrite Hi. split; [done|]. exists rec. by repeat constructor.
    + intros (i & -> & rec & Hi & [Hl _]%Forall_cons). exists i, rec. by rewrite Hi.
Qed.
Lemma shown_new : shown ∅ NamedRecord.new.
Proof. intros v _. split; [done|]. intros p. by rewrite lookup_empty. Qed.
Lemma scan_finds v labels : no_dot v → scannable labels →
  finds (Op.Scan (default "" (head labels)) v) (matches g (mkLine v (take 1 labels) [])) (bound g (bare_line v)).
Proof.
  intros Hv Hs s. destruct (scan_nodes labels Hs) as (nodes & E & Hd & Hn).
  exists ((λ n, node_to_record n v) <$> nodes). split.
  - change (in_db (λ c, exec_scan c (default "" (head labels)) v (Executor.max_result_rows ctx)) (c, s)
      = ((c, s), Ok ((λ n, node_to_record n v) <$> nodes))).
    unfold in_db, exec_scan. cbn [fst]. rewrite E, Hmax. cbn [mbind result_bind]. unfold check_row_limit.
    by rewrite decide_False by lia.
  - assert (∀ i, node_id (node_of g i) = i) as Hid by (intros i; unfold node_of; by destruct (g_nodes g !! i)).
    exists ((λ n, (node_id n, [])) <$> nodes). split_and!.
    + change (λ n : Node, (node_id n, @nil (eid * N)))
        with ((λ i, (i, @nil (eid * N))) ∘ (λ n : Node, node_id n)).
      rewrite list_fmap_compose. apply NoDup_fmap_2; [by intros ?? [=]|done].
    + intros [i steps]. rewrite list_elem_of_fmap. unfold matches. cbn [l_labels l_hops fst snd]. split.
      * intros (n & [= -> ->] & (j & -> & Hj)%Hn). rewrite Hid. split_and!; [done..|constructor].
      * intros (Hl & Hr & _). destruct steps; [|done]. exists (node_of g i). rewrite Hid. split; [done|].
        apply Hn. eauto.
    + apply Forall2_fmap_l, Forall2_fmap_r, Forall2_diag_on. intros n (i & -> & Hi)%Hn. cbn beta.
      change (shown {[v := BNode (node_of g (node_id (node_of g i)))]} (node_to_record (node_of g i) v)).
      rewrite Hid.
      unfold node_to_record. rewrite <-insert_empty.
      apply populate_shown; [apply shown_new|done|apply lookup_empty].
Qed.

(** *** One relationship *)
Definition with_labels (h : Hop) (labels : list string) : Hop :=
  mkHop (h_rel h) (h_types h) (h_out h) (h_dst h) labels.
Definition expansion (op : LogicalOp) (v : string) (h : Hop) : LogicalOp :=
  Op.Expand op v (h_dst h) (Some (h_rel h)) (h_types h) (dir_of (h_out h)) 1 1 false ∅ None.
Lemma end_ids m m' x x' : further m x = further m' x' → m = m' ∧ x = x'.
Proof.
  unfold further. destruct m as [i steps], m' as [i' steps']. cbn. intros [= -> E].
  apply app_inj_tail in E as [-> ->]. done.
Qed.
Lemma expand_finds op l h : line_ok (snoc l h) → NoDup (h_types h) →
  finds op (matches g l) (bound g l) →
  finds (expansion op (last_name l) h) (matches g (snoc l (with_labels h []))) (bound g (snoc l h)).
Proof.
  intros Hok Ht H s. destruct (H s) as (rows & Er & Hl).
  destruct (line_ok_snoc _ _ Hok) as (Hokl & Hr & Hd & Hne & Hnr & Hnd).
  pose (x := hop_op h (last_name l)).
  destruct (lists_concat (matches g l) (λ m r, shown (bound g l m) r)
    (λ m m', ∃ y, steps_along g (end_of m) m.2.*1 h y ∧ m' = further m y)
    (λ m' r, shown (bound g (snoc l h) m') r))
    with (f := expand_record c (T c) x (literal_filters ∅) None (Executor.max_traversal_work ctx)) (rows := rows)
    as (rs & Ers & Hrs).
  - intros m m' b _ _ (y & _ & ->) (y' & _ & [-> _]%end_ids). done.
  - intros m r Hm Hr'. destruct (matches_bound l m Hokl Hm) as [H1 H2 H3 H4 H5 H6].
    destruct (expand_step g c Hg Hplain (T c) (bound g l m) r Hr' H1 (end_of m) H2 m.2.*1 H5 H6 h Hr Hd Hne
      (H4 _ Hnr) (H4 _ Hnd) (last_name l) (literal_filters ∅) None (Executor.max_traversal_work ctx) Ht H3)
      as (rs & Ers & Hrs).
    exists rs. split; [exact Ers|].
    refine (lists_map _ _ (λ m' r, shown (bound g (snoc l h) m') r) (further m) rs _ _ Hrs).
    + by intros y y' _ _ [_ ->]%end_ids.
    + intros y r' _ Hs. rewrite bound_snoc; [done|]. by eapply route_steps, Hm.
  - done.
  - exists rs. split.
    + change ((records ← exec_plan op; in_db (λ c, exec_expand c (T c) x ∅ None (Executor.max_result_rows ctx)
        (Executor.max_traversal_work ctx) records)) (c, s) = ((c, s), Ok rs)).
      unfold mbind, M_bind. rewrite Er. unfold in_db. cbn [fst]. by rewrite Hmax, expand_all, Ers.
    + eapply lists_mono; [| |exact Hrs]; [|done]. intros m. rewrite matches_snoc. unfold steps_along, takes.
      cbn [with_labels h_types h_out h_labels]. split.
      * intros (m' & Hm & y & [(He & Hty & Hle) Hnu] & ->). exists m', y. split_and!; [done..| |done|done].
        destruct (leads_ends g c Hg _ _ _ _ He Hle) as [_ [rec Hrec]]. by exists rec.
      * intros (m' & y & Hm & [(He & Hty & Hle & _) Hnu] & ->). exists m'. split; [done|]. by exists y.
Qed.

(** The expansion with the conditions on the labels of its end. *)
Definition hop_plan (op : LogicalOp) (v : string) (h : Hop) : LogicalOp :=
  foldl (λ op label, if String.eqb label "" then op else Op.Filter op (has_label_condition (h_dst h) label))
    (expansion op v h) (h_labels h).
Lemma bound_snoc_labels l h labels m : length m.2 = length (l_hops (snoc l h)) →
  bound g (snoc l (with_labels h labels)) m = bound g (snoc l h) m.
Proof.
  destruct m as [i steps]. unfold snoc. cbn [l_hops fst snd].
  destruct steps as [|x steps _] using rev_ind; intros Hlen; rewrite length_app in Hlen; [cbn in Hlen; lia|].
  rewrite length_app in Hlen. cbn in Hlen.
  change (i, steps ++ [x]) with (further (i, steps) x).
  fold (snoc l (with_labels h labels)) (snoc l h). rewrite !bound_snoc by (cbn; lia). done.
Qed.
Lemma hop_finds op l h : line_ok (snoc l h) → NoDup (h_types h) → "" ∉ h_labels h →
  finds op (matches g l) (bound g l) →
  finds (hop_plan op (last_name l) h) (matches g (snoc l h)) (bound g (snoc l h)).
Proof.
  intros Hok Ht Hl H. set (h0 := with_labels h []).
  assert (line_ok (snoc l h0)) as Hok0 by (revert Hok; unfold line_ok; by rewrite !line_names_snoc).
  assert (∀ m, matches g (snoc l h0) m → bound g (snoc l h0) m = bound g (snoc l h) m) as Hb.
  { intros m (_ & Hr%route_steps & _). apply bound_snoc_labels. rewrite Hr. unfold snoc. cbn.
    by rewrite !length_app. }
  pose proof (expand_finds op l h Hok Ht H) as He.
  eapply finds_mono; [| |eapply (finds_labels _ _ _ _ (h_dst h) (h_labels h)); [| |exact He]]; cbn beta.
  - intros m. rewrite !matches_snoc. unfold takes, h0. cbn [with_labels h_types h_out h_labels]. split.
    + intros [(m' & y & Hm & [(? & ? & ? & rec & Hrec & _) ?] & ->) Hf]. exists m', y.
      split_and!; [done..| |done|done]. exists rec. split; [done|]. unfold end_labels in Hf.
      rewrite end_of_further in Hf. unfold node_of in Hf. by rewrite Hrec in Hf.
    + intros (m' & y & Hm & [(? & ? & ? & rec & Hrec & Hf) ?] & ->). split.
      * exists m', y. split_and!; [done..| |done|done]. by exists rec.
      * unfold end_labels. rewrite end_of_further. unfold node_of. by rewrite Hrec.
  - done.
  - intros o x Hx. destruct (String.eqb x "") eqn:E; [|done]. by apply String.eqb_eq in E as ->.
  - intros m Hm. destruct (matches_bound _ m Hok0 Hm) as [H1 _ H3 _ _ _].
    rewrite last_name_snoc in H3. by rewrite <-Hb.
Qed.

(** *** The plan of the planner *)
Section planner.
Context {P : Type} (PX : PlanEffects P).

Lemma expand_plan_hop op h : expand_plan op
    (mkRelPattern (Some (h_rel h)) (h_types h) ∅ (if h_out h then RelOutgoing else RelIncoming) None)
    (mkNodePattern (Some (h_dst h)) (h_labels h) ∅) (h_dst h) (h_rel h)
  = Ok (hop_plan op (get_last_alias op) h).
Proof.
  unfold expand_plan, hop_plan, expansion. cbn [rp_var_length rp_types rp_direction rp_properties np_labels np_properties].
  unfold filter_props. rewrite !decide_True by done. cbn. by destruct (h_out h).
Qed.
Lemma hop_plan_alias op v h : get_last_alias (hop_plan op v h) = h_dst h.
Proof.
  unfold hop_plan. assert (∀ o, get_last_alias o = h_dst h → get_last_alias (foldl (λ op label,
    if String.eqb label "" then op else Op.Filter op (has_label_condition (h_dst h) label)) o (h_labels h))
    = h_dst h) as H; [|by apply H].
  induction (h_labels h) as [|x labels IH]; intros o Ho; [done|]. cbn [foldl]. apply IH.
  by destruct (String.eqb x "").
Qed.
Lemma plan_hops hops op l k aliases (n : P) :
  line_ok (mkLine (l_start l) (l_labels l) (l_hops l ++ hops)) →
  Forall (λ h, NoDup (h_types h) ∧ "" ∉ h_labels h) hops →
  get_last_alias op = last_name l → finds op (matches g l) (bound g l) →
  ∃ op' aliases', plan_elements c PX false k (flat_map hop_elements hops) (Some op) aliases n
      = (n, Ok (Some op', aliases'))
    ∧ let l' := mkLine (l_start l) (l_labels l) (l_hops l ++ hops) in finds op' (matches g l') (bound g l').
Proof.
  revert op l k aliases. induction hops as [|h hops IH]; intros op l k aliases Hok Hh Hop Hf.
  - exists op, aliases. split; [done|]. rewrite app_nil_r. by destruct l.
  - apply Forall_cons in Hh as [[Ht Hl] Hh].
    assert (mkLine (l_start l) (l_labels l) (l_hops l ++ h :: hops)
      = mkLine (l_start (snoc l h)) (l_labels (snoc l h)) (l_hops (snoc l h) ++ hops)) as E.
    { unfold snoc. cbn. by rewrite <-app_assoc. }
    rewrite E in Hok |- *.
    assert (line_ok (snoc l h)) as Hok1.
    { revert Hok. unfold line_ok, line_names. cbn [l_start l_hops]. rewrite flat_map_app, app_comm_cons.
      intros [(? & _ & _)%NoDup_app [? _]%Forall_app]. done. }
    pose proof (hop_finds op l h Hok1 Ht Hl Hf) as Hf'.
    destruct (IH (hop_plan op (last_name l) h) (snoc l h) (k + 2)%nat
      (<[k := h_rel h]> (<[(k + 1)%nat := h_dst h]> aliases)) Hok Hh) as (op' & aliases' & Ep & H').
    { by rewrite hop_plan_alias, last_name_snoc. }
    { done. }
    exists op', aliases'. split; [|exact H'].
    transitivity ((op ← lift (expand_plan op
      (mkRelPattern (Some (h_rel h)) (h_types h) ∅ (if h_out h then RelOutgoing else RelIncoming) None)
      (mkNodePattern (Some (h_dst h)) (h_labels h) ∅) (h_dst h) (h_rel h));
      plan_elements c PX false (k + 2) (flat_map hop_elements hops) (Some op)
        (<[k := h_rel h]> (<[(k + 1)%nat := h_dst h]> aliases)) : M P GraphError _) n); [done|].
    rewrite expand_plan_hop, Hop. exact Ep.
Qed.

Lemma node_scan_plan v labels : plan_node_scan c (mkNodePattern (Some v) labels ∅) v
  = Ok (foldl (λ op l, Op.Filter op (has_label_condition v l)) (Op.Scan (default "" (head labels)) v)
          (drop 1 labels)).
Proof.
  unfold plan_node_scan, scan_plan. cbn [np_properties np_labels].
  rewrite bool_decide_true by done. cbn [orb]. by rewrite decide_True.
Qed.
Lemma node_scan_finds v labels : no_dot v → scannable labels →
  finds (foldl (λ op l, Op.Filter op (has_label_condition v l)) (Op.Scan (default "" (head labels)) v)
           (drop 1 labels)) (matches g (mkLine v labels [])) (bound g (mkLine v labels [])).
Proof.
  intros Hv Hs. pose proof (scan_finds v labels Hv Hs) as H.
  eapply finds_mono; [| |eapply (finds_labels _ _ _ _ v (drop 1 labels)); [done| |exact H]]; cbn beta; [|done|].
  - intros m. unfold matches. cbn [l_labels l_hops]. destruct m as [i [|x steps]]; [|cbn [route snd]; tauto].
    unfold end_labels. change (end_of (i, [])) with i. unfold labelled, node_of. cbn [fst snd]. split.
    + intros [((rec & Hi & Hf) & Hr) Hd]. rewrite Hi in Hd. split; [|done]. exists rec. split; [done|].
      rewrite <-(take_drop 1 labels). apply Forall_app. by split.
    + intros ((rec & Hi & Hf) & Hr). rewrite Hi. split; [split; [|done]|].
      * exists rec. split; [done|]. by apply Forall_take.
      * by apply Forall_drop.
  - intros m Hm. destruct (matches_bound (mkLine v (take 1 labels) []) m) as [H1 _ H3 _ _ _]; [|done|done].
    split; [apply NoDup_singleton|by constructor].
Qed.
Lemma node_scan_alias v labels : get_last_alias
  (foldl (λ op l, Op.Filter op (has_label_condition v l)) (Op.Scan (default "" (head labels)) v) (drop 1 labels)) = v.
Proof.
  generalize (drop 1 labels). intros ls. assert (get_last_alias (Op.Scan (default "" (head labels)) v) = v) as H by done.
  revert H. generalize (Op.Scan (default "" (head labels)) v). induction ls; intros op H; [done|]. by apply IHls.
Qed.
Lemma plan_pattern_finds l (n : P) : line_ok l → scannable (l_labels l) →
  Forall (λ h, NoDup (h_types h) ∧ "" ∉ h_labels h) (l_hops l) →
  ∃ op, plan_patterns c PX [pattern_of l] n = (n, Ok op) ∧ finds op (matches g l) (bound g l).
Proof.
  intros Hok Hs Hh. destruct l as [v labels hops].
  assert (no_dot v) as Hv by (by destruct Hok as [_ [? _]%Forall_cons]).
  destruct (plan_hops hops _ (mkLine v labels []) 1 (<[0%nat := v]> ∅) n Hok Hh (node_scan_alias v labels)
    (node_scan_finds v labels Hv Hs)) as (op & aliases & Ep & Hf).
  exists op. split; [|exact Hf].
  assert (plan_single_pattern c PX (pattern_of (mkLine v labels hops)) n = (n, Ok op)) as Hsingle.
  { unfold plan_single_pattern, pattern_of. cbn [pt_elements pt_path_variable l_start l_labels l_hops].
    rewrite bool_decide_false by (by intros []).
    transitivity ((planned ← (scan ← lift (plan_node_scan c (mkNodePattern (Some v) labels ∅) v);
        plan_elements c PX false 1 (flat_map hop_elements hops) (Some scan) (<[0%nat := v]> ∅));
      match planned.1 with
      | None => throw (GraphError.semantic "empty pattern")
      | Some result => mret result
      end : M P GraphError LogicalOp) n); [done|].
    rewrite node_scan_plan. unfold mbind, M_bind, lift. cbn [l_hops] in Ep. by rewrite Ep. }
  assert (is_regular (pattern_of (mkLine v labels hops)) = true) as Hreg by done.
  revert Hreg Hsingle. generalize (pattern_of (mkLine v labels hops)). intros p Hreg Hsingle.
  unfold plan_patterns. cbn [List.filter]. rewrite Hreg. cbn [negb order_patterns join_patterns].
  unfold mbind, M_bind. cbn -[plan_single_pattern]. unfold mbind, M_bind. by rewrite Hsingle.
Qed.
End planner.
End plans.

(** ** Property *)

(** C3: the plan of a pattern [(a:A)-[r:R]->(b:B)<-[..]-...] of distinct names, run on a
    database that represents a graph, changes nothing and returns a row for each match of
    the pattern in the graph and no other row: each node with its labels, each edge with
    one of its types and in its direction, no edge taken twice; parallel edges give rows of
    their own.  A row binds the names to the nodes and edges of its match, with their
    ids, labels, types, ends and properties, and has no other field.  The label that is
    scanned for has no underscore and no other spelling in use; property names have no
    dot and do not begin with two underscores; the number of rows is not limited. *)
Theorem match_finds_matches {Ch : Chrono} {Co : ChronoOrder} {Lm : Libm} {Un : Unicode} {Db : DebugText}
    {Mp : Msgpack} {ML : MsgpackLaws} {conn : Type} {O : SqlOps conn} {view : conn → db}
    {L : SqlLaws conn view} {Fm : FtsMatch conn} {Fs : FtsSearch conn} {S P : Type}
    (X : Effects S) (Q : conn → Subqueries S) (T : conn → Traversals) (PX : PlanEffects P)
    (params : option (gmap string value)) (procedures : ProcedureRegistry) (ctx : Limits)
    (g : graph) (c : conn) (l : Line) (n : P) (s : S) :
  consistent g (view c) → plain_graph g →
  line_ok l → scannable g (l_labels l) →
  Forall (λ h, NoDup (h_types h) ∧ "" ∉ h_labels h) (l_hops l) →
  Executor.max_result_rows ctx = 0%N →
  ∃ plan rows, plan_patterns c PX [pattern_of l] n = (n, Ok plan)
    ∧ Executor.exec X Q T params procedures ctx plan (c, s) = ((c, s), Ok rows)
    ∧ lists (matches g l) (λ m row, shown (bound g l m) row) rows.
Proof.
  intros Hg Hplain Hok Hs Hh Hmax.
  destruct (plan_pattern_finds X Q T params procedures ctx Hmax g c Hg Hplain PX l n Hok Hs Hh) as (op & Ep & Hf).
  destruct (Hf s) as (rows & Er & Hl). by exists op, rows.
Qed.

(** ** Witness *)
Section Witness.
Import ExprDemo PlanDemo.
(** [(a:Person)-[r:KNOWS]->(b:Person)<-[q]-(d:Admin)]: the two parallel edges in both orders. *)
Definition demo_line : Line :=
  mkLine "a" ["Person"]
    [mkHop "r" ["KNOWS"] true "b" ["Person"]; mkHop "q" [] false "d" ["Admin"]].
Lemma demo_plain_graph : plain_graph g.
Proof.
  split.
  - assert (map_Forall (λ _ r, map_Forall (λ k _, plain_name k) (rec_properties r)) (g_nodes g)) as H by by_decide.
    intros i rec p Hi [v Hv]. exact (H i rec Hi p v Hv).
  - assert (map_Forall (λ _ r, map_Forall (λ k _, plain_name k) r) (g_edges g)) as H by by_decide.
    intros e props p He [v Hv]. exact (H e props He p v Hv).
Qed.
Lemma demo_scannable : scannable g ["Person"].
Proof.
  split_and!; [by_decide|by_decide|].
  assert (map_Forall (λ (_ : N) rec, Forall (λ l', str_lower l' = str_lower "Person" → l' = "Person")
    (rec_labels rec)) (g_nodes g)) as H by by_decide.
  intros i rec l' Hi. specialize (H i rec Hi). rewrite Forall_forall in H. apply H.
Qed.
Definition demo_effects : PlanEffects N :=
  mkPlanEffects (λ n, ((n + 1)%N, Ok n)) (λ _, throw (GraphError.semantic "no bound")).
Lemma match_finds_matches_witness :
  ∃ plan rows, plan_patterns d demo_effects [pattern_of demo_line] 0%N = (0%N, Ok plan)
    ∧ Executor.exec no_effects (λ _, no_rows) (λ _, no_paths) None ∅ default_limits plan (d, tt) = ((d, tt), Ok rows)
    ∧ lists (matches g demo_line) (λ m row, shown (bound g demo_line m) row) rows.
Proof.
  refine (match_finds_matches (view := id) no_effects (λ _, no_rows) (λ _, no_paths) demo_effects None ∅
    default_limits g d demo_line 0%N tt TxDemo.d_consistent demo_plain_graph _ demo_scannable _ eq_refl).
  - split; by_decide.
  - repeat constructor; by_decide.
Defined.
End Witness.
