(* ===== verification/Pest.v ===== *)
(** * Parse trees: src/src/cypher/grammar.pest

    The parser generator pest turns grammar.pest into the function [CypherParser::parse];
    src/src/cypher/parser walks the tree of [Pair]s it returns.  The generated code
    is an argument ([Pest]); the grammar is data ([grammar], rule by rule), and [derives]
    says which trees the documentation of pest allows for it: matched text, rules
    in order, no pairs inside atomic rules, blanks and comments between the parts of
    the others.  Ordered choice and lookahead are left out of [derives], which makes it
    larger.  [Reference] is an engine that does both; its trees are derived. *)
From S2P Require Export Ast Text.
Open Scope nat_scope.

(** ** Rules of src/src/cypher/grammar.pest, and pest's own [EOI] *)
Module Rule.
Inductive Rule :=
  | EOI | WHITESPACE | COMMENT | statement | union_stmt | union_op | single_stmt | explain_stmt
  | multi_clause_stmt | multi_clause_non_write | multi_clause_non_write_or_call
  | multi_clause_any | multi_match_clause | multi_create_clause | multi_merge_clause
  | multi_unwind_clause | multi_call_clause | multi_set_clause | multi_remove_clause
  | multi_delete_clause | delete_expr_list | return_stmt | call_stmt | procedure_name
  | create_index_stmt | drop_index_stmt | yield_clause | yield_star | yield_items | yield_item
  | with_stmt | match_stmt | match_part | with_clause | optional_match_clause | unwind_stmt
  | unwind_create | unwind_return | unwind_clause | create_stmt | create_pattern_list
  | create_pattern | match_create_stmt | match_merge_stmt | delete_stmt | detach_keyword
  | set_stmt | assignment_list | set_item | set_label | set_map_merge | set_map | assignment
  | expr_property_access | property_assignment_list | remove_stmt | remove_item_list
  | remove_item | remove_property | remove_label | merge_stmt | on_create_clause
  | on_match_clause | pattern_list | pattern_item | path_pattern | shortest_path_fn
  | all_shortest_paths_fn | pattern | node_pattern | label_spec | rel_pattern | rel_both
  | rel_right | rel_left | rel_undirected | rel_right_bare | rel_left_bare | rel_both_bare
  | rel_undirected_bare | rel_detail | rel_type_spec | var_length | int_range | fixed_length
  | where_clause | return_clause | distinct_keyword | return_items | return_item | alias
  | order_by_clause | sort_items | sort_item | sort_direction | skip_clause | limit_clause
  | bool_expr | xor_term | bool_term | bool_factor | bool_primary | cmp_or_value | comp_suffix
  | predicate_expr | cmp_primary | pattern_predicate | is_not_null_suffix | is_null_suffix
  | in_suffix | string_pred_suffix | string_pred_op | is_kw | in_kw | null_kw | not_kw
  | exists_subquery | exists_full_subquery | case_expr | case_operand | case_when_clause
  | case_else_clause | or_op | xor_op | and_op | not_op | comp_op | starts_with_op | ends_with_op
  | contains_op | regex_match_op | expr | in_expr | add_expr | mul_expr | exp_expr | exp_op
  | add_op | mul_op | atom_expr | dot_access | atom_primary | unary_minus_expr | has_label_expr
  | dotted_function_call | dotted_function_name | quantifier_expr | quantifier_name | subscript
  | subscript_inner | slice_full | slice_from | slice_to | parameter | param_name
  | pattern_comprehension | list_comprehension | list_comp_where | list_comp_map | list_literal
  | map_literal | map_pair | map_key | property_access | variable | star | function_call
  | unknown_function_call | function_name | function_args | expr_list | property_map
  | property_pair | property_key | ident_list | ident | fn_name_as_ident | function_name_word
  | plain_ident | backtick_ident | symbolic_name | keyword | literal | integer_literal
  | hex_integer | octal_integer | float_literal | exponent | string_literal
  | single_quoted_string | double_quoted_string | string_inner_sq | string_inner_dq
  | bool_literal | null_literal | integer.

(** A number for each rule, so that rules can be told apart. *)
Definition index (r : Rule) : nat :=
  match r with
  | EOI => 0 | WHITESPACE => 1 | COMMENT => 2 | statement => 3 | union_stmt => 4 | union_op => 5
  | single_stmt => 6 | explain_stmt => 7 | multi_clause_stmt => 8 | multi_clause_non_write => 9
  | multi_clause_non_write_or_call => 10 | multi_clause_any => 11 | multi_match_clause => 12
  | multi_create_clause => 13 | multi_merge_clause => 14 | multi_unwind_clause => 15
  | multi_call_clause => 16 | multi_set_clause => 17 | multi_remove_clause => 18
  | multi_delete_clause => 19 | delete_expr_list => 20 | return_stmt => 21 | call_stmt => 22
  | procedure_name => 23 | create_index_stmt => 24 | drop_index_stmt => 25 | yield_clause => 26
  | yield_star => 27 | yield_items => 28 | yield_item => 29 | with_stmt => 30 | match_stmt => 31
  | match_part => 32 | with_clause => 33 | optional_match_clause => 34 | unwind_stmt => 35
  | unwind_create => 36 | unwind_return => 37 | unwind_clause => 38 | create_stmt => 39
  | create_pattern_list => 40 | create_pattern => 41 | match_create_stmt => 42
  | match_merge_stmt => 43 | delete_stmt => 44 | detach_keyword => 45 | set_stmt => 46
  | assignment_list => 47 | set_item => 48 | set_label => 49 | set_map_merge => 50
  | set_map => 51 | assignment => 52 | expr_property_access => 53
  | property_assignment_list => 54 | remove_stmt => 55 | remove_item_list => 56
  | remove_item => 57 | remove_property => 58 | remove_label => 59 | merge_stmt => 60
  | on_create_clause => 61 | on_match_clause => 62 | pattern_list => 63 | pattern_item => 64
  | path_pattern => 65 | shortest_path_fn => 66 | all_shortest_paths_fn => 67 | pattern => 68
  | node_pattern => 69 | label_spec => 70 | rel_pattern => 71 | rel_both => 72 | rel_right => 73
  | rel_left => 74 | rel_undirected => 75 | rel_right_bare => 76 | rel_left_bare => 77
  | rel_both_bare => 78 | rel_undirected_bare => 79 | rel_detail => 80 | rel_type_spec => 81
  | var_length => 82 | int_range => 83 | fixed_length => 84 | where_clause => 85
  | return_clause => 86 | distinct_keyword => 87 | return_items => 88 | return_item => 89
  | alias => 90 | order_by_clause => 91 | sort_items => 92 | sort_item => 93
  | sort_direction => 94 | skip_clause => 95 | limit_clause => 96 | bool_expr => 97
  | xor_term => 98 | bool_term => 99 | bool_factor => 100 | bool_primary => 101
  | cmp_or_value => 102 | comp_suffix => 103 | predicate_expr => 104 | cmp_primary => 105
  | pattern_predicate => 106 | is_not_null_suffix => 107 | is_null_suffix => 108
  | in_suffix => 109 | string_pred_suffix => 110 | string_pred_op => 111 | is_kw => 112
  | in_kw => 113 | null_kw => 114 | not_kw => 115 | exists_subquery => 116
  | exists_full_subquery => 117 | case_expr => 118 | case_operand => 119
  | case_when_clause => 120 | case_else_clause => 121 | or_op => 122 | xor_op => 123
  | and_op => 124 | not_op => 125 | comp_op => 126 | starts_with_op => 127 | ends_with_op => 128
  | contains_op => 129 | regex_match_op => 130 | expr => 131 | in_expr => 132 | add_expr => 133
  | mul_expr => 134 | exp_expr => 135 | exp_op => 136 | add_op => 137 | mul_op => 138
  | atom_expr => 139 | dot_access => 140 | atom_primary => 141 | unary_minus_expr => 142
  | has_label_expr => 143 | dotted_function_call => 144 | dotted_function_name => 145
  | quantifier_expr => 146 | quantifier_name => 147 | subscript => 148 | subscript_inner => 149
  | slice_full => 150 | slice_from => 151 | slice_to => 152 | parameter => 153
  | param_name => 154 | pattern_comprehension => 155 | list_comprehension => 156
  | list_comp_where => 157 | list_comp_map => 158 | list_literal => 159 | map_literal => 160
  | map_pair => 161 | map_key => 162 | property_access => 163 | variable => 164 | star => 165
  | function_call => 166 | unknown_function_call => 167 | function_name => 168
  | function_args => 169 | expr_list => 170 | property_map => 171 | property_pair => 172
  | property_key => 173 | ident_list => 174 | ident => 175 | fn_name_as_ident => 176
  | function_name_word => 177 | plain_ident => 178 | backtick_ident => 179 | symbolic_name => 180
  | keyword => 181 | literal => 182 | integer_literal => 183 | hex_integer => 184
  | octal_integer => 185 | float_literal => 186 | exponent => 187 | string_literal => 188
  | single_quoted_string => 189 | double_quoted_string => 190 | string_inner_sq => 191
  | string_inner_dq => 192 | bool_literal => 193 | null_literal => 194 | integer => 195
  end.
Definition all : list Rule :=
  [EOI; WHITESPACE; COMMENT; statement; union_stmt; union_op; single_stmt; explain_stmt;
  multi_clause_stmt; multi_clause_non_write; multi_clause_non_write_or_call; multi_clause_any;
  multi_match_clause; multi_create_clause; multi_merge_clause; multi_unwind_clause;
  multi_call_clause; multi_set_clause; multi_remove_clause; multi_delete_clause;
  delete_expr_list; return_stmt; call_stmt; procedure_name; create_index_stmt; drop_index_stmt;
  yield_clause; yield_star; yield_items; yield_item; with_stmt; match_stmt; match_part;
  with_clause; optional_match_clause; unwind_stmt; unwind_create; unwind_return; unwind_clause;
  create_stmt; create_pattern_list; create_pattern; match_create_stmt; match_merge_stmt;
  delete_stmt; detach_keyword; set_stmt; assignment_list; set_item; set_label; set_map_merge;
  set_map; assignment; expr_property_access; property_assignment_list; remove_stmt;
  remove_item_list; remove_item; remove_property; remove_label; merge_stmt; on_create_clause;
  on_match_clause; pattern_list; pattern_item; path_pattern; shortest_path_fn;
  all_shortest_paths_fn; pattern; node_pattern; label_spec; rel_pattern; rel_both; rel_right;
  rel_left; rel_undirected; rel_right_bare; rel_left_bare; rel_both_bare; rel_undirected_bare;
  rel_detail; rel_type_spec; var_length; int_range; fixed_length; where_clause; return_clause;
  distinct_keyword; return_items; return_item; alias; order_by_clause; sort_items; sort_item;
  sort_direction; skip_clause; limit_clause; bool_expr; xor_term; bool_term; bool_factor;
  bool_primary; cmp_or_value; comp_suffix; predicate_expr; cmp_primary; pattern_predicate;
  is_not_null_suffix; is_null_suffix; in_suffix; string_pred_suffix; string_pred_op; is_kw;
  in_kw; null_kw; not_kw; exists_subquery; exists_full_subquery; case_expr; case_operand;
  case_when_clause; case_else_clause; or_op; xor_op; and_op; not_op; comp_op; starts_with_op;
  ends_with_op; contains_op; regex_match_op; expr; in_expr; add_expr; mul_expr; exp_expr; exp_op;
  add_op; mul_op; atom_expr; dot_access; atom_primary; unary_minus_expr; has_label_expr;
  dotted_function_call; dotted_function_name; quantifier_expr; quantifier_name; subscript;
  subscript_inner; slice_full; slice_from; slice_to; parameter; param_name;
  pattern_comprehension; list_comprehension; list_comp_where; list_comp_map; list_literal;
  map_literal; map_pair; map_key; property_access; variable; star; function_call;
  unknown_function_call; function_name; function_args; expr_list; property_map; property_pair;
  property_key; ident_list; ident; fn_name_as_ident; function_name_word; plain_ident;
  backtick_ident; symbolic_name; keyword; literal; integer_literal; hex_integer; octal_integer;
  float_literal; exponent; string_literal; single_quoted_string; double_quoted_string;
  string_inner_sq; string_inner_dq; bool_literal; null_literal; integer].
End Rule.
Abbreviation Rule := Rule.Rule.

Lemma rule_at r : Rule.all !! Rule.index r = Some r.
Proof. by destruct r. Qed.
#[global] Instance rule_index_inj : Inj (=) (=) Rule.index.
Proof. intros a b E. pose proof (rule_at a) as H. rewrite E, rule_at in H. congruence. Qed.
#[global] Instance Rule_eq_dec : EqDecision Rule.
Proof.
  refine (λ a b, cast_if (decide (Rule.index a = Rule.index b))); [by apply (inj Rule.index)|congruence].
Defined.

(** [{:?}] of a rule. *)
Definition rule_names : list string :=
  ["EOI"; "WHITESPACE"; "COMMENT"; "statement"; "union_stmt"; "union_op"; "single_stmt";
  "explain_stmt"; "multi_clause_stmt"; "multi_clause_non_write";
  "multi_clause_non_write_or_call"; "multi_clause_any"; "multi_match_clause";
  "multi_create_clause"; "multi_merge_clause"; "multi_unwind_clause"; "multi_call_clause";
  "multi_set_clause"; "multi_remove_clause"; "multi_delete_clause"; "delete_expr_list";
  "return_stmt"; "call_stmt"; "procedure_name"; "create_index_stmt"; "drop_index_stmt";
  "yield_clause"; "yield_star"; "yield_items"; "yield_item"; "with_stmt"; "match_stmt";
  "match_part"; "with_clause"; "optional_match_clause"; "unwind_stmt"; "unwind_create";
  "unwind_return"; "unwind_clause"; "create_stmt"; "create_pattern_list"; "create_pattern";
  "match_create_stmt"; "match_merge_stmt"; "delete_stmt"; "detach_keyword"; "set_stmt";
  "assignment_list"; "set_item"; "set_label"; "set_map_merge"; "set_map"; "assignment";
  "expr_property_access"; "property_assignment_list"; "remove_stmt"; "remove_item_list";
  "remove_item"; "remove_property"; "remove_label"; "merge_stmt"; "on_create_clause";
  "on_match_clause"; "pattern_list"; "pattern_item"; "path_pattern"; "shortest_path_fn";
  "all_shortest_paths_fn"; "pattern"; "node_pattern"; "label_spec"; "rel_pattern"; "rel_both";
  "rel_right"; "rel_left"; "rel_undirected"; "rel_right_bare"; "rel_left_bare"; "rel_both_bare";
  "rel_undirected_bare"; "rel_detail"; "rel_type_spec"; "var_length"; "int_range";
  "fixed_length"; "where_clause"; "return_clause"; "distinct_keyword"; "return_items";
  "return_item"; "alias"; "order_by_clause"; "sort_items"; "sort_item"; "sort_direction";
  "skip_clause"; "limit_clause"; "bool_expr"; "xor_term"; "bool_term"; "bool_factor";
  "bool_primary"; "cmp_or_value"; "comp_suffix"; "predicate_expr"; "cmp_primary";
  "pattern_predicate"; "is_not_null_suffix"; "is_null_suffix"; "in_suffix"; "string_pred_suffix";
  "string_pred_op"; "is_kw"; "in_kw"; "null_kw"; "not_kw"; "exists_subquery";
  "exists_full_subquery"; "case_expr"; "case_operand"; "case_when_clause"; "case_else_clause";
  "or_op"; "xor_op"; "and_op"; "not_op"; "comp_op"; "starts_with_op"; "ends_with_op";
  "contains_op"; "regex_match_op"; "expr"; "in_expr"; "add_expr"; "mul_expr"; "exp_expr";
  "exp_op"; "add_op"; "mul_op"; "atom_expr"; "dot_access"; "atom_primary"; "unary_minus_expr";
  "has_label_expr"; "dotted_function_call"; "dotted_function_name"; "quantifier_expr";
  "quantifier_name"; "subscript"; "subscript_inner"; "slice_full"; "slice_from"; "slice_to";
  "parameter"; "param_name"; "pattern_comprehension"; "list_comprehension"; "list_comp_where";
  "list_comp_map"; "list_literal"; "map_literal"; "map_pair"; "map_key"; "property_access";
  "variable"; "star"; "function_call"; "unknown_function_call"; "function_name"; "function_args";
  "expr_list"; "property_map"; "property_pair"; "property_key"; "ident_list"; "ident";
  "fn_name_as_ident"; "function_name_word"; "plain_ident"; "backtick_ident"; "symbolic_name";
  "keyword"; "literal"; "integer_literal"; "hex_integer"; "octal_integer"; "float_literal";
  "exponent"; "string_literal"; "single_quoted_string"; "double_quoted_string";
  "string_inner_sq"; "string_inner_dq"; "bool_literal"; "null_literal"; "integer"].
Definition rule_debug (r : Rule) : string := rule_names !!! Rule.index r.

(** ** The language of grammar.pest *)
Inductive peg :=
| Tok (t : bytes)
| Kw (t : bytes)
| Ascii (class : byte → bool)
| AnyChar
| Soi
| Eoi
| Seq (a b : peg)
| Alt (a b : peg)
| Opt (a : peg)
| Rep (a : peg)
| Neg (a : peg)
| Nt (r : Rule).
Coercion Nt : Rule.Rule >-> peg.

Inductive RuleKind := Normal | Silent | Atomic | Compound.

Declare Scope peg_scope.
Delimit Scope peg_scope with peg.
Bind Scope peg_scope with peg.
Notation "a ~ b" := (Seq a%peg b%peg) (at level 60, right associativity) : peg_scope.
Notation "a <|> b" := (Alt a%peg b%peg) (at level 65, right associativity) : peg_scope.
Definition tok (s : string) : peg := Tok (str_bytes s).
(** A text in any case, [^"..."]. *)
Definition kw (s : string) : peg := Kw (str_bytes s).
Definition opt (a : peg) : peg := Opt a.
Definition rep (a : peg) : peg := Rep a.
(** [a+] is [a ~ a*]. *)
Definition rep1 (a : peg) : peg := Seq a (Rep a).
Definition neg (a : peg) : peg := Neg a.
Definition Empty : peg := Tok [].
Definition tab : peg := Tok [x09].
Definition nl : peg := Tok [x0a].
Definition cr : peg := Tok [x0d].
Definition dquote : peg := Tok [x22].
Definition backslash : peg := Tok [x5c].
Definition decimal : peg := Ascii is_digit.
Definition alpha : peg := Ascii (λ b, byte_in 65 90 b || byte_in 97 122 b).
Definition alphanumeric : peg := Ascii is_ascii_alphanumeric.
Definition hexadecimal : peg := Ascii (λ b, is_digit b || byte_in 65 70 b || byte_in 97 102 b).
Definition octal : peg := Ascii (byte_in 48 55).

Module Grammar.
Import Rule.
Open Scope peg_scope.
Definition grammar (r : Rule) : RuleKind * peg :=
  match r with
  | EOI => (Normal, Eoi)
  | WHITESPACE => (Silent, tok " " <|> tab <|> cr <|> nl)
  | COMMENT => (Silent, tok "//" ~ rep (neg nl ~ AnyChar))
  | statement => (Normal, Soi ~ union_stmt ~ opt (tok ";") ~ EOI)
  | union_stmt => (Normal, single_stmt ~ rep (union_op ~ single_stmt))
  | union_op => (Normal, kw "UNION" ~ opt (kw "ALL"))
  | single_stmt => (Normal, explain_stmt <|> create_index_stmt <|> drop_index_stmt <|>
      multi_clause_stmt <|> match_stmt <|> unwind_stmt <|> with_stmt <|> match_create_stmt <|>
      match_merge_stmt <|> delete_stmt <|> set_stmt <|> remove_stmt <|> create_stmt <|>
      merge_stmt <|> call_stmt <|> return_stmt)
  | explain_stmt => (Normal, kw "EXPLAIN" ~ (multi_clause_stmt <|> match_create_stmt <|>
      with_stmt <|> match_stmt <|> unwind_stmt))
  | multi_clause_stmt => (Normal, rep1 multi_clause_non_write ~ (multi_create_clause <|>
      multi_merge_clause) ~ rep multi_clause_any ~ opt (return_clause ~ opt order_by_clause ~ opt
      skip_clause ~ opt limit_clause) <|> (multi_create_clause <|> multi_merge_clause) ~ rep1
      multi_clause_any ~ opt (return_clause ~ opt order_by_clause ~ opt skip_clause ~ opt
      limit_clause) <|> multi_clause_non_write ~ rep1 multi_clause_non_write ~
      (multi_delete_clause <|> multi_set_clause <|> multi_remove_clause) ~ rep multi_clause_any ~
      opt (return_clause ~ opt order_by_clause ~ opt skip_clause ~ opt limit_clause) <|>
      multi_clause_non_write ~ (multi_delete_clause <|> multi_set_clause <|> multi_remove_clause)
      ~ rep1 multi_clause_any ~ opt (return_clause ~ opt order_by_clause ~ opt skip_clause ~ opt
      limit_clause) <|> multi_call_clause ~ rep1 multi_clause_non_write_or_call ~ opt
      (return_clause ~ opt order_by_clause ~ opt skip_clause ~ opt limit_clause) <|> rep1
      multi_clause_non_write ~ multi_call_clause ~ rep multi_clause_non_write_or_call ~ opt
      (return_clause ~ opt order_by_clause ~ opt skip_clause ~ opt limit_clause))
  | multi_clause_non_write => (Silent, with_clause <|> multi_match_clause <|>
      multi_unwind_clause)
  | multi_clause_non_write_or_call => (Silent, with_clause <|> multi_match_clause <|>
      multi_unwind_clause <|> multi_call_clause)
  | multi_clause_any => (Silent, with_clause <|> multi_match_clause <|> multi_create_clause <|>
      multi_merge_clause <|> multi_unwind_clause <|> multi_set_clause <|> multi_remove_clause <|>
      multi_delete_clause <|> multi_call_clause)
  | multi_match_clause => (Normal, kw "MATCH" ~ pattern_list ~ opt where_clause ~ rep
      optional_match_clause <|> rep1 optional_match_clause)
  | multi_create_clause => (Normal, kw "CREATE" ~ create_pattern_list)
  | multi_merge_clause => (Normal, kw "MERGE" ~ pattern_item ~ opt (on_create_clause ~ opt
      on_match_clause <|> on_match_clause ~ opt on_create_clause))
  | multi_unwind_clause => (Normal, kw "UNWIND" ~ expr ~ kw "AS" ~ ident)
  | multi_call_clause => (Normal, kw "CALL" ~ procedure_name ~ opt (tok "(" ~ opt (expr ~ rep
      (tok "," ~ expr)) ~ tok ")") ~ opt yield_clause)
  | multi_set_clause => (Normal, kw "SET" ~ assignment_list)
  | multi_remove_clause => (Normal, kw "REMOVE" ~ remove_item_list)
  | multi_delete_clause => (Normal, opt detach_keyword ~ kw "DELETE" ~ delete_expr_list)
  | delete_expr_list => (Normal, expr ~ rep (tok "," ~ expr))
  | return_stmt => (Normal, return_clause ~ opt order_by_clause ~ opt skip_clause ~ opt
      limit_clause)
  | call_stmt => (Normal, kw "CALL" ~ procedure_name ~ opt (tok "(" ~ opt (expr ~ rep (tok "," ~
      expr)) ~ tok ")") ~ opt yield_clause ~ opt (return_clause ~ opt order_by_clause ~ opt
      skip_clause ~ opt limit_clause))
  | procedure_name => (Atomic, ident ~ rep1 (tok "." ~ ident))
  | create_index_stmt => (Normal, kw "CREATE" ~ kw "INDEX" ~ kw "ON" ~ tok ":" ~ symbolic_name ~
      tok "(" ~ ident ~ rep (tok "," ~ ident) ~ tok ")")
  | drop_index_stmt => (Normal, kw "DROP" ~ kw "INDEX" ~ kw "ON" ~ tok ":" ~ symbolic_name ~ tok
      "(" ~ ident ~ rep (tok "," ~ ident) ~ tok ")")
  | yield_clause => (Normal, kw "YIELD" ~ (yield_star <|> yield_items))
  | yield_star => (Normal, tok "*")
  | yield_items => (Normal, yield_item ~ rep (tok "," ~ yield_item))
  | yield_item => (Normal, ident ~ opt (kw "AS" ~ ident))
  | with_stmt => (Normal, with_clause ~ rep (with_clause ~ opt match_part <|> match_part <|>
      unwind_clause) ~ return_clause ~ opt order_by_clause ~ opt skip_clause ~ opt limit_clause)
  | match_stmt => (Normal, match_part ~ rep (match_part <|> with_clause ~ opt match_part <|>
      unwind_clause) ~ return_clause ~ opt order_by_clause ~ opt skip_clause ~ opt limit_clause)
  | match_part => (Normal, kw "MATCH" ~ pattern_list ~ opt where_clause ~ rep
      optional_match_clause <|> rep1 optional_match_clause)
  | with_clause => (Normal, kw "WITH" ~ opt distinct_keyword ~ return_items ~ opt order_by_clause
      ~ opt skip_clause ~ opt limit_clause ~ opt where_clause)
  | optional_match_clause => (Normal, kw "OPTIONAL" ~ kw "MATCH" ~ pattern_list ~ opt
      where_clause)
  | unwind_stmt => (Normal, kw "UNWIND" ~ expr ~ kw "AS" ~ ident ~ (unwind_create <|>
      unwind_return))
  | unwind_create => (Normal, kw "CREATE" ~ create_pattern_list ~ rep (with_clause ~ opt
      match_part <|> unwind_clause) ~ opt (return_clause ~ opt order_by_clause ~ opt skip_clause
      ~ opt limit_clause))
  | unwind_return => (Normal, opt where_clause ~ rep (with_clause ~ opt match_part <|>
      unwind_clause) ~ return_clause ~ opt order_by_clause ~ opt skip_clause ~ opt limit_clause)
  | unwind_clause => (Normal, kw "UNWIND" ~ expr ~ kw "AS" ~ ident)
  | create_stmt => (Normal, kw "CREATE" ~ create_pattern_list ~ rep (kw "CREATE" ~
      create_pattern_list) ~ opt (return_clause ~ opt order_by_clause ~ opt skip_clause ~ opt
      limit_clause))
  | create_pattern_list => (Normal, create_pattern ~ rep (tok "," ~ create_pattern))
  | create_pattern => (Normal, node_pattern ~ rep (rel_pattern ~ node_pattern))
  | match_create_stmt => (Normal, kw "MATCH" ~ pattern_list ~ opt where_clause ~ kw "CREATE" ~
      create_pattern_list ~ opt (return_clause ~ opt order_by_clause ~ opt skip_clause ~ opt
      limit_clause))
  | match_merge_stmt => (Normal, kw "MATCH" ~ pattern_list ~ opt where_clause ~ kw "MERGE" ~
      pattern_item ~ opt (on_create_clause ~ opt on_match_clause <|> on_match_clause ~ opt
      on_create_clause) ~ opt (return_clause ~ opt order_by_clause ~ opt skip_clause ~ opt
      limit_clause))
  | delete_stmt => (Normal, (kw "MATCH" ~ pattern_list ~ rep optional_match_clause <|> rep1
      optional_match_clause) ~ opt where_clause ~ opt detach_keyword ~ kw "DELETE" ~
      delete_expr_list ~ opt (return_clause ~ opt order_by_clause ~ opt skip_clause ~ opt
      limit_clause))
  | detach_keyword => (Normal, kw "DETACH")
  | set_stmt => (Normal, (kw "MATCH" ~ pattern_list ~ rep optional_match_clause <|> rep1
      optional_match_clause) ~ opt where_clause ~ kw "SET" ~ assignment_list ~ rep (with_clause ~
      opt match_part) ~ opt (return_clause ~ opt order_by_clause ~ opt skip_clause ~ opt
      limit_clause))
  | assignment_list => (Normal, set_item ~ rep (tok "," ~ set_item))
  | set_item => (Normal, set_label <|> set_map_merge <|> set_map <|> assignment)
  | set_label => (Normal, ident ~ label_spec)
  | set_map_merge => (Normal, ident ~ tok "+=" ~ expr)
  | set_map => (Normal, ident ~ tok "=" ~ expr)
  | assignment => (Normal, (property_access <|> expr_property_access) ~ tok "=" ~ expr)
  | expr_property_access => (Normal, tok "(" ~ expr ~ tok ")" ~ tok "." ~ property_key)
  | property_assignment_list => (Normal, assignment ~ rep (tok "," ~ assignment))
  | remove_stmt => (Normal, (kw "MATCH" ~ pattern_list ~ rep optional_match_clause <|> rep1
      optional_match_clause) ~ opt where_clause ~ kw "REMOVE" ~ remove_item_list ~ opt
      (return_clause ~ opt order_by_clause ~ opt skip_clause ~ opt limit_clause))
  | remove_item_list => (Normal, remove_item ~ rep (tok "," ~ remove_item))
  | remove_item => (Normal, remove_label <|> remove_property)
  | remove_property => (Normal, Nt property_access)
  | remove_label => (Normal, ident ~ label_spec)
  | merge_stmt => (Normal, kw "MERGE" ~ pattern_item ~ opt (on_create_clause ~ opt
      on_match_clause <|> on_match_clause ~ opt on_create_clause) ~ opt (return_clause ~ opt
      order_by_clause ~ opt skip_clause ~ opt limit_clause))
  | on_create_clause => (Normal, kw "ON" ~ kw "CREATE" ~ kw "SET" ~ assignment_list)
  | on_match_clause => (Normal, kw "ON" ~ kw "MATCH" ~ kw "SET" ~ assignment_list)
  | pattern_list => (Normal, pattern_item ~ rep (tok "," ~ pattern_item))
  | pattern_item => (Normal, path_pattern <|> pattern)
  | path_pattern => (Normal, ident ~ tok "=" ~ (shortest_path_fn <|> all_shortest_paths_fn <|>
      pattern))
  | shortest_path_fn => (Normal, kw "shortestPath" ~ tok "(" ~ pattern ~ tok ")")
  | all_shortest_paths_fn => (Normal, kw "allShortestPaths" ~ tok "(" ~ pattern ~ tok ")")
  | pattern => (Normal, node_pattern ~ rep (rel_pattern ~ node_pattern))
  | node_pattern => (Normal, tok "(" ~ opt ident ~ opt label_spec ~ opt property_map ~ tok ")")
  | label_spec => (Normal, rep1 (tok ":" ~ symbolic_name))
  | rel_pattern => (Normal, rel_both <|> rel_right <|> rel_left <|> rel_undirected <|>
      rel_right_bare <|> rel_both_bare <|> rel_left_bare <|> rel_undirected_bare)
  | rel_both => (Normal, tok "<-[" ~ rel_detail ~ tok "]->")
  | rel_right => (Normal, tok "-[" ~ rel_detail ~ tok "]->")
  | rel_left => (Normal, tok "<-[" ~ rel_detail ~ tok "]-")
  | rel_undirected => (Normal, tok "-[" ~ rel_detail ~ tok "]-")
  | rel_right_bare => (Normal, tok "-->")
  | rel_left_bare => (Normal, tok "<--")
  | rel_both_bare => (Normal, tok "<-->")
  | rel_undirected_bare => (Normal, tok "--")
  | rel_detail => (Normal, opt ident ~ opt rel_type_spec ~ opt property_map ~ opt var_length)
  | rel_type_spec => (Normal, tok ":" ~ symbolic_name ~ rep (tok "|" ~ opt (tok ":") ~
      symbolic_name))
  | var_length => (Normal, tok "*" ~ opt (int_range <|> fixed_length) ~ opt property_map)
  | int_range => (Normal, opt integer ~ tok ".." ~ opt integer)
  | fixed_length => (Normal, Nt integer)
  | where_clause => (Normal, kw "WHERE" ~ bool_expr)
  | return_clause => (Normal, kw "RETURN" ~ opt distinct_keyword ~ return_items)
  | distinct_keyword => (Normal, kw "DISTINCT")
  | return_items => (Normal, return_item ~ rep (tok "," ~ return_item))
  | return_item => (Normal, expr ~ opt alias)
  | alias => (Normal, kw "AS" ~ (backtick_ident <|> symbolic_name))
  | order_by_clause => (Normal, kw "ORDER" ~ kw "BY" ~ sort_items)
  | sort_items => (Normal, sort_item ~ rep (tok "," ~ sort_item))
  | sort_item => (Normal, expr ~ opt sort_direction)
  | sort_direction => (Normal, kw "DESCENDING" <|> kw "ASCENDING" <|> kw "DESC" <|> kw "ASC")
  | skip_clause => (Normal, kw "SKIP" ~ expr)
  | limit_clause => (Normal, kw "LIMIT" ~ expr)
  | bool_expr => (Normal, Nt expr)
  | xor_term => (Normal, bool_term ~ rep (xor_op ~ bool_term))
  | bool_term => (Normal, bool_factor ~ rep (and_op ~ bool_factor))
  | bool_factor => (Normal, rep not_op ~ bool_primary)
  | bool_primary => (Normal, Nt cmp_or_value)
  | cmp_or_value => (Normal, predicate_expr ~ rep comp_suffix)
  | comp_suffix => (Normal, comp_op ~ predicate_expr)
  | predicate_expr => (Normal, cmp_primary ~ opt (is_not_null_suffix <|> is_null_suffix <|>
      in_suffix <|> string_pred_suffix))
  | cmp_primary => (Normal, exists_full_subquery <|> exists_subquery <|> pattern_predicate <|>
      add_expr <|> tok "(" ~ expr ~ tok ")")
  | pattern_predicate => (Normal, node_pattern ~ rep1 (rel_pattern ~ node_pattern))
  | is_not_null_suffix => (Normal, is_kw ~ not_kw ~ null_kw)
  | is_null_suffix => (Normal, is_kw ~ null_kw)
  | in_suffix => (Normal, in_kw ~ add_expr)
  | string_pred_suffix => (Normal, string_pred_op ~ add_expr)
  | string_pred_op => (Normal, starts_with_op <|> ends_with_op <|> contains_op <|>
      regex_match_op)
  | is_kw => (Atomic, kw "IS" ~ neg (alphanumeric <|> tok "_"))
  | in_kw => (Atomic, kw "IN" ~ neg (alphanumeric <|> tok "_"))
  | null_kw => (Atomic, kw "NULL" ~ neg (alphanumeric <|> tok "_"))
  | not_kw => (Atomic, kw "NOT" ~ neg (alphanumeric <|> tok "_"))
  | exists_subquery => (Normal, kw "EXISTS" ~ tok "{" ~ pattern_list ~ opt where_clause ~ tok
      "}")
  | exists_full_subquery => (Normal, kw "EXISTS" ~ tok "{" ~ kw "MATCH" ~ pattern_list ~ opt
      where_clause ~ rep (with_clause ~ opt (kw "MATCH" ~ pattern_list ~ opt where_clause) <|>
      unwind_clause <|> multi_set_clause <|> multi_delete_clause <|> multi_remove_clause <|>
      multi_create_clause <|> multi_merge_clause) ~ opt (return_clause ~ opt order_by_clause ~
      opt skip_clause ~ opt limit_clause) ~ tok "}")
  | case_expr => (Normal, kw "CASE" ~ opt case_operand ~ rep1 case_when_clause ~ opt
      case_else_clause ~ kw "END")
  | case_operand => (Normal, neg (kw "WHEN") ~ expr)
  | case_when_clause => (Normal, kw "WHEN" ~ expr ~ kw "THEN" ~ expr)
  | case_else_clause => (Normal, kw "ELSE" ~ expr)
  | or_op => (Atomic, kw "OR" ~ neg (alphanumeric <|> tok "_"))
  | xor_op => (Atomic, kw "XOR" ~ neg (alphanumeric <|> tok "_"))
  | and_op => (Atomic, kw "AND" ~ neg (alphanumeric <|> tok "_"))
  | not_op => (Atomic, kw "NOT" ~ neg (alphanumeric <|> tok "_"))
  | comp_op => (Normal, tok "<>" <|> tok "<=" <|> tok ">=" <|> tok "<" <|> tok ">" <|> tok "=")
  | starts_with_op => (Normal, kw "STARTS" ~ kw "WITH")
  | ends_with_op => (Normal, kw "ENDS" ~ kw "WITH")
  | contains_op => (Normal, kw "CONTAINS")
  | regex_match_op => (Normal, tok "=~")
  | expr => (Normal, xor_term ~ rep (or_op ~ xor_term))
  | in_expr => (Normal, add_expr ~ opt (kw "IN" ~ add_expr))
  | add_expr => (Normal, mul_expr ~ rep (add_op ~ mul_expr))
  | mul_expr => (Normal, exp_expr ~ rep (mul_op ~ exp_expr))
  | exp_expr => (Normal, atom_expr ~ rep (exp_op ~ atom_expr))
  | exp_op => (Normal, tok "^")
  | add_op => (Normal, tok "+" <|> tok "-")
  | mul_op => (Normal, tok "*" <|> tok "/" <|> tok "%")
  | atom_expr => (Normal, atom_primary ~ rep (subscript <|> dot_access))
  | dot_access => (Normal, tok "." ~ property_key)
  | atom_primary => (Silent, case_expr <|> quantifier_expr <|> dotted_function_call <|>
      function_call <|> unknown_function_call <|> property_access <|> has_label_expr <|> literal
      <|> pattern_comprehension <|> list_comprehension <|> list_literal <|> map_literal <|> star
      <|> parameter <|> unary_minus_expr <|> tok "(" ~ expr ~ tok ")" <|> variable)
  | unary_minus_expr => (Normal, tok "-" ~ atom_expr)
  | has_label_expr => (Normal, ident ~ label_spec)
  | dotted_function_call => (Normal, dotted_function_name ~ tok "(" ~ function_args ~ tok ")")
  | dotted_function_name => (Atomic, kw "datetime.fromepochmillis" <|> kw "datetime.fromepoch"
      <|> kw "date.truncate" <|> kw "localtime.truncate" <|> kw "time.truncate" <|> kw
      "localdatetime.truncate" <|> kw "datetime.truncate" <|> kw "duration.between" <|> kw
      "duration.inMonths" <|> kw "duration.inDays" <|> kw "duration.inSeconds" <|> kw
      "date.transaction" <|> kw "date.statement" <|> kw "date.realtime" <|> kw
      "localtime.transaction" <|> kw "localtime.statement" <|> kw "localtime.realtime" <|> kw
      "time.transaction" <|> kw "time.statement" <|> kw "time.realtime" <|> kw
      "localdatetime.transaction" <|> kw "localdatetime.statement" <|> kw
      "localdatetime.realtime" <|> kw "datetime.transaction" <|> kw "datetime.statement" <|> kw
      "datetime.realtime")
  | quantifier_expr => (Normal, quantifier_name ~ tok "(" ~ ident ~ in_kw ~ expr ~ where_clause ~
      tok ")")
  | quantifier_name => (Atomic, (kw "none" <|> kw "single" <|> kw "any" <|> kw "all") ~ neg
      (alphanumeric <|> tok "_"))
  | subscript => (Normal, tok "[" ~ subscript_inner ~ tok "]")
  | subscript_inner => (Normal, slice_full <|> slice_from <|> slice_to <|> expr)
  | slice_full => (Normal, expr ~ tok ".." ~ expr)
  | slice_from => (Normal, expr ~ tok "..")
  | slice_to => (Normal, tok ".." ~ expr)
  | parameter => (Normal, tok "$" ~ param_name)
  | param_name => (Atomic, (alpha <|> tok "_") ~ rep (alphanumeric <|> tok "_") <|> rep1 decimal)
  | pattern_comprehension => (Normal, tok "[" ~ opt (ident ~ tok "=") ~ pattern ~ opt (kw "WHERE"
      ~ bool_expr) ~ tok "|" ~ expr ~ tok "]")
  | list_comprehension => (Normal, tok "[" ~ ident ~ kw "IN" ~ expr ~ opt list_comp_where ~ opt
      list_comp_map ~ tok "]")
  | list_comp_where => (Normal, kw "WHERE" ~ bool_expr)
  | list_comp_map => (Normal, tok "|" ~ expr)
  | list_literal => (Normal, tok "[" ~ opt (expr ~ rep (tok "," ~ expr)) ~ tok "]")
  | map_literal => (Normal, tok "{" ~ opt (map_pair ~ rep (tok "," ~ map_pair)) ~ tok "}")
  | map_pair => (Normal, map_key ~ tok ":" ~ expr)
  | map_key => (Atomic, backtick_ident <|> symbolic_name)
  | property_access => (Normal, ident ~ tok "." ~ property_key)
  | variable => (Normal, Nt ident)
  | star => (Normal, tok "*")
  | function_call => (Normal, function_name ~ tok "(" ~ function_args ~ tok ")")
  | unknown_function_call => (Normal, plain_ident ~ tok "(" ~ function_args ~ tok ")")
  | function_name => (Atomic, kw "count" <|> kw "sum" <|> kw "avg" <|> kw "min" <|> kw "max" <|>
      kw "collect" <|> kw "percentileDisc" <|> kw "percentileCont" <|> kw "stDev" <|> kw "stDevP"
      <|> kw "length" <|> kw "nodes" <|> kw "relationships" <|> kw "toLower" <|> kw "toUpper" <|>
      kw "toBoolean" <|> kw "toString" <|> kw "toInteger" <|> kw "toFloat" <|> kw "keys" <|> kw
      "labels" <|> kw "id" <|> kw "coalesce" <|> kw "type" <|> kw "head" <|> kw "tail" <|> kw
      "last" <|> kw "size" <|> kw "abs" <|> kw "sqrt" <|> kw "sign" <|> kw "ceil" <|> kw "floor"
      <|> kw "round" <|> kw "log10" <|> kw "log" <|> kw "startNode" <|> kw "endNode" <|> kw
      "exists" <|> kw "exp" <|> kw "e" <|> kw "pi" <|> kw "substring" <|> kw "left" <|> kw
      "right" <|> kw "lTrim" <|> kw "rTrim" <|> kw "replace" <|> kw "split" <|> kw "trim" <|> kw
      "reverse" <|> kw "range" <|> kw "rand" <|> kw "properties" <|> kw "localdatetime" <|> kw
      "localtime" <|> kw "datetime" <|> kw "date" <|> kw "duration" <|> kw "time")
  | function_args => (Normal, star <|> distinct_keyword ~ expr_list <|> expr_list <|> Empty)
  | expr_list => (Normal, expr ~ rep (tok "," ~ expr))
  | property_map => (Normal, tok "{" ~ property_pair ~ rep (tok "," ~ property_pair) ~ tok "}")
  | property_pair => (Normal, property_key ~ tok ":" ~ expr)
  | property_key => (Atomic, backtick_ident <|> (alpha <|> tok "_") ~ rep (alphanumeric <|> tok
      "_"))
  | ident_list => (Normal, ident ~ rep (tok "," ~ ident))
  | ident => (Atomic, backtick_ident <|> fn_name_as_ident <|> plain_ident)
  | fn_name_as_ident => (Atomic, function_name_word ~ neg (tok "(" <|> alphanumeric <|> tok "_"))
  | function_name_word => (Silent, kw "count" <|> kw "sum" <|> kw "avg" <|> kw "min" <|> kw "max"
      <|> kw "collect" <|> kw "percentileDisc" <|> kw "percentileCont" <|> kw "stDev" <|> kw
      "stDevP" <|> kw "length" <|> kw "nodes" <|> kw "relationships" <|> kw "toLower" <|> kw
      "toUpper" <|> kw "toBoolean" <|> kw "toString" <|> kw "toInteger" <|> kw "toFloat" <|> kw
      "keys" <|> kw "labels" <|> kw "id" <|> kw "coalesce" <|> kw "type" <|> kw "head" <|> kw
      "tail" <|> kw "last" <|> kw "size" <|> kw "abs" <|> kw "sqrt" <|> kw "sign" <|> kw "ceil"
      <|> kw "floor" <|> kw "round" <|> kw "log10" <|> kw "log" <|> kw "startNode" <|> kw
      "endNode" <|> kw "exists" <|> kw "exp" <|> kw "e" <|> kw "pi" <|> kw "substring" <|> kw
      "left" <|> kw "right" <|> kw "lTrim" <|> kw "rTrim" <|> kw "replace" <|> kw "split" <|> kw
      "trim" <|> kw "reverse" <|> kw "range" <|> kw "rand" <|> kw "properties" <|> kw
      "localdatetime" <|> kw "localtime" <|> kw "datetime" <|> kw "date" <|> kw "duration" <|> kw
      "time")
  | plain_ident => (Atomic, neg keyword ~ (alpha <|> tok "_") ~ rep (alphanumeric <|> tok "_"))
  | backtick_ident => (Atomic, tok "`" ~ rep1 (neg (tok "`") ~ AnyChar) ~ tok "`")
  | symbolic_name => (Atomic, (alpha <|> tok "_") ~ rep (alphanumeric <|> tok "_"))
  | keyword => (Normal, (kw "MATCH" <|> kw "WHERE" <|> kw "RETURN" <|> kw "CREATE" <|> kw
      "DELETE" <|> kw "DETACH" <|> kw "SET" <|> kw "REMOVE" <|> kw "MERGE" <|> kw "ORDER" <|> kw
      "BY" <|> kw "SKIP" <|> kw "LIMIT" <|> kw "AND" <|> kw "OR" <|> kw "NOT" <|> kw "AS" <|> kw
      "IS" <|> kw "ON" <|> kw "ASCENDING" <|> kw "DESCENDING" <|> kw "ASC" <|> kw "DESC" <|> kw
      "STARTS" <|> kw "ENDS" <|> kw "WITH" <|> kw "CONTAINS" <|> kw "OPTIONAL" <|> kw "UNWIND"
      <|> kw "TRUE" <|> kw "FALSE" <|> kw "NULL" <|> kw "CASE" <|> kw "WHEN" <|> kw "THEN" <|> kw
      "ELSE" <|> kw "END" <|> kw "EXISTS" <|> kw "IN" <|> kw "DISTINCT" <|> kw "UNION" <|> kw
      "ALL" <|> kw "XOR" <|> kw "NONE" <|> kw "SINGLE" <|> kw "ANY" <|> kw "shortestPath" <|> kw
      "allShortestPaths" <|> kw "EXPLAIN" <|> kw "count" <|> kw "sum" <|> kw "avg" <|> kw "min"
      <|> kw "max" <|> kw "collect" <|> kw "length" <|> kw "nodes") ~ neg (alphanumeric <|> tok
      "_"))
  | literal => (Normal, float_literal <|> integer_literal <|> string_literal <|> bool_literal <|>
      null_literal)
  | integer_literal => (Atomic, opt (tok "-") ~ (hex_integer <|> octal_integer <|> rep1 decimal))
  | hex_integer => (Normal, (tok "0x" <|> tok "0X") ~ rep1 hexadecimal)
  | octal_integer => (Normal, (tok "0o" <|> tok "0O") ~ rep1 octal)
  | float_literal => (Atomic, opt (tok "-") ~ (rep1 decimal ~ tok "." ~ rep1 decimal ~ opt
      exponent <|> tok "." ~ rep1 decimal ~ opt exponent <|> rep1 decimal ~ exponent))
  | exponent => (Normal, (tok "e" <|> tok "E") ~ opt (tok "+" <|> tok "-") ~ rep1 decimal)
  | string_literal => (Compound, single_quoted_string <|> double_quoted_string)
  | single_quoted_string => (Compound, tok "'" ~ string_inner_sq ~ tok "'")
  | double_quoted_string => (Compound, dquote ~ string_inner_dq ~ dquote)
  | string_inner_sq => (Atomic, rep (neg (tok "'") ~ neg backslash ~ AnyChar <|> backslash ~
      AnyChar))
  | string_inner_dq => (Atomic, rep (neg dquote ~ neg backslash ~ AnyChar <|> backslash ~
      AnyChar))
  | bool_literal => (Normal, kw "TRUE" <|> kw "FALSE")
  | null_literal => (Normal, kw "NULL")
  | integer => (Atomic, rep1 decimal)
  end.
End Grammar.
Export Grammar (grammar).
Definition body (r : Rule) : peg := (grammar r).2.
Definition rule_kind (r : Rule) : RuleKind := (grammar r).1.

(** ** Trees *)
(** A [pest::iterators::Pair]: rule, span with line and column of its start, text, and the pairs inside. *)
Inductive Pair := mkPair (rule : Rule) (start end_ line col : N) (text : bytes) (inner : list Pair).
Definition as_rule (p : Pair) : Rule := let '(mkPair r _ _ _ _ _ _) := p in r.
Definition text (p : Pair) : bytes := let '(mkPair _ _ _ _ _ t _) := p in t.
Definition as_str (p : Pair) : string := bytes_str (text p).
Definition into_inner (p : Pair) : list Pair := let '(mkPair _ _ _ _ _ _ ps) := p in ps.

Fixpoint height (p : Pair) : nat :=
  let '(mkPair _ _ _ _ _ _ ps) := p in S (max_list_with height ps).

(** [Matching]: whether blanks may stand between parts, and whether pairs are made. *)
Inductive Matching := NonAtomic | InAtomic | InCompound.
Definition blank : peg := rep (Alt Rule.WHITESPACE Rule.COMMENT).
Definition enter (k : RuleKind) (m : Matching) : Matching :=
  match k with Normal | Silent => m | Atomic => InAtomic | Compound => InCompound end.

(** The pairs a rule makes of what its body made. *)
Definition makes (m : Matching) (r : Rule) (t : bytes) (inside made : list Pair) : Prop :=
  match rule_kind r, m with
  | Silent, _ => made = inside
  | _, InAtomic => made = []
  | _, _ => ∃ p, made = [p] ∧ as_rule p = r ∧ text p = t ∧ into_inner p = inside
  end.

Inductive derives : Matching → peg → bytes → list Pair → Prop :=
| d_tok m t : derives m (Tok t) t []
| d_kw m s t : byte_lower <$> t = byte_lower <$> s → derives m (Kw s) t []
| d_ascii m c b : c b = true → derives m (Ascii c) [b] []
| d_any m w l : chars w = [l] → derives m AnyChar w []
| d_soi m : derives m Soi [] []
| d_eoi m : derives m Eoi [] []
| d_seq m a b t1 w t2 f1 f2 :
    derives m a t1 f1 → skips m w → derives m b t2 f2 →
    derives m (Seq a b) (t1 ++ w ++ t2) (f1 ++ f2)
| d_alt_l m a b t f : derives m a t f → derives m (Alt a b) t f
| d_alt_r m a b t f : derives m b t f → derives m (Alt a b) t f
| d_opt_some m a t f : derives m a t f → derives m (Opt a) t f
| d_opt_none m a : derives m (Opt a) [] []
| d_rep_nil m a : derives m (Rep a) [] []
| d_rep_cons m a t1 w t2 f1 f2 :
    derives m a t1 f1 → skips m w → derives m (Rep a) t2 f2 →
    derives m (Rep a) (t1 ++ w ++ t2) (f1 ++ f2)
| d_neg m a : derives m (Neg a) [] []
| d_nt m r t inside made :
    derives (enter (rule_kind r) m) (body r) t inside → makes m r t inside made →
    derives m (Nt r) t made
with skips : Matching → bytes → Prop :=
| s_none m : skips m []
| s_blank w f : derives InAtomic blank w f → skips NonAtomic w.

(** ** The generated parser *)
Class Pest := {
  pest_error : Type;
  pest_parse : Rule → string → pest_error + list Pair;
  (** [e.location] and [e.line_col], each a position or a pair of them *)
  error_location : pest_error → N + N * N;
  error_line_col : pest_error → N * N + (N * N) * (N * N);
  (** [e.renamed_rules(f)] as text *)
  renamed_rules : pest_error → (Rule → string) → string;
}.
Class PestLaws `{Pest} : Prop := {
  pest_derives r s ps :
    pest_parse r s = inr ps →
    ∃ t rest, str_bytes s = t ++ rest ∧ derives NonAtomic (Nt r) t ps;
}.

(** ** A reference engine *)
Module Reference.
Record Cursor := mkCursor { offset : N; at_line : N; at_col : N }.
Definition start_cursor : Cursor := mkCursor 0 1 1.
Fixpoint advance (t : bytes) (c : Cursor) : Cursor :=
  match t with
  | [] => c
  | b :: t' =>
      advance t' (mkCursor (offset c + 1)
        (if decide (b = x0a) then at_line c + 1 else at_line c)
        (if decide (b = x0a) then 1 else if utf8_cont b then at_col c else at_col c + 1))
  end%N.

Inductive outcome :=
| Matched (t rest : bytes) (c : Cursor) (made : list Pair)
| Failed
| Starved.

Definition consume (t rest : bytes) (c : Cursor) : outcome := Matched t rest (advance t c) [].
Definition then_ (o : outcome) (k : bytes → bytes → Cursor → list Pair → outcome) : outcome :=
  match o with Matched t rest c made => k t rest c made | o => o end.
Definition match_kw (s l : bytes) : bool :=
  bool_decide (byte_lower <$> take (length s) l = byte_lower <$> s).

Fixpoint run (fuel : nat) (m : Matching) (e : peg) (l : bytes) (c : Cursor) : outcome :=
  match fuel with
  | O => Starved
  | S n =>
      let skip l c :=
        match m with NonAtomic => run n InAtomic blank l c | _ => Matched [] l c [] end in
      match e with
      | Tok t =>
          match bytes_strip_prefix t l with Some rest => consume t rest c | None => Failed end
      | Kw s => if match_kw s l then consume (take (length s) l) (drop (length s) l) c else Failed
      | Ascii p => match l with b :: l' => if p b then consume [b] l' c else Failed | [] => Failed end
      | AnyChar =>
          match chars l with w :: ws => consume w (of_chars ws) c | [] => Failed end
      | Soi => if decide (offset c = 0%N) then Matched [] l c [] else Failed
      | Eoi => match l with [] => Matched [] [] c [] | _ => Failed end
      | Seq a b =>
          then_ (run n m a l c) (λ t1 l1 c1 f1,
          then_ (skip l1 c1) (λ w l2 c2 _,
          then_ (run n m b l2 c2) (λ t2 l3 c3 f2, Matched (t1 ++ w ++ t2) l3 c3 (f1 ++ f2))))
      | Alt a b => match run n m a l c with Failed => run n m b l c | o => o end
      | Opt a => match run n m a l c with Failed => Matched [] l c [] | o => o end
      | Rep a =>
          match run n m a l c with
          | Failed => Matched [] l c []
          | Starved => Starved
          | Matched t1 l1 c1 f1 =>
              then_ (skip l1 c1) (λ w l2 c2 _,
              then_ (run n m (Rep a) l2 c2) (λ t2 l3 c3 f2,
                match t2 with
                | [] => Matched t1 l1 c1 f1
                | _ => Matched (t1 ++ w ++ t2) l3 c3 (f1 ++ f2)
                end))
          end
      | Neg a =>
          match run n m a l c with
          | Failed => Matched [] l c []
          | Starved => Starved
          | Matched _ _ _ _ => Failed
          end
      | Nt r =>
          then_ (run n (enter (rule_kind r) m) (body r) l c) (λ t rest c' inside,
            Matched t rest c'
              (match rule_kind r, m with
               | Silent, _ => inside
               | _, InAtomic => []
               | _, _ => [mkPair r (offset c) (offset c') (at_line c) (at_col c) t inside]
               end))
      end
  end.

(** Enough for texts of some thousand bytes. *)
Definition depth : nat := 4096.
#[export] Instance pest : Pest := {
  pest_error := unit;
  pest_parse r s :=
    match run depth NonAtomic (Nt r) (str_bytes s) start_cursor with
    | Matched _ _ _ made => inr made
    | _ => inl ()
    end;
  error_location _ := inl 0%N;
  error_line_col _ := inl (1, 1)%N;
  renamed_rules _ _ := "parse error";
}.

Lemma chars_one w ws l : chars l = w :: ws → l = w ++ of_chars ws ∧ chars w = [w].
Proof.
  intros E. split; [rewrite <- (of_chars_chars l), E; done|]. revert w ws E.
  induction l as [|b l IH]; intros w ws; [done|]. destruct l as [|b' l]; [by intros [= <- <-]|].
  rewrite chars_cons. destruct (utf8_cont b') eqn:Hb.
  - destruct (chars (b' :: l)) as [|w' ws'] eqn:E; [by apply chars_cons_nil in E|].
    intros [= <- <-]. specialize (IH _ _ eq_refl). destruct w' as [|x w'']; [done|].
    assert (x = b') as ->.
    { clear - E. destruct l as [|c l]; [by simplify_eq/=|]. rewrite chars_cons in E.
      destruct (utf8_cont c); [destruct (chars (c :: l))|]; by simplify_eq/=. }
    by rewrite chars_cons, Hb, IH.
  - by intros [= <- <-].
Qed.

(** What the engine returns is a prefix of the text, with a tree derived from the grammar. *)
Lemma run_derives n m e l c t rest c' made :
  run n m e l c = Matched t rest c' made → l = t ++ rest ∧ derives m e t made.
Proof.
  revert m e l c t rest c' made. induction n as [|n IH]; intros m e l c t rest c' made; [done|].
  assert (∀ l c t rest c' made,
    match m with NonAtomic => run n InAtomic blank l c | _ => Matched [] l c [] end
      = Matched t rest c' made → l = t ++ rest ∧ skips m t) as Hskip.
  { intros ??????. destruct m; [|intros [= <- <- <- <-]; by split; [|constructor]..].
    intros H%IH. split; [apply H|]. by eapply s_blank, H. }
  cbn [run]. destruct e as [s|s|p| | | |a b|a b|a|a|a|r].
  - destruct (bytes_strip_prefix s l) eqn:E; [|done]. intros [= <- <- <- <-].
    split; [by apply bytes_strip_prefix_spec|constructor].
  - unfold match_kw. case_bool_decide as E; [|done]. intros [= <- <- <- <-].
    split; [by rewrite take_drop|by constructor].
  - destruct l as [|b l]; [done|]. destruct (p b) eqn:E; [|done]. intros [= <- <- <- <-].
    split; [done|by constructor].
  - destruct (chars l) as [|w ws] eqn:E; [done|]. intros [= <- <- <- <-].
    apply chars_one in E as [El Ew]. split; [done|by econstructor].
  - case_decide; [|done]. intros [= <- <- <- <-]. split; [done|constructor].
  - destruct l; [|done]. intros [= <- <- <- <-]. split; [done|constructor].
  - destruct (run n m a l c) as [t1 l1 c1 f1| |] eqn:E1; [|done..]. cbn [then_].
    destruct (match m with NonAtomic => _ | _ => _ end) as [w l2 c2 fw| |] eqn:E2; [|done..]. cbn [then_].
    destruct (run n m b l2 c2) as [t2 l3 c3 f2| |] eqn:E3; [|done..]. intros [= <- <- <- <-].
    apply IH in E1 as [-> D1]. apply Hskip in E2 as [-> S]. apply IH in E3 as [-> D2].
    split; [by rewrite !app_assoc|by constructor].
  - destruct (run n m a l c) as [t1 l1 c1 f1| |] eqn:E1; [|intros E2|done].
    + intros [= <- <- <- <-]. apply IH in E1 as [-> D]. by split; [|apply d_alt_l].
    + apply IH in E2 as [-> D]. by split; [|apply d_alt_r].
  - destruct (run n m a l c) as [t1 l1 c1 f1| |] eqn:E1; [| |done].
    + intros [= <- <- <- <-]. apply IH in E1 as [-> D]. by split; [|apply d_opt_some].
    + intros [= <- <- <- <-]. split; [done|apply d_opt_none].
  - destruct (run n m a l c) as [t1 l1 c1 f1| |] eqn:E1; [| |done].
    + apply IH in E1 as [-> D1].
      destruct (match m with NonAtomic => _ | _ => _ end) as [w l2 c2 fw| |] eqn:E2; [|done..]. cbn [then_].
      destruct (run n m (Rep a) l2 c2) as [t2 l3 c3 f2| |] eqn:E3; [|done..]. cbn [then_].
      apply Hskip in E2 as [-> S]. apply IH in E3 as [-> D2].
      destruct t2 as [|x t2]; intros [= <- <- <- <-].
      * split; [done|]. rewrite <- (app_nil_r t1), <- (app_nil_r f1).
        eapply (d_rep_cons _ _ _ []); [done|constructor|constructor].
      * split; [by rewrite !app_assoc|by constructor].
    + intros [= <- <- <- <-]. split; [done|constructor].
  - destruct (run n m a l c); [done| |done]. intros [= <- <- <- <-]. split; [done|constructor].
  - destruct (run n (enter (rule_kind r) m) (body r) l c) as [t1 l1 c1 f1| |] eqn:E1; [|done..].
    cbn [then_]. intros [= <- <- <- Hm]. apply IH in E1 as [-> D]. split; [done|].
    eapply d_nt; [done|]. unfold makes. rewrite <- Hm.
    destruct (rule_kind r), m; eauto.
Qed.

#[export] Instance pest_laws : PestLaws.
Proof.
  constructor. intros r s ps. cbn [pest_parse pest].
  destruct (run depth NonAtomic (Nt r) (str_bytes s) start_cursor) as [t rest c made| |] eqn:E; [|done..].
  intros [= <-]. apply run_derives in E as [E D]. eauto.
Qed.
End Reference.
