(* ===== verification/Parser.v ===== *)
(** * Texts and expressions: src/src/cypher/parser/{mod,expr,clause,pattern}.rs

    The checks on the query text before pest runs, the literals, and the functions that
    walk the tree of an expression, a pattern or a clause.  [parse_expr] and
    [parse_atom_expr] are mutually recursive with all of them: [ExprParser] is the pair of
    them as the others see it, and [expr_parser] ties the knot. *)
From S2P Require Export Pest.
Open Scope Z_scope.

(** ** Texts: mod.rs *)
Definition quote_byte : byte := x27.
Definition dquote_byte : byte := x22.
Definition backslash_byte : byte := x5c.
Definition backtick_byte : byte := x60.
Definition newline_byte : byte := x0a.
Definition slash_byte : byte := x2f.

Definition bytes_strip_suffix (p l : bytes) : option bytes :=
  reverse <$> bytes_strip_prefix (reverse p) (reverse l).

Definition strip_backticks (s : string) : string :=
  match bytes_strip_prefix [backtick_byte] (str_bytes s) ≫= bytes_strip_suffix [backtick_byte] with
  | Some r => bytes_str r
  | None => s
  end.

(** *** Numbers in another base *)
Definition digit_in (radix : Z) (b : byte) : option Z :=
  let v := if is_digit b then Z.of_N (b2n b) - 48
           else if byte_in 97 122 b then Z.of_N (b2n b) - 87
           else if byte_in 65 90 b then Z.of_N (b2n b) - 55 else 36 in
  if v <? radix then Some v else None.
Fixpoint radix_digits (radix hi acc : Z) (l : bytes) : result ParseIntError Z :=
  match l with
  | [] => Ok acc
  | b :: l' =>
      match digit_in radix b with
      | Some v =>
          if hi <? acc * radix + v then Err PPosOverflow
          else radix_digits radix hi (acc * radix + v) l'
      | None => Err PInvalidDigit
      end
  end.
(** [from_str_radix] at an unsigned type with largest value [hi]. *)
Definition from_str_radix (hi radix : Z) (l : bytes) : result ParseIntError Z :=
  match l with
  | [] => Err PEmpty
  | b :: l' =>
      if decide (b = "+"%byte) then
        match l' with [] => Err PInvalidDigit | _ => radix_digits radix hi 0 l' end
      else radix_digits radix hi 0 l
  end.
Definition u64_max : Z := 18446744073709551615.

(** [char::from_u32] and the bytes of the character. *)
Definition from_u32 (cp : Z) : option Z :=
  if (cp <? 0xD800) || (0xE000 <=? cp) && (cp <=? 0x10FFFF) then Some cp else None.
Definition nb (n : Z) : byte := n2b (Z.to_N n).
Definition char_bytes (cp : Z) : bytes :=
  if cp <? 0x80 then [nb cp]
  else if cp <? 0x800 then [nb (0xC0 + cp / 64); nb (0x80 + cp `mod` 64)]
  else if cp <? 0x10000 then
    [nb (0xE0 + cp / 4096); nb (0x80 + cp / 64 `mod` 64); nb (0x80 + cp `mod` 64)]
  else
    [nb (0xF0 + cp / 262144); nb (0x80 + cp / 4096 `mod` 64); nb (0x80 + cp / 64 `mod` 64);
     nb (0x80 + cp `mod` 64)].

(** *** String literals *)
Definition invalid_unicode (m : string) : GraphError :=
  GraphError.query Parse ErrorCode.InvalidUnicodeLiteral ("InvalidUnicodeLiteral: " +:+ m).
(** The escape of one character, except [\u]. *)
Definition simple_escape (w : bytes) : option byte :=
  match w with
  | [b] =>
      if decide (b = "n"%byte) then Some x0a
      else if decide (b = "t"%byte) then Some x09
      else if decide (b = "r"%byte) then Some x0d
      else if decide (b = "b"%byte) then Some x08
      else if decide (b = "f"%byte) then Some x0c
      else if decide (b = backslash_byte) then Some backslash_byte
      else if decide (b = quote_byte) then Some quote_byte
      else if decide (b = dquote_byte) then Some dquote_byte
      else if decide (b = slash_byte) then Some slash_byte
      else None
  | _ => None
  end.
(** What [\u] and four characters stand for. *)
Definition unicode_escape (hex : bytes) : Res bytes :=
  if decide (length hex = 4%nat) then
    match from_str_radix u32_max 16 hex with
    | Ok cp =>
        match from_u32 cp with
        | Some c => Ok (char_bytes c)
        | None => Err (invalid_unicode ("invalid code point \u" +:+ bytes_str hex))
        end
    | _ => Err (invalid_unicode ("\u" +:+ bytes_str hex))
    end
  else Err (invalid_unicode ("\u" +:+ bytes_str hex)).
Fixpoint unescape_chars (ws : list bytes) (out : bytes) : Res bytes :=
  match ws with
  | [] => Ok out
  | ch :: ws' =>
      if decide (ch = [backslash_byte]) then
        match ws' with
        | [] => Ok (out ++ [backslash_byte])
        | c :: ws'' =>
            match simple_escape c with
            | Some b => unescape_chars ws'' (out ++ [b])
            | None =>
                if decide (c = ["u"%byte]) then
                  match ws'' with
                  | h1 :: h2 :: h3 :: h4 :: rest =>
                      e ← unicode_escape (of_chars [h1; h2; h3; h4]);
                      unescape_chars rest (out ++ e)
                  | short => e ← unicode_escape (of_chars short); Ok (out ++ e)
                  end
                else unescape_chars ws'' (out ++ backslash_byte :: c)
            end
        end
      else unescape_chars ws' (out ++ ch)
  end.
Definition unescape_string (raw : string) : Res string :=
  bytes_str <$> unescape_chars (str_chars raw) [].

(** *** Spans *)
Definition span_from_pair (p : Pair) : Span :=
  let '(mkPair _ start end_ line col _ _) := p in
  mkSpan start end_ (line `mod` 4294967296)%N (col `mod` 4294967296)%N.
Definition combine_spans (a b : Span) : Span :=
  if is_synthetic a then b
  else if is_synthetic b then a
  else
    let '(lead, tail) := if (span_start a <=? span_start b)%N then (a, b) else (b, a) in
    mkSpan (span_start lead) (N.max (span_end tail) (span_end lead)) (line lead) (col lead).
Definition pest_span `{Pest} (e : pest_error) : Span :=
  let '(start, end_) := match error_location e with inl p => (p, p) | inr se => se end in
  let '(l, c) := match error_line_col e with inl lc => lc | inr (lc, _) => lc end in
  mkSpan start end_ (l `mod` 4294967296)%N (c `mod` 4294967296)%N.

Definition MAX_QUERY_BYTES : N := 1048576.
Definition MAX_EXPR_DEPTH : N := 256.

(** The position after the first [n] bytes; a text that is looked at has at most
    [MAX_QUERY_BYTES] bytes, so the counters do not overflow. *)
Fixpoint line_col_from (l : bytes) (byte_pos : nat) (line col : N) : N * N :=
  match l, byte_pos with
  | b :: l', S n =>
      if decide (b = newline_byte) then line_col_from l' n (line + 1) 1
      else line_col_from l' n line (col + 1)
  | _, _ => (line, col)
  end%N.
Definition line_col_at (input : bytes) (byte_pos : nat) : N * N := line_col_from input byte_pos 1 1.

(** *** Unclosed strings and deep brackets

    The text that is left stands for the index into it. *)
(** From inside a string to its closing quote. *)
Fixpoint to_quote (quote : byte) (l : bytes) : bytes :=
  match l with
  | [] => []
  | b :: l' =>
      if decide (b = quote) then l
      else if decide (b = backslash_byte) then
        match l' with [] => [] | _ :: l'' => to_quote quote l'' end
      else to_quote quote l'
  end.
Fixpoint to_newline (l : bytes) : bytes :=
  match l with
  | [] => []
  | b :: l' => if decide (b = newline_byte) then l else to_newline l'
  end.
Definition is_quote (b : byte) : bool := bool_decide (b = quote_byte ∨ b = dquote_byte).
Definition starts_comment (l : bytes) : bool :=
  match l with b :: c :: _ => bool_decide (b = slash_byte ∧ c = slash_byte) | _ => false end.

Definition unclosed_string (input : bytes) (open_pos : nat) (quote : byte) : GraphError :=
  let '(line, col) := line_col_at input open_pos in
  let kind := if decide (quote = quote_byte) then "single" else "double" in
  GraphError.Query (QueryError.SyntaxError Parse ErrorCode.UnexpectedSyntax
    ("unclosed " +:+ kind +:+ "-quoted string literal — expected `" +:+ bytes_str [quote]
      +:+ "` before end of input")
    (Some ("add a closing `" +:+ bytes_str [quote] +:+ "` to terminate the string"))
    (Some (mkSpan (N.of_nat open_pos) (N.of_nat open_pos + 1) line col))).
Fixpoint unclosed_from (fuel : nat) (input l : bytes) : Res unit :=
  match fuel, l with
  | S n, b :: l' =>
      if is_quote b then
        match to_quote b l' with
        | [] => Err (unclosed_string input (length input - length l) b)
        | _ :: rest => unclosed_from n input rest
        end
      else if starts_comment l then unclosed_from n input (to_newline l)
      else unclosed_from n input l'
  | _, _ => Ok ()
  end.
Definition check_unclosed_string (input : bytes) : Res unit :=
  unclosed_from (S (length input)) input input.

Definition opens (b : byte) : bool :=
  bool_decide (b = "("%byte ∨ b = "["%byte ∨ b = "{"%byte).
Definition closes (b : byte) : bool :=
  bool_decide (b = ")"%byte ∨ b = "]"%byte ∨ b = "}"%byte).
Definition nested_too_deep (what : string) (actual : N) : GraphError :=
  GraphError.SizeLimit what MAX_EXPR_DEPTH actual
    (Some "simplify the query or split it into multiple statements").
Fixpoint brackets_from (fuel : nat) (l : bytes) (depth max_depth : N) : Res unit :=
  match fuel, l with
  | S n, b :: l' =>
      if is_quote b then
        match to_quote b l' with
        | [] => Ok ()
        | _ :: rest => brackets_from n rest depth max_depth
        end
      else if starts_comment l then brackets_from n (to_newline l) depth max_depth
      else if opens b then
        let depth := (depth + 1)%N in
        let max_depth := if (max_depth <? depth)%N then depth else max_depth in
        if (MAX_EXPR_DEPTH <? max_depth)%N then
          Err (nested_too_deep "bracket nesting depth" max_depth)
        else brackets_from n l' depth max_depth
      else if closes b then brackets_from n l' (depth - 1)%N max_depth
      else brackets_from n l' depth max_depth
  | _, _ => Ok ()
  end.
Definition check_bracket_depth (input : bytes) : Res unit :=
  brackets_from (S (length input)) input 0 0.

(** *** Literals: expr.rs *)
Definition negate_unsigned (abs : Z) (negative : bool) : result string Z :=
  if negative then
    if abs =? i64_max + 1 then Ok i64_min
    else if abs <=? i64_max then Ok (- abs)
    else Err "integer overflow"
  else if abs <=? i64_max then Ok abs
  else Err "out of range integral type conversion attempted".
Definition map_display {A} (r : result ParseIntError A) : result string A :=
  match r with Ok a => Ok a | Err e => Err (parse_int_error_display e) | Panic => Panic end.
(** [digits.strip_prefix(a).or_else(|| digits.strip_prefix(b))]. *)
Definition strip_either (a b : string) (digits : bytes) : option bytes :=
  match bytes_strip_prefix (str_bytes a) digits with
  | Some rest => Some rest
  | None => bytes_strip_prefix (str_bytes b) digits
  end.
Definition parse_integer_literal (s : bytes) : result string Z :=
  let '(negative, digits) :=
    match bytes_strip_prefix (str_bytes "-") s with Some rest => (true, rest) | None => (false, s) end in
  match strip_either "0x" "0X" digits with
  | Some hex => abs ← map_display (from_str_radix u64_max 16 hex); negate_unsigned abs negative
  | None =>
      match strip_either "0o" "0O" digits with
      | Some oct => abs ← map_display (from_str_radix u64_max 8 oct); negate_unsigned abs negative
      | None => map_display (parse_i64 s)
      end
  end.
(** A float literal: not infinite, and never the negative zero. *)
Definition parse_float_literal (s : bytes) : Res f64 :=
  match parse_f64 s with
  | Ok (S754_infinity _) => Err (GraphError.syntax "floating point value overflow")
  | Ok (S754_zero _) => Ok (S754_zero false)
  | Ok n => Ok n
  | Err e => Err (GraphError.syntax ("invalid float: " +:+ parse_float_error_display e))
  | Panic => Panic
  end.

(** ** Walking trees

    The state is [EXPR_DEPTH], the nesting of [parse_expr] on this thread. *)
Definition P (A : Type) : Type := M N GraphError A.
Definition panic {A} : P A := λ d, (d, Panic).
(** [opt.unwrap()] and [opt.expect(..)]. *)
Definition expect {A} (o : option A) : P A := λ d, (d, match o with Some a => Ok a | None => Panic end).
Definition syntax_error {A} (m : string) : P A := throw (GraphError.syntax m).
(** [opt.ok_or_else(|| GraphError::syntax(m))?]. *)
Definition or_missing {A} (m : string) (o : option A) : P A := lift (ok_or o (GraphError.syntax m)).
(** [{m}: {:?}] of a rule that does not belong there. *)
Definition unexpected {A} (m : string) (p : Pair) : P A :=
  syntax_error (m +:+ ": " +:+ rule_debug (as_rule p)).

(** [let _guard = DepthGuard::enter()?; m]: the guard is dropped however [m] ends. *)
Definition guarded {A} (m : P A) : P A := λ d,
  let d1 := (d + 1)%N in
  if (MAX_EXPR_DEPTH <? d1)%N then
    ((d1 - 1)%N, Err (nested_too_deep "expression nesting depth" d1))
  else let '(d2, r) := m d1 in ((d2 - 1)%N, r).

Definition rule_is (r : Rule) (p : Pair) : bool := bool_decide (as_rule p = r).
(** [pair.into_inner().next().unwrap()]. *)
Definition first (p : Pair) : P Pair := expect (head (into_inner p)).
(** [pair.into_inner().find(|p| p.as_rule() == r)]. *)
Fixpoint find_rule (r : Rule) (ps : list Pair) : option Pair :=
  match ps with [] => None | p :: ps' => if rule_is r p then Some p else find_rule r ps' end.
(** [.filter(|p| p.as_rule() == r)]. *)
Fixpoint of_rule (r : Rule) (ps : list Pair) : list Pair :=
  match ps with [] => [] | p :: ps' => if rule_is r p then p :: of_rule r ps' else of_rule r ps' end.
(** [for inner in pairs { .. }] over the mutable variables [st]. *)
Fixpoint walk {St} (step : St → Pair → P St) (ps : list Pair) (st : St) : P St :=
  match ps with
  | [] => mret st
  | p :: ps' => st' ← step st p; walk step ps' st'
  end.
(** [.map(f).collect::<Result<Vec<_>>>()]. *)
Fixpoint collect_pairs {A} (f : Pair → P A) (ps : list Pair) : P (list A) :=
  match ps with
  | [] => mret []
  | p :: ps' => a ← f p; l ← collect_pairs f ps'; mret (a :: l)
  end.
Definition name_of (p : Pair) : string := strip_backticks (as_str p).

Definition binary (left : Expr) (op : BinOp) (right : Expr) : Expr :=
  mkExpr (BinaryOp left op right) (combine_spans (expr_span left) (expr_span right)).

Class ExprParser := {
  parse_expr : Pair → P Expr;
  parse_atom_expr : Pair → P Expr;
}.

Section Walkers.
Context {Un : Unicode} {Ep : ExprParser}.

(** ** Patterns: pattern.rs *)
Definition parse_property_map (p : Pair) : P (gmap string Expr) :=
  walk (λ map inner,
    if rule_is Rule.property_pair inner then
      match into_inner inner with
      | k :: v :: _ => value ← parse_expr v; mret (<[name_of k := value]> map)
      | _ => panic
      end
    else mret map) (into_inner p) ∅.

Definition label_names (p : Pair) : list string :=
  as_str <$> of_rule Rule.symbolic_name (into_inner p).

Definition parse_node_pattern (p : Pair) : P (NodePattern Expr) :=
  walk (λ n inner,
    match as_rule inner with
    | Rule.ident => mret (mkNodePattern (Some (name_of inner)) (np_labels n) (np_properties n))
    | Rule.label_spec =>
        mret (mkNodePattern (np_variable n) (np_labels n ++ label_names inner) (np_properties n))
    | Rule.property_map =>
        properties ← parse_property_map inner;
        mret (mkNodePattern (np_variable n) (np_labels n) properties)
    | _ => mret n
    end) (into_inner p) (mkNodePattern None [] ∅).

Definition parse_var_length_bound (s : bytes) : Res N :=
  match parse_u32 s with
  | Ok n => Ok (Z.to_N n)
  | _ => Err (GraphError.query Parse ErrorCode.NumberOutOfRange
           ("var-length hop count `" +:+ bytes_str s +:+ "` is out of range (must fit in u32)"))
  end.

Definition parse_var_length (p : Pair) : P ((N * N) * gmap string Expr) :=
  st ← walk (λ (st : option (N * N) * gmap string Expr) inner,
    let '(range, props) := st in
    match as_rule inner with
    | Rule.int_range =>
        let raw := trim_end (trim_start (text inner)) in
        nums ← collect_pairs (λ i, lift (parse_var_length_bound (text i)))
                 (of_rule Rule.integer (into_inner inner));
        mret (Some match nums with
              | [a; b] => (a, b)
              | [a] => if bool_decide (str_bytes ".." `prefix_of` raw) then (1%N, a) else (a, 50%N)
              | _ => (1%N, 50%N)
              end, props)
    | Rule.fixed_length =>
        n ← lift (parse_var_length_bound (text inner)); mret (Some (n, n), props)
    | Rule.property_map => props' ← parse_property_map inner; mret (range, props')
    | _ => mret (range, props)
    end) (into_inner p) (None, ∅);
  mret (default (1%N, 50%N) st.1, st.2).

(** One part of [rel_detail]. *)
Definition parse_rel_part (r : RelPattern Expr) (detail : Pair) : P (RelPattern Expr) :=
  let '(mkRelPattern variable rel_types properties direction var_length) := r in
  match as_rule detail with
  | Rule.ident => mret (mkRelPattern (Some (name_of detail)) rel_types properties direction var_length)
  | Rule.rel_type_spec =>
      mret (mkRelPattern variable
        (foldl (λ types t, if decide (t ∈ types) then types else types ++ [t]) rel_types
          (label_names detail)) properties direction var_length)
  | Rule.property_map =>
      properties' ← parse_property_map detail;
      mret (mkRelPattern variable rel_types properties' direction var_length)
  | Rule.var_length =>
      v ← parse_var_length detail;
      mret (mkRelPattern variable rel_types (v.2 ∪ properties) direction (Some v.1))
  | _ => mret r
  end.
Definition parse_rel_pattern (p : Pair) : P (RelPattern Expr) :=
  inner ← first p;
  direction ← match as_rule inner with
    | Rule.rel_right | Rule.rel_right_bare => mret RelOutgoing
    | Rule.rel_left | Rule.rel_left_bare => mret RelIncoming
    | Rule.rel_undirected | Rule.rel_undirected_bare | Rule.rel_both | Rule.rel_both_bare =>
        mret RelUndirected
    | _ => panic
    end;
  walk (λ r child,
    if rule_is Rule.rel_detail child then walk parse_rel_part (into_inner child) r else mret r)
    (into_inner inner) (mkRelPattern None [] ∅ direction None).

Definition parse_pattern_inner (p : Pair) : P (Pattern Expr) :=
  elements ← walk (λ els inner,
    match as_rule inner with
    | Rule.node_pattern => n ← parse_node_pattern inner; mret (els ++ [PNode n])
    | Rule.rel_pattern => r ← parse_rel_pattern inner; mret (els ++ [PRelationship r])
    | _ => mret els
    end) (into_inner p) [];
  mret (mkPattern elements None ShortestPathMode.None).
Definition parse_pattern : Pair → P (Pattern Expr) := parse_pattern_inner.

(** The pattern inside [shortestPath(..)]. *)
Definition parse_wrapped_pattern (pattern : option (Pattern Expr)) (p : Pair)
    : P (option (Pattern Expr)) :=
  walk (λ pattern child,
    if rule_is Rule.pattern child then pat ← parse_pattern child; mret (Some pat) else mret pattern)
    (into_inner p) pattern.
Definition parse_path_pattern (p : Pair) : P (Pattern Expr) :=
  st ← walk (λ (st : option string * option (Pattern Expr) * ShortestPathMode) inner,
    let '(path_variable, pattern, mode) := st in
    match as_rule inner with
    | Rule.ident => mret (Some (name_of inner), pattern, mode)
    | Rule.shortest_path_fn =>
        pattern' ← parse_wrapped_pattern pattern inner;
        mret (path_variable, pattern', ShortestPathMode.Single)
    | Rule.all_shortest_paths_fn =>
        pattern' ← parse_wrapped_pattern pattern inner;
        mret (path_variable, pattern', ShortestPathMode.All)
    | Rule.pattern => pat ← parse_pattern inner; mret (path_variable, Some pat, mode)
    | _ => mret st
    end) (into_inner p) (None, None, ShortestPathMode.None);
  let '(path_variable, pattern, mode) := st in
  pat ← or_missing "missing pattern in path assignment" pattern;
  mret (mkPattern (pt_elements pat) path_variable mode).
Definition parse_pattern_item (p : Pair) : P (Pattern Expr) :=
  inner ← first p;
  match as_rule inner with
  | Rule.path_pattern => parse_path_pattern inner
  | Rule.pattern => parse_pattern inner
  | _ => unexpected "unexpected pattern item" inner
  end.
Definition parse_pattern_list (p : Pair) : P (list (Pattern Expr)) :=
  collect_pairs parse_pattern_item (of_rule Rule.pattern_item (into_inner p)).

(** ** Clauses: clause.rs *)
Definition parse_bool_expr (p : Pair) : P Expr := first p ≫= parse_expr.
Definition parse_where (p : Pair) : P Expr :=
  expect (find_rule Rule.bool_expr (into_inner p)) ≫= parse_bool_expr.
Definition parse_skip (p : Pair) : P Expr :=
  expect (find_rule Rule.expr (into_inner p)) ≫= parse_expr.
Definition parse_limit (p : Pair) : P Expr :=
  expect (find_rule Rule.expr (into_inner p)) ≫= parse_expr.

(** The last name in an [alias]. *)
Definition alias_name (alias : option string) (p : Pair) : option string :=
  foldl (λ alias a,
    match as_rule a with
    | Rule.ident | Rule.backtick_ident | Rule.symbolic_name => Some (name_of a)
    | _ => alias
    end) alias (into_inner p).
Definition parse_return_item (p : Pair) : P (ReturnItem Expr) :=
  st ← walk (λ (st : option Expr * option string) child,
    match as_rule child with
    | Rule.expr => e ← parse_expr child; mret (Some e, st.2)
    | Rule.alias => mret (st.1, alias_name st.2 child)
    | _ => mret st
    end) (into_inner p) (None, None);
  e ← expect st.1;
  mret (mkReturnItem e st.2).
Definition parse_return_items (p : Pair) : P (list (ReturnItem Expr)) :=
  collect_pairs parse_return_item (of_rule Rule.return_item (into_inner p)).
Definition parse_return (p : Pair) : P (ReturnClause Expr) :=
  let distinct := existsb (rule_is Rule.distinct_keyword) (into_inner p) in
  items_pair ← expect (find_rule Rule.return_items (into_inner p));
  items ← parse_return_items items_pair;
  mret (mkReturnClause items distinct).

Definition parse_sort_item (p : Pair) : P (SortItem Expr) :=
  st ← walk (λ (st : option Expr * bool) inner,
    match as_rule inner with
    | Rule.expr => e ← parse_expr inner; mret (Some e, st.2)
    | Rule.sort_direction =>
        let dir := to_uppercase (as_str inner) in
        mret (st.1, bool_decide (dir = "DESC") || bool_decide (dir = "DESCENDING"))
    | _ => mret st
    end) (into_inner p) (None, false);
  e ← expect st.1;
  mret (mkSortItem e st.2).
Definition parse_order_by (p : Pair) : P (list (SortItem Expr)) :=
  items_pair ← expect (find_rule Rule.sort_items (into_inner p));
  collect_pairs parse_sort_item (of_rule Rule.sort_item (into_inner items_pair)).

Definition parse_with (p : Pair) : P (WithClause Expr) :=
  walk (λ w inner,
    let '(mkWith items distinct order_by skip limit where_clause) := w in
    match as_rule inner with
    | Rule.distinct_keyword => mret (mkWith items true order_by skip limit where_clause)
    | Rule.return_items =>
        items' ← parse_return_items inner;
        mret (mkWith items' distinct order_by skip limit where_clause)
    | Rule.order_by_clause =>
        order_by' ← parse_order_by inner;
        mret (mkWith items distinct order_by' skip limit where_clause)
    | Rule.skip_clause =>
        e ← parse_skip inner; mret (mkWith items distinct order_by (Some e) limit where_clause)
    | Rule.limit_clause =>
        e ← parse_limit inner; mret (mkWith items distinct order_by skip (Some e) where_clause)
    | Rule.where_clause =>
        e ← parse_where inner; mret (mkWith items distinct order_by skip limit (Some e))
    | _ => mret w
    end) (into_inner p) (mkWith [] false [] None None None).

Definition parse_unwind_clause (p : Pair) : P (UnwindClause Expr) :=
  st ← walk (λ (st : option Expr * option string) inner,
    match as_rule inner with
    | Rule.expr => e ← parse_expr inner; mret (Some e, st.2)
    | Rule.ident => mret (st.1, Some (name_of inner))
    | _ => mret st
    end) (into_inner p) (None, None);
  e ← or_missing "missing UNWIND expression" st.1;
  alias ← or_missing "missing UNWIND alias" st.2;
  mret (mkUnwindClause e alias).

(** The mutable variables of a RETURN with its order and bounds, shared by the functions that
    parse statements. *)
Definition no_tail : Tail Expr := mkTail None [] None None.
Definition parse_tail (t : Tail Expr) (inner : Pair) : P (Tail Expr) :=
  let '(mkTail return_clause order_by skip limit) := t in
  match as_rule inner with
  | Rule.return_clause => rc ← parse_return inner; mret (mkTail (Some rc) order_by skip limit)
  | Rule.order_by_clause =>
      order_by' ← parse_order_by inner; mret (mkTail return_clause order_by' skip limit)
  | Rule.skip_clause => e ← parse_skip inner; mret (mkTail return_clause order_by (Some e) limit)
  | Rule.limit_clause => e ← parse_limit inner; mret (mkTail return_clause order_by skip (Some e))
  | _ => mret t
  end.

(** ** Expressions: expr.rs *)
(** The loop of [parse_expr], [parse_xor_term] and [parse_bool_term]: an operator
    takes the operand after it out of the vector. *)
Fixpoint op_chain (op_rule : Rule) (op : BinOp) (operand : Pair → P Expr) (left : Expr)
    (children : list Pair) : P Expr :=
  match children with
  | [] => mret left
  | c :: rest =>
      if rule_is op_rule c then
        match rest with
        | [] => panic
        | r :: rest' =>
            right ← operand r; op_chain op_rule op operand (binary left op right) rest'
        end
      else op_chain op_rule op operand left rest
  end.
Definition parse_chain (op_rule : Rule) (op : BinOp) (operand : Pair → P Expr) (p : Pair) : P Expr :=
  match into_inner p with
  | [] => panic
  | [c] => operand c
  | c :: children => left ← operand c; op_chain op_rule op operand left children
  end.

(** The loop of [parse_add_expr] and [parse_mul_expr]: [op_of] reads the text of the operator. *)
Fixpoint text_chain (what : string) (op_of : string → option BinOp) (operand : Pair → P Expr)
    (left : Expr) (children : list Pair) : P Expr :=
  match children with
  | [] => mret left
  | op_pair :: rest =>
      match op_of (as_str op_pair) with
      | None => syntax_error ("unexpected " +:+ what +:+ " op: " +:+ as_str op_pair)
      | Some op =>
          match rest with
          | [] => panic
          | r :: rest' => right ← operand r; text_chain what op_of operand (binary left op right) rest'
          end
      end
  end.
Definition parse_text_chain (what : string) (op_of : string → option BinOp) (operand : Pair → P Expr)
    (p : Pair) : P Expr :=
  match into_inner p with
  | [] => panic
  | [c] => operand c
  | c :: children => left ← operand c; text_chain what op_of operand left children
  end.
Definition add_op_of (s : string) : option BinOp :=
  if decide (s = "+") then Some BinOp.Add else if decide (s = "-") then Some BinOp.Sub else None.
Definition mul_op_of (s : string) : option BinOp :=
  if decide (s = "*") then Some BinOp.Mul else if decide (s = "/") then Some BinOp.Div
  else if decide (s = "%") then Some BinOp.Mod else None.

(** A pair that is no operator is passed over. *)
Fixpoint pow_chain (left : Expr) (children : list Pair) : P Expr :=
  match children with
  | [] => mret left
  | op_pair :: rest =>
      if rule_is Rule.exp_op op_pair then
        match rest with
        | [] => panic
        | r :: rest' => right ← parse_atom_expr r; pow_chain (binary left BinOp.Pow right) rest'
        end
      else pow_chain left rest
  end.
Definition parse_exp_expr (p : Pair) : P Expr :=
  match into_inner p with
  | [] => panic
  | [c] => parse_atom_expr c
  | c :: children => left ← parse_atom_expr c; pow_chain left children
  end.
Definition parse_mul_expr : Pair → P Expr := parse_text_chain "mul" mul_op_of parse_exp_expr.
Definition parse_add_expr : Pair → P Expr := parse_text_chain "add" add_op_of parse_mul_expr.
Definition parse_in_expr (p : Pair) : P Expr :=
  match into_inner p with
  | [] => panic
  | [c] => parse_add_expr c
  | a :: b :: _ => left ← parse_add_expr a; right ← parse_add_expr b; mret (binary left BinOp.In right)
  end.

Definition parse_string_pred_op (p : Pair) : P BinOp :=
  inner ← first p;
  match as_rule inner with
  | Rule.starts_with_op => mret BinOp.StartsWith
  | Rule.ends_with_op => mret BinOp.EndsWith
  | Rule.contains_op => mret BinOp.Contains
  | Rule.regex_match_op => mret BinOp.RegexMatch
  | _ => unexpected "unexpected string pred op" inner
  end.
Definition parse_comp_op (p : Pair) : P BinOp :=
  let text := bytes_str (trim_end (trim_start (text p))) in
  match into_inner p with
  | sub :: _ =>
      match as_rule sub with
      | Rule.starts_with_op => mret BinOp.StartsWith
      | Rule.ends_with_op => mret BinOp.EndsWith
      | Rule.contains_op => mret BinOp.Contains
      | Rule.regex_match_op => mret BinOp.RegexMatch
      | _ => unexpected "unexpected comp_op sub-rule" sub
      end
  | [] =>
      if decide (text = "=") then mret BinOp.Eq
      else if decide (text = "<>") then mret BinOp.Neq
      else if decide (text = "<=") then mret BinOp.Lte
      else if decide (text = ">=") then mret BinOp.Gte
      else if decide (text = "<") then mret BinOp.Lt
      else if decide (text = ">") then mret BinOp.Gt
      else syntax_error ("unknown comparison operator: " +:+ text)
  end.

(** *** CASE, EXISTS *)
Definition parse_case_expr (p : Pair) : P Expr :=
  st ← walk (λ (st : option Expr * list (Expr * Expr) * option Expr) inner,
    let '(operand, alternatives, default_) := st in
    match as_rule inner with
    | Rule.case_operand =>
        e ← first inner ≫= parse_expr; mret (Some e, alternatives, default_)
    | Rule.case_when_clause =>
        match into_inner inner with
        | c :: children =>
            condition ← parse_expr c;
            result ← expect (head children) ≫= parse_expr;
            mret (operand, alternatives ++ [(condition, result)], default_)
        | [] => panic
        end
    | Rule.case_else_clause =>
        e ← first inner ≫= parse_expr; mret (operand, alternatives, Some e)
    | _ => mret st
    end) (into_inner p) (None, [], None);
  let '(operand, alternatives, default_) := st in
  mret (mkExpr (Case operand alternatives default_) (span_from_pair p)).

Definition parse_exists_subquery (p : Pair) : P Expr :=
  st ← walk (λ (st : list (Pattern Expr) * option Expr) inner,
    match as_rule inner with
    | Rule.pattern_list => patterns ← parse_pattern_list inner; mret (patterns, st.2)
    | Rule.where_clause => e ← parse_where inner; mret (st.1, Some e)
    | _ => mret st
    end) (into_inner p) ([], None);
  match st.1 with
  | [] => syntax_error "EXISTS subquery requires at least one pattern"
  | patterns => mret (mkExpr (Ast.Exists patterns st.2) (span_from_pair p))
  end.

(** The variables of [parse_exists_full_subquery] besides those of its RETURN; no patterns
    have been seen while [ef_first_match] holds. *)
Record ExistsVars := mkExistsVars {
  ef_first_match : bool;
  ef_patterns : list (Pattern Expr);
  ef_where : option Expr;
  ef_intermediate : list (IntermediateClause Expr) }.
(** A WHERE belongs to the last clause when that is a MATCH without one. *)
Definition exists_where (v : ExistsVars) (w : Expr) : ExistsVars :=
  let '(mkExistsVars first_match patterns where_clause clauses) := v in
  match last clauses with
  | Some (IntermediateClause.Match (mkIntermediateMatch ps opt None)) =>
      mkExistsVars first_match patterns where_clause
        (removelast clauses ++ [IntermediateClause.Match (mkIntermediateMatch ps opt (Some w))])
  | _ => mkExistsVars first_match patterns (Some w) clauses
  end.
Definition exists_push (c : IntermediateClause Expr) (v : ExistsVars) : ExistsVars :=
  mkExistsVars (ef_first_match v) (ef_patterns v) (ef_where v) (ef_intermediate v ++ [c]).
Definition parse_exists_part (st : ExistsVars * Tail Expr) (inner : Pair)
    : P (ExistsVars * Tail Expr) :=
  let '(v, t) := st in
  match as_rule inner with
  | Rule.pattern_list =>
      patterns ← parse_pattern_list inner;
      mret (if ef_first_match v then
              mkExistsVars false patterns (ef_where v) (ef_intermediate v)
            else exists_push (IntermediateClause.Match (mkIntermediateMatch patterns [] None)) v, t)
  | Rule.where_clause => w ← parse_where inner; mret (exists_where v w, t)
  | Rule.with_clause => w ← parse_with inner; mret (exists_push (IntermediateClause.With w) v, t)
  | Rule.unwind_clause =>
      u ← parse_unwind_clause inner; mret (exists_push (IntermediateClause.Unwind u) v, t)
  | Rule.multi_set_clause | Rule.multi_delete_clause | Rule.multi_remove_clause
  | Rule.multi_create_clause | Rule.multi_merge_clause =>
      throw (GraphError.query Parse ErrorCode.InvalidClauseComposition
        "InvalidClauseComposition: EXISTS subquery cannot contain updating clauses")
  | _ => t' ← parse_tail t inner; mret (v, t')
  end.
(** What an EXISTS without RETURN returns. *)
Definition exists_return : ReturnClause Expr :=
  mkReturnClause [mkReturnItem (synthetic (Literal (LiteralValue.Bool true))) (Some "__exists")] false.
Definition parse_exists_full_subquery (p : Pair) : P Expr :=
  st ← walk parse_exists_part (into_inner p) (mkExistsVars true [] None [], no_tail);
  let '(v, t) := st in
  match ef_patterns v with
  | [] => syntax_error "EXISTS subquery requires at least one MATCH pattern"
  | patterns =>
      mret (mkExpr (ExistsSubquery (SMatch (mkMatchStmt patterns [] (ef_where v) (ef_intermediate v)
        (default exists_return (tl_return t)) (tl_order_by t) (tl_skip t) (tl_limit t))))
        (span_from_pair p))
  end.

(** *** Predicates and comparisons *)
Definition parse_cmp_primary (p : Pair) : P Expr :=
  inner ← first p;
  match as_rule inner with
  | Rule.case_expr => parse_case_expr inner
  | Rule.exists_subquery => parse_exists_subquery inner
  | Rule.exists_full_subquery => parse_exists_full_subquery inner
  | Rule.pattern_predicate =>
      pattern ← parse_pattern inner; mret (mkExpr (PatternPredicate pattern) (span_from_pair inner))
  | Rule.expr => parse_expr inner
  | Rule.add_expr => parse_add_expr inner
  | _ => unexpected "unexpected cmp_primary" inner
  end.
Definition parse_predicate_expr (p : Pair) : P Expr :=
  match into_inner p with
  | [] => panic
  | c :: children =>
      left ← parse_cmp_primary c;
      match children with
      | [] => mret left
      | suffix :: _ =>
          match as_rule suffix with
          | Rule.is_not_null_suffix => mret (mkExpr (IsNotNull left) (span_from_pair p))
          | Rule.is_null_suffix => mret (mkExpr (IsNull left) (span_from_pair p))
          | Rule.in_suffix =>
              right ← expect (find_rule Rule.add_expr (into_inner suffix)) ≫= parse_add_expr;
              mret (binary left BinOp.In right)
          | Rule.string_pred_suffix =>
              op_pair ← first suffix;
              op ← parse_string_pred_op op_pair;
              right ← expect (head (tail (into_inner suffix))) ≫= parse_add_expr;
              mret (binary left op right)
          | _ => unexpected "unexpected predicate_expr suffix" suffix
          end
      end
  end.

(** Comparisons of neighbours, and their conjunction. *)
Fixpoint comparisons (prev : Expr) (suffixes : list Pair) : P (list Expr) :=
  match suffixes with
  | [] => mret []
  | suffix :: rest =>
      op ← first suffix ≫= parse_comp_op;
      right ← expect (head (tail (into_inner suffix))) ≫= parse_predicate_expr;
      l ← comparisons right rest;
      mret (binary prev op right :: l)
  end.
Definition parse_cmp_or_value (p : Pair) : P Expr :=
  match into_inner p with
  | [] => panic
  | c :: children =>
      first ← parse_predicate_expr c;
      match children with
      | [] => mret first
      | _ =>
          l ← comparisons first children;
          match l with
          | [] => panic
          | result :: rest => mret (foldl (λ result cmp, binary result BinOp.And cmp) result rest)
          end
      end
  end.

Definition parse_bool_primary (p : Pair) : P Expr :=
  inner ← first p;
  match as_rule inner with
  | Rule.cmp_or_value => parse_cmp_or_value inner
  | _ => unexpected "unexpected bool primary" inner
  end.
Definition parse_bool_factor (p : Pair) : P Expr :=
  let '(not_count, primary) :=
    foldl (λ (st : nat * option Pair) inner,
      match as_rule inner with
      | Rule.not_op => (S st.1, st.2)
      | Rule.bool_primary => (st.1, Some inner)
      | _ => st
      end) (0%nat, None) (into_inner p) in
  e ← expect primary ≫= parse_bool_primary;
  mret (Nat.iter not_count (λ e, mkExpr (Not e) (span_from_pair p)) e).
Definition parse_bool_term : Pair → P Expr := parse_chain Rule.and_op BinOp.And parse_bool_factor.
Definition parse_xor_term : Pair → P Expr := parse_chain Rule.xor_op BinOp.Xor parse_bool_term.
(** [parse_expr]. *)
Definition expr_step (p : Pair) : P Expr :=
  guarded (parse_chain Rule.or_op BinOp.Or parse_xor_term p).

(** *** Calls *)
(** The arguments of a call: [distinct] and the expressions. *)
Definition parse_function_args (st : list Expr * bool) (p : Pair) : P (list Expr * bool) :=
  walk (λ (st : list Expr * bool) arg,
    match as_rule arg with
    | Rule.star => mret (st.1 ++ [mkExpr Star (span_from_pair arg)], st.2)
    | Rule.distinct_keyword => mret (st.1, true)
    | Rule.expr_list =>
        es ← collect_pairs parse_expr (of_rule Rule.expr (into_inner arg)); mret (st.1 ++ es, st.2)
    | Rule.expr => e ← parse_expr arg; mret (st.1 ++ [e], st.2)
    | _ => mret st
    end) (into_inner p) st.
(** The three functions for calls differ in the rule and the case of the name. *)
Definition parse_named_call (name_rule : Rule) (name_text : Pair → string) (p : Pair)
    : P (string * (list Expr * bool)) :=
  walk (λ (st : string * (list Expr * bool)) inner,
    if rule_is name_rule inner then mret (name_text inner, st.2)
    else if rule_is Rule.function_args inner then
      args ← parse_function_args st.2 inner; mret (st.1, args)
    else mret st) (into_inner p) ("", ([], false)).
(** DISTINCT is not looked at here. *)
Definition parse_dotted_function_call (p : Pair) : P Expr :=
  c ← parse_named_call Rule.dotted_function_name (λ n, to_lowercase (as_str n)) p;
  mret (mkExpr (FunctionCall c.1 c.2.1 false (Some (as_str p))) (span_from_pair p)).
Definition parse_function_call (p : Pair) : P Expr :=
  c ← parse_named_call Rule.function_name as_str p;
  mret (mkExpr (FunctionCall c.1 c.2.1 c.2.2 (Some (as_str p))) (span_from_pair p)).
Definition parse_unknown_function_call (p : Pair) : P Expr :=
  c ← parse_named_call Rule.plain_ident as_str p;
  mret (mkExpr (FunctionCall c.1 c.2.1 c.2.2 (Some (as_str p))) (span_from_pair p)).

(** *** Literals *)
Definition literal_expr (l : LiteralValue) (s : Span) : Expr := mkExpr (Literal l) s.
Definition parse_literal (p : Pair) : P Expr :=
  inner ← first p;
  let span := combine_spans (span_from_pair p) (span_from_pair inner) in
  match as_rule inner with
  | Rule.integer_literal =>
      match parse_integer_literal (text inner) with
      | Ok n => mret (literal_expr (LiteralValue.I64 n) span)
      | Err e => syntax_error ("invalid integer literal: " +:+ e)
      | Panic => panic
      end
  | Rule.float_literal =>
      n ← lift (parse_float_literal (text inner));
      mret (literal_expr (LiteralValue.F64 (f64_to_bits n)) span)
  | Rule.string_literal =>
      quoted ← first inner;
      raw ← first quoted;
      s ← lift (unescape_string (as_str raw));
      mret (literal_expr (LiteralValue.String s) span)
  | Rule.bool_literal =>
      mret (literal_expr (LiteralValue.Bool (bool_decide (to_uppercase (as_str inner) = "TRUE"))) span)
  | Rule.null_literal => mret (literal_expr LiteralValue.Null span)
  | _ => unexpected "unexpected literal" inner
  end.

(** *** Comprehensions and quantifiers *)
Definition parse_list_comprehension (p : Pair) : P Expr :=
  st ← walk (λ (st : option string * option Expr * option Expr * option Expr) inner,
    let '(variable, list_expr, filter, map_expr) := st in
    match as_rule inner with
    | Rule.ident => mret (Some (name_of inner), list_expr, filter, map_expr)
    | Rule.expr => e ← parse_expr inner; mret (variable, Some e, filter, map_expr)
    | Rule.list_comp_where =>
        e ← first inner ≫= parse_bool_expr; mret (variable, list_expr, Some e, map_expr)
    | Rule.list_comp_map =>
        e ← first inner ≫= parse_expr; mret (variable, list_expr, filter, Some e)
    | _ => mret st
    end) (into_inner p) (None, None, None, None);
  let '(variable, list_expr, filter, map_expr) := st in
  v ← or_missing "missing variable in list comprehension" variable;
  l ← or_missing "missing list expression in list comprehension" list_expr;
  mret (mkExpr (ListComprehension v l filter map_expr) (span_from_pair p)).

Definition parse_pattern_comprehension (p : Pair) : P Expr :=
  st ← walk (λ (st : option string * option (Pattern Expr) * option Expr * option Expr) inner,
    let '(path_variable, pattern, where_clause, map_expr) := st in
    match as_rule inner with
    | Rule.ident => mret (Some (name_of inner), pattern, where_clause, map_expr)
    | Rule.pattern => pat ← parse_pattern inner; mret (path_variable, Some pat, where_clause, map_expr)
    | Rule.bool_expr => e ← parse_bool_expr inner; mret (path_variable, pattern, Some e, map_expr)
    | Rule.expr => e ← parse_expr inner; mret (path_variable, pattern, where_clause, Some e)
    | _ => mret st
    end) (into_inner p) (None, None, None, None);
  let '(path_variable, pattern, where_clause, map_expr) := st in
  pat ← or_missing "missing pattern in pattern comprehension" pattern;
  e ← or_missing "missing map expression in pattern comprehension" map_expr;
  mret (mkExpr (PatternComprehension path_variable pat where_clause e) (span_from_pair p)).

Definition quantifier_kind (s : string) : P QuantifierKind :=
  if decide (s = "none") then mret QuantifierKind.None
  else if decide (s = "single") then mret QuantifierKind.Single
  else if decide (s = "any") then mret QuantifierKind.Any
  else if decide (s = "all") then mret QuantifierKind.All
  else syntax_error ("unknown quantifier: " +:+ s).
Definition parse_quantifier_expr (p : Pair) : P Expr :=
  st ← walk (λ (st : option QuantifierKind * option string * option Expr * option Expr) inner,
    let '(kind, variable, list_expr, predicate) := st in
    match as_rule inner with
    | Rule.quantifier_name =>
        k ← quantifier_kind (to_lowercase (as_str inner)); mret (Some k, variable, list_expr, predicate)
    | Rule.ident => mret (kind, Some (name_of inner), list_expr, predicate)
    | Rule.expr => e ← parse_expr inner; mret (kind, variable, Some e, predicate)
    | Rule.where_clause => e ← parse_where inner; mret (kind, variable, list_expr, Some e)
    | _ => mret st
    end) (into_inner p) (None, None, None, None);
  let '(kind, variable, list_expr, predicate) := st in
  k ← or_missing "missing quantifier name" kind;
  v ← or_missing "missing variable in quantifier" variable;
  l ← or_missing "missing list expression in quantifier" list_expr;
  e ← or_missing "missing WHERE predicate in quantifier" predicate;
  mret (mkExpr (Quantifier k v l e) (span_from_pair p)).

(** *** Atoms *)
Definition parse_subscript (base : Expr) (p : Pair) : P Expr :=
  let outer_span := combine_spans (expr_span base) (span_from_pair p) in
  inner ← first p ≫= first;
  match as_rule inner with
  | Rule.slice_full =>
      let exprs := of_rule Rule.expr (into_inner inner) in
      start ← expect (head exprs) ≫= parse_expr;
      end_ ← expect (head (tail exprs)) ≫= parse_expr;
      mret (mkExpr (Slice base (Some start) (Some end_)) outer_span)
  | Rule.slice_from =>
      start ← expect (find_rule Rule.expr (into_inner inner)) ≫= parse_expr;
      mret (mkExpr (Slice base (Some start) None) outer_span)
  | Rule.slice_to =>
      end_ ← expect (find_rule Rule.expr (into_inner inner)) ≫= parse_expr;
      mret (mkExpr (Slice base None (Some end_)) outer_span)
  | Rule.expr => index ← parse_expr inner; mret (mkExpr (Index base index) outer_span)
  | _ => unexpected "unexpected subscript" inner
  end.
(** A subscript, slice or property after an atom. *)
Definition parse_postfix (e : Expr) (sub : Pair) : P Expr :=
  if rule_is Rule.subscript sub then parse_subscript e sub
  else if rule_is Rule.dot_access sub then
    key ← first sub;
    mret (mkExpr (DotAccess e (name_of key)) (combine_spans (expr_span e) (span_from_pair sub)))
  else mret e.
Definition parse_map_pair (pairs : list (string * Expr)) (p : Pair) : P (list (string * Expr)) :=
  if rule_is Rule.map_pair p then
    match into_inner p with
    | k :: v :: _ => value ← parse_expr v; mret (pairs ++ [(name_of k, value)])
    | _ => panic
    end
  else mret pairs.

(** [parse_atom_expr]. *)
Definition atom_step (p : Pair) : P Expr :=
  let span := span_from_pair p in
  match as_rule p with
  | Rule.atom_expr =>
      match into_inner p with
      | [] => panic
      | primary :: children => e ← parse_atom_expr primary; walk parse_postfix children e
      end
  | Rule.case_expr => parse_case_expr p
  | Rule.quantifier_expr => parse_quantifier_expr p
  | Rule.dotted_function_call => parse_dotted_function_call p
  | Rule.function_call => parse_function_call p
  | Rule.unknown_function_call => parse_unknown_function_call p
  | Rule.property_access =>
      match into_inner p with
      | var :: prop :: _ => mret (mkExpr (Property (name_of var) (name_of prop)) span)
      | _ => panic
      end
  | Rule.has_label_expr =>
      match into_inner p with
      | var :: label_spec :: _ =>
          mret (mkExpr (HasLabel (as_str var) (as_str <$> into_inner label_spec)) span)
      | _ => panic
      end
  | Rule.literal => parse_literal p
  | Rule.pattern_comprehension => parse_pattern_comprehension p
  | Rule.list_comprehension => parse_list_comprehension p
  | Rule.list_literal =>
      items ← collect_pairs parse_expr (of_rule Rule.expr (into_inner p));
      mret (mkExpr (ListLit items) span)
  | Rule.map_literal =>
      pairs ← walk parse_map_pair (into_inner p) []; mret (mkExpr (MapLiteral pairs) span)
  | Rule.star => mret (mkExpr Star span)
  | Rule.parameter => name ← first p; mret (mkExpr (Parameter_ (as_str name)) span)
  | Rule.variable => name ← first p; mret (mkExpr (Variable_ (as_str name)) span)
  | Rule.expr => parse_expr p
  | Rule.in_expr => parse_in_expr p
  | Rule.add_expr => parse_add_expr p
  | Rule.mul_expr => parse_mul_expr p
  | Rule.exp_expr => parse_exp_expr p
  | Rule.unary_minus_expr =>
      inner ← first p;
      e ← parse_atom_expr inner;
      mret (mkExpr (BinaryOp (literal_expr (LiteralValue.I64 0) span) BinOp.Sub e) span)
  | _ => unexpected "unexpected expr" p
  end.
End Walkers.

(** The two functions with [n] calls of each other left. *)
Fixpoint expr_parser `{Unicode} (n : nat) : ExprParser :=
  match n with
  | O => {| parse_expr _ := panic; parse_atom_expr _ := panic |}
  | S n =>
      let _ := expr_parser n in
      {| parse_expr := expr_step; parse_atom_expr := atom_step |}
  end.
(** Calls enough for a tree: every call but one at each level goes down. *)
Definition calls_for (p : Pair) : nat := S (2 * height p).
