(* ===== verification/ParseStatement.v ===== *)
(** * Statements: src/src/cypher/parser/{statement,clause,mod,resolve}.rs

    The functions that walk the tree of a statement, from UNION down to the items of SET and
    REMOVE, and [parse], which checks the text, runs pest and walks its tree.  The functions of
    the source keep their intermediate results in mutable variables: those of a MATCH with
    what follows it are a [Reading], those of a RETURN are the [Tail] of the statement. *)
From S2P Require Export Parser.
Open Scope nat_scope.

Record Reading := mkReading {
  rd_patterns : list (Pattern Expr);
  rd_optional : list (OptionalMatch Expr);
  rd_where : option Expr;
  rd_intermediate : list (IntermediateClause Expr) }.
Definition no_reading : Reading := mkReading [] [] None [].
Definition set_patterns (ps : list (Pattern Expr)) (r : Reading) : Reading :=
  mkReading ps (rd_optional r) (rd_where r) (rd_intermediate r).
Definition push_optional (om : OptionalMatch Expr) (r : Reading) : Reading :=
  mkReading (rd_patterns r) (rd_optional r ++ [om]) (rd_where r) (rd_intermediate r).
Definition set_where (e : Expr) (r : Reading) : Reading :=
  mkReading (rd_patterns r) (rd_optional r) (Some e) (rd_intermediate r).
Definition push_clause (c : IntermediateClause Expr) (r : Reading) : Reading :=
  mkReading (rd_patterns r) (rd_optional r) (rd_where r) (rd_intermediate r ++ [c]).

(** [raw.find(sub)]. *)
Fixpoint find_text (sub l : bytes) : option nat :=
  if decide (sub `prefix_of` l) then Some 0
  else match l with [] => None | _ :: l' => S <$> find_text sub l' end.
Definition ascii_upper (b : byte) : byte := if byte_in 97 122 b then n2b (b2n b - 32) else b.
(** Whether a parenthesis comes before any YIELD. *)
Definition has_parens (raw : bytes) : bool :=
  match find_text (str_bytes "(") raw with
  | Some proc_end =>
      match find_text (str_bytes "YIELD") (ascii_upper <$> raw) with
      | Some yield_pos => bool_decide (proc_end < yield_pos)
      | None => true
      end
  | None => false
  end.

Section Statements.
Context {Un : Unicode} {Ep : ExprParser}.

(** ** Parts *)
Definition parse_optional_match_clause (p : Pair) : P (OptionalMatch Expr) :=
  walk (λ om child,
    match as_rule child with
    | Rule.pattern_list => ps ← parse_pattern_list child; mret (mkOptionalMatch ps (om_where om))
    | Rule.where_clause => e ← parse_where child; mret (mkOptionalMatch (om_patterns om) (Some e))
    | _ => mret om
    end) (into_inner p) (mkOptionalMatch [] None).
(** [match_part], as the triple of what it holds. *)
Definition parse_match_part (p : Pair) : P (IntermediateMatch Expr) :=
  walk (λ m inner,
    let '(mkIntermediateMatch patterns optional_patterns where_clause) := m in
    match as_rule inner with
    | Rule.pattern_list =>
        ps ← parse_pattern_list inner; mret (mkIntermediateMatch ps optional_patterns where_clause)
    | Rule.optional_match_clause =>
        om ← parse_optional_match_clause inner;
        mret (mkIntermediateMatch patterns (optional_patterns ++ [om]) where_clause)
    | Rule.where_clause =>
        e ← parse_where inner; mret (mkIntermediateMatch patterns optional_patterns (Some e))
    | _ => mret m
    end) (into_inner p) (mkIntermediateMatch [] [] None).

(** The arms of [with_clause], [match_part] and [unwind_clause]. *)
Definition parse_with_arm (r : Reading) (inner : Pair) : P Reading :=
  w ← parse_with inner; mret (push_clause (IntermediateClause.With w) r).
Definition parse_match_arm (r : Reading) (inner : Pair) : P Reading :=
  m ← parse_match_part inner; mret (push_clause (IntermediateClause.Match m) r).
Definition parse_unwind_arm (r : Reading) (inner : Pair) : P Reading :=
  u ← parse_unwind_clause inner; mret (push_clause (IntermediateClause.Unwind u) r).
(** The arms of the patterns and the WHERE that start DELETE, SET and REMOVE. *)
Definition parse_patterns_arm (r : Reading) (inner : Pair) : P Reading :=
  ps ← parse_pattern_list inner; mret (set_patterns ps r).
Definition parse_optional_arm (r : Reading) (inner : Pair) : P Reading :=
  om ← parse_optional_match_clause inner; mret (push_optional om r).
Definition parse_where_arm (r : Reading) (inner : Pair) : P Reading :=
  e ← parse_where inner; mret (set_where e r).

(** The patterns of a [create_pattern_list], after those there already. *)
Definition parse_create_patterns (ps : list (Pattern Expr)) (p : Pair) : P (list (Pattern Expr)) :=
  l ← collect_pairs parse_pattern_inner (of_rule Rule.create_pattern (into_inner p)); mret (ps ++ l).
Definition parse_delete_exprs (es : list Expr) (p : Pair) : P (list Expr) :=
  l ← collect_pairs parse_expr (of_rule Rule.expr (into_inner p)); mret (es ++ l).

(** ** SET and REMOVE items *)
(** [ident] and [label_spec]: every pair inside the latter is a label. *)
Definition labelled_variable (p : Pair) : string * list string :=
  foldl (λ (st : string * list string) part,
    match as_rule part with
    | Rule.ident => (name_of part, st.2)
    | Rule.label_spec => (st.1, st.2 ++ (as_str <$> into_inner part))
    | _ => st
    end) ("", []) (into_inner p).
(** [ident] and [expr]. *)
Definition parse_variable_value (p : Pair) : P (string * Expr) :=
  st ← walk (λ (st : string * option Expr) part,
    match as_rule part with
    | Rule.ident => mret (name_of part, st.2)
    | Rule.expr => e ← parse_expr part; mret (st.1, Some e)
    | _ => mret st
    end) (into_inner p) ("", None);
  e ← expect st.2;
  mret (st.1, e).
Definition parse_assignment (p : Pair) : P (SetItem Expr) :=
  match into_inner p with
  | prop_access :: rest =>
      v ← expect (head rest) ≫= parse_expr;
      match into_inner prop_access with
      | [] => panic
      | target :: props =>
          if rule_is Rule.expr_property_access prop_access then
            e ← parse_expr target;
            property ← expect (head props);
            match expr_kind e with
            | Variable_ var => mret (SetItem.Property (mkAssignment var (as_str property) v))
            | _ => syntax_error "SET target expression must be a variable"
            end
          else
            property ← expect (head props);
            mret (SetItem.Property (mkAssignment (as_str target) (as_str property) v))
      end
  | [] => panic
  end.
Definition parse_set_item (p : Pair) : P (SetItem Expr) :=
  inner ← first p;
  match as_rule inner with
  | Rule.set_label =>
      let '(variable, labels) := labelled_variable inner in mret (SetItem.Label variable labels)
  | Rule.set_map_merge => v ← parse_variable_value inner; mret (SetItem.MapMerge v.1 v.2)
  | Rule.set_map => v ← parse_variable_value inner; mret (SetItem.MapOverwrite v.1 v.2)
  | Rule.assignment => parse_assignment inner
  | _ => unexpected "unexpected set item" inner
  end.
Definition parse_set_item_list (p : Pair) : P (list (SetItem Expr)) :=
  collect_pairs parse_set_item (of_rule Rule.set_item (into_inner p)).
(** The last [assignment_list] inside ON CREATE, ON MATCH or SET. *)
Definition parse_set_items_of (items : list (SetItem Expr)) (p : Pair) : P (list (SetItem Expr)) :=
  walk (λ items child,
    if rule_is Rule.assignment_list child then parse_set_item_list child else mret items)
    (into_inner p) items.

Definition parse_remove_item (p : Pair) : P RemoveItem :=
  inner ← first p;
  match as_rule inner with
  | Rule.remove_property =>
      access ← first inner;
      match into_inner access with
      | variable :: property :: _ => mret (RemoveItem.Property (as_str variable) (as_str property))
      | _ => panic
      end
  | Rule.remove_label =>
      let '(variable, labels) := labelled_variable inner in mret (RemoveItem.Label variable labels)
  | _ => unexpected "unexpected remove item" inner
  end.
Definition parse_remove_item_list (p : Pair) : P (list RemoveItem) :=
  collect_pairs parse_remove_item (of_rule Rule.remove_item (into_inner p)).

(** ** Statements that read *)
Definition parse_match (p : Pair) : P (MatchStatement Expr) :=
  st ← walk (λ (st : bool * Reading * Tail Expr) inner,
    let '(first_match_part, r, t) := st in
    match as_rule inner with
    | Rule.match_part =>
        if first_match_part then
          m ← parse_match_part inner;
          mret (false, mkReading (im_patterns m) (im_optional m) (im_where m) (rd_intermediate r), t)
        else r' ← parse_match_arm r inner; mret (first_match_part, r', t)
    | Rule.with_clause => r' ← parse_with_arm r inner; mret (first_match_part, r', t)
    | Rule.unwind_clause => r' ← parse_unwind_arm r inner; mret (first_match_part, r', t)
    | _ => t' ← parse_tail t inner; mret (first_match_part, r, t')
    end) (into_inner p) (true, no_reading, no_tail);
  let '(_, r, t) := st in
  rc ← or_missing "missing RETURN clause" (tl_return t);
  mret (mkMatchStmt (rd_patterns r) (rd_optional r) (rd_where r) (rd_intermediate r) rc
    (tl_order_by t) (tl_skip t) (tl_limit t)).

(** The arms of a query without a leading MATCH. *)
Definition parse_clause_arms (st : Reading * Tail Expr) (inner : Pair) : P (Reading * Tail Expr) :=
  let '(r, t) := st in
  match as_rule inner with
  | Rule.with_clause => r' ← parse_with_arm r inner; mret (r', t)
  | Rule.match_part => r' ← parse_match_arm r inner; mret (r', t)
  | Rule.unwind_clause => r' ← parse_unwind_arm r inner; mret (r', t)
  | _ => t' ← parse_tail t inner; mret (r, t')
  end.
Definition parse_with_stmt (p : Pair) : P (MatchStatement Expr) :=
  st ← walk parse_clause_arms (into_inner p) (no_reading, no_tail);
  let '(r, t) := st in
  rc ← or_missing "missing RETURN clause" (tl_return t);
  mret (mkMatchStmt [] [] None (rd_intermediate r) rc (tl_order_by t) (tl_skip t) (tl_limit t)).
Definition parse_return_stmt (p : Pair) : P (ReturnStatement Expr) :=
  t ← walk parse_tail (into_inner p) no_tail;
  rc ← or_missing "missing RETURN clause" (tl_return t);
  mret (mkReturnStmt rc (tl_order_by t) (tl_skip t) (tl_limit t)).

Definition parse_unwind_return (p : Pair) : P (UnwindBody Expr) :=
  st ← walk (λ (st : Reading * Tail Expr) child,
    if rule_is Rule.where_clause child then r' ← parse_where_arm st.1 child; mret (r', st.2)
    else parse_clause_arms st child) (into_inner p) (no_reading, no_tail);
  let '(r, t) := st in
  rc ← or_missing "missing RETURN clause in UNWIND" (tl_return t);
  mret (UnwindBody.Return (rd_where r) (rd_intermediate r) rc (tl_order_by t) (tl_skip t) (tl_limit t)).
Definition parse_unwind_create (p : Pair) : P (UnwindBody Expr) :=
  st ← walk (λ (st : list (Pattern Expr) * (Reading * Tail Expr)) child,
    if rule_is Rule.create_pattern_list child then
      ps ← parse_create_patterns st.1 child; mret (ps, st.2)
    else st' ← parse_clause_arms st.2 child; mret (st.1, st'))
    (into_inner p) ([], (no_reading, no_tail));
  let '(patterns, (r, t)) := st in
  mret (UnwindBody.Create patterns (rd_intermediate r) t).
Definition parse_unwind (p : Pair) : P (UnwindStatement Expr) :=
  st ← walk (λ (st : option Expr * option string * option (UnwindBody Expr)) inner,
    let '(e, alias, body) := st in
    match as_rule inner with
    | Rule.expr => e' ← parse_expr inner; mret (Some e', alias, body)
    | Rule.ident => mret (e, Some (name_of inner), body)
    | Rule.unwind_return => b ← parse_unwind_return inner; mret (e, alias, Some b)
    | Rule.unwind_create => b ← parse_unwind_create inner; mret (e, alias, Some b)
    | _ => mret st
    end) (into_inner p) (None, None, None);
  let '(e, alias, body) := st in
  e' ← or_missing "missing UNWIND expression" e;
  a ← or_missing "missing UNWIND alias" alias;
  b ← or_missing "missing UNWIND body" body;
  mret (mkUnwindStmt e' a b).

(** ** Statements that write *)
Definition parse_create (p : Pair) : P (CreateStatement Expr) :=
  st ← walk (λ (st : list (Pattern Expr) * Tail Expr) inner,
    if rule_is Rule.create_pattern_list inner then
      ps ← parse_create_patterns st.1 inner; mret (ps, st.2)
    else t' ← parse_tail st.2 inner; mret (st.1, t')) (into_inner p) ([], no_tail);
  mret (mkCreateStmt st.1 st.2).

Definition parse_match_create (p : Pair) : P (MatchCreateStatement Expr) :=
  st ← walk (λ (st : Reading * list (Pattern Expr) * Tail Expr) inner,
    let '(r, create_patterns, t) := st in
    match as_rule inner with
    | Rule.pattern_list => r' ← parse_patterns_arm r inner; mret (r', create_patterns, t)
    | Rule.where_clause => r' ← parse_where_arm r inner; mret (r', create_patterns, t)
    | Rule.create_pattern_list =>
        ps ← parse_create_patterns create_patterns inner; mret (r, ps, t)
    | _ => t' ← parse_tail t inner; mret (r, create_patterns, t')
    end) (into_inner p) (no_reading, [], no_tail);
  let '(r, create_patterns, t) := st in
  mret (mkMatchCreateStmt (rd_patterns r) (rd_where r) create_patterns t).

(** The variables of a MERGE: pattern, ON CREATE, ON MATCH. *)
Definition MergeVars : Type := option (Pattern Expr) * list (SetItem Expr) * list (SetItem Expr).
Definition parse_merge_arms (v : MergeVars) (inner : Pair) : P MergeVars :=
  let '(pattern, on_create, on_match) := v in
  match as_rule inner with
  | Rule.pattern_item => pat ← parse_pattern_item inner; mret (Some pat, on_create, on_match)
  | Rule.on_create_clause =>
      items ← parse_set_items_of on_create inner; mret (pattern, items, on_match)
  | Rule.on_match_clause =>
      items ← parse_set_items_of on_match inner; mret (pattern, on_create, items)
  | _ => mret v
  end.
Definition parse_merge (p : Pair) : P (MergeStatement Expr) :=
  st ← walk (λ (st : MergeVars * Tail Expr) inner,
    v ← parse_merge_arms st.1 inner; t ← parse_tail st.2 inner; mret (v, t))
    (into_inner p) ((None, [], []), no_tail);
  let '((pattern, on_create, on_match), t) := st in
  pat ← or_missing "missing MERGE pattern" pattern;
  mret (mkMergeStmt pat on_create on_match t).
Definition parse_match_merge (p : Pair) : P (MatchMergeStatement Expr) :=
  st ← walk (λ (st : Reading * MergeVars * Tail Expr) inner,
    let '(r, v, t) := st in
    match as_rule inner with
    | Rule.pattern_list => r' ← parse_patterns_arm r inner; mret (r', v, t)
    | Rule.where_clause => r' ← parse_where_arm r inner; mret (r', v, t)
    | _ => v' ← parse_merge_arms v inner; t' ← parse_tail t inner; mret (r, v', t')
    end) (into_inner p) (no_reading, (None, [], []), no_tail);
  let '(r, (pattern, on_create, on_match), t) := st in
  pat ← or_missing "missing MERGE pattern" pattern;
  mret (mkMatchMergeStmt (rd_patterns r) (rd_where r) pat on_create on_match t).

Definition parse_delete (p : Pair) : P (DeleteStatement Expr) :=
  st ← walk (λ (st : Reading * bool * list Expr * Tail Expr) inner,
    let '(r, detach, exprs, t) := st in
    match as_rule inner with
    | Rule.pattern_list => r' ← parse_patterns_arm r inner; mret (r', detach, exprs, t)
    | Rule.optional_match_clause => r' ← parse_optional_arm r inner; mret (r', detach, exprs, t)
    | Rule.where_clause => r' ← parse_where_arm r inner; mret (r', detach, exprs, t)
    | Rule.detach_keyword => mret (r, true, exprs, t)
    | Rule.delete_expr_list => es ← parse_delete_exprs exprs inner; mret (r, detach, es, t)
    | _ => t' ← parse_tail t inner; mret (r, detach, exprs, t')
    end) (into_inner p) (no_reading, false, [], no_tail);
  let '(r, detach, exprs, t) := st in
  mret (mkDeleteStmt (rd_patterns r) (rd_optional r) (rd_where r) detach exprs t).

(** Patterns and WHERE count before SET only; [Some] items once SET has been seen. *)
Definition parse_set (p : Pair) : P (SetStatement Expr) :=
  st ← walk (λ (st : Reading * option (list (SetItem Expr)) * Tail Expr) inner,
    let '(r, items, t) := st in
    let seen_set := bool_decide (is_Some items) in
    match as_rule inner with
    | Rule.pattern_list =>
        if seen_set then mret st else r' ← parse_patterns_arm r inner; mret (r', items, t)
    | Rule.optional_match_clause =>
        if seen_set then mret st else r' ← parse_optional_arm r inner; mret (r', items, t)
    | Rule.where_clause =>
        if seen_set then mret st else r' ← parse_where_arm r inner; mret (r', items, t)
    | Rule.assignment_list => items' ← parse_set_item_list inner; mret (r, Some items', t)
    | Rule.with_clause => r' ← parse_with_arm r inner; mret (r', items, t)
    | Rule.match_part => r' ← parse_match_arm r inner; mret (r', items, t)
    | _ => t' ← parse_tail t inner; mret (r, items, t')
    end) (into_inner p) (no_reading, None, no_tail);
  let '(r, items, t) := st in
  mret (mkSetStmt (rd_patterns r) (rd_optional r) (rd_where r) (default [] items)
    (rd_intermediate r) t).

Definition parse_remove (p : Pair) : P (RemoveStatement Expr) :=
  st ← walk (λ (st : Reading * list RemoveItem * Tail Expr) inner,
    let '(r, items, t) := st in
    match as_rule inner with
    | Rule.pattern_list => r' ← parse_patterns_arm r inner; mret (r', items, t)
    | Rule.optional_match_clause => r' ← parse_optional_arm r inner; mret (r', items, t)
    | Rule.where_clause => r' ← parse_where_arm r inner; mret (r', items, t)
    | Rule.remove_item_list => l ← parse_remove_item_list inner; mret (r, items ++ l, t)
    | _ => t' ← parse_tail t inner; mret (r, items, t')
    end) (into_inner p) (no_reading, [], no_tail);
  let '(r, items, t) := st in
  mret (mkRemoveStmt (rd_patterns r) (rd_optional r) (rd_where r) items t).

(** ** CALL *)
Definition YieldItems : Type := option (list (string * option string)).
Definition parse_yield_item (p : Pair) : P (string * option string) :=
  match into_inner p with
  | column :: idents => mret (as_str column, as_str <$> head idents)
  | [] => panic
  end.
Definition parse_yield_clause (p : Pair) : P (YieldItems * bool) :=
  walk (λ (st : YieldItems * bool) yc,
    match as_rule yc with
    | Rule.yield_star => mret (st.1, true)
    | Rule.yield_items =>
        items ← collect_pairs parse_yield_item (of_rule Rule.yield_item (into_inner yc));
        mret (Some items, st.2)
    | _ => mret st
    end) (into_inner p) (None, false).
(** Name, arguments and YIELD of a CALL. *)
Definition CallVars : Type := string * list Expr * (YieldItems * bool).
Definition parse_call_arms (v : CallVars) (inner : Pair) : P CallVars :=
  let '(procedure_name, args, yields) := v in
  match as_rule inner with
  | Rule.procedure_name => mret (as_str inner, args, yields)
  | Rule.expr => e ← parse_expr inner; mret (procedure_name, args ++ [e], yields)
  | Rule.yield_clause => y ← parse_yield_clause inner; mret (procedure_name, args, y)
  | _ => mret v
  end.
Definition parse_call (p : Pair) : P Statement :=
  st ← walk (λ (st : CallVars * Tail Expr) inner,
    v ← parse_call_arms st.1 inner; t ← parse_tail st.2 inner; mret (v, t))
    (into_inner p) (("", [], (None, false)), no_tail);
  let '((procedure_name, args, (yield_items, yield_star)), t) := st in
  mret (SCall procedure_name args (negb (has_parens (text p))) yield_items yield_star t).
Definition parse_multi_call_clause (p : Pair) : P (Clause Expr) :=
  v ← walk parse_call_arms (into_inner p) ("", [], (None, false));
  let '(procedure_name, args, (yield_items, yield_star)) := v in
  mret (Clause.Call procedure_name args (negb (has_parens (text p))) yield_items yield_star).

(** ** Sequences of clauses *)
Definition parse_multi_create_clause (p : Pair) : P (Clause Expr) :=
  ps ← walk (λ ps child,
    if rule_is Rule.create_pattern_list child then parse_create_patterns ps child else mret ps)
    (into_inner p) [];
  mret (Clause.Create ps).
Definition parse_multi_delete_clause (p : Pair) : P (Clause Expr) :=
  st ← walk (λ (st : bool * list Expr) child,
    match as_rule child with
    | Rule.detach_keyword => mret (true, st.2)
    | Rule.delete_expr_list => es ← parse_delete_exprs st.2 child; mret (st.1, es)
    | _ => mret st
    end) (into_inner p) (false, []);
  mret (Clause.Delete st.2 st.1).
Definition parse_multi_remove_clause (p : Pair) : P (Clause Expr) :=
  items ← walk (λ items child,
    if rule_is Rule.remove_item_list child then parse_remove_item_list child else mret items)
    (into_inner p) [];
  mret (Clause.Remove items).
(** A MERGE without pattern is no clause. *)
Definition parse_multi_merge_clause (p : Pair) : P (list (Clause Expr)) :=
  v ← walk parse_merge_arms (into_inner p) (None, [], []);
  let '(pattern, on_create, on_match) := v in
  mret match pattern with Some pat => [Clause.Merge pat on_create on_match] | None => [] end.

Definition parse_multi_part (st : list (Clause Expr) * Tail Expr) (inner : Pair)
    : P (list (Clause Expr) * Tail Expr) :=
  let '(clauses, t) := st in
  let push m := (c ← m; mret (clauses ++ [c], t)) : P (list (Clause Expr) * Tail Expr) in
  match as_rule inner with
  | Rule.multi_match_clause =>
      push (m ← parse_match_part inner;
            mret (Clause.Match (im_patterns m) (im_optional m) (im_where m)))
  | Rule.multi_create_clause => push (parse_multi_create_clause inner)
  | Rule.multi_merge_clause => cs ← parse_multi_merge_clause inner; mret (clauses ++ cs, t)
  | Rule.multi_unwind_clause | Rule.unwind_clause =>
      push (u ← parse_unwind_clause inner; mret (Clause.Unwind u))
  | Rule.with_clause => push (w ← parse_with inner; mret (Clause.With w))
  | Rule.multi_set_clause =>
      push (items ← parse_set_items_of [] inner; mret (Clause.SetItems items))
  | Rule.multi_remove_clause => push (parse_multi_remove_clause inner)
  | Rule.multi_delete_clause => push (parse_multi_delete_clause inner)
  | Rule.multi_call_clause => push (parse_multi_call_clause inner)
  | _ => t' ← parse_tail t inner; mret (clauses, t')
  end.
Definition parse_multi_clause (p : Pair) : P (MultiClauseStatement Expr) :=
  st ← walk parse_multi_part (into_inner p) ([], no_tail);
  mret (mkMultiClause st.1 st.2).

(** ** Indexes *)
Definition parse_index (verb : string) (make : string → list string → Statement) (p : Pair)
    : P Statement :=
  match into_inner p with
  | [] => syntax_error (verb +:+ " INDEX missing label")
  | label :: rest =>
      match as_str <$> rest with
      | [] => syntax_error (verb +:+ " INDEX requires at least one property")
      | properties => mret (make (as_str label) properties)
      end
  end.
Definition parse_create_index : Pair → P Statement := parse_index "CREATE" SCreateIndex.
Definition parse_drop_index : Pair → P Statement := parse_index "DROP" SDropIndex.

(** ** One statement, and UNION *)
Definition parse_explain (p : Pair) : P Statement :=
  inner ← lift (ok_or (head (into_inner p)) (GraphError.syntax "EXPLAIN requires a statement"));
  stmt ← match as_rule inner with
    | Rule.match_stmt => m ← parse_match inner; mret (SMatch m)
    | Rule.match_create_stmt => m ← parse_match_create inner; mret (SMatchCreate m)
    | Rule.unwind_stmt => u ← parse_unwind inner; mret (SUnwind u)
    | Rule.with_stmt => m ← parse_with_stmt inner; mret (SMatch m)
    | Rule.multi_clause_stmt => m ← parse_multi_clause inner; mret (SMultiClause m)
    | _ => syntax_error ("EXPLAIN not supported for " +:+ rule_debug (as_rule inner))
    end;
  mret (SExplain stmt).
Definition parse_single_stmt (p : Pair) : P Statement :=
  match as_rule p with
  | Rule.explain_stmt => parse_explain p
  | Rule.multi_clause_stmt => m ← parse_multi_clause p; mret (SMultiClause m)
  | Rule.match_stmt => m ← parse_match p; mret (SMatch m)
  | Rule.create_stmt => c ← parse_create p; mret (SCreate c)
  | Rule.match_create_stmt => m ← parse_match_create p; mret (SMatchCreate m)
  | Rule.match_merge_stmt => m ← parse_match_merge p; mret (SMatchMerge m)
  | Rule.delete_stmt => d ← parse_delete p; mret (SDelete d)
  | Rule.set_stmt => s ← parse_set p; mret (SSet s)
  | Rule.remove_stmt => r ← parse_remove p; mret (SRemove r)
  | Rule.merge_stmt => m ← parse_merge p; mret (SMerge m)
  | Rule.unwind_stmt => u ← parse_unwind p; mret (SUnwind u)
  | Rule.with_stmt => m ← parse_with_stmt p; mret (SMatch m)
  | Rule.return_stmt => r ← parse_return_stmt p; mret (SReturn r)
  | Rule.call_stmt => parse_call p
  | Rule.create_index_stmt => parse_create_index p
  | Rule.drop_index_stmt => parse_drop_index p
  | _ => unexpected "unexpected rule" p
  end.

(** The statements of a UNION, whether one joins with ALL, whether one does not. *)
Definition parse_union_part (st : list Statement * bool * bool) (child : Pair)
    : P (list Statement * bool * bool) :=
  let '(statements, has_all, has_plain) := st in
  match as_rule child with
  | Rule.single_stmt =>
      s ← first child ≫= parse_single_stmt; mret (statements ++ [s], has_all, has_plain)
  | Rule.union_op =>
      mret (if str_contains (to_uppercase (as_str child)) "ALL" then (statements, true, has_plain)
            else (statements, has_all, true))
  | _ => mret st
  end.
(** [all] is false once a plain UNION has been seen. *)
Definition parse_union_stmt (p : Pair) : P Statement :=
  st ← walk parse_union_part (into_inner p) ([], false, false);
  let '(statements, has_all, has_plain) := st in
  match statements with
  | [s] => mret s
  | _ =>
      if has_all && has_plain then
        throw (GraphError.query Parse ErrorCode.InvalidClauseComposition
          "InvalidClauseComposition: cannot mix UNION and UNION ALL")
      else mret (SUnion statements (negb has_plain))
  end.
End Statements.

(** ** From text to statement *)
Section Parse.
Context {Un : Unicode} {Ps : Pest}.

(** [humanize_rule_name] of resolve.rs. *)
Definition rule_phrases : list (list string * string) := [
  (["statement"; "union_stmt"; "single_stmt"; "explain_stmt"],
    "a Cypher statement (MATCH, CREATE, DELETE, MERGE, EXPLAIN ...)");
  (["union_op"], "UNION or UNION ALL");
  (["expr"; "add_expr"; "mul_expr"; "atom_expr"],
    "an expression (property, literal, or function call)");
  (["bool_expr"; "bool_primary"; "bool_factor"; "bool_term"; "xor_term"], "a condition");
  (["comparison"], "a comparison (=, <>, <, >, <=, >=)");
  (["ident"], "an identifier");
  (["pattern"; "pattern_list"; "pattern_item"], "a graph pattern like (n:Label)");
  (["path_pattern"; "shortest_path_fn"; "all_shortest_paths_fn"],
    "a path pattern like p = shortestPath((a)-[*]->(b))");
  (["node_pattern"], "a node pattern like (n:Label {prop: value})");
  (["rel_pattern"; "rel_right"; "rel_left"; "rel_undirected"],
    "a relationship pattern like -[:TYPE]->");
  (["distinct_keyword"], "DISTINCT");
  (["return_clause"], "a RETURN clause");
  (["return_items"; "return_item"], "a RETURN expression");
  (["where_clause"], "a WHERE clause");
  (["with_clause"], "a WITH clause");
  (["order_by_clause"], "an ORDER BY clause");
  (["skip_clause"], "a SKIP clause");
  (["limit_clause"], "a LIMIT clause");
  (["literal"], "a value (string, number, boolean, or null)");
  (["integer_literal"; "integer"], "an integer");
  (["float_literal"], "a number");
  (["string_literal"], "a string (e.g. 'hello')");
  (["property_access"], "a property access like n.name");
  (["property_map"], "a property map like {name: 'Alice'}");
  (["label_spec"], "a label like :Person");
  (["function_call"], "a function call like count(" +:+ "*" +:+ ")");
  (["case_when_clause"], "a WHEN condition");
  (["case_else_clause"], "an ELSE value");
  (["case_expr"], "a CASE expression");
  (["exists_subquery"], "an EXISTS { } subquery");
  (["exists_full_subquery"], "an EXISTS { MATCH ... } subquery");
  (["pattern_comprehension"], "a pattern comprehension like [(n)-->() | expr]");
  (["list_comprehension"], "a list comprehension like [x IN list | expr]");
  (["comp_op"], "a comparison operator (=, <>, <, >)");
  (["alias"], "an alias (AS name)");
  (["assignment"; "assignment_list"; "property_assignment_list"],
    "a property assignment like n.prop = value");
  (["set_item"; "set_label"; "set_map"; "set_map_merge"], "a SET item (property, label, or map)");
  (["detach_keyword"], "DETACH");
  (["EOI"], "end of query");
  (["symbolic_name"], "a name (e.g. Person, alice, my_label)");
  (["multi_create_clause"], "a CREATE clause");
  (["multi_merge_clause"], "a MERGE clause");
  (["multi_unwind_clause"; "unwind_clause"], "an UNWIND clause");
  (["multi_call_clause"], "a CALL clause");
  (["multi_set_clause"], "a SET clause");
  (["multi_remove_clause"], "a REMOVE clause");
  (["optional_match_clause"], "an OPTIONAL MATCH clause");
  (["delete_clause"], "a DELETE clause");
  (["match_clause"], "a MATCH clause")].
Definition humanize_rule_name (rule : string) : string :=
  default rule (snd <$> find (λ row : list string * string, bool_decide (rule ∈ row.1)) rule_phrases).
Definition humanize_pest_error (e : pest_error) : string :=
  renamed_rules e (λ r, humanize_rule_name (rule_debug r)).

(** The walk over what pest returns, with the depth counter reset. *)
Definition parse_pairs (pairs : list Pair) : P Statement :=
  top ← expect (head pairs);
  union_pair ← lift (ok_or (find_rule Rule.union_stmt (into_inner top)) (GraphError.syntax "empty statement"));
  let Ep := expr_parser (calls_for union_pair) in
  parse_union_stmt union_pair.
Definition parse (input : string) : Res Statement :=
  let len := N.of_nat (str_len input) in
  if (MAX_QUERY_BYTES <? len)%N then
    Err (GraphError.SizeLimit "Cypher query" MAX_QUERY_BYTES len
      (Some "split the query into smaller statements"))
  else
    _ ← check_unclosed_string (str_bytes input);
    _ ← check_bracket_depth (str_bytes input);
    match pest_parse Rule.statement input with
    | inl e =>
        Err (GraphError.Query (QueryError.SyntaxError Parse ErrorCode.UnexpectedSyntax
          (humanize_pest_error e) None (Some (pest_span e))))
    | inr pairs => (parse_pairs pairs 0%N).2
    end.
End Parse.
