(* ===== verification/ParseSpec.v ===== *)
(** * Walking derived trees: what src/src/cypher/parser relies on

    The functions of the parser unwrap the pairs they expect and end in errors for those they
    do not.  [good] trees are those the grammar allows.  Three analyses of the grammar, [may],
    [must] and [sequences], say which pairs a rule has inside; with them each function is
    [fine] on its rule: it does not panic, restores the depth counter, and fails only as
    [refusal] lists. *)
From S2P Require Export ParseStatement.
Open Scope nat_scope.

(** ** Good trees *)
(** How the body of a rule of kind [k] may have been matched when a pair was made of it. *)
Definition inside_mode (k : RuleKind) (m : Matching) : Prop :=
  match k with
  | Normal => m ≠ InAtomic
  | Silent => False
  | Atomic => m = InAtomic
  | Compound => m = InCompound
  end.
Definition good (p : Pair) : Prop :=
  ∃ m, inside_mode (rule_kind (as_rule p)) m ∧ derives m (body (as_rule p)) (text p) (into_inner p).

Lemma derives_atomic m e t f : derives m e t f → m = InAtomic → f = [].
Proof.
  induction 1 as [| | | | | |? ? ? ? ? ? ? ? ? IH1 ? ? IH2| | | | | |? ? ? ? ? ? ? ? IH1 ? ? IH2| |
    m r t inside made ? IH Hm]; intros ->; auto.
  - rewrite IH1, IH2; done.
  - rewrite IH1, IH2; done.
  - unfold makes in Hm. destruct (rule_kind r) eqn:E; try done. rewrite Hm. by apply IH.
Qed.

Lemma derives_good m e t f : derives m e t f → Forall good f.
Proof.
  induction 1 as [| | | | | |? ? ? ? ? ? ? ? ? IH1 ? ? IH2| | | | | |? ? ? ? ? ? ? ? IH1 ? ? IH2| |
    m r t inside made Hd IH Hm]; auto.
  - by apply Forall_app_2.
  - by apply Forall_app_2.
  - unfold makes in Hm.
    assert (∀ p, as_rule p = r → text p = t → into_inner p = inside →
      inside_mode (rule_kind r) (enter (rule_kind r) m) → good p) as G.
    { intros p <- <- <- Hi. by eexists. }
    destruct (rule_kind r), m; subst; try done;
      destruct Hm as (p & -> & ? & ? & ?); (constructor; [by apply G|constructor]).
Qed.

Lemma kids_good p : good p → Forall good (into_inner p).
Proof. intros (m & _ & D). by eapply derives_good. Qed.

(** How deep expressions lie in each other. *)
Fixpoint nesting (p : Pair) : nat :=
  let '(mkPair r _ _ _ _ _ ps) := p in
  (if decide (r = Rule.expr) then 1 else 0) + max_list_with nesting ps.

Lemma max_list_with_le {A} (f : A → nat) l x : x ∈ l → f x ≤ max_list_with f l.
Proof. induction 1; cbn; lia. Qed.
Lemma height_kid p c : c ∈ into_inner p → height c < height p.
Proof.
  destruct p as [r s e l k t ps]. cbn [into_inner height]. intros Hc.
  apply (max_list_with_le height) in Hc. lia.
Qed.
Lemma nesting_kid p c : c ∈ into_inner p → nesting c ≤ nesting p.
Proof.
  destruct p as [r s e l k t ps]. cbn [into_inner nesting]. intros Hc.
  apply (max_list_with_le nesting) in Hc. lia.
Qed.
Lemma nesting_expr p c :
  as_rule p = Rule.expr → c ∈ into_inner p → S (nesting c) ≤ nesting p.
Proof.
  destruct p as [r s e l k t ps]. cbn [into_inner nesting as_rule]. intros -> Hc.
  apply (max_list_with_le nesting) in Hc. rewrite decide_True by done. lia.
Qed.

(** ** Which pairs a body makes *)
(** The rules of the pairs it may make; [None] when [n] silent rules in each other are not
    enough. *)
Fixpoint may (n : nat) : peg → option (list Rule) :=
  fix go e :=
    match e with
    | Seq a b | Alt a b => l ← go a; k ← go b; Some (l ++ k)
    | Opt a | Rep a => go a
    | Nt r =>
        match rule_kind r with
        | Silent => match n with O => None | S n' => may n' (body r) end
        | _ => Some [r]
        end
    | _ => Some []
    end.
(** Rules it makes a pair of in any case, outside atomic rules. *)
Fixpoint must (n : nat) : peg → list Rule :=
  fix go e :=
    match e with
    | Seq a b => go a ++ go b
    | Alt a b => filter (λ r, r ∈ go b) (go a)
    | Nt r =>
        match rule_kind r with
        | Silent => match n with O => [] | S n' => must n' (body r) end
        | _ => [r]
        end
    | _ => []
    end.
(** The sequences of rules it makes, when there are finitely many. *)
Fixpoint sequences (n : nat) : peg → option (list (list Rule)) :=
  fix go e :=
    match e with
    | Seq a b => l ← go a; k ← go b; Some (x ← l; y ← k; [x ++ y])
    | Alt a b => l ← go a; k ← go b; Some (l ++ k)
    | Opt a => l ← go a; Some ([] :: l)
    | Rep a => None
    | Nt r =>
        match rule_kind r with
        | Silent => match n with O => None | S n' => sequences n' (body r) end
        | _ => Some [[r]]
        end
    | _ => Some [[]]
    end.

Lemma may_sound n m e t f L p :
  may n e = Some L → derives m e t f → p ∈ f → as_rule p ∈ L.
Proof.
  revert e. revert L m t f p. induction n as [n IHn] using lt_wf_ind.
  intros L m t f p e Hl D. revert n IHn L p Hl.
  induction D as [| | | | | |m a b t1 w t2 f1 f2 D1 IH1 ? D2 IH2|m a b t f D IH|m a b t f D IH
    |m a t f D IH| | |m a t1 w t2 f1 f2 D1 IH1 ? D2 IH2| |m r t inside made D IH Hm];
    intros n IHn L p Hl Hp; try (by apply not_elem_of_nil in Hp).
  - destruct n; cbn in Hl; apply bind_Some in Hl as (l & E1 & Hl); apply bind_Some in Hl as (k & E2 & [= <-]);
      apply elem_of_app; apply elem_of_app in Hp as [Hp|Hp]; eauto.
  - destruct n; cbn in Hl; apply bind_Some in Hl as (l & E1 & Hl); apply bind_Some in Hl as (k & E2 & [= <-]);
      apply elem_of_app; eauto.
  - destruct n; cbn in Hl; apply bind_Some in Hl as (l & E1 & Hl); apply bind_Some in Hl as (k & E2 & [= <-]);
      apply elem_of_app; eauto.
  - destruct n; cbn in Hl; eauto.
  - destruct n; cbn in Hl; apply elem_of_app in Hp as [Hp|Hp]; eauto.
  - unfold makes in Hm.
    assert (rule_kind r ≠ Silent → L = [r] → as_rule p ∈ L) as G.
    { intros Hs ->. apply list_elem_of_singleton. destruct (rule_kind r), m; try done; subst;
        try (by apply not_elem_of_nil in Hp); destruct Hm as (q & -> & <- & _);
        by apply list_elem_of_singleton in Hp as ->. }
    destruct n as [|n]; cbn in Hl; destruct (rule_kind r) eqn:E; try done; try (apply G; congruence).
    subst. eapply (IHn n); [lia|exact Hl| |exact Hp]. cbn [enter] in D. exact D.
Qed.

Lemma must_sound n m e t f r :
  derives m e t f → m ≠ InAtomic → r ∈ must n e → ∃ p, p ∈ f ∧ as_rule p = r.
Proof.
  intros D. revert n r.
  induction D as [| | | | | |m a b t1 w t2 f1 f2 D1 IH1 ? D2 IH2|m a b t f D IH|m a b t f D IH
    |m a t f D IH| | |m a t1 w t2 f1 f2 D1 IH1 ? D2 IH2| |m r t inside made D IH Hm];
    intros n q Hm' Hq; try (destruct n; cbn in Hq; by apply not_elem_of_nil in Hq).
  - assert (q ∈ must n a ∨ q ∈ must n b) as [Hl|Hl] by (destruct n; cbn in Hq; by apply elem_of_app in Hq).
    + destruct (IH1 n q) as (p & ? & ?); [done..|]. exists p. set_solver.
    + destruct (IH2 n q) as (p & ? & ?); [done..|]. exists p. set_solver.
  - apply (IH n); [done|]. destruct n; cbn in Hq; by apply list_elem_of_filter in Hq as [? ?].
  - apply (IH n); [done|]. destruct n; cbn in Hq; by apply list_elem_of_filter in Hq as [? ?].
  - unfold makes in Hm. destruct (rule_kind r) eqn:E.
    1, 3, 4: (assert (q = r) as ->
      by (destruct n; cbn in Hq; rewrite E in Hq; by apply list_elem_of_singleton in Hq);
      destruct m; try done; destruct Hm as (p & -> & ? & _); exists p; set_solver).
    subst made. destruct n as [|n]; cbn in Hq; rewrite E in Hq; [by apply not_elem_of_nil in Hq|].
    by apply (IH n).
Qed.

Lemma sequences_seq n a b :
  sequences n (Seq a b) = (l ← sequences n a; k ← sequences n b; Some (x ← l; y ← k; [x ++ y])).
Proof. by destruct n. Qed.
Lemma sequences_alt n a b :
  sequences n (Alt a b) = (l ← sequences n a; k ← sequences n b; Some (l ++ k)).
Proof. by destruct n. Qed.
Lemma sequences_opt n a : sequences n (Opt a) = (l ← sequences n a; Some ([] :: l)).
Proof. by destruct n. Qed.
Lemma sequences_sound n m e t f L :
  sequences n e = Some L → derives m e t f → m ≠ InAtomic → as_rule <$> f ∈ L.
Proof.
  intros Hl D. revert n L Hl.
  induction D as [| | | | | |m a b t1 w t2 f1 f2 D1 IH1 ? D2 IH2|m a b t f D IH|m a b t f D IH
    |m a t f D IH| | |m a t1 w t2 f1 f2 D1 IH1 ? D2 IH2| |m r t inside made D IH Hm];
    intros n L Hl Hm'; try (destruct n; cbn in Hl; simplify_eq; by left);
    rewrite ?sequences_seq, ?sequences_alt, ?sequences_opt in Hl;
    try (apply bind_Some in Hl as (l & E1 & Hl)).
  - apply bind_Some in Hl as (k & E2 & [= <-]).
    apply list_elem_of_bind. exists (as_rule <$> f1). split; [|by eapply IH1].
    apply list_elem_of_bind. exists (as_rule <$> f2). split; [|by eapply IH2].
    rewrite fmap_app. by left.
  - apply bind_Some in Hl as (k & E2 & [= <-]). apply elem_of_app. left. by eapply IH.
  - apply bind_Some in Hl as (k & E2 & [= <-]). apply elem_of_app. right. by eapply IH.
  - simplify_eq. right. by eapply IH.
  - simplify_eq. by left.
  - unfold makes in Hm. destruct (rule_kind r) eqn:E.
    1, 3, 4: (assert (L = [[r]]) as -> by (destruct n; cbn in Hl; rewrite E in Hl; by simplify_eq);
      destruct m; try done; destruct Hm as (p & -> & <- & _); by left).
    subst made. destruct n as [|n]; cbn in Hl; rewrite E in Hl; [done|]. by apply (IH n).
Qed.

(** ** The same for the inside of a good pair *)
Definition silent_depth : nat := 4.
Section kids.
Context (p : Pair) (Hp : good p).

Lemma kid_rule L c :
  may silent_depth (body (as_rule p)) = Some L → c ∈ into_inner p → as_rule c ∈ L.
Proof. destruct Hp as (m & _ & D). intros Hl Hc. by eapply may_sound. Qed.
Lemma kid_of_rule r :
  rule_kind (as_rule p) = Normal → r ∈ must silent_depth (body (as_rule p)) →
  ∃ c, c ∈ into_inner p ∧ as_rule c = r.
Proof. destruct Hp as (m & Hm & D). intros Hk Hr. rewrite Hk in Hm. by eapply must_sound. Qed.
Lemma kid_sequence L :
  rule_kind (as_rule p) ≠ Atomic → sequences silent_depth (body (as_rule p)) = Some L →
  as_rule <$> into_inner p ∈ L.
Proof.
  destruct Hp as (m & Hm & D). intros Hk Hl. eapply sequences_sound; [done..|].
  destruct (rule_kind (as_rule p)); cbn in Hm; congruence.
Qed.
Lemma find_rule_some r ps c : c ∈ ps → as_rule c = r → ∃ q, find_rule r ps = Some q ∧ q ∈ ps ∧ as_rule q = r.
Proof.
  intros Hc Hr. induction ps as [|q ps IH]; [by apply not_elem_of_nil in Hc|]. cbn [find_rule].
  unfold rule_is. case_bool_decide as E; [exists q; split_and!; [done|left|done]|].
  apply elem_of_cons in Hc as [->|Hc]; [done|].
  destruct (IH Hc) as (q' & ? & ? & ?). exists q'. split_and!; [done|by right|done].
Qed.
Lemma kid_found r :
  rule_kind (as_rule p) = Normal → r ∈ must silent_depth (body (as_rule p)) →
  ∃ c, find_rule r (into_inner p) = Some c ∧ c ∈ into_inner p ∧ as_rule c = r.
Proof. intros Hk Hr. destruct (kid_of_rule r Hk Hr) as (c & Hc & E). by eapply find_rule_some. Qed.
End kids.

Lemma of_rule_spec r ps c : c ∈ of_rule r ps → c ∈ ps ∧ as_rule c = r.
Proof.
  induction ps as [|q ps IH]; cbn [of_rule]; [intros H; by apply not_elem_of_nil in H|].
  unfold rule_is. case_bool_decide as E; [intros [->|H]%elem_of_cons|intros H].
  - split; [left|done].
  - destruct (IH H). split; [by right|done].
  - destruct (IH H). split; [by right|done].
Qed.

(** An operand, then operators with their operands. *)
Inductive alternates (o a : Rule) : list Pair → Prop :=
| alt_nil : alternates o a []
| alt_cons c d rest :
    as_rule c = o → as_rule d = a → alternates o a rest → alternates o a (c :: d :: rest).
Lemma derives_one m r t f :
  rule_kind r ≠ Silent → m ≠ InAtomic → derives m (Nt r) t f → ∃ p, f = [p] ∧ as_rule p = r.
Proof.
  intros Hk Hm D. inversion D as [| | | | | | | | | | | | | |? ? ? ? ? D' Hk']; subst.
  unfold makes in Hk'. destruct (rule_kind r), m; try done; destruct Hk' as (p & -> & ? & _); eauto.
Qed.
Lemma rep_alternates m o a t f :
  rule_kind a ≠ Silent → rule_kind o ≠ Silent → m ≠ InAtomic →
  derives m (Rep (Seq (Nt o) (Nt a))) t f → alternates o a f.
Proof.
  intros Ha Ho Hm D. remember (Rep (Seq (Nt o) (Nt a))) as e eqn:He.
  induction D as [| | | | | | | | | | | |m x t1 w t2 f1 f2 D1 _ Hs D2 IH| |]; try done; [constructor|].
  injection He as ->. inversion D1 as [| | | | | |? ? ? u1 v u2 g1 g2 E1 _ E2| | | | | | | |]; subst.
  apply derives_one in E1 as (c1 & -> & ?); [|done..]. apply derives_one in E2 as (c2 & -> & ?); [|done..].
  constructor; [done..|]. by apply IH.
Qed.
Lemma chain_kids p o a :
  good p → rule_kind (as_rule p) = Normal →
  body (as_rule p) = Seq (Nt a) (Rep (Seq (Nt o) (Nt a))) →
  rule_kind a ≠ Silent → rule_kind o ≠ Silent →
  ∃ c rest, into_inner p = c :: rest ∧ as_rule c = a ∧ alternates o a rest.
Proof.
  intros (m & Hm & D) Hk Hb Ha Ho. rewrite Hk in Hm. cbn in Hm. rewrite Hb in D.
  inversion D as [| | | | | |? ? ? t1 w t2 f1 f2 D1 _ D2| | | | | | | |]; subst.
  apply derives_one in D1 as (c & -> & Ec); [|done..]. exists c, f2. split_and!; [done..|].
  by eapply rep_alternates.
Qed.
Lemma alternates_in o a rest c :
  alternates o a rest → c ∈ rest → as_rule c = o ∨ as_rule c = a.
Proof. induction 1; intros Hc; set_solver. Qed.

(** ** What the parser may answer *)
Definition overflow_texts : list string :=
  ["number too large to fit in target type"; "number too small to fit in target type";
   "integer overflow"; "out of range integral type conversion attempted"].
(** The errors of a query that the grammar allows. *)
Inductive refusal : GraphError → Prop :=
| re_unicode m : refusal (invalid_unicode m)
| re_integer m : m ∈ overflow_texts → refusal (GraphError.syntax ("invalid integer literal: " +:+ m))
| re_float : refusal (GraphError.syntax "floating point value overflow")
| re_hops m : refusal (GraphError.query Parse ErrorCode.NumberOutOfRange m)
| re_exists : refusal (GraphError.query Parse ErrorCode.InvalidClauseComposition
    "InvalidClauseComposition: EXISTS subquery cannot contain updating clauses")
| re_union : refusal (GraphError.query Parse ErrorCode.InvalidClauseComposition
    "InvalidClauseComposition: cannot mix UNION and UNION ALL")
| re_target : refusal (GraphError.syntax "SET target expression must be a variable").

(** [m] returns something in [R] or refuses; it does not panic, it leaves the depth counter as
    it was, and it complains about the depth only if [n] more levels exceed the limit. *)
Definition fine (n : nat) {A} (m : P A) (R : A → Prop) : Prop := ∀ d,
  match m d with
  | (d', Ok a) => d' = d ∧ R a
  | (d', Err e) => d' = d ∧ (refusal e ∨ (MAX_EXPR_DEPTH < d + N.of_nat n)%N ∧
      ∃ k, e = nested_too_deep "expression nesting depth" k)
  | (_, Panic) => False
  end.

Section fine.
Context (n : nat).
Context {A B : Type}.
Implicit Types (R : A → Prop) (Q : B → Prop).

Lemma fine_ret R a : R a → fine n (mret a) R.
Proof. by intros ? d. Qed.
Lemma fine_throw R e : refusal e → fine n (throw e) R.
Proof. intros ? d. split; [done|by left]. Qed.
Lemma fine_bind Q R (m : P B) (k : B → P A) :
  fine n m Q → (∀ b, Q b → fine n (k b) R) → fine n (m ≫= k) R.
Proof.
  intros Hm Hk d. specialize (Hm d). unfold mbind, M_bind. destruct (m d) as [d' [b|e|]]; [|done..].
  destruct Hm as [-> Hb]. by apply Hk.
Qed.
Lemma fine_ret_bind R (b : B) (k : B → P A) : fine n (k b) R → fine n (mret b ≫= k) R.
Proof. done. Qed.
Lemma fine_some_bind R (b : B) (k : B → P A) : fine n (k b) R → fine n (expect (Some b) ≫= k) R.
Proof. done. Qed.
Lemma fine_missing_bind R t (b : B) (k : B → P A) :
  fine n (k b) R → fine n (or_missing t (Some b) ≫= k) R.
Proof. done. Qed.
Lemma fine_assoc {C} R (m : P C) (k : C → P B) (k' : B → P A) :
  fine n (m ≫= λ x, k x ≫= k') R → fine n ((m ≫= k) ≫= k') R.
Proof.
  intros Hf d. specialize (Hf d). unfold mbind, M_bind in *. by destruct (m d) as [? []].
Qed.
Lemma fine_mono R R' (m : P A) : fine n m R → (∀ a, R a → R' a) → fine n m R'.
Proof. intros Hm HR d. specialize (Hm d). destruct (m d) as [d' [a|e|]]; naive_solver. Qed.
Lemma fine_and R R' (m : P A) : fine n m R → fine n m R' → fine n m (λ a, R a ∧ R' a).
Proof. intros H H' d. specialize (H d). specialize (H' d). destruct (m d) as [d' [a|e|]]; naive_solver. Qed.
Lemma fine_expect R o a : o = Some a → R a → fine n (expect o) R.
Proof. by intros -> ? d. Qed.
Lemma fine_some (a : A) : fine n (expect (Some a)) (eq a).
Proof. by intros d. Qed.
Lemma fine_or_missing R m o : is_Some o → (∀ a, o = Some a → R a) → fine n (or_missing m o) R.
Proof. intros [a ->] HR d. split; [done|auto]. Qed.
Lemma fine_lift R (r : Res A) :
  match r with Ok a => R a | Err e => refusal e | Panic => False end → fine n (lift r) R.
Proof. intros H d. unfold lift. destruct r; auto. Qed.
End fine.

Lemma fine_more n n' {A} (m : P A) R : n ≤ n' → fine n m R → fine n' m R.
Proof.
  intros Hn H d. specialize (H d). destruct (m d) as [d' [a|e|]]; [done| |done].
  destruct H as [? [?|[? ?]]]; split; auto. right. split; [lia|done].
Qed.
Lemma fine_guarded n {A} (m : P A) R : fine n m R → fine (S n) (guarded m) R.
Proof.
  intros H d. unfold guarded. destruct (MAX_EXPR_DEPTH <? d + 1)%N eqn:E.
  - apply N.ltb_lt in E. split; [lia|]. right. split; [lia|eauto].
  - specialize (H (d + 1)%N). destruct (m (d + 1)%N) as [d' [a|e|]]; [| |done].
    + destruct H as [-> ?]. split; [lia|done].
    + destruct H as [-> H]. split; [lia|]. destruct H as [?|[? ?]]; [by left|right; split; [lia|done]].
Qed.
Lemma fine_collect n {A} (f : Pair → P A) ps :
  (∀ p, p ∈ ps → fine n (f p) (λ _, True)) →
  fine n (collect_pairs f ps) (λ l, length l = length ps).
Proof.
  induction ps as [|p ps IH]; intros H; cbn [collect_pairs]; [by apply fine_ret|].
  eapply fine_bind; [apply H; left|]. intros a _.
  eapply fine_bind; [apply IH; intros q Hq; apply H; by right|]. intros l Hl.
  apply fine_ret. cbn. by f_equal.
Qed.
(** A loop over pairs that keeps [I], in which the arm of rule [r] establishes [S r], and no
    other arm destroys it. *)
Lemma fine_walk n {St} (I : St → Prop) (S : Rule → St → Prop) step ps st :
  I st →
  (∀ p st, p ∈ ps → I st →
    fine n (step st p) (λ st', I st' ∧ ∀ r, as_rule p = r ∨ S r st → S r st')) →
  fine n (walk step ps st) (λ st', I st' ∧ ∀ p, p ∈ ps → S (as_rule p) st').
Proof.
  intros Hst H.
  cut (fine n (walk step ps st)
    (λ st', I st' ∧ ∀ r, S r st ∨ (∃ p, p ∈ ps ∧ as_rule p = r) → S r st')).
  { intros G. eapply fine_mono; [exact G|]. cbn beta. intros st' [? HS]. split; [done|]. eauto. }
  revert st Hst. induction ps as [|p ps IH]; intros st Hst; cbn [walk].
  - apply fine_ret. split; [done|]. intros r [?|(p & Hp & _)]; [done|by apply not_elem_of_nil in Hp].
  - eapply fine_bind; [apply H; [left|done]|]. intros st1 [H0 H1]. cbn beta in H1.
    eapply fine_mono; [apply IH; [intros q s Hq; apply H; by right|done]|]. cbn beta.
    intros st2 [? H2]. split; [done|]. intros r [Hs|(q & Hq & Eq)]; apply H2.
    + left. apply H1. by right.
    + apply elem_of_cons in Hq as [->|Hq]; [left; apply H1; by left|right; eauto].
Qed.
Lemma fine_walk_any n {St} step ps (st : St) :
  (∀ p st, p ∈ ps → fine n (step st p) (λ _, True)) → fine n (walk step ps st) (λ _, True).
Proof.
  intros H. eapply fine_mono; [apply (fine_walk n (λ _, True) (λ _ _, True))|done]; [done|].
  intros p s Hp _. eapply fine_mono; [by apply H|auto].
Qed.

(** ** Texts of literals *)
Open Scope Z_scope.
(** The number the digits [l] write in a base. *)
Definition digit_value (b : byte) : Z := default 0 (digit_in 36 b).
Definition base_value (radix acc : Z) (l : bytes) : Z :=
  foldl (λ a b, a * radix + digit_value b) acc l.
(** The number a literal writes, of any size. *)
Definition literal_value (s : bytes) : Z :=
  let '(sign, digits) :=
    match bytes_strip_prefix (str_bytes "-") s with Some rest => (-1, rest) | None => (1, s) end in
  sign * match strip_either "0x" "0X" digits with
         | Some hex => base_value 16 0 hex
         | None =>
             match strip_either "0o" "0O" digits with
             | Some oct => base_value 8 0 oct
             | None => base_value 10 0 digits
             end
         end.

Lemma byte_in_true lo hi b : byte_in lo hi b = true ↔ (lo ≤ b2n b ≤ hi)%N.
Proof. unfold byte_in. rewrite andb_true_iff, !N.leb_le. done. Qed.
Lemma digit_in_radix radix b v : radix ≤ 36 → digit_in radix b = Some v → digit_value b = v ∧ 0 ≤ v < radix.
Proof.
  intros Hr. unfold digit_value, digit_in.
  destruct (is_digit b) eqn:E1; [|destruct (byte_in 97 122 b) eqn:E2; [|destruct (byte_in 65 90 b) eqn:E3]].
  all: unfold is_digit in *; rewrite ?byte_in_true in *.
  all: destruct (_ <? radix) eqn:L; [|done]; intros [= <-]; apply Z.ltb_lt in L.
  all: rewrite ?(proj2 (Z.ltb_lt _ _)) by lia; cbn; split; [done|lia].
Qed.
Lemma base_value_ge radix acc l :
  2 ≤ radix ≤ 36 → 0 ≤ acc → Forall (λ b, is_Some (digit_in radix b)) l → acc ≤ base_value radix acc l.
Proof.
  intros Hr Ha F. revert acc Ha. induction F as [|b l [v Hb] F IH]; intros acc Ha; [done|].
  cbn [base_value foldl]. apply digit_in_radix in Hb as [-> ?]; [|lia].
  specialize (IH (acc * radix + v)). unfold base_value in IH. nia.
Qed.
Lemma radix_digits_value radix hi acc l :
  2 ≤ radix ≤ 36 → 0 ≤ acc ≤ hi → Forall (λ b, is_Some (digit_in radix b)) l →
  radix_digits radix hi acc l =
    if hi <? base_value radix acc l then Err PPosOverflow else Ok (base_value radix acc l).
Proof.
  intros Hr Ha F. revert acc Ha. induction F as [|b l [v Hb] F IH]; intros acc Ha; cbn [radix_digits].
  - cbn. by rewrite (proj2 (Z.ltb_ge _ _)) by lia.
  - rewrite Hb. pose proof (digit_in_radix radix b v ltac:(lia) Hb) as [Ev ?].
    pose proof (base_value_ge radix (acc * radix + v) l Hr ltac:(nia) F).
    unfold base_value in *. cbn [foldl]. rewrite Ev. destruct (hi <? acc * radix + v) eqn:L.
    + apply Z.ltb_lt in L. by rewrite (proj2 (Z.ltb_lt _ _)) by lia.
    + apply Z.ltb_ge in L. rewrite IH by nia. done.
Qed.
Lemma from_str_radix_value radix hi l :
  2 ≤ radix ≤ 36 → 0 ≤ hi → l ≠ [] → Forall (λ b, is_Some (digit_in radix b)) l →
  from_str_radix hi radix l =
    if hi <? base_value radix 0 l then Err PPosOverflow else Ok (base_value radix 0 l).
Proof.
  intros Hr Hh Hn F. unfold from_str_radix. destruct l as [|b l]; [done|].
  rewrite decide_False; [by apply radix_digits_value|]. intros ->.
  apply Forall_cons in F as [[v Hv] _]. unfold digit_in in Hv. cbn in Hv.
  destruct (36 <? radix) eqn:L; [apply Z.ltb_lt in L; lia|done].
Qed.
Lemma digit_val_value b : is_digit b = true → digit_value b = digit_val b.
Proof. intros Hb. unfold digit_value, digit_in. rewrite Hb. unfold digit_val. pose proof (digit_val_range b Hb).
  unfold digit_val in *. by rewrite (proj2 (Z.ltb_lt _ _)) by lia. Qed.
Lemma base_value_digits acc l : all_digits l → base_value 10 acc l = digits_val acc l.
Proof.
  intros F. revert acc. induction F as [|b l Hb F IH]; intros acc; [done|].
  unfold base_value, digits_val in *. cbn [foldl]. by rewrite IH, digit_val_value.
Qed.
Lemma parse_digits_plus hi acc l :
  0 ≤ acc ≤ hi → all_digits l →
  parse_digits i64_min hi false acc l =
    if hi <? digits_val acc l then Err PPosOverflow else Ok (digits_val acc l).
Proof.
  intros Ha F. revert acc Ha. induction F as [|b l Hb F IH]; intros acc Ha; cbn [parse_digits].
  - cbn. by rewrite (proj2 (Z.ltb_ge _ _)) by lia.
  - rewrite Hb. pose proof (digit_val_range b Hb).
    pose proof (digits_val_ge (acc * 10 + digit_val b) l F ltac:(lia)).
    rewrite (proj2 (Z.ltb_ge _ _)) by (unfold i64_min; lia).
    unfold digits_val in *. cbn [foldl]. destruct (hi <? acc * 10 + digit_val b) eqn:L.
    + apply Z.ltb_lt in L. by rewrite (proj2 (Z.ltb_lt _ _)) by lia.
    + apply Z.ltb_ge in L. rewrite IH by lia. done.
Qed.
Lemma parse_digits_minus acc l :
  i64_min ≤ - acc ≤ 0 → all_digits l →
  parse_digits i64_min i64_max true (- acc) l =
    if - digits_val acc l <? i64_min then Err PNegOverflow else Ok (- digits_val acc l).
Proof.
  intros Ha F. revert acc Ha. induction F as [|b l Hb F IH]; intros acc Ha; cbn [parse_digits].
  - cbn. by rewrite (proj2 (Z.ltb_ge _ _)) by lia.
  - rewrite Hb. pose proof (digit_val_range b Hb).
    pose proof (digits_val_ge (acc * 10 + digit_val b) l F ltac:(lia)).
    replace (- acc * 10 - digit_val b) with (- (acc * 10 + digit_val b)) by lia.
    unfold digits_val in *. cbn [foldl]. destruct (- (acc * 10 + digit_val b) <? i64_min) eqn:L.
    + apply Z.ltb_lt in L. by rewrite (proj2 (Z.ltb_lt _ _)) by lia.
    + apply Z.ltb_ge in L. rewrite (proj2 (Z.ltb_ge i64_max _)) by (unfold i64_max; lia).
      rewrite IH by lia. done.
Qed.

(** *** What atomic rules match *)
Lemma atomic_skip w : skips InAtomic w → w = [].
Proof. by inversion 1. Qed.
Lemma atomic_seq a b t f :
  derives InAtomic (Seq a b) t f → ∃ t1 t2 f1 f2, t = t1 ++ t2 ∧
    derives InAtomic a t1 f1 ∧ derives InAtomic b t2 f2.
Proof.
  inversion 1 as [| | | | | |? ? ? t1 w t2 f1 f2 D1 S D2| | | | | | | |]; subst.
  apply atomic_skip in S as ->. by exists t1, t2, f1, f2.
Qed.
Lemma derives_alt m a b t f : derives m (Alt a b) t f → derives m a t f ∨ derives m b t f.
Proof. inversion 1; auto. Qed.
Lemma derives_opt m a t f : derives m (Opt a) t f → t = [] ∨ derives m a t f.
Proof. inversion 1; auto. Qed.
Lemma derives_tok m s t f : derives m (Tok s) t f → t = s.
Proof. by inversion 1. Qed.
Lemma atomic_rule r t f :
  derives InAtomic (Nt r) t f → ∃ m f', m ≠ NonAtomic ∧ derives m (body r) t f'.
Proof.
  inversion 1 as [| | | | | | | | | | | | | |? ? ? inside ? D]; subst.
  exists (enter (rule_kind r) InAtomic), inside. split; [by destruct (rule_kind r)|done].
Qed.
Lemma plain_rule r t f :
  rule_kind r = Normal → derives InAtomic (Nt r) t f → ∃ f', derives InAtomic (body r) t f'.
Proof.
  intros Hk. inversion 1 as [| | | | | | | | | | | | | |? ? ? inside ? D]; subst.
  rewrite Hk in D. by exists inside.
Qed.
Lemma ascii_one m c t f : derives m (Ascii c) t f → ∃ b, t = [b] ∧ c b = true.
Proof. inversion 1; subst; eauto. Qed.
Lemma ascii_rep c t f : derives InAtomic (Rep (Ascii c)) t f → Forall (λ b, c b = true) t.
Proof.
  intros D. remember (Rep (Ascii c)) as e eqn:He. remember InAtomic as m eqn:Hm.
  induction D as [| | | | | | | | | | | |m x t1 w t2 f1 f2 D1 _ Hs D2 IH| |]; try done.
  injection He as ->. subst. apply atomic_skip in Hs as ->. apply ascii_one in D1 as (b & -> & Hb).
  constructor; [done|]. by apply IH.
Qed.
Lemma ascii_rep1 c t f :
  derives InAtomic (rep1 (Ascii c)) t f → t ≠ [] ∧ Forall (λ b, c b = true) t.
Proof.
  intros (t1 & t2 & f1 & f2 & -> & (b & -> & Hb)%ascii_one & F%ascii_rep)%atomic_seq.
  split; [done|by constructor].
Qed.

(** *** Integers *)
Definition hex_digit (b : byte) : bool := is_digit b || byte_in 65 70 b || byte_in 97 102 b.
Lemma hex_digit_in b : hex_digit b = true → is_Some (digit_in 16 b).
Proof.
  unfold hex_digit, digit_in, is_digit.
  destruct (byte_in 48 57 b) eqn:E1; [|destruct (byte_in 97 122 b) eqn:E2; [|destruct (byte_in 65 90 b) eqn:E3]];
    intros Hb; rewrite ?orb_true_iff, ?byte_in_true in *.
  - rewrite (proj2 (Z.ltb_lt _ _)) by lia. eauto.
  - rewrite <- not_true_iff_false, ?byte_in_true in E1.
    rewrite (proj2 (Z.ltb_lt _ _)) by lia. eauto.
  - rewrite <- not_true_iff_false, ?byte_in_true in E1, E2.
    rewrite (proj2 (Z.ltb_lt _ _)) by lia. eauto.
  - rewrite <- not_true_iff_false, ?byte_in_true in E1, E2, E3. lia.
Qed.
Lemma octal_digit_in b : byte_in 48 55 b = true → is_Some (digit_in 8 b).
Proof.
  intros Hb. unfold digit_in, is_digit. rewrite byte_in_true in Hb.
  rewrite (proj2 (byte_in_true 48 57 b)) by lia. rewrite (proj2 (Z.ltb_lt _ _)) by lia. eauto.
Qed.

(** The texts the grammar has for integers. *)
Definition unsigned_integer (t : bytes) : Prop :=
  (∃ x h, t = x ++ h ∧ (x = str_bytes "0x" ∨ x = str_bytes "0X") ∧ h ≠ [] ∧
    Forall (λ b, hex_digit b = true) h) ∨
  (∃ x o, t = x ++ o ∧ (x = str_bytes "0o" ∨ x = str_bytes "0O") ∧ o ≠ [] ∧
    Forall (λ b, byte_in 48 55 b = true) o) ∨
  (t ≠ [] ∧ all_digits t).
Lemma integer_texts t f :
  derives InAtomic (body Rule.integer_literal) t f →
  ∃ s u, t = s ++ u ∧ (s = [] ∨ s = str_bytes "-") ∧ unsigned_integer u.
Proof.
  intros (s & u & f1 & f2 & -> & Hs & Hu)%atomic_seq. exists s, u. split; [done|]. split.
  { apply derives_opt in Hs as [->|Hs]; [by left|right; by apply derives_tok in Hs]. }
  apply derives_alt in Hu as [Hu|Hu]; [|apply derives_alt in Hu as [Hu|Hu]].
  - left. apply plain_rule in Hu as [f' Hu]; [|done].
    apply atomic_seq in Hu as (x & h & g1 & g2 & -> & Hx & [? ?]%ascii_rep1). exists x, h.
    split_and!; [done| |done|done]. apply derives_alt in Hx as [Hx|Hx]; apply derives_tok in Hx; auto.
  - right. left. apply plain_rule in Hu as [f' Hu]; [|done].
    apply atomic_seq in Hu as (x & h & g1 & g2 & -> & Hx & [? ?]%ascii_rep1). exists x, h.
    split_and!; [done| |done|done]. apply derives_alt in Hx as [Hx|Hx]; apply derives_tok in Hx; auto.
  - right. right. by apply ascii_rep1 in Hu.
Qed.

(** What reading an integer of value [n] may give. *)
Definition reads_as (n : Z) (r : result string Z) : Prop :=
  match r with
  | Ok v => v = n ∧ in_i64 n
  | Err e => ¬ in_i64 n ∧ e ∈ overflow_texts
  | Panic => False
  end.

Lemma negate_unsigned_value neg v :
  0 ≤ v ≤ u64_max → reads_as (if neg : bool then - v else v) (negate_unsigned v neg).
Proof.
  intros Hv. unfold negate_unsigned, reads_as, in_i64, i64_min, i64_max, u64_max in *. destruct neg.
  - destruct (Z.eqb_spec v (9223372036854775807 + 1)) as [->|Hn]; [lia|].
    destruct (Z.leb_spec v 9223372036854775807); [lia|]. split; [lia|]. set_solver.
  - destruct (Z.leb_spec v 9223372036854775807); [lia|]. split; [lia|]. set_solver.
Qed.
Lemma in_base_value neg radix l :
  2 ≤ radix ≤ 36 → l ≠ [] → Forall (λ b, is_Some (digit_in radix b)) l →
  reads_as (if neg : bool then - base_value radix 0 l else base_value radix 0 l)
    (abs ← map_display (from_str_radix u64_max radix l); negate_unsigned abs neg).
Proof.
  intros Hr Hl F. rewrite from_str_radix_value; [|done|by unfold u64_max|done|done].
  pose proof (base_value_ge radix 0 l Hr ltac:(lia) F).
  destruct (Z.ltb_spec u64_max (base_value radix 0 l)) as [L|L]; cbn.
  - unfold in_i64, i64_min, i64_max, u64_max in *. split; [destruct neg; lia|]. set_solver.
  - by apply negate_unsigned_value.
Qed.
Lemma in_decimal neg l :
  l ≠ [] → all_digits l →
  reads_as (if neg : bool then - base_value 10 0 l else base_value 10 0 l)
    (map_display (parse_i64 (if neg : bool then "-"%byte :: l else l))).
Proof.
  intros Hl F. rewrite base_value_digits by done. unfold parse_i64, parse_int.
  pose proof (digits_val_ge 0 l F ltac:(lia)). destruct neg.
  - rewrite decide_False by done. rewrite (bool_decide_eq_true_2 _ eq_refl). cbn [andb].
    destruct l as [|b l]; [done|]. change 0 with (- 0) at 2.
    rewrite parse_digits_minus by (done || (unfold i64_min; lia)).
    generalize dependent (digits_val 0 (b :: l)). intros v Hv.
    unfold reads_as, in_i64, i64_min, i64_max in *.
    destruct (Z.ltb_spec (- v) (-9223372036854775808)); cbn; [|lia]. split; [lia|set_solver].
  - destruct l as [|b l]; [done|]. inversion F as [|? ? Hb ?]; subst.
    destruct (is_digit_sign b Hb). rewrite decide_False by done.
    rewrite (bool_decide_eq_false_2 (b = _)) by done. cbn [andb].
    rewrite parse_digits_plus by (done || (unfold i64_max; lia)).
    generalize dependent (digits_val 0 (b :: l)). intros v Hv.
    unfold reads_as, in_i64, i64_min, i64_max in *.
    destruct (Z.ltb_spec 9223372036854775807 v); cbn; [|lia]. split; [lia|set_solver].
Qed.

Lemma strip_app p l : bytes_strip_prefix p (p ++ l) = Some l.
Proof. by apply bytes_strip_prefix_spec. Qed.
Lemma strip_either_none a b l :
  (∀ r, l ≠ str_bytes a ++ r) → (∀ r, l ≠ str_bytes b ++ r) → strip_either a b l = None.
Proof.
  intros Ha Hb. unfold strip_either.
  destruct (bytes_strip_prefix (str_bytes a) l) as [r|] eqn:E; [apply bytes_strip_prefix_spec in E; by destruct (Ha r)|].
  destruct (bytes_strip_prefix (str_bytes b) l) as [r|] eqn:E'; [apply bytes_strip_prefix_spec in E'; by destruct (Hb r)|done].
Qed.
Lemma strip_either_some a b x r :
  x = str_bytes a ∨ x = str_bytes b → length (str_bytes a) = length (str_bytes b) →
  strip_either a b (x ++ r) = Some r.
Proof.
  intros Hx Hlen. unfold strip_either. destruct (bytes_strip_prefix (str_bytes a) (x ++ r)) as [r'|] eqn:E.
  - apply bytes_strip_prefix_spec in E. f_equal.
    apply app_inj_1 in E as [_ ->]; [done|]. destruct Hx as [->| ->]; done.
  - destruct Hx as [->| ->]; [by rewrite strip_app in E|apply strip_app].
Qed.
Lemma digits_no_prefix l c a r : all_digits l → is_digit c = false → l ≠ a :: c :: r.
Proof. intros F Hc ->. inversion F as [|? ? ? F']; inversion F'; subst. congruence. Qed.

Lemma unsigned_reads (neg : bool) u :
  unsigned_integer u →
  reads_as
    ((if neg then -1 else 1) *
     match strip_either "0x" "0X" u with
     | Some hex => base_value 16 0 hex
     | None => match strip_either "0o" "0O" u with
               | Some oct => base_value 8 0 oct
               | None => base_value 10 0 u
               end
     end)
    match strip_either "0x" "0X" u with
    | Some hex => abs ← map_display (from_str_radix u64_max 16 hex); negate_unsigned abs neg
    | None =>
        match strip_either "0o" "0O" u with
        | Some oct => abs ← map_display (from_str_radix u64_max 8 oct); negate_unsigned abs neg
        | None => map_display (parse_i64 (if neg then "-"%byte :: u else u))
        end
    end.
Proof.
  assert (∀ v, (if neg then -1 else 1) * v = if neg then - v else v) as Esign by (intros; destruct neg; lia).
  rewrite Esign.
  intros [(x & h & -> & Hx & Hn & F)|[(x & o & -> & Hx & Hn & F)|[Hn F]]].
  - rewrite strip_either_some by done. apply in_base_value; [lia|done|].
    eapply Forall_impl; [exact F|]. apply hex_digit_in.
  - rewrite strip_either_none; [|intros r; by destruct Hx as [->| ->]..].
    rewrite strip_either_some by done. apply in_base_value; [lia|done|].
    eapply Forall_impl; [exact F|]. apply octal_digit_in.
  - rewrite !strip_either_none by (intros r; by apply digits_no_prefix). by apply in_decimal.
Qed.
Lemma unsigned_no_minus u r : unsigned_integer u → u ≠ str_bytes "-" ++ r.
Proof.
  intros [(x & h & -> & [->| ->] & _)|[(x & o & -> & [->| ->] & _)|[Hn F]]] E; try done.
  subst u. by inversion F.
Qed.

(** A literal of the grammar reads as its value, or is out of range. *)
Lemma integer_literal_reads t f :
  derives InAtomic (body Rule.integer_literal) t f →
  reads_as (literal_value t) (parse_integer_literal t).
Proof.
  intros (s & u & -> & Hs & Hu)%integer_texts. unfold literal_value, parse_integer_literal.
  destruct Hs as [->| ->].
  - cbn [app]. destruct (bytes_strip_prefix (str_bytes "-") u) eqn:E.
    + apply bytes_strip_prefix_spec in E. by eapply unsigned_no_minus in E.
    + by apply (unsigned_reads false).
  - rewrite strip_app. by apply (unsigned_reads true).
Qed.

(** *** Floats *)
Definition exponent_text (t : bytes) : Prop :=
  ∃ e s d, t = e :: s ++ d ∧ byte_lower e = "e"%byte ∧
    (s = [] ∨ s = str_bytes "+" ∨ s = str_bytes "-") ∧ d ≠ [] ∧ all_digits d.
Definition unsigned_float (t : bytes) : Prop :=
  (∃ d1 d2 x, t = d1 ++ "."%byte :: d2 ++ x ∧ all_digits d1 ∧ d2 ≠ [] ∧ all_digits d2 ∧
    (x = [] ∨ exponent_text x)) ∨
  (∃ d x, t = d ++ x ∧ d ≠ [] ∧ all_digits d ∧ exponent_text x).
Lemma exponent_texts t f : derives InAtomic Rule.exponent t f → exponent_text t.
Proof.
  intros (f' & D)%plain_rule; [|done].
  apply atomic_seq in D as (e & u & g1 & g2 & -> & He & D).
  apply atomic_seq in D as (s & d & g3 & g4 & -> & Hs & [Hn F]%ascii_rep1).
  apply derives_opt in Hs.
  assert (∃ b, e = [b] ∧ byte_lower b = "e"%byte) as (b & -> & Hb)
    by (apply derives_alt in He as [->%derives_tok| ->%derives_tok]; eauto).
  exists b, s, d. split_and!; [done|done| |done|done].
  destruct Hs as [->|Hs]; [by left|]. apply derives_alt in Hs as [->%derives_tok| ->%derives_tok]; auto.
Qed.
Lemma opt_exponent t f : derives InAtomic (Opt Rule.exponent) t f → t = [] ∨ exponent_text t.
Proof. intros [->|D]%derives_opt; [by left|right]. by eapply exponent_texts. Qed.
Lemma float_texts t f :
  derives InAtomic (body Rule.float_literal) t f →
  ∃ s u, t = s ++ u ∧ (s = [] ∨ s = str_bytes "-") ∧ unsigned_float u.
Proof.
  intros (s & u & f1 & f2 & -> & Hs & Hu)%atomic_seq. exists s, u. split; [done|]. split.
  { apply derives_opt in Hs as [->|Hs]; [by left|right; by apply derives_tok in Hs]. }
  apply derives_alt in Hu as [Hu|Hu]; [|apply derives_alt in Hu as [Hu|Hu]].
  - apply atomic_seq in Hu as (d1 & v & ? & ? & -> & [? F1]%ascii_rep1 & Hu).
    apply atomic_seq in Hu as (p & v' & ? & ? & -> & ->%derives_tok & Hu).
    apply atomic_seq in Hu as (d2 & z & ? & ? & -> & [? F2]%ascii_rep1 & Hx%opt_exponent).
    left. by exists d1, d2, z.
  - apply atomic_seq in Hu as (p & v' & ? & ? & -> & ->%derives_tok & Hu).
    apply atomic_seq in Hu as (d2 & z & ? & ? & -> & [? F2]%ascii_rep1 & Hx%opt_exponent).
    left. exists [], d2, z. split_and!; try done. constructor.
  - apply atomic_seq in Hu as (d & z & ? & ? & -> & [? F]%ascii_rep1 & Hx%exponent_texts).
    right. by exists d, z.
Qed.

Definition no_digit_first (l : bytes) : Prop := match l with b :: _ => is_digit b = false | [] => True end.
Lemma span_digits_app d r : all_digits d → no_digit_first r → span_digits (d ++ r) = (d, r).
Proof.
  intros F Hr. induction F as [|b d Hb F IH]; cbn [app span_digits].
  - destruct r as [|b r]; [done|]. cbn in Hr. cbn. by rewrite Hr.
  - by rewrite Hb, IH.
Qed.
Lemma parse_exponent_some x : x = [] ∨ exponent_text x → is_Some (parse_exponent x) ∧ no_digit_first x.
Proof.
  intros [->|(e & s & d & -> & He & Hs & Hn & F)]; [split; [by eexists|done]|]. split.
  - cbn [parse_exponent]. rewrite decide_True by done.
    assert (span_digits d = (d, [])) as Esp by (rewrite <- (app_nil_r d) at 1; by apply span_digits_app).
    assert (∀ neg : bool, is_Some (let '(d', r) := span_digits d in
      if bool_decide (d' ≠ []) && bool_decide (r = []) then Some (if neg then - digits_int d' else digits_int d')
      else None)) as G.
    { intros neg. rewrite Esp, bool_decide_eq_true_2, bool_decide_eq_true_2 by done. by eexists. }
    destruct Hs as [->|[->| ->]]; cbn [app].
    + destruct d as [|b d]; [done|]. inversion F as [|? ? Hb ?]; subst.
      destruct (is_digit_sign b Hb). rewrite !decide_False by done. apply (G false).
    + apply (G false).
    + apply (G true).
  - cbn. destruct (is_digit e) eqn:E; [|done]. exfalso. unfold is_digit in E. unfold byte_lower in He.
    destruct (byte_in 65 90 e) eqn:E2; rewrite ?byte_in_true in *; [lia|].
    subst e. change (b2n "e"%byte) with 101%N in E. lia.
Qed.
Lemma parse_unsigned_some s u : unsigned_float u → is_Some (parse_unsigned_f64 s u).
Proof.
  intros Hu. assert (∃ b r, u = b :: r ∧ (is_digit b = true ∨ b = "."%byte)) as (b & r & Eu & Hb).
  { destruct Hu as [(d1 & d2 & x & -> & F & _)|(d & x & -> & Hn & F & _)].
    - destruct d1 as [|b d1]; [by exists "."%byte, (d2 ++ x); auto|].
      exists b, (d1 ++ "."%byte :: d2 ++ x). inversion F; auto.
    - destruct d as [|b d]; [done|]. exists b, (d ++ x). inversion F; auto. }
  assert (byte_lower b ≠ "i"%byte ∧ byte_lower b ≠ "n"%byte) as [Hi Hnn].
  { unfold is_digit in Hb. unfold byte_lower. destruct (byte_in 65 90 b) eqn:E.
    - exfalso. destruct Hb as [Hb| ->]; [|by vm_compute in E]. rewrite ?byte_in_true in *. lia.
    - split; intros ->; destruct Hb as [Hb|?]; done. }
  unfold parse_unsigned_f64. rewrite !decide_False; [| |].
  2, 3: rewrite Eu; cbn; intros Hx; naive_solver.
  clear Eu Hb Hi Hnn b r.
  destruct Hu as [(d1 & d2 & x & -> & F1 & Hn & F2 & Hx)|(d & x & -> & Hn & F & Hx)].
  - apply parse_exponent_some in Hx as [[ex Ex] Hd]. rewrite span_digits_app by done.
    rewrite decide_True by done. rewrite span_digits_app by done.
    rewrite bool_decide_eq_false_2 by tauto. rewrite Ex. by eexists.
  - assert (x = [] ∨ exponent_text x) as Hx' by auto.
    apply parse_exponent_some in Hx' as [[ex Ex] Hd]. rewrite span_digits_app by done.
    destruct x as [|e x']; [by destruct Hx as (? & ? & ? & ? & _)|].
    destruct Hx as (e' & s' & d' & Ex' & He & _). injection Ex' as -> _.
    rewrite decide_False by (intros ->; done).
    rewrite bool_decide_eq_false_2 by tauto. rewrite Ex. by eexists.
Qed.
Lemma float_literal_reads t f :
  derives InAtomic (body Rule.float_literal) t f →
  match parse_float_literal t with
  | Ok _ => True
  | Err e => e = GraphError.syntax "floating point value overflow"
  | Panic => False
  end.
Proof.
  intros (s & u & -> & Hs & Hu)%float_texts. unfold parse_float_literal.
  assert (∃ x, parse_f64 (s ++ u) = Ok x) as [x ->].
  { destruct (parse_unsigned_some true u Hu) as [x Hx]. destruct (parse_unsigned_some false u Hu) as [y Hy].
    destruct Hs as [->| ->].
    - cbn [app]. assert (∀ b r, u = b :: r → b ≠ "-"%byte ∧ b ≠ "+"%byte) as Hb.
      { intros b r ->. destruct Hu as [(d1 & d2 & z & E & F & _)|(d & z & E & Hn & F & _)].
        - destruct d1 as [|c d1]; [by simplify_eq/=|]. injection E as -> _.
          inversion F as [|? ? Hc ?]; subst. by destruct (is_digit_sign c Hc).
        - destruct d as [|c d]; [done|]. injection E as -> _.
          inversion F as [|? ? Hc ?]; subst. by destruct (is_digit_sign c Hc). }
      unfold parse_f64. destruct u as [|b u]; [by vm_compute in Hy|]. destruct (Hb b u eq_refl).
      rewrite !decide_False by done. rewrite Hy. by eexists.
    - change (str_bytes "-" ++ u) with ("-"%byte :: u). unfold parse_f64.
      rewrite decide_True by done. rewrite Hx. by eexists. }
  destruct x; done.
Qed.

(** *** Strings *)
(** A string between single quotes, with its quotes and backslashes escaped. *)
Definition escape_char (w : bytes) : bytes :=
  if decide (w = [backslash_byte] ∨ w = [quote_byte] ∨ w = [dquote_byte]) then backslash_byte :: w else w.
Definition escape (s : bytes) : bytes := of_chars (escape_char <$> chars s).
Definition quoted (s : string) : bytes := quote_byte :: escape (str_bytes s) ++ [quote_byte].

Lemma unescape_refuses ws out :
  match unescape_chars ws out with
  | Ok _ => True
  | Err e => ∃ m, e = invalid_unicode m
  | Panic => False
  end.
Proof.
  assert (∀ hex, match unicode_escape hex with
    | Ok _ => True | Err e => ∃ m, e = invalid_unicode m | Panic => False end) as Hu.
  { intros hex. unfold unicode_escape. case_decide; [|eauto].
    destruct (from_str_radix u32_max 16 hex) as [cp|e|]; [destruct (from_u32 cp)|..]; eauto. }
  revert out. induction ws as [ws IH] using (induction_ltof1 _ length). unfold ltof in IH. intros out.
  destruct ws as [|ch ws]; [done|]. cbn [unescape_chars]. case_decide; [|apply IH; cbn; lia].
  destruct ws as [|c ws]; [done|]. destruct (simple_escape c); [apply IH; cbn; lia|].
  case_decide; [|apply IH; cbn; lia].
  assert (∀ hex (k : bytes → Res bytes), (∀ e, match k e with
    | Ok _ => True | Err e => ∃ m, e = invalid_unicode m | Panic => False end) →
    match unicode_escape hex ≫= k with
    | Ok _ => True | Err e => ∃ m, e = invalid_unicode m | Panic => False end) as Hk.
  { intros hex k Hk. specialize (Hu hex). destruct (unicode_escape hex); [apply Hk|done..]. }
  destruct ws as [|h1 [|h2 [|h3 [|h4 ws]]]]; apply Hk; try done. intros e. apply IH. cbn. lia.
Qed.

Lemma unescape_escaped ws out :
  unescape_chars (concat ((λ w, if decide (w = [backslash_byte] ∨ w = [quote_byte] ∨ w = [dquote_byte])
    then [[backslash_byte]; w] else [w]) <$> ws)) out = Ok (out ++ of_chars ws).
Proof.
  revert out. induction ws as [|w ws IH]; intros out; [cbn; by rewrite app_nil_r|].
  rewrite fmap_cons. cbn [concat]. unfold of_chars in *. case_decide as Hw.
  - cbn [app unescape_chars]. rewrite decide_True by done.
    assert (∃ b, w = [b] ∧ simple_escape w = Some b) as (b & -> & ->).
    { destruct Hw as [->|[->| ->]]; eexists; done. }
    rewrite IH. cbn [concat app]. by rewrite <- app_assoc.
  - cbn [app unescape_chars]. rewrite decide_False by (intros ->; tauto).
    rewrite IH. cbn [concat]. by rewrite <- app_assoc.
Qed.
Lemma is_char_single b : utf8_cont b = false → is_char [b].
Proof. by split. Qed.
(** Reading back what was escaped. *)
Lemma unescape_escape s : Forall is_char (chars (str_bytes s)) → unescape_string (bytes_str (escape (str_bytes s))) = Ok s.
Proof.
  intros F. unfold unescape_string, str_chars. rewrite str_bytes_str. unfold escape.
  set (split := λ w : bytes, if decide (w = [backslash_byte] ∨ w = [quote_byte] ∨ w = [dquote_byte])
    then [[backslash_byte]; w] else [w]).
  assert (of_chars (escape_char <$> chars (str_bytes s)) = of_chars (concat (split <$> chars (str_bytes s)))) as ->.
  { unfold of_chars. induction (chars (str_bytes s)) as [|w ws IH]; [done|].
    rewrite !fmap_cons. cbn [concat]. inversion F; subst. rewrite IH by done. rewrite concat_app. f_equal.
    unfold escape_char, split. case_decide; cbn; by rewrite ?app_nil_r. }
  rewrite chars_of_chars.
  - unfold split. rewrite unescape_escaped, of_chars_chars, app_nil_l.
    unfold fmap at 1, result_fmap. by rewrite bytes_str_bytes.
  - apply Forall_concat, Forall_fmap. eapply Forall_impl; [exact F|]. intros w Hw. cbn. unfold split.
    case_decide; repeat constructor; try done.
Qed.
(** The characters of a [String]. *)
Lemma valid_chars s : utf8_valid (str_bytes s) = true → Forall is_char (chars (str_bytes s)).
Proof.
  destruct (str_bytes s) as [|b l]; [constructor|]. intros Hv. apply chars_are_chars.
  destruct (utf8_cont b) eqn:E; [|done]. exfalso. unfold utf8_cont in E.
  change (byte_in 128 191 b = true) in E. rewrite byte_in_true in E. cbn [utf8_valid] in Hv.
  assert (∀ lo hi, (hi < 128)%N ∨ (191 < lo)%N → byte_in lo hi b = false) as G.
  { intros lo hi H. apply not_true_iff_false. rewrite byte_in_true. lia. }
  rewrite (G 0%N 127%N), (G 194%N 223%N), (G 224%N 239%N), (G 240%N 244%N) in Hv by lia.
  by destruct l as [|? [|? [|? ?]]].
Qed.
Open Scope nat_scope.

(** ** The functions are fine on their rules *)
Abbreviation any := (λ _, True).
Create HintDb fine discriminated.

(** The rules [parse_atom_expr] is called on. *)
Definition atom_rules : list Rule :=
  Rule.atom_expr :: default [] (may silent_depth Rule.atom_primary).

Section Bounds.
Context (H n : nat).

(** Trees on which the recursive calls have been dealt with, and those just above. *)
Definition inside (p : Pair) : Prop := good p ∧ height p < H ∧ nesting p ≤ n.
Definition at_most (p : Pair) : Prop := good p ∧ height p ≤ H ∧ nesting p ≤ n.
Lemma kid_inside p c : at_most p → c ∈ into_inner p → inside c.
Proof.
  intros (Hg & Hh & Hn) Hc. split_and!.
  - pose proof (kids_good p Hg) as F. rewrite Forall_forall in F. by apply F.
  - pose proof (height_kid p c Hc). lia.
  - pose proof (nesting_kid p c Hc). lia.
Qed.
Lemma inside_at_most p : inside p → at_most p.
Proof. intros (? & ? & ?). split_and!; [done|lia|done]. Qed.

Lemma kid_at p c r L :
  at_most p → as_rule p = r → remove_dups <$> may silent_depth (body r) = Some L →
  c ∈ into_inner p → inside c ∧ as_rule c ∈ L.
Proof.
  intros Hp <- (L' & Hl & ->)%fmap_Some Hc. split; [by eapply kid_inside|].
  apply elem_of_remove_dups. eapply kid_rule; [apply Hp|done|done].
Qed.
Lemma found_at p r q :
  at_most p → as_rule p = r → rule_kind r = Normal → q ∈ must silent_depth (body r) →
  ∃ c, find_rule q (into_inner p) = Some c ∧ inside c ∧ as_rule c = q.
Proof.
  intros Hp <- Hk Hq. destruct (kid_found p (proj1 Hp) q Hk Hq) as (c & E & Hc & Er).
  exists c. split_and!; [done| |done]. by eapply kid_inside.
Qed.
Lemma has_at p r q :
  at_most p → as_rule p = r → rule_kind r = Normal → q ∈ must silent_depth (body r) →
  ∃ c, c ∈ into_inner p ∧ as_rule c = q.
Proof. intros Hp <- Hk Hq. by apply (kid_of_rule p (proj1 Hp)). Qed.
Lemma sequence_at p r L :
  at_most p → as_rule p = r → rule_kind r ≠ Atomic →
  remove_dups <$> sequences silent_depth (body r) = Some L →
  ∃ qs, qs ∈ L ∧ Forall2 (λ c q, inside c ∧ as_rule c = q) (into_inner p) qs.
Proof.
  intros Hp <- Hk (L' & Hl & ->)%fmap_Some. exists (as_rule <$> into_inner p).
  split; [apply elem_of_remove_dups; by apply kid_sequence; [apply Hp| |]|].
  apply Forall2_fmap_r, Forall_Forall2_diag, Forall_forall. intros c Hc. split; [by eapply kid_inside|done].
Qed.
Lemma of_rule_inside p r c : at_most p → c ∈ of_rule r (into_inner p) → inside c ∧ as_rule c = r.
Proof. intros Hp Hc. apply of_rule_spec in Hc as [Hc E]. split; [by eapply kid_inside|done]. Qed.
End Bounds.

(** Case analysis on membership in a list of rules. *)
Ltac each_rule Hr :=
  lazymatch type of Hr with
  | _ ∈ [] => by apply not_elem_of_nil in Hr
  | _ ∈ _ :: _ => apply elem_of_cons in Hr as [Hr|Hr]; [|each_rule Hr]
  end.
(** The pair [c] inside [p], by its rule. *)
Ltac kid_cases Hp E c Hc :=
  let Hi := fresh "Hi" in let Hr := fresh "Hr" in
  destruct (kid_at _ _ _ _ _ _ Hp E ltac:(vm_compute; reflexivity) Hc) as [Hi Hr];
  each_rule Hr; rewrite ?Hr in *.
Ltac tuples := repeat match goal with st : _ * _ |- _ => destruct st end.
(** The pairs inside [p], by the sequence of their rules. *)
Ltac split_seq F :=
  lazymatch type of F with
  | Forall2 _ _ [] => apply Forall2_nil_inv_r in F
  | Forall2 _ _ (_ :: _) =>
      let c := fresh "c" in let l := fresh "l" in let Hc := fresh "Hi" in let Er := fresh "Hr" in
      apply Forall2_cons_inv_r in F as (c & l & [Hc Er] & F & ?); split_seq F; subst l
  end.
Ltac seq_cases Hp E :=
  let qs := fresh "qs" in let Hq := fresh "Hq" in let F := fresh "F" in
  destruct (sequence_at _ _ _ _ _ Hp E ltac:(done) ltac:(vm_compute; reflexivity)) as (qs & Hq & F);
  each_rule Hq; subst qs; split_seq F;
  repeat match goal with Ei : into_inner _ = _ |- _ => rewrite Ei in *; clear Ei end.
(** What [is_rule] answers on a known rule. *)
Ltac known_rule :=
  repeat match goal with
  | E : as_rule ?c = _ |- context [rule_is _ ?c] => unfold rule_is; rewrite E
  | E : as_rule ?c = _ |- context [as_rule ?c] => rewrite E
  | |- context [bool_decide (?a = ?b :> Rule)] => first
      [ rewrite (bool_decide_eq_true_2 (a = b)) by reflexivity
      | rewrite (bool_decide_eq_false_2 (a = b)) by discriminate ]
  end.
Ltac fine_reduce := cbn beta iota; known_rule; cbn beta iota delta [fst snd head tail walk].
Ltac fine_step :=
  lazymatch goal with
  | |- fine _ (mret _) any => apply fine_ret; exact I
  | |- fine _ (throw _) _ => apply fine_throw; by constructor
  | |- fine _ ((_ ≫= _) ≫= _) _ => apply fine_assoc
  | |- fine _ (mret _ ≫= _) _ => apply fine_ret_bind
  | |- fine _ (expect (Some _) ≫= _) _ => apply fine_some_bind
  | |- fine _ (or_missing _ (Some _) ≫= _) _ => apply fine_missing_bind
  | |- fine _ (_ ≫= _) _ => eapply fine_bind; [solve [eauto with fine]|intros ? _]
  | |- _ => solve [eauto with fine]
  end.
Ltac fine_solve := fine_reduce; repeat (fine_step; fine_reduce).
(** A loop that only has to go through. *)
Ltac fine_loop Hp E :=
  apply fine_walk_any; intros ? ? ?; tuples;
  match goal with c : Pair, Hc : ?c ∈ _ |- _ => kid_cases Hp E c Hc end; fine_solve.

(** [str::to_lowercase] of an ASCII text. *)
Class UnicodeLaws `{Unicode} : Prop :=
  to_lowercase_ascii s : Forall (λ b, (b2n b < 128)%N) (str_bytes s) → to_lowercase s = ascii_lowercase s.
Lemma byte_lower_ascii b : (b2n (byte_lower b) < 128)%N ↔ (b2n b < 128)%N.
Proof.
  unfold byte_lower. destruct (byte_in 65 90 b) eqn:A; [|done].
  apply byte_in_true in A. rewrite b2n_n2b, N.mod_small; lia.
Qed.
Lemma kw_lowercase `{UnicodeLaws} t w :
  Forall (λ b, (b2n b < 128)%N) w → byte_lower <$> t = byte_lower <$> w →
  to_lowercase (bytes_str t) = bytes_str (byte_lower <$> w).
Proof.
  intros F E. rewrite to_lowercase_ascii; unfold ascii_lowercase; rewrite str_bytes_str; [by rewrite E|].
  revert t E. induction F as [|c w Hc F IH]; intros [|b t] E; try done.
  rewrite !fmap_cons in E. injection E as Eb Et. constructor; [|by apply IH].
  apply byte_lower_ascii. rewrite Eb. by apply byte_lower_ascii.
Qed.

Section Fine.
Context {Un : Unicode} {Ul : UnicodeLaws} {Ep : ExprParser} (H n : nat).
Abbreviation inside := (inside H n).
Abbreviation at_most := (at_most H n).
Hypothesis expr_fine : ∀ p, inside p → as_rule p = Rule.expr → fine n (parse_expr p) any.
Hypothesis atom_fine : ∀ p, inside p → as_rule p ∈ atom_rules → fine n (parse_atom_expr p) any.
#[local] Hint Resolve expr_fine atom_fine inside_at_most : fine.

Lemma kid_one p r q :
  at_most p → as_rule p = r → rule_kind r ≠ Atomic → remove_dups <$> sequences silent_depth (body r) = Some [[q]] →
  ∃ c, into_inner p = [c] ∧ inside c ∧ as_rule c = q.
Proof.
  intros Hp E Hk Hs. destruct (sequence_at _ _ _ _ _ Hp E Hk Hs) as (qs & Hq & F).
  apply list_elem_of_singleton in Hq as ->. split_seq F. eauto.
Qed.
Lemma first_at p r q R :
  at_most p → as_rule p = r → rule_kind r ≠ Atomic → remove_dups <$> sequences silent_depth (body r) = Some [[q]] →
  (∀ c, inside c → as_rule c = q → R c) → fine n (first p) R.
Proof.
  intros Hp E Hk Hs HR. destruct (kid_one _ _ _ Hp E Hk Hs) as (c & Ec & Hc & Er).
  unfold first. rewrite Ec. eapply fine_expect; [done|auto].
Qed.

Lemma parse_bool_expr_fine p : at_most p → as_rule p = Rule.bool_expr → fine n (parse_bool_expr p) any.
Proof.
  intros Hp E. unfold parse_bool_expr.
  eapply fine_bind; [eapply (first_at _ _ Rule.expr (λ c, inside c ∧ as_rule c = Rule.expr)); done|].
  intros c [Hc Er]. auto.
Qed.
#[local] Hint Resolve parse_bool_expr_fine : fine.
Lemma parse_where_fine p : at_most p → as_rule p = Rule.where_clause → fine n (parse_where p) any.
Proof.
  intros Hp E. destruct (found_at _ _ _ _ Rule.bool_expr Hp E) as (c & Ec & Hc & Er); [done|set_solver|].
  unfold parse_where. rewrite Ec. fine_solve.
Qed.
#[local] Hint Resolve parse_where_fine : fine.
Lemma parse_property_map_fine p :
  at_most p → as_rule p = Rule.property_map → fine n (parse_property_map p) any.
Proof.
  intros Hp E. unfold parse_property_map. fine_loop Hp E.
  apply inside_at_most in Hi. seq_cases Hi Hr. fine_solve.
Qed.
#[local] Hint Resolve parse_property_map_fine : fine.

(** *** Patterns *)
Lemma parse_node_pattern_fine p :
  at_most p → as_rule p = Rule.node_pattern → fine n (parse_node_pattern p) any.
Proof. intros Hp E. unfold parse_node_pattern. fine_loop Hp E. Qed.
Lemma parse_var_length_bound_fine s : fine n (lift (parse_var_length_bound s)) any.
Proof. apply fine_lift. unfold parse_var_length_bound. destruct (parse_u32 s); try done; constructor. Qed.
#[local] Hint Resolve parse_node_pattern_fine parse_var_length_bound_fine : fine.
Lemma parse_var_length_fine p :
  at_most p → as_rule p = Rule.var_length → fine n (parse_var_length p) any.
Proof.
  intros Hp E. unfold parse_var_length. eapply fine_bind; [|intros; apply fine_ret; exact I].
  fine_loop Hp E. eapply fine_bind; [apply fine_collect; eauto with fine|].
  intros. fine_solve.
Qed.
#[local] Hint Resolve parse_var_length_fine : fine.
Lemma parse_rel_pattern_fine p :
  at_most p → as_rule p = Rule.rel_pattern → fine n (parse_rel_pattern p) any.
Proof.
  intros Hp E. unfold parse_rel_pattern, first. seq_cases Hp E; cbn [head].
  all: apply fine_some_bind; rewrite Hr; apply fine_ret_bind.
  all: apply inside_at_most in Hi; fine_loop Hi Hr.
  all: apply inside_at_most in Hi0; apply fine_walk_any; intros d r Hd; destruct r.
  all: unfold parse_rel_part; kid_cases Hi0 Hr0 d Hd; fine_solve.
Qed.
#[local] Hint Resolve parse_rel_pattern_fine : fine.
Lemma parse_pattern_inner_fine p :
  at_most p → as_rule p = Rule.pattern ∨ as_rule p = Rule.create_pattern ∨ as_rule p = Rule.pattern_predicate →
  fine n (parse_pattern_inner p) any.
Proof.
  intros Hp E. unfold parse_pattern_inner. eapply fine_bind; [|intros; apply fine_ret; exact I].
  destruct E as [E|[E|E]]; fine_loop Hp E.
Qed.
#[local] Hint Resolve parse_pattern_inner_fine : fine.
Lemma parse_pattern_fine p : at_most p → as_rule p = Rule.pattern → fine n (parse_pattern p) any.
Proof. intros. unfold parse_pattern. auto with fine. Qed.
#[local] Hint Resolve parse_pattern_fine : fine.

(** *** Patterns with a name *)
Lemma parse_path_pattern_fine p :
  at_most p → as_rule p = Rule.path_pattern → fine n (parse_path_pattern p) any.
Proof.
  intros Hp E. unfold parse_path_pattern. seq_cases Hp E; fine_solve.
  all: unfold parse_wrapped_pattern.
  all: apply inside_at_most in Hi0; seq_cases Hi0 Hr0; fine_solve.
Qed.
#[local] Hint Resolve parse_path_pattern_fine : fine.
Lemma parse_pattern_item_fine p :
  at_most p → as_rule p = Rule.pattern_item → fine n (parse_pattern_item p) any.
Proof. intros Hp E. unfold parse_pattern_item, first. seq_cases Hp E; fine_solve. Qed.
#[local] Hint Resolve parse_pattern_item_fine : fine.
Lemma collect_fine {A} (f : Pair → P A) q p :
  at_most p → (∀ c, inside c → as_rule c = q → fine n (f c) any) →
  fine n (collect_pairs f (of_rule q (into_inner p))) any.
Proof.
  intros Hp Hf. eapply fine_mono; [apply fine_collect|done].
  intros c Hc. destruct (of_rule_inside _ _ _ _ _ Hp Hc). eauto with fine.
Qed.
#[local] Hint Resolve collect_fine : fine.
Lemma of_rule_nonempty c r ps : c ∈ ps → as_rule c = r → of_rule r ps ≠ [].
Proof.
  intros Hc E. induction ps as [|d ps IH]; [by apply not_elem_of_nil in Hc|]. cbn [of_rule].
  unfold rule_is. case_bool_decide; [done|]. apply elem_of_cons in Hc as [->|Hc]; [done|by apply IH].
Qed.
(** A list of patterns has at least one. *)
Lemma parse_pattern_list_some p :
  at_most p → as_rule p = Rule.pattern_list → fine n (parse_pattern_list p) (λ l, l ≠ []).
Proof.
  intros Hp E. destruct (has_at _ _ _ _ Rule.pattern_item Hp E) as (c & Hc & Er); [done|set_solver|].
  eapply fine_mono; [apply fine_collect|].
  - intros d Hd. destruct (of_rule_inside _ _ _ _ _ Hp Hd). eauto with fine.
  - intros l Hl ->. symmetry in Hl. apply nil_length_inv in Hl. by eapply of_rule_nonempty.
Qed.
Lemma parse_pattern_list_fine p : at_most p → fine n (parse_pattern_list p) any.
Proof. intros Hp. unfold parse_pattern_list. auto with fine. Qed.
#[local] Hint Resolve parse_pattern_list_fine : fine.

(** *** Clauses *)
Lemma parse_skip_fine p : at_most p → as_rule p = Rule.skip_clause → fine n (parse_skip p) any.
Proof.
  intros Hp E. unfold parse_skip.
  destruct (found_at _ _ _ _ Rule.expr Hp E) as (c & Ec & Hc & Er); [done|set_solver|].
  rewrite Ec. fine_solve.
Qed.
Lemma parse_limit_fine p : at_most p → as_rule p = Rule.limit_clause → fine n (parse_limit p) any.
Proof.
  intros Hp E. unfold parse_limit.
  destruct (found_at _ _ _ _ Rule.expr Hp E) as (c & Ec & Hc & Er); [done|set_solver|].
  rewrite Ec. fine_solve.
Qed.
Lemma parse_return_item_fine p :
  at_most p → as_rule p = Rule.return_item → fine n (parse_return_item p) any.
Proof. intros Hp E. unfold parse_return_item. seq_cases Hp E; fine_solve. Qed.
#[local] Hint Resolve parse_skip_fine parse_limit_fine parse_return_item_fine : fine.
Lemma parse_return_items_fine p : at_most p → fine n (parse_return_items p) any.
Proof. intros Hp. unfold parse_return_items. auto with fine. Qed.
#[local] Hint Resolve parse_return_items_fine : fine.
Lemma parse_return_fine p :
  at_most p → as_rule p = Rule.return_clause → fine n (parse_return p) any.
Proof.
  intros Hp E. unfold parse_return.
  destruct (found_at _ _ _ _ Rule.return_items Hp E) as (c & Ec & Hc & Er); [done|set_solver|].
  rewrite Ec. fine_solve.
Qed.
Lemma parse_sort_item_fine p :
  at_most p → as_rule p = Rule.sort_item → fine n (parse_sort_item p) any.
Proof. intros Hp E. unfold parse_sort_item. seq_cases Hp E; fine_solve. Qed.
#[local] Hint Resolve parse_return_fine parse_sort_item_fine : fine.
Lemma parse_order_by_fine p :
  at_most p → as_rule p = Rule.order_by_clause → fine n (parse_order_by p) any.
Proof.
  intros Hp E. unfold parse_order_by.
  destruct (found_at _ _ _ _ Rule.sort_items Hp E) as (c & Ec & Hc & Er); [done|set_solver|].
  rewrite Ec. fine_solve.
Qed.
#[local] Hint Resolve parse_order_by_fine : fine.
Lemma parse_with_fine p : at_most p → as_rule p = Rule.with_clause → fine n (parse_with p) any.
Proof.
  intros Hp E. unfold parse_with. apply fine_walk_any. intros c w Hc. destruct w.
  kid_cases Hp E c Hc; fine_solve.
Qed.
Lemma parse_unwind_clause_fine p :
  at_most p → as_rule p = Rule.unwind_clause ∨ as_rule p = Rule.multi_unwind_clause →
  fine n (parse_unwind_clause p) any.
Proof.
  intros Hp E. unfold parse_unwind_clause. destruct E as [E|E]; seq_cases Hp E; fine_solve.
Qed.
#[local] Hint Resolve parse_with_fine parse_unwind_clause_fine : fine.

(** *** Chains of operators *)
Lemma op_chain_fine o a op operand rest left :
  alternates o a rest → (∀ c, c ∈ rest → as_rule c = a → fine n (operand c) any) →
  fine n (op_chain o op operand left rest) any.
Proof.
  intros Ha. revert left. induction Ha as [|c d rest Ec Ed Ha IH]; intros left Hf; cbn [op_chain].
  - fine_solve.
  - known_rule. eapply fine_bind; [apply Hf; [set_solver|done]|]. intros r _. apply IH.
    intros x Hx. apply Hf. set_solver.
Qed.
Lemma parse_chain_fine p o a op operand :
  good p → (∀ c, c ∈ into_inner p → inside c) → rule_kind (as_rule p) = Normal →
  body (as_rule p) = Seq (Nt a) (Rep (Seq (Nt o) (Nt a))) →
  rule_kind a ≠ Silent → rule_kind o ≠ Silent →
  (∀ c, inside c → as_rule c = a → fine n (operand c) any) →
  fine n (parse_chain o op operand p) any.
Proof.
  intros Hg Hi Hk Hb Ha Ho Hf. destruct (chain_kids p o a) as (c & rest & E & Ec & Hr); [done..|].
  unfold parse_chain. rewrite E in *.
  assert (fine n (left ← operand c; op_chain o op operand left rest) any) as G.
  { eapply fine_bind; [apply Hf; [apply Hi; set_solver|done]|]. intros l _.
    eapply op_chain_fine; [done|]. intros d Hd. apply Hf, Hi. set_solver. }
  destruct rest; [|exact G]. apply Hf; [apply Hi; set_solver|done].
Qed.

Lemma text_chain_fine what op_of o a operand rest left :
  alternates o a rest → (∀ c, c ∈ rest → as_rule c = o → is_Some (op_of (as_str c))) →
  (∀ c, c ∈ rest → as_rule c = a → fine n (operand c) any) →
  fine n (text_chain what op_of operand left rest) any.
Proof.
  intros Ha. revert left. induction Ha as [|c d rest Ec Ed Ha IH]; intros left Ho Hf; cbn [text_chain].
  - fine_solve.
  - destruct (Ho c) as [op ->]; [set_solver|done|].
    eapply fine_bind; [apply Hf; [set_solver|done]|]. intros r _. apply IH; set_solver.
Qed.
Lemma parse_text_chain_fine what op_of p o a operand :
  at_most p → rule_kind (as_rule p) = Normal →
  body (as_rule p) = Seq (Nt a) (Rep (Seq (Nt o) (Nt a))) →
  rule_kind a ≠ Silent → rule_kind o ≠ Silent →
  (∀ c, good c → as_rule c = o → is_Some (op_of (as_str c))) →
  (∀ c, inside c → as_rule c = a → fine n (operand c) any) →
  fine n (parse_text_chain what op_of operand p) any.
Proof.
  intros Hp Hk Hb Ha Ho Hop Hf. destruct (chain_kids p o a) as (c & rest & E & Ec & Hr); [apply Hp|done..|].
  assert (∀ c, c ∈ into_inner p → inside c) as Hi by (intros; by eapply kid_inside).
  unfold parse_text_chain. rewrite E in *.
  assert (fine n (left ← operand c; text_chain what op_of operand left rest) any) as G.
  { eapply fine_bind; [apply Hf; [apply Hi; set_solver|done]|]. intros l _.
    eapply text_chain_fine; [done|..].
    - intros d Hd. apply Hop, Hi. set_solver.
    - intros d Hd. apply Hf, Hi. set_solver. }
  destruct rest; [|exact G]. apply Hf; [apply Hi; set_solver|done].
Qed.

(** The text of a rule that is a choice of tokens. *)
Fixpoint choices (e : peg) : option (list bytes) :=
  match e with
  | Tok t => Some [t]
  | Alt a b => l ← choices a; k ← choices b; Some (l ++ k)
  | _ => None
  end.
Lemma choices_sound m e t f L : choices e = Some L → derives m e t f → t ∈ L.
Proof.
  revert L. induction e; intros L; cbn [choices]; try done.
  - intros [= <-] D. inversion D; subst. by left.
  - intros (l & E1 & (k & E2 & [= <-])%bind_Some)%bind_Some D.
    inversion D; subst; apply elem_of_app; eauto.
Qed.
Lemma text_choice p r L : good p → as_rule p = r → choices (body r) = Some L → text p ∈ L.
Proof. intros (m & _ & D) <- HL. by eapply choices_sound. Qed.

Lemma add_op_text c : good c → as_rule c = Rule.add_op → is_Some (add_op_of (as_str c)).
Proof.
  intros Hg E. pose proof (text_choice c _ _ Hg E eq_refl) as Ht. unfold as_str.
  apply elem_of_cons in Ht as [->|Ht]; [by eexists|].
  apply list_elem_of_singleton in Ht as ->. by eexists.
Qed.
Lemma mul_op_text c : good c → as_rule c = Rule.mul_op → is_Some (mul_op_of (as_str c)).
Proof.
  intros Hg E. pose proof (text_choice c _ _ Hg E eq_refl) as Ht. unfold as_str.
  apply elem_of_cons in Ht as [->|Ht]; [by eexists|].
  apply elem_of_cons in Ht as [->|Ht]; [by eexists|].
  apply list_elem_of_singleton in Ht as ->. by eexists.
Qed.

Lemma atom_expr_fine p : inside p → as_rule p = Rule.atom_expr → fine n (parse_atom_expr p) any.
Proof. intros Hp E. apply atom_fine; [done|]. rewrite E. by left. Qed.
#[local] Hint Resolve atom_expr_fine : fine.
Lemma pow_chain_fine rest left :
  alternates Rule.exp_op Rule.atom_expr rest → (∀ c, c ∈ rest → inside c) →
  fine n (pow_chain left rest) any.
Proof.
  intros Ha. revert left. induction Ha as [|c d rest Ec Ed Ha IH]; intros left Hf; cbn [pow_chain].
  - fine_solve.
  - known_rule. eapply fine_bind; [apply atom_expr_fine; [set_solver|done]|]. intros r _. apply IH.
    intros x Hx. apply Hf. set_solver.
Qed.
Lemma parse_exp_expr_fine p : at_most p → as_rule p = Rule.exp_expr → fine n (parse_exp_expr p) any.
Proof.
  intros Hp E. destruct (chain_kids p Rule.exp_op Rule.atom_expr) as (c & rest & Ei & Ec & Hr);
    [apply Hp|by rewrite E|by rewrite E|done..|].
  assert (∀ c, c ∈ into_inner p → inside c) as Hi by (intros; by eapply kid_inside).
  unfold parse_exp_expr. rewrite Ei in *.
  assert (fine n (left ← parse_atom_expr c; pow_chain left rest) any) as G.
  { eapply fine_bind; [apply atom_expr_fine; [apply Hi; set_solver|done]|]. intros l _.
    apply pow_chain_fine; [done|]. intros d Hd. apply Hi. set_solver. }
  destruct rest; [|exact G]. apply atom_expr_fine; [apply Hi; set_solver|done].
Qed.
#[local] Hint Resolve parse_exp_expr_fine : fine.
Lemma parse_mul_expr_fine p : at_most p → as_rule p = Rule.mul_expr → fine n (parse_mul_expr p) any.
Proof.
  intros Hp E. eapply parse_text_chain_fine; rewrite ?E; try done; [apply mul_op_text|].
  intros. eauto with fine.
Qed.
#[local] Hint Resolve parse_mul_expr_fine : fine.
Lemma parse_add_expr_fine p : at_most p → as_rule p = Rule.add_expr → fine n (parse_add_expr p) any.
Proof.
  intros Hp E. eapply parse_text_chain_fine; rewrite ?E; try done; [apply add_op_text|].
  intros. eauto with fine.
Qed.
#[local] Hint Resolve parse_add_expr_fine : fine.

(** *** Operators of predicates *)
Lemma parse_string_pred_op_fine p :
  at_most p → as_rule p = Rule.string_pred_op → fine n (parse_string_pred_op p) any.
Proof. intros Hp E. unfold parse_string_pred_op, first. seq_cases Hp E; fine_solve. Qed.
Lemma parse_comp_op_fine p : at_most p → as_rule p = Rule.comp_op → fine n (parse_comp_op p) any.
Proof.
  intros Hp E. pose proof (text_choice p _ _ (proj1 Hp) E eq_refl) as Ht.
  unfold parse_comp_op. seq_cases Hp E. 
  repeat (apply elem_of_cons in Ht as [->|Ht]; [apply fine_ret; exact I|]).
  by apply not_elem_of_nil in Ht.
Qed.
#[local] Hint Resolve parse_string_pred_op_fine parse_comp_op_fine : fine.

(** *** CASE and EXISTS *)
Lemma parse_case_expr_fine p : at_most p → as_rule p = Rule.case_expr → fine n (parse_case_expr p) any.
Proof.
  intros Hp E. unfold parse_case_expr.
  eapply fine_bind; [|intros [[]] _; fine_solve]. fine_loop Hp E; unfold first.
  all: apply inside_at_most in Hi; seq_cases Hi Hr; fine_solve.
Qed.
#[local] Hint Resolve parse_case_expr_fine : fine.
Lemma parse_exists_subquery_fine p :
  at_most p → as_rule p = Rule.exists_subquery → fine n (parse_exists_subquery p) any.
Proof.
  intros Hp E. unfold parse_exists_subquery. seq_cases Hp E; cbn [walk]; rewrite Hr; cbn iota.
  all: repeat apply fine_assoc.
  all: eapply fine_bind; [by apply parse_pattern_list_some; [apply inside_at_most|]|intros [|pat ps] Hps; [done|]].
  all: fine_solve.
Qed.


Lemma parse_tail_sets t c :
  at_most c →
  fine n (parse_tail t c)
    (λ t', as_rule c = Rule.return_clause ∨ is_Some (tl_return t) → is_Some (tl_return t')).
Proof.
  intros Hc. destruct t as [rc ob sk lm]. unfold parse_tail.
  destruct (as_rule c) eqn:E; try (apply fine_ret; by intros [|]);
    (eapply fine_bind; [solve [eauto with fine]|intros x _; apply fine_ret; intros [|]; done]).
Qed.
Lemma parse_tail_fine t c : at_most c → fine n (parse_tail t c) any.
Proof. intros Hc. by eapply fine_mono; [apply parse_tail_sets|]. Qed.
#[local] Hint Resolve parse_exists_subquery_fine parse_tail_fine : fine.

Definition exists_inv (st : ExistsVars * Tail Expr) : Prop :=
  ef_first_match st.1 = false → ef_patterns st.1 ≠ [].
Lemma exists_where_vars v w :
  ef_first_match (exists_where v w) = ef_first_match v ∧
  ef_patterns (exists_where v w) = ef_patterns v.
Proof. destruct v as [f ps wh cs]. unfold exists_where. by destruct (last cs) as [[| |[? ? []]]|]. Qed.
Lemma parse_exists_part_fine p c st :
  at_most p → as_rule p = Rule.exists_full_subquery → c ∈ into_inner p → exists_inv st →
  fine n (parse_exists_part st c) (λ st', exists_inv st' ∧
    ∀ r, as_rule c = r ∨ (r = Rule.pattern_list → ef_first_match st.1 = false) →
      r = Rule.pattern_list → ef_first_match st'.1 = false).
Proof.
  intros Hp E Hc HI. unfold parse_exists_part, exists_inv in *. destruct st as [[f ps w cs] t].
  cbn [fst ef_first_match ef_patterns ef_where ef_intermediate] in *. kid_cases Hp E c Hc.
  all: try (apply fine_throw; constructor).
  all: try (eapply fine_bind; [solve [eauto with fine]|intros x _; apply fine_ret; split; [done|naive_solver]]).
  - eapply fine_bind; [by apply parse_pattern_list_some; [apply inside_at_most|]|]. intros l Hl.
    apply fine_ret. destruct f; cbn; naive_solver.
  - eapply fine_bind; [solve [eauto with fine]|intros x _]. apply fine_ret. cbn [fst].
    destruct (exists_where_vars (mkExistsVars f ps w cs) x) as [-> ->]. cbn. naive_solver.
Qed.
Lemma parse_exists_full_subquery_fine p :
  at_most p → as_rule p = Rule.exists_full_subquery → fine n (parse_exists_full_subquery p) any.
Proof.
  intros Hp E. unfold parse_exists_full_subquery.
  destruct (has_at _ _ _ _ Rule.pattern_list Hp E) as (c & Hc & Er); [done|vm_compute; set_solver|].
  eapply fine_bind; [apply (fine_walk n exists_inv
    (λ r st, r = Rule.pattern_list → ef_first_match st.1 = false))|]; [done| |].
  - intros d st Hd HI. by eapply parse_exists_part_fine.
  - intros [v t] [HI HS]. specialize (HS c Hc Er). unfold exists_inv in HI. cbn [fst] in *.
    destruct (ef_patterns v) eqn:Eps; [by destruct (HI HS)|]. fine_solve.
Qed.
#[local] Hint Resolve parse_exists_full_subquery_fine : fine.

(** *** Predicates, comparisons and connectives *)
Lemma parse_cmp_primary_fine p :
  at_most p → as_rule p = Rule.cmp_primary → fine n (parse_cmp_primary p) any.
Proof.
  intros Hp E. unfold parse_cmp_primary, first. seq_cases Hp E; fine_solve.
Qed.
#[local] Hint Resolve parse_cmp_primary_fine : fine.
Lemma parse_predicate_expr_fine p :
  at_most p → as_rule p = Rule.predicate_expr → fine n (parse_predicate_expr p) any.
Proof.
  intros Hp E. unfold parse_predicate_expr. seq_cases Hp E; fine_solve; unfold first.
  - apply inside_at_most in Hi0. seq_cases Hi0 Hr0. cbn [find_rule]. fine_solve.
  - apply inside_at_most in Hi0. seq_cases Hi0 Hr0. fine_solve.
Qed.
#[local] Hint Resolve parse_predicate_expr_fine : fine.

Lemma comparisons_fine rest prev :
  Forall (λ c, inside c ∧ as_rule c = Rule.comp_suffix) rest →
  fine n (comparisons prev rest) (λ l, length l = length rest).
Proof.
  intros F. revert prev. induction F as [|c rest [Hc Er] F IH]; intros prev; cbn [comparisons].
  { by apply fine_ret. }
  apply inside_at_most in Hc. unfold first. seq_cases Hc Er. cbn [head tail].
  apply fine_assoc, fine_some_bind. eapply fine_bind; [solve [eauto with fine]|intros op _].
  apply fine_assoc, fine_some_bind. eapply fine_bind; [solve [eauto with fine]|intros r _].
  eapply fine_bind; [apply IH|]. intros l Hl. apply fine_ret. cbn. by f_equal.
Qed.
(** An operand and a repetition of one rule after it. *)
Lemma head_repeat p a o :
  at_most p → rule_kind (as_rule p) = Normal → body (as_rule p) = Seq (Nt a) (Rep (Nt o)) →
  rule_kind a ≠ Silent → rule_kind o ≠ Silent →
  ∃ c rest, into_inner p = c :: rest ∧ inside c ∧ as_rule c = a ∧
    Forall (λ d, inside d ∧ as_rule d = o) rest.
Proof.
  intros Hp Hk Hb Ha Ho. destruct (proj1 Hp) as (m & Hm & D). rewrite Hk in Hm. cbn in Hm.
  rewrite Hb in D. inversion D as [| | | | | |? ? ? t1 w t2 f1 f2 D1 _ D2| | | | | | | |]; subst.
  apply derives_one in D1 as (c & -> & Ec); [|done..]. exists c, f2.
  assert (Forall (λ d, as_rule d = o) f2) as F.
  { apply Forall_forall. intros d Hd.
    assert (may 1 (Rep (Nt o)) = Some [o]) as Hl by (cbn; by destruct (rule_kind o)).
    by apply (may_sound _ _ _ _ _ _ _ Hl D2), list_elem_of_singleton in Hd. }
  assert (into_inner p = c :: f2) as Ei by done.
  split_and!; [done|eapply kid_inside; [done|]; rewrite Ei; left|done|].
  rewrite Forall_forall in F |- *. intros d Hd. split; [|by apply F].
  eapply kid_inside; [done|]. rewrite Ei. by right.
Qed.
Lemma parse_cmp_or_value_fine p :
  at_most p → as_rule p = Rule.cmp_or_value → fine n (parse_cmp_or_value p) any.
Proof.
  intros Hp E. destruct (head_repeat p Rule.predicate_expr Rule.comp_suffix) as (c & rest & Ei & Hc & Er & F);
    [done|by rewrite E|by rewrite E|done..|].
  unfold parse_cmp_or_value. rewrite Ei. eapply fine_bind; [solve [eauto with fine]|intros e _].
  destruct rest as [|d rest]; [fine_solve|]. eapply fine_bind; [by apply comparisons_fine|].
  intros [|x l] Hl; [done|]. fine_solve.
Qed.
#[local] Hint Resolve parse_cmp_or_value_fine : fine.
Lemma parse_bool_primary_fine p :
  at_most p → as_rule p = Rule.bool_primary → fine n (parse_bool_primary p) any.
Proof. intros Hp E. unfold parse_bool_primary, first. seq_cases Hp E; fine_solve. Qed.
#[local] Hint Resolve parse_bool_primary_fine : fine.
Lemma last_primary l k o c :
  c ∈ l → as_rule c = Rule.bool_primary →
  ∃ k' d, d ∈ l ∧ as_rule d = Rule.bool_primary ∧
  foldl (λ (st : nat * option Pair) inner,
      match as_rule inner with
      | Rule.not_op => (S st.1, st.2)
      | Rule.bool_primary => (st.1, Some inner)
      | _ => st
      end) (k, o) l = (k', Some d).
Proof.
  induction l as [|x l IH] using rev_ind; intros Hc E; [by apply not_elem_of_nil in Hc|].
  rewrite foldl_app. cbn [foldl].
  destruct (decide (as_rule x = Rule.bool_primary)) as [Ex|Ex].
  - rewrite Ex. destruct (foldl _ _ l) as [k' o']. exists k', x. set_solver.
  - apply elem_of_app in Hc as [Hc|Hc]; [|apply list_elem_of_singleton in Hc; congruence].
    destruct (IH Hc E) as (k' & d & Hd & Ed & ->).
    destruct (decide (as_rule x = Rule.not_op)) as [Ex'|Ex'].
    + rewrite Ex'. exists (S k'), d. set_solver.
    + exists k', d. split_and!; [set_solver|done|]. destruct (as_rule x); done.
Qed.
Lemma parse_bool_factor_fine p :
  at_most p → as_rule p = Rule.bool_factor → fine n (parse_bool_factor p) any.
Proof.
  intros Hp E. destruct (has_at _ _ _ _ Rule.bool_primary Hp E) as (c & Hc & Er); [done|set_solver|].
  unfold parse_bool_factor. destruct (last_primary (into_inner p) 0 None c) as (k & d & Hd & Ed & ->); [done..|].
  pose proof (kid_inside _ _ _ _ Hp Hd). apply fine_assoc, fine_some_bind.
  eapply fine_bind; [solve [eauto with fine]|intros e _]. fine_solve.
Qed.
#[local] Hint Resolve parse_bool_factor_fine : fine.
Lemma parse_bool_term_fine p :
  at_most p → as_rule p = Rule.bool_term → fine n (parse_bool_term p) any.
Proof.
  intros Hp E. eapply parse_chain_fine; rewrite ?E; try done; [apply Hp| |eauto with fine].
  intros. by eapply kid_inside.
Qed.
#[local] Hint Resolve parse_bool_term_fine : fine.
Lemma parse_xor_term_fine p :
  at_most p → as_rule p = Rule.xor_term → fine n (parse_xor_term p) any.
Proof.
  intros Hp E. eapply parse_chain_fine; rewrite ?E; try done; [apply Hp| |eauto with fine].
  intros. by eapply kid_inside.
Qed.
#[local] Hint Resolve parse_xor_term_fine : fine.
Lemma expr_step_fine p :
  good p → as_rule p = Rule.expr → (∀ c, c ∈ into_inner p → inside c) → fine (S n) (expr_step p) any.
Proof.
  intros Hp E Hi. apply fine_guarded. eapply parse_chain_fine; rewrite ?E; try done. eauto with fine.
Qed.

(** *** Calls *)
Lemma parse_function_args_fine st p :
  at_most p → as_rule p = Rule.function_args → fine n (parse_function_args st p) any.
Proof. intros Hp E. unfold parse_function_args. fine_loop Hp E. Qed.
#[local] Hint Resolve parse_function_args_fine : fine.
Lemma parse_named_call_fine name name_text p :
  at_most p → fine n (parse_named_call name name_text p) any.
Proof.
  intros Hp. unfold parse_named_call. apply fine_walk_any. intros c st Hc.
  pose proof (kid_inside _ _ _ _ Hp Hc) as Hi. unfold rule_is. case_bool_decide; [fine_solve|].
  case_bool_decide; fine_solve.
Qed.
#[local] Hint Resolve parse_named_call_fine : fine.

(** *** Literals *)
Lemma atomic_body p r :
  good p → as_rule p = r → rule_kind r = Atomic → derives InAtomic (body r) (text p) (into_inner p).
Proof. intros (m & Hm & D) <- Hk. rewrite Hk in Hm. cbn in Hm. by subst. Qed.
Lemma parse_literal_fine p : at_most p → as_rule p = Rule.literal → fine n (parse_literal p) any.
Proof.
  intros Hp E. unfold parse_literal, first. seq_cases Hp E; fine_solve.
  - pose proof (float_literal_reads _ _ (atomic_body _ _ (proj1 Hi) Hr eq_refl)) as Hf.
    eapply (fine_bind _ any); [|intros; fine_solve]. apply fine_lift.
    destruct (parse_float_literal (text c)); [done|subst; constructor|done].
  - pose proof (integer_literal_reads _ _ (atomic_body _ _ (proj1 Hi) Hr eq_refl)) as Hf.
    destruct (parse_integer_literal (text c)); [fine_solve| |done].
    apply fine_throw. constructor. apply Hf.
  - apply inside_at_most in Hi. seq_cases Hi Hr; cbn [head]; apply fine_some_bind.
    all: apply inside_at_most in Hi0; seq_cases Hi0 Hr0; cbn [head]; apply fine_some_bind.
    all: eapply (fine_bind _ any); [|intros; fine_solve]; apply fine_lift; unfold unescape_string.
    all: pose proof (unescape_refuses (str_chars (as_str c1)) []) as Hu.
    all: destruct (unescape_chars _ _); [done|destruct Hu as [? ->]; constructor|done].
Qed.
#[local] Hint Resolve parse_literal_fine : fine.

(** *** Comprehensions and quantifiers *)
Lemma parse_list_comprehension_fine p :
  at_most p → as_rule p = Rule.list_comprehension → fine n (parse_list_comprehension p) any.
Proof.
  intros Hp E. unfold parse_list_comprehension. seq_cases Hp E; fine_solve; unfold first.
  all: repeat match goal with
    | Hi : inside ?c, Hr : as_rule ?c = Rule.list_comp_where |- _ =>
        apply inside_at_most in Hi; seq_cases Hi Hr; clear Hr
    | Hi : inside ?c, Hr : as_rule ?c = Rule.list_comp_map |- _ =>
        apply inside_at_most in Hi; seq_cases Hi Hr; clear Hr
    end; fine_solve.
Qed.
Lemma parse_pattern_comprehension_fine p :
  at_most p → as_rule p = Rule.pattern_comprehension → fine n (parse_pattern_comprehension p) any.
Proof. intros Hp E. unfold parse_pattern_comprehension. seq_cases Hp E; fine_solve. Qed.
Lemma quantifier_kind_some p :
  good p → as_rule p = Rule.quantifier_name → fine n (quantifier_kind (to_lowercase (as_str p))) any.
Proof.
  intros Hg E. pose proof (atomic_body _ _ Hg E eq_refl) as D.
  apply atomic_seq in D as (t1 & t2 & f1 & f2 & Et & D1 & D2). inversion D2; subst t2.
  unfold as_str. rewrite Et, app_nil_r.
  repeat (apply derives_alt in D1 as [D1|D1]; [|]); inversion D1; subst.
  all: match goal with Hk : _ <$> _ = _ <$> ?w |- _ =>
    rewrite (kw_lowercase _ w) by first [exact Hk|repeat constructor] end.
  all: apply fine_ret; exact I.
Qed.
#[local] Hint Resolve parse_list_comprehension_fine parse_pattern_comprehension_fine : fine.
Lemma parse_quantifier_expr_fine p :
  at_most p → as_rule p = Rule.quantifier_expr → fine n (parse_quantifier_expr p) any.
Proof.
  intros Hp E. unfold parse_quantifier_expr. seq_cases Hp E; fine_reduce; fine_reduce.
  repeat lazymatch goal with |- fine _ ((_ ≫= _) ≫= _) _ => apply fine_assoc end.
  eapply (fine_bind _ any); [by apply quantifier_kind_some; [apply Hi|]|intros k _].
  fine_solve.
Qed.
#[local] Hint Resolve parse_quantifier_expr_fine : fine.

(** *** Atoms *)
Lemma parse_subscript_fine base p :
  at_most p → as_rule p = Rule.subscript → fine n (parse_subscript base p) any.
Proof.
  intros Hp E. unfold parse_subscript, first. seq_cases Hp E.
  cbn [head]. apply fine_assoc, fine_some_bind.
  apply inside_at_most in Hi. seq_cases Hi Hr; fine_solve.
  all: apply inside_at_most in Hi0; seq_cases Hi0 Hr0; cbn [of_rule find_rule]; fine_solve.
Qed.
#[local] Hint Resolve parse_subscript_fine : fine.
Lemma parse_postfix_fine e p :
  inside p → as_rule p = Rule.subscript ∨ as_rule p = Rule.dot_access → fine n (parse_postfix e p) any.
Proof.
  intros Hp [E|E]; unfold parse_postfix, first.
  - fine_solve.
  - apply inside_at_most in Hp. seq_cases Hp E. fine_solve.
Qed.
Lemma parse_map_pair_fine pairs p :
  at_most p → as_rule p = Rule.map_pair → fine n (parse_map_pair pairs p) any.
Proof. intros Hp E. unfold parse_map_pair. seq_cases Hp E. fine_solve. Qed.
#[local] Hint Resolve parse_map_pair_fine : fine.
(** An atom, then subscripts and properties. *)
Lemma atom_kids p :
  at_most p → as_rule p = Rule.atom_expr →
  ∃ c rest, into_inner p = c :: rest ∧ inside c ∧ as_rule c ∈ atom_rules ∧
    Forall (λ d, inside d ∧ (as_rule d = Rule.subscript ∨ as_rule d = Rule.dot_access)) rest.
Proof.
  intros Hp E. destruct (proj1 Hp) as (m & Hm & D). rewrite E in *. cbn in Hm.
  inversion D as [| | | | | |? a b t1 w t2 f1 f2 D1 _ D2| | | | | | | |]; subst.
  assert (∃ c, f1 = [c] ∧ as_rule c ∈ atom_rules) as (c & -> & Ec).
  { destruct (sequences silent_depth Rule.atom_primary) as [L|] eqn:HL; [|by vm_compute in HL].
    pose proof (sequences_sound _ _ _ _ _ _ HL D1 Hm) as Hs. vm_compute in HL. injection HL as <-.
    repeat (apply elem_of_cons in Hs as [Hs|Hs]; [destruct f1 as [|c [|]]; try discriminate Hs;
      injection Hs as Hs; exists c; split; [done|rewrite Hs; vm_compute; set_solver]|]).
    by apply not_elem_of_nil in Hs. }
  assert (∀ c', c' ∈ [c] ++ f2 → inside c') as Hi by (intros c' Hc; eapply kid_inside; [done|congruence]).
  exists c, f2. split_and!; [done|apply Hi; set_solver|done|].
  apply Forall_forall. intros d Hd. split; [apply Hi; set_solver|].
  assert (may silent_depth (Rep (Alt Rule.subscript Rule.dot_access)) = Some [Rule.subscript; Rule.dot_access])
    as Hl by done.
  pose proof (may_sound _ _ _ _ _ _ _ Hl D2 Hd). set_solver.
Qed.
#[local] Hint Resolve parse_postfix_fine : fine.
Lemma atom_step_fine p :
  at_most p → as_rule p ∈ atom_rules → (as_rule p = Rule.expr → fine n (parse_expr p) any) →
  fine n (atom_step p) any.
Proof.
  intros Hp E Hx. pose proof E as E'. let l := eval vm_compute in atom_rules in change (as_rule p ∈ l) in E'.
  unfold atom_step. each_rule E'; rewrite E'.
  all: try solve [auto with fine].
  { destruct (atom_kids p Hp E') as (c & rest & -> & Hc & Ec & F).
    eapply fine_bind; [auto with fine|intros e _]. apply fine_walk_any. intros d x Hd.
    rewrite Forall_forall in F. apply F in Hd as [? ?]. auto with fine. }
  all: unfold first, parse_dotted_function_call, parse_function_call, parse_unknown_function_call.
  all: try solve [fine_solve].
  all: try solve [seq_cases Hp E'; fine_solve].
  eapply (fine_bind _ any); [fine_loop Hp E'|intros; fine_solve].
Qed.
End Fine.

(** ** The knot *)
(** [2 * height p] calls are enough for an expression, one more for an atom. *)
Lemma expr_parser_fine `{UnicodeLaws} k : ∀ p n, good p → nesting p ≤ n →
  (as_rule p = Rule.expr → 2 * height p ≤ k → fine n (@parse_expr (expr_parser k) p) any) ∧
  (as_rule p ∈ atom_rules → 2 * height p < k → fine n (@parse_atom_expr (expr_parser k) p) any).
Proof.
  induction k as [|k IH]; intros p n Hg Hn.
  { assert (0 < height p) by (destruct p; cbn [height]; lia). split; intros; exfalso; lia. }
  assert (∀ h m c, inside h m c → 2 * h ≤ S k → as_rule c = Rule.expr →
    fine m (@parse_expr (expr_parser k) c) any) as He.
  { intros h m c (Hgc & Hh & Hm) Hk Er. apply (IH c m Hgc Hm); [done|lia]. }
  assert (∀ h m c, inside h m c → 2 * h ≤ S k → as_rule c ∈ atom_rules →
    fine m (@parse_atom_expr (expr_parser k) c) any) as Ha.
  { intros h m c (Hgc & Hh & Hm) Hk Er. apply (IH c m Hgc Hm); [done|lia]. }
  split; intros E Hk; cbn [expr_parser parse_expr parse_atom_expr].
  - destruct n as [|n].
    { exfalso. destruct p; cbn [as_rule nesting] in *. rewrite decide_True in Hn by done. lia. }
    apply (expr_step_fine (height p)); [intros; eapply He; [done|lia|done]|intros; eapply Ha; [done|lia|done]|done..|].
    intros c Hc. split_and!.
    + pose proof (kids_good p Hg) as F. rewrite Forall_forall in F. by apply F.
    + by apply height_kid.
    + pose proof (nesting_expr p c E Hc). lia.
  - apply (atom_step_fine (height p)); [intros; eapply He; [done|lia|done]|intros; eapply Ha; [done|lia|done]|done..|].
    + intros Ex. apply (IH p n Hg Hn); [done|lia].
Qed.
