(* ===== verification/Parsing.v ===== *)
(** * What the parser answers: src/src/cypher/parser

    The functions on statements are [fine] like those of ParseSpec, so [parse] ends, does not
    panic, leaves the depth counter alone and refuses only for the reasons listed.  The checks on
    the text before pest are exact, integer literals are their values, and quoted strings are
    read back. *)
From S2P Require Export ParseSpec.
Open Scope nat_scope.

Section Statements.
Context {Un : Unicode} {Ul : UnicodeLaws} {Ep : ExprParser} (H n : nat).
Abbreviation inside := (inside H n).
Abbreviation at_most := (at_most H n).
Hypothesis expr_fine : ∀ p, inside p → as_rule p = Rule.expr → fine n (parse_expr p) any.
Hypothesis atom_fine : ∀ p, inside p → as_rule p ∈ atom_rules → fine n (parse_atom_expr p) any.
#[local] Hint Resolve expr_fine atom_fine inside_at_most parse_where_fine parse_pattern_list_fine
  parse_pattern_inner_fine parse_pattern_item_fine parse_with_fine parse_unwind_clause_fine
  parse_tail_fine collect_fine : fine.

(** ** Statements are fine *)
(** *** Parts *)
Lemma parse_optional_match_clause_fine p :
  at_most p → as_rule p = Rule.optional_match_clause → fine n (parse_optional_match_clause p) any.
Proof. intros Hp E. unfold parse_optional_match_clause. fine_loop Hp E. Qed.
#[local] Hint Resolve parse_optional_match_clause_fine : fine.
Lemma parse_match_part_fine p :
  at_most p → as_rule p = Rule.match_part ∨ as_rule p = Rule.multi_match_clause →
  fine n (parse_match_part p) any.
Proof.
  intros Hp E. unfold parse_match_part. apply fine_walk_any. intros c [] Hc.
  destruct E as [E|E]; kid_cases Hp E c Hc; fine_solve.
Qed.
#[local] Hint Resolve parse_match_part_fine : fine.
Lemma parse_with_arm_fine r p :
  at_most p → as_rule p = Rule.with_clause → fine n (parse_with_arm r p) any.
Proof. intros Hp E. unfold parse_with_arm. fine_solve. Qed.
Lemma parse_match_arm_fine r p :
  at_most p → as_rule p = Rule.match_part → fine n (parse_match_arm r p) any.
Proof. intros Hp E. unfold parse_match_arm. fine_solve. Qed.
Lemma parse_unwind_arm_fine r p :
  at_most p → as_rule p = Rule.unwind_clause → fine n (parse_unwind_arm r p) any.
Proof. intros Hp E. unfold parse_unwind_arm. fine_solve. Qed.
Lemma parse_patterns_arm_fine r p :
  at_most p → as_rule p = Rule.pattern_list → fine n (parse_patterns_arm r p) any.
Proof. intros Hp E. unfold parse_patterns_arm. fine_solve. Qed.
Lemma parse_optional_arm_fine r p :
  at_most p → as_rule p = Rule.optional_match_clause → fine n (parse_optional_arm r p) any.
Proof. intros Hp E. unfold parse_optional_arm. fine_solve. Qed.
Lemma parse_where_arm_fine r p :
  at_most p → as_rule p = Rule.where_clause → fine n (parse_where_arm r p) any.
Proof. intros Hp E. unfold parse_where_arm. fine_solve. Qed.
#[local] Hint Resolve parse_with_arm_fine parse_match_arm_fine parse_unwind_arm_fine parse_patterns_arm_fine parse_optional_arm_fine parse_where_arm_fine : fine.
Lemma parse_create_patterns_fine ps p : at_most p → fine n (parse_create_patterns ps p) any.
Proof.
  intros Hp. unfold parse_create_patterns. eapply (fine_bind _ any); [|intros; fine_solve].
  eapply collect_fine; [done|]. intros. eauto 10 with fine.
Qed.
Lemma parse_delete_exprs_fine es p : at_most p → fine n (parse_delete_exprs es p) any.
Proof.
  intros Hp. unfold parse_delete_exprs. eapply (fine_bind _ any); [|intros; fine_solve].
  eapply collect_fine; [done|]. eauto with fine.
Qed.
#[local] Hint Resolve parse_create_patterns_fine parse_delete_exprs_fine : fine.

(** *** SET and REMOVE items *)
Lemma parse_variable_value_fine p :
  at_most p → as_rule p = Rule.set_map_merge ∨ as_rule p = Rule.set_map →
  fine n (parse_variable_value p) any.
Proof. intros Hp E. unfold parse_variable_value. destruct E as [E|E]; seq_cases Hp E; fine_solve. Qed.
Lemma parse_assignment_fine p :
  at_most p → as_rule p = Rule.assignment → fine n (parse_assignment p) any.
Proof.
  intros Hp E. unfold parse_assignment. seq_cases Hp E.
  all: cbn [head]; apply fine_assoc, fine_some_bind; eapply fine_bind; [solve [eauto with fine]|intros v _].
  all: apply inside_at_most in Hi; seq_cases Hi Hr; fine_solve.
  match goal with |- context [expr_kind ?e] => destruct (expr_kind e) end;
    first [fine_solve; fail|apply fine_throw; constructor].
Qed.
#[local] Hint Resolve parse_variable_value_fine parse_assignment_fine : fine.
Lemma parse_set_item_fine p :
  at_most p → as_rule p = Rule.set_item → fine n (parse_set_item p) any.
Proof.
  intros Hp E. unfold parse_set_item, first. seq_cases Hp E; fine_solve.
  destruct (labelled_variable _). fine_solve.
Qed.
#[local] Hint Resolve parse_set_item_fine : fine.
Lemma parse_set_item_list_fine p : at_most p → fine n (parse_set_item_list p) any.
Proof. intros Hp. unfold parse_set_item_list. eapply collect_fine; [done|]. eauto with fine. Qed.
#[local] Hint Resolve parse_set_item_list_fine : fine.
Lemma parse_set_items_of_fine items p : at_most p → fine n (parse_set_items_of items p) any.
Proof.
  intros Hp. unfold parse_set_items_of. apply fine_walk_any. intros c st Hc.
  pose proof (kid_inside _ _ _ _ Hp Hc). destruct (rule_is _ c); fine_solve.
Qed.
Lemma parse_remove_item_fine p :
  at_most p → as_rule p = Rule.remove_item → fine n (parse_remove_item p) any.
Proof.
  intros Hp E. unfold parse_remove_item, first. seq_cases Hp E; cbn [head]; apply fine_some_bind; rewrite Hr.
  all: apply inside_at_most in Hi; seq_cases Hi Hr; fine_solve.
  - destruct (labelled_variable _). fine_solve.
  - apply inside_at_most in Hi0. seq_cases Hi0 Hr0. fine_solve.
Qed.
#[local] Hint Resolve parse_set_items_of_fine parse_remove_item_fine : fine.
Lemma parse_remove_item_list_fine p : at_most p → fine n (parse_remove_item_list p) any.
Proof. intros Hp. unfold parse_remove_item_list. eapply collect_fine; [done|]. eauto with fine. Qed.
#[local] Hint Resolve parse_remove_item_list_fine : fine.

(** *** Statements that read *)
(** A loop that has seen the clause RETURN has its items. *)
Lemma walk_returns {St} (tl : St → Tail Expr) step p r st :
  at_most p → as_rule p = r → rule_kind r = Normal → Rule.return_clause ∈ must silent_depth (body r) →
  (∀ c st, c ∈ into_inner p → fine n (step st c)
    (λ st', as_rule c = Rule.return_clause ∨ is_Some (tl_return (tl st)) → is_Some (tl_return (tl st')))) →
  fine n (walk step (into_inner p) st) (λ st', is_Some (tl_return (tl st'))).
Proof.
  intros Hp E Hk Hm Hs. destruct (has_at _ _ _ _ _ Hp E Hk Hm) as (c & Hc & Er).
  eapply fine_mono; [apply (fine_walk n any (λ q st, q = Rule.return_clause → is_Some (tl_return (tl st))))|].
  - done.
  - intros d s Hd _. eapply fine_mono; [by apply Hs|]. cbn beta. intros s' HR. split; [done|].
    intros q [Hq|Hq] Eq; apply HR; [left; congruence|right; auto].
  - cbn beta. intros s' [_ HS]. by apply (HS c).
Qed.
(** The arms of such a loop: those of the tail, and those that keep it. *)
Ltac tail_kept Ht := cbn [fst snd]; intros [?|?]; apply Ht; [left; congruence|by right].
Ltac returns_arms :=
  repeat lazymatch goal with
  | |- fine _ (if ?b then _ else _) _ => destruct b
  | |- fine _ (mret _) _ => apply fine_ret; cbn [fst snd]; intros [|]; [discriminate|assumption]
  | |- fine _ (parse_tail _ _) _ =>
      let Ht := fresh "Ht" in
      eapply fine_mono; [eapply parse_tail_sets; eauto with fine|intros ? Ht; tail_kept Ht]
  | |- fine _ (parse_tail _ _ ≫= _) _ =>
      let Ht := fresh "Ht" in
      eapply fine_bind; [eapply parse_tail_sets; eauto with fine|intros ? Ht; apply fine_ret; tail_kept Ht]
  | |- fine _ ((_ ≫= _) ≫= _) _ => apply fine_assoc
  | |- fine _ (_ ≫= _) _ => eapply fine_bind; [solve [eauto with fine]|intros ? _]
  end.
Ltac returns_loop Hp E :=
  let c := fresh "c" in let st := fresh "st" in let Hc := fresh "Hc" in
  intros c st Hc; tuples; kid_cases Hp E c Hc; cbn beta iota; known_rule; cbn [fst snd]; returns_arms.

Lemma parse_match_fine p : at_most p → as_rule p = Rule.match_stmt → fine n (parse_match p) any.
Proof.
  intros Hp E. unfold parse_match.
  eapply fine_bind; [apply (walk_returns snd _ p _ _ Hp E)|]; [done|vm_compute; set_solver| |].
  - returns_loop Hp E.
  - intros [[f r] t] [rc Hrc]. cbn [snd] in Hrc. rewrite Hrc. fine_solve.
Qed.

Lemma parse_clause_arms_sets st c :
  at_most c →
  fine n (parse_clause_arms st c)
    (λ st', as_rule c = Rule.return_clause ∨ is_Some (tl_return st.2) → is_Some (tl_return st'.2)).
Proof.
  intros Hc. destruct st as [r t]. unfold parse_clause_arms. destruct (as_rule c) eqn:E; returns_arms.
Qed.
Lemma parse_clause_arms_fine st c : at_most c → fine n (parse_clause_arms st c) any.
Proof. intros Hc. by eapply fine_mono; [apply parse_clause_arms_sets|]. Qed.
#[local] Hint Resolve parse_clause_arms_fine : fine.
Lemma parse_with_stmt_fine p : at_most p → as_rule p = Rule.with_stmt → fine n (parse_with_stmt p) any.
Proof.
  intros Hp E. unfold parse_with_stmt.
  eapply fine_bind; [apply (walk_returns snd _ p _ _ Hp E)|]; [done|vm_compute; set_solver| |].
  - intros c st Hc. apply parse_clause_arms_sets. apply inside_at_most. by eapply kid_inside.
  - intros [r t] [rc Hrc]. cbn [snd] in Hrc. rewrite Hrc. fine_solve.
Qed.
Lemma parse_return_stmt_fine p :
  at_most p → as_rule p = Rule.return_stmt → fine n (parse_return_stmt p) any.
Proof.
  intros Hp E. unfold parse_return_stmt.
  eapply fine_bind; [apply (walk_returns id _ p _ _ Hp E)|]; [done|vm_compute; set_solver| |].
  - intros c st Hc. eapply parse_tail_sets; [done..|]. apply inside_at_most. by eapply kid_inside.
  - intros t [rc Hrc]. cbn [id] in Hrc. rewrite Hrc. fine_solve.
Qed.
Lemma parse_unwind_return_fine p :
  at_most p → as_rule p = Rule.unwind_return → fine n (parse_unwind_return p) any.
Proof.
  intros Hp E. unfold parse_unwind_return.
  eapply fine_bind; [apply (walk_returns snd _ p _ _ Hp E)|]; [done|vm_compute; set_solver| |].
  - intros c st Hc. pose proof (kid_inside _ _ _ _ Hp Hc) as Hi. unfold rule_is. case_bool_decide as Ec.
    + returns_arms. apply fine_ret. cbn [snd]. intros [?|?]; [congruence|done].
    + apply parse_clause_arms_sets. by apply inside_at_most.
  - intros [r t] [rc Hrc]. cbn [snd] in Hrc. rewrite Hrc. fine_solve.
Qed.
Lemma parse_unwind_create_fine p :
  at_most p → as_rule p = Rule.unwind_create → fine n (parse_unwind_create p) any.
Proof.
  intros Hp E. unfold parse_unwind_create. eapply (fine_bind _ any).
  - apply fine_walk_any. intros c st Hc. pose proof (kid_inside _ _ _ _ Hp Hc) as Hi.
    destruct (rule_is _ c); fine_solve.
  - intros [ps [r t]] _. fine_solve.
Qed.
#[local] Hint Resolve parse_unwind_return_fine parse_unwind_create_fine : fine.
Lemma parse_unwind_fine p : at_most p → as_rule p = Rule.unwind_stmt → fine n (parse_unwind p) any.
Proof. intros Hp E. unfold parse_unwind. seq_cases Hp E; fine_solve. Qed.

(** *** Statements that write *)
Lemma parse_create_fine p : at_most p → as_rule p = Rule.create_stmt → fine n (parse_create p) any.
Proof.
  intros Hp E. unfold parse_create. eapply (fine_bind _ any); [fine_loop Hp E|intros; fine_solve].
Qed.
Lemma parse_match_create_fine p :
  at_most p → as_rule p = Rule.match_create_stmt → fine n (parse_match_create p) any.
Proof.
  intros Hp E. unfold parse_match_create.
  eapply (fine_bind _ any); [fine_loop Hp E|intros [[r ps] t] _; fine_solve].
Qed.
Lemma parse_delete_fine p : at_most p → as_rule p = Rule.delete_stmt → fine n (parse_delete p) any.
Proof.
  intros Hp E. unfold parse_delete.
  eapply (fine_bind _ any); [fine_loop Hp E|intros [[[r ps] es] t] _; fine_solve].
Qed.
Lemma parse_set_fine p : at_most p → as_rule p = Rule.set_stmt → fine n (parse_set p) any.
Proof.
  intros Hp E. unfold parse_set. eapply (fine_bind _ any); [|intros [[r items] t] _; fine_solve].
  apply fine_walk_any. intros c [[r items] t] Hc. kid_cases Hp E c Hc; destruct (bool_decide (is_Some items)); fine_solve.
Qed.
Lemma parse_remove_fine p : at_most p → as_rule p = Rule.remove_stmt → fine n (parse_remove p) any.
Proof.
  intros Hp E. unfold parse_remove.
  eapply (fine_bind _ any); [fine_loop Hp E|intros [[r ps] t] _; fine_solve].
Qed.

(** A MERGE has its pattern once its pair has been seen. *)
Definition merge_seen (v : MergeVars) : Prop := is_Some v.1.1.
Lemma parse_merge_arms_sets v c :
  at_most c →
  fine n (parse_merge_arms v c) (λ v', as_rule c = Rule.pattern_item ∨ merge_seen v → merge_seen v').
Proof.
  intros Hc. destruct v as [[pat oc] om]. unfold parse_merge_arms, merge_seen.
  destruct (as_rule c) eqn:E; try (apply fine_ret; by intros [|]);
    (eapply fine_bind; [solve [eauto with fine]|intros x _; apply fine_ret; intros [|]; done]).
Qed.
Lemma parse_merge_fine p : at_most p → as_rule p = Rule.merge_stmt → fine n (parse_merge p) any.
Proof.
  intros Hp E. unfold parse_merge.
  destruct (has_at _ _ _ _ Rule.pattern_item Hp E) as (c & Hc & Er); [done|vm_compute; set_solver|].
  eapply fine_bind; [apply (fine_walk n any (λ q st, q = Rule.pattern_item → merge_seen st.1))|]; [done| |].
  - intros d st Hd _. pose proof (kid_inside _ _ _ _ Hp Hd) as Hi.
    eapply fine_bind; [apply parse_merge_arms_sets; by apply inside_at_most|]. intros v Hv.
    eapply fine_bind; [eauto with fine|]. intros t _. apply fine_ret. split; [done|].
    intros q [Hq|Hq] Eq; apply Hv; [left; congruence|right; auto].
  - cbn beta. intros [[[pat oc] om] t] [_ HS]. destruct (HS c Hc Er) as [x Hx]. cbn in Hx. subst pat.
    fine_solve.
Qed.
Lemma parse_match_merge_fine p :
  at_most p → as_rule p = Rule.match_merge_stmt → fine n (parse_match_merge p) any.
Proof.
  intros Hp E. unfold parse_match_merge.
  destruct (has_at _ _ _ _ Rule.pattern_item Hp E) as (c & Hc & Er); [done|vm_compute; set_solver|].
  eapply fine_bind; [apply (fine_walk n any (λ q st, q = Rule.pattern_item → merge_seen st.1.2))|]; [done| |].
  - intros d [[r v] t] Hd _. kid_cases Hp E d Hd; cbn [fst snd].
    all: try (eapply fine_bind; [solve [eauto with fine]|]; intros x _; apply fine_ret; split; [done|];
      intros q [Hq|Hq] Eq; [congruence|auto]).
    all: (eapply fine_bind; [apply parse_merge_arms_sets; by apply inside_at_most|]; intros v' Hv;
      eapply fine_bind; [eauto with fine|]; intros t' _; apply fine_ret; split; [done|];
      intros q [Hq|Hq] Eq; apply Hv; [left; congruence|right; auto]).
  - cbn beta. intros [[r [[pat oc] om]] t] [_ HS]. destruct (HS c Hc Er) as [x Hx]. cbn in Hx. subst pat.
    fine_solve.
Qed.
Lemma parse_merge_arms_fine v c : at_most c → fine n (parse_merge_arms v c) any.
Proof. intros Hc. by eapply fine_mono; [apply parse_merge_arms_sets|]. Qed.
#[local] Hint Resolve parse_merge_arms_fine : fine.

(** *** CALL *)
Lemma parse_yield_item_fine p :
  at_most p → as_rule p = Rule.yield_item → fine n (parse_yield_item p) any.
Proof. intros Hp E. unfold parse_yield_item. seq_cases Hp E; fine_solve. Qed.
#[local] Hint Resolve parse_yield_item_fine : fine.
Lemma parse_yield_clause_fine p :
  at_most p → as_rule p = Rule.yield_clause → fine n (parse_yield_clause p) any.
Proof. intros Hp E. unfold parse_yield_clause. fine_loop Hp E. Qed.
#[local] Hint Resolve parse_yield_clause_fine : fine.
Lemma parse_call_arms_fine v c : inside c → fine n (parse_call_arms v c) any.
Proof.
  intros Hc. destruct v as [[name args] ys]. unfold parse_call_arms.
  destruct (as_rule c) eqn:E; fine_solve.
Qed.
#[local] Hint Resolve parse_call_arms_fine : fine.
Lemma parse_call_fine p : at_most p → as_rule p = Rule.call_stmt → fine n (parse_call p) any.
Proof.
  intros Hp E. unfold parse_call. eapply (fine_bind _ any).
  - apply fine_walk_any. intros c st Hc. pose proof (kid_inside _ _ _ _ Hp Hc). fine_solve.
  - intros [[[name args] [yi ys]] t] _. fine_solve.
Qed.
Lemma parse_multi_call_clause_fine p :
  at_most p → as_rule p = Rule.multi_call_clause → fine n (parse_multi_call_clause p) any.
Proof.
  intros Hp E. unfold parse_multi_call_clause. eapply (fine_bind _ any).
  - apply fine_walk_any. intros c st Hc. pose proof (kid_inside _ _ _ _ Hp Hc). fine_solve.
  - intros [[name args] [yi ys]] _. fine_solve.
Qed.

(** *** Sequences of clauses *)
Lemma parse_multi_create_clause_fine p :
  at_most p → as_rule p = Rule.multi_create_clause → fine n (parse_multi_create_clause p) any.
Proof.
  intros Hp E. unfold parse_multi_create_clause.
  eapply (fine_bind _ any); [fine_loop Hp E|intros; fine_solve].
Qed.
Lemma parse_multi_delete_clause_fine p :
  at_most p → as_rule p = Rule.multi_delete_clause → fine n (parse_multi_delete_clause p) any.
Proof.
  intros Hp E. unfold parse_multi_delete_clause.
  eapply (fine_bind _ any); [fine_loop Hp E|intros; fine_solve].
Qed.
Lemma parse_multi_remove_clause_fine p :
  at_most p → as_rule p = Rule.multi_remove_clause → fine n (parse_multi_remove_clause p) any.
Proof.
  intros Hp E. unfold parse_multi_remove_clause.
  eapply (fine_bind _ any); [fine_loop Hp E|intros; fine_solve].
Qed.
Lemma parse_multi_merge_clause_fine p :
  at_most p → as_rule p = Rule.multi_merge_clause → fine n (parse_multi_merge_clause p) any.
Proof.
  intros Hp E. unfold parse_multi_merge_clause. eapply (fine_bind _ any).
  - apply fine_walk_any. intros c st Hc. pose proof (kid_inside _ _ _ _ Hp Hc). fine_solve.
  - intros [[pat oc] om] _. fine_solve.
Qed.
#[local] Hint Resolve parse_multi_call_clause_fine parse_multi_create_clause_fine
  parse_multi_delete_clause_fine parse_multi_remove_clause_fine parse_multi_merge_clause_fine : fine.
Lemma parse_multi_clause_fine p :
  at_most p → as_rule p = Rule.multi_clause_stmt → fine n (parse_multi_clause p) any.
Proof.
  intros Hp E. unfold parse_multi_clause. eapply (fine_bind _ any); [|intros; fine_solve].
  apply fine_walk_any. intros c [cs t] Hc. unfold parse_multi_part. kid_cases Hp E c Hc; fine_solve.
Qed.

(** *** Indexes *)
Lemma parse_index_fine verb make p r :
  at_most p → as_rule p = r → rule_kind r = Normal →
  Rule.symbolic_name ∈ must silent_depth (body r) → Rule.ident ∈ must silent_depth (body r) →
  fine n (parse_index verb make p) any.
Proof.
  intros Hp E Hk Hs Hi. destruct (has_at _ _ _ _ _ Hp E Hk Hs) as (c & Hc & Ec).
  destruct (has_at _ _ _ _ _ Hp E Hk Hi) as (d & Hd & Ed).
  unfold parse_index. destruct (into_inner p) as [|x [|y l]]; [by apply not_elem_of_nil in Hc| |].
  - apply list_elem_of_singleton in Hc as ->. apply list_elem_of_singleton in Hd as ->. congruence.
  - cbn. fine_solve.
Qed.
Lemma parse_create_index_fine p :
  at_most p → as_rule p = Rule.create_index_stmt → fine n (parse_create_index p) any.
Proof. intros Hp E. eapply parse_index_fine; [done..|vm_compute; set_solver|vm_compute; set_solver]. Qed.
Lemma parse_drop_index_fine p :
  at_most p → as_rule p = Rule.drop_index_stmt → fine n (parse_drop_index p) any.
Proof. intros Hp E. eapply parse_index_fine; [done..|vm_compute; set_solver|vm_compute; set_solver]. Qed.
#[local] Hint Resolve parse_match_fine parse_with_stmt_fine parse_return_stmt_fine parse_unwind_fine
  parse_create_fine parse_match_create_fine parse_match_merge_fine parse_delete_fine parse_set_fine
  parse_remove_fine parse_merge_fine parse_call_fine parse_multi_clause_fine parse_create_index_fine
  parse_drop_index_fine : fine.

(** *** EXPLAIN, one statement, UNION *)
Lemma parse_explain_fine p :
  at_most p → as_rule p = Rule.explain_stmt → fine n (parse_explain p) any.
Proof.
  intros Hp E. unfold parse_explain. seq_cases Hp E; cbn [head ok_or].
  all: eapply fine_bind; [by apply (fine_lift _ (eq c))|]; intros ? <-; fine_solve.
Qed.
#[local] Hint Resolve parse_explain_fine : fine.
Definition statement_rules : list Rule := default [] (may silent_depth (body Rule.single_stmt)).
Lemma parse_single_stmt_fine p :
  at_most p → as_rule p ∈ statement_rules → fine n (parse_single_stmt p) any.
Proof.
  intros Hp E. let l := eval vm_compute in statement_rules in change (as_rule p ∈ l) in E.
  unfold parse_single_stmt. each_rule E; rewrite E; fine_solve.
Qed.
Lemma parse_union_stmt_fine p :
  at_most p → as_rule p = Rule.union_stmt → fine n (parse_union_stmt p) any.
Proof.
  intros Hp E. unfold parse_union_stmt. eapply (fine_bind _ any).
  - apply fine_walk_any. intros c [[ss al] pl] Hc. unfold parse_union_part. kid_cases Hp E c Hc.
    + destruct (str_contains _ _); fine_solve.
    + apply inside_at_most in Hi. unfold first. seq_cases Hi Hr; cbn [head].
      all: apply fine_assoc, fine_some_bind.
      all: eapply (fine_bind _ any); [|intros; fine_solve].
      all: apply parse_single_stmt_fine; [by apply inside_at_most|]; match goal with
        E : as_rule ?c = _ |- as_rule ?c ∈ _ => rewrite E end; vm_compute; set_solver.
  - intros [[ss al] pl] _. destruct ss as [|s [|s' ss]]; [|fine_solve|]; destruct (al && pl); fine_solve.
Qed.
End Statements.

(** ** The whole text *)
Lemma whole_pair t ps :
  derives NonAtomic (Nt Rule.statement) t ps → ∃ p, ps = [p] ∧ good p ∧ as_rule p = Rule.statement.
Proof.
  intros D. pose proof (derives_good _ _ _ _ D) as F.
  apply derives_one in D as (p & -> & E); [|done..]. rewrite Forall_singleton in F. eauto.
Qed.
Lemma parse_pairs_fine `{UnicodeLaws} t ps :
  derives NonAtomic (Nt Rule.statement) t ps → fine (max_list_with nesting ps) (parse_pairs ps) any.
Proof.
  intros D. destruct (whole_pair t ps D) as (p & -> & Hg & E). unfold parse_pairs. cbn [head max_list_with].
  apply fine_some_bind. rewrite Nat.max_0_r.
  destruct (found_at (S (height p)) (nesting p) p Rule.statement Rule.union_stmt) as (u & Eu & Hu & Er);
    [|done|done|vm_compute; set_solver|]; [split_and!; [done|lia|lia]|].
  rewrite Eu. eapply fine_bind; [by apply (fine_lift _ (eq u))|]. intros ? <-. destruct Hu as (Hgu & _ & Hnu).
  apply (parse_union_stmt_fine (S (height u)) (nesting p)).
  - intros c (Hc & Hh & Hn) Ec. apply (expr_parser_fine (calls_for u) c (nesting p) Hc Hn); [done|].
    unfold calls_for. lia.
  - intros c (Hc & Hh & Hn) Ec. apply (expr_parser_fine (calls_for u) c (nesting p) Hc Hn); [done|].
    unfold calls_for. lia.
  - split_and!; [done|lia|done].
  - done.
Qed.

(** ** The text before pest *)
(** The inside of a string between quotes [q]. *)
Inductive string_body (q : byte) : bytes → Prop :=
| sb_nil : string_body q []
| sb_plain b l : b ≠ q → b ≠ backslash_byte → string_body q l → string_body q (b :: l)
| sb_escaped b l : string_body q l → string_body q (backslash_byte :: b :: l).
Definition at_line_end (l : bytes) : Prop := match l with b :: _ => b = newline_byte | [] => True end.
(** [l], with [k] after it, as strings, comments and code, of which [code] is the code. *)
Inductive tokens (k : bytes) : bytes → bytes → Prop :=
| tk_nil : tokens k [] []
| tk_string q body l code :
    is_quote q = true → string_body q body → tokens k l code → tokens k (q :: body ++ q :: l) code
| tk_comment body l code :
    newline_byte ∉ body → at_line_end (l ++ k) → tokens k l code →
    tokens k (slash_byte :: slash_byte :: body ++ l) code
| tk_code b l code :
    is_quote b = false → starts_comment (b :: l ++ k) = false → tokens k l code →
    tokens k (b :: l) (b :: code).
(** How the brackets change the depth, and the deepest place. *)
Definition bracket (d : N) (b : byte) : N :=
  if opens b then (d + 1)%N else if closes b then (d - 1)%N else d.
Fixpoint deepest (d : N) (code : bytes) : N :=
  match code with [] => d | b :: code' => N.max d (deepest (bracket d b) code') end.

Lemma to_quote_found q l r : to_quote q l = r → r ≠ [] →
  ∃ body rest, l = body ++ q :: rest ∧ string_body q body ∧ r = q :: rest.
Proof.
  revert r. induction l as [l IH] using (induction_ltof1 _ length). unfold ltof in IH. intros r.
  destruct l as [|b l]; cbn [to_quote]; [by intros <-|]. case_decide as E.
  { intros <- _. subst b. exists [], l. split_and!; [done|constructor|done]. }
  case_decide as E'.
  - subst b. destruct l as [|b l]; [by intros <-|]. intros Hr Hn.
    destruct (IH l ltac:(cbn; lia) r Hr Hn) as (body & rest & -> & Hb & ->).
    exists (backslash_byte :: b :: body), rest. split_and!; [done|by constructor|done].
  - intros Hr Hn. destruct (IH l ltac:(cbn; lia) r Hr Hn) as (body & rest & -> & Hb & ->).
    exists (b :: body), rest. split_and!; [done|by constructor|done].
Qed.
Lemma to_quote_body q body rest : q ≠ backslash_byte → string_body q body → to_quote q (body ++ q :: rest) = q :: rest.
Proof.
  intros Hq. induction 1 as [|b l Hb Hb' _ IH|b l _ IH]; cbn [app to_quote].
  - by rewrite decide_True.
  - by rewrite !decide_False.
  - by rewrite decide_False, decide_True.
Qed.
Lemma quote_not_backslash q : is_quote q = true → q ≠ backslash_byte.
Proof. intros Hq ->. by vm_compute in Hq. Qed.
Lemma to_newline_spec l : ∃ body, l = body ++ to_newline l ∧ newline_byte ∉ body ∧ at_line_end (to_newline l).
Proof.
  induction l as [|b l (body & E & Hb & Ha)]; cbn [to_newline]; [by exists []; set_solver|].
  case_decide as Eb; [by exists []; set_solver|].
  exists (b :: body). split_and!; [by rewrite E at 1|set_solver|done].
Qed.
Lemma to_newline_body body l : newline_byte ∉ body → at_line_end l → to_newline (body ++ l) = l.
Proof.
  intros Hb Hl. induction body as [|b body IH]; cbn [app].
  - destruct l as [|b l]; [done|]. cbn in Hl. cbn [to_newline]. by rewrite decide_True.
  - cbn [to_newline]. rewrite decide_False by set_solver. apply IH. set_solver.
Qed.
Lemma starts_comment_inv l : starts_comment l = true → ∃ l', l = slash_byte :: slash_byte :: l'.
Proof. destruct l as [|b [|c l]]; try done. cbn. intros E%bool_decide_eq_true. destruct E as [-> ->]. eauto. Qed.

Lemma brackets_from_tokens fuel l code d mx :
  tokens [] l code → length l < fuel → (d ≤ mx ≤ MAX_EXPR_DEPTH)%N →
  brackets_from fuel l d mx =
    if (MAX_EXPR_DEPTH <? deepest d code)%N
    then Err (nested_too_deep "bracket nesting depth" (MAX_EXPR_DEPTH + 1)) else Ok ().
Proof.
  intros T. revert fuel d mx.
  induction T as [|q body l code Hq Hb T IH|body l code Hb Ha T IH|b l code Hq Hc T IH]; intros [|fuel] d mx Hf Hd;
    try (exfalso; cbn in Hf; lia); cbn [brackets_from].
  - cbn [deepest]. by rewrite (proj2 (N.ltb_ge _ _)) by lia.
  - rewrite Hq, to_quote_body by (done || by apply quote_not_backslash). apply IH; [|done].
    cbn in Hf. rewrite length_app in Hf. cbn in Hf. lia.
  - change (is_quote slash_byte) with false. change (starts_comment (slash_byte :: slash_byte :: body ++ l)) with true.
    change (slash_byte :: slash_byte :: body ++ l) with ((slash_byte :: slash_byte :: body) ++ l) in *.
    cbv iota. rewrite app_nil_r in Ha. rewrite to_newline_body; [|set_solver|done]. apply IH; [|done].
    rewrite length_app in Hf. cbn in Hf. lia.
  - rewrite app_nil_r in Hc. rewrite Hq, Hc. cbn in Hf. cbn [deepest]. unfold bracket. destruct (opens b).
    + destruct (mx <? d + 1)%N eqn:L; [apply N.ltb_lt in L|apply N.ltb_ge in L].
      * destruct (MAX_EXPR_DEPTH <? d + 1)%N eqn:L'; [apply N.ltb_lt in L'|apply N.ltb_ge in L'].
        -- assert (d + 1 = MAX_EXPR_DEPTH + 1)%N as -> by lia.
           rewrite (proj2 (N.ltb_lt _ _)); [done|]. destruct code; cbn [deepest]; lia.
        -- rewrite IH by lia. by rewrite N.max_r by (destruct code; cbn [deepest]; lia).
      * rewrite (proj2 (N.ltb_ge MAX_EXPR_DEPTH mx)) by lia. rewrite IH by lia.
        by rewrite N.max_r by (destruct code; cbn [deepest]; lia).
    + assert (MAX_EXPR_DEPTH <? N.max d (deepest (if closes b then d - 1 else d) code) =
        (MAX_EXPR_DEPTH <? deepest (if closes b then d - 1 else d) code))%N as ->.
      { apply eq_true_iff_eq. rewrite !N.ltb_lt. lia. }
      destruct (closes b); apply IH; lia.
Qed.
Lemma unclosed_from_spec fuel input l :
  length l < fuel →
  match unclosed_from fuel input l with
  | Ok _ => ∃ code, tokens [] l code
  | Err e => ∃ pre q rest code, l = pre ++ q :: rest ∧ tokens (q :: rest) pre code ∧ is_quote q = true ∧
      (∀ body after, rest = body ++ q :: after → ¬ string_body q body) ∧
      e = unclosed_string input (length input - length (q :: rest)) q
  | Panic => False
  end.
Proof.
  revert l. induction fuel as [|fuel IH]; intros l Hf; [lia|]. destruct l as [|b l]; cbn [unclosed_from].
  { exists []. constructor. }
  cbn in Hf. destruct (is_quote b) eqn:Hq.
  - destruct (to_quote b l) as [|c r] eqn:Ht.
    + exists [], b, l, []. split_and!; [done|constructor|done| |done].
      intros body after -> Hb. rewrite to_quote_body in Ht by (done || by apply quote_not_backslash). done.
    + destruct (to_quote_found _ _ _ Ht) as (body & rest & -> & Hb & E); [done|]. injection E as -> ->.
      rewrite length_app in Hf. cbn in Hf. specialize (IH rest ltac:(lia)).
      destruct (unclosed_from fuel input rest) as [[]|e|]; [|
        |done].
      * destruct IH as [code T]. exists code. by constructor.
      * destruct IH as (pre & q & rest' & code & -> & T & ?). exists (b :: body ++ b :: pre), q, rest', code.
        split_and!; [by rewrite <- app_comm_cons, <- app_assoc|by constructor|naive_solver..].
  - destruct (starts_comment (b :: l)) eqn:Hc.
    + apply starts_comment_inv in Hc as [l' E]. injection E as -> ->.
      destruct (to_newline_spec l') as (body & E & Hb & Ha).
      assert (to_newline (slash_byte :: slash_byte :: l') = to_newline l') as -> by done.
      set (r := to_newline l') in *. clearbody r. subst l'. cbn in Hf. rewrite length_app in Hf. specialize (IH r ltac:(lia)).
      destruct (unclosed_from fuel input r) as [[]|e|]; [| |done].
      * destruct IH as [code T]. exists code. constructor; [done|by rewrite app_nil_r|done].
      * destruct IH as (pre & q & rest' & code & -> & T & ?). exists (slash_byte :: slash_byte :: body ++ pre), q, rest', code.
        split_and!; [by rewrite <- !app_comm_cons, <- app_assoc|by constructor|naive_solver..].
    + specialize (IH l ltac:(lia)). destruct (unclosed_from fuel input l) as [[]|e|]; [| |done].
      * destruct IH as [code T]. exists (b :: code). constructor; [done|by rewrite app_nil_r|done].
      * destruct IH as (pre & q & rest' & code & -> & T & ?). exists (b :: pre), q, rest', (b :: code).
        split_and!; [done|by constructor|naive_solver..].
Qed.
Lemma unclosed_from_tokens fuel input l code :
  tokens [] l code → length l < fuel → unclosed_from fuel input l = Ok ().
Proof.
  intros T. revert fuel.
  induction T as [|q body l code Hq Hb T IH|body l code Hb Ha T IH|b l code Hq Hc T IH]; intros [|fuel] Hf;
    try (exfalso; cbn in Hf; lia); cbn [unclosed_from]; [done|..].
  - rewrite Hq, to_quote_body by (done || by apply quote_not_backslash). apply IH.
    cbn in Hf. rewrite length_app in Hf. cbn in Hf. lia.
  - change (is_quote slash_byte) with false. change (starts_comment (slash_byte :: slash_byte :: body ++ l)) with true.
    change (slash_byte :: slash_byte :: body ++ l) with ((slash_byte :: slash_byte :: body) ++ l) in *.
    cbv iota. rewrite app_nil_r in Ha. rewrite to_newline_body; [|set_solver|done]. apply IH.
    rewrite length_app in Hf. cbn in Hf. lia.
  - rewrite app_nil_r in Hc. rewrite Hq, Hc. apply IH. cbn in Hf. lia.
Qed.

(** *** The checks before pest *)
Lemma unclosed_from_no_panic k input l : unclosed_from k input l ≠ Panic.
Proof.
  revert l. induction k as [|k IH]; intros l; [done|]. destruct l as [|b l]; [done|]. cbn [unclosed_from].
  destruct (is_quote b); [by destruct (to_quote b l)|]. destruct (starts_comment _); apply IH.
Qed.
Lemma brackets_from_no_panic k l depth max_depth : brackets_from k l depth max_depth ≠ Panic.
Proof.
  revert l depth max_depth. induction k as [|k IH]; intros l depth mx; [done|]. destruct l as [|b l]; [done|].
  cbn [brackets_from]. destruct (is_quote b); [by destruct (to_quote b l)|].
  destruct (starts_comment _); [apply IH|]. destruct (opens b); [case_match; [done|apply IH]|].
  destruct (closes b); apply IH.
Qed.

(** ** Theorems *)
Definition too_long (input : string) : GraphError :=
  GraphError.SizeLimit "Cypher query" MAX_QUERY_BYTES (N.of_nat (str_len input))
    (Some "split the query into smaller statements").
Definition pest_refusal `{Pest} (e : pest_error) : GraphError :=
  GraphError.Query (QueryError.SyntaxError Parse ErrorCode.UnexpectedSyntax
    (humanize_pest_error e) None (Some (pest_span e))).

(** C7: [parse] ends, within the calls it is given, and never panics.  A text it refuses is too
    long, leaves a string open, nests brackets or expressions too deeply, is refused by pest, or
    has one of the errors of [refusal]; the last and the nesting of expressions are met only
    when pest has accepted the text, and an expression is too deep only when more than
    [MAX_EXPR_DEPTH] of them lie in each other. *)
Theorem parse_answers `{UnicodeLaws} `{PestLaws} input :
  match parse input with
  | Ok _ =>
      (N.of_nat (str_len input) ≤ MAX_QUERY_BYTES)%N ∧ ∃ ps, pest_parse Rule.statement input = inr ps
  | Err e =>
      (MAX_QUERY_BYTES < N.of_nat (str_len input))%N ∧ e = too_long input ∨
      check_unclosed_string (str_bytes input) = Err e ∨
      check_bracket_depth (str_bytes input) = Err e ∨
      (∃ pe, pest_parse Rule.statement input = inl pe ∧ e = pest_refusal pe) ∨
      ∃ ps, pest_parse Rule.statement input = inr ps ∧
        (refusal e ∨ (MAX_EXPR_DEPTH < N.of_nat (max_list_with nesting ps))%N ∧
          ∃ k, e = nested_too_deep "expression nesting depth" k)
  | Panic => False
  end.
Proof.
  unfold parse, mbind, result_bind. destruct (_ <? _)%N eqn:L; [apply N.ltb_lt in L; by left|]. apply N.ltb_ge in L.
  pose proof (unclosed_from_no_panic (S (length (str_bytes input))) (str_bytes input) (str_bytes input)) as Nu.
  fold (check_unclosed_string (str_bytes input)) in Nu.
  destruct (check_unclosed_string _) as [[]|e|]; cbv beta iota; [|by auto|done].
  pose proof (brackets_from_no_panic (S (length (str_bytes input))) (str_bytes input) 0 0) as Nb.
  fold (check_bracket_depth (str_bytes input)) in Nb.
  destruct (check_bracket_depth _) as [[]|e|]; cbv beta iota; [|by auto|done].
  destruct (pest_parse _ _) as [pe|ps] eqn:E; [right; right; right; left; by exists pe|].
  destruct (pest_derives _ _ _ E) as (t & rest & _ & D). pose proof (parse_pairs_fine t ps D 0%N) as Hf.
  destruct (parse_pairs ps 0%N) as [d [x|e|]]; cbn [snd]; [by eauto| |done].
  do 4 right. exists ps. split; [done|]. apply Hf.
Qed.

(** C26: the checks before pest are exact.  [check_unclosed_string] accepts a text exactly when it
    falls into closed strings, comments and code, and otherwise reports the first quote that is
    not closed, at its position; on a text it accepts, [check_bracket_depth] refuses exactly when
    brackets outside strings and comments lie more than [MAX_EXPR_DEPTH] deep. *)
Theorem text_checks_exact input :
  match check_unclosed_string input with
  | Ok _ => ∃ code, tokens [] input code ∧
      check_bracket_depth input =
        if (MAX_EXPR_DEPTH <? deepest 0 code)%N
        then Err (nested_too_deep "bracket nesting depth" (MAX_EXPR_DEPTH + 1)) else Ok ()
  | Err e => (∀ code, ¬ tokens [] input code) ∧
      ∃ pre q rest code, input = pre ++ q :: rest ∧ tokens (q :: rest) pre code ∧
        is_quote q = true ∧ (∀ body after, rest = body ++ q :: after → ¬ string_body q body) ∧
        e = unclosed_string input (length pre) q
  | Panic => False
  end.
Proof.
  pose proof (λ code T, unclosed_from_tokens (S (length input)) input input code T ltac:(lia)) as Ht.
  pose proof (unclosed_from_spec (S (length input)) input input ltac:(lia)) as Hs.
  unfold check_unclosed_string. destruct (unclosed_from _ _ _) as [[]|e|]; [| |done].
  - clear Ht. destruct Hs as [code T]. exists code. split; [done|]. by apply brackets_from_tokens; [done|lia|].
  - split; [by intros code T%Ht|]. destruct Hs as (pre & q & rest & code & E & T & Hq & Hn & ->). exists pre, q, rest, code.
    split_and!; [done..|]. f_equal. rewrite E, length_app. lia.
Qed.

Lemma first_one {A} p c (k : Pair → P A) d : into_inner p = [c] → (first p ≫= k) d = k c d.
Proof. intros E. unfold first. by rewrite E. Qed.
(** The span of a literal. *)
Definition literal_span (p c : Pair) : Span := combine_spans (span_from_pair p) (span_from_pair c).
(** C27: an integer literal that the grammar admits - decimal, hexadecimal or octal, with a sign -
    is read as the number it writes when that fits in an i64, i64::MIN included, and is an error
    otherwise; it never wraps. *)
Theorem integer_literals_exact `{Unicode} p c d :
  good p → as_rule p = Rule.literal → into_inner p = [c] → as_rule c = Rule.integer_literal →
  (in_i64 (literal_value (text c)) →
    parse_literal p d =
      (d, Ok (literal_expr (LiteralValue.I64 (literal_value (text c))) (literal_span p c)))) ∧
  (¬ in_i64 (literal_value (text c)) → ∃ m, m ∈ overflow_texts ∧
    parse_literal p d = (d, Err (GraphError.syntax ("invalid integer literal: " +:+ m)))).
Proof.
  intros Hp E Ec Er. pose proof (kids_good p Hp) as F. rewrite Ec, Forall_singleton in F.
  pose proof (integer_literal_reads _ _ (atomic_body _ _ F Er eq_refl)) as R.
  unfold parse_literal. rewrite (first_one p c) by done. rewrite Er.
  unfold reads_as in R. destruct (parse_integer_literal (text c)) as [v|m|]; [| |done].
  - destruct R as [-> R]. by split.
  - destruct R as [R Hm]. split; [done|]. intros _. by exists m.
Qed.

(** C29: once pest has accepted the text, the walk over its tree leaves the thread's depth counter
    as it found it, whatever it answers, and as long as the expressions in each other together
    with those already entered stay within [MAX_EXPR_DEPTH], depth is no reason to refuse. *)
Theorem walk_restores_depth `{UnicodeLaws} t ps d :
  derives NonAtomic (Nt Rule.statement) t ps →
  (parse_pairs ps d).1 = d ∧
  ((d + N.of_nat (max_list_with nesting ps) ≤ MAX_EXPR_DEPTH)%N →
    ∀ e, (parse_pairs ps d).2 = Err e → refusal e).
Proof.
  intros D. pose proof (parse_pairs_fine t ps D d) as Hf.
  destruct (parse_pairs ps d) as [d' [x|e|]]; cbn [fst snd]; [| |done].
  - destruct Hf as [-> _]. by split.
  - destruct Hf as [-> [Hr|[L _]]]; (split; [done|]); intros Hn e' He; injection He as <-; [done|lia].
Qed.

(** A pair made of a rule that is not silent. *)
Lemma derives_pair m r t f :
  rule_kind r ≠ Silent → m ≠ InAtomic → derives m (Nt r) t f →
  ∃ c, f = [c] ∧ as_rule c = r ∧ text c = t ∧ derives (enter (rule_kind r) m) (body r) t (into_inner c).
Proof.
  intros Hk Hm D. inversion D as [| | | | | | | | | | | | | |? ? ? inside ? D' Hk']; subst.
  unfold makes in Hk'. destruct (rule_kind r), m; try done; destruct Hk' as (c & -> & ? & ? & <-); eauto.
Qed.
Lemma compound_seq a b t f :
  derives InCompound (Seq a b) t f → ∃ t1 t2 f1 f2, t = t1 ++ t2 ∧ f = f1 ++ f2 ∧
    derives InCompound a t1 f1 ∧ derives InCompound b t2 f2.
Proof.
  inversion 1 as [| | | | | |? ? ? t1 w t2 f1 f2 D1 S D2| | | | | | | |]; subst.
  inversion S; subst. by exists t1, t2, f1, f2.
Qed.
Lemma compound_tok s t f : derives InCompound (Tok s) t f → t = s ∧ f = [].
Proof. by inversion 1. Qed.
Lemma keyword_first s t f b r : derives NonAtomic (Kw s) t f → t = b :: r → byte_lower <$> t = byte_lower <$> s.
Proof. by inversion 1. Qed.

(** The parts of a literal that starts with a single quote. *)
Lemma quote_literal m t f r :
  m ≠ InAtomic → derives m (body Rule.literal) t f → t = quote_byte :: r →
  ∃ c q i, f = [c] ∧ as_rule c = Rule.string_literal ∧ into_inner c = [q] ∧ into_inner q = [i] ∧
    t = quote_byte :: text i ++ [quote_byte].
Proof.
  intros Hm D ->.
  apply derives_alt in D as [D|D]; [|apply derives_alt in D as [D|D]; [|apply derives_alt in D as [D|D];
    [|apply derives_alt in D as [D|D]]]].
  - exfalso. apply derives_pair in D as (c & _ & _ & _ & D); [|done..].
    apply float_texts in D as (s & u & E & [->| ->] & Hu); [|done].
    destruct Hu as [(d1 & d2 & z & -> & F & _)|(d & z & -> & Hn & F & _)].
    + destruct d1; [by simplify_eq/=|]. injection E as <- _. by inversion F.
    + destruct d; [done|]. injection E as <- _. by inversion F.
  - exfalso. apply derives_pair in D as (c & _ & _ & _ & D); [|done..].
    apply integer_texts in D as (s & u & E & [->| ->] & Hu); [|done].
    destruct Hu as [(x & h & -> & [->| ->] & _)|[(x & o & -> & [->| ->] & _)|[Hn F]]]; try done.
    cbn in E. subst u. by inversion F.
  - apply derives_pair in D as (c & -> & Ec & _ & D); [|done..].
    cbn [enter rule_kind Grammar.grammar] in D.
    apply derives_alt in D as [D|D]; apply derives_pair in D as (q & Eq & _ & _ & D); try done.
    all: apply compound_seq in D as (t1 & t2 & f1 & f2 & Et & Ei & D1 & D2).
    all: apply compound_tok in D1 as [-> ->].
    2: by exfalso.
    apply compound_seq in D2 as (t3 & t4 & f3 & f4 & -> & -> & D2 & D3).
    apply compound_tok in D3 as [-> ->]. apply derives_pair in D2 as (i & -> & _ & Hi & _); [|done..].
    exists c, q, i. split_and!; [done..|]. by rewrite Et, Hi.
  - exfalso. apply derives_pair in D as (c & _ & _ & _ & D); [|done..].
    apply derives_alt in D as [D|D]; by inversion D.
  - exfalso. apply derives_pair in D as (c & _ & _ & _ & D); [|done..]. by inversion D.
Qed.

(** C28: a string in single quotes, its quotes and backslashes escaped, is read back as it was. *)
Theorem quoted_strings_read_back `{Unicode} p s d :
  good p → as_rule p = Rule.literal → text p = quoted s → utf8_valid (str_bytes s) = true →
  ∃ span, parse_literal p d = (d, Ok (literal_expr (LiteralValue.String s) span)).
Proof.
  intros (m & Hm & D) E Et Hv. rewrite E, Et in *. cbn in Hm.
  apply (quote_literal _ _ _ (escape (str_bytes s) ++ [quote_byte])) in D
    as (c & q & i & Ec & Er & Eq & Ei & Hi); [|done..].
  injection Hi as Hi. apply app_inj_2 in Hi as [Hi _]; [|done].
  unfold parse_literal. rewrite (first_one p c) by done. rewrite Er, (first_one c q) by done.
  rewrite (first_one q i) by done. unfold as_str. rewrite <- Hi, unescape_escape by by apply valid_chars.
  by eexists.
Qed.

Lemma pest_good `{PestLaws} r s p : pest_parse r s = inr [p] → good p.
Proof.
  intros (t & rest & _ & D)%pest_derives. apply derives_good in D. by rewrite Forall_singleton in D.
Qed.

(** ** Witnesses *)
#[local] Instance ascii_text : Unicode := {
  to_lowercase := ascii_lowercase; to_uppercase s := bytes_str (ascii_upper <$> str_bytes s) }.
#[local] Instance ascii_text_laws : UnicodeLaws.
Proof. done. Qed.
#[local] Existing Instance Reference.pest.
#[local] Existing Instance Reference.pest_laws.
Definition sample : string := "MATCH (n:P) WHERE ALL (x IN n.l WHERE x > 0x10) RETURN 'a\'b'".
Lemma parse_answers_witness :
  is_Some (match parse sample with Ok s => Some s | _ => None end) ∧
  match parse sample with
  | Ok _ =>
      (N.of_nat (str_len sample) ≤ MAX_QUERY_BYTES)%N ∧ ∃ ps, pest_parse Rule.statement sample = inr ps
  | _ => False
  end.
Proof.
  pose proof (parse_answers sample) as Ha.
  destruct (parse sample) as [s|e|] eqn:E.
  - split; [by eexists|exact Ha].
  - exfalso. by vm_compute in E.
  - exfalso. by vm_compute in E.
Defined.

(** What the reference engine makes of a text, from a rule. *)
Definition pairs_of (r : Rule) (s : string) : list Pair :=
  match pest_parse r s with inr ps => ps | inl _ => [] end.
Definition literal_of (s : string) : Pair :=
  default (mkPair Rule.EOI 0 0 0 0 [] []) (head (pairs_of Rule.literal s)).
Definition smallest : Pair := literal_of "-0x8000000000000000".
Lemma integer_literals_exact_witness :
  good smallest ∧ as_rule smallest = Rule.literal ∧
  @parse_literal ascii_text smallest 7%N =
    (7%N, Ok (literal_expr (LiteralValue.I64 i64_min)
      (literal_span smallest (default smallest (head (into_inner smallest)))))).
Proof.
  assert (good smallest) as Hg by (apply (pest_good Rule.literal "-0x8000000000000000"); by vm_compute).
  split; [exact Hg|]. split; [by vm_compute|].
  assert (into_inner smallest = [default smallest (head (into_inner smallest))]) as Ei by by vm_compute.
  assert (as_rule (default smallest (head (into_inner smallest))) = Rule.integer_literal) as Er by by vm_compute.
  assert (literal_value (text (default smallest (head (into_inner smallest)))) = i64_min) as Ev by by vm_compute.
  pose proof (@integer_literals_exact ascii_text smallest _ 7%N Hg ltac:(by vm_compute) Ei Er) as [H _].
  rewrite Ev in H. apply H. vm_compute. split; discriminate.
Defined.

Definition awkward : string := "it's \a/".
Definition awkward_literal : Pair := literal_of (bytes_str (quoted awkward)).
Lemma quoted_strings_read_back_witness :
  good awkward_literal ∧
  ∃ span, @parse_literal ascii_text awkward_literal 7%N =
    (7%N, Ok (literal_expr (LiteralValue.String awkward) span)).
Proof.
  assert (good awkward_literal) as Hg by (apply (pest_good Rule.literal (bytes_str (quoted awkward))); by vm_compute).
  split; [exact Hg|].
  apply (@quoted_strings_read_back ascii_text awkward_literal awkward 7%N Hg); by vm_compute.
Defined.

(** Two expressions in each other, with as many levels left. *)
Definition nested_pairs : list Pair := pairs_of Rule.statement "RETURN (1)".
Lemma walk_restores_depth_witness :
  max_list_with nesting nested_pairs = 2 ∧
  (parse_pairs nested_pairs 254%N).1 = 254%N ∧ (parse_pairs nested_pairs 256%N).1 = 256%N ∧
  ¬ is_Some (match (parse_pairs nested_pairs 255%N).2 with Ok s => Some s | _ => None end).
Proof.
  assert (∃ t, derives NonAtomic (Nt Rule.statement) t nested_pairs) as [t D].
  { assert (pest_parse Rule.statement "RETURN (1)" = inr nested_pairs) as E by by vm_compute.
    destruct (pest_derives _ _ _ E) as (t & rest & _ & D). by exists t. }
  split; [by vm_compute|].
  split; [apply (walk_restores_depth t nested_pairs 254%N D)|].
  split; [apply (walk_restores_depth t nested_pairs 256%N D)|].
  vm_compute. by intros [? ?].
Defined.
